(* ===== verification/_CoqProject ===== *)
-Q . S2P
Prelude.v
Counters.v
Registers.v
OrSet.v
Rga.v
Crdt.v
Graph.v
L0State.v
L0.v
L0Replay.v
L0Recovery.v
L0Merge.v
L0Data.v
L0Keys.v
Occ.v
Carveout.v
Commit.v
CommitTimes.v
Visibility.v
Manager.v
Snapshot.v
Checkpoint.v
Wal.v
WalRun.v
WalFaults.v
Publish.v
BulkGate.v
IdAlloc.v
Csr.v
Remapper.v
Pins.v
Adjacency.v
AdjacencyLayers.v
AdjacencyRuns.v
AdjacencyReads.v
AdjacencyVersions.v
AdjacencyHistory.v
Btic.v
Projection.v
TopoSort.v
Bipartite.v
CycleDetection.v
Tarjan.v
Stratify.v
Locy.v
LocyDeps.v
LocyStrata.v
Arith.v
RvSet.v
Dnf.v
TopK.v
Wcc.v
Sparse.v
Float64.v
Entries.v
CypherValue.v
ValueEq.v
JoinKey.v
TemporalText.v
SortKey.v
SortKeyOrder.v
TrailReach.v
PathNfa.v
FilterEval.v
FilterSql.v
SqlText.v
FilterRead.v
CrashIO.v
Forks.v
ForkLifecycle.v
ForkRuns.v
ForkSafety.v
ForkCascade.v
Examples.v
CommitExamples.v
WalExamples.v
ManagerExamples.v
AdjacencyExamples.v
LocyExamples.v
ForkExamples.v
