(* ===== verification/Prelude.v ===== *)
(** * Verification of the uni-db core

    uni-db is an embedded graph database.  Writes go to an in-memory buffer,
    the L0 buffer, and to a write-ahead log; commits are checked by optimistic
    concurrency control and merged into the current buffer; buffers are rotated
    out and flushed to columnar tables; reads go through the layers of buffers,
    pinned by snapshots.  The topology has layers of its own: packed rows per
    edge type, overlay segments on top and a shadow of deleted edges for older
    readers.  Property values can be CRDTs, whose merges resolve
    concurrent commits.  Queries compare, hash, join and sort the values of
    Cypher.  Around this core are a temporal interval type (BTIC),
    graph algorithms on CSR projections and a rule language, Locy, whose
    programs are compiled to strata.  A database can be forked: a catalog of
    forks with their branches is kept through crashes by two-phase creation,
    tombstones and recovery.  This library translates that
    core to functions on explicit states and proves what each part promises to
    the others.  Paths are relative to src/crates.

    ** Files and what they model

    - [Prelude]: results, machine integers, maps and lists shared by all.
    - [Counters], [Registers], [OrSet], [Rga] (uni-crdt/src): GCounter, GSet,
      VectorClock; LWWRegister, LWWMap, VCRegister; ORSet with its wire formats;
      Rga.  [Crdt]: the enum over them and the registry route (lib.rs,
      registry_dispatch.rs).
    - [Graph] (uni-common/src/graph/simple_graph.rs): adjacency lists with
      positions and swap-remove.
    - [L0State], [L0] (uni-store/src/runtime/l0.rs): the state and every
      operation of the write buffer.  [Topology], [Values] and [HashOrder] are
      the classes through which it uses the graph, property values and the
      iteration order of hash maps; [Graph] and the examples discharge them.
      [L0Replay], [L0Recovery]: replaying the log; [L0Merge], [L0Data]: merging
      a transaction; [L0Keys]: constraint keys.
    - [Occ], [Carveout] (runtime/occ.rs): write and read sets, the commit
      registry, the CRDT carve-out.
    - [Commit], [CommitTimes] (runtime/writer.rs): the commit of a transaction
      under flush_lock: endpoint validation, log records, CRDT seeding, merge.
    - [Visibility] (runtime/l0_visibility.rs, context.rs): layered reads.
    - [Manager] (runtime/l0_manager.rs and the swaps and writes of writer.rs):
      the buffers in a heap, so that snapshots alias them.  [Snapshot]: runs of
      the manager with live snapshots.  [Checkpoint]: the marks that flushes
      publish and truncate the log to.
    - [Wal], [WalRun], [WalFaults] (runtime/wal.rs): segment files, batches,
      flushes with every outcome of put, fsync and cleanup, opening, replay and
      truncation, as a step relation with crashes.
    - [Publish] (publish_sequencer.rs), [BulkGate] (storage/bulk_gate.rs,
      backend/types.rs), [IdAlloc] (id_allocator.rs, id_reservoir.rs): the
      announcement sequencer, the bulk visibility gate, id allocation.
    - [FilterEval] (backend/eval.rs, traits.rs): native evaluation of row
      predicates in three-valued logic.  [FilterSql] (backend/types.rs): their
      rendering to SQL text and what is pushed down.  The engine that reads the
      text is an argument, of which [SqlText] states what is relied on: the
      meaning of a grammar of SQL conditions.  [FilterRead] is a concrete engine
      of this kind, for the witness; neither models code of the repository.
    - [Csr], [Remapper] (storage/csr.rs, runtime/vid_remapper.rs): compressed
      rows by id and by dense index.  [Pins] (adjacency_manager.rs,
      storage/manager.rs): pinned versions and the horizon of merges.
      [Adjacency] (storage/adjacency_manager.rs, adjacency_overlay.rs,
      shadow_csr.rs, direction.rs): the layered adjacency, its reads, writes,
      compaction, collection and warming.  [AdjacencyLayers],
      [AdjacencyVersions]: what a read returns layer by layer;
      [AdjacencyRuns], [AdjacencyReads]: runs and reads of the current state;
      [AdjacencyHistory]: reads at a version.
    - [Btic] (uni-btic/src): intervals, packed form, predicates, set operations.
    - [Projection], [TopoSort], [Bipartite], [CycleDetection], [Wcc]
      (uni-algo/src/algo): id maps and CSR construction, topological sort,
      two-colouring, cycle search, weakly connected components.
    - [Sparse] (uni-sparse-vector/src): sparse vectors, their sums, products,
      pruning and binary form, with f32 arithmetic on bit patterns.
    - [Float64]: f64 bit patterns, exact comparison and rounding of integers;
      [Entries]: maps as lists of entries, sorted by key.  [CypherValue],
      [ValueEq] (uni-common/src/value.rs): values, entity identity, equality and
      hash.  [JoinKey] (uni-query-functions/src/expr_eval.rs,
      df_udfs/join_key.rs): Cypher equality, IN, bucket keys of hash joins.
      [TemporalText] (datetime.rs, expr_eval.rs, value.rs): strings that read as
      temporals, and the text of dates and times.  [SortKey] (uni-query/src/query/executor/core.rs,
      df_udfs/sort_key.rs): the comparator of ORDER BY and the byte keys;
      [SortKeyOrder]: that they agree.
    - [TrailReach] (df_graph/trail_reach.rs): endpoints of trails from shortest
      distances.  [PathNfa] (df_graph/nfa.rs, traverse.rs): automata of
      variable-length and quantified patterns, expansion along them, and the
      fast path of reachability queries.
    - [CrashIO]: programs of I/O operations that succeed, are refused or end
      the process, with a weakest-precondition calculus.  [Forks]
      (uni-common/src/core/fork.rs, uni-store/src/fork/registry.rs,
      id_alloc.rs): fork records and the registry with its files.
      [ForkLifecycle] (uni/src/api/fork.rs, fork_admin.rs, fork/recovery.rs,
      backend/branched.rs): creation in two phases, lazy branches, drops,
      recovery.  [ForkRuns]: what each of them keeps; [ForkSafety]: runs with
      crashes; [ForkCascade]: the drop of a fork with its descendants.
    - [Tarjan], [Stratify] (uni-locy/src/compiler/stratify.rs): components of the
      rule graph, cyclic negation, the order of evaluation.  [Locy]
      (uni-cypher/src/locy_ast.rs, compiler/modules.rs, names.rs): programs,
      modules, names.  [LocyDeps] (compiler/dependency.rs, warded.rs): the rule
      graph, wardedness.  [LocyStrata] (compiler/mod.rs, prune.rs,
      uni/src/api/impl_locy.rs): strata, their pruning and merging.  [RvSet], [Dnf], [TopK]
      (uni-locy/src/dependency_dnf.rs, top_k_proofs.rs): sets of random
      variables, weights of formulas over them, tags of proofs.  [Arith]: the
      arithmetic of weights, as binary64 and as exact rationals.
    - [Examples], [CommitExamples], [WalExamples], [ManagerExamples],
      [AdjacencyExamples], [LocyExamples], [ForkExamples]: concrete runs, evaluated, at which the theorems with
      hypotheses apply.

    ** How the code is represented

    A structure is a record, an enum an inductive type, a [&mut self] method a
    function returning the new state; [Result] is [result], a panic is [None]
    (or excluded by a theorem), a shared [Arc<RwLock<_>>] is a location in a
    heap where aliasing matters.  Machine integers are [Z] with wrap-around,
    saturation or checks as the operation has them; counters the code
    increments once per write are taken not to reach 2^64, and the u32 counts,
    offsets and slots of a projection and the ids of random variables are
    checked; floats are bit patterns, in [Sparse], in Cypher values and in row
    predicates, or binary64 numbers, in [Dnf] and [TopK], and their operations
    round; the theorem on weights of formulas is about the same code in exact
    arithmetic.  Iteration over a hash map goes through [HashOrder],
    an arbitrary order, so nothing proved depends on it.  Clocks, fresh UUIDs,
    serde_json, MessagePack, blake3, chrono, the SQL engine and the plugin
    providers are arguments; what is used of them is a named hypothesis or a class with an instance in the
    examples.  Concurrent parts are step relations: a step is what the code does
    while it holds the lock, and where the code takes no lock across two actions
    ([Snapshot], [Adjacency]) they are two steps.

    ** What is proved

    - Durability: replaying the log of a run rebuilds the buffer
      ([recovery_rebuilds_buffer]) and that of commits the committed data
      ([commits_recover], but for the labels of a vertex written after its
      deletion, [revived_labels_differ]); the log survives a crash at any point
      ([wal_recovers_acknowledged], [wal_keeps_order],
      [segment_envelope_integrity]); flush marks never pass an unflushed commit
      ([checkpoint_never_passes_unflushed]).  The fork catalog survives a crash
      between any two I/O operations of creation, drop or recovery
      ([fork_catalog_crash_safe]), and a cascading drop removes exactly the
      descendants ([cascade_drops_subtree]).
    - Atomicity and isolation: [merge_is_atomic], [merge_applies_transaction],
      [commit_publishes_transaction_view], [layered_reads_agree],
      [snapshot_isolation], [occ_check_exact], [admitted_reads_current],
      [carveout_merges_commute], [announcements_in_commit_order],
      [announced_mark_names_prefix], [gate_hides_held_versions],
      [ids_never_reused], [constraint_index_exact],
      [constraint_keys_unambiguous].
    - Topology: in runs of writes, compactions section by section, collections
      and warms from tables that hold what compaction moved, reads outside the
      gap of a compaction return exactly the live edges
      ([adjacency_reads_exact]); a reader at an older version keeps the edges of
      its version ([versioned_reads_complete]) and the merges of the storage
      keep its history ([pins_protect_history]); rows over dense indices are
      exact ([from_edges_exact]).
    - Convergence of CRDTs: [orset_merge_laws], [orset_refines_tombstone_set],
      [orset_add_wins], [replicas_converge], [to_vec_total],
      [rga_edits_in_place], [rga_merge_laws], [registry_dispatch_agrees].
    - Data structures and algorithms: [graph_refines_edge_map],
      [projection_exact], [topological_sort_correct],
      [cycle_detection_correct], [bipartite_check_correct], [wcc_correct], the
      four theorems on BTIC, and for sparse vectors [sparse_codec_exact],
      [sparse_dot_exact], [from_pairs_exact], [prune_keeps_heaviest].
    - Values: equality and hash keep the contract of hash collections
      ([value_hash_eq_contract]), equal values share a join bucket
      ([equal_values_share_join_key]), and the sort keys order plain values as
      the comparator does ([sort_keys_order_as_comparator]), which is a total
      preorder on them ([comparator_total_order]).
    - Row predicates: an SQL engine answers the text of a typed predicate as
      the native evaluator answers the predicate ([rendered_text_agrees]); what is pushed down renders
      and loses no row ([pushed_down_is_weaker]); numbers are compared without
      rounding ([numbers_compared_exactly]); the visibility predicate admits
      exactly the visible versions ([visibility_answered_natively]).
    - Paths: the automaton of a quantified pattern accepts exactly its
      iterations ([qpp_automaton_exact]); the endpoints of trails are exact
      where distances decide ([trail_endpoints_exact]) and so is the fast path
      built on both ([plain_endpoints_exact]); no trail is longer than the
      relationships counted ([reachable_relationships_bound]).
    - Rules: the passes before the type checker end in an error that is true of
      the program or in a stratification, from which the assembly makes strata in
      a sound order of evaluation ([strata_passes_correct]); a program gets exactly
      the registered strata it can reach ([merge_registered_exact]); an ambiguous
      name is refused ([resolve_unique_spec]) and a reference matches what it was
      resolved to ([resolve_matches]).  The weight of a formula is, in exact
      arithmetic, its probability ([dnf_weight_is_probability]), its sets are the sets they stand
      for ([rv_sets_refine_sets]), and tags are exact until they are pruned
      ([merge_top_k_exact], [tag_arithmetic_sound]).
    - Flaws the model exhibits: [merge_not_associative],
      [null_tombstone_diverges], [commit_redates_vertices],
      [torn_tail_blocks_recovery], [failed_commit_is_recovered],
      [late_pin_sees_commit], [pin_in_rotation_gap], [compaction_never_due],
      [torn_read_misses_edges], [compaction_shows_future_edges],
      [compaction_drops_older_version], [warm_drops_compacted_edges],
      [exact_key_refused], [metadata_orders_intervals],
      [datetime_text_overflows],
      [along_operator_hides_model], [registered_ids_not_dense],
      [representation_not_canonical], [last_window_panics],
      [forward_rows_misreport], [stale_tombstone_drops_fork],
      [failed_activation_opens], [failed_registration_blocks_name],
      [recovery_forgets_branch], [dropped_overlay_survives],
      [unrecorded_branch_survives], [classify_temporal_panics],
      [order_by_implementations_disagree], [self_loop_missed],
      [long_ranges_wrap], [qpp_never_plain], [folding_ignores_equal_numbers],
      [respelling_widens_floats], [array_test_prints_i64_min].

    ** Fuel

    Loops that are not structural run on fuel, and the theorem about the result
    shows that the fuel given suffices: the traversal of [Rga.to_vec] (twice the
    number of nodes plus two; [to_vec_total]), the queue of [TopoSort.run] (a
    round per vertex and the last test; [topological_sort_correct]),
    the recursion of [CycleDetection.find_cycle] and the queue of [Bipartite.bfs]
    (a round per vertex and one more; [cycle_detection_correct],
    [bipartite_check_correct]), the merge-join of [Sparse.sparse_dot] (the
    lengths of both vectors; [sparse_dot_exact]), the queue and the frontiers of
    [TrailReach] (a round per vertex; [trail_endpoints_exact],
    [reachable_relationships_bound]), the walk over the
    descendants of a fork (a round per registered fork;
    [cascade_drops_subtree]),
    [Wcc.find] (a path has at most as many nodes as there are vertices;
    [wcc_correct]), the draining of an adjacency list in [Graph] (its length;
    [graph_refines_edge_map]), the release loop of [Publish] (the completed
    tickets; [announcements_in_commit_order]), the binary search of [Projection]
    (the length of the list; [projection_exact]), the walk of [Tarjan.tarjan] (a
    round per node and per edge, for each root; [tarjan_components]),
    [Stratify.kahn] (a round per component and the last test; [kahn_ok]) the search
    of [LocyStrata] (each name enters the queue once;
    [reachable_pool_strata_exact]), the rendering of a predicate (its depth and
    the respelling of a leaf; [to_sql_outcome]), the reader of its text (four
    calls a token; [reader_speaks_sql]) and the bit loop of [Dnf.select] (a round per
    set bit of 32; [select_spec]).

    ** Not modelled

    Arrow and Lance tables, their compaction and indexes (a warm starts from
    decoded rows; its retry loop and the table versions behind its freshness
    stamp are left out); object stores beyond
    the files the log, the id allocator and the fork registry keep; the Cypher front end, planners
    and the other query operators; of values their text (but for dates and times), conversions and temporal arithmetic; of Locy the type checker, magic sets, binding plans,
    the other semirings, commands and the evaluation of strata; plugins; bindings; async scheduling other than as
    the order of steps; deadlines, metrics and tracing.  Of the parts above: the
    fork overlays, diff and promotion, snapshots, the BTIC parser and Display, the builder of projections from storage and the
    other algorithms, read-only buffer managers.

    ** Plan

    Next: the other algorithms on projections, the text of floats, the
    contents of fork overlays and snapshots, the BTIC parser. *)

From stdpp Require Export base tactics list gmap strings sorting fin_maps fin_sets.
From Stdlib Require Export ZArith Lia.

#[global] Open Scope Z_scope.

(** ** Results *)

(** Rust's [Result<A, E>]. *)
Inductive result (E A : Type) : Type :=
| Ok (a : A)
| Err (e : E).
Arguments Ok {E A} a.
Arguments Err {E A} e.

Definition rbind {E A B} (r : result E A) (k : A -> result E B) : result E B :=
  match r with
  | Ok a => k a
  | Err e => Err e
  end.

Declare Scope uni_scope.
Delimit Scope uni_scope with uni.
Notation "'let?' x ':=' c 'in' k" := (rbind c (fun x => k))
  (at level 10, x pattern, c at level 100, k at level 200) : uni_scope.
#[global] Open Scope uni_scope.

Definition is_ok {E A} (r : result E A) : bool :=
  match r with Ok _ => true | Err _ => false end.

(** [Result::ok]. *)
Definition ok {E A} (r : result E A) : option A :=
  match r with Ok a => Some a | Err _ => None end.

Lemma rbind_Ok {E A B} (r : result E A) (k : A -> result E B) b :
  rbind r k = Ok b <-> exists a, r = Ok a /\ k a = Ok b.
Proof.
  destruct r as [a|e]; simpl; split; [eauto | by intros (? & [= ->] & ?) | done | by intros (? & ? & ?)].
Qed.

(** ** Machine integers

    A w-bit integer is a [Z] kept in its range; the operations of the language
    write their wrap-around or their check out. *)

Definition U64_MAX : Z := 2 ^ 64 - 1.
Definition U32_MAX : Z := 2 ^ 32 - 1.
Definition I64_MIN : Z := - 2 ^ 63.
Definition I64_MAX : Z := 2 ^ 63 - 1.

Definition is_u64 (z : Z) : Prop := 0 <= z < 2 ^ 64.
Definition is_u32 (z : Z) : Prop := 0 <= z < 2 ^ 32.
Definition is_u8 (z : Z) : Prop := 0 <= z < 2 ^ 8.
Definition is_i64 (z : Z) : Prop := - 2 ^ 63 <= z < 2 ^ 63.

(** The release-mode [+] on [u64] (and [fetch_add]). *)
Definition wrapping_add_u64 (a b : Z) : Z := (a + b) mod 2 ^ 64.

(** [x as u64] for [x : i64], and [x as i64] for [x : u64]. *)
Definition as_u64 (z : Z) : Z := z mod 2 ^ 64.
Definition as_i64 (z : Z) : Z := (z + 2 ^ 63) mod 2 ^ 64 - 2 ^ 63.
(** [x as u32] for a wider unsigned [x]. *)
Definition as_u32 (z : Z) : Z := z mod 2 ^ 32.

Definition checked_add_u64 (a b : Z) : option Z :=
  if a + b <? 2 ^ 64 then Some (a + b) else None.
Definition saturating_add_u64 (a b : Z) : Z := Z.min (a + b) U64_MAX.
Definition checked_sub_i64 (a b : Z) : option Z :=
  if (I64_MIN <=? a - b) && (a - b <=? I64_MAX) then Some (a - b) else None.

#[export] Instance is_u64_dec z : Decision (is_u64 z).
Proof. unfold is_u64; apply _. Defined.
#[export] Instance is_i64_dec z : Decision (is_i64 z).
Proof. unfold is_i64; apply _. Defined.
#[export] Instance is_u32_dec z : Decision (is_u32 z).
Proof. unfold is_u32; apply _. Defined.
#[export] Instance is_u8_dec z : Decision (is_u8 z).
Proof. unfold is_u8; apply _. Defined.

Ltac unfold_ints :=
  unfold is_u64, is_u32, is_u8, is_i64, U64_MAX, U32_MAX, I64_MIN, I64_MAX in *.
Ltac int_lia := unfold_ints; lia.

Lemma wrapping_add_small a b :
  0 <= a + b < 2 ^ 64 -> wrapping_add_u64 a b = a + b.
Proof. intros. unfold wrapping_add_u64. by rewrite Z.mod_small. Qed.

Lemma wrapping_add_is_u64 a b : is_u64 (wrapping_add_u64 a b).
Proof. unfold is_u64, wrapping_add_u64. by apply Z.mod_pos_bound. Qed.

Lemma as_u64_is_u64 z : is_u64 (as_u64 z).
Proof. unfold is_u64, as_u64. by apply Z.mod_pos_bound. Qed.

Lemma as_i64_is_i64 z : is_i64 (as_i64 z).
Proof.
  unfold is_i64, as_i64.
  pose proof (Z.mod_pos_bound (z + 2 ^ 63) (2 ^ 64) ltac:(lia)). lia.
Qed.

Lemma as_i64_as_u64 z : is_i64 z -> as_i64 (as_u64 z) = z.
Proof.
  intros [? ?]. unfold as_i64, as_u64.
  rewrite Zplus_mod_idemp_l, Z.mod_small by lia. lia.
Qed.

Lemma as_u64_as_i64 z : is_u64 z -> as_u64 (as_i64 z) = z.
Proof.
  intros [? ?]. unfold as_i64, as_u64.
  rewrite Zminus_mod_idemp_l. replace (z + 2 ^ 63 - 2 ^ 63) with z by lia.
  by apply Z.mod_small.
Qed.

Create HintDb ints.
#[export] Hint Resolve wrapping_add_is_u64 as_u64_is_u64 as_i64_is_i64 : ints.

(** Rust's [Ord::cmp] result, and [Ordering::then]. *)
Definition then_cmp (a b : comparison) : comparison :=
  match a with Eq => b | _ => a end.

#[export] Instance comparison_eq_dec : EqDecision comparison.
Proof. solve_decision. Defined.

(** ** Bytes

    [to_be_bytes]/[from_be_bytes] and the little-endian pair, on byte lists. *)

Fixpoint to_le_bytes (n : nat) (z : Z) : list Z :=
  match n with
  | O => []
  | S n => z mod 256 :: to_le_bytes n (z / 256)
  end.

Fixpoint from_le_bytes (bs : list Z) : Z :=
  match bs with
  | [] => 0
  | b :: bs => b + 256 * from_le_bytes bs
  end.

Definition to_be_bytes (n : nat) (z : Z) : list Z := reverse (to_le_bytes n z).
Definition from_be_bytes (bs : list Z) : Z := from_le_bytes (reverse bs).

Lemma length_to_le_bytes n z : length (to_le_bytes n z) = n.
Proof. revert z; induction n; intros; simpl; auto. Qed.

Lemma length_to_be_bytes n z : length (to_be_bytes n z) = n.
Proof. unfold to_be_bytes. by rewrite length_reverse, length_to_le_bytes. Qed.

Lemma to_le_bytes_u8 n z : Forall is_u8 (to_le_bytes n z).
Proof.
  revert z; induction n; intros z; simpl; constructor; auto.
  unfold is_u8. change (2 ^ 8) with 256. by apply Z.mod_pos_bound.
Qed.

Lemma pow256_S (n : nat) : 256 ^ Z.of_nat (S n) = 256 * 256 ^ Z.of_nat n.
Proof. rewrite Nat2Z.inj_succ, Z.pow_succ_r by lia. done. Qed.

Lemma from_to_le_bytes n z :
  from_le_bytes (to_le_bytes n z) = z mod 256 ^ Z.of_nat n.
Proof.
  revert z; induction n as [|n IH]; intros z; simpl from_le_bytes.
  { by rewrite Z.mod_1_r. }
  rewrite IH, pow256_S.
  rewrite Z.rem_mul_r by (try apply Z.pow_nonzero; lia). lia.
Qed.

Lemma to_from_le_bytes bs :
  Forall is_u8 bs -> to_le_bytes (length bs) (from_le_bytes bs) = bs.
Proof.
  induction 1 as [|b bs Hb _ IH]; simpl; [done|].
  unfold is_u8 in Hb. change (2 ^ 8) with 256 in Hb.
  rewrite Z.add_comm, (Z.mul_comm 256).
  rewrite Z.div_add_l, Z.div_small, Z.add_0_r, IH by lia.
  f_equal. rewrite Z.add_comm, Z.mod_add, Z.mod_small by lia. done.
Qed.

Lemma from_le_bytes_bound bs :
  Forall is_u8 bs -> 0 <= from_le_bytes bs < 256 ^ Z.of_nat (length bs).
Proof.
  induction 1 as [|b bs Hb _ IH]; simpl from_le_bytes; simpl length; [done|].
  rewrite pow256_S. unfold is_u8 in Hb. change (2 ^ 8) with 256 in Hb. lia.
Qed.

Lemma from_to_be_bytes n z :
  from_be_bytes (to_be_bytes n z) = z mod 256 ^ Z.of_nat n.
Proof. unfold from_be_bytes, to_be_bytes. by rewrite reverse_involutive, from_to_le_bytes. Qed.

Lemma to_be_bytes_u8 n z : Forall is_u8 (to_be_bytes n z).
Proof. apply Forall_reverse, to_le_bytes_u8. Qed.

Lemma to_from_be_bytes bs :
  Forall is_u8 bs -> to_be_bytes (length bs) (from_be_bytes bs) = bs.
Proof.
  intros H. unfold from_be_bytes, to_be_bytes.
  rewrite <- (length_reverse bs), to_from_le_bytes by by apply Forall_reverse.
  apply reverse_involutive.
Qed.

(** [memcmp]: lexicographic comparison of byte strings. *)
Fixpoint memcmp (a b : list Z) : comparison :=
  match a, b with
  | [], [] => Eq
  | [], _ :: _ => Lt
  | _ :: _, [] => Gt
  | x :: a, y :: b => then_cmp (x ?= y) (memcmp a b)
  end.

Lemma memcmp_opp a b : memcmp b a = CompOpp (memcmp a b).
Proof.
  revert b; induction a as [|x a IH]; intros [|y b]; simpl; auto.
  rewrite (Z.compare_antisym x y). destruct (x ?= y); simpl; auto.
Qed.

Lemma memcmp_eq a b : memcmp a b = Eq <-> a = b.
Proof.
  split; [|intros ->; induction b; simpl; rewrite ?Z.compare_refl; auto].
  revert b; induction a as [|x a IH]; intros [|y b]; simpl; try done.
  destruct (Z.compare_spec x y); simpl; try done. intros ?%IH. by subst.
Qed.

Lemma memcmp_lt_trans a b c : memcmp a b = Lt -> memcmp b c = Lt -> memcmp a c = Lt.
Proof.
  revert b c; induction a as [|x a IH]; intros [|y b] [|z c]; simpl; try done.
  destruct (Z.compare_spec x y), (Z.compare_spec y z); simpl; try done;
    intros; subst; rewrite ?Z.compare_refl; simpl; eauto;
    (destruct (Z.compare_spec x z); simpl; [lia|done|lia]) ||
    (destruct (Z.compare_spec y z); simpl; [lia|done|lia]).
Qed.

Lemma memcmp_app a1 a2 b1 b2 :
  length a1 = length b1 ->
  memcmp (a1 ++ a2) (b1 ++ b2) = then_cmp (memcmp a1 b1) (memcmp a2 b2).
Proof.
  revert b1; induction a1 as [|x a1 IH]; intros [|y b1] Hl; simpl in *; try lia; auto.
  rewrite IH by lia. by destruct (x ?= y).
Qed.

Lemma to_be_bytes_S n z :
  to_be_bytes (S n) z = to_be_bytes n (z / 256) ++ [z mod 256].
Proof. unfold to_be_bytes. simpl. by rewrite reverse_cons. Qed.

(** Big-endian encodings of numbers that fit compare as the numbers do. *)
Lemma memcmp_to_be_bytes n x y :
  0 <= x < 256 ^ Z.of_nat n -> 0 <= y < 256 ^ Z.of_nat n ->
  memcmp (to_be_bytes n x) (to_be_bytes n y) = (x ?= y).
Proof.
  revert x y; induction n as [|n IH]; intros x y Hx Hy.
  { simpl in *. replace x with y by lia. by rewrite Z.compare_refl. }
  rewrite pow256_S in *.
  rewrite !to_be_bytes_S, memcmp_app by by rewrite !length_to_be_bytes.
  rewrite IH by (split; [apply Z.div_pos; lia | apply Z.div_lt_upper_bound; lia]).
  simpl. pose proof (Z.div_mod x 256 ltac:(lia)). pose proof (Z.div_mod y 256 ltac:(lia)).
  pose proof (Z.mod_pos_bound x 256 ltac:(lia)). pose proof (Z.mod_pos_bound y 256 ltac:(lia)).
  destruct (Z.compare_spec (x / 256) (y / 256)); simpl;
    [destruct (Z.compare_spec (x mod 256) (y mod 256)); simpl | |];
    symmetry; rewrite ?Z.compare_eq_iff, ?Z.compare_lt_iff, ?Z.compare_gt_iff; lia.
Qed.

(** ** Iterating over a hash map

    The order in which a Rust hash map yields its entries is unspecified.
    A loop over one is modelled as a fold over some enumeration of its
    entries; [for_entries] picks stdpp's enumeration, and
    [for_each_lookup_any_order] shows that a loop that only touches the entry
    it visits gives the same result for every enumeration. *)

Section for_entries.
Context {K : Type} `{Countable K} {A B : Type}.

Definition for_each {S} (step : S -> K -> A -> S) (s : S) (l : list (K * A)) : S :=
  foldl (fun s e => step s e.1 e.2) s l.

Definition for_entries {S} (step : S -> K -> A -> S) (s : S) (m : gmap K A) : S :=
  for_each step s (map_to_list m).

(** [step] changes only the visited key, to [f] of its old value. *)
Definition pointwise (step : gmap K B -> K -> A -> gmap K B)
    (f : K -> option B -> A -> option B) : Prop :=
  forall s k a j, step s k a !! j = if decide (k = j) then f k (s !! k) a else s !! j.

Lemma for_each_lookup step f s (l : list (K * A)) j :
  pointwise step f -> NoDup l.*1 ->
  for_each step s l !! j =
    match (list_to_map l : gmap K A) !! j with
    | Some a => f j (s !! j) a
    | None => s !! j
    end.
Proof.
  intros Hp. revert s. induction l as [|[k a] l IH]; intros s Hnd; simpl.
  { by rewrite lookup_empty. }
  apply NoDup_cons in Hnd as [Hk Hnd]. unfold for_each in *. simpl.
  rewrite IH by done. rewrite Hp, lookup_insert.
  destruct (decide (k = j)) as [->|]; [|done].
  by rewrite not_elem_of_list_to_map_1 by done.
Qed.

Lemma for_each_lookup_any_order step f s (m : gmap K A) l j :
  pointwise step f -> l ≡ₚ map_to_list m ->
  for_each step s l !! j =
    match m !! j with Some a => f j (s !! j) a | None => s !! j end.
Proof.
  intros Hp Hl. assert (NoDup l.*1) as Hnd.
  { rewrite Hl. apply NoDup_fst_map_to_list. }
  rewrite (for_each_lookup _ _ _ _ _ Hp Hnd).
  rewrite (list_to_map_proper l (map_to_list m)) by done.
  by rewrite list_to_map_to_list.
Qed.

Lemma for_entries_lookup step f s (m : gmap K A) j :
  pointwise step f ->
  for_entries step s m !! j =
    match m !! j with Some a => f j (s !! j) a | None => s !! j end.
Proof. intros. by apply for_each_lookup_any_order. Qed.

Lemma for_each_any_order step f s (m : gmap K A) l :
  pointwise step f -> l ≡ₚ map_to_list m ->
  for_each step s l = for_entries step s m.
Proof.
  intros. apply map_eq. intros j. unfold for_entries.
  by rewrite !(for_each_lookup_any_order step f s m).
Qed.
End for_entries.

(** Where the order does show (version stamps, adjacency order), the loop
    takes the order as a parameter: any rearrangement of the entries. *)
Class HashOrder := {
  hash_order : forall {A : Type}, list A -> list A;
  hash_order_perm : forall {A : Type} (l : list A), hash_order l ≡ₚ l;
}.

Definition canonical_order : HashOrder :=
  {| hash_order := fun A l => l; hash_order_perm := fun A l => Permutation_refl l |}.

(** A [for] loop whose body can leave with [?]: the state at the failure is kept. *)
Fixpoint try_for {S A E} (body : S -> A -> S * result E unit) (s : S) (l : list A) : S * result E unit :=
  match l with
  | [] => (s, Ok tt)
  | a :: l =>
      match body s a with
      | (s, Ok _) => try_for body s l
      | (s, Err e) => (s, Err e)
      end
  end.

Lemma try_for_ext {S A E} (f g : S -> A -> S * result E unit) :
  (forall s a, f s a = g s a) -> forall l s, try_for f s l = try_for g s l.
Proof.
  intros Heq. induction l as [|a l IH]; intros s; [done|]. cbn [try_for]. rewrite Heq.
  destruct (g s a) as [s' [u|e]]; [apply IH|done].
Qed.

(** A filter that keeps everything. *)
Lemma filter_keep {A} (P : A -> Prop) `{forall a, Decision (P a)} (l : list A) :
  (forall a, a ∈ l -> P a) -> filter P l = l.
Proof.
  induction l as [|a l IH]; intros Hall; [done|]. rewrite filter_cons, decide_True by (apply Hall; by left).
  by rewrite IH by (intros; apply Hall; by right).
Qed.

(** Entries of a sorted list are related in the order of their positions. *)
Lemma sorted_lookup {A} (R : A -> A -> Prop) l i j x y :
  StronglySorted R l -> (i < j)%nat -> l !! i = Some x -> l !! j = Some y -> R x y.
Proof.
  intros Hs. revert i j. induction Hs as [|z l _ IH Hf]; intros i j Hij Hi Hj; [done|].
  destruct j as [|j]; [lia|]. destruct i as [|i]; cbn in Hi, Hj.
  - injection Hi as ->. rewrite Forall_forall in Hf. apply Hf. by eapply list_elem_of_lookup_2.
  - apply (IH i j); [lia|done|done].
Qed.

(** ** Options and pointwise maxima *)

(** The value of a missing counter entry. *)
Definition get_or_0 {K} `{Countable K} (m : gmap K Z) (k : K) : Z := default 0 (m !! k).

(** ** State-based CRDTs

    [CrdtMerge::merge] (crates/uni-crdt/src/lib.rs) must be commutative,
    associative and idempotent.  [CvRDT] states this for a merge function on
    the well-formed states, up to an observational equivalence. *)

Class CvRDT {A : Type} (R : relation A) (wf : A -> Prop) (merge : A -> A -> A) : Prop := {
  cv_equiv :: Equivalence R;
  cv_wf a b : wf a -> wf b -> wf (merge a b);
  cv_comm a b : wf a -> wf b -> R (merge a b) (merge b a);
  cv_assoc a b c : wf a -> wf b -> wf c -> R (merge a (merge b c)) (merge (merge a b) c);
  cv_idemp a : wf a -> R (merge a a) a;
  cv_proper a a' b b' : wf a -> wf a' -> wf b -> wf b' ->
    R a a' -> R b b' -> R (merge a b) (merge a' b');
}.

(** A replica that folds in the states it receives. *)
Definition merge_all {A} (merge : A -> A -> A) (a : A) (l : list A) : A := foldl merge a l.

Section cvrdt.
Context {A : Type} {R : relation A} {wf : A -> Prop} {merge : A -> A -> A}.
Context {HC : CvRDT R wf merge}.

#[local] Instance cv_equivalence : Equivalence R := cv_equiv.

Lemma cv_wf' a b : wf a -> wf b -> wf (merge a b).
Proof. apply HC. Qed.
Lemma cv_comm' a b : wf a -> wf b -> R (merge a b) (merge b a).
Proof. apply HC. Qed.
Lemma cv_idemp' a : wf a -> R (merge a a) a.
Proof. apply HC. Qed.
Lemma cv_assoc' a b c :
  wf a -> wf b -> wf c -> R (merge a (merge b c)) (merge (merge a b) c).
Proof. apply HC. Qed.
Lemma cv_proper' a a' b b' :
  wf a -> wf a' -> wf b -> wf b' -> R a a' -> R b b' -> R (merge a b) (merge a' b').
Proof. apply HC. Qed.
#[local] Hint Resolve cv_wf' cv_comm' cv_idemp' : core.

Lemma merge_all_wf a l : wf a -> Forall wf l -> wf (merge_all merge a l).
Proof. intros Ha Hl. revert a Ha. induction Hl; intros; simpl; auto. Qed.

Lemma merge_all_proper a a' l :
  wf a -> wf a' -> Forall wf l -> R a a' ->
  R (merge_all merge a l) (merge_all merge a' l).
Proof.
  intros Ha Ha' Hl. revert a a' Ha Ha'.
  induction Hl; intros a a' Ha Ha' HR; simpl; [done|].
  apply IHHl; auto. apply cv_proper'; auto. reflexivity.
Qed.

Lemma cv_swap a b c :
  wf a -> wf b -> wf c -> R (merge (merge a b) c) (merge (merge a c) b).
Proof.
  intros. etransitivity; [symmetry; by apply cv_assoc'|].
  etransitivity; [|by apply cv_assoc'].
  apply cv_proper'; auto. reflexivity.
Qed.

Lemma cv_absorb a b : wf a -> wf b -> R (merge (merge a b) b) (merge a b).
Proof.
  intros. etransitivity; [symmetry; by apply cv_assoc'|].
  apply cv_proper'; auto. reflexivity.
Qed.

(** Strong eventual consistency: replicas that have received the same
    states, in any order, agree. *)
Lemma merge_all_perm a l l' :
  wf a -> Forall wf l -> l ≡ₚ l' ->
  R (merge_all merge a l) (merge_all merge a l').
Proof.
  intros Ha Hl Hp. revert a Ha Hl. induction Hp; intros a Ha Hl; simpl.
  - reflexivity.
  - inversion Hl; subst. apply IHHp; auto.
  - inversion Hl as [|?? Hy Hl']; subst. inversion Hl' as [|?? Hx Hl'']; subst.
    apply merge_all_proper; auto using cv_swap.
  - etransitivity; [by apply IHHp1|]. apply IHHp2; [done|].
    by apply (Permutation.Permutation_Forall Hp1).
Qed.

(** Delivering a state again changes nothing. *)
Lemma merge_all_redeliver a l b :
  wf a -> Forall wf l -> b ∈ l ->
  R (merge (merge_all merge a l) b) (merge_all merge a l).
Proof.
  intros Ha Hl Hb. apply list_elem_of_split in Hb as (l1 & l2 & ->).
  assert (l1 ++ b :: l2 ≡ₚ (l1 ++ l2) ++ [b]) as Hp by solve_Permutation.
  pose proof Hl as Hl0. apply Forall_app in Hl0 as [Hl1 [Hb Hl2]%Forall_cons].
  assert (wf (merge_all merge a (l1 ++ l2))).
  { apply merge_all_wf; [done|]. by apply Forall_app. }
  assert (R (merge_all merge a (l1 ++ b :: l2)) (merge (merge_all merge a (l1 ++ l2)) b)) as HR.
  { etransitivity; [by apply merge_all_perm|]. unfold merge_all.
    rewrite foldl_app. reflexivity. }
  etransitivity; [apply cv_proper'; [..|exact HR|reflexivity]; auto using merge_all_wf|].
  etransitivity; [by apply cv_absorb|]. by symmetry.
Qed.
End cvrdt.
