(* ===== verification/Counters.v ===== *)
(** * Counters and clocks: [GCounter], [GSet] and [VectorClock]

    crates/uni-crdt/src/{gcounter,gset,vector_clock}.rs.  Hash maps are
    [gmap]s, [u64] counters are [Z] with the wrap-around of [+=] written out,
    and loops over hash maps are folds over their entries. *)

From S2P Require Import Prelude.

(** ** Sums of integer lists and of map values *)

Fixpoint zsum (l : list Z) : Z :=
  match l with [] => 0 | x :: l => x + zsum l end.

#[export] Instance zsum_perm : Proper ((≡ₚ) ==> eq) zsum.
Proof. intros l l'. induction 1; simpl; lia. Qed.

(** The mathematical sum of the values of a map. *)
Definition total {K} `{Countable K} (m : gmap K Z) : Z := zsum (map_to_list m).*2.

Lemma total_insert_None {K} `{Countable K} (m : gmap K Z) k v :
  m !! k = None -> total (<[k := v]> m) = v + total m.
Proof. intros. unfold total. by rewrite map_to_list_insert. Qed.

Lemma total_insert {K} `{Countable K} (m : gmap K Z) k v :
  total (<[k := v]> m) = v - get_or_0 m k + total m.
Proof.
  unfold get_or_0. destruct (m !! k) as [w|] eqn:E; simpl.
  - rewrite <- (insert_delete_id m k w E) at 2. rewrite <- insert_delete_eq.
    rewrite !total_insert_None by apply lookup_delete_eq. lia.
  - rewrite total_insert_None by done. lia.
Qed.

Lemma total_le {K} `{Countable K} (m m' : gmap K Z) :
  (forall k, get_or_0 m k <= get_or_0 m' k) -> total m <= total m'.
Proof.
  revert m'. induction m as [|k v m Hk IH] using map_ind; intros m' Hle.
  - unfold total at 1. rewrite map_to_list_empty. simpl.
    induction m' as [|k v m' Hk IH] using map_ind; [done|].
    rewrite total_insert_None by done.
    pose proof (Hle k) as Hv. unfold get_or_0 in Hv.
    rewrite lookup_insert_eq, lookup_empty in Hv. simpl in Hv.
    enough (0 <= total m') by lia. apply IH. intros j.
    specialize (Hle j). unfold get_or_0 in *. rewrite lookup_empty. simpl.
    destruct (decide (k = j)) as [<-|]; [by rewrite Hk|].
    by rewrite lookup_insert_ne in Hle.
  - rewrite total_insert_None by done.
    assert (total m <= total (<[k := 0]> m')) as Hm.
    { apply IH. intros j. specialize (Hle j). unfold get_or_0 in *.
      rewrite lookup_insert in *. destruct (decide (k = j)) as [<-|]; [by rewrite Hk|].
      done. }
    rewrite total_insert in Hm. specialize (Hle k).
    unfold get_or_0 in *. rewrite lookup_insert_eq in Hle. simpl in Hle. lia.
Qed.

(** [map.entry(k).or_insert(0)] followed by taking the maximum with [c]. *)
Definition entry_max {K} `{Countable K} (s : gmap K Z) (k : K) (c : Z) : gmap K Z :=
  <[k := Z.max (get_or_0 s k) c]> s.

(** [for (k, c) in other { entry(k) = max(entry(k), c) }] *)
Definition join_counts {K} `{Countable K} (s other : gmap K Z) : gmap K Z :=
  for_entries entry_max s other.

Lemma entry_max_pointwise {K} `{Countable K} :
  pointwise (K:=K) entry_max (fun _ o c => Some (Z.max (default 0 o) c)).
Proof.
  intros s k a j. unfold entry_max, get_or_0. rewrite lookup_insert.
  by destruct (decide (k = j)) as [->|].
Qed.

Lemma lookup_join_counts {K} `{Countable K} (s other : gmap K Z) k :
  join_counts s other !! k =
    match other !! k with
    | Some c => Some (Z.max (get_or_0 s k) c)
    | None => s !! k
    end.
Proof. unfold join_counts. rewrite (for_entries_lookup _ _ _ _ _ entry_max_pointwise). done. Qed.

(** The loop computes the same map whatever the order of iteration. *)
Lemma join_counts_any_order {K} `{Countable K} (s other : gmap K Z) l :
  l ≡ₚ map_to_list other -> for_each entry_max s l = join_counts s other.
Proof. apply (for_each_any_order _ _ _ _ _ entry_max_pointwise). Qed.

(** Every stored counter is a [u64]. *)
Definition counts_ok {K} `{Countable K} (m : gmap K Z) : Prop :=
  map_Forall (fun _ c => is_u64 c) m.

Lemma counts_ok_get {K} `{Countable K} (m : gmap K Z) k : counts_ok m -> is_u64 (get_or_0 m k).
Proof.
  intros Hm. unfold get_or_0. destruct (m !! k) eqn:E; simpl; [by eapply Hm|]. int_lia.
Qed.

Lemma get_join_counts {K} `{Countable K} (s other : gmap K Z) k :
  counts_ok s -> counts_ok other ->
  get_or_0 (join_counts s other) k = Z.max (get_or_0 s k) (get_or_0 other k).
Proof.
  intros Hs Ho. pose proof (counts_ok_get s k Hs) as [? _].
  unfold get_or_0 at 1 3. rewrite lookup_join_counts.
  destruct (other !! k); simpl; [done|]. unfold get_or_0 in *. lia.
Qed.

Lemma join_counts_ok {K} `{Countable K} (s other : gmap K Z) :
  counts_ok s -> counts_ok other -> counts_ok (join_counts s other).
Proof.
  intros Hs Ho k c Hc. rewrite lookup_join_counts in Hc.
  destruct (other !! k) as [d|] eqn:E; [|by eapply Hs].
  injection Hc as <-. pose proof (counts_ok_get s k Hs). specialize (Ho k d E).
  simpl in Ho. int_lia.
Qed.

Ltac join_counts_tac :=
  let k := fresh "k" in
  apply map_eq; intros k; rewrite ?lookup_join_counts;
  repeat match goal with
  | H : counts_ok _ |- _ => apply (fun H => counts_ok_get _ k H) in H
  end; unfold get_or_0, is_u64 in *; rewrite ?lookup_join_counts in *;
  unfold get_or_0 in *;
  repeat case_match; simplify_eq/=; f_equal; lia.

(** Pointwise maximum of counter maps is a CvRDT. *)
#[export] Instance join_counts_CvRDT {K} `{Countable K} :
  CvRDT (A := gmap K Z) eq counts_ok join_counts.
Proof.
  split; [apply _ | apply join_counts_ok | | | | by intros; subst].
  - intros a b Ha Hb. join_counts_tac.
  - intros a b c Ha Hb Hc. pose proof (join_counts_ok _ _ Hb Hc). join_counts_tac.
  - intros a Ha. join_counts_tac.
Qed.

(** ** [GCounter] *)
Module GCounter.

Record t := mk { counts : gmap string Z }.

Definition new : t := mk ∅.

(** [*self.counts.entry(actor).or_insert(0) += value], skipped for 0. *)
Definition increment (self : t) (actor : string) (value : Z) : t :=
  if value =? 0 then self
  else mk (<[actor := wrapping_add_u64 (get_or_0 (counts self) actor) value]> (counts self)).

(** [self.counts.values().sum()] *)
Definition value (self : t) : Z :=
  foldl wrapping_add_u64 0 (map_to_list (counts self)).*2.

Definition actor_count (self : t) (actor : string) : Z := get_or_0 (counts self) actor.

Definition merge (self other : t) : t := mk (join_counts (counts self) (counts other)).

Definition wf (c : t) : Prop := counts_ok (counts c).

Lemma eq_counts a b : counts a = counts b -> a = b.
Proof. destruct a, b; simpl; by intros ->. Qed.

Lemma sum_wrapping acc l :
  is_u64 acc -> foldl wrapping_add_u64 acc l = (acc + zsum l) mod 2 ^ 64.
Proof.
  revert acc. induction l as [|x l IH]; intros acc Hacc; simpl.
  - rewrite Z.add_0_r, Z.mod_small by done. done.
  - rewrite IH by apply wrapping_add_is_u64. unfold wrapping_add_u64.
    rewrite Zplus_mod_idemp_l. f_equal. lia.
Qed.

Lemma value_total c : value c = total (counts c) mod 2 ^ 64.
Proof. unfold value. rewrite sum_wrapping by int_lia. done. Qed.

Lemma increment_wf c actor v : wf c -> wf (increment c actor v).
Proof.
  intros H. unfold increment. case_match; [done|].
  apply map_Forall_insert_2; [apply wrapping_add_is_u64 | done].
Qed.

#[export] Instance CvRDT_GCounter : CvRDT eq wf merge.
Proof.
  split; [apply _ | | | | | by intros; subst]; unfold wf, merge.
  - intros. by apply join_counts_ok.
  - intros. f_equal. by apply (cv_comm (CvRDT := join_counts_CvRDT)).
  - intros. f_equal. by apply (cv_assoc (CvRDT := join_counts_CvRDT)).
  - intros. apply eq_counts. by apply (cv_idemp (CvRDT := join_counts_CvRDT)).
Qed.

Lemma total_nonneg_le c d :
  wf c -> wf d -> total (counts c) <= total (counts (merge c d)).
Proof.
  intros Hc Hd. apply total_le. intros k. simpl. rewrite get_join_counts by done. lia.
Qed.

Lemma get_increment c actor v j :
  is_u64 v -> get_or_0 (counts c) actor + v < 2 ^ 64 -> wf c ->
  get_or_0 (counts (increment c actor v)) j =
    get_or_0 (counts c) j + (if decide (actor = j) then v else 0).
Proof.
  intros Hv Hb Hc. pose proof (counts_ok_get _ actor Hc). unfold increment.
  destruct (Z.eqb_spec v 0) as [->|].
  { destruct (decide _); lia. }
  unfold get_or_0 at 1. simpl. rewrite lookup_insert.
  destruct (decide (actor = j)) as [<-|]; simpl.
  - rewrite wrapping_add_small; [done|]. int_lia.
  - unfold get_or_0. lia.
Qed.

Lemma total_increment c actor v :
  is_u64 v -> get_or_0 (counts c) actor + v < 2 ^ 64 -> wf c ->
  total (counts (increment c actor v)) = total (counts c) + v.
Proof.
  intros Hv Hb Hc. pose proof (counts_ok_get _ actor Hc). unfold increment.
  destruct (Z.eqb_spec v 0) as [->|]; [lia|]. simpl.
  rewrite total_insert, wrapping_add_small by int_lia. lia.
Qed.

(** Counter maps with the same value at every actor have the same sum. *)
Lemma total_ext (m m' : gmap string Z) :
  (forall k, get_or_0 m k = get_or_0 m' k) -> total m = total m'.
Proof.
  intros Heq. apply Z.le_antisymm; apply total_le; intros k; rewrite Heq; lia.
Qed.

Lemma get_le_total (m : gmap string Z) k : counts_ok m -> get_or_0 m k <= total m.
Proof.
  intros Hm. transitivity (total {[k := get_or_0 m k]}).
  - rewrite <- insert_empty, total_insert_None by apply lookup_empty.
    unfold total. rewrite map_to_list_empty. simpl. lia.
  - apply total_le. intros j. pose proof (counts_ok_get m j Hm) as [? _].
    unfold get_or_0 at 1. rewrite lookup_singleton.
    destruct (decide (k = j)) as [<-|]; simpl; lia.
Qed.

(** Concurrent increments are never lost: two replicas of a counter that
    increment it under different actors and then merge agree on the old value
    plus both increments (as long as the total fits a [u64]). *)
Theorem merge_counts_concurrent_increments c x y n m :
  wf c -> x <> y -> is_u64 n -> is_u64 m -> total (counts c) + n + m < 2 ^ 64 ->
  value (merge (increment c x n) (increment c y m)) = value c + n + m.
Proof.
  intros Hc Hxy Hn Hm Hb.
  pose proof (get_le_total _ x Hc). pose proof (get_le_total _ y Hc).
  assert (0 <= total (counts c)) by (pose proof (counts_ok_get _ x Hc); int_lia).
  assert (total (counts (merge (increment c x n) (increment c y m)))
          = total (counts c) + n + m) as Ht.
  { rewrite <- total_increment with (actor := x) by int_lia || done.
    rewrite <- total_increment with (actor := y) (v := m); try done.
    - apply total_ext. intros j. simpl.
      rewrite get_join_counts by by apply increment_wf.
      rewrite (get_increment (increment c x n)).
      + rewrite !get_increment by int_lia || done.
        repeat destruct (decide _); subst; int_lia || done.
      + done.
      + rewrite get_increment by int_lia || done. destruct (decide _); int_lia || done.
      + by apply increment_wf.
    - rewrite get_increment by int_lia || done. destruct (decide _); int_lia || done.
    - by apply increment_wf. }
  rewrite !value_total, Ht, !Z.mod_small by int_lia. lia.
Qed.

Lemma merge_counts_concurrent_increments_witness :
  value (merge (increment (increment new "a" 5) "a" 2) (increment (increment new "a" 5) "b" 3))
  = value (increment new "a" 5) + 2 + 3.
Proof.
  apply (merge_counts_concurrent_increments (increment new "a" 5) "a" "b" 2 3);
    [apply increment_wf; by apply map_Forall_empty | done | int_lia | int_lia | by vm_compute].
Defined.

End GCounter.

(** ** [GSet] *)
Module GSet.
Section gset.
Context {T : Type} `{Countable T}.

Record t := mk { elems : gset T }.

Definition new : t := mk ∅.
Definition add (self : t) (element : T) : t := mk ({[element]} ∪ elems self).
Definition contains (self : t) (element : T) : bool := bool_decide (element ∈ elems self).
Definition len (self : t) : nat := size (elems self).
Definition is_empty (self : t) : bool := bool_decide (elems self = ∅).

(** [self.elements.extend(other.elements.iter().cloned())] *)
Definition merge (self other : t) : t :=
  foldl add self (elements (elems other)).

Lemma foldl_add s l : elems (foldl add s l) = elems s ∪ list_to_set l.
Proof.
  revert s; induction l as [|x l IH]; intros s; simpl; [set_solver|].
  rewrite IH. simpl. set_solver.
Qed.

Lemma elems_merge a b : elems (merge a b) = elems a ∪ elems b.
Proof. unfold merge. rewrite foldl_add. by rewrite list_to_set_elements_L. Qed.

Lemma eq_elems a b : elems a = elems b -> a = b.
Proof. destruct a, b; simpl; by intros ->. Qed.

#[export] Instance CvRDT_GSet : CvRDT eq (fun _ => True) merge.
Proof.
  split; [apply _ | done | | | | by intros; subst];
    intros; apply eq_elems; rewrite !elems_merge; set_solver.
Qed.
End gset.
Arguments t T {_ _}.
End GSet.

(** ** [VectorClock] *)
Module VectorClock.

Record t := mk { clocks : gmap string Z }.

#[export] Instance t_eq_dec : EqDecision t.
Proof. solve_decision. Defined.

Definition new : t := mk ∅.

Definition increment (self : t) (actor : string) : t :=
  mk (<[actor := wrapping_add_u64 (get_or_0 (clocks self) actor) 1]> (clocks self)).

Definition get (self : t) (actor : string) : Z := get_or_0 (clocks self) actor.

Definition merge_clock (self other : t) : t :=
  mk (join_counts (clocks self) (clocks other)).

(** The first loop of [happened_before]: [None] is its early [return false],
    [Some b] leaves [strictly_less = b]. *)
Definition hb_scan (other : t) (l : list (string * Z)) : option bool :=
  foldl (fun st e =>
    match st with
    | None => None
    | Some strictly_less =>
        if e.2 >? get other e.1 then None
        else Some (strictly_less || (e.2 <? get other e.1))
    end) (Some false) l.

Definition happened_before (self other : t) : bool :=
  match hb_scan other (map_to_list (clocks self)) with
  | None => false
  | Some true => true
  | Some false =>
      existsb (fun e => bool_decide (clocks self !! e.1 = None) && (e.2 >? 0))
        (map_to_list (clocks other))
  end.

Definition is_concurrent (self other : t) : bool :=
  negb (happened_before self other) && negb (happened_before other self)
  && negb (bool_decide (self = other)).

(** [Some Lt] is [Less], [Some Gt] is [Greater], [None] is concurrent. *)
Definition causal_cmp (self other : t) : option comparison :=
  if decide (self = other) then Some Eq
  else if happened_before self other then Some Lt
  else if happened_before other self then Some Gt
  else None.

Definition merge (self other : t) : t := merge_clock self other.

Definition wf (c : t) : Prop := counts_ok (clocks c).
(** No stored zero: what clocks built by [increment] and [merge] satisfy. *)
Definition normal (c : t) : Prop := map_Forall (fun _ n => 0 < n < 2 ^ 64) (clocks c).

(** The causal order: pointwise, with some actor strictly behind. *)
Definition clock_le (a b : t) : Prop := forall k, get a k <= get b k.
Definition clock_lt (a b : t) : Prop := clock_le a b /\ exists k, get a k < get b k.

Lemma eq_clocks a b : clocks a = clocks b -> a = b.
Proof. destruct a, b; simpl; by intros ->. Qed.

Lemma normal_wf c : normal c -> wf c.
Proof. intros H k n Hn. specialize (H k n Hn). simpl in H. int_lia. Qed.

Lemma get_merge a b k : wf a -> wf b -> get (merge a b) k = Z.max (get a k) (get b k).
Proof. intros. by apply get_join_counts. Qed.

Lemma wf_merge a b : wf a -> wf b -> wf (merge a b).
Proof. apply join_counts_ok. Qed.

#[export] Instance CvRDT_VectorClock : CvRDT eq wf merge.
Proof.
  split; [apply _ | apply wf_merge | | | | by intros; subst]; unfold wf, merge, merge_clock.
  - intros. f_equal. by apply (cv_comm (CvRDT := join_counts_CvRDT)).
  - intros. f_equal. by apply (cv_assoc (CvRDT := join_counts_CvRDT)).
  - intros. apply eq_clocks. by apply (cv_idemp (CvRDT := join_counts_CvRDT)).
Qed.

Lemma normal_merge a b : normal a -> normal b -> normal (merge a b).
Proof.
  intros Ha Hb k n Hn. simpl in Hn. rewrite lookup_join_counts in Hn.
  pose proof (counts_ok_get _ k (normal_wf _ Ha)).
  destruct (clocks b !! k) as [m|] eqn:E; [|by eapply Ha].
  injection Hn as <-. specialize (Hb k m E). simpl in Hb. int_lia.
Qed.

Lemma normal_increment c actor :
  normal c -> get c actor + 1 < 2 ^ 64 -> normal (increment c actor).
Proof.
  intros Hc Hb. apply map_Forall_insert_2; [|done].
  pose proof (counts_ok_get _ actor (normal_wf _ Hc)). unfold get in *.
  rewrite wrapping_add_small by int_lia. int_lia.
Qed.

Lemma hb_scan_spec other l :
  hb_scan other l =
    if existsb (fun e => e.2 >? get other e.1) l then None
    else Some (existsb (fun e => e.2 <? get other e.1) l).
Proof.
  unfold hb_scan.
  enough (forall b, foldl (fun st e => match st with None => None | Some s =>
      if e.2 >? get other e.1 then None else Some (s || (e.2 <? get other e.1)) end) (Some b) l
    = if existsb (fun e => e.2 >? get other e.1) l then None
      else Some (b || existsb (fun e => e.2 <? get other e.1) l)) as Hb by apply (Hb false).
  induction l as [|e l IH]; intros b; simpl; [by rewrite orb_false_r|].
  destruct (e.2 >? get other e.1) eqn:E; simpl.
  - clear. induction l; simpl; auto.
  - rewrite IH. by rewrite orb_assoc.
Qed.

Lemma existsb_entries (f : string * Z -> bool) (m : gmap string Z) :
  existsb f (map_to_list m) = true <-> exists k n, m !! k = Some n /\ f (k, n) = true.
Proof.
  rewrite existsb_exists. setoid_rewrite <- list_elem_of_In. split.
  - intros ([k n] & He & Hf). apply elem_of_map_to_list in He. eauto.
  - intros (k & n & He & Hf). exists (k, n). by rewrite elem_of_map_to_list.
Qed.

(** Some entry of [a] exceeds [b]'s, iff [a] is not below [b] pointwise. *)
Lemma scan_exceeds a b :
  wf b -> existsb (fun e => e.2 >? get b e.1) (map_to_list (clocks a)) = true <-> ~ clock_le a b.
Proof.
  intros Hb. rewrite existsb_entries. split.
  - intros (k & n & Hk & Hgt) Hle. specialize (Hle k). unfold get, get_or_0 in *.
    rewrite Hk in Hle. simpl in *. lia.
  - intros Hn. destruct (decide (map_Forall (fun k n => n <= get b k) (clocks a))) as [Hall|Hex].
    + exfalso. apply Hn. intros k. unfold get at 1, get_or_0.
      pose proof (counts_ok_get _ k Hb) as [? _].
      destruct (clocks a !! k) as [n|] eqn:E; simpl; [by eapply Hall | done].
    + apply map_not_Forall in Hex as (k & n & Hk & Hnle); [|apply _].
      exists k, n. split; [done|]. simpl in *. lia.
Qed.

(** [happened_before] decides the causal order. *)
Lemma happened_before_spec a b :
  wf a -> wf b -> happened_before a b = true <-> clock_lt a b.
Proof.
  intros Ha Hb. unfold happened_before. rewrite hb_scan_spec.
  pose proof (scan_exceeds a b Hb) as Hex.
  destruct (existsb (fun e => e.2 >? get b e.1) (map_to_list (clocks a))) eqn:E1.
  { split; [done|]. intros [Hle _]. by destruct (proj1 Hex eq_refl). }
  assert (clock_le a b) as Hle.
  { intros k. destruct (decide (get a k <= get b k)); [done|].
    exfalso. assert (false = true); [|done]. apply Hex. intros Hle. by specialize (Hle k). }
  unfold clock_lt.
  destruct (existsb (fun e => e.2 <? get b e.1) (map_to_list (clocks a))) eqn:E2.
  - split; [|done]. intros _. split; [done|].
    apply existsb_entries in E2 as (k & n & Hk & Hlt). exists k.
    unfold get at 1, get_or_0. rewrite Hk. simpl in *. lia.
  - rewrite existsb_entries. split.
    + intros (k & n & Hk & Hc). simpl in Hc. apply andb_true_iff in Hc as [Hn Hpos].
      split; [done|]. exists k. apply bool_decide_eq_true in Hn.
      unfold get, get_or_0. rewrite Hn, Hk. simpl. lia.
    + intros [_ [k Hlt]]. unfold get, get_or_0 in Hlt.
      destruct (clocks a !! k) as [n|] eqn:Ea; simpl in Hlt.
      * exfalso. apply not_true_iff_false in E2. apply E2. apply existsb_entries.
        exists k, n. split; [done|]. unfold get, get_or_0. simpl. lia.
      * destruct (clocks b !! k) as [m|] eqn:Eb; simpl in Hlt; [|lia].
        exists k, m. split; [done|]. simpl. rewrite Ea, bool_decide_true by done. simpl. lia.
Qed.

Lemma normal_ext a b : normal a -> normal b -> (forall k, get a k = get b k) -> a = b.
Proof.
  intros Ha Hb Heq. apply eq_clocks, map_eq. intros k. specialize (Heq k).
  unfold get, get_or_0 in Heq.
  destruct (clocks a !! k) as [n|] eqn:Ea, (clocks b !! k) as [m|] eqn:Eb; simpl in Heq; subst; auto.
  - specialize (Ha k 0 Ea). simpl in Ha. lia.
  - specialize (Hb k 0 Eb). simpl in Hb. lia.
Qed.

Lemma clock_le_antisym a b : normal a -> normal b -> clock_le a b -> clock_le b a -> a = b.
Proof. intros Ha Hb H1 H2. apply normal_ext; auto. intros k. by apply Z.le_antisymm. Qed.

Lemma clock_lt_not_le a b : clock_lt a b -> ~ clock_le b a.
Proof. intros [_ [k Hk]] Hle. specialize (Hle k). lia. Qed.

Lemma clock_le_lt a b : normal a -> normal b -> clock_le a b -> a <> b -> clock_lt a b.
Proof.
  intros Ha Hb Hle Hne. split; [done|].
  destruct (happened_before a b) eqn:E.
  { by apply happened_before_spec in E as [_ ?]; [|apply normal_wf..]. }
  exfalso. apply Hne, clock_le_antisym; auto. intros k.
  destruct (decide (get b k <= get a k)); [done|]. exfalso.
  apply not_true_iff_false in E. apply E. apply happened_before_spec; [auto using normal_wf..|].
  split; [done|]. exists k. lia.
Qed.

Lemma causal_cmp_eq a b : causal_cmp a b = Some Eq -> a = b.
Proof. unfold causal_cmp. by repeat case_match. Qed.

Lemma causal_cmp_lt a b : normal a -> normal b -> clock_lt a b -> causal_cmp a b = Some Lt.
Proof.
  intros Ha Hb Hlt. unfold causal_cmp. rewrite decide_False.
  - by rewrite (proj2 (happened_before_spec a b (normal_wf _ Ha) (normal_wf _ Hb)) Hlt).
  - intros ->. destruct Hlt as [_ [k ?]]. lia.
Qed.

Lemma causal_cmp_gt a b : normal a -> normal b -> clock_lt b a -> causal_cmp a b = Some Gt.
Proof.
  intros Ha Hb Hlt. unfold causal_cmp. rewrite decide_False.
  - rewrite (proj2 (happened_before_spec b a (normal_wf _ Hb) (normal_wf _ Ha)) Hlt).
    destruct (happened_before a b) eqn:E; [|done].
    apply happened_before_spec in E; [|auto using normal_wf..].
    destruct (clock_lt_not_le _ _ Hlt). by destruct E.
  - intros ->. destruct Hlt as [_ [k ?]]. lia.
Qed.

(** [causal_cmp] is the causal partial order on clocks without stored
    zeros: it answers [Equal], [Less] or [Greater] exactly when the clocks are
    equal or ordered pointwise, and [None] exactly when neither is below the
    other. *)
Theorem causal_cmp_spec a b :
  normal a -> normal b ->
  match causal_cmp a b with
  | Some Eq => a = b
  | Some Lt => clock_lt a b
  | Some Gt => clock_lt b a
  | None => ~ clock_le a b /\ ~ clock_le b a
  end.
Proof.
  intros Ha Hb. unfold causal_cmp. destruct (decide (a = b)); [done|].
  destruct (happened_before a b) eqn:E1.
  { by apply happened_before_spec in E1; [|apply normal_wf..]. }
  destruct (happened_before b a) eqn:E2.
  { by apply happened_before_spec in E2; [|apply normal_wf..]. }
  apply not_true_iff_false in E1, E2.
  rewrite happened_before_spec in E1, E2 by by apply normal_wf.
  split; intros Hle; [apply E1 | apply E2]; apply clock_le_lt; auto.
Qed.

Lemma causal_cmp_spec_sym a b :
  normal a -> normal b -> causal_cmp b a = option_map CompOpp (causal_cmp a b).
Proof.
  intros Ha Hb. destruct (causal_cmp a b) as [[]|] eqn:E; simpl.
  - apply causal_cmp_eq in E as ->. unfold causal_cmp. by rewrite decide_True.
  - apply causal_cmp_gt; auto. unfold causal_cmp in E.
    repeat case_match; simplify_eq. apply happened_before_spec; auto using normal_wf.
  - apply causal_cmp_lt; auto. unfold causal_cmp in E.
    repeat case_match; simplify_eq. apply happened_before_spec; auto using normal_wf.
  - unfold causal_cmp in *. repeat case_match; simplify_eq; done.
Qed.

Lemma causal_cmp_spec_witness :
  causal_cmp (increment new "a") (increment new "b") = None
  /\ ~ clock_le (increment new "a") (increment new "b")
  /\ ~ clock_le (increment new "b") (increment new "a").
Proof.
  split; [by vm_compute|].
  assert (normal (increment new "a") /\ normal (increment new "b")) as [Ha Hb].
  { split; (apply normal_increment; [by apply map_Forall_empty | by vm_compute]). }
  exact (causal_cmp_spec (increment new "a") (increment new "b") Ha Hb).
Defined.

End VectorClock.
