(* ===== verification/Registers.v ===== *)
(** * Registers: [LWWRegister], [LWWMap] and [VCRegister]

    crates/uni-crdt/src/{lww_register,lww_map,vc_register}.rs.  The
    serialization [serde_json::to_vec] that breaks ties is a parameter
    [to_vec] ([None] is its [Err]); the laws of [merge] assume it total and
    injective, which is what the tie-break needs to be deterministic. *)

From S2P Require Import Prelude Counters.

(** [other_key > self_key] on [Option<Vec<u8>>]: [None] is least. *)
Definition key_gt (other self : option (list Z)) : bool :=
  match other, self with
  | Some o, Some s => match memcmp o s with Gt => true | _ => false end
  | Some _, None => true
  | None, _ => false
  end.

(** ** The deterministic tie-break *)
Section tie_break.
Context {T : Type} (to_vec : T -> option (list Z)).

(** The value kept when neither side is newer; two failed serializations
    leave [self] in place. *)
Definition tie_break (self other : T) : T :=
  match to_vec self, to_vec other with
  | None, None => self
  | self_key, other_key => if key_gt other_key self_key then other else self
  end.

(** What the merge laws need of [serde_json::to_vec]. *)
Class SerOk : Prop := {
  ser_total x : is_Some (to_vec x);
  ser_inj x y b : to_vec x = Some b -> to_vec y = Some b -> x = y;
}.

Context `{!SerOk}.

Definition key (x : T) : list Z := default [] (to_vec x).

Lemma key_inj x y : key x = key y -> x = y.
Proof.
  unfold key. destruct (ser_total x) as [bx Hx], (ser_total y) as [b' Hy].
  rewrite Hx, Hy. simpl. intros ->. by eapply ser_inj.
Qed.

Lemma tie_break_key self other :
  tie_break self other = match memcmp (key other) (key self) with Gt => other | _ => self end.
Proof.
  unfold tie_break, key, key_gt.
  destruct (ser_total self) as [bx ->], (ser_total other) as [b' ->]. simpl.
  by destruct (memcmp b' bx).
Qed.

Lemma tie_break_idemp x : tie_break x x = x.
Proof. rewrite tie_break_key. by destruct (memcmp _ _). Qed.

Lemma tie_break_comm x y : tie_break x y = tie_break y x.
Proof.
  rewrite !tie_break_key, (memcmp_opp (key x)).
  destruct (memcmp (key x) (key y)) eqn:E; simpl; auto.
  apply memcmp_eq in E. by apply key_inj.
Qed.

Lemma memcmp_key_spec x y :
  match memcmp (key x) (key y) with
  | Eq => x = y
  | Lt => memcmp (key x) (key y) = Lt
  | Gt => memcmp (key y) (key x) = Lt
  end.
Proof.
  rewrite (memcmp_opp (key x)). destruct (memcmp (key x) (key y)) eqn:E; try done.
  apply memcmp_eq in E. by apply key_inj.
Qed.

Lemma tie_break_assoc x y z :
  tie_break x (tie_break y z) = tie_break (tie_break x y) z.
Proof.
  rewrite (tie_break_key y z), (tie_break_key x y).
  pose proof (memcmp_key_spec z y) as Hzy. pose proof (memcmp_key_spec y x) as Hyx.
  destruct (memcmp (key z) (key y)) eqn:Ezy, (memcmp (key y) (key x)) eqn:Eyx;
    subst; rewrite !tie_break_key; rewrite ?Ezy, ?Eyx; try done.
  - by rewrite (memcmp_lt_trans _ _ _ Ezy Eyx).
  - pose proof (memcmp_lt_trans _ _ _ Hyx Hzy) as Hxz.
    by rewrite (memcmp_opp (key x) (key z)), Hxz.
Qed.
End tie_break.

(** ** [LWWRegister] *)
Module LWWRegister.

Record t (T : Type) := mk { value : T; timestamp : Z }.
Arguments mk {T} value timestamp.
Arguments value {T} _.
Arguments timestamp {T} _.

Definition new {T} (value : T) (timestamp : Z) : t T := mk value timestamp.

Definition set {T} (self : t T) (v : T) (ts : Z) : t T :=
  if ts >=? timestamp self then mk v ts else self.

Definition get {T} (self : t T) : T := value self.

Section merge.
Context {T : Type} (to_vec : T -> option (list Z)).

Definition merge (self other : t T) : t T :=
  if timestamp other >? timestamp self then mk (value other) (timestamp other)
  else if timestamp other =? timestamp self
  then mk (tie_break to_vec (value self) (value other)) (timestamp self)
  else self.

Context `{!SerOk to_vec}.

Lemma merge_compare va ta vb tb :
  merge (mk va ta) (mk vb tb) =
    match ta ?= tb with
    | Lt => mk vb tb
    | Eq => mk (tie_break to_vec va vb) ta
    | Gt => mk va ta
    end.
Proof.
  unfold merge. simpl. destruct (Z.compare_spec ta tb); subst.
  - by rewrite Z.gtb_ltb, Z.ltb_irrefl, Z.eqb_refl.
  - by rewrite (proj2 (Z.gtb_gt tb ta)) by lia.
  - destruct (Z.gtb_spec tb ta), (Z.eqb_spec tb ta); lia || done.
Qed.

Ltac lww_tac :=
  repeat first
    [ rewrite merge_compare
    | match goal with
      | |- context [?x ?= ?y] => destruct (Z.compare_spec x y); subst; try lia
      end ]; try lia; auto; f_equal.

#[export] Instance CvRDT_LWWRegister : CvRDT eq (fun _ => True) merge.
Proof.
  split; [apply _ | done | | | | by intros; subst].
  - intros [va ta] [vb tb] _ _. lww_tac. by apply tie_break_comm.
  - intros [va ta] [vb tb] [vc tc] _ _ _. lww_tac. by apply tie_break_assoc.
  - intros [va ta] _. lww_tac. by apply tie_break_idemp.
Qed.
End merge.
End LWWRegister.

(** ** [LWWMap] *)
Module LWWMap.
Section lww_map.
Context {K V : Type} `{Countable K}.
Abbreviation reg := (LWWRegister.t (option V)).

Record t := mk { map : gmap K reg }.

Definition new : t := mk ∅.

(** A write to a present key goes through its register; a first write
    creates the register. *)
Definition write (self : t) (k : K) (v : option V) (ts : Z) : t :=
  match map self !! k with
  | Some register => mk (<[k := LWWRegister.set register v ts]> (map self))
  | None => mk (<[k := LWWRegister.new v ts]> (map self))
  end.
Definition put (self : t) (k : K) (v : V) (ts : Z) : t := write self k (Some v) ts.
Definition remove (self : t) (k : K) (ts : Z) : t := write self k None ts.

Definition get (self : t) (k : K) : option V :=
  match map self !! k with
  | Some register => LWWRegister.get register
  | None => None
  end.

Definition keys (self : t) : list K :=
  (List.filter (fun e => bool_decide (is_Some (LWWRegister.get e.2))) (map_to_list (map self))).*1.
Definition len (self : t) : nat :=
  length (List.filter (fun r => bool_decide (is_Some (LWWRegister.get r)))
            (map_to_list (map self)).*2).
Definition is_empty (self : t) : bool := (len self =? 0)%nat.

Context (to_vec : option V -> option (list Z)).

Definition merge_entry (s : gmap K reg) (k : K) (other_register : reg) : gmap K reg :=
  match s !! k with
  | Some register => <[k := LWWRegister.merge to_vec register other_register]> s
  | None => <[k := other_register]> s
  end.

Definition merge (self other : t) : t := mk (for_entries merge_entry (map self) (map other)).

Lemma merge_entry_pointwise :
  pointwise merge_entry (fun _ o r =>
    Some (match o with Some reg => LWWRegister.merge to_vec reg r | None => r end)).
Proof.
  intros s k a j. unfold merge_entry.
  destruct (s !! k); rewrite lookup_insert; by destruct (decide (k = j)).
Qed.

Lemma lww_lookup_merge a b k :
  map (merge a b) !! k =
    match map a !! k, map b !! k with
    | Some x, Some y => Some (LWWRegister.merge to_vec x y)
    | None, Some y => Some y
    | x, None => x
    end.
Proof.
  simpl. rewrite (for_entries_lookup _ _ _ _ _ merge_entry_pointwise).
  by destruct (map a !! k), (map b !! k).
Qed.

Lemma eq_map a b : map a = map b -> a = b.
Proof. destruct a, b; simpl; by intros ->. Qed.

Lemma get_write s k v ts j :
  get (write s k v ts) j =
    if decide (k = j) then
      match map s !! k with
      | Some r => if ts >=? LWWRegister.timestamp r then v else LWWRegister.get r
      | None => v
      end
    else get s j.
Proof.
  unfold get, write, LWWRegister.set, LWWRegister.new, LWWRegister.get.
  destruct (map s !! k) as [r|]; simpl; rewrite lookup_insert;
    destruct (decide (k = j)) as [<-|]; auto. by case_match.
Qed.

Section laws.
Context `{!SerOk to_vec}.

#[export] Instance CvRDT_LWWMap : CvRDT eq (fun _ => True) merge.
Proof.
  pose proof (LWWRegister.CvRDT_LWWRegister to_vec) as HR.
  split; [apply _ | done | | | | by intros; subst];
    intros; apply eq_map, map_eq; intros k; rewrite !lww_lookup_merge;
    repeat case_match; simplify_eq/=; auto; apply (f_equal Some).
  - by apply (cv_comm (CvRDT := HR)).
  - by apply (cv_assoc (CvRDT := HR)).
  - by apply (cv_idemp (CvRDT := HR)).
Qed.
End laws.
End lww_map.
Arguments t K V {_ _}.

(** [serde]'s encoding of an [Option]: [None] is [null], [Some v] is [v]'s. *)
Definition null_json : list Z := [110; 117; 108; 108].
Definition option_to_vec {V} (to_vec : V -> option (list Z)) (o : option V) : option (list Z) :=
  match o with
  | None => Some null_json
  | Some v => to_vec v
  end.

(** Strong eventual consistency of [LWWMap]: replicas that merge the same
    states, in any order and with any state delivered again, hold the same
    map (when the tie-break serialization is total and injective). *)
Theorem replicas_converge {K V} `{Countable K} (to_vec : option V -> option (list Z))
    (a : t K V) (l l' : list (t K V)) b :
  SerOk to_vec -> l ≡ₚ l' -> b ∈ l ->
  merge_all (merge to_vec) a l = merge_all (merge to_vec) a l'
  /\ merge to_vec (merge_all (merge to_vec) a l) b = merge_all (merge to_vec) a l'.
Proof.
  intros Hser Hl Hb. pose proof (CvRDT_LWWMap (K := K) to_vec) as HC.
  assert (forall l : list (t K V), Forall (fun _ => True) l) as Hall by (induction l0; auto).
  split; [by apply (merge_all_perm (HC := HC))|].
  rewrite (merge_all_redeliver (HC := HC) a l b) by done.
  by apply (merge_all_perm (HC := HC)).
Qed.

Definition bit_to_vec (o : option bool) : option (list Z) :=
  Some match o with None => null_json | Some b => [if b then 49 else 48] end.

Lemma bit_SerOk : SerOk bit_to_vec.
Proof.
  split; [by intros x; eexists|].
  intros [[]|] [[]|] b; unfold bit_to_vec; intros [= <-]; by intros [=].
Qed.

Lemma replicas_converge_witness :
  let a := put new "k" true 1 in
  let b := remove new "k" 1 in
  let c := put new "j" false 3 in
  merge bit_to_vec (merge_all (merge bit_to_vec) a [b; c]) b
  = merge_all (merge bit_to_vec) a [c; b].
Proof.
  refine (proj2 (replicas_converge bit_to_vec _ [_; _] [_; _] _ bit_SerOk _ _)).
  - apply Permutation_swap.
  - left.
Defined.

(** With serde's encoding of [Option] a stored [null] and a tombstone
    serialize alike, so a [put] of [null] and a [remove] at the same timestamp
    are not ordered by the tie-break: each replica keeps its own write and the
    two disagree on whether the key is present, however often they merge. *)
Theorem null_tombstone_diverges {K V} `{Countable K} (to_vec : V -> option (list Z))
    (vnull : V) (k : K) (ts : Z) :
  to_vec vnull = Some null_json ->
  let m := merge (option_to_vec to_vec) in
  let a := put new k vnull ts in
  let b := remove new k ts in
  get (m a b) k = Some vnull /\ get (m b a) k = None
  /\ m (m a b) (m b a) = m a b /\ m (m b a) (m a b) = m b a.
Proof.
  intros Hnull m a b.
  assert (forall x y : option V, option_to_vec to_vec x = Some null_json ->
    option_to_vec to_vec y = Some null_json -> tie_break (option_to_vec to_vec) x y = x) as Htb.
  { intros x y Hx Hy. unfold tie_break. by rewrite Hx, Hy. }
  assert (forall s o : t K V, forall x y,
    map s = {[k := LWWRegister.mk x ts]} -> map o = {[k := LWWRegister.mk y ts]} ->
    option_to_vec to_vec x = Some null_json -> option_to_vec to_vec y = Some null_json ->
    m s o = s) as Hm.
  { intros s o x y Hs Ho Hx Hy. apply eq_map, map_eq. intros j.
    unfold m. rewrite lww_lookup_merge, Hs, Ho, !lookup_singleton. case_decide; [|done].
    by rewrite LWWRegister.merge_compare, Z.compare_refl, Htb. }
  assert (map a = {[k := LWWRegister.mk (Some vnull) ts]}) as Ha.
  { unfold a, put, write. simpl. by rewrite lookup_empty, insert_empty. }
  assert (map b = {[k := LWWRegister.mk None ts]}) as Hb.
  { unfold b, remove, write. simpl. by rewrite lookup_empty, insert_empty. }
  rewrite (Hm a b _ _ Ha Hb), (Hm b a _ _ Hb Ha), (Hm a b _ _ Ha Hb), (Hm b a _ _ Hb Ha)
    by done || apply Hnull.
  unfold get. rewrite Ha, Hb, !lookup_singleton_eq. done.
Qed.

Lemma null_tombstone_diverges_witness :
  get (merge (option_to_vec (fun _ : unit => Some null_json))
         (put new "k" () 7) (remove new "k" 7)) "k" = Some ().
Proof.
  apply (null_tombstone_diverges (fun _ : unit => Some null_json) () "k" 7). reflexivity.
Defined.

End LWWMap.

(** ** [VCRegister] *)

(** The causal branch a merge took. *)
Inductive MergeResult := KeptSelf | TookOther | Concurrent.

Module VCRegister.

Record t (T : Type) := mk { value : T; clock : VectorClock.t }.
Arguments mk {T} value clock.
Arguments value {T} _.
Arguments clock {T} _.

Definition new {T} (v : T) (actor : string) : t T :=
  mk v (VectorClock.increment VectorClock.new actor).

Definition set {T} (self : t T) (v : T) (actor : string) : t T :=
  mk v (VectorClock.increment (clock self) actor).

Section merge.
Context {T : Type} (to_vec : T -> option (list Z)).

Definition merge_register (self other : t T) : t T * MergeResult :=
  let merged := VectorClock.merge (clock self) (clock other) in
  match VectorClock.causal_cmp (clock self) (clock other) with
  | Some Lt => (mk (value other) merged, TookOther)
  | Some Gt | Some Eq => (mk (value self) merged, KeptSelf)
  | None => (mk (tie_break to_vec (value self) (value other)) merged, Concurrent)
  end.

Definition merge (self other : t T) : t T := (merge_register self other).1.
End merge.

(** [VCRegister::merge] is commutative on registers whose clock
    determines their value, and its result dominates both clocks; a causally
    newer write always wins. *)
Theorem merge_commutative {T} (to_vec : T -> option (list Z)) (a b : t T) :
  SerOk to_vec -> VectorClock.normal (clock a) -> VectorClock.normal (clock b) ->
  (clock a = clock b -> value a = value b) ->
  merge to_vec a b = merge to_vec b a
  /\ VectorClock.clock_le (clock a) (clock (merge to_vec a b))
  /\ (VectorClock.clock_lt (clock a) (clock b) -> merge to_vec a b = b).
Proof.
  intros Hser Ha Hb Huniq.
  pose proof (VectorClock.normal_wf _ Ha) as Hwa. pose proof (VectorClock.normal_wf _ Hb) as Hwb.
  pose proof (cv_comm (CvRDT := VectorClock.CvRDT_VectorClock) _ _ Hwa Hwb) as Hcm.
  assert (clock (merge to_vec a b) = VectorClock.merge (clock a) (clock b)) as Hclk.
  { unfold merge, merge_register. by repeat case_match. }
  split; [|split].
  - unfold merge, merge_register. rewrite Hcm.
    pose proof (VectorClock.causal_cmp_spec_sym (clock a) (clock b) Ha Hb) as Hsym.
    rewrite Hsym. pose proof (VectorClock.causal_cmp_eq (clock a) (clock b)) as Heq.
    destruct (VectorClock.causal_cmp (clock a) (clock b)) as [[]|]; simpl; f_equal.
    + by apply Huniq, Heq.
    + by apply tie_break_comm.
  - rewrite Hclk. intros k. rewrite VectorClock.get_merge by done. lia.
  - intros Hlt. pose proof (VectorClock.causal_cmp_lt _ _ Ha Hb Hlt) as E.
    unfold merge, merge_register. rewrite E. simpl. destruct b as [vb cb]. f_equal. simpl in *.
    apply VectorClock.normal_ext; [by apply VectorClock.normal_merge | done |].
    intros k. rewrite VectorClock.get_merge by done. destruct Hlt as [Hle _].
    specialize (Hle k). lia.
Qed.

Definition byte_to_vec (z : Z) : option (list Z) := Some [z].

Lemma byte_SerOk : SerOk byte_to_vec.
Proof. split; [by intros x; eexists|]. intros x y b [= <-] [=]. done. Qed.

Lemma new_normal {T} (v : T) actor : VectorClock.normal (clock (new v actor)).
Proof. apply VectorClock.normal_increment; [by apply map_Forall_empty | done]. Qed.

Lemma merge_commutative_witness :
  merge byte_to_vec (new 3 "x") (new 2 "y") = merge byte_to_vec (new 2 "y") (new 3 "x").
Proof.
  refine (proj1 (merge_commutative byte_to_vec (new 3 "x") (new 2 "y") byte_SerOk
    (new_normal _ _) (new_normal _ _) _)). by vm_compute.
Defined.

(** [VCRegister::merge] is not associative, although [CrdtMerge] requires
    it.  Replica [a] writes 3 and then overwrites it with 1 ([c]); [b] writes 2
    concurrently.  Merging the three states in two orders gives registers with
    equal clocks but different values, and merging those two leaves each as it
    is, so the replicas never converge; one of them shows the overwritten 3. *)
Theorem merge_not_associative :
  let m := merge byte_to_vec in
  let a := new 3 "x" in
  let b := new 2 "y" in
  let c := set a 1 "x" in
  let r1 := m (m a b) c in
  let r2 := m a (m b c) in
  value r1 = 3 /\ value r2 = 2 /\ clock r1 = clock r2 /\ m r1 r2 = r1 /\ m r2 r1 = r2.
Proof. vm_compute. done. Qed.

End VCRegister.
