(* ===== verification/OrSet.v ===== *)
(** * The observed-remove set [ORSet] (ORSWOT)

    crates/uni-crdt/src/orset.rs: the state (dots and version vector), its
    operations, the merge, and the decoding of both wire formats.  The UUIDs
    minted by [new_actor] are arguments of the operations that mint them.

    The merge is a CvRDT on well-formed states; and a system of replicas that
    add, remove, fork, and exchange states refines the classic OR-Set with
    tombstones ([Abs]), from which add-wins follows. *)

From S2P Require Import Prelude Counters.

(** A causal dot: actor id and per-actor counter. *)
Abbreviation Dot := (string * Z)%type.

Section orset.
Context {T : Type} `{Countable T}.

Record ORSet := mkORSet {
  dots : gmap T (gset Dot);
  vv : gmap string Z;
  actor : string;
}.

Definition new (a : string) : ORSet := mkORSet ∅ ∅ a.

Definition fork (self : ORSet) (a : string) : ORSet := mkORSet (dots self) (vv self) a.

Definition add (self : ORSet) (element : T) : ORSet * Dot :=
  let counter := wrapping_add_u64 (get_or_0 (vv self) (actor self)) 1 in
  let dot := (actor self, counter) in
  (mkORSet (<[element := {[dot]}]> (dots self)) (<[actor self := counter]> (vv self)) (actor self),
   dot).

Definition remove (self : ORSet) (element : T) : ORSet :=
  mkORSet (delete element (dots self)) (vv self) (actor self).

Definition contains (self : ORSet) (element : T) : bool :=
  match dots self !! element with
  | Some ds => negb (bool_decide (ds = ∅))
  | None => false
  end.

Definition elements_of (self : ORSet) : list T :=
  (List.filter (fun e : T * gset Dot => negb (bool_decide (e.2 = ∅))) (map_to_list (dots self))).*1.
Definition len (self : ORSet) : nat :=
  length (List.filter (fun ds : gset Dot => negb (bool_decide (ds = ∅))) (map_to_list (dots self)).*2).
Definition is_empty (self : ORSet) : bool := (len self =? 0)%nat.

(** [PartialEq]: equal up to the runtime-only actor id. *)
Definition orset_eq (a b : ORSet) : Prop := dots a = dots b /\ vv a = vv b.

(** The dots [element] has, none if it is absent. *)
Definition dots_of (m : gmap T (gset Dot)) (element : T) : gset Dot := default ∅ (m !! element).

(** A dot not covered by a version vector. *)
Definition unseen (v : gmap string Z) (d : Dot) : Prop := d.2 > get_or_0 v d.1.
#[export] Instance unseen_dec v d : Decision (unseen v d).
Proof. unfold unseen; apply _. Defined.

Definition surviving (sd od : gset Dot) (svv ovv : gmap string Z) : gset Dot :=
  (sd ∩ od) ∪ filter (unseen ovv) (sd ∖ od) ∪ filter (unseen svv) (od ∖ sd).

(** One iteration of the loop over the keys of both replicas. *)
Definition merge_key (svv : gmap string Z) (other : ORSet)
    (m : gmap T (gset Dot)) (key : T) : gmap T (gset Dot) :=
  let s := surviving (dots_of m key) (dots_of (dots other) key) svv (vv other) in
  if decide (s = ∅) then delete key m else <[key := s]> m.

Definition merge (self other : ORSet) : ORSet :=
  let keys : gset T := dom (dots self) ∪ dom (dots other) in
  mkORSet (foldl (merge_key (vv self) other) (dots self) (elements keys))
    (join_counts (vv self) (vv other)) (actor self).

(** ** Wire formats *)

Definition to_wire (self : ORSet) : gmap T (gset Dot) * gmap string Z := (dots self, vv self).

Section wire.
Context {U : Type} `{Countable U}.

Record ORSetWire := mkWire {
  w_dots : option (gmap T (gset Dot));
  w_vv : option (gmap string Z);
  w_elements : option (gmap T (gset U));
  w_tombstones : option (gset U);
}.

(** The version vector derived from observed dots. *)
Definition derive_vv (m : gmap T (gset Dot)) : gmap string Z :=
  for_entries (fun v _ tags =>
    foldl (fun v (d : Dot) => entry_max v d.1 d.2) v (elements tags)) ∅ m.

(** The v1 upgrade loop: every element with a live tag gets the next
    counter of the upgrade actor. *)
Definition upgrade_step (a : string) (tombs : gset U)
    (st : gmap T (gset Dot) * Z) (elem : T) (tags : gset U) : gmap T (gset Dot) * Z :=
  if existsb (fun tag => bool_decide (tag ∉ tombs)) (elements tags) then
    let counter := wrapping_add_u64 st.2 1 in (<[elem := {[(a, counter)]}]> st.1, counter)
  else st.

Definition of_wire (w : ORSetWire) (a : string) : ORSet :=
  match w_dots w, w_vv w with
  | Some ds, Some v => mkORSet ds v a
  | Some ds, None => mkORSet ds (derive_vv ds) a
  | None, Some v => mkORSet ∅ v a
  | None, None =>
      let tombs := default ∅ (w_tombstones w) in
      let '(new_dots, counter) :=
        match w_elements w with
        | Some els => for_entries (upgrade_step a tombs) (∅, 0) els
        | None => (∅, 0)
        end in
      mkORSet new_dots (if counter >? 0 then {[a := counter]} else ∅) a
  end.
End wire.

(** ** Well-formedness

    Present elements have dots, and every dot is covered by the version
    vector. *)

Record wf (s : ORSet) : Prop := {
  wf_nonempty : map_Forall (fun _ (ds : gset Dot) => ds <> ∅) (dots s);
  wf_covered : forall e d, d ∈ dots_of (dots s) e -> 1 <= d.2 <= get_or_0 (vv s) d.1;
  wf_vv : counts_ok (vv s);
}.

(** ** The merge, pointwise *)

Lemma foldl_merge_key svv other m l e :
  NoDup l ->
  foldl (merge_key svv other) m l !! e =
    if decide (e ∈ l) then
      let s := surviving (dots_of m e) (dots_of (dots other) e) svv (vv other) in
      if decide (s = ∅) then None else Some s
    else m !! e.
Proof.
  intros Hnd. revert m. induction Hnd as [|x l Hx Hnd IH]; intros m; cbn [foldl].
  { rewrite decide_False; [done|]. apply not_elem_of_nil. }
  rewrite IH. destruct (decide (e ∈ x :: l)) as [Hin|Hin]; rewrite elem_of_cons in Hin;
    destruct (decide (e ∈ l)) as [Hel|Hel];
    [| | exfalso; tauto |].
  - assert (x <> e) by (intros ->; done).
    assert (merge_key svv other m x !! e = m !! e) as Hm.
    { unfold merge_key. case_decide; [by rewrite lookup_delete_ne | by rewrite lookup_insert_ne]. }
    unfold dots_of. by rewrite Hm.
  - assert (e = x) as -> by tauto. unfold merge_key.
    simpl. case_decide; [by rewrite lookup_delete_eq | by rewrite lookup_insert_eq].
  - assert (x <> e) by (intros ->; tauto). unfold merge_key.
    case_decide; [by rewrite lookup_delete_ne | by rewrite lookup_insert_ne].
Qed.

Lemma orset_lookup_merge a b e :
  dots (merge a b) !! e =
    let s := surviving (dots_of (dots a) e) (dots_of (dots b) e) (vv a) (vv b) in
    if decide (s = ∅) then None else Some s.
Proof.
  simpl. rewrite foldl_merge_key by apply NoDup_elements.
  destruct (decide (e ∈ elements _)) as [He|He]; [done|].
  rewrite elem_of_elements, elem_of_union, !elem_of_dom in He.
  destruct (dots a !! e) eqn:Ea; [exfalso; eauto|].
  destruct (dots b !! e) eqn:Eb; [exfalso; eauto|].
  unfold dots_of. rewrite Ea, Eb. simpl. rewrite decide_True; [done|].
  unfold surviving. set_solver.
Qed.

Lemma elem_of_surviving sd od svv ovv (d : Dot) :
  d ∈ surviving sd od svv ovv <->
  (d ∈ sd /\ d ∈ od) \/ (d ∈ sd /\ (d ∉ od) /\ unseen ovv d) \/ (d ∈ od /\ (d ∉ sd) /\ unseen svv d).
Proof. unfold surviving. set_solver. Qed.

Lemma dots_of_merge a b e :
  dots_of (dots (merge a b)) e = surviving (dots_of (dots a) e) (dots_of (dots b) e) (vv a) (vv b).
Proof. unfold dots_of at 1. rewrite orset_lookup_merge. simpl. by case_decide. Qed.

(** Well-formed states with the same dots for every element are equal. *)
Lemma dots_ext a b :
  map_Forall (fun _ (ds : gset Dot) => ds <> ∅) (dots a) -> map_Forall (fun _ (ds : gset Dot) => ds <> ∅) (dots b) ->
  (forall e d, d ∈ dots_of (dots a) e <-> d ∈ dots_of (dots b) e) -> dots a = dots b.
Proof.
  intros Ha Hb Heq. apply map_eq. intros e. specialize (Heq e). unfold dots_of in Heq.
  destruct (dots a !! e) as [x|] eqn:Ea, (dots b !! e) as [y|] eqn:Eb; simpl in Heq; auto.
  - f_equal. set_solver.
  - specialize (Ha e x Ea). simpl in Ha. exfalso. apply Ha. set_solver.
  - specialize (Hb e y Eb). simpl in Hb. exfalso. apply Hb. set_solver.
Qed.

Lemma merge_nonempty a b : map_Forall (fun _ (ds : gset Dot) => ds <> ∅) (dots (merge a b)).
Proof. intros e ds. rewrite orset_lookup_merge. simpl. by case_decide; intros [= <-]. Qed.

Lemma wf_seen s e d : wf s -> d ∈ dots_of (dots s) e -> ~ unseen (vv s) d.
Proof. intros Hs Hd. pose proof (wf_covered s Hs e d Hd). unfold unseen. lia. Qed.

Lemma unseen_join v w d :
  counts_ok v -> counts_ok w -> unseen (join_counts v w) d <-> unseen v d /\ unseen w d.
Proof. intros. unfold unseen. rewrite get_join_counts by done. lia. Qed.

Lemma merge_wf a b : wf a -> wf b -> wf (merge a b).
Proof.
  intros Ha Hb. split; [apply merge_nonempty | | simpl; by apply join_counts_ok; apply wf_vv].
  intros e d. rewrite dots_of_merge, elem_of_surviving. simpl.
  rewrite get_join_counts by (by apply wf_vv).
  pose proof (wf_covered a Ha e d). pose proof (wf_covered b Hb e d).
  intros [[? ?]|[[? ?]|[? ?]]]; naive_solver lia.
Qed.

#[export] Instance orset_eq_equiv : Equivalence orset_eq.
Proof. unfold orset_eq. split; red; naive_solver congruence. Qed.

(** The survival test on booleans: held by self and other, unseen by self
    and other. *)
Definition survives (a b ua ub : bool) : bool :=
  (a && b) || (a && negb b && ub) || (b && negb a && ua).

Definition held (s : ORSet) (e : T) (d : Dot) : bool := bool_decide (d ∈ dots_of (dots s) e).
Definition fresh (s : ORSet) (d : Dot) : bool := bool_decide (unseen (vv s) d).

Lemma held_merge a b e d :
  held (merge a b) e d = survives (held a e d) (held b e d) (fresh a d) (fresh b d).
Proof.
  unfold held, fresh, survives. rewrite (bool_decide_ext _ _ (eq_ind_r (fun X => d ∈ X <-> _)
    (elem_of_surviving _ _ _ _ d) (dots_of_merge a b e))).
  by repeat case_bool_decide; naive_solver.
Qed.

Lemma fresh_merge a b d :
  wf a -> wf b -> fresh (merge a b) d = fresh a d && fresh b d.
Proof.
  intros Ha Hb. unfold fresh. simpl.
  rewrite (bool_decide_ext _ _ (unseen_join _ _ d (wf_vv _ Ha) (wf_vv _ Hb))).
  by rewrite bool_decide_and.
Qed.

Lemma held_not_fresh s e d : wf s -> held s e d && fresh s d = false.
Proof.
  intros Hs. unfold held, fresh. pose proof (wf_seen s e d Hs).
  repeat case_bool_decide; naive_solver.
Qed.

Lemma held_ext a b :
  map_Forall (fun _ (ds : gset Dot) => ds <> ∅) (dots a) ->
  map_Forall (fun _ (ds : gset Dot) => ds <> ∅) (dots b) ->
  (forall e d, held a e d = held b e d) -> dots a = dots b.
Proof.
  intros Ha Hb Heq. apply dots_ext; auto. intros e d. specialize (Heq e d).
  unfold held in Heq. by repeat case_bool_decide.
Qed.

Ltac merge_tac :=
  match goal with |- held _ ?e ?d = _ =>
    repeat match goal with H : wf ?s |- _ =>
      pose proof (held_not_fresh s e d H); revert H end;
    intros; rewrite ?held_merge, ?fresh_merge by done;
    unfold survives in *;
    repeat match goal with
    | |- context [held ?s e d] => destruct (held s e d)
    | |- context [fresh ?s d] => destruct (fresh s d)
    end; simpl in *; congruence
  end.

Lemma merge_comm a b : wf a -> wf b -> orset_eq (merge a b) (merge b a).
Proof.
  intros Ha Hb. split.
  - apply held_ext; [apply merge_nonempty..|]. intros e d. merge_tac.
  - simpl. apply (cv_comm (CvRDT := join_counts_CvRDT)); by apply wf_vv.
Qed.

Lemma merge_assoc a b c :
  wf a -> wf b -> wf c -> orset_eq (merge a (merge b c)) (merge (merge a b) c).
Proof.
  intros Ha Hb Hc. split.
  - apply held_ext; [apply merge_nonempty..|]. intros e d. merge_tac.
  - simpl. apply (cv_assoc (CvRDT := join_counts_CvRDT)); by apply wf_vv.
Qed.

Lemma merge_idemp a : wf a -> orset_eq (merge a a) a.
Proof.
  intros Ha. split.
  - apply held_ext; [apply merge_nonempty | by apply wf_nonempty |]. intros e d. merge_tac.
  - simpl. apply (cv_idemp (CvRDT := join_counts_CvRDT)). by apply wf_vv.
Qed.

Lemma merge_proper a a' b b' :
  orset_eq a a' -> orset_eq b b' -> orset_eq (merge a b) (merge a' b').
Proof.
  intros [Hd Hv] [Hd' Hv']. split; [|simpl; congruence].
  apply map_eq. intros e. rewrite !orset_lookup_merge. by rewrite Hd, Hv, Hd', Hv'.
Qed.

#[export] Instance CvRDT_ORSet : CvRDT orset_eq wf merge.
Proof.
  split; [apply _ | apply merge_wf | apply merge_comm | apply merge_assoc | apply merge_idemp |].
  intros. by apply merge_proper.
Qed.
End orset.
Arguments ORSet T {_ _}.
Arguments ORSetWire T {_ _} U {_ _}.

(** ** The abstract OR-Set: adds under unique tags, removed tags as tombstones *)
Module Abs.
Section abs.
Context {T : Type} `{Countable T}.

Record t := mk { adds : gmap Dot T; tombs : gset Dot }.

Definition empty : t := mk ∅ ∅.

Definition tags_of (s : t) (e : T) : gset Dot := dom (filter (fun x => x.2 = e) (adds s)).
Definition contains (s : t) (e : T) : Prop :=
  exists d, adds s !! d = Some e /\ (d ∉ tombs s).

(** Removal tombstones the observed tags of the element. *)
Definition remove (s : t) (e : T) : t := mk (adds s) (tombs s ∪ tags_of s e).
(** An add replaces the element's observed tags by a new one. *)
Definition add (s : t) (e : T) (d : Dot) : t :=
  mk (<[d := e]> (adds s)) (tombs s ∪ tags_of s e).
Definition merge (s s' : t) : t := mk (adds s ∪ adds s') (tombs s ∪ tombs s').

Lemma elem_of_tags_of s e d : d ∈ tags_of s e <-> adds s !! d = Some e.
Proof.
  unfold tags_of. rewrite elem_of_dom. unfold is_Some.
  setoid_rewrite map_lookup_filter_Some. naive_solver.
Qed.
End abs.
Arguments t T : clear implicits.
End Abs.

(** ** A system of replicas

    Every replica and every state in flight pairs an [ORSet] with the abstract
    set it stands for.  [log] is the ghost record of all adds. *)
Section system.
Context {T : Type} `{Countable T}.

Abbreviation node := (ORSet T * Abs.t T)%type.

Record sys := mkSys { replicas : gmap nat node; msgs : list node; log : gmap Dot T }.

Definition initial : sys := mkSys ∅ [] ∅.

(** All the states that exist: replicas and messages. *)
Definition state_of (s : sys) (n : node) : Prop :=
  (exists i, replicas s !! i = Some n) \/ n ∈ msgs s.

(** An actor id no state has seen. *)
Definition fresh_actor (s : sys) (a : string) : Prop :=
  (forall i n, replicas s !! i = Some n -> actor n.1 <> a)
  /\ (forall n, state_of s n -> get_or_0 (vv n.1) a = 0)
  /\ (forall d, log s !! d <> None -> d.1 <> a).

Inductive step : sys -> sys -> Prop :=
| step_new s i a :
    replicas s !! i = None -> fresh_actor s a ->
    step s (mkSys (<[i := (new a, Abs.empty)]> (replicas s)) (msgs s) (log s))
| step_fork s i j a o x :
    replicas s !! i = Some (o, x) -> replicas s !! j = None -> fresh_actor s a ->
    step s (mkSys (<[j := (fork o a, x)]> (replicas s)) (msgs s) (log s))
| step_add s i o x e o' d :
    replicas s !! i = Some (o, x) -> get_or_0 (vv o) (actor o) + 1 < 2 ^ 64 ->
    add o e = (o', d) ->
    step s (mkSys (<[i := (o', Abs.add x e d)]> (replicas s)) (msgs s) (<[d := e]> (log s)))
| step_remove s i o x e :
    replicas s !! i = Some (o, x) ->
    step s (mkSys (<[i := (remove o e, Abs.remove x e)]> (replicas s)) (msgs s) (log s))
| step_send s i n :
    replicas s !! i = Some n -> step s (mkSys (replicas s) (n :: msgs s) (log s))
| step_recv s i o x o' x' :
    replicas s !! i = Some (o, x) -> (o', x') ∈ msgs s ->
    step s (mkSys (<[i := (merge o o', Abs.merge x x')]> (replicas s)) (msgs s) (log s)).

Inductive reachable : sys -> Prop :=
| reach_init : reachable initial
| reach_step s s' : reachable s -> step s s' -> reachable s'.

(** The simulation relation of one state, relative to the log. *)
Record sim (lg : gmap Dot T) (n : node) : Prop := {
  sim_vv : counts_ok (vv n.1);
  sim_nonempty : map_Forall (fun _ (ds : gset Dot) => ds <> ∅) (dots n.1);
  sim_adds d e : Abs.adds n.2 !! d = Some e <-> lg !! d = Some e /\ d.2 <= get_or_0 (vv n.1) d.1;
  sim_dots d e : d ∈ dots_of (dots n.1) e <-> Abs.adds n.2 !! d = Some e /\ (d ∉ Abs.tombs n.2);
  sim_tombs d : d ∈ Abs.tombs n.2 -> d ∈ dom (Abs.adds n.2);
}.

(** The invariant of the system: a replica is ahead of every state on its
    own actor, and logged counters are positive. *)
Record inv (s : sys) : Prop := {
  inv_sim n : state_of s n -> sim (log s) n;
  inv_own i n m : replicas s !! i = Some n -> state_of s m ->
    get_or_0 (vv m.1) (actor n.1) <= get_or_0 (vv n.1) (actor n.1);
  inv_log_own i n d : replicas s !! i = Some n -> is_Some (log s !! d) -> d.1 = actor n.1 ->
    d.2 <= get_or_0 (vv n.1) d.1;
  inv_pos d : is_Some (log s !! d) -> 1 <= d.2;
  inv_actors i j n m : replicas s !! i = Some n -> replicas s !! j = Some m ->
    actor n.1 = actor m.1 -> i = j;
}.

Lemma sim_wf lg n : (forall d, is_Some (lg !! d) -> 1 <= d.2) -> sim lg n -> wf n.1.
Proof.
  intros Hpos Hs. split; [apply Hs | | apply Hs].
  intros e d [[Hd Hv]%(sim_adds _ _ Hs) _]%(sim_dots _ _ Hs). split; [|done].
  apply Hpos. eauto.
Qed.

Lemma sim_contains lg n e : sim lg n -> contains n.1 e = true <-> Abs.contains n.2 e.
Proof.
  intros Hs. unfold Abs.contains. setoid_rewrite <- (sim_dots _ _ Hs).
  unfold contains, dots_of. pose proof (sim_nonempty _ _ Hs e) as Hne.
  destruct (dots n.1 !! e) as [ds|]; simpl.
  - specialize (Hne ds eq_refl). simpl in Hne. rewrite bool_decide_false by done.
    split; [|done]. intros _. by apply set_choose_L in Hne.
  - split; [done|]. intros [d Hd]. set_solver.
Qed.

Abbreviation log_pos lg := (forall d : Dot, is_Some (lg !! d) -> 1 <= d.2) (only parsing).

Lemma sim_new (lg : gmap Dot T) a : log_pos lg -> sim lg (new a, Abs.empty).
Proof.
  intros Hpos. split; simpl; unfold dots_of, get_or_0; try setoid_rewrite lookup_empty; simpl;
    try done; try set_solver.
  intros d e. split; [done|]. intros [Hd ?]. specialize (Hpos d (mk_is_Some _ _ Hd)). lia.
Qed.

Lemma sim_fork (lg : gmap Dot T) o x a : sim lg (o, x) -> sim lg (fork o a, x).
Proof. intros []. by split. Qed.

Lemma sim_remove (lg : gmap Dot T) o x e : sim lg (o, x) -> sim lg (remove o e, Abs.remove x e).
Proof.
  intros Hs. split; simpl; [apply Hs | | apply Hs | |].
  - apply map_Forall_delete, Hs.
  - intros d e'. rewrite elem_of_union, Abs.elem_of_tags_of.
    pose proof (sim_dots _ _ Hs d e') as Hd. simpl in Hd. unfold dots_of in *.
    rewrite lookup_delete. destruct (decide (e = e')) as [<-|Hne]; simpl; [|naive_solver].
    split; [set_solver|]. naive_solver.
  - intros d. rewrite elem_of_union, Abs.elem_of_tags_of, elem_of_dom.
    intros [Hd|Hd]; [|eauto]. apply elem_of_dom. by apply (sim_tombs _ _ Hs).
Qed.

(** A state that has not seen the new dot is unaffected by the add. *)
Lemma sim_log_mono (lg : gmap Dot T) n d e :
  sim lg n -> get_or_0 (vv n.1) d.1 < d.2 -> sim (<[d := e]> lg) n.
Proof.
  intros Hs Hd. split; try apply Hs. intros d' e'.
  rewrite (sim_adds _ _ Hs), lookup_insert. destruct (decide (d = d')) as [<-|]; [|done].
  split; intros [? ?]; lia.
Qed.

Lemma sim_add (lg : gmap Dot T) o x e o' d :
  sim lg (o, x) -> log_pos lg ->
  (forall d, is_Some (lg !! d) -> d.1 = actor o -> d.2 <= get_or_0 (vv o) d.1) ->
  get_or_0 (vv o) (actor o) + 1 < 2 ^ 64 -> add o e = (o', d) ->
  sim (<[d := e]> lg) (o', Abs.add x e d)
  /\ d = (actor o, get_or_0 (vv o) (actor o) + 1) /\ actor o' = actor o
  /\ vv o' = <[actor o := get_or_0 (vv o) (actor o) + 1]> (vv o).
Proof.
  intros Hs Hpos Hown Hb. unfold add. pose proof (counts_ok_get _ (actor o) (sim_vv _ _ Hs)) as Hu.
  simpl in Hu. rewrite wrapping_add_small by int_lia. intros [= <- <-].
  set (n := get_or_0 (vv o) (actor o) + 1) in *. set (dd := (actor o, n)).
  assert (Abs.adds x !! dd = None) as Hnone.
  { destruct (Abs.adds x !! dd) eqn:E; [|done].
    apply (sim_adds _ _ Hs) in E as [_ Hle]. simpl in Hle. lia. }
  assert (dd ∉ Abs.tombs x) as Htomb.
  { intros Hd%(sim_tombs _ _ Hs). apply elem_of_dom in Hd as [? Hd]. simpl in Hd. congruence. }
  split; [|done]. split; simpl.
  - apply map_Forall_insert_2; [int_lia | apply Hs].
  - apply map_Forall_insert_2; [set_solver | apply Hs].
  - intros d' e'. rewrite !lookup_insert. destruct (decide (dd = d')) as [<-|Hne].
    { split; [|naive_solver]. intros ?. split; [done|]. simpl.
      unfold get_or_0. rewrite lookup_insert_eq. simpl. lia. }
    rewrite (sim_adds _ _ Hs). simpl. unfold get_or_0 at 2. rewrite lookup_insert.
    destruct (decide (actor o = d'.1)) as [Ha|]; [|done]. simpl.
    split; intros [Hd ?]; (split; [done|]); [rewrite <- Ha in *; lia|].
    apply Hown; eauto.
  - intros d' e'. unfold dots_of. rewrite !lookup_insert, elem_of_union, Abs.elem_of_tags_of.
    pose proof (sim_dots _ _ Hs d' e') as Hd. simpl in Hd. unfold dots_of in Hd.
    destruct (decide (e = e')) as [<-|]; simpl.
    + rewrite elem_of_singleton. destruct (decide (dd = d')) as [<-|]; naive_solver.
    + rewrite Hd. destruct (decide (dd = d')) as [<-|]; naive_solver.
  - intros d'. rewrite elem_of_union, Abs.elem_of_tags_of, dom_insert_L.
    intros [Hd%(sim_tombs _ _ Hs)|Hd]; [set_solver|].
    apply elem_of_union_r, elem_of_dom. eauto.
Qed.

Lemma sim_merge (lg : gmap Dot T) n m :
  sim lg n -> sim lg m -> sim lg (merge n.1 m.1, Abs.merge n.2 m.2).
Proof.
  intros Hn Hm. pose proof (sim_vv _ _ Hn) as Hvn. pose proof (sim_vv _ _ Hm) as Hvm.
  assert (forall d e, Abs.adds (Abs.merge n.2 m.2) !! d = Some e <->
    Abs.adds n.2 !! d = Some e \/ Abs.adds m.2 !! d = Some e) as Hadds.
  { intros d e. simpl. rewrite lookup_union_Some_raw. split; [naive_solver|].
    intros [?|Hd]; [auto|]. destruct (Abs.adds n.2 !! d) as [e'|] eqn:E; [|auto].
    left. apply (sim_adds _ _ Hn) in E. apply (sim_adds _ _ Hm) in Hd. naive_solver congruence. }
  split; cbn [fst snd].
  - by apply join_counts_ok.
  - apply merge_nonempty.
  - intros d e. rewrite Hadds, (sim_adds _ _ Hn), (sim_adds _ _ Hm). simpl.
    rewrite get_join_counts by done.
    split; [intros [[? ?]|[? ?]]; split; auto; lia|]. intros [? ?].
    destruct (Z.le_gt_cases d.2 (get_or_0 (vv n.1) d.1)); [auto|right; split; auto; lia].
  - intros d e. rewrite dots_of_merge, elem_of_surviving, Hadds. simpl.
    rewrite elem_of_union, (sim_dots _ _ Hn), (sim_dots _ _ Hm).
    rewrite !(sim_adds _ _ Hn), !(sim_adds _ _ Hm). unfold unseen.
    pose proof (sim_tombs _ _ Hn d) as Tn. pose proof (sim_tombs _ _ Hm d) as Tm.
    rewrite elem_of_dom in Tn, Tm. unfold is_Some in *.
    setoid_rewrite (sim_adds _ _ Hn) in Tn. setoid_rewrite (sim_adds _ _ Hm) in Tm.
    destruct (decide (d ∈ Abs.tombs n.2)), (decide (d ∈ Abs.tombs m.2));
      destruct (Z.le_gt_cases d.2 (get_or_0 (vv n.1) d.1));
      destruct (Z.le_gt_cases d.2 (get_or_0 (vv m.1) d.1)); naive_solver lia.
  - intros d. simpl. rewrite dom_union_L, !elem_of_union.
    intros [Hd%(sim_tombs _ _ Hn)|Hd%(sim_tombs _ _ Hm)]; auto.
Qed.

Lemma state_of_insert R M L i n m :
  state_of (mkSys (<[i := n]> R) M L) m ->
  m = n \/ state_of (mkSys R M L) m.
Proof.
  unfold state_of. simpl. intros [[j Hj]|Hm]; [|auto].
  rewrite lookup_insert in Hj. destruct (decide (i = j)); [left; congruence|].
  right. left. eauto.
Qed.

Lemma state_of_ext R M L L' n : state_of (mkSys R M L) n <-> state_of (mkSys R M L') n.
Proof. done. Qed.

Lemma inv_initial : inv initial.
Proof.
  split; unfold state_of, initial; simpl; try setoid_rewrite lookup_empty;
    try setoid_rewrite elem_of_nil; intros; naive_solver.
Qed.

(** Adding a replica with a fresh actor and a state simulated by [x]. *)
Lemma inv_join s i o x a o0 :
  inv s -> replicas s !! i = None -> fresh_actor s a -> actor o = a ->
  (vv o = vv o0 /\ state_of s (o0, x)) \/ vv o = ∅ ->
  sim (log s) (o, x) -> inv (mkSys (<[i := (o, x)]> (replicas s)) (msgs s) (log s)).
Proof.
  intros Hinv Hi (Hfa & Hfv & Hfl) Ha Hvv Hsim. destruct s as [R M L]. simpl in *.
  assert (get_or_0 (vv o) a = 0) as H0.
  { destruct Hvv as [[Hvv Hst]|Hvv]; rewrite Hvv; [|done]. apply (Hfv _ Hst). }
  assert (forall b, b <> a -> forall j n, R !! j = Some n -> actor n.1 = b ->
    get_or_0 (vv o) b <= get_or_0 (vv n.1) b) as Hle.
  { intros b Hb j n Hn <-. destruct Hvv as [[Hvv Hst]|Hvv]; rewrite Hvv.
    - apply (inv_own _ Hinv j n _ Hn Hst).
    - apply (counts_ok_get _ _ (sim_vv _ _ (inv_sim _ Hinv n (or_introl (ex_intro _ j Hn))))). }
  split; simpl.
  - intros n [->|Hn]%state_of_insert; [done|]. by apply (inv_sim _ Hinv).
  - intros j n m Hj Hm. rewrite lookup_insert in Hj. apply state_of_insert in Hm.
    destruct (decide (i = j)) as [<-|Hne].
    + injection Hj as <-. simpl. rewrite Ha, H0.
      destruct Hm as [->|Hm]; [simpl; lia|]. rewrite (Hfv m Hm). lia.
    + destruct Hm as [->|Hm]; [|by apply (inv_own _ Hinv j)].
      simpl. eapply Hle; eauto.
  - intros j n d Hj. rewrite lookup_insert in Hj.
    destruct (decide (i = j)) as [<-|Hne]; [|by apply (inv_log_own _ Hinv j)].
    injection Hj as <-. simpl. intros [? Hd] Hda. exfalso. apply (Hfl d); congruence.
  - apply (inv_pos _ Hinv).
  - intros j k n m Hj Hk. rewrite lookup_insert in Hj, Hk.
    destruct (decide (i = j)) as [<-|], (decide (i = k)) as [<-|]; auto; simplify_eq; simpl.
    + intros He. exfalso. by eapply (Hfa k m).
    + intros He. exfalso. by eapply (Hfa j n).
    + by apply (inv_actors _ Hinv).
Qed.

(** Replacing the state of a replica by one with the same actor and a
    version vector that is not ahead of any owner. *)
Lemma inv_update s i n n' :
  inv s -> replicas s !! i = Some n -> actor n'.1 = actor n.1 ->
  sim (log s) n' ->
  get_or_0 (vv n'.1) (actor n.1) = get_or_0 (vv n.1) (actor n.1) ->
  (forall j m, replicas s !! j = Some m ->
    get_or_0 (vv n'.1) (actor m.1) <= get_or_0 (vv m.1) (actor m.1)) ->
  inv (mkSys (<[i := n']> (replicas s)) (msgs s) (log s)).
Proof.
  intros Hinv Hi Ha Hsim Hown Hle. destruct s as [R M L]. simpl in *. split; simpl.
  - intros m [->|Hm]%state_of_insert; [done|]. by apply (inv_sim _ Hinv).
  - intros j m m' Hj Hm'. rewrite lookup_insert in Hj. apply state_of_insert in Hm'.
    destruct (decide (i = j)) as [<-|Hne].
    + injection Hj as <-. rewrite Ha, Hown.
      destruct Hm' as [->|Hm']; [lia|]. by apply (inv_own _ Hinv i).
    + destruct Hm' as [->|Hm']; [by eapply Hle | by apply (inv_own _ Hinv j)].
  - intros j m d Hj. rewrite lookup_insert in Hj.
    destruct (decide (i = j)) as [<-|Hne]; [|by apply (inv_log_own _ Hinv j)].
    injection Hj as <-. intros Hd Hda. rewrite Hda, Ha, Hown. rewrite Ha in Hda.
    rewrite <- Hda. by apply (inv_log_own _ Hinv i n).
  - apply (inv_pos _ Hinv).
  - intros j k m m' Hj Hk. rewrite lookup_insert in Hj, Hk.
    destruct (decide (i = j)) as [<-|], (decide (i = k)) as [<-|]; auto; simplify_eq; simpl.
    + intros He. apply (inv_actors _ Hinv i k n m'); simpl; congruence.
    + intros He. apply (inv_actors _ Hinv j i m n); simpl; congruence.
    + by apply (inv_actors _ Hinv).
Qed.

Lemma inv_add s i o x e o' d :
  inv s -> replicas s !! i = Some (o, x) -> get_or_0 (vv o) (actor o) + 1 < 2 ^ 64 ->
  add o e = (o', d) ->
  inv (mkSys (<[i := (o', Abs.add x e d)]> (replicas s)) (msgs s) (<[d := e]> (log s))).
Proof.
  intros Hinv Hi Hb Hadd. pose proof (inv_sim _ Hinv (o, x) (or_introl (ex_intro _ i Hi))) as Hs.
  destruct (sim_add _ _ _ _ _ _ Hs (inv_pos _ Hinv)
    (fun d => inv_log_own _ Hinv i (o, x) d Hi) Hb Hadd) as (Hs' & Hd & Ha & Hv).
  destruct s as [R M L]. simpl in *. set (nn := get_or_0 (vv o) (actor o) + 1) in *.
  assert (forall b, get_or_0 (vv o') b = if decide (actor o = b) then nn else get_or_0 (vv o) b) as Hg.
  { intros b. rewrite Hv. unfold get_or_0 at 1. rewrite lookup_insert. by case_decide. }
  assert (forall m, state_of (mkSys R M L) m -> get_or_0 (vv m.1) (actor o) < nn) as Hlt.
  { intros m Hm. pose proof (inv_own _ Hinv i (o, x) m Hi Hm). simpl in *. lia. }
  pose proof (counts_ok_get _ (actor o) (sim_vv _ _ Hs)) as Hu. simpl in Hu.
  split; simpl.
  - intros m [->|Hm]%state_of_insert; [done|].
    apply sim_log_mono; [by apply (inv_sim _ Hinv)|]. rewrite Hd. simpl. by apply Hlt.
  - intros j m m' Hj Hm'. rewrite lookup_insert in Hj. apply state_of_insert in Hm'.
    destruct (decide (i = j)) as [<-|Hne].
    + injection Hj as <-. simpl. rewrite Ha, Hg, decide_True by done.
      destruct Hm' as [->|Hm']; [simpl; rewrite Hg, decide_True by done; lia|].
      specialize (Hlt m' Hm'). lia.
    + destruct Hm' as [->|Hm']; [|by apply (inv_own _ Hinv j)]. simpl. rewrite Hg.
      rewrite decide_False.
      * apply (inv_own _ Hinv j m (o, x) Hj). left. eauto.
      * intros He. apply Hne. by eapply (inv_actors _ Hinv i j (o, x) m).
  - intros j m d' Hj. rewrite !lookup_insert in *. rewrite Hd.
    destruct (decide (i = j)) as [<-|Hne].
    + injection Hj as <-. simpl. intros Hl Hda. rewrite Hg, Ha in *.
      rewrite decide_True by done. destruct (decide (_ = d')) as [<-|]; [done|].
      pose proof (inv_log_own _ Hinv i (o, x) d' Hi Hl Hda) as Hle. simpl in Hle.
      rewrite Hda in Hle. lia.
    + destruct (decide (_ = d')) as [<-|]; [|by apply (inv_log_own _ Hinv j)].
      simpl. intros _ He. exfalso. apply Hne.
      by eapply (inv_actors _ Hinv i j (o, x) m).
  - intros d'. rewrite lookup_insert. destruct (decide (d = d')) as [<-|].
    + intros _. rewrite Hd. simpl. int_lia.
    + apply (inv_pos _ Hinv).
  - intros j k m m' Hj Hk. rewrite lookup_insert in Hj, Hk.
    destruct (decide (i = j)) as [<-|], (decide (i = k)) as [<-|]; auto; simplify_eq; simpl.
    + intros He. apply (inv_actors _ Hinv i k (o, x) m'); simpl; congruence.
    + intros He. apply (inv_actors _ Hinv j i m (o, x)); simpl; congruence.
    + by apply (inv_actors _ Hinv).
Qed.

Lemma inv_step s s' : inv s -> step s s' -> inv s'.
Proof.
  intros Hinv Hstep. destruct Hstep as
    [s i a Hi Ha|s i j a o x Hi Hj Ha|s i o x e o' d Hi Hb Hadd|s i o x e Hi|s i n Hi|s i o x o' x' Hi Hm].
  - apply (inv_join s i _ _ a (new a)); auto. by apply sim_new, inv_pos.
  - assert (state_of s (o, x)) as Hst by (left; eauto).
    apply (inv_join s j _ _ a o); auto. apply sim_fork. by apply (inv_sim _ Hinv).
  - by apply inv_add with o.
  - assert (state_of s (o, x)) as Hst by (left; eauto).
    apply (inv_update s i (o, x)); auto; [apply sim_remove; by apply (inv_sim _ Hinv)|].
    intros j m Hj. apply (inv_own _ Hinv j m (o, x) Hj Hst).
  - split; try apply Hinv; unfold state_of; simpl; try setoid_rewrite elem_of_cons.
    + intros m [Hm|[->|Hm]]; apply (inv_sim _ Hinv); [left; auto | left; eauto | right; auto].
    + intros j m m' Hj Hm'. apply (inv_own _ Hinv j m); [done|].
      destruct Hm' as [?|[->|?]]; [left; auto | left; eauto | right; auto].
  - assert (state_of s (o, x)) as Hst by (left; eauto).
    assert (state_of s (o', x')) as Hst' by by right.
    pose proof (inv_sim _ Hinv _ Hst) as Hs. pose proof (inv_sim _ Hinv _ Hst') as Hs'.
    pose proof (inv_own _ Hinv) as Hown.
    apply (inv_update s i (o, x)); auto; [apply (sim_merge _ (o, x) (o', x')); auto| |].
    + simpl. rewrite get_join_counts by (apply Hs || apply Hs').
      pose proof (Hown i (o, x) _ Hi Hst'). simpl in *. lia.
    + intros j m Hj. simpl. rewrite get_join_counts by (apply Hs || apply Hs').
      pose proof (Hown j m _ Hj Hst). pose proof (Hown j m _ Hj Hst'). simpl in *. lia.
Qed.

Lemma orset_reachable_inv s : reachable s -> inv s.
Proof. induction 1; [apply inv_initial | by eapply inv_step]. Qed.
End system.

(** ** Decoding *)
Section decode.
Context {T U : Type} `{Countable T} `{Countable U}.

(** An element is live in a v1 payload when some tag is not tombstoned. *)
Definition live_v1 (tombs : gset U) (els : gmap T (gset U)) (e : T) : Prop :=
  exists tags, els !! e = Some tags /\ exists tag, tag ∈ tags /\ (tag ∉ tombs).

Lemma upgrade_fold (a : string) (tombs : gset U) (l : list (T * gset U)) (m0 : gmap T (gset Dot)) c0 :
  NoDup l.*1 -> 0 <= c0 -> c0 + Z.of_nat (length l) < 2 ^ 64 ->
  (forall e ds, m0 !! e = Some ds -> exists n, ds = {[(a, n)]} /\ 1 <= n <= c0) ->
  let st := for_each (upgrade_step a tombs) (m0, c0) l in
  (c0 <= st.2 <= c0 + Z.of_nat (length l)) /\
  (forall e ds, st.1 !! e = Some ds -> exists n, ds = {[(a, n)]} /\ 1 <= n <= st.2) /\
  (forall e, is_Some (st.1 !! e) <->
    is_Some (m0 !! e) \/ exists tags, (e, tags) ∈ l /\ exists tag, tag ∈ tags /\ (tag ∉ tombs)).
Proof.
  unfold for_each. revert m0 c0. induction l as [|[e tags] l IH]; intros m0 c0 Hnd Hc0 Hb Hm; simpl.
  { split; [lia|]. split; [done|]. intros e. setoid_rewrite elem_of_nil. naive_solver. }
  apply NoDup_cons in Hnd as [He Hnd]. cbn [length] in Hb.
  assert (existsb (fun tag => bool_decide (tag ∉ tombs)) (elements tags) = true <->
    exists tag, tag ∈ tags /\ (tag ∉ tombs)) as Hlive.
  { rewrite existsb_exists. setoid_rewrite <- list_elem_of_In.
    setoid_rewrite elem_of_elements. by setoid_rewrite bool_decide_eq_true. }
  setoid_rewrite elem_of_cons.
  destruct (upgrade_step a tombs (m0, c0) e tags) as [m1 c1] eqn:Hst.
  unfold upgrade_step in Hst. simpl in Hst.
  destruct (existsb _ _) eqn:E; simplify_eq.
  - rewrite wrapping_add_small by lia.
    destruct (IH (<[e := {[(a, c0 + 1)]}]> m0) (c0 + 1)) as (Hc & Hs & Hin); [done|lia|lia| |].
    { intros e' ds. rewrite lookup_insert. case_decide; [|intros Hl%Hm].
      - intros [= <-]. exists (c0 + 1). split; [done|lia].
      - destruct Hl as (n & ? & ?). exists n. split; [done|lia]. }
    split; [lia|]. split; [done|]. intros e'. rewrite Hin, lookup_insert.
    pose proof (proj1 Hlive eq_refl). case_decide; subst; naive_solver.
  - destruct (IH m1 c1) as (Hc & Hs & Hin); [done|lia|lia|done|].
    split; [lia|]. split; [done|]. intros e'. rewrite Hin.
    assert (~ exists tag, tag ∈ tags /\ (tag ∉ tombs)) by (rewrite <- Hlive; done).
    naive_solver.
Qed.

Lemma get_singleton (a : string) c b : get_or_0 {[a := c]} b = if decide (a = b) then c else 0.
Proof. unfold get_or_0. rewrite lookup_singleton. by case_decide. Qed.

(** The v1 upgrade keeps exactly the elements with a live tag, and gives
    a well-formed set whose dots all belong to the upgrade actor. *)
Theorem decode_v1_keeps_live (els : gmap T (gset U)) (tombs : option (gset U)) (a : string) :
  Z.of_nat (size els) < 2 ^ 64 ->
  let s := of_wire (mkWire None None (Some els) tombs) a in
  (forall e, contains s e = true <-> live_v1 (default ∅ tombs) els e) /\ wf s
  /\ (forall e d, d ∈ dots_of (dots s) e -> d.1 = a).
Proof.
  intros Hb. unfold of_wire. simpl.
  pose proof (upgrade_fold a (default ∅ tombs) (map_to_list els) ∅ 0
    (NoDup_fst_map_to_list els) ltac:(lia)) as Hf.
  rewrite length_map_to_list in Hf. specialize (Hf ltac:(lia) ltac:(intros ??; by rewrite lookup_empty)).
  unfold for_entries. destruct (for_each _ _ _) as [m c]. simpl in Hf.
  destruct Hf as (Hc & Hs & Hin). cbn zeta. split; [|split].
  - intros e. unfold contains. simpl. specialize (Hin e). specialize (Hs e).
    rewrite lookup_empty in Hin. setoid_rewrite elem_of_map_to_list in Hin.
    unfold live_v1. destruct (m !! e) as [ds|].
    + destruct (Hs ds eq_refl) as (n & -> & ?). rewrite bool_decide_false by set_solver.
      split; [|done]. intros _. destruct (proj1 Hin ltac:(eauto)) as [[? ?]|?]; done.
    + split; [done|]. intros ?. by destruct (proj2 Hin (or_intror ltac:(eassumption))).
  - split; simpl.
    + intros e ds Hl. destruct (Hs e ds Hl) as (n & -> & ?). set_solver.
    + intros e d. unfold dots_of. destruct (m !! e) as [ds|] eqn:El; simpl; [|set_solver].
      destruct (Hs e ds El) as (n & -> & ?). rewrite elem_of_singleton. intros ->. simpl.
      destruct (Z.gtb_spec c 0); [|lia]. rewrite get_singleton, decide_True by done. done.
    + destruct (Z.gtb_spec c 0); [|by apply map_Forall_empty].
      apply map_Forall_singleton. int_lia.
  - intros e d. unfold dots_of. simpl. destruct (m !! e) as [ds|] eqn:El; simpl; [|set_solver].
    destruct (Hs e ds El) as (n & -> & ?). rewrite elem_of_singleton. by intros ->.
Qed.

(** A v2 payload decodes to the encoded set, whatever actor is minted. *)
Lemma decode_v2 (s : ORSet T) a :
  orset_eq (of_wire (U := U) (mkWire (Some (to_wire s).1) (Some (to_wire s).2) None None) a) s.
Proof. done. Qed.
End decode.

Lemma decode_v1_keeps_live_witness :
  let els : gmap string (gset Z) := {["x" := {[1; 2]}; "y" := {[3]}]} in
  let s := of_wire (mkWire None None (Some els) (Some {[1; 3]})) "up" in
  contains s "x" = true <-> live_v1 {[1; 3]} els "x".
Proof.
  intros els s. refine (proj1 (decode_v1_keeps_live els (Some {[1; 3]}) "up" _) "x").
  by vm_compute.
Defined.

(** ** Properties *)
Section properties.
Context {T : Type} `{Countable T}.

(** The ORSWOT merge is a CvRDT merge: on well-formed sets it is
    commutative, associative and idempotent up to the runtime-only actor id,
    and keeps sets well-formed. *)
Theorem orset_merge_laws (a b c : ORSet T) :
  wf a -> wf b -> wf c ->
  wf (merge a b) /\ orset_eq (merge a b) (merge b a)
  /\ orset_eq (merge a (merge b c)) (merge (merge a b) c) /\ orset_eq (merge a a) a.
Proof.
  intros. split; [by apply merge_wf|]. split; [by apply merge_comm|].
  split; [by apply merge_assoc | by apply merge_idemp].
Qed.

(** C24: In every reachable state of a system of replicas that are created
    with fresh actors, forked, add, remove, send their state and merge
    received (possibly stale or repeated) states, every replica shows exactly
    the elements of the tombstone-based OR-Set it stands for. *)
Theorem orset_refines_tombstone_set (s : sys (T := T)) i n e :
  reachable s -> replicas s !! i = Some n ->
  contains n.1 e = true <-> Abs.contains n.2 e.
Proof.
  intros Hr Hi. eapply sim_contains, (inv_sim _ (orset_reachable_inv _ Hr)). left. eauto.
Qed.

(** Add wins, removes stick: merging a replica that has just added an
    element into (or with) one that removed it keeps the element, as long as
    the remover has not seen the new dot; and merging a stale copy whose dots
    of the element were all observed does not bring a removed element back. *)
Theorem orset_add_wins (o o' o'' : ORSet T) e :
  wf o -> wf o' -> get_or_0 (vv o) (actor o) + 1 < 2 ^ 64 ->
  get_or_0 (vv o') (actor o) <= get_or_0 (vv o) (actor o) ->
  (forall d, d ∈ dots_of (dots o'') e -> ~ unseen (vv o') d) ->
  contains (merge (add o e).1 (remove o' e)) e = true
  /\ contains (merge (remove o' e) (add o e).1) e = true
  /\ contains (merge (remove o' e) o'') e = false.
Proof.
  intros Ho Ho' Hb Hle Hstale.
  assert (forall s : ORSet T, contains s e = true <-> dots s !! e <> None /\ dots_of (dots s) e <> ∅)
    as Hc.
  { intros s. unfold contains, dots_of. destruct (dots s !! e); simpl; [|naive_solver].
    rewrite negb_true_iff, bool_decide_eq_false. naive_solver. }
  assert (forall x y : ORSet T, dots_of (dots (merge x y)) e <> ∅ -> contains (merge x y) e = true)
    as Hc'.
  { intros x y Hne. apply Hc. split; [|done]. unfold dots_of in Hne.
    by destruct (dots (merge x y) !! e). }
  pose proof (counts_ok_get _ (actor o) (wf_vv _ Ho)) as Hu.
  set (d := (actor o, get_or_0 (vv o) (actor o) + 1)).
  assert (dots_of (dots (add o e).1) e = {[d]}) as Hadd.
  { unfold dots_of, add. simpl. rewrite lookup_insert_eq, wrapping_add_small by int_lia. done. }
  assert (dots_of (dots (remove o' e)) e = ∅) as Hrem.
  { unfold dots_of, remove. simpl. by rewrite lookup_delete_eq. }
  assert (unseen (vv o') d) as Hun by (unfold unseen; simpl; lia).
  split; [|split].
  - apply Hc'. rewrite dots_of_merge, Hadd, Hrem. intros Heq.
    apply (not_elem_of_empty (C := gset Dot) d). rewrite <- Heq. apply elem_of_surviving.
    right. left. set_solver.
  - apply Hc'. rewrite dots_of_merge, Hadd, Hrem. intros Heq.
    apply (not_elem_of_empty (C := gset Dot) d). rewrite <- Heq. apply elem_of_surviving.
    right. right. set_solver.
  - apply not_true_iff_false. rewrite Hc. intros [_ Hne]. apply Hne.
    rewrite dots_of_merge, Hrem. apply set_eq. intros x. rewrite elem_of_surviving.
    simpl. specialize (Hstale x). set_solver.
Qed.
End properties.

Module Examples.
Definition r1 : ORSet string := (add (new "a") "x").1.

Lemma new_orset_wf a : wf (new a : ORSet string).
Proof.
  split; simpl; [by apply map_Forall_empty | | by apply map_Forall_empty].
  intros e d. unfold dots_of. rewrite lookup_empty. simpl. set_solver.
Qed.

Lemma r1_wf : wf r1.
Proof.
  split; simpl.
  - apply map_Forall_insert_2; [set_solver | by apply map_Forall_empty].
  - intros e d. unfold dots_of. rewrite lookup_insert. case_decide; simpl; [|by rewrite lookup_empty].
    rewrite elem_of_singleton. intros ->. by vm_compute.
  - apply map_Forall_insert_2; [apply wrapping_add_is_u64 | by apply map_Forall_empty].
Qed.

Lemma orset_merge_laws_witness :
  orset_eq (merge r1 (merge (new "b") (new "c"))) (merge (merge r1 (new "b")) (new "c")).
Proof.
  apply (orset_merge_laws r1 (new "b") (new "c")); [apply r1_wf | apply new_orset_wf..].
Defined.

Lemma orset_refines_tombstone_set_witness :
  contains r1 "x" = true <-> Abs.contains (Abs.add Abs.empty "x" ("a", 1)) "x".
Proof.
  refine (orset_refines_tombstone_set
    (mkSys {[0%nat := (r1, Abs.add Abs.empty "x" ("a", 1))]} [] {[("a", 1) := "x"]})
    0 (r1, Abs.add Abs.empty "x" ("a", 1)) "x" _ _); [|apply lookup_singleton_eq].
  refine (reach_step (mkSys {[0%nat := (new "a", Abs.empty)]} [] ∅) _ _ _).
  - refine (reach_step initial _ reach_init _). apply (step_new initial 0 "a"); [done|].
    split; [|split]; intros *; simpl; rewrite ?lookup_empty; [done | | done].
    intros [[j Hj]|Hm]; [|by apply elem_of_nil in Hm].
    unfold initial in Hj. simpl in Hj. by rewrite lookup_empty in Hj.
  - refine (step_add (mkSys {[0%nat := (new "a", Abs.empty)]} [] ∅) 0 (new "a") Abs.empty "x" r1
      ("a", 1) _ _ _); [apply lookup_singleton_eq | done | done].
Defined.

Lemma orset_add_wins_witness :
  contains (merge (add r1 "x").1 (remove r1 "x")) "x" = true.
Proof.
  apply (orset_add_wins r1 r1 r1 "x"); [apply r1_wf | apply r1_wf | by vm_compute | lia |].
  intros d Hd. apply (wf_seen _ _ _ r1_wf Hd).
Defined.
End Examples.
