(* ===== verification/Rga.v ===== *)
(** * Replicated growable arrays

    crates/uni-crdt/src/rga.rs: a sequence as a map of nodes, each pointing to
    the node it was inserted after.  A fresh UUID is an argument of [insert]
    (a 128-bit integer, ordered as its bytes are).  The traversal of [to_vec]
    keeps its explicit stack; its loop runs on fuel, and [to_vec_total] shows
    that the fuel given is enough for every array whose nodes are stored under
    their own ids. *)

From S2P Require Import Prelude.

Section rga.
  Context {T : Type}.

Record RgaNode := mkNode {
  id : Z;
  elem : T;
  origin_left : option Z;
  tombstone : bool;
  timestamp : Z;
}.

Record Rga := mkRga { nodes : gmap Z RgaNode }.

Definition new : Rga := mkRga ∅.

Definition insert (self : Rga) (prev_id : option Z) (e : T) (ts : Z) (uuid : Z) : Rga * Z :=
  (mkRga (<[uuid := mkNode uuid e prev_id false ts]> (nodes self)), uuid).

Definition set_tombstone (n : RgaNode) : RgaNode := mkNode (id n) (elem n) (origin_left n) true (timestamp n).

Definition delete (self : Rga) (k : Z) : Rga :=
  mkRga (alter set_tombstone k (nodes self)).

(** Descending timestamp, then descending id. *)
Definition node_cmp (a b : RgaNode) : comparison :=
  then_cmp (timestamp b ?= timestamp a) (id b ?= id a).
Definition node_le (a b : RgaNode) : Prop := node_cmp a b <> Gt.
#[export] Instance node_le_dec : RelDecision node_le.
Proof. intros a b. unfold node_le. apply _. Defined.

Definition push_child (children : gmap (option Z) (list RgaNode)) (n : RgaNode) : gmap (option Z) (list RgaNode) :=
  <[origin_left n := default [] (children !! origin_left n) ++ [n]]> children.

Definition child_lists `{HO : HashOrder} (self : Rga) : gmap (option Z) (list RgaNode) :=
  merge_sort node_le <$> foldl push_child ∅ (hash_order (map_to_list (nodes self)).*2).

(** [while let Some((current, idx)) = stack.pop()] *)
Fixpoint walk_loop (children : gmap (option Z) (list RgaNode)) (fuel : nat) (stack : list (option Z * nat))
    (result : list T) : option (list T) :=
  match fuel with
  | O => None
  | S fuel =>
      match stack with
      | [] => Some result
      | (current, idx) :: stack =>
          match children !! current ≫= (.!! idx) with
          | Some child =>
              walk_loop children fuel ((Some (id child), O) :: (current, S idx) :: stack)
                (if tombstone child then result else result ++ [elem child])
          | None => walk_loop children fuel stack result
          end
      end
  end.

Definition to_vec `{HO : HashOrder} (self : Rga) : option (list T) :=
  walk_loop (child_lists self) (2 * size (nodes self) + 2) [(None, O)] [].

Definition len (self : Rga) : nat :=
  length (filter (fun n => tombstone n = false) (map_to_list (nodes self)).*2).
Definition is_empty (self : Rga) : bool := Nat.eqb (len self) 0.

Definition merge_node (self_nodes : gmap Z RgaNode) (k : Z) (other_node : RgaNode) : gmap Z RgaNode :=
  match self_nodes !! k with
  | Some node => if tombstone other_node then <[k := set_tombstone node]> self_nodes else self_nodes
  | None => <[k := other_node]> self_nodes
  end.

Definition merge (self other : Rga) : Rga := mkRga (for_entries merge_node (nodes self) (nodes other)).

(** ** Walking a forest *)

(** The nodes of [cs] and of their subtrees, each before its subtree. *)
Inductive pre (ch : option Z -> list RgaNode) : list RgaNode -> list RgaNode -> Prop :=
| pre_nil : pre ch [] []
| pre_cons c cs sub rest : pre ch (ch (Some (id c))) sub -> pre ch cs rest -> pre ch (c :: cs) (c :: sub ++ rest).

Inductive frames (ch : option Z -> list RgaNode) : list (option Z * nat) -> list RgaNode -> Prop :=
| frames_nil : frames ch [] []
| frames_cons o i st a b : pre ch (drop i (ch o)) a -> frames ch st b -> frames ch ((o, i) :: st) (a ++ b).

Definition visible (l : list RgaNode) : list T := elem <$> filter (fun n => tombstone n = false) l.

Definition list_at (children : gmap (option Z) (list RgaNode)) (o : option Z) : list RgaNode := default [] (children !! o).

Definition opened (vis : list Z) (o : option Z) : Prop := o = None \/ exists k, o = Some k /\ k ∈ vis.

(** Nodes have one parent and one place among its children. *)
Record forest (ch : option Z -> list RgaNode) (ids : list Z) : Prop := {
  f_in o c : c ∈ ch o -> id c ∈ ids;
  f_place o o' i j c c' : ch o !! i = Some c -> ch o' !! j = Some c' -> id c = id c' -> o = o' /\ i = j;
}.

Record walking (ch : option Z -> list RgaNode) (ids : list Z) (stack : list (option Z * nat)) (vis : list Z) : Prop := {
  w_nodup : NoDup vis;
  w_sub : vis ⊆ ids;
  w_keys : NoDup stack.*1;
  w_opened o i : (o, i) ∈ stack -> opened vis o;
  w_done o j c : ch o !! j = Some c -> id c ∈ vis -> opened vis o /\ forall i, (o, i) ∈ stack -> (j < i)%nat;
}.

Lemma opened_mono vis k o : opened vis o -> opened (k :: vis) o.
Proof. intros [-> | (j & -> & Hj)]; [by left|right]. exists j. split; [done|by right]. Qed.

Lemma walking_pop ch ids o i st vis : walking ch ids ((o, i) :: st) vis -> walking ch ids st vis.
Proof.
  intros [H1 H2 H3 H4 H5]. split; [done|done|by apply NoDup_cons in H3 as [_ ?]| |].
  - intros o' i' H. apply (H4 o' i'). by right.
  - intros o' j c Hc Hv. destruct (H5 o' j c Hc Hv) as [Ho Hi]. split; [done|]. intros i' H. apply Hi. by right.
Qed.

Lemma walking_fresh ch ids o i st vis c :
  walking ch ids ((o, i) :: st) vis -> ch o !! i = Some c -> id c ∉ vis.
Proof. intros W Hc Hv. destruct (w_done _ _ _ _ W o i c Hc Hv) as [_ H]. specialize (H i ltac:(by left)). lia. Qed.

Lemma walking_push ch ids o i st vis c :
  forest ch ids -> walking ch ids ((o, i) :: st) vis -> ch o !! i = Some c ->
  walking ch ids ((Some (id c), O) :: (o, S i) :: st) (id c :: vis).
Proof.
  intros F W Hc. pose proof (walking_fresh _ _ _ _ _ _ _ W Hc) as Hn.
  assert (Hno : ~ opened vis (Some (id c))) by (intros [?|(k & [= <-] & ?)]; done).
  destruct W as [H1 H2 H3 H4 H5]. cbn [fst fmap list_fmap] in H3. apply NoDup_cons in H3 as [Hk H3].
  assert (Hoo : opened vis o) by (apply (H4 o i); by left). split.
  - by apply NoDup_cons.
  - intros k [-> | Hkv]%elem_of_cons; [|by apply H2]. apply (f_in _ _ F o). by eapply list_elem_of_lookup_2.
  - cbn [fst fmap list_fmap]. apply NoDup_cons. split; [|by apply NoDup_cons]. intros [E|Hin]%elem_of_cons.
    + apply Hno. by rewrite E.
    + apply list_elem_of_fmap in Hin as ([o' i'] & E & Hin). cbn in E. apply Hno. rewrite E. apply (H4 o' i'). by right.
  - intros o' i' [[= -> ->] | [[= -> ->] | Hin]%elem_of_cons]%elem_of_cons.
    + right. exists (id c). split; [done|by left].
    + by apply opened_mono.
    + apply opened_mono. apply (H4 o' i'). by right.
  - intros o' j c' Hc' Hv'. assert (Hcase : id c' = id c \/ (id c' <> id c /\ id c' ∈ vis)).
    { apply elem_of_cons in Hv' as [->|?]; [by left|]. destruct (decide (id c' = id c)); [by left|by right]. }
    destruct Hcase as [E|[Ne Hv]].
    + destruct (f_place _ _ F o' o j i c' c Hc' Hc E) as [-> ->]. split; [by apply opened_mono|].
      intros i' [[= -> ->] | [[= ->] | Hin]%elem_of_cons]%elem_of_cons; [done|lia|].
      exfalso. apply Hk. apply list_elem_of_fmap. by exists (o, i').
    + destruct (H5 o' j c' Hc' Hv) as [Ho Hlt]. split; [by apply opened_mono|].
      intros i' [[= -> ->] | [[= -> ->] | Hin]%elem_of_cons]%elem_of_cons; [done| |].
      * specialize (Hlt i ltac:(by left)). lia.
      * apply Hlt. by right.
Qed.

(** The loop visits every frame's nodes once, in order, within its fuel. *)
Lemma walk_loop_ok children ids fuel : forall stack vis res,
  forest (list_at children) ids -> walking (list_at children) ids stack vis ->
  (2 * (length ids - length vis) + length stack < fuel)%nat ->
  exists out, walk_loop children fuel stack res = Some (res ++ visible out)
    /\ frames (list_at children) stack out /\ NoDup (id <$> out) /\ (forall n, n ∈ out -> id n ∉ vis).
Proof.
  induction fuel as [|fuel IH]; intros stack vis res F W Hf; [lia|]. cbn [walk_loop].
  destruct stack as [|[o i] st].
  { exists []. rewrite app_nil_r. split; [done|]. split; [constructor|]. split; [constructor|]. by intros n ?%elem_of_nil. }
  assert (Hch : children !! o ≫= (.!! i) = list_at children o !! i) by (unfold list_at; by destruct (children !! o)).
  rewrite Hch. destruct (list_at children o !! i) as [c|] eqn:Hc.
  - pose proof (walking_fresh _ _ _ _ _ _ _ W Hc) as Hn. pose proof (walking_push _ _ _ _ _ _ _ F W Hc) as W'.
    assert (Hlen : (length (id c :: vis) <= length ids)%nat).
    { apply submseteq_length, NoDup_submseteq; [apply (w_nodup _ _ _ _ W')|apply (w_sub _ _ _ _ W')]. }
    cbn [length] in Hlen.
    destruct (IH _ (id c :: vis) (if tombstone c then res else res ++ [elem c]) F W') as (out & E & Fr & Nd & Di).
    { cbn [length] in *. lia. }
    exists (c :: out). split_and!.
    + rewrite E. f_equal. unfold visible. rewrite filter_cons. destruct (tombstone c); [done|]. cbn.
      by rewrite <- app_assoc.
    + inversion Fr as [|o1 i1 st1 a b Ha Hb]; subst. rewrite drop_0 in Ha.
      inversion Hb as [|o2 i2 st2 a' b' Ha' Hb']; subst.
      rewrite app_assoc. change (c :: (a ++ a') ++ b') with ((c :: a ++ a') ++ b'). constructor; [|done].
      rewrite (drop_S _ c) by done. by constructor.
    + cbn [fmap list_fmap]. apply NoDup_cons. split; [|done]. intros (n & E' & Hin)%list_elem_of_fmap.
      apply (Di n Hin). rewrite <- E'. by left.
    + intros n [-> | Hin]%elem_of_cons; [done|]. intros Hv. apply (Di n Hin). by right.
  - destruct (IH st vis res F (walking_pop _ _ _ _ _ _ W)) as (out & E & Fr & Nd & Di); [cbn [length] in Hf; lia|].
    exists out. split; [done|]. split; [|done]. change out with ([] ++ out). constructor; [|done].
    rewrite drop_ge; [constructor|]. by apply lookup_ge_None_1.
Qed.

(** ** The children of a node *)

(** Nodes are stored under their own ids. *)
Definition keyed (r : Rga) : Prop := forall k n, nodes r !! k = Some n -> id n = k.

Definition values (r : Rga) : list RgaNode := (map_to_list (nodes r)).*2.

Lemma elem_values r n : keyed r -> n ∈ values r <-> nodes r !! id n = Some n.
Proof.
  intros K. unfold values. rewrite list_elem_of_fmap. split.
  - intros ([k m] & -> & Hin). apply elem_of_map_to_list in Hin. cbn. by rewrite (K k m Hin).
  - intros Hn. exists (id n, n). split; [done|]. by apply elem_of_map_to_list.
Qed.

Lemma values_ids r : keyed r -> id <$> values r = (map_to_list (nodes r)).*1.
Proof.
  intros K. unfold values. rewrite <- list_fmap_compose. apply list_fmap_ext. intros i [k n] Hi. cbn.
  apply K. apply elem_of_map_to_list. by eapply list_elem_of_lookup_2.
Qed.

Lemma values_nodup r : keyed r -> NoDup (id <$> values r).
Proof. intros K. rewrite values_ids by done. apply NoDup_fst_map_to_list. Qed.

Lemma push_children (m : gmap (option Z) (list RgaNode)) l o :
  list_at (foldl push_child m l) o = list_at m o ++ filter (fun n => origin_left n = o) l.
Proof.
  revert m. induction l as [|n l IH]; intros m; cbn [foldl]; [by rewrite app_nil_r|].
  rewrite IH. unfold push_child, list_at. destruct (decide (origin_left n = o)) as [<-|Hne].
  - rewrite lookup_insert_eq, filter_cons_True by done. cbn. by rewrite <- app_assoc.
  - by rewrite lookup_insert_ne, filter_cons_False.
Qed.

Section order.
  Context `{HO : HashOrder}.

Definition children_of (r : Rga) (o : option Z) : list RgaNode := list_at (child_lists r) o.

Lemma children_sorted r o :
  children_of r o = merge_sort node_le (filter (fun n => origin_left n = o) (hash_order (values r))).
Proof.
  unfold children_of, child_lists. pose proof (push_children ∅ (hash_order (values r)) o) as H.
  unfold list_at in *. rewrite lookup_empty in H. cbn [default app] in H. rewrite <- H, lookup_fmap.
  change (map_to_list (nodes r)).*2 with (values r). by destruct (foldl push_child ∅ (hash_order (values r)) !! o).
Qed.

Lemma children_perm r o : children_of r o ≡ₚ filter (fun n => origin_left n = o) (values r).
Proof. rewrite children_sorted, merge_sort_Permutation. by rewrite hash_order_perm. Qed.

Lemma elem_children r o n : keyed r -> n ∈ children_of r o <-> origin_left n = o /\ nodes r !! id n = Some n.
Proof. intros K. by rewrite children_perm, list_elem_of_filter, elem_values. Qed.

Lemma children_forest r : keyed r -> forest (children_of r) (id <$> values r).
Proof.
  intros K. assert (Hn : forall o, NoDup (children_of r o)).
  { intros o. rewrite children_perm. apply NoDup_filter. eapply NoDup_fmap_1, values_nodup, K. }
  split.
  - intros o c Hc. apply elem_children in Hc as [_ Hc]; [|done]. apply list_elem_of_fmap. exists c. by rewrite elem_values.
  - intros o o' i j c c' Hi Hj E.
    pose proof (proj1 (elem_children r o c K) (list_elem_of_lookup_2 _ _ _ Hi)) as [E1 Hc].
    pose proof (proj1 (elem_children r o' c' K) (list_elem_of_lookup_2 _ _ _ Hj)) as [E2 Hc'].
    rewrite E, Hc' in Hc. injection Hc as ->. subst o o'. split; [done|]. by eapply NoDup_lookup.
Qed.

Lemma to_vec_walks r : keyed r ->
  exists out, to_vec r = Some (visible out) /\ pre (children_of r) (children_of r None) out /\ NoDup (id <$> out).
Proof.
  intros K. unfold to_vec.
  destruct (walk_loop_ok (child_lists r) (id <$> values r) (2 * size (nodes r) + 2) [(None, O)] [] [])
    as (out & E & Fr & Nd & _).
  - by apply children_forest.
  - split; [constructor|set_solver|apply NoDup_singleton| |].
    + intros o i [= -> ->]%list_elem_of_singleton. by left.
    + by intros o j c _ ?%elem_of_nil.
  - rewrite values_ids, length_fmap, length_map_to_list by done. cbn [length]. lia.
  - exists out. split; [done|]. split; [|done]. inversion Fr as [|o i st a b Ha Hb]; subst.
    inversion Hb; subst. by rewrite app_nil_r.
Qed.
End order.

(** Ids whose chain of origins reaches the start of the sequence. *)
Inductive rooted (m : gmap Z RgaNode) : Z -> Prop :=
| rooted_start k n : m !! k = Some n -> origin_left n = None -> rooted m k
| rooted_after k n p : rooted m p -> m !! k = Some n -> origin_left n = Some p -> rooted m k.

Lemma pre_roots ch cs out x : pre ch cs out -> x ∈ cs -> x ∈ out.
Proof.
  induction 1 as [|c cs sub rest H1 IH1 H2 IH2]; [done|]. intros [-> | Hx]%elem_of_cons; [by left|].
  right. apply elem_of_app. right. by apply IH2.
Qed.

Lemma pre_closed ch cs out p x : pre ch cs out -> p ∈ out -> x ∈ ch (Some (id p)) -> x ∈ out.
Proof.
  intros H Hp Hx. induction H as [|c cs sub rest H1 IH1 H2 IH2]; [by apply elem_of_nil in Hp|].
  right. apply elem_of_app. apply elem_of_cons in Hp as [-> | [Hp|Hp]%elem_of_app].
  - left. by eapply pre_roots.
  - left. by apply IH1.
  - right. by apply IH2.
Qed.

Lemma pre_rooted m ch cs out :
  (forall o n, n ∈ ch o -> origin_left n = o /\ m !! id n = Some n) ->
  pre ch cs out -> (forall n, n ∈ cs -> m !! id n = Some n /\ rooted m (id n)) ->
  forall n, n ∈ out -> m !! id n = Some n /\ rooted m (id n).
Proof.
  intros Hch. induction 1 as [|c cs sub rest H1 IH1 H2 IH2]; intros Hr n Hn; [by apply elem_of_nil in Hn|].
  apply elem_of_cons in Hn as [-> | [Hn|Hn]%elem_of_app].
  - apply Hr. by left.
  - apply IH1; [|done]. intros d Hd. destruct (Hch _ _ Hd) as [E1 E2]. split; [done|].
    apply (rooted_after m _ d (id c)); [apply Hr; by left|done|done].
  - apply IH2; [|done]. intros d Hd. apply Hr. by right.
Qed.

(** A node comes after the node it was inserted after. *)
Lemma pre_origin_first ch cs out : (forall o n, n ∈ ch o -> origin_left n = o) ->
  pre ch cs out -> forall n, n ∈ out ->
  n ∈ cs \/ exists l1 p l2, out = l1 ++ p :: l2 /\ origin_left n = Some (id p) /\ n ∈ l2.
Proof.
  intros Hch. induction 1 as [|c cs sub rest H1 IH1 H2 IH2]; intros n Hn; [by apply elem_of_nil in Hn|].
  apply elem_of_cons in Hn as [-> | [Hn|Hn]%elem_of_app]; [by left; left| |].
  - right. destruct (IH1 n Hn) as [Hc|(l1 & p & l2 & -> & Ho & Hl)].
    + exists [], c, (sub ++ rest). split; [done|]. split; [by apply Hch|]. by apply elem_of_app; left.
    + exists (c :: l1), p, (l2 ++ rest). split; [cbn; by rewrite <- app_assoc|]. split; [done|]. by apply elem_of_app; left.
  - destruct (IH2 n Hn) as [Hc|(l1 & p & l2 & -> & Ho & Hl)]; [left; by right|].
    right. exists (c :: sub ++ l1), p, l2. split; [cbn; by rewrite <- app_assoc|done].
Qed.

Lemma to_vec_nodes `{HO : HashOrder} r : keyed r ->
  exists out, to_vec r = Some (visible out) /\ pre (children_of r) (children_of r None) out /\ NoDup (id <$> out)
    /\ (forall n, n ∈ out <-> nodes r !! id n = Some n /\ rooted (nodes r) (id n)).
Proof.
  intros K. destruct (to_vec_walks r K) as (out & E & Hp & Nd). exists out. split_and!; [done..|].
  assert (Hch : forall o n, n ∈ children_of r o -> origin_left n = o /\ nodes r !! id n = Some n).
  { intros o n. by rewrite elem_children. }
  intros n. split.
  - apply (pre_rooted (nodes r) (children_of r) (children_of r None) out Hch Hp).
    intros d [E1 E2]%elem_children; [|done]. split; [done|]. by eapply rooted_start.
  - intros [Hn Hr]. remember (id n) as k eqn:Ek. revert n Hn Ek.
    induction Hr as [k m Hm Ho|k m p Hr IH Hm Ho]; intros n Hn ->; rewrite Hm in Hn; injection Hn as ->.
    + eapply pre_roots; [done|]. by apply elem_children.
    + inversion Hr as [k' m' Hm' Ho'|k' m' p' _ Hm' _]; subst.
      * pose proof (K _ _ Hm') as <-. eapply pre_closed; [done|by apply (IH m')|]. by apply elem_children.
      * pose proof (K _ _ Hm') as <-. eapply pre_closed; [done|by apply (IH m')|]. by apply elem_children.
Qed.

(** ** Merging *)

(** Two replicas never use one id for two different insertions. *)
Definition same_node (n m : RgaNode) : Prop :=
  id n = id m /\ elem n = elem m /\ origin_left n = origin_left m /\ timestamp n = timestamp m.
Definition agree (a b : Rga) : Prop :=
  forall k n m, nodes a !! k = Some n -> nodes b !! k = Some m -> same_node n m.

Definition merged_node (a b : option RgaNode) : option RgaNode :=
  match a, b with
  | Some n, Some m => Some (if tombstone m then set_tombstone n else n)
  | Some n, None => Some n
  | None, b => b
  end.

Lemma merge_lookup a b k : nodes (merge a b) !! k = merged_node (nodes a !! k) (nodes b !! k).
Proof.
  cbn [nodes merge]. rewrite (for_entries_lookup merge_node (fun _ x m => merged_node x (Some m))).
  - destruct (nodes b !! k), (nodes a !! k); done.
  - intros s j m i. unfold merge_node. destruct (s !! j) as [n|] eqn:E.
    + destruct (tombstone m) eqn:Et; cbn; rewrite ?Et; [by rewrite lookup_insert|]. by case_decide; subst.
    + rewrite lookup_insert. by case_decide.
Qed.

Lemma merged_comm a b : (forall n m, a = Some n -> b = Some m -> same_node n m) -> merged_node a b = merged_node b a.
Proof.
  destruct a as [[i e o t ts]|], b as [[i' e' o' t' ts']|]; try done. intros H.
  destruct (H _ _ eq_refl eq_refl) as (E1 & E2 & E3 & E4). cbn in *. subst. by destruct t, t'.
Qed.

Lemma merged_assoc a b c : merged_node (merged_node a b) c = merged_node a (merged_node b c).
Proof.
  destruct a as [[i e o t ts]|], b as [[i' e' o' t' ts']|], c as [[i'' e'' o'' t'' ts'']|]; try done;
    cbn; destruct t, t'; try done; by destruct t''.
Qed.

Lemma merged_idemp a : merged_node a a = a.
Proof. destruct a as [[i e o [] ts]|]; done. Qed.

Lemma merge_keyed a b : keyed a -> keyed b -> keyed (merge a b).
Proof.
  intros Ka Kb k n. rewrite merge_lookup. destruct (nodes a !! k) as [x|] eqn:Ea, (nodes b !! k) as [y|] eqn:Eb; cbn.
  - destruct (tombstone y); intros [= <-]; cbn; by eapply Ka.
  - intros [= <-]. by apply Ka.
  - intros [= <-]. by apply Kb.
  - done.
Qed.

Lemma rooted_mono (m m' : gmap Z RgaNode) k :
  (forall k n, m !! k = Some n -> exists n', m' !! k = Some n' /\ origin_left n' = origin_left n) ->
  rooted m k -> rooted m' k.
Proof.
  intros Hm. induction 1 as [j n Hn Ho|j n p Hr IH Hn Ho]; destruct (Hm j n Hn) as (n' & Hn' & Ho'); rewrite Ho in Ho'.
  - by eapply rooted_start.
  - by eapply rooted_after.
Qed.

Lemma merge_rooted_l a b k : rooted (nodes a) k -> rooted (nodes (merge a b)) k.
Proof.
  apply rooted_mono. intros j n Hn. rewrite merge_lookup, Hn. destruct (nodes b !! j) as [m|]; cbn; [|by exists n].
  eexists. split; [done|]. by destruct (tombstone m).
Qed.

Lemma rga_merge_comm a b : agree a b -> merge a b = merge b a.
Proof.
  intros Ha. destruct (merge a b) as [x] eqn:Ex, (merge b a) as [y] eqn:Ey. f_equal. apply map_eq. intros k.
  change x with (nodes (mkRga x)). change y with (nodes (mkRga y)). rewrite <- Ex, <- Ey, !merge_lookup.
  apply merged_comm. intros n m. apply Ha.
Qed.

Lemma rga_eq (a b : Rga) : (forall k, nodes a !! k = nodes b !! k) -> a = b.
Proof. destruct a, b. cbn. intros H. f_equal. by apply map_eq. Qed.

(** ** Arrays built by the operations *)

Inductive built : Rga -> Prop :=
| built_new : built new
| built_insert r prev e ts uuid :
    built r -> nodes r !! uuid = None -> (forall p, prev = Some p -> is_Some (nodes r !! p)) ->
    built (insert r prev e ts uuid).1
| built_delete r k : built r -> built (delete r k)
| built_merge a b : built a -> built b -> agree a b -> built (merge a b).

Definition sound (r : Rga) : Prop := keyed r /\ forall k, is_Some (nodes r !! k) -> rooted (nodes r) k.

Lemma delete_nodes r k j : nodes (delete r k) !! j = (if decide (k = j) then set_tombstone <$> nodes r !! j else nodes r !! j).
Proof. cbn. rewrite lookup_alter. by case_decide; subst. Qed.

Lemma insert_nodes r prev e ts uuid j :
  nodes (insert r prev e ts uuid).1 !! j = (if decide (uuid = j) then Some (mkNode uuid e prev false ts) else nodes r !! j).
Proof. cbn. by rewrite lookup_insert. Qed.

Lemma built_sound r : built r -> sound r.
Proof.
  induction 1 as [|r prev e ts uuid _ [K R] Hf Hp|r k _ [K R]|a b _ [Ka Ra] _ [Kb Rb] Hag].
  - split; [intros k n H|intros k [n H]]; cbn in H; by rewrite lookup_empty in H.
  - assert (Hmono : forall k, rooted (nodes r) k -> rooted (nodes (insert r prev e ts uuid).1) k).
    { intros k. apply rooted_mono. intros j n Hj. exists n. rewrite insert_nodes. split; [|done].
      case_decide as E; [|done]. subst. congruence. }
    assert (Hnew : nodes (insert r prev e ts uuid).1 !! uuid = Some (mkNode uuid e prev false ts)).
    { rewrite insert_nodes. by rewrite decide_True. }
    split.
    + intros k n. rewrite insert_nodes. case_decide as E; [intros [= <-]; done|apply K].
    + intros k Hk. rewrite insert_nodes in Hk. case_decide as E; [subst k|by apply Hmono, R].
      destruct prev as [p|]; [|by eapply rooted_start].
      eapply rooted_after; [apply Hmono, R, (Hp p); done|done|done].
  - split.
    + intros j n. rewrite delete_nodes. case_decide; [|apply K].
      intros (m & Hm & ->)%fmap_Some. by apply (K j m).
    + intros j [n Hj]. apply (rooted_mono (nodes r)).
      * intros i m Hm. rewrite delete_nodes, Hm. case_decide; cbn; eauto.
      * apply R. rewrite delete_nodes in Hj. case_decide; [|by eexists].
        apply fmap_Some in Hj as (m & Hm & _). by eexists.
  - split; [by apply merge_keyed|]. intros k [n Hk]. rewrite merge_lookup in Hk.
    destruct (nodes a !! k) as [x|] eqn:Ea; [apply merge_rooted_l, Ra; by eexists|].
    rewrite rga_merge_comm by done. apply merge_rooted_l, Rb. cbn in Hk. by eexists.
Qed.

(** ** The order of siblings *)

Lemma node_le_alt a b : node_le a b <-> timestamp b < timestamp a \/ (timestamp a = timestamp b /\ id b <= id a).
Proof.
  unfold node_le, node_cmp. destruct (Z.compare_spec (timestamp b) (timestamp a)); cbn.
  - destruct (Z.compare_spec (id b) (id a)); split; try done; try (intros _; right; lia); intros [?|[? ?]]; lia.
  - split; [intros _; by left|done].
  - split; [done|]. intros [?|[? ?]]; lia.
Qed.

#[export] Instance node_le_trans : Transitive node_le.
Proof. intros a b c. rewrite !node_le_alt. lia. Qed.
#[export] Instance node_le_total : Total node_le.
Proof. intros a b. rewrite !node_le_alt. lia. Qed.

(** Sorting the nodes of a keyed array has one result. *)
Lemma sorted_nodes_unique (l1 l2 : list RgaNode) (m : gmap Z RgaNode) :
  (forall n, n ∈ l1 -> m !! id n = Some n) -> StronglySorted node_le l1 -> StronglySorted node_le l2 -> l1 ≡ₚ l2 -> l1 = l2.
Proof.
  intros Hm S1 S2 Hp. apply (StronglySorted_unique_strong node_le); [|done..].
  intros x y Hx Hy H1 H2. rewrite <- Hp in Hy. rewrite node_le_alt in H1, H2. assert (E : id x = id y) by lia.
  pose proof (Hm x Hx). pose proof (Hm y Hy). congruence.
Qed.

Lemma children_strongly_sorted `{HO : HashOrder} r o : StronglySorted node_le (children_of r o).
Proof. rewrite children_sorted. apply (StronglySorted_merge_sort node_le). Qed.

Lemma children_unique `{HO : HashOrder} r o l : keyed r ->
  StronglySorted node_le l -> l ≡ₚ filter (fun n => origin_left n = o) (values r) -> children_of r o = l.
Proof.
  intros K Hs Hl. apply (sorted_nodes_unique _ _ (nodes r)); [|apply children_strongly_sorted|done|by rewrite children_perm].
  intros n Hn. by apply elem_children in Hn as [_ ?].
Qed.

Lemma pre_ext ch ch' cs out : (forall o, ch o = ch' o) -> pre ch cs out -> pre ch' cs out.
Proof. intros H. induction 1; constructor; [by rewrite <- H|done]. Qed.

Lemma pre_det ch cs out out' : pre ch cs out -> pre ch cs out' -> out = out'.
Proof.
  intros H. revert out'. induction H as [|c cs sub rest _ IH1 _ IH2]; intros out' H'; inversion H' as [|c' cs' sub' rest' H1 H2]; subst; [done|].
  by rewrite (IH1 _ H1), (IH2 _ H2).
Qed.

(** The order of the hash map the nodes come from does not show. *)
Lemma to_vec_any_order (HO HO' : HashOrder) r : keyed r -> to_vec (HO := HO) r = to_vec (HO := HO') r.
Proof.
  intros K. destruct (to_vec_walks (HO := HO) r K) as (out & -> & Hp & _).
  destruct (to_vec_walks (HO := HO') r K) as (out' & -> & Hp' & _). do 2 f_equal.
  assert (He : forall o, children_of (HO := HO) r o = children_of (HO := HO') r o).
  { intros o. apply children_unique; [done|apply children_strongly_sorted|apply children_perm]. }
  rewrite He in Hp. eapply pre_det; [|done]. by eapply pre_ext.
Qed.

(** ** What an edit does to the sequence *)

Definition put_after (prev : option Z) (n : RgaNode) (out : list RgaNode) : list RgaNode :=
  concat ((fun x => if decide (Some (id x) = prev) then [x; n] else [x]) <$> out).

Lemma put_after_app prev n a b : put_after prev n (a ++ b) = put_after prev n a ++ put_after prev n b.
Proof. unfold put_after. by rewrite fmap_app, concat_app. Qed.

Lemma put_after_none prev n out : (forall x, x ∈ out -> Some (id x) <> prev) -> put_after prev n out = out.
Proof.
  induction out as [|x out IH]; intros H; [done|]. change (x :: out) with ([x] ++ out). rewrite put_after_app, IH.
  - unfold put_after. cbn. rewrite decide_False; [done|]. apply H. by left.
  - intros y Hy. apply H. by right.
Qed.

Lemma put_after_one prev n q : Some (id q) = prev -> put_after prev n [q] = [q; n].
Proof. intros E. unfold put_after. cbn. by rewrite decide_True. Qed.

Lemma pre_put ch ch' n prev cs out :
  (forall o, ch' o = if decide (o = prev) then n :: ch o else ch o) ->
  ch (Some (id n)) = [] -> prev <> Some (id n) -> pre ch cs out -> pre ch' cs (put_after prev n out).
Proof.
  intros Hch Hn Hp. induction 1 as [|c cs sub rest _ IH1 _ IH2]; [constructor|].
  change (c :: sub ++ rest) with ([c] ++ sub ++ rest). rewrite !put_after_app.
  unfold put_after at 1. cbn [fmap list_fmap concat]. case_decide as E; cbn [app].
  - change (c :: n :: put_after prev n sub ++ put_after prev n rest)
      with (c :: (n :: [] ++ put_after prev n sub) ++ put_after prev n rest).
    constructor; [|done]. rewrite Hch, decide_True by done. constructor; [|done].
    rewrite Hch, decide_False, Hn by done. constructor.
  - constructor; [|done]. by rewrite Hch, decide_False.
Qed.

Lemma values_insert r prev e ts uuid : nodes r !! uuid = None ->
  values (insert r prev e ts uuid).1 ≡ₚ mkNode uuid e prev false ts :: values r.
Proof. intros Hf. unfold values. cbn [insert fst nodes]. by rewrite map_to_list_insert. Qed.

Lemma insert_children `{HO : HashOrder} r prev e ts uuid o :
  keyed r -> nodes r !! uuid = None ->
  (forall m, nodes r !! id m = Some m -> origin_left m = prev -> node_le (mkNode uuid e prev false ts) m) ->
  children_of (insert r prev e ts uuid).1 o =
    if decide (o = prev) then mkNode uuid e prev false ts :: children_of r o else children_of r o.
Proof.
  intros K Hf Hnew. apply children_unique.
  - intros k n. rewrite insert_nodes. case_decide; [by intros [= <-]|apply K].
  - case_decide as E; [|apply children_strongly_sorted]. constructor; [apply children_strongly_sorted|].
    apply Forall_forall. intros m [Ho Hm]%elem_children; [|done]. apply Hnew; [done|by rewrite Ho].
  - rewrite values_insert, filter_cons by done. cbn [origin_left]. case_decide as E.
    + rewrite decide_True by done. by rewrite children_perm.
    + rewrite decide_False by done. by rewrite children_perm.
Qed.

Lemma origin_present r k n p : sound r -> nodes r !! k = Some n -> origin_left n = Some p -> is_Some (nodes r !! p).
Proof.
  intros [K R] Hn Ho. assert (Hr : rooted (nodes r) k) by (apply R; by eexists).
  inversion Hr as [? n' Hn' Ho'|? n' p' Hp' Hn' Ho']; subst; rewrite Hn in Hn'; injection Hn' as <-; [congruence|].
  rewrite Ho in Ho'. injection Ho' as <-. inversion Hp'; subst; by eexists.
Qed.

Lemma insert_walk `{HO : HashOrder} r prev e ts uuid :
  sound r -> nodes r !! uuid = None -> (forall p, prev = Some p -> is_Some (nodes r !! p)) ->
  (forall m, nodes r !! id m = Some m -> origin_left m = prev -> node_le (mkNode uuid e prev false ts) m) ->
  let n := mkNode uuid e prev false ts in
  exists out, to_vec r = Some (visible out) /\ NoDup (id <$> out) /\ (forall x, x ∈ out <-> nodes r !! id x = Some x)
    /\ to_vec (insert r prev e ts uuid).1
        = Some (visible (if decide (prev = None) then n :: out else put_after prev n out)).
Proof.
  intros [K R] Hf Hp Hnew n. destruct (to_vec_nodes r K) as (out & E & Hpre & Nd & Hin). exists out. split; [done|]. split; [done|].
  split; [intros x; rewrite Hin; split; [by intros [? _]|]; intros Hx; split; [done|]; apply R; by eexists|].
  assert (K' : keyed (insert r prev e ts uuid).1).
  { intros k m. rewrite insert_nodes. case_decide; [by intros [= <-]|apply K]. }
  destruct (to_vec_walks _ K') as (out' & -> & Hpre' & _). do 2 f_equal.
  pose proof (fun o => insert_children r prev e ts uuid o K Hf Hnew) as Hch. fold n in Hch.
  assert (Hn : children_of r (Some (id n)) = []).
  { apply elem_of_nil_inv. intros m [Ho Hm]%elem_children; [|done].
    destruct (origin_present r (id m) m uuid (conj K R) Hm Ho) as [x Hx]. congruence. }
  assert (Hne : prev <> Some (id n)) by (intros E'; destruct (Hp uuid E') as [x Hx]; congruence).
  pose proof (pre_put _ _ n prev _ _ Hch Hn Hne Hpre) as Hput. eapply pre_det; [done|]. rewrite Hch.
  destruct (decide (prev = None)) as [Hnone|Hnone].
  - rewrite decide_True by done. rewrite put_after_none in Hput by (intros x _; congruence).
    change (n :: out) with (n :: [] ++ out). constructor; [|done]. rewrite Hch, decide_False, Hn by congruence. constructor.
  - by rewrite decide_False by congruence.
Qed.

Definition kill (k : Z) (n : RgaNode) : RgaNode := if decide (id n = k) then set_tombstone n else n.

Lemma kill_fields k n : id (kill k n) = id n /\ origin_left (kill k n) = origin_left n /\ timestamp (kill k n) = timestamp n.
Proof. unfold kill. by case_decide. Qed.

Lemma values_delete r k : keyed r -> values (delete r k) ≡ₚ kill k <$> values r.
Proof.
  intros K. assert (E : nodes (delete r k) = kill k <$> nodes r).
  { apply map_eq. intros j. rewrite delete_nodes, lookup_fmap. destruct (nodes r !! j) as [n|] eqn:Hn; cbn; [|by case_decide].
    unfold kill. rewrite (K j n Hn). case_decide as E; [by rewrite decide_True|by rewrite decide_False]. }
  unfold values. rewrite E, map_to_list_fmap. by rewrite <- !list_fmap_compose.
Qed.

Lemma pre_map (f : RgaNode -> RgaNode) ch ch' cs out :
  (forall n, id (f n) = id n) -> (forall o, ch' o = f <$> ch o) -> pre ch cs out -> pre ch' (f <$> cs) (f <$> out).
Proof.
  intros Hf Hch. induction 1 as [|c cs sub rest _ IH1 _ IH2]; [constructor|].
  cbn [fmap list_fmap]. rewrite fmap_app. constructor; [by rewrite Hf, Hch|done].
Qed.

Lemma delete_keyed r k : keyed r -> keyed (delete r k).
Proof.
  intros K j n. rewrite delete_nodes. case_decide; [|apply K].
  intros (m & Hm & ->)%fmap_Some. by apply (K j m).
Qed.

Lemma filter_kill k o (l : list RgaNode) :
  filter (fun n => origin_left n = o) (kill k <$> l) = kill k <$> filter (fun n => origin_left n = o) l.
Proof.
  induction l as [|n l IH]; [done|]. cbn [fmap list_fmap]. destruct (kill_fields k n) as (_ & Ho & _).
  destruct (decide (origin_left n = o)).
  - rewrite !filter_cons_True by congruence. cbn. by rewrite IH.
  - rewrite !filter_cons_False by congruence. done.
Qed.

Lemma sorted_kill k (l : list RgaNode) : StronglySorted node_le l -> StronglySorted node_le (kill k <$> l).
Proof.
  induction 1 as [|n l _ IH Hf]; [constructor|]. cbn [fmap list_fmap]. constructor; [done|].
  rewrite Forall_fmap. eapply Forall_impl; [done|]. intros m Hm. cbn. rewrite node_le_alt in *.
  destruct (kill_fields k n) as (-> & _ & ->), (kill_fields k m) as (-> & _ & ->). done.
Qed.

Lemma delete_children `{HO : HashOrder} r k o : keyed r -> children_of (delete r k) o = kill k <$> children_of r o.
Proof.
  intros K. apply children_unique; [by apply delete_keyed|apply sorted_kill, children_strongly_sorted|].
  rewrite children_perm, values_delete, filter_kill by done. done.
Qed.

Lemma delete_walk `{HO : HashOrder} r k out :
  keyed r -> pre (children_of r) (children_of r None) out -> to_vec (delete r k) = Some (visible (kill k <$> out)).
Proof.
  intros K Hp. destruct (to_vec_walks (delete r k)) as (out' & -> & Hp' & _); [by apply delete_keyed|].
  do 2 f_equal. rewrite delete_children in Hp' by done. eapply pre_det; [done|].
  apply (pre_map (kill k) (children_of r)); [intros n; apply kill_fields|by intros; apply delete_children|done].
Qed.

Lemma kill_none k (l : list RgaNode) : k ∉ (id <$> l) -> kill k <$> l = l.
Proof.
  induction l as [|n l IH]; [done|]. cbn [fmap list_fmap]. intros [Hn Hl]%not_elem_of_cons. rewrite IH by done.
  unfold kill. by rewrite decide_False.
Qed.

Lemma visible_app (a b : list RgaNode) : visible (a ++ b) = visible a ++ visible b.
Proof. unfold visible. by rewrite filter_app, fmap_app. Qed.

Lemma split_at (out : list RgaNode) n : NoDup (id <$> out) -> n ∈ out ->
  exists l1 l2, out = l1 ++ n :: l2 /\ (id n ∉ (id <$> l1)) /\ (id n ∉ (id <$> l2)).
Proof.
  intros Nd (l1 & l2 & ->)%list_elem_of_split. exists l1, l2. split; [done|].
  rewrite fmap_app in Nd. cbn [fmap list_fmap] in Nd. apply NoDup_app in Nd as (_ & H1 & [H2 _]%NoDup_cons).
  split; [|done]. intros H. apply (H1 _ H). by left.
Qed.
End rga.
Arguments RgaNode : clear implicits.
Arguments Rga : clear implicits.

(** C36: reading an array terminates and is faithful.  For nodes stored under
    their ids (even with cycles or missing origins, as a foreign payload may
    have) the stack walk ends, visits each node at most once and exactly those
    whose origins lead to the start, independently of the order of the hash
    map.  For an array built by the operations and merges of replicas that is
    every node: the result has [len] elements, and each node comes after the
    one it was inserted after. *)
Theorem to_vec_total {T} (HO HO' : HashOrder) (r : Rga T) : keyed r ->
  exists out, to_vec (HO := HO) r = Some (visible out) /\ to_vec (HO := HO') r = Some (visible out)
    /\ NoDup (id <$> out)
    /\ (forall n, n ∈ out <-> nodes r !! id n = Some n /\ rooted (nodes r) (id n))
    /\ (built r -> out ≡ₚ values r /\ length (visible out) = len r
        /\ forall n p, n ∈ out -> origin_left n = Some p -> exists l1 q l2, out = l1 ++ q :: l2 /\ id q = p /\ n ∈ l2).
Proof.
  intros K. destruct (to_vec_nodes (HO := HO) r K) as (out & E & Hp & Nd & Hin). exists out.
  rewrite <- (to_vec_any_order HO HO' r K). split_and!; [done..|]. intros [_ R]%built_sound.
  assert (Hperm : out ≡ₚ values r).
  { apply NoDup_Permutation; [by eapply NoDup_fmap_1|eapply NoDup_fmap_1, values_nodup, K|].
    intros n. rewrite elem_values, Hin by done. split; [by intros [? _]|]. intros Hn. split; [done|]. apply R. by eexists. }
  split; [done|]. split.
  - unfold visible, len. rewrite length_fmap. by rewrite Hperm.
  - intros n p Hn Ho.
    destruct (pre_origin_first (children_of (HO := HO) r) _ out (fun o n H => proj1 (proj1 (elem_children r o n K) H)) Hp n Hn)
      as [[Hs _]%elem_children|(l1 & q & l2 & -> & Hq & Hl)]; [congruence|done|].
    exists l1, q, l2. split; [done|]. rewrite Ho in Hq. by injection Hq as <-.
Qed.

(** Edits land where they are made.  Inserting with the newest timestamp
    among the siblings puts the element directly after the given node (at the
    front without one) and moves nothing else; deleting a node removes exactly
    its element. *)
Theorem rga_edits_in_place {T} `{HO : HashOrder} (r : Rga T) (prev : option Z) (e : T) (ts uuid k : Z) :
  built r -> nodes r !! uuid = None -> (forall p, prev = Some p -> is_Some (nodes r !! p)) ->
  (forall m, nodes r !! id m = Some m -> origin_left m = prev -> timestamp m < ts) ->
  is_Some (nodes r !! k) ->
  (exists l1 l2, to_vec r = Some (visible (l1 ++ l2))
     /\ to_vec (insert r prev e ts uuid).1 = Some (visible l1 ++ e :: visible l2)
     /\ (prev = None -> l1 = []) /\ (forall p, prev = Some p -> exists l q, l1 = l ++ [q] /\ id q = p))
  /\ (exists l1 n l2, id n = k /\ to_vec r = Some (visible (l1 ++ n :: l2))
      /\ to_vec (delete r k) = Some (visible l1 ++ visible l2)).
Proof.
  intros Hs%built_sound Hf Hp Hts [n Hn]. split.
  - destruct (insert_walk r prev e ts uuid Hs Hf Hp) as (out & E & Nd & Hin & E').
    { intros m Hm Ho. apply node_le_alt. left. cbn. by apply Hts. }
    rewrite E, E'. destruct prev as [p|].
    + rewrite decide_False by done. destruct (Hp p eq_refl) as [q Hq]. pose proof (proj1 Hs p q Hq) as Ei.
      assert (Hqo : q ∈ out) by (apply Hin; by rewrite Ei).
      destruct (split_at out q Nd Hqo) as (l1 & l2 & -> & N1 & N2). exists (l1 ++ [q]), l2. split_and!.
      * by rewrite <- app_assoc.
      * change (q :: l2) with ([q] ++ l2). rewrite !put_after_app, put_after_none, (put_after_none _ _ l2).
        -- rewrite put_after_one by (by rewrite Ei).
           change ([q; mkNode uuid e (Some p) false ts] ++ l2) with ([q] ++ [mkNode uuid e (Some p) false ts] ++ l2).
           by rewrite !visible_app, <- app_assoc.
        -- intros x Hx [= E1]. apply N2. rewrite Ei, <- E1. by apply list_elem_of_fmap_2.
        -- intros x Hx [= E1]. apply N1. rewrite Ei, <- E1. by apply list_elem_of_fmap_2.
      * done.
      * intros p' [= <-]. by exists l1, q.
    + rewrite decide_True by done. exists [], out. split_and!; [done|done|done|by intros p ?].
  - destruct Hs as [K R]. destruct (to_vec_nodes r K) as (out & E & Hpre & Nd & Hin).
    pose proof (K k n Hn) as Ei. assert (Hno : n ∈ out) by (apply Hin; rewrite Ei; split; [done|apply R; by eexists]).
    destruct (split_at out n Nd Hno) as (l1 & l2 & -> & N1 & N2). exists l1, n, l2. split; [done|]. split; [done|].
    rewrite (delete_walk r k _ K Hpre). rewrite fmap_app. cbn [fmap list_fmap]. rewrite Ei in N1, N2.
    rewrite !kill_none by done. rewrite visible_app. f_equal. f_equal.
    unfold visible. rewrite filter_cons_False; [done|]. unfold kill. by rewrite decide_True.
Qed.

(** Merging is a join.  Replicas that agree on the insertions they share
    can merge in any order and grouping and any number of times with the same
    result, which reads the same everywhere; the merge has the nodes of both,
    and a node deleted in either stays deleted. *)
Theorem rga_merge_laws {T} (a b c : Rga T) : agree a b -> agree b c -> agree a c ->
  merge a b = merge b a /\ merge (merge a b) c = merge a (merge b c) /\ merge a a = a
  /\ merge (merge a b) b = merge a b /\ agree (merge a b) c
  /\ (forall k, is_Some (nodes (merge a b) !! k) <-> is_Some (nodes a !! k) \/ is_Some (nodes b !! k))
  /\ (forall k n, nodes (merge a b) !! k = Some n ->
       (tombstone n = true <-> (exists x, nodes a !! k = Some x /\ tombstone x = true)
                              \/ (exists y, nodes b !! k = Some y /\ tombstone y = true))).
Proof.
  intros Hab Hbc Hac. split_and!.
  - by apply rga_merge_comm.
  - apply rga_eq. intros k. by rewrite !merge_lookup, merged_assoc.
  - apply rga_eq. intros k. by rewrite merge_lookup, merged_idemp.
  - apply rga_eq. intros k. by rewrite !merge_lookup, merged_assoc, merged_idemp.
  - intros k n m. rewrite merge_lookup. destruct (nodes a !! k) as [x|] eqn:Ea, (nodes b !! k) as [y|] eqn:Eb; cbn; [| | |done].
    + intros [= <-] Hm. pose proof (Hac k x m Ea Hm). by destruct (tombstone y).
    + intros [= <-] Hm. by apply (Hac k).
    + intros [= <-] Hm. by apply (Hbc k).
  - intros k. rewrite merge_lookup. destruct (nodes a !! k), (nodes b !! k); cbn; split; eauto. by intros [?|?].
  - intros k n. rewrite merge_lookup. destruct (nodes a !! k) as [x|], (nodes b !! k) as [y|]; cbn; intros [= <-].
    + destruct (tombstone y) eqn:Ey; cbn; split; eauto; try done; intros [(z & [= <-] & ?)|(z & [= <-] & ?)]; congruence.
    + split; eauto. by intros [(z & [= <-] & ?)|(z & [=] & ?)].
    + split; eauto. by intros [(z & [=] & ?)|(z & [= <-] & ?)].
Qed.

(** ** Examples *)

Module RgaExamples.
#[local] Existing Instance canonical_order.
#[local] Open Scope string_scope.
#[local] Open Scope list_scope.
(** "ab", typed left to right; a second replica deletes "a" and adds "c" in front. *)
Definition r1 : Rga string := (insert new None "a" 10 1).1.
Definition r2 : Rga string := (insert r1 (Some 1) "b" 11 2).1.
Definition other : Rga string := (insert (delete r1 1) None "c" 12 3).1.

Lemma r2_built : built r2.
Proof.
  apply built_insert; [apply built_insert; [apply built_new|reflexivity|discriminate]|reflexivity|].
  intros p [= <-]. eexists. reflexivity.
Qed.

Lemma r2_keyed : keyed r2.
Proof. exact (proj1 (built_sound r2 r2_built)). Qed.

Example merged_reads : to_vec (merge r2 other) = Some ["c"; "b"].
Proof. reflexivity. Qed.

Lemma to_vec_total_witness : exists out : list (RgaNode string), to_vec r2 = Some (visible out) /\ length (visible out) = 2%nat.
Proof.
  destruct (to_vec_total canonical_order canonical_order r2 r2_keyed) as (out & E & _ & _ & _ & Hb).
  exists out. split; [exact E|]. destruct (Hb r2_built) as (_ & -> & _). reflexivity.
Defined.

Lemma rga_edits_in_place_witness :
  to_vec (insert r2 None "c" 12 3).1 = Some ["c"; "a"; "b"] /\ to_vec (delete r2 1) = Some ["b"]
  /\ exists l1 l2, to_vec r2 = Some (visible (l1 ++ l2)) /\ to_vec (insert r2 None "c" 12 3).1 = Some (visible l1 ++ "c" :: visible l2).
Proof.
  split; [reflexivity|]. split; [reflexivity|].
  destruct (rga_edits_in_place r2 None "c" 12 3 1 r2_built) as [(l1 & l2 & H1 & H2 & _) _].
  - reflexivity.
  - discriminate.
  - intros m Hm Ho. assert (Hin : m ∈ values r2) by (apply elem_values; [exact r2_keyed|exact Hm]).
    vm_compute in Hin. repeat (apply elem_of_cons in Hin as [-> | Hin]; [vm_compute in Ho; try discriminate Ho; reflexivity|]).
    by apply elem_of_nil in Hin.
  - eexists. reflexivity.
  - exists l1, l2. exact (conj H1 H2).
Defined.

Lemma agree_decided (a b : Rga string) :
  map_Forall (fun k n => match nodes b !! k with Some m => same_node n m | None => True end) (nodes a) -> agree a b.
Proof. intros H k n m Hn Hm. specialize (H k n Hn). cbn in H. by rewrite Hm in H. Qed.

Lemma rga_merge_laws_witness : merge r2 other = merge other r2 /\ merge (merge r2 other) r1 = merge r2 (merge other r1).
Proof.
  destruct (rga_merge_laws r2 other r1) as (H1 & H2 & _).
  - apply agree_decided, map_Forall_to_list. vm_compute. repeat constructor.
  - apply agree_decided, map_Forall_to_list. vm_compute. repeat constructor.
  - apply agree_decided, map_Forall_to_list. vm_compute. repeat constructor.
  - exact (conj H1 H2).
Defined.
End RgaExamples.
