(* ===== verification/Crdt.v ===== *)
(** * The CRDT enum and its dispatch

    crates/uni-crdt/src/lib.rs (the [Crdt] enum, [try_merge], [type_name], the
    panicking [merge], MessagePack) and registry_dispatch.rs (a merge routed
    through a provider of the plugin registry).  serde_json values, rmp_serde
    and providers are parameters: a provider is its persisted-state operations,
    and [NativeEnvelope] states what a provider that speaks the enum's wire
    format promises. *)

From S2P Require Import Prelude Counters Registers OrSet Rga.

Inductive CrdtError := TypeMismatch (left right : string) | Serialization (message : string).

(** [dyn CrdtKindProvider] with its [CrdtState]; errors are their text. *)
Record Provider := mkProvider {
  CrdtState : Type;
  from_persisted : list Z -> result string CrdtState;
  state_merge : CrdtState -> CrdtState -> result string CrdtState;
  persist : CrdtState -> result string (list Z);
}.

(** [format!("{kind:?}")] *)
Definition debug_kind (kind : string) : string :=
  "CrdtKind(" +:+ String (Ascii.ascii_of_nat 34) kind +:+ String (Ascii.ascii_of_nat 34) ")".

Section crdt.
  (** [serde_json::Value] and [serde_json::to_vec]. *)
  Context {J : Type} (json_to_vec : J -> option (list Z)).

Inductive Crdt :=
| CGCounter (c : GCounter.t)
| CGSet (c : GSet.t string)
| CORSet (c : ORSet string)
| CLWWRegister (c : LWWRegister.t J)
| CLWWMap (c : LWWMap.t string J)
| CRga (c : Rga string)
| CVectorClock (c : VectorClock.t)
| CVCRegister (c : VCRegister.t J).

Definition type_name (self : Crdt) : string :=
  match self with
  | CGCounter _ => "GCounter" | CGSet _ => "GSet" | CORSet _ => "ORSet" | CLWWRegister _ => "LWWRegister"
  | CLWWMap _ => "LWWMap" | CRga _ => "Rga" | CVectorClock _ => "VectorClock" | CVCRegister _ => "VCRegister"
  end.

Definition kind (self : Crdt) : string :=
  match self with
  | CGCounter _ => "uni-crdt:g-counter" | CGSet _ => "uni-crdt:g-set" | CORSet _ => "uni-crdt:or-set"
  | CLWWRegister _ => "uni-crdt:lww-register" | CLWWMap _ => "uni-crdt:lww-map" | CRga _ => "uni-crdt:rga"
  | CVectorClock _ => "uni-crdt:vector-clock" | CVCRegister _ => "uni-crdt:vc-register"
  end.

(** The new value of [self] and what the call returns. *)
Definition try_merge (self other : Crdt) : Crdt * result CrdtError unit :=
  match self, other with
  | CGCounter a, CGCounter b => (CGCounter (GCounter.merge a b), Ok tt)
  | CGSet a, CGSet b => (CGSet (GSet.merge a b), Ok tt)
  | CORSet a, CORSet b => (CORSet (OrSet.merge a b), Ok tt)
  | CLWWRegister a, CLWWRegister b => (CLWWRegister (LWWRegister.merge json_to_vec a b), Ok tt)
  | CLWWMap a, CLWWMap b => (CLWWMap (LWWMap.merge (LWWMap.option_to_vec json_to_vec) a b), Ok tt)
  | CRga a, CRga b => (CRga (Rga.merge a b), Ok tt)
  | CVectorClock a, CVectorClock b => (CVectorClock (VectorClock.merge a b), Ok tt)
  | CVCRegister a, CVCRegister b => (CVCRegister (VCRegister.merge json_to_vec a b), Ok tt)
  | a, b => (self, Err (TypeMismatch (type_name a) (type_name b)))
  end.

(** [CrdtMerge::merge]: a mismatch panics. *)
Definition merge (self other : Crdt) : option Crdt :=
  match try_merge self other with
  | (self, Ok _) => Some self
  | (_, Err _) => None
  end.

(** [std::mem::discriminant] *)
Definition discriminant (self : Crdt) : nat :=
  match self with
  | CGCounter _ => 0 | CGSet _ => 1 | CORSet _ => 2 | CLWWRegister _ => 3
  | CLWWMap _ => 4 | CRga _ => 5 | CVectorClock _ => 6 | CVCRegister _ => 7
  end.

Definition ensure_same_kind (self other : Crdt) : result CrdtError unit :=
  if Nat.eqb (discriminant self) (discriminant other) then Ok tt
  else Err (TypeMismatch (type_name self) (type_name other)).

Section registry.
  (** [rmp_serde::to_vec_named] and [rmp_serde::from_slice]; the registry's
      providers by kind. *)
  Context (to_vec_named : Crdt -> result string (list Z)) (from_slice : list Z -> result string Crdt).
  Context (crdt_kind : string -> option Provider).

Definition map_err {A} (f : string -> string) (r : result string A) : result CrdtError A :=
  match r with Ok a => Ok a | Err e => Err (Serialization (f e)) end.

Definition to_msgpack (self : Crdt) : result CrdtError (list Z) := map_err (fun e => e) (to_vec_named self).
Definition from_msgpack (bytes : list Z) : result CrdtError Crdt := map_err (fun e => e) (from_slice bytes).

(** The provider's part, returning the merged value. *)
Definition merge_through (p : Provider) (k : string) (self other : Crdt) : result CrdtError Crdt :=
  let? self_bytes := to_msgpack self in
  let? other_bytes := to_msgpack other in
  let? lhs := map_err (fun e => debug_kind k +:+ " from_persisted (lhs): " +:+ e) (from_persisted p self_bytes) in
  let? rhs := map_err (fun e => debug_kind k +:+ " from_persisted (rhs): " +:+ e) (from_persisted p other_bytes) in
  let? lhs := map_err (fun e => debug_kind k +:+ " merge: " +:+ e) (state_merge p lhs rhs) in
  let? merged := map_err (fun e => debug_kind k +:+ " persist: " +:+ e) (persist p lhs) in
  from_msgpack merged.

Definition merge_via_registry (self other : Crdt) : Crdt * result CrdtError unit :=
  match ensure_same_kind self other with
  | Err e => (self, Err e)
  | Ok _ =>
      match crdt_kind (kind self) with
      | None => try_merge self other
      | Some p =>
          match merge_through p (kind self) self other with
          | Ok merged => (merged, Ok tt)
          | Err e => (self, Err e)
          end
      end
  end.

(** A provider of kind [k] that keeps a [Crdt] as its state, in the enum's own
    wire format, and merges it as the enum does. *)
Class NativeEnvelope (p : Provider) (k : string) := {
  state_of : Crdt -> CrdtState p;
  restores c bytes : kind c = k -> to_vec_named c = Ok bytes -> from_persisted p bytes = Ok (state_of c);
  merges a b : kind a = k -> kind b = k -> state_merge p (state_of a) (state_of b) = Ok (state_of (try_merge a b).1);
  persists c bytes : kind c = k -> to_vec_named c = Ok bytes -> persist p (state_of c) = Ok bytes;
}.
End registry.

(** ** Dispatch *)

Lemma discriminant_kind a b : discriminant a = discriminant b <-> kind a = kind b.
Proof. by destruct a, b. Qed.

Lemma discriminant_name a b : discriminant a = discriminant b <-> type_name a = type_name b.
Proof. by destruct a, b. Qed.

Lemma try_merge_same a b : discriminant a = discriminant b ->
  (try_merge a b).2 = Ok tt /\ discriminant (try_merge a b).1 = discriminant a.
Proof. by destruct a, b. Qed.

Lemma try_merge_differs a b : discriminant a <> discriminant b ->
  try_merge a b = (a, Err (TypeMismatch (type_name a) (type_name b))).
Proof. by destruct a, b. Qed.

Lemma ensure_same a b :
  ensure_same_kind a b = if decide (discriminant a = discriminant b) then Ok tt
                         else Err (TypeMismatch (type_name a) (type_name b)).
Proof. unfold ensure_same_kind. destruct (Nat.eqb_spec (discriminant a) (discriminant b)); case_decide; done. Qed.
End crdt.
Arguments Crdt : clear implicits.

Lemma Forall_3 {A} (P : A -> Prop) x y z : Forall P [x; y; z] -> P x /\ P y /\ P z.
Proof. rewrite !Forall_cons. naive_solver. Qed.

(** Dispatch by variant.  [try_merge] succeeds exactly on equal variants,
    where it keeps the variant, and otherwise names both and leaves the value;
    the panicking [merge] panics exactly then.  Routing through the registry
    rejects the same mismatches with the same error, changes nothing when it
    fails, and is the native merge when no provider is registered for the kind
    or the provider speaks the enum's wire format. *)
Theorem registry_dispatch_agrees {J} (json_to_vec : J -> option (list Z))
    (to_vec_named : Crdt J -> result string (list Z)) (from_slice : list Z -> result string (Crdt J))
    (crdt_kind : string -> option Provider) (a b : Crdt J) :
  Forall (fun c => exists bytes, to_vec_named c = Ok bytes /\ from_slice bytes = Ok c)
    [a; b; (try_merge json_to_vec a b).1] ->
  (kind a = kind b ->
     (try_merge json_to_vec a b).2 = Ok tt /\ kind (try_merge json_to_vec a b).1 = kind a
     /\ merge json_to_vec a b = Some (try_merge json_to_vec a b).1
     /\ (match crdt_kind (kind a) with
         | None => True
         | Some p => inhabited (NativeEnvelope json_to_vec to_vec_named p (kind a)) end ->
         merge_via_registry json_to_vec to_vec_named from_slice crdt_kind a b = try_merge json_to_vec a b))
  /\ (kind a <> kind b ->
       type_name a <> type_name b /\ merge json_to_vec a b = None
       /\ try_merge json_to_vec a b = (a, Err (TypeMismatch (type_name a) (type_name b)))
       /\ merge_via_registry json_to_vec to_vec_named from_slice crdt_kind a b = try_merge json_to_vec a b)
  /\ (forall c e, merge_via_registry json_to_vec to_vec_named from_slice crdt_kind a b = (c, Err e) -> c = a).
Proof.
  intros ((ba & Ea & _) & (bb & Eb & _) & (bm & Emb & Edec))%Forall_3. split_and!.
  - intros Hk. apply discriminant_kind in Hk as Hd. destruct (try_merge_same json_to_vec a b Hd) as [Hok Hd'].
    apply discriminant_kind in Hd'. unfold merge. destruct (try_merge json_to_vec a b) as [m r] eqn:Em. cbn [fst snd] in *. subst r.
    split_and!; [done..|]. intros Hp. unfold merge_via_registry. rewrite ensure_same, decide_True by done.
    destruct (crdt_kind (kind a)) as [p|]; [|done]. destruct Hp as [N]. unfold merge_through.
    unfold to_msgpack, from_msgpack, rbind, map_err. rewrite Ea, Eb.
    rewrite (restores json_to_vec to_vec_named a ba eq_refl Ea), (restores json_to_vec to_vec_named b bb (eq_sym Hk) Eb).
    rewrite (merges json_to_vec to_vec_named a b eq_refl (eq_sym Hk)), Em. cbn [fst].
    by rewrite (persists json_to_vec to_vec_named m bm Hd' Emb), Edec.
  - intros Hk. assert (Hd : discriminant a <> discriminant b) by (by rewrite discriminant_kind).
    pose proof (try_merge_differs json_to_vec a b Hd) as Hm. split; [by rewrite <- discriminant_name|].
    unfold merge, merge_via_registry. rewrite Hm, ensure_same, decide_False by done. done.
  - intros c e. unfold merge_via_registry. rewrite ensure_same. case_decide as Hd; [|by intros [= <- _]].
    destruct (crdt_kind (kind a)) as [p|].
    + by destruct (merge_through to_vec_named from_slice p (kind a) a b); intros [= <- _].
    + destruct (try_merge_same json_to_vec a b Hd) as [Hok _]. intros E. by rewrite E in Hok.
Qed.

(** ** Examples *)

Module CrdtExamples.
(** Counters in a one-number wire format; a provider that keeps the enum. *)
Definition wire_to (c : Crdt unit) : result string (list Z) :=
  match c with CGCounter g => Ok [Zpos (encode (GCounter.counts g))] | _ => Err "unsupported"%string end.
Definition wire_from (bytes : list Z) : result string (Crdt unit) :=
  match bytes with
  | [Zpos p] => match decode p with Some m => Ok (CGCounter (GCounter.mk m)) | None => Err "corrupt"%string end
  | _ => Err "corrupt"%string
  end.
Definition no_json (u : unit) : option (list Z) := None.
Definition native : Provider :=
  mkProvider (Crdt unit) wire_from (fun a b => Ok (try_merge no_json a b).1) wire_to.

Lemma wire_roundtrip g : wire_from [Zpos (encode (GCounter.counts g))] = Ok (CGCounter g).
Proof. cbn. rewrite decode_encode. by destruct g. Qed.

#[local] Instance native_envelope : NativeEnvelope no_json wire_to native "uni-crdt:g-counter".
Proof.
  refine {| state_of := fun c => (c : CrdtState native) |}.
  - intros c bytes Hk. destruct c; try done. intros [= <-]. apply wire_roundtrip.
  - done.
  - by intros c bytes Hk Hw.
Defined.

Definition ca : Crdt unit := CGCounter (GCounter.increment GCounter.new "x" 5).
Definition cb : Crdt unit := CGCounter (GCounter.increment GCounter.new "y" 3).

Lemma registry_dispatch_agrees_witness :
  merge_via_registry no_json wire_to wire_from (fun _ => Some native) ca cb = try_merge no_json ca cb.
Proof.
  destruct (registry_dispatch_agrees no_json wire_to wire_from (fun _ => Some native) ca cb) as [H _].
  - repeat constructor; eexists; (split; [reflexivity|apply wire_roundtrip]).
  - apply H; [reflexivity|]. constructor. exact native_envelope.
Defined.
End CrdtExamples.
