(* ===== verification/Graph.v ===== *)
(** * The in-memory topology [SimpleGraph]

    crates/uni-common/src/graph/simple_graph.rs: adjacency lists per vertex
    and direction, with an edge map that stores every edge's position in both
    of its lists so that removal is a [swap_remove].  Operations that can
    panic (an out-of-range [swap_remove], a failed [expect]) return [None]
    when they do; on well-formed graphs they never do, and they implement the
    abstract graph: a finite map from edge ids to edges. *)

From S2P Require Import Prelude.

Record EdgeEntry := mkEdge { eid : Z; src_vid : Z; dst_vid : Z; edge_type : Z }.

#[export] Instance EdgeEntry_eq_dec : EqDecision EdgeEntry.
Proof. solve_decision. Defined.

Inductive Direction := Outgoing | Incoming.

#[export] Instance Direction_eq_dec : EqDecision Direction.
Proof. solve_decision. Defined.

Record SimpleGraph := mkGraph {
  vertices : gset Z;
  outgoing : gmap Z (list EdgeEntry);
  incoming : gmap Z (list EdgeEntry);
  edge_map : gmap Z (EdgeEntry * nat * nat);
}.

Definition new : SimpleGraph := mkGraph ∅ ∅ ∅ ∅.

Definition lists (d : Direction) (g : SimpleGraph) : gmap Z (list EdgeEntry) :=
  match d with Outgoing => outgoing g | Incoming => incoming g end.

(** [Vec::swap_remove]: panics out of range. *)
Definition swap_remove {A} (l : list A) (i : nat) : option (list A) :=
  match l !! i, last l with
  | Some _, Some z => Some (take (length l - 1) (<[i := z]> l))
  | _, _ => None
  end.

(** The vertex whose list holds an edge, and its recorded position there. *)
Definition endpoint (d : Direction) (e : EdgeEntry) : Z :=
  match d with Outgoing => src_vid e | Incoming => dst_vid e end.
Definition pos (d : Direction) (x : EdgeEntry * nat * nat) : nat :=
  match d with Outgoing => x.1.2 | Incoming => x.2 end.
Definition set_pos (d : Direction) (x : EdgeEntry * nat * nat) (p : nat) : EdgeEntry * nat * nat :=
  match d with Outgoing => (x.1.1, p, x.2) | Incoming => (x.1.1, x.1.2, p) end.

(** Takes [entry] out of its list at position [p], moving the last entry of
    the list there and updating the moved entry's recorded position. *)
Definition unlink (d : Direction) (entry : EdgeEntry) (p : nat)
    (lst : gmap Z (list EdgeEntry)) (em : gmap Z (EdgeEntry * nat * nat)) :
    option (gmap Z (list EdgeEntry) * gmap Z (EdgeEntry * nat * nat)) :=
  match lst !! endpoint d entry with
  | None => Some (lst, em)
  | Some l =>
      match swap_remove l p with
      | None => None
      | Some l' =>
          let lst' := <[endpoint d entry := l']> lst in
          match l' !! p with
          | None => Some (lst', em)
          | Some moved =>
              match em !! eid moved with
              | None => None
              | Some x => Some (lst', <[eid moved := set_pos d x p]> em)
              end
          end
      end
  end.

Definition remove_edge (g : SimpleGraph) (k : Z) : option (SimpleGraph * option EdgeEntry) :=
  match edge_map g !! k with
  | None => Some (g, None)
  | Some (entry, out_pos, in_pos) =>
      match unlink Outgoing entry out_pos (outgoing g) (delete k (edge_map g)) with
      | None => None
      | Some (out', em) =>
          match unlink Incoming entry in_pos (incoming g) em with
          | None => None
          | Some (in', em') => Some (mkGraph (vertices g) out' in' em', Some entry)
          end
      end
  end.

Definition add_vertex (g : SimpleGraph) (vid : Z) : SimpleGraph * bool :=
  (mkGraph ({[vid]} ∪ vertices g) (outgoing g) (incoming g) (edge_map g),
   bool_decide (vid ∉ vertices g)).

(** [map.entry(vid).or_default().push(entry)], with the position it got. *)
Definition push (lst : gmap Z (list EdgeEntry)) (vid : Z) (entry : EdgeEntry) :
    gmap Z (list EdgeEntry) * nat :=
  let l := default [] (lst !! vid) in
  (<[vid := l ++ [entry]]> lst, length l).

Definition add_edge_unchecked (g : SimpleGraph) (src dst k etype : Z) : option SimpleGraph :=
  let entry := mkEdge k src dst etype in
  match (if decide (is_Some (edge_map g !! k)) then fst <$> remove_edge g k else Some g) with
  | None => None
  | Some g =>
      let '(out', out_pos) := push (outgoing g) src entry in
      let '(in', in_pos) := push (incoming g) dst entry in
      Some (mkGraph (vertices g) out' in' (<[k := (entry, out_pos, in_pos)]> (edge_map g)))
  end.

Definition add_edge (g : SimpleGraph) (src dst k etype : Z) : option SimpleGraph :=
  add_edge_unchecked (add_vertex (add_vertex g src).1 dst).1 src dst k etype.

Definition neighbors (g : SimpleGraph) (vid : Z) (d : Direction) : list EdgeEntry :=
  default [] (lists d g !! vid).

(** [while let Some(edge) = list.last() { self.remove_edge(edge.eid) }] *)
Fixpoint drain (fuel : nat) (g : SimpleGraph) (vid : Z) (d : Direction) : option SimpleGraph :=
  match fuel with
  | O => None
  | S fuel =>
      match last (neighbors g vid d) with
      | None => Some g
      | Some e =>
          match remove_edge g (eid e) with
          | None => None
          | Some (g', _) => drain fuel g' vid d
          end
      end
  end.

(** The loops run once per edge of the vertex, plus a last test. *)
Definition drain_all (g : SimpleGraph) (vid : Z) (d : Direction) : option SimpleGraph :=
  drain (S (length (neighbors g vid d))) g vid d.

Definition remove_vertex (g : SimpleGraph) (vid : Z) : option SimpleGraph :=
  let g := mkGraph (vertices g ∖ {[vid]}) (outgoing g) (incoming g) (edge_map g) in
  match drain_all g vid Outgoing with
  | None => None
  | Some g =>
      match drain_all g vid Incoming with
      | None => None
      | Some g =>
          Some (mkGraph (vertices g) (delete vid (outgoing g)) (delete vid (incoming g)) (edge_map g))
      end
  end.

Definition contains_vertex (g : SimpleGraph) (vid : Z) : bool := bool_decide (vid ∈ vertices g).
Definition vertex_count (g : SimpleGraph) : nat := size (vertices g).
Definition edge (g : SimpleGraph) (k : Z) : option EdgeEntry := (fun x => x.1.1) <$> edge_map g !! k.
Definition edge_count (g : SimpleGraph) : nat := size (edge_map g).
Definition vertex (g : SimpleGraph) (vid : Z) : option Z :=
  if decide (vid ∈ vertices g) then Some vid else None.
Definition edges (g : SimpleGraph) : list EdgeEntry := concat (map_to_list (outgoing g)).*2.
Definition clear (g : SimpleGraph) : SimpleGraph := new.

(** ** Well-formedness *)

(** The lists of one direction and the positions in the edge map agree. *)
Record linked (d : Direction) (lst : gmap Z (list EdgeEntry))
    (em : gmap Z (EdgeEntry * nat * nat)) : Prop := {
  linked_map k x : em !! k = Some x ->
    eid x.1.1 = k /\ default [] (lst !! endpoint d x.1.1) !! pos d x = Some x.1.1;
  linked_list v i e : default [] (lst !! v) !! i = Some e ->
    endpoint d e = v /\ exists x, em !! eid e = Some x /\ x.1.1 = e /\ pos d x = i;
}.

Record wf (g : SimpleGraph) : Prop := {
  wf_out : linked Outgoing (outgoing g) (edge_map g);
  wf_in : linked Incoming (incoming g) (edge_map g);
}.

Lemma wf_linked g d : wf g -> linked d (lists d g) (edge_map g).
Proof. intros [? ?]. by destruct d. Qed.

(** The same while one edge has left the edge map but not yet its list. *)
Record stale (d : Direction) (lst : gmap Z (list EdgeEntry))
    (em : gmap Z (EdgeEntry * nat * nat)) (e0 : EdgeEntry) (p0 : nat) : Prop := {
  stale_gone : em !! eid e0 = None;
  stale_here : default [] (lst !! endpoint d e0) !! p0 = Some e0;
  stale_map k x : em !! k = Some x ->
    eid x.1.1 = k /\ default [] (lst !! endpoint d x.1.1) !! pos d x = Some x.1.1;
  stale_list v i e : default [] (lst !! v) !! i = Some e ->
    endpoint d e = v /\
    ((e = e0 /\ i = p0) \/ exists x, em !! eid e = Some x /\ x.1.1 = e /\ pos d x = i);
}.

Lemma linked_stale d lst em k e0 op ip :
  linked d lst em -> em !! k = Some (e0, op, ip) ->
  stale d lst (delete k em) e0 (pos d (e0, op, ip)).
Proof.
  intros Hl Hk. destruct (linked_map _ _ _ Hl _ _ Hk) as [He Hp]. simpl in *. split.
  - rewrite He. apply lookup_delete_eq.
  - done.
  - intros k' x [_ Hx]%lookup_delete_Some. by apply (linked_map _ _ _ Hl).
  - intros v i e Hi. destruct (linked_list _ _ _ Hl _ _ _ Hi) as (Hv & x & Hx & Hxe & Hxi).
    split; [done|]. destruct (decide (eid e = k)) as [Heq|Hne].
    + left. rewrite Heq, Hk in Hx. injection Hx as <-. simpl in *. by subst.
    + right. exists x. rewrite lookup_delete_ne by done. done.
Qed.

(** Updating recorded positions of one direction does not disturb the other. *)
Lemma stale_other d d' lst em e0 p0 k x p :
  d <> d' -> stale d lst em e0 p0 -> em !! k = Some x ->
  stale d lst (<[k := set_pos d' x p]> em) e0 p0.
Proof.
  intros Hd Hs Hk.
  assert ((set_pos d' x p).1.1 = x.1.1 /\ pos d (set_pos d' x p) = pos d x) as [Hx1 Hx2].
  { by destruct d, d'. }
  split.
  - rewrite lookup_insert_ne; [apply Hs|]. intros ->. pose proof (stale_gone _ _ _ _ _ Hs). congruence.
  - apply Hs.
  - intros k' y. rewrite lookup_insert. case_decide as Hkk; [|apply Hs].
    intros [= <-]. rewrite Hx1, Hx2. subst. by apply (stale_map _ _ _ _ _ Hs).
  - intros v i e Hi. destruct (stale_list _ _ _ _ _ Hs _ _ _ Hi) as (Hv & [?|(y & Hy & Hye & Hyi)]); [auto|].
    split; [done|]. right. rewrite lookup_insert. case_decide as Hkk; [|eauto].
    eexists. split; [done|]. rewrite Hx1, Hx2. subst k. rewrite Hk in Hy. injection Hy as ->. done.
Qed.

Lemma linked_other d d' lst em k x p :
  d <> d' -> linked d lst em -> em !! k = Some x -> linked d lst (<[k := set_pos d' x p]> em).
Proof.
  intros Hd Hs Hk.
  assert ((set_pos d' x p).1.1 = x.1.1 /\ pos d (set_pos d' x p) = pos d x) as [Hx1 Hx2].
  { by destruct d, d'. }
  split.
  - intros k' y. rewrite lookup_insert. case_decide as Hkk; [|apply Hs].
    intros [= <-]. rewrite Hx1, Hx2. subst. by apply (linked_map _ _ _ Hs).
  - intros v i e Hi. destruct (linked_list _ _ _ Hs _ _ _ Hi) as (Hv & y & Hy & Hye & Hyi).
    split; [done|]. rewrite lookup_insert. case_decide as Hkk; [|eauto].
    eexists. split; [done|]. rewrite Hx1, Hx2. subst k. rewrite Hk in Hy. injection Hy as ->. done.
Qed.

(** ** [swap_remove] *)

Lemma swap_remove_spec {A} (l : list A) i x :
  l !! i = Some x ->
  exists l' z, swap_remove l i = Some l' /\ l !! (length l - 1)%nat = Some z
    /\ (S (length l') = length l)
    /\ forall j, l' !! j = if decide (j < length l - 1)%nat then
         (if decide (j = i) then Some z else l !! j) else None.
Proof.
  intros Hi. pose proof (lookup_lt_Some _ _ _ Hi) as Hlt.
  assert (exists z, last l = Some z /\ l !! (length l - 1)%nat = Some z) as (z & Hz & Hz').
  { rewrite last_lookup. replace (Init.Nat.pred (length l)) with (length l - 1)%nat by lia.
    destruct (lookup_lt_is_Some_2 l (length l - 1)%nat ltac:(lia)) as [z Hz]. eauto. }
  exists (take (length l - 1) (<[i := z]> l)), z. unfold swap_remove. rewrite Hi, Hz.
  split; [done|]. split; [done|]. split.
  { rewrite length_take, length_insert. lia. }
  intros j. case_decide as Hj.
  - rewrite lookup_take_lt by done. case_decide as Hji.
    + rewrite Hji, list_lookup_insert_eq by lia. done.
    + by rewrite list_lookup_insert_ne by done.
  - apply lookup_ge_None. rewrite length_take, length_insert. lia.
Qed.


(** ** [remove_edge] *)

(** The edges stored in an edge map, without their positions. *)
Definition strip (em : gmap Z (EdgeEntry * nat * nat)) : gmap Z EdgeEntry := (fun x => x.1.1) <$> em.

Lemma strip_set_pos d em k x p :
  em !! k = Some x -> strip (<[k := set_pos d x p]> em) = strip em.
Proof.
  intros Hk. unfold strip. rewrite fmap_insert. apply insert_id.
  rewrite lookup_fmap, Hk. by destruct d.
Qed.

Lemma stale_unlink d lst em e0 p0 :
  stale d lst em e0 p0 ->
  exists l l' em', unlink d e0 p0 lst em = Some (<[endpoint d e0 := l']> lst, em')
    /\ lst !! endpoint d e0 = Some l /\ swap_remove l p0 = Some l'
    /\ linked d (<[endpoint d e0 := l']> lst) em'
    /\ (em' = em \/ exists k x, em !! k = Some x /\ em' = <[k := set_pos d x p0]> em).
Proof.
  intros Hs. pose proof (stale_here _ _ _ _ _ Hs) as Hh.
  destruct (lst !! endpoint d e0) as [l|] eqn:El; [|done]. simpl in Hh.
  destruct (swap_remove_spec _ _ _ Hh) as (l' & z & Hsw & Hz & Hlen & Hl').
  pose proof (lookup_lt_Some _ _ _ Hh) as Hlt.
  assert (Hd : default [] (lst !! endpoint d e0) = l) by by rewrite El.
  (* The recorded entry of the last edge of the list, when it is not [e0]. *)
  assert (Hlast : p0 <> (length l - 1)%nat ->
    exists x, em !! eid z = Some x /\ x.1.1 = z /\ pos d x = (length l - 1)%nat).
  { intros Hne. rewrite <- Hd in Hz.
    destruct (stale_list _ _ _ _ _ Hs _ _ _ Hz) as (_ & [[_ ?]|(x & Hx)]); [congruence|].
    rewrite Hd in Hx. eauto. }
  exists l, l'. unfold unlink. rewrite El, Hsw. rewrite (Hl' p0).
  destruct (decide (p0 < length l - 1)%nat) as [Hp|Hp].
  - rewrite decide_True by done.
    destruct (Hlast ltac:(lia)) as (x & Hx & Hxz & Hxp). rewrite Hx.
    exists (<[eid z := set_pos d x p0]> em). split_and!; [done..| |eauto].
    assert (Hzv : endpoint d z = endpoint d e0).
    { rewrite <- Hd in Hz. by destruct (stale_list _ _ _ _ _ Hs _ _ _ Hz). }
    split.
    + intros k y. rewrite lookup_insert. case_decide as Hk.
      * intros [= <-]. replace ((set_pos d x p0).1.1) with z by (by destruct d).
        replace (pos d (set_pos d x p0)) with p0 by (by destruct d). split; [done|].
        rewrite Hzv, lookup_insert_eq. simpl. rewrite Hl', !decide_True by (done || lia). done.
      * intros Hy. destruct (stale_map _ _ _ _ _ Hs _ _ Hy) as [Hyk Hyp]. split; [done|].
        rewrite lookup_insert. case_decide as Hv; [|done]. simpl. rewrite <- Hv, Hd in Hyp.
        pose proof (lookup_lt_Some _ _ _ Hyp) as Hylt. rewrite Hl'.
        destruct (decide (pos d y = length l - 1)%nat) as [He|He].
        { rewrite He in Hyp. rewrite Hz in Hyp. injection Hyp as ->. congruence. }
        rewrite decide_True by lia. rewrite decide_False; [done|].
        intros Heq. rewrite Heq, Hh in Hyp. injection Hyp as Hye.
        pose proof (stale_gone _ _ _ _ _ Hs). rewrite Hye in *. congruence.
    + intros v i e. rewrite lookup_insert. case_decide as Hv.
      * simpl. rewrite Hl'. case_decide as Hi; [|done]. case_decide as Hip.
        { intros [= <-]. split; [congruence|]. rewrite lookup_insert_eq. eexists. split; [done|].
          subst i. by destruct d. }
        intros Hie. rewrite <- Hd in Hie.
        destruct (stale_list _ _ _ _ _ Hs _ _ _ Hie) as (Hev & [[_ ?]|(y & Hy & Hye & Hyp)]); [done|].
        split; [congruence|]. rewrite lookup_insert_ne; [eauto|]. intros Heq. rewrite <- Heq, Hx in Hy.
        injection Hy as ->. lia.
      * intros Hie. destruct (stale_list _ _ _ _ _ Hs _ _ _ Hie) as (Hev & [[? ?]|(y & Hy & Hye & Hyp)]).
        { congruence. }
        split; [done|]. rewrite lookup_insert_ne; [eauto|]. intros Heq. rewrite <- Heq, Hx in Hy.
        injection Hy as ->. congruence.
  - exists em. split_and!; [done..| |by left].
    assert (p0 = (length l - 1)%nat) as Hp0 by lia.
    split.
    + intros k y Hy. destruct (stale_map _ _ _ _ _ Hs _ _ Hy) as [Hyk Hyp]. split; [done|].
      rewrite lookup_insert. case_decide as Hv; [|done]. simpl. rewrite <- Hv, Hd in Hyp.
      pose proof (lookup_lt_Some _ _ _ Hyp) as Hylt. rewrite Hl'.
      destruct (decide (pos d y = p0)) as [He|He].
      { rewrite He, Hh in Hyp. injection Hyp as Hye.
        pose proof (stale_gone _ _ _ _ _ Hs). rewrite Hye in *. congruence. }
      by rewrite decide_True by lia.
    + intros v i e. rewrite lookup_insert. case_decide as Hv.
      * simpl. rewrite Hl'. case_decide as Hi; [|done]. rewrite decide_False by lia.
        intros Hie. rewrite <- Hd in Hie.
        destruct (stale_list _ _ _ _ _ Hs _ _ _ Hie) as (Hev & [[_ ?]|Hy]); [lia|].
        split; [congruence|done].
      * intros Hie. destruct (stale_list _ _ _ _ _ Hs _ _ _ Hie) as (Hev & [[? ?]|Hy]); [congruence|done].
Qed.

Lemma stale_delete_list d lst em k x :
  linked d lst em -> em !! k = Some x -> stale d lst (delete k em) x.1.1 (pos d x).
Proof. destruct x as [[e op] ip]. apply linked_stale. Qed.

Lemma length_swap_remove {A} (l l' : list A) i :
  swap_remove l i = Some l' -> S (length l') = length l.
Proof.
  unfold swap_remove. destruct (l !! i) eqn:Hi; [|done]. destruct (last l); [|done].
  intros [= <-]. apply lookup_lt_Some in Hi. rewrite length_take, length_insert. lia.
Qed.

(** The whole of [remove_edge] on a present edge: it does not panic, keeps the
    lists and positions in agreement, removes exactly that edge, and takes one
    entry off each of the two lists. *)
Lemma remove_edge_present g k x :
  wf g -> edge_map g !! k = Some x ->
  exists g', remove_edge g k = Some (g', Some x.1.1) /\ wf g' /\ vertices g' = vertices g
    /\ strip (edge_map g') = delete k (strip (edge_map g))
    /\ forall d, S (length (neighbors g' (endpoint d x.1.1) d)) = length (neighbors g (endpoint d x.1.1) d).
Proof.
  intros [Ho Hi] Hk. destruct x as [[e op] ip]. simpl.
  pose proof (stale_delete_list _ _ _ _ _ Ho Hk) as So. pose proof (stale_delete_list _ _ _ _ _ Hi Hk) as Si.
  simpl in So, Si. unfold remove_edge. rewrite Hk.
  destruct (stale_unlink _ _ _ _ _ So) as (lo & lo' & em1 & Ho1 & Hlo & Hsw & Hl1 & Hem1).
  rewrite Ho1.
  assert (Si1 : stale Incoming (incoming g) em1 e ip /\ strip em1 = delete k (strip (edge_map g))).
  { unfold strip at 2. rewrite <- fmap_delete. destruct Hem1 as [->|(k1 & x1 & Hx1 & ->)]; [done|].
    split; [by apply stale_other|by apply strip_set_pos]. }
  destruct Si1 as [Si1 Hst1].
  destruct (stale_unlink _ _ _ _ _ Si1) as (li & li' & em2 & Hi1 & Hli & Hsw' & Hl2 & Hem2).
  rewrite Hi1.
  assert (Hl : linked Outgoing (<[endpoint Outgoing e := lo']> (outgoing g)) em2 /\ strip em2 = strip em1).
  { destruct Hem2 as [->|(k1 & x1 & Hx1 & ->)]; [done|].
    split; [by apply linked_other|by apply strip_set_pos]. }
  destruct Hl as [Hl Hst2].
  eexists. split; [done|]. split; [by split|]. split; [done|]. split; [simpl; congruence|].
  intros []; unfold neighbors; cbn -[default lookup]; rewrite lookup_insert_eq; simpl in *.
  - rewrite Hlo. by apply length_swap_remove in Hsw.
  - rewrite Hli. by apply length_swap_remove in Hsw'.
Qed.

Lemma edge_strip g k : edge g k = strip (edge_map g) !! k.
Proof. unfold edge, strip. by rewrite lookup_fmap. Qed.

Lemma remove_edge_wf g k :
  wf g -> exists g', remove_edge g k = Some (g', edge g k) /\ wf g' /\ vertices g' = vertices g
    /\ strip (edge_map g') = delete k (strip (edge_map g)).
Proof.
  intros Hwf. destruct (edge_map g !! k) as [x|] eqn:Hk.
  - destruct (remove_edge_present _ _ _ Hwf Hk) as (g' & Hr & Hw & Hv & Hs & _).
    exists g'. unfold edge. rewrite Hk. done.
  - exists g. unfold remove_edge, edge. rewrite Hk. split_and!; [done..|].
    rewrite delete_id; [done|]. unfold strip. by rewrite lookup_fmap, Hk.
Qed.

(** ** [add_edge] *)

Lemma linked_push d lst em e y :
  linked d lst em -> em !! eid e = None -> y.1.1 = e ->
  pos d y = length (default [] (lst !! endpoint d e)) ->
  linked d (push lst (endpoint d e) e).1 (<[eid e := y]> em).
Proof.
  intros Hl Hnone Hy Hpos. unfold push. simpl. split.
  - intros k x. rewrite lookup_insert. case_decide as Hk.
    + intros [= <-]. rewrite Hy. split; [done|]. rewrite lookup_insert_eq, Hpos. simpl.
      by apply list_lookup_middle.
    + intros Hx. destruct (linked_map _ _ _ Hl _ _ Hx) as [Hxk Hxp]. split; [done|].
      rewrite lookup_insert. case_decide as Hv; [|done]. simpl. rewrite Hv. by apply lookup_app_l_Some.
  - intros v i f. rewrite lookup_insert. case_decide as Hv.
    + simpl. rewrite lookup_app_Some. intros [Hf|[Hlen Hf]].
      * destruct (linked_list _ _ _ Hl _ _ _ Hf) as (Hfv & x & Hx & Hxe).
        split; [congruence|]. rewrite lookup_insert_ne; [eauto|congruence].
      * apply list_lookup_singleton_Some in Hf as [Hi <-]. split; [done|].
        exists y. rewrite lookup_insert_eq. split_and!; [done..|]. rewrite Hpos. lia.
    + intros Hf. destruct (linked_list _ _ _ Hl _ _ _ Hf) as (Hfv & x & Hx & Hxe).
      split; [done|]. rewrite lookup_insert_ne; [eauto|congruence].
Qed.

Lemma add_edge_unchecked_wf g src dst k t :
  wf g -> exists g', add_edge_unchecked g src dst k t = Some g' /\ wf g' /\ vertices g' = vertices g
    /\ strip (edge_map g') = <[k := mkEdge k src dst t]> (strip (edge_map g)).
Proof.
  intros Hwf. unfold add_edge_unchecked.
  assert (exists g0, (if decide (is_Some (edge_map g !! k)) then fst <$> remove_edge g k else Some g) = Some g0
    /\ wf g0 /\ vertices g0 = vertices g /\ edge_map g0 !! k = None
    /\ strip (edge_map g0) = delete k (strip (edge_map g))) as (g0 & Hg0 & Hw & Hv & Hnone & Hs).
  { destruct (remove_edge_wf g k Hwf) as (g' & Hr & Hw & Hv & Hs). case_decide as Hk.
    - exists g'. rewrite Hr. split_and!; [done..| |done].
      assert (Hd : strip (edge_map g') !! k = None) by (rewrite Hs; apply lookup_delete_eq).
      unfold strip in Hd. by rewrite lookup_fmap, fmap_None in Hd.
    - apply eq_None_not_Some in Hk. exists g. split_and!; [done..|]. rewrite delete_id; [done|].
      unfold strip. by rewrite lookup_fmap, Hk. }
  rewrite Hg0. eexists. split; [unfold push; reflexivity|]. split.
  { split; simpl; [apply (linked_push Outgoing (outgoing g0) _ (mkEdge k src dst t))
                  |apply (linked_push Incoming (incoming g0) _ (mkEdge k src dst t))]; try done; apply Hw. }
  split; [done|]. simpl. unfold strip at 1. rewrite fmap_insert. fold (strip (edge_map g0)).
  rewrite Hs. simpl. by rewrite insert_delete_eq.
Qed.

(** ** [neighbors] *)

Lemma elem_of_neighbors g v d e :
  wf g -> e ∈ neighbors g v d <-> edge g (eid e) = Some e /\ endpoint d e = v.
Proof.
  intros Hwf. apply (wf_linked _ d) in Hwf. unfold neighbors, edge. rewrite list_elem_of_lookup. split.
  - intros [i Hi]. destruct (linked_list _ _ _ Hwf _ _ _ Hi) as (Hv & x & Hx & Hxe & _).
    split; [|done]. rewrite Hx. simpl. by rewrite Hxe.
  - intros [He <-]. apply fmap_Some in He as (x & Hx & ->).
    destruct (linked_map _ _ _ Hwf _ _ Hx) as [_ Hp]. eauto.
Qed.

Lemma NoDup_neighbors g v d : wf g -> NoDup (neighbors g v d).
Proof.
  intros Hwf. apply (wf_linked _ d) in Hwf. apply NoDup_alt. intros i j e Hi Hj.
  destruct (linked_list _ _ _ Hwf _ _ _ Hi) as (_ & x & Hx & _ & <-).
  destruct (linked_list _ _ _ Hwf _ _ _ Hj) as (_ & y & Hy & _ & <-). congruence.
Qed.

(** ** [remove_vertex] *)

Definition keeps (d : Direction) (v : Z) (kv : Z * EdgeEntry) : Prop := endpoint d kv.2 <> v.
#[export] Instance keeps_dec d v kv : Decision (keeps d v kv).
Proof. unfold keeps; apply _. Defined.

Lemma drain_wf d v g : forall fuel,
  wf g -> (length (neighbors g v d) < fuel)%nat ->
  exists g', drain fuel g v d = Some g' /\ wf g' /\ vertices g' = vertices g
    /\ strip (edge_map g') = filter (keeps d v) (strip (edge_map g)).
Proof.
  intros fuel. revert g. induction fuel as [|fuel IH]; intros g Hwf Hlt; [lia|]. simpl.
  destruct (last (neighbors g v d)) as [e|] eqn:Hl.
  - assert (He : e ∈ neighbors g v d) by by apply last_Some_elem_of.
    apply (elem_of_neighbors g v d e Hwf) in He as [He Hv].
    unfold edge in He. apply fmap_Some in He as (x & Hx & ->).
    destruct (remove_edge_present _ _ _ Hwf Hx) as (g1 & Hr & Hw1 & Hv1 & Hs1 & Hlen).
    rewrite Hr. specialize (Hlen d). rewrite Hv in Hlen.
    destruct (IH g1 Hw1 ltac:(lia)) as (g' & Hd & Hw' & Hv' & Hs').
    exists g'. split_and!; [done..|congruence|]. rewrite Hs', Hs1.
    apply map_eq. intros k. apply option_eq. intros f. rewrite !map_lookup_filter_Some, lookup_delete_Some.
    split; [tauto|]. intros [Hf Hkf]. split_and!; [|done..]. intros <-.
    unfold strip in Hf. rewrite lookup_fmap, Hx in Hf. injection Hf as <-. by apply Hkf.
  - exists g. split_and!; [done..|]. symmetry. apply map_filter_id. intros k f Hf Hv.
    apply last_None in Hl. simpl in Hv.
    assert (Hk : eid f = k).
    { unfold strip in Hf. rewrite lookup_fmap in Hf. apply fmap_Some in Hf as (x & Hx & ->).
      by destruct (linked_map _ _ _ (wf_out _ Hwf) _ _ Hx). }
    assert (f ∈ neighbors g v d) as Hin; [|rewrite Hl in Hin; by apply not_elem_of_nil in Hin].
    apply elem_of_neighbors; [done|]. rewrite edge_strip, Hk. done.
Qed.

Lemma linked_delete d lst em v :
  linked d lst em -> default [] (lst !! v) = [] -> linked d (delete v lst) em.
Proof.
  intros Hl Hnil. split.
  - intros k x Hx. destruct (linked_map _ _ _ Hl _ _ Hx) as [? Hp]. split; [done|].
    rewrite lookup_delete_ne; [done|]. intros Hv. by rewrite <- Hv, Hnil in Hp.
  - intros u i e. rewrite lookup_delete. case_decide; [done|]. apply Hl.
Qed.

Lemma remove_vertex_wf g v :
  wf g -> exists g', remove_vertex g v = Some g' /\ wf g' /\ vertices g' = vertices g ∖ {[v]}
    /\ strip (edge_map g') = filter (keeps Incoming v) (filter (keeps Outgoing v) (strip (edge_map g))).
Proof.
  intros Hwf. unfold remove_vertex, drain_all.
  set (g0 := mkGraph (vertices g ∖ {[v]}) (outgoing g) (incoming g) (edge_map g)).
  assert (Hw0 : wf g0) by (split; apply Hwf).
  destruct (drain_wf Outgoing v g0 _ Hw0 (Nat.lt_succ_diag_r _)) as (g1 & -> & Hw1 & Hv1 & Hs1).
  destruct (drain_wf Incoming v g1 _ Hw1 (Nat.lt_succ_diag_r _)) as (g2 & -> & Hw2 & Hv2 & Hs2).
  assert (Hempty : forall d, neighbors g2 v d = []).
  { intros d. destruct (neighbors g2 v d) as [|e l] eqn:Hn; [done|]. exfalso.
    assert (He : e ∈ neighbors g2 v d) by (rewrite Hn; apply list_elem_of_here).
    apply (elem_of_neighbors _ _ _ _ Hw2) in He as [He Hv]. rewrite edge_strip, Hs2, Hs1 in He.
    apply map_lookup_filter_Some in He as [He Hk2]. apply map_lookup_filter_Some in He as [_ Hk1].
    by destruct d. }
  eexists. split; [done|]. split.
  - split; simpl; [apply (linked_delete Outgoing)|apply (linked_delete Incoming)];
      try apply Hw2; [apply (Hempty Outgoing)|apply (Hempty Incoming)].
  - simpl. split; [by rewrite Hv2, Hv1|]. by rewrite Hs2, Hs1.
Qed.

(** ** The graph as an abstract data type

    The client sees a set of vertices and a finite map of edges. *)

Record view := mkView { v_vertices : gset Z; v_edges : gmap Z EdgeEntry }.

Definition abs (g : SimpleGraph) : view := mkView (vertices g) (strip (edge_map g)).

Inductive op :=
| OpAddVertex (v : Z)
| OpAddEdge (src dst k t : Z)
| OpRemoveEdge (k : Z)
| OpRemoveVertex (v : Z)
| OpClear.

Definition run_op (g : SimpleGraph) (o : op) : option SimpleGraph :=
  match o with
  | OpAddVertex v => Some (add_vertex g v).1
  | OpAddEdge src dst k t => add_edge g src dst k t
  | OpRemoveEdge k => fst <$> remove_edge g k
  | OpRemoveVertex v => remove_vertex g v
  | OpClear => Some (clear g)
  end.

Definition spec_op (w : view) (o : op) : view :=
  match o with
  | OpAddVertex v => mkView ({[v]} ∪ v_vertices w) (v_edges w)
  | OpAddEdge src dst k t =>
      mkView ({[dst]} ∪ ({[src]} ∪ v_vertices w)) (<[k := mkEdge k src dst t]> (v_edges w))
  | OpRemoveEdge k => mkView (v_vertices w) (delete k (v_edges w))
  | OpRemoveVertex v =>
      mkView (v_vertices w ∖ {[v]})
        (filter (keeps Incoming v) (filter (keeps Outgoing v) (v_edges w)))
  | OpClear => mkView ∅ ∅
  end.

Fixpoint run_ops (g : SimpleGraph) (os : list op) : option SimpleGraph :=
  match os with
  | [] => Some g
  | o :: os => g ← run_op g o; run_ops g os
  end.

Lemma new_wf : wf new.
Proof. split; split; intros *; (by rewrite lookup_empty) || (simpl; by rewrite lookup_empty). Qed.

Lemma run_op_refines g o :
  wf g -> exists g', run_op g o = Some g' /\ wf g' /\ abs g' = spec_op (abs g) o.
Proof.
  intros Hwf. destruct o as [v|src dst k t|k|v|]; simpl.
  - eexists. split; [done|]. split; [split; apply Hwf|done].
  - set (g0 := (add_vertex (add_vertex g src).1 dst).1).
    assert (Hw0 : wf g0) by (split; apply Hwf).
    destruct (add_edge_unchecked_wf g0 src dst k t Hw0) as (g' & Hr & Hw & Hv & Hs).
    exists g'. split; [done|]. split; [done|]. unfold abs. by rewrite Hv, Hs.
  - destruct (remove_edge_wf g k Hwf) as (g' & -> & Hw & Hv & Hs).
    exists g'. split; [done|]. split; [done|]. unfold abs. by rewrite Hv, Hs.
  - destruct (remove_vertex_wf g v Hwf) as (g' & -> & Hw & Hv & Hs).
    exists g'. split; [done|]. split; [done|]. unfold abs. by rewrite Hv, Hs.
  - exists new. split; [done|]. split; [apply new_wf|]. unfold abs, strip, new. simpl. by rewrite fmap_empty.
Qed.

Lemma run_ops_refines os : forall g,
  wf g -> exists g', run_ops g os = Some g' /\ wf g' /\ abs g' = foldl spec_op (abs g) os.
Proof.
  induction os as [|o os IH]; intros g Hwf; simpl; [eauto|].
  destruct (run_op_refines g o Hwf) as (g1 & -> & Hw1 & Ha1). simpl. rewrite <- Ha1. by apply IH.
Qed.

Lemma abs_new : abs new = mkView ∅ ∅.
Proof. unfold abs, strip, new. simpl. by rewrite fmap_empty. Qed.

(** [edges] walks the outgoing lists of every vertex. *)
Lemma elem_of_edges g e : wf g -> e ∈ edges g <-> edge g (eid e) = Some e.
Proof.
  intros Hwf. unfold edges. rewrite list_elem_of_In, in_concat. split.
  - intros (l & Hl%list_elem_of_In & He%list_elem_of_In).
    apply list_elem_of_fmap in Hl as ([v l0] & -> & Hl). apply elem_of_map_to_list in Hl.
    assert (He' : e ∈ neighbors g v Outgoing) by (unfold neighbors; simpl; by rewrite Hl).
    by apply (elem_of_neighbors _ _ _ _ Hwf) in He' as [? _].
  - intros He. assert (e ∈ neighbors g (src_vid e) Outgoing) as Hin by by apply elem_of_neighbors.
    unfold neighbors in Hin. simpl in Hin. destruct (outgoing g !! src_vid e) as [l|] eqn:Hl; [|by apply not_elem_of_nil in Hin].
    exists l. split; [|by apply list_elem_of_In].
    apply list_elem_of_In, list_elem_of_fmap. exists (src_vid e, l). split; [done|]. by apply elem_of_map_to_list.
Qed.

(** C25: any sequence of graph operations, upserts of existing edge ids and
    removals of absent ids included, runs without a panic from the empty
    graph (every [swap_remove] is in range, every [expect] succeeds, every
    drain loop ends within its bound) and leaves the graph in the state of the
    abstract graph: [edge] looks an edge up in the abstract edge map, [edges]
    enumerates that map, and [neighbors] lists, without duplicates, exactly
    the edges with that endpoint. *)
Theorem graph_refines_edge_map (os : list op) :
  exists g, run_ops new os = Some g
    /\ (let w := foldl spec_op (mkView ∅ ∅) os in
        (forall k, edge g k = v_edges w !! k)
        /\ (forall v, contains_vertex g v = bool_decide (v ∈ v_vertices w))
        /\ edge_count g = size (v_edges w)
        /\ (forall e, e ∈ edges g <-> v_edges w !! eid e = Some e)
        /\ (forall v d, NoDup (neighbors g v d))
        /\ (forall v d e, e ∈ neighbors g v d <-> v_edges w !! eid e = Some e /\ endpoint d e = v)).
Proof.
  destruct (run_ops_refines os new new_wf) as (g & Hr & Hw & Ha). rewrite abs_new in Ha.
  exists g. split; [done|]. rewrite <- Ha. simpl. split_and!; intros.
  - apply edge_strip.
  - done.
  - unfold edge_count, strip. by rewrite map_size_fmap.
  - rewrite elem_of_edges, edge_strip by done. done.
  - by apply NoDup_neighbors.
  - rewrite elem_of_neighbors, edge_strip by done. done.
Qed.

(** Removing a vertex in the abstract graph leaves exactly the edges that do
    not touch it. *)
Lemma spec_remove_vertex w v k e :
  v_edges (spec_op w (OpRemoveVertex v)) !! k = Some e
  <-> v_edges w !! k = Some e /\ src_vid e <> v /\ dst_vid e <> v.
Proof. simpl. rewrite !map_lookup_filter_Some. unfold keeps. simpl. tauto. Qed.

(** ** The topology interface

    What the L0 buffer relies on: total operations that act on the abstract
    graph, and neighbor lists that enumerate it.  The L0 theorems are proved
    against this interface; [graph_topology] discharges it with the
    well-formed graphs above. *)

Class Topology (G : Type) := {
  t_new : G;
  t_add_vertex : G -> Z -> G;
  t_add_edge : G -> Z -> Z -> Z -> Z -> G;
  t_remove_edge : G -> Z -> G;
  t_remove_vertex : G -> Z -> G;
  t_neighbors : G -> Z -> Direction -> list EdgeEntry;
  t_view : G -> view;
  t_new_view : t_view t_new = mkView ∅ ∅;
  t_add_vertex_view g v : t_view (t_add_vertex g v) = spec_op (t_view g) (OpAddVertex v);
  t_add_edge_view g s d k t : t_view (t_add_edge g s d k t) = spec_op (t_view g) (OpAddEdge s d k t);
  t_remove_edge_view g k : t_view (t_remove_edge g k) = spec_op (t_view g) (OpRemoveEdge k);
  t_remove_vertex_view g v : t_view (t_remove_vertex g v) = spec_op (t_view g) (OpRemoveVertex v);
  t_neighbors_view g v d e :
    e ∈ t_neighbors g v d <-> v_edges (t_view g) !! eid e = Some e /\ endpoint d e = v;
  t_neighbors_NoDup g v d : NoDup (t_neighbors g v d);
}.

Definition t_contains_vertex {G} `{Topology G} (g : G) (v : Z) : bool :=
  bool_decide (v ∈ v_vertices (t_view g)).

Definition wf_graph := { g : SimpleGraph | wf g }.

Lemma run_op_Some_wf g o g' : wf g -> run_op g o = Some g' -> wf g'.
Proof. intros Hw Hr. destruct (run_op_refines g o Hw) as (g1 & ? & ? & _). congruence. Qed.

Lemma run_op_no_panic g o : wf g -> run_op g o = None -> False.
Proof. intros Hw Hr. destruct (run_op_refines g o Hw) as (g1 & ? & _). congruence. Qed.

(** Running an operation on a well-formed graph: the panic branch is absurd. *)
Definition run_wf (g : wf_graph) (o : op) : wf_graph :=
  match run_op (proj1_sig g) o as r return run_op (proj1_sig g) o = r -> wf_graph with
  | Some g' => fun H => exist wf g' (run_op_Some_wf _ _ _ (proj2_sig g) H)
  | None => fun H => False_rect _ (run_op_no_panic _ _ (proj2_sig g) H)
  end eq_refl.

Lemma run_wf_op g o : run_op (proj1_sig g) o = Some (proj1_sig (run_wf g o)).
Proof.
  unfold run_wf.
  generalize (run_op_Some_wf (proj1_sig g) o) as F1, (run_op_no_panic (proj1_sig g) o) as F2.
  destruct (run_op (proj1_sig g) o); [done|]. intros _ F2. destruct (F2 (proj2_sig g) eq_refl).
Qed.

Lemma run_wf_view g o : abs (proj1_sig (run_wf g o)) = spec_op (abs (proj1_sig g)) o.
Proof.
  destruct (run_op_refines _ o (proj2_sig g)) as (g' & Hg' & _ & Ha).
  rewrite run_wf_op in Hg'. by injection Hg' as ->.
Qed.

Lemma wf_neighbors_view (g : wf_graph) v d e :
  e ∈ neighbors (proj1_sig g) v d <-> v_edges (abs (proj1_sig g)) !! eid e = Some e /\ endpoint d e = v.
Proof. by rewrite (elem_of_neighbors _ _ _ _ (proj2_sig g)), edge_strip. Qed.

#[export] Instance graph_topology : Topology wf_graph := {
  t_new := exist wf new new_wf;
  t_add_vertex g v := run_wf g (OpAddVertex v);
  t_add_edge g s d k t := run_wf g (OpAddEdge s d k t);
  t_remove_edge g k := run_wf g (OpRemoveEdge k);
  t_remove_vertex g v := run_wf g (OpRemoveVertex v);
  t_neighbors g v d := neighbors (proj1_sig g) v d;
  t_view g := abs (proj1_sig g);
  t_new_view := abs_new;
  t_add_vertex_view g v := run_wf_view g _;
  t_add_edge_view g s d k t := run_wf_view g _;
  t_remove_edge_view g k := run_wf_view g _;
  t_remove_vertex_view g v := run_wf_view g _;
  t_neighbors_view := wf_neighbors_view;
  t_neighbors_NoDup g v d := NoDup_neighbors _ v d (proj2_sig g);
}.

(** The abstract graph is itself a topology. *)
Definition view_neighbors (w : view) (v : Z) (d : Direction) : list EdgeEntry :=
  (filter (fun kv => eid kv.2 = kv.1 /\ endpoint d kv.2 = v) (map_to_list (v_edges w))).*2.

Lemma elem_of_view_neighbors w v d e :
  e ∈ view_neighbors w v d <-> v_edges w !! eid e = Some e /\ endpoint d e = v.
Proof.
  unfold view_neighbors. rewrite list_elem_of_fmap. split.
  - intros ([k f] & -> & Hin). apply list_elem_of_filter in Hin as [[Hk Hv] Hin].
    apply elem_of_map_to_list in Hin. simpl in *. by subst.
  - intros [He Hv]. exists (eid e, e). split; [done|].
    rewrite list_elem_of_filter, elem_of_map_to_list. done.
Qed.

Lemma NoDup_view_neighbors w v d : NoDup (view_neighbors w v d).
Proof.
  unfold view_neighbors. apply NoDup_fmap_2_strong.
  - intros [k1 e1] [k2 e2] [[H1 _] _]%list_elem_of_filter [[H2 _] _]%list_elem_of_filter ?. simpl in *. congruence.
  - apply NoDup_filter, NoDup_map_to_list.
Qed.

#[export] Instance view_topology : Topology view := {
  t_new := mkView ∅ ∅;
  t_add_vertex w v := spec_op w (OpAddVertex v);
  t_add_edge w s d k t := spec_op w (OpAddEdge s d k t);
  t_remove_edge w k := spec_op w (OpRemoveEdge k);
  t_remove_vertex w v := spec_op w (OpRemoveVertex v);
  t_neighbors := view_neighbors;
  t_view w := w;
  t_new_view := eq_refl;
  t_add_vertex_view w v := eq_refl;
  t_add_edge_view w s d k t := eq_refl;
  t_remove_edge_view w k := eq_refl;
  t_remove_vertex_view w v := eq_refl;
  t_neighbors_view := elem_of_view_neighbors;
  t_neighbors_NoDup := NoDup_view_neighbors;
}.
