(* ===== verification/L0State.v ===== *)
(** * The state of an L0 write buffer

    crates/uni-store/src/runtime/l0.rs, the [L0Buffer] structure with the
    structures it is made of, field for field; only the plugin registry is
    left out (it selects the CRDT merge function, which is a parameter of the
    operations).  A buffer is generic in its topology [G] (interface
    [Graph.Topology]) and in the type [V] of property values.  Counters are
    unbounded; vids, eids and timestamps are integers.  Each field has an
    update function, [set_<field> f], the assignment [self.field = f(field)]. *)

From S2P Require Import Prelude Graph.

(** [Properties]: property name to value. *)
Abbreviation Properties V := (gmap string V).
(** A serialized constraint key ([Vec<u8>]). *)
Abbreviation Key := (list Z).

(** What the buffer uses of property values and of the CRDTs they encode:
    [uni_common::Value], [serde_json] and the registry-dispatched merge. *)
Class Values (V C : Type) := {
  value_eq_dec :: EqDecision V;
  is_null : V -> bool;
  is_map : V -> bool;
  as_str : V -> option string;
  (** [serde_json::from_value::<Crdt>(v.into()).ok()] *)
  crdt_from_value : V -> option C;
  (** [Value::from(serde_json::to_value(c)?)] *)
  crdt_to_value : C -> option V;
  (** [new.merge(existing)] by the registry or natively; [None] when it fails *)
  crdt_merge : C -> C -> option C;
  (** [serde_json::to_vec(v).unwrap_or_default()] *)
  json_bytes : V -> list Z;
}.

Record OccReadSet := mkReads { read_vertices : gset Z; read_edges : gset Z }.
Definition OccReadSet_is_empty (r : OccReadSet) : bool :=
  bool_decide (read_vertices r = ∅) && bool_decide (read_edges r = ∅).

Record MutationStats := mkStats {
  nodes_created : Z;
  nodes_deleted : Z;
  relationships_created : Z;
  relationships_deleted : Z;
  properties_set : Z;
  properties_removed : Z;
  labels_added : Z;
  labels_removed : Z;
}.
Definition MutationStats_default : MutationStats := mkStats 0 0 0 0 0 0 0 0.

(** [usize::saturating_sub]. *)
Definition saturating_sub (a b : Z) : Z := Z.max 0 (a - b).

(** [MutationStats::diff]: field-wise [self - before]. *)
Definition diff (self before : MutationStats) : MutationStats :=
  mkStats
    (saturating_sub (nodes_created self) (nodes_created before))
    (saturating_sub (nodes_deleted self) (nodes_deleted before))
    (saturating_sub (relationships_created self) (relationships_created before))
    (saturating_sub (relationships_deleted self) (relationships_deleted before))
    (saturating_sub (properties_set self) (properties_set before))
    (saturating_sub (properties_removed self) (properties_removed before))
    (saturating_sub (labels_added self) (labels_added before))
    (saturating_sub (labels_removed self) (labels_removed before)).

Inductive StatEntity := StatVertex (vid : Z) | StatEdge (eid : Z).

Record TombstoneEntry := mkTomb { t_eid : Z; t_src_vid : Z; t_dst_vid : Z; t_edge_type : Z }.

#[export] Instance TombstoneEntry_eq_dec : EqDecision TombstoneEntry.
Proof. solve_decision. Defined.

(** Identities confirmed for edge updates, with the bytes they are charged. *)
Record EdgeIdentityMemo := mkMemo {
  identities : gmap Z (Z * Z * Z);
  scanned : gset (Z * Z);
  storage_reads : gmap Z Z;
  charged_bytes : Z;
}.
Definition EdgeIdentityMemo_default : EdgeIdentityMemo := mkMemo ∅ ∅ ∅ 0.
Definition IDENTITY_BYTES : Z := 40.
Definition SCANNED_BYTES : Z := 24.

(** [EdgeIdentityMemo::charge]: the memo and the bytes added. *)
Definition charge (m : EdgeIdentityMemo) (n_identities n_scanned : Z) : EdgeIdentityMemo * Z :=
  let added := saturating_sub (Z.of_nat (size (identities m))) n_identities * IDENTITY_BYTES
             + saturating_sub (Z.of_nat (size (scanned m))) n_scanned * SCANNED_BYTES in
  (mkMemo (identities m) (scanned m) (storage_reads m) (charged_bytes m + added), added).

(** The write-ahead log's records (crates/uni-store/src/runtime/wal.rs). *)
Inductive Mutation (V : Type) :=
| InsertEdge (src_vid dst_vid edge_type eid version : Z) (properties : Properties V)
    (edge_type_name : option string) (created_at updated_at : option Z)
| DeleteEdge (eid src_vid dst_vid edge_type version : Z) (edge_type_name : option string)
| InsertVertex (vid : Z) (properties : Properties V) (labels : list string)
    (created_at updated_at : option Z)
| DeleteVertex (vid : Z) (labels : list string)
| SetVertexLabels (vid : Z) (labels : list string).
Arguments InsertEdge {V}.
Arguments DeleteEdge {V}.
Arguments InsertVertex {V}.
Arguments DeleteVertex {V}.
Arguments SetVertexLabels {V}.

(** The log's in-memory side: the unflushed records, and whether the state
    lock is poisoned (then every append fails). *)
Record Wal (V : Type) := mkWal { buffer : list (Mutation V); poisoned : bool }.
Arguments mkWal {V}.
Arguments buffer {V}.
Arguments poisoned {V}.

Inductive L0Error :=
| LockPoisoned
| SourceDeleted (vid : Z)
| DestinationDeleted (vid : Z)
| MergeSourceDeleted (eid vid : Z)
| MergeDestinationDeleted (eid vid : Z).

Definition wal_append {V} (w : Wal V) (m : Mutation V) : Wal V * result L0Error unit :=
  if poisoned w then (w, Err LockPoisoned) else (mkWal (buffer w ++ [m]) false, Ok tt).

Record L0Buffer (G V : Type) := mkL0 {
  graph : G;
  tombstones : gmap Z TombstoneEntry;
  vertex_tombstones : gset Z;
  edge_versions : gmap Z Z;
  vertex_versions : gmap Z Z;
  edge_properties : gmap Z (Properties V);
  vertex_properties : gmap Z (Properties V);
  edge_endpoints : gmap Z (Z * Z * Z);
  vertex_labels : gmap Z (list string);
  label_to_vids : gmap string (gset Z);
  vertex_label_overwrites : gset Z;
  vertex_labels_before : gmap Z (list string);
  vertex_label_versions : gmap Z Z;
  edge_types : gmap Z string;
  current_version : Z;
  mutation_count : Z;
  mutation_stats : MutationStats;
  wal : option (Wal V);
  wal_lsn_at_flush : Z;
  wal_lsn_at_start : Z;
  unpublished_bulk_at_rotation : list Z;
  vertex_created_at : gmap Z Z;
  vertex_updated_at : gmap Z Z;
  edge_created_at : gmap Z Z;
  edge_updated_at : gmap Z Z;
  estimated_size : Z;
  constraint_index : gmap Key Z;
  constraint_keys_by_vid : gmap Z (list Key);
  merge_guard_index : gmap Key Z;
  merge_keys_by_vid : gmap Z (list Key);
  edge_constraint_index : gmap Key Z;
  edge_keys_by_eid : gmap Z (list Key);
  extid_index : gmap string Z;
  statement_depth : Z;
  statement_write_admitted : bool;
  statement_created_vertices : gset Z;
  statement_created_edges : gset Z;
  statement_tracks_created : bool;
  created_edges : gset Z;
  created_vertices : gset Z;
  edge_identity_memo : EdgeIdentityMemo;
  pending_embeddings : gmap Z string;
  occ_read_seq : Z;
  validated_schema_version : option Z;
  occ_read_set : option OccReadSet;
}.
Arguments mkL0 {G V}.
Arguments graph {G V}.
Arguments tombstones {G V}.
Arguments vertex_tombstones {G V}.
Arguments edge_versions {G V}.
Arguments vertex_versions {G V}.
Arguments edge_properties {G V}.
Arguments vertex_properties {G V}.
Arguments edge_endpoints {G V}.
Arguments vertex_labels {G V}.
Arguments label_to_vids {G V}.
Arguments vertex_label_overwrites {G V}.
Arguments vertex_labels_before {G V}.
Arguments vertex_label_versions {G V}.
Arguments edge_types {G V}.
Arguments current_version {G V}.
Arguments mutation_count {G V}.
Arguments mutation_stats {G V}.
Arguments wal {G V}.
Arguments wal_lsn_at_flush {G V}.
Arguments wal_lsn_at_start {G V}.
Arguments unpublished_bulk_at_rotation {G V}.
Arguments vertex_created_at {G V}.
Arguments vertex_updated_at {G V}.
Arguments edge_created_at {G V}.
Arguments edge_updated_at {G V}.
Arguments estimated_size {G V}.
Arguments constraint_index {G V}.
Arguments constraint_keys_by_vid {G V}.
Arguments merge_guard_index {G V}.
Arguments merge_keys_by_vid {G V}.
Arguments edge_constraint_index {G V}.
Arguments edge_keys_by_eid {G V}.
Arguments extid_index {G V}.
Arguments statement_depth {G V}.
Arguments statement_write_admitted {G V}.
Arguments statement_created_vertices {G V}.
Arguments statement_created_edges {G V}.
Arguments statement_tracks_created {G V}.
Arguments created_edges {G V}.
Arguments created_vertices {G V}.
Arguments edge_identity_memo {G V}.
Arguments pending_embeddings {G V}.
Arguments occ_read_seq {G V}.
Arguments validated_schema_version {G V}.
Arguments occ_read_set {G V}.

(** Field updates. *)

Definition set_graph {G V : Type} (f : G -> G) (s : L0Buffer G V) : L0Buffer G V :=
  mkL0
    (f (graph s)) (tombstones s) (vertex_tombstones s) (edge_versions s) (vertex_versions s) (edge_properties s) (vertex_properties s) (edge_endpoints
    s) (vertex_labels s) (label_to_vids s) (vertex_label_overwrites s) (vertex_labels_before s) (vertex_label_versions s) (edge_types s)
    (current_version s) (mutation_count s) (mutation_stats s) (wal s) (wal_lsn_at_flush s) (wal_lsn_at_start s) (unpublished_bulk_at_rotation s)
    (vertex_created_at s) (vertex_updated_at s) (edge_created_at s) (edge_updated_at s) (estimated_size s) (constraint_index s)
    (constraint_keys_by_vid s) (merge_guard_index s) (merge_keys_by_vid s) (edge_constraint_index s) (edge_keys_by_eid s) (extid_index s)
    (statement_depth s) (statement_write_admitted s) (statement_created_vertices s) (statement_created_edges s) (statement_tracks_created s)
    (created_edges s) (created_vertices s) (edge_identity_memo s) (pending_embeddings s) (occ_read_seq s) (validated_schema_version s) (occ_read_set
    s).
Definition set_tombstones {G V : Type} (f : (gmap Z TombstoneEntry) -> (gmap Z TombstoneEntry)) (s : L0Buffer G V) : L0Buffer G V :=
  mkL0
    (graph s) (f (tombstones s)) (vertex_tombstones s) (edge_versions s) (vertex_versions s) (edge_properties s) (vertex_properties s) (edge_endpoints
    s) (vertex_labels s) (label_to_vids s) (vertex_label_overwrites s) (vertex_labels_before s) (vertex_label_versions s) (edge_types s)
    (current_version s) (mutation_count s) (mutation_stats s) (wal s) (wal_lsn_at_flush s) (wal_lsn_at_start s) (unpublished_bulk_at_rotation s)
    (vertex_created_at s) (vertex_updated_at s) (edge_created_at s) (edge_updated_at s) (estimated_size s) (constraint_index s)
    (constraint_keys_by_vid s) (merge_guard_index s) (merge_keys_by_vid s) (edge_constraint_index s) (edge_keys_by_eid s) (extid_index s)
    (statement_depth s) (statement_write_admitted s) (statement_created_vertices s) (statement_created_edges s) (statement_tracks_created s)
    (created_edges s) (created_vertices s) (edge_identity_memo s) (pending_embeddings s) (occ_read_seq s) (validated_schema_version s) (occ_read_set
    s).
Definition set_vertex_tombstones {G V : Type} (f : (gset Z) -> (gset Z)) (s : L0Buffer G V) : L0Buffer G V :=
  mkL0
    (graph s) (tombstones s) (f (vertex_tombstones s)) (edge_versions s) (vertex_versions s) (edge_properties s) (vertex_properties s) (edge_endpoints
    s) (vertex_labels s) (label_to_vids s) (vertex_label_overwrites s) (vertex_labels_before s) (vertex_label_versions s) (edge_types s)
    (current_version s) (mutation_count s) (mutation_stats s) (wal s) (wal_lsn_at_flush s) (wal_lsn_at_start s) (unpublished_bulk_at_rotation s)
    (vertex_created_at s) (vertex_updated_at s) (edge_created_at s) (edge_updated_at s) (estimated_size s) (constraint_index s)
    (constraint_keys_by_vid s) (merge_guard_index s) (merge_keys_by_vid s) (edge_constraint_index s) (edge_keys_by_eid s) (extid_index s)
    (statement_depth s) (statement_write_admitted s) (statement_created_vertices s) (statement_created_edges s) (statement_tracks_created s)
    (created_edges s) (created_vertices s) (edge_identity_memo s) (pending_embeddings s) (occ_read_seq s) (validated_schema_version s) (occ_read_set
    s).
Definition set_edge_versions {G V : Type} (f : (gmap Z Z) -> (gmap Z Z)) (s : L0Buffer G V) : L0Buffer G V :=
  mkL0
    (graph s) (tombstones s) (vertex_tombstones s) (f (edge_versions s)) (vertex_versions s) (edge_properties s) (vertex_properties s) (edge_endpoints
    s) (vertex_labels s) (label_to_vids s) (vertex_label_overwrites s) (vertex_labels_before s) (vertex_label_versions s) (edge_types s)
    (current_version s) (mutation_count s) (mutation_stats s) (wal s) (wal_lsn_at_flush s) (wal_lsn_at_start s) (unpublished_bulk_at_rotation s)
    (vertex_created_at s) (vertex_updated_at s) (edge_created_at s) (edge_updated_at s) (estimated_size s) (constraint_index s)
    (constraint_keys_by_vid s) (merge_guard_index s) (merge_keys_by_vid s) (edge_constraint_index s) (edge_keys_by_eid s) (extid_index s)
    (statement_depth s) (statement_write_admitted s) (statement_created_vertices s) (statement_created_edges s) (statement_tracks_created s)
    (created_edges s) (created_vertices s) (edge_identity_memo s) (pending_embeddings s) (occ_read_seq s) (validated_schema_version s) (occ_read_set
    s).
Definition set_vertex_versions {G V : Type} (f : (gmap Z Z) -> (gmap Z Z)) (s : L0Buffer G V) : L0Buffer G V :=
  mkL0
    (graph s) (tombstones s) (vertex_tombstones s) (edge_versions s) (f (vertex_versions s)) (edge_properties s) (vertex_properties s) (edge_endpoints
    s) (vertex_labels s) (label_to_vids s) (vertex_label_overwrites s) (vertex_labels_before s) (vertex_label_versions s) (edge_types s)
    (current_version s) (mutation_count s) (mutation_stats s) (wal s) (wal_lsn_at_flush s) (wal_lsn_at_start s) (unpublished_bulk_at_rotation s)
    (vertex_created_at s) (vertex_updated_at s) (edge_created_at s) (edge_updated_at s) (estimated_size s) (constraint_index s)
    (constraint_keys_by_vid s) (merge_guard_index s) (merge_keys_by_vid s) (edge_constraint_index s) (edge_keys_by_eid s) (extid_index s)
    (statement_depth s) (statement_write_admitted s) (statement_created_vertices s) (statement_created_edges s) (statement_tracks_created s)
    (created_edges s) (created_vertices s) (edge_identity_memo s) (pending_embeddings s) (occ_read_seq s) (validated_schema_version s) (occ_read_set
    s).
Definition set_edge_properties {G V : Type} (f : (gmap Z (Properties V)) -> (gmap Z (Properties V))) (s : L0Buffer G V) : L0Buffer G V :=
  mkL0
    (graph s) (tombstones s) (vertex_tombstones s) (edge_versions s) (vertex_versions s) (f (edge_properties s)) (vertex_properties s) (edge_endpoints
    s) (vertex_labels s) (label_to_vids s) (vertex_label_overwrites s) (vertex_labels_before s) (vertex_label_versions s) (edge_types s)
    (current_version s) (mutation_count s) (mutation_stats s) (wal s) (wal_lsn_at_flush s) (wal_lsn_at_start s) (unpublished_bulk_at_rotation s)
    (vertex_created_at s) (vertex_updated_at s) (edge_created_at s) (edge_updated_at s) (estimated_size s) (constraint_index s)
    (constraint_keys_by_vid s) (merge_guard_index s) (merge_keys_by_vid s) (edge_constraint_index s) (edge_keys_by_eid s) (extid_index s)
    (statement_depth s) (statement_write_admitted s) (statement_created_vertices s) (statement_created_edges s) (statement_tracks_created s)
    (created_edges s) (created_vertices s) (edge_identity_memo s) (pending_embeddings s) (occ_read_seq s) (validated_schema_version s) (occ_read_set
    s).
Definition set_vertex_properties {G V : Type} (f : (gmap Z (Properties V)) -> (gmap Z (Properties V))) (s : L0Buffer G V) : L0Buffer G V :=
  mkL0
    (graph s) (tombstones s) (vertex_tombstones s) (edge_versions s) (vertex_versions s) (edge_properties s) (f (vertex_properties s)) (edge_endpoints
    s) (vertex_labels s) (label_to_vids s) (vertex_label_overwrites s) (vertex_labels_before s) (vertex_label_versions s) (edge_types s)
    (current_version s) (mutation_count s) (mutation_stats s) (wal s) (wal_lsn_at_flush s) (wal_lsn_at_start s) (unpublished_bulk_at_rotation s)
    (vertex_created_at s) (vertex_updated_at s) (edge_created_at s) (edge_updated_at s) (estimated_size s) (constraint_index s)
    (constraint_keys_by_vid s) (merge_guard_index s) (merge_keys_by_vid s) (edge_constraint_index s) (edge_keys_by_eid s) (extid_index s)
    (statement_depth s) (statement_write_admitted s) (statement_created_vertices s) (statement_created_edges s) (statement_tracks_created s)
    (created_edges s) (created_vertices s) (edge_identity_memo s) (pending_embeddings s) (occ_read_seq s) (validated_schema_version s) (occ_read_set
    s).
Definition set_edge_endpoints {G V : Type} (f : (gmap Z (Z * Z * Z)) -> (gmap Z (Z * Z * Z))) (s : L0Buffer G V) : L0Buffer G V :=
  mkL0
    (graph s) (tombstones s) (vertex_tombstones s) (edge_versions s) (vertex_versions s) (edge_properties s) (vertex_properties s) (f (edge_endpoints
    s)) (vertex_labels s) (label_to_vids s) (vertex_label_overwrites s) (vertex_labels_before s) (vertex_label_versions s) (edge_types s)
    (current_version s) (mutation_count s) (mutation_stats s) (wal s) (wal_lsn_at_flush s) (wal_lsn_at_start s) (unpublished_bulk_at_rotation s)
    (vertex_created_at s) (vertex_updated_at s) (edge_created_at s) (edge_updated_at s) (estimated_size s) (constraint_index s)
    (constraint_keys_by_vid s) (merge_guard_index s) (merge_keys_by_vid s) (edge_constraint_index s) (edge_keys_by_eid s) (extid_index s)
    (statement_depth s) (statement_write_admitted s) (statement_created_vertices s) (statement_created_edges s) (statement_tracks_created s)
    (created_edges s) (created_vertices s) (edge_identity_memo s) (pending_embeddings s) (occ_read_seq s) (validated_schema_version s) (occ_read_set
    s).
Definition set_vertex_labels {G V : Type} (f : (gmap Z (list string)) -> (gmap Z (list string))) (s : L0Buffer G V) : L0Buffer G V :=
  mkL0
    (graph s) (tombstones s) (vertex_tombstones s) (edge_versions s) (vertex_versions s) (edge_properties s) (vertex_properties s) (edge_endpoints s)
    (f (vertex_labels s)) (label_to_vids s) (vertex_label_overwrites s) (vertex_labels_before s) (vertex_label_versions s) (edge_types s)
    (current_version s) (mutation_count s) (mutation_stats s) (wal s) (wal_lsn_at_flush s) (wal_lsn_at_start s) (unpublished_bulk_at_rotation s)
    (vertex_created_at s) (vertex_updated_at s) (edge_created_at s) (edge_updated_at s) (estimated_size s) (constraint_index s)
    (constraint_keys_by_vid s) (merge_guard_index s) (merge_keys_by_vid s) (edge_constraint_index s) (edge_keys_by_eid s) (extid_index s)
    (statement_depth s) (statement_write_admitted s) (statement_created_vertices s) (statement_created_edges s) (statement_tracks_created s)
    (created_edges s) (created_vertices s) (edge_identity_memo s) (pending_embeddings s) (occ_read_seq s) (validated_schema_version s) (occ_read_set
    s).
Definition set_label_to_vids {G V : Type} (f : (gmap string (gset Z)) -> (gmap string (gset Z))) (s : L0Buffer G V) : L0Buffer G V :=
  mkL0
    (graph s) (tombstones s) (vertex_tombstones s) (edge_versions s) (vertex_versions s) (edge_properties s) (vertex_properties s) (edge_endpoints s)
    (vertex_labels s) (f (label_to_vids s)) (vertex_label_overwrites s) (vertex_labels_before s) (vertex_label_versions s) (edge_types s)
    (current_version s) (mutation_count s) (mutation_stats s) (wal s) (wal_lsn_at_flush s) (wal_lsn_at_start s) (unpublished_bulk_at_rotation s)
    (vertex_created_at s) (vertex_updated_at s) (edge_created_at s) (edge_updated_at s) (estimated_size s) (constraint_index s)
    (constraint_keys_by_vid s) (merge_guard_index s) (merge_keys_by_vid s) (edge_constraint_index s) (edge_keys_by_eid s) (extid_index s)
    (statement_depth s) (statement_write_admitted s) (statement_created_vertices s) (statement_created_edges s) (statement_tracks_created s)
    (created_edges s) (created_vertices s) (edge_identity_memo s) (pending_embeddings s) (occ_read_seq s) (validated_schema_version s) (occ_read_set
    s).
Definition set_vertex_label_overwrites {G V : Type} (f : (gset Z) -> (gset Z)) (s : L0Buffer G V) : L0Buffer G V :=
  mkL0
    (graph s) (tombstones s) (vertex_tombstones s) (edge_versions s) (vertex_versions s) (edge_properties s) (vertex_properties s) (edge_endpoints s)
    (vertex_labels s) (label_to_vids s) (f (vertex_label_overwrites s)) (vertex_labels_before s) (vertex_label_versions s) (edge_types s)
    (current_version s) (mutation_count s) (mutation_stats s) (wal s) (wal_lsn_at_flush s) (wal_lsn_at_start s) (unpublished_bulk_at_rotation s)
    (vertex_created_at s) (vertex_updated_at s) (edge_created_at s) (edge_updated_at s) (estimated_size s) (constraint_index s)
    (constraint_keys_by_vid s) (merge_guard_index s) (merge_keys_by_vid s) (edge_constraint_index s) (edge_keys_by_eid s) (extid_index s)
    (statement_depth s) (statement_write_admitted s) (statement_created_vertices s) (statement_created_edges s) (statement_tracks_created s)
    (created_edges s) (created_vertices s) (edge_identity_memo s) (pending_embeddings s) (occ_read_seq s) (validated_schema_version s) (occ_read_set
    s).
Definition set_vertex_labels_before {G V : Type} (f : (gmap Z (list string)) -> (gmap Z (list string))) (s : L0Buffer G V) : L0Buffer G V :=
  mkL0
    (graph s) (tombstones s) (vertex_tombstones s) (edge_versions s) (vertex_versions s) (edge_properties s) (vertex_properties s) (edge_endpoints s)
    (vertex_labels s) (label_to_vids s) (vertex_label_overwrites s) (f (vertex_labels_before s)) (vertex_label_versions s) (edge_types s)
    (current_version s) (mutation_count s) (mutation_stats s) (wal s) (wal_lsn_at_flush s) (wal_lsn_at_start s) (unpublished_bulk_at_rotation s)
    (vertex_created_at s) (vertex_updated_at s) (edge_created_at s) (edge_updated_at s) (estimated_size s) (constraint_index s)
    (constraint_keys_by_vid s) (merge_guard_index s) (merge_keys_by_vid s) (edge_constraint_index s) (edge_keys_by_eid s) (extid_index s)
    (statement_depth s) (statement_write_admitted s) (statement_created_vertices s) (statement_created_edges s) (statement_tracks_created s)
    (created_edges s) (created_vertices s) (edge_identity_memo s) (pending_embeddings s) (occ_read_seq s) (validated_schema_version s) (occ_read_set
    s).
Definition set_vertex_label_versions {G V : Type} (f : (gmap Z Z) -> (gmap Z Z)) (s : L0Buffer G V) : L0Buffer G V :=
  mkL0
    (graph s) (tombstones s) (vertex_tombstones s) (edge_versions s) (vertex_versions s) (edge_properties s) (vertex_properties s) (edge_endpoints s)
    (vertex_labels s) (label_to_vids s) (vertex_label_overwrites s) (vertex_labels_before s) (f (vertex_label_versions s)) (edge_types s)
    (current_version s) (mutation_count s) (mutation_stats s) (wal s) (wal_lsn_at_flush s) (wal_lsn_at_start s) (unpublished_bulk_at_rotation s)
    (vertex_created_at s) (vertex_updated_at s) (edge_created_at s) (edge_updated_at s) (estimated_size s) (constraint_index s)
    (constraint_keys_by_vid s) (merge_guard_index s) (merge_keys_by_vid s) (edge_constraint_index s) (edge_keys_by_eid s) (extid_index s)
    (statement_depth s) (statement_write_admitted s) (statement_created_vertices s) (statement_created_edges s) (statement_tracks_created s)
    (created_edges s) (created_vertices s) (edge_identity_memo s) (pending_embeddings s) (occ_read_seq s) (validated_schema_version s) (occ_read_set
    s).
Definition set_edge_types {G V : Type} (f : (gmap Z string) -> (gmap Z string)) (s : L0Buffer G V) : L0Buffer G V :=
  mkL0
    (graph s) (tombstones s) (vertex_tombstones s) (edge_versions s) (vertex_versions s) (edge_properties s) (vertex_properties s) (edge_endpoints s)
    (vertex_labels s) (label_to_vids s) (vertex_label_overwrites s) (vertex_labels_before s) (vertex_label_versions s) (f (edge_types s))
    (current_version s) (mutation_count s) (mutation_stats s) (wal s) (wal_lsn_at_flush s) (wal_lsn_at_start s) (unpublished_bulk_at_rotation s)
    (vertex_created_at s) (vertex_updated_at s) (edge_created_at s) (edge_updated_at s) (estimated_size s) (constraint_index s)
    (constraint_keys_by_vid s) (merge_guard_index s) (merge_keys_by_vid s) (edge_constraint_index s) (edge_keys_by_eid s) (extid_index s)
    (statement_depth s) (statement_write_admitted s) (statement_created_vertices s) (statement_created_edges s) (statement_tracks_created s)
    (created_edges s) (created_vertices s) (edge_identity_memo s) (pending_embeddings s) (occ_read_seq s) (validated_schema_version s) (occ_read_set
    s).
Definition set_current_version {G V : Type} (f : Z -> Z) (s : L0Buffer G V) : L0Buffer G V :=
  mkL0
    (graph s) (tombstones s) (vertex_tombstones s) (edge_versions s) (vertex_versions s) (edge_properties s) (vertex_properties s) (edge_endpoints s)
    (vertex_labels s) (label_to_vids s) (vertex_label_overwrites s) (vertex_labels_before s) (vertex_label_versions s) (edge_types s) (f
    (current_version s)) (mutation_count s) (mutation_stats s) (wal s) (wal_lsn_at_flush s) (wal_lsn_at_start s) (unpublished_bulk_at_rotation s)
    (vertex_created_at s) (vertex_updated_at s) (edge_created_at s) (edge_updated_at s) (estimated_size s) (constraint_index s)
    (constraint_keys_by_vid s) (merge_guard_index s) (merge_keys_by_vid s) (edge_constraint_index s) (edge_keys_by_eid s) (extid_index s)
    (statement_depth s) (statement_write_admitted s) (statement_created_vertices s) (statement_created_edges s) (statement_tracks_created s)
    (created_edges s) (created_vertices s) (edge_identity_memo s) (pending_embeddings s) (occ_read_seq s) (validated_schema_version s) (occ_read_set
    s).
Definition set_mutation_count {G V : Type} (f : Z -> Z) (s : L0Buffer G V) : L0Buffer G V :=
  mkL0
    (graph s) (tombstones s) (vertex_tombstones s) (edge_versions s) (vertex_versions s) (edge_properties s) (vertex_properties s) (edge_endpoints s)
    (vertex_labels s) (label_to_vids s) (vertex_label_overwrites s) (vertex_labels_before s) (vertex_label_versions s) (edge_types s) (current_version
    s) (f (mutation_count s)) (mutation_stats s) (wal s) (wal_lsn_at_flush s) (wal_lsn_at_start s) (unpublished_bulk_at_rotation s) (vertex_created_at
    s) (vertex_updated_at s) (edge_created_at s) (edge_updated_at s) (estimated_size s) (constraint_index s) (constraint_keys_by_vid s)
    (merge_guard_index s) (merge_keys_by_vid s) (edge_constraint_index s) (edge_keys_by_eid s) (extid_index s) (statement_depth s)
    (statement_write_admitted s) (statement_created_vertices s) (statement_created_edges s) (statement_tracks_created s) (created_edges s)
    (created_vertices s) (edge_identity_memo s) (pending_embeddings s) (occ_read_seq s) (validated_schema_version s) (occ_read_set s).
Definition set_mutation_stats {G V : Type} (f : MutationStats -> MutationStats) (s : L0Buffer G V) : L0Buffer G V :=
  mkL0
    (graph s) (tombstones s) (vertex_tombstones s) (edge_versions s) (vertex_versions s) (edge_properties s) (vertex_properties s) (edge_endpoints s)
    (vertex_labels s) (label_to_vids s) (vertex_label_overwrites s) (vertex_labels_before s) (vertex_label_versions s) (edge_types s) (current_version
    s) (mutation_count s) (f (mutation_stats s)) (wal s) (wal_lsn_at_flush s) (wal_lsn_at_start s) (unpublished_bulk_at_rotation s) (vertex_created_at
    s) (vertex_updated_at s) (edge_created_at s) (edge_updated_at s) (estimated_size s) (constraint_index s) (constraint_keys_by_vid s)
    (merge_guard_index s) (merge_keys_by_vid s) (edge_constraint_index s) (edge_keys_by_eid s) (extid_index s) (statement_depth s)
    (statement_write_admitted s) (statement_created_vertices s) (statement_created_edges s) (statement_tracks_created s) (created_edges s)
    (created_vertices s) (edge_identity_memo s) (pending_embeddings s) (occ_read_seq s) (validated_schema_version s) (occ_read_set s).
Definition set_wal {G V : Type} (f : (option (Wal V)) -> (option (Wal V))) (s : L0Buffer G V) : L0Buffer G V :=
  mkL0
    (graph s) (tombstones s) (vertex_tombstones s) (edge_versions s) (vertex_versions s) (edge_properties s) (vertex_properties s) (edge_endpoints s)
    (vertex_labels s) (label_to_vids s) (vertex_label_overwrites s) (vertex_labels_before s) (vertex_label_versions s) (edge_types s) (current_version
    s) (mutation_count s) (mutation_stats s) (f (wal s)) (wal_lsn_at_flush s) (wal_lsn_at_start s) (unpublished_bulk_at_rotation s) (vertex_created_at
    s) (vertex_updated_at s) (edge_created_at s) (edge_updated_at s) (estimated_size s) (constraint_index s) (constraint_keys_by_vid s)
    (merge_guard_index s) (merge_keys_by_vid s) (edge_constraint_index s) (edge_keys_by_eid s) (extid_index s) (statement_depth s)
    (statement_write_admitted s) (statement_created_vertices s) (statement_created_edges s) (statement_tracks_created s) (created_edges s)
    (created_vertices s) (edge_identity_memo s) (pending_embeddings s) (occ_read_seq s) (validated_schema_version s) (occ_read_set s).
Definition set_vertex_created_at {G V : Type} (f : (gmap Z Z) -> (gmap Z Z)) (s : L0Buffer G V) : L0Buffer G V :=
  mkL0
    (graph s) (tombstones s) (vertex_tombstones s) (edge_versions s) (vertex_versions s) (edge_properties s) (vertex_properties s) (edge_endpoints s)
    (vertex_labels s) (label_to_vids s) (vertex_label_overwrites s) (vertex_labels_before s) (vertex_label_versions s) (edge_types s) (current_version
    s) (mutation_count s) (mutation_stats s) (wal s) (wal_lsn_at_flush s) (wal_lsn_at_start s) (unpublished_bulk_at_rotation s) (f (vertex_created_at
    s)) (vertex_updated_at s) (edge_created_at s) (edge_updated_at s) (estimated_size s) (constraint_index s) (constraint_keys_by_vid s)
    (merge_guard_index s) (merge_keys_by_vid s) (edge_constraint_index s) (edge_keys_by_eid s) (extid_index s) (statement_depth s)
    (statement_write_admitted s) (statement_created_vertices s) (statement_created_edges s) (statement_tracks_created s) (created_edges s)
    (created_vertices s) (edge_identity_memo s) (pending_embeddings s) (occ_read_seq s) (validated_schema_version s) (occ_read_set s).
Definition set_vertex_updated_at {G V : Type} (f : (gmap Z Z) -> (gmap Z Z)) (s : L0Buffer G V) : L0Buffer G V :=
  mkL0
    (graph s) (tombstones s) (vertex_tombstones s) (edge_versions s) (vertex_versions s) (edge_properties s) (vertex_properties s) (edge_endpoints s)
    (vertex_labels s) (label_to_vids s) (vertex_label_overwrites s) (vertex_labels_before s) (vertex_label_versions s) (edge_types s) (current_version
    s) (mutation_count s) (mutation_stats s) (wal s) (wal_lsn_at_flush s) (wal_lsn_at_start s) (unpublished_bulk_at_rotation s) (vertex_created_at s)
    (f (vertex_updated_at s)) (edge_created_at s) (edge_updated_at s) (estimated_size s) (constraint_index s) (constraint_keys_by_vid s)
    (merge_guard_index s) (merge_keys_by_vid s) (edge_constraint_index s) (edge_keys_by_eid s) (extid_index s) (statement_depth s)
    (statement_write_admitted s) (statement_created_vertices s) (statement_created_edges s) (statement_tracks_created s) (created_edges s)
    (created_vertices s) (edge_identity_memo s) (pending_embeddings s) (occ_read_seq s) (validated_schema_version s) (occ_read_set s).
Definition set_edge_created_at {G V : Type} (f : (gmap Z Z) -> (gmap Z Z)) (s : L0Buffer G V) : L0Buffer G V :=
  mkL0
    (graph s) (tombstones s) (vertex_tombstones s) (edge_versions s) (vertex_versions s) (edge_properties s) (vertex_properties s) (edge_endpoints s)
    (vertex_labels s) (label_to_vids s) (vertex_label_overwrites s) (vertex_labels_before s) (vertex_label_versions s) (edge_types s) (current_version
    s) (mutation_count s) (mutation_stats s) (wal s) (wal_lsn_at_flush s) (wal_lsn_at_start s) (unpublished_bulk_at_rotation s) (vertex_created_at s)
    (vertex_updated_at s) (f (edge_created_at s)) (edge_updated_at s) (estimated_size s) (constraint_index s) (constraint_keys_by_vid s)
    (merge_guard_index s) (merge_keys_by_vid s) (edge_constraint_index s) (edge_keys_by_eid s) (extid_index s) (statement_depth s)
    (statement_write_admitted s) (statement_created_vertices s) (statement_created_edges s) (statement_tracks_created s) (created_edges s)
    (created_vertices s) (edge_identity_memo s) (pending_embeddings s) (occ_read_seq s) (validated_schema_version s) (occ_read_set s).
Definition set_edge_updated_at {G V : Type} (f : (gmap Z Z) -> (gmap Z Z)) (s : L0Buffer G V) : L0Buffer G V :=
  mkL0
    (graph s) (tombstones s) (vertex_tombstones s) (edge_versions s) (vertex_versions s) (edge_properties s) (vertex_properties s) (edge_endpoints s)
    (vertex_labels s) (label_to_vids s) (vertex_label_overwrites s) (vertex_labels_before s) (vertex_label_versions s) (edge_types s) (current_version
    s) (mutation_count s) (mutation_stats s) (wal s) (wal_lsn_at_flush s) (wal_lsn_at_start s) (unpublished_bulk_at_rotation s) (vertex_created_at s)
    (vertex_updated_at s) (edge_created_at s) (f (edge_updated_at s)) (estimated_size s) (constraint_index s) (constraint_keys_by_vid s)
    (merge_guard_index s) (merge_keys_by_vid s) (edge_constraint_index s) (edge_keys_by_eid s) (extid_index s) (statement_depth s)
    (statement_write_admitted s) (statement_created_vertices s) (statement_created_edges s) (statement_tracks_created s) (created_edges s)
    (created_vertices s) (edge_identity_memo s) (pending_embeddings s) (occ_read_seq s) (validated_schema_version s) (occ_read_set s).
Definition set_estimated_size {G V : Type} (f : Z -> Z) (s : L0Buffer G V) : L0Buffer G V :=
  mkL0
    (graph s) (tombstones s) (vertex_tombstones s) (edge_versions s) (vertex_versions s) (edge_properties s) (vertex_properties s) (edge_endpoints s)
    (vertex_labels s) (label_to_vids s) (vertex_label_overwrites s) (vertex_labels_before s) (vertex_label_versions s) (edge_types s) (current_version
    s) (mutation_count s) (mutation_stats s) (wal s) (wal_lsn_at_flush s) (wal_lsn_at_start s) (unpublished_bulk_at_rotation s) (vertex_created_at s)
    (vertex_updated_at s) (edge_created_at s) (edge_updated_at s) (f (estimated_size s)) (constraint_index s) (constraint_keys_by_vid s)
    (merge_guard_index s) (merge_keys_by_vid s) (edge_constraint_index s) (edge_keys_by_eid s) (extid_index s) (statement_depth s)
    (statement_write_admitted s) (statement_created_vertices s) (statement_created_edges s) (statement_tracks_created s) (created_edges s)
    (created_vertices s) (edge_identity_memo s) (pending_embeddings s) (occ_read_seq s) (validated_schema_version s) (occ_read_set s).
Definition set_constraint_index {G V : Type} (f : (gmap Key Z) -> (gmap Key Z)) (s : L0Buffer G V) : L0Buffer G V :=
  mkL0
    (graph s) (tombstones s) (vertex_tombstones s) (edge_versions s) (vertex_versions s) (edge_properties s) (vertex_properties s) (edge_endpoints s)
    (vertex_labels s) (label_to_vids s) (vertex_label_overwrites s) (vertex_labels_before s) (vertex_label_versions s) (edge_types s) (current_version
    s) (mutation_count s) (mutation_stats s) (wal s) (wal_lsn_at_flush s) (wal_lsn_at_start s) (unpublished_bulk_at_rotation s) (vertex_created_at s)
    (vertex_updated_at s) (edge_created_at s) (edge_updated_at s) (estimated_size s) (f (constraint_index s)) (constraint_keys_by_vid s)
    (merge_guard_index s) (merge_keys_by_vid s) (edge_constraint_index s) (edge_keys_by_eid s) (extid_index s) (statement_depth s)
    (statement_write_admitted s) (statement_created_vertices s) (statement_created_edges s) (statement_tracks_created s) (created_edges s)
    (created_vertices s) (edge_identity_memo s) (pending_embeddings s) (occ_read_seq s) (validated_schema_version s) (occ_read_set s).
Definition set_constraint_keys_by_vid {G V : Type} (f : (gmap Z (list Key)) -> (gmap Z (list Key))) (s : L0Buffer G V) : L0Buffer G V :=
  mkL0
    (graph s) (tombstones s) (vertex_tombstones s) (edge_versions s) (vertex_versions s) (edge_properties s) (vertex_properties s) (edge_endpoints s)
    (vertex_labels s) (label_to_vids s) (vertex_label_overwrites s) (vertex_labels_before s) (vertex_label_versions s) (edge_types s) (current_version
    s) (mutation_count s) (mutation_stats s) (wal s) (wal_lsn_at_flush s) (wal_lsn_at_start s) (unpublished_bulk_at_rotation s) (vertex_created_at s)
    (vertex_updated_at s) (edge_created_at s) (edge_updated_at s) (estimated_size s) (constraint_index s) (f (constraint_keys_by_vid s))
    (merge_guard_index s) (merge_keys_by_vid s) (edge_constraint_index s) (edge_keys_by_eid s) (extid_index s) (statement_depth s)
    (statement_write_admitted s) (statement_created_vertices s) (statement_created_edges s) (statement_tracks_created s) (created_edges s)
    (created_vertices s) (edge_identity_memo s) (pending_embeddings s) (occ_read_seq s) (validated_schema_version s) (occ_read_set s).
Definition set_merge_guard_index {G V : Type} (f : (gmap Key Z) -> (gmap Key Z)) (s : L0Buffer G V) : L0Buffer G V :=
  mkL0
    (graph s) (tombstones s) (vertex_tombstones s) (edge_versions s) (vertex_versions s) (edge_properties s) (vertex_properties s) (edge_endpoints s)
    (vertex_labels s) (label_to_vids s) (vertex_label_overwrites s) (vertex_labels_before s) (vertex_label_versions s) (edge_types s) (current_version
    s) (mutation_count s) (mutation_stats s) (wal s) (wal_lsn_at_flush s) (wal_lsn_at_start s) (unpublished_bulk_at_rotation s) (vertex_created_at s)
    (vertex_updated_at s) (edge_created_at s) (edge_updated_at s) (estimated_size s) (constraint_index s) (constraint_keys_by_vid s) (f
    (merge_guard_index s)) (merge_keys_by_vid s) (edge_constraint_index s) (edge_keys_by_eid s) (extid_index s) (statement_depth s)
    (statement_write_admitted s) (statement_created_vertices s) (statement_created_edges s) (statement_tracks_created s) (created_edges s)
    (created_vertices s) (edge_identity_memo s) (pending_embeddings s) (occ_read_seq s) (validated_schema_version s) (occ_read_set s).
Definition set_merge_keys_by_vid {G V : Type} (f : (gmap Z (list Key)) -> (gmap Z (list Key))) (s : L0Buffer G V) : L0Buffer G V :=
  mkL0
    (graph s) (tombstones s) (vertex_tombstones s) (edge_versions s) (vertex_versions s) (edge_properties s) (vertex_properties s) (edge_endpoints s)
    (vertex_labels s) (label_to_vids s) (vertex_label_overwrites s) (vertex_labels_before s) (vertex_label_versions s) (edge_types s) (current_version
    s) (mutation_count s) (mutation_stats s) (wal s) (wal_lsn_at_flush s) (wal_lsn_at_start s) (unpublished_bulk_at_rotation s) (vertex_created_at s)
    (vertex_updated_at s) (edge_created_at s) (edge_updated_at s) (estimated_size s) (constraint_index s) (constraint_keys_by_vid s)
    (merge_guard_index s) (f (merge_keys_by_vid s)) (edge_constraint_index s) (edge_keys_by_eid s) (extid_index s) (statement_depth s)
    (statement_write_admitted s) (statement_created_vertices s) (statement_created_edges s) (statement_tracks_created s) (created_edges s)
    (created_vertices s) (edge_identity_memo s) (pending_embeddings s) (occ_read_seq s) (validated_schema_version s) (occ_read_set s).
Definition set_edge_constraint_index {G V : Type} (f : (gmap Key Z) -> (gmap Key Z)) (s : L0Buffer G V) : L0Buffer G V :=
  mkL0
    (graph s) (tombstones s) (vertex_tombstones s) (edge_versions s) (vertex_versions s) (edge_properties s) (vertex_properties s) (edge_endpoints s)
    (vertex_labels s) (label_to_vids s) (vertex_label_overwrites s) (vertex_labels_before s) (vertex_label_versions s) (edge_types s) (current_version
    s) (mutation_count s) (mutation_stats s) (wal s) (wal_lsn_at_flush s) (wal_lsn_at_start s) (unpublished_bulk_at_rotation s) (vertex_created_at s)
    (vertex_updated_at s) (edge_created_at s) (edge_updated_at s) (estimated_size s) (constraint_index s) (constraint_keys_by_vid s)
    (merge_guard_index s) (merge_keys_by_vid s) (f (edge_constraint_index s)) (edge_keys_by_eid s) (extid_index s) (statement_depth s)
    (statement_write_admitted s) (statement_created_vertices s) (statement_created_edges s) (statement_tracks_created s) (created_edges s)
    (created_vertices s) (edge_identity_memo s) (pending_embeddings s) (occ_read_seq s) (validated_schema_version s) (occ_read_set s).
Definition set_edge_keys_by_eid {G V : Type} (f : (gmap Z (list Key)) -> (gmap Z (list Key))) (s : L0Buffer G V) : L0Buffer G V :=
  mkL0
    (graph s) (tombstones s) (vertex_tombstones s) (edge_versions s) (vertex_versions s) (edge_properties s) (vertex_properties s) (edge_endpoints s)
    (vertex_labels s) (label_to_vids s) (vertex_label_overwrites s) (vertex_labels_before s) (vertex_label_versions s) (edge_types s) (current_version
    s) (mutation_count s) (mutation_stats s) (wal s) (wal_lsn_at_flush s) (wal_lsn_at_start s) (unpublished_bulk_at_rotation s) (vertex_created_at s)
    (vertex_updated_at s) (edge_created_at s) (edge_updated_at s) (estimated_size s) (constraint_index s) (constraint_keys_by_vid s)
    (merge_guard_index s) (merge_keys_by_vid s) (edge_constraint_index s) (f (edge_keys_by_eid s)) (extid_index s) (statement_depth s)
    (statement_write_admitted s) (statement_created_vertices s) (statement_created_edges s) (statement_tracks_created s) (created_edges s)
    (created_vertices s) (edge_identity_memo s) (pending_embeddings s) (occ_read_seq s) (validated_schema_version s) (occ_read_set s).
Definition set_extid_index {G V : Type} (f : (gmap string Z) -> (gmap string Z)) (s : L0Buffer G V) : L0Buffer G V :=
  mkL0
    (graph s) (tombstones s) (vertex_tombstones s) (edge_versions s) (vertex_versions s) (edge_properties s) (vertex_properties s) (edge_endpoints s)
    (vertex_labels s) (label_to_vids s) (vertex_label_overwrites s) (vertex_labels_before s) (vertex_label_versions s) (edge_types s) (current_version
    s) (mutation_count s) (mutation_stats s) (wal s) (wal_lsn_at_flush s) (wal_lsn_at_start s) (unpublished_bulk_at_rotation s) (vertex_created_at s)
    (vertex_updated_at s) (edge_created_at s) (edge_updated_at s) (estimated_size s) (constraint_index s) (constraint_keys_by_vid s)
    (merge_guard_index s) (merge_keys_by_vid s) (edge_constraint_index s) (edge_keys_by_eid s) (f (extid_index s)) (statement_depth s)
    (statement_write_admitted s) (statement_created_vertices s) (statement_created_edges s) (statement_tracks_created s) (created_edges s)
    (created_vertices s) (edge_identity_memo s) (pending_embeddings s) (occ_read_seq s) (validated_schema_version s) (occ_read_set s).
Definition set_statement_depth {G V : Type} (f : Z -> Z) (s : L0Buffer G V) : L0Buffer G V :=
  mkL0
    (graph s) (tombstones s) (vertex_tombstones s) (edge_versions s) (vertex_versions s) (edge_properties s) (vertex_properties s) (edge_endpoints s)
    (vertex_labels s) (label_to_vids s) (vertex_label_overwrites s) (vertex_labels_before s) (vertex_label_versions s) (edge_types s) (current_version
    s) (mutation_count s) (mutation_stats s) (wal s) (wal_lsn_at_flush s) (wal_lsn_at_start s) (unpublished_bulk_at_rotation s) (vertex_created_at s)
    (vertex_updated_at s) (edge_created_at s) (edge_updated_at s) (estimated_size s) (constraint_index s) (constraint_keys_by_vid s)
    (merge_guard_index s) (merge_keys_by_vid s) (edge_constraint_index s) (edge_keys_by_eid s) (extid_index s) (f (statement_depth s))
    (statement_write_admitted s) (statement_created_vertices s) (statement_created_edges s) (statement_tracks_created s) (created_edges s)
    (created_vertices s) (edge_identity_memo s) (pending_embeddings s) (occ_read_seq s) (validated_schema_version s) (occ_read_set s).
Definition set_statement_write_admitted {G V : Type} (f : bool -> bool) (s : L0Buffer G V) : L0Buffer G V :=
  mkL0
    (graph s) (tombstones s) (vertex_tombstones s) (edge_versions s) (vertex_versions s) (edge_properties s) (vertex_properties s) (edge_endpoints s)
    (vertex_labels s) (label_to_vids s) (vertex_label_overwrites s) (vertex_labels_before s) (vertex_label_versions s) (edge_types s) (current_version
    s) (mutation_count s) (mutation_stats s) (wal s) (wal_lsn_at_flush s) (wal_lsn_at_start s) (unpublished_bulk_at_rotation s) (vertex_created_at s)
    (vertex_updated_at s) (edge_created_at s) (edge_updated_at s) (estimated_size s) (constraint_index s) (constraint_keys_by_vid s)
    (merge_guard_index s) (merge_keys_by_vid s) (edge_constraint_index s) (edge_keys_by_eid s) (extid_index s) (statement_depth s) (f
    (statement_write_admitted s)) (statement_created_vertices s) (statement_created_edges s) (statement_tracks_created s) (created_edges s)
    (created_vertices s) (edge_identity_memo s) (pending_embeddings s) (occ_read_seq s) (validated_schema_version s) (occ_read_set s).
Definition set_statement_created_vertices {G V : Type} (f : (gset Z) -> (gset Z)) (s : L0Buffer G V) : L0Buffer G V :=
  mkL0
    (graph s) (tombstones s) (vertex_tombstones s) (edge_versions s) (vertex_versions s) (edge_properties s) (vertex_properties s) (edge_endpoints s)
    (vertex_labels s) (label_to_vids s) (vertex_label_overwrites s) (vertex_labels_before s) (vertex_label_versions s) (edge_types s) (current_version
    s) (mutation_count s) (mutation_stats s) (wal s) (wal_lsn_at_flush s) (wal_lsn_at_start s) (unpublished_bulk_at_rotation s) (vertex_created_at s)
    (vertex_updated_at s) (edge_created_at s) (edge_updated_at s) (estimated_size s) (constraint_index s) (constraint_keys_by_vid s)
    (merge_guard_index s) (merge_keys_by_vid s) (edge_constraint_index s) (edge_keys_by_eid s) (extid_index s) (statement_depth s)
    (statement_write_admitted s) (f (statement_created_vertices s)) (statement_created_edges s) (statement_tracks_created s) (created_edges s)
    (created_vertices s) (edge_identity_memo s) (pending_embeddings s) (occ_read_seq s) (validated_schema_version s) (occ_read_set s).
Definition set_statement_created_edges {G V : Type} (f : (gset Z) -> (gset Z)) (s : L0Buffer G V) : L0Buffer G V :=
  mkL0
    (graph s) (tombstones s) (vertex_tombstones s) (edge_versions s) (vertex_versions s) (edge_properties s) (vertex_properties s) (edge_endpoints s)
    (vertex_labels s) (label_to_vids s) (vertex_label_overwrites s) (vertex_labels_before s) (vertex_label_versions s) (edge_types s) (current_version
    s) (mutation_count s) (mutation_stats s) (wal s) (wal_lsn_at_flush s) (wal_lsn_at_start s) (unpublished_bulk_at_rotation s) (vertex_created_at s)
    (vertex_updated_at s) (edge_created_at s) (edge_updated_at s) (estimated_size s) (constraint_index s) (constraint_keys_by_vid s)
    (merge_guard_index s) (merge_keys_by_vid s) (edge_constraint_index s) (edge_keys_by_eid s) (extid_index s) (statement_depth s)
    (statement_write_admitted s) (statement_created_vertices s) (f (statement_created_edges s)) (statement_tracks_created s) (created_edges s)
    (created_vertices s) (edge_identity_memo s) (pending_embeddings s) (occ_read_seq s) (validated_schema_version s) (occ_read_set s).
Definition set_statement_tracks_created {G V : Type} (f : bool -> bool) (s : L0Buffer G V) : L0Buffer G V :=
  mkL0
    (graph s) (tombstones s) (vertex_tombstones s) (edge_versions s) (vertex_versions s) (edge_properties s) (vertex_properties s) (edge_endpoints s)
    (vertex_labels s) (label_to_vids s) (vertex_label_overwrites s) (vertex_labels_before s) (vertex_label_versions s) (edge_types s) (current_version
    s) (mutation_count s) (mutation_stats s) (wal s) (wal_lsn_at_flush s) (wal_lsn_at_start s) (unpublished_bulk_at_rotation s) (vertex_created_at s)
    (vertex_updated_at s) (edge_created_at s) (edge_updated_at s) (estimated_size s) (constraint_index s) (constraint_keys_by_vid s)
    (merge_guard_index s) (merge_keys_by_vid s) (edge_constraint_index s) (edge_keys_by_eid s) (extid_index s) (statement_depth s)
    (statement_write_admitted s) (statement_created_vertices s) (statement_created_edges s) (f (statement_tracks_created s)) (created_edges s)
    (created_vertices s) (edge_identity_memo s) (pending_embeddings s) (occ_read_seq s) (validated_schema_version s) (occ_read_set s).
Definition set_created_edges {G V : Type} (f : (gset Z) -> (gset Z)) (s : L0Buffer G V) : L0Buffer G V :=
  mkL0
    (graph s) (tombstones s) (vertex_tombstones s) (edge_versions s) (vertex_versions s) (edge_properties s) (vertex_properties s) (edge_endpoints s)
    (vertex_labels s) (label_to_vids s) (vertex_label_overwrites s) (vertex_labels_before s) (vertex_label_versions s) (edge_types s) (current_version
    s) (mutation_count s) (mutation_stats s) (wal s) (wal_lsn_at_flush s) (wal_lsn_at_start s) (unpublished_bulk_at_rotation s) (vertex_created_at s)
    (vertex_updated_at s) (edge_created_at s) (edge_updated_at s) (estimated_size s) (constraint_index s) (constraint_keys_by_vid s)
    (merge_guard_index s) (merge_keys_by_vid s) (edge_constraint_index s) (edge_keys_by_eid s) (extid_index s) (statement_depth s)
    (statement_write_admitted s) (statement_created_vertices s) (statement_created_edges s) (statement_tracks_created s) (f (created_edges s))
    (created_vertices s) (edge_identity_memo s) (pending_embeddings s) (occ_read_seq s) (validated_schema_version s) (occ_read_set s).
Definition set_created_vertices {G V : Type} (f : (gset Z) -> (gset Z)) (s : L0Buffer G V) : L0Buffer G V :=
  mkL0
    (graph s) (tombstones s) (vertex_tombstones s) (edge_versions s) (vertex_versions s) (edge_properties s) (vertex_properties s) (edge_endpoints s)
    (vertex_labels s) (label_to_vids s) (vertex_label_overwrites s) (vertex_labels_before s) (vertex_label_versions s) (edge_types s) (current_version
    s) (mutation_count s) (mutation_stats s) (wal s) (wal_lsn_at_flush s) (wal_lsn_at_start s) (unpublished_bulk_at_rotation s) (vertex_created_at s)
    (vertex_updated_at s) (edge_created_at s) (edge_updated_at s) (estimated_size s) (constraint_index s) (constraint_keys_by_vid s)
    (merge_guard_index s) (merge_keys_by_vid s) (edge_constraint_index s) (edge_keys_by_eid s) (extid_index s) (statement_depth s)
    (statement_write_admitted s) (statement_created_vertices s) (statement_created_edges s) (statement_tracks_created s) (created_edges s) (f
    (created_vertices s)) (edge_identity_memo s) (pending_embeddings s) (occ_read_seq s) (validated_schema_version s) (occ_read_set s).
Definition set_edge_identity_memo {G V : Type} (f : EdgeIdentityMemo -> EdgeIdentityMemo) (s : L0Buffer G V) : L0Buffer G V :=
  mkL0
    (graph s) (tombstones s) (vertex_tombstones s) (edge_versions s) (vertex_versions s) (edge_properties s) (vertex_properties s) (edge_endpoints s)
    (vertex_labels s) (label_to_vids s) (vertex_label_overwrites s) (vertex_labels_before s) (vertex_label_versions s) (edge_types s) (current_version
    s) (mutation_count s) (mutation_stats s) (wal s) (wal_lsn_at_flush s) (wal_lsn_at_start s) (unpublished_bulk_at_rotation s) (vertex_created_at s)
    (vertex_updated_at s) (edge_created_at s) (edge_updated_at s) (estimated_size s) (constraint_index s) (constraint_keys_by_vid s)
    (merge_guard_index s) (merge_keys_by_vid s) (edge_constraint_index s) (edge_keys_by_eid s) (extid_index s) (statement_depth s)
    (statement_write_admitted s) (statement_created_vertices s) (statement_created_edges s) (statement_tracks_created s) (created_edges s)
    (created_vertices s) (f (edge_identity_memo s)) (pending_embeddings s) (occ_read_seq s) (validated_schema_version s) (occ_read_set s).
Definition set_occ_read_set {G V : Type} (f : (option OccReadSet) -> (option OccReadSet)) (s : L0Buffer G V) : L0Buffer G V :=
  mkL0
    (graph s) (tombstones s) (vertex_tombstones s) (edge_versions s) (vertex_versions s) (edge_properties s) (vertex_properties s) (edge_endpoints s)
    (vertex_labels s) (label_to_vids s) (vertex_label_overwrites s) (vertex_labels_before s) (vertex_label_versions s) (edge_types s)
    (current_version s) (mutation_count s) (mutation_stats s) (wal s) (wal_lsn_at_flush s) (wal_lsn_at_start s) (unpublished_bulk_at_rotation s)
    (vertex_created_at s) (vertex_updated_at s) (edge_created_at s) (edge_updated_at s) (estimated_size s) (constraint_index s)
    (constraint_keys_by_vid s) (merge_guard_index s) (merge_keys_by_vid s) (edge_constraint_index s) (edge_keys_by_eid s) (extid_index s)
    (statement_depth s) (statement_write_admitted s) (statement_created_vertices s) (statement_created_edges s) (statement_tracks_created s)
    (created_edges s) (created_vertices s) (edge_identity_memo s) (pending_embeddings s) (occ_read_seq s) (validated_schema_version s)
    (f (occ_read_set s)).
Definition set_wal_lsn_at_flush {G V : Type} (f : (Z) -> (Z)) (s : L0Buffer G V) : L0Buffer G V :=
  mkL0
    (graph s) (tombstones s) (vertex_tombstones s) (edge_versions s) (vertex_versions s) (edge_properties s) (vertex_properties s) (edge_endpoints s)
    (vertex_labels s) (label_to_vids s) (vertex_label_overwrites s) (vertex_labels_before s) (vertex_label_versions s) (edge_types s)
    (current_version s) (mutation_count s) (mutation_stats s) (wal s) (f (wal_lsn_at_flush s)) (wal_lsn_at_start s) (unpublished_bulk_at_rotation s)
    (vertex_created_at s) (vertex_updated_at s) (edge_created_at s) (edge_updated_at s) (estimated_size s) (constraint_index s)
    (constraint_keys_by_vid s) (merge_guard_index s) (merge_keys_by_vid s) (edge_constraint_index s) (edge_keys_by_eid s) (extid_index s)
    (statement_depth s) (statement_write_admitted s) (statement_created_vertices s) (statement_created_edges s) (statement_tracks_created s)
    (created_edges s) (created_vertices s) (edge_identity_memo s) (pending_embeddings s) (occ_read_seq s) (validated_schema_version s)
    (occ_read_set s).
Definition set_wal_lsn_at_start {G V : Type} (f : (Z) -> (Z)) (s : L0Buffer G V) : L0Buffer G V :=
  mkL0
    (graph s) (tombstones s) (vertex_tombstones s) (edge_versions s) (vertex_versions s) (edge_properties s) (vertex_properties s) (edge_endpoints s)
    (vertex_labels s) (label_to_vids s) (vertex_label_overwrites s) (vertex_labels_before s) (vertex_label_versions s) (edge_types s)
    (current_version s) (mutation_count s) (mutation_stats s) (wal s) (wal_lsn_at_flush s) (f (wal_lsn_at_start s)) (unpublished_bulk_at_rotation s)
    (vertex_created_at s) (vertex_updated_at s) (edge_created_at s) (edge_updated_at s) (estimated_size s) (constraint_index s)
    (constraint_keys_by_vid s) (merge_guard_index s) (merge_keys_by_vid s) (edge_constraint_index s) (edge_keys_by_eid s) (extid_index s)
    (statement_depth s) (statement_write_admitted s) (statement_created_vertices s) (statement_created_edges s) (statement_tracks_created s)
    (created_edges s) (created_vertices s) (edge_identity_memo s) (pending_embeddings s) (occ_read_seq s) (validated_schema_version s)
    (occ_read_set s).
Definition set_unpublished_bulk_at_rotation {G V : Type} (f : (list Z) -> (list Z)) (s : L0Buffer G V) : L0Buffer G V :=
  mkL0
    (graph s) (tombstones s) (vertex_tombstones s) (edge_versions s) (vertex_versions s) (edge_properties s) (vertex_properties s) (edge_endpoints s)
    (vertex_labels s) (label_to_vids s) (vertex_label_overwrites s) (vertex_labels_before s) (vertex_label_versions s) (edge_types s)
    (current_version s) (mutation_count s) (mutation_stats s) (wal s) (wal_lsn_at_flush s) (wal_lsn_at_start s) (f (unpublished_bulk_at_rotation s))
    (vertex_created_at s) (vertex_updated_at s) (edge_created_at s) (edge_updated_at s) (estimated_size s) (constraint_index s)
    (constraint_keys_by_vid s) (merge_guard_index s) (merge_keys_by_vid s) (edge_constraint_index s) (edge_keys_by_eid s) (extid_index s)
    (statement_depth s) (statement_write_admitted s) (statement_created_vertices s) (statement_created_edges s) (statement_tracks_created s)
    (created_edges s) (created_vertices s) (edge_identity_memo s) (pending_embeddings s) (occ_read_seq s) (validated_schema_version s)
    (occ_read_set s).
Definition set_pending_embeddings {G V : Type} (f : (gmap Z string) -> (gmap Z string)) (s : L0Buffer G V) : L0Buffer G V :=
  mkL0
    (graph s) (tombstones s) (vertex_tombstones s) (edge_versions s) (vertex_versions s) (edge_properties s) (vertex_properties s) (edge_endpoints s)
    (vertex_labels s) (label_to_vids s) (vertex_label_overwrites s) (vertex_labels_before s) (vertex_label_versions s) (edge_types s) (current_version
    s) (mutation_count s) (mutation_stats s) (wal s) (wal_lsn_at_flush s) (wal_lsn_at_start s) (unpublished_bulk_at_rotation s) (vertex_created_at s)
    (vertex_updated_at s) (edge_created_at s) (edge_updated_at s) (estimated_size s) (constraint_index s) (constraint_keys_by_vid s)
    (merge_guard_index s) (merge_keys_by_vid s) (edge_constraint_index s) (edge_keys_by_eid s) (extid_index s) (statement_depth s)
    (statement_write_admitted s) (statement_created_vertices s) (statement_created_edges s) (statement_tracks_created s) (created_edges s)
    (created_vertices s) (edge_identity_memo s) (f (pending_embeddings s)) (occ_read_seq s) (validated_schema_version s) (occ_read_set s).

(** Buffers that agree on every field are equal. *)
Lemma L0_ext {G V : Type} (a b : L0Buffer G V) :
  graph a = graph b -> tombstones a = tombstones b -> vertex_tombstones a = vertex_tombstones b
  -> edge_versions a = edge_versions b -> vertex_versions a = vertex_versions b ->
  edge_properties a = edge_properties b -> vertex_properties a = vertex_properties b ->
  edge_endpoints a = edge_endpoints b -> vertex_labels a = vertex_labels b -> label_to_vids a =
  label_to_vids b -> vertex_label_overwrites a = vertex_label_overwrites b ->
  vertex_labels_before a = vertex_labels_before b -> vertex_label_versions a =
  vertex_label_versions b -> edge_types a = edge_types b -> current_version a = current_version
  b -> mutation_count a = mutation_count b -> mutation_stats a = mutation_stats b -> wal a = wal
  b -> wal_lsn_at_flush a = wal_lsn_at_flush b -> wal_lsn_at_start a = wal_lsn_at_start b ->
  unpublished_bulk_at_rotation a = unpublished_bulk_at_rotation b -> vertex_created_at a =
  vertex_created_at b -> vertex_updated_at a = vertex_updated_at b -> edge_created_at a =
  edge_created_at b -> edge_updated_at a = edge_updated_at b -> estimated_size a =
  estimated_size b -> constraint_index a = constraint_index b -> constraint_keys_by_vid a =
  constraint_keys_by_vid b -> merge_guard_index a = merge_guard_index b -> merge_keys_by_vid a =
  merge_keys_by_vid b -> edge_constraint_index a = edge_constraint_index b -> edge_keys_by_eid a
  = edge_keys_by_eid b -> extid_index a = extid_index b -> statement_depth a = statement_depth b
  -> statement_write_admitted a = statement_write_admitted b -> statement_created_vertices a =
  statement_created_vertices b -> statement_created_edges a = statement_created_edges b ->
  statement_tracks_created a = statement_tracks_created b -> created_edges a = created_edges b
  -> created_vertices a = created_vertices b -> edge_identity_memo a = edge_identity_memo b ->
  pending_embeddings a = pending_embeddings b -> occ_read_seq a = occ_read_seq b ->
  validated_schema_version a = validated_schema_version b -> occ_read_set a = occ_read_set b -> a = b.
Proof. destruct a, b. simpl. intros. subst. reflexivity. Qed.
