(* ===== verification/L0.v ===== *)
(** * The L0 write buffer: operations

    crates/uni-store/src/runtime/l0.rs.  Every operation of [L0Buffer] is a
    state-passing function; operations that can fail return the state they
    leave behind with a [result].  The wall clock ([now_nanos]) is the
    argument [now]; the iteration order of hash sets and maps, where it can
    show, is [hash_order]. *)

From S2P Require Import Prelude Graph L0State.

Section l0.
  Context {G V C : Type} `{TG : Topology G} `{VV : Values V C} `{HO : HashOrder}.
  Implicit Types s other : L0Buffer G V.

(** ** Property values *)

Definition try_as_crdt (v : V) : option C :=
  if negb (is_map v) then None else crdt_from_value v.

Definition new (start_version : Z) (w : option (Wal V)) : L0Buffer G V :=
  mkL0 t_new ∅ ∅ ∅ ∅ ∅ ∅ ∅ ∅ ∅ ∅ ∅ ∅ ∅ start_version 0 MutationStats_default w 0 0 []
    ∅ ∅ ∅ ∅ 0 ∅ ∅ ∅ ∅ ∅ ∅ ∅ 0 false ∅ ∅ false ∅ ∅ EdgeIdentityMemo_default ∅ 0 None None.

(** [Clone]: forked buffers share neither the log, nor the statement scope,
    nor the memo and its charge, nor the read set. *)
Definition clone s : L0Buffer G V :=
  mkL0 (graph s) (tombstones s) (vertex_tombstones s) (edge_versions s) (vertex_versions s)
    (edge_properties s) (vertex_properties s) (edge_endpoints s) (vertex_labels s)
    (label_to_vids s) (vertex_label_overwrites s) (vertex_labels_before s)
    (vertex_label_versions s) (edge_types s) (current_version s) (mutation_count s)
    (mutation_stats s) None (wal_lsn_at_flush s) (wal_lsn_at_start s)
    (unpublished_bulk_at_rotation s) (vertex_created_at s) (vertex_updated_at s)
    (edge_created_at s) (edge_updated_at s)
    (saturating_sub (estimated_size s) (charged_bytes (edge_identity_memo s)))
    (constraint_index s) (constraint_keys_by_vid s) (merge_guard_index s) (merge_keys_by_vid s)
    (edge_constraint_index s) (edge_keys_by_eid s) (extid_index s)
    0 false ∅ ∅ false (created_edges s) (created_vertices s) EdgeIdentityMemo_default
    (pending_embeddings s) (occ_read_seq s) (validated_schema_version s) None.

(** ** Labels and external ids *)

Definition append_unique_labels (existing labels : list string) : list string :=
  foldl (fun ex l => if decide (l ∈ ex) then ex else ex ++ [l]) existing labels.

Definition index_label (vid : Z) (m : gmap string (gset Z)) (l : string) : gmap string (gset Z) :=
  <[l := {[vid]} ∪ default ∅ (m !! l)]> m.

Definition index_labels_for_vid s (vid : Z) (labels : list string) : L0Buffer G V :=
  set_label_to_vids (fun m => foldl (index_label vid) m labels) s.

Definition extid_of (props : Properties V) : option string := props !! "ext_id" ≫= as_str.

(** The index of external ids around a property write of [vid]. *)
Definition resync_extid (vid : Z) (old new : option string) (ix : gmap string Z) : gmap string Z :=
  if decide (old = new) then ix
  else
    let ix := match old with
              | Some o => if decide (ix !! o = Some vid) then delete o ix else ix
              | None => ix
              end in
    match new with
    | Some n => <[n := vid]> ix
    | None => ix
    end.

Definition sync_extid_index s (vid : Z) (old new : option string) : L0Buffer G V :=
  set_extid_index (resync_extid vid old new) s.

Definition add_vertex_labels s (vid : Z) (labels : list string) : L0Buffer G V :=
  let existing := default [] (vertex_labels s !! vid) in
  let s := set_vertex_labels <[vid := append_unique_labels existing labels]> s in
  index_labels_for_vid s vid labels.

Definition unindex_label (vid : Z) (m : gmap string (gset Z)) (l : string) : gmap string (gset Z) :=
  match m !! l with
  | Some set => <[l := set ∖ {[vid]}]> m
  | None => m
  end.

Definition remove_vid_from_label_index s (vid : Z) : L0Buffer G V :=
  set_label_to_vids (fun m =>
    match vertex_labels s !! vid with
    | Some labels => foldl (unindex_label vid) m labels
    | None => m
    end) s.

Definition set_vertex_labels s (vid : Z) (labels : list string) : L0Buffer G V :=
  let s := remove_vid_from_label_index s vid in
  let s := set_vertex_labels <[vid := labels]> s in
  let s := index_labels_for_vid s vid labels in
  let s := set_vertex_label_overwrites (fun o => {[vid]} ∪ o) s in
  let s := set_current_version (Z.add 1) s in
  let s := set_vertex_label_versions <[vid := current_version s]> s in
  set_mutation_count (Z.add 1) s.

(** [entry(k).or_insert(a)]. *)
Definition or_insert {A} (k : Z) (a : A) (m : gmap Z A) : gmap Z A :=
  match m !! k with Some _ => m | None => <[k := a]> m end.

Definition relabel_vertex s (vid : Z) (previous labels : list string) : L0Buffer G V :=
  set_vertex_labels (set_vertex_labels_before (or_insert vid previous) s) vid labels.

Definition vertex_write_version s (vid : Z) : Z :=
  Z.max (get_or_0 (vertex_versions s) vid) (get_or_0 (vertex_label_versions s) vid).

(** ** Property merge *)

(** One iteration of the loop of [merge_crdt_properties]. *)
Definition merge_property (entry : Properties V) (k : string) (v : V) : Properties V :=
  match try_as_crdt v, entry !! k ≫= crdt_from_value with
  | Some new_crdt, Some existing_crdt =>
      match crdt_merge new_crdt existing_crdt with
      | Some merged =>
          match crdt_to_value merged with
          | Some merged_json => <[k := merged_json]> entry
          | None => <[k := v]> entry
          end
      | None => <[k := v]> entry
      end
  | _, _ => <[k := v]> entry
  end.

Definition merge_crdt_properties (entry properties : Properties V) : Properties V :=
  if decide (entry = ∅) then properties else for_entries merge_property entry properties.

Definition estimate_properties_size (props : Properties V) : Z :=
  map_fold (fun k _ acc => Z.of_nat (String.length k) + 32 + acc) 0 props.

Definition labels_size (labels : list string) : Z :=
  foldr (fun l acc => Z.of_nat (String.length l) + 24 + acc) 0 labels.

(** ** Vertices *)

(** [let _ = wal.append(m)], a poisoned lock ignored. *)
Definition wal_log s (m : Mutation V) : L0Buffer G V :=
  set_wal (option_map (fun w => (wal_append w m).1)) s.

(** [wal.append(m)?] *)
Definition wal_try s (m : Mutation V) : L0Buffer G V * result L0Error unit :=
  match wal s with
  | None => (s, Ok tt)
  | Some w => let '(w', r) := wal_append w m in (set_wal (fun _ => Some w') s, r)
  end.

(** The property part of a vertex write: merge into the entry and keep the
    external-id index on the merged value (without an [ext_id] among the
    written properties both sides are [None] and the index is left alone). *)
Definition write_vertex_properties s (vid : Z) (properties : Properties V) : L0Buffer G V :=
  let tracks_extid := bool_decide (is_Some (properties !! "ext_id")) in
  let entry := default ∅ (vertex_properties s !! vid) in
  let old_extid := if tracks_extid then extid_of entry else None in
  let entry' := merge_crdt_properties entry properties in
  let new_extid := if tracks_extid then extid_of entry' else None in
  sync_extid_index (set_vertex_properties <[vid := entry']> s) vid old_extid new_extid.

Definition apply_vertex_write s (vid : Z) (properties : Properties V) (labels : list string)
    (version now : Z) : L0Buffer G V :=
  let s := set_vertex_tombstones (fun t => t ∖ {[vid]}) s in
  let props_size := estimate_properties_size properties in
  let s := write_vertex_properties s vid properties in
  let s := set_vertex_versions <[vid := version]> s in
  let s := set_vertex_created_at (or_insert vid now) s in
  let s := set_vertex_updated_at <[vid := now]> s in
  let s := add_vertex_labels s vid labels in
  let s := set_graph (fun g => t_add_vertex g vid) s in
  let s := set_mutation_count (Z.add 1) s in
  set_estimated_size (Z.add (8 + props_size + 16 + labels_size labels + 32)) s.

Definition insert_vertex_with_labels_impl s (vid : Z) (properties : Properties V)
    (labels : list string) (skip_wal : bool) (now : Z) : L0Buffer G V :=
  let s := set_current_version (Z.add 1) s in
  let version := current_version s in
  let s := if skip_wal then s
           else wal_log s (InsertVertex vid properties labels (Some now) (Some now)) in
  apply_vertex_write s vid properties labels version now.

(** Non-null values, for the side-effect counters. *)
Definition count_non_null (props : Properties V) : Z :=
  Z.of_nat (length (filter (fun kv => is_null kv.2 = false) (map_to_list props))).

Definition on_stats (f : MutationStats -> MutationStats) s : L0Buffer G V := set_mutation_stats f s.
Definition add_stats (d : MutationStats) (m : MutationStats) : MutationStats :=
  mkStats (nodes_created m + nodes_created d) (nodes_deleted m + nodes_deleted d)
    (relationships_created m + relationships_created d)
    (relationships_deleted m + relationships_deleted d)
    (properties_set m + properties_set d) (properties_removed m + properties_removed d)
    (labels_added m + labels_added d) (labels_removed m + labels_removed d).

Definition insert_vertex_with_labels s (vid : Z) (properties : Properties V)
    (labels : list string) (now : Z) : L0Buffer G V :=
  let props_count := count_non_null properties in
  let s := insert_vertex_with_labels_impl s vid properties labels false now in
  let s := on_stats (add_stats (mkStats 1 0 0 0 props_count 0 (Z.of_nat (length labels)) 0)) s in
  let s := if decide (vid ∈ created_vertices s) then s
           else set_estimated_size (Z.add 16) (set_created_vertices (fun c => {[vid]} ∪ c) s) in
  if (0 <? statement_depth s) && statement_tracks_created s
  then set_statement_created_vertices (fun c => {[vid]} ∪ c) s else s.

Definition insert_vertex s (vid : Z) (properties : Properties V) (now : Z) : L0Buffer G V :=
  insert_vertex_with_labels s vid properties [] now.

Definition update_vertex_with_labels s (vid : Z) (properties : Properties V)
    (labels : list string) (now : Z) : L0Buffer G V :=
  insert_vertex_with_labels_impl s vid properties labels false now.

(** ** Statement scopes and side-effect counters *)

Definition clear_statement (tracks : bool) s : L0Buffer G V :=
  let s := set_statement_write_admitted (fun _ => false) s in
  let s := set_statement_tracks_created (fun _ => tracks) s in
  let s := set_statement_created_vertices (fun _ => ∅) s in
  set_statement_created_edges (fun _ => ∅) s.

Definition begin_statement s (track_created : bool) : L0Buffer G V :=
  let s := if statement_depth s =? 0 then clear_statement track_created s else s in
  set_statement_depth (Z.add 1) s.

Definition end_statement s : L0Buffer G V :=
  let s := set_statement_depth (fun d => saturating_sub d 1) s in
  if statement_depth s =? 0 then clear_statement false s else s.

Definition write_admitted s : bool := (0 <? statement_depth s) && statement_write_admitted s.

Definition note_write_admitted s : L0Buffer G V :=
  if 0 <? statement_depth s then set_statement_write_admitted (fun _ => true) s else s.

Definition non_null (v : option V) : option V :=
  match v with
  | Some x => if is_null x then None else Some x
  | None => None
  end.

Definition record_property_effect s (entity : StatEntity) (old new : option V) : L0Buffer G V :=
  let old := non_null old in
  let new := non_null new in
  if decide (old = new) then s
  else
    let created := match entity with
                   | StatVertex vid => bool_decide (vid ∈ statement_created_vertices s)
                   | StatEdge eid => bool_decide (eid ∈ statement_created_edges s)
                   end in
    match old, new, created with
    | Some _, Some _, true => s
    | None, Some _, _ => on_stats (add_stats (mkStats 0 0 0 0 1 0 0 0)) s
    | Some _, None, true =>
        on_stats (fun m => mkStats (nodes_created m) (nodes_deleted m) (relationships_created m)
          (relationships_deleted m) (saturating_sub (properties_set m) 1) (properties_removed m)
          (labels_added m) (labels_removed m)) s
    | Some _, None, false => on_stats (add_stats (mkStats 0 0 0 0 0 1 0 0)) s
    | Some _, Some _, false => on_stats (add_stats (mkStats 0 0 0 0 1 1 0 0)) s
    | None, None, _ => s
    end.

Definition record_labels_added s (vid n : Z) : L0Buffer G V :=
  on_stats (add_stats (mkStats 0 0 0 0 0 0 n 0)) s.

Definition record_labels_removed s (vid n : Z) : L0Buffer G V :=
  if decide (vid ∈ statement_created_vertices s) then
    on_stats (fun m => mkStats (nodes_created m) (nodes_deleted m) (relationships_created m)
      (relationships_deleted m) (properties_set m) (properties_removed m)
      (saturating_sub (labels_added m) n) (labels_removed m)) s
  else on_stats (add_stats (mkStats 0 0 0 0 0 0 0 n)) s.

Definition holds_flushable_data s : bool :=
  (0 <? mutation_count s)
  || bool_decide (vertex_properties s <> ∅)
  || bool_decide (vertex_tombstones s <> ∅)
  || bool_decide (vertex_labels s <> ∅)
  || bool_decide (vertex_label_overwrites s <> ∅)
  || bool_decide (edge_endpoints s <> ∅)
  || bool_decide (tombstones s <> ∅).

(** [labels.iter().position(|l| l == label)], then [labels.remove(pos)]. *)
Definition remove_first (label : string) (labels : list string) : option (list string) :=
  match list_find (fun l => l = label) labels with
  | Some (pos, _) => Some (delete pos labels)
  | None => None
  end.

Definition remove_vertex_label s (vid : Z) (label : string) : L0Buffer G V * bool :=
  match vertex_labels s !! vid ≫= remove_first label with
  | Some labels =>
      let s := L0State.set_vertex_labels <[vid := labels]> s in
      let s := set_label_to_vids (fun m => unindex_label vid m label) s in
      let s := set_current_version (Z.add 1) s in
      let s := set_mutation_count (Z.add 1) s in
      (on_stats (add_stats (mkStats 0 0 0 0 0 0 0 1)) s, true)
  | None => (s, false)
  end.

Definition set_edge_type s (eid : Z) (edge_type : string) : L0Buffer G V :=
  set_edge_types <[eid := edge_type]> s.

(** ** Constraint keys *)

(** Stable sort by property name ([sort_by(|a, b| a.0.cmp(&b.0))]). *)
Fixpoint insert_by_name (x : string * V) (l : list (string * V)) : list (string * V) :=
  match l with
  | [] => [x]
  | y :: l => if String.leb x.1 y.1 then x :: y :: l else y :: insert_by_name x l
  end.
Definition sort_by_name (l : list (string * V)) : list (string * V) := foldr insert_by_name [] l.

Definition as_bytes (s : string) : list Z := (fun a => Z.of_N (Ascii.N_of_ascii a)) <$> String.list_ascii_of_string s.

Definition serialize_pair (kv : string * V) : list Z :=
  as_bytes kv.1 ++ [0] ++ json_bytes kv.2 ++ [0].

Definition serialize_constraint_key (label : string) (key_values : list (string * V)) : Key :=
  as_bytes label ++ [0] ++ concat (serialize_pair <$> sort_by_name key_values).

(** [key.split(|b| *b == 0)]. *)
Fixpoint split_nul (key : list Z) : list (list Z) :=
  match key with
  | [] => [[]]
  | b :: key =>
      if b =? 0 then [] :: split_nul key
      else match split_nul key with
           | part :: parts => (b :: part) :: parts
           | [] => [[b]]
           end
  end.

(** The label (part 0) and the names (odd parts), each with its separator. *)
Definition constraint_key_shape (key : Key) : Key :=
  concat (imap (fun i part => if decide (i = 0%nat) then part ++ [0]
                              else if Nat.odd i then part ++ [0] else [])
               (split_nul key)).

(** [if index.get(&key) == Some(&owner) { index.remove(&key) }]. *)
Definition release (owner : Z) (index : gmap Key Z) (key : Key) : gmap Key Z :=
  if decide (index !! key = Some owner) then delete key index else index.

Definition is_stale (key old : Key) : Prop :=
  old <> key /\ constraint_key_shape old = constraint_key_shape key.
#[export] Instance is_stale_dec key old : Decision (is_stale key old).
Proof. unfold is_stale; apply _. Defined.

(** [if !keys.contains(&key) { keys.push(key) }]. *)
Definition push_unique (key : Key) (keys : list Key) : list Key :=
  if decide (key ∈ keys) then keys else keys ++ [key].

Definition insert_constraint_key s (key : Key) (vid : Z) : L0Buffer G V :=
  let held := default [] (constraint_keys_by_vid s !! vid) in
  let retired := filter (fun old => is_stale key old) held in
  let held := push_unique key (filter (fun old => ~ is_stale key old) held) in
  let s := set_constraint_keys_by_vid <[vid := held]> s in
  let s := set_constraint_index (fun ix => foldl (release vid) ix retired) s in
  set_constraint_index <[key := vid]> s.

(** Whether another owner than [exclude] holds the key. *)
Definition held_by_other (index : gmap Key Z) (key : Key) (exclude : Z) : bool :=
  match index !! key with Some owner => negb (owner =? exclude) | None => false end.

Definition has_constraint_key s (key : Key) (exclude_vid : Z) : bool :=
  held_by_other (constraint_index s) key exclude_vid.

Definition retire_edge_constraint_keys s (eid : Z) : L0Buffer G V :=
  let keys := default [] (edge_keys_by_eid s !! eid) in
  let s := set_edge_keys_by_eid (delete eid) s in
  set_edge_constraint_index (fun ix => foldl (release eid) ix keys) s.

Definition insert_edge_constraint_key s (key : Key) (eid : Z) : L0Buffer G V :=
  let keys := push_unique key (default [] (edge_keys_by_eid s !! eid)) in
  let s := set_edge_keys_by_eid <[eid := keys]> s in
  set_edge_constraint_index <[key := eid]> s.

Definition has_edge_constraint_key s (key : Key) (exclude_eid : Z) : bool :=
  held_by_other (edge_constraint_index s) key exclude_eid.

Definition insert_merge_guard_key s (key : Key) (vid : Z) : L0Buffer G V :=
  let keys := push_unique key (default [] (merge_keys_by_vid s !! vid)) in
  let s := set_merge_keys_by_vid <[vid := keys]> s in
  set_merge_guard_index <[key := vid]> s.

Definition has_merge_guard_key s (key : Key) (exclude_vid : Z) : bool :=
  held_by_other (merge_guard_index s) key exclude_vid.

(** ** Deletion *)

(** Tombstones one incident edge and removes it everywhere else. *)
Definition tombstone_edge (version : Z) s (eid : Z) (e : Z * Z * Z) : L0Buffer G V :=
  let s := set_tombstones <[eid := mkTomb eid e.1.1 e.1.2 e.2]> s in
  let s := set_edge_versions <[eid := version]> s in
  let s := set_edge_endpoints (delete eid) s in
  let s := set_edge_properties (delete eid) s in
  let s := retire_edge_constraint_keys s eid in
  let s := set_graph (fun g => t_remove_edge g eid) s in
  let s := set_mutation_count (Z.add 1) s in
  on_stats (add_stats (mkStats 0 0 0 1 0 0 0 0)) s.

(** One iteration of the cascade of [apply_vertex_deletion]. *)
Definition cascade_edge (version : Z) (acc : L0Buffer G V * list TombstoneEntry) (eid : Z) :
    L0Buffer G V * list TombstoneEntry :=
  let '(s, cascaded) := acc in
  match edge_endpoints s !! eid with
  | None => (s, cascaded)
  | Some e => (tombstone_edge version s eid e, cascaded ++ [mkTomb eid e.1.1 e.1.2 e.2])
  end.

(** The ids of the edges that touch [vid] in the buffer's topology. *)
Definition incident_edges s (vid : Z) : gset Z :=
  list_to_set (eid <$> t_neighbors (graph s) vid Outgoing)
  ∪ list_to_set (eid <$> t_neighbors (graph s) vid Incoming).

(** Everything of a vertex deletion but its incident edges. *)
Definition drop_vertex s (vid version : Z) : L0Buffer G V :=
  let s := remove_vid_from_label_index s vid in
  let newly_deleted := bool_decide (vid ∉ vertex_tombstones s) in
  let s := set_vertex_tombstones (fun t => {[vid]} ∪ t) s in
  let ext := vertex_properties s !! vid ≫= extid_of in
  let s := set_extid_index (fun ix =>
             match ext with
             | Some e => if decide (ix !! e = Some vid) then delete e ix else ix
             | None => ix
             end) s in
  let s := set_vertex_properties (delete vid) s in
  let s := set_vertex_versions <[vid := version]> s in
  let s := set_graph (fun g => t_remove_vertex g vid) s in
  let s := set_mutation_count (Z.add 1) s in
  let s := on_stats (add_stats (mkStats 0 (if newly_deleted then 1 else 0) 0 0 0 0 0 0)) s in
  let keys := default [] (constraint_keys_by_vid s !! vid) in
  let s := set_constraint_keys_by_vid (delete vid) s in
  let s := set_constraint_index (fun ix => foldl (release vid) ix keys) s in
  let keys := default [] (merge_keys_by_vid s !! vid) in
  let s := set_merge_keys_by_vid (delete vid) s in
  set_merge_guard_index (fun ix => foldl (release vid) ix keys) s.

Definition apply_vertex_deletion s (vid : Z) : L0Buffer G V * list TombstoneEntry :=
  let version := current_version s in
  let edges_to_remove := incident_edges s vid in
  let '(s, cascaded) :=
    foldl (cascade_edge version) (s, []) (hash_order (elements edges_to_remove)) in
  let s := drop_vertex s vid version in
  (set_estimated_size (Z.add (Z.of_nat (size edges_to_remove) * 72 + 8)) s, cascaded).

Definition delete_vertex_impl s (vid : Z) (skip_wal : bool) :
    L0Buffer G V * result L0Error (list TombstoneEntry) :=
  let s := set_current_version (Z.add 1) s in
  match (if skip_wal then (s, Ok tt)
         else wal_try s (DeleteVertex vid (default [] (vertex_labels s !! vid)))) with
  | (s, Err e) => (s, Err e)
  | (s, Ok _) => let '(s, cascaded) := apply_vertex_deletion s vid in (s, Ok cascaded)
  end.

Definition delete_vertex s (vid : Z) : L0Buffer G V * result L0Error (list TombstoneEntry) :=
  delete_vertex_impl s vid false.

(** ** Edges *)

(** [if !graph.contains_vertex(v) { graph.add_vertex(v) }] *)
Definition ensure_vertex (g : G) (v : Z) : G :=
  if t_contains_vertex g v then g else t_add_vertex g v.

Definition apply_edge_insertion s (src_vid dst_vid edge_type eid : Z) (properties : Properties V) :
    L0Buffer G V * result L0Error unit :=
  let version := current_version s in
  if decide (src_vid ∈ vertex_tombstones s) then (s, Err (SourceDeleted src_vid))
  else if decide (dst_vid ∈ vertex_tombstones s) then (s, Err (DestinationDeleted dst_vid))
  else
    let s := set_graph (fun g => ensure_vertex g src_vid) s in
    let s := set_graph (fun g => ensure_vertex g dst_vid) s in
    let s := set_graph (fun g => t_add_edge g src_vid dst_vid eid edge_type) s in
    let props_size := estimate_properties_size properties in
    let s := set_edge_properties (fun m =>
               if decide (properties = ∅) then m
               else <[eid := merge_crdt_properties (default ∅ (m !! eid)) properties]> m) s in
    let s := set_edge_versions <[eid := version]> s in
    let s := set_edge_endpoints <[eid := (src_vid, dst_vid, edge_type)]> s in
    let s := set_tombstones (delete eid) s in
    let s := set_mutation_count (Z.add 1) s in
    (set_estimated_size (Z.add (24 + props_size + 16 + 28 + 32)) s, Ok tt).

Definition insert_edge_impl s (src_vid dst_vid edge_type eid : Z) (properties : Properties V)
    (edge_type_name : option string) (skip_wal : bool) (now : Z) :
    L0Buffer G V * result L0Error unit :=
  let s := set_current_version (Z.add 1) s in
  match (if skip_wal then (s, Ok tt)
         else wal_try s (InsertEdge src_vid dst_vid edge_type eid (current_version s) properties
                           edge_type_name (Some now) (Some now))) with
  | (s, Err e) => (s, Err e)
  | (s, Ok _) =>
      match apply_edge_insertion s src_vid dst_vid edge_type eid properties with
      | (s, Err e) => (s, Err e)
      | (s, Ok _) =>
          let type_name_size := match edge_type_name with
                                | Some name => Z.of_nat (String.length name) + 24
                                | None => 0
                                end in
          let s := match edge_type_name with
                   | Some name => set_edge_types <[eid := name]> s
                   | None => s
                   end in
          let s := set_edge_created_at (or_insert eid now) s in
          let s := set_edge_updated_at <[eid := now]> s in
          (set_estimated_size (Z.add type_name_size) s, Ok tt)
      end
  end.

Definition insert_edge s (src_vid dst_vid edge_type eid : Z) (properties : Properties V)
    (edge_type_name : option string) (now : Z) : L0Buffer G V * result L0Error unit :=
  let props_count := count_non_null properties in
  match insert_edge_impl s src_vid dst_vid edge_type eid properties edge_type_name false now with
  | (s, Err e) => (s, Err e)
  | (s, Ok _) =>
      let s := on_stats (add_stats (mkStats 0 0 1 0 props_count 0 0 0)) s in
      let s := if decide (eid ∈ created_edges s) then s
               else set_estimated_size (Z.add 16) (set_created_edges (fun c => {[eid]} ∪ c) s) in
      let s := if (0 <? statement_depth s) && statement_tracks_created s
               then set_statement_created_edges (fun c => {[eid]} ∪ c) s else s in
      (s, Ok tt)
  end.

Definition update_edge s (src_vid dst_vid edge_type eid : Z) (properties : Properties V)
    (edge_type_name : option string) (now : Z) : L0Buffer G V * result L0Error unit :=
  insert_edge_impl s src_vid dst_vid edge_type eid properties edge_type_name false now.

Definition apply_edge_deletion s (eid src_vid dst_vid edge_type : Z) : L0Buffer G V :=
  let version := current_version s in
  let newly_deleted := bool_decide (tombstones s !! eid = None) in
  let s := set_tombstones <[eid := mkTomb eid src_vid dst_vid edge_type]> s in
  let s := set_edge_versions <[eid := version]> s in
  let s := retire_edge_constraint_keys s eid in
  let s := set_graph (fun g => t_remove_edge g eid) s in
  let s := set_mutation_count (Z.add 1) s in
  let s := on_stats (add_stats (mkStats 0 0 0 (if newly_deleted then 1 else 0) 0 0 0 0)) s in
  set_estimated_size (Z.add 80) s.

Definition delete_edge_impl s (eid src_vid dst_vid edge_type : Z) (skip_wal : bool) (now : Z) :
    L0Buffer G V * result L0Error unit :=
  let s := set_current_version (Z.add 1) s in
  match (if skip_wal then (s, Ok tt)
         else wal_try s (DeleteEdge eid src_vid dst_vid edge_type (current_version s)
                           (edge_types s !! eid))) with
  | (s, Err e) => (s, Err e)
  | (s, Ok _) =>
      let s := apply_edge_deletion s eid src_vid dst_vid edge_type in
      (set_edge_updated_at <[eid := now]> s, Ok tt)
  end.

Definition delete_edge s (eid src_vid dst_vid edge_type : Z) (now : Z) :
    L0Buffer G V * result L0Error unit :=
  delete_edge_impl s eid src_vid dst_vid edge_type false now.

(** ** Reads *)

Definition is_tombstoned s (eid : Z) : bool := bool_decide (is_Some (tombstones s !! eid)).

Definition get_neighbors s (vid etype : Z) (direction : Direction) : list (Z * Z * Z) :=
  (fun e => (match direction with Outgoing => dst_vid e | Incoming => src_vid e end,
             eid e, get_or_0 (edge_versions s) (eid e)))
  <$> filter (fun e => edge_type e = etype /\ is_tombstoned s (eid e) = false)
        (t_neighbors (graph s) vid direction).

Definition vids_for_label s (label : string) : gset Z := default ∅ (label_to_vids s !! label).

Definition all_vertex_vids s : gset Z := dom (vertex_properties s).

Definition vids_for_labels s (labels : list string) : gset Z :=
  foldl (fun result l => default ∅ (label_to_vids s !! l) ∪ result) ∅ labels.

(** [min_by_key(|s| s.len())]: the first of the smallest sets. *)
Fixpoint smallest (best : gset Z) (sets : list (gset Z)) : gset Z :=
  match sets with
  | [] => best
  | x :: sets => smallest (if decide (size x < size best)%nat then x else best) sets
  end.

Definition vids_with_all_labels s (labels : list string) : gset Z :=
  match labels with
  | [] => ∅
  | _ =>
      match mapM (fun l => label_to_vids s !! l) labels with
      | None => ∅
      | Some [] => ∅
      | Some (x :: sets) =>
          filter (fun vid => Forall (fun set => vid ∈ set) (x :: sets)) (smallest x sets)
      end
  end.

Definition get_vertex_labels s (vid : Z) : option (list string) := vertex_labels s !! vid.
Definition get_edge_type s (eid : Z) : option string := edge_types s !! eid.
Definition eids_for_type s (type_name : string) : gset Z :=
  dom (filter (fun kv => kv.2 = type_name /\ tombstones s !! kv.1 = None) (edge_types s)).
Definition all_edge_eids s : gset Z :=
  filter (fun eid => tombstones s !! eid = None) (dom (edge_endpoints s)).
Definition get_edge_endpoints s (eid : Z) : option (Z * Z) := fst <$> edge_endpoints s !! eid.
Definition get_edge_endpoint_full s (eid : Z) : option (Z * Z * Z) := edge_endpoints s !! eid.

Definition zsize {K A} `{Countable K} (m : gmap K A) : Z := Z.of_nat (size m).

Definition size_bytes s : Z :=
  Z.of_nat (size (v_vertices (t_view (graph s)))) * 8
  + Z.of_nat (size (v_edges (t_view (graph s)))) * 24
  + map_fold (fun _ props acc => estimate_properties_size props + acc) 0 (vertex_properties s)
  + map_fold (fun _ props acc => estimate_properties_size props + acc) 0 (edge_properties s)
  + zsize (tombstones s) * 64
  + Z.of_nat (size (vertex_tombstones s)) * 8
  + zsize (edge_versions s) * 16
  + zsize (vertex_versions s) * 16
  + zsize (vertex_label_versions s) * 16
  + zsize (edge_endpoints s) * 28
  + map_fold (fun _ labels acc => labels_size labels + acc) 0 (vertex_labels s)
  + map_fold (fun label (vids : gset Z) acc =>
      Z.of_nat (String.length label) + 24 + Z.of_nat (size vids) * 8 + 48 + acc) 0 (label_to_vids s)
  + map_fold (fun _ name acc => Z.of_nat (String.length name) + 24 + acc) 0 (edge_types s)
  + zsize (vertex_created_at s) * 16
  + zsize (vertex_updated_at s) * 16
  + zsize (edge_created_at s) * 16
  + zsize (edge_updated_at s) * 16
  + zsize (identities (edge_identity_memo s)) * IDENTITY_BYTES
  + Z.of_nat (size (scanned (edge_identity_memo s))) * SCANNED_BYTES.

(** ** Merging a transaction's buffer *)

Definition is_deleted s other (vid : Z) : bool :=
  (bool_decide (vid ∈ vertex_tombstones s) || bool_decide (vid ∈ vertex_tombstones other))
  && bool_decide (vertex_properties other !! vid = None).

Definition validate_edge s other (_ : unit) (e : Z * (Z * Z * Z)) : unit * result L0Error unit :=
  let '(eid, (src_vid, dst_vid, _)) := e in
  (tt, if is_tombstoned other eid then Ok tt
       else if is_deleted s other src_vid then Err (MergeSourceDeleted eid src_vid)
       else if is_deleted s other dst_vid then Err (MergeDestinationDeleted eid dst_vid)
       else Ok tt).

Definition validate_merge_edge_endpoints s other : result L0Error unit :=
  (try_for (validate_edge s other) tt (hash_order (map_to_list (edge_endpoints other)))).2.

(** [for &vid in &other.vertex_tombstones { cascaded.extend(self.delete_vertex_impl(vid, true)?) }] *)
Definition merge_deletion (acc : L0Buffer G V * list TombstoneEntry) (vid : Z) :
    (L0Buffer G V * list TombstoneEntry) * result L0Error unit :=
  let '(s, cascaded) := acc in
  match delete_vertex_impl s vid true with
  | (s, Ok l) => ((s, cascaded ++ l), Ok tt)
  | (s, Err e) => ((s, cascaded), Err e)
  end.

Definition merge_vertex other (now : Z) s (vp : Z * Properties V) : L0Buffer G V :=
  let labels := default [] (vertex_labels other !! vp.1) in
  insert_vertex_with_labels_impl s vp.1 vp.2 labels true now.

Definition merge_missing_labels s (vl : Z * list string) : L0Buffer G V :=
  match vertex_labels s !! vl.1 with
  | Some _ => s
  | None => index_labels_for_vid (L0State.set_vertex_labels <[vl.1 := vl.2]> s) vl.1 vl.2
  end.

Definition merge_label_overwrite other s (vid : Z) : L0Buffer G V :=
  if decide (vid ∈ vertex_tombstones other) then s
  else
    let labels := default [] (vertex_labels other !! vid) in
    let s := remove_vid_from_label_index s vid in
    let s := L0State.set_vertex_labels <[vid := labels]> s in
    let s := index_labels_for_vid s vid labels in
    let s := set_current_version (Z.add 1) s in
    let s := set_vertex_label_versions <[vid := current_version s]> s in
    set_vertex_label_overwrites (fun o => {[vid]} ∪ o) s.

Definition merge_edge other (now : Z) (acc : L0Buffer G V * gmap Z (Properties V))
    (e : Z * (Z * Z * Z)) : (L0Buffer G V * gmap Z (Properties V)) * result L0Error unit :=
  let '(s, edge_props) := acc in
  let '(eid, (src, dst, etype)) := e in
  if is_tombstoned other eid then
    let '(s, r) := delete_edge_impl s eid src dst etype true now in ((s, edge_props), r)
  else
    let props := default ∅ (edge_props !! eid) in
    let '(s, r) :=
      insert_edge_impl s src dst etype eid props (edge_types other !! eid) true now in
    ((s, delete eid edge_props), r).

Definition merge_tombstone other (now : Z) s (t : Z * TombstoneEntry) :
    L0Buffer G V * result L0Error unit :=
  match edge_endpoints other !! t.1 with
  | Some _ => (s, Ok tt)
  | None => delete_edge_impl s t.1 (t_src_vid t.2) (t_dst_vid t.2) (t_edge_type t.2) true now
  end.

(** The infallible tail of the merge: timestamps, size, indexes, embeddings. *)
Definition merge_metadata s other : L0Buffer G V :=
  let s := set_vertex_created_at (fun m => m ∪ vertex_created_at other) s in
  let s := set_vertex_updated_at (fun m => vertex_updated_at other ∪ m) s in
  let s := set_edge_created_at (fun m => m ∪ edge_created_at other) s in
  let s := set_edge_updated_at (fun m => edge_updated_at other ∪ m) s in
  let s := set_estimated_size
    (Z.add (saturating_sub (estimated_size other) (charged_bytes (edge_identity_memo other)))) s in
  let s := foldl (fun s kv => insert_constraint_key s kv.1 kv.2) s
             (hash_order (map_to_list (constraint_index other))) in
  let s := foldl (fun s kv => insert_merge_guard_key s kv.1 kv.2) s
             (hash_order (map_to_list (merge_guard_index other))) in
  let s := foldl (fun s kv => insert_edge_constraint_key s kv.1 kv.2) s
             (hash_order (map_to_list (edge_constraint_index other))) in
  set_pending_embeddings (fun m => pending_embeddings other ∪ m) s.

Definition merge_validated s other (vertex_props edge_props : gmap Z (Properties V)) (now : Z) :
    L0Buffer G V * result L0Error (list TombstoneEntry) :=
  match try_for merge_deletion (s, []) (hash_order (elements (vertex_tombstones other))) with
  | ((s, _), Err e) => (s, Err e)
  | ((s, cascaded), Ok _) =>
      let s := foldl (merge_vertex other now) s (hash_order (map_to_list vertex_props)) in
      let s := foldl merge_missing_labels s (hash_order (map_to_list (vertex_labels other))) in
      let s := foldl (merge_label_overwrite other) s
                 (hash_order (elements (vertex_label_overwrites other))) in
      match try_for (merge_edge other now) (s, edge_props)
              (hash_order (map_to_list (edge_endpoints other))) with
      | ((s, _), Err e) => (s, Err e)
      | ((s, _), Ok _) =>
          match try_for (merge_tombstone other now) s
                  (hash_order (map_to_list (tombstones other))) with
          | (s, Err e) => (s, Err e)
          | (s, Ok _) => (merge_metadata s other, Ok cascaded)
          end
      end
  end.

Definition merge s other (now : Z) : L0Buffer G V * result L0Error (list TombstoneEntry) :=
  match validate_merge_edge_endpoints s other with
  | Err e => (s, Err e)
  | Ok _ => merge_validated s other (vertex_properties other) (edge_properties other) now
  end.

(** The commit path: also returns [other] with its property maps taken. *)
Definition merge_take s other (now : Z) :
    L0Buffer G V * L0Buffer G V * result L0Error (list TombstoneEntry) :=
  match validate_merge_edge_endpoints s other with
  | Err e => (s, other, Err e)
  | Ok _ =>
      let vertex_props := vertex_properties other in
      let other := set_vertex_properties (fun _ => ∅) other in
      let edge_props := edge_properties other in
      let other := set_edge_properties (fun _ => ∅) other in
      let '(s, r) := merge_validated s other vertex_props edge_props now in
      (s, other, r)
  end.

(** ** Recovery *)

Definition replay_mutation s (m : Mutation V) : L0Buffer G V :=
  match m with
  | InsertVertex vid properties labels created_at updated_at =>
      let s := set_current_version (Z.add 1) s in
      let version := current_version s in
      let s := set_vertex_tombstones (fun t => t ∖ {[vid]}) s in
      let s := write_vertex_properties s vid properties in
      let s := set_vertex_versions <[vid := version]> s in
      let s := match created_at with
               | Some ts => set_vertex_created_at (or_insert vid ts) s | None => s end in
      let s := match updated_at with
               | Some ts => set_vertex_updated_at <[vid := ts]> s | None => s end in
      let s := set_graph (fun g => t_add_vertex g vid) s in
      let s := set_mutation_count (Z.add 1) s in
      add_vertex_labels s vid labels
  | DeleteVertex vid labels =>
      let s := set_current_version (Z.add 1) s in
      let s := match labels with [] => s | _ => add_vertex_labels s vid labels end in
      (apply_vertex_deletion s vid).1
  | SetVertexLabels vid labels =>
      let s := set_current_version (Z.add 1) s in
      let s := set_vertex_label_versions <[vid := current_version s]> s in
      let s := remove_vid_from_label_index s vid in
      let s := L0State.set_vertex_labels <[vid := labels]> s in
      let s := index_labels_for_vid s vid labels in
      let s := set_vertex_label_overwrites (fun o => {[vid]} ∪ o) s in
      set_mutation_count (Z.add 1) s
  | InsertEdge src_vid dst_vid edge_type eid _ properties edge_type_name created_at updated_at =>
      let s := set_current_version (Z.add 1) s in
      match apply_edge_insertion s src_vid dst_vid edge_type eid properties with
      | (s, Ok _) =>
          let s := match edge_type_name with
                   | Some name => set_edge_types <[eid := name]> s | None => s end in
          let s := match created_at with
                   | Some ts => set_edge_created_at (or_insert eid ts) s | None => s end in
          match updated_at with
          | Some ts => set_edge_updated_at <[eid := ts]> s | None => s end
      | (s, Err _) => s
      end
  | DeleteEdge eid src_vid dst_vid edge_type _ _ =>
      let s := set_current_version (Z.add 1) s in
      apply_edge_deletion s eid src_vid dst_vid edge_type
  end.

Definition replay_mutations s (mutations : list (Mutation V)) : L0Buffer G V * result L0Error unit :=
  (foldl replay_mutation s mutations, Ok tt).

End l0.
