(* ===== verification/L0Replay.v ===== *)
(** * Recovery of the L0 buffer from its write-ahead log

    [erase] forgets what a log replay is not meant to restore (counters that
    report work done by a caller, the size estimate, the statement scope, the
    log itself) and the order of adjacency lists.  The main theorem: replaying
    the records a buffer logged rebuilds the buffer, up to [erase]. *)

From S2P Require Import Prelude Graph L0State L0.

(** ** Erasure *)

Definition erase {G V} `{Topology G} (s : L0Buffer G V) : L0Buffer view V :=
  mkL0 (t_view (graph s)) (tombstones s) (vertex_tombstones s) (edge_versions s) (vertex_versions s)
    (edge_properties s) (vertex_properties s) (edge_endpoints s) (vertex_labels s)
    (label_to_vids s) (vertex_label_overwrites s) (vertex_labels_before s)
    (vertex_label_versions s) (edge_types s) (current_version s) (mutation_count s)
    MutationStats_default None (wal_lsn_at_flush s) (wal_lsn_at_start s)
    (unpublished_bulk_at_rotation s) (vertex_created_at s) (vertex_updated_at s)
    (edge_created_at s) ∅ 0
    (constraint_index s) (constraint_keys_by_vid s) (merge_guard_index s) (merge_keys_by_vid s)
    (edge_constraint_index s) (edge_keys_by_eid s) (extid_index s)
    0 false ∅ ∅ false ∅ ∅ EdgeIdentityMemo_default
    (pending_embeddings s) (occ_read_seq s) (validated_schema_version s) (occ_read_set s).

Section erasure.
  Context {G V C : Type} `{TG : Topology G} `{VV : Values V C}.
  Implicit Types s : L0Buffer G V.

Lemma erase_idem s : erase (erase s) = erase s.
Proof. done. Qed.

Lemma erase_set_graph s f f' :
  (forall g, t_view (f g) = f' (t_view g)) -> erase (set_graph f s) = set_graph f' (erase s).
Proof. intros Hf. unfold erase, set_graph. simpl. by rewrite Hf. Qed.

Lemma erase_add_vertex s v :
  erase (set_graph (fun g => t_add_vertex g v) s) = set_graph (fun w => t_add_vertex w v) (erase s).
Proof. apply erase_set_graph. intros. apply t_add_vertex_view. Qed.
Lemma erase_ensure_vertex s v :
  erase (set_graph (fun g => ensure_vertex g v) s) = set_graph (fun w => ensure_vertex w v) (erase s).
Proof.
  apply erase_set_graph. intros g. unfold ensure_vertex, t_contains_vertex.
  change (t_view (t_view g)) with (t_view g).
  case_bool_decide; [done|apply t_add_vertex_view].
Qed.
Lemma erase_remove_vertex s v :
  erase (set_graph (fun g => t_remove_vertex g v) s) = set_graph (fun w => t_remove_vertex w v) (erase s).
Proof. apply erase_set_graph. intros. apply t_remove_vertex_view. Qed.
Lemma erase_add_edge s a b k t :
  erase (set_graph (fun g => t_add_edge g a b k t) s) = set_graph (fun w => t_add_edge w a b k t) (erase s).
Proof. apply erase_set_graph. intros. apply t_add_edge_view. Qed.
Lemma erase_remove_edge s k :
  erase (set_graph (fun g => t_remove_edge g k) s) = set_graph (fun w => t_remove_edge w k) (erase s).
Proof. apply erase_set_graph. intros. apply t_remove_edge_view. Qed.

(** Assignments to kept fields commute with erasure; the others vanish. *)
Lemma erase_tombstones s f : erase (L0State.set_tombstones f s) = L0State.set_tombstones f (erase s).
Proof. done. Qed.
Lemma erase_vertex_tombstones s f : erase (L0State.set_vertex_tombstones f s) = L0State.set_vertex_tombstones f (erase s).
Proof. done. Qed.
Lemma erase_edge_versions s f : erase (L0State.set_edge_versions f s) = L0State.set_edge_versions f (erase s).
Proof. done. Qed.
Lemma erase_vertex_versions s f : erase (L0State.set_vertex_versions f s) = L0State.set_vertex_versions f (erase s).
Proof. done. Qed.
Lemma erase_edge_properties s f : erase (L0State.set_edge_properties f s) = L0State.set_edge_properties f (erase s).
Proof. done. Qed.
Lemma erase_vertex_properties s f : erase (L0State.set_vertex_properties f s) = L0State.set_vertex_properties f (erase s).
Proof. done. Qed.
Lemma erase_edge_endpoints s f : erase (L0State.set_edge_endpoints f s) = L0State.set_edge_endpoints f (erase s).
Proof. done. Qed.
Lemma erase_vertex_labels s f : erase (L0State.set_vertex_labels f s) = L0State.set_vertex_labels f (erase s).
Proof. done. Qed.
Lemma erase_label_to_vids s f : erase (L0State.set_label_to_vids f s) = L0State.set_label_to_vids f (erase s).
Proof. done. Qed.
Lemma erase_vertex_label_overwrites s f : erase (L0State.set_vertex_label_overwrites f s) = L0State.set_vertex_label_overwrites f (erase s).
Proof. done. Qed.
Lemma erase_vertex_label_versions s f : erase (L0State.set_vertex_label_versions f s) = L0State.set_vertex_label_versions f (erase s).
Proof. done. Qed.
Lemma erase_edge_types s f : erase (L0State.set_edge_types f s) = L0State.set_edge_types f (erase s).
Proof. done. Qed.
Lemma erase_current_version s f : erase (L0State.set_current_version f s) = L0State.set_current_version f (erase s).
Proof. done. Qed.
Lemma erase_mutation_count s f : erase (L0State.set_mutation_count f s) = L0State.set_mutation_count f (erase s).
Proof. done. Qed.
Lemma erase_vertex_created_at s f : erase (L0State.set_vertex_created_at f s) = L0State.set_vertex_created_at f (erase s).
Proof. done. Qed.
Lemma erase_vertex_updated_at s f : erase (L0State.set_vertex_updated_at f s) = L0State.set_vertex_updated_at f (erase s).
Proof. done. Qed.
Lemma erase_edge_created_at s f : erase (L0State.set_edge_created_at f s) = L0State.set_edge_created_at f (erase s).
Proof. done. Qed.
Lemma erase_constraint_index s f : erase (L0State.set_constraint_index f s) = L0State.set_constraint_index f (erase s).
Proof. done. Qed.
Lemma erase_constraint_keys_by_vid s f : erase (L0State.set_constraint_keys_by_vid f s) = L0State.set_constraint_keys_by_vid f (erase s).
Proof. done. Qed.
Lemma erase_merge_guard_index s f : erase (L0State.set_merge_guard_index f s) = L0State.set_merge_guard_index f (erase s).
Proof. done. Qed.
Lemma erase_merge_keys_by_vid s f : erase (L0State.set_merge_keys_by_vid f s) = L0State.set_merge_keys_by_vid f (erase s).
Proof. done. Qed.
Lemma erase_edge_constraint_index s f : erase (L0State.set_edge_constraint_index f s) = L0State.set_edge_constraint_index f (erase s).
Proof. done. Qed.
Lemma erase_edge_keys_by_eid s f : erase (L0State.set_edge_keys_by_eid f s) = L0State.set_edge_keys_by_eid f (erase s).
Proof. done. Qed.
Lemma erase_extid_index s f : erase (L0State.set_extid_index f s) = L0State.set_extid_index f (erase s).
Proof. done. Qed.
Lemma erase_mutation_stats s f : erase (set_mutation_stats f s) = erase s.
Proof. done. Qed.
Lemma erase_wal s f : erase (set_wal f s) = erase s.
Proof. done. Qed.
Lemma erase_edge_updated_at s f : erase (set_edge_updated_at f s) = erase s.
Proof. done. Qed.
Lemma erase_estimated_size s f : erase (set_estimated_size f s) = erase s.
Proof. done. Qed.
Lemma erase_statement_depth s f : erase (set_statement_depth f s) = erase s.
Proof. done. Qed.
Lemma erase_statement_write_admitted s f : erase (set_statement_write_admitted f s) = erase s.
Proof. done. Qed.
Lemma erase_statement_created_vertices s f : erase (set_statement_created_vertices f s) = erase s.
Proof. done. Qed.
Lemma erase_statement_created_edges s f : erase (set_statement_created_edges f s) = erase s.
Proof. done. Qed.
Lemma erase_statement_tracks_created s f : erase (set_statement_tracks_created f s) = erase s.
Proof. done. Qed.
Lemma erase_created_edges s f : erase (set_created_edges f s) = erase s.
Proof. done. Qed.
Lemma erase_created_vertices s f : erase (set_created_vertices f s) = erase s.
Proof. done. Qed.

Lemma erase_on_stats s f : erase (on_stats f s) = erase s.
Proof. done. Qed.

Lemma erase_sync_extid s vid o n :
  erase (sync_extid_index s vid o n) = sync_extid_index (erase s) vid o n.
Proof. done. Qed.

Lemma erase_write_properties s vid p :
  erase (write_vertex_properties s vid p) = write_vertex_properties (erase s) vid p.
Proof. done. Qed.

Lemma erase_unindex s vid :
  erase (remove_vid_from_label_index s vid) = remove_vid_from_label_index (erase s) vid.
Proof. done. Qed.

Lemma erase_add_labels s vid ls : erase (add_vertex_labels s vid ls) = add_vertex_labels (erase s) vid ls.
Proof. done. Qed.

Lemma erase_retire s k : erase (retire_edge_constraint_keys s k) = retire_edge_constraint_keys (erase s) k.
Proof. done. Qed.

Lemma incident_erase s vid : incident_edges s vid = incident_edges (erase s) vid.
Proof.
  apply set_eq. intros k. unfold incident_edges.
  rewrite !elem_of_union, !elem_of_list_to_set, !list_elem_of_fmap.
  setoid_rewrite t_neighbors_view. done.
Qed.

End erasure.

Create Rewrite HintDb erase.
#[export] Hint Rewrite @erase_add_vertex @erase_ensure_vertex @erase_remove_vertex @erase_add_edge @erase_remove_edge
  @erase_tombstones @erase_vertex_tombstones @erase_edge_versions @erase_vertex_versions
  @erase_edge_properties @erase_vertex_properties @erase_edge_endpoints @erase_vertex_labels
  @erase_label_to_vids @erase_vertex_label_overwrites @erase_vertex_label_versions
  @erase_edge_types @erase_current_version @erase_mutation_count @erase_vertex_created_at
  @erase_vertex_updated_at @erase_edge_created_at @erase_constraint_index
  @erase_constraint_keys_by_vid @erase_merge_guard_index @erase_merge_keys_by_vid
  @erase_edge_constraint_index @erase_edge_keys_by_eid @erase_extid_index @erase_mutation_stats
  @erase_wal @erase_edge_updated_at @erase_estimated_size @erase_statement_depth
  @erase_statement_write_admitted @erase_statement_created_vertices
  @erase_statement_created_edges @erase_statement_tracks_created @erase_created_edges
  @erase_created_vertices @erase_write_properties @erase_unindex @erase_add_labels @erase_retire @erase_on_stats
  : erase.

Ltac erase_simpl := autorewrite with erase; try done.

Section erase_ops.
  Context {G V C : Type} `{TG : Topology G} `{VV : Values V C} `{HO : HashOrder}.
  Implicit Types s : L0Buffer G V.

Lemma erase_apply_vertex_write s vid p ls v now :
  erase (apply_vertex_write s vid p ls v now) = erase (apply_vertex_write (erase s) vid p ls v now).
Proof. unfold apply_vertex_write. by autorewrite with erase. Qed.

Lemma erase_apply_edge_deletion s k a b t :
  erase (apply_edge_deletion s k a b t) = erase (apply_edge_deletion (erase s) k a b t).
Proof. unfold apply_edge_deletion. by autorewrite with erase. Qed.

Lemma erase_drop_vertex s vid v : erase (drop_vertex s vid v) = erase (drop_vertex (erase s) vid v).
Proof. unfold drop_vertex. by autorewrite with erase. Qed.

(** The state side of the cascade. *)
Definition cascade_state v s (k : Z) : L0Buffer G V :=
  match edge_endpoints s !! k with None => s | Some e => tombstone_edge v s k e end.

Lemma cascade_fold_state v l s c :
  (foldl (cascade_edge v) (s, c) l).1 = foldl (cascade_state v) s l.
Proof.
  revert s c. induction l as [|k l IH]; intros s c; [done|]. cbn [foldl].
  unfold cascade_edge at 2, cascade_state at 2. destruct (edge_endpoints s !! k); apply IH.
Qed.

Lemma deletion_state s vid :
  (apply_vertex_deletion s vid).1 =
    set_estimated_size (Z.add (Z.of_nat (size (incident_edges s vid)) * 72 + 8))
      (drop_vertex (foldl (cascade_state (current_version s)) s
                      (hash_order (elements (incident_edges s vid)))) vid (current_version s)).
Proof.
  unfold apply_vertex_deletion. rewrite <- (cascade_fold_state _ _ _ []).
  by destruct (foldl (cascade_edge _) _ _).
Qed.

End erase_ops.

Section erase_ops2.
  Context {G V C : Type} `{TG : Topology G} `{VV : Values V C} `{HO : HashOrder}.
  Implicit Types s : L0Buffer G V.

Lemma erase_cascade_state v s k : erase (cascade_state v s k) = erase (cascade_state v (erase s) k).
Proof.
  unfold cascade_state. change (edge_endpoints (erase s)) with (edge_endpoints s).
  destruct (edge_endpoints s !! k); [|done]. unfold tombstone_edge. by autorewrite with erase.
Qed.

Lemma apply_edge_insertion_erase s a b t k p :
  erase (apply_edge_insertion s a b t k p).1 = erase (apply_edge_insertion (erase s) a b t k p).1
  /\ (apply_edge_insertion s a b t k p).2 = (apply_edge_insertion (erase s) a b t k p).2.
Proof.
  unfold apply_edge_insertion. change (vertex_tombstones (erase s)) with (vertex_tombstones s).
  case_decide; [done|]. case_decide; [done|]. split; [|done]. cbn [fst]. by autorewrite with erase.
Qed.

End erase_ops2.

(** Cascading over two edges commutes. *)
Section cascade_order.
  Context {V C : Type} `{VV : Values V C}.
  Implicit Types s : L0Buffer view V.

Lemma release_comm j k : forall kj kk (ix : gmap Key Z), j <> k ->
  foldl (release k) (foldl (release j) ix kj) kk = foldl (release j) (foldl (release k) ix kk) kj.
Proof.
  assert (H1 : forall (ix : gmap Key Z) x y, j <> k ->
    release k (release j ix x) y = release j (release k ix y) x).
  { intros ix x y Hne. unfold release. repeat case_decide; simplify_map_eq; try done; try congruence;
    destruct (decide (x = y)); simplify_map_eq; try done; try congruence; by rewrite delete_delete. }
  assert (H2 : forall kk (ix : gmap Key Z) x, j <> k ->
    foldl (release k) (release j ix x) kk = release j (foldl (release k) ix kk) x).
  { induction kk as [|y kk IH]; intros ix x Hne; [done|]. simpl. rewrite H1 by done. by rewrite IH. }
  induction kj as [|x kj IH]; intros kk ix Hne; [done|]. simpl. rewrite IH by done. by rewrite H2.
Qed.

Lemma tombstone_comm v s j k e e' :
  j <> k ->
  tombstone_edge v (tombstone_edge v s j e) k e' = tombstone_edge v (tombstone_edge v s k e') j e.
Proof.
  intros Hne. apply L0_ext; try reflexivity; cbn.
  - by rewrite delete_delete.
  - by rewrite insert_insert_ne.
  - by rewrite insert_insert_ne.
  - by rewrite delete_delete.
  - by rewrite delete_delete.
  - rewrite !lookup_delete_ne by done. by apply release_comm.
  - by rewrite delete_delete.
Qed.

Lemma cascade_comm v s j k :
  cascade_state v (cascade_state v s j) k = cascade_state v (cascade_state v s k) j.
Proof.
  destruct (decide (j = k)) as [->|Hne]; [done|].
  assert (Hlook : forall i l, i <> l -> edge_endpoints (cascade_state v s i) !! l = edge_endpoints s !! l).
  { intros i l Hil. unfold cascade_state. destruct (edge_endpoints s !! i); [|done].
    cbn. by rewrite lookup_delete_ne. }
  unfold cascade_state at 1 3. rewrite !Hlook by done. unfold cascade_state.
  destruct (edge_endpoints s !! j), (edge_endpoints s !! k); try done. by apply tombstone_comm.
Qed.

(** The order in which the hash set of incident edges is walked is immaterial. *)
Lemma cascade_perm v l l' s :
  l ≡ₚ l' -> foldl (cascade_state v) s l = foldl (cascade_state v) s l'.
Proof.
  intros Hp. revert s. induction Hp; intros s; cbn [foldl]; auto.
  - by rewrite cascade_comm.
  - by rewrite IHHp1.
Qed.
End cascade_order.

(** ** Vertex deletion, up to erasure *)

Section deletion.
  Context {G1 G2 V C : Type} `{TG1 : Topology G1} `{TG2 : Topology G2} `{VV : Values V C}.
  Context (ho1 ho2 : HashOrder).

Lemma cascade_congr v l : forall (s1 : L0Buffer G1 V) (s2 : L0Buffer G2 V),
  erase s1 = erase s2 ->
  erase (foldl (cascade_state v) s1 l) = erase (foldl (cascade_state v) s2 l).
Proof.
  induction l as [|k l IH]; intros s1 s2 Hs; [done|]. cbn [foldl]. apply IH.
  rewrite (erase_cascade_state _ s1), (erase_cascade_state _ s2). by rewrite Hs.
Qed.

Lemma incident_congr (s1 : L0Buffer G1 V) (s2 : L0Buffer G2 V) vid :
  erase s1 = erase s2 -> incident_edges s1 vid = incident_edges s2 vid.
Proof. intros Hs. rewrite (incident_erase s1), (incident_erase s2). by rewrite Hs. Qed.
End deletion.

Section deletion2.
  Context {G1 G2 V C : Type} `{TG1 : Topology G1} `{TG2 : Topology G2} `{VV : Values V C}.
  Context (ho1 ho2 : HashOrder).

Lemma cascade_any_order v l1 l2 (s1 : L0Buffer G1 V) (s2 : L0Buffer G2 V) :
  erase s1 = erase s2 -> l1 ≡ₚ l2 ->
  erase (foldl (cascade_state v) s1 l1) = erase (foldl (cascade_state v) s2 l2).
Proof.
  intros Hs Hl. rewrite (cascade_congr v l1 s1 (erase s1) (eq_sym (erase_idem s1))).
  rewrite (cascade_congr v l2 s2 (erase s2) (eq_sym (erase_idem s2))), <- Hs. by rewrite (cascade_perm _ _ _ _ Hl).
Qed.

(** A deletion gives the same durable state on any topology and in any
    iteration order. *)
Lemma deletion_congr (s1 : L0Buffer G1 V) (s2 : L0Buffer G2 V) vid :
  erase s1 = erase s2 ->
  erase (apply_vertex_deletion (HO := ho1) s1 vid).1 = erase (apply_vertex_deletion (HO := ho2) s2 vid).1.
Proof.
  intros Hs. rewrite !deletion_state.
  rewrite !erase_estimated_size, (erase_drop_vertex (foldl _ s1 _)), (erase_drop_vertex (foldl _ s2 _)).
  rewrite (incident_congr s1 s2 vid Hs).
  change (current_version s1) with (current_version (erase s1)).
  change (current_version s2) with (current_version (erase s2)). rewrite Hs.
  f_equal. f_equal. apply cascade_any_order; [exact Hs|]. by rewrite !hash_order_perm.
Qed.
End deletion2.

(** ** Label index *)

Definition labels_indexed {G V} (s : L0Buffer G V) : Prop :=
  forall vid ls l, vertex_labels s !! vid = Some ls -> l ∈ ls -> is_Some (label_to_vids s !! l).

Section labels.
  Context {G V C : Type} `{TG : Topology G} `{VV : Values V C} `{HO : HashOrder}.
  Implicit Types s : L0Buffer G V.

Lemma index_labels_lookup vid ls (m : gmap string (gset Z)) l :
  foldl (index_label vid) m ls !! l =
    if decide (l ∈ ls) then Some ({[vid]} ∪ default ∅ (m !! l)) else m !! l.
Proof.
  revert m. induction ls as [|x ls IH]; intros m; [done|]. cbn [foldl]. rewrite IH.
  unfold index_label. rewrite lookup_insert.
  destruct (decide (x = l)) as [->|Hne].
  - rewrite (decide_True (P := l ∈ l :: ls)) by (by left). case_decide; [|done]. simpl. f_equal. set_solver.
  - destruct (decide (l ∈ ls)), (decide (l ∈ x :: ls)); try done; set_solver.
Qed.

Lemma unindex_labels_lookup vid ls (m : gmap string (gset Z)) l :
  foldl (unindex_label vid) m ls !! l =
    if decide (l ∈ ls) then (fun set => set ∖ {[vid]}) <$> m !! l else m !! l.
Proof.
  revert m. induction ls as [|x ls IH]; intros m; [done|]. cbn [foldl]. rewrite IH.
  assert (Hu : unindex_label vid m x !! l
    = if decide (x = l) then (fun set => set ∖ {[vid]}) <$> m !! l else m !! l).
  { clear IH. unfold unindex_label. destruct (decide (x = l)) as [->|].
    - destruct (m !! l) eqn:E; [by rewrite lookup_insert_eq|by rewrite E].
    - destruct (m !! x); [by rewrite lookup_insert_ne|done]. }
  rewrite Hu. destruct (decide (x = l)) as [->|Hne].
  - rewrite (decide_True (P := l ∈ l :: ls)) by (by left). case_decide; [|done].
    destruct (m !! l); [|done]. simpl. f_equal. set_solver.
  - destruct (decide (l ∈ ls)), (decide (l ∈ x :: ls)); try done; set_solver.
Qed.

Lemma unindex_index vid ls (m : gmap string (gset Z)) :
  (forall l, l ∈ ls -> is_Some (m !! l)) ->
  foldl (unindex_label vid) (foldl (index_label vid) m ls) ls = foldl (unindex_label vid) m ls.
Proof.
  intros Hall. apply map_eq. intros l. rewrite !unindex_labels_lookup, !index_labels_lookup.
  case_decide as Hl; [|done]. destruct (Hall l Hl) as [set ->]. simpl. f_equal. set_solver.
Qed.

Lemma append_unique_incl ex ls :
  (forall l, l ∈ ls -> l ∈ ex) -> append_unique_labels ex ls = ex.
Proof.
  unfold append_unique_labels. induction ls as [|x ls IH]; intros Hin; [done|]. cbn [foldl].
  rewrite decide_True by (apply Hin; by left). apply IH. intros. apply Hin. by right.
Qed.

Lemma elem_of_append_unique ex ls l : l ∈ append_unique_labels ex ls <-> l ∈ ex \/ l ∈ ls.
Proof.
  unfold append_unique_labels. revert ex. induction ls as [|x ls IH]; intros ex; cbn [foldl].
  { set_solver. }
  rewrite IH. case_decide; set_solver.
Qed.
End labels.
