(* ===== verification/L0Recovery.v ===== *)
(** * Replaying the log rebuilds the buffer

    A run is any sequence of the buffer's logging writes and of the
    operations that only move counters.  [logged] is what each appends to the
    write-ahead log; [recovery_rebuilds_buffer] replays the log of a run into
    a fresh buffer, on any topology and with any hash iteration order, and
    obtains the buffer the run left behind, up to [erase]. *)

From S2P Require Import Prelude Graph L0State L0 L0Replay.

Inductive live_op (V : Type) :=
| LInsertVertex (vid : Z) (properties : Properties V) (labels : list string) (now : Z)
| LUpdateVertex (vid : Z) (properties : Properties V) (labels : list string) (now : Z)
| LDeleteVertex (vid : Z)
| LInsertEdge (src_vid dst_vid edge_type eid : Z) (properties : Properties V)
    (edge_type_name : option string) (now : Z)
| LUpdateEdge (src_vid dst_vid edge_type eid : Z) (properties : Properties V)
    (edge_type_name : option string) (now : Z)
| LDeleteEdge (eid src_vid dst_vid edge_type now : Z)
| LBeginStatement (track_created : bool)
| LEndStatement
| LNoteWriteAdmitted
| LPropertyEffect (entity : StatEntity) (old new : option V)
| LLabelsAdded (vid n : Z)
| LLabelsRemoved (vid n : Z).
Arguments LInsertVertex {V}.
Arguments LUpdateVertex {V}.
Arguments LDeleteVertex {V}.
Arguments LInsertEdge {V}.
Arguments LUpdateEdge {V}.
Arguments LDeleteEdge {V}.
Arguments LBeginStatement {V}.
Arguments LEndStatement {V}.
Arguments LNoteWriteAdmitted {V}.
Arguments LPropertyEffect {V}.
Arguments LLabelsAdded {V}.
Arguments LLabelsRemoved {V}.

Section run.
  Context {G V C : Type} `{TG : Topology G} `{VV : Values V C} `{HO : HashOrder}.
  Implicit Types s : L0Buffer G V.

Definition run_live s (o : live_op V) : L0Buffer G V :=
  match o with
  | LInsertVertex vid p ls now => insert_vertex_with_labels s vid p ls now
  | LUpdateVertex vid p ls now => update_vertex_with_labels s vid p ls now
  | LDeleteVertex vid => (delete_vertex s vid).1
  | LInsertEdge a b t k p name now => (insert_edge s a b t k p name now).1
  | LUpdateEdge a b t k p name now => (update_edge s a b t k p name now).1
  | LDeleteEdge k a b t now => (delete_edge s k a b t now).1
  | LBeginStatement track => begin_statement s track
  | LEndStatement => end_statement s
  | LNoteWriteAdmitted => note_write_admitted s
  | LPropertyEffect entity old new => record_property_effect s entity old new
  | LLabelsAdded vid n => record_labels_added s vid n
  | LLabelsRemoved vid n => record_labels_removed s vid n
  end.

(** The records an operation appends to the log. *)
Definition logged s (o : live_op V) : list (Mutation V) :=
  match o with
  | LInsertVertex vid p ls now | LUpdateVertex vid p ls now =>
      [InsertVertex vid p ls (Some now) (Some now)]
  | LDeleteVertex vid => [DeleteVertex vid (default [] (vertex_labels s !! vid))]
  | LInsertEdge a b t k p name now | LUpdateEdge a b t k p name now =>
      [InsertEdge a b t k (1 + current_version s) p name (Some now) (Some now)]
  | LDeleteEdge k a b t _ => [DeleteEdge k a b t (1 + current_version s) (edge_types s !! k)]
  | _ => []
  end.

(** ** The log *)

Lemma wal_cascade v l s : wal (foldl (cascade_state v) s l) = wal s.
Proof.
  revert s. induction l as [|k l IH]; intros s; [done|]. cbn [foldl]. rewrite IH.
  unfold cascade_state. by destruct (edge_endpoints s !! k).
Qed.

Lemma wal_deletion s vid : wal (apply_vertex_deletion s vid).1 = wal s.
Proof. rewrite deletion_state. cbn. apply wal_cascade. Qed.

Lemma wal_edge_insertion s a b t k p : wal (apply_edge_insertion s a b t k p).1 = wal s.
Proof. unfold apply_edge_insertion. by repeat case_decide. Qed.

Lemma wal_insert_edge_impl s a b t k p name now ms :
  wal s = Some (mkWal ms false) ->
  wal (insert_edge_impl s a b t k p name false now).1
  = Some (mkWal (ms ++ [InsertEdge a b t k (1 + current_version s) p name (Some now) (Some now)]) false).
Proof.
  intros Hw. unfold insert_edge_impl, wal_try. change (wal (set_current_version _ s)) with (wal s).
  rewrite Hw. cbn [wal_append poisoned buffer].
  set (s1 := set_wal _ _).
  pose proof (wal_edge_insertion s1 a b t k p) as Hi.
  destruct (apply_edge_insertion s1 a b t k p) as [s2 [[]|e]]; cbn [fst] in *.
  - by destruct name.
  - done.
Qed.

Lemma wal_vertex_write s vid p ls v now : wal (apply_vertex_write s vid p ls v now) = wal s.
Proof. done. Qed.

Lemma wal_insert_vertex_impl s vid p ls now ms :
  wal s = Some (mkWal ms false) ->
  wal (insert_vertex_with_labels_impl s vid p ls false now)
  = Some (mkWal (ms ++ [InsertVertex vid p ls (Some now) (Some now)]) false).
Proof.
  intros Hw. unfold insert_vertex_with_labels_impl. rewrite wal_vertex_write. cbn. by rewrite Hw.
Qed.

Lemma wal_insert_vertex s vid p ls now ms :
  wal s = Some (mkWal ms false) ->
  wal (insert_vertex_with_labels s vid p ls now)
  = Some (mkWal (ms ++ [InsertVertex vid p ls (Some now) (Some now)]) false).
Proof.
  intros Hw. unfold insert_vertex_with_labels.
  pose proof (wal_insert_vertex_impl s vid p ls now ms Hw) as H1. revert H1.
  generalize (insert_vertex_with_labels_impl s vid p ls false now). clear. intros s1 H1. cbn zeta.
  case_decide; case_match; exact H1.
Qed.

Lemma wal_delete_vertex s vid ms :
  wal s = Some (mkWal ms false) ->
  wal (delete_vertex s vid).1 = Some (mkWal (ms ++ [DeleteVertex vid (default [] (vertex_labels s !! vid))]) false).
Proof.
  intros Hw. unfold delete_vertex, delete_vertex_impl, wal_try.
  change (wal (set_current_version _ s)) with (wal s).
  rewrite Hw. cbn [wal_append poisoned buffer].
  set (s1 := set_wal _ _). assert (H1 : wal s1 = Some (mkWal (ms ++ [DeleteVertex vid (default [] (vertex_labels s !! vid))]) false)) by done.
  clearbody s1. pose proof (wal_deletion s1 vid) as Hd.
  destruct (apply_vertex_deletion s1 vid). cbn [fst] in *. congruence.
Qed.

Lemma wal_delete_edge s k a b t now ms :
  wal s = Some (mkWal ms false) ->
  wal (delete_edge s k a b t now).1
  = Some (mkWal (ms ++ [DeleteEdge k a b t (1 + current_version s) (edge_types s !! k)]) false).
Proof.
  intros Hw. unfold delete_edge, delete_edge_impl, wal_try. change (wal (set_current_version _ s)) with (wal s).
  rewrite Hw. done.
Qed.

Lemma wal_run_live s o ms :
  wal s = Some (mkWal ms false) ->
  wal (run_live s o) = Some (mkWal (ms ++ logged s o) false).
Proof.
  intros Hw. destruct o; cbn [run_live logged]; rewrite ?app_nil_r.
  - by apply wal_insert_vertex.
  - by apply wal_insert_vertex_impl.
  - by apply wal_delete_vertex.
  - unfold insert_edge.
    pose proof (wal_insert_edge_impl s src_vid dst_vid edge_type eid properties edge_type_name now ms Hw) as H1.
    destruct (insert_edge_impl _ _ _ _ _ _ _ _ _) as [s1 [[]|e]]; cbn [fst] in *; [|done].
    case_decide; case_match; exact H1.
  - by apply wal_insert_edge_impl.
  - by apply wal_delete_edge.
  - unfold begin_statement. by case_match.
  - unfold end_statement. by case_match.
  - unfold note_write_admitted. by case_match.
  - unfold record_property_effect. repeat case_match; done.
  - done.
  - unfold record_labels_removed. by case_match.
Qed.
End run.

(** ** One operation against the replay of its records *)

Section step.
  Context {G1 G2 V C : Type} `{TG1 : Topology G1} `{TG2 : Topology G2} `{VV : Values V C}.
  Context (ho1 ho2 : HashOrder).
  Implicit Types (s : L0Buffer G1 V) (r : L0Buffer G2 V).

Lemma erase_wal_log s m : erase (wal_log s m) = erase s.
Proof. done. Qed.

Lemma insert_vertex_replays s r vid p ls now :
  erase s = erase r ->
  erase (insert_vertex_with_labels_impl s vid p ls false now)
  = erase (replay_mutation r (InsertVertex vid p ls (Some now) (Some now))).
Proof.
  intros Hs. unfold insert_vertex_with_labels_impl, replay_mutation, apply_vertex_write.
  autorewrite with erase. rewrite erase_wal_log. autorewrite with erase.
  change (current_version (set_current_version (Z.add 1) s)) with (1 + current_version (erase s)).
  change (current_version (set_current_version (Z.add 1) r)) with (1 + current_version (erase r)).
  rewrite Hs. generalize (set_vertex_updated_at <[vid := now]> (set_vertex_created_at (or_insert vid now)
    (set_vertex_versions <[vid := 1 + current_version (erase r)]>
      (write_vertex_properties (set_vertex_tombstones (fun t => t ∖ {[vid]})
        (set_current_version (Z.add 1) (erase r))) vid p)))). reflexivity.
Qed.

End step.

Section restore.
  Context {G V C : Type} `{TG : Topology G} `{VV : Values V C} `{HO : HashOrder}.
  Implicit Types s : L0Buffer G V.

(** Restoring the labels a deletion logged, before deleting, changes nothing
    when they were still indexed. *)
Lemma set_label_index_cascade f v l s :
  foldl (cascade_state v) (set_label_to_vids f s) l = set_label_to_vids f (foldl (cascade_state v) s l).
Proof.
  revert s. induction l as [|k l IH]; intros s; [done|]. cbn [foldl]. rewrite <- IH. f_equal.
  unfold cascade_state. change (edge_endpoints (set_label_to_vids f s)) with (edge_endpoints s).
  by destruct (edge_endpoints s !! k).
Qed.

Lemma set_vertex_labels_id (f : gmap Z (list string) -> gmap Z (list string)) s :
  f (vertex_labels s) = vertex_labels s -> L0State.set_vertex_labels f s = s.
Proof. intros Hf. apply L0_ext; try reflexivity. exact Hf. Qed.

Lemma vertex_labels_cascade v l s :
  vertex_labels (foldl (cascade_state v) s l) = vertex_labels s
  /\ label_to_vids (foldl (cascade_state v) s l) = label_to_vids s.
Proof.
  revert s. induction l as [|k l IH]; intros s; [done|]. cbn [foldl]. destruct (IH (cascade_state v s k)) as [-> ->].
  unfold cascade_state. by destruct (edge_endpoints s !! k).
Qed.

Lemma drop_vertex_restored f s vid v :
  (forall ls, vertex_labels s !! vid = Some ls ->
     foldl (unindex_label vid) (f (label_to_vids s)) ls = foldl (unindex_label vid) (label_to_vids s) ls) ->
  is_Some (vertex_labels s !! vid) ->
  drop_vertex (set_label_to_vids f s) vid v = drop_vertex s vid v.
Proof.
  intros Hf [ls Hls]. unfold drop_vertex.
  assert (He : remove_vid_from_label_index (set_label_to_vids f s) vid = remove_vid_from_label_index s vid).
  { apply L0_ext; try reflexivity. cbn. rewrite Hls. by apply Hf. }
  rewrite He. reflexivity.
Qed.

Lemma deletion_restored s vid ls :
  labels_indexed s -> vertex_labels s !! vid = Some ls ->
  (apply_vertex_deletion (add_vertex_labels s vid ls) vid).1 = (apply_vertex_deletion s vid).1.
Proof.
  intros Hix Hls. unfold add_vertex_labels. rewrite Hls. cbn [default].
  rewrite append_unique_incl by done.
  rewrite set_vertex_labels_id by (by apply insert_id).
  unfold index_labels_for_vid. rewrite !deletion_state.
  change (incident_edges (set_label_to_vids _ s) vid) with (incident_edges s vid).
  change (current_version (set_label_to_vids _ s)) with (current_version s).
  rewrite set_label_index_cascade. f_equal. apply drop_vertex_restored.
  - intros ls'. destruct (vertex_labels_cascade (current_version s)
      (hash_order (elements (incident_edges s vid))) s) as [-> ->].
    rewrite Hls. intros [= <-]. apply unindex_index. intros l Hl. by apply (Hix vid ls).
  - destruct (vertex_labels_cascade (current_version s)
      (hash_order (elements (incident_edges s vid))) s) as [-> _]. eauto.
Qed.

End restore.

Section step2.
  Context {G1 G2 V C : Type} `{TG1 : Topology G1} `{TG2 : Topology G2} `{VV : Values V C}.
  Context (ho1 ho2 : HashOrder).
  Implicit Types (s : L0Buffer G1 V) (r : L0Buffer G2 V).

Lemma labels_indexed_erase s r : erase s = erase r -> labels_indexed s -> labels_indexed r.
Proof.
  intros Hs Hix vid ls l. change (vertex_labels r) with (vertex_labels (erase r)).
  change (label_to_vids r) with (label_to_vids (erase r)). rewrite <- Hs. apply Hix.
Qed.

Lemma delete_vertex_replays s r vid ms :
  erase s = erase r -> labels_indexed s -> wal s = Some (mkWal ms false) ->
  erase (delete_vertex (HO := ho1) s vid).1
  = erase (replay_mutation (HO := ho2) r (DeleteVertex vid (default [] (vertex_labels s !! vid)))).
Proof.
  intros Hs Hix Hw. unfold delete_vertex, delete_vertex_impl, wal_try.
  change (wal (set_current_version _ s)) with (wal s). rewrite Hw. cbn [wal_append poisoned].
  set (s1 := set_wal _ _). assert (Hs1 : erase s1 = erase (set_current_version (Z.add 1) r)).
  { unfold s1. rewrite erase_wal, !erase_current_version, Hs. reflexivity. }
  clearbody s1.
  assert (Hd : erase (apply_vertex_deletion (HO := ho1) s1 vid).1
    = erase (apply_vertex_deletion (HO := ho2) (set_current_version (Z.add 1) r) vid).1)
    by exact (deletion_congr ho1 ho2 s1 _ vid Hs1).
  transitivity (erase (apply_vertex_deletion (HO := ho1) s1 vid).1).
  { by destruct (apply_vertex_deletion s1 vid). }
  rewrite Hd. cbn [replay_mutation].
  assert (Hl : vertex_labels s = vertex_labels (set_current_version (Z.add 1) r)).
  { change (vertex_labels (erase s) = vertex_labels (erase r)). by rewrite Hs. }
  assert (Hix' : labels_indexed (set_current_version (Z.add 1) r)) by exact (labels_indexed_erase s r Hs Hix).
  rewrite Hl. destruct (vertex_labels (set_current_version (Z.add 1) r) !! vid) as [ls|] eqn:Els; [|done].
  cbn [default]. destruct ls as [|l ls]; [reflexivity|]. by rewrite (deletion_restored _ _ _ Hix' Els).
Qed.

Lemma insert_edge_replays s r a b t k p name now ms v :
  erase s = erase r -> wal s = Some (mkWal ms false) ->
  erase (insert_edge_impl s a b t k p name false now).1
  = erase (replay_mutation r (InsertEdge a b t k v p name (Some now) (Some now))).
Proof.
  intros Hs Hw. unfold insert_edge_impl, wal_try.
  change (wal (set_current_version _ s)) with (wal s). rewrite Hw. cbn [wal_append poisoned].
  set (s1 := set_wal _ _). assert (Hs1 : erase s1 = erase (set_current_version (Z.add 1) r)).
  { unfold s1. rewrite erase_wal, !erase_current_version, Hs. reflexivity. }
  clearbody s1. cbn [replay_mutation].
  destruct (apply_edge_insertion_erase s1 a b t k p) as [H1 H2].
  destruct (apply_edge_insertion_erase (set_current_version (Z.add 1) r) a b t k p) as [H3 H4].
  rewrite Hs1 in H1, H2. rewrite <- H3 in H1. rewrite <- H4 in H2. clear H3 H4.
  destruct (apply_edge_insertion s1 a b t k p) as [s2 x].
  destruct (apply_edge_insertion (set_current_version (Z.add 1) r) a b t k p) as [r2 y].
  cbn [fst snd] in *. subst y. destruct x as [[]|e]; [|exact H1].
  destruct name; cbn [fst]; autorewrite with erase; by rewrite H1.
Qed.

Lemma delete_edge_replays s r k a b t now ms v name :
  erase s = erase r -> wal s = Some (mkWal ms false) ->
  erase (delete_edge s k a b t now).1 = erase (replay_mutation r (DeleteEdge k a b t v name)).
Proof.
  intros Hs Hw. unfold delete_edge, delete_edge_impl, wal_try.
  change (wal (set_current_version _ s)) with (wal s). rewrite Hw. cbn [wal_append poisoned fst].
  rewrite erase_edge_updated_at, erase_apply_edge_deletion, erase_wal, erase_current_version, Hs.
  cbn [replay_mutation]. by rewrite (erase_apply_edge_deletion (set_current_version _ r)), erase_current_version.
Qed.

Lemma erase_begin s t : erase (begin_statement s t) = erase s.
Proof. unfold begin_statement. by case_match. Qed.
Lemma erase_end s : erase (end_statement s) = erase s.
Proof. unfold end_statement. by case_match. Qed.
Lemma erase_note s : erase (note_write_admitted s) = erase s.
Proof. unfold note_write_admitted. by case_match. Qed.
Lemma erase_effect s e o n : erase (record_property_effect s e o n) = erase s.
Proof. unfold record_property_effect. repeat case_match; done. Qed.
Lemma erase_labels_removed s v n : erase (record_labels_removed s v n) = erase s.
Proof. unfold record_labels_removed. by case_match. Qed.

(** A create differs from an update in counters only. *)
Lemma erase_insert_vertex s vid p ls now :
  erase (insert_vertex_with_labels s vid p ls now) = erase (insert_vertex_with_labels_impl s vid p ls false now).
Proof.
  unfold insert_vertex_with_labels. generalize (insert_vertex_with_labels_impl s vid p ls false now).
  intros s1. cbn zeta. case_decide; by case_match.
Qed.

Lemma erase_insert_edge s a b t k p name now :
  erase (insert_edge s a b t k p name now).1 = erase (insert_edge_impl s a b t k p name false now).1.
Proof.
  unfold insert_edge. destruct (insert_edge_impl s a b t k p name false now) as [s1 [[]|e]]; [|done].
  cbn [fst]. case_decide; by case_match.
Qed.

Lemma run_live_replays s r o ms :
  erase s = erase r -> labels_indexed s -> wal s = Some (mkWal ms false) ->
  erase (run_live (HO := ho1) s o) = erase (foldl (replay_mutation (HO := ho2)) r (logged s o)).
Proof.
  intros Hs Hix Hw. destruct o; cbn [run_live logged foldl].
  - rewrite erase_insert_vertex. by apply insert_vertex_replays.
  - by apply insert_vertex_replays.
  - by apply (delete_vertex_replays s r vid ms).
  - rewrite erase_insert_edge. by apply (insert_edge_replays _ _ _ _ _ _ _ _ _ ms).
  - by apply (insert_edge_replays _ _ _ _ _ _ _ _ _ ms).
  - by apply (delete_edge_replays _ _ _ _ _ _ _ ms).
  - by rewrite erase_begin.
  - by rewrite erase_end.
  - by rewrite erase_note.
  - by rewrite erase_effect.
  - exact Hs.
  - by rewrite erase_labels_removed.
Qed.
End step2.

(** ** Invariants of a run *)

Section inv.
  Context {G V C : Type} `{TG : Topology G} `{VV : Values V C} `{HO : HashOrder}.
  Implicit Types s : L0Buffer G V.

(** What an operation that is not a label write leaves alone. *)
Definition label_part s : gmap Z (list string) * gmap string (gset Z) := (vertex_labels s, label_to_vids s).

Lemma labels_indexed_same s s' : label_part s' = label_part s -> labels_indexed s -> labels_indexed s'.
Proof. unfold label_part, labels_indexed. intros [= -> ->]. done. Qed.

Lemma labels_indexed_add s vid ls : labels_indexed s -> labels_indexed (add_vertex_labels s vid ls).
Proof.
  intros Hix u lu l. cbn. rewrite lookup_insert, index_labels_lookup.
  destruct (decide (vid = u)) as [->|Hne].
  - intros [= <-] [Hl|Hl]%elem_of_append_unique.
    + case_decide; [done|]. destruct (vertex_labels s !! u) as [ex|] eqn:E; [|by apply not_elem_of_nil in Hl].
      by apply (Hix u ex).
    + by rewrite decide_True.
  - intros Hu Hl. case_decide; [done|]. by apply (Hix u lu).
Qed.

Lemma labels_indexed_unindex s vid : labels_indexed s -> labels_indexed (remove_vid_from_label_index s vid).
Proof.
  intros Hix u lu l Hu Hl. cbn. destruct (vertex_labels s !! vid) as [ls|]; [|by apply (Hix u lu)].
  rewrite unindex_labels_lookup. destruct (Hix u lu l Hu Hl) as [set Hset]. rewrite Hset.
  case_decide; [|done]. by eexists.
Qed.

Lemma label_part_deletion s vid :
  label_part (apply_vertex_deletion s vid).1 = label_part (remove_vid_from_label_index s vid).
Proof.
  rewrite deletion_state. unfold label_part. cbn.
  by destruct (vertex_labels_cascade (current_version s) (hash_order (elements (incident_edges s vid))) s) as [-> ->].
Qed.

Lemma label_part_vertex_write s vid p ls v now :
  label_part (apply_vertex_write s vid p ls v now) = label_part (add_vertex_labels s vid ls).
Proof. done. Qed.

Lemma label_part_insert_vertex s vid p ls now :
  label_part (insert_vertex_with_labels_impl s vid p ls false now) = label_part (add_vertex_labels s vid ls).
Proof. unfold insert_vertex_with_labels_impl. rewrite label_part_vertex_write. reflexivity. Qed.

Lemma label_part_edge_insertion s a b t k p : label_part (apply_edge_insertion s a b t k p).1 = label_part s.
Proof. unfold apply_edge_insertion. by repeat case_decide. Qed.

Lemma label_part_insert_edge s a b t k p name now :
  label_part (insert_edge_impl s a b t k p name false now).1 = label_part s.
Proof.
  unfold insert_edge_impl, wal_try. change (wal (set_current_version _ s)) with (wal s).
  destruct (wal s) as [w|]; [destruct (wal_append w _) as [w' [[]|e]]|]; try reflexivity;
    match goal with |- context [apply_edge_insertion ?x ?a ?b ?t ?k ?p] =>
      pose proof (label_part_edge_insertion x a b t k p) as Hl;
      destruct (apply_edge_insertion x a b t k p) as [s2 [[]|e]]; cbn [fst] in *; [|exact Hl]
    end; by destruct name.
Qed.

Lemma label_part_erased s s' : erase s' = erase s -> label_part s' = label_part s.
Proof.
  intros He. unfold label_part.
  change (vertex_labels s') with (vertex_labels (erase s')).
  change (label_to_vids s') with (label_to_vids (erase s')). by rewrite He.
Qed.

Lemma labels_indexed_run s o ms :
  wal s = Some (mkWal ms false) -> labels_indexed s -> labels_indexed (run_live s o).
Proof.
  intros Hw Hix. destruct o; cbn [run_live].
  - apply (labels_indexed_same (add_vertex_labels s vid labels)); [|by apply labels_indexed_add].
    rewrite <- (label_part_insert_vertex s vid properties labels now).
    apply label_part_erased, erase_insert_vertex.
  - apply (labels_indexed_same (add_vertex_labels s vid labels)); [|by apply labels_indexed_add].
    apply label_part_insert_vertex.
  - unfold delete_vertex, delete_vertex_impl, wal_try. change (wal (set_current_version _ s)) with (wal s).
    rewrite Hw. cbn [wal_append poisoned].
    set (s1 := set_wal _ _). pose proof (label_part_deletion s1 vid) as Hd.
    assert (H1 : labels_indexed s1) by exact Hix. clearbody s1.
    destruct (apply_vertex_deletion s1 vid) as [s2 c]. cbn [fst] in *.
    apply (labels_indexed_same _ _ Hd). by apply labels_indexed_unindex.
  - apply (labels_indexed_same s); [|done]. rewrite <- (label_part_insert_edge s src_vid dst_vid edge_type eid properties edge_type_name now).
    apply label_part_erased, erase_insert_edge.
  - apply (labels_indexed_same s); [|done]. apply label_part_insert_edge.
  - unfold delete_edge, delete_edge_impl, wal_try. change (wal (set_current_version _ s)) with (wal s).
    rewrite Hw. exact Hix.
  - apply (labels_indexed_same s); [|done]. apply label_part_erased, erase_begin.
  - apply (labels_indexed_same s); [|done]. apply label_part_erased, erase_end.
  - apply (labels_indexed_same s); [|done]. apply label_part_erased, erase_note.
  - apply (labels_indexed_same s); [|done]. apply label_part_erased, erase_effect.
  - exact Hix.
  - apply (labels_indexed_same s); [|done]. apply label_part_erased, erase_labels_removed.
Qed.
End inv.

(** ** Update times of edges

    A log record of an edge deletion carries no time, so the replay does not
    restore [edge_updated_at] of deleted edges; it does for every edge that is
    not tombstoned. *)

Section times.
  Context {G V C : Type} `{TG : Topology G} `{VV : Values V C} `{HO : HashOrder}.
  Implicit Types s : L0Buffer G V.

Definition time_part s : gmap Z TombstoneEntry * gmap Z Z := (tombstones s, edge_updated_at s).

Lemma times_vertex_write s vid p ls v now : time_part (apply_vertex_write s vid p ls v now) = time_part s.
Proof. done. Qed.

Lemma times_insert_vertex_impl s vid p ls now :
  time_part (insert_vertex_with_labels_impl s vid p ls false now) = time_part s.
Proof. unfold insert_vertex_with_labels_impl. by rewrite times_vertex_write. Qed.

Lemma times_insert_vertex s vid p ls now :
  time_part (insert_vertex_with_labels s vid p ls now) = time_part s.
Proof.
  rewrite <- (times_insert_vertex_impl s vid p ls now). unfold insert_vertex_with_labels.
  generalize (insert_vertex_with_labels_impl s vid p ls false now). intros s1. cbn zeta.
  case_decide; by case_match.
Qed.

Lemma times_replay_vertex s vid p ls c u :
  time_part (replay_mutation s (InsertVertex vid p ls c u)) = time_part s.
Proof. cbn [replay_mutation]. by destruct c, u. Qed.

Lemma times_cascade v l s :
  edge_updated_at (foldl (cascade_state v) s l) = edge_updated_at s
  /\ forall k, tombstones (foldl (cascade_state v) s l) !! k = None -> tombstones s !! k = None.
Proof.
  revert s. induction l as [|x l IH]; intros s; [done|]. cbn [foldl].
  destruct (IH (cascade_state v s x)) as [-> H2].
  assert (Hx : edge_updated_at (cascade_state v s x) = edge_updated_at s
    /\ forall k, tombstones (cascade_state v s x) !! k = None -> tombstones s !! k = None).
  { unfold cascade_state. destruct (edge_endpoints s !! x); [|done]. split; [done|].
    intros k Hk. cbn in Hk. by apply lookup_insert_None in Hk as [? _]. }
  destruct Hx as [-> Hx]. eauto.
Qed.

Lemma times_deletion s vid :
  edge_updated_at (apply_vertex_deletion s vid).1 = edge_updated_at s
  /\ forall k, tombstones (apply_vertex_deletion s vid).1 !! k = None -> tombstones s !! k = None.
Proof. rewrite deletion_state. apply times_cascade. Qed.

(** The effect of an edge insertion, live or replayed. *)
Lemma times_edge_insertion s a b t k p :
  match apply_edge_insertion s a b t k p with
  | (s', Ok _) => time_part s' = (delete k (tombstones s), edge_updated_at s)
  | (s', Err _) => time_part s' = time_part s
  end.
Proof. unfold apply_edge_insertion. by repeat case_decide. Qed.
End times.

Section times_step.
  Context {G1 G2 V C : Type} `{TG1 : Topology G1} `{TG2 : Topology G2} `{VV : Values V C}.
  Context (ho1 ho2 : HashOrder).
  Implicit Types (s : L0Buffer G1 V) (r : L0Buffer G2 V).

(** Update times agree on the edges that are not tombstoned. *)
Definition times_agree s r : Prop :=
  forall k, tombstones s !! k = None -> edge_updated_at r !! k = edge_updated_at s !! k.

Lemma times_agree_same s s' r r' :
  time_part s' = time_part s -> edge_updated_at r' = edge_updated_at r ->
  times_agree s r -> times_agree s' r'.
Proof. unfold times_agree, time_part. intros [= -> ->] ->. done. Qed.

Lemma times_insert_edge_impl s r a b t k p name now ms v :
  erase s = erase r -> wal s = Some (mkWal ms false) -> times_agree s r ->
  times_agree (insert_edge_impl s a b t k p name false now).1
    (replay_mutation (HO := ho2) r (InsertEdge a b t k v p name (Some now) (Some now))).
Proof.
  intros Hs Hw Ht. unfold insert_edge_impl, wal_try.
  change (wal (set_current_version _ s)) with (wal s). rewrite Hw. cbn [wal_append poisoned].
  set (s1 := set_wal _ _).
  assert (Hs1 : erase s1 = erase (set_current_version (Z.add 1) r)).
  { unfold s1. rewrite erase_wal, !erase_current_version, Hs. reflexivity. }
  assert (Ht1 : times_agree s1 (set_current_version (Z.add 1) r)) by exact Ht.
  clearbody s1. cbn [replay_mutation]. revert Hs1 Ht1. generalize (set_current_version (Z.add 1) r).
  clear. intros r Hs Ht.
  pose proof (times_edge_insertion s1 a b t k p) as H1. pose proof (times_edge_insertion r a b t k p) as H2.
  destruct (apply_edge_insertion_erase s1 a b t k p) as [_ H3].
  destruct (apply_edge_insertion_erase r a b t k p) as [_ H4].
  rewrite Hs, <- H4 in H3. clear H4.
  destruct (apply_edge_insertion s1 a b t k p) as [s2 x], (apply_edge_insertion r a b t k p) as [r2 y].
  cbn [snd] in H3. subst y. destruct x as [[]|e]; unfold time_part in *.
  - injection H1 as H1a H1b. injection H2 as H2a H2b.
    assert (Hgoal : times_agree (set_edge_updated_at <[k := now]> s2) (set_edge_updated_at <[k := now]> r2)).
    { intros j. cbn. rewrite H1a, H1b, H2b. rewrite !lookup_insert, lookup_delete_None.
      intros [<-|Hj]; [by rewrite !decide_True|]. case_decide; [done|]. by apply Ht. }
    destruct name; exact Hgoal.
  - injection H1 as H1a H1b. injection H2 as H2a H2b. intros j. cbn. rewrite H1a, H1b, H2b. apply Ht.
Qed.

Lemma times_erased_counters s s' r :
  time_part s' = time_part s -> times_agree s r -> times_agree s' r.
Proof. intros. by apply (times_agree_same s s' r r). Qed.

Lemma times_run s r o ms :
  erase s = erase r -> wal s = Some (mkWal ms false) -> times_agree s r ->
  times_agree (run_live (HO := ho1) s o) (foldl (replay_mutation (HO := ho2)) r (logged s o)).
Proof.
  intros Hs Hw Ht. destruct o; cbn [run_live logged foldl].
  - apply (times_agree_same s _ r); [apply times_insert_vertex| |done].
    apply (f_equal snd (times_replay_vertex r vid properties labels (Some now) (Some now))).
  - apply (times_agree_same s _ r); [apply times_insert_vertex_impl| |done].
    apply (f_equal snd (times_replay_vertex r vid properties labels (Some now) (Some now))).
  - unfold delete_vertex, delete_vertex_impl, wal_try.
    change (wal (set_current_version _ s)) with (wal s). rewrite Hw. cbn [wal_append poisoned].
    set (s1 := set_wal _ _). destruct (times_deletion (HO := ho1) s1 vid) as [H1 H2].
    assert (H3 : edge_updated_at (replay_mutation (HO := ho2) r (DeleteVertex vid (default [] (vertex_labels s !! vid)))) = edge_updated_at r).
    { cbn [replay_mutation]. etransitivity; [apply times_deletion|]. by case_match. }
    assert (Ht1 : times_agree s1 r) by exact Ht. clearbody s1.
    destruct (apply_vertex_deletion s1 vid) as [s2 c]. cbn [fst] in *.
    intros k Hk. rewrite H1, H3. by apply Ht1, H2.
  - assert (Hi := times_insert_edge_impl s r src_vid dst_vid edge_type eid properties edge_type_name now ms
      (1 + current_version s) Hs Hw Ht). unfold insert_edge.
    destruct (insert_edge_impl _ _ _ _ _ _ _ _ _) as [s1 [[]|e]]; cbn [fst] in *; [|done].
    apply (times_erased_counters s1); [|done]. case_decide; by case_match.
  - by apply (times_insert_edge_impl s r _ _ _ _ _ _ _ ms).
  - unfold delete_edge, delete_edge_impl, wal_try.
    change (wal (set_current_version _ s)) with (wal s). rewrite Hw. cbn [wal_append poisoned fst].
    intros k. cbn. rewrite lookup_insert_None. intros [Hk Hne]. rewrite lookup_insert_ne by done. by apply Ht.
  - apply (times_erased_counters s); [|done]. unfold begin_statement. by case_match.
  - apply (times_erased_counters s); [|done]. unfold end_statement. by case_match.
  - apply (times_erased_counters s); [|done]. unfold note_write_admitted. by case_match.
  - apply (times_erased_counters s); [|done]. unfold record_property_effect. repeat case_match; done.
  - exact Ht.
  - apply (times_erased_counters s); [|done]. unfold record_labels_removed. by case_match.
Qed.
End times_step.

(** ** The recovery theorem *)

Section recovery.
  Context {G1 G2 V C : Type} `{TG1 : Topology G1} `{TG2 : Topology G2} `{VV : Values V C}.
  Context (ho1 ho2 : HashOrder).

Lemma run_recovers ops : forall (s : L0Buffer G1 V) (r : L0Buffer G2 V) ms,
  wal s = Some (mkWal ms false) -> labels_indexed s -> erase s = erase r -> times_agree s r ->
  let s' := foldl (run_live (HO := ho1)) s ops in
  exists ms', wal s' = Some (mkWal (ms ++ ms') false)
    /\ erase s' = erase (foldl (replay_mutation (HO := ho2)) r ms')
    /\ times_agree s' (foldl (replay_mutation (HO := ho2)) r ms').
Proof.
  induction ops as [|o ops IH]; intros s r ms Hw Hix Hs Ht; cbn [foldl].
  { exists []. rewrite app_nil_r. done. }
  destruct (IH (run_live (HO := ho1) s o) (foldl (replay_mutation (HO := ho2)) r (logged s o))
    (ms ++ logged s o)) as (ms' & H1 & H2 & H3).
  - by apply wal_run_live.
  - by apply (labels_indexed_run s o ms).
  - by apply (run_live_replays ho1 ho2 s r o ms).
  - by apply (times_run ho1 ho2 s r o ms).
  - exists (logged s o ++ ms'). rewrite foldl_app, (assoc_L (++)). done.
Qed.

(** C1: recovery is faithful.  Take any sequence of writes on a buffer that
    logs to a write-ahead log (creates, full-row updates, vertex deletions with
    their cascade, edge inserts that fail on a deleted endpoint included) mixed
    with statement scopes and side-effect counters.  Replaying the log into a
    fresh buffer rebuilds the buffer: every vertex and edge map, tombstones,
    versions, labels with their reverse index, the external-id
    index, creation and vertex update times, the version counter, the flush
    trigger and the graph agree, whatever hash iteration orders the two
    processes used; update times agree for every edge that is not deleted.
    Only counters that report work done by a caller, the size estimate and the
    statement scope are not restored. *)
Theorem recovery_rebuilds_buffer (v0 : Z) (ops : list (live_op V)) :
  let s : L0Buffer G1 V := foldl (run_live (HO := ho1)) (L0.new v0 (Some (mkWal [] false))) ops in
  exists ms, wal s = Some (mkWal ms false)
    /\ exists r : L0Buffer G2 V, replay_mutations (HO := ho2) (L0.new v0 None) ms = (r, Ok tt)
       /\ erase r = erase s
       /\ (forall k, tombstones s !! k = None -> edge_updated_at r !! k = edge_updated_at s !! k).
Proof.
  destruct (run_recovers ops (L0.new v0 (Some (mkWal [] false))) (L0.new v0 None) []) as (ms & H1 & H2 & H3).
  - done.
  - intros vid ls l. cbn. by rewrite lookup_empty.
  - unfold erase, L0.new. cbn. by rewrite !t_new_view.
  - intros k. done.
  - exists ms. split; [done|]. eexists. split; [reflexivity|]. split; [by rewrite H2|]. exact H3.
Qed.
End recovery.
