(* ===== verification/L0Merge.v ===== *)
(** * Committing a transaction's buffer into the main buffer

    [merge] validates, then applies.  Validation is exact: it rejects iff the
    unguarded merge body would fail part-way, so a rejected commit leaves the
    main buffer untouched and an accepted one is applied in full.  The result
    of an accepted merge is stated on the vertex rows, the vertex tombstones
    and the topology, whatever the hash iteration order. *)

From S2P Require Import Prelude Graph L0State L0 L0Replay.

Section merge.
  Context {G V C : Type} `{TG : Topology G} `{VV : Values V C} `{HO : HashOrder}.
  Implicit Types s other : L0Buffer G V.

(** The vertex rows and tombstones; the topology's edges. *)
Definition vertex_part s : gmap Z (Properties V) * gset Z := (vertex_properties s, vertex_tombstones s).
Definition edge_part s : gmap Z EdgeEntry := v_edges (t_view (graph s)).

(** ** What each operation does to the two parts *)

Lemma vertex_part_cascade v l s : vertex_part (foldl (cascade_state v) s l) = vertex_part s.
Proof.
  revert s. induction l as [|k l IH]; intros s; [done|]. cbn [foldl]. rewrite IH.
  unfold cascade_state. by destruct (edge_endpoints s !! k).
Qed.

Lemma vertex_part_deletion s vid :
  vertex_part (apply_vertex_deletion s vid).1 = (delete vid (vertex_properties s), {[vid]} ∪ vertex_tombstones s).
Proof.
  rewrite deletion_state. pose proof (vertex_part_cascade (current_version s)
    (hash_order (elements (incident_edges s vid))) s) as H1. unfold vertex_part in *.
  injection H1 as H1 H2. cbn. by rewrite H1, H2.
Qed.

(** The edges that do not touch [vid]. *)
Definition avoids (vid : Z) (kv : Z * EdgeEntry) : Prop := src_vid kv.2 <> vid /\ dst_vid kv.2 <> vid.
#[export] Instance avoids_dec vid kv : Decision (avoids vid kv).
Proof. unfold avoids; apply _. Defined.

Lemma edge_part_cascade v l s k :
  edge_part (foldl (cascade_state v) s l) !! k = edge_part s !! k
  \/ (k ∈ l /\ edge_part (foldl (cascade_state v) s l) !! k = None).
Proof.
  revert s. induction l as [|x l IH]; intros s; [by left|]. cbn [foldl].
  assert (Hx : edge_part (cascade_state v s x) !! k = edge_part s !! k
    \/ (k = x /\ edge_part (cascade_state v s x) !! k = None)).
  { unfold cascade_state. destruct (edge_endpoints s !! x); [|by left].
    unfold edge_part. cbn. rewrite t_remove_edge_view. cbn.
    destruct (decide (k = x)) as [->|Hne]; [right|left].
    - by rewrite lookup_delete_eq.
    - by rewrite lookup_delete_ne. }
  destruct (IH (cascade_state v s x)) as [H1|[H1 H2]].
  - rewrite H1. destruct Hx as [Hx|[-> Hx]]; [by left|right]. split; [by left|done].
  - right. split; [by right|done].
Qed.

Lemma edge_part_deletion s vid :
  edge_part (apply_vertex_deletion s vid).1 = filter (avoids vid) (edge_part s).
Proof.
  rewrite deletion_state.
  assert (H1 : forall s0, edge_part (set_estimated_size (Z.add (Z.of_nat (size (incident_edges s vid)) * 72 + 8)) (drop_vertex s0 vid (current_version s)))
    = filter (avoids vid) (edge_part s0)).
  { intros s0. unfold edge_part. cbn. rewrite t_remove_vertex_view. apply map_eq. intros k.
    apply option_eq. intros e. cbn. rewrite !map_lookup_filter_Some. unfold keeps, avoids. cbn. tauto. }
  rewrite H1. apply map_eq. intros k. apply option_eq. intros e. rewrite !map_lookup_filter_Some.
  destruct (edge_part_cascade (current_version s) (hash_order (elements (incident_edges s vid))) s k)
    as [->|[Hk ->]]; [done|].
  split; [by intros [? _]|]. intros [He Ha]. exfalso.
  rewrite hash_order_perm, elem_of_elements in Hk. unfold incident_edges in Hk.
  rewrite elem_of_union, !elem_of_list_to_set, !list_elem_of_fmap in Hk.
  destruct Hk as [(f & -> & Hf)|(f & -> & Hf)]; apply t_neighbors_view in Hf as [Hf Hv];
    unfold edge_part in He; rewrite He in Hf; injection Hf as ->; destruct Ha; done.
Qed.

Lemma delete_vertex_impl_skip s vid :
  exists s' l, delete_vertex_impl s vid true = (s', Ok l)
    /\ vertex_part s' = (delete vid (vertex_properties s), {[vid]} ∪ vertex_tombstones s)
    /\ edge_part s' = filter (avoids vid) (edge_part s).
Proof.
  unfold delete_vertex_impl.
  pose proof (vertex_part_deletion (set_current_version (Z.add 1) s) vid) as H1.
  pose proof (edge_part_deletion (set_current_version (Z.add 1) s) vid) as H2.
  destruct (apply_vertex_deletion (set_current_version (Z.add 1) s) vid) as [s' l].
  exists s', l. done.
Qed.

Lemma vertex_write_parts s vid p ls now :
  vertex_part (insert_vertex_with_labels_impl s vid p ls true now)
    = (<[vid := merge_crdt_properties (default ∅ (vertex_properties s !! vid)) p]> (vertex_properties s),
       vertex_tombstones s ∖ {[vid]})
  /\ edge_part (insert_vertex_with_labels_impl s vid p ls true now) = edge_part s.
Proof.
  split; [reflexivity|]. unfold edge_part. cbn. by rewrite t_add_vertex_view.
Qed.

Lemma ensure_vertex_edges g v : v_edges (t_view (ensure_vertex g v)) = v_edges (t_view g).
Proof. unfold ensure_vertex. case_match; [done|]. by rewrite t_add_vertex_view. Qed.

Lemma insert_edge_impl_skip s a b t k p name now :
  let r := insert_edge_impl s a b t k p name true now in
  vertex_part r.1 = vertex_part s
  /\ (if bool_decide (a ∈ vertex_tombstones s) || bool_decide (b ∈ vertex_tombstones s)
      then is_ok r.2 = false
      else r.2 = Ok tt /\ edge_part r.1 = <[k := mkEdge k a b t]> (edge_part s)).
Proof.
  unfold insert_edge_impl, apply_edge_insertion.
  change (vertex_tombstones (set_current_version _ s)) with (vertex_tombstones s).
  case_bool_decide as Ha; [rewrite decide_True by done|rewrite decide_False by done]; [done|].
  case_bool_decide as Hb; [rewrite decide_True by done|rewrite decide_False by done]; [done|].
  destruct name; cbn [fst snd]; (split; [reflexivity|]); (split; [reflexivity|]);
    unfold edge_part; cbn; rewrite t_add_edge_view; cbn; by rewrite !ensure_vertex_edges.
Qed.

Lemma delete_edge_impl_skip s k a b t now :
  exists s', delete_edge_impl s k a b t true now = (s', Ok tt)
    /\ vertex_part s' = vertex_part s /\ edge_part s' = delete k (edge_part s).
Proof.
  eexists. split; [reflexivity|]. split; [reflexivity|]. unfold edge_part. cbn. by rewrite t_remove_edge_view.
Qed.

(** ** The loops of the merge *)

Lemma merge_deletions l : forall s c,
  exists s' c', try_for merge_deletion (s, c) l = ((s', c'), Ok tt)
    /\ (forall v, vertex_properties s' !! v = if decide (v ∈ l) then None else vertex_properties s !! v)
    /\ vertex_tombstones s' = list_to_set l ∪ vertex_tombstones s
    /\ (forall k e, edge_part s' !! k = Some e
          <-> edge_part s !! k = Some e /\ forall v, v ∈ l -> avoids v (k, e)).
Proof.
  induction l as [|x l IH]; intros s c; cbn [try_for].
  { exists s, c. split; [done|]. split; [done|]. split; [set_solver|].
    intros k e. split; [|by intros [? _]]. intros He. split; [done|]. intros v Hv. by apply not_elem_of_nil in Hv. }
  unfold merge_deletion at 1.
  destruct (delete_vertex_impl_skip s x) as (s1 & l1 & -> & Hv1 & He1).
  destruct (IH s1 (c ++ l1)) as (s' & c' & -> & Hp & Ht & He). clear IH.
  unfold vertex_part in Hv1. injection Hv1 as Hp1 Ht1.
  exists s', c'. split; [done|]. split; [|split].
  - intros v. rewrite Hp, Hp1, lookup_delete.
    destruct (decide (v ∈ l)), (decide (v ∈ x :: l)), (decide (x = v)); try done; set_solver.
  - rewrite Ht, Ht1. set_solver.
  - intros k e. rewrite He, He1, map_lookup_filter_Some. split.
    + intros [[H1 H2] H3]. split; [done|]. intros v [->|Hv]%elem_of_cons; auto.
    + intros [H1 H2]. split; [split; [done|]|]; [apply H2; by left|]. intros v Hv. apply H2. by right.
Qed.

Lemma merge_vertices other now (l : list (Z * Properties V)) : forall s,
  NoDup l.*1 ->
  let s' := foldl (merge_vertex other now) s l in
  (forall v, vertex_properties s' !! v =
     match (list_to_map l : gmap Z (Properties V)) !! v with
     | Some p => Some (merge_crdt_properties (default ∅ (vertex_properties s !! v)) p)
     | None => vertex_properties s !! v
     end)
  /\ vertex_tombstones s' = vertex_tombstones s ∖ list_to_set l.*1
  /\ edge_part s' = edge_part s.
Proof.
  induction l as [|[x p] l IH]; intros s Hnd; cbn [foldl fmap list_fmap fst].
  { split; [intros v; by rewrite list_to_map_nil, lookup_empty|]. split; [set_solver|done]. }
  apply NoDup_cons in Hnd as [Hx Hnd]. unfold merge_vertex at 2 4 6. cbn [fst snd].
  destruct (vertex_write_parts s x p (default [] (vertex_labels other !! x)) now) as [Hv1 He1].
  set (s1 := insert_vertex_with_labels_impl _ _ _ _ _ _) in *. clearbody s1.
  unfold vertex_part in Hv1. injection Hv1 as Hp1 Ht1.
  destruct (IH s1 Hnd) as (Hp & Ht & He). split; [|split].
  - intros v. rewrite Hp, Hp1. rewrite list_to_map_cons, lookup_insert.
    destruct (decide (x = v)) as [<-|Hne].
    + rewrite not_elem_of_list_to_map_1 by done. by rewrite !lookup_insert_eq.
    + rewrite !lookup_insert_ne by done. done.
  - rewrite Ht, Ht1. cbn. set_solver.
  - by rewrite He.
Qed.

(** The label loops touch neither part. *)
Lemma merge_missing_labels_parts l : forall s,
  let s' := foldl merge_missing_labels s l in vertex_part s' = vertex_part s /\ edge_part s' = edge_part s.
Proof.
  induction l as [|x l IH]; intros s; [done|]. cbn [foldl]. destruct (IH (merge_missing_labels s x)) as [-> ->].
  unfold merge_missing_labels. by case_match.
Qed.

Lemma merge_label_overwrites_parts other l : forall s,
  let s' := foldl (merge_label_overwrite other) s l in vertex_part s' = vertex_part s /\ edge_part s' = edge_part s.
Proof.
  induction l as [|x l IH]; intros s; [done|]. cbn [foldl]. destruct (IH (merge_label_overwrite other s x)) as [-> ->].
  unfold merge_label_overwrite. by case_decide.
Qed.

(** An edge row of [other] the merge can apply to a buffer with these vertex tombstones. *)
Definition applicable other (vt : gset Z) (e : Z * (Z * Z * Z)) : bool :=
  is_tombstoned other e.1
  || negb (bool_decide (e.2.1.1 ∈ vt) || bool_decide (e.2.1.2 ∈ vt)).

(** What the merged topology holds for an edge row of [other]. *)
Definition merged_edge other (k : Z) (e : Z * Z * Z) : option EdgeEntry :=
  if is_tombstoned other k then None else Some (mkEdge k e.1.1 e.1.2 e.2).

Lemma merge_edge_step other now s ep k e :
  let r := merge_edge other now (s, ep) (k, e) in
  vertex_part r.1.1 = vertex_part s
  /\ (if applicable other (vertex_tombstones s) (k, e)
      then r.2 = Ok tt /\ forall j, edge_part r.1.1 !! j
             = if decide (k = j) then merged_edge other k e else edge_part s !! j
      else is_ok r.2 = false).
Proof.
  destruct e as [[a b] t]. unfold merge_edge, applicable, merged_edge. cbn [fst snd].
  destruct (is_tombstoned other k) eqn:Hk; cbn [orb].
  - destruct (delete_edge_impl_skip s k a b t now) as (s' & -> & Hv & He). cbn [fst snd].
    split; [done|]. split; [done|]. intros j. rewrite He. by rewrite lookup_delete.
  - pose proof (insert_edge_impl_skip s a b t k (default ∅ (ep !! k)) (edge_types other !! k) now) as [Hv Hr].
    destruct (insert_edge_impl _ _ _ _ _ _ _ _ _) as [s' r]. cbn [fst snd] in *. split; [done|].
    destruct (_ || _); cbn [negb]; [done|]. destruct Hr as [Hr He]. split; [done|].
    intros j. by rewrite He, lookup_insert.
Qed.

Lemma merge_edges other now (l : list (Z * (Z * Z * Z))) : forall s ep,
  NoDup l.*1 ->
  let r := try_for (merge_edge other now) (s, ep) l in
  if forallb (applicable other (vertex_tombstones s)) l
  then r.2 = Ok tt /\ vertex_part r.1.1 = vertex_part s
       /\ forall j, edge_part r.1.1 !! j =
            match (list_to_map l : gmap Z (Z * Z * Z)) !! j with
            | Some e => merged_edge other j e
            | None => edge_part s !! j
            end
  else is_ok r.2 = false.
Proof.
  induction l as [|[k e] l IH]; intros s ep Hnd; cbn [try_for forallb].
  { split; [done|]. split; [done|]. intros j. by rewrite list_to_map_nil, lookup_empty. }
  apply NoDup_cons in Hnd as [Hk Hnd].
  pose proof (merge_edge_step other now s ep k e) as [Hv Hr].
  destruct (merge_edge other now (s, ep) (k, e)) as [[s1 ep1] r1]. cbn [fst snd] in *.
  assert (Ht : vertex_tombstones s1 = vertex_tombstones s) by (unfold vertex_part in Hv; congruence).
  destruct (applicable other (vertex_tombstones s) (k, e)); cbn [andb].
  - destruct Hr as [-> He]. specialize (IH s1 ep1 Hnd). rewrite Ht in IH. cbn zeta in IH.
    destruct (forallb _ l); [|done]. destruct IH as (H1 & H2 & H3).
    split; [done|]. split; [congruence|]. intros j. rewrite H3. rewrite list_to_map_cons, lookup_insert. destruct (decide (k = j)) as [<-|Hne].
    + rewrite not_elem_of_list_to_map_1 by done. rewrite He. by rewrite decide_True.
    + destruct (_ !! j); [done|]. rewrite He. by rewrite decide_False.
  - by destruct r1.
Qed.

Lemma merge_tombstones other now (l : list (Z * TombstoneEntry)) : forall s,
  exists s', try_for (merge_tombstone other now) s l = (s', Ok tt)
    /\ vertex_part s' = vertex_part s
    /\ forall j, edge_part s' !! j =
         if decide (j ∈ l.*1 /\ edge_endpoints other !! j = None) then None else edge_part s !! j.
Proof.
  induction l as [|[k t] l IH]; intros s; cbn [try_for].
  { exists s. split; [done|]. split; [done|]. intros j. rewrite decide_False; [done|].
    intros [Hj _]. by apply not_elem_of_nil in Hj. }
  assert (H1 : exists s1, merge_tombstone other now s (k, t) = (s1, Ok tt) /\ vertex_part s1 = vertex_part s
    /\ forall j, edge_part s1 !! j = if decide (j = k /\ edge_endpoints other !! j = None) then None else edge_part s !! j).
  { unfold merge_tombstone. cbn [fst snd]. destruct (edge_endpoints other !! k) eqn:Ek.
    - exists s. split; [done|]. split; [done|]. intros j. rewrite decide_False; [done|]. intros [-> ?]. congruence.
    - destruct (delete_edge_impl_skip s k (t_src_vid t) (t_dst_vid t) (t_edge_type t) now) as (s1 & -> & Hv & He).
      exists s1. split; [done|]. split; [done|]. intros j. rewrite He, lookup_delete.
      destruct (decide (k = j)) as [->|Hne].
      + by rewrite decide_True.
      + rewrite decide_False; [done|]. by intros [-> _]. }
  destruct H1 as (s1 & -> & Hv1 & He1). destruct (IH s1) as (s' & -> & Hv & He).
  exists s'. split; [done|]. split; [congruence|]. intros j. rewrite He, He1. cbn [fmap list_fmap fst].
  destruct (edge_endpoints other !! j) as [x|].
  { by rewrite !decide_False by (by intros []). }
  destruct (decide (j = k)) as [->|Hne].
  { rewrite (decide_True (P := k ∈ k :: _ /\ _)) by (split; [by left|done]).
    rewrite (decide_True (P := k = k /\ _)) by done. by case_decide. }
  rewrite (decide_False (P := j = k /\ _)) by tauto.
  destruct (decide (j ∈ l.*1)).
  - rewrite !decide_True; [done|split; [by right|done]|done].
  - rewrite !decide_False; [done|rewrite elem_of_cons; tauto|tauto].
Qed.

Lemma fold_parts {A} (f : L0Buffer G V -> A -> L0Buffer G V) l :
  (forall s a, vertex_part (f s a) = vertex_part s /\ edge_part (f s a) = edge_part s) ->
  forall s, vertex_part (foldl f s l) = vertex_part s /\ edge_part (foldl f s l) = edge_part s.
Proof.
  intros Hf. induction l as [|a l IH]; intros s; [done|]. cbn [foldl]. destruct (IH (f s a)) as [-> ->]. apply Hf.
Qed.

Lemma merge_metadata_parts s other :
  vertex_part (merge_metadata s other) = vertex_part s /\ edge_part (merge_metadata s other) = edge_part s.
Proof.
  unfold merge_metadata. set (s1 := set_estimated_size _ _).
  assert (H1 : vertex_part s1 = vertex_part s /\ edge_part s1 = edge_part s) by done. clearbody s1.
  set (s2 := foldl _ s1 _).
  assert (H2 : vertex_part s2 = vertex_part s1 /\ edge_part s2 = edge_part s1) by (by apply fold_parts). clearbody s2.
  set (s3 := foldl _ s2 _).
  assert (H3 : vertex_part s3 = vertex_part s2 /\ edge_part s3 = edge_part s2) by (by apply fold_parts). clearbody s3.
  set (s4 := foldl _ s3 _).
  assert (H4 : vertex_part s4 = vertex_part s3 /\ edge_part s4 = edge_part s3) by (by apply fold_parts). clearbody s4.
  change (vertex_part s4 = vertex_part s /\ edge_part s4 = edge_part s).
  destruct H1, H2, H3, H4. split; congruence.
Qed.

(** ** The merge as a whole *)

(** Vertices that are deleted after the vertex phase of the merge. *)
Definition doomed s other (vp : gmap Z (Properties V)) : gset Z :=
  (vertex_tombstones other ∪ vertex_tombstones s) ∖ dom vp.

(** A vertex row of the main buffer that the transaction did not delete. *)
Definition base_row s other (v : Z) : option (Properties V) :=
  if decide (v ∈ vertex_tombstones other) then None else vertex_properties s !! v.

(** Edges of the main buffer that no deleted vertex takes with it. *)
Definition survives other (kv : Z * EdgeEntry) : Prop :=
  (src_vid kv.2 ∉ vertex_tombstones other) /\ (dst_vid kv.2 ∉ vertex_tombstones other).
#[export] Instance survives_dec other kv : Decision (survives other kv).
Proof. unfold survives; apply _. Defined.

(** The transaction [other], with property rows [vp], applied to [s] gives [s']. *)
Definition applied s other (vp : gmap Z (Properties V)) s' : Prop :=
  (forall v, vertex_properties s' !! v =
     match vp !! v with
     | Some p => Some (merge_crdt_properties (default ∅ (base_row s other v)) p)
     | None => base_row s other v
     end)
  /\ vertex_tombstones s' = doomed s other vp
  /\ (forall k, edge_part s' !! k =
       match edge_endpoints other !! k with
       | Some e => merged_edge other k e
       | None => if is_tombstoned other k then None else filter (survives other) (edge_part s) !! k
       end).

Definition all_applicable other (D : gset Z) : bool :=
  forallb (applicable other D) (map_to_list (edge_endpoints other)).

Lemma forallb_perm {A} (f : A -> bool) l l' : l ≡ₚ l' -> forallb f l = forallb f l'.
Proof.
  induction 1 as [| | |]; cbn; [done|congruence| |congruence].
  rewrite !andb_assoc. f_equal. apply andb_comm.
Qed.

Lemma elem_of_hash_keys {A} (m : gmap Z A) k : k ∈ (hash_order (map_to_list m)).*1 <-> is_Some (m !! k).
Proof.
  rewrite hash_order_perm, list_elem_of_fmap. split.
  - intros ([j a] & -> & Ha). apply elem_of_map_to_list in Ha. by exists a.
  - intros [a Ha]. exists (k, a). split; [done|]. by apply elem_of_map_to_list.
Qed.

Lemma hash_keys_map {A} (m : gmap Z A) : list_to_map (hash_order (map_to_list m)) = m.
Proof.
  rewrite (list_to_map_proper (hash_order (map_to_list m)) (map_to_list m)), list_to_map_to_list; [done| |].
  - rewrite hash_order_perm. apply NoDup_fst_map_to_list.
  - apply hash_order_perm.
Qed.

Lemma NoDup_hash_keys {A} (m : gmap Z A) : NoDup (hash_order (map_to_list m)).*1.
Proof. rewrite hash_order_perm. apply NoDup_fst_map_to_list. Qed.

(** The vertex phase: deletions, rows, labels. *)
Lemma merge_vertex_phase s other vp now :
  exists s1 c, try_for merge_deletion (s, []) (hash_order (elements (vertex_tombstones other))) = ((s1, c), Ok tt)
    /\ let s4 := foldl (merge_label_overwrite other)
         (foldl merge_missing_labels (foldl (merge_vertex other now) s1 (hash_order (map_to_list vp)))
            (hash_order (map_to_list (vertex_labels other))))
         (hash_order (elements (vertex_label_overwrites other))) in
       (forall v, vertex_properties s4 !! v =
          match vp !! v with
          | Some p => Some (merge_crdt_properties (default ∅ (base_row s other v)) p)
          | None => base_row s other v
          end)
       /\ vertex_tombstones s4 = doomed s other vp
       /\ edge_part s4 = filter (survives other) (edge_part s).
Proof.
  destruct (merge_deletions (hash_order (elements (vertex_tombstones other))) s [])
    as (s1 & c & -> & Hp1 & Ht1 & He1). exists s1, c. split; [done|].
  destruct (merge_vertices other now (hash_order (map_to_list vp)) s1 (NoDup_hash_keys vp)) as (Hp2 & Ht2 & He2).
  set (s2 := foldl (merge_vertex other now) s1 _) in *. clearbody s2.
  destruct (merge_missing_labels_parts (hash_order (map_to_list (vertex_labels other))) s2) as [Hv3 He3].
  set (s3 := foldl merge_missing_labels s2 _) in *. clearbody s3.
  destruct (merge_label_overwrites_parts other (hash_order (elements (vertex_label_overwrites other))) s3) as [Hv4 He4].
  set (s4 := foldl (merge_label_overwrite other) s3 _) in *. clearbody s4. cbn zeta.
  assert (Hv : vertex_properties s4 = vertex_properties s2 /\ vertex_tombstones s4 = vertex_tombstones s2)
    by (unfold vertex_part in *; split; congruence).
  destruct Hv as [-> ->]. split; [|split].
  - intros v. rewrite Hp2, hash_keys_map, Hp1. unfold base_row.
    destruct (decide (v ∈ vertex_tombstones other)) as [Hin|Hin];
      [rewrite !decide_True|rewrite !decide_False]; try done; by rewrite hash_order_perm, elem_of_elements.
  - rewrite Ht2, Ht1. unfold doomed. apply set_eq. intros v.
    rewrite !elem_of_difference, !elem_of_union, !elem_of_list_to_set, elem_of_hash_keys, elem_of_dom.
    by rewrite hash_order_perm, elem_of_elements.
  - rewrite He4, He3, He2. apply map_eq. intros k. apply option_eq. intros e.
    rewrite He1, map_lookup_filter_Some. unfold avoids, survives. cbn. split; intros [H1 H2]; (split; [done|]).
    + split; intros Hin; [destruct (H2 (src_vid e))|destruct (H2 (dst_vid e))]; try done;
        by rewrite hash_order_perm, elem_of_elements.
    + intros v. rewrite hash_order_perm, elem_of_elements. intros Hin. split; intros <-; tauto.
Qed.

Lemma merge_validated_spec s other vp ep now :
  if all_applicable other (doomed s other vp)
  then exists s' c, merge_validated s other vp ep now = (s', Ok c) /\ applied s other vp s'
  else is_ok (merge_validated s other vp ep now).2 = false.
Proof.
  unfold merge_validated.
  destruct (merge_vertex_phase s other vp now) as (s1 & c & -> & Hp4 & HD & He4).
  set (s4 := foldl (merge_label_overwrite other) _ _) in *. clearbody s4.
  pose proof (merge_edges other now (hash_order (map_to_list (edge_endpoints other))) s4 ep
    (NoDup_hash_keys _)) as Hm. cbn zeta in Hm. rewrite HD in Hm.
  rewrite (forallb_perm _ _ _ (hash_order_perm _)) in Hm. fold (all_applicable other (doomed s other vp)) in Hm.
  destruct (try_for (merge_edge other now) _ _) as [[s5 ep5] r5]. cbn [fst snd] in Hm.
  destruct (all_applicable other (doomed s other vp)); [|by destruct r5].
  destruct Hm as (-> & Hv5 & He5).
  destruct (merge_tombstones other now (hash_order (map_to_list (tombstones other))) s5) as (s6 & -> & Hv6 & He6).
  destruct (merge_metadata_parts s6 other) as [Hv7 He7].
  exists (merge_metadata s6 other), c. split; [done|].
  assert (Hv : vertex_properties (merge_metadata s6 other) = vertex_properties s4
    /\ vertex_tombstones (merge_metadata s6 other) = vertex_tombstones s4)
    by (unfold vertex_part in *; split; congruence).
  unfold applied. destruct Hv as [-> ->]. split; [done|]. split; [done|].
  intros k. rewrite He7, He6, He5, hash_keys_map, He4. pose proof (elem_of_hash_keys (tombstones other) k) as Hk.
  destruct (edge_endpoints other !! k) as [e|] eqn:Ek.
  - by rewrite decide_False by (by intros [_ ?]).
  - unfold is_tombstoned. case_decide as Hd.
    + rewrite bool_decide_true by tauto. done.
    + by rewrite bool_decide_false by tauto.
Qed.

(** ** Validation *)

Lemma is_deleted_doomed s other v :
  is_deleted s other v = bool_decide (v ∈ doomed s other (vertex_properties other)).
Proof.
  unfold is_deleted, doomed. rewrite <- bool_decide_or, <- bool_decide_and. apply bool_decide_ext.
  rewrite elem_of_difference, elem_of_union, not_elem_of_dom. tauto.
Qed.

Lemma validate_edge_ok s other e :
  is_ok (validate_edge s other tt e).2 = applicable other (doomed s other (vertex_properties other)) e.
Proof.
  destruct e as [k [[a b] t]]. unfold validate_edge, applicable. cbn [fst snd].
  rewrite !is_deleted_doomed. by repeat case_bool_decide; destruct (is_tombstoned other k).
Qed.

Lemma try_for_validate s other l :
  is_ok (try_for (validate_edge s other) tt l).2
  = forallb (applicable other (doomed s other (vertex_properties other))) l.
Proof.
  induction l as [|e l IH]; [done|]. cbn [try_for forallb]. rewrite <- validate_edge_ok, <- IH.
  destruct (validate_edge s other tt e) as [[] [[]|err]]; done.
Qed.

Lemma validate_ok s other :
  is_ok (validate_merge_edge_endpoints s other)
  = all_applicable other (doomed s other (vertex_properties other)).
Proof.
  unfold validate_merge_edge_endpoints. rewrite try_for_validate. apply forallb_perm, hash_order_perm.
Qed.

Lemma all_applicable_true other D :
  all_applicable other D = true <->
  forall k a b t, edge_endpoints other !! k = Some (a, b, t) -> tombstones other !! k = None ->
    (a ∉ D) /\ (b ∉ D).
Proof.
  unfold all_applicable. rewrite forallb_forall. setoid_rewrite <- list_elem_of_In.
  unfold applicable, is_tombstoned. split.
  - intros H k a b t He Ht. specialize (H (k, (a, b, t))). rewrite elem_of_map_to_list in H. specialize (H He).
    cbn in H. rewrite Ht in H. rewrite (bool_decide_false (is_Some None)) in H by (by intros []). cbn in H.
    repeat case_bool_decide; done.
  - intros H [k [[a b] t]]. rewrite elem_of_map_to_list. intros He. cbn.
    destruct (tombstones other !! k) eqn:Ht; [by rewrite bool_decide_true by (by eexists)|].
    destruct (H k a b t He Ht). by rewrite !bool_decide_false by (done || by intros []).
Qed.

(** A merge that succeeded, on the buffer whose property maps it drains. *)
Lemma merge_take_applied s tx now s' tx' c :
  merge_take s tx now = (s', tx', Ok c) ->
  merge_validated s tx (vertex_properties tx) (edge_properties tx) now = (s', Ok c)
  /\ applied s tx (vertex_properties tx) s'.
Proof.
  intros Hm. unfold merge_take in Hm.
  pose proof (validate_ok s tx) as Hok.
  pose proof (merge_validated_spec s tx (vertex_properties tx) (edge_properties tx) now) as Hs.
  destruct (validate_merge_edge_endpoints s tx) as [[]|e]; [|done]. cbn [is_ok] in Hok. rewrite <- Hok in Hs.
  destruct Hs as (s1 & c1 & Hs & Hap).
  assert (Hs' : merge_validated s (set_edge_properties (fun _ => ∅) (set_vertex_properties (fun _ => ∅) tx))
      (vertex_properties tx) (edge_properties tx) now = (s1, Ok c1)) by exact Hs.
  change (edge_properties (set_vertex_properties (fun _ => ∅) tx)) with (edge_properties tx) in Hm. rewrite Hs' in Hm.
  injection Hm as <- _ <-. done.
Qed.

(** C7: a commit is atomic, and its validation is exact.  A rejected merge
    leaves the main buffer exactly as it was, and is rejected only if the
    merge body itself would have failed part-way (an inserted edge whose
    endpoint is deleted in either buffer and not re-inserted by the
    transaction); an accepted merge runs to its end. *)
Theorem merge_is_atomic s other (now : Z) :
  let r := merge s other now in
  let body := merge_validated s other (vertex_properties other) (edge_properties other) now in
  is_ok r.2 = is_ok body.2
  /\ (is_ok r.2 = false -> r.1 = s)
  /\ (is_ok r.2 = true <->
        forall k a b t, edge_endpoints other !! k = Some (a, b, t) -> tombstones other !! k = None ->
          is_deleted s other a = false /\ is_deleted s other b = false).
Proof.
  pose proof (merge_validated_spec s other (vertex_properties other) (edge_properties other) now) as Hm.
  pose proof (validate_ok s other) as Hv. unfold merge.
  assert (Hall : all_applicable other (doomed s other (vertex_properties other)) = true <->
    forall k a b t, edge_endpoints other !! k = Some (a, b, t) -> tombstones other !! k = None ->
      is_deleted s other a = false /\ is_deleted s other b = false).
  { rewrite all_applicable_true. setoid_rewrite is_deleted_doomed. setoid_rewrite bool_decide_eq_false. done. }
  rewrite <- Hall. rewrite <- Hv in *.
  destruct (validate_merge_edge_endpoints s other) as [[]|e]; cbn [is_ok] in *.
  - destruct Hm as (s' & c & -> & _). done.
  - rewrite Hm. done.
Qed.

(** C8: what a commit does.  After an accepted merge every vertex row is the
    transaction's row merged into the row it found (none if the transaction
    deleted the vertex), the vertex tombstones are those of both buffers less
    the vertices the transaction wrote, and the topology holds the
    transaction's inserted edges, none of its deleted edges, and the main
    buffer's other edges except those of deleted vertices.  Draining the
    transaction's property maps ([merge_take]) instead of copying them gives
    the same main buffer. *)
Theorem merge_applies_transaction s other (now : Z) s' c :
  merge s other now = (s', Ok c) ->
  (forall v, vertex_properties s' !! v =
     let row := if decide (v ∈ vertex_tombstones other) then None else vertex_properties s !! v in
     match vertex_properties other !! v with
     | Some p => Some (merge_crdt_properties (default ∅ row) p)
     | None => row
     end)
  /\ vertex_tombstones s'
     = (vertex_tombstones other ∪ vertex_tombstones s) ∖ dom (vertex_properties other)
  /\ (forall k e, v_edges (t_view (graph s')) !! k = Some e <->
        (edge_endpoints other !! k = Some (src_vid e, dst_vid e, edge_type e) /\ eid e = k
          /\ tombstones other !! k = None)
        \/ (edge_endpoints other !! k = None /\ tombstones other !! k = None
            /\ v_edges (t_view (graph s)) !! k = Some e
            /\ (src_vid e ∉ vertex_tombstones other) /\ (dst_vid e ∉ vertex_tombstones other)))
  /\ (let '(s1, _, r) := merge_take s other now in (s1, r)) = (s', Ok c).
Proof.
  intros Hm. pose proof (merge_validated_spec s other (vertex_properties other) (edge_properties other) now) as Hs.
  pose proof (validate_ok s other) as Hv. unfold merge in Hm. unfold merge_take.
  destruct (validate_merge_edge_endpoints s other) as [[]|e]; [|done]. cbn [is_ok] in Hv.
  rewrite <- Hv, Hm in Hs. destruct Hs as (? & ? & [= <- <-] & Hp & Ht & He).
  split; [exact Hp|]. split; [exact Ht|]. split.
  - intros k e. fold (edge_part s'). rewrite He. unfold merged_edge, is_tombstoned.
    destruct (edge_endpoints other !! k) as [[[a b] t]|]; destruct (tombstones other !! k) eqn:Hk;
      rewrite ?(bool_decide_true (is_Some (Some _))) by (by eexists);
      rewrite ?(bool_decide_false (is_Some None)) by (by intros []).
    + split; [done|]. intros [(_ & _ & ?)|(? & _)]; done.
    + cbn. split; [intros [= <-]; by left|]. intros [([= -> -> ->] & <- & _)|(? & _)]; [by destruct e|done].
    + split; [done|]. intros [(? & _)|(_ & ? & _)]; done.
    + rewrite map_lookup_filter_Some. unfold survives, edge_part. cbn. split; [tauto|].
      intros [(? & _)|(_ & _ & ?)]; [done|tauto].
  - assert (Hb : merge_validated s (set_edge_properties (fun _ => ∅) (set_vertex_properties (fun _ => ∅) other))
      (vertex_properties other) (edge_properties other) now = (s', Ok c)) by exact Hm.
    change (edge_properties (set_vertex_properties (fun _ => ∅) other)) with (edge_properties other).
    by rewrite Hb.
Qed.
End merge.
