(* ===== verification/L0Data.v ===== *)
(** * The data of a buffer, and what the buffer's operations do to it

    A live buffer and the one rebuilt from its log carry different versions,
    clocks and counters; [data] is what they are compared on: rows, tombstones,
    the topology, edge rows and types, label sets with their reverse index, and
    the relabel flags.  Each mutating operation of crates/uni-store/src/runtime/l0.rs
    (vertex and edge writes, deletions with their cascade, relabels), called by
    a merge or by a replay, acts on the data as one of the [d*] functions, which
    know nothing of iteration orders or of the graph's representation. *)

From S2P Require Import Prelude Graph L0State L0 L0Replay L0Merge.

(** ** The data of a buffer *)

Record data (V : Type) := mkData {
  d_rows : gmap Z (Properties V);
  d_dead : gset Z;
  d_edges : gmap Z EdgeEntry;
  d_ends : gmap Z (Z * Z * Z);
  d_eprops : gmap Z (Properties V);
  d_tombs : gmap Z TombstoneEntry;
  d_types : gmap Z string;
  d_over : gset Z;
  d_labels : gmap Z (list string);
  d_index : gmap string (gset Z);
}.
Arguments mkData {V}.
Arguments d_rows {V}.
Arguments d_dead {V}.
Arguments d_edges {V}.
Arguments d_ends {V}.
Arguments d_eprops {V}.
Arguments d_tombs {V}.
Arguments d_types {V}.
Arguments d_over {V}.
Arguments d_labels {V}.
Arguments d_index {V}.

Definition data_of {G V} `{Topology G} (s : L0Buffer G V) : data V :=
  mkData (vertex_properties s) (vertex_tombstones s) (v_edges (t_view (graph s))) (edge_endpoints s)
    (edge_properties s) (tombstones s) (edge_types s) (vertex_label_overwrites s) (vertex_labels s)
    (label_to_vids s).

Lemma data_ext {V} (a b : data V) :
  d_rows a = d_rows b -> d_dead a = d_dead b -> d_edges a = d_edges b -> d_ends a = d_ends b ->
  d_eprops a = d_eprops b -> d_tombs a = d_tombs b -> d_types a = d_types b -> d_over a = d_over b ->
  d_labels a = d_labels b -> d_index a = d_index b -> a = b.
Proof. destruct a, b; cbn. intros; subst; done. Qed.

Section machine.
  Context {V C : Type} `{VV : Values V C}.
  Implicit Types d : data V.

(** Add labels to a vertex. *)
Definition dadd d (v : Z) (ls : list string) : data V :=
  mkData (d_rows d) (d_dead d) (d_edges d) (d_ends d) (d_eprops d) (d_tombs d) (d_types d) (d_over d)
    (<[v := append_unique_labels (default [] (d_labels d !! v)) ls]> (d_labels d))
    (foldl (index_label v) (d_index d) ls).

(** Write a vertex row. *)
Definition dput d (v : Z) (p : Properties V) (ls : list string) : data V :=
  dadd (mkData (<[v := merge_crdt_properties (default ∅ (d_rows d !! v)) p]> (d_rows d))
    (d_dead d ∖ {[v]}) (d_edges d) (d_ends d) (d_eprops d) (d_tombs d) (d_types d) (d_over d)
    (d_labels d) (d_index d)) v ls.

(** The known edges that go with a vertex. *)
Definition touching d (v : Z) : gset Z :=
  dom (filter (fun kv => eid kv.2 = kv.1 /\ ~ avoids v kv) (d_edges d)).
Definition cut d (v : Z) : gmap Z (Z * Z * Z) := filter (fun ke => ke.1 ∈ touching d v) (d_ends d).

Definition unindexed d (v : Z) : gmap string (gset Z) :=
  foldl (unindex_label v) (d_index d) (default [] (d_labels d !! v)).

(** Delete a vertex and its edges. *)
Definition ddel d (v : Z) : data V :=
  mkData (delete v (d_rows d)) ({[v]} ∪ d_dead d) (filter (avoids v) (d_edges d))
    (d_ends d ∖ cut d v) (filter (fun kp => cut d v !! kp.1 = None) (d_eprops d))
    (map_imap (fun k e => Some (mkTomb k e.1.1 e.1.2 e.2)) (cut d v) ∪ d_tombs d)
    (d_types d) (d_over d) (d_labels d) (unindexed d v).

(** Replace the labels of a vertex and flag it. *)
Definition drelabel d (v : Z) (ls : list string) : data V :=
  mkData (d_rows d) (d_dead d) (d_edges d) (d_ends d) (d_eprops d) (d_tombs d) (d_types d)
    ({[v]} ∪ d_over d) (<[v := ls]> (d_labels d)) (foldl (index_label v) (unindexed d v) ls).

(** Labels for a vertex that has none. *)
Definition dmissing d (vl : Z * list string) : data V :=
  match d_labels d !! vl.1 with
  | Some _ => d
  | None =>
      mkData (d_rows d) (d_dead d) (d_edges d) (d_ends d) (d_eprops d) (d_tombs d) (d_types d) (d_over d)
        (<[vl.1 := vl.2]> (d_labels d)) (foldl (index_label vl.1) (d_index d) vl.2)
  end.

(** Insert an edge, unless an endpoint is deleted. *)
Definition dlink d (a b t k : Z) (p : Properties V) (name : option string) : data V :=
  if decide (a ∈ d_dead d \/ b ∈ d_dead d) then d
  else
    mkData (d_rows d) (d_dead d) (<[k := mkEdge k a b t]> (d_edges d)) (<[k := (a, b, t)]> (d_ends d))
      (if decide (p = ∅) then d_eprops d
       else <[k := merge_crdt_properties (default ∅ (d_eprops d !! k)) p]> (d_eprops d))
      (delete k (d_tombs d))
      (match name with Some n => <[k := n]> (d_types d) | None => d_types d end)
      (d_over d) (d_labels d) (d_index d).

(** Delete an edge. *)
Definition dunlink d (k a b t : Z) : data V :=
  mkData (d_rows d) (d_dead d) (delete k (d_edges d)) (d_ends d) (d_eprops d)
    (<[k := mkTomb k a b t]> (d_tombs d)) (d_types d) (d_over d) (d_labels d) (d_index d).
End machine.

(** ** The buffer's operations act on the data *)

Section refine.
  Context {G V C : Type} `{TG : Topology G} `{VV : Values V C} `{HO : HashOrder}.
  Implicit Types s : L0Buffer G V.

Lemma data_add s v ls : data_of (add_vertex_labels s v ls) = dadd (data_of s) v ls.
Proof. reflexivity. Qed.

Lemma data_put s v p ls now :
  data_of (insert_vertex_with_labels_impl s v p ls true now) = dput (data_of s) v p ls.
Proof. apply data_ext; try reflexivity. cbn. by rewrite t_add_vertex_view. Qed.

Lemma data_replay_put s v p ls c u :
  data_of (replay_mutation s (InsertVertex v p ls c u)) = dput (data_of s) v p ls.
Proof.
  destruct c, u; apply data_ext; try reflexivity; cbn; by rewrite t_add_vertex_view.
Qed.

(** The cascade of a deletion, edge by edge. *)
Lemma cascade_maps ver l : forall s k,
  let s' := foldl (cascade_state ver) s l in
  edge_endpoints s' !! k = (if decide (k ∈ l) then None else edge_endpoints s !! k)
  /\ edge_properties s' !! k =
       (if decide (k ∈ l /\ is_Some (edge_endpoints s !! k)) then None else edge_properties s !! k)
  /\ tombstones s' !! k =
       (if decide (k ∈ l /\ is_Some (edge_endpoints s !! k))
        then (fun e => mkTomb k e.1.1 e.1.2 e.2) <$> edge_endpoints s !! k
        else tombstones s !! k).
Proof.
  induction l as [|x l IH]; intros s k; cbn [foldl].
  { assert (Hn : k ∉ @nil Z) by apply not_elem_of_nil. rewrite !decide_False by tauto. done. }
  destruct (IH (cascade_state ver s x) k) as (-> & -> & ->). clear IH.
  assert (Hi : k ∈ x :: l <-> x = k \/ k ∈ l) by (rewrite elem_of_cons; naive_solver).
  pose proof (is_Some_None (A := Z * Z * Z)) as Hnone.
  unfold cascade_state. destruct (edge_endpoints s !! x) as [e|] eqn:Ex; cbn.
  - rewrite !lookup_delete, lookup_insert. destruct (decide (x = k)) as [->|Hne].
    + rewrite Ex. assert (Hsome : is_Some (Some e)) by (by eexists).
      split; [|split]; repeat case_decide; try done; tauto.
    + split; [|split]; repeat case_decide; try done; tauto.
  - destruct (decide (x = k)) as [->|Hne]; [rewrite Ex|];
      (split; [|split]); repeat case_decide; try done; tauto.
Qed.

Lemma incident_touching s v : incident_edges s v = touching (data_of s) v.
Proof.
  apply set_eq. intros k. unfold incident_edges, touching.
  rewrite elem_of_union, !elem_of_list_to_set, !list_elem_of_fmap, elem_of_dom. cbn. split.
  - intros [(e & -> & He)|(e & -> & He)]; apply t_neighbors_view in He as [He Hv]; exists e;
      apply map_lookup_filter_Some; (split; [done|]); (split; [done|]); unfold avoids; cbn in *; tauto.
  - intros [e He]. apply map_lookup_filter_Some in He as (He & Hk & Hv). cbn in Hk, Hv.
    destruct (decide (src_vid e = v)) as [Hs|Hs]; [left|right]; exists e; (split; [done|]);
      apply t_neighbors_view; rewrite Hk; (split; [done|]); [done|].
    cbn. unfold avoids in Hv. cbn in Hv. destruct (decide (dst_vid e = v)); [done|]. tauto.
Qed.

Lemma cascade_keeps ver l : forall s,
  let s' := foldl (cascade_state ver) s l in
  vertex_properties s' = vertex_properties s /\ vertex_tombstones s' = vertex_tombstones s
  /\ edge_types s' = edge_types s /\ vertex_label_overwrites s' = vertex_label_overwrites s
  /\ vertex_labels s' = vertex_labels s /\ label_to_vids s' = label_to_vids s.
Proof.
  induction l as [|k l IH]; intros s; [done|]. cbn [foldl].
  destruct (IH (cascade_state ver s k)) as (-> & -> & -> & -> & -> & ->).
  unfold cascade_state. by destruct (edge_endpoints s !! k).
Qed.

Lemma lookup_cut (d : data V) v k :
  cut d v !! k = if decide (k ∈ touching d v) then d_ends d !! k else None.
Proof.
  unfold cut. case_decide as Hk.
  - destruct (d_ends d !! k) as [e|] eqn:Ee; [by apply map_lookup_filter_Some|].
    apply map_lookup_filter_None. by left.
  - apply map_lookup_filter_None. by right.
Qed.

Lemma data_del s v : data_of (apply_vertex_deletion s v).1 = ddel (data_of s) v.
Proof.
  pose proof (edge_part_deletion s v) as Hedges. unfold edge_part in Hedges.
  rewrite deletion_state in *. rewrite incident_touching in *.
  set (l := hash_order (elements (touching (data_of s) v))) in *.
  assert (Hl : forall k, k ∈ l <-> k ∈ touching (data_of s) v)
    by (intros k; unfold l; by rewrite hash_order_perm, elem_of_elements).
  pose proof (cascade_maps (current_version s) l s) as Hc.
  pose proof (cascade_keeps (current_version s) l s) as Hk. cbn zeta in Hc, Hk.
  set (s1 := foldl (cascade_state (current_version s)) s l) in *. clearbody s1.
  destruct Hk as (H1 & H2 & H3 & H4 & H5 & H6).
  apply data_ext; [| |exact Hedges| | | | | | |]; cbn; rewrite ?H1, ?H2, ?H3, ?H4, ?H5, ?H6; try done;
    try (apply map_eq; intros k; destruct (Hc k) as (E1 & E2 & E3); rewrite ?E1, ?E2, ?E3; clear Hc E1 E2 E3).
  - rewrite lookup_difference, lookup_cut. cbn. destruct (edge_endpoints s !! k);
      repeat case_decide; try done; naive_solver.
  - apply option_eq. intros p. rewrite map_lookup_filter_Some. cbn. rewrite lookup_cut. cbn.
    destruct (edge_endpoints s !! k); unfold is_Some; repeat case_decide; naive_solver.
  - rewrite lookup_union, map_lookup_imap, lookup_cut. cbn.
    destruct (edge_endpoints s !! k) as [e|]; unfold is_Some; repeat case_decide; try done; try naive_solver;
      cbn; by destruct (tombstones s !! k).
  - unfold unindexed. cbn. by destruct (vertex_labels s !! v).
Qed.

Lemma data_delete_vertex s v : exists s' l,
  delete_vertex_impl s v true = (s', Ok l) /\ data_of s' = ddel (data_of s) v.
Proof.
  unfold delete_vertex_impl. pose proof (data_del (set_current_version (Z.add 1) s) v) as Hd.
  destruct (apply_vertex_deletion (set_current_version (Z.add 1) s) v) as [s' l]. by exists s', l.
Qed.

(** The labels a logged deletion restores first. *)
Definition dforget (d : data V) (v : Z) (ls : list string) : data V :=
  ddel (match ls with [] => d | _ => dadd d v ls end) v.

Lemma data_replay_del s v ls :
  data_of (replay_mutation s (DeleteVertex v ls)) = dforget (data_of s) v ls.
Proof. unfold replay_mutation. rewrite data_del. by destruct ls. Qed.

Lemma data_missing s vl : data_of (merge_missing_labels s vl) = dmissing (data_of s) vl.
Proof. unfold merge_missing_labels, dmissing. cbn. by destruct (vertex_labels s !! vl.1). Qed.

Lemma unindexed_data s v :
  unindexed (data_of s) v = match vertex_labels s !! v with
    | Some labels => foldl (unindex_label v) (label_to_vids s) labels
    | None => label_to_vids s
    end.
Proof. unfold unindexed. cbn. by destruct (vertex_labels s !! v). Qed.

Lemma data_relabel other s v :
  data_of (merge_label_overwrite other s v)
  = if decide (v ∈ vertex_tombstones other) then data_of s
    else drelabel (data_of s) v (default [] (vertex_labels other !! v)).
Proof.
  unfold merge_label_overwrite. case_decide; [done|]. apply data_ext; try reflexivity.
  cbn. by rewrite unindexed_data.
Qed.

Lemma data_replay_relabel s v ls :
  data_of (replay_mutation s (SetVertexLabels v ls)) = drelabel (data_of s) v ls.
Proof. apply data_ext; try reflexivity. cbn. by rewrite unindexed_data. Qed.

Lemma data_insertion s a b t k p :
  let r := apply_edge_insertion s a b t k p in
  data_of r.1 = dlink (data_of s) a b t k p None
  /\ (is_ok r.2 = false <-> a ∈ vertex_tombstones s \/ b ∈ vertex_tombstones s).
Proof.
  unfold apply_edge_insertion, dlink. cbn [d_dead data_of].
  destruct (decide (a ∈ vertex_tombstones s)); [rewrite decide_True by tauto; split; [done|tauto]|].
  destruct (decide (b ∈ vertex_tombstones s)); [rewrite decide_True by tauto; split; [done|tauto]|].
  rewrite decide_False by tauto. split; [|cbn; split; [done|tauto]].
  apply data_ext; try reflexivity. cbn. rewrite t_add_edge_view. cbn. by rewrite !ensure_vertex_edges.
Qed.

Lemma dlink_types (d : data V) a b t k p name :
  dlink d a b t k p name
  = if decide (a ∈ d_dead d \/ b ∈ d_dead d) then d
    else let d' := dlink d a b t k p None in
      mkData (d_rows d') (d_dead d') (d_edges d') (d_ends d') (d_eprops d') (d_tombs d')
        (match name with Some n => <[k := n]> (d_types d') | None => d_types d' end)
        (d_over d') (d_labels d') (d_index d').
Proof. unfold dlink. by case_decide. Qed.

Lemma data_insert_edge s a b t k p name now :
  let r := insert_edge_impl s a b t k p name true now in
  is_ok r.2 = true -> data_of r.1 = dlink (data_of s) a b t k p name.
Proof.
  unfold insert_edge_impl. rewrite dlink_types.
  pose proof (data_insertion (set_current_version (Z.add 1) s) a b t k p) as [Hd Hr].
  change (data_of (set_current_version (Z.add 1) s)) with (data_of s) in Hd.
  change (vertex_tombstones (set_current_version (Z.add 1) s)) with (d_dead (data_of s)) in Hr.
  destruct (apply_edge_insertion _ a b t k p) as [s1 [[]|e]]; [|done]. cbn [fst snd is_ok] in *. intros _.
  rewrite decide_False by (intros H; by apply Hr in H). cbn zeta. rewrite <- Hd.
  destruct name; reflexivity.
Qed.

Lemma data_replay_link s a b t k ver p name c u :
  data_of (replay_mutation s (InsertEdge a b t k ver p name c u)) = dlink (data_of s) a b t k p name.
Proof.
  unfold replay_mutation. rewrite dlink_types.
  pose proof (data_insertion (set_current_version (Z.add 1) s) a b t k p) as [Hd Hr].
  change (data_of (set_current_version (Z.add 1) s)) with (data_of s) in Hd.
  change (vertex_tombstones (set_current_version (Z.add 1) s)) with (d_dead (data_of s)) in Hr.
  destruct (apply_edge_insertion _ a b t k p) as [s1 [[]|e]]; cbn [fst snd is_ok] in *.
  - rewrite decide_False by (intros H; by apply Hr in H). cbn zeta. rewrite <- Hd.
    destruct name, c, u; reflexivity.
  - destruct Hr as [Hr _]. specialize (Hr eq_refl). rewrite decide_True by done.
    rewrite Hd. unfold dlink. by rewrite decide_True.
Qed.

Lemma data_delete_edge s k a b t now : exists s',
  delete_edge_impl s k a b t true now = (s', Ok tt) /\ data_of s' = dunlink (data_of s) k a b t.
Proof. eexists. split; [reflexivity|]. apply data_ext; try reflexivity. cbn. by rewrite t_remove_edge_view. Qed.

Lemma data_replay_unlink s k a b t ver name :
  data_of (replay_mutation s (DeleteEdge k a b t ver name)) = dunlink (data_of s) k a b t.
Proof. apply data_ext; try reflexivity. cbn. by rewrite t_remove_edge_view. Qed.
End refine.
