(* ===== verification/L0Keys.v ===== *)
(** * Unique-constraint keys of the L0 buffer

    Serialized keys identify a constraint and its values; the shape of a key
    identifies the constraint.  The key index and its reverse index keep one
    key per vertex and constraint, and deleting a vertex frees its keys. *)

From S2P Require Import Prelude Graph L0State L0 L0Replay.

(** ** Serialized keys *)

Definition nul_free (l : list Z) : Prop := Forall (fun b => b <> 0) l.
#[export] Instance nul_free_dec l : Decision (nul_free l).
Proof. unfold nul_free; apply _. Defined.

Lemma split_nul_app p rest : nul_free p -> split_nul (p ++ 0 :: rest) = p :: split_nul rest.
Proof.
  induction 1 as [|b p Hb Hp IH]; [done|]. cbn [app split_nul].
  destruct (Z.eqb_spec b 0); [done|]. by rewrite IH.
Qed.

(** Parts, each followed by a separator. *)
Definition terminated (parts : list (list Z)) : list Z := concat ((fun p => p ++ [0]) <$> parts).

Lemma terminated_cons p parts : terminated (p :: parts) = (p ++ [0]) ++ terminated parts.
Proof. done. Qed.

Lemma split_terminated parts : Forall nul_free parts -> split_nul (terminated parts) = parts ++ [[]].
Proof.
  induction 1 as [|p parts Hp Hps IH]; [done|]. unfold terminated in *. cbn.
  rewrite <- (assoc_L (++)). cbn. by rewrite split_nul_app, IH.
Qed.

Lemma terminated_inj p q :
  Forall nul_free p -> Forall nul_free q -> terminated p = terminated q -> p = q.
Proof.
  intros Hp Hq He. apply (f_equal split_nul) in He. rewrite !split_terminated in He by done.
  by apply app_inj_tail in He as [-> _].
Qed.

Lemma as_bytes_inj a b : as_bytes a = as_bytes b -> a = b.
Proof.
  unfold as_bytes. intros He.
  rewrite <- (String.string_of_list_ascii_of_string a), <- (String.string_of_list_ascii_of_string b). f_equal.
  revert He. generalize (String.list_ascii_of_string a), (String.list_ascii_of_string b).
  intros x. induction x as [|c x IH]; intros [|d y]; try done. cbn. intros [= Hc Hx]. f_equal; [|by apply IH].
  apply N2Z.inj in Hc. rewrite <- (Ascii.ascii_N_embedding c), Hc. apply Ascii.ascii_N_embedding.
Qed.

Section keys.
  Context {G V C : Type} `{TG : Topology G} `{VV : Values V C} `{HO : HashOrder}.

(** Constraint names and JSON values as the keys carry them. *)
Definition key_parts (label : string) (kvs : list (string * V)) : list (list Z) :=
  as_bytes label :: concat ((fun kv => [as_bytes kv.1; json_bytes kv.2]) <$> sort_by_name kvs).

Definition name_parts (label : string) (kvs : list (string * V)) : list (list Z) :=
  as_bytes label :: ((fun kv => as_bytes kv.1) <$> sort_by_name kvs).

Lemma serialize_terminated label kvs :
  serialize_constraint_key label kvs = terminated (key_parts label kvs).
Proof.
  unfold serialize_constraint_key, terminated, key_parts. cbn. rewrite <- (assoc_L (++)). f_equal. cbn. f_equal.
  induction (sort_by_name kvs) as [|kv l IH]; [done|]. cbn. rewrite IH. unfold serialize_pair.
  by rewrite <- !(assoc_L (++)).
Qed.

(** Names and values without a raw NUL. *)
Definition clean (label : string) (kvs : list (string * V)) : Prop :=
  nul_free (as_bytes label)
  /\ Forall (fun kv => nul_free (as_bytes kv.1) /\ nul_free (json_bytes kv.2)) kvs.

#[export] Instance clean_dec label kvs : Decision (clean label kvs).
Proof. unfold clean; apply _. Defined.

Lemma insert_by_name_perm (x : string * V) l : insert_by_name x l ≡ₚ x :: l.
Proof.
  induction l as [|y l IH]; [done|]. cbn. destruct (String.leb x.1 y.1); [done|].
  rewrite IH. apply Permutation_swap.
Qed.

Lemma sort_by_name_perm (l : list (string * V)) : sort_by_name l ≡ₚ l.
Proof. induction l as [|x l IH]; [done|]. cbn. rewrite insert_by_name_perm. by rewrite IH. Qed.

Lemma clean_parts label kvs :
  clean label kvs -> Forall nul_free (key_parts label kvs) /\ Forall nul_free (name_parts label kvs).
Proof.
  intros [Hl Hk]. rewrite <- (sort_by_name_perm kvs) in Hk. unfold key_parts, name_parts.
  split; constructor; try done.
  - induction Hk as [|kv l [H1 H2] Hk IH]; [constructor|]. cbn. by repeat constructor.
  - induction Hk as [|kv l [H1 H2] Hk IH]; [constructor|]. cbn. by constructor.
Qed.

(** The shape keeps the parts at even distance from the label: the names, and
    the empty part after the last separator. *)
Lemma shape_of_pairs : forall (l : list (string * V)) (i : nat), Nat.odd i = true ->
  concat (imap (fun j part => if decide ((i + j)%nat = 0%nat) then part ++ [0]
                              else if Nat.odd (i + j) then part ++ [0] else [])
    (concat ((fun kv => [as_bytes kv.1; json_bytes kv.2]) <$> l) ++ [[]]))
  = terminated ((fun kv => as_bytes kv.1) <$> l) ++ [0].
Proof.
  induction l as [|kv l IH]; intros i Hi.
  - cbn. rewrite Nat.add_0_r, Hi. destruct i; [done|]. done.
  - cbn [fmap list_fmap concat app imap]. unfold compose. cbn beta. rewrite Nat.add_0_r, Hi.
    destruct (decide (i = 0%nat)) as [->|_]; [done|].
    assert (Hi1 : Nat.odd (i + 1) = false) by (rewrite Nat.add_1_r, Nat.odd_succ; by rewrite <- Nat.negb_odd, Hi).
    rewrite Hi1. destruct (decide ((i + 1)%nat = 0%nat)); [lia|].
    rewrite terminated_cons, <- !(assoc_L (++)). f_equal. f_equal. cbn [app]. rewrite <- (IH (S (S i))).
    + f_equal. apply imap_ext. intros j part _. cbn.
      replace (S (S (i + j))) with (i + S (S j))%nat by lia. done.
    + by rewrite Nat.odd_succ_succ.
Qed.

Lemma shape_serialize label kvs :
  clean label kvs ->
  constraint_key_shape (serialize_constraint_key label kvs) = terminated (name_parts label kvs) ++ [0].
Proof.
  intros Hc. destruct (clean_parts _ _ Hc) as [Hp _]. unfold constraint_key_shape.
  rewrite serialize_terminated, split_terminated by done. unfold key_parts, name_parts.
  rewrite terminated_cons, <- !(assoc_L (++)). cbn [app imap concat].
  rewrite decide_True, <- (assoc_L (++)) by done. f_equal. cbn [app]. f_equal.
  rewrite <- (shape_of_pairs _ 1) by done. reflexivity.
Qed.

(** Keys are unambiguous.  For names and JSON values without a raw NUL
    byte, two serialized keys are equal exactly when they carry the same label,
    the same sorted property names and the same values, and they have the same
    shape exactly when the label and the sorted names agree: the shape
    identifies the constraint and nothing else. *)
Theorem constraint_keys_unambiguous l1 (k1 : list (string * V)) l2 k2 :
  clean l1 k1 -> clean l2 k2 ->
  (serialize_constraint_key l1 k1 = serialize_constraint_key l2 k2
     <-> l1 = l2 /\ (fun kv => (kv.1, json_bytes kv.2)) <$> sort_by_name k1
                   = (fun kv => (kv.1, json_bytes kv.2)) <$> sort_by_name k2)
  /\ (constraint_key_shape (serialize_constraint_key l1 k1)
       = constraint_key_shape (serialize_constraint_key l2 k2)
     <-> l1 = l2 /\ (sort_by_name k1).*1 = (sort_by_name k2).*1).
Proof.
  intros H1 H2. destruct (clean_parts _ _ H1) as [K1 N1], (clean_parts _ _ H2) as [K2 N2]. split.
  - rewrite !serialize_terminated. split.
    + intros He. apply terminated_inj in He; [|done..]. unfold key_parts in He.
      injection He as Hl Hk. split; [by apply as_bytes_inj|]. revert Hk.
      generalize (sort_by_name k1), (sort_by_name k2). clear. intros a.
      induction a as [|x a IH]; intros [|y b]; cbn; try done.
      intros [= Hn Hj Hab]. f_equal; [|by apply IH]. f_equal; [by apply as_bytes_inj|done].
    + intros [-> Hk]. f_equal. unfold key_parts. f_equal. revert Hk.
      generalize (sort_by_name k1), (sort_by_name k2). clear. intros a.
      induction a as [|x a IH]; intros [|y b]; cbn; try done. intros [= Hn Hj Hab]. by rewrite Hn, Hj, (IH b).
  - rewrite !shape_serialize by done. split.
    + intros He. apply app_inj_tail in He as [He _]. apply terminated_inj in He; [|done..].
      unfold name_parts in He. injection He as Hl Hk. split; [by apply as_bytes_inj|]. revert Hk.
      generalize (sort_by_name k1), (sort_by_name k2). clear. intros a.
      induction a as [|x a IH]; intros [|y b]; cbn; try done. intros [= Hn Hab].
      f_equal; [by apply as_bytes_inj|by apply IH].
    + intros [-> Hk]. f_equal. f_equal. unfold name_parts. f_equal. revert Hk.
      generalize (sort_by_name k1), (sort_by_name k2). clear. intros a.
      induction a as [|x a IH]; intros [|y b]; cbn; try done. intros [= Hn Hab]. by rewrite Hn, (IH b).
Qed.
End keys.

(** ** The key index *)

Section index.
  Context {G V C : Type} `{TG : Topology G} `{VV : Values V C} `{HO : HashOrder}.
  Implicit Types s : L0Buffer G V.

(** The keys the reverse index lists for a vertex. *)
Definition held s (vid : Z) : list Key := default [] (constraint_keys_by_vid s !! vid).

(** The reverse index covers the index, and lists one key per shape. *)
Record keys_inv s : Prop := {
  ki_covered key vid : constraint_index s !! key = Some vid -> key ∈ held s vid;
  ki_shape vid k1 k2 : k1 ∈ held s vid -> k2 ∈ held s vid ->
    constraint_key_shape k1 = constraint_key_shape k2 -> k1 = k2;
}.

Lemma release_all_lookup (vid : Z) (ks : list Key) (ix : gmap Key Z) (k : Key) (u : Z) :
  foldl (release vid) ix ks !! k = Some u <-> ix !! k = Some u /\ (u = vid -> k ∉ ks).
Proof.
  revert ix. induction ks as [|x ks IH]; intros ix; cbn [foldl].
  { split; [|by intros [? _]]. intros H. split; [done|]. intros _. apply not_elem_of_nil. }
  rewrite IH. unfold release. case_decide as Hx.
  - rewrite lookup_delete_Some. rewrite not_elem_of_cons. split.
    + intros [[Hne Hk] Hu]. split; [done|]. intros ->. split; [congruence|auto].
    + intros [Hk Hu]. split; [|intros ->; by apply Hu]. split; [|done]. intros ->.
      assert (u = vid) by congruence. by destruct (Hu ltac:(done)).
  - rewrite not_elem_of_cons. split; intros [Hk Hu]; (split; [done|]); intros ->.
    + split; [congruence|auto].
    + by apply Hu.
Qed.

Lemma held_insert s key vid u :
  held (insert_constraint_key s key vid) u
  = if decide (u = vid) then push_unique key (filter (fun old => ~ is_stale key old) (held s vid)) else held s u.
Proof.
  unfold held. cbn. rewrite lookup_insert. destruct (decide (u = vid)) as [->|Hne].
  - by rewrite decide_True.
  - by rewrite decide_False by congruence.
Qed.

Lemma elem_of_push_unique key ks k : k ∈ push_unique key ks <-> k = key \/ k ∈ ks.
Proof.
  unfold push_unique. case_decide as Hk.
  - split; [auto|]. by intros [->|].
  - rewrite elem_of_app, list_elem_of_singleton. tauto.
Qed.

Lemma index_insert s key vid k u :
  constraint_index (insert_constraint_key s key vid) !! k = Some u <->
  (k = key /\ u = vid)
  \/ (k <> key /\ constraint_index s !! k = Some u /\ (u = vid -> ~ (is_stale key k /\ k ∈ held s vid))).
Proof.
  cbn. rewrite lookup_insert. destruct (decide (key = k)) as [<-|Hne].
  - split; [intros [= <-]; auto|]. intros [[_ ->]|[? _]]; done.
  - rewrite release_all_lookup. setoid_rewrite list_elem_of_filter. split.
    + intros H. right. split; [done|]. exact H.
    + intros [[-> _]|[_ H]]; done.
Qed.

Lemma insert_key_inv s key vid : keys_inv s -> keys_inv (insert_constraint_key s key vid).
Proof.
  intros [Hc Hs]. split.
  - intros k u. rewrite index_insert, held_insert. intros [[-> ->]|(Hne & Hk & Hu)].
    + rewrite decide_True by done. apply elem_of_push_unique. by left.
    + case_decide as Huv; [|by apply Hc]. subst. apply elem_of_push_unique. right.
      apply list_elem_of_filter. split; [|by apply Hc]. intros Hst. apply (Hu eq_refl). split; [done|by apply Hc].
  - intros u k1 k2. rewrite held_insert. case_decide as Huv; [subst|by apply Hs].
    rewrite !elem_of_push_unique, !list_elem_of_filter. unfold is_stale.
    intros [->|[Hs1 H1]] [->|[Hs2 H2]] Hsh; [done| | |by apply (Hs vid)].
    + destruct (decide (k2 = key)); [done|]. exfalso. apply Hs2. done.
    + destruct (decide (k1 = key)); [done|]. exfalso. apply Hs1. done.
Qed.

Definition key_part s : gmap Key Z * gmap Z (list Key) := (constraint_index s, constraint_keys_by_vid s).

Lemma key_part_cascade v l s : key_part (foldl (cascade_state v) s l) = key_part s.
Proof.
  revert s. induction l as [|k l IH]; intros s; [done|]. cbn [foldl]. rewrite IH.
  unfold cascade_state. by destruct (edge_endpoints s !! k).
Qed.

Lemma key_part_deletion s vid :
  key_part (apply_vertex_deletion s vid).1
  = (foldl (release vid) (constraint_index s) (held s vid), delete vid (constraint_keys_by_vid s)).
Proof.
  rewrite deletion_state. pose proof (key_part_cascade (current_version s)
    (hash_order (elements (incident_edges s vid))) s) as H1. unfold key_part in *. injection H1 as H1 H2.
  cbn. by rewrite H1, H2.
Qed.

Lemma deletion_inv s vid : keys_inv s -> keys_inv (apply_vertex_deletion s vid).1.
Proof.
  intros [Hc Hs]. pose proof (key_part_deletion s vid) as Hk. unfold key_part in Hk. injection Hk as H1 H2.
  split.
  - intros k u. unfold held. rewrite H1, H2, release_all_lookup, lookup_delete. intros [Hk Hu].
    destruct (decide (vid = u)) as [<-|Hne]; [|by apply Hc]. exfalso. by apply Hu, Hc.
  - intros u k1 k2. unfold held. rewrite H2, lookup_delete. case_decide; [by intros ?%not_elem_of_nil|]. apply Hs.
Qed.

(** A key is a duplicate for a vertex when another one owns it. *)
Lemma has_key_iff s k u : has_constraint_key s k u = true <-> exists w, constraint_index s !! k = Some w /\ w <> u.
Proof.
  unfold has_constraint_key, held_by_other. destruct (constraint_index s !! k) as [w|]; [|naive_solver].
  rewrite negb_true_iff, Z.eqb_neq. naive_solver.
Qed.

(** C40: the unique-constraint index is exact.  Claiming a key for a vertex
    makes the vertex its owner, so that the key is then a duplicate for exactly
    the other vertices, frees the key it held before for the same
    constraint (and nothing of another vertex or constraint), and leaves every
    vertex with at most one key per constraint; deleting a vertex, cascade
    included, makes all of its keys available again and no others; and the
    duplicate test answers exactly whether another vertex owns the key. *)
Theorem constraint_index_exact s (key : Key) (vid : Z) :
  keys_inv s ->
  (let s' := insert_constraint_key s key vid in
   keys_inv s'
   /\ constraint_index s' !! key = Some vid
   /\ (forall u, has_constraint_key s' key u = true <-> u <> vid)
   /\ (forall k, constraint_index s' !! k = Some vid -> constraint_key_shape k = constraint_key_shape key -> k = key)
   /\ (forall k u, k <> key -> u <> vid \/ constraint_key_shape k <> constraint_key_shape key ->
        (constraint_index s' !! k = Some u <-> constraint_index s !! k = Some u)))
  /\ (let s' := (apply_vertex_deletion s vid).1 in
      keys_inv s'
      /\ (forall k u, constraint_index s !! k = Some vid -> has_constraint_key s' k u = false)
      /\ (forall k u, constraint_index s' !! k = Some u <-> constraint_index s !! k = Some u /\ u <> vid))
  /\ (forall k u, has_constraint_key s k u = true <-> exists w, constraint_index s !! k = Some w /\ w <> u).
Proof.
  intros Hinv. split; [|split; [|apply has_key_iff]].
  - assert (Hi := insert_key_inv s key vid Hinv). split; [done|].
    assert (Hown : constraint_index (insert_constraint_key s key vid) !! key = Some vid) by (apply index_insert; by left).
    split; [done|]. split; [|split].
    + intros u. rewrite has_key_iff. setoid_rewrite Hown. naive_solver.
    + intros k Hk Hsh. apply (ki_shape _ Hi vid); [by apply ki_covered| |done].
      apply (ki_covered _ Hi). apply index_insert. by left.
    + intros k u Hne Hor. rewrite index_insert. split; [by intros [[-> _]|(_ & ? & _)]|].
      intros Hk. right. split; [done|]. split; [done|]. intros -> [[_ Hsh] _]. destruct Hor; done.
  - pose proof (key_part_deletion s vid) as Hk. unfold key_part in Hk. injection Hk as H1 H2.
    assert (Hix : forall k u, constraint_index (apply_vertex_deletion s vid).1 !! k = Some u
      <-> constraint_index s !! k = Some u /\ u <> vid).
    { intros k u. rewrite H1, release_all_lookup. split; intros [Hk Hu]; (split; [done|]).
      - intros ->. by apply Hu, (ki_covered _ Hinv).
      - by intros ->. }
    split; [by apply deletion_inv|]. split; [|done].
    intros k u Hk. unfold has_constraint_key, held_by_other.
    destruct (constraint_index (apply_vertex_deletion s vid).1 !! k) as [w|] eqn:Ek; [|done].
    apply Hix in Ek as [Ek Hne]. congruence.
Qed.
End index.
