(* ===== verification/Occ.v ===== *)
(** * Optimistic concurrency control

    crates/uni-store/src/runtime/occ.rs: write sets, the bounded registry of
    committed write sets, and the commit-time conflict check.  The registry is
    studied as a state machine over commits and fences, against the full
    history it forgets. *)

From S2P Require Import Prelude Graph L0State L0.

Record WriteSet := mkWS {
  vertices : gset Z;
  edges : gset Z;
  vertex_keys : gset Key;
  edge_keys : gset Key;
  merge_keys : gset Key;
  ext_ids : gset string;
}.
Definition WriteSet_default : WriteSet := mkWS ∅ ∅ ∅ ∅ ∅ ∅.

Section from_l0.
  Context {G V C : Type} `{TG : Topology G} `{VV : Values V C} `{HO : HashOrder}.

(** Every property is a CRDT value and no labels are asserted. *)
Definition is_crdt_carveout (l0 : L0Buffer G V) (vid : Z) (props : Properties V) : bool :=
  let label_changed := match vertex_labels l0 !! vid with
                       | Some labels => bool_decide (labels <> [])
                       | None => false
                       end in
  let all_crdt := bool_decide (props <> ∅)
                  && bool_decide (map_Forall (fun _ v => is_Some (try_as_crdt v)) props) in
  all_crdt && negb label_changed.

Definition from_l0 (l0 : L0Buffer G V) : WriteSet :=
  mkWS
    (dom (filter (fun kv => is_crdt_carveout l0 kv.1 kv.2 = false) (vertex_properties l0))
       ∪ vertex_tombstones l0 ∪ vertex_label_overwrites l0)
    (dom (edge_properties l0) ∪ dom (edge_endpoints l0) ∪ dom (tombstones l0))
    (dom (constraint_index l0)) (dom (edge_constraint_index l0))
    (dom (merge_guard_index l0)) (dom (extid_index l0)).

Record CrdtVariantConflict := mkVariant { vc_vid : Z; vc_property : string }.

Context (type_name : C -> string).

(** The first property of a carved-out write whose committed value is a
    different CRDT variant. *)
Definition variant_mismatch (existing_props : Properties V) (kv : string * V) : bool :=
  match try_as_crdt kv.2, existing_props !! kv.1 ≫= try_as_crdt with
  | Some new_crdt, Some existing_crdt => bool_decide (type_name new_crdt <> type_name existing_crdt)
  | _, _ => false
  end.

Definition carveout_row (tx_l0 main : L0Buffer G V) (row : Z * Properties V) : option CrdtVariantConflict :=
  let '(vid, props) := row in
  if bool_decide (vid ∈ vertex_tombstones tx_l0) || negb (is_crdt_carveout tx_l0 vid props) then None
  else match vertex_properties main !! vid with
       | None => None
       | Some existing_props =>
           match list_find (fun kv => variant_mismatch existing_props kv = true)
                   (hash_order (map_to_list props)) with
           | Some (_, kv) => Some (mkVariant vid kv.1)
           | None => None
           end
       end.

Fixpoint first_some {A B} (f : A -> option B) (l : list A) : option B :=
  match l with
  | [] => None
  | a :: l => match f a with Some b => Some b | None => first_some f l end
  end.

Definition crdt_carveout_overwrite (tx_l0 main : L0Buffer G V) : option CrdtVariantConflict :=
  first_some (carveout_row tx_l0 main) (hash_order (map_to_list (vertex_properties tx_l0))).
End from_l0.

Definition is_empty (w : WriteSet) : bool :=
  bool_decide (vertices w = ∅) && bool_decide (edges w = ∅) && bool_decide (vertex_keys w = ∅)
  && bool_decide (edge_keys w = ∅) && bool_decide (merge_keys w = ∅) && bool_decide (ext_ids w = ∅).

Inductive KeyKind := VertexConstraint | EdgeConstraint | MERGE | ExtId.

Definition conflicting_key_kind (self other : WriteSet) : option KeyKind :=
  if negb (bool_decide (vertex_keys self ## vertex_keys other)) then Some VertexConstraint
  else if negb (bool_decide (edge_keys self ## edge_keys other)) then Some EdgeConstraint
  else if negb (bool_decide (merge_keys self ## merge_keys other)) then Some MERGE
  else if negb (bool_decide (ext_ids self ## ext_ids other)) then Some ExtId
  else None.

(** [small.iter().any(|x| large.contains(x))], the smaller side walked. *)
Definition any_common (a b : gset Z) : bool :=
  let '(small, large) := if (size a <=? size b)%nat then (a, b) else (b, a) in
  existsb (fun x => bool_decide (x ∈ large)) (elements small).

Definition intersects (self other : WriteSet) : bool :=
  any_common (vertices self) (vertices other) || any_common (edges self) (edges other).

Definition read_set_intersects (rs : OccReadSet) (w : WriteSet) : bool :=
  existsb (fun v => bool_decide (v ∈ vertices w)) (elements (read_vertices rs))
  || existsb (fun e => bool_decide (e ∈ edges w)) (elements (read_edges rs)).

Inductive Conflict :=
| ConflictKey (seq : Z) (kind : KeyKind)
| WriteWrite (seq : Z)
| ReadWrite (seq : Z)
| HistoryTruncated (read_seq oldest : Z).

Record CommitRegistry := mkRegistry { entries : list (Z * WriteSet); capacity : nat }.

(** [new] asserts a non-zero capacity. *)
Definition new (cap : nat) : option CommitRegistry :=
  match cap with O => None | _ => Some (mkRegistry [] cap) end.

(** [while entries.len() > capacity { entries.pop_front() }] *)
Definition prune (cap : nat) (l : list (Z * WriteSet)) : list (Z * WriteSet) :=
  drop (length l - cap) l.

Definition record (r : CommitRegistry) (seq : Z) (ws : WriteSet) : CommitRegistry :=
  mkRegistry (prune (capacity r) (entries r ++ [(seq, ws)])) (capacity r).

(** The registry with the writer's commit sequence: [seq.fetch_add(1) + 1]. *)
Definition commit (r : CommitRegistry) (seq : Z) (ws : WriteSet) : CommitRegistry * Z :=
  let next := wrapping_add_u64 seq 1 in (record r next ws, next).

Definition fence (r : CommitRegistry) (seq : Z) : CommitRegistry * Z :=
  let next := wrapping_add_u64 seq 2 in (mkRegistry [(next, WriteSet_default)] (capacity r), next).

Definition check_entry (ws : WriteSet) (rs : option OccReadSet) (seq : Z) (committed : WriteSet) :
    option Conflict :=
  if intersects ws committed then Some (WriteWrite seq)
  else match conflicting_key_kind ws committed with
       | Some kind => Some (ConflictKey seq kind)
       | None =>
           match rs with
           | Some rs => if read_set_intersects rs committed then Some (ReadWrite seq) else None
           | None => None
           end
       end.

Fixpoint check_entries (read_seq : Z) (ws : WriteSet) (rs : option OccReadSet)
    (l : list (Z * WriteSet)) : option Conflict :=
  match l with
  | [] => None
  | (seq, committed) :: l =>
      if seq <=? read_seq then check_entries read_seq ws rs l
      else match check_entry ws rs seq committed with
           | Some c => Some c
           | None => check_entries read_seq ws rs l
           end
  end.

Definition check (r : CommitRegistry) (read_seq : Z) (ws : WriteSet) (rs : option OccReadSet) :
    option Conflict :=
  match entries r with
  | (oldest, _) :: _ =>
      if saturating_add_u64 read_seq 1 <? oldest then Some (HistoryTruncated read_seq oldest)
      else check_entries read_seq ws rs (entries r)
  | [] => None
  end.

(** ** Set tests *)

Lemma existsb_disjoint (x y : gset Z) :
  existsb (fun z => bool_decide (z ∈ y)) (elements x) = false <-> x ## y.
Proof.
  rewrite <- not_true_iff_false, existsb_exists. setoid_rewrite <- list_elem_of_In.
  setoid_rewrite elem_of_elements. setoid_rewrite bool_decide_eq_true. rewrite elem_of_disjoint. naive_solver.
Qed.

Lemma any_common_spec a b : any_common a b = false <-> a ## b.
Proof.
  unfold any_common. destruct (_ <=? _)%nat; rewrite existsb_disjoint; [done|].
  split; intros H; by apply disjoint_sym.
Qed.

Lemma intersects_spec a b :
  intersects a b = false <-> vertices a ## vertices b /\ edges a ## edges b.
Proof. unfold intersects. rewrite orb_false_iff, !any_common_spec. done. Qed.

Lemma read_set_intersects_spec rs w :
  read_set_intersects rs w = false <-> read_vertices rs ## vertices w /\ read_edges rs ## edges w.
Proof. unfold read_set_intersects. by rewrite orb_false_iff, !existsb_disjoint. Qed.

Lemma conflicting_key_spec a b :
  conflicting_key_kind a b = None <->
  vertex_keys a ## vertex_keys b /\ edge_keys a ## edge_keys b
  /\ merge_keys a ## merge_keys b /\ ext_ids a ## ext_ids b.
Proof. unfold conflicting_key_kind. repeat case_bool_decide; cbn [negb]; split; (done || tauto). Qed.

(** ** The registry against the full history

    A run of the writer: commits, each recording its write set, and fences,
    which replace the database wholesale.  [hist] is everything that happened; the registry keeps a
    bounded part of it. *)

Inductive event := Commit (ws : WriteSet) | Fence.

Record sys := mkSys { reg : CommitRegistry; seq : Z; hist : list (Z * event) }.

Section registry.
  Context (cap : nat) (start : Z).
  Implicit Types s : sys.

(** The sequence is a 64-bit counter that a run does not exhaust. *)
Inductive step : sys -> sys -> Prop :=
| step_commit s ws r' n :
    seq s + 1 < 2 ^ 64 -> commit (reg s) (seq s) ws = (r', n) ->
    step s (mkSys r' n (hist s ++ [(n, Commit ws)]))
| step_fence s r' n :
    seq s + 2 < 2 ^ 64 -> fence (reg s) (seq s) = (r', n) ->
    step s (mkSys r' n (hist s ++ [(n, Fence)])).

Inductive reachable : sys -> Prop :=
| reach_init r : new cap = Some r -> is_u64 start -> reachable (mkSys r start [])
| reach_step s s' : reachable s -> step s s' -> reachable s'.

(** The entry an event leaves in the registry. *)
Definition entry_of (e : event) : WriteSet :=
  match e with Commit ws => ws | Fence => WriteSet_default end.

(** The sequence number before the oldest retained entry. *)
Definition floor s : Z := seq s - Z.of_nat (length (entries (reg s))).

Record inv s : Prop := {
  inv_cap : capacity (reg s) = cap /\ (0 < cap)%nat /\ (length (entries (reg s)) <= cap)%nat;
  inv_seq : 0 <= start /\ start <= floor s /\ seq s < 2 ^ 64;
  inv_numbers i n w : entries (reg s) !! i = Some (n, w) -> n = floor s + 1 + Z.of_nat i;
  inv_from n w : (n, w) ∈ entries (reg s) -> exists e, (n, e) ∈ hist s /\ w = entry_of e;
  inv_kept n e : (n, e) ∈ hist s -> floor s < n -> (n, entry_of e) ∈ entries (reg s);
  inv_fence n : (n, Fence) ∈ hist s -> n <= floor s + 1;
  inv_range n e : (n, e) ∈ hist s -> start < n <= seq s;
  inv_floor : floor s = start \/ (floor s + 1, Fence) ∈ hist s
              \/ length (entries (reg s)) = cap;
  inv_empty : entries (reg s) = [] -> hist s = [];
  inv_order : StronglySorted Z.lt (hist s).*1;
}.

(** Recording keeps everything, or forgets the oldest entry at capacity. *)
Lemma prune_drop (l : list (Z * WriteSet)) x :
  (0 < cap)%nat -> (length l <= cap)%nat ->
  exists k, prune cap (l ++ [x]) = drop k l ++ [x]
    /\ ((k = 0%nat /\ (length l < cap)%nat) \/ (k = 1%nat /\ length l = cap)).
Proof.
  intros Hc Hl. unfold prune. rewrite length_app. cbn. destruct (decide (length l < cap)%nat).
  - exists 0%nat. replace (length l + 1 - cap)%nat with 0%nat by lia. auto.
  - exists 1%nat. replace (length l + 1 - cap)%nat with 1%nat by lia.
    split; [destruct l; [cbn in *; lia|done]|]. right. split; [done|lia].
Qed.

Lemma sorted_snoc (l : list Z) n :
  StronglySorted Z.lt l -> Forall (fun x => x < n) l -> StronglySorted Z.lt (l ++ [n]).
Proof.
  induction 1 as [|x l Hs IH Hx]; intros Hf; cbn; [repeat constructor|].
  inversion Hf; subst. constructor; [by apply IH|]. apply Forall_app. split; [done|]. by constructor.
Qed.

Lemma inv_init r : new cap = Some r -> is_u64 start -> inv (mkSys r start []).
Proof.
  intros Hr [H0 H1].
  assert (r = mkRegistry [] cap /\ (0 < cap)%nat) as [-> Hc].
  { unfold new in Hr. destruct cap; [done|]. injection Hr as <-. split; [done|lia]. }
  split; unfold floor; cbn.
  - lia.
  - lia.
  - intros i n w Hi. by rewrite lookup_nil in Hi.
  - intros n w Hn. by apply not_elem_of_nil in Hn.
  - intros n e Hn. by apply not_elem_of_nil in Hn.
  - intros n Hn. by apply not_elem_of_nil in Hn.
  - intros n e Hn. by apply not_elem_of_nil in Hn.
  - left. lia.
  - done.
  - constructor.
Qed.

Lemma hist_below s : inv s -> Forall (fun x => x < seq s + 1) (hist s).*1.
Proof.
  intros Hi. apply Forall_forall. intros n Hn. apply list_elem_of_fmap in Hn as ([m e] & -> & Hn).
  apply (inv_range _ Hi) in Hn. cbn. lia.
Qed.

Lemma floor_le_seq s : floor s <= seq s.
Proof. unfold floor. lia. Qed.

Lemma inv_commit s ws r' n :
  inv s -> seq s + 1 < 2 ^ 64 -> commit (reg s) (seq s) ws = (r', n) ->
  inv (mkSys r' n (hist s ++ [(n, Commit ws)])).
Proof.
  intros Hi Hlt Hc. destruct (inv_cap _ Hi) as (Hcap & Hpos & Hlen). destruct (inv_seq _ Hi) as (H0 & Hst & _).
  pose proof (floor_le_seq s). unfold commit in Hc. rewrite wrapping_add_small in Hc by lia.
  injection Hc as <- <-.
  assert (He : exists k, entries (record (reg s) (seq s + 1) ws) = drop k (entries (reg s)) ++ [(seq s + 1, ws)]
    /\ ((k = 0%nat /\ (length (entries (reg s)) < cap)%nat) \/ (k = 1%nat /\ length (entries (reg s)) = cap))).
  { unfold record. cbn. rewrite Hcap. by apply prune_drop. }
  destruct He as (k & He & Hk).
  assert (Hkl : (k <= length (entries (reg s)))%nat) by lia.
  set (s' := mkSys _ _ _).
  assert (Hfl : floor s' = floor s + Z.of_nat k).
  { unfold floor, s'. cbn [reg seq]. rewrite He, length_app, length_drop. cbn. lia. }
  split; cbn [reg seq hist s'].
  - split; [exact Hcap|]. split; [done|]. rewrite He, length_app, length_drop. cbn. lia.
  - rewrite Hfl. lia.
  - intros i n w. rewrite He, Hfl. intros [Hl|[Hge Hl]]%lookup_app_Some.
    + rewrite lookup_drop in Hl. apply (inv_numbers _ Hi) in Hl. lia.
    + rewrite length_drop in *. apply list_lookup_singleton_Some in Hl as [Hz [= <- <-]]. unfold floor. lia.
  - intros n w. rewrite He. setoid_rewrite elem_of_app. intros [Hn|Hn].
    + assert (Hn' : (n, w) ∈ entries (reg s)).
      { apply list_elem_of_lookup in Hn as [i Hl]. rewrite lookup_drop in Hl. by apply list_elem_of_lookup_2 in Hl. }
      destruct (inv_from _ Hi _ _ Hn') as (e & He' & ->). eauto.
    + apply list_elem_of_singleton in Hn as [= -> ->]. exists (Commit ws). split; [right; by left|done].
  - intros n e. rewrite He, Hfl, !elem_of_app. intros [Hn|Hn] Hf.
    + left. destruct (list_elem_of_lookup_1 _ _ (inv_kept _ Hi _ _ Hn ltac:(lia))) as [i Hl].
      pose proof (inv_numbers _ Hi _ _ _ Hl). apply list_elem_of_lookup. exists (i - k)%nat.
      rewrite lookup_drop. by replace (k + (i - k))%nat with i by lia.
    + apply list_elem_of_singleton in Hn as [= -> ->]. right. by left.
  - intros n. rewrite Hfl, elem_of_app. intros [Hn|Hn].
    + apply (inv_fence _ Hi) in Hn. lia.
    + by apply list_elem_of_singleton in Hn.
  - intros n e. rewrite elem_of_app. intros [Hn|Hn].
    + apply (inv_range _ Hi) in Hn. lia.
    + apply list_elem_of_singleton in Hn as [= -> ->]. lia.
  - rewrite Hfl. destruct Hk as [[-> Hk]|[-> Hk]].
    + rewrite Z.add_0_r. destruct (inv_floor _ Hi) as [?|[Hu|?]]; [auto| |lia].
      right. left. apply elem_of_app. by left.
    + right. right. rewrite He, length_app, length_drop. cbn. lia.
  - rewrite He. by destruct (drop k (entries (reg s))).
  - rewrite fmap_app. apply sorted_snoc; [apply Hi|by apply hist_below].
Qed.

Lemma inv_fence_step s r' n :
  inv s -> seq s + 2 < 2 ^ 64 -> fence (reg s) (seq s) = (r', n) ->
  inv (mkSys r' n (hist s ++ [(n, Fence)])).
Proof.
  intros Hi Hlt Hc. destruct (inv_cap _ Hi) as (Hcap & Hpos & Hlen). destruct (inv_seq _ Hi) as (H0 & Hst & _).
  pose proof (floor_le_seq s). unfold fence in Hc. rewrite wrapping_add_small in Hc by lia. injection Hc as <- <-.
  set (s' := mkSys _ _ _). assert (Hfl : floor s' = seq s + 1) by (unfold floor, s'; cbn; lia).
  split; cbn [reg seq hist s' entries capacity].
  - split; [exact Hcap|]. split; [done|]. cbn. lia.
  - rewrite Hfl. lia.
  - intros i n w [-> [= <- <-]]%list_lookup_singleton_Some. rewrite Hfl. lia.
  - intros n w [= -> ->]%list_elem_of_singleton. exists (Fence). split; [|done]. apply elem_of_app. right. by left.
  - intros n e. rewrite Hfl, elem_of_app. intros [Hn|Hn] Hf.
    + apply (inv_range _ Hi) in Hn. lia.
    + apply list_elem_of_singleton in Hn as [= -> ->]. by left.
  - intros n. rewrite Hfl, elem_of_app. intros [Hn|Hn].
    + apply (inv_range _ Hi) in Hn. lia.
    + apply list_elem_of_singleton in Hn as [= ->]. lia.
  - intros n e. rewrite elem_of_app. intros [Hn|Hn].
    + apply (inv_range _ Hi) in Hn. lia.
    + apply list_elem_of_singleton in Hn as [= -> ->]. lia.
  - right. left. rewrite Hfl. replace (seq s + 1 + 1) with (seq s + 2) by lia.
    apply elem_of_app. right. by left.
  - done.
  - rewrite fmap_app. apply sorted_snoc; [apply Hi|].
    eapply Forall_impl; [by apply hist_below|]. cbn. lia.
Qed.

Lemma reachable_inv s : reachable s -> inv s.
Proof.
  induction 1 as [r Hr Hs|s s' Hr IH Hstep]; [by apply inv_init|].
  inversion Hstep; subst; [by eapply inv_commit|by eapply inv_fence_step].
Qed.

(** ** The check *)

Definition no_conflict (ws : WriteSet) (rs : option OccReadSet) (committed : WriteSet) : Prop :=
  (vertices ws ## vertices committed /\ edges ws ## edges committed)
  /\ (vertex_keys ws ## vertex_keys committed /\ edge_keys ws ## edge_keys committed
      /\ merge_keys ws ## merge_keys committed /\ ext_ids ws ## ext_ids committed)
  /\ (forall r, rs = Some r -> read_vertices r ## vertices committed /\ read_edges r ## edges committed).

(** The number a conflict names. *)
Definition conflict_seq (c : Conflict) : option Z :=
  match c with
  | ConflictKey n _ | WriteWrite n | ReadWrite n => Some n
  | HistoryTruncated _ _ => None
  end.

Lemma check_entry_None ws rs n w : check_entry ws rs n w = None <-> no_conflict ws rs w.
Proof.
  unfold check_entry, no_conflict. rewrite <- intersects_spec, <- conflicting_key_spec.
  destruct (intersects ws w); [by split; [|intros []]|].
  destruct (conflicting_key_kind ws w); [by split; [|intros (_ & ? & _)]|].
  destruct rs as [r|]; [|split; [|done]; intros _; split_and!; [done..|by intros ? [=]]].
  destruct (read_set_intersects r w) eqn:E.
  - split; [done|]. intros (_ & _ & H). specialize (H r eq_refl). rewrite <- read_set_intersects_spec in H. congruence.
  - split; [|done]. intros _. split_and!; [done..|]. intros r' [= <-]. by rewrite <- read_set_intersects_spec.
Qed.

Lemma check_entry_seq ws rs n w c : check_entry ws rs n w = Some c -> conflict_seq c = Some n.
Proof. unfold check_entry. repeat case_match; intros [= <-]; done. Qed.

Lemma check_entries_None read_seq ws rs l :
  check_entries read_seq ws rs l = None <->
  forall n w, (n, w) ∈ l -> read_seq < n -> no_conflict ws rs w.
Proof.
  induction l as [|[n w] l IH]; cbn [check_entries].
  { split; [|done]. intros _ n w Hn. by apply not_elem_of_nil in Hn. }
  destruct (Z.leb_spec n read_seq) as [Hle|Hlt].
  - rewrite IH. split; intros H m v.
    + intros [[= -> ->]|Hm]%elem_of_cons; [lia|]. by apply H.
    + intros Hm. apply H. by right.
  - destruct (check_entry ws rs n w) eqn:E.
    + split; [done|]. intros H. exfalso.
      assert (check_entry ws rs n w = None) by (apply check_entry_None, (H n); [by left|done]). congruence.
    + apply check_entry_None in E. rewrite IH. split; intros H m v.
      * intros [[= -> ->]|Hm]%elem_of_cons; [done|]. by apply H.
      * intros Hm. apply H. by right.
Qed.

Lemma check_entries_Some read_seq ws rs l c :
  check_entries read_seq ws rs l = Some c ->
  exists l1 n w l2, l = l1 ++ (n, w) :: l2 /\ read_seq < n /\ check_entry ws rs n w = Some c
    /\ forall m v, (m, v) ∈ l1 -> read_seq < m -> no_conflict ws rs v.
Proof.
  induction l as [|[n w] l IH]; cbn [check_entries]; [done|].
  destruct (Z.leb_spec n read_seq) as [Hle|Hlt].
  - intros H. destruct (IH H) as (l1 & m & v & l2 & -> & Hm & Hc & Hl). exists ((n, w) :: l1), m, v, l2. split_and!; [done..|].
    intros k u [[= -> ->]|Hk]%elem_of_cons; [lia|by apply Hl].
  - destruct (check_entry ws rs n w) eqn:E.
    + intros [= ->]. exists [], n, w, l. split_and!; [done..|]. intros k u Hk. by apply not_elem_of_nil in Hk.
    + intros H. destruct (IH H) as (l1 & m & v & l2 & -> & Hm & Hc & Hl). exists ((n, w) :: l1), m, v, l2. split_and!; [done..|].
      intros k u [[= -> ->]|Hk]%elem_of_cons; [|by apply Hl]. by apply check_entry_None in E.
Qed.

(** The front of the registry is its lowest number. *)
Lemma front_floor s n w l : inv s -> entries (reg s) = (n, w) :: l -> n = floor s + 1.
Proof. intros Hi He. rewrite (inv_numbers _ Hi 0 n w); [lia|]. by rewrite He. Qed.

(** A sequence number a transaction can have read at its begin. *)
Definition observed s (n : Z) : Prop := n = start \/ exists e, (n, e) ∈ hist s.

Lemma observed_range s n : inv s -> observed s n -> start <= n <= seq s.
Proof.
  intros Hi [->|[e He]]; [|apply (inv_range _ Hi) in He; lia].
  destruct (inv_seq _ Hi) as (_ & ? & _). pose proof (floor_le_seq s). lia.
Qed.

(** Numbers that were observed before a fence stay clear of it by two. *)
Lemma fence_gap s n m :
  inv s -> reachable s -> (m, Fence) ∈ hist s -> observed s n -> n < m -> n + 1 < m.
Proof.
  intros Hi Hr. revert n m. induction Hr as [r Hn Hs|s s' Hr IH Hstep]; intros n m Hm Hobs Hlt.
  { cbn in Hm. by apply not_elem_of_nil in Hm. }
  assert (Hi0 := reachable_inv _ Hr).
  inversion Hstep as [? ws r' k Hk Hc|? r' k Hk Hc]; subst; cbn [hist] in *.
  - apply elem_of_app in Hm as [Hm|Hm]; [|by apply list_elem_of_singleton in Hm].
    apply (IH Hi0 n m Hm); [|done]. destruct Hobs as [?|[e He]]; [by left|].
    cbn in He. apply elem_of_app in He as [He|He]; [right; eauto|].
    apply list_elem_of_singleton in He as [= -> ->]. apply (inv_range _ Hi0) in Hm.
    unfold commit in Hc. rewrite wrapping_add_small in Hc by (destruct (inv_seq _ Hi0) as (?&?&?); pose proof (floor_le_seq s); lia).
    injection Hc as <- <-. lia.
  - unfold fence in Hc. rewrite wrapping_add_small in Hc by (destruct (inv_seq _ Hi0) as (?&?&?); pose proof (floor_le_seq s); lia).
    injection Hc as <- <-.
    assert (Hobs0 : observed s n \/ n = seq s + 2).
    { destruct Hobs as [?|[e He]]; [left; by left|]. cbn in He. apply elem_of_app in He as [He|He].
      - left. right. eauto.
      - apply list_elem_of_singleton in He as [= -> ->]. by right. }
    apply elem_of_app in Hm as [Hm|Hm].
    + destruct Hobs0 as [Hobs0| ->]; [by apply (IH Hi0 n m)|]. apply (inv_range _ Hi0) in Hm. lia.
    + apply list_elem_of_singleton in Hm as [= ->]. destruct Hobs0 as [Hobs0| ->]; [|lia].
      apply (observed_range _ _ Hi0) in Hobs0. lia.
Qed.

Lemma check_None s n ws rs :
  inv s -> observed s n ->
  check (reg s) n ws rs = None <->
  floor s <= n /\ forall m w, (m, w) ∈ entries (reg s) -> n < m -> no_conflict ws rs w.
Proof.
  intros Hi Hobs. pose proof (observed_range _ _ Hi Hobs). destruct (inv_seq _ Hi) as (? & ? & ?).
  unfold check. destruct (entries (reg s)) as [|[o w] l] eqn:He.
  - split; [|done]. intros _. split; [|intros m v Hm; by apply not_elem_of_nil in Hm].
    assert (Hh := inv_empty _ Hi He). unfold floor. rewrite He. cbn.
    destruct Hobs as [->|[e Hn]]; [|rewrite Hh in Hn; by apply not_elem_of_nil in Hn].
    destruct (inv_floor _ Hi) as [Hf|[Hu|Hl]].
    + unfold floor in Hf. rewrite He in Hf. cbn in Hf. lia.
    + rewrite Hh in Hu. by apply not_elem_of_nil in Hu.
    + rewrite He in Hl. cbn in Hl. destruct (inv_cap _ Hi) as (_ & ? & _). lia.
  - assert (o = floor s + 1) as -> by (by eapply front_floor).
    unfold saturating_add_u64, U64_MAX. destruct (Z.ltb_spec (Z.min (n + 1) (2 ^ 64 - 1)) (floor s + 1)) as [Hlt|Hge].
    + split; [done|]. intros [? _]. assert (floor s + 1 <= seq s) by (unfold floor; rewrite He; cbn; lia). lia.
    + rewrite check_entries_None. rewrite <- He. split; [|by intros [_ ?]]. intros ?. split; [lia|done].
Qed.

(** While the history since [n] is retained, what happened since is in the
    registry, and was a commit. *)
Lemma retained_commit s n m e :
  reachable s -> observed s n -> floor s <= n -> (m, e) ∈ hist s -> n < m ->
  exists w, e = Commit w /\ (m, w) ∈ entries (reg s).
Proof.
  intros Hr Hobs Hf Hm Hlt. assert (Hi := reachable_inv _ Hr). pose proof (inv_kept _ Hi _ _ Hm ltac:(lia)) as Hin.
  destruct e as [w|]; [eauto|]. exfalso.
  pose proof (fence_gap _ _ _ Hi Hr Hm Hobs Hlt). pose proof (inv_fence _ Hi _ Hm). lia.
Qed.

Lemma check_sound s n ws rs m e :
  reachable s -> observed s n -> check (reg s) n ws rs = None -> (m, e) ∈ hist s -> n < m ->
  exists w, e = Commit w /\ no_conflict ws rs w.
Proof.
  intros Hr Hobs Hc Hm Hlt. assert (Hi := reachable_inv _ Hr).
  apply (check_None _ _ _ _ Hi Hobs) in Hc as [Hf Hall].
  destruct (retained_commit s n m e Hr Hobs Hf Hm Hlt) as (w & -> & Hin). exists w. split; [done|]. by apply (Hall m).
Qed.

(** Entries before one of the registry have the lower numbers. *)
Lemma entries_before s l1 m w l2 m' w' :
  inv s -> entries (reg s) = l1 ++ (m, w) :: l2 -> (m', w') ∈ entries (reg s) -> m' < m -> (m', w') ∈ l1.
Proof.
  intros Hi He [i Hl]%list_elem_of_lookup Hlt. pose proof (inv_numbers _ Hi _ _ _ Hl) as Hm'.
  assert (Hm : m = floor s + 1 + Z.of_nat (length l1)) by (apply (inv_numbers _ Hi _ _ w); by rewrite He, list_lookup_middle).
  apply list_elem_of_lookup. exists i. rewrite <- Hl, He. symmetry. apply lookup_app_l. lia.
Qed.

(** C12: the commit check is exact.  For a transaction that began at sequence
    [n] of the run: it is admitted only if no fence and no commit since then
    conflicts with it, although the registry has forgotten most commits; an
    abort names the first commit since then that conflicts (everything between
    is a commit that does not), or says the history is too short, and the
    latter happens only if a fence or more than [cap] sequence numbers have
    passed since the transaction began. *)
Theorem occ_check_exact s n ws rs :
  reachable s -> observed s n ->
  match check (reg s) n ws rs with
  | None => forall m e, (m, e) ∈ hist s -> n < m ->
      exists w, e = Commit w /\ no_conflict ws rs w
  | Some (HistoryTruncated n' _) =>
      n' = n /\ ((exists m, (m, Fence) ∈ hist s /\ n < m) \/ Z.of_nat cap < seq s - n)
  | Some c => exists m w, conflict_seq c = Some m /\ (m, Commit w) ∈ hist s /\ n < m /\ ~ no_conflict ws rs w
      /\ forall m' e', (m', e') ∈ hist s -> n < m' < m -> exists w', e' = Commit w' /\ no_conflict ws rs w'
  end.
Proof.
  intros Hr Hobs. assert (Hi := reachable_inv _ Hr). destruct (check (reg s) n ws rs) as [c|] eqn:Hc; [|intros m e; by apply check_sound].
  unfold check in Hc. destruct (entries (reg s)) as [|[o w0] l] eqn:He; [done|].
  assert (o = floor s + 1) as -> by (by eapply front_floor). pose proof (observed_range _ _ Hi Hobs). destruct (inv_seq _ Hi) as (?&?&?).
  assert (floor s + 1 <= seq s) by (unfold floor; rewrite He; cbn; lia). unfold saturating_add_u64, U64_MAX in Hc.
  destruct (Z.ltb_spec (Z.min (n + 1) (2 ^ 64 - 1)) (floor s + 1)) as [Hlt|Hge].
  - injection Hc as <-. split; [done|]. destruct (inv_floor _ Hi) as [Hf|[Hu|Hl]]; [lia| |].
    + left. exists (floor s + 1). split; [done|lia].
    + right. unfold floor in *. lia.
  - rewrite <- He in Hc. apply check_entries_Some in Hc as (l1 & m & v & l2 & El & Hnm & Hce & Hl1).
    destruct (inv_from _ Hi m v) as (e & Hh & Ev); [rewrite El; apply elem_of_app; right; by left|].
    destruct (retained_commit s n m e Hr Hobs ltac:(lia) Hh Hnm) as (w & -> & _). cbn in Ev. subst v.
    pose proof (check_entry_seq _ _ _ _ _ Hce) as Hseq.
    assert (Hno : ~ no_conflict ws rs w) by (rewrite <- (check_entry_None _ _ m); congruence).
    assert (Hfirst : forall m' e', (m', e') ∈ hist s -> n < m' < m -> exists w', e' = Commit w' /\ no_conflict ws rs w').
    { intros m' e' Hm' [H1' H2']. destruct (retained_commit s n m' e' Hr Hobs ltac:(lia) Hm' H1') as (w' & -> & Hin).
      exists w'. split; [done|]. apply (Hl1 m'); [|done]. by apply (entries_before s l1 m w l2). }
    destruct c; try done; exists m, w; done.
Qed.

End registry.

(** ** Last writers *)

(** What a transaction can touch: rows, and the keys and ids it claims. *)
Inductive item :=
| IVertex (vid : Z) | IEdge (eid : Z)
| IVertexKey (k : Key) | IEdgeKey (k : Key) | IMergeKey (k : Key) | IExtId (x : string).

#[export] Instance item_eq_dec : EqDecision item.
Proof. solve_decision. Defined.

Definition wrote (ws : WriteSet) (i : item) : Prop :=
  match i with
  | IVertex v => v ∈ vertices ws
  | IEdge e => e ∈ edges ws
  | IVertexKey k => k ∈ vertex_keys ws
  | IEdgeKey k => k ∈ edge_keys ws
  | IMergeKey k => k ∈ merge_keys ws
  | IExtId x => x ∈ ext_ids ws
  end.
#[export] Instance wrote_dec ws i : Decision (wrote ws i).
Proof. destruct i; cbn; apply _. Defined.
Definition has_read (rs : OccReadSet) (i : item) : Prop :=
  match i with IVertex v => v ∈ read_vertices rs | IEdge e => e ∈ read_edges rs | _ => False end.

Section ssi.
  Context (cap : nat) (start : Z).
  Implicit Types s : sys.

(** The number of the last event at or before [n] that recorded the item in its
    write set; a fence stands for writes to everything. *)
Definition writes (i : item) (n : Z) (x : Z * event) : bool :=
  (x.1 <=? n) && match x.2 with Commit ws => bool_decide (wrote ws i) | Fence => true end.
Definition last_writer (h : list (Z * event)) (n : Z) (i : item) : option Z :=
  fst <$> last (List.filter (writes i n) h).

Lemma last_writer_same h n n' i :
  (forall x, x ∈ h -> writes i n x = writes i n' x) -> last_writer h n i = last_writer h n' i.
Proof.
  intros H. unfold last_writer. do 2 f_equal. induction h as [|x h IH]; [done|]. cbn [List.filter].
  rewrite <- (H x) by left. rewrite IH; [done|]. intros y Hy. apply H. by right.
Qed.

End ssi.
