(* ===== verification/Carveout.v ===== *)
(** * The CRDT carve-out is sound

    [WriteSet::from_l0] leaves vertices written with CRDT values only out of
    the write set, so two such transactions both commit.  This file shows what
    makes that safe: under the commit-time variant check, their merges into a
    row commute.  The laws of the value domain (serialization round trip,
    merge of two values of one variant) are the interface [CrdtLaws]. *)

From S2P Require Import Prelude Graph L0State L0 Occ.

(** What the commit path relies on from [serde_json] and from the merge of
    the CRDT crate: a serialized CRDT parses back, CRDTs serialize, only maps
    parse, and merging within a variant succeeds, stays in the variant and is
    commutative and associative. *)
Class CrdtLaws (V C : Type) `{Values V C} (type_name : C -> string) : Prop := {
  law_map v c : crdt_from_value v = Some c -> is_map v = true;
  law_roundtrip c v : crdt_to_value c = Some v -> crdt_from_value v = Some c;
  law_serialize c : is_Some (crdt_to_value c);
  law_total a b : type_name a = type_name b ->
    exists c, crdt_merge a b = Some c /\ type_name c = type_name a;
  law_comm a b : type_name a = type_name b -> crdt_merge a b = crdt_merge b a;
  law_assoc a b c : type_name a = type_name b -> type_name b = type_name c ->
    (ab ← crdt_merge a b; crdt_merge ab c) = (bc ← crdt_merge b c; crdt_merge a bc);
}.

Section carveout.
  Context {G V C : Type} `{TG : Topology G} `{VV : Values V C} `{HO : HashOrder}.
  Context (type_name : C -> string) `{CL : !CrdtLaws V C type_name}.

(** The value a property write leaves. *)
Definition merged_value (old : option V) (v : V) : V :=
  match try_as_crdt v, old ≫= crdt_from_value with
  | Some n, Some x =>
      match crdt_merge n x with
      | Some m => default v (crdt_to_value m)
      | None => v
      end
  | _, _ => v
  end.

Lemma merge_property_lookup e k v j :
  merge_property e k v !! j = if decide (k = j) then Some (merged_value (e !! k) v) else e !! j.
Proof.
  unfold merge_property, merged_value.
  destruct (try_as_crdt v) as [n|]; [|by rewrite lookup_insert].
  destruct (e !! k ≫= crdt_from_value) as [x|]; [|by rewrite lookup_insert].
  destruct (crdt_merge n x) as [m|]; [|by rewrite lookup_insert].
  destruct (crdt_to_value m); by rewrite lookup_insert.
Qed.

Lemma merge_properties_lookup e p k :
  merge_crdt_properties e p !! k =
    match p !! k with Some v => Some (merged_value (e !! k) v) | None => e !! k end.
Proof.
  unfold merge_crdt_properties. case_decide as He.
  - subst. rewrite lookup_empty. destruct (p !! k) as [v|]; [|done].
    unfold merged_value. cbn. by destruct (try_as_crdt v).
  - rewrite (for_entries_lookup merge_property (fun k old v => Some (merged_value old v))); [done|].
    intros s j v i. rewrite merge_property_lookup. done.
Qed.

Lemma try_as_crdt_parse v : try_as_crdt v = crdt_from_value v.
Proof.
  unfold try_as_crdt. destruct (is_map v) eqn:Hm; [done|]. cbn.
  destruct (crdt_from_value v) as [c|] eqn:Hc; [|done]. apply law_map in Hc. congruence.
Qed.

(** A row of CRDT values whose variants agree with the row it meets. *)
Definition compatible (e p : Properties V) : Prop :=
  forall k v, p !! k = Some v -> is_Some (crdt_from_value v)
    /\ forall x c, e !! k ≫= crdt_from_value = Some x -> crdt_from_value v = Some c -> type_name c = type_name x.

Lemma carveout_compatible tx main vid p e :
  crdt_carveout_overwrite type_name tx main = None ->
  vertex_properties tx !! vid = Some p -> (vid ∉ vertex_tombstones tx) ->
  is_crdt_carveout (tx : L0Buffer G V) vid p = true ->
  vertex_properties main !! vid = Some e -> compatible e p.
Proof.
  intros Hno Hp Ht Hc He k v Hv.
  assert (Hrow : carveout_row type_name tx main (vid, p) = None).
  { unfold crdt_carveout_overwrite in Hno. revert Hno.
    assert (Hin : (vid, p) ∈ hash_order (map_to_list (vertex_properties tx)))
      by (by rewrite hash_order_perm; apply elem_of_map_to_list).
    induction (hash_order (map_to_list (vertex_properties tx))) as [|r l IH]; [by apply not_elem_of_nil in Hin|].
    cbn. destruct (carveout_row type_name tx main r) eqn:Er; [done|].
    apply elem_of_cons in Hin as [<-|Hin]; [done|]. by apply IH. }
  assert (Hall : is_Some (try_as_crdt v)).
  { unfold is_crdt_carveout in Hc. apply andb_true_iff in Hc as [Hc _]. apply andb_true_iff in Hc as [_ Hc].
    apply bool_decide_eq_true in Hc. by apply (Hc k v). }
  rewrite try_as_crdt_parse in Hall. split; [done|].
  intros x c Hx Hcv. unfold carveout_row in Hrow. rewrite bool_decide_false, Hc, He in Hrow by done. cbn in Hrow.
  destruct (list_find _ (hash_order (map_to_list p))) as [[i kv]|] eqn:Hf; [done|].
  apply list_find_None in Hf. rewrite Forall_forall in Hf.
  specialize (Hf (k, v)). rewrite hash_order_perm, elem_of_map_to_list in Hf. specialize (Hf Hv). cbn in Hf.
  unfold variant_mismatch in Hf. cbn in Hf. rewrite try_as_crdt_parse, Hcv in Hf.
  destruct (e !! k) as [ev|]; [|done]. cbn in Hx, Hf. rewrite try_as_crdt_parse, Hx in Hf.
  destruct (decide (type_name c = type_name x)); [done|]. exfalso. apply Hf. by apply bool_decide_eq_true.
Qed.

Lemma merged_value_crdt old v n :
  crdt_from_value v = Some n ->
  merged_value old v =
    match old ≫= crdt_from_value with
    | Some x => match crdt_merge n x with Some m => default v (crdt_to_value m) | None => v end
    | None => v
    end.
Proof. intros Hv. unfold merged_value. rewrite try_as_crdt_parse, Hv. done. Qed.

(** Merging two CRDT values into a slot in either order. *)
Lemma merged_value_comm old va vb a b :
  crdt_from_value va = Some a -> crdt_from_value vb = Some b -> type_name a = type_name b ->
  (forall x, old ≫= crdt_from_value = Some x -> type_name a = type_name x) ->
  merged_value (Some (merged_value old va)) vb = merged_value (Some (merged_value old vb)) va.
Proof.
  intros Ha Hb Hab Hold. rewrite (merged_value_crdt (Some (merged_value old vb)) va a Ha), (merged_value_crdt (Some (merged_value old va)) vb b Hb).
  rewrite (merged_value_crdt old va a Ha), (merged_value_crdt old vb b Hb).
  destruct (old ≫= crdt_from_value) as [x|] eqn:Hx.
  - specialize (Hold x eq_refl).
    destruct (law_total a x Hold) as (ax & Hax & Tax).
    destruct (law_total b x) as (bx & Hbx & Tbx); [congruence|].
    rewrite Hax, Hbx. destruct (law_serialize ax) as [vax Hvax], (law_serialize bx) as [vbx Hvbx].
    rewrite Hvax, Hvbx. cbn. rewrite (law_roundtrip _ _ Hvax), (law_roundtrip _ _ Hvbx).
    assert (Heq : crdt_merge b ax = crdt_merge a bx).
    { transitivity (ba ← crdt_merge b a; crdt_merge ba x).
      - rewrite law_assoc by congruence. by rewrite Hax.
      - rewrite (law_comm b a) by congruence. rewrite law_assoc by congruence. by rewrite Hbx. }
    rewrite Heq. destruct (law_total a bx) as (abx & Habx & _); [congruence|].
    rewrite Habx. destruct (law_serialize abx) as [vabx Hvabx]. by rewrite Hvabx.
  - cbn. rewrite Ha, Hb. rewrite (law_comm b a) by congruence.
    destruct (law_total a b Hab) as (ab & Hm & _). rewrite Hm.
    destruct (law_serialize ab) as [vab Hvab]. by rewrite Hvab.
Qed.

Lemma compatible_comm e pa pb :
  compatible e pa -> compatible (merge_crdt_properties e pa) pb ->
  merge_crdt_properties (merge_crdt_properties e pa) pb
  = merge_crdt_properties (merge_crdt_properties e pb) pa.
Proof.
  intros Ha Hb. apply map_eq. intros k. rewrite !merge_properties_lookup.
  destruct (pa !! k) as [va|] eqn:Ea, (pb !! k) as [vb|] eqn:Eb; try done.
  destruct (Ha k va Ea) as [[a Hva] Hta]. destruct (Hb k vb Eb) as [[b Hvb] Htb].
  f_equal. apply (merged_value_comm _ _ _ a b); try done.
  - rewrite merge_properties_lookup, Ea in Htb. cbn in Htb. rewrite (merged_value_crdt _ _ a Hva) in Htb.
    destruct (e !! k ≫= crdt_from_value) as [x|] eqn:Hx.
    + specialize (Hta x a eq_refl Hva). destruct (law_total a x Hta) as (ax & Hax & Tax).
      rewrite Hax in Htb. destruct (law_serialize ax) as [vax Hvax]. rewrite Hvax in Htb. cbn in Htb.
      specialize (Htb ax b (law_roundtrip _ _ Hvax) Hvb). congruence.
    + symmetry. by apply (Htb a b).
  - intros x Hx. by apply (Hta x a).
Qed.

(** The carve-out loses nothing.  Two transactions write a vertex with
    CRDT values only, so the write sets leave the vertex out and neither
    conflicts with the other on it; both pass the commit-time variant check,
    the second against the buffer the first was merged into.  The row then
    holds the same properties whichever of the two is merged first. *)
Theorem carveout_merges_commute (tx_a tx_b main main1 : L0Buffer G V) vid pa pb e :
  vertex_properties tx_a !! vid = Some pa -> vertex_properties tx_b !! vid = Some pb ->
  (vid ∉ vertices (from_l0 tx_a)) -> (vid ∉ vertices (from_l0 tx_b)) ->
  vertex_properties main !! vid = Some e ->
  vertex_properties main1 !! vid = Some (merge_crdt_properties e pa) ->
  crdt_carveout_overwrite type_name tx_a main = None ->
  crdt_carveout_overwrite type_name tx_b main1 = None ->
  merge_crdt_properties (merge_crdt_properties e pa) pb
  = merge_crdt_properties (merge_crdt_properties e pb) pa.
Proof.
  intros Ha Hb Hva Hvb He Hm Hca Hcb.
  assert (Hout : forall (tx : L0Buffer G V) p, vertex_properties tx !! vid = Some p ->
    (vid ∉ vertices (from_l0 tx)) -> (vid ∉ vertex_tombstones tx) /\ is_crdt_carveout tx vid p = true).
  { intros tx p Hp Hn. cbn in Hn. rewrite !elem_of_union, elem_of_dom in Hn. split; [tauto|].
    destruct (is_crdt_carveout tx vid p) eqn:E; [done|]. exfalso. apply Hn. left. left.
    exists p. by apply map_lookup_filter_Some. }
  destruct (Hout tx_a pa Ha Hva) as [Hta Hia], (Hout tx_b pb Hb Hvb) as [Htb Hib].
  apply compatible_comm.
  - by apply (carveout_compatible tx_a main vid).
  - by apply (carveout_compatible tx_b main1 vid).
Qed.
End carveout.
