(* ===== verification/Commit.v ===== *)
(** * Committing a transaction: the log and the buffer agree

    crates/uni-store/src/runtime/writer.rs, [commit_transaction_l0]: the
    transaction's buffer is validated, its mutations are appended to the
    write-ahead log ([commit_records]), the log is flushed, and only then the
    buffer is merged into the main one.  The merge deletes before it inserts
    and the log inserts before it deletes; [commits_recover] shows that both
    orders leave the same data, so replaying the log of any run of commits
    rebuilds the main buffer's data.  [commit] takes the buffers a flush in
    progress has rotated out; [commits_recover] is about runs without one, and
    without a schema change during a transaction. *)

From S2P Require Import Prelude Graph L0State L0 L0Replay L0Recovery L0Merge L0Data.

(** ** What a commit appends to the log *)

Section records.
  Context {G V C : Type} `{TG : Topology G} `{VV : Values V C} `{HO : HashOrder}.
  (** [SchemaManager::edge_type_name_by_id_unified] *)
  Context (edge_type_name_by_id : Z -> option string).
  Implicit Types tx : L0Buffer G V.

Definition wal_edge_type_name tx (eid edge_type : Z) : option string :=
  match edge_types tx !! eid with
  | Some name => Some name
  | None => edge_type_name_by_id edge_type
  end.

Definition labels_of tx (vid : Z) : list string := default [] (vertex_labels tx !! vid).
Definition version_of tx (eid : Z) : Z := get_or_0 (edge_versions tx) eid.

Definition vertex_record tx (row : Z * Properties V) : list (Mutation V) :=
  if decide (row.1 ∈ vertex_tombstones tx) then []
  else [InsertVertex row.1 row.2 (labels_of tx row.1) (vertex_created_at tx !! row.1)
          (vertex_updated_at tx !! row.1)].

Definition label_record tx (vid : Z) : list (Mutation V) :=
  if decide (vid ∈ vertex_tombstones tx) then [] else [SetVertexLabels vid (labels_of tx vid)].

Definition edge_record tx (e : Z * (Z * Z * Z)) : Mutation V :=
  let '(eid, (src_vid, dst_vid, edge_type)) := e in
  if is_tombstoned tx eid then
    DeleteEdge eid src_vid dst_vid edge_type (version_of tx eid) (wal_edge_type_name tx eid edge_type)
  else
    InsertEdge src_vid dst_vid edge_type eid (version_of tx eid)
      (default ∅ (edge_properties tx !! eid)) (edge_types tx !! eid)
      (edge_created_at tx !! eid) (edge_updated_at tx !! eid).

Definition tombstone_record tx (t : Z * TombstoneEntry) : list (Mutation V) :=
  match edge_endpoints tx !! t.1 with
  | Some _ => []
  | None =>
      [DeleteEdge t.1 (t_src_vid t.2) (t_dst_vid t.2) (t_edge_type t.2) (version_of tx t.1)
         (wal_edge_type_name tx t.1 (t_edge_type t.2))]
  end.

(** The mutations of one commit, in the order they are appended. *)
Definition commit_records tx : list (Mutation V) :=
  (hash_order (map_to_list (vertex_properties tx)) ≫= vertex_record tx)
  ++ ((fun vid => DeleteVertex vid (labels_of tx vid)) <$> hash_order (elements (vertex_tombstones tx)))
  ++ (hash_order (elements (vertex_label_overwrites tx)) ≫= label_record tx)
  ++ (edge_record tx <$> hash_order (map_to_list (edge_endpoints tx)))
  ++ (hash_order (map_to_list (tombstones tx)) ≫= tombstone_record tx).

(** The main buffer and the log it can be rebuilt from. *)
Record store := mkStore { main : L0Buffer G V; log : list (Mutation V) }.

(** Whether the newest buffer that knows a vertex has it deleted. *)
Fixpoint effectively_deleted (layers : list (L0Buffer G V)) (vid : Z) : bool :=
  match layers with
  | [] => false
  | l :: layers =>
      if bool_decide (is_Some (vertex_properties l !! vid)) then false
      else if bool_decide (vid ∈ vertex_tombstones l) then true
      else effectively_deleted layers vid
  end.

Definition validate_edge_overlay tx (layers : list (L0Buffer G V)) (_ : unit) (e : Z * (Z * Z * Z)) :
    unit * result L0Error unit :=
  let '(eid, (src_vid, dst_vid, _)) := e in
  (tt, if is_tombstoned tx eid then Ok tt
       else if effectively_deleted layers src_vid then Err (MergeSourceDeleted eid src_vid)
       else if effectively_deleted layers dst_vid then Err (MergeDestinationDeleted eid dst_vid)
       else Ok tt).

(** [pending]: the buffers being flushed, oldest first. *)
Definition validate_edge_endpoints_overlay (current : L0Buffer G V) (pending : list (L0Buffer G V)) tx :
    result L0Error unit :=
  (try_for (validate_edge_overlay tx (tx :: current :: rev pending)) tt
     (hash_order (map_to_list (edge_endpoints tx)))).2.

(** The newest pending value of a property. *)
Definition pending_value (pending : list (L0Buffer G V)) (vid : Z) (key : string) : option V :=
  foldr (fun g newer => match newer with
                        | Some v => Some v
                        | None => vertex_properties g !! vid ≫= (.!! key)
                        end) None pending.

Definition seed_crdt_prop (pending : list (L0Buffer G V)) (vid : Z) (target : L0Buffer G V) (kv : string * V) :
    L0Buffer G V :=
  match try_as_crdt kv.2 with
  | None => target
  | Some _ =>
      match vertex_properties target !! vid ≫= (.!! kv.1) with
      | Some _ => target
      | None =>
          match pending_value pending vid kv.1 with
          | Some v =>
              match try_as_crdt v with
              | Some _ =>
                  set_vertex_properties
                    (fun vp => <[vid := <[kv.1 := v]> (default ∅ (vp !! vid))]> vp) target
              | None => target
              end
          | None => target
          end
      end
  end.

Definition seed_crdt_props (pending : list (L0Buffer G V)) (target : L0Buffer G V) (row : Z * Properties V) :
    L0Buffer G V :=
  foldl (seed_crdt_prop pending row.1) target (hash_order (map_to_list row.2)).

Definition seed_crdt_state_from_chain (pending : list (L0Buffer G V)) tx (target : L0Buffer G V) : L0Buffer G V :=
  match pending with
  | [] => target
  | _ => foldl (seed_crdt_props pending) target (hash_order (map_to_list (vertex_properties tx)))
  end.

(** Validate, log, seed, merge: the part of [commit_transaction_l0] under
    [flush_lock] that the buffers and the log see. *)
Definition commit (st : store) (pending : list (L0Buffer G V)) tx (now : Z) :
    store * result L0Error (list TombstoneEntry) :=
  match validate_edge_endpoints_overlay (main st) pending tx with
  | Err e => (st, Err e)
  | Ok _ =>
      let log' := log st ++ commit_records tx in
      let '(main', _, r) := merge_take (seed_crdt_state_from_chain pending tx (main st)) tx now in
      (mkStore main' log', r)
  end.

(** *** What the two sides do to the data *)

Definition step_edge tx (d : data V) (e : Z * (Z * Z * Z)) : data V :=
  let '(eid, (a, b, t)) := e in
  if is_tombstoned tx eid then dunlink d eid a b t
  else dlink d a b t eid (default ∅ (edge_properties tx !! eid)) (edge_types tx !! eid).

Definition step_tombstone tx (d : data V) (t : Z * TombstoneEntry) : data V :=
  match edge_endpoints tx !! t.1 with
  | Some _ => d
  | None => dunlink d t.1 (t_src_vid t.2) (t_dst_vid t.2) (t_edge_type t.2)
  end.

Definition step_relabel tx (d : data V) (vid : Z) : data V :=
  if decide (vid ∈ vertex_tombstones tx) then d else drelabel d vid (labels_of tx vid).

Definition step_put tx (d : data V) (row : Z * Properties V) : data V :=
  dput d row.1 row.2 (labels_of tx row.1).

Definition edge_phase tx (d : data V) : data V :=
  foldl (step_tombstone tx) (foldl (step_edge tx) d (hash_order (map_to_list (edge_endpoints tx))))
    (hash_order (map_to_list (tombstones tx))).

Definition merge_data tx (d : data V) : data V :=
  edge_phase tx
    (foldl (step_relabel tx)
      (foldl dmissing
        (foldl (step_put tx) (foldl ddel d (hash_order (elements (vertex_tombstones tx))))
          (hash_order (map_to_list (vertex_properties tx))))
        (hash_order (map_to_list (vertex_labels tx))))
      (hash_order (elements (vertex_label_overwrites tx)))).

Definition replay_data tx (d : data V) : data V :=
  edge_phase tx
    (foldl (step_relabel tx)
      (foldl (fun d vid => dforget d vid (labels_of tx vid))
        (foldl (step_put tx) d (hash_order (map_to_list (vertex_properties tx))))
        (hash_order (elements (vertex_tombstones tx))))
      (hash_order (elements (vertex_label_overwrites tx)))).
End records.
Arguments store : clear implicits.
Arguments mkStore {G V}.
Arguments main {G V}.
Arguments log {G V}.

(** A loop acts on the data as the loop of its steps. *)
Lemma data_fold {G V A} `{Topology G} (F : L0Buffer G V -> A -> L0Buffer G V) (D : data V -> A -> data V)
    (l : list A) :
  (forall s a, a ∈ l -> data_of (F s a) = D (data_of s) a) ->
  forall s, data_of (foldl F s l) = foldl D (data_of s) l.
Proof.
  induction l as [|a l IH]; intros Hstep s; [done|]. cbn [foldl].
  rewrite IH by (intros; apply Hstep; by right). by rewrite Hstep by (by left).
Qed.

Lemma foldl_bind {S A B} (f : S -> B -> S) (g : A -> list B) l s :
  foldl f s (l ≫= g) = foldl (fun s a => foldl f s (g a)) s l.
Proof.
  revert s. induction l as [|a l IH]; intros s; [done|]. cbn. by rewrite foldl_app, IH.
Qed.

Lemma foldl_fmap' {S A B} (f : S -> B -> S) (g : A -> B) l s :
  foldl f s (g <$> l) = foldl (fun s a => f s (g a)) s l.
Proof. revert s. induction l as [|a l IH]; intros s; [done|]. cbn. apply IH. Qed.

Section replay_side.
  Context {G1 G2 V C : Type} `{TG1 : Topology G1} `{TG2 : Topology G2} `{VV : Values V C}.
  Context (ho1 ho2 : HashOrder) (names : Z -> option string).

(** No vertex is both written and deleted by the transaction. *)
Definition writes_or_deletes (tx : L0Buffer G1 V) : Prop :=
  forall v, is_Some (vertex_properties tx !! v) -> v ∉ vertex_tombstones tx.

Lemma replay_commit_data (tx : L0Buffer G1 V) (r : L0Buffer G2 V) :
  writes_or_deletes tx ->
  data_of (foldl (replay_mutation (HO := ho2)) r (commit_records (HO := ho1) names tx))
  = replay_data (HO := ho1) tx (data_of r).
Proof.
  intros Hwd. unfold commit_records, replay_data, edge_phase.
  rewrite !foldl_app, !foldl_bind, !foldl_fmap'.
  erewrite (data_fold _ (step_tombstone tx)); [|intros s [k t] _; cbn; unfold tombstone_record, step_tombstone; cbn].
  2: { destruct (edge_endpoints tx !! k); [done|]. apply data_replay_unlink. }
  f_equal.
  erewrite (data_fold _ (step_edge tx)); [|intros s [k [[a b] t]] _; unfold edge_record, step_edge].
  2: { destruct (is_tombstoned tx k); [apply data_replay_unlink|apply data_replay_link]. }
  f_equal.
  erewrite (data_fold _ (step_relabel tx)); [|intros s v _; unfold label_record, step_relabel].
  2: { case_decide; [done|]. apply data_replay_relabel. }
  f_equal.
  erewrite (data_fold _ (fun d vid => dforget d vid (labels_of tx vid))); [|intros s v _; apply data_replay_del].
  f_equal.
  apply data_fold. intros s [v p] Hin. unfold vertex_record, step_put. cbn [fst snd].
  rewrite decide_False; [apply data_replay_put|]. apply Hwd.
  rewrite hash_order_perm, elem_of_map_to_list in Hin. by exists p.
Qed.
End replay_side.

Section merge_side.
  Context {G V C : Type} `{TG : Topology G} `{VV : Values V C} `{HO : HashOrder}.
  Implicit Types s tx : L0Buffer G V.

Lemma data_deletions l : forall s c, exists s' c',
  try_for merge_deletion (s, c) l = ((s', c'), Ok tt) /\ data_of s' = foldl ddel (data_of s) l.
Proof.
  induction l as [|v l IH]; intros s c; cbn [try_for foldl]; [by exists s, c|].
  unfold merge_deletion at 1. destruct (data_delete_vertex s v) as (s1 & l1 & -> & Hd). rewrite <- Hd. apply IH.
Qed.

Lemma data_edges tx now (l : list (Z * (Z * Z * Z))) : forall s ep,
  NoDup l.*1 -> (forall k, k ∈ l.*1 -> ep !! k = edge_properties tx !! k) ->
  let r := try_for (merge_edge tx now) (s, ep) l in
  is_ok r.2 = true -> data_of r.1.1 = foldl (step_edge tx) (data_of s) l.
Proof.
  induction l as [|[k [[a b] t]] l IH]; intros s ep Hnd Hep; cbn [try_for foldl]; [done|].
  apply NoDup_cons in Hnd as [Hk Hnd]. cbn [fmap list_fmap fst] in Hep, Hk.
  assert (Hep' : forall j, j ∈ l.*1 -> delete k ep !! j = edge_properties tx !! j).
  { intros j Hj. rewrite lookup_delete_ne by (intros ->; done). apply Hep. by right. }
  unfold merge_edge at 1 3, step_edge at 2. destruct (is_tombstoned tx k).
  - destruct (data_delete_edge s k a b t now) as (s1 & -> & Hd). rewrite <- Hd.
    apply IH; [done|]. intros j Hj. apply Hep. by right.
  - rewrite (Hep k) by (by left).
    pose proof (data_insert_edge s a b t k (default ∅ (edge_properties tx !! k)) (edge_types tx !! k) now) as Hd.
    destruct (insert_edge_impl _ _ _ _ _ _ _ _ _) as [s1 [[]|e]]; [|done]. cbn [fst snd is_ok] in Hd.
    rewrite <- (Hd eq_refl). by apply IH.
Qed.

Lemma data_tombstones tx now (l : list (Z * TombstoneEntry)) : forall s, exists s',
  try_for (merge_tombstone tx now) s l = (s', Ok tt) /\ data_of s' = foldl (step_tombstone tx) (data_of s) l.
Proof.
  induction l as [|[k t] l IH]; intros s; cbn [try_for foldl]; [by exists s|].
  unfold merge_tombstone at 1, step_tombstone at 2. cbn [fst snd]. destruct (edge_endpoints tx !! k); [apply IH|].
  destruct (data_delete_edge s k (t_src_vid t) (t_dst_vid t) (t_edge_type t) now) as (s1 & -> & Hd).
  rewrite <- Hd. apply IH.
Qed.

Lemma data_fold_id {A} (f : L0Buffer G V -> A -> L0Buffer G V) l s :
  (forall s a, data_of (f s a) = data_of s) -> data_of (foldl f s l) = data_of s.
Proof. intros Hf. revert s. induction l as [|a l IH]; intros s; [done|]. cbn [foldl]. by rewrite IH. Qed.

Lemma data_metadata s tx : data_of (merge_metadata s tx) = data_of s.
Proof.
  unfold merge_metadata. set (s1 := set_estimated_size _ _).
  assert (H1 : data_of s1 = data_of s) by done. clearbody s1.
  match goal with |- data_of (set_pending_embeddings _ ?x) = _ => change (data_of x = data_of s) end.
  rewrite !data_fold_id by done. done.
Qed.

Lemma merge_data_of s tx ep now s' c :
  (forall k, ep !! k = edge_properties tx !! k) ->
  merge_validated s tx (vertex_properties tx) ep now = (s', Ok c) -> data_of s' = merge_data tx (data_of s).
Proof.
  intros Hep. unfold merge_validated, merge_data, edge_phase.
  destruct (data_deletions (hash_order (elements (vertex_tombstones tx))) s []) as (s1 & c1 & -> & H1).
  rewrite <- H1. clear H1.
  rewrite <- (data_fold (merge_vertex tx now) (step_put tx)) by (intros; apply data_put).
  rewrite <- (data_fold merge_missing_labels dmissing) by (intros; apply data_missing).
  rewrite <- (data_fold (merge_label_overwrite tx) (step_relabel tx)) by (intros; apply data_relabel).
  set (s4 := foldl (merge_label_overwrite tx) _ _). clearbody s4.
  pose proof (data_edges tx now (hash_order (map_to_list (edge_endpoints tx))) s4 ep
    (NoDup_hash_keys _) (fun k _ => Hep k)) as H5. cbn zeta in H5.
  destruct (try_for (merge_edge tx now) _ _) as [[s5 ep5] [[]|e]]; [|done]. cbn [fst snd is_ok] in H5.
  rewrite <- (H5 eq_refl).
  destruct (data_tombstones tx now (hash_order (map_to_list (tombstones tx))) s5) as (s6 & -> & H6).
  rewrite <- H6. intros [= <- _]. apply data_metadata.
Qed.
End merge_side.

(** ** Data that agree, up to the labels of deleted and of some other vertices *)

Section agree.
  Context {V C : Type} `{VV : Values V C}.
  Implicit Types d : data V.

(** Whether the reverse index lists [v] under [l]. *)
Definition listed d (v : Z) (l : string) : Prop := v ∈ default ∅ (d_index d !! l).

(** The same data; the labels of the deleted vertices and of those in [X] may
    differ. *)
Record same_data (X : gset Z) d d' : Prop := {
  same_rows : d_rows d = d_rows d';
  same_dead : d_dead d = d_dead d';
  same_edges : d_edges d = d_edges d';
  same_ends : d_ends d = d_ends d';
  same_eprops : d_eprops d = d_eprops d';
  same_tombs : d_tombs d = d_tombs d';
  same_types : d_types d = d_types d';
  same_over : d_over d = d_over d';
  same_labels v : (v ∉ d_dead d) -> (v ∉ X) -> d_labels d !! v = d_labels d' !! v;
  same_listed v l : (v ∉ d_dead d) -> (v ∉ X) -> listed d v l <-> listed d' v l;
}.

#[export] Instance same_data_refl X : Reflexive (same_data X).
Proof. by constructor. Qed.

Lemma same_data_mono X Y d d' : X ⊆ Y -> same_data X d d' -> same_data Y d d'.
Proof. intros HXY []. constructor; auto. Qed.

Lemma listed_index v w ls l (m : gmap string (gset Z)) :
  v ∈ default ∅ (foldl (index_label w) m ls !! l) <-> (v = w /\ l ∈ ls) \/ v ∈ default ∅ (m !! l).
Proof. rewrite index_labels_lookup. case_decide; cbn; set_solver. Qed.

Lemma listed_unindex v w ls l (m : gmap string (gset Z)) :
  v ∈ default ∅ (foldl (unindex_label w) m ls !! l) <-> v ∈ default ∅ (m !! l) /\ ~ (v = w /\ l ∈ ls).
Proof. rewrite unindex_labels_lookup. case_decide; [destruct (m !! l); cbn|]; set_solver. Qed.

Lemma same_put X d d' v p ls :
  same_data X d d' -> (v ∈ d_dead d -> v ∈ X) -> same_data X (dput d v p ls) (dput d' v p ls).
Proof.
  intros [] Hv. constructor; cbn; try congruence.
  - intros w Hw HX. rewrite !lookup_insert. destruct (decide (v = w)) as [->|]; [|apply same_labels0; set_solver].
    rewrite same_labels0; tauto.
  - intros w l Hw HX. unfold listed in *. cbn. rewrite !listed_index. rewrite same_listed0; [done| |done].
    destruct (decide (w = v)) as [->|]; [tauto|set_solver].
Qed.

Lemma same_del X d d' v ls :
  same_data X d d' -> same_data X (ddel d v) (dforget d' v ls).
Proof.
  intros []. assert (Hf : forall d'', d_rows d'' = d_rows d' -> d_dead d'' = d_dead d' -> d_edges d'' = d_edges d' ->
    d_ends d'' = d_ends d' -> d_eprops d'' = d_eprops d' -> d_tombs d'' = d_tombs d' -> d_types d'' = d_types d' ->
    d_over d'' = d_over d' -> (forall w, w <> v -> d_labels d'' !! w = d_labels d' !! w) ->
    (forall w l, w <> v -> listed d'' w l <-> listed d' w l) -> same_data X (ddel d v) (ddel d'' v)).
  { intros d'' E1 E2 E3 E4 E5 E6 E7 E8 E9 E10.
    assert (Hcut : cut d'' v = cut d v) by (unfold cut, touching; by rewrite E3, E4, <- same_edges0, <- same_ends0).
    constructor; cbn; rewrite ?Hcut; try congruence.
    - intros w Hw HX. rewrite E9 by set_solver. apply same_labels0; set_solver.
    - intros w l Hw HX. unfold listed, ddel, unindexed in *. cbn [d_index]. rewrite !listed_unindex, E10 by set_solver.
      rewrite same_listed0 by set_solver. set_solver. }
  unfold dforget. destruct ls as [|x ls]; apply Hf; try done.
  - intros w Hw. cbn. by rewrite lookup_insert_ne.
  - intros w l Hw. unfold listed. cbn [dadd d_index]. rewrite listed_index. set_solver.
Qed.

Lemma same_link X d d' a b t k p name :
  same_data X d d' -> same_data X (dlink d a b t k p name) (dlink d' a b t k p name).
Proof.
  intros Hs. unfold dlink. rewrite <- (same_dead _ _ _ Hs). case_decide; [done|]. destruct Hs.
  constructor; cbn; rewrite ?same_edges0, ?same_ends0, ?same_eprops0, ?same_tombs0, ?same_types0; auto.
Qed.

Lemma same_unlink X d d' k a b t : same_data X d d' -> same_data X (dunlink d k a b t) (dunlink d' k a b t).
Proof. intros []. constructor; cbn; try congruence; auto. Qed.

(** Writing one vertex and deleting another commute. *)
Lemma del_put d v w p ls : v <> w -> ddel (dput d v p ls) w = dput (ddel d w) v p ls.
Proof.
  intros Hne. apply data_ext; try reflexivity; cbn.
  - rewrite lookup_delete_ne by done. by rewrite delete_insert_ne.
  - set_solver.
  - unfold unindexed. cbn. rewrite lookup_insert_ne by done. apply map_eq. intros l.
    rewrite unindex_labels_lookup, !index_labels_lookup, unindex_labels_lookup.
    repeat case_decide; cbn; try done. destruct (d_index d !! l); cbn; f_equal; set_solver.
Qed.
End agree.

Section phases.
  Context {G V C : Type} `{TG : Topology G} `{VV : Values V C} `{HO : HashOrder}.
  Implicit Types tx : L0Buffer G V.
  Implicit Types d : data V.

Lemma dels_after_puts tx (vs : list Z) : forall (rows : list (Z * Properties V)) d,
  (forall row v, row ∈ rows -> v ∈ vs -> row.1 <> v) ->
  foldl (step_put tx) (foldl ddel d vs) rows = foldl ddel (foldl (step_put tx) d rows) vs.
Proof.
  assert (H1 : forall rows d v, (forall row, row ∈ rows -> row.1 <> v) ->
    foldl (step_put tx) (ddel d v) rows = ddel (foldl (step_put tx) d rows) v).
  { induction rows as [|row rows IH]; intros d v Hne; [done|]. cbn [foldl]. unfold step_put at 2 4.
    rewrite <- del_put by (apply Hne; by left). apply IH. intros. apply Hne. by right. }
  induction vs as [|v vs IH]; intros rows d Hne; [done|]. cbn [foldl].
  rewrite IH by (intros; apply Hne; [done|by right]). f_equal. apply H1. intros. apply Hne; [done|by left].
Qed.

Lemma same_puts X tx (rows : list (Z * Properties V)) : forall d d',
  same_data X d d' -> (forall row, row ∈ rows -> row.1 ∈ d_dead d -> row.1 ∈ X) ->
  same_data X (foldl (step_put tx) d rows) (foldl (step_put tx) d' rows).
Proof.
  induction rows as [|row rows IH]; intros d d' Hs Hd; [done|]. cbn [foldl]. apply IH.
  - apply same_put; [done|]. apply Hd. by left.
  - intros row' Hr. cbn. specialize (Hd row' ltac:(by right)). rewrite elem_of_difference. tauto.
Qed.

Lemma same_dels X tx (vs : list Z) : forall d d',
  same_data X d d' ->
  same_data X (foldl ddel d vs) (foldl (fun d v => dforget d v (labels_of tx v)) d' vs).
Proof. induction vs as [|v vs IH]; intros d d' Hs; [done|]. cbn [foldl]. by apply IH, same_del. Qed.

(** All but the labels. *)
Definition unlabelled d : data V :=
  mkData (d_rows d) (d_dead d) (d_edges d) (d_ends d) (d_eprops d) (d_tombs d) (d_types d) ∅ ∅ ∅.

Lemma missing_labels (vls : list (Z * list string)) : forall d,
  NoDup vls.*1 ->
  let d1 := foldl dmissing d vls in
  unlabelled d1 = unlabelled d /\ d_over d1 = d_over d
  /\ (forall v, d_labels d1 !! v = match d_labels d !! v with
        | Some ls => Some ls
        | None => (list_to_map vls : gmap Z (list string)) !! v
        end)
  /\ (forall v l, listed d1 v l <-> listed d v l
        \/ (d_labels d !! v = None /\ l ∈ default [] ((list_to_map vls : gmap Z (list string)) !! v))).
Proof.
  induction vls as [|[w ls] vls IH]; intros d Hnd; cbn [foldl].
  { split; [done|]. split; [done|]. split; intros v; [by destruct (d_labels d !! v)|].
    intros l. cbn. set_solver. }
  apply NoDup_cons in Hnd as [Hw Hnd]. destruct (IH (dmissing d (w, ls)) Hnd) as (H1 & H2 & H3 & H4). clear IH.
  cbn zeta. rewrite H1, H2.
  assert (Hu : unlabelled (dmissing d (w, ls)) = unlabelled d /\ d_over (dmissing d (w, ls)) = d_over d)
    by (unfold dmissing; cbn; by destruct (d_labels d !! w)).
  split; [apply Hu|]. split; [apply Hu|]. clear Hu H1 H2.
  assert (Hm : forall v, d_labels (dmissing d (w, ls)) !! v
    = if decide (w = v) then Some (default ls (d_labels d !! w)) else d_labels d !! v).
  { intros v. unfold dmissing. cbn. destruct (d_labels d !! w) eqn:Ew; cbn.
    - by case_decide; subst.
    - by rewrite lookup_insert. }
  assert (Hl : forall v l, listed (dmissing d (w, ls)) v l
    <-> listed d v l \/ (d_labels d !! w = None /\ v = w /\ l ∈ ls)).
  { intros v l. unfold dmissing, listed. cbn [fst snd]. destruct (d_labels d !! w); [naive_solver|].
    cbn [d_index]. rewrite listed_index. naive_solver. }
  split.
  - intros v. rewrite H3, Hm, list_to_map_cons, lookup_insert. destruct (decide (w = v)) as [<-|]; [|done].
    by destruct (d_labels d !! w).
  - intros v l. rewrite H4, Hl, Hm, list_to_map_cons, lookup_insert. destruct (decide (w = v)) as [<-|Hne].
    + rewrite not_elem_of_list_to_map_1 by done. cbn. set_solver.
    + set_solver.
Qed.

Lemma relabelled tx (vs : list Z) : forall d,
  NoDup vs ->
  let d1 := foldl (step_relabel tx) d vs in
  let hit v := v ∈ vs /\ (v ∉ vertex_tombstones tx) in
  unlabelled d1 = unlabelled d
  /\ (forall v, v ∈ d_over d1 <-> hit v \/ v ∈ d_over d)
  /\ (forall v, hit v -> d_labels d1 !! v = Some (labels_of tx v))
  /\ (forall v, ~ hit v -> d_labels d1 !! v = d_labels d !! v)
  /\ (forall v l, hit v -> listed d1 v l <->
        l ∈ labels_of tx v \/ (listed d v l /\ (l ∉ default [] (d_labels d !! v))))
  /\ (forall v l, ~ hit v -> listed d1 v l <-> listed d v l).
Proof.
  induction vs as [|w vs IH]; intros d Hnd; cbn [foldl].
  { cbn. split; [done|]. split; [set_solver|]. split; [set_solver|]. split; [done|]. split; [set_solver|done]. }
  apply NoDup_cons in Hnd as [Hw Hnd].
  destruct (IH (step_relabel tx d w) Hnd) as (H1 & H2 & H3 & H4 & H5 & H6). clear IH. cbn zeta in *.
  set (d1 := foldl (step_relabel tx) (step_relabel tx d w) vs) in *. clearbody d1.
  unfold step_relabel in *. destruct (decide (w ∈ vertex_tombstones tx)) as [Ht|Ht].
  { assert (He : forall v, (v ∈ w :: vs /\ v ∉ vertex_tombstones tx) <-> (v ∈ vs /\ v ∉ vertex_tombstones tx)) by set_solver.
    setoid_rewrite He. done. }
  assert (Hlab : forall v, v <> w -> d_labels (drelabel d w (labels_of tx w)) !! v = d_labels d !! v)
    by (intros v Hne; cbn; by rewrite lookup_insert_ne).
  assert (Hlist : forall v l, listed (drelabel d w (labels_of tx w)) v l <->
    (v = w /\ l ∈ labels_of tx w) \/ (listed d v l /\ ~ (v = w /\ l ∈ default [] (d_labels d !! w)))).
  { intros v l. unfold listed, drelabel, unindexed. cbn [d_index]. by rewrite listed_index, listed_unindex. }
  split; [by rewrite H1|]. split; [intros v; rewrite H2; cbn; set_solver|].
  split; [|split; [|split]].
  - intros v [[->|Hv]%elem_of_cons Hnt]; [|by apply H3]. rewrite H4 by tauto. cbn. by rewrite lookup_insert_eq.
  - intros v Hv. rewrite H4 by set_solver. apply Hlab. set_solver.
  - intros v l [[->|Hv]%elem_of_cons Hnt].
    + rewrite H6, Hlist by tauto. set_solver.
    + rewrite H5, Hlab, Hlist by (done || by intros ->). set_solver.
  - intros v l Hv. rewrite H6, Hlist by set_solver. set_solver.
Qed.

(** Every vertex with labels was written, deleted or relabelled. *)
Definition labels_accounted tx : Prop :=
  forall v, is_Some (vertex_labels tx !! v) ->
    is_Some (vertex_properties tx !! v) \/ v ∈ vertex_tombstones tx \/ v ∈ vertex_label_overwrites tx.

Lemma same_relabels X tx d d' :
  same_data X d d' ->
  (forall v, is_Some (vertex_labels tx !! v) -> (v ∉ d_dead d) ->
     is_Some (d_labels d !! v) \/ (v ∈ vertex_label_overwrites tx /\ v ∉ vertex_tombstones tx)) ->
  let vs := hash_order (elements (vertex_label_overwrites tx)) in
  same_data X (foldl (step_relabel tx) (foldl dmissing d (hash_order (map_to_list (vertex_labels tx)))) vs)
    (foldl (step_relabel tx) d' vs).
Proof.
  intros Hs Hacc vs.
  assert (Hvs : forall v, v ∈ vs <-> v ∈ vertex_label_overwrites tx)
    by (intros v; unfold vs; by rewrite hash_order_perm, elem_of_elements).
  assert (Hnd : NoDup vs) by (unfold vs; rewrite hash_order_perm; apply NoDup_elements).
  clearbody vs.
  destruct (missing_labels (hash_order (map_to_list (vertex_labels tx))) d (NoDup_hash_keys _)) as (M1 & M2 & M3 & M4).
  rewrite !hash_keys_map in M3. setoid_rewrite hash_keys_map in M4.
  set (d1 := foldl dmissing d _) in *. clearbody d1.
  destruct (relabelled tx vs d1 Hnd) as (A1 & A2 & A3 & A4 & A5 & A6).
  destruct (relabelled tx vs d' Hnd) as (B1 & B2 & B3 & B4 & B5 & B6). cbn zeta in *.
  set (m1 := foldl (step_relabel tx) d1 vs) in *. set (r1 := foldl (step_relabel tx) d' vs) in *. clearbody m1 r1.
  rewrite M1 in A1. destruct Hs. unfold unlabelled in A1, B1. injection A1 as X1 X2 X3 X4 X5 X6 X7.
  injection B1 as Y1 Y2 Y3 Y4 Y5 Y6 Y7.
  constructor; try congruence.
  - apply set_eq. intros v. rewrite A2, B2, M2, same_over0. done.
  - intros v Hv HX. rewrite X2 in Hv. destruct (decide (v ∈ vs /\ v ∉ vertex_tombstones tx)) as [Hh|Hh].
    + by rewrite A3, B3.
    + rewrite A4, B4, M3 by done. rewrite <- same_labels0 by done.
      destruct (d_labels d !! v) eqn:Ed; [done|]. destruct (vertex_labels tx !! v) eqn:Et; [|done].
      destruct (Hacc v) as [[? ?]|[? ?]]; [by eexists|done|congruence|]. exfalso. apply Hh. by rewrite Hvs.
  - intros v l Hv HX. rewrite X2 in Hv. specialize (same_listed0 v l Hv HX). specialize (same_labels0 v Hv HX).
    destruct (decide (v ∈ vs /\ v ∉ vertex_tombstones tx)) as [Hh|Hh].
    + rewrite A5, B5, M4, M3 by done. rewrite <- same_labels0, <- same_listed0.
      unfold labels_of. destruct (d_labels d !! v) as [x|]; [naive_solver|].
      destruct (vertex_labels tx !! v) as [y|]; cbn; [|set_solver].
      destruct (decide (l ∈ y)); set_solver.
    + rewrite A6, B6, M4 by done. rewrite <- same_listed0. split; [|by left].
      intros [?|[Hn Hl]]; [done|]. destruct (vertex_labels tx !! v) eqn:Et; [|by apply not_elem_of_nil in Hl].
      destruct (Hacc v) as [[? ?]|[? ?]]; [by eexists|done|congruence|]. exfalso. apply Hh. by rewrite Hvs.
Qed.
End phases.

(** ** The buffers transactions build *)

(** What a transaction does to its own buffer: the writes of [live_op],
    relabels and the uniqueness keys of its rows. *)
Inductive tx_op (V : Type) :=
| TWrite (o : live_op V)
| TSetLabels (vid : Z) (labels : list string)
| TRelabel (vid : Z) (previous labels : list string)
| TConstraintKey (key : Key) (vid : Z)
| TMergeKey (key : Key) (vid : Z)
| TEdgeKey (key : Key) (eid : Z).
Arguments TWrite {V}.
Arguments TSetLabels {V}.
Arguments TRelabel {V}.
Arguments TConstraintKey {V}.
Arguments TMergeKey {V}.
Arguments TEdgeKey {V}.

Section transactions.
  Context {G V C : Type} `{TG : Topology G} `{VV : Values V C} `{HO : HashOrder}.
  Implicit Types s tx : L0Buffer G V.

Definition run_tx s (o : tx_op V) : L0Buffer G V :=
  match o with
  | TWrite o => run_live s o
  | TSetLabels vid labels => L0.set_vertex_labels s vid labels
  | TRelabel vid previous labels => relabel_vertex s vid previous labels
  | TConstraintKey key vid => insert_constraint_key s key vid
  | TMergeKey key vid => insert_merge_guard_key s key vid
  | TEdgeKey key eid => insert_edge_constraint_key s key eid
  end.

(** The buffer of a transaction that began at version [v] and ran [ops]. *)
Definition tx_buffer (v : Z) (ops : list (tx_op V)) : L0Buffer G V := foldl run_tx (L0.new v None) ops.

Definition tx_ok tx : Prop := writes_or_deletes tx /\ labels_accounted tx.

(** The fields [tx_ok] speaks of. *)
Definition tx_part s : gmap Z (Properties V) * gset Z * gmap Z (list string) * gset Z :=
  (vertex_properties s, vertex_tombstones s, vertex_labels s, vertex_label_overwrites s).

Lemma tx_ok_part s s' : tx_part s' = tx_part s -> tx_ok s -> tx_ok s'.
Proof.
  unfold tx_part, tx_ok, writes_or_deletes, labels_accounted. intros Hp. injection Hp as -> -> -> ->. done.
Qed.

Lemma tx_part_wal s m : tx_part (wal_try s m).1 = tx_part s.
Proof. unfold wal_try. destruct (wal s) as [w|]; [|done]. by destruct (wal_append w m). Qed.

Lemma tx_ok_put s v p ls skip now : tx_ok s -> tx_ok (insert_vertex_with_labels_impl s v p ls skip now).
Proof.
  intros [H1 H2]. unfold tx_ok, writes_or_deletes, labels_accounted in *.
  assert (Hp : tx_part (insert_vertex_with_labels_impl s v p ls skip now)
    = (<[v := merge_crdt_properties (default ∅ (vertex_properties s !! v)) p]> (vertex_properties s),
       vertex_tombstones s ∖ {[v]},
       <[v := append_unique_labels (default [] (vertex_labels s !! v)) ls]> (vertex_labels s),
       vertex_label_overwrites s)) by (by destruct skip).
  revert Hp. generalize (insert_vertex_with_labels_impl s v p ls skip now). intros s1 Hp.
  unfold tx_part in Hp. injection Hp as -> -> -> ->. split; intros w; rewrite !lookup_insert_is_Some.
  - intros [->|[Hne Hw]]; [set_solver|]. specialize (H1 w Hw). set_solver.
  - intros [->|[Hne Hw]]; [by left; left|]. specialize (H2 w Hw). set_solver.
Qed.

Lemma tx_ok_insert s v p ls now : tx_ok s -> tx_ok (insert_vertex_with_labels s v p ls now).
Proof.
  intros Hs. apply (tx_ok_put s v p ls false now) in Hs. unfold insert_vertex_with_labels.
  revert Hs. generalize (insert_vertex_with_labels_impl s v p ls false now). intros s1 Hs.
  apply (tx_ok_part s1); [|done]. repeat case_match; try case_decide; reflexivity.
Qed.

Lemma tx_ok_delete s v : tx_ok s -> tx_ok (delete_vertex s v).1.
Proof.
  intros Hs. unfold delete_vertex, delete_vertex_impl.
  pose proof (tx_part_wal (set_current_version (Z.add 1) s)
    (DeleteVertex v (default [] (vertex_labels (set_current_version (Z.add 1) s) !! v)))) as Hw.
  pose proof (tx_ok_part s _ Hw Hs) as Hs1. clear Hw Hs. rename Hs1 into Hs.
  destruct (wal_try _ _) as [s1 [[]|e]]; cbn [fst] in *; [|done].
  pose proof (data_del s1 v) as Hd. destruct (apply_vertex_deletion s1 v) as [s2 l]. cbn [fst] in *.
  unfold ddel, data_of in Hd. injection Hd as E1 E2 _ _ _ _ _ E8 E9 _.
  destruct Hs as [H1 H2]. unfold tx_ok, writes_or_deletes, labels_accounted in *. rewrite E1, E2, E8, E9.
  split; intros w Hw.
  - apply lookup_delete_is_Some in Hw as [Hne Hw]. specialize (H1 w Hw). set_solver.
  - destruct (decide (w = v)) as [->|Hne]; [set_solver|].
    rewrite lookup_delete_ne by done. specialize (H2 w Hw). set_solver.
Qed.

Lemma tx_part_insert_edge s a b t k p name skip now :
  tx_part (insert_edge_impl s a b t k p name skip now).1 = tx_part s.
Proof.
  unfold insert_edge_impl. set (s0 := set_current_version (Z.add 1) s).
  assert (Hw : forall m, tx_part (if skip then (s0, Ok tt) else wal_try s0 m).1 = tx_part s)
    by (intros m; destruct skip; [done|]; by rewrite tx_part_wal).
  match goal with |- context [if skip then _ else wal_try s0 ?m] => specialize (Hw m) end.
  destruct (if skip then _ else _) as [s1 [[]|e]]; cbn [fst] in *; [|done]. clearbody s0. rewrite <- Hw. clear Hw.
  unfold apply_edge_insertion. repeat case_decide; try done; by destruct name.
Qed.

Lemma tx_part_delete_edge s k a b t now : tx_part (delete_edge s k a b t now).1 = tx_part s.
Proof.
  unfold delete_edge, delete_edge_impl. set (s0 := set_current_version (Z.add 1) s).
  pose proof (tx_part_wal s0 (DeleteEdge k a b t (current_version s0) (edge_types s0 !! k))) as Hw.
  destruct (wal_try _ _) as [s1 [[]|e]]; cbn [fst] in *; [|done].
  change (tx_part s1 = tx_part s) in Hw. clearbody s0. by rewrite <- Hw.
Qed.

Lemma tx_ok_set_labels s v ls : tx_ok s -> tx_ok (L0.set_vertex_labels s v ls).
Proof.
  intros [H1 H2].
  assert (Hp : tx_part (L0.set_vertex_labels s v ls)
    = (vertex_properties s, vertex_tombstones s, <[v := ls]> (vertex_labels s), {[v]} ∪ vertex_label_overwrites s))
    by reflexivity.
  revert Hp. generalize (L0.set_vertex_labels s v ls). intros s1 Hp. unfold tx_part in Hp. injection Hp as E1 E2 E3 E4.
  unfold tx_ok, writes_or_deletes, labels_accounted in *. rewrite E1, E2, E3, E4. split; [done|].
  intros w [->|[Hne Hw]]%lookup_insert_is_Some; [set_solver|]. specialize (H2 w Hw). set_solver.
Qed.

Lemma tx_part_insert_edge_live s a b t k p name now :
  tx_part (insert_edge s a b t k p name now).1 = tx_part s.
Proof.
  unfold insert_edge. pose proof (tx_part_insert_edge s a b t k p name false now) as He.
  destruct (insert_edge_impl s a b t k p name false now) as [s1 [[]|e1]]; cbn [fst] in *; rewrite <- He; [|done].
  repeat case_match; try case_decide; reflexivity.
Qed.

Lemma tx_ok_live s o : tx_ok s -> tx_ok (run_live s o).
Proof.
  intros Hs. destruct o; cbn [run_live]; [by apply tx_ok_insert|by apply tx_ok_put|by apply tx_ok_delete|..];
    apply (tx_ok_part s); try done.
  - apply tx_part_insert_edge_live.
  - apply tx_part_insert_edge.
  - apply tx_part_delete_edge.
  - unfold begin_statement. by case_match.
  - unfold end_statement. by case_match.
  - unfold note_write_admitted. by case_match.
  - unfold record_property_effect. by repeat case_match.
  - unfold record_labels_removed. by case_decide.
Qed.

Lemma tx_buffer_ok v ops : tx_ok (tx_buffer v ops).
Proof.
  unfold tx_buffer.
  assert (H0 : tx_ok (L0.new (G := G) (V := V) v None)).
  { split; intros w; cbn; by intros ?%lookup_empty_is_Some. }
  revert H0. generalize (L0.new (G := G) (V := V) v None). induction ops as [|o ops IH]; intros s Hs; [done|].
  cbn [foldl]. apply IH. destruct o; cbn [run_tx].
  - by apply tx_ok_live.
  - by apply tx_ok_set_labels.
  - by apply tx_ok_set_labels.
  - by apply (tx_ok_part s).
  - by apply (tx_ok_part s).
  - by apply (tx_ok_part s).
Qed.
End transactions.

(** ** A run of commits and its recovery *)

Section recovery.
  Context {G1 G2 V C : Type} `{TG1 : Topology G1} `{TG2 : Topology G2} `{VV : Values V C}.
  Context (ho1 ho2 : HashOrder) (names : Z -> option string).

(** The vertices a transaction writes although the main buffer has them
    deleted.  Ids are not reused, so only a transaction that began before the
    deletion does this, and the conflict check admits it only when the check is
    off or the write is left out of it. *)
Definition revived (s tx : L0Buffer G1 V) : gset Z := dom (vertex_properties tx) ∩ vertex_tombstones s.

(** The stores that commits of transactions lead to, from a buffer opened at
    version [v0], with the vertices revived on the way. *)
Inductive committed (v0 : Z) : gset Z -> store G1 V -> Prop :=
| committed_open : committed v0 ∅ (mkStore (L0.new v0 None) [])
| committed_step X st v ops now :
    committed v0 X st ->
    committed v0 (X ∪ revived (main st) (tx_buffer (HO := ho1) v ops))
      (commit (HO := ho1) names st [] (tx_buffer (HO := ho1) v ops) now).1.

Lemma labels_after_puts tx (rows : list (Z * Properties V)) (d : data V) v :
  is_Some (d_labels d !! v) \/ v ∈ rows.*1 -> is_Some (d_labels (foldl (step_put (G := G1) tx) d rows) !! v).
Proof.
  revert d. induction rows as [|[w p] rows IH]; intros d Hv; cbn [foldl].
  { destruct Hv as [Hv|Hv]; [done|]. by apply not_elem_of_nil in Hv. }
  apply IH. cbn. rewrite lookup_insert_is_Some'. cbn [fmap list_fmap fst] in Hv. set_solver.
Qed.

Lemma labels_after_dels (vs : list Z) (d : data V) : d_labels (foldl ddel d vs) = d_labels d.
Proof. revert d. induction vs as [|v vs IH]; intros d; [done|]. cbn [foldl]. by rewrite IH. Qed.

Lemma dead_after_dels (vs : list Z) (d : data V) v : v ∈ d_dead (foldl ddel d vs) <-> v ∈ vs \/ v ∈ d_dead d.
Proof. revert d. induction vs as [|w vs IH]; intros d; cbn [foldl]; [set_solver|]. rewrite IH. cbn. set_solver. Qed.

(** One commit: the merge and the replay of its records agree. *)
Lemma commit_same X (tx : L0Buffer G1 V) (d d' : data V) :
  tx_ok tx -> (forall v, is_Some (vertex_properties tx !! v) -> v ∈ d_dead d -> v ∈ X) -> same_data X d d' ->
  same_data X (merge_data (HO := ho1) tx d) (replay_data (HO := ho1) tx d').
Proof.
  intros [Hwd Hacc] Hlive Hs. unfold merge_data, replay_data.
  set (rows := hash_order (map_to_list (vertex_properties tx))).
  assert (Hrows : forall v, v ∈ rows.*1 <-> is_Some (vertex_properties tx !! v)) by (intros; apply elem_of_hash_keys).
  assert (Hrow : forall row, row ∈ rows -> is_Some (vertex_properties tx !! row.1))
    by (intros row Hr; apply Hrows, list_elem_of_fmap; by exists row).
  set (dels := hash_order (elements (vertex_tombstones tx))).
  assert (Hdels : forall v, v ∈ dels <-> v ∈ vertex_tombstones tx)
    by (intros v; unfold dels; by rewrite hash_order_perm, elem_of_elements).
  rewrite (dels_after_puts tx dels rows d).
  2: { intros row v Hr Hv Heq. apply (Hwd row.1); [by apply Hrow|]. rewrite Heq. by apply Hdels. }
  assert (H1 : same_data X (foldl ddel (foldl (step_put tx) d rows) dels)
    (foldl (fun d v => dforget d v (labels_of tx v)) (foldl (step_put tx) d' rows) dels)).
  { apply same_dels, same_puts; [done|]. intros row Hr. by apply Hlive, Hrow. }
  assert (H2 := same_relabels (HO := ho1) X tx _ _ H1).
  assert (Hedge : forall d d', same_data X d d' -> same_data X (edge_phase (HO := ho1) tx d) (edge_phase (HO := ho1) tx d')).
  { clear. intros d d' Hs. unfold edge_phase.
    assert (He : forall l d d', same_data X d d' -> same_data X (foldl (step_edge tx) d l) (foldl (step_edge tx) d' l)).
    { induction l as [|[k [[a b] t]] l IH]; intros e e' He; [done|]. cbn [foldl]. apply IH. unfold step_edge.
      case_match; [by apply same_unlink|by apply same_link]. }
    assert (Ht : forall l d d', same_data X d d' -> same_data X (foldl (step_tombstone tx) d l) (foldl (step_tombstone tx) d' l)).
    { induction l as [|[k t] l IH]; intros e e' He'; [done|]. cbn [foldl]. apply IH. unfold step_tombstone.
      case_match; [done|by apply same_unlink]. }
    by apply Ht, He. }
  apply Hedge, H2. intros v Hv Hnd. rewrite dead_after_dels, Hdels in Hnd.
  destruct (Hacc v Hv) as [Hr|[?|?]]; [|tauto|right; tauto].
  left. rewrite labels_after_dels. apply labels_after_puts. right. by apply Hrows.
Qed.

(** No row of a deleted vertex. *)
Definition rows_alive (d : data V) : Prop := forall v, is_Some (d_rows d !! v) -> v ∉ d_dead d.

Lemma rows_alive_fold {A} (F : data V -> A -> data V) (l : list A) d :
  (forall d a, rows_alive d -> rows_alive (F d a)) -> rows_alive d -> rows_alive (foldl F d l).
Proof. intros HF. revert d. induction l as [|a l IH]; intros d Hd; [done|]. cbn [foldl]. by apply IH, HF. Qed.

Lemma rows_alive_merge (tx : L0Buffer G1 V) d : rows_alive d -> rows_alive (merge_data (HO := ho1) tx d).
Proof.
  intros Hd. unfold merge_data, edge_phase. repeat apply rows_alive_fold; [..|exact Hd]; clear d Hd; intros d a Hd v.
  - unfold step_tombstone. case_match; cbn; apply Hd.
  - unfold step_edge, dlink. destruct a as [k [[x y] t]]. repeat case_match; cbn; apply Hd.
  - unfold step_relabel. case_match; cbn; apply Hd.
  - unfold dmissing. case_match; cbn; apply Hd.
  - cbn. rewrite lookup_insert_is_Some. specialize (Hd v). set_solver.
  - cbn. rewrite lookup_delete_is_Some. specialize (Hd v). set_solver.
Qed.

(** With nothing pending, the commit's own check and the merge's agree. *)
Lemma overlay_agrees `{HO : HashOrder} (s tx : L0Buffer G1 V) :
  rows_alive (data_of s) -> writes_or_deletes tx ->
  validate_edge_endpoints_overlay s [] tx = validate_merge_edge_endpoints s tx.
Proof.
  intros Hs Htx. unfold validate_edge_endpoints_overlay, validate_merge_edge_endpoints. f_equal. cbn [rev].
  assert (Hd : forall v, effectively_deleted [tx; s] v = is_deleted s tx v).
  { intros v. specialize (Hs v). specialize (Htx v). cbn in Hs. unfold is_deleted. cbn [effectively_deleted].
    destruct (vertex_properties tx !! v) as [p|] eqn:Ht.
    - by rewrite bool_decide_true, andb_false_r by done.
    - rewrite bool_decide_false, andb_true_r by by intros [? ?].
      repeat case_bool_decide; try done; exfalso; by apply Hs. }
  apply try_for_ext. intros u [k [[a b] t]]. unfold validate_edge_overlay, validate_edge. by rewrite !Hd.
Qed.

Lemma commit_step_same X (st : store G1 V) (tx : L0Buffer G1 V) now (r : L0Buffer G2 V) :
  tx_ok tx -> rows_alive (data_of (main st)) ->
  same_data X (data_of (main st)) (data_of r) ->
  let st' := (commit (HO := ho1) names st [] tx now).1 in
  rows_alive (data_of (main st'))
  /\ exists ms, log st' = log st ++ ms
    /\ same_data (X ∪ revived (main st) tx) (data_of (main st')) (data_of (foldl (replay_mutation (HO := ho2)) r ms)).
Proof.
  intros Htx Hal Hs. apply (same_data_mono X (X ∪ revived (main st) tx)) in Hs; [|apply union_subseteq_l].
  unfold commit. rewrite (overlay_agrees (HO := ho1)) by (done || apply Htx).
  unfold seed_crdt_state_from_chain, merge_take.
  pose proof (validate_ok (HO := ho1) (main st) tx) as Hok.
  pose proof (merge_validated_spec (HO := ho1) (main st) tx (vertex_properties tx) (edge_properties tx) now) as Hm.
  destruct (validate_merge_edge_endpoints (HO := ho1) (main st) tx) as [[]|e].
  2: { split; [done|]. exists []. cbn. by rewrite app_nil_r. }
  cbn [is_ok] in Hok. rewrite <- Hok in Hm. destruct Hm as (s' & c & Hm & _).
  assert (Hb : merge_validated (HO := ho1) (main st) (set_edge_properties (fun _ => ∅) (set_vertex_properties (fun _ => ∅) tx))
      (vertex_properties tx) (edge_properties tx) now = (s', Ok c)) by exact Hm.
  change (edge_properties (set_vertex_properties (fun _ => ∅) tx)) with (edge_properties tx). rewrite Hb.
  cbn [fst main]. rewrite (merge_data_of (HO := ho1) (main st) tx (edge_properties tx) now s' c) by done.
  split; [by apply rows_alive_merge|]. exists (commit_records (HO := ho1) names tx). split; [done|].
  rewrite replay_commit_data by apply Htx. apply commit_same; [done| |done].
  intros v Hv Hd. rewrite elem_of_union. right. unfold revived. rewrite elem_of_intersection, elem_of_dom. by split.
Qed.

(** C2: the log of a run of commits rebuilds the database.  Transactions
    write, delete, relabel and link vertices and edges in buffers of their own;
    each commit validates, appends its records (inserts, deletions, relabels,
    edges, edge deletions) and merges (deletions first), while no buffer waits
    for a flush.  After any sequence of such commits, rejected ones included,
    replaying the log into a fresh buffer succeeds and gives the main buffer's
    data: the same rows, deleted vertices, topology, edge rows, edge tombstones,
    type names and relabel flags, and the same label sets and label index for
    every vertex that is neither deleted nor in [X], the vertices some
    transaction wrote although the main buffer had them deleted; whatever the
    hash iteration orders and graph representations.  The labels of a vertex in
    [X] can differ ([CommitExamples.revived_labels_differ]). *)
Theorem commits_recover (v0 v1 : Z) (X : gset Z) (st : store G1 V) :
  committed v0 X st ->
  exists r : L0Buffer G2 V, replay_mutations (HO := ho2) (L0.new v1 None) (log st) = (r, Ok tt)
    /\ same_data X (data_of (main st)) (data_of r).
Proof.
  intros Hc. eexists. split; [reflexivity|].
  assert (rows_alive (data_of (main st)) /\ same_data X (data_of (main st))
    (data_of (foldl (replay_mutation (HO := ho2)) (L0.new (G := G2) v1 None) (log st)))) as [_ H]; [|exact H].
  induction Hc as [|X st v ops now Hc [IHa IH]].
  - split; [by intros v [? Hv]|]. cbn. unfold data_of. cbn. by rewrite !t_new_view.
  - destruct (commit_step_same X st (tx_buffer (HO := ho1) v ops) now _ (tx_buffer_ok v ops) IHa IH) as (Ha & ms & -> & Hs).
    split; [done|]. by rewrite foldl_app.
Qed.
End recovery.
