(* ===== verification/CommitTimes.v ===== *)
(** * The timestamps of a committed vertex

    A transaction's buffer stamps the rows it writes; the commit merges them
    into the main buffer and logs them with their stamps.  The merge writes
    every row at the time of the merge before it merges the stamps with
    [or_insert], so the creation time of a new vertex is the time of its commit
    while its update time, and its creation time after a recovery, are the
    transaction's. *)

From S2P Require Import Prelude Graph L0State L0 L0Replay L0Recovery L0Merge L0Data Commit.

Section times.
  Context {G V C : Type} `{TG : Topology G} `{VV : Values V C} `{HO : HashOrder}.
  Implicit Types s tx : L0Buffer G V.

Definition stamps s : gmap Z Z * gmap Z Z := (vertex_created_at s, vertex_updated_at s).

Lemma stamps_fold {A} (f : L0Buffer G V -> A -> L0Buffer G V) l s :
  (forall s a, stamps (f s a) = stamps s) -> stamps (foldl f s l) = stamps s.
Proof. intros Hf. revert s. induction l as [|a l IH]; intros s; [done|]. cbn [foldl]. by rewrite IH. Qed.

Lemma stamps_try_for {A E} (f : L0Buffer G V -> A -> L0Buffer G V * result E unit) l s :
  (forall s a, stamps (f s a).1 = stamps s) -> stamps (try_for f s l).1 = stamps s.
Proof.
  intros Hf. revert s. induction l as [|a l IH]; intros s; [done|]. cbn [try_for].
  pose proof (Hf s a) as Ha. destruct (f s a) as [s1 [[]|e]]; [|done]. by rewrite IH.
Qed.

Lemma stamps_deletion s v : stamps (apply_vertex_deletion s v).1 = stamps s.
Proof.
  rewrite deletion_state. set (l := hash_order _). clearbody l.
  assert (Hf : stamps (foldl (cascade_state (current_version s)) s l) = stamps s).
  { apply stamps_fold. intros s0 k. unfold cascade_state. by destruct (edge_endpoints s0 !! k). }
  revert Hf. generalize (foldl (cascade_state (current_version s)) s l). done.
Qed.

Lemma stamps_deletions l : forall s c s' c' r,
  try_for merge_deletion (s, c) l = ((s', c'), r) -> stamps s' = stamps s.
Proof.
  induction l as [|v l IH]; intros s c s' c' r; cbn [try_for]; [by intros [= <- _ _]|].
  unfold merge_deletion at 1, delete_vertex_impl.
  pose proof (stamps_deletion (set_current_version (Z.add 1) s) v) as Hd.
  destruct (apply_vertex_deletion _ v) as [s1 l1]. intros Ht. apply IH in Ht. by rewrite Ht.
Qed.

Lemma stamps_edges tx now (l : list (Z * (Z * Z * Z))) : forall s ep s' ep' r,
  try_for (merge_edge tx now) (s, ep) l = ((s', ep'), r) -> stamps s' = stamps s.
Proof.
  induction l as [|[k [[a b] t]] l IH]; intros s ep s' ep' r; cbn [try_for]; [by intros [= <- _ _]|].
  unfold merge_edge at 1. destruct (is_tombstoned tx k).
  - unfold delete_edge_impl. intros Ht. by apply IH in Ht.
  - assert (Hi : forall p name, stamps (insert_edge_impl s a b t k p name true now).1 = stamps s).
    { intros p name. unfold insert_edge_impl, apply_edge_insertion. repeat case_decide; try done; by destruct name. }
    specialize (Hi (default ∅ (ep !! k)) (edge_types tx !! k)).
    destruct (insert_edge_impl _ _ _ _ _ _ _ _ _) as [s1 [[]|e]]; cbn [fst] in Hi.
    + intros Ht. apply IH in Ht. congruence.
    + by intros [= <- _ _].
Qed.

(** A row the merge writes is stamped with the time of the merge. *)
Lemma stamps_rows tx now v : forall (rows : list (Z * Properties V)) s,
  let s' := foldl (merge_vertex tx now) s rows in
  vertex_created_at s' !! v =
    match vertex_created_at s !! v with
    | Some t => Some t
    | None => if decide (v ∈ rows.*1) then Some now else None
    end.
Proof.
  induction rows as [|[w p] rows IH]; intros s; cbn [foldl].
  { rewrite decide_False by apply not_elem_of_nil. by destruct (_ !! v). }
  cbn zeta. rewrite IH. clear IH.
  assert (Hw : vertex_created_at (merge_vertex tx now s (w, p)) = or_insert w now (vertex_created_at s)) by reflexivity.
  rewrite Hw. clear Hw. unfold or_insert. cbn [fmap list_fmap fst].
  assert (Hin : v ∈ w :: rows.*1 <-> w = v \/ v ∈ rows.*1) by (rewrite elem_of_cons; naive_solver).
  destruct (vertex_created_at s !! w) eqn:Ew; [|rewrite lookup_insert; destruct (decide (w = v)) as [->|Hne]].
  - destruct (vertex_created_at s !! v) eqn:Ev; [done|].
    assert (w <> v) by congruence. repeat case_decide; done || tauto.
  - rewrite Ew. rewrite decide_True by tauto. done.
  - destruct (vertex_created_at s !! v); [done|]. repeat case_decide; done || tauto.
Qed.

Lemma metadata_stamps s tx :
  stamps (merge_metadata s tx) = (vertex_created_at s ∪ vertex_created_at tx, vertex_updated_at tx ∪ vertex_updated_at s).
Proof.
  unfold merge_metadata. set (s1 := set_estimated_size _ _).
  assert (H1 : stamps s1 = (vertex_created_at s ∪ vertex_created_at tx, vertex_updated_at tx ∪ vertex_updated_at s)) by done.
  clearbody s1.
  match goal with |- stamps (set_pending_embeddings _ ?x) = ?y => change (stamps x = y) end.
  rewrite !stamps_fold by done. done.
Qed.

Lemma merge_validated_created s tx ep now s' c v :
  merge_validated s tx (vertex_properties tx) ep now = (s', Ok c) ->
  is_Some (vertex_properties tx !! v) -> vertex_created_at s !! v = None ->
  vertex_created_at s' !! v = Some now
  /\ forall t, vertex_updated_at tx !! v = Some t -> vertex_updated_at s' !! v = Some t.
Proof.
  intros Hm Hv Hs. unfold merge_validated in Hm.
  destruct (try_for merge_deletion _ _) as [[s1 c1] [[]|e]] eqn:H1; [|done]. apply stamps_deletions in H1.
  pose proof (stamps_rows tx now v (hash_order (map_to_list (vertex_properties tx))) s1) as H2. cbn zeta in H2.
  set (s2 := foldl (merge_vertex tx now) s1 _) in *. clearbody s2.
  assert (H3 : stamps (foldl merge_missing_labels s2 (hash_order (map_to_list (vertex_labels tx)))) = stamps s2).
  { apply stamps_fold. intros s0 x. unfold merge_missing_labels. by destruct (vertex_labels s0 !! x.1). }
  set (s3 := foldl merge_missing_labels s2 _) in *. clearbody s3.
  assert (H4 : stamps (foldl (merge_label_overwrite tx) s3 (hash_order (elements (vertex_label_overwrites tx)))) = stamps s3).
  { apply stamps_fold. intros s0 x. unfold merge_label_overwrite. by destruct (decide (x ∈ vertex_tombstones tx)). }
  set (s4 := foldl (merge_label_overwrite tx) s3 _) in *. clearbody s4.
  destruct (try_for (merge_edge tx now) _ _) as [[s5 ep5] [[]|e]] eqn:H5; [|done]. apply stamps_edges in H5.
  assert (H6 : stamps (try_for (merge_tombstone tx now) s5 (hash_order (map_to_list (tombstones tx)))).1 = stamps s5).
  { apply stamps_try_for. intros s0 x. unfold merge_tombstone. by destruct (edge_endpoints tx !! x.1). }
  destruct (try_for (merge_tombstone tx now) _ _) as [s6 [[]|e]]; [|done]. cbn [fst] in H6.
  injection Hm as <- _. pose proof (metadata_stamps s6 tx) as H7. revert H7.
  generalize (merge_metadata s6 tx). intros s7 H7. unfold stamps in *. injection H7 as -> ->.
  assert (Hc : vertex_created_at s6 !! v = Some now).
  { assert (E : vertex_created_at s6 = vertex_created_at s2) by congruence. rewrite E, H2.
    assert (E1 : vertex_created_at s1 = vertex_created_at s) by congruence. rewrite E1, Hs.
    by rewrite decide_True by (by apply elem_of_hash_keys). }
  split; [by apply lookup_union_Some_l|]. intros t Ht. by apply lookup_union_Some_l.
Qed.

(** ** The log *)

Lemma replay_rows_created tx v t : forall (rows : list (Z * Properties V)) s,
  v ∈ rows.*1 -> (v ∉ vertex_tombstones tx) ->
  vertex_created_at tx !! v = Some t -> vertex_created_at s !! v = None ->
  vertex_created_at (foldl replay_mutation s (rows ≫= vertex_record tx)) !! v = Some t.
Proof.
  assert (Hkeep : forall rows s u, vertex_created_at s !! v = Some u ->
    vertex_created_at (foldl replay_mutation s (rows ≫= vertex_record tx)) !! v = Some u).
  { induction rows as [|[w p] rows IH]; intros s u Hs; [done|]. cbn [mbind list_bind]. rewrite foldl_app.
    apply IH. unfold vertex_record. case_decide; [done|]. cbn [fst foldl].
    destruct (vertex_created_at tx !! w) as [x|], (vertex_updated_at tx !! w) as [y|]; try exact Hs;
      (match goal with |- vertex_created_at (replay_mutation ?s ?m) !! _ = _ =>
        change (or_insert w x (vertex_created_at s) !! v = Some u) end);
      unfold or_insert; destruct (vertex_created_at s !! w) eqn:Ew; try done;
      (rewrite lookup_insert_ne; [done|congruence]). }
  induction rows as [|[w p] rows IH]; intros s Hin Hnt Ht Hs; [by apply not_elem_of_nil in Hin|].
  cbn [mbind list_bind]. rewrite foldl_app. destruct (decide (w = v)) as [->|Hne].
  - apply Hkeep. unfold vertex_record. cbn [fst]. rewrite decide_False by done. cbn [foldl]. rewrite Ht.
    destruct (vertex_updated_at tx !! v) as [y|];
      (match goal with |- vertex_created_at (replay_mutation ?s ?m) !! _ = _ =>
        change (or_insert v t (vertex_created_at s) !! v = Some t) end);
      unfold or_insert; rewrite Hs; by rewrite lookup_insert_eq.
  - cbn [fmap list_fmap fst] in Hin. apply elem_of_cons in Hin as [->|Hin]; [done|]. apply IH; try done.
    unfold vertex_record. case_decide; [done|]. cbn [fst foldl].
    destruct (vertex_created_at tx !! w) as [x|], (vertex_updated_at tx !! w) as [y|]; try exact Hs;
      (match goal with |- vertex_created_at (replay_mutation ?s ?m) !! _ = _ =>
        change (or_insert w x (vertex_created_at s) !! v = None) end);
      unfold or_insert; destruct (vertex_created_at s !! w) eqn:Ew; try done;
      by rewrite lookup_insert_ne.
Qed.

(** The records behind the rows carry no creation time. *)
Definition undated (m : Mutation V) : Prop := match m with InsertVertex _ _ _ _ _ => False | _ => True end.

Lemma undated_stamps m s : undated m -> stamps (replay_mutation s m) = stamps s.
Proof.
  destruct m as [a b t k ver p name c u|k a b t ver name|v p ls c u|v ls|v ls]; intros Hm; [| |done| |].
  - unfold replay_mutation, apply_edge_insertion. repeat case_decide; try done; by destruct name, c, u.
  - done.
  - unfold replay_mutation. rewrite stamps_deletion. by destruct ls.
  - done.
Qed.

Lemma undated_tail names tx :
  Forall undated (((fun vid => DeleteVertex vid (labels_of tx vid)) <$> hash_order (elements (vertex_tombstones tx)))
    ++ (hash_order (elements (vertex_label_overwrites tx)) ≫= label_record tx)
    ++ (edge_record names tx <$> hash_order (map_to_list (edge_endpoints tx)))
    ++ (hash_order (map_to_list (tombstones tx)) ≫= tombstone_record names tx)).
Proof.
  rewrite !Forall_app. split; [|split; [|split]].
  - apply Forall_fmap, Forall_true. done.
  - apply Forall_bind, Forall_true. intros v. unfold compose, label_record.
    destruct (decide (v ∈ vertex_tombstones tx)); by repeat constructor.
  - apply Forall_fmap, Forall_true. intros [k [[a b] t]]. unfold compose, edge_record. by destruct (is_tombstoned tx k).
  - apply Forall_bind, Forall_true. intros [k t]. unfold compose, tombstone_record. cbn [fst].
    destruct (edge_endpoints tx !! k); by repeat constructor.
Qed.

(** A commit changes creation times, and a recovery changes them again.
    A vertex the main buffer does not know, created by a transaction at [tc]
    and last written by it at [tu], has the time of the merge as creation time
    after the commit, later than its update time [tu] when the merge runs
    later; rebuilding the main buffer from the log gives it [tc]. *)
Theorem commit_redates_vertices (names : Z -> option string) s tx (now v tc tu : Z) s' c :
  merge s tx now = (s', Ok c) ->
  is_Some (vertex_properties tx !! v) -> (v ∉ vertex_tombstones tx) -> vertex_created_at s !! v = None ->
  vertex_created_at tx !! v = Some tc -> vertex_updated_at tx !! v = Some tu ->
  vertex_created_at s' !! v = Some now
  /\ vertex_updated_at s' !! v = Some tu
  /\ vertex_created_at (foldl replay_mutation s (commit_records names tx)) !! v = Some tc.
Proof.
  intros Hm Hv Hnt Hs Hc Hu. unfold merge in Hm. destruct (validate_merge_edge_endpoints s tx); [|done].
  destruct (merge_validated_created s tx _ now s' c v Hm Hv Hs) as [H1 H2].
  split; [done|]. split; [by apply H2|]. unfold commit_records. rewrite foldl_app.
  pose proof (undated_tail names tx) as Ht. revert Ht. generalize (((fun vid => DeleteVertex vid (labels_of tx vid)) <$>
    hash_order (elements (vertex_tombstones tx))) ++ (hash_order (elements (vertex_label_overwrites tx)) ≫= label_record tx)
    ++ (edge_record names tx <$> hash_order (map_to_list (edge_endpoints tx)))
    ++ (hash_order (map_to_list (tombstones tx)) ≫= tombstone_record names tx)). intros l Ht.
  pose proof (replay_rows_created tx v tc (hash_order (map_to_list (vertex_properties tx))) s
    ltac:(by apply elem_of_hash_keys) Hnt Hc Hs) as Hr. revert Hr.
  generalize (foldl replay_mutation s (hash_order (map_to_list (vertex_properties tx)) ≫= vertex_record tx)).
  induction Ht as [|m l Hm' Hl IH]; intros s0 Hs0; [done|]. cbn [foldl]. apply IH.
  pose proof (undated_stamps m s0 Hm') as He. revert He. generalize (replay_mutation s0 m). intros s1 He.
  unfold stamps in He. injection He as -> _. done.
Qed.
End times.
