(* ===== verification/Visibility.v ===== *)
(** * Reads through the layers of write buffers

    crates/uni-store/src/runtime/l0_visibility.rs and the buffers of a
    [QueryContext] (runtime/context.rs): the transaction's own buffer, then the
    current buffer, then the ones being flushed, newest first.  Reads made by a
    read-write transaction are recorded in its read set, so every recording
    read returns the context with the set extended.  Deadlines, cancellation
    and counters are not modelled. *)

From S2P Require Import Prelude Graph L0State L0 L0Replay L0Merge L0Data Carveout Commit.

Record QueryContext (G V : Type) := mkCtx {
  l0 : L0Buffer G V;
  transaction_l0 : option (L0Buffer G V);
  pending_flush_l0s : list (L0Buffer G V);
}.
Arguments mkCtx {G V}.
Arguments l0 {G V}.
Arguments transaction_l0 {G V}.
Arguments pending_flush_l0s {G V}.

Record L0Edge := mkL0Edge { l_src_vid : Z; l_dst_vid : Z; l_type_id : Z; l_type_name : option string }.
Record L0EdgeLookup := mkLookup { found : gmap Z L0Edge; deleted : gset Z }.

(** crates/uni-store/src/storage/direction.rs *)
Inductive ExpandDirection := ExpandOutgoing | ExpandIncoming | ExpandBoth.
Definition simple_directions (d : ExpandDirection) : list Direction :=
  match d with
  | ExpandOutgoing => [Outgoing]
  | ExpandIncoming => [Incoming]
  | ExpandBoth => [Outgoing; Incoming]
  end.

Section visibility.
  Context {G V C : Type} `{TG : Topology G} `{VV : Values V C} `{HO : HashOrder}.
  Implicit Types ctx : QueryContext G V.

(** ** Recording reads *)

Definition on_read_set (f : OccReadSet -> OccReadSet) ctx : QueryContext G V :=
  mkCtx (l0 ctx) (set_occ_read_set (fmap f) <$> transaction_l0 ctx) (pending_flush_l0s ctx).

Definition record_vertex_read ctx (vid : Z) : QueryContext G V :=
  on_read_set (fun rs => mkReads ({[vid]} ∪ read_vertices rs) (read_edges rs)) ctx.

Definition record_edge_read ctx (eid : Z) : QueryContext G V :=
  on_read_set (fun rs => mkReads (read_vertices rs) ({[eid]} ∪ read_edges rs)) ctx.

(** ** Walking the layers *)

Definition visit_l0_buffers ctx (visitor : L0Buffer G V -> bool) : bool :=
  if (match transaction_l0 ctx with Some tx => visitor tx | None => false end) then true
  else if visitor (l0 ctx) then true
  else existsb visitor (rev (pending_flush_l0s ctx)).

Fixpoint first_some {A B} (f : A -> option B) (l : list A) : option B :=
  match l with
  | [] => None
  | a :: l => match f a with Some b => Some b | None => first_some f l end
  end.

Definition find_in_l0_buffers {T} ctx (visitor : L0Buffer G V -> option T) : option T :=
  match transaction_l0 ctx ≫= visitor with
  | Some v => Some v
  | None =>
      match visitor (l0 ctx) with
      | Some v => Some v
      | None => first_some visitor (rev (pending_flush_l0s ctx))
      end
  end.

(** ** Reads *)

Definition is_vertex_deleted (vid : Z) ctx : QueryContext G V * bool :=
  let ctx := record_vertex_read ctx vid in
  (ctx, visit_l0_buffers ctx (fun buf => bool_decide (vid ∈ vertex_tombstones buf))).

Definition is_edge_deleted (eid : Z) ctx : QueryContext G V * bool :=
  let ctx := record_edge_read ctx eid in
  (ctx, visit_l0_buffers ctx (fun buf => bool_decide (is_Some (tombstones buf !! eid)))).

Definition lookup_vertex_prop (vid : Z) (prop : string) ctx : QueryContext G V * option V :=
  let ctx := record_vertex_read ctx vid in
  (ctx, find_in_l0_buffers ctx (fun buf => vertex_properties buf !! vid ≫= (.!! prop))).

Definition lookup_edge_prop (eid : Z) (prop : string) ctx : QueryContext G V * option V :=
  let ctx := record_edge_read ctx eid in
  (ctx, find_in_l0_buffers ctx (fun buf => edge_properties buf !! eid ≫= (.!! prop))).

(** Adding one layer's properties: [get_or_insert_with] and the inserts. *)
Definition accumulate_layer (rows : L0Buffer G V -> gmap Z (Properties V)) (id : Z)
    (result : option (Properties V)) (buf : L0Buffer G V) : option (Properties V) :=
  match rows buf !! id with
  | Some props =>
      Some (for_entries (fun entry k v => <[k := v]> entry) (default ∅ result) props)
  | None => result
  end.

Definition accumulate_props (rows : L0Buffer G V -> gmap Z (Properties V)) (id : Z) ctx : option (Properties V) :=
  let result := foldl (accumulate_layer rows id) None (pending_flush_l0s ctx) in
  let result := accumulate_layer rows id result (l0 ctx) in
  match transaction_l0 ctx with
  | Some tx => accumulate_layer rows id result tx
  | None => result
  end.

Definition accumulate_vertex_props (vid : Z) ctx : QueryContext G V * option (Properties V) :=
  let ctx := record_vertex_read ctx vid in (ctx, accumulate_props vertex_properties vid ctx).

Definition accumulate_edge_props (eid : Z) ctx : QueryContext G V * option (Properties V) :=
  let ctx := record_edge_read ctx eid in (ctx, accumulate_props edge_properties eid ctx).

Definition vertex_exists_in_l0 (vid : Z) ctx : QueryContext G V * bool :=
  let ctx := record_vertex_read ctx vid in
  (ctx, visit_l0_buffers ctx (fun buf => bool_decide (is_Some (vertex_properties buf !! vid)))).

Definition edge_exists_in_l0 (eid : Z) ctx : bool :=
  visit_l0_buffers ctx (fun buf => bool_decide (is_Some (edge_endpoints buf !! eid))).

Definition get_vertex_labels_optional (vid : Z) ctx : QueryContext G V * option (list string) :=
  let ctx := record_vertex_read ctx vid in
  (ctx, find_in_l0_buffers ctx (fun buf => L0.get_vertex_labels buf vid)).

Definition get_vertex_labels (vid : Z) ctx : QueryContext G V * list string :=
  let ctx := record_vertex_read ctx vid in
  (ctx, default [] (find_in_l0_buffers ctx (fun buf => L0.get_vertex_labels buf vid))).

Definition get_edge_type (eid : Z) ctx : QueryContext G V * option string :=
  let ctx := record_edge_read ctx eid in
  (ctx, find_in_l0_buffers ctx (fun buf => L0.get_edge_type buf eid)).

Definition get_edge_endpoints (eid : Z) ctx : QueryContext G V * option (Z * Z) :=
  let ctx := record_edge_read ctx eid in
  (ctx, find_in_l0_buffers ctx (fun buf => L0.get_edge_endpoints buf eid)).

Definition get_vertex_properties (vid : Z) ctx : option (Properties V) :=
  find_in_l0_buffers ctx (fun buf => vertex_properties buf !! vid).

Definition get_edge_properties (eid : Z) ctx : option (Properties V) :=
  find_in_l0_buffers ctx (fun buf => edge_properties buf !! eid).

(** One layer of [lookup_edges], for one edge. *)
Definition lookup_edge_step (buf : L0Buffer G V) (lookup : L0EdgeLookup) (eid : Z) : L0EdgeLookup :=
  if bool_decide (is_Some (tombstones buf !! eid)) then
    mkLookup (delete eid (found lookup)) ({[eid]} ∪ deleted lookup)
  else if bool_decide (eid ∈ deleted lookup) || bool_decide (is_Some (found lookup !! eid)) then lookup
  else
    match edge_endpoints buf !! eid with
    | Some (src_vid, dst_vid, type_id) =>
        mkLookup (<[eid := mkL0Edge src_vid dst_vid type_id (edge_types buf !! eid)]> (found lookup)) (deleted lookup)
    | None => lookup
    end.

Definition lookup_edge_layer (eids : list Z) (lookup : L0EdgeLookup) (buf : L0Buffer G V) : L0EdgeLookup :=
  foldl (lookup_edge_step buf) lookup eids.

Definition lookup_edges (eids : list Z) ctx : QueryContext G V * L0EdgeLookup :=
  let ctx := on_read_set (fun rs => mkReads (read_vertices rs) (list_to_set eids ∪ read_edges rs)) ctx in
  let lookup := mkLookup ∅ ∅ in
  let lookup := match transaction_l0 ctx with Some tx => lookup_edge_layer eids lookup tx | None => lookup end in
  let lookup := lookup_edge_layer eids lookup (l0 ctx) in
  (ctx, foldl (lookup_edge_layer eids) lookup (rev (pending_flush_l0s ctx))).

(** ** Overlaying a buffer's edges on stored neighbours *)

Definition pair_le (a b : Z * Z) : Prop := a.1 < b.1 \/ (a.1 = b.1 /\ a.2 <= b.2).
#[export] Instance pair_le_dec : RelDecision pair_le.
Proof. intros a b. unfold pair_le. apply _. Defined.

Definition overlay_entry (buf : L0Buffer G V) (version_hwm : option Z) (m : gmap Z Z) (e : Z * Z * Z) : gmap Z Z :=
  let '(neighbor, eid, version) := e in
  if (match version_hwm with Some hwm => hwm <? version | None => false end) then m
  else if is_tombstoned buf eid then delete eid m else <[eid := neighbor]> m.

Definition overlay_l0_neighbors (vid edge_type : Z) (direction : ExpandDirection) (buf : L0Buffer G V)
    (neighbors : list (Z * Z)) (version_hwm : option Z) : list (Z * Z) :=
  let m : gmap Z Z := foldl (fun m ve => <[ve.2 := ve.1]> m) ∅ neighbors in
  let m := foldl (fun m dir => foldl (overlay_entry buf version_hwm) m (get_neighbors buf vid edge_type dir)) m
             (simple_directions direction) in
  let m := foldl (fun m eid => delete eid m) m (hash_order (map_to_list (tombstones buf)).*1) in
  merge_sort pair_le ((fun ev => (ev.2, ev.1)) <$> hash_order (map_to_list m)).

(** ** The layers as a list, newest first *)

Lemma fmap_rev {A B} (f : A -> B) (l : list A) : rev (f <$> l) = f <$> rev l.
Proof. symmetry. apply map_rev. Qed.

Lemma elem_of_rev {A} (x : A) (l : list A) : x ∈ rev l <-> x ∈ l.
Proof. by rewrite !list_elem_of_In, <- in_rev. Qed.

Definition layers ctx : list (L0Buffer G V) :=
  option_list (transaction_l0 ctx) ++ l0 ctx :: rev (pending_flush_l0s ctx).

Lemma visit_layers ctx f : visit_l0_buffers ctx f = existsb f (layers ctx).
Proof.
  unfold visit_l0_buffers, layers. destruct (transaction_l0 ctx) as [tx|]; cbn.
  - by destruct (f tx), (f (l0 ctx)).
  - by destruct (f (l0 ctx)).
Qed.

Lemma find_layers {T} ctx (f : L0Buffer G V -> option T) : find_in_l0_buffers ctx f = first_some f (layers ctx).
Proof.
  unfold find_in_l0_buffers, layers. destruct (transaction_l0 ctx) as [tx|]; cbn; [|done].
  by destruct (f tx).
Qed.

Lemma first_some_app {A B} (f : A -> option B) l k :
  first_some f (l ++ k) = match first_some f l with Some b => Some b | None => first_some f k end.
Proof. induction l as [|a l IH]; [done|]. cbn. by destruct (f a). Qed.

Lemma first_some_ext {A B} (f g : A -> option B) l :
  (forall a, a ∈ l -> f a = g a) -> first_some f l = first_some g l.
Proof.
  induction l as [|a l IH]; intros Heq; [done|]. cbn. rewrite Heq by by left.
  by rewrite IH by (intros; apply Heq; by right).
Qed.

Lemma first_some_bind {A B D} (f : A -> option B) (g : B -> option D) l :
  first_some (fun a => f a ≫= g) l
  = match l with
    | [] => None
    | a :: l => match f a ≫= g with Some d => Some d | None => first_some (fun a => f a ≫= g) l end
    end.
Proof. by destruct l. Qed.

(** Recording a read changes nothing a read looks at. *)
Lemma record_layers {B} f ctx (r : L0Buffer G V -> B) :
  (forall g b, r (set_occ_read_set g b) = r b) -> r <$> layers (on_read_set f ctx) = r <$> layers ctx.
Proof.
  intros Hr. unfold layers. cbn. rewrite !fmap_app. f_equal.
  destruct (transaction_l0 ctx); cbn; [|done]. by rewrite Hr.
Qed.

Lemma first_some_fmap {A B D} (f : A -> B) (g : B -> option D) l : first_some (fun a => g (f a)) l = first_some g (f <$> l).
Proof. induction l as [|a l IH]; [done|]. cbn. by rewrite IH. Qed.

Lemma find_record {T} f ctx (r : L0Buffer G V -> option T) :
  (forall g b, r (set_occ_read_set g b) = r b) ->
  find_in_l0_buffers (on_read_set f ctx) r = first_some r (layers ctx).
Proof.
  intros Hr. rewrite find_layers. change r with (fun b => id (r b)). rewrite !(first_some_fmap r id).
  by rewrite record_layers.
Qed.

Lemma visit_record f ctx (r : L0Buffer G V -> bool) :
  (forall g b, r (set_occ_read_set g b) = r b) ->
  visit_l0_buffers (on_read_set f ctx) r = existsb r (layers ctx).
Proof.
  intros Hr. rewrite visit_layers. assert (Hm : forall l, existsb r l = existsb id (r <$> l)).
  { induction l as [|b l IH]; [done|]. cbn. by rewrite IH. }
  by rewrite !Hm, record_layers.
Qed.

(** ** Accumulated rows *)

Lemma insert_all_lookup (props entry : Properties V) k :
  for_entries (fun e k v => <[k := v]> e) entry props !! k
  = match props !! k with Some v => Some v | None => entry !! k end.
Proof.
  rewrite (for_entries_lookup (fun e k v => <[k := v]> e) (fun k old v => Some v)).
  - by destruct (props !! k).
  - intros e j v i. rewrite lookup_insert. by case_decide.
Qed.

Fixpoint accumulated (rows : L0Buffer G V -> gmap Z (Properties V)) (id : Z) (ls : list (L0Buffer G V)) :
    option (Properties V) :=
  match ls with
  | [] => None
  | b :: ls => accumulate_layer rows id (accumulated rows id ls) b
  end.

Lemma accumulate_layers rows id ctx : accumulate_props rows id ctx = accumulated rows id (layers ctx).
Proof.
  unfold accumulate_props, layers.
  assert (Hp : foldl (accumulate_layer rows id) None (pending_flush_l0s ctx)
    = accumulated rows id (rev (pending_flush_l0s ctx))).
  { rewrite <- (rev_involutive (pending_flush_l0s ctx)) at 1. generalize (rev (pending_flush_l0s ctx)). intros l.
    induction l as [|b l IH]; [done|]. cbn [rev accumulated]. by rewrite foldl_app, IH. }
  rewrite Hp. by destruct (transaction_l0 ctx).
Qed.

Lemma accumulated_lookup rows id ls k :
  accumulated rows id ls ≫= (.!! k) = first_some (fun b => rows b !! id ≫= (.!! k)) ls.
Proof.
  induction ls as [|b ls IH]; [done|]. cbn [accumulated first_some]. unfold accumulate_layer.
  destruct (rows b !! id) as [props|]; cbn [mbind option_bind]; [|exact IH].
  rewrite insert_all_lookup. destruct (props !! k); [done|]. rewrite <- IH.
  by destruct (accumulated rows id ls).
Qed.

Lemma accumulated_some rows id ls :
  existsb (fun b => bool_decide (is_Some (rows b !! id))) ls = bool_decide (is_Some (accumulated rows id ls)).
Proof.
  induction ls as [|b ls IH]; [done|]. cbn [accumulated existsb]. unfold accumulate_layer.
  destruct (rows b !! id) as [props|]; [by rewrite bool_decide_true by done|]. by rewrite IH.
Qed.
(** ** The batch lookup, one edge at a time *)

Definition entry_at (lk : L0EdgeLookup) (e : Z) : option L0Edge * bool := (found lk !! e, bool_decide (e ∈ deleted lk)).
Definition tombed (e : Z) (b : L0Buffer G V) : bool := bool_decide (is_Some (tombstones b !! e)).
Definition edge_in (e : Z) (b : L0Buffer G V) : option L0Edge :=
  (fun ends => mkL0Edge ends.1.1 ends.1.2 ends.2 (edge_types b !! e)) <$> edge_endpoints b !! e.
Definition next_entry (e : Z) (st : option L0Edge * bool) (b : L0Buffer G V) : option L0Edge * bool :=
  if tombed e b then (None, true)
  else match st with (None, false) => (edge_in e b, false) | _ => st end.

Lemma entry_step b lk e e' :
  entry_at (lookup_edge_step b lk e') e = if decide (e' = e) then next_entry e (entry_at lk e) b else entry_at lk e.
Proof.
  unfold lookup_edge_step, entry_at, next_entry, tombed, edge_in.
  destruct (decide (e' = e)) as [->|Hne].
  - case_bool_decide; cbn [found deleted].
    { rewrite lookup_delete_eq, bool_decide_true by set_solver. done. }
    case_bool_decide as Hd; cbn [orb]; [rewrite bool_decide_true by done; by destruct (found lk !! e)|].
    case_bool_decide as Hf; [destruct Hf as [x Hx]; rewrite Hx; by rewrite bool_decide_false|].
    destruct (found lk !! e) eqn:E; [exfalso; by apply Hf|].
    destruct (edge_endpoints b !! e) as [[[x y] t]|]; cbn; [|by rewrite E, bool_decide_false].
    by rewrite lookup_insert_eq, bool_decide_false.
  - case_bool_decide; cbn [found deleted].
    { rewrite lookup_delete_ne by done. f_equal. apply bool_decide_ext. set_solver. }
    destruct (_ || _); [done|]. destruct (edge_endpoints b !! e') as [[[x y] t]|]; cbn; [|done].
    by rewrite lookup_insert_ne.
Qed.

Lemma next_entry_idemp e st b : next_entry e (next_entry e st b) b = next_entry e st b.
Proof. unfold next_entry. destruct (tombed e b); [done|]. destruct st as [[x|] [|]]; try done. by destruct (edge_in e b). Qed.

Lemma entry_layer b eids lk e :
  entry_at (lookup_edge_layer eids lk b) e = if decide (e ∈ eids) then next_entry e (entry_at lk e) b else entry_at lk e.
Proof.
  unfold lookup_edge_layer. revert lk. induction eids as [|e' eids IH]; intros lk; [done|]. cbn [foldl].
  rewrite IH, entry_step. destruct (decide (e' = e)) as [->|Hne].
  - rewrite (decide_True (P := e ∈ e :: eids)) by by left. case_decide; [apply next_entry_idemp|done].
  - destruct (decide (e ∈ eids)); [rewrite decide_True by by right|rewrite decide_False by set_solver]; done.
Qed.

Lemma entry_layers ls eids lk e :
  entry_at (foldl (lookup_edge_layer eids) lk ls) e
  = if decide (e ∈ eids) then foldl (next_entry e) (entry_at lk e) ls else entry_at lk e.
Proof.
  revert lk. induction ls as [|b ls IH]; intros lk; cbn [foldl]; [by case_decide|].
  rewrite IH, entry_layer. by case_decide.
Qed.

Lemma next_entries e ls : forall st, (st.2 = true -> st.1 = None) ->
  foldl (next_entry e) st ls
  = if existsb (tombed e) ls then (None, true)
    else match st with (None, false) => (first_some (edge_in e) ls, false) | _ => st end.
Proof.
  induction ls as [|b ls IH]; intros st Hst; cbn [foldl existsb first_some]; [by destruct st as [[x|] [|]]|].
  rewrite IH.
  - unfold next_entry. destruct (tombed e b); cbn [orb]; [by destruct (existsb (tombed e) ls)|].
    destruct (existsb (tombed e) ls); [done|]. destruct st as [[x|] [|]]; try done. by destruct (edge_in e b).
  - unfold next_entry. destruct (tombed e b); [done|]. by destruct st as [[x|] [|]].
Qed.

Lemma lookup_edges_entry eids ctx e :
  entry_at (lookup_edges eids ctx).2 e
  = if decide (e ∈ eids)
    then if existsb (tombed e) (layers ctx) then (None, true) else (first_some (edge_in e) (layers ctx), false)
    else (None, false).
Proof.
  set (f := fun rs => mkReads (read_vertices rs) (list_to_set eids ∪ read_edges rs)).
  assert (Hw : (lookup_edges eids ctx).2 = foldl (lookup_edge_layer eids) (mkLookup ∅ ∅) (layers (on_read_set f ctx))).
  { unfold lookup_edges, layers. fold f. cbn [snd]. by destruct (transaction_l0 (on_read_set f ctx)). }
  rewrite Hw, entry_layers. case_decide; [|done]. rewrite next_entries by done. cbn [entry_at found deleted].
  change (entry_at (mkLookup ∅ ∅) e) with (@None L0Edge, false). cbn match.
  rewrite <- (visit_layers (on_read_set f ctx)), <- (find_layers (on_read_set f ctx)).
  by rewrite visit_record, find_record.
Qed.
(** The transaction's read set. *)
Definition reads_of ctx : option OccReadSet := transaction_l0 ctx ≫= occ_read_set.

(** C34: the reads through the buffer layers agree with each other.  A property
    looked up newest layer first is the one in the row accumulated oldest layer
    first; a vertex exists exactly when it has an accumulated row; the batch
    edge lookup reports as deleted exactly the requested edges the single
    lookup calls deleted, and for the others the endpoints the single lookup
    finds, and nothing for edges not asked for.  In a tracking transaction the
    six vertex reads and the five edge reads that record do add exactly the id
    they ask for, found or not, to the read set, and the batch lookup all its
    ids; the reads of whole property maps and [edge_exists_in_l0] do not record,
    as documented. *)
Theorem layered_reads_agree ctx (vid eid : Z) (prop : string) (eids : list Z) :
  (lookup_vertex_prop vid prop ctx).2 = (accumulate_vertex_props vid ctx).2 ≫= (.!! prop)
  /\ (lookup_edge_prop eid prop ctx).2 = (accumulate_edge_props eid ctx).2 ≫= (.!! prop)
  /\ (vertex_exists_in_l0 vid ctx).2 = bool_decide (is_Some (accumulate_vertex_props vid ctx).2)
  /\ (eid ∈ deleted (lookup_edges eids ctx).2 <-> eid ∈ eids /\ (is_edge_deleted eid ctx).2 = true)
  /\ (fun e => (l_src_vid e, l_dst_vid e)) <$> found (lookup_edges eids ctx).2 !! eid
     = (if decide (eid ∈ eids /\ (is_edge_deleted eid ctx).2 = false) then (get_edge_endpoints eid ctx).2 else None)
  /\ Forall (fun c => reads_of c = (fun rs => mkReads ({[vid]} ∪ read_vertices rs) (read_edges rs)) <$> reads_of ctx)
       [(is_vertex_deleted vid ctx).1; (lookup_vertex_prop vid prop ctx).1; (accumulate_vertex_props vid ctx).1;
        (vertex_exists_in_l0 vid ctx).1; (get_vertex_labels vid ctx).1; (get_vertex_labels_optional vid ctx).1]
  /\ Forall (fun c => reads_of c = (fun rs => mkReads (read_vertices rs) ({[eid]} ∪ read_edges rs)) <$> reads_of ctx)
       [(is_edge_deleted eid ctx).1; (lookup_edge_prop eid prop ctx).1; (accumulate_edge_props eid ctx).1;
        (get_edge_type eid ctx).1; (get_edge_endpoints eid ctx).1]
  /\ reads_of (lookup_edges eids ctx).1
     = (fun rs => mkReads (read_vertices rs) (list_to_set eids ∪ read_edges rs)) <$> reads_of ctx.
Proof.
  pose proof (lookup_edges_entry eids ctx eid) as He. unfold entry_at in He. assert (Hf := f_equal fst He). assert (Hd := f_equal snd He). cbn [fst snd] in Hf, Hd. clear He.
  assert (Hdel : (is_edge_deleted eid ctx).2 = existsb (tombed eid) (layers ctx)) by by apply visit_record.
  assert (Hrec : forall f, reads_of (on_read_set f ctx) = f <$> reads_of ctx) by (intros f; unfold reads_of; cbn; by destruct (transaction_l0 ctx)).
  split; [|split; [|split; [|split; [|split; [|split; [by repeat constructor; apply Hrec|split; [by repeat constructor; apply Hrec|apply Hrec]]]]]]].
  - unfold lookup_vertex_prop, accumulate_vertex_props, record_vertex_read. cbn [snd].
    by rewrite accumulate_layers, accumulated_lookup, <- find_layers.
  - unfold lookup_edge_prop, accumulate_edge_props, record_edge_read. cbn [snd].
    by rewrite accumulate_layers, accumulated_lookup, <- find_layers.
  - unfold vertex_exists_in_l0, accumulate_vertex_props, record_vertex_read. cbn [snd].
    rewrite accumulate_layers, <- accumulated_some, visit_layers. done.
  - rewrite Hdel. destruct (bool_decide_reflect (eid ∈ deleted (lookup_edges eids ctx).2)); case_decide; 
      destruct (existsb (tombed eid) (layers ctx)); naive_solver.
  - rewrite Hdel, Hf. unfold get_edge_endpoints, record_edge_read. cbn [snd]. rewrite find_record by done.
    destruct (decide (eid ∈ eids)), (existsb (tombed eid) (layers ctx));
      [rewrite decide_False by naive_solver|rewrite decide_True by done|rewrite decide_False by naive_solver..]; try done.
    cbn [fst]. clear. induction (layers ctx) as [|b ls IH]; [done|]. cbn [first_some].
    unfold edge_in, L0.get_edge_endpoints. destruct (edge_endpoints b !! eid) as [[[x y] t]|]; [done|]. exact IH.
Qed.

(** ** A commit makes visible what its transaction saw *)

(** A property the transaction does not write as a CRDT is not seeded. *)
Definition not_crdt (tx : L0Buffer G V) (vid : Z) (prop : string) : Prop :=
  forall v, vertex_properties tx !! vid ≫= (.!! prop) = Some v -> try_as_crdt v = None.

Definition prop_of (s : L0Buffer G V) (vid : Z) (prop : string) : option V := vertex_properties s !! vid ≫= (.!! prop).

Lemma seed_prop pending v target kv vid prop :
  v <> vid \/ kv.1 <> prop \/ try_as_crdt kv.2 = None ->
  prop_of (seed_crdt_prop pending v target kv) vid prop = prop_of target vid prop.
Proof.
  intros Hne. unfold seed_crdt_prop. destruct (try_as_crdt kv.2) eqn:Hc; [|done].
  destruct (vertex_properties target !! v ≫= (.!! kv.1)); [done|].
  destruct (pending_value pending v kv.1) as [x|]; [|done]. destruct (try_as_crdt x); [|done].
  unfold prop_of. cbn. rewrite lookup_insert. case_decide as Hv; [|done]. subst v.
  cbn [mbind option_bind]. rewrite lookup_insert_ne by naive_solver. by destruct (vertex_properties target !! vid).
Qed.

(** A loop whose steps keep a view of the state keeps it. *)
Lemma fold_keeps {S A B} (F : S -> A -> S) (view : S -> B) (l : list A) :
  (forall s a, a ∈ l -> view (F s a) = view s) -> forall s, view (foldl F s l) = view s.
Proof.
  induction l as [|a l IH]; intros HF s; [done|]. cbn [foldl]. rewrite IH by (intros; apply HF; by right).
  apply HF. by left.
Qed.

Lemma seed_chain pending tx target vid prop :
  not_crdt tx vid prop ->
  prop_of (seed_crdt_state_from_chain pending tx target) vid prop = prop_of target vid prop.
Proof.
  intros Hn. unfold seed_crdt_state_from_chain. destruct pending as [|q qs]; [done|].
  apply (fold_keeps _ (fun s => prop_of s vid prop)). intros s [v p] Hr. apply (fold_keeps _ (fun s => prop_of s vid prop)).
  cbn [fst snd]. intros s' [k x] Hk. rewrite hash_order_perm in Hr. rewrite hash_order_perm in Hk.
  apply elem_of_map_to_list in Hr. apply elem_of_map_to_list in Hk.
  apply seed_prop. cbn [fst snd]. destruct (decide (v = vid)) as [->|]; [|by left].
  destruct (decide (k = prop)) as [->|]; [|by right; left]. right. right. apply Hn. by rewrite Hr.
Qed.

Lemma seed_tombs (pending : list (L0Buffer G V)) (tx target : L0Buffer G V) :
  vertex_tombstones (seed_crdt_state_from_chain pending tx target) = vertex_tombstones target.
Proof.
  unfold seed_crdt_state_from_chain. destruct pending as [|q qs]; [done|].
  apply (fold_keeps (seed_crdt_props (q :: qs)) vertex_tombstones). intros s row _.
  apply (fold_keeps (seed_crdt_prop (q :: qs) row.1) vertex_tombstones). intros s' kv _.
  unfold seed_crdt_prop. destruct (try_as_crdt kv.2); [|done]. destruct (_ ≫= _); [done|].
  destruct (pending_value _ _ _) as [x|]; [|done]. by destruct (try_as_crdt x).
Qed.

(** What a read in a context without read tracking returns. *)
Lemma lookup_prop_layers ctx vid prop : (lookup_vertex_prop vid prop ctx).2 = first_some (fun b => prop_of b vid prop) (layers ctx).
Proof. by apply find_record. Qed.

Lemma deleted_layers ctx vid : (is_vertex_deleted vid ctx).2 = existsb (fun b => bool_decide (vid ∈ vertex_tombstones b)) (layers ctx).
Proof. by apply visit_record. Qed.

Lemma layers_tx (m tx : L0Buffer G V) ps : layers (mkCtx m (Some tx) ps) = tx :: m :: rev ps.
Proof. done. Qed.
Lemma layers_plain (m : L0Buffer G V) ps : layers (mkCtx m None ps) = m :: rev ps.
Proof. done. Qed.

(** A commit makes visible exactly what its transaction saw.  Take a
    transaction reading through its own buffer, the current buffer and the
    buffers being flushed.  After the commit (CRDT seeding from the buffers
    being flushed, then the merge), a reader without the transaction's buffer
    sees the same value of every property the transaction did not write as a
    CRDT, of every vertex it did not delete, and the same vertices as deleted
    among those the transaction did not write; and rotating the current buffer
    out for a flush changes none of these reads. *)
Theorem commit_publishes_transaction_view main tx pending (now v0 : Z) main' tx' c (vid : Z) (prop : string) :
  merge_take (seed_crdt_state_from_chain pending tx main) tx now = (main', tx', Ok c) ->
  let during := mkCtx main (Some tx) pending in
  let after := mkCtx main' None pending in
  let rotated := mkCtx (L0.new v0 None) None (pending ++ [main']) in
  ((vid ∉ vertex_tombstones tx) -> not_crdt tx vid prop ->
     (lookup_vertex_prop vid prop after).2 = (lookup_vertex_prop vid prop during).2)
  /\ (vertex_properties tx !! vid = None -> (is_vertex_deleted vid after).2 = (is_vertex_deleted vid during).2)
  /\ (lookup_vertex_prop vid prop rotated).2 = (lookup_vertex_prop vid prop after).2
  /\ (is_vertex_deleted vid rotated).2 = (is_vertex_deleted vid after).2.
Proof.
  intros Hm during after rotated. set (sm := seed_crdt_state_from_chain pending tx main) in *.
  apply merge_take_applied in Hm as [_ (Hp & Ht & _)].
  rewrite !lookup_prop_layers, !deleted_layers. unfold during, after, rotated. rewrite !layers_tx, !layers_plain.
  split; [|split; [|split]].
  - intros Hv Hn. pose proof (seed_chain pending tx main vid prop Hn) as E. fold sm in E. cbn [first_some].
    assert (Hmain : prop_of main' vid prop = match prop_of tx vid prop with Some v => Some v | None => prop_of main vid prop end).
    { unfold prop_of at 1. rewrite Hp. unfold base_row. rewrite decide_False by done. rewrite <- E.
      unfold not_crdt in Hn. unfold prop_of. destruct (vertex_properties tx !! vid) as [p|]; cbn [mbind option_bind] in *; [|done].
      rewrite merge_properties_lookup. destruct (p !! prop) as [v|].
      - unfold merged_value. by rewrite (Hn v).
      - by destruct (vertex_properties sm !! vid). }
    rewrite Hmain. by destruct (prop_of tx vid prop).
  - intros Hnone. cbn [existsb]. pose proof (seed_tombs pending tx main) as E. rewrite Ht. unfold doomed.
    fold sm in E. rewrite E. rewrite orb_assoc. f_equal. rewrite <- bool_decide_or. apply bool_decide_ext.
    rewrite elem_of_difference, elem_of_union, elem_of_dom, Hnone. split; [tauto|]. intros; split; [tauto|by intros []].
  - rewrite rev_app_distr. cbn [rev app first_some]. done.
  - rewrite rev_app_distr. cbn [rev app existsb]. done.
Qed.
End visibility.
