(* ===== verification/Manager.v ===== *)
(** * The buffers of a database and its snapshots

    crates/uni-store/src/runtime/l0_manager.rs: the current buffer, the ones
    being flushed, the pin token of the current generation and the reserved
    bulk versions; and the parts of runtime/writer.rs that swap and write
    buffers (the commit, a non-transactional write, the rotation of a flush).
    Buffers are shared: a snapshot holds handles, not copies, so the manager
    works on a heap of buffers and a snapshot on locations in it.  An
    [Arc<PinToken>] is a number; how many snapshots hold it is what
    [Arc::strong_count] reads. *)

From S2P Require Import Prelude Graph L0State L0 L0Replay L0Merge L0Data Carveout Commit Visibility.

Record L0Manager (G V : Type) := mkManager {
  heap : gmap nat (L0Buffer G V);
  current : nat;
  pending_flush : list nat;
  current_pin : nat;
  bulk_reserved : gset Z;
  (** the next location and the next token *)
  fresh : nat;
}.
Arguments mkManager {G V}.
Arguments heap {G V}.
Arguments current {G V}.
Arguments pending_flush {G V}.
Arguments current_pin {G V}.
Arguments bulk_reserved {G V}.
Arguments fresh {G V}.

Record SnapshotView := mkView {
  v_main : nat;
  v_extra : list nat;
  v_pin : nat;
  started_at_version : Z;
  unpublished_bulk : list Z;
}.

Section manager.
  Context {G V C : Type} `{TG : Topology G} `{VV : Values V C} `{HO : HashOrder}.
  Implicit Types m : L0Manager G V.

(** [.read()] of a handle; the default is never used on an allocated one. *)
Definition buffer_at m (l : nat) : L0Buffer G V := default (L0.new 0 None) (heap m !! l).
Definition write_at (l : nat) (f : L0Buffer G V -> L0Buffer G V) m : L0Manager G V :=
  mkManager (alter f l (heap m)) (current m) (pending_flush m) (current_pin m) (bulk_reserved m) (fresh m).

Definition new (start_version : Z) (wal : option (Wal V)) : L0Manager G V :=
  mkManager {[ 0%nat := L0.new start_version wal ]} 0 [] 0 ∅ 1.

Definition get_current m : nat := current m.
Definition get_pending_flush m : list nat := pending_flush m.
Definition get_all_readable m : list nat := current m :: pending_flush m.

(** Versions reserved by bulk loads at or below [version], ascending. *)
Definition unpublished_bulk_at_most m (version : Z) : list Z :=
  merge_sort Z.le (elements (filter (fun v => v <= version) (bulk_reserved m))).

Definition version_and_unpublished_bulk m : Z * list Z :=
  let version := current_version (buffer_at m (current m)) in
  (version, unpublished_bulk_at_most m version).

Definition reserve_bulk_version m : L0Manager G V * Z :=
  let m := write_at (current m) (set_current_version (Z.add 1)) m in
  let version := current_version (buffer_at m (current m)) in
  (mkManager (heap m) (current m) (pending_flush m) (current_pin m) ({[version]} ∪ bulk_reserved m) (fresh m), version).

(** [BulkVersionReservation::drop] *)
Definition release_bulk_version m (version : Z) : L0Manager G V :=
  mkManager (heap m) (current m) (pending_flush m) (current_pin m) (bulk_reserved m ∖ {[version]}) (fresh m).

(** Install a buffer as the current one, with a fresh token. *)
Definition install m (buf : L0Buffer G V) : L0Manager G V :=
  mkManager (<[fresh m := buf]> (heap m)) (fresh m) (pending_flush m) (fresh m) (bulk_reserved m) (S (fresh m)).

Definition rotate m (next_version : Z) (new_wal : option (Wal V)) : L0Manager G V * nat :=
  let old_l0 := current m in
  let next_version := Z.max next_version (current_version (buffer_at m old_l0)) in
  (install m (L0.new next_version new_wal), old_l0).

Definition push_pending (l : nat) m : L0Manager G V :=
  mkManager (heap m) (current m) (pending_flush m ++ [l]) (current_pin m) (bulk_reserved m) (fresh m).

Definition begin_flush m (next_version : Z) (new_wal : option (Wal V)) : L0Manager G V * nat :=
  let '(m, old_l0) := rotate m next_version new_wal in
  (push_pending old_l0 m, old_l0).

Definition complete_flush m (l : nat) : L0Manager G V :=
  mkManager (heap m) (current m) (filter (fun x => x <> l) (pending_flush m)) (current_pin m) (bulk_reserved m) (fresh m).

Definition snapshot_isolated m (next_version : Z) (new_wal : option (Wal V)) : L0Manager G V * (nat * list nat) :=
  let pending := pending_flush m in
  let '(m, frozen) := rotate m next_version new_wal in
  (push_pending frozen m, (frozen, pending)).

Definition pin_snapshot m : SnapshotView :=
  let main := current m in
  let version := current_version (buffer_at m main) in
  mkView main (pending_flush m) (current_pin m) version (unpublished_bulk_at_most m version).

(** [Arc::strong_count(&self.current_pin) > 1], given the live snapshots. *)
Definition is_current_pinned m (views : list SnapshotView) : bool :=
  existsb (fun v => bool_decide (v_pin v = current_pin m)) views.

Definition freeze_current_for_snapshot m : L0Manager G V :=
  let frozen := current m in
  let new_buf := L0.clone (buffer_at m frozen) in
  let new_buf := set_wal (fun _ => wal (buffer_at m frozen)) new_buf in
  let m := write_at frozen (set_wal (fun _ => None)) m in
  install m new_buf.

Fixpoint min_list (l : list Z) : option Z :=
  match l with
  | [] => None
  | x :: l => Some (match min_list l with Some y => Z.min x y | None => x end)
  end.

Definition min_pending_wal_lsn_start m (except : nat) : option Z :=
  min_list ((fun l => wal_lsn_at_start (buffer_at m l)) <$> filter (fun l => l <> except) (pending_flush m)).

(** ** The writer's side *)

(** The freeze that precedes a write to the current buffer. *)
Definition freeze_if_pinned m (views : list SnapshotView) : L0Manager G V :=
  if is_current_pinned m views then freeze_current_for_snapshot m else m.

(** Step 1 of a commit: validation and the append to the current buffer's log. *)
Definition commit_log (names : Z -> option string) m (tx : L0Buffer G V) : L0Manager G V * result L0Error unit :=
  let main := buffer_at m (current m) in
  match validate_edge_endpoints_overlay main (buffer_at m <$> pending_flush m) tx with
  | Err e => (m, Err e)
  | Ok _ =>
      match wal main, commit_records names tx with
      | None, _ | _, [] => (m, Ok tt)
      | Some w, records =>
          if poisoned w then (m, Err LockPoisoned)
          else (write_at (current m) (set_wal (fun _ => Some (mkWal (L0State.buffer w ++ records) false))) m, Ok tt)
      end
  end.

(** Step 3: seed from the buffers being flushed and merge. *)
Definition commit_merge m (tx : L0Buffer G V) (now : Z) : L0Manager G V * result L0Error (list TombstoneEntry) :=
  let main := seed_crdt_state_from_chain (buffer_at m <$> pending_flush m) tx (buffer_at m (current m)) in
  let '(main', _, r) := merge_take main tx now in
  (write_at (current m) (fun _ => main') m, r).

(** [flushed] is the outcome of step 2, the flush of the log. *)
Definition commit_l0 (names : Z -> option string) m (views : list SnapshotView) (tx : L0Buffer G V)
    (flushed : result L0Error Z) (now : Z) : L0Manager G V * result L0Error (list TombstoneEntry) :=
  match commit_log names m tx with
  | (m, Err e) => (m, Err e)
  | (m, Ok _) =>
      match flushed with
      | Err e => (m, Err e)
      | Ok _ => commit_merge (freeze_if_pinned m views) tx now
      end
  end.

(** Phases B and C of a flush: rotate, and hand the log and the version over.
    [wal_lsn] is what flushing the log before the rotation returned. *)
Definition flush_l0_rotate m (wal_lsn : Z) : L0Manager G V * nat :=
  let '(m, old_l0) := begin_flush m 0 None in
  let version := current_version (buffer_at m old_l0) in
  let log := wal (buffer_at m old_l0) in
  let m := write_at old_l0 (fun b =>
             set_wal (fun _ => None) (set_wal_lsn_at_flush (fun _ => wal_lsn)
               (set_unpublished_bulk_at_rotation (fun _ => unpublished_bulk_at_most m version) b))) m in
  let m := write_at (current m) (fun b =>
             set_wal_lsn_at_start (fun _ => wal_lsn) (set_current_version (Z.max version) (set_wal (fun _ => log) b))) m in
  (m, old_l0).
End manager.
