(* ===== verification/Snapshot.v ===== *)
(** * Snapshots are isolated from later commits

    Runs of the buffer manager ([Manager]): commits and other writes, whose
    check for a pin (with the freeze of a pinned generation) and whose write are
    separate steps that anything may come between; rotations of a flush one
    locked section at a time and completions; embeddings and other derived
    columns written into a buffer that is being flushed; reservations of bulk
    versions; snapshots pinned and dropped. *)

From S2P Require Import Prelude Graph L0State L0 L0Replay L0Merge L0Data Carveout Commit Visibility Manager.

Section snapshots.
  Context {G V C : Type} `{TG : Topology G} `{VV : Values V C} `{HO : HashOrder}.
  Implicit Types m : L0Manager G V.

(** The context a snapshot reads with ([SnapshotView::query_context]). *)
Definition query_context m (v : SnapshotView) : QueryContext G V :=
  mkCtx (buffer_at m (v_main v)) None (buffer_at m <$> v_extra v).

(** A buffer without what the manager may still write to a frozen one: the
    version counter, the log handle and the marks of its flush. *)
Definition content (b : L0Buffer G V) : L0Buffer G V :=
  set_wal (fun _ => None) (set_current_version (fun _ => 0)
    (set_wal_lsn_at_flush (fun _ => 0) (set_unpublished_bulk_at_rotation (fun _ => []) b))).

(** The columns that a flush computes from others: the targets of deferred
    embeddings and the encodings of multi-vectors. *)
Context (derived : gset string).

(** A row without its derived columns, if it has others. *)
Definition plain_row (row : Properties V) : option (Properties V) :=
  let row := filter (fun kv => kv.1 ∉ derived) row in
  if decide (row = ∅) then None else Some row.

(** What of a buffer no write after its capture may change. *)
Definition visible (b : L0Buffer G V) : L0Buffer G V :=
  set_wal_lsn_at_start (fun _ => 0) (set_vertex_properties (omap plain_row) (content b)).

(** Derived columns of one vertex, written into its row in place
    ([drain_pending_embeddings], [materialize_fde_columns]). *)
Definition write_back (vid : Z) (columns : Properties V) (b : L0Buffer G V) : L0Buffer G V :=
  set_vertex_properties (fun rows => <[vid := columns ∪ default ∅ (rows !! vid)]> rows) b.

(** Phase C of a flush, after the rotation: the log and the version go from the
    old buffer to the current one. *)
Definition hand_over m (old_l0 : nat) (wal_lsn : Z) : L0Manager G V :=
  let version := current_version (buffer_at m old_l0) in
  let log := wal (buffer_at m old_l0) in
  let m := write_at old_l0 (fun b =>
             set_wal (fun _ => None) (set_wal_lsn_at_flush (fun _ => wal_lsn)
               (set_unpublished_bulk_at_rotation (fun _ => unpublished_bulk_at_most m version) b))) m in
  write_at (current m) (fun b =>
    set_wal_lsn_at_start (fun _ => wal_lsn) (set_current_version (Z.max version) (set_wal (fun _ => log) b))) m.

(** The manager; the live snapshots pinned while no write was under way, each
    with the context it read at its capture; the other live ones; and the
    number of writes under way, which have checked for pins and not written. *)
Record world := mkWorld {
  mgr : L0Manager G V; live : list (SnapshotView * QueryContext G V); late : list SnapshotView; writing : nat }.

(** The snapshots a check for pins counts. *)
Definition pins (w : world) : list SnapshotView := (live w).*1 ++ late w.

Inductive wstep : world -> world -> Prop :=
| wstep_pin m l lt :
    wstep (mkWorld m l lt O) (mkWorld m ((pin_snapshot m, query_context m (pin_snapshot m)) :: l) lt O)
| wstep_pin_late m l lt n : wstep (mkWorld m l lt (S n)) (mkWorld m l (pin_snapshot m :: lt) (S n))
| wstep_drop m l1 x l2 lt n : wstep (mkWorld m (l1 ++ x :: l2) lt n) (mkWorld m (l1 ++ l2) lt n)
| wstep_drop_late m l l1 x l2 n : wstep (mkWorld m l (l1 ++ x :: l2) n) (mkWorld m l (l1 ++ l2) n)
| wstep_log w names tx : wstep w (mkWorld (commit_log names (mgr w) tx).1 (live w) (late w) (writing w))
| wstep_check w : wstep w (mkWorld (freeze_if_pinned (mgr w) (pins w)) (live w) (late w) (S (writing w)))
| wstep_merge m l lt n tx now : wstep (mkWorld m l lt (S n)) (mkWorld (commit_merge m tx now).1 l lt n)
| wstep_write m l lt n f : wstep (mkWorld m l lt (S n)) (mkWorld (write_at (current m) f m) l lt n)
| wstep_swap w v log : wstep w (mkWorld (rotate (mgr w) v log).1 (live w) (late w) (writing w))
| wstep_push w l : (l < fresh (mgr w))%nat -> l <> current (mgr w) ->
    wstep w (mkWorld (push_pending l (mgr w)) (live w) (late w) (writing w))
| wstep_hand_over w l wal_lsn : wstep w (mkWorld (hand_over (mgr w) l wal_lsn) (live w) (late w) (writing w))
| wstep_write_back w l vid columns : dom columns ⊆ derived ->
    wstep w (mkWorld (write_at l (write_back vid columns) (mgr w)) (live w) (late w) (writing w))
| wstep_complete w l : wstep w (mkWorld (complete_flush (mgr w) l) (live w) (late w) (writing w))
| wstep_reserve w : wstep w (mkWorld (reserve_bulk_version (mgr w)).1 (live w) (late w) (writing w))
| wstep_release w v : wstep w (mkWorld (release_bulk_version (mgr w) v) (live w) (late w) (writing w)).

Inductive wreachable (v0 : Z) (log : option (Wal V)) : world -> Prop :=
| wreach_new : wreachable v0 log (mkWorld (Manager.new v0 log) [] [] O)
| wreach_step w w' : wreachable v0 log w -> wstep w w' -> wreachable v0 log w'.

(** A whole commit and a whole rotation are sequences of these steps. *)
Lemma commit_l0_steps names m l lt n tx flushed now : exists n',
  rtc wstep (mkWorld m l lt n) (mkWorld (commit_l0 names m (l.*1 ++ lt) tx flushed now).1 l lt n').
Proof.
  unfold commit_l0. pose proof (wstep_log (mkWorld m l lt n) names tx) as H1. cbn [mgr live late writing] in H1.
  destruct (commit_log names m tx) as [m1 [u|e]]; cbn [fst] in *; [|by exists n; apply rtc_once].
  destruct flushed; [|by exists n; apply rtc_once]. exists n. eapply rtc_l; [exact H1|].
  eapply rtc_l; [apply wstep_check|]. cbn [mgr live late writing]. apply rtc_once, wstep_merge.
Qed.

Lemma flush_l0_rotate_steps m l lt n wal_lsn : (current m < fresh m)%nat ->
  rtc wstep (mkWorld m l lt n) (mkWorld (flush_l0_rotate m wal_lsn).1 l lt n).
Proof.
  intros Hc. set (m1 := (rotate m 0 None).1). set (m2 := push_pending (current m) m1).
  assert (E : (flush_l0_rotate m wal_lsn).1 = hand_over m2 (current m) wal_lsn) by reflexivity. rewrite E.
  eapply rtc_l; [apply (wstep_swap (mkWorld m l lt n) 0 None)|]. cbn [mgr live late writing]. fold m1.
  eapply rtc_l; [apply (wstep_push (mkWorld m1 l lt n) (current m)); cbn; lia|]. cbn [mgr live late writing]. fold m2.
  apply rtc_once, (wstep_hand_over (mkWorld m2 l lt n) (current m) wal_lsn).
Qed.

(** ** Invariant *)

Record mgr_ok m : Prop := {
  ok_token : current_pin m = current m;
  ok_current : (current m < fresh m)%nat;
  ok_pending l : l ∈ pending_flush m -> (l < fresh m)%nat /\ l <> current m;
}.

Record view_ok m (v : SnapshotView) (ctx : QueryContext G V) : Prop := {
  ok_pin : v_pin v = v_main v;
  ok_main : (v_main v < fresh m)%nat;
  ok_extra l : l ∈ v_extra v -> (l < fresh m)%nat /\ l <> current m;
  ok_content : visible <$> layers (query_context m v) = visible <$> layers ctx;
}.

(** While a write is under way, no snapshot pinned before it holds the buffer
    it is going to write. *)
Record world_ok (w : world) : Prop := {
  ok_mgr : mgr_ok (mgr w);
  ok_views v ctx : (v, ctx) ∈ live w -> view_ok (mgr w) v ctx;
  ok_writing v ctx : (0 < writing w)%nat -> (v, ctx) ∈ live w -> v_main v <> current (mgr w);
}.

Lemma layers_view m v : layers (query_context m v) = buffer_at m <$> v_main v :: rev (v_extra v).
Proof. unfold query_context. rewrite layers_plain. cbn. f_equal. by rewrite fmap_rev. Qed.

(** The manager moves on without touching what allocated buffers hold, except
    those in [touched]; a new current buffer is a new location. *)
Record moves (touched : nat -> Prop) m m' : Prop := {
  mv_fresh : (fresh m <= fresh m')%nat;
  mv_current : current m' = current m \/ (fresh m <= current m')%nat;
  mv_content l : (l < fresh m)%nat -> ~ touched l -> content (buffer_at m' l) = content (buffer_at m l);
}.

(** The same of what snapshots may rely on. *)
Record keeps (touched : nat -> Prop) m m' : Prop := {
  kp_fresh : (fresh m <= fresh m')%nat;
  kp_current : current m' = current m \/ (fresh m <= current m')%nat;
  kp_visible l : (l < fresh m)%nat -> ~ touched l -> visible (buffer_at m' l) = visible (buffer_at m l);
}.

Lemma moves_keeps touched m m' : moves touched m m' -> keeps touched m m'.
Proof. intros [H1 H2 H3]. split; [done..|]. intros l Hl Ht. unfold visible. by rewrite H3. Qed.

Lemma view_keeps touched m m' v ctx :
  keeps touched m m' -> view_ok m v ctx -> (forall l, l ∈ v_main v :: v_extra v -> ~ touched l) -> view_ok m' v ctx.
Proof.
  intros [M1 M2 M3] [V1 V2 V3 V4] Ht. split; [done|lia| |].
  - intros l Hl. destruct (V3 l Hl) as [H1 H2]. split; [lia|]. destruct M2 as [->|M2]; [done|]. lia.
  - rewrite <- V4. rewrite !layers_view. rewrite <- !list_fmap_compose. apply list_fmap_ext. intros i l Hl.
    apply list_elem_of_lookup_2 in Hl. unfold compose.
    assert (Hin : l ∈ v_main v :: v_extra v).
    { apply elem_of_cons in Hl as [->|Hl]; [by left|]. right. by rewrite elem_of_rev in Hl. }
    apply M3; [|by apply Ht]. apply elem_of_cons in Hin as [->|Hin]; [done|]. by apply V3.
Qed.

Lemma moves_trans (T T' : nat -> Prop) m1 m2 m3 :
  moves T m1 m2 -> moves T' m2 m3 -> moves (fun l => T l \/ T' l) m1 m3.
Proof.
  intros [A1 A2 A3] [B1 B2 B3]. split; [lia| |].
  - destruct A2 as [A2|A2], B2 as [B2|B2]; rewrite ?B2, ?A2; auto; right; lia.
  - intros l Hl Hn. rewrite B3, A3; [done|done|tauto|lia|tauto].
Qed.

Lemma buffer_write_ne l l' f m : l <> l' -> buffer_at (write_at l f m) l' = buffer_at m l'.
Proof. intros Hne. unfold buffer_at, write_at. cbn [heap]. by rewrite lookup_alter_ne. Qed.

Lemma buffer_install m b l : (l < fresh m)%nat -> buffer_at (install m b) l = buffer_at m l.
Proof. intros Hl. unfold buffer_at, install. cbn [heap]. rewrite lookup_insert_ne by lia. done. Qed.

(** Writing a buffer. *)
Lemma moves_write l f m : moves (eq l) m (write_at l f m).
Proof. split; [done|by left|]. intros l' _ Hne. by rewrite buffer_write_ne. Qed.

(** A write that keeps the content touches nothing. *)
Lemma moves_write_quiet l f m : (forall b, content (f b) = content b) -> moves (fun _ => False) m (write_at l f m).
Proof.
  intros Hf. split; [done|by left|]. intros l' _ _. destruct (decide (l = l')) as [->|]; [|by rewrite buffer_write_ne].
  unfold buffer_at, write_at. cbn [heap]. rewrite lookup_alter_eq. destruct (heap m !! l') as [b|]; [apply Hf|done].
Qed.

Lemma moves_install m b : (current m < fresh m)%nat -> moves (fun _ => False) m (install m b).
Proof. intros Hc. split; cbn; [lia|by right|]. intros l Hl _. by rewrite buffer_install. Qed.

Lemma mgr_ok_write l f m : mgr_ok m -> mgr_ok (write_at l f m).
Proof. by intros [H1 H2 H3]. Qed.

Lemma mgr_ok_install m b : mgr_ok m -> mgr_ok (install m b).
Proof. intros [H1 H2 H3]. split; cbn; [done|lia|]. intros l Hl. destruct (H3 l Hl). lia. Qed.

(** ** Every operation keeps the snapshots *)

Abbreviation quiet := (moves (fun _ => False)).

Lemma quiet_trans m1 m2 m3 : quiet m1 m2 -> quiet m2 m3 -> quiet m1 m3.
Proof. intros H1 H2. destruct (moves_trans _ _ _ _ _ H1 H2) as [A1 A2 A3]. split; [done..|]. intros l Hl _. apply A3; tauto. Qed.

Lemma quiet_same m m' : heap m' = heap m -> current m' = current m -> fresh m' = fresh m -> quiet m m'.
Proof. intros E1 E2 E3. split; [by rewrite E3|by left|]. intros l _ _. unfold buffer_at. by rewrite E1. Qed.

Lemma freeze_ok m : mgr_ok m -> quiet m (freeze_current_for_snapshot m) /\ mgr_ok (freeze_current_for_snapshot m).
Proof.
  intros Hm. unfold freeze_current_for_snapshot. split; [|by apply mgr_ok_install, mgr_ok_write].
  apply (quiet_trans _ (write_at (current m) (set_wal (fun _ => None)) m)); [by apply moves_write_quiet|].
  apply moves_install. cbn. apply Hm.
Qed.

Lemma freeze_if_pinned_ok m (views : list (SnapshotView * QueryContext G V)) (others : list SnapshotView) :
  mgr_ok m -> (forall v ctx, (v, ctx) ∈ views -> view_ok m v ctx) ->
  let m' := freeze_if_pinned m (views.*1 ++ others) in
  quiet m m' /\ mgr_ok m' /\ forall v ctx, (v, ctx) ∈ views -> v_main v <> current m'.
Proof.
  intros Hm Hv m'. unfold m', freeze_if_pinned. destruct (is_current_pinned m (views.*1 ++ others)) eqn:Hp.
  - destruct (freeze_ok m Hm) as [Hq Hok]. split; [done|]. split; [done|]. intros v ctx Hin.
    pose proof (ok_main _ _ _ (Hv v ctx Hin)) as Hlt. cbn. lia.
  - split; [by apply quiet_same|]. split; [done|]. intros v ctx Hin Heq.
    assert (Hx : is_current_pinned m (views.*1 ++ others) = true); [|congruence].
    unfold is_current_pinned. apply existsb_exists. exists v. split.
    + apply list_elem_of_In, elem_of_app. left. apply list_elem_of_fmap. by exists (v, ctx).
    + rewrite (ok_pin _ _ _ (Hv v ctx Hin)), Heq, (ok_token _ Hm). by rewrite bool_decide_true.
Qed.

Lemma commit_log_ok names m tx : mgr_ok m -> quiet m (commit_log names m tx).1 /\ mgr_ok (commit_log names m tx).1.
Proof.
  intros Hm. unfold commit_log. assert (Hid : quiet m m) by by apply quiet_same.
  destruct (validate_edge_endpoints_overlay _ _ _); [|done]. destruct (wal _) as [lg|]; [|done].
  destruct (commit_records names tx); [done|]. destruct (poisoned lg); [done|].
  split; [by apply moves_write_quiet|by apply mgr_ok_write].
Qed.

Lemma commit_merge_ok m tx now : mgr_ok m -> moves (eq (current m)) m (commit_merge m tx now).1 /\ mgr_ok (commit_merge m tx now).1.
Proof.
  intros Hm. unfold commit_merge. destruct (merge_take _ tx now) as [[main' tx'] r].
  split; [apply moves_write|by apply mgr_ok_write].
Qed.

Lemma rotate_ok m wal_lsn :
  mgr_ok m -> moves (eq (fresh m)) m (flush_l0_rotate m wal_lsn).1 /\ mgr_ok (flush_l0_rotate m wal_lsn).1.
Proof.
  intros Hm. unfold flush_l0_rotate, begin_flush, rotate.
  set (b := L0.new _ _). set (m1 := push_pending (current m) (install m b)).
  assert (Q1 : quiet m m1).
  { eapply quiet_trans; [apply moves_install, Hm|by apply quiet_same]. }
  assert (K1 : mgr_ok m1).
  { destruct (mgr_ok_install m b Hm) as [H1 H2 H3]. split; [done..|]. cbn. intros l [Hl|Hl]%elem_of_app; [by apply H3|].
    apply list_elem_of_singleton in Hl as ->. pose proof (ok_current _ Hm). lia. }
  match goal with |- context [write_at (current m) ?f m1] => set (f1 := f) end.
  assert (Q2 : quiet m (write_at (current m) f1 m1)) by (eapply quiet_trans; [exact Q1|by apply moves_write_quiet]).
  cbn [fst]. split; [|by apply mgr_ok_write, mgr_ok_write].
  match goal with |- moves _ m (write_at ?c ?f ?m2) => destruct (moves_trans _ _ _ _ _ Q2 (moves_write c f m2)) as [A1 A2 A3] end.
  split; [done..|]. intros l Hl Hne. apply A3; [done|]. cbn. tauto.
Qed.

Lemma world_keeps w T m' :
  world_ok w -> keeps T (mgr w) m' -> mgr_ok m' ->
  (forall v ctx l, (v, ctx) ∈ live w -> l ∈ v_main v :: v_extra v -> ~ T l) ->
  world_ok (mkWorld m' (live w) (late w) (writing w)).
Proof.
  intros [_ Hv Hw] Hm Hok Ht. split; cbn; [done| |].
  - intros v ctx Hin. eapply view_keeps; [done|by apply Hv|]. intros l Hl. by eapply Ht.
  - intros v ctx Hn Hin. pose proof (ok_main _ _ _ (Hv v ctx Hin)). destruct (kp_current _ _ _ Hm) as [->|?]; [by eapply Hw|lia].
Qed.

(** A step that touches no buffer as snapshots see it. *)
Lemma world_quiet w m' :
  world_ok w -> keeps (fun _ => False) (mgr w) m' -> mgr_ok m' -> world_ok (mkWorld m' (live w) (late w) (writing w)).
Proof. intros Hw Hm Hok. apply (world_keeps w (fun _ => False)); tauto. Qed.

(** A write under way reaches the current buffer. *)
Lemma world_write m l lt n m' :
  world_ok (mkWorld m l lt (S n)) -> moves (eq (current m)) m m' -> mgr_ok m' -> world_ok (mkWorld m' l lt n).
Proof.
  intros Hw Hmv Hok. assert (H : world_ok (mkWorld m' l lt (S n))).
  { apply (world_keeps (mkWorld m l lt (S n)) (eq (current m))); [done|by apply moves_keeps|done|].
    cbn. intros v ctx k Hin [->|Hk]%elem_of_cons.
    - intros E. apply (ok_writing _ Hw v ctx); [cbn; lia|done|done].
    - destruct (ok_extra _ _ _ (ok_views _ Hw v ctx Hin) k Hk). done. }
  destruct H as [H1 H2 H3]. split; [done|done|]. cbn in *. intros v ctx _. apply H3. lia.
Qed.

Lemma visible_write_back vid columns (b : L0Buffer G V) :
  dom columns ⊆ derived -> visible (write_back vid columns b) = visible b.
Proof.
  intros Hd. unfold visible, content, write_back.
  enough (He : omap plain_row (<[vid := columns ∪ default ∅ (vertex_properties b !! vid)]> (vertex_properties b))
    = omap plain_row (vertex_properties b)) by exact (f_equal (fun rows => set_wal_lsn_at_start (fun _ => 0) (set_vertex_properties (fun _ => rows) (content b))) He).
  apply map_eq. intros v. rewrite !lookup_omap. destruct (decide (vid = v)) as [<-|]; [|by rewrite lookup_insert_ne].
  rewrite lookup_insert_eq. cbn. assert (Hf : forall row : Properties V,
    filter (fun kv => kv.1 ∉ derived) (columns ∪ row) = filter (fun kv => kv.1 ∉ derived) row).
  { intros row. apply map_eq. intros k. destruct (decide (k ∈ derived)) as [Hk|Hk].
    - rewrite !map_lookup_filter_None_2 by (right; intros ? _; cbn; tauto). done.
    - apply option_eq. intros x. rewrite !map_lookup_filter_Some, lookup_union.
      assert (Hn : columns !! k = None) by (apply not_elem_of_dom; set_solver). rewrite Hn, (left_id_L None _ (row !! k)). naive_solver. }
  unfold plain_row. rewrite Hf. by destruct (vertex_properties b !! vid).
Qed.

Lemma keeps_write l f m : (forall b, visible (f b) = visible b) -> keeps (fun _ => False) m (write_at l f m).
Proof.
  intros Hf. split; [done|by left|]. intros l' _ _. destruct (decide (l = l')) as [->|]; [|by rewrite buffer_write_ne].
  unfold buffer_at, write_at. cbn [heap]. rewrite lookup_alter_eq. destruct (heap m !! l') as [b|]; [apply Hf|done].
Qed.

Lemma wstep_ok w w' : world_ok w -> wstep w w' -> world_ok w'.
Proof.
  intros Hw Hs. pose proof Hw as [Hm Hv Hn].
  destruct Hs as [m l lt|m l lt n|m l1 x l2 lt n|m l l1 x l2 n|w names tx|w|m l lt n tx now|m l lt n f|w v log
    |w l Hl Hc|w l wal_lsn|w l vid columns Hd|w l|w|w v]; cbn in Hm, Hv, Hn.
  - split; cbn; [done| |lia]. intros v ctx [Hin|Hin]%elem_of_cons; [|by apply Hv]. injection Hin as -> ->.
    split; cbn; [apply Hm|apply Hm|apply Hm|done].
  - by split.
  - assert (Hsub : forall y, y ∈ l1 ++ l2 -> y ∈ l1 ++ x :: l2) by (intros y; rewrite !elem_of_app, elem_of_cons; tauto).
    split; cbn; [done|eauto|]. intros v ctx Hp Hin. exact (Hn v ctx Hp (Hsub _ Hin)).
  - by split.
  - destruct (commit_log_ok names (mgr w) tx Hm) as [Q K]. apply world_quiet; [done|by apply moves_keeps|done].
  - destruct (freeze_if_pinned_ok (mgr w) (live w) (late w) Hm Hv) as (Q & K & H).
    destruct (world_quiet w _ Hw (moves_keeps _ _ _ Q) K) as [H1 H2 H3]. split; [done|done|]. cbn. intros v ctx _. apply H.
  - destruct (commit_merge_ok m tx now Hm) as [M K]. by apply (world_write m).
  - apply (world_write m); [done|apply moves_write|by apply mgr_ok_write].
  - apply world_quiet; [done|apply moves_keeps, moves_install, Hm|by apply mgr_ok_install].
  - apply world_quiet; [done|by apply moves_keeps, quiet_same|]. destruct Hm as [H1 H2 H3]. split; [done..|].
    cbn. intros l' [Hin|Hin]%elem_of_app; [by apply H3|]. by apply list_elem_of_singleton in Hin as ->.
  - unfold hand_over. set (m1 := write_at l _ (mgr w)).
    assert (H1 : world_ok (mkWorld m1 (live w) (late w) (writing w)))
      by (apply world_quiet; [done|by apply keeps_write|by apply mgr_ok_write]).
    apply (world_quiet _ _ H1); [by apply keeps_write|]. by apply mgr_ok_write, mgr_ok_write.
  - apply world_quiet; [done|apply keeps_write; intros; by apply visible_write_back|by apply mgr_ok_write].
  - apply world_quiet; [done|by apply moves_keeps, quiet_same|]. destruct Hm as [H1 H2 H3].
    split; [done..|]. cbn. intros l' [_ Hl]%list_elem_of_filter. by apply H3.
  - apply world_quiet; [done| |]; unfold reserve_bulk_version; cbn [fst].
    + apply moves_keeps. eapply quiet_trans; [apply (moves_write_quiet (current (mgr w)) (set_current_version (Z.add 1))); done|by apply quiet_same].
    + by destruct Hm as [H1 H2 H3].
  - apply world_quiet; [done|by apply moves_keeps, quiet_same|]. by destruct Hm as [H1 H2 H3].
Qed.

Lemma wreachable_ok v0 log w : wreachable v0 log w -> world_ok w.
Proof.
  induction 1 as [|w w' _ IH Hs]; [|by eapply wstep_ok]. split; cbn; [|by intros ? ? ?%not_elem_of_nil|lia].
  split; cbn; [done|lia|by intros ? ?%not_elem_of_nil].
Qed.

Lemma prop_visible (b : L0Buffer G V) vid prop : prop ∉ derived -> prop_of (visible b) vid prop = prop_of b vid prop.
Proof.
  intros Hp. unfold prop_of, visible, content. change (vertex_properties (set_wal_lsn_at_start _ _))
    with (omap plain_row (vertex_properties b)).
  rewrite lookup_omap. destruct (vertex_properties b !! vid) as [row|]; [|done]. cbn. unfold plain_row.
  assert (Hl : filter (fun kv => kv.1 ∉ derived) row !! prop = row !! prop).
  { apply option_eq. intros x. rewrite map_lookup_filter_Some. naive_solver. }
  case_decide as He; cbn; rewrite <- Hl; [|done]. by rewrite He, lookup_empty.
Qed.

Lemma reads_by_visible (ctx ctx' : QueryContext G V) vid prop :
  visible <$> layers ctx = visible <$> layers ctx' ->
  (prop ∉ derived -> (lookup_vertex_prop vid prop ctx).2 = (lookup_vertex_prop vid prop ctx').2)
  /\ (is_vertex_deleted vid ctx).2 = (is_vertex_deleted vid ctx').2.
Proof.
  intros He. rewrite !lookup_prop_layers, !deleted_layers. split.
  - intros Hp. assert (Hf : forall l, first_some (fun b => prop_of b vid prop) l
      = first_some (fun b => prop_of b vid prop) (visible <$> l)).
    { intros l. rewrite <- (first_some_fmap visible (fun b => prop_of b vid prop)).
      induction l as [|b l IH]; [done|]. cbn [first_some]. by rewrite IH, prop_visible. }
    by rewrite (Hf (layers ctx)), (Hf (layers ctx')), He.
  - assert (Hm : forall l : list (L0Buffer G V), existsb (fun b => bool_decide (vid ∈ vertex_tombstones b)) l
        = existsb (fun b => bool_decide (vid ∈ vertex_tombstones b)) (visible <$> l)).
    { induction l as [|b l IH]; [done|]. cbn [existsb fmap list_fmap]. by rewrite IH. }
    by rewrite (Hm (layers ctx)), He, <- Hm.
Qed.


(** The pin and the merge of a commit are not synchronised.  A snapshot
    pinned after a commit has checked for pins (and frozen the generation, if
    there were any) and before it merges holds the buffer the commit then
    writes: reads through the snapshot return the commit's values, although it
    was captured, with its version, before the merge. *)
Theorem late_pin_sees_commit m (views : list SnapshotView) (tx : L0Buffer G V) (now : Z) m' c (vid : Z) (prop : string) (x : V) :
  let m1 := freeze_if_pinned m views in
  is_Some (heap m1 !! current m1) ->
  commit_merge m1 tx now = (m', Ok c) ->
  (vid ∉ vertex_tombstones tx) -> prop_of tx vid prop = Some x -> try_as_crdt x = None ->
  let v := pin_snapshot m1 in
  (lookup_vertex_prop vid prop (query_context m' v)).2 = Some x
  /\ started_at_version v = current_version (buffer_at m1 (current m1)).
Proof.
  intros m1 [b Hb] Hm Hv Hx Hc v. split; [|done]. unfold commit_merge in Hm.
  assert (Hn : not_crdt tx vid prop) by (intros y Hy; unfold prop_of in Hx; congruence).
  rewrite lookup_prop_layers, layers_view. cbn [fmap list_fmap first_some v_main v pin_snapshot].
  destruct (merge_take _ tx now) as [[s' tx'] r] eqn:Ht. injection Hm as <- ->.
  apply merge_take_applied in Ht as [_ (Hp & _)].
  assert (Hbuf : buffer_at (write_at (current m1) (fun _ => s') m1) (current m1) = s').
  { unfold buffer_at, write_at. cbn [heap]. by rewrite lookup_alter_eq, Hb. }
  rewrite Hbuf. unfold prop_of in *. rewrite Hp. unfold base_row. rewrite decide_False by done.
  destruct (vertex_properties tx !! vid) as [p|]; [|done]. cbn [mbind option_bind] in *.
  rewrite merge_properties_lookup, Hx. unfold merged_value. by rewrite Hc.
Qed.

Lemma prop_new v log vid prop : prop_of (L0.new (G := G) (V := V) v log) vid prop = None.
Proof. unfold prop_of. cbn. by rewrite lookup_empty. Qed.

Lemma first_some_none {A B} (f : A -> option B) l : (forall a, a ∈ l -> f a = None) -> first_some f l = None.
Proof.
  induction l as [|a l IH]; intros H; [done|]. cbn. rewrite H by left. apply IH. intros a' Ha. apply H. by right.
Qed.

Lemma buffer_install_new m b : buffer_at (install m b) (fresh m) = b.
Proof. unfold buffer_at, install. cbn [heap]. by rewrite lookup_insert_eq. Qed.

(** [begin_flush] replaces the current buffer in [rotate] and only then
    lists the old one as pending, without a lock across the two.  A snapshot
    pinned in between has neither: a property held by the old buffer alone is
    read before the rotation and after the push, but not through that
    snapshot, and it stays missing for as long as the snapshot lives. *)
Theorem pin_in_rotation_gap v0 log (w : world) (next_version : Z) (new_wal : option (Wal V)) (vid : Z) (prop : string) (x : V) :
  wreachable v0 log w ->
  let m := mgr w in
  prop_of (buffer_at m (current m)) vid prop = Some x ->
  (forall l, l ∈ pending_flush m -> prop_of (buffer_at m l) vid prop = None) ->
  let m1 := (rotate m next_version new_wal).1 in
  let m2 := push_pending (current m) m1 in
  let reads m' v := (lookup_vertex_prop vid prop (query_context m' v)).2 in
  (begin_flush m next_version new_wal).1 = m2
  /\ reads m (pin_snapshot m) = Some x
  /\ reads m1 (pin_snapshot m1) = None /\ reads m2 (pin_snapshot m1) = None
  /\ reads m2 (pin_snapshot m2) = Some x.
Proof.
  intros [Hok _]%wreachable_ok m Hx Hp m1 m2 reads.
  assert (Hr : forall m' v, reads m' v = first_some (fun l => prop_of (buffer_at m' l) vid prop) (v_main v :: rev (v_extra v))).
  { intros m' v. unfold reads. rewrite lookup_prop_layers, layers_view. symmetry. apply (first_some_fmap (buffer_at m') (fun b => prop_of b vid prop)). }
  assert (Hold : forall l, (l < fresh m)%nat -> buffer_at m1 l = buffer_at m l).
  { intros l Hl. by apply buffer_install. }
  assert (Hnew : prop_of (buffer_at m1 (fresh m)) vid prop = None).
  { unfold m1, rotate. cbn [fst]. rewrite buffer_install_new. apply prop_new. }
  assert (Hgap : forall l, l ∈ fresh m :: rev (pending_flush m) -> prop_of (buffer_at m1 l) vid prop = None).
  { intros l [-> | Hl]%elem_of_cons; [done|]. rewrite elem_of_rev in Hl.
    destruct (ok_pending (mgr w) Hok l Hl) as [Hf _]. rewrite (Hold l Hf). by apply Hp. }
  rewrite !Hr. split; [done|]. split; [cbn; by rewrite Hx|]. do 2 (split; [by apply first_some_none|]).
  cbn [v_main v_extra pin_snapshot]. change (current m2) with (fresh m). change (pending_flush m2) with (pending_flush m ++ [current m]).
  rewrite rev_app_distr. cbn [rev app first_some]. change (buffer_at m2) with (buffer_at m1).
  rewrite Hnew. cbn [first_some]. change (current m) with (current (mgr w)). rewrite (Hold _ (ok_current (mgr w) Hok)). by change (mgr w) with m; rewrite Hx.
Qed.
End snapshots.
Arguments world : clear implicits.
