(* ===== verification/Checkpoint.v ===== *)
(** * Flush marks never pass unflushed commits

    The marks that crates/uni-store/src/runtime/writer.rs publishes in a
    snapshot manifest and truncates the log to ([flush_stream_l1], steps H, J
    and K of the finalizer), with flushes that overlap, fail and leave their
    buffer pending, or are cut by a crash at any step.  A commit is its log
    sequence number; which buffer holds it and which ones reached the columnar
    tables is tracked next to the manager of [Manager].  Writing the tables is
    outside the model: a flush that publishes its manifest has written the
    whole buffer. *)

From S2P Require Import Prelude Graph L0State L0 L0Replay L0Merge L0Data Carveout Commit Visibility Manager Snapshot.

(** How far a flush has come.  A failed flush stays where it is. *)
Inductive Stage := Rotated | Streamed (mark : Z) | Published | Completed.
Record flushing := mkFlushing { f_l0 : nat; f_wal_lsn : Z; f_stage : Stage }.

Section checkpoint.
  Context {G V C : Type} `{TG : Topology G} `{VV : Values V C} `{HO : HashOrder}.
  Implicit Types m : L0Manager G V.

(** [min_pending_wal_lsn_start(&old_l0).map_or(wal_lsn, |floor| floor.min(wal_lsn))] *)
Definition safe_lsn m (old_l0 : nat) (wal_lsn : Z) : Z :=
  match min_pending_wal_lsn_start m old_l0 with Some floor => Z.min floor wal_lsn | None => wal_lsn end.

Record db := mkDb {
  d_mgr : L0Manager G V;
  held : gmap nat (gset Z);
  in_l1 : gset Z;
  committed_lsns : gset Z;
  top : Z;
  flushes : list flushing;
  wal_high_water_mark : Z;
  truncated : Z;
}.

Definition held_by (d : db) (l : nat) : gset Z := default ∅ (held d !! l).

Inductive dstep : db -> db -> Prop :=
| dstep_commit d lsn (frozen : bool) f :
    top d < lsn -> (forall b, wal_lsn_at_start (f b) = wal_lsn_at_start b) ->
    let m := if frozen then freeze_current_for_snapshot (d_mgr d) else d_mgr d in
    dstep d (mkDb (write_at (current m) f m)
               (<[current m := {[lsn]} ∪ held_by d (current (d_mgr d))]> (held d)) (in_l1 d)
               ({[lsn]} ∪ committed_lsns d) lsn (flushes d) (wal_high_water_mark d) (truncated d))
| dstep_rotate d m' old :
    flush_l0_rotate (d_mgr d) (top d) = (m', old) ->
    dstep d (mkDb m' (held d) (in_l1 d) (committed_lsns d) (top d) (mkFlushing old (top d) Rotated :: flushes d)
               (wal_high_water_mark d) (truncated d))
| dstep_stream d l1 l2 old lsn :
    flushes d = l1 ++ mkFlushing old lsn Rotated :: l2 ->
    dstep d (mkDb (d_mgr d) (held d) (in_l1 d) (committed_lsns d) (top d)
               (l1 ++ mkFlushing old lsn (Streamed (safe_lsn (d_mgr d) old lsn)) :: l2)
               (wal_high_water_mark d) (truncated d))
| dstep_publish d l1 l2 old lsn mark :
    flushes d = l1 ++ mkFlushing old lsn (Streamed mark) :: l2 ->
    dstep d (mkDb (d_mgr d) (held d) (held_by d old ∪ in_l1 d) (committed_lsns d) (top d)
               (l1 ++ mkFlushing old lsn Published :: l2) mark (truncated d))
| dstep_complete d l1 l2 old lsn :
    flushes d = l1 ++ mkFlushing old lsn Published :: l2 ->
    dstep d (mkDb (complete_flush (d_mgr d) old) (held d) (in_l1 d) (committed_lsns d) (top d)
               (l1 ++ mkFlushing old lsn Completed :: l2) (wal_high_water_mark d) (truncated d))
| dstep_truncate d l1 l2 old lsn :
    flushes d = l1 ++ mkFlushing old lsn Completed :: l2 ->
    dstep d (mkDb (d_mgr d) (held d) (in_l1 d) (committed_lsns d) (top d) (l1 ++ l2)
               (wal_high_water_mark d) (Z.max (truncated d) (safe_lsn (d_mgr d) old lsn)))
| dstep_crash d v log :
    dstep d (mkDb (Manager.new v log)
               {[ 0%nat := filter (fun lsn => wal_high_water_mark d < lsn /\ truncated d < lsn) (committed_lsns d) ]}
               (in_l1 d) (committed_lsns d) (top d) [] (wal_high_water_mark d) (truncated d)).

Inductive dreachable : db -> Prop :=
| dreach_new v log : dreachable (mkDb (Manager.new v log) ∅ ∅ ∅ 0 [] 0 0)
| dreach_step d d' : dreachable d -> dstep d d' -> dreachable d'.

(** ** Invariant *)

Definition start_of m (l : nat) : Z := wal_lsn_at_start (buffer_at m l).
Definition active m (l : nat) : Prop := l = current m \/ l ∈ pending_flush m.

Record db_ok (d : db) : Prop := {
  db_mgr : mgr_ok (d_mgr d);
  db_top : 0 <= top d;
  db_current_start : 0 <= start_of (d_mgr d) (current (d_mgr d)) <= top d;
  db_held l lsn : active (d_mgr d) l -> lsn ∈ held_by d l -> start_of (d_mgr d) l < lsn;
  db_unused l : (fresh (d_mgr d) <= l)%nat -> held_by d l = ∅;
  db_lsns lsn : lsn ∈ committed_lsns d -> 0 < lsn <= top d;
  db_where lsn : lsn ∈ committed_lsns d ->
    lsn ∈ in_l1 d \/ exists l, active (d_mgr d) l /\ lsn ∈ held_by d l;
  db_flush f : f ∈ flushes d ->
    f_wal_lsn f <= start_of (d_mgr d) (current (d_mgr d)) /\ f_l0 f <> current (d_mgr d) /\ (f_l0 f < fresh (d_mgr d))%nat;
  db_streamed f mark lsn : f ∈ flushes d -> f_stage f = Streamed mark -> lsn ∈ committed_lsns d -> lsn <= mark ->
    lsn ∈ in_l1 d \/ lsn ∈ held_by d (f_l0 f);
  db_cap f mark : f ∈ flushes d -> f_stage f = Streamed mark -> mark <= f_wal_lsn f;
  db_published f lsn : f ∈ flushes d -> f_stage f = Published \/ f_stage f = Completed -> lsn ∈ held_by d (f_l0 f) -> lsn ∈ in_l1 d;
  db_mark lsn : lsn ∈ committed_lsns d -> lsn <= wal_high_water_mark d \/ lsn <= truncated d -> lsn ∈ in_l1 d;
  db_marks_le : wal_high_water_mark d <= top d /\ truncated d <= top d;
}.

Lemma min_list_le l x : x ∈ l -> exists y, min_list l = Some y /\ y <= x.
Proof.
  induction l as [|z l IH]; [by intros ?%not_elem_of_nil|]. intros [->|Hx]%elem_of_cons; cbn.
  - destruct (min_list l); eexists; (split; [done|lia]).
  - destruct (IH Hx) as (y & -> & Hy). eexists. split; [done|]. lia.
Qed.

Lemma safe_lsn_le m old wl : safe_lsn m old wl <= wl.
Proof. unfold safe_lsn. destruct (min_pending_wal_lsn_start m old); lia. Qed.

(** What is at or below the safe mark of a flush is in the tables or in the
    buffer the flush writes. *)
Lemma safe_lsn_covers d old wl lsn :
  db_ok d -> wl <= start_of (d_mgr d) (current (d_mgr d)) -> lsn ∈ committed_lsns d ->
  lsn <= safe_lsn (d_mgr d) old wl -> lsn ∈ in_l1 d \/ lsn ∈ held_by d old.
Proof.
  intros Hd Hwl Hc Hle. destruct (db_where _ Hd lsn Hc) as [|(l & Hact & Hh)]; [by left|].
  pose proof (db_held _ Hd l lsn Hact Hh) as Hs. pose proof (safe_lsn_le (d_mgr d) old wl) as Hsl.
  destruct Hact as [->|Hp]; [lia|]. destruct (decide (l = old)) as [->|Hne]; [by right|]. exfalso.
  unfold safe_lsn, min_pending_wal_lsn_start in Hle.
  destruct (min_list_le ((fun l => wal_lsn_at_start (buffer_at (d_mgr d) l)) <$> filter (fun l => l <> old) (pending_flush (d_mgr d)))
    (start_of (d_mgr d) l)) as (y & Hy & Hyl).
  { apply list_elem_of_fmap. exists l. split; [done|]. by apply list_elem_of_filter. }
  rewrite Hy in Hle. lia.
Qed.

(** Marks of locations a move does not touch. *)
Lemma start_moves T m m' l : moves T m m' -> (l < fresh m)%nat -> ~ T l -> start_of m' l = start_of m l.
Proof. intros Hm Hl Hn. apply (f_equal wal_lsn_at_start (mv_content _ _ _ Hm l Hl Hn)). Qed.

Lemma active_fresh m l : mgr_ok m -> active m l -> (l < fresh m)%nat.
Proof. intros Hm [->|Hl]; [apply Hm|]. by apply Hm. Qed.

Lemma start_write m l f l' :
  (forall b, wal_lsn_at_start (f b) = wal_lsn_at_start b) -> start_of (write_at l f m) l' = start_of m l'.
Proof.
  intros Hf. unfold start_of. destruct (decide (l = l')) as [->|]; [|by rewrite buffer_write_ne].
  unfold buffer_at, write_at. cbn [heap]. rewrite lookup_alter_eq. destruct (heap m !! l'); [apply Hf|done].
Qed.

Lemma start_freeze m : start_of (freeze_current_for_snapshot m) (current (freeze_current_for_snapshot m)) = start_of m (current m).
Proof. unfold start_of, buffer_at, freeze_current_for_snapshot. cbn. by rewrite lookup_insert_eq. Qed.

Lemma start_rotate m wal_lsn :
  let m' := (flush_l0_rotate m wal_lsn).1 in
  start_of m' (current m') = wal_lsn /\ current m' = fresh m /\ pending_flush m' = pending_flush m ++ [current m]
  /\ (flush_l0_rotate m wal_lsn).2 = current m /\ fresh m' = S (fresh m).
Proof.
  cbn. split; [|done]. unfold start_of, buffer_at. cbn. rewrite lookup_alter_eq.
  destruct (decide (current m = fresh m)) as [->|]; [rewrite lookup_alter_eq|rewrite lookup_alter_ne by done];
    by rewrite lookup_insert_eq.
Qed.

Lemma frozen_facts m (frozen : bool) :
  mgr_ok m -> let m' := if frozen then freeze_current_for_snapshot m else m in
  mgr_ok m' /\ (fresh m <= fresh m')%nat /\ pending_flush m' = pending_flush m
  /\ (current m' = current m \/ (current m' = fresh m))
  /\ start_of m' (current m') = start_of m (current m)
  /\ (forall l, (l < fresh m)%nat -> start_of m' l = start_of m l).
Proof.
  intros Hm. destruct frozen; cbn zeta; [|split; [done|]; split; [done|]; split; [done|]; split; [by left|]; done].
  destruct (freeze_ok m Hm) as [Hq Hok]. split; [done|]. split; [cbn; lia|]. split; [done|]. split; [by right|].
  split; [apply start_freeze|]. intros l Hl. apply (start_moves _ _ _ _ Hq Hl). tauto.
Qed.

Lemma db_ok_commit d lsn (frozen : bool) f :
  db_ok d -> top d < lsn -> (forall b, wal_lsn_at_start (f b) = wal_lsn_at_start b) ->
  let m := if frozen then freeze_current_for_snapshot (d_mgr d) else d_mgr d in
  db_ok (mkDb (write_at (current m) f m)
    (<[current m := {[lsn]} ∪ held_by d (current (d_mgr d))]> (held d)) (in_l1 d)
    ({[lsn]} ∪ committed_lsns d) lsn (flushes d) (wal_high_water_mark d) (truncated d)).
Proof.
  intros Hd Hlsn Hf m. destruct (frozen_facts (d_mgr d) frozen (db_mgr _ Hd)) as (Hok & Hfr & Hpe & Hcur & Hst & Hsl).
  fold m in Hok, Hfr, Hpe, Hcur, Hst, Hsl. clearbody m. pose proof (db_top _ Hd). pose proof (db_current_start _ Hd).
  pose proof (db_marks_le _ Hd). set (d' := mkDb _ _ _ _ _ _ _ _).
  assert (Hh : forall l, held_by d' l = if decide (current m = l) then {[lsn]} ∪ held_by d (current (d_mgr d)) else held_by d l).
  { intros l. unfold held_by. cbn. rewrite lookup_insert. by case_decide. }
  assert (Hstart : forall l, start_of (d_mgr d') l = start_of m l) by (intros l; by apply start_write).
  assert (Hact : forall l, active (d_mgr d') l <-> l = current m \/ l ∈ pending_flush (d_mgr d))
    by (intros l; unfold active; cbn; by rewrite Hpe).
  assert (Hpend : forall l, l ∈ pending_flush (d_mgr d) -> l <> current m /\ (l < fresh (d_mgr d))%nat).
  { intros l Hl. rewrite <- Hpe in Hl. destruct (ok_pending _ Hok l Hl). split; [done|]. rewrite Hpe in Hl. by apply (db_mgr _ Hd). }
  split; cbn [top committed_lsns in_l1 flushes wal_high_water_mark truncated d'].
  - by apply mgr_ok_write.
  - lia.
  - rewrite Hstart. change (current (d_mgr d')) with (current m). lia.
  - intros l x Hl. rewrite Hstart, Hh. apply Hact in Hl as [->|Hl].
    + rewrite decide_True by done. rewrite Hst, elem_of_union, elem_of_singleton. intros [->|Hx]; [lia|].
      by apply (db_held _ Hd); [left|].
    + destruct (Hpend l Hl) as [Hne Hlt]. rewrite decide_False by done. intros Hx. rewrite Hsl by done.
      by apply (db_held _ Hd); [right|].
  - intros l Hl. change (fresh (d_mgr d')) with (fresh m) in Hl. rewrite Hh. pose proof (ok_current _ Hok).
    rewrite decide_False by lia. apply (db_unused _ Hd). lia.
  - intros x [Hx|Hx]%elem_of_union; [apply elem_of_singleton in Hx as ->; lia|]. pose proof (db_lsns _ Hd x Hx). lia.
  - intros x [Hx|Hx]%elem_of_union.
    { right. exists (current m). split; [by apply Hact; left|]. rewrite Hh, decide_True by done. set_solver. }
    destruct (db_where _ Hd x Hx) as [|(l & Hl & Hxl)]; [by left|]. right. destruct Hl as [->|Hl].
    + exists (current m). split; [by apply Hact; left|]. rewrite Hh, decide_True by done. set_solver.
    + exists l. split; [by apply Hact; right|]. destruct (Hpend l Hl). by rewrite Hh, decide_False.
  - intros g Hg. destruct (db_flush _ Hd g Hg) as (Hg1 & Hg2 & Hg3). rewrite Hstart. change (current (d_mgr d')) with (current m).
    rewrite Hst. split; [done|]. split; [destruct Hcur as [-> | ->]; [done|lia]|]. change (fresh (d_mgr d')) with (fresh m). lia.
  - intros g mark x Hg Hstage Hx Hle. rewrite Hh. destruct (db_flush _ Hd g Hg) as (Hg1 & Hg2 & Hg3).
    rewrite decide_False by (destruct Hcur as [-> | ->]; [done|lia]).
    pose proof (db_cap _ Hd g mark Hg Hstage). apply elem_of_union in Hx as [Hx|Hx]; [apply elem_of_singleton in Hx; lia|].
    by apply (db_streamed _ Hd g mark x).
  - apply (db_cap _ Hd).
  - intros g x Hg Hstage. rewrite Hh. destruct (db_flush _ Hd g Hg) as (Hg1 & Hg2 & Hg3).
    rewrite decide_False by (destruct Hcur as [-> | ->]; [done|lia]). by apply (db_published _ Hd g x).
  - intros x Hx Hle. apply elem_of_union in Hx as [Hx|Hx]; [apply elem_of_singleton in Hx; lia|]. by apply (db_mark _ Hd).
  - lia.
Qed.

Lemma db_ok_rotate d m' old :
  db_ok d -> flush_l0_rotate (d_mgr d) (top d) = (m', old) ->
  db_ok (mkDb m' (held d) (in_l1 d) (committed_lsns d) (top d) (mkFlushing old (top d) Rotated :: flushes d)
           (wal_high_water_mark d) (truncated d)).
Proof.
  intros Hd Hr. destruct (rotate_ok (d_mgr d) (top d) (db_mgr _ Hd)) as [Hmv Hok].
  destruct (start_rotate (d_mgr d) (top d)) as (Hst & Hcur & Hpe & Hold & Hfr). rewrite Hr in Hmv, Hok, Hst, Hcur, Hpe, Hold, Hfr.
  cbn [fst snd] in *. clear Hr. subst old. pose proof (ok_current _ (db_mgr _ Hd)) as Hlt. pose proof (db_top _ Hd).
  pose proof (db_current_start _ Hd).
  assert (Hsl : forall l, (l < fresh (d_mgr d))%nat -> start_of m' l = start_of (d_mgr d) l).
  { intros l Hl. apply (start_moves _ _ _ _ Hmv Hl). lia. }
  assert (Hact : forall l, active m' l -> l = fresh (d_mgr d) \/ active (d_mgr d) l).
  { intros l [->|Hl]; [by left|]. right. rewrite Hpe in Hl. apply elem_of_app in Hl as [Hl|Hl]; [by right|].
    apply list_elem_of_singleton in Hl. by left. }
  split; cbn [d_mgr top committed_lsns in_l1 flushes wal_high_water_mark truncated]; try apply Hd; try done.
  - rewrite Hst. lia.
  - intros l x Hl Hx. change (x ∈ held_by d l) in Hx. destruct (Hact l Hl) as [->|Hl'].
    + rewrite (db_unused _ Hd) in Hx by lia. by apply not_elem_of_empty in Hx.
    + rewrite Hsl by (by apply (active_fresh _ _ (db_mgr _ Hd))). by apply (db_held _ Hd).
  - intros l Hl. apply (db_unused _ Hd). lia.
  - intros x Hx. destruct (db_where _ Hd x Hx) as [|(l & Hl & Hxl)]; [by left|]. right. exists l. split; [|done].
    right. rewrite Hpe, elem_of_app, list_elem_of_singleton. destruct Hl; auto.
  - rewrite Hst, Hcur, Hfr. intros g [->|Hg]%elem_of_cons; cbn; [lia|].
    destruct (db_flush _ Hd g Hg) as (Hg1 & Hg2 & Hg3). lia.
  - intros g mark x [->|Hg]%elem_of_cons; [done|]. by apply (db_streamed _ Hd).
  - intros g mark [->|Hg]%elem_of_cons; [done|]. by apply (db_cap _ Hd).
  - intros g x [->|Hg]%elem_of_cons; [by intros [?|?]|]. by apply (db_published _ Hd).
Qed.

(** Replacing the entry of one flush. *)
Lemma flush_entry d l1 l2 f f' g : flushes d = l1 ++ f :: l2 -> g ∈ l1 ++ f' :: l2 -> g = f' \/ g ∈ flushes d.
Proof. intros ->. rewrite !elem_of_app, !elem_of_cons. tauto. Qed.

Lemma flush_in d l1 l2 f : flushes d = l1 ++ f :: l2 -> f ∈ flushes d.
Proof. intros ->. rewrite elem_of_app, elem_of_cons. auto. Qed.

Lemma db_ok_stream d l1 l2 old lsn :
  db_ok d -> flushes d = l1 ++ mkFlushing old lsn Rotated :: l2 ->
  db_ok (mkDb (d_mgr d) (held d) (in_l1 d) (committed_lsns d) (top d)
           (l1 ++ mkFlushing old lsn (Streamed (safe_lsn (d_mgr d) old lsn)) :: l2) (wal_high_water_mark d) (truncated d)).
Proof.
  intros Hd Hf. pose proof (db_flush _ Hd _ (flush_in _ _ _ _ Hf)) as H0. cbn in H0.
  split; cbn [d_mgr top committed_lsns in_l1 flushes wal_high_water_mark truncated]; try apply Hd.
  - intros g [->|Hg]%(flush_entry _ _ _ _ _ _ Hf); [done|by apply (db_flush _ Hd)].
  - intros g mark x [->|Hg]%(flush_entry _ _ _ _ _ _ Hf); [|by apply (db_streamed _ Hd)].
    cbn. intros [= <-] Hx Hle. apply (safe_lsn_covers d old lsn); [done|apply H0|done|done].
  - intros g mark [->|Hg]%(flush_entry _ _ _ _ _ _ Hf); [|by apply (db_cap _ Hd)]. cbn. intros [= <-]. apply safe_lsn_le.
  - intros g x [->|Hg]%(flush_entry _ _ _ _ _ _ Hf); [by intros [?|?]|by apply (db_published _ Hd)].
Qed.

Lemma db_ok_publish d l1 l2 old lsn mark :
  db_ok d -> flushes d = l1 ++ mkFlushing old lsn (Streamed mark) :: l2 ->
  db_ok (mkDb (d_mgr d) (held d) (held_by d old ∪ in_l1 d) (committed_lsns d) (top d)
           (l1 ++ mkFlushing old lsn Published :: l2) mark (truncated d)).
Proof.
  intros Hd Hf. pose proof (flush_in _ _ _ _ Hf) as Hin. pose proof (db_flush _ Hd _ Hin) as H0. cbn in H0.
  pose proof (db_cap _ Hd _ mark Hin eq_refl) as H1. cbn in H1. pose proof (db_current_start _ Hd). pose proof (db_marks_le _ Hd).
  split; cbn [d_mgr top committed_lsns in_l1 flushes wal_high_water_mark truncated]; try apply Hd.
  - intros x Hx. destruct (db_where _ Hd x Hx) as [|?]; [left; set_solver|by right].
  - intros g [->|Hg]%(flush_entry _ _ _ _ _ _ Hf); [done|by apply (db_flush _ Hd)].
  - intros g mk x [->|Hg]%(flush_entry _ _ _ _ _ _ Hf); [done|]. intros Hs Hx Hle.
    destruct (db_streamed _ Hd g mk x Hg Hs Hx Hle); [left; set_solver|by right].
  - intros g mk [->|Hg]%(flush_entry _ _ _ _ _ _ Hf); [done|by apply (db_cap _ Hd)].
  - intros g x [->|Hg]%(flush_entry _ _ _ _ _ _ Hf) Hs Hx; [cbn in Hx; set_solver|].
    pose proof (db_published _ Hd g x Hg Hs Hx). set_solver.
  - intros x Hx [Hle|Hle]; [|pose proof (db_mark _ Hd x Hx (or_intror Hle)); set_solver].
    destruct (db_streamed _ Hd _ mark x Hin eq_refl Hx Hle); set_solver.
  - lia.
Qed.

Lemma db_ok_complete d l1 l2 old lsn :
  db_ok d -> flushes d = l1 ++ mkFlushing old lsn Published :: l2 ->
  db_ok (mkDb (complete_flush (d_mgr d) old) (held d) (in_l1 d) (committed_lsns d) (top d)
           (l1 ++ mkFlushing old lsn Completed :: l2) (wal_high_water_mark d) (truncated d)).
Proof.
  intros Hd Hf. pose proof (flush_in _ _ _ _ Hf) as Hin. pose proof (db_flush _ Hd _ Hin) as H0.
  assert (Hst : forall l, start_of (complete_flush (d_mgr d) old) l = start_of (d_mgr d) l) by done.
  split; cbn [d_mgr top committed_lsns in_l1 flushes wal_high_water_mark truncated]; try apply Hd.
  - destruct (db_mgr _ Hd) as [A B D]. split; [done..|]. cbn. intros l [_ Hl]%list_elem_of_filter. by apply D.
  - intros l x [->|Hl] Hx; rewrite Hst; apply (db_held _ Hd); [by left|done| |done].
    right. by apply list_elem_of_filter in Hl as [_ Hl].
  - intros x Hx. destruct (db_where _ Hd x Hx) as [|(l & Hl & Hxl)]; [by left|].
    destruct (decide (l = old)) as [->|Hne].
    + left. by apply (db_published _ Hd (mkFlushing old lsn Published)); [| left|].
    + right. exists l. split; [|done]. destruct Hl as [->|Hl]; [by left|]. right. by apply list_elem_of_filter.
  - intros g [->|Hg]%(flush_entry _ _ _ _ _ _ Hf); [done|by apply (db_flush _ Hd)].
  - intros g mk x [->|Hg]%(flush_entry _ _ _ _ _ _ Hf); [done|by apply (db_streamed _ Hd)].
  - intros g mk [->|Hg]%(flush_entry _ _ _ _ _ _ Hf); [done|by apply (db_cap _ Hd)].
  - intros g x [->|Hg]%(flush_entry _ _ _ _ _ _ Hf) Hs Hx; [|by apply (db_published _ Hd g)].
    by apply (db_published _ Hd (mkFlushing old lsn Published)); [|left|].
Qed.

Lemma db_ok_truncate d l1 l2 old lsn :
  db_ok d -> flushes d = l1 ++ mkFlushing old lsn Completed :: l2 ->
  db_ok (mkDb (d_mgr d) (held d) (in_l1 d) (committed_lsns d) (top d) (l1 ++ l2)
           (wal_high_water_mark d) (Z.max (truncated d) (safe_lsn (d_mgr d) old lsn))).
Proof.
  intros Hd Hf. pose proof (flush_in _ _ _ _ Hf) as Hin. pose proof (db_flush _ Hd _ Hin) as H0. cbn in H0.
  pose proof (db_current_start _ Hd). pose proof (db_marks_le _ Hd). pose proof (safe_lsn_le (d_mgr d) old lsn).
  assert (Hsub : forall g, g ∈ l1 ++ l2 -> g ∈ flushes d) by (intros g; rewrite Hf, !elem_of_app, elem_of_cons; tauto).
  split; cbn [d_mgr top committed_lsns in_l1 flushes wal_high_water_mark truncated]; try apply Hd.
  - intros g Hg. by apply (db_flush _ Hd), Hsub.
  - intros g mk x Hg. by apply (db_streamed _ Hd), Hsub.
  - intros g mk Hg. by apply (db_cap _ Hd), Hsub.
  - intros g x Hg. by apply (db_published _ Hd), Hsub.
  - intros x Hx Hle. destruct (decide (x <= safe_lsn (d_mgr d) old lsn)) as [Hs|]; [|apply (db_mark _ Hd x Hx); lia].
    destruct (safe_lsn_covers d old lsn x Hd (proj1 H0) Hx Hs) as [|Hh]; [done|].
    by apply (db_published _ Hd _ x Hin); [right|].
  - lia.
Qed.

Lemma start_new v log : start_of (Manager.new v log) 0 = 0.
Proof. reflexivity. Qed.

Lemma db_ok_crash d v log :
  db_ok d ->
  db_ok (mkDb (Manager.new v log)
    {[ 0%nat := filter (fun lsn => wal_high_water_mark d < lsn /\ truncated d < lsn) (committed_lsns d) ]}
    (in_l1 d) (committed_lsns d) (top d) [] (wal_high_water_mark d) (truncated d)).
Proof.
  intros Hd. pose proof (db_top _ Hd). set (d' := mkDb _ _ _ _ _ _ _ _).
  assert (Hh : forall l, held_by d' l = if decide (0%nat = l) then filter (fun lsn => wal_high_water_mark d < lsn /\ truncated d < lsn)
    (committed_lsns d) else ∅).
  { intros l. unfold held_by. cbn. destruct (decide (0%nat = l)) as [<-|]; [by rewrite lookup_singleton_eq|by rewrite lookup_singleton_ne]. }
  split; cbn [d_mgr top committed_lsns in_l1 flushes wal_high_water_mark truncated d']; try apply Hd;
    try (by intros ? ?%not_elem_of_nil); try (by intros ? ? ?%not_elem_of_nil); try (by intros ? ? ? ?%not_elem_of_nil).
  - split; cbn; [done|lia|by intros ? ?%not_elem_of_nil].
  - change (current (Manager.new v log)) with 0%nat. rewrite start_new. lia.
  - intros l x [->|Hl%not_elem_of_nil]; [|done]. change (current (Manager.new v log)) with 0%nat.
    rewrite Hh, start_new, decide_True, elem_of_filter by done. intros [_ Hx]. pose proof (db_lsns _ Hd x Hx). lia.
  - cbn. intros l Hl. rewrite Hh. by rewrite decide_False by lia.
  - intros x Hx. destruct (decide (wal_high_water_mark d < x /\ truncated d < x)) as [Hlt|Hn].
    + right. exists 0%nat. split; [by left|]. rewrite Hh, decide_True by done. by apply elem_of_filter.
    + left. apply (db_mark _ Hd x Hx). lia.
Qed.

Lemma dreachable_ok d : dreachable d -> db_ok d.
Proof.
  induction 1 as [v log|d d' _ IH Hs].
  - split; cbn [d_mgr top committed_lsns in_l1 flushes wal_high_water_mark truncated]; try done;
      try (by intros ? ?%not_elem_of_nil); try (by intros ? ? ?%not_elem_of_nil); try (by intros ? ? ? ?%not_elem_of_nil);
      try (by intros ? ?%not_elem_of_empty); try (by intros ? ? ? ?%not_elem_of_empty).
    split; cbn; [done|lia|by intros ? ?%not_elem_of_nil].
  - destruct Hs.
    + by apply db_ok_commit.
    + by apply db_ok_rotate.
    + by apply db_ok_stream.
    + by apply db_ok_publish with (lsn := lsn).
    + by apply db_ok_complete with (lsn := lsn).
    + by apply db_ok_truncate.
    + by apply db_ok_crash.
Qed.

(** C9: no flush mark passes a commit that is not in the tables.  In every
    state that commits (freezing pinned generations or not), overlapping
    flushes, failed flushes that leave their buffer pending, and crashes at any
    step lead to, every commit at or below the published mark or the point the
    log was truncated to is in the columnar tables: what recovery skips or can
    no longer read is never lost. *)
Theorem checkpoint_never_passes_unflushed (d : db) (lsn : Z) :
  dreachable d -> lsn ∈ committed_lsns d -> lsn <= wal_high_water_mark d \/ lsn <= truncated d -> lsn ∈ in_l1 d.
Proof. intros Hd%dreachable_ok. apply (db_mark _ Hd). Qed.
End checkpoint.
Arguments db : clear implicits.
