(* ===== verification/Wal.v ===== *)
(** * The write-ahead log

    crates/uni-store/src/runtime/wal.rs: segment files, their names, the
    checksummed envelope, the in-memory batch with its commit spans, flushing
    with every failure outcome, recovery and truncation.  The object store is
    a map from file names (below the log's prefix) to contents; a listing
    returns its keys in any order.  The JSON codec of serde and the blake3 hash
    are the parameters [to_json], [from_json] and [hash_hex].  Lock poisoning
    is not modelled here (see [L0State.wal_append]). *)

From S2P Require Import Prelude.

(** ** File names *)

(** [n] decimal digits of [z], most significant first. *)
Fixpoint digits (n : nat) (z : Z) : list Z :=
  match n with
  | O => []
  | S n => digits n (z / 10) ++ [48 + z mod 10]
  end.

(** [format!("{:020}_{}.wal", lsn, uuid)] *)
Definition segment_filename (lsn : Z) (uuid : list Z) : list Z :=
  digits 20 lsn ++ [95] ++ uuid ++ [46; 119; 97; 108].

#[global] Arguments segment_filename : simpl never.

Definition is_digit (b : Z) : bool := (48 <=? b) && (b <=? 57).

Fixpoint digits_value (acc : Z) (s : list Z) : option Z :=
  match s with
  | [] => Some acc
  | b :: s =>
      if is_digit b then
        let acc := acc * 10 + (b - 48) in
        if acc <? 2 ^ 64 then digits_value acc s else None
      else None
  end.

(** [str::parse::<u64>]: an optional [+], at least one digit, no overflow. *)
Definition parse_u64 (s : list Z) : option Z :=
  match s with
  | [] => None
  | b :: s' =>
      if b =? 43 then (match s' with [] => None | _ => digits_value 0 s' end)
      else digits_value 0 s
  end.

(** A byte that starts a character, or the end of the string. *)
Definition char_boundary (s : list Z) (i : nat) : bool :=
  match s !! i with
  | None => (i =? length s)%nat
  | Some b => negb ((128 <=? b) && (b <=? 191))
  end.

Definition parse_lsn_from_filename (filename : list Z) : option Z :=
  if (length filename <? 20)%nat then None
  else if char_boundary filename 20 then parse_u64 (take 20 filename) else None.

Lemma length_digits n z : length (digits n z) = n.
Proof. revert z. induction n as [|n IH]; intros z; [done|]. cbn. rewrite length_app, IH. cbn. lia. Qed.

Lemma is_digit_mod z : is_digit (48 + z mod 10) = true.
Proof. pose proof (Z.mod_pos_bound z 10). unfold is_digit. lia. Qed.

Lemma pow10_S n : 10 ^ Z.of_nat (S n) = 10 * 10 ^ Z.of_nat n.
Proof. rewrite Nat2Z.inj_succ, Z.pow_succ_r by lia. lia. Qed.

Lemma digits_value_app a b : forall acc,
  digits_value acc (a ++ b) = match digits_value acc a with Some x => digits_value x b | None => None end.
Proof.
  induction a as [|x a IH]; intros acc; [done|]. cbn [digits_value app]. destruct (is_digit x); [|done].
  destruct (_ <? _); [apply IH|done].
Qed.

Lemma digits_value_digits n : forall acc z,
  0 <= z < 10 ^ Z.of_nat n -> 0 <= acc -> acc * 10 ^ Z.of_nat n + z < 2 ^ 64 ->
  digits_value acc (digits n z) = Some (acc * 10 ^ Z.of_nat n + z).
Proof.
  induction n as [|n IH]; intros acc z Hz Ha Hb.
  { cbn in *. f_equal. lia. }
  rewrite pow10_S in *. pose proof (Z.div_mod z 10 ltac:(lia)). pose proof (Z.mod_pos_bound z 10 ltac:(lia)).
  cbn [digits]. rewrite digits_value_app, IH; [|split; [apply Z.div_pos; lia|apply Z.div_lt_upper_bound; lia]|done|nia].
  cbn [digits_value]. rewrite is_digit_mod.
  assert (He : (acc * 10 ^ Z.of_nat n + z / 10) * 10 + (48 + z mod 10 - 48) = acc * (10 * 10 ^ Z.of_nat n) + z) by lia.
  rewrite He. destruct (Z.ltb_spec (acc * (10 * 10 ^ Z.of_nat n) + z) (2 ^ 64)); [done|lia].
Qed.

Lemma memcmp_digits n : forall x y,
  0 <= x < 10 ^ Z.of_nat n -> 0 <= y < 10 ^ Z.of_nat n -> memcmp (digits n x) (digits n y) = (x ?= y).
Proof.
  induction n as [|n IH]; intros x y Hx Hy.
  { cbn in *. replace x with y by lia. by rewrite Z.compare_refl. }
  rewrite pow10_S in *. cbn [digits]. rewrite memcmp_app by by rewrite !length_digits.
  rewrite IH by (split; [apply Z.div_pos; lia|apply Z.div_lt_upper_bound; lia]).
  pose proof (Z.div_mod x 10 ltac:(lia)). pose proof (Z.div_mod y 10 ltac:(lia)).
  pose proof (Z.mod_pos_bound x 10 ltac:(lia)). pose proof (Z.mod_pos_bound y 10 ltac:(lia)).
  cbn [memcmp]. destruct (Z.compare_spec (x / 10) (y / 10)); cbn;
    [destruct (Z.compare_spec (48 + x mod 10) (48 + y mod 10)); cbn | |];
    symmetry; rewrite ?Z.compare_eq_iff, ?Z.compare_lt_iff, ?Z.compare_gt_iff; lia.
Qed.

Lemma u64_digits x : is_u64 x -> 0 <= x < 10 ^ Z.of_nat 20.
Proof. unfold is_u64. cbn. lia. Qed.

Lemma take_filename x u : take 20 (segment_filename x u) = digits 20 x.
Proof. unfold segment_filename. rewrite take_app_length'; [done|by rewrite length_digits]. Qed.

Lemma parse_filename x u : is_u64 x -> parse_lsn_from_filename (segment_filename x u) = Some x.
Proof.
  intros Hx. unfold parse_lsn_from_filename.
  assert (Hlen : (20 <= length (segment_filename x u))%nat)
    by (unfold segment_filename; rewrite length_app, length_digits; lia).
  destruct (Nat.ltb_spec (length (segment_filename x u)) 20); [lia|].
  assert (Hb : char_boundary (segment_filename x u) 20 = true).
  { unfold char_boundary, segment_filename. rewrite lookup_app_r by (rewrite length_digits; lia).
    by rewrite length_digits. }
  rewrite Hb, take_filename. unfold parse_u64.
  pose proof (digits_value_digits 20 0 x (u64_digits x Hx) ltac:(lia) ltac:(unfold is_u64 in Hx; lia)) as Hd.
  assert (Hh : head (digits 20 x) <> Some 43).
  { change (digits 20 x) with (digits 19 (x / 10) ++ [48 + x mod 10]).
    assert (Hf : forall n z, head (digits (S n) z) <> Some 43).
    { induction n as [|n IH]; intros z.
      - cbn. pose proof (Z.mod_pos_bound z 10). intros [=]. lia.
      - cbn [digits]. specialize (IH (z / 10)). cbn [digits] in IH.
        destruct (digits n (z / 10 / 10) ++ [48 + (z / 10) mod 10]) eqn:E; [by apply app_nil in E as [_ ?]|].
        exact IH. }
    apply (Hf 19%nat). }
  destruct (digits 20 x) as [|b ds] eqn:E; [apply (f_equal length) in E; by rewrite length_digits in E|].
  destruct (Z.eqb_spec b 43) as [->|]; [exfalso; by apply Hh|]. by rewrite Hd.
Qed.

(** ** Segments and their envelope *)

Definition between (lo hi b : Z) : bool := (lo <=? b) && (b <=? hi).

(** [std::str::from_utf8(..).is_ok()] *)
Fixpoint is_utf8 (s : list Z) : bool :=
  match s with
  | [] => true
  | b :: s1 =>
      if between 0 127 b then is_utf8 s1
      else match s1 with
      | [] => false
      | c :: s2 =>
          if between 194 223 b then between 128 191 c && is_utf8 s2
          else match s2 with
          | [] => false
          | d :: s3 =>
              if between 224 239 b then
                between (if b =? 224 then 160 else 128) (if b =? 237 then 159 else 191) c
                && between 128 191 d && is_utf8 s3
              else match s3 with
              | [] => false
              | e :: s4 =>
                  between 240 244 b
                  && between (if b =? 240 then 144 else 128) (if b =? 244 then 143 else 191) c
                  && between 128 191 d && between 128 191 e && is_utf8 s4
              end
          end
      end
  end.

Record CommitSpan := mkSpan { start : nat; len : nat }.

Record WalSegment (M : Type) := mkSegment {
  lsn : Z;
  mutations : list M;
  writer_features : list string;
  announced_through : Z;
  commits : list CommitSpan;
}.
Arguments mkSegment {M}.
Arguments lsn {M}.
Arguments mutations {M}.
Arguments writer_features {M}.
Arguments announced_through {M}.
Arguments commits {M}.

(** serde_json on segments and blake3's hexadecimal digest. *)
Class Codec (M : Type) := {
  to_json : WalSegment M -> option (list Z);
  from_json : list Z -> option (WalSegment M);
  hash_hex : list Z -> list Z;
}.

(** What the log relies on: reading back what was written gives the segment,
    and a digest is 64 hexadecimal (ASCII) characters. *)
Class CodecLaws (M : Type) `{Codec M} : Prop := {
  json_roundtrip s j : to_json s = Some j -> from_json j = Some s;
  hash_hex_length p : length (hash_hex p) = 64%nat;
  hash_hex_utf8 p : is_utf8 (hash_hex p) = true;
}.

(** ["UNIWAL2\n"] *)
Definition WAL_V2_MAGIC : list Z := [85; 78; 73; 87; 65; 76; 50; 10].
Definition WAL_V2_HASH_HEX_LEN : nat := 64.

Inductive DecodeError := TruncatedHeader | NonUtf8Checksum | ChecksumMismatch | V2Parse | LegacyParse | EmptyFile.

Fixpoint strip_prefix (prefix bytes : list Z) : option (list Z) :=
  match prefix, bytes with
  | [], _ => Some bytes
  | p :: prefix, b :: bytes => if p =? b then strip_prefix prefix bytes else None
  | _ :: _, [] => None
  end.

Section envelope.
  Context {M : Type} `{CM : Codec M}.

Definition encode_segment_envelope (payload_json : list Z) : list Z :=
  WAL_V2_MAGIC ++ hash_hex payload_json ++ [10] ++ payload_json.

Definition decode_segment (bytes : list Z) : result DecodeError (WalSegment M) :=
  match strip_prefix WAL_V2_MAGIC bytes with
  | Some rest =>
      if (length rest <? WAL_V2_HASH_HEX_LEN + 1)%nat || negb (bool_decide (rest !! WAL_V2_HASH_HEX_LEN = Some 10))
      then Err TruncatedHeader
      else
        let hex := take WAL_V2_HASH_HEX_LEN rest in
        let payload := drop (WAL_V2_HASH_HEX_LEN + 1) rest in
        if is_utf8 hex then
          if decide (hash_hex payload = hex) then
            match from_json payload with Some s => Ok s | None => Err V2Parse end
          else Err ChecksumMismatch
        else Err NonUtf8Checksum
  | None => match from_json bytes with Some s => Ok s | None => Err LegacyParse end
  end.

Lemma strip_prefix_app p b : strip_prefix p (p ++ b) = Some b.
Proof. induction p as [|x p IH]; [done|]. cbn. by rewrite Z.eqb_refl. Qed.

Lemma strip_prefix_Some p b r : strip_prefix p b = Some r -> b = p ++ r.
Proof.
  revert b. induction p as [|x p IH]; intros [|y b]; cbn; try congruence.
  destruct (Z.eqb_spec x y) as [->|]; [|done]. intros ?%IH. by subst.
Qed.

(** A v2 file decodes iff its digest is that of its payload and the payload
    parses. *)
Lemma decode_v2_file (h p : list Z) :
  length h = WAL_V2_HASH_HEX_LEN ->
  decode_segment (WAL_V2_MAGIC ++ h ++ [10] ++ p)
  = if is_utf8 h then
      if decide (hash_hex p = h) then
        match from_json p with Some s => Ok s | None => Err V2Parse end
      else Err ChecksumMismatch
    else Err NonUtf8Checksum.
Proof.
  intros Hh. unfold decode_segment. rewrite strip_prefix_app.
  assert (Hlen : Nat.ltb (length (h ++ [10] ++ p)) (WAL_V2_HASH_HEX_LEN + 1) = false)
    by (apply Nat.ltb_ge; rewrite !length_app, Hh; cbn; lia).
  assert (Hnl : (h ++ [10] ++ p) !! WAL_V2_HASH_HEX_LEN = Some 10)
    by (rewrite lookup_app_r by lia; by rewrite Hh).
  rewrite Hlen, bool_decide_true by done. cbn [orb negb].
  rewrite (take_app_length' h) by done.
  assert (Hd : drop (WAL_V2_HASH_HEX_LEN + 1) (h ++ [10] ++ p) = p).
  { rewrite (assoc_L (++)). apply drop_app_length'. rewrite length_app, Hh. done. }
  by rewrite Hd.
Qed.

Context `{LM : !CodecLaws M}.

Lemma decode_encode (s : WalSegment M) j :
  to_json s = Some j -> decode_segment (encode_segment_envelope j) = Ok s.
Proof.
  intros Hj. unfold encode_segment_envelope. rewrite decode_v2_file by apply hash_hex_length.
  rewrite hash_hex_utf8, decide_True by done. by rewrite (json_roundtrip s j Hj).
Qed.

(** A segment file is either what was written or detected as corrupt.
    Decoding the envelope of a segment returns the segment.  A file with the
    v2 magic decodes only if the digest in its header is the digest of its
    payload, and then gives that payload's segment: a file whose payload was
    changed or cut, with the header kept, is rejected unless the two payloads
    have the same digest, and one cut within the header is always rejected. *)
Theorem segment_envelope_integrity (s : WalSegment M) (j bytes : list Z) :
  to_json s = Some j ->
  decode_segment (encode_segment_envelope j) = Ok s
  /\ (forall rest s', bytes = WAL_V2_MAGIC ++ rest -> decode_segment bytes = Ok s' ->
        exists p, bytes = encode_segment_envelope p /\ from_json p = Some s')
  /\ (forall p, decode_segment (WAL_V2_MAGIC ++ hash_hex j ++ [10] ++ p) =
        if decide (hash_hex p = hash_hex j) then
          match from_json p with Some s => Ok s | None => Err V2Parse end
        else Err ChecksumMismatch)
  /\ (forall n, (8 <= n < 73)%nat ->
        decode_segment (take n (encode_segment_envelope j)) = Err TruncatedHeader).
Proof.
  intros Hj. split; [by apply decode_encode|]. split; [|split].
  - intros rest s' -> Hd. unfold decode_segment in Hd. rewrite strip_prefix_app in Hd.
    destruct (Nat.ltb_spec (length rest) (WAL_V2_HASH_HEX_LEN + 1)) as [|Hlen]; [done|]. cbn [orb] in Hd.
    case_bool_decide as Hnl; [|done]. cbn [negb] in Hd.
    destruct (is_utf8 _); [|done]. case_decide as Hh; [|done].
    exists (drop (WAL_V2_HASH_HEX_LEN + 1) rest). split; [|by case_match; simplify_eq].
    unfold encode_segment_envelope. rewrite Hh. f_equal.
    rewrite <- (take_drop WAL_V2_HASH_HEX_LEN rest) at 1. f_equal.
    replace (WAL_V2_HASH_HEX_LEN + 1)%nat with (S WAL_V2_HASH_HEX_LEN) by lia. by apply drop_S.
  - intros p. rewrite decode_v2_file by apply hash_hex_length. by rewrite hash_hex_utf8.
  - intros n Hn. unfold encode_segment_envelope.
    rewrite take_app_ge by (cbn; lia). unfold decode_segment. rewrite strip_prefix_app.
    change (length WAL_V2_MAGIC) with 8%nat.
    destruct (Nat.ltb_spec (length (take (n - 8) (hash_hex j ++ [10] ++ j))) (WAL_V2_HASH_HEX_LEN + 1)) as [|Hl]; [done|].
    rewrite length_take in Hl. unfold WAL_V2_HASH_HEX_LEN in Hl. lia.
Qed.
End envelope.

(** ** The log *)

Record WalState (M : Type) := mkState {
  buffer : list M;
  spans : list CommitSpan;
  written_announced : Z;
  next_lsn : Z;
  flushed_lsn : Z;
}.
Arguments mkState {M}.
Arguments buffer {M}.
Arguments spans {M}.
Arguments written_announced {M}.
Arguments next_lsn {M}.
Arguments flushed_lsn {M}.

(** The object store below the log's prefix, and what reading a file gives. *)
Abbreviation files := (gmap (list Z) (list Z)).
Inductive ReadResult := Bytes (b : list Z) | NotFound | ReadError.
Definition read_from (fs : files) (p : list Z) : ReadResult :=
  match fs !! p with Some b => Bytes b | None => NotFound end.

Inductive PutOutcome := PutOk | PutErr (landed : bool).
Inductive DeleteOutcome := DelOk | DelErr (gone : bool).
Inductive SyncOutcome := SyncOk | SyncErr (cleanup : DeleteOutcome).
Inductive WalError :=
| IoError | SerializeError | CorruptSegment (path : list Z) (reason : DecodeError) | FsyncFailed
| CleanupFailed (at_lsn : Z).

(** A batch taken out of the buffer while it is being written. *)
Record flight (M : Type) := mkFlight {
  f_batch : list M; f_spans : list CommitSpan; f_announced : Z; f_lsn : Z;
}.
Arguments mkFlight {M}.
Arguments f_batch {M}.
Arguments f_spans {M}.
Arguments f_announced {M}.
Arguments f_lsn {M}.

(** Paths compare as strings. *)
Definition path_le (a b : list Z) : Prop := memcmp a b <> Gt.
#[export] Instance path_le_dec : RelDecision path_le.
Proof. intros a b. unfold path_le. apply _. Defined.

Section log.
  Context {M : Type} `{CM : Codec M} `{HO : HashOrder}.
  Implicit Types s : WalState M.
  Implicit Types fs : files.

Definition new : WalState M := mkState [] [] 0 1 0.

Definition append s (m : M) : WalState M :=
  mkState (buffer s ++ [m]) (spans s) (written_announced s) (next_lsn s) (flushed_lsn s).

Definition append_commit s (ms : list M) : WalState M :=
  match ms with
  | [] => s
  | _ =>
      mkState (buffer s ++ ms) (spans s ++ [mkSpan (length (buffer s)) (length ms)])
        (written_announced s) (next_lsn s) (flushed_lsn s)
  end.

(** The listing of the log's files. *)
Definition list_files fs : list (list Z) := hash_order (map_to_list fs).*1.

Fixpoint find_max_lsn (read : list Z -> ReadResult) (paths : list (list Z)) (max_lsn : Z) : result WalError Z :=
  match paths with
  | [] => Ok max_lsn
  | p :: paths =>
      match parse_lsn_from_filename p with
      | Some lsn => find_max_lsn read paths (Z.max max_lsn lsn)
      | None =>
          match read p with
          | Bytes [] => find_max_lsn read paths max_lsn
          | Bytes b =>
              match decode_segment b with
              | Ok segment => find_max_lsn read paths (Z.max max_lsn (lsn segment))
              | Err _ => find_max_lsn read paths max_lsn
              end
          | NotFound | ReadError => Err IoError
          end
      end
  end.

Definition initialize fs s : WalState M * result WalError Z :=
  match find_max_lsn (read_from fs) (list_files fs) 0 with
  | Ok max_lsn => (mkState (buffer s) (spans s) (written_announced s) (max_lsn + 1) max_lsn, Ok max_lsn)
  | Err e => (s, Err e)
  end.

Definition ensure_lsn_above s (floor : Z) : WalState M :=
  mkState (buffer s) (spans s) (written_announced s) (Z.max (next_lsn s) (floor + 1))
    (Z.max (flushed_lsn s) floor).

(** Returns the raised mark and the state. *)
Definition restore_announced_mark s (announced lsn : Z) : Z * WalState M :=
  (Z.max announced lsn,
   mkState (buffer s) (spans s) (Z.max (written_announced s) lsn) (next_lsn s) (flushed_lsn s)).

Definition needs_seal s (announced : Z) : bool := written_announced s <? announced.

Definition shift_span (offset : nat) (span : CommitSpan) : CommitSpan := mkSpan (start span + offset) (len span).

Definition restore_unflushed s (batch : list M) (sp : list CommitSpan) : WalState M :=
  mkState (batch ++ buffer s) (sp ++ (shift_span (length batch) <$> spans s))
    (written_announced s) (next_lsn s) (flushed_lsn s).

(** *** Flushing *)

(** The first critical section of [flush_inner]: nothing to do, or a batch. *)
Definition flush_take (seal : bool) (announced : Z) s : WalState M * (Z + flight M) :=
  if bool_decide (buffer s = []) && negb (seal && (written_announced s <? announced))
  then (s, inl (flushed_lsn s))
  else (mkState [] [] (written_announced s) (next_lsn s + 1) (flushed_lsn s),
        inr (mkFlight (buffer s) (spans s) announced (next_lsn s))).

Definition flight_segment (features : list string) (f : flight M) : WalSegment M :=
  mkSegment (f_lsn f) (f_batch f) features (f_announced f) (f_spans f).

(** The rest: write the segment, on a local store sync it, then acknowledge;
    on a failure put the batch back, or delete what was written. *)
Definition flush_finish (local : bool) (features : list string) (uuid : list Z) (f : flight M)
    (po : PutOutcome) (so : SyncOutcome) fs s : files * WalState M * result WalError Z :=
  match to_json (flight_segment features f) with
  | None => (fs, restore_unflushed s (f_batch f) (f_spans f), Err SerializeError)
  | Some json =>
      let path := segment_filename (f_lsn f) uuid in
      let written := <[path := encode_segment_envelope json]> fs in
      match po with
      | PutErr landed =>
          (if landed then written else fs, restore_unflushed s (f_batch f) (f_spans f), Err IoError)
      | PutOk =>
          match (if local then so else SyncOk) with
          | SyncErr DelOk => (delete path written, s, Err FsyncFailed)
          | SyncErr (DelErr gone) => (if gone then delete path written else written, s, Err (CleanupFailed (f_lsn f)))
          | SyncOk =>
              (written,
               mkState (buffer s) (spans s) (Z.max (written_announced s) (f_announced f)) (next_lsn s) (f_lsn f),
               Ok (f_lsn f))
          end
      end
  end.

Definition flush_inner (local : bool) (features : list string) (seal : bool) (announced : Z) (uuid : list Z)
    (po : PutOutcome) (so : SyncOutcome) fs s : files * WalState M * result WalError Z :=
  match flush_take seal announced s with
  | (s, inl lsn) => (fs, s, Ok lsn)
  | (s, inr f) => flush_finish local features uuid f po so fs s
  end.

Definition flush local features := flush_inner local features false.
Definition seal local features := flush_inner local features true.

(** *** Recovery *)

Definition writer_enforces_endpoints (features : list string) : bool :=
  existsb (String.eqb "endpoint_enforcement") features.

(** The loop over the sorted paths. *)
Fixpoint replay_paths (read : list Z -> ReadResult) (high_water_mark : Z) (paths : list (list Z))
    (segments : list (WalSegment M)) (unmarked : nat) : result WalError (list (WalSegment M) * nat) :=
  match paths with
  | [] => Ok (segments, unmarked)
  | p :: rest =>
      match read p with
      | NotFound => replay_paths read high_water_mark rest segments unmarked
      | ReadError => Err IoError
      | Bytes bytes =>
          match (match bytes with [] => Err EmptyFile | _ => decode_segment bytes end) with
          | Ok segment =>
              if high_water_mark <? lsn segment then
                replay_paths read high_water_mark rest (segments ++ [segment])
                  (if writer_enforces_endpoints (writer_features segment) then unmarked else S unmarked)
              else replay_paths read high_water_mark rest segments unmarked
          | Err reason =>
              match rest with
              | [] => Ok (segments, unmarked)
              | _ => Err (CorruptSegment p reason)
              end
          end
      end
  end.

Definition above (high_water_mark : Z) (p : list Z) : Prop :=
  match parse_lsn_from_filename p with Some lsn => high_water_mark < lsn | None => True end.
#[export] Instance above_dec h p : Decision (above h p).
Proof. unfold above. destruct (parse_lsn_from_filename p); apply _. Defined.

Definition replay_segments_since fs (read : list Z -> ReadResult) (high_water_mark : Z) :
    result WalError (list (WalSegment M) * nat) :=
  replay_paths read high_water_mark
    (merge_sort path_le (filter (above high_water_mark) (list_files fs))) [] 0.

Definition replay_since_with_provenance fs read (high_water_mark : Z) : result WalError (list M * nat) :=
  let? (segments, unmarked) := replay_segments_since fs read high_water_mark in
  Ok (concat (mutations <$> segments), unmarked).

Definition replay_since fs read (high_water_mark : Z) : result WalError (list M) :=
  let? (ms, _) := replay_since_with_provenance fs read high_water_mark in Ok ms.

Definition replay fs read : result WalError (list M) := replay_since fs read 0.

(** *** Truncation *)

(** [delete_segment_if_present]: a missing file is a success; [broken] says
    which deletes fail. *)
Definition delete_segment_if_present (broken : list Z -> bool) fs (p : list Z) : files * result WalError bool :=
  match fs !! p with
  | None => (fs, Ok false)
  | Some _ => if broken p then (fs, Err IoError) else (delete p fs, Ok true)
  end.

Definition should_delete (read : list Z -> ReadResult) (high_water_mark : Z) (p : list Z) : result WalError bool :=
  match parse_lsn_from_filename p with
  | Some lsn => Ok (lsn <=? high_water_mark)
  | None =>
      match read p with
      | Bytes [] => Ok true
      | Bytes b => match decode_segment b with
                   | Ok segment => Ok (lsn segment <=? high_water_mark)
                   | Err _ => Ok false
                   end
      | NotFound | ReadError => Err IoError
      end
  end.

Definition truncate_step (broken : list Z -> bool) (read : list Z -> ReadResult) (high_water_mark : Z)
    fs (p : list Z) : files * result WalError unit :=
  match should_delete read high_water_mark p with
  | Err e => (fs, Err e)
  | Ok false => (fs, Ok tt)
  | Ok true =>
      let '(fs, r) := delete_segment_if_present broken fs p in
      (fs, match r with Ok _ => Ok tt | Err e => Err e end)
  end.

Definition truncate_before (broken : list Z -> bool) fs (high_water_mark : Z) : files * result WalError unit :=
  try_for (truncate_step broken (read_from fs) high_water_mark) fs (list_files fs).

Definition truncate (broken : list Z -> bool) fs : files * result WalError unit :=
  try_for (fun fs p => let '(fs, r) := delete_segment_if_present broken fs p in
                       (fs, match r with Ok _ => Ok tt | Err e => Err e end)) fs (list_files fs).

Definition has_segments fs : bool := negb (bool_decide (list_files fs = [])).
End log.
