(* ===== verification/WalRun.v ===== *)
(** * Runs of the write-ahead log

    The log of crates/uni-store/src/runtime/wal.rs under appends, flushes with
    every outcome of the store, truncations, crashes and reopens (the open
    sequence of [Writer::begin_wal_replay]).  At most one flush is in flight
    (the writer's [flush_lock]); appends may arrive while it is. *)

From S2P Require Import Prelude Wal.

(** ** Sorted directories *)

Lemma memcmp_le_trans a b c : memcmp a b <> Gt -> memcmp b c <> Gt -> memcmp a c <> Gt.
Proof.
  intros H1 H2. destruct (memcmp a b) eqn:E1; [apply memcmp_eq in E1; by subst| |done].
  destruct (memcmp b c) eqn:E2; [apply memcmp_eq in E2; subst; by rewrite E1| |done].
  by rewrite (memcmp_lt_trans a b c).
Qed.

#[export] Instance path_le_trans : Transitive path_le.
Proof. intros a b c. apply memcmp_le_trans. Qed.
#[export] Instance path_le_total : Total path_le.
Proof.
  intros a b. unfold path_le. rewrite (memcmp_opp a b). destruct (memcmp a b); cbn; auto; (left; done) || (right; done).
Qed.
#[export] Instance path_le_anti : AntiSymm (=) path_le.
Proof.
  intros a b. unfold path_le. rewrite (memcmp_opp a b). destruct (memcmp a b) eqn:E; cbn; try done.
  intros _ _. by apply memcmp_eq.
Qed.

(** A file of the log: its LSN, the random part of its name, its content. *)
Record item := mkItem { i_lsn : Z; i_uuid : list Z; i_bytes : list Z }.
Definition i_path (i : item) : list Z := segment_filename (i_lsn i) (i_uuid i).
#[global] Arguments i_path : simpl never.
Definition dir (l : list item) : files := list_to_map ((fun i => (i_path i, i_bytes i)) <$> l).
Definition lsn_lt (a b : item) : Prop := i_lsn a < i_lsn b.

Record wf_dir (l : list item) : Prop := {
  dir_u64 i : i ∈ l -> is_u64 (i_lsn i);
  dir_sorted : StronglySorted lsn_lt l;
}.

Lemma path_lt a b : is_u64 (i_lsn a) -> is_u64 (i_lsn b) -> lsn_lt a b -> memcmp (i_path a) (i_path b) = Lt.
Proof.
  intros Ha Hb Hlt. unfold i_path, segment_filename. rewrite memcmp_app by by rewrite !length_digits.
  rewrite memcmp_digits by by apply u64_digits. unfold lsn_lt in Hlt. by rewrite (proj2 (Z.compare_lt_iff _ _) Hlt).
Qed.

Lemma wf_dir_cons i l : wf_dir (i :: l) -> wf_dir l /\ is_u64 (i_lsn i) /\ Forall (lsn_lt i) l.
Proof.
  intros [H1 H2]. inversion_clear H2. split; [split; [|done]|split; [|done]].
  - intros j Hj. apply H1. by right.
  - apply H1. by left.
Qed.

Lemma dir_paths_sorted l : wf_dir l -> StronglySorted path_le (i_path <$> l) /\ NoDup (i_path <$> l).
Proof.
  induction l as [|i l IH]; intros Hwf; [split; constructor|]. pose proof (wf_dir_cons _ _ Hwf) as (Hl & Hi & Hlt).
  destruct (IH Hl) as [IH1 IH2].
  assert (Hcmp : forall j, j ∈ l -> memcmp (i_path i) (i_path j) = Lt).
  { intros j Hj. apply path_lt; [done|by apply Hl|]. rewrite Forall_forall in Hlt. by apply Hlt. }
  split; cbn; constructor; try done.
  - apply Forall_fmap, Forall_forall. intros j Hj. unfold compose, path_le. by rewrite Hcmp.
  - intros (j & Hp & Hj)%list_elem_of_fmap. specialize (Hcmp j Hj). rewrite Hp in Hcmp.
    assert (E := proj2 (memcmp_eq (i_path j) (i_path j)) eq_refl). congruence.
Qed.

Lemma wf_dir_filter (P : item -> Prop) `{forall i, Decision (P i)} l : wf_dir l -> wf_dir (filter P l).
Proof.
  induction l as [|i l IH]; intros Hwf; [done|]. pose proof (wf_dir_cons _ _ Hwf) as (Hl & Hi & Hlt).
  rewrite filter_cons. case_decide; [|by apply IH]. destruct (IH Hl) as [H1 H2]. split.
  - intros j [->|Hj]%elem_of_cons; [done|by apply H1].
  - constructor; [done|]. rewrite Forall_forall in *. intros j [_ Hj]%list_elem_of_filter. by apply Hlt.
Qed.

Lemma dir_lookup l i : wf_dir l -> i ∈ l -> dir l !! i_path i = Some (i_bytes i).
Proof.
  intros Hwf Hi. unfold dir. apply elem_of_list_to_map_1.
  - rewrite <- list_fmap_compose. apply (dir_paths_sorted l Hwf).
  - apply list_elem_of_fmap. by exists i.
Qed.

Lemma parse_path l i : wf_dir l -> i ∈ l -> parse_lsn_from_filename (i_path i) = Some (i_lsn i).
Proof. intros [Hu _] Hi. unfold i_path. rewrite parse_filename; [done|]. by apply Hu. Qed.

Section dirs.
  Context {M : Type} `{CM : Codec M} `{HO : HashOrder}.

Lemma list_files_dir l : wf_dir l -> list_files (dir l) ≡ₚ (i_path <$> l).
Proof.
  intros Hwf. unfold list_files, dir. rewrite hash_order_perm.
  rewrite map_to_list_to_map; [by rewrite <- list_fmap_compose|].
  rewrite <- list_fmap_compose. apply (dir_paths_sorted l Hwf).
Qed.

Lemma filter_paths (l : list item) (h : Z) :
  (forall i, i ∈ l -> is_u64 (i_lsn i)) ->
  filter (above h) (i_path <$> l) = i_path <$> filter (fun i => h < i_lsn i) l.
Proof.
  induction l as [|i l IH]; intros Hl; [done|]. cbn [fmap list_fmap]. rewrite !filter_cons.
  rewrite IH by (intros; apply Hl; by right).
  assert (Hi : above h (i_path i) <-> h < i_lsn i)
    by (unfold above, i_path; by rewrite parse_filename by (apply Hl; by left)).
  destruct (decide (h < i_lsn i)) as [?|Hn]; [rewrite decide_True by tauto|rewrite decide_False by tauto]; done.
Qed.

(** Sorting a listing by name gives the files in LSN order. *)
Lemma sorted_listing l h :
  wf_dir l ->
  merge_sort path_le (filter (above h) (list_files (dir l))) = i_path <$> filter (fun i => h < i_lsn i) l.
Proof.
  intros Hwf. pose proof (wf_dir_filter (fun i => h < i_lsn i) l Hwf) as Hf.
  apply (StronglySorted_unique path_le).
  - apply (StronglySorted_merge_sort path_le).
  - by apply dir_paths_sorted.
  - rewrite merge_sort_Permutation, (list_files_dir l Hwf). by rewrite filter_paths by apply Hwf.
Qed.

(** What recovery makes of the files of a directory, in LSN order. *)
Fixpoint replay_items (h : Z) (l : list item) (segments : list (WalSegment M)) (unmarked : nat) :
    result WalError (list (WalSegment M) * nat) :=
  match l with
  | [] => Ok (segments, unmarked)
  | i :: rest =>
      match (match i_bytes i with [] => Err EmptyFile | b => decode_segment b end) with
      | Ok segment =>
          if h <? lsn segment then
            replay_items h rest (segments ++ [segment])
              (if writer_enforces_endpoints (writer_features segment) then unmarked else S unmarked)
          else replay_items h rest segments unmarked
      | Err reason => match rest with [] => Ok (segments, unmarked) | _ => Err (CorruptSegment (i_path i) reason) end
      end
  end.

Lemma replay_dir l h :
  wf_dir l ->
  replay_segments_since (M := M) (dir l) (read_from (dir l)) h
  = replay_items h (filter (fun i => h < i_lsn i) l) [] 0.
Proof.
  intros Hwf. unfold replay_segments_since. rewrite sorted_listing by done.
  assert (Hin : forall i, i ∈ filter (fun i => h < i_lsn i) l -> dir l !! i_path i = Some (i_bytes i))
    by (intros i [_ Hi]%list_elem_of_filter; by apply dir_lookup).
  revert Hin. generalize (@nil (WalSegment M)), 0%nat. generalize (filter (fun i => h < i_lsn i) l).
  intros its. induction its as [|i its IH]; intros segs n Hin; [done|]. cbn [fmap list_fmap replay_paths replay_items].
  unfold read_from at 1. rewrite Hin by (by left).
  assert (IH' := fun segs n => IH segs n (fun j Hj => Hin j (list_elem_of_further _ _ _ Hj))).
  destruct (i_bytes i) as [|b bs]; [by destruct its|].
  destruct (decode_segment (b :: bs)) as [seg|e]; [|by destruct its]. destruct (h <? lsn seg); apply IH'.
Qed.

(** Files that hold the segments they are named after. *)
Definition holds (i : item) (s : WalSegment M) : Prop :=
  i_bytes i <> [] /\ decode_segment (i_bytes i) = Ok s /\ lsn s = i_lsn i.

Definition unmarked_count (segs : list (WalSegment M)) : nat :=
  length (filter (fun s => writer_enforces_endpoints (writer_features s) = false) segs).

Lemma replay_items_app h l segs : forall acc n rest,
  Forall2 holds l segs -> Forall (fun s => h < lsn s) segs ->
  replay_items h (l ++ rest) acc n = replay_items h rest (acc ++ segs) (n + unmarked_count segs)%nat.
Proof.
  intros acc n rest Hh. revert acc n. induction Hh as [|i s l segs (Hne & Hd & _) Hl IH]; intros acc n Hlt.
  { cbn. by rewrite app_nil_r, Nat.add_0_r. }
  apply Forall_cons in Hlt as [Hs Hlt]. cbn [app replay_items].
  destruct (i_bytes i) as [|b bs]; [done|]. rewrite Hd. rewrite (proj2 (Z.ltb_lt h (lsn s)) Hs).
  rewrite IH by done. rewrite <- (assoc_L (++)). f_equal. unfold unmarked_count. rewrite filter_cons.
  destruct (writer_enforces_endpoints (writer_features s));
    [rewrite decide_False by done|rewrite decide_True by done]; cbn [length]; lia.
Qed.

Lemma holds_filter l segs h :
  Forall2 holds l segs ->
  Forall2 holds (filter (fun i => h < i_lsn i) l) (filter (fun s => h < lsn s) segs)
  /\ Forall (fun s => h < lsn s) (filter (fun s => h < lsn s) segs).
Proof.
  intros Hh. split.
  - induction Hh as [|i s l segs Hi Hl IH]; [constructor|]. rewrite !filter_cons.
    assert (He : lsn s = i_lsn i) by apply Hi. rewrite He. case_decide; [by constructor|done].
  - apply Forall_forall. intros s Hs%list_elem_of_filter. apply Hs.
Qed.

(** Recovery of an intact directory returns its segments above the mark. *)
Lemma replay_intact l segs h :
  wf_dir l -> Forall2 holds l segs ->
  replay_segments_since (M := M) (dir l) (read_from (dir l)) h
  = Ok (filter (fun s => h < lsn s) segs, unmarked_count (filter (fun s => h < lsn s) segs)).
Proof.
  intros Hwf Hh. rewrite replay_dir by done. destruct (holds_filter l segs h Hh) as [H1 H2].
  rewrite <- (app_nil_r (filter _ l)). by rewrite (replay_items_app h _ _ [] 0 [] H1 H2).
Qed.

Lemma find_max_dir l (m0 : Z) :
  wf_dir l -> exists m, find_max_lsn (M := M) (read_from (dir l)) (list_files (dir l)) m0 = Ok m
    /\ m0 <= m /\ (forall i, i ∈ l -> i_lsn i <= m) /\ (m = m0 \/ exists i, i ∈ l /\ i_lsn i = m).
Proof.
  intros Hwf.
  assert (Hp : forall paths m0, (forall p, p ∈ paths -> exists i, i ∈ l /\ p = i_path i) ->
    exists m, find_max_lsn (M := M) (read_from (dir l)) paths m0 = Ok m /\ m0 <= m
      /\ (forall i, i_path i ∈ paths -> i ∈ l -> i_lsn i <= m) /\ (m = m0 \/ exists i, i ∈ l /\ i_lsn i = m)).
  { induction paths as [|p paths IH]; intros m1 Hin; cbn [find_max_lsn].
    { exists m1. split; [done|]. split; [lia|]. split; [by intros i ?%not_elem_of_nil|by left]. }
    destruct (Hin p ltac:(by left)) as (i & Hi & ->).
    pose proof (parse_path l i Hwf Hi) as Hpi. rewrite Hpi. destruct (IH (Z.max m1 (i_lsn i))) as (m & -> & H1 & H2 & H3); [intros; apply Hin; by right|].
    exists m. split; [done|]. split; [lia|]. split.
    - intros j [Hj|Hj]%elem_of_cons Hjl; [|by apply H2].
      pose proof (parse_path l j Hwf Hjl) as Hpj. rewrite Hj, Hpi in Hpj. injection Hpj as <-. lia.
    - destruct H3 as [->|H3]; [|by right]. destruct (Z.max_spec m1 (i_lsn i)) as [[_ ->]|[_ ->]]; [|by left].
      right. by exists i. }
  assert (Hf : forall p, p ∈ list_files (dir l) <-> exists i, i ∈ l /\ p = i_path i).
  { intros p. rewrite (list_files_dir l Hwf), list_elem_of_fmap. naive_solver. }
  destruct (Hp (list_files (dir l)) m0) as (m & H1 & H2 & H3 & H4); [intros p; apply Hf|].
  exists m. split; [done|]. split; [done|]. split; [|done]. intros i Hi. apply H3; [|done]. apply Hf. by exists i.
Qed.
End dirs.

(** *** Writing and deleting files *)

Lemma wf_dir_snoc l i :
  wf_dir l -> is_u64 (i_lsn i) -> (forall j, j ∈ l -> i_lsn j < i_lsn i) -> wf_dir (l ++ [i]).
Proof.
  intros [H1 H2] Hi Hlt. split.
  - intros j [Hj|Hj]%elem_of_app; [by apply H1|]. apply list_elem_of_singleton in Hj. by subst.
  - clear H1. induction H2 as [|j l Hs IH Hf]; cbn; [repeat constructor|]. constructor.
    + apply IH. intros k Hk. apply Hlt. by right.
    + apply Forall_app. split; [done|]. constructor; [|done]. apply Hlt. by left.
Qed.

Lemma path_fresh l i :
  wf_dir l -> is_u64 (i_lsn i) -> (forall j, j ∈ l -> i_lsn j <> i_lsn i) ->
  i_path i ∉ ((fun i => (i_path i, i_bytes i)) <$> l).*1.
Proof.
  intros Hwf Hi Hne. rewrite <- list_fmap_compose. intros (j & Hp & Hj)%list_elem_of_fmap. cbn in Hp.
  pose proof (parse_path l j Hwf Hj) as Hpj. unfold compose in Hp. cbn [fst] in Hp. rewrite <- Hp in Hpj.
  unfold i_path in Hpj. rewrite parse_filename in Hpj by done. injection Hpj as Heq. by apply (Hne j).
Qed.

Lemma dir_insert l i :
  wf_dir l -> is_u64 (i_lsn i) -> (forall j, j ∈ l -> i_lsn j < i_lsn i) ->
  <[i_path i := i_bytes i]> (dir l) = dir (l ++ [i]).
Proof.
  intros Hwf Hi Hlt. unfold dir. rewrite fmap_app. cbn [fmap list_fmap].
  symmetry. apply list_to_map_snoc. apply path_fresh; [done|done|]. intros j Hj. specialize (Hlt j Hj). lia.
Qed.

Lemma dir_lookup_fresh l i :
  wf_dir l -> is_u64 (i_lsn i) -> (forall j, j ∈ l -> i_lsn j <> i_lsn i) -> dir l !! i_path i = None.
Proof. intros Hwf Hi Hne. unfold dir. apply not_elem_of_list_to_map_1. by apply path_fresh. Qed.

Lemma dir_delete l i :
  wf_dir l -> i ∈ l -> delete (i_path i) (dir l) = dir (filter (fun j => i_lsn j <> i_lsn i) l).
Proof.
  intros Hwf Hi. set (P := fun j => i_lsn j <> i_lsn i).
  pose proof (wf_dir_filter P l Hwf) as Hwf'. apply map_eq. intros p. rewrite lookup_delete.
  destruct (decide (i_path i = p)) as [<-|Hne].
  - symmetry. apply dir_lookup_fresh; [done|by apply Hwf|]. intros j [Hj _]%list_elem_of_filter. exact Hj.
  - destruct (dir l !! p) as [b|] eqn:Hp.
    + unfold dir in Hp. apply elem_of_list_to_map_2, list_elem_of_fmap in Hp as (j & [= -> ->] & Hj).
      symmetry. apply dir_lookup; [done|]. apply list_elem_of_filter. split; [|done].
      intros Heq. apply Hne. pose proof (parse_path l i Hwf Hi) as E1.
      destruct (dir_paths_sorted l Hwf) as [_ Hnd].
      assert (i = j); [|congruence].
      clear - Hwf Hi Hj Heq. destruct Hwf as [_ Hs]. revert Hi Hj. induction Hs as [|k l Hs IH Hf]; [by intros ?%not_elem_of_nil|].
      rewrite Forall_forall in Hf. unfold lsn_lt in Hf.
      intros [->|Hi]%elem_of_cons [->|Hj]%elem_of_cons; [done| | |by apply IH].
      * specialize (Hf j Hj). lia.
      * specialize (Hf i Hi). lia.
    + symmetry. destruct (dir (filter P l) !! p) as [b|] eqn:Hp'; [|done].
      unfold dir in Hp'. apply elem_of_list_to_map_2, list_elem_of_fmap in Hp' as (j & [= -> ->] & [_ Hj]%list_elem_of_filter).
      by rewrite (dir_lookup l j Hwf Hj) in Hp.
Qed.

Section truncation.
  Context {M : Type} `{CM : Codec M} `{HO : HashOrder}.

Lemma truncate_step_dir broken read h l i :
  wf_dir l -> is_u64 (i_lsn i) ->
  exists P : item -> bool, (forall j, h < i_lsn j -> P j = true)
    /\ (truncate_step (M := M) broken read h (dir l) (i_path i)).1 = dir (filter (fun j => P j = true) l).
Proof.
  intros Hwf Hi. assert (Hid : dir l = dir (filter (fun j => true = true) l)).
  { by rewrite filter_keep. }
  unfold truncate_step, should_delete, i_path at 1. rewrite parse_filename by done. fold (i_path i).
  destruct (Z.leb_spec (i_lsn i) h) as [Hle|Hgt]; [|by exists (fun _ => true)].
  unfold delete_segment_if_present. destruct (dir l !! i_path i) as [b|] eqn:Hb; [|by exists (fun _ => true)].
  destruct (broken (i_path i)); [by exists (fun _ => true)|].
  unfold dir in Hb. apply elem_of_list_to_map_2, list_elem_of_fmap in Hb as (j & Hpb & Hj).
  apply pair_eq in Hpb as [Hp ->].
  exists (fun k => negb (i_lsn k =? i_lsn j)). split.
  - intros k Hk. pose proof (parse_path l j Hwf Hj) as Hpj. rewrite <- Hp in Hpj. unfold i_path in Hpj.
    rewrite parse_filename in Hpj by done. injection Hpj as Heq.
    destruct (Z.eqb_spec (i_lsn k) (i_lsn j)); [lia|done].
  - cbn [fst]. rewrite Hp, dir_delete by done. f_equal. apply list_filter_iff. intros k.
    destruct (Z.eqb_spec (i_lsn k) (i_lsn j)); cbn; naive_solver.
Qed.

Lemma truncate_dir broken read h (paths : list (list Z)) : forall l,
  wf_dir l -> (forall p, p ∈ paths -> exists i, is_u64 (i_lsn i) /\ p = i_path i) ->
  exists P : item -> bool, (forall j, h < i_lsn j -> P j = true)
    /\ (try_for (truncate_step (M := M) broken read h) (dir l) paths).1 = dir (filter (fun j => P j = true) l).
Proof.
  induction paths as [|p paths IH]; intros l Hwf Hp; cbn [try_for].
  { exists (fun _ => true). split; [done|]. cbn [fst]. by rewrite filter_keep. }
  destruct (Hp p ltac:(by left)) as (i & Hi & ->).
  destruct (truncate_step_dir broken read h l i Hwf Hi) as (P & HP & Hd).
  destruct (truncate_step broken read h (dir l) (i_path i)) as [fs [[]|e]]; cbn [fst] in Hd; subst fs; [|by exists P].
  destruct (IH (filter (fun j => P j = true) l)) as (Q & HQ & ->); [by apply wf_dir_filter|intros; apply Hp; by right|].
  exists (fun j => P j && Q j). split; [intros j Hj; by rewrite HP, HQ|]. f_equal. rewrite list_filter_filter.
  apply list_filter_iff. intros j. rewrite andb_true_iff. tauto.
Qed.
End truncation.

(** ** The system *)

(** Opening the log, [Writer::begin_wal_replay] (the remapping of schemaless
    edge types left out): the log's state, the announced mark and the segments
    to apply. *)
Definition begin_wal_replay {M} `{Codec M} `{HashOrder} (fs : files) (high_water_mark : Z) :
    result WalError (WalState M * Z * list (WalSegment M) * nat) :=
  match initialize fs new with
  | (_, Err e) => Err e
  | (s, Ok _) =>
      let s := ensure_lsn_above s high_water_mark in
      let? (segments, unmarked) := replay_segments_since fs (read_from fs) high_water_mark in
      let announced_through := foldl Z.max high_water_mark (announced_through <$> segments) in
      let '(announced, s) := restore_announced_mark s 0 announced_through in
      Ok (s, announced, segments, unmarked)
  end.

(** The running log, the announced mark, the files, the flush in flight and
    the highest mark published by a truncating flush ([floor]).  The rest is
    for the statements: the acknowledged segments, every segment a flush tried
    to write, and of this process the flushes that ended (with whether they
    were acknowledged) and what was appended. *)
Record sys (M : Type) := mkSys {
  w : WalState M;
  mark : Z;
  fs : files;
  fl : option (flight M);
  floor : Z;
  acked : list (WalSegment M);
  written : list (WalSegment M);
  ended : list (flight M * bool);
  appended : list M;
  made : list (list M);
}.
Arguments mkSys {M}.
Arguments w {M}.
Arguments mark {M}.
Arguments fs {M}.
Arguments fl {M}.
Arguments floor {M}.
Arguments acked {M}.
Arguments written {M}.
Arguments ended {M}.
Arguments appended {M}.
Arguments made {M}.

Section runs.
  Context {M : Type} `{CM : Codec M} `{HO : HashOrder}.
  Context (local : bool) (features : list string).
  Implicit Types s : sys M.

Definition initial : sys M := mkSys new 0 ∅ None 0 [] [] [] [] [].

(** The files a crash leaves: a write in flight may have reached the store. *)
Definition crashed s (landed : bool) (uuid : list Z) : files :=
  match landed, fl s with
  | true, Some f =>
      match to_json (flight_segment features f) with
      | Some json => <[segment_filename (f_lsn f) uuid := encode_segment_envelope json]> (fs s)
      | None => fs s
      end
  | _, _ => fs s
  end.

Definition in_flight s : list (WalSegment M) :=
  match fl s with Some f => [flight_segment features f] | None => [] end.

(** A flush that ends with these errors has put its batch back. *)
Definition restored (r : result WalError Z) : bool :=
  match r with Err IoError | Err SerializeError => true | _ => false end.

Inductive step : sys M -> sys M -> Prop :=
| step_append s m :
    step s (mkSys (append (w s) m) (mark s) (fs s) (fl s) (floor s) (acked s) (written s) (ended s)
              (appended s ++ [m]) (made s))
| step_append_commit s ms :
    ms <> [] ->
    step s (mkSys (append_commit (w s) ms) (mark s) (fs s) (fl s) (floor s) (acked s) (written s) (ended s)
              (appended s ++ ms) (made s ++ [ms]))
| step_announce s l :
    step s (mkSys (w s) (Z.max (mark s) l) (fs s) (fl s) (floor s) (acked s) (written s) (ended s)
              (appended s) (made s))
| step_take s seal w' f :
    fl s = None -> next_lsn (w s) < 2 ^ 64 -> flush_take seal (mark s) (w s) = (w', inr f) ->
    step s (mkSys w' (mark s) (fs s) (Some f) (floor s) (acked s) (written s) (ended s) (appended s) (made s))
| step_finish s f uuid po so fs' w' r :
    fl s = Some f -> flush_finish local features uuid f po so (fs s) (w s) = (fs', w', r) ->
    step s (mkSys w' (mark s) fs' None (floor s)
              (acked s ++ if is_ok r then [flight_segment features f] else [])
              (written s ++ [flight_segment features f])
              (ended s ++ if restored r then [] else [(f, is_ok r)]) (appended s) (made s))
| step_truncate s broken h :
    h <= flushed_lsn (w s) ->
    step s (mkSys (w s) (mark s) (truncate_before (M := M) broken (fs s) h).1 (fl s) (Z.max (floor s) h) (acked s)
              (written s) (ended s) (appended s) (made s))
| step_crash s landed uuid w' mark' segs n :
    begin_wal_replay (crashed s landed uuid) (floor s) = Ok (w', mark', segs, n) ->
    step s (mkSys w' mark' (crashed s landed uuid) None (floor s) (acked s) (written s ++ in_flight s) [] [] []).

Inductive reachable : sys M -> Prop :=
| reach_init : reachable initial
| reach_step s s' : reachable s -> step s s' -> reachable s'.

(** Every file has an LSN below this. *)
Definition bound s : Z := match fl s with Some f => f_lsn f | None => next_lsn (w s) end.

Record disk_inv s (l : list item) : Prop := {
  disk_dir : fs s = dir l;
  disk_wf : wf_dir l;
  disk_holds i : i ∈ l -> exists seg, holds i seg /\ seg ∈ written s;
  disk_bound i : i ∈ l -> i_lsn i < bound s;
  disk_acked seg : seg ∈ acked s -> floor s < lsn seg -> exists i, i ∈ l /\ holds i seg;
}.

Record lsn_inv s : Prop := {
  lsn_floor : 0 <= floor s <= flushed_lsn (w s);
  lsn_flushed : flushed_lsn (w s) < bound s;
  lsn_flight f : fl s = Some f -> f_lsn f < next_lsn (w s) /\ is_u64 (f_lsn f);
}.

Definition flight_item (f : flight M) (uuid json : list Z) : item := mkItem (f_lsn f) uuid (encode_segment_envelope json).

Context `{LM : !CodecLaws M}.

(** A written file holds its segment. *)
Lemma flight_holds f uuid json :
  to_json (flight_segment features f) = Some json ->
  holds (mkItem (f_lsn f) uuid (encode_segment_envelope json)) (flight_segment features f).
Proof. intros Hj. split; [done|]. split; [by apply decode_encode|done]. Qed.

Lemma write_flight s l f uuid json :
  disk_inv s l -> lsn_inv s -> fl s = Some f -> to_json (flight_segment features f) = Some json ->
  <[segment_filename (f_lsn f) uuid := encode_segment_envelope json]> (fs s) = dir (l ++ [flight_item f uuid json])
  /\ wf_dir (l ++ [flight_item f uuid json])
  /\ delete (segment_filename (f_lsn f) uuid)
       (<[segment_filename (f_lsn f) uuid := encode_segment_envelope json]> (fs s)) = dir l.
Proof.
  intros Hd Hl Hf Hj. destruct (lsn_flight _ Hl f Hf) as [_ Hu].
  assert (Hlt : forall j, j ∈ l -> i_lsn j < i_lsn (flight_item f uuid json)).
  { intros j Hj'. pose proof (disk_bound _ _ Hd j Hj') as Hb. unfold bound in Hb. by rewrite Hf in Hb. }
  rewrite (disk_dir _ _ Hd).
  change (segment_filename (f_lsn f) uuid) with (i_path (flight_item f uuid json)).
  change (encode_segment_envelope json) with (i_bytes (flight_item f uuid json)).
  split; [apply dir_insert; [apply Hd|done|done]|]. split; [apply wf_dir_snoc; [apply Hd|done|done]|].
  apply delete_insert_id. apply dir_lookup_fresh; [apply Hd|done|]. intros j Hj'. specialize (Hlt j Hj'). lia.
Qed.

Lemma choose_segments l (P : WalSegment M -> Prop) :
  (forall i, i ∈ l -> exists seg, holds i seg /\ P seg) -> exists segs, Forall2 holds l segs /\ Forall P segs.
Proof.
  induction l as [|i l IH]; intros Hall; [by exists []|].
  destruct (Hall i ltac:(by left)) as (seg & Hs & Hp). destruct IH as (segs & H1 & H2); [intros; apply Hall; by right|].
  exists (seg :: segs). by split; constructor.
Qed.

Lemma holds_inj i seg seg' : holds i seg -> holds i seg' -> seg = seg'.
Proof. intros (_ & H1 & _) (_ & H2 & _). congruence. Qed.

(** The files after a crash. *)
Lemma crashed_dir s l landed uuid :
  disk_inv s l -> lsn_inv s ->
  exists l', crashed s landed uuid = dir l' /\ wf_dir l' /\ (forall i, i ∈ l -> i ∈ l')
    /\ forall i, i ∈ l' -> exists seg, holds i seg /\ seg ∈ written s ++ in_flight s.
Proof.
  intros Hd Hl. unfold crashed.
  assert (Hw : forall i, i ∈ l -> exists seg, holds i seg /\ seg ∈ written s ++ in_flight s).
  { intros i Hi. destruct (disk_holds _ _ Hd i Hi) as (seg & H1 & H2). exists seg. split; [done|]. apply elem_of_app. by left. }
  assert (Hsame : exists l', fs s = dir l' /\ wf_dir l' /\ (forall i, i ∈ l -> i ∈ l')
    /\ forall i, i ∈ l' -> exists seg, holds i seg /\ seg ∈ written s ++ in_flight s).
  { exists l. split; [apply Hd|]. split; [apply Hd|done]. }
  destruct landed; [|done]. destruct (fl s) as [f|] eqn:Hf; [|done].
  destruct (to_json (flight_segment features f)) as [json|] eqn:Hj; [|done].
  destruct (write_flight s l f uuid json Hd Hl Hf Hj) as (He & Hwf & _).
  exists (l ++ [flight_item f uuid json]). split; [done|]. split; [done|]. split; [intros; apply elem_of_app; by left|].
  intros i [Hi|Hi]%elem_of_app; [by apply Hw|]. apply list_elem_of_singleton in Hi as ->.
  exists (flight_segment features f). split; [by apply flight_holds|].
  unfold in_flight. rewrite Hf. apply elem_of_app. right. by left.
Qed.

Lemma sorted_holds l segs :
  wf_dir l -> Forall2 holds l segs -> StronglySorted (fun a b => lsn a < lsn b) segs.
Proof.
  intros [_ Hs] Hh. induction Hh as [|i seg l segs (_ & _ & Hi) Hh IH]; [constructor|].
  inversion_clear Hs as [|? ? Hs' Hlt]. constructor; [by apply IH|]. clear IH Hs'.
  induction Hh as [|j seg' l segs (_ & _ & Hj) Hh IH]; constructor.
  - apply Forall_cons in Hlt as [Hlt _]. unfold lsn_lt in Hlt. lia.
  - apply IH. by apply Forall_cons in Hlt as [_ Hlt].
Qed.

Lemma filter_sorted {A} (R : A -> A -> Prop) (P : A -> Prop) `{forall a, Decision (P a)} (l : list A) :
  StronglySorted R l -> StronglySorted R (filter P l).
Proof.
  induction 1 as [|a l Hs IH Hf]; [constructor|]. rewrite filter_cons. case_decide; [|done].
  constructor; [done|]. rewrite Forall_forall in *. intros b [_ Hb]%list_elem_of_filter. by apply Hf.
Qed.

(** Opening an intact directory. *)
Lemma open_dir l segs (h : Z) :
  wf_dir l -> Forall2 holds l segs -> 0 <= h ->
  exists w' m n, begin_wal_replay (dir l) h = Ok (w', m, filter (fun seg => h < lsn seg) segs, n)
    /\ buffer w' = [] /\ spans w' = [] /\ (forall i, i ∈ l -> i_lsn i < next_lsn w')
    /\ h <= flushed_lsn w' < next_lsn w'.
Proof.
  intros Hwf Hh H0. unfold begin_wal_replay, initialize.
  destruct (find_max_dir (M := M) l 0 Hwf) as (m & -> & Hm & Hall & _).
  rewrite (replay_intact l segs h Hwf Hh). cbn. eexists _, _, _. split; [done|]. cbn.
  split; [done|]. split; [done|]. split; [|lia]. intros i Hi. specialize (Hall i Hi). lia.
Qed.

(** Recovery from a state that satisfies the invariant. *)
Lemma crash_opens s l landed uuid :
  disk_inv s l -> lsn_inv s ->
  exists l' w' m segs n,
    begin_wal_replay (crashed s landed uuid) (floor s) = Ok (w', m, segs, n)
    /\ crashed s landed uuid = dir l' /\ wf_dir l' /\ (forall i, i ∈ l -> i ∈ l')
    /\ (forall i, i ∈ l' -> exists seg, holds i seg /\ seg ∈ written s ++ in_flight s)
    /\ buffer w' = [] /\ spans w' = [] /\ (forall i, i ∈ l' -> i_lsn i < next_lsn w')
    /\ floor s <= flushed_lsn w' < next_lsn w'
    /\ StronglySorted (fun a b => lsn a < lsn b) segs
    /\ (forall seg, seg ∈ segs <-> floor s < lsn seg /\ exists i, i ∈ l' /\ holds i seg).
Proof.
  intros Hd Hl. destruct (crashed_dir s l landed uuid Hd Hl) as (l' & He & Hwf & Hsub & Hh).
  destruct (choose_segments l' _ Hh) as (segs & Hs & _).
  destruct (open_dir l' segs (floor s) Hwf Hs) as (w' & m & n & Hr & Hb & Hsp & Hn & Hf); [apply Hl|].
  exists l', w', m, (filter (fun seg => floor s < lsn seg) segs), n. rewrite He.
  repeat (split; [done|]). split; [apply filter_sorted; by apply (sorted_holds l')|].
  intros seg. rewrite list_elem_of_filter. split; (intros [H1 H2]; split; [done|]).
  - apply list_elem_of_lookup in H2 as (k & Hk). destruct (Forall2_lookup_r _ _ _ _ _ Hs Hk) as (i & Hi & Hhi).
    exists i. split; [|done]. by eapply list_elem_of_lookup_2.
  - destruct H2 as (i & Hi & Hhi). apply list_elem_of_lookup in Hi as (k & Hk).
    destruct (Forall2_lookup_l _ _ _ _ _ Hs Hk) as (seg' & Hk' & Hhi').
    rewrite (holds_inj _ _ _ Hhi Hhi'). by eapply list_elem_of_lookup_2.
Qed.

(** *** The invariant is preserved *)

Definition inv s : Prop := exists l, disk_inv s l /\ lsn_inv s.

Lemma wal_inv_initial : inv initial.
Proof.
  exists []. split; split; cbn; try done.
  - split; [by intros ? ?%not_elem_of_nil|constructor].
  - by intros ? ?%not_elem_of_nil.
  - by intros ? ?%not_elem_of_nil.
  - by intros ? ?%not_elem_of_nil.
Qed.

(** Steps that change neither the files nor the numbering. *)
Lemma inv_frame s s' :
  fs s' = fs s -> fl s' = fl s -> floor s' = floor s -> acked s' = acked s -> written s' = written s ->
  next_lsn (w s') = next_lsn (w s) -> flushed_lsn (w s') = flushed_lsn (w s) -> inv s -> inv s'.
Proof.
  intros E1 E2 E3 E4 E5 E6 E7 (l & [D1 D2 D3 D4 D5] & [L1 L2 L3]). exists l.
  assert (Eb : bound s' = bound s) by (unfold bound; by rewrite E2, E6).
  split; split; rewrite ?E1, ?E2, ?E3, ?E4, ?E5, ?E6, ?E7, ?Eb; done.
Qed.

Lemma inv_take s seal w' f :
  inv s -> fl s = None -> next_lsn (w s) < 2 ^ 64 -> flush_take seal (mark s) (w s) = (w', inr f) ->
  inv (mkSys w' (mark s) (fs s) (Some f) (floor s) (acked s) (written s) (ended s) (appended s) (made s)).
Proof.
  intros (l & [D1 D2 D3 D4 D5] & [L1 L2 L3]) Hfl Hn Ht. unfold flush_take in Ht.
  destruct (_ && _); [done|]. injection Ht as <- <-. unfold bound in *. rewrite Hfl in *.
  exists l. split; split; cbn; try done.
  intros f [= <-]. cbn. unfold is_u64. lia.
Qed.

Lemma inv_truncate s broken h :
  inv s -> h <= flushed_lsn (w s) ->
  inv (mkSys (w s) (mark s) (truncate_before (M := M) broken (fs s) h).1 (fl s) (Z.max (floor s) h) (acked s)
         (written s) (ended s) (appended s) (made s)).
Proof.
  intros (l & [D1 D2 D3 D4 D5] & [L1 L2 L3]) Hh. unfold truncate_before. rewrite D1.
  destruct (truncate_dir (M := M) broken (read_from (dir l)) h (list_files (dir l)) l D2) as (P & HP & ->).
  { intros p Hp. rewrite (list_files_dir l D2) in Hp. apply list_elem_of_fmap in Hp as (i & -> & Hi).
    exists i. split; [by apply D2|done]. }
  exists (filter (fun j => P j = true) l). split; split; cbn; try done; try lia.
  - by apply wf_dir_filter.
  - intros i [_ Hi]%list_elem_of_filter. by apply D3.
  - intros i [_ Hi]%list_elem_of_filter. by apply D4.
  - intros seg Ha Hlt. destruct (D5 seg Ha) as (i & Hi & Hhi); [lia|]. exists i. split; [|done].
    apply list_elem_of_filter. split; [|done]. apply HP. destruct Hhi as (_ & _ & <-). lia.
Qed.

(** What a finished flush leaves, on every outcome. *)
Lemma finish_cases s l f uuid po so fs' w' r :
  disk_inv s l -> lsn_inv s -> fl s = Some f ->
  flush_finish local features uuid f po so (fs s) (w s) = (fs', w', r) ->
  next_lsn w' = next_lsn (w s) /\ flushed_lsn w' = (if is_ok r then f_lsn f else flushed_lsn (w s))
  /\ ((fs' = dir l /\ is_ok r = false)
      \/ exists json, to_json (flight_segment features f) = Some json /\ fs' = dir (l ++ [flight_item f uuid json])).
Proof.
  intros Hd Hl Hf. unfold flush_finish. pose proof (disk_dir _ _ Hd) as He.
  destruct (to_json (flight_segment features f)) as [json|] eqn:Hj; [|intros Heq; simplify_eq; auto].
  destruct (write_flight s l f uuid json Hd Hl Hf Hj) as (Hw & _ & Hdel).
  revert Hw Hdel. generalize (<[segment_filename (f_lsn f) uuid:=encode_segment_envelope json]> (fs s)).
  generalize (segment_filename (f_lsn f) uuid). intros p wr Hw Hdel.
  destruct po as [|[|]]; [|intros Heq; simplify_eq; cbn; naive_solver..].
  destruct (if local then so else SyncOk) as [|[|[|]]];
    intros Heq; apply pair_eq in Heq as [[Hfs Hw']%pair_eq Hr]; subst fs' w' r; cbn [next_lsn flushed_lsn is_ok];
    (split; [done|split; [done|]]); rewrite ?Hdel; auto; right; by exists json.
Qed.

Lemma inv_finish s f uuid po so fs' w' r e a m :
  inv s -> fl s = Some f -> flush_finish local features uuid f po so (fs s) (w s) = (fs', w', r) ->
  inv (mkSys w' (mark s) fs' None (floor s) (acked s ++ if is_ok r then [flight_segment features f] else [])
         (written s ++ [flight_segment features f]) e a m).
Proof.
  intros (l & Hd & Hl) Hf Hr. destruct (finish_cases s l f uuid po so fs' w' r Hd Hl Hf Hr) as (Hn & Hfl & Hcase).
  clear Hr. destruct (lsn_flight _ Hl f Hf) as [Hlt Hu]. pose proof (lsn_flushed _ Hl) as Hb.
  pose proof (lsn_floor _ Hl) as Hfloor. unfold bound in Hb. rewrite Hf in Hb.
  assert (Hbl : forall i, i ∈ l -> i_lsn i < f_lsn f).
  { intros i Hi. pose proof (disk_bound _ _ Hd i Hi) as Hi'. unfold bound in Hi'. by rewrite Hf in Hi'. }
  assert (Hh : forall i, i ∈ l -> exists seg, holds i seg /\ seg ∈ written s ++ [flight_segment features f]).
  { intros i Hi. destruct (disk_holds _ _ Hd i Hi) as (seg & ? & ?). exists seg. split; [done|]. apply elem_of_app. by left. }
  destruct Hcase as [[-> Hok]|(json & Hj & ->)].
  - rewrite Hok in *. rewrite app_nil_r. exists l. split; split; cbn; unfold bound; cbn; try done; try apply Hd; try lia.
    intros i Hi. specialize (Hbl i Hi). lia.
  - destruct (write_flight s l f uuid json Hd Hl Hf Hj) as (_ & Hwf & _).
    exists (l ++ [flight_item f uuid json]).
    split; split; cbn; unfold bound; cbn; try done; try (destruct (is_ok r); lia).
    + intros i [Hi|Hi]%elem_of_app; [by apply Hh|]. apply list_elem_of_singleton in Hi as ->.
      exists (flight_segment features f). split; [by apply flight_holds|]. apply elem_of_app. right. by left.
    + intros i [Hi|Hi]%elem_of_app; [specialize (Hbl i Hi); lia|]. apply list_elem_of_singleton in Hi as ->. cbn. lia.
    + intros seg [Hs|Hs]%elem_of_app Hlt'.
      * destruct (disk_acked _ _ Hd seg Hs Hlt') as (i & Hi & ?). exists i. split; [|done]. apply elem_of_app. by left.
      * destruct (is_ok r); [|by apply not_elem_of_nil in Hs]. apply list_elem_of_singleton in Hs as ->.
        exists (flight_item f uuid json). split; [|by apply flight_holds]. apply elem_of_app. right. by left.
Qed.

Lemma inv_crash s landed uuid w' m segs n :
  inv s -> begin_wal_replay (crashed s landed uuid) (floor s) = Ok (w', m, segs, n) ->
  inv (mkSys w' m (crashed s landed uuid) None (floor s) (acked s) (written s ++ in_flight s) [] [] []).
Proof.
  intros (l & Hd & Hl) Hr.
  destruct (crash_opens s l landed uuid Hd Hl) as (l' & w'' & m' & segs' & n' & Hr' & Hdir & Hwf & Hsub & Hh & _ & _ & Hn & Hf & _).
  rewrite Hr in Hr'. injection Hr' as <- <- <- <-. exists l'. rewrite Hdir.
  pose proof (lsn_floor _ Hl). split; split; cbn; unfold bound; cbn; try done; try lia.
  intros seg Ha Hlt. destruct (disk_acked _ _ Hd seg Ha Hlt) as (i & Hi & ?). exists i. split; [by apply Hsub|done].
Qed.

Lemma wal_inv_step s s' : inv s -> step s s' -> inv s'.
Proof.
  intros Hi Hs. destruct Hs.
  - by apply (inv_frame s).
  - apply (inv_frame s); try done; by destruct ms.
  - by apply (inv_frame s).
  - by eapply inv_take.
  - by eapply inv_finish.
  - by apply inv_truncate.
  - by eapply inv_crash.
Qed.

Lemma inv_reachable s : reachable s -> inv s.
Proof. induction 1; [apply wal_inv_initial|by eapply wal_inv_step]. Qed.

(** C6: a crash at any point of any run of the log loses no acknowledged
    segment and invents none.  In every reachable state, and whether or not
    the write in flight reached the store, opening the log succeeds; the
    segments handed to recovery are those on disk above the truncation mark,
    in increasing LSN order: each acknowledged segment above the mark is among
    them, each of them is one a flush wrote or was writing, and the reopened
    log is empty and numbers its next segment above all of them and the mark. *)
Theorem wal_recovers_acknowledged s (landed : bool) (uuid : list Z) :
  reachable s ->
  exists w' mark' segs n,
    begin_wal_replay (crashed s landed uuid) (floor s) = Ok (w', mark', segs, n)
    /\ (forall seg, seg ∈ acked s -> floor s < lsn seg -> seg ∈ segs)
    /\ (forall seg, seg ∈ segs -> floor s < lsn seg < next_lsn w' /\ seg ∈ written s ++ in_flight s)
    /\ StronglySorted (fun a b => lsn a < lsn b) segs
    /\ floor s < next_lsn w' /\ buffer w' = [] /\ spans w' = [].
Proof.
  intros Hs%inv_reachable. destruct Hs as (l & Hd & Hl).
  destruct (crash_opens s l landed uuid Hd Hl) as (l' & w' & m & segs & n & Hr & _ & _ & Hsub & Hh & Hb & Hsp & Hn & Hf & Hsort & Hin).
  exists w', m, segs, n. split; [done|]. split; [|split; [|split; [done|split; [lia|done]]]].
  - intros seg Ha Hlt. apply Hin. split; [done|]. destruct (disk_acked _ _ Hd seg Ha Hlt) as (i & Hi & ?).
    exists i. split; [by apply Hsub|done].
  - intros seg [Hlt (i & Hi & Hhi)]%Hin. split.
    + destruct (Hhi) as (_ & _ & ->). specialize (Hn i Hi). destruct Hhi as (_ & _ & E). lia.
    + destruct (Hh i Hi) as (seg' & Hhi' & Hw). by rewrite (holds_inj _ _ _ Hhi Hhi').
Qed.

(** *** What was appended is what was written *)

(** The mutations a commit span covers. *)
Definition slice (ms : list M) (sp : CommitSpan) : list M := take (len sp) (drop (start sp) ms).
Definition span_ok (ms : list M) (sp : CommitSpan) : Prop := (start sp + len sp <= length ms)%nat.

Lemma slice_app_l a b sp : span_ok a sp -> slice (a ++ b) sp = slice a sp.
Proof.
  unfold span_ok, slice. intros H. rewrite drop_app_le by lia. apply take_app_le. rewrite length_drop. lia.
Qed.

Lemma slice_shift a b sp : slice (a ++ b) (shift_span (length a) sp) = slice b sp.
Proof. unfold slice. cbn. rewrite drop_app_ge by lia. do 2 f_equal. lia. Qed.

Lemma slices_app_l a b (sps : list CommitSpan) : Forall (span_ok a) sps -> slice (a ++ b) <$> sps = slice a <$> sps.
Proof. induction 1 as [|sp sps Hsp _ IH]; [done|]. cbn. by rewrite IH, slice_app_l. Qed.

Lemma slices_shift a b (sps : list CommitSpan) : slice (a ++ b) <$> (shift_span (length a) <$> sps) = slice b <$> sps.
Proof. induction sps as [|sp sps IH]; [done|]. by rewrite !fmap_cons, slice_shift, IH. Qed.

Lemma spans_ok_app a b (sps : list CommitSpan) : Forall (span_ok a) sps -> Forall (span_ok (a ++ b)) sps.
Proof. intros H. eapply Forall_impl; [exact H|]. unfold span_ok. intros sp. rewrite length_app. lia. Qed.

Lemma spans_ok_shift a b (sps : list CommitSpan) : Forall (span_ok b) sps -> Forall (span_ok (a ++ b)) (shift_span (length a) <$> sps).
Proof. intros H. apply Forall_fmap. eapply Forall_impl; [exact H|]. unfold span_ok, compose. intros sp. cbn. rewrite length_app. lia. Qed.

(** The flushes that ended and the one in flight, in order. *)
Definition flights s : list (flight M) := (ended s).*1 ++ match fl s with Some f => [f] | None => [] end.
Definition flight_commits (f : flight M) : list (list M) := slice (f_batch f) <$> f_spans f.

Record log_inv s : Prop := {
  log_mutations : concat (f_batch <$> flights s) ++ buffer (w s) = appended s;
  log_commits : concat (flight_commits <$> flights s) ++ (slice (buffer (w s)) <$> spans (w s)) = made s;
  log_spans : Forall (span_ok (buffer (w s))) (spans (w s));
  log_flight f : fl s = Some f -> Forall (span_ok (f_batch f)) (f_spans f);
  log_sorted : StronglySorted (fun f g => f_lsn f < f_lsn g) (flights s);
  log_bound f : f ∈ flights s -> f_lsn f < next_lsn (w s);
  log_acked f : (f, true) ∈ ended s -> flight_segment features f ∈ acked s;
}.

Lemma flights_snoc (fs : list (flight M)) f :
  StronglySorted (fun f g => f_lsn f < f_lsn g) fs -> (forall g, g ∈ fs -> f_lsn g < f_lsn f) ->
  StronglySorted (fun f g => f_lsn f < f_lsn g) (fs ++ [f]).
Proof.
  induction 1 as [|g fs Hs IH Hf]; intros Hlt; cbn; [repeat constructor|]. constructor.
  - apply IH. intros h Hh. apply Hlt. by right.
  - apply Forall_app. split; [done|]. constructor; [|done]. apply Hlt. by left.
Qed.

Lemma log_append s ms w' mk :
  log_inv s -> buffer w' = buffer (w s) ++ ms -> next_lsn w' = next_lsn (w s) ->
  (spans w' = spans (w s) /\ mk = [] \/ spans w' = spans (w s) ++ [mkSpan (length (buffer (w s))) (length ms)] /\ mk = [ms]) ->
  log_inv (mkSys w' (mark s) (fs s) (fl s) (floor s) (acked s) (written s) (ended s) (appended s ++ ms) (made s ++ mk)).
Proof.
  intros [L1 L2 L3 L4 L5 L6 L7] Hb Hn Hsp. split; cbn; try done.
  - rewrite Hb, (assoc_L (++)). unfold flights in *. cbn. by rewrite L1.
  - rewrite Hb. unfold flights in *. cbn. destruct Hsp as [[-> ->]|[-> ->]].
    + by rewrite slices_app_l, app_nil_r.
    + rewrite (fmap_app (slice _)), slices_app_l by done. rewrite (assoc_L (++)), L2. f_equal. cbn. f_equal.
      unfold slice. cbn. by rewrite drop_app_length, take_ge by lia.
  - rewrite Hb. destruct Hsp as [[-> _]|[-> _]]; [by apply spans_ok_app|].
    apply Forall_app. split; [by apply spans_ok_app|]. constructor; [|done]. unfold span_ok. cbn. rewrite length_app. lia.
  - intros f Hf. rewrite Hn. by apply L6.
Qed.

Lemma log_take s seal w' f :
  log_inv s -> fl s = None -> flush_take seal (mark s) (w s) = (w', inr f) ->
  log_inv (mkSys w' (mark s) (fs s) (Some f) (floor s) (acked s) (written s) (ended s) (appended s) (made s)).
Proof.
  intros [L1 L2 L3 L4 L5 L6 L7] Hfl Ht. unfold flush_take in Ht.
  destruct (_ && _); [done|]. injection Ht as <- <-. unfold flights in *. rewrite Hfl, app_nil_r in *.
  split; unfold flights; cbn; try done.
  - by rewrite fmap_app, concat_app, app_nil_r; cbn; rewrite app_nil_r.
  - by rewrite fmap_app, concat_app, app_nil_r; cbn; rewrite app_nil_r.
  - by intros ? [= <-].
  - by apply flights_snoc.
  - intros f [Hf|Hf]%elem_of_app; [specialize (L6 f Hf); lia|]. apply list_elem_of_singleton in Hf as ->. cbn. lia.
Qed.

(** A finished flush: its batch is back in front of the buffer, or it ended. *)
Lemma finish_buffer (fs0 fs' : files) (f : flight M) uuid po so ws w' (r : result WalError Z) :
  flush_finish local features uuid f po so fs0 ws = (fs', w', r) ->
  next_lsn w' = next_lsn ws
  /\ if restored r
     then is_ok r = false /\ buffer w' = f_batch f ++ buffer ws
          /\ spans w' = f_spans f ++ (shift_span (length (f_batch f)) <$> spans ws)
     else buffer w' = buffer ws /\ spans w' = spans ws.
Proof.
  unfold flush_finish. destruct (to_json _) as [json|]; [|intros Heq; by simplify_eq].
  generalize (<[segment_filename (f_lsn f) uuid:=encode_segment_envelope json]> fs0).
  generalize (segment_filename (f_lsn f) uuid). intros p wr.
  destruct po as [|[|]]; [|intros Heq; by simplify_eq..].
  destruct (if local then so else SyncOk) as [|[|[|]]];
    intros Heq; apply pair_eq in Heq as [[Hfs Hw']%pair_eq Hr]; by subst fs' w' r.
Qed.

Lemma log_finish s f uuid po so fs' w' r wr :
  log_inv s -> fl s = Some f -> flush_finish local features uuid f po so (fs s) (w s) = (fs', w', r) ->
  log_inv (mkSys w' (mark s) fs' None (floor s) (acked s ++ if is_ok r then [flight_segment features f] else [])
             wr (ended s ++ if restored r then [] else [(f, is_ok r)]) (appended s) (made s)).
Proof.
  intros [L1 L2 L3 L4 L5 L6 L7] Hf Hr. apply finish_buffer in Hr as [Hn Hr].
  unfold flights in *. rewrite Hf in *. rewrite fmap_app, concat_app in L1. rewrite fmap_app, concat_app in L2.
  cbn in L1, L2. rewrite app_nil_r in L1. rewrite app_nil_r in L2.
  assert (Ha : forall g (x : list (WalSegment M)), (g, true) ∈ ended s -> flight_segment features g ∈ acked s ++ x)
    by (intros g x Hg; apply elem_of_app; left; by apply L7).
  destruct (restored r).
  - destruct Hr as (-> & Hb & Hsp). rewrite !app_nil_r. split; unfold flights; cbn; try done; rewrite ?app_nil_r, ?Hb, ?Hsp, ?Hn.
    + by rewrite (assoc_L (++)).
    + rewrite fmap_app, slices_app_l, slices_shift by by apply L4. by rewrite (assoc_L (++)).
    + apply Forall_app. split; [apply spans_ok_app; by apply L4|by apply spans_ok_shift].
    + clear - L5. induction (ended s).*1 as [|g gs IH]; [constructor|]. cbn in L5. inversion_clear L5 as [|? ? H1 H2].
      constructor; [by apply IH|]. by apply Forall_app in H2 as [H2 _].
    + intros g Hg. apply L6. apply elem_of_app. by left.
  - destruct Hr as (Hb & Hsp).
    assert (Hfl : (ended s ++ [(f, is_ok r)]).*1 = (ended s).*1 ++ [f]) by by rewrite fmap_app.
    split; unfold flights; cbn; try done; rewrite ?app_nil_r, ?Hb, ?Hsp, ?Hn, ?Hfl; try done.
    + by rewrite fmap_app, concat_app; cbn; rewrite app_nil_r.
    + by rewrite fmap_app, concat_app; cbn; rewrite app_nil_r.
    + intros g [Hg|Hg]%elem_of_app; [by apply Ha|]. apply list_elem_of_singleton in Hg. injection Hg as -> <-.
      apply elem_of_app. right. by left.
Qed.

Lemma log_reachable s : reachable s -> log_inv s.
Proof.
  induction 1 as [|s s' Hreach IH Hs].
  { by split; cbn; try done; try constructor; intros ? ?%not_elem_of_nil. }
  pose proof (inv_reachable s Hreach) as (l & Hd & Hl). clear Hreach. destruct Hs.
  - rewrite <- (app_nil_r (made s)). apply log_append; auto.
  - apply log_append; [done|by destruct ms..|]. right. by destruct ms.
  - by destruct IH as [L1 L2 L3 L4 L5 L6 L7].
  - by eapply log_take.
  - by eapply log_finish.
  - by destruct IH as [L1 L2 L3 L4 L5 L6 L7].
  - destruct (crash_opens s l landed uuid Hd Hl) as (_ & w'' & m' & segs' & n' & Hr' & _ & _ & _ & _ & Hb & Hsp & _).
    rewrite H in Hr'. injection Hr' as <- <- <- <-.
    split; unfold flights; cbn; try done; rewrite ?Hb, ?Hsp; try done; try constructor; by intros ? ?%not_elem_of_nil.
Qed.

(** Within a process the log neither loses, repeats nor reorders what was
    appended to it, and never splits a commit.  In every reachable state, the
    batches of the flushes that ended, of the one in flight and the buffer,
    one after the other, are exactly the mutations appended since the log was
    opened, in order; cut at their recorded commit spans (shifted when a failed
    flush puts its batch back in front of newer appends) they are exactly the
    commits, in order.  The flushes have increasing LSNs, and the segment of
    each one that was reported durable is acknowledged. *)
Theorem wal_keeps_order s :
  reachable s ->
  concat (f_batch <$> flights s) ++ buffer (w s) = appended s
  /\ concat (flight_commits <$> flights s) ++ (slice (buffer (w s)) <$> spans (w s)) = made s
  /\ StronglySorted (fun f g => f_lsn f < f_lsn g) (flights s)
  /\ (forall f, (f, true) ∈ ended s -> flight_segment features f ∈ acked s).
Proof. intros [L1 L2 _ _ L5 _ L7]%log_reachable. done. Qed.
End runs.
