(* ===== verification/WalFaults.v ===== *)
(** * Faults the write-ahead log does not contain

    Two sequences of crates/uni-store/src/runtime/wal.rs and the writer's open
    and commit paths whose outcome is not the one the code's comments promise:
    a torn tail segment that a later acknowledged commit turns into a refused
    recovery, and a commit reported as failed that a later commit makes
    durable. *)

From S2P Require Import Prelude Wal WalRun.

Section faults.
  Context {M : Type} `{CM : Codec M} `{HO : HashOrder} `{LM : !CodecLaws M}.
  Context (local : bool) (features : list string).

(** A file recovery cannot read, and why. *)
Definition torn (t : item) (reason : DecodeError) : Prop :=
  match i_bytes t with [] => Err EmptyFile | b => decode_segment (M := M) b end = Err reason.

(** A flush of a non-empty buffer that succeeds. *)
Lemma flush_ok l (ws : WalState M) announced uuid json :
  wf_dir l -> (forall i, i ∈ l -> i_lsn i < next_lsn ws) -> is_u64 (next_lsn ws) -> buffer ws <> [] ->
  to_json (mkSegment (next_lsn ws) (buffer ws) features announced (spans ws)) = Some json ->
  exists w', flush local features announced uuid PutOk SyncOk (dir l) ws
    = (dir (l ++ [mkItem (next_lsn ws) uuid (encode_segment_envelope json)]), w', Ok (next_lsn ws)).
Proof.
  intros Hwf Hlt Hu Hb Hj. unfold flush, flush_inner, flush_take. rewrite bool_decide_false by done. cbn [andb].
  unfold flush_finish, flight_segment. cbn [f_lsn f_batch f_announced f_spans]. rewrite Hj.
  set (i := mkItem (next_lsn ws) uuid (encode_segment_envelope json)).
  change (segment_filename (next_lsn ws) uuid) with (i_path i).
  change (encode_segment_envelope json) with (i_bytes i).
  rewrite (dir_insert l i) by done. eexists. by destruct local.
Qed.

Lemma flush_put_fails (fs : files) (ws : WalState M) announced uuid so json :
  buffer ws <> [] ->
  to_json (mkSegment (next_lsn ws) (buffer ws) features announced (spans ws)) = Some json ->
  flush local features announced uuid (PutErr false) so fs ws
  = (fs, mkState (buffer ws) (spans ws) (written_announced ws) (next_lsn ws + 1) (flushed_lsn ws), Err IoError).
Proof.
  intros Hb Hj. unfold flush, flush_inner, flush_take. rewrite bool_decide_false by done. cbn [andb].
  unfold flush_finish, flight_segment. cbn [f_lsn f_batch f_announced f_spans]. rewrite Hj.
  unfold restore_unflushed. cbn. by rewrite !app_nil_r.
Qed.

Lemma sorted_app_lt (l : list item) t i : StronglySorted lsn_lt (l ++ [t]) -> i ∈ l ++ [t] -> i_lsn i <= i_lsn t.
Proof.
  induction l as [|j l IH]; cbn; intros Hs Hi.
  - apply list_elem_of_singleton in Hi. subst. lia.
  - inversion_clear Hs as [|? ? Hs' Hf]. apply elem_of_cons in Hi as [->|Hi]; [|by apply IH].
    apply Forall_app in Hf as [_ [Hf _]%Forall_cons]. unfold lsn_lt in Hf. lia.
Qed.

Lemma filter_snoc {A} (P : A -> Prop) `{forall a, Decision (P a)} (l : list A) a :
  P a -> filter P (l ++ [a]) = filter P l ++ [a].
Proof. intros Ha. rewrite filter_app, filter_cons, decide_True by done. done. Qed.

(** Opening a directory whose last file is torn. *)
Lemma open_torn l segs t reason h :
  wf_dir (l ++ [t]) -> Forall2 holds l segs -> torn t reason -> 0 <= h < i_lsn t ->
  exists w' m n, begin_wal_replay (dir (l ++ [t])) h = Ok (w', m, filter (fun s => h < lsn s) segs, n)
    /\ next_lsn w' = i_lsn t + 1 /\ buffer w' = [] /\ spans w' = [].
Proof.
  intros Hwf Hh Ht Hlt. unfold begin_wal_replay, initialize.
  destruct (find_max_dir (M := M) (l ++ [t]) 0 Hwf) as (m & -> & Hm & Hall & Hex).
  assert (Hmt : m = i_lsn t).
  { specialize (Hall t ltac:(apply elem_of_app; right; by left)).
    destruct Hex as [->|(i & Hi & <-)]; [lia|]. pose proof (sorted_app_lt l t i (dir_sorted _ Hwf) Hi). lia. }
  rewrite (replay_dir _ h Hwf), filter_snoc by lia. destruct (holds_filter l segs h Hh) as [H1 H2].
  rewrite (replay_items_app h _ _ [] 0 [t] H1 H2). cbn [replay_items app]. rewrite Ht. cbn.
  eexists _, _, _. split; [done|]. cbn. split; [lia|done].
Qed.

(** A torn file with a later one makes recovery refuse to open the log. *)
Lemma torn_middle_refused l segs t i reason h :
  wf_dir ((l ++ [t]) ++ [i]) -> Forall2 holds l segs -> torn t reason -> 0 <= h < i_lsn t ->
  begin_wal_replay (dir ((l ++ [t]) ++ [i])) h = Err (CorruptSegment (i_path t) reason).
Proof.
  intros Hwf Hh Ht Hlt. unfold begin_wal_replay, initialize.
  destruct (find_max_dir (M := M) _ 0 Hwf) as (m & -> & _ & _).
  pose proof (sorted_app_lt _ _ t (dir_sorted _ Hwf) ltac:(rewrite !elem_of_app, list_elem_of_singleton; auto)) as Hti.
  rewrite (replay_dir _ h Hwf), !filter_snoc by lia. rewrite <- (assoc_L (++)).
  destruct (holds_filter l segs h Hh) as [H1 H2].
  rewrite (replay_items_app h _ _ [] 0 ([t] ++ [i]) H1 H2). cbn [replay_items app]. by rewrite Ht.
Qed.

(** A torn tail segment survives the recovery that tolerates it, and the
    first commit after it makes the log unreadable.  When the newest file of
    the log is torn (the process died while writing it), opening the log
    succeeds without it; but the file stays and the log numbers its next
    segment after it, so once a commit has been acknowledged, the next recovery
    from the same mark finds the torn file before an intact one and fails. *)
Theorem torn_tail_blocks_recovery l segs t reason h (ms : list M) uuid :
  wf_dir (l ++ [t]) -> Forall2 holds l segs -> torn t reason -> 0 <= h < i_lsn t -> i_lsn t + 1 < 2 ^ 64 ->
  ms <> [] ->
  exists w' m n,
    begin_wal_replay (dir (l ++ [t])) h = Ok (w', m, filter (fun s => h < lsn s) segs, n)
    /\ forall json, to_json (mkSegment (i_lsn t + 1) ms features m [mkSpan 0 (length ms)]) = Some json ->
       exists fs' w'',
         flush local features m uuid PutOk SyncOk (dir (l ++ [t])) (append_commit w' ms) = (fs', w'', Ok (i_lsn t + 1))
         /\ begin_wal_replay fs' h = Err (CorruptSegment (i_path t) reason).
Proof.
  intros Hwf Hh Ht Hlt Hmax Hms. destruct (open_torn l segs t reason h Hwf Hh Ht Hlt) as (w' & m & n & Hr & Hn & Hb & Hsp).
  exists w', m, n. split; [done|]. intros json Hj.
  assert (Hw : append_commit w' ms = mkState ms [mkSpan 0 (length ms)] (written_announced w') (i_lsn t + 1) (flushed_lsn w')).
  { unfold append_commit. destruct ms; [done|]. by rewrite Hb, Hsp, Hn. }
  rewrite Hw. assert (Hlast : forall i, i ∈ l ++ [t] -> i_lsn i < i_lsn t + 1).
  { intros i Hi. pose proof (sorted_app_lt l t i (dir_sorted _ Hwf) Hi). lia. }
  destruct (flush_ok (l ++ [t]) (mkState ms [mkSpan 0 (length ms)] (written_announced w') (i_lsn t + 1) (flushed_lsn w'))
    m uuid json) as (w'' & Hf); cbn; [done|done|unfold is_u64; lia|done|exact Hj|].
  cbn in Hf. eexists _, w''. split; [exact Hf|].
  apply (torn_middle_refused _ segs); try done. apply wf_dir_snoc; try done. cbn. unfold is_u64. lia.
Qed.

(** A commit whose flush failed is made durable by the next commit.  When
    the write of commit [a]'s segment fails with nothing stored, [flush]
    reports the error (so the transaction is reported as not committed) and
    leaves [a] in the buffer; when a later commit [b] is then appended and
    acknowledged, recovery returns a segment whose commits are [a] and [b]. *)
Theorem failed_commit_is_recovered l segs (ws : WalState M) (a b : list M) m uuid uuid' so h json json' :
  wf_dir l -> Forall2 holds l segs -> buffer ws = [] -> spans ws = [] ->
  (forall i, i ∈ l -> i_lsn i < next_lsn ws) -> 0 <= h < next_lsn ws -> next_lsn ws + 1 < 2 ^ 64 ->
  a <> [] -> b <> [] ->
  to_json (mkSegment (next_lsn ws) a features m [mkSpan 0 (length a)]) = Some json ->
  to_json (mkSegment (next_lsn ws + 1) (a ++ b) features m [mkSpan 0 (length a); mkSpan (length a) (length b)])
    = Some json' ->
  exists w1 fs' w2 w3 m' seg n,
    flush local features m uuid (PutErr false) so (dir l) (append_commit ws a) = (dir l, w1, Err IoError)
    /\ flush local features m uuid' PutOk SyncOk (dir l) (append_commit w1 b) = (fs', w2, Ok (next_lsn ws + 1))
    /\ begin_wal_replay fs' h = Ok (w3, m', filter (fun s => h < lsn s) segs ++ [seg], n)
    /\ slice (mutations seg) <$> commits seg = [a; b].
Proof.
  intros Hwf Hh Hb Hsp Hlt H0 Hmax Ha Hbne Hj Hj'.
  assert (Hw : append_commit ws a = mkState a [mkSpan 0 (length a)] (written_announced ws) (next_lsn ws) (flushed_lsn ws)).
  { unfold append_commit. destruct a; [done|]. by rewrite Hb, Hsp. }
  rewrite Hw, (flush_put_fails _ _ _ _ _ json) by done. cbn [buffer spans written_announced next_lsn flushed_lsn].
  set (w1 := mkState a [mkSpan 0 (length a)] (written_announced ws) (next_lsn ws + 1) (flushed_lsn ws)). exists w1.
  assert (Hw1 : append_commit w1 b = mkState (a ++ b) [mkSpan 0 (length a); mkSpan (length a) (length b)]
                  (written_announced ws) (next_lsn ws + 1) (flushed_lsn ws)) by (by destruct b).
  set (seg := mkSegment (next_lsn ws + 1) (a ++ b) features m [mkSpan 0 (length a); mkSpan (length a) (length b)]) in *.
  set (i := mkItem (next_lsn ws + 1) uuid' (encode_segment_envelope json')).
  assert (Hli : forall j, j ∈ l -> i_lsn j < next_lsn ws + 1) by (intros j Hj0; specialize (Hlt j Hj0); lia).
  assert (Hui : is_u64 (next_lsn ws + 1)) by (unfold is_u64; lia).
  edestruct (flush_ok l (append_commit w1 b) m uuid' json') as (w2 & Hf); rewrite ?Hw1; cbn; try done;
    [by destruct a|]. rewrite Hw1 in Hf. cbn in Hf. fold i in Hf.
  assert (Hwf' : wf_dir (l ++ [i])) by (by apply wf_dir_snoc).
  assert (Hh' : Forall2 holds (l ++ [i]) (segs ++ [seg])).
  { apply Forall2_app; [done|]. constructor; [|done]. split; [done|]. split; [by apply decode_encode|done]. }
  destruct (open_dir (l ++ [i]) _ h Hwf' Hh') as (w3 & m' & n & Hr & _); [lia|].
  rewrite filter_snoc in Hr by (cbn; lia).
  exists (dir (l ++ [i])), w2, w3, m', seg, n. split; [done|]. split; [exact Hf|]. split; [exact Hr|].
  unfold seg, slice. cbn. by rewrite drop_0, drop_app_length, take_app_length, take_ge by lia.
Qed.
End faults.
