(* ===== verification/Publish.v ===== *)
(** * The publish sequencer

    crates/uni-store/src/runtime/publish_sequencer.rs.  Tickets are issued in
    commit order and completed in any order; announcements leave in ticket
    order.  The specification is a list of tickets, each pending or completed;
    the sequencer's state (counters, buffered completions, pending LSNs, the
    announced mark) and the announcements it has sent are functions of that
    list. *)

From S2P Require Import Prelude.

Section sequencer.
  (** An announcement. *)
  Context {A : Type}.

Record State := mkState {
  issued : nat;
  next : nat;
  ready : gmap nat (option A * Z);
  lsns : gmap nat Z;
  announced : Z;
  (** the announcements sent so far, with their tickets *)
  sent : list (nat * A);
}.

(** [PublishSequencer::with_announced_mark]. *)
Definition with_announced_mark (mark : Z) : State := mkState 0 0 ∅ ∅ mark [].

Definition issue_at (st : State) (lsn : Z) : State * nat :=
  let seq := issued st in
  let lsns' := if 0 <? lsn then <[seq := lsn]> (lsns st) else lsns st in
  (mkState (S seq) (next st) (ready st) lsns' (announced st) (sent st), seq).

Definition issue (st : State) : State * nat := issue_at st 0.

Definition announced_lsn (st : State) : Z := announced st.

Definition is_drained (st : State) : bool := (next st =? issued st)%nat.

(** [wait_released]'s test, [target] being [issued] when the wait began. *)
Definition released_upto (st : State) (target : nat) : bool := (target <=? next st)%nat.

(** The release loop of [complete]. *)
Fixpoint release (fuel : nat) (st : State) : State :=
  match fuel with
  | O => st
  | S fuel =>
      match ready st !! next st with
      | None => st
      | Some (entry, lsn) =>
          let sent' := match entry with
                       | Some announce => sent st ++ [(next st, announce)]
                       | None => sent st
                       end in
          let announced' := if 0 <? lsn then Z.max (announced st) lsn else announced st in
          release fuel (mkState (issued st) (S (next st)) (delete (next st) (ready st)) (lsns st)
                          announced' sent')
      end
  end.

(** Every iteration takes one entry out of [ready]. *)
Definition complete (st : State) (seq : nat) (announcement : option A) : State :=
  let lsn := default 0 (lsns st !! seq) in
  let ready' := <[seq := (announcement, lsn)]> (ready st) in
  release (S (size ready'))
    (mkState (issued st) (next st) ready' (delete seq (lsns st)) (announced st) (sent st)).

(** A held ticket and what it announces if dropped. *)
Record PublishTicket := mkTicket { seq : nat; abandoned : option A }.

Definition publish (st : State) (t : PublishTicket) (announce : A) : State :=
  complete st (seq t) (Some announce).
Definition on_abandon (t : PublishTicket) (announce : A) : PublishTicket :=
  mkTicket (seq t) (Some announce).
Definition drop_ticket (st : State) (t : PublishTicket) : State :=
  complete st (seq t) (abandoned t).

(** ** The specification *)

(** The history is a list of tickets: the LSN of each, and its announcement
    once completed. *)

(** The number of leading completed tickets. *)
Fixpoint prefix_done (h : list (Z * option (option A))) : nat :=
  match h with
  | (_, Some _) :: h => S (prefix_done h)
  | _ => O
  end.

(** What the first [n] tickets announce, in ticket order. *)
Definition announcements (h : list (Z * option (option A))) (n : nat) : list (nat * A) :=
  omap (fun x => match x with (i, (_, Some (Some a))) => Some (i, a) | _ => None end)
    (imap (fun i s => (i, s)) (take n h)).

(** The mark after the first [n] tickets are released. *)
Definition mark_after (mark : Z) (h : list (Z * option (option A))) (n : nat) : Z :=
  foldl (fun m s => if 0 <? s.1 then Z.max m s.1 else m) mark (take n h).

(** The sequencer's state when it has released [n] tickets of [h]. *)
Record repr (mark : Z) (h : list (Z * option (option A))) (n : nat) (st : State) : Prop := {
  repr_issued : issued st = length h;
  repr_next : next st = n;
  repr_ready i : ready st !! i =
    match h !! i with
    | Some (lsn, Some a) => if decide (n <= i)%nat then Some (a, lsn) else None
    | _ => None
    end;
  repr_lsns i : lsns st !! i =
    match h !! i with Some (lsn, None) => if 0 <? lsn then Some lsn else None | _ => None end;
  repr_announced : announced st = mark_after mark h n;
  repr_sent : sent st = announcements h n;
}.

Lemma prefix_done_lookup h i : (i < prefix_done h)%nat -> exists lsn a, h !! i = Some (lsn, Some a).
Proof.
  revert i. induction h as [|[lsn [a|]] h IH]; cbn; intros i Hi; try lia.
  destruct i as [|i]; [eauto|]. apply IH. lia.
Qed.

Lemma prefix_done_stop h : forall lsn a, h !! prefix_done h <> Some (lsn, Some a).
Proof. induction h as [|[l [b|]] h IH]; intros lsn a; cbn; [done|apply IH|congruence]. Qed.

Lemma prefix_done_le h : (prefix_done h <= length h)%nat.
Proof. induction h as [|[l [b|]] h IH]; cbn; lia. Qed.

Lemma announcements_S h n lsn a :
  h !! n = Some (lsn, Some a) ->
  announcements h (S n) = announcements h n ++ match a with Some x => [(n, x)] | None => [] end.
Proof.
  intros Hn. unfold announcements. rewrite (take_S_r _ _ _ Hn), imap_app, omap_app. f_equal. cbn.
  apply lookup_lt_Some in Hn. rewrite length_take, Nat.add_0_r, Nat.min_l by lia. by destruct a.
Qed.

Lemma mark_after_S mark h n lsn x :
  h !! n = Some (lsn, x) ->
  mark_after mark h (S n) = if 0 <? lsn then Z.max (mark_after mark h n) lsn else mark_after mark h n.
Proof. intros Hn. unfold mark_after. by rewrite (take_S_r _ _ _ Hn), foldl_app. Qed.

(** The release loop catches up with the completed prefix. *)
Lemma release_repr mark h st n fuel :
  repr mark h n st -> (n <= prefix_done h)%nat -> (size (ready st) < fuel)%nat ->
  repr mark h (prefix_done h) (release fuel st).
Proof.
  revert st n. induction fuel as [|fuel IH]; intros st n Hr Hn Hf; [lia|]. cbn.
  rewrite (repr_next _ _ _ _ Hr), (repr_ready _ _ _ _ Hr).
  destruct (decide (n < prefix_done h)%nat) as [Hlt|Hge].
  - destruct (prefix_done_lookup h n Hlt) as (lsn & a & Hln). rewrite Hln, decide_True by lia.
    apply (IH _ (S n)); [|lia|].
    + split; cbn.
      * apply Hr.
      * done.
      * intros i. rewrite lookup_delete, (repr_ready _ _ _ _ Hr).
        destruct (decide (n = i)) as [<-|Hne]; [by rewrite Hln, decide_False by lia|].
        destruct (h !! i) as [[l [b|]]|]; try done. destruct (decide (n <= i)%nat), (decide (S n <= i)%nat); done || lia.
      * apply Hr.
      * rewrite (mark_after_S _ _ _ _ _ Hln), (repr_announced _ _ _ _ Hr). done.
      * rewrite (announcements_S _ _ _ _ Hln), (repr_sent _ _ _ _ Hr). destruct a; [done|]. by rewrite app_nil_r.
    + cbn. rewrite map_size_delete_Some; [|rewrite (repr_ready _ _ _ _ Hr), Hln, decide_True by lia; by eexists].
      assert (size (ready st) <> 0)%nat; [|lia]. apply map_size_non_empty_iff.
      intros He. pose proof (repr_ready _ _ _ _ Hr n) as Hx. rewrite He, lookup_empty, Hln, decide_True in Hx by lia. done.
  - assert (n = prefix_done h) as -> by lia.
    pose proof (prefix_done_stop h) as Hstop. destruct (h !! prefix_done h) as [[l [b|]]|] eqn:E; [|exact Hr..].
    by destruct (Hstop l b).
Qed.

Lemma prefix_done_pending h i lsn :
  h !! i = Some (lsn, None) -> (prefix_done h <= i)%nat.
Proof.
  intros Hi. destruct (decide (i < prefix_done h)%nat) as [Hlt|]; [|lia].
  destruct (prefix_done_lookup h i Hlt) as (? & ? & ?). congruence.
Qed.

Lemma prefix_done_mono h i lsn a :
  (prefix_done h <= i)%nat -> (prefix_done h <= prefix_done (<[i := (lsn, Some a)]> h))%nat.
Proof.
  revert i. induction h as [|[l [b|]] h IH]; intros i Hi; cbn in *; [lia| |lia].
  destruct i as [|i]; [lia|]. cbn. apply le_n_S, IH. lia.
Qed.

(** The length of the completed prefix is the first ticket still pending. *)
Lemma prefix_done_spec h n :
  (n <= length h)%nat -> (forall i, (i < n)%nat -> exists lsn a, h !! i = Some (lsn, Some a)) ->
  (n <= prefix_done h)%nat.
Proof.
  revert n. induction h as [|[l [b|]] h IH]; intros n Hn Hall; cbn in *; [lia| |].
  - destruct n as [|n]; [lia|]. apply le_n_S, IH; [lia|]. intros i Hi. apply (Hall (S i)). lia.
  - destruct n as [|n]; [lia|]. destruct (Hall 0%nat ltac:(lia)) as (? & ? & [=]).
Qed.

Lemma complete_repr mark h st i lsn a :
  repr mark h (prefix_done h) st -> h !! i = Some (lsn, None) -> (0 <= lsn) ->
  let h' := <[i := (lsn, Some a)]> h in repr mark h' (prefix_done h') (complete st i a).
Proof.
  intros Hr Hi Hpos h'. pose proof (prefix_done_pending _ _ _ Hi) as Hle.
  pose proof (lookup_lt_Some _ _ _ Hi) as Hlt.
  assert (Hl : default 0 (lsns st !! i) = lsn).
  { rewrite (repr_lsns _ _ _ _ Hr), Hi. destruct (Z.ltb_spec 0 lsn); cbn; lia. }
  unfold complete. rewrite Hl. apply (release_repr mark h' _ (prefix_done h)).
  - assert (Ht : take (prefix_done h) h' = take (prefix_done h) h) by (unfold h'; by rewrite take_insert_ge).
    split; cbn.
    + rewrite (repr_issued _ _ _ _ Hr). unfold h'. by rewrite length_insert.
    + apply Hr.
    + intros j. rewrite lookup_insert. unfold h'. rewrite list_lookup_insert.
      destruct (decide (i = j)) as [<-|Hne].
      * by rewrite !decide_True by (done || lia).
      * rewrite (decide_False (P := i = j /\ _)) by tauto. apply Hr.
    + intros j. rewrite lookup_delete. unfold h'. rewrite list_lookup_insert.
      destruct (decide (i = j)) as [<-|Hne].
      * by rewrite decide_True by lia.
      * rewrite (decide_False (P := i = j /\ _)) by tauto. apply Hr.
    + rewrite (repr_announced _ _ _ _ Hr). unfold mark_after. by rewrite Ht.
    + rewrite (repr_sent _ _ _ _ Hr). unfold announcements. by rewrite Ht.
  - by apply prefix_done_mono.
  - cbn. lia.
Qed.

Lemma issue_repr mark h st lsn :
  repr mark h (prefix_done h) st ->
  repr mark (h ++ [(lsn, None)]) (prefix_done (h ++ [(lsn, None)])) (issue_at st lsn).1
  /\ (issue_at st lsn).2 = length h.
Proof.
  intros Hr. assert (Hp : prefix_done (h ++ [(lsn, None)]) = prefix_done h).
  { clear Hr. induction h as [|[l [b|]] h IH]; cbn; [done| |done]. by rewrite IH. }
  pose proof (prefix_done_le h) as Hle.
  assert (Ht : take (prefix_done h) (h ++ [(lsn, None)]) = take (prefix_done h) h) by (by apply take_app_le).
  split; [|apply Hr]. rewrite Hp. split; cbn.
  - rewrite (repr_issued _ _ _ _ Hr), length_app. cbn. lia.
  - apply Hr.
  - intros i. rewrite (repr_ready _ _ _ _ Hr). destruct (decide (i < length h)%nat) as [Hi|Hi].
    + by rewrite lookup_app_l.
    + rewrite lookup_ge_None_2 by lia. rewrite lookup_app_r by lia.
      by destruct (i - length h)%nat.
  - intros i. rewrite (repr_issued _ _ _ _ Hr). destruct (decide (i < length h)%nat) as [Hi|Hi].
    + rewrite lookup_app_l by done. rewrite <- (repr_lsns _ _ _ _ Hr).
      destruct (0 <? lsn); [|done]. by rewrite lookup_insert_ne by lia.
    + rewrite lookup_app_r by lia. assert (Hnone : lsns st !! i = None)
        by (rewrite (repr_lsns _ _ _ _ Hr), lookup_ge_None_2 by lia; done).
      destruct (decide (i = length h)) as [->|Hne].
      * rewrite Nat.sub_diag. cbn. destruct (0 <? lsn); [by rewrite lookup_insert_eq|done].
      * replace ([(lsn, None)] !! (i - length h)%nat) with (@None (Z * option (option A)))
          by (symmetry; apply lookup_ge_None_2; cbn; lia).
        destruct (0 <? lsn); [by rewrite lookup_insert_ne by done|done].
  - rewrite (repr_announced _ _ _ _ Hr). unfold mark_after. by rewrite Ht.
  - rewrite (repr_sent _ _ _ _ Hr). unfold announcements. by rewrite Ht.
Qed.

(** ** Runs *)

(** The sequencer, the tickets still held (with their abandon announcements)
    and the history. *)
Record sys := mkSys { st : State; held : gmap nat (option A); hist : list (Z * option (option A)) }.

Inductive step (mark : Z) : sys -> sys -> Prop :=
| step_issue s lsn st' n :
    0 <= lsn -> (0 < lsn -> mark < lsn /\ Forall (fun x => x.1 < lsn) (hist s)) ->
    issue_at (st s) lsn = (st', n) ->
    step mark s (mkSys st' (<[n := None]> (held s)) (hist s ++ [(lsn, None)]))
| step_on_abandon s i x a :
    held s !! i = Some x ->
    step mark s (mkSys (st s) (<[i := abandoned (on_abandon (mkTicket i x) a)]> (held s)) (hist s))
| step_publish s i x a lsn :
    held s !! i = Some x -> hist s !! i = Some (lsn, None) ->
    step mark s (mkSys (publish (st s) (mkTicket i x) a) (delete i (held s)) (<[i := (lsn, Some (Some a))]> (hist s)))
| step_drop s i x lsn :
    held s !! i = Some x -> hist s !! i = Some (lsn, None) ->
    step mark s (mkSys (drop_ticket (st s) (mkTicket i x)) (delete i (held s)) (<[i := (lsn, Some x)]> (hist s))).

Inductive reachable (mark : Z) : sys -> Prop :=
| reach_init : reachable mark (mkSys (with_announced_mark mark) ∅ [])
| reach_step s s' : reachable mark s -> step mark s s' -> reachable mark s'.

(** Positive LSNs grow along the history and lie above the initial mark. *)
Definition lsns_grow (mark : Z) (h : list (Z * option (option A))) : Prop :=
  (forall i l x, h !! i = Some (l, x) -> 0 <= l /\ (0 < l -> mark < l))
  /\ (forall i j l m x y, h !! i = Some (l, x) -> h !! j = Some (m, y) -> (i < j)%nat -> 0 < m -> l < m).

Record inv (mark : Z) (s : sys) : Prop := {
  inv_repr : repr mark (hist s) (prefix_done (hist s)) (st s);
  inv_held i : is_Some (held s !! i) <-> exists l, hist s !! i = Some (l, None);
  inv_grow : lsns_grow mark (hist s);
}.

Lemma grow_insert mark h i l x y :
  lsns_grow mark h -> h !! i = Some (l, x) -> lsns_grow mark (<[i := (l, y)]> h).
Proof.
  intros [H1 H2] Hi.
  assert (Hlook : forall j m z, <[i := (l, y)]> h !! j = Some (m, z) -> exists z', h !! j = Some (m, z')).
  { intros j m z. rewrite list_lookup_insert. case_decide as Hd; [|eauto]. destruct Hd as [<- _]. intros [= <- <-]. eauto. }
  split.
  - intros j m z Hj. destruct (Hlook _ _ _ Hj) as [z' Hj']. eauto.
  - intros j k m m' z z' Hj Hk. destruct (Hlook _ _ _ Hj) as [w Hj'], (Hlook _ _ _ Hk) as [w' Hk']. eauto.
Qed.

Lemma complete_inv mark s i x lsn a :
  inv mark s -> held s !! i = Some x -> hist s !! i = Some (lsn, None) ->
  inv mark (mkSys (complete (st s) i a) (delete i (held s)) (<[i := (lsn, Some a)]> (hist s))).
Proof.
  intros [Hr Hh Hg] Hx Hi. pose proof (lookup_lt_Some _ _ _ Hi). split; cbn.
  - apply (complete_repr mark _ _ _ _ _ Hr Hi). by apply (proj1 Hg i lsn None).
  - intros j. rewrite lookup_delete, list_lookup_insert. destruct (decide (i = j)) as [<-|Hne].
    + rewrite decide_True by lia. split; [by intros []|by intros [l [=]]].
    + rewrite decide_False by tauto. apply Hh.
  - by apply (grow_insert mark _ i lsn None).
Qed.

Lemma publish_step_inv mark s s' : inv mark s -> step mark s s' -> inv mark s'.
Proof.
  intros Hi Hs. inversion Hs as [? lsn st' n Hpos Hlsn He|? i x a Hx|? i x a lsn Hx Hn|? i x lsn Hx Hn]; subst;
    [| |by apply (complete_inv mark s i x)|by apply (complete_inv mark s i x)].
  - destruct Hi as [Hr Hh Hg]. destruct (issue_repr mark (hist s) (st s) lsn Hr) as [Hr' Hn].
    rewrite He in Hr', Hn. cbn in Hr', Hn. subst n. split; cbn.
    + done.
    + intros j. rewrite lookup_insert. destruct (decide (length (hist s) = j)) as [<-|Hne].
      * rewrite lookup_app_r, Nat.sub_diag by lia. cbn. split; eauto.
      * rewrite Hh. destruct (decide (j < length (hist s))%nat).
        -- by rewrite lookup_app_l.
        -- rewrite lookup_ge_None_2 by lia. rewrite (lookup_ge_None_2 (_ ++ _)) by (rewrite length_app; cbn; lia). done.
    + destruct Hg as [H1 H2]. split.
      * intros i l x [Hl|[_ Hl]]%lookup_app_Some; [by apply (H1 i l x)|].
        apply list_lookup_singleton_Some in Hl as [_ [= <- <-]]. split; [done|]. intros Hp. by apply Hlsn.
      * intros i j l m x y [Hl|[Hge Hl]]%lookup_app_Some [Hm|[Hge' Hm]]%lookup_app_Some Hij Hp.
        -- by apply (H2 i j l m x y).
        -- apply list_lookup_singleton_Some in Hm as [_ [= <- <-]]. destruct (Hlsn Hp) as [_ Hf].
           apply (Forall_lookup_1 _ _ _ _ Hf Hl).
        -- apply lookup_lt_Some in Hm. lia.
        -- apply lookup_lt_Some in Hl, Hm. cbn in *. lia.
  - destruct Hi as [Hr Hh Hg]. split; cbn; [done| |done].
    intros j. rewrite lookup_insert. case_decide as Hj; [|apply Hh]. subst. rewrite <- Hh, Hx. done.
Qed.

Lemma publish_reachable_inv mark s : reachable mark s -> inv mark s.
Proof.
  induction 1 as [|s s' Hr IH Hs]; [|by eapply publish_step_inv]. split; cbn.
  - split; cbn; try done; intros i; by rewrite lookup_empty, lookup_nil.
  - intros i. rewrite lookup_empty, lookup_nil. split; [by intros []|by intros [l [=]]].
  - split; intros *; by rewrite lookup_nil.
Qed.

Lemma announcements_sorted h n : StronglySorted lt (announcements h n).*1 /\ Forall (fun i => (i < n)%nat) (announcements h n).*1.
Proof.
  induction n as [|n [IHs IHf]].
  - unfold announcements. rewrite take_0. cbn. split; constructor.
  - destruct (h !! n) as [[l x]|] eqn:Hn.
    + unfold announcements in *. rewrite (take_S_r _ _ _ Hn), imap_app, omap_app, fmap_app. cbn.
      apply lookup_lt_Some in Hn. rewrite length_take, Nat.add_0_r, Nat.min_l by lia.
      set (L := (omap _ _).*1) in *. clearbody L.
      assert (Hf : Forall (fun i => (i < S n)%nat) L) by (eapply Forall_impl; [exact IHf|cbn; lia]).
      destruct x as [[a|]|]; cbn; rewrite ?app_nil_r; try done. split.
      * clear Hf Hn. induction IHs as [|k L Hs IH Hk]; cbn; [repeat constructor|].
        inversion IHf; subst. constructor; [by apply IH|]. apply Forall_app. split; [done|by constructor].
      * apply Forall_app. split; [done|]. constructor; [lia|constructor].
    + apply lookup_ge_None in Hn. unfold announcements in *. rewrite take_ge in * by lia.
      split; [done|]. eapply Forall_impl; [exact IHf|cbn; lia].
Qed.

Lemma mark_after_ge mark h n : mark <= mark_after mark h n.
Proof.
  unfold mark_after. generalize (take n h). intros l. revert mark.
  induction l as [|[x y] l IH]; intros mark; cbn; [lia|]. specialize (IH (if 0 <? x then Z.max mark x else mark)).
  destruct (0 <? x); lia.
Qed.

(** With growing LSNs the mark names exactly the released tickets. *)
Lemma mark_names_prefix mark h n i l x :
  lsns_grow mark h -> (n <= length h)%nat -> h !! i = Some (l, x) -> 0 < l ->
  l <= mark_after mark h n <-> (i < n)%nat.
Proof.
  intros [H1 H2] Hn Hi Hl. induction n as [|n IH].
  - unfold mark_after. rewrite take_0. cbn. destruct (H1 i l x Hi) as [_ Hm]. split; [|lia]. specialize (Hm Hl). lia.
  - destruct (lookup_lt_is_Some_2 h n ltac:(lia)) as [[m y] Hm]. rewrite (mark_after_S _ _ _ _ _ Hm).
    specialize (IH ltac:(lia)). destruct (lt_eq_lt_dec i n) as [[Hlt| ->]|Hgt].
    + split; [lia|]. intros _. apply IH in Hlt. destruct (0 <? m); lia.
    + rewrite Hi in Hm. injection Hm as <- <-. destruct (Z.ltb_spec 0 l); lia.
    + assert (m < l) by (by apply (H2 n i m l y x)).
      assert (~ l <= mark_after mark h n) by (rewrite IH; lia). destruct (0 <? m); lia.
Qed.

(** Announcements leave in commit order.  In every state a writer can
    reach by issuing tickets, setting abandon announcements, and publishing or
    dropping tickets in any order, the sequencer has released exactly the
    longest prefix of tickets that are all completed; it has sent exactly
    their announcements, in ticket order (a dropped ticket contributes its
    abandon announcement or nothing and never blocks the ones behind it); the
    release loop ends within its bound. *)
Theorem announcements_in_commit_order mark s :
  reachable mark s ->
  next (st s) = prefix_done (hist s)
  /\ sent (st s) = announcements (hist s) (prefix_done (hist s))
  /\ StronglySorted lt (sent (st s)).*1
  /\ (forall i, (i < next (st s))%nat -> held s !! i = None)
  /\ (is_drained (st s) = true <-> held s = ∅).
Proof.
  intros Hr. destruct (publish_reachable_inv _ _ Hr) as [Hrep Hheld _].
  assert (Hnone : forall i, (i < prefix_done (hist s))%nat -> held s !! i = None).
  { intros i Hi. destruct (held s !! i) eqn:E; [|done]. destruct (proj1 (Hheld i) ltac:(by eexists)) as [l Hl].
    apply prefix_done_pending in Hl. lia. }
  rewrite (repr_next _ _ _ _ Hrep), (repr_sent _ _ _ _ Hrep). split; [done|]. split; [done|].
  split; [apply announcements_sorted|]. split; [done|].
  unfold is_drained. rewrite (repr_next _ _ _ _ Hrep), (repr_issued _ _ _ _ Hrep), Nat.eqb_eq. split.
  - intros Heq. apply map_eq. intros i. rewrite lookup_empty. destruct (held s !! i) eqn:E; [|done].
    destruct (proj1 (Hheld i) ltac:(by eexists)) as [l Hl]. pose proof (prefix_done_pending _ _ _ Hl).
    apply lookup_lt_Some in Hl. lia.
  - intros He. apply Nat.le_antisymm; [apply prefix_done_le|]. apply prefix_done_spec; [done|].
    intros i Hi. destruct (lookup_lt_is_Some_2 _ _ Hi) as [[l [a|]] Hl]; [eauto|].
    exfalso. destruct (proj2 (Hheld i) ltac:(eauto)) as [y Hy]. by rewrite He, lookup_empty in Hy.
Qed.

(** The announced mark names a prefix.  The mark never exceeds an LSN
    whose announcement is still to come: a commit durable at LSN [l] is at or
    below the mark exactly when its ticket has been released, so a reopen that
    re-announces the durable commits above the mark announces every commit and
    repeats none. *)
Theorem announced_mark_names_prefix mark s i l x :
  reachable mark s -> hist s !! i = Some (l, x) -> 0 < l ->
  l <= announced_lsn (st s) <-> (i < next (st s))%nat.
Proof.
  intros Hr Hi Hl. destruct (publish_reachable_inv _ _ Hr) as [Hrep _ Hg]. unfold announced_lsn.
  rewrite (repr_announced _ _ _ _ Hrep), (repr_next _ _ _ _ Hrep).
  by apply (mark_names_prefix mark _ _ i l x); [|apply prefix_done_le|..].
Qed.
End sequencer.

(** ** A run: three tickets, the second published first, the first dropped
    with an abandon announcement, the third still held. *)
Module Run.
Definition s0 : sys (A := Z) := mkSys (with_announced_mark 0) ∅ [].
Definition issue_in (s : sys (A := Z)) (lsn : Z) : sys :=
  mkSys (issue_at (st s) lsn).1 (<[issued (st s) := None]> (held s)) (hist s ++ [(lsn, None)]).
Definition s3 : sys := issue_in (issue_in (issue_in s0 10) 20) 30.
Definition s4 : sys := mkSys (st s3) (<[0%nat := Some (-1)]> (held s3)) (hist s3).
Definition s5 : sys :=
  mkSys (publish (st s4) (mkTicket 1 None) 7) (delete 1%nat (held s4)) (<[1%nat := (20, Some (Some 7))]> (hist s4)).
Definition s6 : sys :=
  mkSys (drop_ticket (st s5) (mkTicket 0 (Some (-1)))) (delete 0%nat (held s5))
    (<[0%nat := (10, Some (Some (-1)))]> (hist s5)).

Lemma issue_in_reachable s lsn :
  reachable 0 s -> 0 < lsn -> Forall (fun x => x.1 < lsn) (hist s) -> reachable 0 (issue_in s lsn).
Proof.
  intros Hr Hl Hf. eapply reach_step; [exact Hr|].
  apply (step_issue 0 s lsn (issue_at (st s) lsn).1 (issued (st s))); [lia|intros _; split; [lia|done]|reflexivity].
Qed.

Lemma s6_reachable : reachable 0 s6.
Proof.
  assert (H3 : reachable 0 s3).
  { repeat apply issue_in_reachable; [apply reach_init|..]; try lia; cbn; repeat constructor. }
  assert (H4 : reachable 0 s4).
  { eapply reach_step; [exact H3|]. apply (step_on_abandon 0 s3 0 None (-1)). by vm_compute. }
  assert (H5 : reachable 0 s5).
  { eapply reach_step; [exact H4|]. apply (step_publish 0 s4 1 None 7 20); by vm_compute. }
  eapply reach_step; [exact H5|]. apply (step_drop 0 s5 0 (Some (-1)) 10); by vm_compute.
Qed.

Lemma announcements_in_commit_order_witness :
  sent (st s6) = [(0%nat, -1); (1%nat, 7)] /\ next (st s6) = 2%nat.
Proof.
  destruct (announcements_in_commit_order 0 s6 s6_reachable) as (Hn & Hs & _).
  rewrite Hn, Hs. by vm_compute.
Defined.

Lemma announced_mark_names_prefix_witness : 20 <= announced_lsn (st s6) /\ ~ 30 <= announced_lsn (st s6).
Proof.
  split.
  - apply (announced_mark_names_prefix 0 s6 1 20 (Some (Some 7)) s6_reachable); [reflexivity|lia|vm_compute; lia].
  - rewrite (announced_mark_names_prefix 0 s6 2 30 None s6_reachable); [vm_compute; lia|reflexivity|lia].
Defined.
End Run.
