(* ===== verification/BulkGate.v ===== *)
(** * The bulk-load visibility gate

    crates/uni-store/src/storage/bulk_gate.rs: which row versions a read may
    return, the predicate that says so to the storage backend, and the gate
    that hides the version of a bulk load until its publish completes.  Row
    predicates are [FilterExpr] of crates/uni-store/src/backend/types.rs. *)

From S2P Require Import Prelude.

(** ** Row predicates *)

Inductive Scalar :=
| SNull
| SBool (b : bool)
| SInt (v : Z)
| SUInt (v : Z)
| SFloat (bits : Z)
| SStr (s : string).

Inductive CmpOp := OpEq | OpNotEq | OpLt | OpLtEq | OpGt | OpGtEq.
Inductive StringMatchKind := Contains | StartsWith | EndsWith.

#[warnings="-register-all"]
Inductive FilterExpr :=
| Literal (b : bool)
| And (parts : list FilterExpr)
| Or (parts : list FilterExpr)
| Not (inner : FilterExpr)
| Compare (column : string) (op : CmpOp) (value : Scalar)
| In (column : string) (values : list Scalar)
| ArrayContains (column : string) (value : Scalar)
| StringMatch (column : string) (kind : StringMatchKind) (pattern : string)
| IsNull (column : string)
| IsNotNull (column : string)
| Raw (text : string).

Definition VERSION : string := "_version".

Definition version_at_most (v : Z) : FilterExpr := Compare VERSION OpLtEq (SUInt v).
Definition one_of (column : string) (values : list Scalar) : FilterExpr := In column values.
Definition negate (inner : FilterExpr) : FilterExpr := Not inner.

Definition is_true (p : FilterExpr) : bool := match p with Literal true => true | _ => false end.

Definition all (parts : list FilterExpr) : FilterExpr :=
  match List.filter (fun p => negb (is_true p)) parts with
  | [] => Literal true
  | [p] => p
  | kept => And kept
  end.

(** The backend's meaning of a predicate on one row, in three-valued logic
    ([None] is unknown).  The row's version is [ver]; [leaf] stands for the
    backend's evaluation of every other column test. *)
Section eval.
  Context (leaf : FilterExpr -> option bool) (ver : Z).

Definition and3 (a b : option bool) : option bool :=
  match a, b with
  | Some false, _ | _, Some false => Some false
  | Some true, Some true => Some true
  | _, _ => None
  end.
Definition or3 (a b : option bool) : option bool := negb <$> and3 (negb <$> a) (negb <$> b).

Fixpoint eval (f : FilterExpr) : option bool :=
  match f with
  | Literal b => Some b
  | And parts => foldr (fun p acc => and3 (eval p) acc) (Some true) parts
  | Or parts => foldr (fun p acc => or3 (eval p) acc) (Some false) parts
  | Not inner => negb <$> eval inner
  | Compare column OpLtEq (SUInt v) =>
      if String.eqb column VERSION then Some (ver <=? v) else leaf f
  | In column values =>
      if String.eqb column VERSION
      then Some (existsb (fun x => match x with SUInt v => v =? ver | _ => false end) values)
      else leaf f
  | _ => leaf f
  end.

Lemma and3_true_r a : and3 a (Some true) = a.
Proof. by destruct a as [[]|]. Qed.

Lemma eval_all2 p q : eval (all [p; q]) = and3 (eval p) (eval q).
Proof.
  assert (H : forall x, is_true x = true -> x = Literal true) by (by intros [[]| | | | | | | | | |]).
  unfold all. cbn. destruct (is_true p) eqn:Hp, (is_true q) eqn:Hq; cbn; rewrite ?and3_true_r; try done.
  - by rewrite (H p Hp), (H q Hq).
  - rewrite (H p Hp). cbn. by destruct (eval q) as [[]|].
  - rewrite (H q Hq). cbn. by rewrite and3_true_r.
Qed.
End eval.

(** ** Row visibility *)

Record RowVisibility := mkVis { hwm : option Z; hidden : list Z }.

Definition at_most (h : option Z) : RowVisibility := mkVis h [].

Definition admits (r : RowVisibility) (version : Z) : bool :=
  match hwm r with None => true | Some h => version <=? h end
  && negb (bool_decide (version ∈ hidden r)).

Definition filter_of (r : RowVisibility) : option FilterExpr :=
  let hide := match hidden r with
              | [] => None
              | hs => Some (negate (one_of VERSION (SUInt <$> hs)))
              end in
  match version_at_most <$> hwm r, hide with
  | Some a, Some b => Some (all [a; b])
  | Some a, None => Some a
  | None, Some b => Some b
  | None, None => None
  end.

Definition bound (r : RowVisibility) (filter : FilterExpr) : FilterExpr :=
  match filter_of r with
  | Some v => all [filter; v]
  | None => filter
  end.

Definition combine (r : RowVisibility) (extra : option FilterExpr) : option FilterExpr :=
  match filter_of r, extra with
  | Some v, Some f => Some (all [v; f])
  | Some v, None => Some v
  | None, Some f => Some f
  | None, None => None
  end.

Lemma existsb_hidden ver hs :
  existsb (fun x => match x with SUInt v => v =? ver | _ => false end) (SUInt <$> hs) = bool_decide (ver ∈ hs).
Proof.
  induction hs as [|h hs IH]; cbn.
  - symmetry. apply bool_decide_false. by apply not_elem_of_nil.
  - rewrite IH. destruct (Z.eqb_spec h ver) as [->|Hne]; cbn.
    + symmetry. apply bool_decide_true. by left.
    + apply bool_decide_ext. rewrite elem_of_cons. split; [auto|]. intros [->|?]; done.
Qed.

Lemma eval_filter leaf ver r :
  match filter_of r with Some f => eval leaf ver f | None => Some true end = Some (admits r ver).
Proof.
  unfold filter_of, admits. destruct r as [[h|] hs]; cbn [hwm hidden fmap option_fmap option_map].
  - destruct hs as [|x hs].
    + cbn. rewrite bool_decide_false by (by apply not_elem_of_nil). cbn. by rewrite andb_true_r.
    + rewrite eval_all2. cbn [negate one_of eval version_at_most]. rewrite existsb_hidden. cbn.
      by destruct (ver <=? h), (bool_decide (ver ∈ x :: hs)).
  - destruct hs as [|x hs].
    + cbn. rewrite bool_decide_false by (by apply not_elem_of_nil). done.
    + cbn [negate one_of eval]. rewrite existsb_hidden. done.
Qed.

(** ** The gate *)

Record GateState := mkGate {
  (** hidden version -> number of holds on it *)
  g_hidden : gmap Z nat;
  g_snapshot : list Z;
  g_epoch : Z;
}.

(** The keys of the hidden map, in order. *)
Definition keys (m : gmap Z nat) : list Z := merge_sort Z.le (elements (dom m)).

Definition changed (g : GateState) : GateState :=
  mkGate (g_hidden g) (keys (g_hidden g)) (wrapping_add_u64 (g_epoch g) 1).

Definition new : GateState := mkGate ∅ [] 0.

Definition is_closed (g : GateState) : bool := bool_decide (g_hidden g <> ∅).

(** [snapshot]: the epoch and the hidden versions, read together. *)
Definition snapshot (g : GateState) : Z * list Z := (g_epoch g, g_snapshot g).

(** The state part of [hide]. *)
Definition hide (g : GateState) (version : Z) : GateState :=
  changed (mkGate (<[version := S (default 0%nat (g_hidden g !! version))]> (g_hidden g))
             (g_snapshot g) (g_epoch g)).

Definition unhide (g : GateState) (version : Z) : GateState :=
  let h := match g_hidden g !! version with
           | Some (S O) => delete version (g_hidden g)
           | Some n => <[version := pred n]> (g_hidden g)
           | None => g_hidden g
           end in
  changed (mkGate h (g_snapshot g) (g_epoch g)).

(** [install_if_current]: runs [install] on the caches if the epoch is still
    the one they were built under. *)
Definition install_if_current {R} (g : GateState) (epoch : Z) (install : unit -> R) : option R :=
  if g_epoch g =? epoch then Some (install tt) else None.

(** [wait_open]'s test: the epoch, if nothing is hidden. *)
Definition open_epoch (g : GateState) : option Z :=
  if decide (g_hidden g = ∅) then Some (g_epoch g) else None.

(** ** Runs of the gate

    [holds] are the versions of the holds taken and not released (a hold
    dropped without release stays here: its version stays hidden); [ticks]
    counts the changes. *)
Record sys := mkSys { gate : GateState; holds : list Z; ticks : nat }.

Inductive step : sys -> sys -> Prop :=
| step_hide s v : step s (mkSys (hide (gate s) v) (v :: holds s) (S (ticks s)))
| step_release s v l : holds s ≡ₚ v :: l -> step s (mkSys (unhide (gate s) v) l (S (ticks s))).

Inductive reachable : sys -> Prop :=
| reach_init : reachable (mkSys new [] 0)
| reach_step s s' : reachable s -> step s s' -> reachable s'.

(** How many holds a version has. *)
Fixpoint count (v : Z) (l : list Z) : nat :=
  match l with [] => O | x :: l => if decide (x = v) then S (count v l) else count v l end.

Lemma count_perm v l l' : l ≡ₚ l' -> count v l = count v l'.
Proof. induction 1; cbn; repeat case_decide; congruence. Qed.

Record inv (s : sys) : Prop := {
  inv_count v : g_hidden (gate s) !! v = match count v (holds s) with O => None | n => Some n end;
  inv_snapshot : g_snapshot (gate s) = keys (g_hidden (gate s));
  inv_epoch : g_epoch (gate s) = Z.of_nat (ticks s) mod 2 ^ 64;
}.

Lemma epoch_tick n : wrapping_add_u64 (Z.of_nat n mod 2 ^ 64) 1 = Z.of_nat (S n) mod 2 ^ 64.
Proof. unfold wrapping_add_u64. rewrite Zplus_mod_idemp_l. f_equal. lia. Qed.

Lemma gate_step_inv s s' : inv s -> step s s' -> inv s'.
Proof.
  intros [Hc Hs He] Hstep. inversion Hstep as [? v|? v l Hp]; subst; split; cbn.
  - intros w. rewrite lookup_insert. destruct (decide (v = w)) as [->|Hne].
    + rewrite Hc. by destruct (count w (holds s)).
    + apply Hc.
  - done.
  - by rewrite He, epoch_tick.
  - intros w. assert (Hw := Hc w). rewrite (count_perm w _ _ Hp) in Hw. cbn in Hw.
    assert (Hv := Hc v). rewrite (count_perm v _ _ Hp) in Hv. cbn in Hv. rewrite decide_True in Hv by done.
    rewrite Hv. destruct (decide (v = w)) as [->|Hne].
    + destruct (count w l); [by rewrite lookup_delete_eq|by rewrite lookup_insert_eq].
    + destruct (count v l); [by rewrite lookup_delete_ne|by rewrite lookup_insert_ne].
  - done.
  - by rewrite He, epoch_tick.
Qed.

Lemma gate_reachable_inv s : reachable s -> inv s.
Proof.
  induction 1 as [|s s' Hr IH Hs]; [|by eapply gate_step_inv]. split; cbn; [|done|done].
  intros v. by rewrite lookup_empty.
Qed.

Lemma elem_of_keys m v : v ∈ keys m <-> is_Some (m !! v).
Proof. unfold keys. rewrite merge_sort_Permutation, elem_of_elements, elem_of_dom. done. Qed.

Lemma count_in v l : count v l <> O <-> v ∈ l.
Proof.
  induction l as [|x l IH]; cbn; [split; [done|by intros ?%not_elem_of_nil]|].
  rewrite elem_of_cons. case_decide; [split; [auto|done]|]. rewrite IH. split; [auto|]. intros [?|?]; [congruence|done].
Qed.

Lemma snapshot_holds s v : reachable s -> v ∈ (snapshot (gate s)).2 <-> v ∈ holds s.
Proof.
  intros Hr. destruct (gate_reachable_inv _ Hr) as [Hc Hs _]. cbn. rewrite Hs, elem_of_keys, Hc, <- count_in.
  destruct (count v (holds s)); split; (done || by intros []).
Qed.

Inductive steps : sys -> sys -> Prop :=
| steps_refl s : steps s s
| steps_trans s1 s2 s3 : steps s1 s2 -> step s2 s3 -> steps s1 s3.

Lemma steps_reachable s s' : reachable s -> steps s s' -> reachable s'.
Proof.
  intros Hr Hst. induction Hst as [|s1 s2 s3 H IH Hs]; [done|].
  eapply reach_step; [by apply IH|exact Hs].
Qed.

Lemma steps_ticks s s' : steps s s' -> s' = s \/ (ticks s < ticks s')%nat.
Proof.
  induction 1 as [|s1 s2 s3 H IH Hs]; [by left|]. right. assert (ticks s3 = S (ticks s2)) by (by inversion Hs).
  destruct IH as [->|]; lia.
Qed.

(** A bulk load appears all at once, to readers of the gate.  In every
    state of the gate, the predicate a read pushes to the storage backend
    admits a row of version [v] exactly when [v] is at or below the snapshot
    ceiling and no hold on [v] is outstanding, whatever the other holds; and a
    cache built under an epoch is installed later only if the hidden versions
    are still the same, provided fewer than 2^64 changes happened in between. *)
Theorem gate_hides_held_versions s s' h leaf v (ex : FilterExpr) :
  reachable s -> steps s s' -> Z.of_nat (ticks s') - Z.of_nat (ticks s) < 2 ^ 64 ->
  let r := mkVis h (snapshot (gate s)).2 in
  (eval leaf v (bound r ex) = and3 (eval leaf v ex) (Some (admits r v)))
  /\ (admits r v = true <-> (forall c, h = Some c -> v <= c) /\ (v ∉ holds s))
  /\ (install_if_current (gate s') (snapshot (gate s)).1 (fun _ => tt) = Some tt ->
      (snapshot (gate s')).2 = (snapshot (gate s)).2 /\ s' = s).
Proof.
  intros Hr Hst Hlt r. split; [|split].
  - pose proof (eval_filter leaf v r) as He. unfold bound. destruct (filter_of r) as [f|].
    + by rewrite eval_all2, He.
    + injection He as <-. by rewrite and3_true_r.
  - unfold admits, r. cbn [hwm hidden]. rewrite andb_true_iff, negb_true_iff, bool_decide_eq_false.
    rewrite (snapshot_holds s v Hr). destruct h as [c|].
    + rewrite Z.leb_le. split; intros [H1 H2]; (split; [|done]); [by intros ? [= <-]|by apply H1].
    + split; intros [H1 H2]; (split; [|done]); done.
  - unfold install_if_current. cbn [snapshot fst].
    rewrite (inv_epoch _ (gate_reachable_inv _ Hr)), (inv_epoch _ (gate_reachable_inv _ (steps_reachable _ _ Hr Hst))).
    destruct (Z.eqb_spec (Z.of_nat (ticks s') mod 2 ^ 64) (Z.of_nat (ticks s) mod 2 ^ 64)) as [Heq|]; [|done].
    intros _. destruct (steps_ticks _ _ Hst) as [->|Ht]; [done|]. exfalso.
    assert (Hd : (Z.of_nat (ticks s') - Z.of_nat (ticks s)) mod 2 ^ 64 = 0).
    { rewrite Zminus_mod, Heq, Z.sub_diag. done. }
    rewrite Z.mod_small in Hd by lia. lia.
Qed.

(** ** A run: version 7 held, version 8 held and released. *)
Module Run.
Definition s1 : sys := mkSys (hide new 7) [7] 1.
Definition s2 : sys := mkSys (hide (hide new 7) 8) [8; 7] 2.
Definition s3 : sys := mkSys (unhide (hide (hide new 7) 8) 8) [7] 3.

Lemma gate_s1_reachable : reachable s1.
Proof. eapply reach_step; [apply reach_init|]. apply (step_hide (mkSys new [] 0) 7). Qed.

Lemma s1_s3 : steps s1 s3.
Proof.
  eapply steps_trans; [eapply steps_trans; [apply steps_refl|apply (step_hide s1 8)]|].
  apply (step_release s2 8 [7]). done.
Qed.

Lemma gate_hides_held_versions_witness :
  admits (mkVis (Some 9) (snapshot (gate s1)).2) 7 = false
  /\ admits (mkVis (Some 9) (snapshot (gate s1)).2) 8 = true
  /\ install_if_current (gate s3) (snapshot (gate s1)).1 (fun _ => tt) = None.
Proof.
  destruct (gate_hides_held_versions s1 s3 (Some 9) (fun _ => None) 8 (Literal true)
    gate_s1_reachable s1_s3 ltac:(cbn; lia)) as (_ & H & _).
  split; [by vm_compute|]. split; [|by vm_compute].
  apply H. split; [by intros ? [= <-]|]. cbn. set_solver.
Defined.
End Run.
