(* ===== verification/IdAlloc.v ===== *)
(** * Id allocation

    crates/uni-store/src/runtime/id_allocator.rs (durable batch reservation of
    vertex and edge ids) and id_reservoir.rs (a transaction's local cache).
    The object store is the durable manifest; whether a write of it succeeds,
    fails, or fails after having landed is an argument of each operation.  A
    run interleaves allocations, refills, transaction drops, checkpoints,
    crashes and restarts. *)

From S2P Require Import Prelude.

Inductive kind := KVid | KEid.
#[export] Instance kind_eq_dec : EqDecision kind.
Proof. solve_decision. Defined.

Record CounterManifest := mkManifest { next_vid_batch : Z; next_eid_batch : Z }.
Definition CounterManifest_default : CounterManifest := mkManifest 0 0.

Record AllocatorState := mkAlloc {
  manifest : CounterManifest;
  current_vid : Z;
  current_eid : Z;
}.

Definition next_batch (k : kind) (m : CounterManifest) : Z :=
  match k with KVid => next_vid_batch m | KEid => next_eid_batch m end.
Definition set_batch (k : kind) (b : Z) (m : CounterManifest) : CounterManifest :=
  match k with
  | KVid => mkManifest b (next_eid_batch m)
  | KEid => mkManifest (next_vid_batch m) b
  end.
Definition current (k : kind) (a : AllocatorState) : Z :=
  match k with KVid => current_vid a | KEid => current_eid a end.
Definition set_current (k : kind) (c : Z) (a : AllocatorState) : AllocatorState :=
  match k with
  | KVid => mkAlloc (manifest a) c (current_eid a)
  | KEid => mkAlloc (manifest a) (current_vid a) c
  end.
Definition set_manifest (m : CounterManifest) (a : AllocatorState) : AllocatorState :=
  mkAlloc m (current_vid a) (current_eid a).

Inductive AllocError := SpaceExhausted | PersistFailed.

(** How the object store answers a put; a failed put may have landed. *)
Inductive put_outcome := PutOk | PutErr (landed : bool).

(** The manifest object; absent before the first put. *)
Definition disk := option CounterManifest.
Definition load (d : disk) : CounterManifest := default CounterManifest_default d.

(** [IdAllocator::new] *)
Definition open_allocator (d : disk) : AllocatorState :=
  let m := load d in mkAlloc m (next_vid_batch m) (next_eid_batch m).

(** [persist_manifest] *)
Definition persist_manifest (d : disk) (m : CounterManifest) (o : put_outcome) : disk * result AllocError unit :=
  match o with
  | PutOk => (Some m, Ok tt)
  | PutErr true => (Some m, Err PersistFailed)
  | PutErr false => (d, Err PersistFailed)
  end.

Section allocator.
  Context (batch_size : Z).

(** Reserve up to [reserved] durably, rolling back in memory on failure. *)
Definition reserve (d : disk) (a : AllocatorState) (k : kind) (reserved : Z) (o : put_outcome) :
    disk * AllocatorState * result AllocError unit :=
  let prev := next_batch k (manifest a) in
  let a1 := set_manifest (set_batch k reserved (manifest a)) a in
  match persist_manifest d (manifest a1) o with
  | (d', Ok _) => (d', a1, Ok tt)
  | (d', Err e) => (d', set_manifest (set_batch k prev (manifest a1)) a1, Err e)
  end.

(** [allocate_vid] / [allocate_eid] *)
Definition allocate (d : disk) (a : AllocatorState) (k : kind) (o : put_outcome) :
    disk * AllocatorState * result AllocError Z :=
  let hand_out d a := (d, set_current k (current k a + 1) a, Ok (current k a)) in
  if next_batch k (manifest a) <=? current k a then
    match checked_add_u64 (current k a) batch_size with
    | None => (d, a, Err SpaceExhausted)
    | Some reserved =>
        match reserve d a k reserved o with
        | (d', a', Ok _) => hand_out d' a'
        | (d', a', Err e) => (d', a', Err e)
        end
    end
  else hand_out d a.

(** [allocate_vids] / [allocate_eids] *)
Definition allocate_many (d : disk) (a : AllocatorState) (k : kind) (count : nat) (o : put_outcome) :
    disk * AllocatorState * result AllocError (list Z) :=
  let needed := Z.of_nat count in
  let hand_out d a :=
    (d, set_current k (current k a + needed) a, Ok ((fun i => current k a + i) <$> seqZ 0 needed)) in
  match checked_add_u64 (current k a) needed with
  | None => (d, a, Err SpaceExhausted)
  | Some want =>
      if next_batch k (manifest a) <? want then
        match checked_add_u64 want batch_size with
        | None => (d, a, Err SpaceExhausted)
        | Some reserved =>
            match reserve d a k reserved o with
            | (d', a', Ok _) => hand_out d' a'
            | (d', a', Err e) => (d', a', Err e)
            end
        end
      else hand_out d a
  end.

(** [checkpoint] *)
Definition checkpoint (d : disk) (a : AllocatorState) (o : put_outcome) :
    disk * AllocatorState * result AllocError unit :=
  let m := mkManifest (Z.max (next_vid_batch (manifest a)) (current_vid a))
                      (Z.max (next_eid_batch (manifest a)) (current_eid a)) in
  let a := set_manifest m a in
  let '(d', r) := persist_manifest d m o in (d', a, r).

(** [current_hwm] and [in_memory_seeded]: an allocator above given marks. *)
Definition current_hwm (a : AllocatorState) : Z * Z := (current_vid a, current_eid a).
Definition in_memory_seeded (vid_hwm eid_hwm : Z) : disk * AllocatorState :=
  let d := Some (mkManifest vid_hwm eid_hwm) in (d, open_allocator d).

(** A transaction's reservoir of ids. *)
Record Reservoir := mkRes { vids : list Z; eids : list Z }.
Definition pool (k : kind) (r : Reservoir) : list Z := match k with KVid => vids r | KEid => eids r end.
Definition set_pool (k : kind) (l : list Z) (r : Reservoir) : Reservoir :=
  match k with KVid => mkRes l (eids r) | KEid => mkRes (vids r) l end.

Definition DEFAULT_RESERVOIR_BATCH : nat := 16.
Definition reservoir_batch (configured : nat) : nat :=
  match configured with O => DEFAULT_RESERVOIR_BATCH | n => n end.

(** The first critical section of [next_vid] / [next_eid]: pop an id. *)
Definition pop (r : Reservoir) (k : kind) : option (Z * Reservoir) :=
  match pool k r with
  | id :: rest => Some (id, set_pool k rest r)
  | [] => None
  end.

(** The second one: refill from the allocator and keep the rest of the batch;
    [batch.remove(0)] on an empty batch panics, which [None] stands for. *)
Definition refill (configured : nat) (d : disk) (a : AllocatorState) (r : Reservoir) (k : kind) (o : put_outcome) :
    option (disk * AllocatorState * Reservoir * result AllocError Z) :=
  match allocate_many d a k (reservoir_batch configured) o with
  | (d', a', Err e) => Some (d', a', r, Err e)
  | (d', a', Ok []) => None
  | (d', a', Ok (first :: batch)) => Some (d', a', set_pool k (pool k r ++ batch) r, Ok first)
  end.

(** [next_vid] / [next_eid], undisturbed. *)
Definition next_id (configured : nat) (d : disk) (a : AllocatorState) (r : Reservoir) (k : kind) (o : put_outcome) :
    option (disk * AllocatorState * Reservoir * result AllocError Z) :=
  match pop r k with
  | Some (id, r') => Some (d, a, r', Ok id)
  | None => refill configured d a r k o
  end.

Definition allocate_vid d a o := allocate d a KVid o.
Definition allocate_eid d a o := allocate d a KEid o.
Definition allocate_vids d a count o := allocate_many d a KVid count o.
Definition allocate_eids d a count o := allocate_many d a KEid count o.
Definition next_vid configured d a r o := next_id configured d a r KVid o.
Definition next_eid configured d a r o := next_id configured d a r KEid o.
End allocator.

(** ** What an allocation does *)

Section facts.
  Context (batch_size : Z) (Hbatch : 0 < batch_size).

(** In-memory state that is consistent with the durable one. *)
Definition consistent (d : disk) (a : AllocatorState) : Prop :=
  forall k, 0 <= current k a <= next_batch k (manifest a)
    /\ next_batch k (manifest a) <= next_batch k (load d) < 2 ^ 64.

Lemma next_batch_set k k' b m :
  next_batch k (set_batch k' b m) = if decide (k = k') then b else next_batch k m.
Proof. by destruct k, k'. Qed.
Lemma current_set k k' c a : current k (set_current k' c a) = if decide (k = k') then c else current k a.
Proof. by destruct k, k'. Qed.
Lemma current_set_manifest k m a : current k (set_manifest m a) = current k a.
Proof. by destruct k. Qed.
Lemma manifest_set_current k c a : manifest (set_current k c a) = manifest a.
Proof. by destruct k. Qed.

(** Counters never move back durably below what memory holds. *)
Lemma reserve_spec d a k reserved o :
  consistent d a -> next_batch k (manifest a) <= reserved < 2 ^ 64 ->
  let '(d', a', r) := reserve d a k reserved o in
  consistent d' a' /\ (forall j, current j a' = current j a)
  /\ (r = Ok tt -> next_batch k (manifest a') = reserved)
  /\ (is_ok r = false -> manifest a' = manifest a).
Proof.
  intros Hc Hr. unfold reserve, persist_manifest.
  assert (Hback : set_batch k (next_batch k (manifest a)) (set_batch k reserved (manifest a)) = manifest a).
  { destruct (manifest a) as [v e]. by destruct k. }
  destruct o as [|[|]]; cbn [manifest set_manifest]; rewrite ?Hback.
  - split; [|split; [by intros []|split; [|done]]].
    + intros j. rewrite current_set_manifest. cbn. rewrite next_batch_set. specialize (Hc j). case_decide; subst; lia.
    + intros _. by rewrite next_batch_set, decide_True.
  - split; [|split; [by intros []|split; done]].
    intros j. rewrite !current_set_manifest. cbn. rewrite next_batch_set. specialize (Hc j). case_decide; subst; lia.
  - split; [|split; [by intros []|split; done]].
    intros j. rewrite !current_set_manifest. apply (Hc j).
Qed.

Lemma checked_add_Some a b c : checked_add_u64 a b = Some c -> c = a + b /\ c < 2 ^ 64.
Proof. unfold checked_add_u64. destruct (Z.ltb_spec (a + b) (2 ^ 64)); [|done]. intros [= <-]. done. Qed.

(** The ids an operation returns are the next ones, durably reserved. *)
Definition issues (d : disk) (a : AllocatorState) (k : kind) (d' : disk) (a' : AllocatorState) (ids : list Z) : Prop :=
  consistent d' a' /\ (forall j, j <> k -> current j a' = current j a)
  /\ ids = (fun i => current k a + i) <$> seqZ 0 (Z.of_nat (length ids))
  /\ current k a' = current k a + Z.of_nat (length ids).

Lemma hand_out_issues d0 a0 d a k n :
  consistent d a -> (forall j, current j a = current j a0) -> 0 <= n ->
  current k a + n <= next_batch k (manifest a) ->
  issues d0 a0 k d (set_current k (current k a + n) a) ((fun i => current k a + i) <$> seqZ 0 n).
Proof.
  intros Hc Hcur Hn Hle. split; [|split; [|split]].
  - intros j. rewrite manifest_set_current, current_set. specialize (Hc j). case_decide; subst; lia.
  - intros j Hj. by rewrite current_set, decide_False.
  - rewrite length_fmap, length_seqZ, Z2Nat.id by done. by rewrite Hcur.
  - rewrite current_set, decide_True, length_fmap, length_seqZ, Z2Nat.id, Hcur by done. done.
Qed.

Lemma seqZ_1 (x : Z) : (fun i => x + i) <$> seqZ 0 1 = [x].
Proof.
  rewrite seqZ_cons by lia. cbn [fmap list_fmap]. f_equal; lia.
Qed.

Lemma allocate_spec d a k o :
  consistent d a ->
  let '(d', a', r) := allocate batch_size d a k o in
  match r with
  | Ok id => issues d a k d' a' [id]
  | Err _ => consistent d' a' /\ (forall j, current j a' = current j a)
  end.
Proof.
  intros Hc. pose proof (Hc k) as Hk. unfold allocate.
  destruct (Z.leb_spec (next_batch k (manifest a)) (current k a)) as [Hle|Hgt].
  - destruct (checked_add_u64 (current k a) batch_size) as [reserved|] eqn:Hadd; [|done].
    apply checked_add_Some in Hadd as [-> Hlt].
    pose proof (reserve_spec d a k (current k a + batch_size) o Hc ltac:(lia)) as Hr.
    destruct (reserve d a k (current k a + batch_size) o) as [[d' a'] [[]|e]].
    + destruct Hr as (Hc' & Hcur & Hb & _). specialize (Hb eq_refl).
      rewrite <- (seqZ_1 (current k a')). apply hand_out_issues; try done. rewrite Hb, Hcur. lia.
    + destruct Hr as (Hc' & Hcur & _). done.
  - rewrite <- (seqZ_1 (current k a)). apply hand_out_issues; done || lia.
Qed.

Lemma allocate_many_spec d a k n o :
  consistent d a ->
  let '(d', a', r) := allocate_many batch_size d a k n o in
  match r with
  | Ok ids => issues d a k d' a' ids /\ length ids = n
  | Err _ => consistent d' a' /\ (forall j, current j a' = current j a)
  end.
Proof.
  intros Hc. pose proof (Hc k) as Hk. unfold allocate_many.
  assert (Hlen : forall x : Z, length ((fun i => x + i) <$> seqZ 0 (Z.of_nat n)) = n)
    by (intros; rewrite length_fmap, length_seqZ; lia).
  destruct (checked_add_u64 (current k a) (Z.of_nat n)) as [want|] eqn:Hw; [|done].
  apply checked_add_Some in Hw as [-> Hw].
  destruct (Z.ltb_spec (next_batch k (manifest a)) (current k a + Z.of_nat n)) as [Hlt|Hge].
  - destruct (checked_add_u64 (current k a + Z.of_nat n) batch_size) as [reserved|] eqn:Hadd; [|done].
    apply checked_add_Some in Hadd as [-> Hb].
    pose proof (reserve_spec d a k (current k a + Z.of_nat n + batch_size) o Hc ltac:(lia)) as Hr.
    destruct (reserve d a k (current k a + Z.of_nat n + batch_size) o) as [[d' a'] [[]|e]].
    + destruct Hr as (Hc' & Hcur & Hn & _). specialize (Hn eq_refl). split; [|apply Hlen].
      apply hand_out_issues; try done; [lia|]. rewrite Hn, Hcur. lia.
    + destruct Hr as (Hc' & Hcur & _). done.
  - split; [|apply Hlen]. apply hand_out_issues; done || lia.
Qed.

Lemma checkpoint_spec d a o :
  consistent d a ->
  let '(d', a', r) := checkpoint d a o in
  consistent d' a' /\ (forall j, current j a' = current j a).
Proof.
  intros Hc. unfold checkpoint, persist_manifest. pose proof (Hc KVid) as Hv. pose proof (Hc KEid) as He. cbn in Hv, He.
  destruct o as [|[|]]; (split; [|by intros []]); intros []; cbn; lia.
Qed.

Lemma open_consistent d :
  (forall k, 0 <= next_batch k (load d) < 2 ^ 64) -> consistent d (open_allocator d).
Proof. intros Hd [|]; cbn; [specialize (Hd KVid)|specialize (Hd KEid)]; cbn in *; lia. Qed.
End facts.

(** ** Runs with crashes *)

(** The durable manifest, the allocator of the running process (none after a
    crash), the reservoirs of its open transactions, and every id handed to a
    caller so far, by any process. *)
Record sys := mkSys {
  s_disk : disk;
  s_alloc : option AllocatorState;
  s_res : gmap Z Reservoir;
  s_handed : kind -> list Z;
}.

Definition hand (k : kind) (id : Z) (h : kind -> list Z) : kind -> list Z :=
  fun j => if decide (j = k) then h j ++ [id] else h j.

Section runs.
  Context (batch_size : Z) (configured : nat).

(** The steps of a run.  A caller that found its reservoir empty refills it
    later, when another caller of the same transaction may already have
    refilled it: a refill has no guard. *)
Inductive step : sys -> sys -> Prop :=
| step_open d res h :
    step (mkSys d None res h) (mkSys d (Some (open_allocator d)) ∅ h)
| step_crash d a res h :
    step (mkSys d (Some a) res h) (mkSys d None ∅ h)
| step_allocate d a res h k o d' a' id :
    allocate batch_size d a k o = (d', a', Ok id) ->
    step (mkSys d (Some a) res h) (mkSys d' (Some a') res (hand k id h))
| step_allocate_err d a res h k o d' a' e :
    allocate batch_size d a k o = (d', a', Err e) ->
    step (mkSys d (Some a) res h) (mkSys d' (Some a') res h)
| step_begin d a res h t :
    res !! t = None ->
    step (mkSys d (Some a) res h) (mkSys d (Some a) (<[t := mkRes [] []]> res) h)
| step_pop d a res h t r k r' id :
    res !! t = Some r -> pop r k = Some (id, r') ->
    step (mkSys d (Some a) res h) (mkSys d (Some a) (<[t := r']> res) (hand k id h))
| step_refill d a res h t r k o d' a' r' id :
    res !! t = Some r ->
    refill batch_size configured d a r k o = Some (d', a', r', Ok id) ->
    step (mkSys d (Some a) res h) (mkSys d' (Some a') (<[t := r']> res) (hand k id h))
| step_refill_err d a res h t r k o d' a' r' e :
    res !! t = Some r ->
    refill batch_size configured d a r k o = Some (d', a', r', Err e) ->
    step (mkSys d (Some a) res h) (mkSys d' (Some a') (<[t := r']> res) h)
| step_drop d a res h t :
    step (mkSys d (Some a) res h) (mkSys d (Some a) (delete t res) h)
| step_checkpoint d a res h o d' a' r :
    checkpoint d a o = (d', a', r) ->
    step (mkSys d (Some a) res h) (mkSys d' (Some a') res h).

Inductive reachable : sys -> Prop :=
| reach_init : reachable (mkSys None None ∅ (fun _ => []))
| reach_step s s' : reachable s -> step s s' -> reachable s'.

(** Every id in circulation lies below [top], and none is in two places. *)
Record separate (res : gmap Z Reservoir) (h : kind -> list Z) (top : kind -> Z) : Prop := {
  sep_handed k id : id ∈ h k -> 0 <= id < top k;
  sep_nodup k : NoDup (h k);
  sep_pool t r k id : res !! t = Some r -> id ∈ pool k r -> 0 <= id < top k /\ (id ∉ h k);
  sep_pool_nodup t r k : res !! t = Some r -> NoDup (pool k r);
  sep_pools t t' r r' k id :
    res !! t = Some r -> res !! t' = Some r' -> t <> t' -> id ∈ pool k r -> (id ∉ pool k r');
}.

Record inv (s : sys) : Prop := {
  inv_disk k : 0 <= next_batch k (load (s_disk s)) < 2 ^ 64;
  inv_alloc a : s_alloc s = Some a -> consistent (s_disk s) a
    /\ separate (s_res s) (s_handed s) (fun k => current k a);
  inv_down : s_alloc s = None -> forall k id, id ∈ s_handed s k -> 0 <= id < next_batch k (load (s_disk s));
  inv_handed_nodup k : NoDup (s_handed s k);
}.

Lemma separate_mono res h top top' :
  (forall k, top k <= top' k) -> separate res h top -> separate res h top'.
Proof.
  intros Ht Hs. split; try apply Hs.
  - intros k id Hid. pose proof (sep_handed _ _ _ Hs _ _ Hid). specialize (Ht k). lia.
  - intros t r k id Hr Hid. destruct (sep_pool _ _ _ Hs _ _ _ _ Hr Hid) as [? ?]. specialize (Ht k). split; [lia|done].
Qed.

(** Handing out an id that is not in circulation. *)
Lemma separate_hand res h top k id :
  separate res h top -> 0 <= id < top k -> (id ∉ h k) ->
  (forall t r, res !! t = Some r -> id ∉ pool k r) -> separate res (hand k id h) top.
Proof.
  intros Hs Hid Hn Hp. unfold hand. split.
  - intros j x. case_decide; [subst|apply Hs]. rewrite elem_of_app, list_elem_of_singleton.
    intros [Hx| ->]; [by apply (sep_handed _ _ _ Hs)|done].
  - intros j. case_decide; [subst|apply Hs]. apply NoDup_app. split; [apply Hs|]. split; [|apply NoDup_singleton].
    intros x Hx ->%list_elem_of_singleton. done.
  - intros t r j x Hr Hx. destruct (sep_pool _ _ _ Hs _ _ _ _ Hr Hx) as [? Hnx]. split; [done|].
    case_decide; [subst|done]. rewrite elem_of_app, list_elem_of_singleton. intros [?| ->]; [done|]. by apply (Hp t r).
  - apply Hs.
  - apply Hs.
Qed.

(** Replacing a reservoir by one whose ids it had, or are new. *)
Lemma separate_set res h top t r k l :
  separate res h top -> res !! t = Some r -> NoDup l ->
  (forall id, id ∈ l -> 0 <= id < top k /\ (id ∉ h k)
     /\ forall t' r', t' <> t -> res !! t' = Some r' -> id ∉ pool k r') ->
  separate (<[t := set_pool k l r]> res) h top.
Proof.
  intros Hs Hr Hnd Hl.
  assert (Hpool : forall j, pool j (set_pool k l r) = if decide (j = k) then l else pool j r)
    by (intros []; destruct k; done).
  split; try apply Hs.
  - intros u x j id. rewrite lookup_insert. case_decide as Hu; [|apply Hs]. intros [= <-]. rewrite Hpool.
    case_decide; [subst; intros Hid; destruct (Hl id Hid) as (? & ? & _); done|by apply (sep_pool _ _ _ Hs t)].
  - intros u x j. rewrite lookup_insert. case_decide as Hu; [|by apply Hs]. intros [= <-]. rewrite Hpool.
    case_decide; [done|by apply (sep_pool_nodup _ _ _ Hs t)].
  - intros u u' x x' j id. rewrite !lookup_insert. case_decide as Hu; case_decide as Hu'; try congruence.
    + intros [= <-] Hx' Hne. rewrite Hpool. case_decide; [subst; intros Hid|].
      * destruct (Hl id Hid) as (_ & _ & Hd). by apply (Hd u').
      * subst. by apply (sep_pools _ _ _ Hs u u').
    + intros Hx [= <-] Hne. rewrite Hpool. case_decide; [subst; intros Hid Hid'|].
      * destruct (Hl id Hid') as (_ & _ & Hd). by apply (Hd u x Hne).
      * subst. by apply (sep_pools _ _ _ Hs u u').
    + by apply (sep_pools _ _ _ Hs u u').
Qed.

(** New ids are not in circulation. *)
Lemma separate_fresh res h top k id :
  separate res h top -> top k <= id ->
  (id ∉ h k) /\ forall t r, res !! t = Some r -> id ∉ pool k r.
Proof.
  intros Hs Hle. split.
  - intros Hin. pose proof (sep_handed _ _ _ Hs _ _ Hin). lia.
  - intros t r Hr Hin. destruct (sep_pool _ _ _ Hs _ _ _ _ Hr Hin). lia.
Qed.

Lemma issues_range d a k d' a' ids id :
  issues d a k d' a' ids -> id ∈ ids -> current k a <= id < current k a'.
Proof.
  intros (_ & _ & He & Hc) Hin. rewrite He in Hin. apply list_elem_of_fmap in Hin as (i & -> & Hi).
  apply elem_of_seqZ in Hi. lia.
Qed.

Lemma issues_nodup d a k d' a' ids : issues d a k d' a' ids -> NoDup ids.
Proof.
  intros (_ & _ & He & _). rewrite He. apply NoDup_fmap_2; [intros x y; lia|apply NoDup_seqZ].
Qed.

Lemma issues_mono d a k d' a' ids : issues d a k d' a' ids -> forall j, current j a <= current j a'.
Proof.
  intros (_ & Ho & _ & Hc) j. destruct (decide (j = k)) as [->|Hne]; [lia|]. by rewrite Ho.
Qed.

Lemma consistent_disk d a k : consistent d a -> 0 <= next_batch k (load d) < 2 ^ 64.
Proof. intros Hc. specialize (Hc k). lia. Qed.

Context (Hbatch : 0 < batch_size).

(** What refilling a reservoir and popping from it do to the ids in
    circulation. *)
Lemma refill_separate d a res h t r k o d' a' r' x :
  consistent d a -> separate res h (fun k => current k a) -> res !! t = Some r ->
  refill batch_size configured d a r k o = Some (d', a', r', x) ->
  consistent d' a' /\
  match x with
  | Ok id => separate (<[t := r']> res) (hand k id h) (fun k => current k a')
  | Err _ => separate (<[t := r']> res) h (fun k => current k a')
  end.
Proof.
  intros Hc Hs Hr Hn. unfold refill in Hn.
  pose proof (allocate_many_spec batch_size Hbatch d a k (reservoir_batch configured) o Hc) as Ha.
  destruct (allocate_many batch_size d a k (reservoir_batch configured) o) as [[d1 a1] [[|first batch]|e]]; [done| |].
  - injection Hn as <- <- <- <-. destruct Ha as [Hi _]. split; [apply Hi|].
    pose proof (issues_nodup _ _ _ _ _ _ Hi) as Hnd. apply NoDup_cons in Hnd as [Hf Hnd].
    assert (Hnew : forall id, id ∈ first :: batch -> 0 <= id < current k a1 /\ (id ∉ h k)
        /\ forall t r, res !! t = Some r -> id ∉ pool k r).
    { intros id Hid. pose proof (issues_range _ _ _ _ _ _ _ Hi Hid). specialize (Hc k).
      destruct (separate_fresh _ _ _ k id Hs) as [Hh Hpl]; [lia|]. split; [lia|done]. }
    assert (Hs1 : separate res h (fun k => current k a1))
      by (eapply separate_mono; [by eapply issues_mono|exact Hs]).
    destruct (Hnew first ltac:(by left)) as (Hf1 & Hf2 & Hf3).
    apply separate_hand; [|done|done|].
    + apply (separate_set res h _ t r k _ Hs1 Hr).
      * apply NoDup_app. split; [by apply (sep_pool_nodup _ _ _ Hs t)|]. split; [|done].
        intros id Hid Hb. destruct (Hnew id ltac:(by right)) as (_ & _ & Hp). by apply (Hp t r).
      * intros id [Hid|Hid]%elem_of_app.
        { destruct (sep_pool _ _ _ Hs1 _ _ _ _ Hr Hid) as [? ?]. split; [done|]. split; [done|].
          intros t' r' Hne Hr'. by apply (sep_pools _ _ _ Hs t t' r r'). }
        destruct (Hnew id ltac:(by right)) as (? & ? & Hp). split; [done|]. split; [done|].
        intros t' r' _ Hr'. by apply (Hp t').
    + intros t' r'. rewrite lookup_insert. case_decide; [|by apply Hf3]. intros [= <-].
      assert (Hp : pool k (set_pool k (pool k r ++ batch) r) = pool k r ++ batch) by (by destruct k).
      rewrite Hp, elem_of_app. intros [?|?]; [by apply (Hf3 t r)|done].
  - injection Hn as <- <- <- <-. destruct Ha as [Hc' Hcur]. split; [done|].
    rewrite insert_id by done. eapply separate_mono; [|exact Hs]. intros j. by rewrite Hcur.
Qed.

Lemma pop_separate res h top t r k id r' :
  separate res h top -> res !! t = Some r -> pop r k = Some (id, r') ->
  separate (<[t := r']> res) (hand k id h) top.
Proof.
  intros Hs Hr Hn. unfold pop in Hn. destruct (pool k r) as [|x rest] eqn:Hp; [done|]. injection Hn as -> <-.
  assert (Hin : id ∈ pool k r) by (rewrite Hp; by left).
  destruct (sep_pool _ _ _ Hs _ _ _ _ Hr Hin) as [Hid Hnh].
  pose proof (sep_pool_nodup _ _ _ Hs _ _ k Hr) as Hnd. rewrite Hp in Hnd. apply NoDup_cons in Hnd as [Hir Hnd].
  apply separate_hand; try done.
  - apply (separate_set res h _ t r k rest Hs Hr Hnd). intros j Hj.
    assert (Hj' : j ∈ pool k r) by (rewrite Hp; by right).
    destruct (sep_pool _ _ _ Hs _ _ _ _ Hr Hj') as [? ?]. split; [done|]. split; [done|].
    intros t' r' Hne Hr'. by apply (sep_pools _ _ _ Hs t t' r r').
  - intros t' r'. rewrite lookup_insert. case_decide as Ht; [|by intros Hr'; apply (sep_pools _ _ _ Hs t t' r r')].
    intros [= <-]. by destruct k.
Qed.

Lemma separate_handed_nodup res h top k : separate res h top -> NoDup (h k).
Proof. intros Hs. apply Hs. Qed.

(** A running state is in order as soon as its allocator and ids are. *)
Lemma inv_running d a res h :
  consistent d a -> separate res h (fun k => current k a) -> inv (mkSys d (Some a) res h).
Proof.
  intros Hc Hs. split; cbn.
  - intros k. by eapply consistent_disk.
  - by intros ? [= <-].
  - done.
  - apply Hs.
Qed.

Lemma alloc_step_inv s s' : inv s -> step s s' -> inv s'.
Proof.
  intros [Hd Ha Hdown Hnd] Hstep.
  inversion Hstep as [d res h|d a res h|d a res h k o d' a' id Hx|d a res h k o d' a' e Hx|d a res h t Ht
    |d a res h t r k r' id Hr Hx|d a res h t r k o d' a' r' id Hr Hx|d a res h t r k o d' a' r' e Hr Hx|d a res h t
    |d a res h o d' a' r Hx];
    subst; cbn [s_disk s_alloc s_res s_handed] in *.
  - apply inv_running; [by apply open_consistent|]. specialize (Hdown eq_refl). split.
    + intros k id Hid. specialize (Hdown k id Hid). by destruct k.
    + done.
    + intros t r k id. by rewrite lookup_empty.
    + intros t r k. by rewrite lookup_empty.
    + intros t t' r r' k id. by rewrite lookup_empty.
  - destruct (Ha a eq_refl) as [Hc Hs]. split; cbn [s_disk s_alloc s_res s_handed]; [done|done| |done]. intros _ k id Hid.
    pose proof (sep_handed _ _ _ Hs _ _ Hid). specialize (Hc k). cbn beta in *. lia.
  - destruct (Ha a eq_refl) as [Hc Hs]. pose proof (allocate_spec batch_size Hbatch d a k o Hc) as Hi. rewrite Hx in Hi.
    apply inv_running; [apply Hi|]. pose proof (issues_range _ _ _ _ _ _ id Hi ltac:(by left)) as Hrange.
    destruct (separate_fresh _ _ _ k id Hs) as [Hh Hp]; [lia|]. specialize (Hc k).
    apply separate_hand; [|lia|done|done]. eapply separate_mono; [by eapply issues_mono|exact Hs].
  - destruct (Ha a eq_refl) as [Hc Hs]. pose proof (allocate_spec batch_size Hbatch d a k o Hc) as Hi. rewrite Hx in Hi.
    destruct Hi as [Hc' Hcur]. apply inv_running; [done|]. eapply separate_mono; [|exact Hs]. intros j. by rewrite Hcur.
  - destruct (Ha a eq_refl) as [Hc Hs]. apply inv_running; [done|].
    assert (Hempty : forall j, pool j (mkRes [] []) = []) by (by intros []).
    split; try apply Hs.
    + intros u r k id. rewrite lookup_insert. case_decide; [|apply Hs]. intros [= <-].
      rewrite Hempty. by intros ?%not_elem_of_nil.
    + intros u r k. rewrite lookup_insert. case_decide; [|apply Hs]. intros [= <-]. rewrite Hempty. constructor.
    + intros u u' r r' k id. rewrite !lookup_insert. case_decide; case_decide; try congruence.
      * intros [= <-] _ _. rewrite Hempty. by intros ?%not_elem_of_nil.
      * intros _ [= <-] _ _. rewrite Hempty. apply not_elem_of_nil.
      * by apply (sep_pools _ _ _ Hs u u').
  - destruct (Ha a eq_refl) as [Hc Hs]. apply inv_running; [done|]. by eapply pop_separate.
  - destruct (Ha a eq_refl) as [Hc Hs].
    destruct (refill_separate _ _ _ _ _ _ _ _ _ _ _ _ Hc Hs Hr Hx) as [Hc' Hs']. by apply inv_running.
  - destruct (Ha a eq_refl) as [Hc Hs].
    destruct (refill_separate _ _ _ _ _ _ _ _ _ _ _ _ Hc Hs Hr Hx) as [Hc' Hs']. by apply inv_running.
  - destruct (Ha a eq_refl) as [Hc Hs]. apply inv_running; [done|]. split; try apply Hs.
    + intros u r k id [_ Hu]%lookup_delete_Some. by apply (sep_pool _ _ _ Hs u).
    + intros u r k [_ Hu]%lookup_delete_Some. by apply (sep_pool_nodup _ _ _ Hs u).
    + intros u u' r r' k id [_ Hu]%lookup_delete_Some [_ Hu']%lookup_delete_Some. by apply (sep_pools _ _ _ Hs u u').
  - destruct (Ha a eq_refl) as [Hc Hs]. pose proof (checkpoint_spec d a o Hc) as Hi. rewrite Hx in Hi.
    destruct Hi as [Hc' Hcur]. apply inv_running; [done|]. eapply separate_mono; [|exact Hs]. intros j. by rewrite Hcur.
Qed.

Lemma alloc_reachable_inv s : reachable s -> inv s.
Proof.
  induction 1 as [|s s' Hr IH Hs]; [|by eapply alloc_step_inv]. split; cbn.
  - intros []; cbn; lia.
  - done.
  - intros _ k id Hid. by apply not_elem_of_nil in Hid.
  - intros k. constructor.
Qed.

(** C35: ids are never reused.  With a positive batch size, every vertex id
    (and every edge id) handed to a caller, directly or from a transaction's
    reservoir, differs from every other one ever handed out, across any
    interleaving of allocations, refills, failed puts of the manifest (landed
    or not), dropped transactions, checkpoints, crashes and restarts; every id
    fits in 64 bits and lies below the durable mark a restart begins at. *)
Theorem ids_never_reused s (k : kind) :
  reachable s ->
  NoDup (s_handed s k)
  /\ forall id, id ∈ s_handed s k -> 0 <= id < next_batch k (load (s_disk s)) /\ is_u64 id.
Proof.
  intros Hr. destruct (alloc_reachable_inv _ Hr) as [Hd Ha Hdown Hnd]. split; [apply Hnd|].
  intros id Hid. specialize (Hd k).
  assert (0 <= id < next_batch k (load (s_disk s))); [|unfold is_u64; lia].
  destruct (s_alloc s) as [a|].
  - destruct (Ha a eq_refl) as [Hc Hs]. pose proof (sep_handed _ _ _ Hs _ _ Hid). specialize (Hc k). cbn beta in *. lia.
  - by apply Hdown.
Qed.
End runs.

(** ** A run: two ids, a crash, a restart, one more. *)
Module Run.
Definition d1 : disk := Some (mkManifest 10 0).
Definition d2 : disk := Some (mkManifest 20 0).
Definition ids (l : list Z) : kind -> list Z := fun k => match k with KVid => l | KEid => [] end.

Definition s1 : sys := mkSys d2 (Some (mkAlloc (mkManifest 20 0) 11 0)) ∅
  (hand KVid 10 (hand KVid 1 (hand KVid 0 (fun _ => [])))).

Lemma alloc_s1_reachable : reachable 10 0 s1.
Proof.
  eapply reach_step; [eapply reach_step; [eapply reach_step; [eapply reach_step; [eapply reach_step;
    [eapply reach_step; [apply reach_init|]|]|]|]|]|].
  - apply step_open.
  - eapply (step_allocate 10 0 _ _ _ _ KVid PutOk). reflexivity.
  - eapply (step_allocate 10 0 _ _ _ _ KVid PutOk). reflexivity.
  - apply step_crash.
  - apply step_open.
  - eapply (step_allocate 10 0 _ _ _ _ KVid PutOk). reflexivity.
Qed.

Lemma ids_never_reused_witness :
  s_handed s1 KVid = [0; 1; 10] /\ NoDup (s_handed s1 KVid).
Proof. split; [by vm_compute|]. apply (ids_never_reused 10 0 ltac:(lia) s1 KVid alloc_s1_reachable). Defined.
End Run.
