(* ===== verification/Csr.v ===== *)
(** * Versioned compressed sparse rows

    crates/uni-store/src/storage/csr.rs: the packed adjacency ([MainCsr]) and
    the unversioned one ([CompressedSparseRow]), both indexed by the raw value
    of a vertex id.  Offsets are u32 and wrap; [rows_exact] needs fewer than
    2^32 entries.  A slice whose start lies past
    its end and a failed [expect] are [None]. *)

From S2P Require Import Prelude.

(** [offsets.iter_mut().take(hi).skip(lo)], each set to [v]. *)
Definition fill (lo hi : nat) (v : Z) (offsets : list Z) : list Z :=
  imap (fun i x => if (lo <=? i)%nat && (i <? hi)%nat then v else x) offsets.

(** The loop over the entries sorted by source, shared by both layouts. *)
Fixpoint place {A} (offsets : list Z) (items : list A) (current_offset : Z) (last_src : nat)
    (sorted : list (Z * A)) : list Z * list A * Z * nat :=
  match sorted with
  | [] => (offsets, items, current_offset, last_src)
  | (src, a) :: sorted =>
      let src_idx := Z.to_nat src in
      let offsets := if (last_src <? src_idx)%nat then fill (last_src + 1) (src_idx + 1) current_offset offsets else offsets in
      place offsets (items ++ [a]) (as_u32 (current_offset + 1)) src_idx sorted
  end.

(** [sort_by_key(|(src, ..)| *src)], a stable sort. *)
Definition by_src {A} (a b : Z * A) : Prop := a.1 <= b.1.
Fixpoint insert_by_src {A} (x : Z * A) (l : list (Z * A)) : list (Z * A) :=
  match l with
  | [] => [x]
  | y :: l' => if x.1 <=? y.1 then x :: l else y :: insert_by_src x l'
  end.
Definition sort_by_src {A} (l : list (Z * A)) : list (Z * A) := foldr insert_by_src [] l.

Definition build_rows {A} (max_vid_offset : nat) (raw : list (Z * A)) : list Z * list A :=
  match raw with
  | [] => ([0], [])
  | _ =>
      let sorted := sort_by_src raw in
      let '(offsets, items, current_offset, last_src) := place (replicate (max_vid_offset + 2) 0) [] 0 0 sorted in
      (fill (last_src + 1) (length offsets) current_offset offsets, items)
  end.

(** The slice of a vertex: empty past the last row or past the data. *)
Definition row {A} (offsets : list Z) (items : list A) (vid : Z) : option (list A) :=
  let local := Z.to_nat vid in
  if (length offsets <=? local + 1)%nat then Some []
  else
    start ← Z.to_nat <$> offsets !! local;
    stop ← Z.to_nat <$> offsets !! (local + 1)%nat;
    if (length items <=? start)%nat || (length items <? stop)%nat then Some []
    else if (start <=? stop)%nat then Some (take (stop - start) (drop start items)) else None.

(** ** The versioned rows *)

Record CsrEdgeEntry := mkEntry { neighbor_vid : Z; e_eid : Z; created_version : Z }.
Record MainCsr := mkCsr { offsets : list Z; entries : list CsrEdgeEntry }.

(** [(src_offset, neighbor_vid, eid, created_version)] *)
Abbreviation RawEdge := (Z * Z * Z * Z)%type.
Definition r_src (r : RawEdge) : Z := r.1.1.1.
Definition r_entry (r : RawEdge) : CsrEdgeEntry := mkEntry r.1.1.2 r.1.2 r.2.

Definition from_edge_entries (max_vid_offset : nat) (raw : list RawEdge) : MainCsr :=
  let '(offsets, entries) := build_rows max_vid_offset ((fun r => (r_src r, r_entry r)) <$> raw) in
  mkCsr offsets entries.

Definition get_entries (self : MainCsr) (vid : Z) : option (list CsrEdgeEntry) :=
  row (offsets self) (entries self) vid.
Definition get_neighbors_unversioned (self : MainCsr) (vid : Z) : option (list Z * list Z) :=
  (fun es : list CsrEdgeEntry => (neighbor_vid <$> es, e_eid <$> es)) <$> get_entries self vid.
Definition num_edges (self : MainCsr) : nat := length (entries self).
Definition num_vertices (self : MainCsr) : nat :=
  match offsets self with [] => O | _ => (length (offsets self) - 1)%nat end.
(** 24 bytes per entry: three 8-byte fields. *)
Definition memory_usage (self : MainCsr) : nat := (length (offsets self) * 4 + length (entries self) * 24)%nat.

(** [offsets.windows(2)], kept where the row is not empty. *)
Definition has_row (self : MainCsr) (i : nat) : bool :=
  match offsets self !! i, offsets self !! S i with
  | Some a, Some b => (a <? b) && (b <=? Z.of_nat (length (entries self)))
  | _, _ => false
  end.
Definition vids_with_entries (self : MainCsr) : list Z :=
  Z.of_nat <$> List.filter (has_row self) (seq 0 (length (offsets self) - 1)).

(** ** The unversioned rows *)

Record CompressedSparseRow := mkRows { c_offsets : list Z; c_neighbors : list Z; c_neighbor_vids : list Z; c_edge_ids : list Z }.

(** [u32::try_from(..).expect(..)] on every neighbour. *)
Definition new (max_vid_offset : nat) (raw : list (Z * Z * Z)) : option CompressedSparseRow :=
  if forallb (fun e => e.1.2 <? 2 ^ 32) raw then
    let '(offsets, items) := build_rows max_vid_offset ((fun e => (e.1.1, (e.1.2, e.2))) <$> raw) in
    Some (mkRows offsets items.*1 items.*1 items.*2)
  else None.

(** The bounds of a row, checked against the length of one of the arrays and
    used to slice them all; [(0, 0)] where the code returns empty slices. *)
Definition row_bounds (offsets : list Z) (n : nat) (vid : Z) : option (nat * nat) :=
  let local := Z.to_nat vid in
  if (length offsets <=? local + 1)%nat then Some (O, O)
  else
    start ← Z.to_nat <$> offsets !! local;
    stop ← Z.to_nat <$> offsets !! (local + 1)%nat;
    if (n <=? start)%nat || (n <? stop)%nat then Some (O, O) else Some (start, stop).
Definition slice {A} (items : list A) (b : nat * nat) : option (list A) :=
  if (b.1 <=? b.2)%nat && (b.2 <=? length items)%nat then Some (take (b.2 - b.1) (drop b.1 items)) else None.

Definition get_neighbors (self : CompressedSparseRow) (vid : Z) : option (list Z * list Z) :=
  b ← row_bounds (c_offsets self) (length (c_neighbor_vids self)) vid;
  vs ← slice (c_neighbor_vids self) b;
  es ← slice (c_edge_ids self) b;
  Some (vs, es).
Definition get_neighbors_dense (self : CompressedSparseRow) (idx : Z) : option (list Z * list Z * list Z) :=
  b ← row_bounds (c_offsets self) (length (c_neighbors self)) idx;
  ns ← slice (c_neighbors self) b;
  vs ← slice (c_neighbor_vids self) b;
  es ← slice (c_edge_ids self) b;
  Some (ns, vs, es).
Definition rows_memory_usage (self : CompressedSparseRow) : nat :=
  (length (c_offsets self) * 4 + length (c_neighbors self) * 4 + length (c_neighbor_vids self) * 8 + length (c_edge_ids self) * 8)%nat.
Definition rows_num_vertices (self : CompressedSparseRow) : nat :=
  match c_offsets self with [] => O | _ => (length (c_offsets self) - 1)%nat end.
Definition rows_num_edges (self : CompressedSparseRow) : nat := length (c_edge_ids self).
(** The triples of row [i], each read by index. *)
Definition iter_row (self : CompressedSparseRow) (i : nat) : option (list (Z * Z * Z)) :=
  start ← Z.to_nat <$> c_offsets self !! i;
  stop ← Z.to_nat <$> c_offsets self !! S i;
  mapM (fun j => v ← c_neighbor_vids self !! j; e ← c_edge_ids self !! j; Some (Z.of_nat i, v, e)) (seq start (stop - start)).
Definition iter_all (self : CompressedSparseRow) : option (list (Z * Z * Z)) :=
  @concat _ <$> mapM (iter_row self) (seq 0 (length (c_offsets self) - 1)).

(** ** Rows hold what was put in *)

Section rows.
  Context {A : Type}.
  Implicit Types (raw sorted l : list (Z * A)) (e : Z * A) (offs : list Z) (items : list A).

(** How many entries have a source below row [i]. *)
Definition below (i : nat) (l : list (Z * A)) : nat := length (filter (fun e => (Z.to_nat e.1 < i)%nat) l).

Lemma lookup_fill lo hi v offs i :
  fill lo hi v offs !! i = (fun x => if decide (lo <= i < hi)%nat then v else x) <$> offs !! i.
Proof.
  unfold fill. rewrite list_lookup_imap. destruct (offs !! i) as [x|]; [|done]. cbn [fmap option_fmap option_map]. f_equal.
  destruct (Nat.leb_spec lo i), (Nat.ltb_spec i hi), (decide (lo <= i < hi)%nat); cbn; done || lia.
Qed.
Lemma length_fill lo hi v offs : length (fill lo hi v offs) = length offs.
Proof. apply length_imap. Qed.

Lemma below_app i l1 l2 : below i (l1 ++ l2) = (below i l1 + below i l2)%nat.
Proof. unfold below. by rewrite filter_app, length_app. Qed.
Lemma below_none i l : Forall (fun e => (i <= Z.to_nat e.1)%nat) l -> below i l = O.
Proof.
  intros H. unfold below. induction H as [|e l He _ IH]; [done|]. by rewrite filter_cons_False by (cbn; lia).
Qed.
Lemma below_all i l : Forall (fun e => (Z.to_nat e.1 < i)%nat) l -> below i l = length l.
Proof.
  intros H. unfold below. induction H as [|e l He _ IH]; [done|]. rewrite filter_cons_True by done. cbn. by rewrite IH.
Qed.
Lemma below_le i l : (below i l <= length l)%nat.
Proof. apply length_filter. Qed.
Lemma below_perm i l l' : l ≡ₚ l' -> below i l = below i l'.
Proof. intros H. unfold below. by rewrite H. Qed.

Lemma insert_by_src_perm e l : insert_by_src e l ≡ₚ e :: l.
Proof. induction l as [|y l IH]; [done|]. cbn. case_match; [done|]. by rewrite IH, Permutation_swap. Qed.
Lemma sort_by_src_perm l : sort_by_src l ≡ₚ l.
Proof. induction l as [|e l IH]; [done|]. cbn. by rewrite insert_by_src_perm, IH. Qed.
Lemma sort_by_src_sorted l : Sorted by_src (sort_by_src l).
Proof.
  induction l as [|e l IH]; [constructor|]. cbn [sort_by_src foldr]. fold (sort_by_src l).
  induction IH as [|y s Hs IHs Hy]; cbn [insert_by_src]; [constructor; [constructor|constructor]|].
  destruct (Z.leb_spec e.1 y.1); [repeat (constructor; try done)|]. constructor; [done|].
  destruct Hy as [|z s Hz]; cbn; [constructor; unfold by_src; lia|]. case_match; constructor; unfold by_src in *; [lia|done].
Qed.
(** Entries of one source keep their order. *)
Lemma sort_by_src_stable (v : Z) l : filter (fun e => e.1 = v) (sort_by_src l) = filter (fun e => e.1 = v) l.
Proof.
  induction l as [|e l IH]; [done|]. cbn [sort_by_src foldr]. rewrite filter_cons, <- IH. fold (sort_by_src l).
  pose proof (sort_by_src_sorted l) as Hs. generalize dependent (sort_by_src l). intros s _ Hs.
  apply Sorted_StronglySorted in Hs; [|intros ???; unfold by_src; lia]. induction Hs as [|y s Hs IHs Hy]; cbn [insert_by_src].
  { rewrite filter_cons. done. }
  destruct (Z.leb_spec e.1 y.1) as [Hle|Hgt]; [by rewrite filter_cons|]. rewrite !(filter_cons _ y), IHs.
  repeat case_decide; try done. exfalso. lia.
Qed.

(** What [place] leaves after the prefix [done] of the sorted entries. *)
Record placed (n : nat) (past : list (Z * A)) offs items (cur : Z) (last : nat) : Prop := {
  pl_len : length offs = n;
  pl_items : items = past.*2;
  pl_cur : cur = Z.of_nat (length past);
  pl_src : Forall (fun e => (Z.to_nat e.1 <= last)%nat) past;
  pl_off i : (i <= last)%nat -> (i < n)%nat -> offs !! i = Some (Z.of_nat (below i past));
}.

Lemma place_ok n past rest offs items cur last :
  placed n past offs items cur last -> Sorted by_src rest ->
  Forall (fun e => (last <= Z.to_nat e.1 < n)%nat) rest -> Z.of_nat (length past + length rest) < 2 ^ 32 ->
  exists offs' last', place offs items cur last rest = (offs', (past ++ rest).*2, Z.of_nat (length (past ++ rest)), last')
    /\ placed n (past ++ rest) offs' (past ++ rest).*2 (Z.of_nat (length (past ++ rest))) last'.
Proof.
  revert past offs items cur last. induction rest as [|[src a] rest IH]; intros past offs items cur last P Hs Hr Hn.
  { rewrite app_nil_r. cbn. destruct P as [P1 -> -> P4 P5]. by exists offs, last. }
  cbn [place]. apply Forall_cons in Hr as [[Hl Hb] Hr]. cbn [fst] in Hl, Hb. destruct P as [P1 -> -> P4 P5].
  set (offs1 := if (last <? Z.to_nat src)%nat then _ else _).
  assert (Hlt : Forall (fun e : Z * A => (Z.to_nat src <= Z.to_nat e.1)%nat) rest).
  { apply Sorted_StronglySorted in Hs; [|intros ???; unfold by_src; lia]. inversion Hs as [|? ? _ H]; subst.
    eapply Forall_impl; [exact H|]. unfold by_src. cbn. intros. lia. }
  destruct (IH (past ++ [(src, a)]) offs1 (past.*2 ++ [a]) (as_u32 (Z.of_nat (length past) + 1)) (Z.to_nat src))
    as (offs' & last' & E & P').
  - split.
    + unfold offs1. destruct (last <? Z.to_nat src)%nat; [by rewrite length_fill|done].
    + by rewrite fmap_app.
    + rewrite length_app. unfold as_u32. rewrite Z.mod_small; [cbn; lia|]. cbn in Hn. lia.
    + apply Forall_app. split; [|by constructor]. eapply Forall_impl; [exact P4|]. cbn. lia.
    + intros i Hi Hin. rewrite below_app, (below_none i [(src, a)]), Nat.add_0_r by (constructor; [cbn; lia|done]).
      unfold offs1. destruct (Nat.ltb_spec last (Z.to_nat src)) as [Hc|Hc]; [|apply P5; lia].
      rewrite lookup_fill. destruct (decide (i <= last)%nat) as [Hil|Hil].
      * rewrite P5 by lia. cbn. by rewrite decide_False by lia.
      * destruct (lookup_lt_is_Some_2 offs i) as [x ->]; [lia|]. cbn. rewrite decide_True by lia.
        f_equal. rewrite below_all; [done|]. eapply Forall_impl; [exact P4|]. cbn. lia.
  - by apply Sorted_inv in Hs as [? _].
  - apply Forall_and in Hr. apply Forall_and. split; [done|]. eapply Forall_impl; [apply Hr|]. done.
  - rewrite length_app. cbn in *. lia.
  - exists offs', last'. rewrite <- app_assoc in E, P'. done.
Qed.

Lemma filter_none {B} (P : B -> Prop) `{!forall x, Decision (P x)} (bs : list B) :
  Forall (fun x => ~ P x) bs -> filter P bs = [].
Proof. induction 1; [done|]. by rewrite filter_cons_False. Qed.
Lemma sorted_filter (P : Z * A -> Prop) `{!forall x, Decision (P x)} l :
  StronglySorted by_src l -> StronglySorted by_src (filter P l).
Proof.
  induction 1 as [|e l _ IH He]; [constructor|]. rewrite filter_cons. case_decide; [|done]. constructor; [done|].
  apply Forall_forall. intros x [_ Hx]%list_elem_of_filter. by eapply Forall_forall in Hx.
Qed.

Lemma sorted_split (i : nat) l : Sorted by_src l ->
  l = filter (fun e => (Z.to_nat e.1 < i)%nat) l ++ filter (fun e => ~ (Z.to_nat e.1 < i)%nat) l.
Proof.
  intros Hs%Sorted_StronglySorted; [|intros ???; unfold by_src; lia]. induction Hs as [|e l Hs IH He]; [done|].
  rewrite !filter_cons. destruct (decide (Z.to_nat e.1 < i)%nat) as [Hi|Hi].
  - rewrite decide_False by (intros H; by apply H). cbn. by f_equal.
  - rewrite decide_True by done. assert (Hn : filter (fun e => (Z.to_nat e.1 < i)%nat) l = []).
    { apply filter_none. eapply Forall_impl; [exact He|]. unfold by_src. cbn. intros. lia. }
    rewrite Hn in IH |- *. cbn in *. by rewrite <- IH.
Qed.

Lemma below_S i l : Sorted by_src l ->
  take (below (i + 1) l - below i l) (drop (below i l) l.*2) = (filter (fun e => Z.to_nat e.1 = i) l).*2.
Proof.
  intros Hs. set (lo := filter (fun e => (Z.to_nat e.1 < i)%nat) l). set (hi := filter (fun e => ~ (Z.to_nat e.1 < i)%nat) l).
  assert (Hl : l = lo ++ hi) by by apply sorted_split.
  assert (Hhi : Sorted by_src hi).
  { apply StronglySorted_Sorted, sorted_filter, Sorted_StronglySorted; [intros ???; unfold by_src; lia|done]. }
  set (eq := filter (fun e => (Z.to_nat e.1 < i + 1)%nat) hi). set (gt := filter (fun e => ~ (Z.to_nat e.1 < i + 1)%nat) hi).
  assert (Hh : hi = eq ++ gt) by by apply sorted_split.
  assert (E1 : below i l = length lo) by done.
  assert (E2 : below (i + 1) l = (length lo + length eq)%nat).
  { rewrite Hl, below_app, below_all; [done|]. apply Forall_forall. intros e [He _]%list_elem_of_filter. lia. }
  assert (E3 : eq = filter (fun e => Z.to_nat e.1 = i) l).
  { unfold eq, hi. rewrite list_filter_filter. apply list_filter_iff. intros e. lia. }
  rewrite E1, E2, Hl, Hh, !fmap_app, drop_app_length' by by rewrite length_fmap.
  replace (length lo + length eq - length lo)%nat with (length eq) by lia.
  rewrite take_app_length' by by rewrite length_fmap. by rewrite <- Hh, <- Hl, E3.
Qed.

Lemma place_offsets max raw : raw <> [] ->
  Forall (fun e => 0 <= e.1 /\ (Z.to_nat e.1 <= max)%nat) raw -> Z.of_nat (length raw) < 2 ^ 32 ->
  exists offs, build_rows max raw = (offs, (sort_by_src raw).*2) /\ length offs = (max + 2)%nat
    /\ forall i, (i < max + 2)%nat -> offs !! i = Some (Z.of_nat (below i (sort_by_src raw))).
Proof.
  intros Hne Hr Hn. unfold build_rows. destruct raw as [|r0 raw']; [done|]. set (raw := r0 :: raw') in *.
  set (sorted := sort_by_src raw). assert (Hp : sorted ≡ₚ raw) by apply sort_by_src_perm.
  destruct (place_ok (max + 2) [] sorted (replicate (max + 2) 0) [] 0 0) as (offs & last & -> & P).
  - split; [by rewrite length_replicate|done|done|by constructor|]. intros i Hi Hin. by rewrite lookup_replicate_2.
  - apply sort_by_src_sorted.
  - rewrite Hp. eapply Forall_impl; [exact Hr|]. cbn. lia.
  - pose proof (Permutation_length Hp). cbn [length]. lia.
  - cbn [app] in P. destruct P as [P1 _ _ P4 P5]. eexists. split; [reflexivity|]. rewrite length_fill. split; [done|].
    intros i Hi. rewrite lookup_fill. destruct (decide (i <= last)%nat) as [Hil|Hil].
    + rewrite P5 by lia. cbn [fmap option_fmap option_map]. by rewrite decide_False by lia.
    + destruct (lookup_lt_is_Some_2 offs i) as [x ->]; [lia|]. cbn [fmap option_fmap option_map].
      rewrite decide_True by lia. f_equal. rewrite below_all; [done|]. eapply Forall_impl; [exact P4|]. cbn. lia.
Qed.

(** The row of a vertex holds its entries. *)
Lemma rows_exact max raw offs items (vid : Z) : build_rows max raw = (offs, items) ->
  Forall (fun e => 0 <= e.1 /\ (Z.to_nat e.1 <= max)%nat) raw -> Z.of_nat (length raw) < 2 ^ 32 -> 0 <= vid ->
  row offs items vid = Some (filter (fun e => e.1 = vid) raw).*2.
Proof.
  intros E Hr Hn Hv. destruct (decide (raw = [])) as [->|Hne].
  { injection E as <- <-. unfold row. cbn. by destruct (Z.to_nat vid). }
  destruct (place_offsets max raw Hne Hr Hn) as (offs' & E' & Hlen & Hoff). rewrite E in E'. injection E' as -> ->.
  set (sorted := sort_by_src raw) in *. assert (Hp : sorted ≡ₚ raw) by apply sort_by_src_perm.
  assert (Hs : Sorted by_src sorted) by apply sort_by_src_sorted.
  assert (Hf : filter (fun e => e.1 = vid) raw = filter (fun e => Z.to_nat e.1 = Z.to_nat vid) sorted).
  { rewrite <- (sort_by_src_stable vid raw). fold sorted. assert (Hr' : Forall (fun e : Z * A => 0 <= e.1) sorted).
    { rewrite Hp. eapply Forall_impl; [exact Hr|]. cbn. lia. }
    clear -Hr' Hv. induction Hr' as [|e l He _ IH]; [done|]. rewrite !filter_cons, IH. repeat case_decide; try done; exfalso; lia. }
  rewrite Hf. unfold row. set (v := Z.to_nat vid) in *. destruct (Nat.leb_spec (length offs') (v + 1)) as [Hb|Hb].
  - replace (filter _ sorted) with (@nil (Z * A)); [done|].
    symmetry. apply filter_none. rewrite Hp. eapply Forall_impl; [exact Hr|]. cbn. lia.
  - rewrite !Hoff by lia. cbn [fmap option_fmap option_map mbind option_bind]. rewrite !Nat2Z.id, length_fmap.
    pose proof (below_S v sorted Hs) as HS.
    assert (Hmono : (below v sorted <= below (v + 1) sorted)%nat).
    { clear. induction sorted as [|e l IH]; [done|]. unfold below in *. rewrite !filter_cons.
      repeat case_decide; cbn; try lia. }
    pose proof (below_le (v + 1) sorted). destruct (Nat.leb_spec (length sorted) (below v sorted)) as [Hc|Hc]; cbn [orb].
    + rewrite <- HS, drop_ge by (rewrite length_fmap; lia). by rewrite take_nil.
    + destruct (Nat.ltb_spec (length sorted) (below (v + 1) sorted)); [lia|].
      destruct (Nat.leb_spec (below v sorted) (below (v + 1) sorted)); [|lia]. by rewrite HS.
Qed.
End rows.

Lemma row_bounds_row {A} offs (items : list A) n (vid : Z) : length items = n ->
  row_bounds offs n vid ≫= slice items = row offs items vid.
Proof.
  intros <-. unfold row_bounds, row, slice. destruct (_ <=? _)%nat; [done|].
  destruct (offs !! Z.to_nat vid) as [a|]; [|done]. destruct (offs !! (Z.to_nat vid + 1)%nat) as [b|]; [|done].
  cbn [fmap option_fmap option_map mbind option_bind].
  destruct (Nat.leb_spec (length items) (Z.to_nat a)), (Nat.ltb_spec (length items) (Z.to_nat b));
    cbn [orb mbind option_bind fst snd]; try done.
  destruct (Nat.leb_spec (Z.to_nat b) (length items)); [|lia]. by rewrite andb_true_r.
Qed.

(** ** The two layouts *)

Definition fits (max_vid_offset : nat) (raw : list RawEdge) : Prop :=
  Forall (fun r => 0 <= r_src r /\ (Z.to_nat (r_src r) <= max_vid_offset)%nat) raw /\ Z.of_nat (length raw) < 2 ^ 32.

Lemma get_entries_exact max raw (vid : Z) : fits max raw -> 0 <= vid ->
  get_entries (from_edge_entries max raw) vid = Some (r_entry <$> filter (fun e => r_src e = vid) raw).
Proof.
  intros [Hf Hn] Hv. unfold get_entries, from_edge_entries.
  destruct (build_rows max ((fun r => (r_src r, r_entry r)) <$> raw)) as [offs items] eqn:E. cbn [offsets entries].
  rewrite (rows_exact _ _ _ _ vid E); [|by rewrite Forall_fmap|by rewrite length_fmap|done]. f_equal. clear. induction raw as [|e raw IH]; [done|]. cbn [fmap list_fmap].
  rewrite !filter_cons. cbn [fst]. case_decide; cbn [fmap list_fmap snd]; by rewrite IH.
Qed.

Lemma from_entries_length max raw : fits max raw ->
  (num_edges (from_edge_entries max raw) = length raw)%nat
  /\ (raw <> [] -> num_vertices (from_edge_entries max raw) = (max + 1)%nat).
Proof.
  intros [Hf Hn]. unfold num_edges, num_vertices, from_edge_entries. destruct (decide (raw = [])) as [->|Hne]; [done|].
  destruct (place_offsets max ((fun r => (r_src r, r_entry r)) <$> raw)) as (offs & -> & Hl & _).
  - by destruct raw.
  - by rewrite Forall_fmap.
  - by rewrite length_fmap.
  - cbn [entries offsets]. split.
    + by rewrite length_fmap, (Permutation_length (sort_by_src_perm _)), length_fmap.
    + intros _. destruct offs as [|o offs]; [cbn in Hl; lia|]. rewrite Hl. lia.
Qed.
