(* ===== verification/Remapper.v ===== *)
(** * Dense indices for sparse ids

    crates/uni-store/src/runtime/vid_remapper.rs: the two-way map between
    vertex (or edge) ids and dense u32 indices, and the rows built over it
    ([CompressedSparseRow::from_edges] of crates/uni-store/src/storage/csr.rs).
    Indexing past the end and [unwrap] on nothing are [None]. *)

From S2P Require Import Prelude Csr.

(** ** The remappers *)

Record VidRemapper := mkRemapper { vid_to_dense : gmap Z Z; dense_to_vid : list Z }.

Module Remap.
Definition new : VidRemapper := mkRemapper ∅ [].

(** [DenseIdx::new(len as u32)] for an id seen first. *)
Definition insert (self : VidRemapper) (vid : Z) : VidRemapper * Z :=
  match vid_to_dense self !! vid with
  | Some idx => (self, idx)
  | None =>
      let idx := as_u32 (Z.of_nat (length (dense_to_vid self))) in
      (mkRemapper (<[vid := idx]> (vid_to_dense self)) (dense_to_vid self ++ [vid]), idx)
  end.

Fixpoint insert_many (self : VidRemapper) (vids : list Z) : VidRemapper * list Z :=
  match vids with
  | [] => (self, [])
  | vid :: vids =>
      let '(self, idx) := insert self vid in
      let '(self, idxs) := insert_many self vids in
      (self, idx :: idxs)
  end.

Definition to_dense (self : VidRemapper) (vid : Z) : option Z := vid_to_dense self !! vid.
(** [to_dense_unchecked] and [to_vid] panic where these are [None]. *)
Definition to_dense_unchecked (self : VidRemapper) (vid : Z) : option Z := vid_to_dense self !! vid.
Definition to_vid (self : VidRemapper) (idx : Z) : option Z := dense_to_vid self !! Z.to_nat idx.
Definition to_vid_opt (self : VidRemapper) (idx : Z) : option Z := dense_to_vid self !! Z.to_nat idx.
Definition len (self : VidRemapper) : nat := length (dense_to_vid self).
Definition is_empty (self : VidRemapper) : bool := bool_decide (dense_to_vid self = []).
Definition contains (self : VidRemapper) (vid : Z) : bool := bool_decide (is_Some (vid_to_dense self !! vid)).
Definition iter (self : VidRemapper) : list (Z * Z) := imap (fun i vid => (as_u32 (Z.of_nat i), vid)) (dense_to_vid self).
Definition vids (self : VidRemapper) : list Z := dense_to_vid self.
Definition clear (self : VidRemapper) : VidRemapper := new.
End Remap.

Record EidRemapper := mkEidRemapper { eid_to_dense : gmap Z Z; dense_to_eid : list Z }.

Module EidRemap.
Definition new : EidRemapper := mkEidRemapper ∅ [].
Definition insert (self : EidRemapper) (eid : Z) : EidRemapper * Z :=
  match eid_to_dense self !! eid with
  | Some idx => (self, idx)
  | None =>
      let idx := as_u32 (Z.of_nat (length (dense_to_eid self))) in
      (mkEidRemapper (<[eid := idx]> (eid_to_dense self)) (dense_to_eid self ++ [eid]), idx)
  end.
Definition to_dense (self : EidRemapper) (eid : Z) : option Z := eid_to_dense self !! eid.
Definition to_eid (self : EidRemapper) (idx : Z) : option Z := dense_to_eid self !! Z.to_nat idx.
Definition len (self : EidRemapper) : nat := length (dense_to_eid self).
Definition is_empty (self : EidRemapper) : bool := bool_decide (dense_to_eid self = []).
End EidRemap.

(** ** Rows over dense indices *)

(** The loops that fill [offsets] from [current_src] to [stop]. *)
Fixpoint advance (n : nat) (offsets : list Z) (current_src : nat) (v : Z) : option (list Z * nat) :=
  match n with
  | O => Some (offsets, current_src)
  | S n =>
      if decide (current_src + 1 < length offsets)%nat
      then advance n (<[(current_src + 1)%nat := v]> offsets) (current_src + 1) v
      else None
  end.
Definition advance_to (offsets : list Z) (current_src stop : nat) (v : Z) : option (list Z * nat) :=
  advance (stop - current_src) offsets current_src v.

Fixpoint place_dense (remapper : VidRemapper) (offsets : list Z) (items : list (Z * Z * Z)) (current_src : nat)
    (current_offset : Z) (edges : list (Z * (Z * Z))) : option (list Z * list (Z * Z * Z) * nat * Z) :=
  match edges with
  | [] => Some (offsets, items, current_src, current_offset)
  | (src_dense, (dst_vid, eid)) :: edges =>
      '(offsets, current_src) ← advance_to offsets current_src (Z.to_nat src_dense) current_offset;
      dst_dense ← Remap.to_dense remapper dst_vid;
      place_dense remapper offsets (items ++ [(dst_dense, dst_vid, eid)]) current_src (as_u32 (current_offset + 1)) edges
  end.

Definition insert_endpoints (remapper : VidRemapper) (entries : list (Z * Z * Z)) : VidRemapper :=
  foldl (fun r e => (Remap.insert (Remap.insert r e.1.1).1 e.1.2).1) remapper entries.

Definition from_edges (entries : list (Z * Z * Z)) (remapper : VidRemapper) : option (CompressedSparseRow * VidRemapper) :=
  match entries with
  | [] => Some (mkRows [0] [] [] [], remapper)
  | _ =>
      let remapper := insert_endpoints remapper entries in
      edges ← mapM (fun e : Z * Z * Z => d ← Remap.to_dense remapper e.1.1; Some (d, (e.1.2, e.2))) entries;
      let edges := sort_by_src edges in
      let max_dense := Remap.len remapper in
      '(offsets, items, current_src, current_offset) ← place_dense remapper (replicate (max_dense + 1) 0) [] 0 0 edges;
      '(offsets, _) ← advance_to offsets current_src max_dense current_offset;
      Some (mkRows offsets (fst ∘ fst <$> items) (snd ∘ fst <$> items) (snd <$> items), remapper)
  end.


(** ** The remapper is a bijection *)

Section remapper.
  Implicit Types (r : VidRemapper).

(** Indices are positions, and no id has two. *)
Record bijective (r : VidRemapper) : Prop := {
  bj_fwd v i : vid_to_dense r !! v = Some i -> 0 <= i /\ dense_to_vid r !! Z.to_nat i = Some v;
  bj_bwd k v : dense_to_vid r !! k = Some v -> vid_to_dense r !! v = Some (Z.of_nat k);
}.

Lemma bijective_new : bijective Remap.new.
Proof. split; cbn; intros *; [by rewrite lookup_empty|by rewrite lookup_nil]. Qed.

Lemma insert_known r v i : vid_to_dense r !! v = Some i -> Remap.insert r v = (r, i).
Proof. intros E. unfold Remap.insert. by rewrite E. Qed.

Lemma insert_spec r v : bijective r -> Z.of_nat (Remap.len r) < 2 ^ 32 ->
  exists r' i, Remap.insert r v = (r', i) /\ bijective r' /\ Remap.to_dense r' v = Some i /\ Remap.to_vid r' i = Some v
    /\ (forall u j, Remap.to_dense r u = Some j -> Remap.to_dense r' u = Some j)
    /\ (forall u, is_Some (Remap.to_dense r' u) <-> u = v \/ is_Some (Remap.to_dense r u))
    /\ (Remap.len r <= Remap.len r' <= S (Remap.len r))%nat.
Proof.
  intros [H1 H2] Hn. unfold Remap.insert, Remap.to_dense, Remap.to_vid, Remap.len in *. destruct (vid_to_dense r !! v) as [i|] eqn:E.
  - exists r, i. split_and!; try done; [by apply H1| |lia]. intros u. split; [auto|]. intros [->|?]; [by eexists|done].
  - assert (Ei : as_u32 (Z.of_nat (length (dense_to_vid r))) = Z.of_nat (length (dense_to_vid r))) by (unfold as_u32; apply Z.mod_small; lia).
    rewrite Ei. eexists _, _. split; [reflexivity|]. cbn [vid_to_dense dense_to_vid]. split_and!.
    + split; cbn [vid_to_dense dense_to_vid].
      * intros u j. rewrite lookup_insert_Some. intros [[<- <-]|[_ [Hj Hd]%H1]].
        -- split; [lia|]. rewrite Nat2Z.id. by rewrite list_lookup_middle.
        -- split; [done|]. by apply lookup_app_l_Some.
      * intros k u [Hk|[Hk Hu]]%lookup_app_Some.
        -- rewrite lookup_insert_ne; [by apply H2|]. intros ->. apply H2 in Hk. congruence.
        -- apply list_lookup_singleton_Some in Hu as [Hk' ->]. rewrite lookup_insert_eq. f_equal. lia.
    + by rewrite lookup_insert_eq.
    + rewrite Nat2Z.id. by rewrite list_lookup_middle.
    + intros u j Hu. rewrite lookup_insert_ne; [done|]. intros ->. congruence.
    + intros u. destruct (decide (u = v)) as [->|Hne]; [rewrite lookup_insert_eq; split; [auto|by eexists]|].
      rewrite lookup_insert_ne by done. split; [auto|]. by intros [->|?].
    + rewrite length_app. cbn. lia.
    + rewrite length_app. cbn. lia.
Qed.

Lemma to_dense_bound r v i : bijective r -> Remap.to_dense r v = Some i -> 0 <= i /\ (Z.to_nat i < Remap.len r)%nat.
Proof. intros [H1 _] [? H]%H1. split; [done|]. by apply lookup_lt_Some in H. Qed.

(** What inserting the endpoints of [es] does to a remapper. *)
Record extends (r r' : VidRemapper) (es : list (Z * Z * Z)) : Prop := {
  ex_bij : bijective r';
  ex_keep u j : Remap.to_dense r u = Some j -> Remap.to_dense r' u = Some j;
  ex_dom u : is_Some (Remap.to_dense r' u) <-> is_Some (Remap.to_dense r u) \/ exists e, e ∈ es /\ (u = e.1.1 \/ u = e.1.2);
  ex_len : (Remap.len r' <= Remap.len r + 2 * length es)%nat;
}.

Lemma insert_endpoints_spec es r : bijective r -> Z.of_nat (Remap.len r + 2 * length es) < 2 ^ 32 ->
  extends r (insert_endpoints r es) es.
Proof.
  revert r. induction es as [|e es IH]; intros r Hb Hn.
  { split; [done|done| |cbn; lia]. intros u. split; [auto|]. by intros [?|(? & ?%elem_of_nil & _)]. }
  cbn [length] in Hn. cbn [insert_endpoints foldl]. fold (insert_endpoints (Remap.insert (Remap.insert r e.1.1).1 e.1.2).1 es).
  destruct (insert_spec r e.1.1 Hb) as (r1 & i & -> & B1 & _ & _ & K1 & D1 & L1); [lia|]. cbn [fst].
  destruct (insert_spec r1 e.1.2 B1) as (r2 & j & -> & B2 & _ & _ & K2 & D2 & L2); [lia|]. cbn [fst].
  destruct (IH r2 B2) as [B3 K3 D3 L3]; [lia|]. split; [done|auto| |cbn [length]; lia].
  intros u. rewrite D3, D2, D1. setoid_rewrite elem_of_cons. split.
  - intros [[->|[->|?]]|(x & ? & ?)]; [right; exists e; auto|right; exists e; auto|auto|right; exists x; auto].
  - intros [?|(x & [->|?] & Hx)]; [auto| |right; eauto]. left. tauto.
Qed.

(** ** Filling the offsets *)

Lemma advance_fill n offs cur v : (cur + n < length offs)%nat ->
  advance n offs cur v = Some (fill (cur + 1) (cur + n + 1) v offs, (cur + n)%nat).
Proof.
  revert offs cur. induction n as [|n IH]; intros offs cur H; cbn [advance].
  - f_equal. f_equal; [|lia]. apply list_eq. intros i. rewrite lookup_fill. destruct (offs !! i); [|done]. cbn.
    by rewrite decide_False by lia.
  - rewrite decide_True by lia. rewrite IH by (rewrite length_insert; lia). f_equal. f_equal; [|lia]. apply list_eq. intros i.
    rewrite !lookup_fill. destruct (decide (i = cur + 1)%nat) as [->|Hi].
    + rewrite list_lookup_insert_eq by lia. destruct (lookup_lt_is_Some_2 offs (cur + 1)) as [x ->]; [lia|]. cbn.
      repeat case_decide; try done; exfalso; lia.
    + rewrite list_lookup_insert_ne by lia. destruct (offs !! i); [|done]. cbn. repeat case_decide; try done; exfalso; lia.
Qed.

Lemma advance_to_fill offs cur stop v : (cur <= stop)%nat -> (stop < length offs)%nat ->
  advance_to offs cur stop v = Some (fill (cur + 1) (stop + 1) v offs, stop).
Proof. intros H1 H2. unfold advance_to. rewrite advance_fill by lia. f_equal. f_equal; [f_equal|]; lia. Qed.

Lemma fill_same offs i v : fill (i + 1) (i + 1) v offs = offs.
Proof. apply list_eq. intros k. rewrite lookup_fill. destruct (offs !! k); [|done]. cbn. by rewrite decide_False by lia. Qed.

Lemma place_dense_place r offs items cur off es : Sorted by_src es ->
  Forall (fun e => (cur <= Z.to_nat e.1 < length offs)%nat /\ is_Some (Remap.to_dense r e.2.1)) es ->
  let item := fun p : Z * Z => (default 0 (Remap.to_dense r p.1), p.1, p.2) in
  place_dense r offs items cur off es
  = let '(offs', items', off', last) := place offs items off cur (prod_map id item <$> es) in Some (offs', items', last, off').
Proof.
  intros Hs%Sorted_StronglySorted Hf item; [|intros ???; unfold by_src; lia].
  revert offs items cur off Hf. induction Hs as [|[src [dst eid]] es Hs IH He]; intros offs items cur off Hf; [done|].
  cbn [place_dense fmap list_fmap place prod_map fst snd id]. apply Forall_cons in Hf as [[[Hc Hl] [dd Hd]] Hf]. cbn [fst snd] in *.
  rewrite advance_to_fill by lia. cbn [mbind option_bind]. rewrite Hd. cbn [mbind option_bind].
  assert (Hlt : Forall (fun e : Z * (Z * Z) => (Z.to_nat src <= Z.to_nat e.1)%nat) es).
  { eapply Forall_impl; [exact He|]. unfold by_src. cbn. lia. }
  assert (Hf' : forall offs' : list Z, length offs' = length offs ->
    Forall (fun e => (Z.to_nat src <= Z.to_nat e.1 < length offs')%nat /\ is_Some (Remap.to_dense r e.2.1)) es).
  { intros offs' Hlen. rewrite Hlen. apply Forall_forall. intros e Hin. rewrite Forall_forall in Hf, Hlt. split; [|by apply Hf].
    split; [by apply Hlt|by apply Hf]. }
  rewrite IH by (apply Hf', length_fill). replace (item (dst, eid)) with (dd, dst, eid) by (unfold item; cbn [fst snd]; by rewrite Hd).
  destruct (Nat.ltb_spec cur (Z.to_nat src)); [done|]. replace cur with (Z.to_nat src) by lia. by rewrite fill_same.
Qed.

Lemma mapM_dense r es : (forall e, e ∈ es -> is_Some (Remap.to_dense r e.1.1)) ->
  mapM (fun e : Z * Z * Z => d ← Remap.to_dense r e.1.1; Some (d, (e.1.2, e.2))) es
  = Some ((fun e => (default 0 (Remap.to_dense r e.1.1), (e.1.2, e.2))) <$> es).
Proof.
  induction es as [|e es IH]; intros H; [done|]. cbn [mapM fmap list_fmap]. destruct (H e) as [i Hi]; [by left|].
  rewrite Hi. cbn [mbind option_bind default]. rewrite IH by (intros; apply H; by right). done.
Qed.

Lemma sort_by_src_fmap {A B} (f : A -> B) (l : list (Z * A)) : sort_by_src (prod_map id f <$> l) = prod_map id f <$> sort_by_src l.
Proof.
  induction l as [|e l IH]; [done|]. cbn [fmap list_fmap sort_by_src foldr]. fold (sort_by_src l). fold (sort_by_src (prod_map id f <$> l)).
  rewrite IH. generalize (sort_by_src l). intros s. induction s as [|y s IHs]; [done|]. cbn [fmap list_fmap insert_by_src prod_map fst snd id].
  change (prod_map id f e).1 with e.1. change (prod_map id f y).1 with y.1.
  destruct (e.1 <=? y.1); cbn [fmap list_fmap]; [done|]. f_equal. exact IHs.
Qed.

Lemma length_place {A} offs (items : list A) off cur (l : list (Z * A)) offs' items' off' last :
  place offs items off cur l = (offs', items', off', last) -> length offs' = length offs.
Proof.
  revert offs items off cur. induction l as [|[s a] l IH]; intros offs items off cur E; cbn [place] in E; [congruence|].
  apply IH in E. rewrite E. destruct (cur <? Z.to_nat s)%nat; [apply length_fill|done].
Qed.
Lemma place_last {A} offs (items : list A) off cur (l : list (Z * A)) offs' items' off' last n :
  place offs items off cur l = (offs', items', off', last) -> (cur <= n)%nat -> Forall (fun e => (Z.to_nat e.1 <= n)%nat) l -> (last <= n)%nat.
Proof.
  revert offs items off cur. induction l as [|[s a] l IH]; intros offs items off cur E Hc Hl; cbn [place] in E; [congruence|].
  apply Forall_cons in Hl as [? ?]. by eapply IH.
Qed.

(** The rows of [from_edges], as [build_rows] lays them out. *)
Lemma from_edges_rows r es : es <> [] -> bijective r -> Z.of_nat (Remap.len r + 2 * length es) < 2 ^ 32 ->
  let r' := insert_endpoints r es in let index := fun v => default 0 (Remap.to_dense r' v) in
  exists offs items, build_rows (Remap.len r' - 1) ((fun e : Z * Z * Z => (index e.1.1, (index e.1.2, e.1.2, e.2))) <$> es) = (offs, items)
    /\ from_edges es r = Some (mkRows offs (fst ∘ fst <$> items) (snd ∘ fst <$> items) (snd <$> items), r').
Proof.
  intros Hne Hb Hn r' index. destruct (insert_endpoints_spec es r Hb Hn) as [B K D L]. fold r' in B, K, D, L.
  assert (Hdst : forall e, e ∈ es -> is_Some (Remap.to_dense r' e.1.1) /\ is_Some (Remap.to_dense r' e.1.2)).
  { intros e He. split; apply D; right; exists e; auto. }
  set (edges := (fun e : Z * Z * Z => (index e.1.1, (e.1.2, e.2))) <$> es). set (item := fun p : Z * Z => (index p.1, p.1, p.2)).
  assert (Hf : Forall (fun e => (Z.to_nat e.1 < Remap.len r')%nat /\ is_Some (Remap.to_dense r' e.2.1)) (sort_by_src edges)).
  { rewrite sort_by_src_perm. apply Forall_fmap, Forall_forall. intros e He. cbn. destruct (Hdst e He) as [[i Hi] ?].
    unfold index. rewrite Hi. cbn. destruct (to_dense_bound _ _ _ B Hi). auto. }
  assert (Hpos : (0 < Remap.len r')%nat).
  { destruct es as [|e es']; [done|]. destruct (Hdst e) as [[i Hi] _]; [by left|]. apply (to_dense_bound _ _ _ B) in Hi. lia. }
  assert (El : (fun e : Z * Z * Z => (index e.1.1, (index e.1.2, e.1.2, e.2))) <$> es = prod_map id item <$> edges)
    by (unfold edges; by rewrite <- list_fmap_compose).
  pose proof (place_dense_place r' (replicate (Remap.len r' + 1) 0) [] 0 0 _ (sort_by_src_sorted edges)) as HP. cbv zeta in HP.
  change (fun p : Z * Z => (default 0 (Remap.to_dense r' p.1), p.1, p.2)) with item in HP. rewrite <- sort_by_src_fmap in HP.
  unfold build_rows. rewrite El. destruct (prod_map id item <$> edges) as [|x l] eqn:Ex; [by destruct es|]. rewrite <- Ex in HP |- *. clear x l Ex El.
  replace (Remap.len r' - 1 + 2)%nat with (Remap.len r' + 1)%nat by lia.
  destruct (place (replicate (Remap.len r' + 1) 0) [] 0 0 (sort_by_src _)) as [[[offs items] off] last] eqn:Ep.
  pose proof (length_place _ _ _ _ _ _ _ _ _ Ep) as Hlen. rewrite length_replicate in Hlen.
  assert (Hlast : (last <= Remap.len r' - 1)%nat).
  { eapply place_last; [exact Ep|lia|]. rewrite sort_by_src_fmap, Forall_fmap. eapply Forall_impl; [exact Hf|]. intros x [? _]. change (Z.to_nat x.1 <= Remap.len r' - 1)%nat. lia. }
  eexists _, _. split; [reflexivity|]. unfold from_edges. destruct es as [|e0 es0]; [done|]. set (es := e0 :: es0) in *. fold r'.
  rewrite mapM_dense by (intros e He; by apply Hdst). cbn [mbind option_bind].
  change ((fun e : Z * Z * Z => (default 0 (Remap.to_dense r' e.1.1), (e.1.2, e.2))) <$> es) with edges.
  rewrite HP; [|eapply Forall_impl; [exact Hf|]; cbn; rewrite length_replicate; intros x [? ?]; split; [lia|done]]. cbn [mbind option_bind].
  rewrite advance_to_fill by lia. cbn [mbind option_bind]. by rewrite Hlen.
Qed.

Lemma slice_fmap {A B} (f : A -> B) (l : list A) b : slice (f <$> l) b = (fmap f : list A -> list B) <$> slice l b.
Proof. unfold slice. rewrite length_fmap. destruct (_ && _); [|done]. cbn. by rewrite fmap_take, fmap_drop. Qed.

Lemma dense_row offs (items : list (Z * Z * Z)) i l : row offs items i = Some l ->
  get_neighbors_dense (mkRows offs (fst ∘ fst <$> items) (snd ∘ fst <$> items) (snd <$> items)) i
  = Some (fst ∘ fst <$> l, snd ∘ fst <$> l, snd <$> l).
Proof.
  rewrite <- (row_bounds_row offs items (length items) i eq_refl). unfold get_neighbors_dense.
  cbn [c_offsets c_neighbors c_neighbor_vids c_edge_ids]. rewrite length_fmap. destruct (row_bounds _ _ i) as [b|]; [|done].
  cbn [mbind option_bind]. intros E. rewrite !slice_fmap, E. done.
Qed.

Lemma dense_inj r u v i : bijective r -> Remap.to_dense r u = Some i -> Remap.to_dense r v = Some i -> u = v.
Proof. intros [H1 _] [_ Hu]%H1 [_ Hv]%H1. congruence. Qed.

Lemma filter_dense {A} r (f : Z * Z * Z -> A) v i (es : list (Z * Z * Z)) : bijective r -> Remap.to_dense r v = Some i ->
  (forall e, e ∈ es -> is_Some (Remap.to_dense r e.1.1)) ->
  filter (fun x : Z * A => x.1 = i) ((fun e => (default 0 (Remap.to_dense r e.1.1), f e)) <$> es)
  = (fun e => (default 0 (Remap.to_dense r e.1.1), f e)) <$> filter (fun e : Z * Z * Z => e.1.1 = v) es.
Proof.
  intros B Hi. induction es as [|e es IH]; intros Hes; [done|]. cbn [fmap list_fmap]. rewrite !filter_cons. cbn [fst].
  rewrite IH by (intros; apply Hes; by right). destruct (Hes e) as [k Hk]; [by left|]. rewrite Hk. change (default 0 (Some k)) with k.
  destruct (decide (e.1.1 = v)) as [<-|Hne].
  - rewrite decide_True by congruence. cbn. by rewrite Hk.
  - rewrite decide_False; [done|]. intros ->. apply Hne. by eapply dense_inj.
Qed.

(** Building rows over dense indices loses and confuses nothing.  From a
    remapper whose two maps are inverse, with room for the new ids in 32 bits,
    [from_edges] does not panic, keeps the indices given out before, maps
    exactly the old ids and the endpoints, keeps the two maps inverse, and the
    row at the index of a vertex lists its edges in input order, with the ids
    of the neighbours and the dense indices that map back to them. *)
Theorem from_edges_exact (entries : list (Z * Z * Z)) (remapper : VidRemapper) :
  bijective remapper -> Z.of_nat (Remap.len remapper + 2 * length entries) < 2 ^ 32 ->
  exists csr remapper', from_edges entries remapper = Some (csr, remapper') /\ bijective remapper'
    /\ (forall u j, Remap.to_dense remapper u = Some j -> Remap.to_dense remapper' u = Some j)
    /\ (forall u, Remap.contains remapper' u = true
          <-> Remap.contains remapper u = true \/ exists e, e ∈ entries /\ (u = e.1.1 \/ u = e.1.2))
    /\ rows_num_edges csr = length entries
    /\ forall v i, Remap.to_dense remapper' v = Some i -> Remap.to_vid remapper' i = Some v
        /\ let out := filter (fun e => e.1.1 = v) entries in
           exists ns, get_neighbors_dense csr i = Some (ns, (fun e => e.1.2) <$> out, snd <$> out)
             /\ mapM (Remap.to_vid remapper') ns = Some ((fun e => e.1.2) <$> out).
Proof.
  intros Hb Hn. pose proof (insert_endpoints_spec entries remapper Hb Hn) as [B K D L].
  assert (HD : forall r, bijective r -> forall u, Remap.contains r u = true <-> is_Some (Remap.to_dense r u)).
  { intros r _ u. unfold Remap.contains. apply bool_decide_eq_true. }
  destruct (decide (entries = [])) as [->|Hne].
  { eexists _, _. split; [reflexivity|]. split_and!; try done.
    - intros u. split; [auto|]. intros [?|(? & ?%elem_of_nil & _)]; done.
    - intros v i Hi. split; [by apply Hb|]. cbn. exists []. unfold get_neighbors_dense, row_bounds. cbn. destruct (Z.to_nat i); done. }
  destruct (from_edges_rows remapper entries Hne Hb Hn) as (offs & items & Er & Ef). set (r' := insert_endpoints remapper entries) in *.
  set (index := fun v => default 0 (Remap.to_dense r' v)) in *. set (raw := fun e : Z * Z * Z => (index e.1.1, (index e.1.2, e.1.2, e.2))) in *.
  assert (Hdst : forall e, e ∈ entries -> is_Some (Remap.to_dense r' e.1.1) /\ is_Some (Remap.to_dense r' e.1.2)).
  { intros e He. split; apply D; right; exists e; auto. }
  change (build_rows (Remap.len r' - 1) (raw <$> entries) = (offs, items)) in Er.
  assert (Hraw0 : raw <$> entries <> []) by by destruct entries.
  assert (Hraw : Forall (fun e : Z * (Z * Z * Z) => 0 <= e.1 /\ (Z.to_nat e.1 <= Remap.len r' - 1)%nat) (raw <$> entries)).
  { apply Forall_fmap, Forall_forall. intros e He. destruct (Hdst e He) as [[i Hi] _]. cbn. unfold index. rewrite Hi. cbn.
    pose proof (to_dense_bound _ _ _ B Hi). lia. }
  eexists _, _. split; [exact Ef|]. split_and!; try done.
  - intros u. rewrite !HD by done. apply D.
  - unfold rows_num_edges. cbn [c_edge_ids]. rewrite length_fmap.
    destruct (place_offsets _ _ Hraw0 Hraw) as (offs' & E & _); [by rewrite length_fmap; lia|]. rewrite Er in E. injection E as -> ->.
    by rewrite length_fmap, (Permutation_length (sort_by_src_perm _)), length_fmap.
  - intros v i Hi. split; [by apply B|]. intros out. pose proof (to_dense_bound _ _ _ B Hi) as [Hi0 _].
    pose proof (rows_exact _ _ _ _ i Er Hraw) as Hrow. rewrite length_fmap in Hrow. specialize (Hrow ltac:(lia) Hi0).
    assert (Hout : filter (fun e : Z * (Z * Z * Z) => e.1 = i) (raw <$> entries) = raw <$> out).
    { apply filter_dense; [done|done|]. intros e He. by apply Hdst. }
    rewrite Hout in Hrow. apply dense_row in Hrow. rewrite <- !list_fmap_compose in Hrow. eexists. split; [exact Hrow|].
    assert (Hd' : forall e, e ∈ out -> is_Some (Remap.to_dense r' e.1.2)) by (intros e [_ He]%list_elem_of_filter; by apply Hdst).
    clearbody r'. clear -Hd' B. induction out as [|e l IH]; [done|]. cbn [fmap list_fmap mapM]. rewrite IH by (intros; apply Hd'; by right).
    destruct (Hd' e) as [k Hk]; [by left|]. cbn [compose raw fst snd]. unfold index. rewrite Hk. cbn. unfold Remap.to_vid.
    by rewrite (proj2 (bj_fwd _ B _ _ Hk)).
Qed.
End remapper.

Module RemapExamples.

(** Three edges over three new ids. *)
Lemma from_edges_exact_witness : exists csr r,
  from_edges [(100, 200, 1); (100, 300, 2); (200, 300, 3)] Remap.new = Some (csr, r)
  /\ Remap.to_dense r 100 = Some 0
  /\ get_neighbors_dense csr 0 = Some ([1; 2], [200; 300], [1; 2]).
Proof.
  destruct (from_edges_exact [(100, 200, 1); (100, 300, 2); (200, 300, 3)] Remap.new bijective_new) as (csr & r & E & _); [vm_compute; reflexivity|].
  exists csr, r. split; [exact E|]. vm_compute in E. injection E as <- <-. split; vm_compute; reflexivity.
Defined.
End RemapExamples.
