(* ===== verification/Pins.v ===== *)
(** * Pinned versions and merged history

    [PinnedVersions] of crates/uni-store/src/storage/adjacency_manager.rs: the
    versions in-flight readers are pinned at, per tier and counted, the merges
    of semantic compaction in flight with the bound each keeps to, and the
    horizon below which merged history is gone; and [CompactionMerge] of
    storage/manager.rs, which ends its merge when dropped. *)

From S2P Require Import Prelude.

Record PinState := mkPins {
  counts : gmap Z nat;
  edge_counts : gmap Z nat;
  horizon : Z;
  in_flight : gmap Z Z;
  next_token : Z;
}.
Definition default_pins : PinState := mkPins ∅ ∅ 0 ∅ 0.

(** The guard of a pin: its version and the version of its edge tier. *)
Record PinGuard := mkGuard { g_version : Z; g_edge_version : option Z }.

(** [*counts.entry(version).or_insert(0) += 1] *)
Definition acquire (c : gmap Z nat) (version : Z) : gmap Z nat := <[version := S (default O (c !! version))]> c.
(** A count that reaches zero is removed. *)
Definition release (c : gmap Z nat) (version : Z) : gmap Z nat :=
  match c !! version with
  | Some n => if Nat.eqb (n - 1) 0 then delete version c else <[version := (n - 1)%nat]> c
  | None => c
  end.

Definition pin (s : PinState) (version : Z) : PinState * PinGuard :=
  (mkPins (acquire (counts s) version) (edge_counts s) (horizon s) (in_flight s) (next_token s), mkGuard version None).
Definition pin_transaction (s : PinState) (version edge_version : Z) : PinState * PinGuard :=
  (mkPins (acquire (counts s) version) (acquire (edge_counts s) edge_version) (horizon s) (in_flight s) (next_token s),
   mkGuard version (Some edge_version)).
Definition pin_checked (s : PinState) (version : Z) : PinState * PinGuard * bool :=
  let s := mkPins (acquire (counts s) version) (acquire (edge_counts s) version) (horizon s) (in_flight s) (next_token s) in
  let readable := (horizon s <=? version) && forallb (fun bound => bound <=? version) (map_to_list (in_flight s)).*2 in
  (s, mkGuard version (Some version), readable).
Definition drop_pin (s : PinState) (g : PinGuard) : PinState :=
  mkPins (release (counts s) (g_version g))
    (match g_edge_version g with Some v => release (edge_counts s) v | None => edge_counts s end)
    (horizon s) (in_flight s) (next_token s).

(** The first key of a [BTreeMap]. *)
Definition min_key (c : gmap Z nat) : option Z := head (merge_sort Z.le (map_to_list c).*1).
Definition min_pinned (s : PinState) : option Z := min_key (counts s).
Definition distinct_pinned (s : PinState) : nat := size (counts s).

Definition begin_merge (s : PinState) (edge_tier : bool) : PinState * option Z * Z :=
  let floor := min_key (if edge_tier then edge_counts s else counts s) in
  let token := next_token s in
  (mkPins (counts s) (edge_counts s) (horizon s) (<[token := default U64_MAX floor]> (in_flight s)) (token + 1), floor, token).
Definition end_merge (s : PinState) (token merged_through : Z) : PinState :=
  mkPins (counts s) (edge_counts s) (Z.max (horizon s) merged_through) (delete token (in_flight s)) (next_token s).
Definition raise_horizon (s : PinState) (version : Z) : PinState :=
  mkPins (counts s) (edge_counts s) (Z.max (horizon s) version) (in_flight s) (next_token s).

(** [CompactionMerge]: what a merge has recorded to lose so far. *)
Record CompactionMerge := mkMerge { m_token : Z; m_floor : option Z; merged_through : Z }.
Definition begin_compaction_merge (s : PinState) (edge_tier : bool) : PinState * CompactionMerge :=
  let '(s, floor, token) := begin_merge s edge_tier in (s, mkMerge token floor 0).
(** [record], with what the snapshot manager holds as the recorded horizon;
    [None] is a failed save. *)
Definition record (m : CompactionMerge) (recorded : Z) (saved : bool) (through : Z) : option (CompactionMerge * Z) :=
  if through =? 0 then Some (m, recorded)
  else
    let step := mkMerge (m_token m) (m_floor m) (Z.max (merged_through m) through) in
    if recorded <? through then (if saved then Some (step, through) else None) else Some (step, recorded).
Definition drop_merge (s : PinState) (m : CompactionMerge) : PinState := end_merge s (m_token m) (merged_through m).

(** ** Counting pins *)

Definition count (v : Z) (l : list Z) : nat := length (filter (fun x => x = v) l).
(** The map counts the occurrences of each version, with no zero entry. *)
Definition counts_of (c : gmap Z nat) (l : list Z) : Prop :=
  forall v, c !! v = match count v l with O => None | n => Some n end.

Lemma count_cons v x l : count v (x :: l) = (if decide (x = v) then S (count v l) else count v l).
Proof. unfold count. rewrite filter_cons. by case_decide. Qed.
Lemma pin_count_perm v l l' : l ≡ₚ l' -> count v l = count v l'.
Proof. intros H. unfold count. by rewrite H. Qed.
Lemma count_pos v l : count v l <> O <-> v ∈ l.
Proof.
  induction l as [|x l IH]; [cbn; split; [done|by intros ?%elem_of_nil]|]. rewrite count_cons, elem_of_cons.
  case_decide; [subst; split; auto|]. rewrite IH. split; [auto|intros [?|?]; [congruence|done]].
Qed.

Lemma acquire_counts c l v : counts_of c l -> counts_of (acquire c v) (v :: l).
Proof.
  intros H w. unfold acquire. rewrite count_cons. destruct (decide (v = w)) as [->|Hn].
  - rewrite lookup_insert_eq, H. by destruct (count w l).
  - rewrite lookup_insert_ne by done. apply H.
Qed.
Lemma release_counts c l v : counts_of c (v :: l) -> counts_of (release c v) l.
Proof.
  intros H w. unfold release. pose proof (H v) as Hv. rewrite count_cons, decide_True in Hv by done. rewrite Hv.
  pose proof (H w) as Hw. rewrite count_cons in Hw. destruct (decide (v = w)) as [->|Hn].
  - destruct (Nat.eqb_spec (S (count w l) - 1) 0) as [E|E].
    + rewrite lookup_delete_eq. by replace (count w l) with O by lia.
    + rewrite lookup_insert_eq. replace (S (count w l) - 1)%nat with (count w l) by lia. by destruct (count w l).
  - destruct (Nat.eqb (S (count v l) - 1) 0); [by rewrite lookup_delete_ne|by rewrite lookup_insert_ne].
Qed.
Lemma counts_perm c l l' : l ≡ₚ l' -> counts_of c l -> counts_of c l'.
Proof. intros Hp H v. by rewrite <- (pin_count_perm v _ _ Hp). Qed.

(** The first key is the least pinned version. *)
Lemma min_key_spec c l : counts_of c l ->
  match min_key c with Some f => f ∈ l /\ (forall v, v ∈ l -> f <= v) | None => l = [] end.
Proof.
  intros H. unfold min_key. set (ks := merge_sort Z.le (map_to_list c).*1).
  assert (Hin : forall v, v ∈ ks <-> v ∈ l).
  { intros v. unfold ks. rewrite merge_sort_Permutation, list_elem_of_fmap. rewrite <- count_pos. split.
    - intros ([v' n] & -> & Hm%elem_of_map_to_list). cbn. rewrite H in Hm. by destruct (count v' l).
    - intros Hc. exists (v, count v l). split; [done|]. apply elem_of_map_to_list. rewrite H. by destruct (count v l). }
  assert (Hs : StronglySorted Z.le ks).
  { apply Sorted_StronglySorted; [intros ???; lia|]. apply Sorted_merge_sort. intros x y. lia. }
  destruct ks as [|f ks']; cbn.
  - destruct l as [|x l]; [done|]. exfalso. apply (not_elem_of_nil x), Hin. left.
  - split; [apply Hin; left|]. intros v [->|Hv]%Hin%elem_of_cons; [lia|].
    apply StronglySorted_inv in Hs as [_ Hf]. rewrite Forall_forall in Hf. by apply Hf.
Qed.

(** ** Runs *)

(** The registry, the live guards with whether they were found readable, and
    the merges in flight. *)
Record pworld := mkPWorld { pins : PinState; guards : list (PinGuard * bool); merges : list CompactionMerge }.

Definition bound_of (m : CompactionMerge) : Z := default U64_MAX (m_floor m).

(** Versions are unsigned.  A merge records at most its bound: it keeps every
    row above its floor. *)
Inductive pstep : pworld -> pworld -> Prop :=
| step_pin s gs ms v s' g : 0 <= v -> pin s v = (s', g) -> pstep (mkPWorld s gs ms) (mkPWorld s' ((g, false) :: gs) ms)
| step_pin_transaction s gs ms v e s' g : 0 <= e <= v -> pin_transaction s v e = (s', g) ->
    pstep (mkPWorld s gs ms) (mkPWorld s' ((g, false) :: gs) ms)
| step_pin_checked s gs ms v s' g readable : 0 <= v -> pin_checked s v = (s', g, readable) ->
    pstep (mkPWorld s gs ms) (mkPWorld s' ((g, readable) :: gs) ms)
| step_drop_pin s gs gs' ms g r : gs ≡ₚ (g, r) :: gs' -> pstep (mkPWorld s gs ms) (mkPWorld (drop_pin s g) gs' ms)
| step_begin_merge s gs ms tier s' m : begin_compaction_merge s tier = (s', m) ->
    pstep (mkPWorld s gs ms) (mkPWorld s' gs (m :: ms))
| step_record s gs ms ms' m recorded saved through m' recorded' : ms ≡ₚ m :: ms' -> through <= bound_of m ->
    record m recorded saved through = Some (m', recorded') -> pstep (mkPWorld s gs ms) (mkPWorld s gs (m' :: ms'))
| step_drop_merge s gs ms ms' m : ms ≡ₚ m :: ms' -> pstep (mkPWorld s gs ms) (mkPWorld (drop_merge s m) gs ms').

(** A process starts with the horizon an earlier one recorded. *)
Definition pstart (recorded : Z) : pworld := mkPWorld (raise_horizon default_pins recorded) [] [].
Definition preachable (w : pworld) : Prop := exists recorded, rtc pstep (pstart recorded) w.

Definition tier_version (edge_tier : bool) (g : PinGuard) : option Z :=
  if edge_tier then g_edge_version g else Some (g_version g).
Definition tier_versions (edge_tier : bool) (gs : list (PinGuard * bool)) : list Z := omap (fun g => tier_version edge_tier g.1) gs.

Record pins_ok (w : pworld) : Prop := {
  po_counts : counts_of (counts (pins w)) (tier_versions false (guards w));
  po_edges : counts_of (edge_counts (pins w)) (tier_versions true (guards w));
  po_pos : Forall (fun v => 0 <= v) (tier_versions false (guards w)) /\ Forall (fun v => 0 <= v) (tier_versions true (guards w));
  po_flight : Forall (fun m => in_flight (pins w) !! m_token m = Some (bound_of m) /\ m_token m < next_token (pins w)) (merges w);
  po_tokens : NoDup (m_token <$> merges w);
  po_dom : forall t b, in_flight (pins w) !! t = Some b -> exists m, m ∈ merges w /\ m_token m = t;
  po_bound : Forall (fun m => merged_through m <= bound_of m) (merges w);
  po_whole : forall g, (g, true) ∈ guards w -> g_edge_version g = Some (g_version g) /\ horizon (pins w) <= g_version g
      /\ Forall (fun m => bound_of m <= g_version g) (merges w);
}.

#[export] Instance tier_versions_perm t : Proper ((≡ₚ) ==> (≡ₚ)) (tier_versions t).
Proof. intros gs gs' H. unfold tier_versions. by rewrite H. Qed.

Lemma tier_cons t g r gs : tier_versions t ((g, r) :: gs) = match tier_version t g with Some v => v :: tier_versions t gs | None => tier_versions t gs end.
Proof. unfold tier_versions. cbn. by destruct (tier_version t g). Qed.

(** A registration adds its versions to the counts and nothing else. *)
Lemma pins_ok_guard w g r s' :
  pins_ok w -> 0 <= g_version g -> (forall v, g_edge_version g = Some v -> 0 <= v) ->
  s' = mkPins (acquire (counts (pins w)) (g_version g))
         (match g_edge_version g with Some v => acquire (edge_counts (pins w)) v | None => edge_counts (pins w) end)
         (horizon (pins w)) (in_flight (pins w)) (next_token (pins w)) ->
  (r = true -> g_edge_version g = Some (g_version g) /\ horizon (pins w) <= g_version g
     /\ Forall (fun m => bound_of m <= g_version g) (merges w)) ->
  pins_ok (mkPWorld s' ((g, r) :: guards w) (merges w)).
Proof.
  intros [H1 H2 [H3 H3'] H4 H5 H6 H7 H8] Hv He -> Hr. split; cbn [pins guards merges counts edge_counts horizon in_flight next_token]; try done.
  - rewrite tier_cons. by apply acquire_counts.
  - rewrite tier_cons. cbn. destruct (g_edge_version g); [by apply acquire_counts|done].
  - rewrite !tier_cons. cbn. split; [by constructor|]. destruct (g_edge_version g); [constructor; auto|done].
  - intros g' [[= -> <-]|Hin]%elem_of_cons; [by apply Hr|by apply H8].
Qed.

Lemma pins_ok_drop_pin s gs gs' ms g r : pins_ok (mkPWorld s gs ms) -> gs ≡ₚ (g, r) :: gs' ->
  pins_ok (mkPWorld (drop_pin s g) gs' ms).
Proof.
  intros [H1 H2 [H3 H3'] H4 H5 H6 H7 H8] Hp. cbn [pins guards merges] in *. rewrite Hp in H3, H3'.
  apply (counts_perm _ _ (tier_versions false ((g, r) :: gs'))) in H1; [|by rewrite Hp].
  apply (counts_perm _ _ (tier_versions true ((g, r) :: gs'))) in H2; [|by rewrite Hp].
  rewrite tier_cons in H1, H2, H3, H3'. cbn in H1, H2, H3, H3'.
  split; cbn [pins guards merges drop_pin counts edge_counts horizon in_flight next_token]; try done.
  - by apply release_counts.
  - destruct (g_edge_version g); [by apply release_counts|done].
  - apply Forall_cons in H3 as [_ H3]. split; [done|]. destruct (g_edge_version g); [by apply Forall_cons in H3' as [_ ?]|done].
  - intros g' Hin. apply H8. rewrite Hp. by right.
Qed.

Lemma pins_ok_begin s gs ms tier s' m : pins_ok (mkPWorld s gs ms) -> begin_compaction_merge s tier = (s', m) ->
  pins_ok (mkPWorld s' gs (m :: ms)).
Proof.
  intros [H1 H2 [H3 H3'] H4 H5 H6 H7 H8]. cbn [pins guards merges] in *. unfold begin_compaction_merge, begin_merge.
  set (floor := min_key _). intros [= <- <-].
  assert (Hf : match floor with Some f => f ∈ tier_versions tier gs /\ (forall v, v ∈ tier_versions tier gs -> f <= v)
               | None => tier_versions tier gs = [] end).
  { unfold floor. apply min_key_spec. by destruct tier. }
  assert (Hpos : Forall (fun v => 0 <= v) (tier_versions tier gs)) by by destruct tier.
  assert (Hfresh : forall m, m ∈ ms -> m_token m <> next_token s).
  { intros m Hm. rewrite Forall_forall in H4. destruct (H4 m Hm) as [_ ?]. lia. }
  split; cbn [pins guards merges counts edge_counts horizon in_flight next_token]; try done.
  - constructor; [cbn; rewrite lookup_insert_eq; split; [done|lia]|]. apply Forall_forall. intros m Hm.
    rewrite lookup_insert_ne by (symmetry; by apply Hfresh). rewrite Forall_forall in H4. destruct (H4 m Hm). split; [done|lia].
  - cbn. constructor; [|done]. intros (m & E & Hm)%list_elem_of_fmap. by apply (Hfresh m Hm).
  - intros t b. destruct (decide (t = next_token s)) as [->|Hn].
    + intros _. eexists. split; [by left|done].
    + rewrite lookup_insert_ne by done. intros (m & Hm & <-)%H6. exists m. split; [by right|done].
  - constructor; [|done]. unfold bound_of. cbn [m_floor merged_through]. destruct floor as [f|]; cbn; [|unfold U64_MAX; lia].
    rewrite Forall_forall in Hpos. apply Hpos, Hf.
  - intros g Hg. destruct (H8 g Hg) as (E1 & E2 & E3). split; [done|]. split; [done|]. constructor; [|done].
    assert (Hgv : g_version g ∈ tier_versions tier gs).
    { unfold tier_versions. apply list_elem_of_omap. exists (g, true). split; [done|]. unfold tier_version. by destruct tier. }
    unfold bound_of. cbn [m_floor]. destruct floor as [f|]; cbn; [by apply Hf|]. rewrite Hf in Hgv. by apply elem_of_nil in Hgv.
Qed.

Lemma pins_ok_record s gs ms ms' m recorded saved through m' recorded' : pins_ok (mkPWorld s gs ms) -> ms ≡ₚ m :: ms' ->
  through <= bound_of m -> record m recorded saved through = Some (m', recorded') -> pins_ok (mkPWorld s gs (m' :: ms')).
Proof.
  intros [H1 H2 H3 H4 H5 H6 H7 H8] Hp Ht Hr. cbn [pins guards merges] in *. rewrite Hp in H4, H5, H7.
  assert (Hm : m_token m' = m_token m /\ bound_of m' = bound_of m /\ merged_through m' <= Z.max (merged_through m) (bound_of m)).
  { unfold record in Hr. destruct (through =? 0); [injection Hr as <- _; split_and!; [done|done|lia]|].
    destruct (recorded <? through); [destruct saved; [|done]|]; injection Hr as <- _; (split_and!; [done|done|cbn; lia]). }
  destruct Hm as (E1 & E2 & E3). apply Forall_cons in H4 as [H4 H4']. apply Forall_cons in H7 as [H7 H7']. cbn [fmap list_fmap] in H5.
  split; cbn [pins guards merges]; try done.
  - constructor; [by rewrite E1, E2|done].
  - cbn. by rewrite E1.
  - intros t b (x & Hx & <-)%H6. rewrite Hp in Hx. apply elem_of_cons in Hx as [->|Hx]; [exists m'|exists x].
    + split; [by left|done].
    + split; [by right|done].
  - constructor; [lia|done].
  - intros g Hg. destruct (H8 g Hg) as (? & ? & Hb). rewrite Hp in Hb. apply Forall_cons in Hb as [Hb ?]. split_and!; [done|done|].
    constructor; [by rewrite E2|done].
Qed.

Lemma pins_ok_drop_merge s gs ms ms' m : pins_ok (mkPWorld s gs ms) -> ms ≡ₚ m :: ms' -> pins_ok (mkPWorld (drop_merge s m) gs ms').
Proof.
  intros [H1 H2 H3 H4 H5 H6 H7 H8] Hp. cbn [pins guards merges] in *. rewrite Hp in H4, H5, H7.
  apply Forall_cons in H4 as [_ H4]. apply Forall_cons in H7 as [H7 H7']. cbn [fmap list_fmap] in H5. apply NoDup_cons in H5 as [Hn H5].
  split; cbn [pins guards merges drop_merge end_merge counts edge_counts horizon in_flight next_token]; try done.
  - apply Forall_forall. intros x Hx. rewrite Forall_forall in H4. rewrite lookup_delete_ne; [by apply H4|].
    intros E. apply Hn. rewrite E. by apply list_elem_of_fmap_2.
  - intros t b [Hne (x & Hx & <-)%H6]%lookup_delete_Some. rewrite Hp in Hx. apply elem_of_cons in Hx as [->|Hx]; [done|by exists x].
  - intros g Hg. destruct (H8 g Hg) as (? & ? & Hb). rewrite Hp in Hb. apply Forall_cons in Hb as [Hb ?]. split_and!; [done|lia|done].
Qed.

Lemma preachable_ok w : preachable w -> pins_ok w.
Proof.
  intros [recorded H]. revert w H. apply (rtc_ind_r (R := pstep) pins_ok (pstart recorded)).
  { split; cbn; try done; try (by intros v; rewrite lookup_empty); try (by constructor).
    by intros g ?%elem_of_nil. }
  intros w w' _ Hs Hw. destruct Hs as [s gs ms v s' g Hv E|s gs ms v e s' g Hv E|s gs ms v s' g r Hv E| | | |].
  - injection E as <- <-. by apply (pins_ok_guard _ (mkGuard v None) false _ Hw).
  - injection E as <- <-. apply (pins_ok_guard _ (mkGuard v (Some e)) false _ Hw); [cbn; lia|cbn; intros ? [= <-]; lia|done|done].
  - injection E as <- <- <-. apply (pins_ok_guard _ (mkGuard v (Some v)) _ _ Hw); [done|by intros ? [= <-]|done|].
    cbn [g_edge_version g_version horizon in_flight pins merges]. intros [Hh%Z.leb_le Hb]%andb_true_iff. split_and!; [done|done|].
    apply Forall_forall. intros m Hm. pose proof (po_flight _ Hw) as Hf. rewrite Forall_forall in Hf. destruct (Hf m Hm) as [Hf' _].
    apply forallb_forall with (x := bound_of m) in Hb; [lia|]. apply list_elem_of_In, list_elem_of_fmap. eexists (_, _). split; [done|].
    by apply elem_of_map_to_list.
  - by eapply pins_ok_drop_pin.
  - by eapply pins_ok_begin.
  - by eapply pins_ok_record.
  - by eapply pins_ok_drop_merge.
Qed.

(** C14: a pin that was found readable stays readable.  However pins come and
    go and merges of semantic compaction start, record and end, while the
    guard of a pin reported whole is alive no merge has lost, or is recorded
    to lose, history above its version; and a merge starts with the least
    version of the live pins of its tier as its floor, or none when there are
    no such pins. *)
Theorem pins_protect_history (w : pworld) (edge_tier : bool) : preachable w ->
  (forall g, (g, true) ∈ guards w -> horizon (pins w) <= g_version g
     /\ forall m, m ∈ merges w -> merged_through m <= g_version g)
  /\ (forall s' floor token, begin_merge (pins w) edge_tier = (s', floor, token) ->
       match floor with
       | Some f => f ∈ tier_versions edge_tier (guards w) /\ (forall v, v ∈ tier_versions edge_tier (guards w) -> f <= v)
       | None => tier_versions edge_tier (guards w) = [] end).
Proof.
  intros [H1 H2 H3 H4 H5 H6 H7 H8]%preachable_ok. split.
  - intros g Hg. destruct (H8 g Hg) as (_ & Hh & Hb). split; [done|]. intros m Hm. rewrite Forall_forall in H7, Hb.
    specialize (H7 m Hm). specialize (Hb m Hm). lia.
  - unfold begin_merge. intros s' floor token [= _ <- _]. apply min_key_spec. by destruct edge_tier.
Qed.
