(* ===== verification/Adjacency.v ===== *)
(** * Layered adjacency

    crates/uni-store/src/storage/adjacency_overlay.rs (the overlay segments),
    shadow_csr.rs (deleted edges for reads at older versions) and
    adjacency_manager.rs (the packed rows, the frozen and active segments and
    the shadow, their reads, their compaction and the warm from storage).
    Frozen segments are shared pointers that [compact] compares by identity, so
    each carries a number.  Warming takes the decoded rows of the storage
    tables as an argument.  Locks and the futures that wait for them are not
    modelled: the steps of [compact] between which other threads run are
    definitions of their own. *)

From S2P Require Import Prelude Csr BulkGate Pins.

(** ** Directions (storage/direction.rs) *)

Inductive Direction := Outgoing | Incoming | Both.
#[export] Instance direction_eq_dec : EqDecision Direction.
Proof. solve_decision. Defined.
#[export] Instance direction_countable : Countable Direction.
Proof.
  refine (inj_countable' (fun d => match d with Outgoing => 0 | Incoming => 1 | Both => 2 end%nat)
                         (fun n => match n with 0 => Outgoing | 1 => Incoming | _ => Both end%nat) _).
  by intros [].
Defined.

Definition expand (d : Direction) : list Direction :=
  match d with Both => [Outgoing; Incoming] | d => [d] end.

(** ** Overlay segments *)

Record OverlayTombstone := mkTomb { ts_eid : Z; ts_src_vid : Z; ts_dst_vid : Z; ts_edge_type : Z; ts_version : Z }.
Abbreviation OverlayKey := (Z * Direction)%type.
(** [(neighbor_vid, eid, version)] *)
Abbreviation NeighborMap := (gmap Z (list (Z * Z * Z))).

Record L0CsrSegment := mkSeg { inserts : gmap OverlayKey NeighborMap; tombstones : gmap Z OverlayTombstone }.
(** [freeze] moves the maps. *)
Abbreviation FrozenCsrSegment := L0CsrSegment.

Module Segment.
Definition new : L0CsrSegment := mkSeg ∅ ∅.

Definition insert_edge (self : L0CsrSegment) (src dst eid edge_type version : Z) (direction : Direction) : L0CsrSegment :=
  let adj := default ∅ (inserts self !! (edge_type, direction)) in
  let neighbors := default [] (adj !! src) in
  mkSeg (<[(edge_type, direction) := <[src := neighbors ++ [(dst, eid, version)]]> adj]> (inserts self)) (tombstones self).

Definition add_tombstone (self : L0CsrSegment) (eid src dst edge_type version : Z) : L0CsrSegment :=
  mkSeg (inserts self) (<[eid := mkTomb eid src dst edge_type version]> (tombstones self)).

(** The inserts of a vertex. *)
Definition neighbors_of (self : L0CsrSegment) (vid edge_type : Z) (direction : Direction) : list (Z * Z * Z) :=
  default [] (inserts self !! (edge_type, direction) ≫= fun adj => adj !! vid).

Definition get_neighbors (self : L0CsrSegment) (vid edge_type : Z) (direction : Direction) : list (Z * Z) :=
  (filter (fun n => tombstones self !! n.1.2 = None) (neighbors_of self vid edge_type direction)).*1.

Definition get_neighbors_at_version (self : L0CsrSegment) (vid edge_type : Z) (direction : Direction) (version : Z) : list (Z * Z) :=
  fst <$> List.filter (fun n =>
    let tombstoned := match tombstones self !! n.1.2 with Some ts => ts_version ts <=? version | None => false end in
    (n.2 <=? version) && negb tombstoned) (neighbors_of self vid edge_type direction).

Definition has_entries_for (self : L0CsrSegment) (edge_type : Z) (direction : Direction) : bool :=
  match inserts self !! (edge_type, direction) with Some _ => true | None => false end.
Definition freeze (self : L0CsrSegment) : FrozenCsrSegment := self.
End Segment.

(** ** The shadow of deleted edges *)

Record ShadowEdge := mkShadow { s_neighbor_vid : Z; s_eid : Z; s_edge_type : Z; s_created_version : Z; s_deleted_version : Z }.
Abbreviation ShadowCsr := (gmap OverlayKey (gmap Z (list ShadowEdge))).

Module Shadow.
Definition new : ShadowCsr := ∅.

Definition add_deleted_edge (self : ShadowCsr) (src_vid : Z) (edge : ShadowEdge) (direction : Direction) : ShadowCsr :=
  let key := (s_edge_type edge, direction) in
  let bucket := default ∅ (self !! key) in
  let edges := default [] (bucket !! src_vid) in
  let edges := if existsb (fun e => s_eid e =? s_eid edge) edges then edges else edges ++ [edge] in
  <[key := <[src_vid := edges]> bucket]> self.

Definition clear (self : ShadowCsr) : ShadowCsr := ∅.

Definition get_entries (self : ShadowCsr) (vid edge_type : Z) (direction : Direction) : list ShadowEdge :=
  default [] (self !! (edge_type, direction) ≫= fun m => m !! vid).

Definition get_entries_at_version (self : ShadowCsr) (vid edge_type : Z) (direction : Direction) (version : Z) : list (Z * Z) :=
  (fun e => (s_neighbor_vid e, s_eid e))
    <$> List.filter (fun e => (s_created_version e <=? version) && (version <? s_deleted_version e)) (get_entries self vid edge_type direction).

Definition get_entries_visible (self : ShadowCsr) (vid edge_type : Z) (direction : Direction) (visibility : RowVisibility) : list (Z * Z) :=
  (fun e => (s_neighbor_vid e, s_eid e))
    <$> List.filter (fun e => admits visibility (s_created_version e) && negb (admits visibility (s_deleted_version e)))
          (get_entries self vid edge_type direction).

Definition collect_vids (self : ShadowCsr) (edge_type : Z) (direction : Direction) (out : gset Z) : gset Z :=
  match self !! (edge_type, direction) with
  | Some m => out ∪ dom (filter (fun kv => kv.2 <> []) m)
  | None => out
  end.

Definition gc_bucket (floor : Z) (m : gmap Z (list ShadowEdge)) : gmap Z (list ShadowEdge) :=
  filter (fun kv => kv.2 <> []) (List.filter (fun e => floor <? s_deleted_version e) <$> m).
Definition gc (self : ShadowCsr) (oldest_active_snapshot_version : Z) : ShadowCsr :=
  gc_bucket oldest_active_snapshot_version <$> self.

Definition entry_count (self : ShadowCsr) : nat :=
  sum_list ((fun m : gmap Z (list ShadowEdge) => sum_list (length <$> (map_to_list m).*2)) <$> (map_to_list self).*2).
(** Four 8-byte fields and one of 4, padded. *)
Definition approx_bytes (self : ShadowCsr) : nat := (entry_count self * 40)%nat.
End Shadow.

(** ** The manager *)

Record AdjacencyManager := mkAdj {
  main_csr : gmap OverlayKey MainCsr;
  csr_source_stamp : gmap OverlayKey Z;
  active_overlay : L0CsrSegment;
  frozen_segments : list (nat * FrozenCsrSegment);
  shadow : ShadowCsr;
  pinned_versions : PinState;
  current_bytes : Z;
  max_bytes : Z;
  (** the next pointer *)
  next_arc : nat;
}.

Definition with_main (f : gmap OverlayKey MainCsr -> gmap OverlayKey MainCsr) (m : AdjacencyManager) : AdjacencyManager :=
  mkAdj (f (main_csr m)) (csr_source_stamp m) (active_overlay m) (frozen_segments m) (shadow m) (pinned_versions m) (current_bytes m) (max_bytes m) (next_arc m).
Definition with_stamp (f : gmap OverlayKey Z -> gmap OverlayKey Z) (m : AdjacencyManager) : AdjacencyManager :=
  mkAdj (main_csr m) (f (csr_source_stamp m)) (active_overlay m) (frozen_segments m) (shadow m) (pinned_versions m) (current_bytes m) (max_bytes m) (next_arc m).
Definition with_active (f : L0CsrSegment -> L0CsrSegment) (m : AdjacencyManager) : AdjacencyManager :=
  mkAdj (main_csr m) (csr_source_stamp m) (f (active_overlay m)) (frozen_segments m) (shadow m) (pinned_versions m) (current_bytes m) (max_bytes m) (next_arc m).
Definition with_frozen (f : list (nat * FrozenCsrSegment) -> list (nat * FrozenCsrSegment)) (m : AdjacencyManager) : AdjacencyManager :=
  mkAdj (main_csr m) (csr_source_stamp m) (active_overlay m) (f (frozen_segments m)) (shadow m) (pinned_versions m) (current_bytes m) (max_bytes m) (next_arc m).
Definition with_shadow (f : ShadowCsr -> ShadowCsr) (m : AdjacencyManager) : AdjacencyManager :=
  mkAdj (main_csr m) (csr_source_stamp m) (active_overlay m) (frozen_segments m) (f (shadow m)) (pinned_versions m) (current_bytes m) (max_bytes m) (next_arc m).
Definition with_bytes (f : Z -> Z) (m : AdjacencyManager) : AdjacencyManager :=
  mkAdj (main_csr m) (csr_source_stamp m) (active_overlay m) (frozen_segments m) (shadow m) (pinned_versions m) (f (current_bytes m)) (max_bytes m) (next_arc m).

Definition new (max_bytes : Z) : AdjacencyManager := mkAdj ∅ ∅ Segment.new [] Shadow.new default_pins 0 max_bytes 0.

(** ** Reads *)

Definition pair_le (a b : Z * Z) : Prop := a.1 < b.1 \/ (a.1 = b.1 /\ a.2 <= b.2).
#[export] Instance pair_le_dec : RelDecision pair_le.
Proof. unfold pair_le. intros a b. apply _. Defined.

(** [Vec::dedup]: equal neighbours are merged. *)
Fixpoint dedup {A} `{EqDecision A} (l : list A) : list A :=
  match l with
  | [] => []
  | a :: l => match dedup l with
              | b :: l' => if decide (a = b) then b :: l' else a :: b :: l'
              | [] => [a]
              end
  end.

Definition into_canonical_order (neighbors : list (Z * Z)) : list (Z * Z) :=
  if (1 <? length neighbors)%nat then dedup (merge_sort pair_le neighbors) else neighbors.

Section reads.
  Implicit Types (self : AdjacencyManager) (segment : L0CsrSegment) (result : list (Z * Z)).

(** The packed row of a vertex; no CSR, no entries. *)
Definition main_row self (edge_type : Z) (dir : Direction) (vid : Z) : option (list CsrEdgeEntry) :=
  match main_csr self !! (edge_type, dir) with Some csr => get_entries csr vid | None => Some [] end.

(** Inserts of a segment, then its tombstones against everything so far. *)
Definition read_segment segment (vid edge_type : Z) (dir : Direction) result : list (Z * Z) :=
  let has_inserts := Segment.has_entries_for segment edge_type dir in
  let has_tombstones := negb (bool_decide (tombstones segment = ∅)) in
  let result :=
    if has_inserts then
      match inserts segment !! (edge_type, dir) ≫= (fun adj => adj !! vid) with
      | Some neighbors => result ++ neighbors.*1
      | None => result
      end
    else result in
  if has_tombstones then filter (fun r => tombstones segment !! r.2 = None) result else result.

Definition read_frozen segment (vid edge_type : Z) (dir : Direction) result : list (Z * Z) :=
  if negb (Segment.has_entries_for segment edge_type dir) && bool_decide (tombstones segment = ∅) then result
  else read_segment segment vid edge_type dir result.

Definition read_direction self (vid edge_type : Z) result (dir : Direction) : option (list (Z * Z)) :=
  es ← main_row self edge_type dir vid;
  let result := result ++ ((fun e => (neighbor_vid e, e_eid e)) <$> es) in
  let result := foldl (fun r seg => read_frozen seg.2 vid edge_type dir r) result (frozen_segments self) in
  Some (read_segment (active_overlay self) vid edge_type dir result).

Fixpoint read_directions (read : list (Z * Z) -> Direction -> option (list (Z * Z))) result (dirs : list Direction) : option (list (Z * Z)) :=
  match dirs with
  | [] => Some result
  | dir :: dirs => r ← read result dir; read_directions read r dirs
  end.

Definition get_neighbors self (vid edge_type : Z) (direction : Direction) : option (list (Z * Z)) :=
  into_canonical_order <$> read_directions (read_direction self vid edge_type) [] (expand direction).

(** The tombstone of an edge, if the reader sees it. *)
Definition tombstone_visible segment (visibility : RowVisibility) (eid : Z) : bool :=
  match tombstones segment !! eid with Some ts => admits visibility (ts_version ts) | None => false end.

Definition retain_visible segment (visibility : RowVisibility) result : list (Z * Z) :=
  if bool_decide (tombstones segment = ∅) then result
  else List.filter (fun r => negb (tombstone_visible segment visibility r.2)) result.

Definition read_frozen_visible segment (vid edge_type : Z) (dir : Direction) (visibility : RowVisibility) result : list (Z * Z) :=
  if negb (Segment.has_entries_for segment edge_type dir) && bool_decide (tombstones segment = ∅) then result
  else
    let result := if Segment.has_entries_for segment edge_type dir then
        match inserts segment !! (edge_type, dir) ≫= (fun adj => adj !! vid) with
        | Some neighbors => result ++ (fst <$> List.filter (fun n => admits visibility n.2) neighbors)
        | None => result
        end
      else result in
    retain_visible segment visibility result.

Definition read_active_visible segment (vid edge_type : Z) (dir : Direction) (visibility : RowVisibility) result : list (Z * Z) :=
  let result := if Segment.has_entries_for segment edge_type dir then
      match inserts segment !! (edge_type, dir) ≫= (fun adj => adj !! vid) with
      | Some neighbors =>
          result ++ (fst <$> List.filter (fun n => admits visibility n.2 && negb (tombstone_visible segment visibility n.1.2)) neighbors)
      | None => result
      end
    else result in
  retain_visible segment visibility result.

Definition read_direction_visible self (vid edge_type : Z) (visibility : RowVisibility) result (dir : Direction) : option (list (Z * Z)) :=
  es ← main_row self edge_type dir vid;
  let result := result ++ ((fun e => (neighbor_vid e, e_eid e)) <$> List.filter (fun e => admits visibility (created_version e)) es) in
  let result := foldl (fun r seg => read_frozen_visible seg.2 vid edge_type dir visibility r) result (frozen_segments self) in
  let result := read_active_visible (active_overlay self) vid edge_type dir visibility result in
  Some (result ++ Shadow.get_entries_visible (shadow self) vid edge_type dir visibility).

Definition get_neighbors_visible self (vid edge_type : Z) (direction : Direction) (visibility : RowVisibility) : option (list (Z * Z)) :=
  into_canonical_order <$> read_directions (read_direction_visible self vid edge_type visibility) [] (expand direction).
Definition get_neighbors_at_version self (vid edge_type : Z) (direction : Direction) (version : Z) : option (list (Z * Z)) :=
  get_neighbors_visible self vid edge_type direction (at_most (Some version)).

Definition collect_direction self (edge_type : Z) (include_shadow : bool) (out : gset Z) (dir : Direction) : gset Z :=
  let out := match main_csr self !! (edge_type, dir) with Some csr => out ∪ list_to_set (vids_with_entries csr) | None => out end in
  let keys segment out := match inserts segment !! (edge_type, dir) with Some adj => out ∪ dom adj | None => out end in
  let out := foldl (fun out seg => keys seg.2 out) out (frozen_segments self) in
  let out := keys (active_overlay self) out in
  if include_shadow then Shadow.collect_vids (shadow self) edge_type dir out else out.
Definition collect_source_vids self (edge_type : Z) (direction : Direction) (include_shadow : bool) (out : gset Z) : gset Z :=
  foldl (collect_direction self edge_type include_shadow) out (expand direction).
End reads.

(** ** Writes *)

Section writes.
  Context `{HO : HashOrder}.
  Implicit Types (self : AdjacencyManager) (segments : list (nat * FrozenCsrSegment)).

Definition insert_edge self (src dst eid edge_type version : Z) : AdjacencyManager :=
  with_active (fun a => Segment.insert_edge (Segment.insert_edge a src dst eid edge_type version Outgoing)
                          dst src eid edge_type version Incoming) self.
Definition add_tombstone self (eid src dst edge_type version : Z) : AdjacencyManager :=
  with_active (fun a => Segment.add_tombstone a eid src dst edge_type version) self.

Definition set_main_csr self (edge_type : Z) (direction : Direction) (csr : MainCsr) : AdjacencyManager :=
  with_bytes (fun b => wrapping_add_u64 b (Z.of_nat (memory_usage csr))) (with_main <[(edge_type, direction) := csr]> self).
Definition has_csr self (edge_type : Z) (direction : Direction) : bool :=
  match main_csr self !! (edge_type, direction) with Some _ => true | None => false end.

(** [source_version] is the summed version of the source tables, if readable. *)
Definition csr_is_fresh self (source_version : option Z) (edge_type : Z) (direction : Direction) : bool :=
  if has_csr self edge_type direction then
    match csr_source_stamp self !! (edge_type, direction), source_version with
    | Some stamped, Some current => current =? stamped
    | _, _ => false
    end
  else true.

Definition invalidate_all_csr self : AdjacencyManager := with_stamp (fun _ => ∅) (with_main (fun _ => ∅) self).
Definition invalidate_csr self (edge_type : Z) (direction : Direction) : AdjacencyManager :=
  with_stamp (delete (edge_type, direction)) (with_main (delete (edge_type, direction)) self).
Definition reset self : AdjacencyManager :=
  with_bytes (fun _ => 0) (with_shadow Shadow.clear (with_stamp (fun _ => ∅) (with_main (fun _ => ∅)
    (with_frozen (fun _ => []) (with_active (fun _ => Segment.new) self))))).

Definition is_active_for self (edge_type : Z) (direction : Direction) : bool :=
  existsb (fun d => has_csr self edge_type d || Segment.has_entries_for (active_overlay self) edge_type d) (expand direction).

Definition known_edge_type_ids self : list Z :=
  dedup (merge_sort Z.le (((map_to_list (main_csr self)).*1).*1 ++ ((map_to_list (inserts (active_overlay self))).*1).*1
    ++ concat ((fun seg : nat * FrozenCsrSegment => ((map_to_list (inserts seg.2)).*1).*1) <$> frozen_segments self))).

Definition adj_size (adj : option NeighborMap) : nat :=
  match adj with Some adj => sum_list (length <$> (map_to_list adj).*2) | None => O end.
Definition approx_edge_count self (edge_type : Z) : nat :=
  let key := (edge_type, Outgoing) in
  ((match main_csr self !! key with Some csr => num_edges csr | None => O end)
   + sum_list ((fun seg : nat * FrozenCsrSegment => adj_size (inserts seg.2 !! key)) <$> frozen_segments self)
   + adj_size (inserts (active_overlay self) !! key))%nat.

Definition frozen_segment_count self : nat := length (frozen_segments self).
Definition should_compact self (threshold : nat) : bool := (threshold <=? frozen_segment_count self)%nat.
Definition gc_floor self (current_version : Z) : Z :=
  match min_pinned (pinned_versions self) with Some pinned => Z.min pinned current_version | None => current_version end.
Definition gc_shadow self (current_version : Z) : AdjacencyManager :=
  with_shadow (fun s => Shadow.gc s (gc_floor self current_version)) self.
Definition memory_usage_of self : Z := current_bytes self + Z.of_nat (Shadow.approx_bytes (shadow self)).

(** ** Compaction *)

(** Steps 1 and 2: the active segment is taken under its lock, then pushed
    under the lock of the frozen ones. *)
Definition compact_take self : AdjacencyManager * FrozenCsrSegment :=
  (with_active (fun _ => Segment.new) self, Segment.freeze (active_overlay self)).
Definition compact_push self (frozen : FrozenCsrSegment) : AdjacencyManager :=
  mkAdj (main_csr self) (csr_source_stamp self) (active_overlay self) (frozen_segments self ++ [(next_arc self, frozen)])
    (shadow self) (pinned_versions self) (current_bytes self) (max_bytes self) (S (next_arc self)).

(** Step 3. *)
Definition all_keys self segments : gset OverlayKey :=
  dom (main_csr self) ∪ ⋃ ((fun seg : nat * FrozenCsrSegment => dom (inserts seg.2)) <$> segments).

(** The tombstones of an edge type: their edges, and the shadow with them. *)
Definition shadow_of (ts : OverlayTombstone) (eid edge_type : Z) (direction : Direction) : Z * ShadowEdge :=
  let '(key_vid, neighbor_vid) := if decide (direction = Incoming) then (ts_dst_vid ts, ts_src_vid ts) else (ts_src_vid ts, ts_dst_vid ts) in
  (key_vid, mkShadow neighbor_vid eid edge_type 0 (ts_version ts)).
Definition bury (key : OverlayKey) (acc : gset Z * ShadowCsr) (entry : Z * OverlayTombstone) : gset Z * ShadowCsr :=
  let '(tombstoned, sh) := acc in
  let '(eid, ts) := entry in
  if ts_edge_type ts =? key.1 then
    let '(vid, edge) := shadow_of ts eid key.1 key.2 in ({[eid]} ∪ tombstoned, Shadow.add_deleted_edge sh vid edge key.2)
  else acc.
Definition bury_all (key : OverlayKey) segments (sh : ShadowCsr) : gset Z * ShadowCsr :=
  foldl (fun acc seg => foldl (bury key) acc (hash_order (map_to_list (tombstones seg.2)))) (∅, sh) segments.

Definition raw_of (offset : Z) (e : CsrEdgeEntry) : RawEdge := (offset, neighbor_vid e, e_eid e, created_version e).
(** The rows of the old CSR, vertex by vertex. *)
Definition old_entries (csr : option MainCsr) : option (list RawEdge) :=
  match csr with
  | Some csr => (fun l => concat l) <$> mapM (fun v => (fun es : list CsrEdgeEntry => raw_of (Z.of_nat v) <$> es) <$> get_entries csr (Z.of_nat v)) (seq 0 (num_vertices csr))
  | None => Some []
  end.
Definition segment_entries (key : OverlayKey) (segment : FrozenCsrSegment) : list RawEdge :=
  match inserts segment !! key with
  | Some adj => concat ((fun kv : Z * list (Z * Z * Z) => (fun n : Z * Z * Z => (kv.1, n.1.1, n.1.2, n.2)) <$> kv.2) <$> hash_order (map_to_list adj))
  | None => []
  end.

(** [dedup_entries_by_eid]: per edge the first entry of its highest version. *)
Definition r_eid (r : RawEdge) : Z := r.1.2.
Definition r_version (r : RawEdge) : Z := r.2.
Definition best_step (entries : list RawEdge) (best : gmap Z nat) (ie : nat * RawEdge) : gmap Z nat :=
  let '(idx, e) := ie in
  match best !! r_eid e with
  | None => <[r_eid e := idx]> best
  | Some j => match entries !! j with
              | Some b => if r_version b <? r_version e then <[r_eid e := idx]> best else best
              | None => best
              end
  end.
Definition dedup_entries_by_eid (entries : list RawEdge) : list RawEdge :=
  let indexed := imap pair entries in
  let best := foldl (best_step entries) ∅ indexed in
  let keep : gset nat := list_to_set (map_to_list best).*2 in
  (filter (fun ie : nat * RawEdge => ie.1 ∈ keep) indexed).*2.

Definition max_src (entries : list RawEdge) : Z := foldl Z.max 0 (r_src <$> entries).

(** Step 4 for one key. *)
Definition merge_key self segments (key : OverlayKey) : option AdjacencyManager :=
  let '(tombstoned, sh) := bury_all key segments (shadow self) in
  old ← old_entries (main_csr self !! key);
  let kept l := filter (fun r => r_eid r ∉ tombstoned) l in
  let entries := kept old ++ concat ((fun seg : nat * FrozenCsrSegment => kept (segment_entries key seg.2)) <$> segments) in
  let max_offset := max_src entries in
  let new_csr := from_edge_entries (Z.to_nat max_offset) (dedup_entries_by_eid entries) in
  let freed := match main_csr self !! key with Some o => Z.of_nat (memory_usage o) | None => 0 end in
  Some (with_bytes (fun b => (b - freed + Z.of_nat (memory_usage new_csr)) mod 2 ^ 64)
          (with_main <[key := new_csr]> (with_shadow (fun _ => sh) self))).

Fixpoint merge_keys self segments (keys : list OverlayKey) : option AdjacencyManager :=
  match keys with
  | [] => Some self
  | key :: keys => self ← merge_key self segments key; merge_keys self segments keys
  end.

(** Step 5: drop the segments of the snapshot, by pointer. *)
Definition compact_drain self segments : AdjacencyManager :=
  with_frozen (filter (fun s => s.1 ∉ segments.*1)) self.

Definition compact self : option AdjacencyManager :=
  let '(self, frozen) := compact_take self in
  let self := compact_push self frozen in
  let segments := frozen_segments self in
  self ← merge_keys self segments (hash_order (elements (all_keys self segments)));
  Some (compact_drain self segments).

(** ** Warming from storage *)

Record L2Row := mkL2 { l2_src_vid : Z; l2_neighbors : list Z; l2_edge_ids : list Z }.
Record L1Row := mkL1 { l1_src_vid : Z; l1_dst_vid : Z; l1_eid : Z; l1_op : Z; l1_version : Z }.
(** The decoded rows of the tables of an edge type, per direction. *)
Record EdgeTables := mkTables { l2_rows : Direction -> list L2Row; l1_rows : Direction -> list L1Row }.

(** L2 rows carry no version: 0. *)
Definition l2_entries (r : L2Row) : option (list RawEdge) :=
  mapM (fun jn : nat * Z => e ← l2_edge_ids r !! jn.1; Some (l2_src_vid r, jn.2, e, 0)) (imap pair (l2_neighbors r)).

Definition warm_delta (edge_type : Z) (read_dir : Direction) (acc : list RawEdge * gset Z * ShadowCsr) (r : L1Row) : list RawEdge * gset Z * ShadowCsr :=
  let '(entries, deleted_eids, sh) := acc in
  let '(key_vid, neighbor) := if decide (read_dir = Incoming) then (l1_dst_vid r, l1_src_vid r) else (l1_src_vid r, l1_dst_vid r) in
  if l1_op r =? 0 then (entries ++ [(key_vid, neighbor, l1_eid r, l1_version r)], deleted_eids, sh)
  else (entries, {[l1_eid r]} ∪ deleted_eids,
        Shadow.add_deleted_edge sh key_vid (mkShadow neighbor (l1_eid r) edge_type 0 (l1_version r)) read_dir).

Definition warm_direction (tables : EdgeTables) (edge_type : Z) (visibility : RowVisibility)
    (acc : list RawEdge * gset Z * ShadowCsr) (read_dir : Direction) : option (list RawEdge * gset Z * ShadowCsr) :=
  base ← mapM l2_entries (l2_rows tables read_dir);
  let '(entries, deleted_eids, sh) := acc in
  Some (foldl (warm_delta edge_type read_dir) (entries ++ concat base, deleted_eids, sh)
          (List.filter (fun r => admits visibility (l1_version r)) (l1_rows tables read_dir))).

Fixpoint warm_directions (tables : EdgeTables) (edge_type : Z) (visibility : RowVisibility)
    (acc : list RawEdge * gset Z * ShadowCsr) (dirs : list Direction) : option (list RawEdge * gset Z * ShadowCsr) :=
  match dirs with
  | [] => Some acc
  | dir :: dirs => acc ← warm_direction tables edge_type visibility acc dir; warm_directions tables edge_type visibility acc dirs
  end.

(** The new manager and whether the CSR was installed.  The shadow entries of
    the read stay either way. *)
Definition warm_once self (gate : GateState) (tables : EdgeTables) (source_stamp : option Z) (edge_type : Z)
    (direction : Direction) (visibility : RowVisibility) (epoch : Z) : option (AdjacencyManager * bool) :=
  '(entries, deleted_eids, sh) ← warm_directions tables edge_type visibility ([], ∅, shadow self) (expand direction);
  let self := with_shadow (fun _ => sh) self in
  let entries := dedup_entries_by_eid (filter (fun r => r_eid r ∉ deleted_eids) entries) in
  let csr := from_edge_entries (Z.to_nat (max_src entries)) entries in
  match install_if_current gate epoch (fun _ =>
      with_stamp (match source_stamp with Some v => <[(edge_type, direction) := v]> | None => delete (edge_type, direction) end)
        (set_main_csr self edge_type direction csr)) with
  | Some self => Some (self, true)
  | None => Some (self, false)
  end.
End writes.
