(* ===== verification/AdjacencyLayers.v ===== *)
(** * What adjacency reads and merges do

    The elements of a layered read ([Adjacency.get_neighbors]), the canonical
    order, the deduplication of entries by edge and the merge of one key of a
    compaction, each as a statement about membership. *)

From S2P Require Import Prelude Csr BulkGate Pins Adjacency.

(** ** Canonical order *)

Definition pair_lt (a b : Z * Z) : Prop := a.1 < b.1 \/ (a.1 = b.1 /\ a.2 < b.2).

Lemma dedup_elem {A} `{EqDecision A} (l : list A) x : x ∈ dedup l <-> x ∈ l.
Proof.
  induction l as [|a l IH]; [done|]. cbn. destruct (dedup l) as [|b l'] eqn:E.
  - set_solver.
  - case_decide; subst; set_solver.
Qed.

Lemma dedup_sorted (l : list (Z * Z)) : StronglySorted pair_le l -> StronglySorted pair_lt (dedup l).
Proof.
  induction 1 as [|a l Hs IH Ha]; cbn; [constructor|]. destruct (dedup l) as [|b l'] eqn:E; [repeat constructor|].
  case_decide; [by subst|]. constructor; [done|]. apply StronglySorted_inv in IH as [_ Hb].
  assert (Hab : pair_lt a b).
  { rewrite Forall_forall in Ha. assert (Hin : b ∈ l) by (apply dedup_elem; rewrite E; left). specialize (Ha b Hin).
    unfold pair_le, pair_lt in *. destruct a as [a1 a2], b as [b1 b2]. cbn in *.
    assert (a1 <> b1 \/ a2 <> b2) by (destruct (decide (a1 = b1)); [right; congruence|by left]). lia. }
  constructor; [done|]. eapply Forall_impl; [exact Hb|]. unfold pair_lt in *. intros x Hx. cbn in *. lia.
Qed.

Lemma canonical_spec (l : list (Z * Z)) :
  StronglySorted pair_lt (into_canonical_order l) /\ (forall x, x ∈ into_canonical_order l <-> x ∈ l).
Proof.
  unfold into_canonical_order. destruct (Nat.ltb_spec 1 (length l)) as [Hl|Hl].
  - split.
    + apply dedup_sorted, Sorted_StronglySorted; [intros ???; unfold pair_le; lia|]. apply Sorted_merge_sort.
      intros a b. unfold pair_le. lia.
    + intros x. by rewrite dedup_elem, merge_sort_Permutation.
  - split; [|done]. destruct l as [|a [|b l]]; [constructor|repeat constructor|cbn in Hl; lia].
Qed.

(** ** What a read returns *)

Definition entry_in (seg : L0CsrSegment) (key : OverlayKey) (vid n e : Z) : Prop :=
  exists ver, (n, e, ver) ∈ Segment.neighbors_of seg vid key.1 key.2.
Definition tombed (seg : L0CsrSegment) (e : Z) : Prop := is_Some (tombstones seg !! e).

(** An edge listed by a segment and not deleted by it or a later one. *)
Inductive shown (key : OverlayKey) (vid n e : Z) : list L0CsrSegment -> Prop :=
| shown_here seg segs : entry_in seg key vid n e -> Forall (fun s => ~ tombed s e) (seg :: segs) -> shown key vid n e (seg :: segs)
| shown_later seg segs : shown key vid n e segs -> shown key vid n e (seg :: segs).

Lemma read_segment_elem seg vid ty d r n e :
  (n, e) ∈ read_segment seg vid ty d r <-> ((n, e) ∈ r \/ entry_in seg (ty, d) vid n e) /\ ~ tombed seg e.
Proof.
  unfold read_segment, Segment.has_entries_for, entry_in, tombed, Segment.neighbors_of. cbn [fst snd].
  set (ins := inserts seg !! (ty, d)).
  set (r1 := if match ins with Some _ => true | None => false end then _ else r).
  assert (Hr1 : (n, e) ∈ r1 <-> (n, e) ∈ r \/ exists ver, (n, e, ver) ∈ default [] (ins ≫= fun adj => adj !! vid)).
  { unfold r1. destruct ins as [adj|]; cbn [mbind option_bind default].
    - destruct (adj !! vid) as [ns|]; cbn [default].
      + rewrite elem_of_app, list_elem_of_fmap. split; (intros [?|H]; [by left|right]).
        * destruct H as ([[n' e'] ver] & [= <- <-] & ?). eauto.
        * destruct H as [ver ?]. by exists (n, e, ver).
      + split; [auto|]. intros [?|[? ?%elem_of_nil]]; done.
    - split; [auto|]. intros [?|[? ?%elem_of_nil]]; done. }
  destruct (decide (tombstones seg = ∅)) as [Ht|Ht].
  - rewrite bool_decide_eq_true_2 by done. cbn [negb]. rewrite Hr1, Ht, lookup_empty. split; [|by intros [? _]].
    intros ?. split; [done|]. by intros [? ?].
  - rewrite bool_decide_eq_false_2 by done. cbn [negb]. rewrite list_elem_of_filter, Hr1. cbn [snd].
    rewrite eq_None_not_Some. tauto.
Qed.

Lemma read_frozen_elem seg vid ty d r n e :
  (n, e) ∈ read_frozen seg vid ty d r <-> ((n, e) ∈ r \/ entry_in seg (ty, d) vid n e) /\ ~ tombed seg e.
Proof.
  unfold read_frozen. destruct (negb _ && _) eqn:E; [|apply read_segment_elem].
  apply andb_true_iff in E as [E1%negb_true_iff E2%bool_decide_eq_true]. unfold Segment.has_entries_for in E1.
  assert (Hn : ~ entry_in seg (ty, d) vid n e).
  { intros [ver H]. unfold Segment.neighbors_of in H. cbn [fst snd] in H. destruct (inserts seg !! (ty, d)); [done|].
    by apply elem_of_nil in H. }
  unfold tombed. rewrite E2, lookup_empty. split; [|tauto]. intros ?. split; [by left|]. by intros [? ?].
Qed.

(** Reading the frozen segments and the active one over a result so far. *)
Lemma read_stack_elem frozen active vid ty d r n e :
  (n, e) ∈ read_segment active vid ty d (foldl (fun r seg => read_frozen (seg : nat * L0CsrSegment).2 vid ty d r) r frozen)
  <-> ((n, e) ∈ r /\ Forall (fun s => ~ tombed s e) (frozen.*2 ++ [active])) \/ shown (ty, d) vid n e (frozen.*2 ++ [active]).
Proof.
  revert r. induction frozen as [|[i seg] frozen IH]; intros r; cbn [foldl fmap list_fmap app snd].
  - rewrite read_segment_elem. split.
    + intros [[?|?] ?]; [left; split; [done|by repeat constructor]|right; apply shown_here; [done|by repeat constructor]].
    + intros [[? [? _]%Forall_cons]|Hs]; [tauto|]. inversion Hs as [? ? ? [? _]%Forall_cons|? ? Hs']; [tauto|inversion Hs'].
  - rewrite IH, read_frozen_elem. split.
    + intros [[[[?|?] ?] ?]|?]; [left; split; [done|by constructor]|right; apply shown_here; [done|by constructor]|right; by apply shown_later].
    + intros [[? [? ?]%Forall_cons]|Hs]; [tauto|]. inversion Hs as [? ? ? [? ?]%Forall_cons|? ? Hs']; subst; tauto.
Qed.

Definition main_lists (m : AdjacencyManager) (key : OverlayKey) (vid n e : Z) : Prop :=
  exists es ver, main_row m key.1 key.2 vid = Some es /\ mkEntry n e ver ∈ es.

Definition visible_edge (m : AdjacencyManager) (key : OverlayKey) (vid n e : Z) : Prop :=
  let stack := (frozen_segments m).*2 ++ [active_overlay m] in
  (main_lists m key vid n e /\ Forall (fun s => ~ tombed s e) stack) \/ shown key vid n e stack.

Lemma read_direction_elem m vid ty d r :
  is_Some (main_row m ty d vid) ->
  exists r', read_direction m vid ty r d = Some r' /\ forall n e, (n, e) ∈ r' <->
    ((n, e) ∈ r /\ Forall (fun s => ~ tombed s e) ((frozen_segments m).*2 ++ [active_overlay m])) \/ visible_edge m (ty, d) vid n e.
Proof.
  intros [es Hes]. unfold read_direction. rewrite Hes. cbn [mbind option_bind]. eexists. split; [reflexivity|]. intros n e.
  rewrite read_stack_elem, elem_of_app, list_elem_of_fmap. unfold visible_edge, main_lists. cbn [fst snd]. rewrite Hes. split.
  - intros [[[?|(x & [= -> ->] & Hx)] ?]|?]; [by left|right; left|by right; right].
    split; [|done]. exists es, (created_version x). split; [done|]. by destruct x.
  - intros [[? ?]|[[(es' & ver & [= <-] & Hx) ?]|?]]; [by left; split; [left|]| |by right].
    left. split; [|done]. right. by exists (mkEntry n e ver).
Qed.

(** ** Merging entries *)

Section dedup_entries.
  Implicit Types (l : list RawEdge) (x y : RawEdge).

(** The best index per edge among the first [k] entries. *)
Definition best_ok l (k : nat) (best : gmap Z nat) : Prop :=
  (forall e j, best !! e = Some j -> (j < k)%nat /\ exists x, l !! j = Some x /\ r_eid x = e
     /\ forall i y, (i < k)%nat -> l !! i = Some y -> r_eid y = e -> r_version y <= r_version x)
  /\ (forall i y, (i < k)%nat -> l !! i = Some y -> is_Some (best !! r_eid y)).

Lemma best_step_ok l k best x : best_ok l k best -> l !! k = Some x -> best_ok l (S k) (best_step l best (k, x)).
Proof.
  intros [H1 H2] Hx. unfold best_step.
  assert (Hnew : (forall i y, (i < k)%nat -> l !! i = Some y -> r_eid y = r_eid x -> r_version y <= r_version x) ->
    best_ok l (S k) (<[r_eid x := k]> best)).
  { intros Hmax. split.
    - intros e j [[<- <-]|[Hne Hj]]%lookup_insert_Some.
      + split; [lia|]. exists x. split_and!; [done|done|]. intros i y Hi Hy He.
        destruct (decide (i = k)) as [->|]; [replace y with x by congruence; lia|]. apply (Hmax i); [lia|done|done].
      + destruct (H1 e j Hj) as (Hlt & z & Hz & He & Hm). split; [lia|]. exists z. split_and!; [done|done|].
        intros i y Hi Hy Hy'. destruct (decide (i = k)) as [->|]; [congruence|]. apply (Hm i); [lia|done|done].
    - intros i y Hi Hy. destruct (decide (r_eid y = r_eid x)) as [->|Hne]; [by rewrite lookup_insert_eq|].
      rewrite lookup_insert_ne by done. apply (H2 i); [|done]. destruct (decide (i = k)) as [->|]; [congruence|lia]. }
  destruct (best !! r_eid x) as [j|] eqn:Ej.
  - destruct (H1 _ _ Ej) as (Hlt & b & Hb & He & Hm). rewrite Hb. destruct (Z.ltb_spec (r_version b) (r_version x)) as [Hv|Hv].
    + apply Hnew. intros i y Hi Hy Hy'. specialize (Hm i y Hi Hy Hy'). lia.
    + split.
      * intros e j' Hj'. destruct (H1 e j' Hj') as (Hlt' & z & Hz & He' & Hm'). split; [lia|]. exists z. split_and!; [done|done|].
        intros i y Hi Hy Hy'. destruct (decide (i = k)) as [->|]; [|apply (Hm' i); [lia|done|done]].
        replace y with x in * by congruence. assert (j' = j) as -> by congruence. replace z with b by congruence. done.
      * intros i y Hi Hy. destruct (decide (i = k)) as [->|]; [|apply (H2 i); [lia|done]].
        replace y with x by congruence. by rewrite Ej.
  - apply Hnew. intros i y Hi Hy Hy'. destruct (H2 i y Hi Hy) as [? Hs]. rewrite Hy', Ej in Hs. done.
Qed.

Lemma best_all l : best_ok l (length l) (foldl (best_step l) ∅ (imap pair l)).
Proof.
  assert (Hgen : forall past rest best, l = past ++ rest -> best_ok l (length past) best ->
    best_ok l (length l) (foldl (best_step l) best (imap (fun i x => (length past + i, x)%nat) rest))).
  { intros past rest. revert past. induction rest as [|x rest IH]; intros past best -> Hb; cbn [imap foldl].
    - rewrite app_nil_r in *. done.
    - rewrite Nat.add_0_r. specialize (IH (past ++ [x]) (best_step (past ++ x :: rest) best (length past, x))).
      rewrite <- app_assoc in IH. specialize (IH eq_refl). rewrite length_app in IH. cbn [length] in IH.
      rewrite Nat.add_1_r in IH. cbn [app] in IH.
      rewrite (imap_ext _ (fun i y => (S (length past) + i, y)%nat)); [|intros i y _; cbn; f_equal; lia].
      apply IH, best_step_ok; [done|]. by rewrite list_lookup_middle. }
  specialize (Hgen [] l ∅ eq_refl). cbn [length Nat.add] in Hgen. apply Hgen. split.
  - by intros e j ?%lookup_empty_Some.
  - intros i y Hi. lia.
Qed.

Lemma dedup_entries_lookup l x :
  x ∈ dedup_entries_by_eid l <-> exists i, l !! i = Some x /\ foldl (best_step l) ∅ (imap pair l) !! r_eid x = Some i.
Proof.
  unfold dedup_entries_by_eid. rewrite list_elem_of_fmap. destruct (best_all l) as [H1 _]. set (best := foldl _ _ _) in *. split.
  - intros ([i x'] & -> & [Hk Hi]%list_elem_of_filter). cbn [fst snd] in *. apply elem_of_lookup_imap in Hi as (i' & y & [= -> ->] & Hy).
    exists i'. split; [done|]. rewrite elem_of_list_to_set, list_elem_of_fmap in Hk. destruct Hk as ([e j] & -> & Hm%elem_of_map_to_list).
    cbn in *. destruct (H1 e j Hm) as (_ & z & Hz & <- & _). by replace y with z by congruence.
  - intros (i & Hi & Hb). exists (i, x). split; [done|]. apply list_elem_of_filter. cbn [fst]. split.
    + rewrite elem_of_list_to_set, list_elem_of_fmap. exists (r_eid x, i). split; [done|]. by apply elem_of_map_to_list.
    + apply elem_of_lookup_imap. eauto.
Qed.

Lemma dedup_entries_sub l x : x ∈ dedup_entries_by_eid l -> x ∈ l.
Proof. rewrite dedup_entries_lookup. intros (i & Hi & _). by eapply list_elem_of_lookup_2. Qed.
Lemma dedup_entries_best l x y : x ∈ dedup_entries_by_eid l -> y ∈ l -> r_eid y = r_eid x -> r_version y <= r_version x.
Proof.
  rewrite dedup_entries_lookup. intros (i & Hi & Hb) [j Hj]%list_elem_of_lookup He. destruct (best_all l) as [H1 _].
  destruct (H1 _ _ Hb) as (_ & z & Hz & _ & Hm). replace x with z by congruence. apply (Hm j); [by eapply lookup_lt_Some|done|done].
Qed.
Lemma dedup_entries_covers l y : y ∈ l -> exists x, x ∈ dedup_entries_by_eid l /\ r_eid x = r_eid y.
Proof.
  intros [j Hj]%list_elem_of_lookup. destruct (best_all l) as [H1 H2].
  destruct (H2 j y) as [i Hi]; [by eapply lookup_lt_Some|done|]. destruct (H1 _ _ Hi) as (_ & x & Hx & He & _).
  exists x. split; [|done]. apply dedup_entries_lookup. exists i. split; [done|]. by rewrite He.
Qed.
Lemma dedup_entries_nodup l : NoDup (r_eid <$> dedup_entries_by_eid l).
Proof.
  unfold dedup_entries_by_eid. destruct (best_all l) as [H1 _]. set (best := foldl _ _ _) in *.
  rewrite <- list_fmap_compose. apply NoDup_fmap_2_strong.
  - intros [i x] [j y] [Hi Hx]%list_elem_of_filter [Hj Hy]%list_elem_of_filter E. cbn in *.
    apply elem_of_lookup_imap in Hx as (i' & x' & [= -> ->] & Hx). apply elem_of_lookup_imap in Hy as (j' & y' & [= -> ->] & Hy).
    rewrite elem_of_list_to_set, list_elem_of_fmap in Hi, Hj.
    destruct Hi as ([e1 a] & -> & Ha%elem_of_map_to_list), Hj as ([e2 b] & -> & Hb%elem_of_map_to_list). cbn in *.
    destruct (H1 _ _ Ha) as (_ & z1 & Hz1 & <- & _), (H1 _ _ Hb) as (_ & z2 & Hz2 & <- & _).
    assert (z1 = x') as -> by congruence. assert (z2 = y') as -> by congruence. rewrite E in Ha. assert (a = b) as -> by congruence.
    f_equal. congruence.
  - apply NoDup_filter. apply (NoDup_fmap_1 fst). rewrite fmap_imap.
    rewrite (imap_ext _ (fun i _ => i)) by done. rewrite imap_seq_0, list_fmap_id. apply NoDup_seq.
Qed.
End dedup_entries.

(** ** Merging one key *)

Lemma list_elem_of_concat {A} (x : A) (ls : list (list A)) : x ∈ concat ls <-> exists l, x ∈ l /\ l ∈ ls.
Proof.
  induction ls as [|l ls IH]; cbn; [split; [by intros ?%elem_of_nil|by intros (? & _ & ?%elem_of_nil)]|].
  rewrite elem_of_app, IH. split.
  - intros [?|(l' & ? & ?)]; [exists l; split; [done|by left]|exists l'; split; [done|by right]].
  - intros (l' & ? & [->|?]%elem_of_cons); eauto.
Qed.


(** A packed CSR with the entries [raw]. *)
Definition holds (csr : option MainCsr) (raw : list RawEdge) : Prop :=
  match csr with Some csr => exists max, csr = from_edge_entries max raw /\ fits max raw | None => raw = [] end.

Lemma holds_row csr raw vid : holds csr raw -> 0 <= vid ->
  exists es, match csr with Some csr => get_entries csr vid | None => Some [] end = Some es
    /\ forall n e ver, mkEntry n e ver ∈ es <-> (vid, n, e, ver) ∈ raw.
Proof.
  destruct csr as [csr|]; cbn.
  - intros (max & -> & Hf) Hv. eexists. split; [by apply get_entries_exact|].
    intros n e ver. rewrite list_elem_of_fmap. split.
    + intros ([[[s n'] e'] ver'] & [= <- <- <-] & [Hs ?]%list_elem_of_filter). cbn in Hs. by subst s.
    + intros H. exists (vid, n, e, ver). split; [done|]. by apply list_elem_of_filter.
  - intros -> _. exists []. split; [done|]. intros n e ver. split; by intros ?%elem_of_nil.
Qed.

Lemma holds_old csr raw : holds csr raw -> exists l, old_entries csr = Some l /\ forall x, x ∈ l <-> x ∈ raw.
Proof.
  destruct csr as [csr|]; cbn [holds old_entries]; [|intros ->; by exists []]. intros (max & -> & Hf).
  set (csr := from_edge_entries max raw).
  assert (Hrow : forall v : nat, exists es, get_entries csr (Z.of_nat v) = Some es
     /\ forall n e ver, mkEntry n e ver ∈ es <-> (Z.of_nat v, n, e, ver) ∈ raw).
  { intros v. apply (holds_row (Some csr) raw (Z.of_nat v)); [by exists max|lia]. }
  assert (Hmap : forall vs, exists ls,
    mapM (fun v => (fun es : list CsrEdgeEntry => raw_of (Z.of_nat v) <$> es) <$> get_entries csr (Z.of_nat v)) vs = Some ls
    /\ forall x, x ∈ concat ls <-> exists v, v ∈ vs /\ r_src x = Z.of_nat v /\ x ∈ raw).
  { induction vs as [|v vs (ls & Hm & Hx)].
    - exists []. split; [done|]. intros x. split; [by intros ?%elem_of_nil|]. by intros (? & ?%elem_of_nil & _).
    - destruct (Hrow v) as (es & He & Hes). cbn [mapM]. rewrite He. cbn [fmap option_fmap option_map mbind option_bind]. rewrite Hm.
      cbn [mbind option_bind]. eexists. split; [done|]. intros x. cbn [concat]. rewrite elem_of_app, Hx, list_elem_of_fmap. split.
      + intros [([n e ver] & -> & Hin)|(v' & ? & ?)]; [exists v|exists v'; split; [by right|done]].
        split; [by left|]. split; [done|]. by apply Hes.
      + intros (v' & [->|Hv']%elem_of_cons & Hs & Hin); [left|right; by exists v'].
        destruct x as [[[s n] e] ver]. cbn in Hs. subst s. exists (mkEntry n e ver). split; [done|]. by apply Hes. }
  destruct (Hmap (seq 0 (num_vertices csr))) as (ls & -> & Hx). exists (concat ls). split; [done|]. intros x. rewrite Hx. split.
  - by intros (_ & _ & _ & ?).
  - intros Hin. exists (Z.to_nat (r_src x)). pose proof Hf as [Hall _]. rewrite Forall_forall in Hall. destruct (Hall x Hin) as [H0 Hle].
    split_and!; [|lia|done]. apply elem_of_seq. assert (Hne : raw <> []) by (by intros ->; apply elem_of_nil in Hin).
    pose proof (proj2 (from_entries_length max raw Hf) Hne) as Hnv. fold csr in Hnv. lia.
Qed.

Section merge.
  Context `{HO : HashOrder}.
  Implicit Types (m : AdjacencyManager) (segs : list (nat * FrozenCsrSegment)) (key : OverlayKey).

Lemma segment_entries_elem key seg v n e ver :
  (v, n, e, ver) ∈ segment_entries key seg <-> (n, e, ver) ∈ Segment.neighbors_of seg v key.1 key.2.
Proof.
  unfold segment_entries, Segment.neighbors_of. destruct key as [ty d]. cbn [fst snd].
  destruct (inserts seg !! (ty, d)) as [adj|]; cbn [mbind option_bind default]; [|split; by intros ?%elem_of_nil].
  rewrite list_elem_of_concat. split.
  - intros (l & Hin & ([v' ns] & -> & Hkv)%list_elem_of_fmap). apply list_elem_of_fmap in Hin as ([[n' e'] ver'] & [= -> -> -> ->] & Hn).
    rewrite hash_order_perm in Hkv. apply elem_of_map_to_list in Hkv. cbn in *. by rewrite Hkv.
  - destruct (adj !! v) as [ns|] eqn:E; cbn; [|by intros ?%elem_of_nil]. intros Hn.
    exists ((fun n : Z * Z * Z => (v, n.1.1, n.1.2, n.2)) <$> ns). split.
    + apply list_elem_of_fmap. by exists (n, e, ver).
    + apply list_elem_of_fmap. exists (v, ns). split; [done|]. rewrite hash_order_perm. by apply elem_of_map_to_list.
Qed.

(** Deleted by one of the segments, under this edge type. *)
Definition buried segs (ty e : Z) : Prop :=
  exists seg ts, seg ∈ segs /\ tombstones seg.2 !! e = Some ts /\ ts_edge_type ts = ty.

Lemma bury_all_elem key segs sh e : e ∈ (bury_all key segs sh).1 <-> buried segs key.1 e.
Proof.
  unfold bury_all, buried.
  assert (Hin : forall l acc, e ∈ (foldl (bury key) acc l).1 <-> e ∈ acc.1 \/ exists ts, (e, ts) ∈ l /\ ts_edge_type ts = key.1).
  { induction l as [|[e' ts'] l IH]; intros [dead sh']; cbn [foldl fst].
    - split; [auto|]. intros [?|(? & ?%elem_of_nil & _)]; done.
    - rewrite IH. unfold bury. destruct (Z.eqb_spec (ts_edge_type ts') key.1) as [E|E].
      + destruct (shadow_of ts' e' key.1 key.2) as [vid edge]. cbn [fst]. split.
        * intros [[->%elem_of_singleton|?]%elem_of_union|(ts & ? & ?)]; [right; exists ts'; split; [by left|done]|by left|].
          right. exists ts. split; [by right|done].
        * intros [?|(ts & [[= -> ->]|?]%elem_of_cons & ?)]; [left; set_solver|left; set_solver|right; eauto].
      + cbn [fst]. split.
        * intros [?|(ts & ? & ?)]; [by left|]. right. exists ts. split; [by right|done].
        * intros [?|(ts & [[= -> ->]|?]%elem_of_cons & ?)]; [by left|done|right; eauto]. }
  assert (Hout : forall acc, e ∈ (foldl (fun acc seg => foldl (bury key) acc (hash_order (map_to_list (tombstones (seg : nat * FrozenCsrSegment).2)))) acc segs).1
    <-> e ∈ acc.1 \/ exists seg ts, seg ∈ segs /\ tombstones seg.2 !! e = Some ts /\ ts_edge_type ts = key.1).
  { induction segs as [|seg segs IH]; intros acc; cbn [foldl].
    - split; [auto|]. intros [?|(? & ? & ?%elem_of_nil & _)]; done.
    - rewrite IH, Hin. setoid_rewrite hash_order_perm. setoid_rewrite elem_of_map_to_list. split.
      + intros [[?|(ts & ? & ?)]|(s & ts & ? & ?)]; [by left|right; exists seg, ts; split; [by left|done]|right; exists s, ts; split; [by right|done]].
      + intros [?|(s & ts & [->|?]%elem_of_cons & ? & ?)]; [by left; left|left; right; eauto|right; eauto]. }
  rewrite Hout. cbn [fst]. split; [intros [?|?]; [set_solver|done]|auto].
Qed.

(** What goes into the new CSR: entries of the old one or of a segment. *)
Definition candidate (raw : list RawEdge) segs key (x : RawEdge) : Prop :=
  x ∈ raw \/ exists seg, seg ∈ segs /\ x ∈ segment_entries key seg.2.

Lemma max_src_ge l x : x ∈ l -> r_src x <= max_src l.
Proof.
  unfold max_src. assert (Hg : forall (zs : list Z) a, a <= foldl Z.max a zs /\ (forall z, z ∈ zs -> z <= foldl Z.max a zs)).
  { induction zs as [|z zs IH]; intros a; cbn; [split; [lia|by intros ? ?%elem_of_nil]|]. destruct (IH (Z.max a z)) as [H1 H2].
    split; [lia|]. intros y [->|Hy]%elem_of_cons; [lia|by apply H2]. }
  intros Hx. apply Hg. by apply list_elem_of_fmap_2.
Qed.

Lemma merge_key_ok m segs key raw : holds (main_csr m !! key) raw ->
  (forall x, candidate raw segs key x -> 0 <= r_src x) ->
  (forall l, NoDup (r_eid <$> l) -> (forall x, x ∈ l -> candidate raw segs key x) -> Z.of_nat (length l) < 2 ^ 32) ->
  exists m' csr raw', merge_key m segs key = Some m' /\ main_csr m' = <[key := csr]> (main_csr m) /\ holds (Some csr) raw'
    /\ frozen_segments m' = frozen_segments m /\ active_overlay m' = active_overlay m /\ next_arc m' = next_arc m
    /\ shadow m' = (bury_all key segs (shadow m)).2
    /\ (forall x, x ∈ raw' -> candidate raw segs key x /\ ~ buried segs key.1 (r_eid x))
    /\ (forall x, candidate raw segs key x -> ~ buried segs key.1 (r_eid x) ->
          exists y, y ∈ raw' /\ r_eid y = r_eid x /\ r_version x <= r_version y).
Proof.
  intros Hh Hpos Hlen. unfold merge_key. pose proof (bury_all_elem key segs (shadow m)) as Hb.
  destruct (bury_all key segs (shadow m)) as [dead sh]. cbn [fst snd] in *.
  destruct (holds_old _ _ Hh) as (old & -> & Hold). cbn [mbind option_bind].
  set (kept := fun l : list RawEdge => filter (fun r => r_eid r ∉ dead) l).
  set (all := kept old ++ concat ((fun seg : nat * FrozenCsrSegment => kept (segment_entries key seg.2)) <$> segs)).
  assert (Hall : forall x, x ∈ all <-> candidate raw segs key x /\ ~ buried segs key.1 (r_eid x)).
  { intros x. unfold all. rewrite elem_of_app, list_elem_of_concat. unfold kept. rewrite list_elem_of_filter, Hold, Hb. unfold candidate. split.
    - intros [[? ?]|(l & Hin & (seg & -> & Hseg)%list_elem_of_fmap)]; [tauto|]. apply list_elem_of_filter in Hin as [Hn Hin].
      rewrite Hb in Hn. split; [right; eauto|done].
    - intros [[?|(seg & Hseg & Hin)] Hn]; [by left|right]. eexists. split; [|by apply list_elem_of_fmap_2].
      apply list_elem_of_filter. by rewrite Hb. }
  eexists _, _, (dedup_entries_by_eid all). split_and!; [reflexivity|reflexivity| |done|done|done|done| |].
  - cbn [holds]. eexists. split; [reflexivity|]. split.
    + apply Forall_forall. intros x Hx%dedup_entries_sub. pose proof (max_src_ge all x Hx). apply Hall in Hx as [Hc _].
      specialize (Hpos x Hc). split; [done|]. assert (Z.to_nat (r_src x) <= Z.to_nat (max_src all))%nat by lia. done.
    + apply Hlen; [apply dedup_entries_nodup|]. intros x Hx%dedup_entries_sub%Hall. by destruct Hx.
  - intros x Hx%dedup_entries_sub. by apply Hall.
  - intros x Hc Hn. assert (Hx : x ∈ all) by by apply Hall. destruct (dedup_entries_covers all x Hx) as (y & Hy & E).
    exists y. split_and!; [done|done|]. by apply (dedup_entries_best all).
Qed.
End merge.
