(* ===== verification/AdjacencyRuns.v ===== *)
(** * Adjacency reads are exact

    Runs of the layered adjacency ([Adjacency]): edges inserted and deleted,
    compaction one locked section at a time with other writers in between,
    shadow collection and warms from storage.  The specification is the set of
    live edges; reads return exactly the edges of a vertex whatever layer holds
    them. *)

From S2P Require Import Prelude Csr BulkGate Pins Adjacency AdjacencyLayers.

(** How a direction keys an edge: by source, or by destination. *)
Definition orient (d : Direction) (s t : Z) : Z * Z := match d with Incoming => (t, s) | _ => (s, t) end.

(** Where a compaction stands: its lock is free, the active segment is taken
    but not yet listed, or the snapshot is being merged. *)
Inductive compaction := Idle | Taken (frozen : FrozenCsrSegment) | Merging (segments : list (nat * FrozenCsrSegment)) (todo : list OverlayKey).

(** The manager, the edges ever inserted (source, destination, type) and the
    deleted ones. *)
Record aworld := mkWorld { adj : AdjacencyManager; phase : compaction; known : gmap Z (Z * Z * Z); dead : gset Z }.

(** What a warm of [(ty, d)] relies on: the tables hold edges of this type,
    rows it reads as deleted are deleted edges, a deletion not yet in the
    tables is in the active segment, and so is a live edge not in the tables. *)
Record stored (w : aworld) (ty : Z) (d : Direction) (entries : list RawEdge) (deleted : gset Z) : Prop := {
  st_known x : x ∈ entries -> exists s t, known w !! r_eid x = Some (s, t, ty) /\ orient d s t = (r_src x, x.1.1.2);
  st_deleted : deleted ⊆ dead w;
  st_masked x : x ∈ entries -> r_eid x ∈ dead w -> r_eid x ∈ deleted \/ tombed (active_overlay (adj w)) (r_eid x);
  st_complete e s t : known w !! e = Some (s, t, ty) -> e ∉ dead w ->
    (exists x, x ∈ entries /\ r_eid x = e) \/ entry_in (active_overlay (adj w)) (ty, d) (orient d s t).1 (orient d s t).2 e;
}.

Section runs.
  Context `{HO : HashOrder}.
  Implicit Types (m : AdjacencyManager) (w : aworld).

(** The locked sections of a compaction. *)
Inductive cstep : aworld -> aworld -> Prop :=
| c_take m kn dd m' f : compact_take m = (m', f) -> cstep (mkWorld m Idle kn dd) (mkWorld m' (Taken f) kn dd)
| c_push m kn dd f m' : m' = compact_push m f ->
    cstep (mkWorld m (Taken f) kn dd)
      (mkWorld m' (Merging (frozen_segments m') (hash_order (elements (all_keys m' (frozen_segments m'))))) kn dd)
| c_merge m kn dd segs k ks m' : merge_key m segs k = Some m' ->
    cstep (mkWorld m (Merging segs (k :: ks)) kn dd) (mkWorld m' (Merging segs ks) kn dd)
| c_drain m kn dd segs : cstep (mkWorld m (Merging segs []) kn dd) (mkWorld (compact_drain m segs) Idle kn dd).

(** An id stands for one edge: an insert repeats the same endpoints (an update)
    or is new, and does not follow the edge's deletion. *)
Inductive astep : aworld -> aworld -> Prop :=
| a_insert m p kn dd src dst eid ty ver : 0 <= src -> 0 <= dst -> eid ∉ dd ->
    kn !! eid = None \/ kn !! eid = Some (src, dst, ty) -> Z.of_nat (size (<[eid := (src, dst, ty)]> kn)) < 2 ^ 32 ->
    astep (mkWorld m p kn dd) (mkWorld (insert_edge m src dst eid ty ver) p (<[eid := (src, dst, ty)]> kn) dd)
| a_delete m p kn dd src dst eid ty ver : 0 <= src -> 0 <= dst ->
    kn !! eid = None \/ kn !! eid = Some (src, dst, ty) -> Z.of_nat (size (<[eid := (src, dst, ty)]> kn)) < 2 ^ 32 ->
    astep (mkWorld m p kn dd) (mkWorld (add_tombstone m eid src dst ty ver) p (<[eid := (src, dst, ty)]> kn) ({[eid]} ∪ dd))
| a_compact w w' : cstep w w' -> astep w w'
| a_gc m p kn dd v : astep (mkWorld m p kn dd) (mkWorld (gc_shadow m v) p kn dd)
| a_warm m p kn dd gate tables stamp ty d vis epoch m' installed entries deleted sh : d <> Both ->
    warm_directions tables ty vis ([], ∅, shadow m) (expand d) = Some (entries, deleted, sh) ->
    stored (mkWorld m p kn dd) ty d entries deleted ->
    warm_once m gate tables stamp ty d vis epoch = Some (m', installed) ->
    astep (mkWorld m p kn dd) (mkWorld m' p kn dd).

Definition astart (max_bytes : Z) : aworld := mkWorld (new max_bytes) Idle ∅ ∅.
Definition areachable w : Prop := exists b, rtc astep (astart b) w.

(** ** The invariant *)

Definition taken (p : compaction) : list L0CsrSegment := match p with Taken f => [f] | _ => [] end.
Definition stack w : list L0CsrSegment := (frozen_segments (adj w)).*2 ++ taken (phase w) ++ [active_overlay (adj w)].

(** The entries of the packed rows of each key. *)
Abbreviation raws_t := (OverlayKey -> list RawEdge).
Definition in_main (raws : raws_t) (key : OverlayKey) (v n e : Z) : Prop := exists ver, (v, n, e, ver) ∈ raws key.
Definition names (kn : gmap Z (Z * Z * Z)) (key : OverlayKey) (v n e : Z) : Prop :=
  key.2 <> Both /\ exists s t, kn !! e = Some (s, t, key.1) /\ orient key.2 s t = (v, n).

(** What the merge of a key has to have done before the snapshot is dropped. *)
Definition settled (raws : raws_t) w (segs : list (nat * FrozenCsrSegment)) (key : OverlayKey) : Prop :=
  (forall v n e, in_main raws key v n e -> e ∈ dead w -> tombed (active_overlay (adj w)) e)
  /\ (forall seg v n e, seg ∈ segs.*2 -> entry_in seg key v n e -> e ∉ dead w ->
        in_main raws key v n e \/ entry_in (active_overlay (adj w)) key v n e).

Record inv (raws : raws_t) w : Prop := {
  iv_holds key : holds (main_csr (adj w) !! key) (raws key);
  iv_main key v n e : in_main raws key v n e -> names (known w) key v n e;
  iv_segs seg key v n e : seg ∈ stack w -> entry_in seg key v n e -> names (known w) key v n e;
  iv_tombs seg e ts : seg ∈ stack w -> tombstones seg !! e = Some ts ->
    e ∈ dead w /\ known w !! e = Some (ts_src_vid ts, ts_dst_vid ts, ts_edge_type ts);
  iv_live key v n e : names (known w) key v n e -> e ∉ dead w ->
    in_main raws key v n e \/ exists seg, seg ∈ stack w /\ entry_in seg key v n e;
  iv_dead_main key v n e : e ∈ dead w -> in_main raws key v n e -> exists seg, seg ∈ stack w /\ tombed seg e;
  iv_dead_segs key v n e l1 seg l2 : e ∈ dead w -> stack w = l1 ++ seg :: l2 -> entry_in seg key v n e ->
    exists seg', seg' ∈ seg :: l2 /\ tombed seg' e;
  iv_pos e s t ty : known w !! e = Some (s, t, ty) -> 0 <= s /\ 0 <= t;
  iv_size : Z.of_nat (size (known w)) < 2 ^ 32;
  iv_phase : match phase w with
             | Idle | Taken _ => frozen_segments (adj w) = []
             | Merging segs todo => frozen_segments (adj w) = segs /\ length segs = 1%nat
                                    /\ forall key, key ∉ todo -> settled raws w segs key
             end;
}.

Lemma names_pos raws w key v n e : inv raws w -> names (known w) key v n e -> 0 <= v /\ 0 <= n.
Proof.
  intros I (_ & s & t & Hk & Ho). destruct (iv_pos _ _ I _ _ _ _ Hk). destruct key as [ty []]; cbn in Ho; injection Ho as <- <-; lia.
Qed.

(** ** Reads under the invariant *)

Lemma shown_split key v n e segs : shown key v n e segs <->
  exists l1 seg l2, segs = l1 ++ seg :: l2 /\ entry_in seg key v n e /\ Forall (fun s => ~ tombed s e) (seg :: l2).
Proof.
  split.
  - induction 1 as [seg segs He Hf|seg segs _ (l1 & s & l2 & -> & He & Hf)]; [by exists [], seg, segs|by exists (seg :: l1), s, l2].
  - intros (l1 & seg & l2 & -> & He & Hf). induction l1 as [|s l1 IH]; [by apply shown_here|by apply shown_later].
Qed.

Lemma main_lists_raws raws w key v n e : inv raws w -> 0 <= v -> main_lists (adj w) key v n e <-> in_main raws key v n e.
Proof.
  intros I Hv. unfold main_lists, main_row, in_main. destruct key as [ty d]. cbn [fst snd].
  destruct (holds_row _ _ v (iv_holds _ _ I (ty, d)) Hv) as (es & E & Hes). rewrite E. split.
  - intros (es' & ver & [= <-] & Hin). exists ver. by apply Hes.
  - intros [ver Hin]. exists es, ver. split; [done|]. by apply Hes.
Qed.

(** Outside the gap between taking and pushing, an edge is visible exactly
    when it is known and not deleted. *)
Lemma visible_exact raws w key v n e : inv raws w -> taken (phase w) = [] -> 0 <= v ->
  visible_edge (adj w) key v n e <-> names (known w) key v n e /\ e ∉ dead w.
Proof.
  intros I Ht Hv. pose proof (fun l1 seg l2 => iv_dead_segs _ _ I key v n e l1 seg l2) as Hds.
  pose proof (iv_segs _ _ I) as Hsg. pose proof (iv_live _ _ I key v n e) as Hl. pose proof (iv_dead_main _ _ I key v n e) as Hdm.
  pose proof (iv_tombs _ _ I) as Htb. unfold stack in *. rewrite Ht in *. cbn [app] in *. unfold visible_edge.
  rewrite (main_lists_raws _ _ _ _ _ _ I Hv), shown_split. set (st := (frozen_segments (adj w)).*2 ++ [active_overlay (adj w)]) in *. split.
  - intros [[Hm Hf]|(l1 & seg & l2 & E & He & Hf)].
    + split; [by apply (iv_main _ _ I)|]. intros Hd. destruct (Hdm Hd Hm) as (seg & Hs & Htm). rewrite Forall_forall in Hf. by apply (Hf seg).
    + split; [apply (Hsg seg); [rewrite E; set_solver|done]|]. intros Hd. destruct (Hds l1 seg l2 Hd E He) as (s' & Hs & Htm).
      rewrite Forall_forall in Hf. by apply (Hf s').
  - intros [Hn Hd]. assert (Hnt : Forall (fun s => ~ tombed s e) st).
    { apply Forall_forall. intros s Hs [ts Hts]. by destruct (Htb s e ts Hs Hts). }
    destruct (Hl Hn Hd) as [Hm|(seg & Hs & He)]; [by left|right].
    apply list_elem_of_split in Hs as (l1 & l2 & E). exists l1, seg, l2. split_and!; [done|done|]. rewrite E in Hnt. by apply Forall_app in Hnt as [_ ?].
Qed.

(** ** Writes *)

Lemma neighbors_insert seg src dst eid ty ver d v ty' d' :
  Segment.neighbors_of (Segment.insert_edge seg src dst eid ty ver d) v ty' d'
  = if decide (ty' = ty /\ d' = d /\ v = src) then Segment.neighbors_of seg v ty' d' ++ [(dst, eid, ver)]
    else Segment.neighbors_of seg v ty' d'.
Proof.
  unfold Segment.neighbors_of, Segment.insert_edge. cbn [inserts]. case_decide as Hd.
  - destruct Hd as (-> & -> & ->). rewrite lookup_insert_eq. cbn [mbind option_bind]. rewrite lookup_insert_eq. cbn [default].
    destruct (inserts seg !! (ty, d)) as [adj|]; cbn; [done|]. by rewrite lookup_empty.
  - destruct (decide ((ty, d) = (ty', d'))) as [[= <- <-]|Hk]; [|by rewrite lookup_insert_ne].
    rewrite lookup_insert_eq. cbn [mbind option_bind]. rewrite lookup_insert_ne by (intros ->; tauto).
    destruct (inserts seg !! (ty, d)) as [adj|]; cbn; [done|]. by rewrite lookup_empty.
Qed.

Lemma entry_insert m src dst eid ty ver key v n e :
  entry_in (active_overlay (insert_edge m src dst eid ty ver)) key v n e
  <-> entry_in (active_overlay m) key v n e \/ (e = eid /\ key.1 = ty /\ key.2 <> Both /\ orient key.2 src dst = (v, n)).
Proof.
  unfold insert_edge, entry_in. cbn [with_active active_overlay]. destruct key as [ty' d']. cbn [fst snd].
  rewrite !neighbors_insert.
  destruct (decide (ty' = ty /\ d' = Incoming /\ v = dst)) as [(-> & -> & ->)|H1].
  - rewrite (decide_False (P := ty = ty /\ Incoming = Outgoing /\ dst = src)) by (by intros (_ & ? & _)). cbn [orient]. split.
    + intros [ver' [?|[= -> -> ->]%list_elem_of_singleton]%elem_of_app]; [left; eauto|by right].
    + intros [[ver' ?]|(-> & _ & _ & [= <-])]; [exists ver'|exists ver]; apply elem_of_app; [by left|right; by left].
  - destruct (decide (ty' = ty /\ d' = Outgoing /\ v = src)) as [(-> & -> & ->)|H2]; cbn [orient].
    + split.
      * intros [ver' [?|[= -> -> ->]%list_elem_of_singleton]%elem_of_app]; [left; eauto|by right].
      * intros [[ver' ?]|(-> & _ & _ & [= <-])]; [exists ver'|exists ver]; apply elem_of_app; [by left|right; by left].
    + split; [by left|]. intros [?|(-> & -> & Hb & Ho)]; [done|]. destruct d'; cbn in Ho; [| |done]; injection Ho as <- <-; tauto.
Qed.

Lemma tombed_insert m src dst eid ty ver e :
  tombstones (active_overlay (insert_edge m src dst eid ty ver)) !! e = tombstones (active_overlay m) !! e.
Proof. done. Qed.

(** The stack of a write: the same below, the new active segment on top. *)
Lemma stack_active m f p kn dd kn' dd' : exists below,
  stack (mkWorld m p kn dd) = below ++ [active_overlay m] /\ stack (mkWorld (with_active f m) p kn' dd') = below ++ [f (active_overlay m)].
Proof. exists ((frozen_segments m).*2 ++ taken p). unfold stack. cbn. by rewrite <- !app_assoc. Qed.

Lemma elem_snoc {A} (l : list A) a x : x ∈ l ++ [a] <-> x ∈ l \/ x = a.
Proof. rewrite elem_of_app, list_elem_of_singleton. done. Qed.

Lemma split_snoc {A} (l l1 l2 : list A) a x : l ++ [a] = l1 ++ x :: l2 ->
  (l2 = [] /\ x = a /\ l = l1) \/ exists l2', l2 = l2' ++ [a] /\ l = l1 ++ x :: l2'.
Proof.
  destruct l2 as [|y l2 _] using rev_ind; intros E.
  - apply app_inj_tail in E as [-> ->]. by left.
  - right. exists l2. change (x :: l2 ++ [y]) with ((x :: l2) ++ [y]) in E. rewrite app_assoc in E. apply app_inj_tail in E as [-> ->]. done.
Qed.

Lemma names_mono kn eid src dst ty key v n e : kn !! eid = None \/ kn !! eid = Some (src, dst, ty) ->
  names kn key v n e -> names (<[eid := (src, dst, ty)]> kn) key v n e.
Proof.
  intros Hk (Hb & s & t & He & Ho). split; [done|]. exists s, t. split; [|done].
  destruct (decide (eid = e)) as [->|]; [|by rewrite lookup_insert_ne]. rewrite lookup_insert_eq. destruct Hk; congruence.
Qed.
Lemma names_inv kn eid src dst ty key v n e : names (<[eid := (src, dst, ty)]> kn) key v n e ->
  names kn key v n e \/ (e = eid /\ key.1 = ty /\ key.2 <> Both /\ orient key.2 src dst = (v, n)).
Proof.
  intros (Hb & s & t & He & Ho). destruct (decide (eid = e)) as [<-|Hne].
  - rewrite lookup_insert_eq in He. injection He as <- <- Ety. by right.
  - rewrite lookup_insert_ne in He by done. left. split; [done|]. eauto.
Qed.

Lemma inv_insert raws m p kn dd src dst eid ty ver : inv raws (mkWorld m p kn dd) -> 0 <= src -> 0 <= dst -> eid ∉ dd ->
  kn !! eid = None \/ kn !! eid = Some (src, dst, ty) -> Z.of_nat (size (<[eid := (src, dst, ty)]> kn)) < 2 ^ 32 ->
  inv raws (mkWorld (insert_edge m src dst eid ty ver) p (<[eid := (src, dst, ty)]> kn) dd).
Proof.
  intros I Hs Hd Hnd Hk Hsz. set (w' := mkWorld (insert_edge m src dst eid ty ver) p _ dd).
  destruct (stack_active m (fun a => Segment.insert_edge (Segment.insert_edge a src dst eid ty ver Outgoing) dst src eid ty ver Incoming)
    p kn dd (<[eid := (src, dst, ty)]> kn) dd) as (below & E & E').
  change (stack w' = below ++ [active_overlay (adj w')]) in E'.
  assert (Hold : forall seg, seg ∈ below \/ seg = active_overlay m -> seg ∈ stack (mkWorld m p kn dd)) by (intros seg H; rewrite E; by apply elem_snoc).
  destruct I as [H1 H2 H3 H4 H5 H6 H7 H8 H9 H10]. split; unfold w' in *; cbn [adj phase known dead] in *.
  - apply H1.
  - intros. by apply names_mono, H2.
  - intros seg key v n e Hin He. rewrite E' in Hin. apply elem_snoc in Hin as [Hin| ->].
    + apply names_mono; [done|]. apply (H3 seg); [apply Hold; by left|done].
    + apply entry_insert in He as [He|(-> & Ety & Hb & Ho)].
      * apply names_mono; [done|]. apply (H3 (active_overlay m)); [apply Hold; by right|done].
      * split; [done|]. exists src, dst. rewrite lookup_insert_eq. split; [by rewrite Ety|done].
  - intros seg e ts Hin Ht. rewrite E' in Hin. assert (Hseg : exists seg', seg' ∈ stack (mkWorld m p kn dd) /\ tombstones seg' !! e = Some ts).
    { apply elem_snoc in Hin as [Hin| ->]; [exists seg|exists (active_overlay m)]; (split; [apply Hold; auto|done]). }
    destruct Hseg as (seg' & Hs' & Ht'). destruct (H4 seg' e ts Hs' Ht') as [Hde Hke]. cbn in Hde, Hke. split; [done|].
    rewrite lookup_insert_ne; [done|]. intros ->. done.
  - intros key v n e Hn He. apply names_inv in Hn as [Hn|Hn].
    + destruct (H5 key v n e Hn He) as [?|(seg & Hin & Hse)]; [by left|right]. rewrite E in Hin. rewrite E'.
      apply elem_snoc in Hin as [Hin| ->]; [exists seg; split; [by apply elem_snoc; left|done]|].
      eexists. split; [by apply elem_snoc; right|]. apply entry_insert. by left.
    + right. rewrite E'. eexists. split; [by apply elem_snoc; right|]. apply entry_insert. by right.
  - intros key v n e Hde Hm. destruct (H6 key v n e Hde Hm) as (seg & Hin & Ht). rewrite E in Hin. rewrite E'.
    apply elem_snoc in Hin as [Hin| ->]; [exists seg; split; [by apply elem_snoc; left|done]|].
    eexists. split; [by apply elem_snoc; right|done].
  - intros key v n e l1 seg l2 Hde Est He. rewrite E' in Est. apply split_snoc in Est as [(-> & -> & ->)|(l2' & -> & ->)].
    + apply entry_insert in He as [He|(-> & _)]; [|done]. destruct (H7 key v n e l1 _ [] Hde E He) as (s' & ->%list_elem_of_singleton & Ht).
      eexists. split; [by left|]. done.
    + destruct (H7 key v n e l1 seg (l2' ++ [active_overlay m]) Hde) as (s' & Hs' & Ht); [by rewrite E, <- app_assoc|done|].
      apply elem_of_cons in Hs' as [->|[Hs'| ->]%elem_snoc].
      * exists seg. split; [by left|done].
      * exists s'. split; [right; by apply elem_snoc; left|done].
      * eexists. split; [right; by apply elem_snoc; right|done].
  - intros e s t ty' He. destruct (decide (eid = e)) as [->|]; [|rewrite lookup_insert_ne in He by done; by apply (H8 e s t ty')].
    rewrite lookup_insert_eq in He. by injection He as <- <- _.
  - done.
  - destruct p as [|f|segs todo]; [done|done|]. destruct H10 as (? & ? & Hset). split_and!; [done|done|]. intros key Hkey.
    destruct (Hset key Hkey) as [Ha Hb]. split; [exact Ha|]. intros seg v n e Hin He Hne. destruct (Hb seg v n e Hin He Hne) as [?|?]; [by left|right].
    apply entry_insert. by left.
Qed.

Lemma tombed_delete m eid src dst ty ver e :
  tombed (active_overlay (add_tombstone m eid src dst ty ver)) e <-> e = eid \/ tombed (active_overlay m) e.
Proof.
  unfold tombed, add_tombstone, Segment.add_tombstone. cbn. destruct (decide (eid = e)) as [->|Hn].
  - rewrite lookup_insert_eq. split; eauto.
  - rewrite lookup_insert_ne by done. split; [auto|]. intros [?|?]; [congruence|done].
Qed.

Lemma inv_delete raws m p kn dd src dst eid ty ver : inv raws (mkWorld m p kn dd) -> 0 <= src -> 0 <= dst ->
  kn !! eid = None \/ kn !! eid = Some (src, dst, ty) -> Z.of_nat (size (<[eid := (src, dst, ty)]> kn)) < 2 ^ 32 ->
  inv raws (mkWorld (add_tombstone m eid src dst ty ver) p (<[eid := (src, dst, ty)]> kn) ({[eid]} ∪ dd)).
Proof.
  intros I Hs Hd Hk Hsz. set (w' := mkWorld (add_tombstone m eid src dst ty ver) p _ _).
  destruct (stack_active m (fun a => Segment.add_tombstone a eid src dst ty ver) p kn dd (<[eid := (src, dst, ty)]> kn) ({[eid]} ∪ dd))
    as (below & E & E').
  change (stack w' = below ++ [active_overlay (adj w')]) in E'.
  assert (Hold : forall seg, seg ∈ below \/ seg = active_overlay m -> seg ∈ stack (mkWorld m p kn dd)) by (intros seg H; rewrite E; by apply elem_snoc).
  destruct I as [H1 H2 H3 H4 H5 H6 H7 H8 H9 H10]. split; unfold w' in *; cbn [adj phase known dead] in *.
  - apply H1.
  - intros. by apply names_mono, H2.
  - intros seg key v n e Hin He. apply names_mono; [done|]. rewrite E' in Hin. apply elem_snoc in Hin as [Hin| ->].
    + apply (H3 seg); [apply Hold; by left|done].
    + apply (H3 (active_overlay m)); [apply Hold; by right|done].
  - intros seg e ts Hin Ht. rewrite E' in Hin. destruct (decide (e = eid)) as [->|Hne].
    + split; [set_solver|]. rewrite lookup_insert_eq.
      assert (Hts : kn !! eid = Some (ts_src_vid ts, ts_dst_vid ts, ts_edge_type ts) \/ ts = mkTomb eid src dst ty ver).
      { apply elem_snoc in Hin as [Hin| ->]; [left; apply (H4 seg); [apply Hold; by left|done]|].
        cbn in Ht. rewrite lookup_insert_eq in Ht. right. congruence. }
      destruct Hts as [Hts| ->]; [|done]. destruct Hk as [Hk|Hk]; congruence.
    + assert (Hseg : exists seg', seg' ∈ stack (mkWorld m p kn dd) /\ tombstones seg' !! e = Some ts).
      { apply elem_snoc in Hin as [Hin| ->]; [exists seg; split; [apply Hold; by left|done]|].
        exists (active_overlay m). split; [apply Hold; by right|]. cbn in Ht. by rewrite lookup_insert_ne in Ht. }
      destruct Hseg as (seg' & Hs' & Ht'). destruct (H4 seg' e ts Hs' Ht') as [Hde Hke]. cbn in Hde, Hke.
      rewrite lookup_insert_ne by done. split; [set_solver|done].
  - intros key v n e Hn He. apply names_inv in Hn as [Hn|(-> & _)]; [|set_solver].
    destruct (H5 key v n e Hn) as [?|(seg & Hin & Hse)]; [set_solver|by left|right]. rewrite E in Hin. rewrite E'.
    apply elem_snoc in Hin as [Hin| ->]; [exists seg; split; [by apply elem_snoc; left|done]|].
    eexists. split; [by apply elem_snoc; right|done].
  - intros key v n e Hde Hm. rewrite E'. destruct (decide (e = eid)) as [->|Hne].
    { eexists. split; [by apply elem_snoc; right|]. apply tombed_delete. by left. }
    destruct (H6 key v n e) as (seg & Hin & Ht); [set_solver|done|]. rewrite E in Hin.
    apply elem_snoc in Hin as [Hin| ->]; [exists seg; split; [by apply elem_snoc; left|done]|].
    eexists. split; [by apply elem_snoc; right|]. apply tombed_delete. by right.
  - intros key v n e l1 seg l2 Hde Est He. rewrite E' in Est.
    assert (Htop : tombed (active_overlay (add_tombstone m eid src dst ty ver)) e -> exists seg', seg' ∈ seg :: l2 /\ tombed seg' e).
    { intros Ht. eexists. split; [|exact Ht]. apply split_snoc in Est as [(-> & -> & ->)|(l2' & -> & ->)]; [by left|].
      right. by apply elem_snoc; right. }
    destruct (decide (e = eid)) as [->|Hne]; [apply Htop, tombed_delete; by left|].
    assert (Hdd : e ∈ dd) by set_solver. apply split_snoc in Est as [(-> & -> & ->)|(l2' & -> & ->)].
    + destruct (H7 key v n e l1 _ [] Hdd E He) as (s' & ->%list_elem_of_singleton & Ht). apply Htop, tombed_delete. by right.
    + destruct (H7 key v n e l1 seg (l2' ++ [active_overlay m]) Hdd) as (s' & Hs' & Ht); [by rewrite E, <- app_assoc|done|].
      apply elem_of_cons in Hs' as [->|[Hs'| ->]%elem_snoc].
      * exists seg. split; [by left|done].
      * exists s'. split; [right; by apply elem_snoc; left|done].
      * apply Htop, tombed_delete. by right.
  - intros e s t ty' He. destruct (decide (eid = e)) as [->|]; [|rewrite lookup_insert_ne in He by done; by apply (H8 e s t ty')].
    rewrite lookup_insert_eq in He. by injection He as <- <- _.
  - done.
  - destruct p as [|f|segs todo]; [done|done|]. destruct H10 as (? & ? & Hset). split_and!; [done|done|]. intros key Hkey.
    destruct (Hset key Hkey) as [Ha Hb]. split.
    + intros v n e Hm Hde. apply tombed_delete. destruct (decide (e = eid)) as [->|]; [by left|]. right. apply (Ha v n e Hm). cbn in *. set_solver.
    + intros seg v n e Hin He Hne. apply (Hb seg v n e Hin He). cbn in *. set_solver.
Qed.

(** ** Compaction *)

Lemma entry_new key v n e : ~ entry_in Segment.new key v n e.
Proof. intros [ver H]. unfold Segment.neighbors_of in H. cbn in H. rewrite lookup_empty in H. by apply elem_of_nil in H. Qed.
Lemma tombed_new e : ~ tombed Segment.new e.
Proof. unfold tombed. cbn. rewrite lookup_empty. by intros [? ?]. Qed.

Lemma adj_inv_take raws m kn dd m' f : inv raws (mkWorld m Idle kn dd) -> compact_take m = (m', f) ->
  inv raws (mkWorld m' (Taken f) kn dd).
Proof.
  intros I [= <- <-]. assert (E : stack (mkWorld m Idle kn dd) = [active_overlay m]).
  { unfold stack. cbn. by rewrite (iv_phase _ _ I : frozen_segments m = []). }
  set (w' := mkWorld _ (Taken _) kn dd). assert (E' : stack w' = [active_overlay m; Segment.new]).
  { unfold stack. cbn. by rewrite (iv_phase _ _ I : frozen_segments m = []). }
  destruct I as [H1 H2 H3 H4 H5 H6 H7 H8 H9 H10]. split; unfold w' in *; cbn [adj phase known dead with_active main_csr frozen_segments] in *; try done.
  - intros seg key v n e Hin He. rewrite E' in Hin. apply elem_of_cons in Hin as [->|Hx%list_elem_of_singleton]; [|subst seg; by apply entry_new in He].
    apply (H3 (active_overlay m)); [rewrite E; by left|done].
  - intros seg e ts Hin Ht. rewrite E' in Hin. apply elem_of_cons in Hin as [->|Hx%list_elem_of_singleton].
    + apply (H4 (active_overlay m)); [rewrite E; by left|done].
    + subst seg. exfalso. by apply (tombed_new e); exists ts.
  - intros key v n e Hn He. destruct (H5 key v n e Hn He) as [?|(seg & Hin & ?)]; [by left|right]. rewrite E in Hin. rewrite E'.
    apply list_elem_of_singleton in Hin as ->. eexists. split; [by left|done].
  - intros key v n e Hde Hm. destruct (H6 key v n e Hde Hm) as (seg & Hin & ?). rewrite E in Hin. rewrite E'.
    apply list_elem_of_singleton in Hin as ->. eexists. split; [by left|done].
  - intros key v n e l1 seg l2 Hde Est He. rewrite E' in Est. apply (split_snoc [active_overlay m]) in Est as [(_ & -> & _)|(l2' & -> & Est)].
    + by apply entry_new in He.
    + rewrite Est in E. destruct (H7 key v n e l1 seg l2' Hde E He) as (s' & Hs' & Ht). exists s'. split; [|done]. set_solver.
Qed.

Lemma inv_push raws m kn dd f m' : inv raws (mkWorld m (Taken f) kn dd) -> m' = compact_push m f ->
  inv raws (mkWorld m' (Merging (frozen_segments m') (hash_order (elements (all_keys m' (frozen_segments m'))))) kn dd).
Proof.
  intros I ->. assert (Hf : frozen_segments m = []) by apply (iv_phase _ _ I). set (p' := Merging _ _).
  assert (E : stack (mkWorld (compact_push m f) p' kn dd) = stack (mkWorld m (Taken f) kn dd)).
  { unfold stack, p'. cbn. by rewrite Hf. }
  destruct I as [H1 H2 H3 H4 H5 H6 H7 H8 H9 H10]. split; rewrite ?E; cbn [adj phase known dead] in *; try done.
  unfold p'. split; [done|]. split; [cbn; by rewrite Hf|]. intros key Hkey.
  rewrite hash_order_perm, elem_of_elements in Hkey. unfold all_keys in Hkey. cbn [compact_push main_csr frozen_segments] in Hkey.
  rewrite Hf in Hkey. cbn [app fmap list_fmap union_list] in Hkey. apply not_elem_of_union in Hkey as [Hm Hs].
  apply not_elem_of_dom in Hm. split.
  - intros v n e [ver Hin]. pose proof (H1 key) as Hh. cbn [adj] in Hh. rewrite Hm in Hh. cbn in Hh. rewrite Hh in Hin. by apply elem_of_nil in Hin.
  - intros seg v n e Hin [ver Hn]. cbn [compact_push frozen_segments] in Hin. rewrite Hf in Hin. cbn in Hin.
    apply list_elem_of_singleton in Hin as ->. unfold Segment.neighbors_of in Hn. destruct key as [ty d]. cbn [fst snd] in Hn.
    assert (Hns : inserts f !! (ty, d) = None) by (apply not_elem_of_dom; set_solver). rewrite Hns in Hn. by apply elem_of_nil in Hn.
Qed.

Lemma names_unique kn key v n v' n' e : names kn key v n e -> names kn key v' n' e -> v = v' /\ n = n'.
Proof. intros (_ & s & t & H1 & E1) (_ & s' & t' & H2 & E2). rewrite H1 in H2. injection H2 as <- <-. rewrite E1 in E2. by injection E2. Qed.

Lemma length_known (kn : gmap Z (Z * Z * Z)) (l : list RawEdge) : NoDup (r_eid <$> l) -> (forall x, x ∈ l -> is_Some (kn !! r_eid x)) ->
  (length l <= size kn)%nat.
Proof.
  intros Hnd Hk. rewrite <- (length_fmap r_eid), <- size_dom. rewrite <- (size_list_to_set (C := gset Z) _ Hnd).
  apply subseteq_size. intros e. rewrite elem_of_list_to_set, elem_of_dom. intros (x & -> & Hx)%list_elem_of_fmap. by apply Hk.
Qed.

Lemma candidate_named raws w segs key x : inv raws w -> (forall seg, seg ∈ segs -> seg.2 ∈ stack w) -> candidate (raws key) segs key x ->
  names (known w) key (r_src x) x.1.1.2 (r_eid x).
Proof.
  destruct x as [[[v n] e] ver]. cbn. intros I Hs [Hx|(seg & Hseg & Hx%segment_entries_elem)].
  - apply (iv_main _ _ I). by exists ver.
  - apply (iv_segs _ _ I seg.2); [by apply Hs|]. by exists ver.
Qed.

Lemma buried_dead raws w segs ty e : inv raws w -> (forall seg, seg ∈ segs -> seg.2 ∈ stack w) -> buried segs ty e -> e ∈ dead w.
Proof. intros I Hs (seg & ts & Hseg & Ht & _). by apply (iv_tombs _ _ I seg.2 e ts); [apply Hs|]. Qed.

Lemma merge_key_total raws w segs key : inv raws w -> (forall seg, seg ∈ segs -> seg.2 ∈ stack w) ->
  exists m' csr raw', merge_key (adj w) segs key = Some m' /\ main_csr m' = <[key := csr]> (main_csr (adj w)) /\ holds (Some csr) raw'
    /\ frozen_segments m' = frozen_segments (adj w) /\ active_overlay m' = active_overlay (adj w)
    /\ (forall x, x ∈ raw' -> candidate (raws key) segs key x /\ ~ buried segs key.1 (r_eid x))
    /\ (forall x, candidate (raws key) segs key x -> ~ buried segs key.1 (r_eid x) -> exists y, y ∈ raw' /\ r_eid y = r_eid x).
Proof.
  intros I Hs. destruct (merge_key_ok (adj w) segs key (raws key)) as (m' & csr & raw' & H1 & H2 & H3 & H4 & H5 & _ & _ & H6 & H7).
  - apply (iv_holds _ _ I).
  - intros x Hx. apply (names_pos raws w key _ x.1.1.2 (r_eid x) I). by apply (candidate_named raws w segs).
  - intros l Hnd Hc. pose proof (iv_size _ _ I) as Hz. assert (length l <= size (known w))%nat; [|lia]. apply length_known; [done|].
    intros x Hx. destruct (candidate_named raws w segs key x I Hs (Hc x Hx)) as (_ & s & t & E & _). by rewrite E.
  - exists m', csr, raw'. split_and!; try done. intros x Hx Hb. destruct (H7 x Hx Hb) as (y & ? & ? & _). eauto.
Qed.

Lemma inv_merge raws m kn dd segs key ks m' : inv raws (mkWorld m (Merging segs (key :: ks)) kn dd) -> merge_key m segs key = Some m' ->
  exists raws', inv raws' (mkWorld m' (Merging segs ks) kn dd).
Proof.
  intros I Hm. set (w := mkWorld m _ kn dd) in *. destruct (iv_phase _ _ I) as (Hfr & Hlen & Hset). cbn [adj w] in Hfr.
  assert (Hst : stack w = segs.*2 ++ [active_overlay m]) by (unfold stack; cbn; by rewrite Hfr).
  assert (Hs : forall seg, seg ∈ segs -> seg.2 ∈ stack w) by (intros seg ?; rewrite Hst; apply elem_of_app; left; by apply list_elem_of_fmap_2).
  destruct (merge_key_total raws w segs key I Hs) as (m1 & csr & raw' & E & Emain & Hh & Efr & Eact & Hsub & Hcov).
  cbn [adj w] in E. rewrite Hm in E. injection E as <-. cbn [adj w] in Emain, Efr, Eact.
  set (raws' := fun k : OverlayKey => if decide (k = key) then raw' else raws k). exists raws'.
  set (w' := mkWorld m' (Merging segs ks) kn dd).
  assert (Hst' : stack w' = stack w) by (unfold stack; cbn; by rewrite Efr, Eact).
  assert (Hin : forall v n e, in_main raws' key v n e -> names kn key v n e /\ ~ buried segs key.1 e
     /\ (in_main raws key v n e \/ exists seg, seg ∈ segs.*2 /\ entry_in seg key v n e)).
  { intros v n e [ver Hx]. unfold raws' in Hx. rewrite decide_True in Hx by done. destruct (Hsub _ Hx) as [Hc Hb].
    split; [exact (candidate_named raws w segs key _ I Hs Hc)|]. split; [done|].
    destruct Hc as [?|(seg & Hseg & Hx'%segment_entries_elem)]; [left; by exists ver|right].
    exists seg.2. split; [by apply list_elem_of_fmap_2|by exists ver]. }
  assert (Hkeep : forall v n e, names kn key v n e -> e ∉ dd -> (in_main raws key v n e \/ exists seg, seg ∈ segs.*2 /\ entry_in seg key v n e) ->
     in_main raws' key v n e).
  { intros v n e Hn Hde Hc. assert (Hx : exists ver, candidate (raws key) segs key (v, n, e, ver)).
    { destruct Hc as [[ver ?]|(seg & (sg & -> & Hsg)%list_elem_of_fmap & ver & Hx)]; exists ver; [by left|right].
      exists sg. split; [done|]. by apply segment_entries_elem. }
    destruct Hx as [ver Hx]. destruct (Hcov _ Hx) as ([[[v' n'] e'] ver'] & Hy & Ey).
    { intros Hb. apply Hde. by apply (buried_dead raws w segs key.1). }
    cbn in Ey. subst e'. destruct (Hsub _ Hy) as [Hc' _]. pose proof (candidate_named raws w segs key _ I Hs Hc') as Hn'. cbn in Hn'.
    destruct (names_unique _ _ _ _ _ _ _ Hn Hn') as [-> ->]. exists ver'. unfold raws'. by rewrite decide_True. }
  assert (Hother : forall k v n e, k <> key -> in_main raws' k v n e <-> in_main raws k v n e).
  { intros k v n e Hk. unfold in_main, raws'. by rewrite decide_False. }
  destruct I as [H1 H2 H3 H4 H5 H6 H7 H8 H9 _]. split; rewrite ?Hst'; cbn [adj phase known dead w w'] in *; try done.
  - intros k. rewrite Emain. unfold raws'. destruct (decide (k = key)) as [->|Hk]; [by rewrite lookup_insert_eq|by rewrite lookup_insert_ne].
  - intros k v n e Hi. destruct (decide (k = key)) as [->|Hk]; [by apply Hin|]. apply H2. by apply Hother.
  - intros k v n e Hn Hde. destruct (decide (k = key)) as [->|Hk].
    + destruct (H5 key v n e Hn Hde) as [?|(seg & Hsg & ?)]; [left; by apply Hkeep; [..|left]|].
      rewrite Hst in Hsg. apply elem_snoc in Hsg as [Hsg| ->]; [left; apply Hkeep; [done|done|right; eauto]|right].
      exists (active_overlay m). split; [rewrite Hst; apply elem_snoc; by right|done].
    + rewrite Hother by done. by apply H5.
  - intros k v n e Hde Hi. destruct (decide (k = key)) as [->|Hk]; [|apply Hother in Hi; [by apply (H6 k v n)|done]].
    destruct (Hin v n e Hi) as (_ & _ & [Hm'|(seg & Hsg & He)]); [by apply (H6 key v n)|].
    assert (Hsg' : seg ∈ stack w) by (rewrite Hst; apply elem_snoc; by left).
    apply list_elem_of_split in Hsg' as (l1 & l2 & El). destruct (H7 key v n e l1 seg l2 Hde El He) as (s' & Hs' & Ht).
    exists s'. split; [|done]. rewrite El. set_solver.
  - split; [congruence|]. split; [done|]. intros k Hk. destruct (decide (k = key)) as [->|Hne].
    + split; cbn [adj dead w'].
      * intros v n e Hi Hde. destruct (Hin v n e Hi) as ((_ & s & t & Hke & _) & Hb & Hc). rewrite Eact.
        assert (Ht : exists seg, seg ∈ stack w /\ tombed seg e).
        { destruct Hc as [Hc|(seg & Hsg & He)]; [by apply (H6 key v n)|].
          assert (Hsg' : seg ∈ stack w) by (rewrite Hst; apply elem_snoc; by left).
          apply list_elem_of_split in Hsg' as (l1 & l2 & El). destruct (H7 key v n e l1 seg l2 Hde El He) as (s' & Hs' & Ht).
          exists s'. split; [|done]. rewrite El. set_solver. }
        destruct Ht as (seg & Hsg & [ts Hts]). destruct (H4 seg e ts Hsg Hts) as [_ Hk']. rewrite Hst in Hsg.
        apply elem_snoc in Hsg as [(sg & -> & Hsg)%list_elem_of_fmap| ->]; [|by exists ts].
        exfalso. apply Hb. exists sg, ts. split_and!; [done|done|]. congruence.
      * intros seg v n e Hsg He Hde. left. apply Hkeep; [|done|right; eauto]. apply (H3 seg); [rewrite Hst; apply elem_snoc; by left|done].
    + destruct (Hset k) as [Ha Hb]; [set_solver|]. cbn [adj dead w] in Ha, Hb. split; cbn [adj dead w']; rewrite Eact.
      * intros v n e Hi. apply Hother in Hi; [|done]. by apply (Ha v n).
      * intros seg v n e Hsg He Hde. rewrite Hother by done. by apply (Hb seg).
Qed.

Lemma inv_drain raws m kn dd segs : inv raws (mkWorld m (Merging segs []) kn dd) -> inv raws (mkWorld (compact_drain m segs) Idle kn dd).
Proof.
  intros I. set (w := mkWorld m _ kn dd) in *. destruct (iv_phase _ _ I) as (Hfr & _ & Hset). cbn [adj w] in Hfr.
  assert (Hdr : frozen_segments (compact_drain m segs) = []).
  { cbn. rewrite Hfr. apply filter_none, Forall_forall. intros s Hs Hn. by apply Hn, list_elem_of_fmap_2. }
  assert (Hst : stack w = segs.*2 ++ [active_overlay m]) by (unfold stack; cbn; by rewrite Hfr).
  set (w' := mkWorld _ Idle kn dd). assert (Hst' : stack w' = [active_overlay m]) by (unfold stack; cbn [adj w']; by rewrite Hdr).
  assert (Htop : active_overlay m ∈ stack w) by (rewrite Hst; apply elem_snoc; by right).
  assert (Hset' : forall k, settled raws w segs k) by (intros k; apply Hset, not_elem_of_nil).
  destruct I as [H1 H2 H3 H4 H5 H6 H7 H8 H9 _]. split; rewrite ?Hst'; cbn [adj phase known dead w w'] in *; try done.
  - intros seg k v n e ->%list_elem_of_singleton. by apply H3.
  - intros seg e ts ->%list_elem_of_singleton. by apply H4.
  - intros k v n e Hn Hde. destruct (H5 k v n e Hn Hde) as [?|(seg & Hsg & He)]; [by left|]. rewrite Hst in Hsg.
    apply elem_snoc in Hsg as [Hsg| ->]; [|right; eexists; split; [by left|done]].
    destruct (proj2 (Hset' k) seg v n e Hsg He Hde); [by left|]. right. eexists. split; [by left|done].
  - intros k v n e Hde Hi. eexists. split; [by left|]. by apply (proj1 (Hset' k) v n).
  - intros k v n e l1 seg l2 Hde El He. assert (l1 = [] /\ seg = active_overlay m /\ l2 = []) as (-> & -> & ->).
    { destruct l1 as [|? l1]; [by injection El as <- <-|]. injection El as _ El. by destruct l1. }
    destruct (H7 k v n e segs.*2 (active_overlay m) [] Hde Hst He) as (s' & ->%list_elem_of_singleton & Ht). eexists. split; [by left|done].
Qed.

(** ** Warming *)

Lemma adj_inv_frame raws m m' p kn dd : inv raws (mkWorld m p kn dd) -> main_csr m' = main_csr m ->
  active_overlay m' = active_overlay m -> frozen_segments m' = frozen_segments m -> inv raws (mkWorld m' p kn dd).
Proof.
  intros [H1 H2 H3 H4 H5 H6 H7 H8 H9 H10] Em Ea Ef. unfold stack, settled in *. cbn [adj phase known dead] in *.
  split; unfold stack, settled; cbn [adj phase known dead]; rewrite ?Em, ?Ea, ?Ef; try done.
Qed.

Lemma warm_once_spec m gate tables stamp ty d vis epoch m' installed entries deleted sh :
  warm_directions tables ty vis ([], ∅, shadow m) (expand d) = Some (entries, deleted, sh) ->
  warm_once m gate tables stamp ty d vis epoch = Some (m', installed) ->
  active_overlay m' = active_overlay m /\ frozen_segments m' = frozen_segments m /\ shadow m' = sh
  /\ let l := dedup_entries_by_eid (filter (fun r => r_eid r ∉ deleted) entries) in
     main_csr m' = if installed then <[(ty, d) := from_edge_entries (Z.to_nat (max_src l)) l]> (main_csr m) else main_csr m.
Proof.
  intros Hw. unfold warm_once. rewrite Hw. cbn [mbind option_bind]. unfold install_if_current.
  destruct (g_epoch gate =? epoch); by intros [= <- <-].
Qed.

Lemma inv_warm raws m p kn dd gate tables stamp ty d vis epoch m' installed entries deleted sh :
  inv raws (mkWorld m p kn dd) -> d <> Both ->
  warm_directions tables ty vis ([], ∅, shadow m) (expand d) = Some (entries, deleted, sh) ->
  stored (mkWorld m p kn dd) ty d entries deleted ->
  warm_once m gate tables stamp ty d vis epoch = Some (m', installed) -> exists raws', inv raws' (mkWorld m' p kn dd).
Proof.
  intros I Hd Hw [S1 S2 S3 S4] Hm. cbn [adj known dead] in *.
  destruct (warm_once_spec _ _ _ _ _ _ _ _ _ _ _ _ _ Hw Hm) as (Ea & Ef & _ & Emain). set (l := dedup_entries_by_eid _) in Emain. cbv zeta in Emain.
  destruct installed; [|exists raws; by apply (adj_inv_frame raws m)].
  set (key := (ty, d) : OverlayKey). set (w := mkWorld m p kn dd) in *. set (w' := mkWorld m' p kn dd).
  assert (Hl : forall x, x ∈ l -> x ∈ entries /\ r_eid x ∉ deleted).
  { intros x [? ?]%dedup_entries_sub%list_elem_of_filter. done. }
  assert (Hnames : forall x, x ∈ entries -> names kn key (r_src x) x.1.1.2 (r_eid x)).
  { intros x Hx. destruct (S1 x Hx) as (s & t & ? & ?). split; [done|]. by exists s, t. }
  set (raws' := fun k : OverlayKey => if decide (k = key) then l else raws k). exists raws'.
  assert (Hin : forall v n e, in_main raws' key v n e -> names kn key v n e /\ (e ∈ dd -> tombed (active_overlay m) e)).
  { intros v n e [ver Hx]. unfold raws' in Hx. rewrite decide_True in Hx by done. destruct (Hl _ Hx) as [Hx' Hn].
    split; [by apply (Hnames (v, n, e, ver))|]. intros Hde. by destruct (S3 _ Hx' Hde). }
  assert (Hkeep : forall v n e, names kn key v n e -> e ∉ dd -> in_main raws' key v n e \/ entry_in (active_overlay m) key v n e).
  { intros v n e Hn Hde. pose proof Hn as (_ & s & t & Hk & Ho). cbn [fst snd key] in Hk, Ho.
    destruct (S4 e s t Hk Hde) as [(x & Hx & Ex)|He]; [left|right; rewrite Ho in He; done].
    assert (Hf : x ∈ filter (fun r => r_eid r ∉ deleted) entries).
    { apply list_elem_of_filter. split; [|done]. rewrite Ex. intros ?. by apply Hde, S2. }
    destruct (dedup_entries_covers _ _ Hf) as ([[[v' n'] e'] ver'] & Hy & Ey). cbn in Ey. rewrite Ex in Ey. subst e'.
    destruct (Hl _ Hy) as [Hy' _]. destruct (names_unique _ _ _ _ _ _ _ Hn (Hnames _ Hy')) as [-> ->].
    exists ver'. unfold raws'. by rewrite decide_True. }
  assert (Hother : forall k v n e, k <> key -> in_main raws' k v n e <-> in_main raws k v n e).
  { intros k v n e Hk. unfold in_main, raws'. by rewrite decide_False. }
  assert (Hst : stack w' = stack w) by (unfold stack; cbn; by rewrite Ea, Ef).
  assert (Hact : active_overlay m ∈ stack w) by (unfold stack; cbn; set_solver).
  assert (Hpos : forall x, x ∈ l -> 0 <= r_src x).
  { intros x [Hx _]%Hl. exact (proj1 (names_pos raws w key _ _ _ I (Hnames x Hx))). }
  destruct I as [H1 H2 H3 H4 H5 H6 H7 H8 H9 H10]. split; rewrite ?Hst; cbn [adj phase known dead w w'] in *; try done.
  - intros k. rewrite Emain. unfold raws'. destruct (decide (k = key)) as [->|Hk]; [|by rewrite lookup_insert_ne].
    rewrite lookup_insert_eq. eexists. split; [reflexivity|]. split.
    + apply Forall_forall. intros x Hx. pose proof (max_src_ge l x Hx). specialize (Hpos x Hx). lia.
    + assert (length l <= size kn)%nat; [|lia]. apply length_known; [apply dedup_entries_nodup|].
      intros x [Hx _]%Hl. destruct (S1 x Hx) as (s & t & E & _). by rewrite E.
  - intros k v n e Hi. destruct (decide (k = key)) as [->|Hk]; [by apply Hin|]. apply H2. by apply Hother.
  - intros k v n e Hn Hde. destruct (decide (k = key)) as [->|Hk].
    + destruct (Hkeep v n e Hn Hde); [by left|right; by exists (active_overlay m)].
    + rewrite Hother by done. by apply H5.
  - intros k v n e Hde Hi. destruct (decide (k = key)) as [->|Hk]; [|apply Hother in Hi; [by apply (H6 k v n)|done]].
    exists (active_overlay m). split; [done|]. by apply (Hin v n).
  - destruct p as [|f|segs todo]; [by rewrite Ef|by rewrite Ef|]. destruct H10 as (Hfr & Hlen & Hset). split; [congruence|]. split; [done|].
    intros k Hk. destruct (Hset k Hk) as [Ha Hb]. destruct (decide (k = key)) as [->|Hne].
    + split; cbn [adj dead w']; rewrite Ea; [by intros v n e Hi; apply (Hin v n)|].
      intros seg v n e Hsg He Hde. apply Hkeep; [|done]. apply (H3 seg); [|done]. unfold stack. cbn [adj phase w taken]. rewrite Hfr. set_solver.
    + split; cbn [adj dead w']; rewrite Ea; [intros v n e Hi; apply Hother in Hi; [by apply (Ha v n)|done]|].
      intros seg v n e Hsg He Hde. rewrite Hother by done. by apply (Hb seg).
Qed.

Lemma inv_start b : inv (fun _ => []) (astart b).
Proof.
  assert (Hn : forall kn key v n e, kn = ∅ -> ~ names kn key v n e).
  { intros kn key v n e -> (_ & s & t & H & _). by rewrite lookup_empty in H. }
  split; try done; unfold stack; cbn [adj phase known dead astart new main_csr frozen_segments active_overlay taken fmap list_fmap app].
  - by intros key v n e [ver ?%elem_of_nil].
  - intros seg key v n e ->%list_elem_of_singleton He. by apply entry_new in He.
  - intros seg e ts ->%list_elem_of_singleton Ht. exfalso. apply (tombed_new e). by exists ts.
  - intros key v n e H. by apply Hn in H.
Qed.

Lemma cstep_inv w w' raws : cstep w w' -> inv raws w -> exists raws', inv raws' w'.
Proof.
  intros Hs I. destruct Hs.
  - eexists. by eapply adj_inv_take.
  - eexists. by eapply inv_push.
  - by eapply inv_merge.
  - eexists. by apply inv_drain.
Qed.

Lemma step_inv w w' raws : astep w w' -> inv raws w -> exists raws', inv raws' w'.
Proof.
  intros Hs I. destruct Hs.
  - eexists. by apply inv_insert.
  - eexists. by apply inv_delete.
  - by eapply cstep_inv.
  - eexists. by apply (adj_inv_frame raws m).
  - by eapply inv_warm.
Qed.

Lemma run_inv w w' raws : rtc astep w w' -> inv raws w -> exists raws', inv raws' w'.
Proof. intros Hr. revert raws. induction Hr as [|w1 w2 w3 Hs _ IH]; intros raws I; [by exists raws|]. destruct (step_inv _ _ _ Hs I). eauto. Qed.

Lemma areachable_inv w : areachable w -> exists raws, inv raws w.
Proof. intros [b H]. by eapply run_inv; [|apply inv_start]. Qed.

(** ** What reads return *)

Lemma main_row_total raws w ty d vid : inv raws w -> 0 <= vid -> is_Some (main_row (adj w) ty d vid).
Proof.
  intros I Hv. unfold main_row. destruct (holds_row _ _ vid (iv_holds _ _ I (ty, d)) Hv) as (es & E & _). by exists es.
Qed.

Lemma read_directions_exact raws w vid ty dirs r : inv raws w -> taken (phase w) = [] -> 0 <= vid ->
  (forall n e, (n, e) ∈ r -> e ∉ dead w) ->
  exists r', read_directions (read_direction (adj w) vid ty) r dirs = Some r'
    /\ forall n e, (n, e) ∈ r' <-> (n, e) ∈ r \/ exists d, d ∈ dirs /\ names (known w) (ty, d) vid n e /\ e ∉ dead w.
Proof.
  intros I Ht Hv. revert r. induction dirs as [|d dirs IH]; intros r Hr; cbn [read_directions].
  { exists r. split; [done|]. intros n e. split; [auto|]. intros [?|(? & ?%elem_of_nil & _)]; done. }
  destruct (read_direction_elem (adj w) vid ty d r) as (r1 & -> & Hr1); [by eapply main_row_total|]. cbn [mbind option_bind].
  assert (Hr1' : forall n e, (n, e) ∈ r1 <-> (n, e) ∈ r \/ (names (known w) (ty, d) vid n e /\ e ∉ dead w)).
  { intros n e. rewrite Hr1, (visible_exact raws w _ _ _ _ I Ht Hv). split; [tauto|]. intros [Hin|?]; [left|tauto]. split; [done|].
    apply Forall_forall. intros s Hs [ts Hts]. destruct (iv_tombs _ _ I s e ts) as [? _]; [|done|by apply (Hr n e)].
    unfold stack. by rewrite Ht. }
  destruct (IH r1) as (r' & E & Hr'). { intros n e [?|[_ ?]]%Hr1'; [by apply (Hr n)|done]. }
  exists r'. split; [done|]. intros n e. rewrite Hr', Hr1'. split.
  - intros [[?|?]|(d' & ? & ?)]; [by left|right; exists d; split; [by left|done]|right; exists d'; split; [by right|done]].
  - intros [?|(d' & [->|?]%elem_of_cons & ?)]; [by left; left|by left; right|right; eauto].
Qed.

Lemma reads_exact raws w vid ty direction : inv raws w -> taken (phase w) = [] -> 0 <= vid ->
  exists l, get_neighbors (adj w) vid ty direction = Some l /\ StronglySorted pair_lt l
    /\ forall n e, (n, e) ∈ l <-> exists d, d ∈ expand direction /\ names (known w) (ty, d) vid n e /\ e ∉ dead w.
Proof.
  intros I Ht Hv. unfold get_neighbors.
  destruct (read_directions_exact raws w vid ty (expand direction) [] I Ht Hv) as (r & -> & Hr); [by intros n e ?%elem_of_nil|].
  destruct (canonical_spec r) as [Hs Hc]. eexists. split; [done|]. split; [done|]. intros n e. rewrite Hc, Hr.
  split; [by intros [?%elem_of_nil|?]|auto].
Qed.

Lemma sorted_lists_equal (l l' : list (Z * Z)) : StronglySorted pair_lt l -> StronglySorted pair_lt l' -> (forall x, x ∈ l <-> x ∈ l') -> l = l'.
Proof.
  intros H. revert l'. induction H as [|a l Hs IH Ha]; intros l' Hs' Hx.
  - destruct l' as [|b l']; [done|]. exfalso. apply (not_elem_of_nil b), Hx. left.
  - destruct Hs' as [|b l' Hs' Hb]; [exfalso; apply (not_elem_of_nil a), Hx; left|]. rewrite Forall_forall in Ha, Hb.
    assert (Hirr : forall x, ~ pair_lt x x) by (unfold pair_lt; intros x ?; lia).
    assert (a = b) as <-.
    { assert (H1 : a ∈ b :: l') by (apply Hx; left). assert (H2 : b ∈ a :: l) by (apply Hx; left).
      apply elem_of_cons in H1 as [?|H1%Hb]; [done|]. apply elem_of_cons in H2 as [?|H2%Ha]; [done|].
      exfalso. unfold pair_lt in *. lia. }
    f_equal. apply IH; [done|]. intros x. specialize (Hx x). rewrite !elem_of_cons in Hx. split; intros Hin.
    + destruct (proj1 Hx (or_intror Hin)) as [->|?]; [|done]. by apply Ha, Hirr in Hin.
    + destruct (proj2 Hx (or_intror Hin)) as [->|?]; [|done]. by apply Hb, Hirr in Hin.
Qed.

(** ** A whole compaction *)

Lemma merge_keys_run raws m kn dd segs ks : inv raws (mkWorld m (Merging segs ks) kn dd) ->
  exists m', merge_keys m segs ks = Some m' /\ rtc cstep (mkWorld m (Merging segs ks) kn dd) (mkWorld m' (Merging segs []) kn dd)
    /\ active_overlay m' = active_overlay m.
Proof.
  revert raws m. induction ks as [|k ks IH]; intros raws m I; [by exists m; split; [|split; [apply rtc_refl|]]|].
  destruct (iv_phase _ _ I) as (Hfr & _). destruct (merge_key_total raws _ segs k I) as (m1 & ? & ? & E & _ & _ & _ & Ea & _).
  { intros seg Hs. unfold stack. rewrite Hfr. cbn. apply elem_of_app. left. by apply list_elem_of_fmap_2. }
  cbn [adj] in E, Ea. destruct (inv_merge raws _ _ _ _ _ _ _ I E) as [raws' I']. destruct (IH raws' m1 I') as (m' & Em & Hr & Ea').
  exists m'. cbn [merge_keys]. rewrite E. cbn [mbind option_bind]. split; [done|]. split; [|congruence].
  eapply rtc_l; [by apply c_merge|done].
Qed.

Lemma compact_run raws m kn dd : inv raws (mkWorld m Idle kn dd) ->
  exists m', compact m = Some m' /\ rtc cstep (mkWorld m Idle kn dd) (mkWorld m' Idle kn dd)
    /\ active_overlay m' = Segment.new /\ exists raws', inv raws' (mkWorld m' Idle kn dd).
Proof.
  intros I. unfold compact. destruct (compact_take m) as [m1 f] eqn:Et. pose proof (adj_inv_take _ _ _ _ _ _ I Et) as I1.
  assert (Ha1 : active_overlay m1 = Segment.new) by by injection Et as <- <-.
  pose proof (inv_push _ _ _ _ _ _ I1 eq_refl) as I2. set (m2 := compact_push m1 f) in *.
  destruct (merge_keys_run _ _ _ _ _ _ I2) as (m3 & -> & Hr & Ha3). cbn [mbind option_bind].
  assert (Hrun : rtc cstep (mkWorld m Idle kn dd) (mkWorld (compact_drain m3 (frozen_segments m2)) Idle kn dd)).
  { eapply rtc_l; [by apply c_take|]. eapply rtc_l; [by apply c_push|]. eapply rtc_r; [exact Hr|]. apply c_drain. }
  eexists. split; [done|]. split; [done|]. split; [cbn; by rewrite Ha3|].
  by eapply run_inv; [apply (rtc_subrel cstep astep _ _ a_compact); exact Hrun|exact I].
Qed.
End runs.
