(* ===== verification/AdjacencyReads.v ===== *)
(** * Reads, compaction and its trigger

    The theorems on runs of the layered adjacency ([AdjacencyRuns]): reads are
    exact, compaction changes none, a read that spans a compaction can miss
    edges, and the writer's trigger for compaction never fires. *)

From S2P Require Import Prelude Csr BulkGate Pins Adjacency AdjacencyLayers AdjacencyRuns.

(** [CompactionConfig::default] (crates/uni-common/src/config.rs), and the test
    after a flush (runtime/writer.rs, step Q). *)
Definition frozen_segments_compact_threshold : nat := 2.
Definition flush_triggers_compaction (m : AdjacencyManager) : bool := should_compact m frozen_segments_compact_threshold.

(** A read that takes each layer from the manager at the time it gets to it:
    the packed rows, then the frozen segments, then the active one. *)
Definition at_times (at_main at_frozen at_active : AdjacencyManager) : AdjacencyManager :=
  mkAdj (main_csr at_main) (csr_source_stamp at_main) (active_overlay at_active) (frozen_segments at_frozen)
    (shadow at_active) (pinned_versions at_active) (current_bytes at_active) (max_bytes at_active) (next_arc at_frozen).

Section reads.
  Context `{HO : HashOrder}.

(** An edge of type [ty] incident to [vid] along [direction], with its other end. *)
Definition incident (kn : gmap Z (Z * Z * Z)) (ty : Z) (direction : Direction) (vid n e : Z) : Prop :=
  exists s t d, kn !! e = Some (s, t, ty) /\ d ∈ expand direction /\ orient d s t = (vid, n).

Lemma incident_names kn ty direction vid n e :
  (exists d, d ∈ expand direction /\ names kn (ty, d) vid n e) <-> incident kn ty direction vid n e.
Proof.
  unfold names, incident. split.
  - intros (d & Hd & _ & s & t & ? & ?). by exists s, t, d.
  - intros (s & t & d & ? & Hd & ?). exists d. split; [done|]. split; [|by exists s, t].
    cbn. destruct direction; cbn in Hd; set_solver.
Qed.

Lemma incident_neighbor kn ty direction vid n n' e : incident kn ty direction vid n e -> incident kn ty direction vid n' e -> n = n'.
Proof.
  intros (s & t & d & E & _ & O) (s' & t' & d' & E' & _ & O'). rewrite E in E'. injection E' as <- <-.
  destruct d, d'; cbn in O, O'; congruence.
Qed.

(** C4: reads of the adjacency are exact.  Consider runs of inserts, updates
    and deletions of edges (an id stands for one edge, which is not inserted
    again once deleted; fewer than 2^32 edges), shadow collections, the locked
    sections of compactions, and warms of a type and direction from tables that
    hold every live edge of the type that the active segment does not hold, and
    no deleted edge but those it reads as deleted or the active segment has a
    tombstone of ([stored]: a warm replaces the packed rows, so it may not come
    between a compaction and the flush of an edge it moved,
    [AdjacencyExamples.warm_drops_compacted_edges]).  In every state of such a
    run outside the gap between taking the active segment and listing it, the
    neighbours of a vertex are exactly its live edges with their other ends, in
    strictly ascending order of neighbour and edge and each edge once, whichever
    layers hold them; no read panics.  A whole compaction ends, leaves no frozen
    segment and changes no read. *)
Theorem adjacency_reads_exact (w : aworld) (vid ty : Z) (direction : Direction) :
  areachable w -> taken (phase w) = [] -> 0 <= vid ->
  (exists l, get_neighbors (adj w) vid ty direction = Some l /\ StronglySorted pair_lt l /\ NoDup l.*2
     /\ forall n e, (n, e) ∈ l <-> (e ∉ dead w) /\ incident (known w) ty direction vid n e)
  /\ (phase w = Idle -> exists m', compact (adj w) = Some m' /\ frozen_segments m' = []
       /\ get_neighbors m' vid ty direction = get_neighbors (adj w) vid ty direction).
Proof.
  intros [raws I]%areachable_inv Ht Hv. destruct (reads_exact raws w vid ty direction I Ht Hv) as (l & El & Hs & Hl).
  assert (Hl' : forall n e, (n, e) ∈ l <-> (e ∉ dead w) /\ incident (known w) ty direction vid n e).
  { intros n e. rewrite Hl, <- incident_names. naive_solver. }
  split.
  - exists l. split_and!; [done|done| |done]. apply NoDup_fmap_2_strong.
    + intros [n e] [n' e'] [_ H1]%Hl' [_ H2]%Hl' E. cbn in E. subst e'. f_equal. by eapply incident_neighbor.
    + clear -Hs. induction Hs as [|a l _ IH Ha]; constructor; [|done]. intros Hin. rewrite Forall_forall in Ha.
      specialize (Ha a Hin). unfold pair_lt in Ha. lia.
  - intros Hp. destruct w as [m p kn dd]. cbn [adj phase known dead] in *. subst p.
    destruct (compact_run raws m kn dd I) as (m' & -> & _ & _ & raws' & I'). exists m'. split; [done|]. split; [apply (iv_phase _ _ I')|].
    rewrite El. destruct (reads_exact raws' _ vid ty direction I' eq_refl Hv) as (l' & El' & Hs' & Hl''). cbn [adj] in El'. rewrite El'. f_equal.
    apply sorted_lists_equal; [done|done|]. intros [n e]. by rewrite Hl, Hl''.
Qed.

(** Compaction never becomes due.  Only a compaction itself freezes a
    segment and it drops it again before it returns, so in every state at most
    one frozen segment exists, and none while no compaction runs: the test
    after a flush, which waits for two, never fires, and the overlay and the
    shadow are never folded away. *)
Theorem compaction_never_due (w : aworld) : areachable w ->
  flush_triggers_compaction (adj w) = false /\ (frozen_segment_count (adj w) <= 1)%nat
  /\ (phase w = Idle -> forall threshold, (0 < threshold)%nat -> should_compact (adj w) threshold = false).
Proof.
  intros [raws I]%areachable_inv. pose proof (iv_phase _ _ I) as Hp. unfold flush_triggers_compaction, should_compact, frozen_segment_count.
  assert (Hlen : (length (frozen_segments (adj w)) <= 1)%nat).
  { destruct (phase w) as [|f|segs todo]; [by rewrite Hp; cbn; lia|by rewrite Hp; cbn; lia|]. destruct Hp as (-> & Hlen & _). lia. }
  split_and!; [|done|].
  - apply Nat.leb_gt. unfold frozen_segments_compact_threshold. lia.
  - intros E t Ht. rewrite E in Hp. rewrite Hp. apply Nat.leb_gt. cbn. lia.
Qed.

(** A read is not atomic against a compaction.  A read that takes the
    packed rows before a compaction and the segments after it returns no edge
    that only a segment held, although the same read just before and just
    after the compaction returns it. *)
Theorem torn_read_misses_edges (w : aworld) (m' : AdjacencyManager) (vid ty n e : Z) (d : Direction) :
  areachable w -> phase w = Idle -> compact (adj w) = Some m' -> 0 <= vid -> d <> Both -> e ∉ dead w ->
  incident (known w) ty d vid n e -> ~ main_lists (adj w) (ty, d) vid n e ->
  (exists l, get_neighbors (adj w) vid ty d = Some l /\ (n, e) ∈ l)
  /\ (exists l, get_neighbors m' vid ty d = Some l /\ (n, e) ∈ l)
  /\ (exists l, get_neighbors (at_times (adj w) m' m') vid ty d = Some l /\ (n, e) ∉ l).
Proof.
  intros [raws I]%areachable_inv Hp Hc Hv Hd He Hi Hm. destruct w as [m p kn dd]. cbn [adj phase known dead] in *. subst p.
  destruct (compact_run raws m kn dd I) as (m1 & E & _ & Ha & raws' & I'). rewrite Hc in E. injection E as <-.
  pose proof (proj2 (incident_names kn ty d vid n e) Hi) as Hn.
  assert (Hread : forall raws w, inv raws w -> phase w = Idle -> known w = kn -> dead w = dd -> exists l, get_neighbors (adj w) vid ty d = Some l /\ (n, e) ∈ l).
  { intros rw w Iw Hpw Hk Hdd. destruct (reads_exact rw w vid ty d Iw) as (l & El & _ & Hl); [by rewrite Hpw|done|]. exists l.
    split; [done|]. apply Hl. rewrite Hk, Hdd. destruct Hn as (d' & ? & ?). by exists d'. }
  split; [exact (Hread raws _ I eq_refl eq_refl eq_refl)|]. split; [exact (Hread raws' _ I' eq_refl eq_refl eq_refl)|].
  unfold get_neighbors. replace (expand d) with [d] by by destruct d. cbn [read_directions].
  destruct (read_direction_elem (at_times m m' m') vid ty d []) as (r & -> & Hr).
  { destruct (main_row_total raws _ ty d vid I Hv) as [es Hes]. by exists es. }
  cbn [mbind option_bind fmap option_fmap option_map]. eexists. split; [done|]. rewrite (proj2 (canonical_spec r)), Hr.
  unfold visible_edge. cbn [at_times frozen_segments active_overlay]. rewrite (iv_phase _ _ I' : frozen_segments m' = []), Ha. cbn [fmap list_fmap app].
  intros [[?%elem_of_nil _]|[[Hx _]|Hx]]; [done|by apply Hm|].
  inversion Hx as [? ? Hb|? ? Hb]; [by apply entry_new in Hb|inversion Hb].
Qed.
End reads.
