(* ===== verification/AdjacencyVersions.v ===== *)
(** * Elements of a read at a version

    Which edges [get_neighbors_visible] returns, layer by layer, and what the
    shadow gains from a compaction and loses to a collection. *)

From S2P Require Import Prelude Csr BulkGate Pins Adjacency AdjacencyLayers AdjacencyRuns.

(** ** Elements of a versioned read *)

Definition seg_entry (seg : L0CsrSegment) (key : OverlayKey) (v n e ver : Z) : Prop :=
  (n, e, ver) ∈ Segment.neighbors_of seg v key.1 key.2.
Definition main_entry (m : AdjacencyManager) (key : OverlayKey) (v n e ver : Z) : Prop :=
  exists es, main_row m key.1 key.2 v = Some es /\ mkEntry n e ver ∈ es.
Definition shadow_entry (m : AdjacencyManager) (key : OverlayKey) (v n e dv : Z) : Prop :=
  exists x, x ∈ Shadow.get_entries (shadow m) v key.1 key.2 /\ s_neighbor_vid x = n /\ s_eid x = e /\ s_deleted_version x = dv.

Section visible.
  Context (vis : RowVisibility).

Abbreviation hides seg e := (tombstone_visible seg vis e = true).

Inductive shown_at (key : OverlayKey) (v n e : Z) : list L0CsrSegment -> Prop :=
| shown_at_here seg segs ver : seg_entry seg key v n e ver -> admits vis ver = true ->
    Forall (fun s => ~ hides s e) (seg :: segs) -> shown_at key v n e (seg :: segs)
| shown_at_later seg segs : shown_at key v n e segs -> shown_at key v n e (seg :: segs).

Lemma retain_visible_elem seg r n e : (n, e) ∈ retain_visible seg vis r <-> (n, e) ∈ r /\ ~ hides seg e.
Proof.
  unfold retain_visible. case_bool_decide as Ht.
  - unfold tombstone_visible. rewrite Ht, lookup_empty. split; [done|by intros [? _]].
  - rewrite list_elem_of_In, filter_In, <- list_elem_of_In. cbn [snd]. by rewrite negb_true_iff, not_true_iff_false.
Qed.

Lemma inserted_at seg v ty d (P : Z * Z * Z -> bool) r n e :
  (n, e) ∈ (if Segment.has_entries_for seg ty d then
              match inserts seg !! (ty, d) ≫= (fun adj => adj !! v) with
              | Some neighbors => r ++ (fst <$> List.filter P neighbors)
              | None => r
              end
            else r)
  <-> (n, e) ∈ r \/ exists ver, seg_entry seg (ty, d) v n e ver /\ P (n, e, ver) = true.
Proof.
  unfold Segment.has_entries_for, seg_entry, Segment.neighbors_of. cbn [fst snd].
  destruct (inserts seg !! (ty, d)) as [adj|]; cbn [mbind option_bind default].
  - destruct (adj !! v) as [ns|]; cbn [default].
    + rewrite elem_of_app, list_elem_of_fmap. split; (intros [?|H]; [by left|right]).
      * destruct H as ([[n' e'] ver] & [= <- <-] & H). rewrite list_elem_of_In, filter_In, <- list_elem_of_In in H. by exists ver.
      * destruct H as (ver & ? & ?). exists (n, e, ver). split; [done|]. by rewrite list_elem_of_In, filter_In, <- list_elem_of_In.
    + split; [auto|]. intros [?|(? & ?%elem_of_nil & _)]; done.
  - split; [auto|]. intros [?|(? & ?%elem_of_nil & _)]; done.
Qed.

Lemma read_frozen_visible_elem seg v ty d r n e : (n, e) ∈ read_frozen_visible seg v ty d vis r
  <-> ((n, e) ∈ r \/ exists ver, seg_entry seg (ty, d) v n e ver /\ admits vis ver = true) /\ ~ hides seg e.
Proof.
  unfold read_frozen_visible. destruct (negb _ && _) eqn:E; [|by rewrite retain_visible_elem, inserted_at].
  apply andb_true_iff in E as [E1%negb_true_iff E2%bool_decide_eq_true]. unfold tombstone_visible. rewrite E2, lookup_empty.
  split; [intros ?; split; [by left|done]|]. intros [[?|(ver & H & _)] _]; [done|].
  unfold seg_entry, Segment.neighbors_of in H. unfold Segment.has_entries_for in E1. cbn [fst snd] in H.
  destruct (inserts seg !! (ty, d)); [done|]. by apply elem_of_nil in H.
Qed.

Lemma read_active_visible_elem seg v ty d r n e : (n, e) ∈ read_active_visible seg v ty d vis r
  <-> ((n, e) ∈ r \/ exists ver, seg_entry seg (ty, d) v n e ver /\ admits vis ver = true) /\ ~ hides seg e.
Proof.
  unfold read_active_visible. rewrite retain_visible_elem, inserted_at. cbn [fst snd].
  split; (intros [[?|(ver & ? & H)] ?]; (split; [|done]); [by left|right; exists ver; split; [done|]]).
  - by apply andb_true_iff in H as [? _].
  - apply andb_true_iff. split; [done|]. by apply negb_true_iff, not_true_iff_false.
Qed.

Lemma read_stack_visible frozen active v ty d r n e :
  (n, e) ∈ read_active_visible active v ty d vis
             (foldl (fun r seg => read_frozen_visible (seg : nat * L0CsrSegment).2 v ty d vis r) r frozen)
  <-> ((n, e) ∈ r /\ Forall (fun s => ~ hides s e) (frozen.*2 ++ [active])) \/ shown_at (ty, d) v n e (frozen.*2 ++ [active]).
Proof.
  revert r. induction frozen as [|[i seg] frozen IH]; intros r; cbn [foldl fmap list_fmap app snd].
  - rewrite read_active_visible_elem. split.
    + intros [[?|(ver & ? & ?)] ?]; [left; split; [done|by repeat constructor]|right; eapply shown_at_here; [done|done|by repeat constructor]].
    + intros [[? [? _]%Forall_cons]|Hs]; [tauto|]. inversion Hs as [? ? ver ? ? [? _]%Forall_cons|? ? Hs']; [|inversion Hs'].
      split; [right; by exists ver|done].
  - rewrite IH, read_frozen_visible_elem. split.
    + intros [[[[?|(ver & ? & ?)] ?] ?]|?]; [left; split; [done|by constructor]|right; eapply shown_at_here; [done|done|by constructor]|right; by apply shown_at_later].
    + intros [[? [? ?]%Forall_cons]|Hs]; [tauto|]. inversion Hs as [? ? ver ? ? [? ?]%Forall_cons|? ? Hs']; subst; [|tauto].
      left. split; [|done]. split; [right; by exists ver|done].
Qed.

Definition visible_at (m : AdjacencyManager) (key : OverlayKey) (v n e : Z) : Prop :=
  let stack := (frozen_segments m).*2 ++ [active_overlay m] in
  ((exists ver, main_entry m key v n e ver /\ admits vis ver = true) /\ Forall (fun s => ~ hides s e) stack)
  \/ shown_at key v n e stack
  \/ (exists x, x ∈ Shadow.get_entries (shadow m) v key.1 key.2 /\ s_neighbor_vid x = n /\ s_eid x = e
        /\ admits vis (s_created_version x) = true /\ admits vis (s_deleted_version x) = false).

Lemma read_direction_visible_elem m v ty d r : is_Some (main_row m ty d v) ->
  exists r', read_direction_visible m v ty vis r d = Some r' /\ forall n e, (n, e) ∈ r' <->
    ((n, e) ∈ r /\ Forall (fun s => ~ hides s e) ((frozen_segments m).*2 ++ [active_overlay m])) \/ visible_at m (ty, d) v n e.
Proof.
  intros [es Hes]. unfold read_direction_visible. rewrite Hes. cbn [mbind option_bind]. eexists. split; [reflexivity|]. intros n e.
  rewrite elem_of_app, read_stack_visible, elem_of_app, list_elem_of_fmap. unfold visible_at, main_entry. cbn [fst snd]. rewrite Hes.
  assert (Hsh : (n, e) ∈ Shadow.get_entries_visible (shadow m) v ty d vis <->
    exists x, x ∈ Shadow.get_entries (shadow m) v ty d /\ s_neighbor_vid x = n /\ s_eid x = e
        /\ admits vis (s_created_version x) = true /\ admits vis (s_deleted_version x) = false).
  { unfold Shadow.get_entries_visible. rewrite list_elem_of_fmap. split.
    - intros (x & [= -> ->] & Hx). rewrite list_elem_of_In, filter_In, andb_true_iff, negb_true_iff, <- list_elem_of_In in Hx.
      destruct Hx as (? & ? & ?). by exists x.
    - intros (x & Hx & <- & <- & ? & ?). exists x. split; [done|]. by rewrite list_elem_of_In, filter_In, andb_true_iff, negb_true_iff, <- list_elem_of_In. }
  rewrite Hsh. assert (Hm : (exists y, (n, e) = (neighbor_vid y, e_eid y) /\ y ∈ List.filter (fun e => admits vis (created_version e)) es)
    <-> exists ver, (exists es0, Some es = Some es0 /\ mkEntry n e ver ∈ es0) /\ admits vis ver = true).
  { setoid_rewrite list_elem_of_In. setoid_rewrite filter_In. split.
    - intros ([n' e' ver] & [= -> ->] & ? & ?). exists ver. split; [by exists es|done].
    - intros (ver & (es0 & [= <-] & ?) & ?). by exists (mkEntry n e ver). }
  rewrite Hm. tauto.
Qed.
End visible.

(** ** The shadow *)

Section shadow.
  Context `{HO : HashOrder}.
  Implicit Types (sh : ShadowCsr) (x : ShadowEdge).

Abbreviation entries_of sh key v := (Shadow.get_entries sh v (key : OverlayKey).1 key.2).

Lemma shadow_add_entries sh vid edge d v ty d' :
  Shadow.get_entries (Shadow.add_deleted_edge sh vid edge d) v ty d'
  = if decide (ty = s_edge_type edge /\ d' = d /\ v = vid) then
      (let es := Shadow.get_entries sh v ty d' in if existsb (fun e => s_eid e =? s_eid edge) es then es else es ++ [edge])
    else Shadow.get_entries sh v ty d'.
Proof.
  unfold Shadow.get_entries, Shadow.add_deleted_edge. case_decide as Hd.
  - destruct Hd as (-> & -> & ->). rewrite lookup_insert_eq. cbn [mbind option_bind]. rewrite lookup_insert_eq. cbn [default].
    destruct (sh !! (s_edge_type edge, d)) as [b|]; cbn [default mbind option_bind]; [done|]. by rewrite lookup_empty.
  - destruct (decide ((s_edge_type edge, d) = (ty, d'))) as [[= <- <-]|Hk]; [|by rewrite lookup_insert_ne].
    rewrite lookup_insert_eq. cbn [mbind option_bind]. rewrite lookup_insert_ne by (intros ->; tauto).
    destruct (sh !! (s_edge_type edge, d)) as [b|]; cbn; [done|]. by rewrite lookup_empty.
Qed.

Lemma shadow_add_mono sh vid edge d v ty d' x : x ∈ Shadow.get_entries sh v ty d' ->
  x ∈ Shadow.get_entries (Shadow.add_deleted_edge sh vid edge d) v ty d'.
Proof. intros H. rewrite shadow_add_entries. case_decide; [|done]. cbn. destruct (existsb _ _); [done|]. apply elem_of_app. by left. Qed.
Lemma shadow_add_sound sh vid edge d v ty d' x : x ∈ Shadow.get_entries (Shadow.add_deleted_edge sh vid edge d) v ty d' ->
  x ∈ Shadow.get_entries sh v ty d' \/ (x = edge /\ v = vid /\ ty = s_edge_type edge /\ d' = d).
Proof.
  rewrite shadow_add_entries. case_decide as Hd; [|auto]. destruct Hd as (-> & -> & ->). cbn. destruct (existsb _ _); [auto|].
  intros [?|?%list_elem_of_singleton]%elem_of_app; auto.
Qed.
Lemma shadow_add_present sh vid edge d :
  exists x, x ∈ Shadow.get_entries (Shadow.add_deleted_edge sh vid edge d) vid (s_edge_type edge) d /\ s_eid x = s_eid edge.
Proof.
  rewrite shadow_add_entries, decide_True by done. cbn. destruct (existsb _ _) eqn:E.
  - apply existsb_exists in E as (x & Hx & Ex%Z.eqb_eq). exists x. by rewrite list_elem_of_In.
  - exists edge. split; [|done]. apply elem_of_app. right. by left.
Qed.

Lemma shadow_gc_elem sh f v ty d x :
  x ∈ Shadow.get_entries (Shadow.gc sh f) v ty d <-> x ∈ Shadow.get_entries sh v ty d /\ f < s_deleted_version x.
Proof.
  unfold Shadow.get_entries, Shadow.gc. rewrite lookup_fmap. destruct (sh !! (ty, d)) as [b|]; cbn [fmap option_fmap option_map mbind option_bind default].
  2:{ split; [by intros ?%elem_of_nil|by intros [?%elem_of_nil _]]. }
  unfold Shadow.gc_bucket. rewrite map_lookup_filter, lookup_fmap. destruct (b !! v) as [es|]; cbn [fmap option_fmap option_map mbind option_bind default].
  2:{ split; [by intros ?%elem_of_nil|by intros [?%elem_of_nil _]]. }
  assert (He : x ∈ List.filter (fun e => f <? s_deleted_version e) es <-> x ∈ es /\ f < s_deleted_version x).
  { rewrite list_elem_of_In, filter_In, <- list_elem_of_In, Z.ltb_lt. done. }
  case_guard as Hg; cbn [mbind option_bind default snd] in *; [done|].
  by rewrite <- He, Hg.
Qed.

Section bury.
  Context (key : OverlayKey).
  Abbreviation buried_edge ts e := (shadow_of ts e key.1 key.2).

Lemma shadow_of_type ts e : s_edge_type (buried_edge ts e).2 = key.1 /\ s_eid (buried_edge ts e).2 = e
  /\ s_deleted_version (buried_edge ts e).2 = ts_version ts /\ s_created_version (buried_edge ts e).2 = 0
  /\ ((buried_edge ts e).1, s_neighbor_vid (buried_edge ts e).2) = orient key.2 (ts_src_vid ts) (ts_dst_vid ts).
Proof. unfold shadow_of. destruct key as [ty d]. cbn [fst snd]. destruct d; cbn; done. Qed.

(** What the shadow gains from burying a list of tombstones. *)
Definition buries (l : list (Z * OverlayTombstone)) (sh sh' : ShadowCsr) : Prop :=
  (forall v ty d x, x ∈ Shadow.get_entries sh v ty d -> x ∈ Shadow.get_entries sh' v ty d)
  /\ (forall v ty d x, x ∈ Shadow.get_entries sh' v ty d -> x ∈ Shadow.get_entries sh v ty d
        \/ exists e ts, (e, ts) ∈ l /\ ts_edge_type ts = key.1 /\ (v, x) = buried_edge ts e /\ (ty, d) = key)
  /\ (forall e ts, (e, ts) ∈ l -> ts_edge_type ts = key.1 ->
        exists x, x ∈ Shadow.get_entries sh' (buried_edge ts e).1 key.1 key.2 /\ s_eid x = e).

Lemma buries_nil sh : buries [] sh sh.
Proof. split_and!; [done|by left|by intros e ts ?%elem_of_nil]. Qed.
Lemma buries_app l1 l2 sh1 sh2 sh3 : buries l1 sh1 sh2 -> buries l2 sh2 sh3 -> buries (l1 ++ l2) sh1 sh3.
Proof.
  intros (A1 & A2 & A3) (B1 & B2 & B3). split_and!.
  - auto.
  - intros v ty d x [[?|(e & ts & ? & ?)]%A2|(e & ts & ? & ?)]%B2; [by left|right; exists e, ts; split; [apply elem_of_app; by left|done]|].
    right. exists e, ts. split; [apply elem_of_app; by right|done].
  - intros e ts [H|H]%elem_of_app Ht; [|by apply B3]. destruct (A3 e ts H Ht) as (x & Hx & ?). exists x. split; [by apply B1|done].
Qed.

Lemma bury_one dead sh e ts : buries [(e, ts)] sh (bury key (dead, sh) (e, ts)).2.
Proof.
  unfold bury. destruct (Z.eqb_spec (ts_edge_type ts) key.1) as [E|E].
  - destruct (shadow_of_type ts e) as (T1 & T2 & _). destruct (buried_edge ts e) as [vid edge] eqn:Es. cbn [fst snd] in *. split_and!.
    + intros. by apply shadow_add_mono.
    + intros v ty d x [?|(-> & -> & -> & ->)]%shadow_add_sound; [by left|right]. exists e, ts. split; [by left|].
      split; [done|]. rewrite Es. split; [done|]. rewrite T1. by destruct key.
    + intros e' ts' [= -> ->]%list_elem_of_singleton _. rewrite Es. cbn [fst]. rewrite <- T1, <- T2. apply shadow_add_present.
  - cbn [snd]. split_and!; [done|by left|]. intros e' ts' [= -> ->]%list_elem_of_singleton. done.
Qed.

Lemma bury_list l acc : buries l acc.2 (foldl (bury key) acc l).2.
Proof.
  revert acc. induction l as [|[e ts] l IH]; intros [dead sh]; cbn [foldl]; [apply buries_nil|].
  apply (buries_app [(e, ts)]  l _ (bury key (dead, sh) (e, ts)).2); [apply bury_one|apply IH].
Qed.

Lemma bury_all_buries segs sh : exists l, buries l sh (bury_all key segs sh).2
  /\ forall e ts, (e, ts) ∈ l <-> exists seg, seg ∈ segs /\ tombstones seg.2 !! e = Some ts.
Proof.
  unfold bury_all. change sh with ((∅ : gset Z, sh).2) at 1. generalize (∅ : gset Z, sh). induction segs as [|seg segs IH]; intros acc; cbn [foldl].
  - exists []. split; [apply buries_nil|]. intros e ts. split; [by intros ?%elem_of_nil|by intros (? & ?%elem_of_nil & _)].
  - destruct (IH (foldl (bury key) acc (hash_order (map_to_list (tombstones seg.2))))) as (l & Hb & Hl).
    exists (hash_order (map_to_list (tombstones seg.2)) ++ l). split; [eapply buries_app; [apply bury_list|done]|].
    intros e ts. rewrite elem_of_app, hash_order_perm, elem_of_map_to_list, Hl. split.
    + intros [?|(s & ? & ?)]; [exists seg; split; [by left|done]|exists s; split; [by right|done]].
    + intros (s & [->|?]%elem_of_cons & ?); [by left|right; eauto].
Qed.
End bury.
End shadow.
