(* ===== verification/AdjacencyHistory.v ===== *)
(** * Adjacency at older versions

    Reads of the layered adjacency at a version ([get_neighbors_at_version]) in
    runs of the process that owns the writer, where an edge is inserted once
    and deleted at most once, with compaction and shadow collection in between:
    a pinned reader loses no edge of its version and sees none deleted at or
    before it.  What compaction does change for such a reader is the last
    theorem. *)

From S2P Require Import Prelude Csr BulkGate Pins Adjacency AdjacencyLayers AdjacencyRuns AdjacencyReads AdjacencyVersions.

(** A run of the adjacency with the version each edge was created at and
    deleted at, and the highest floor a collection used. *)
Record vworld := mkV { vw : aworld; created : gmap Z Z; removed : gmap Z Z; collected : Z }.

Definition with_pins (ps : PinState) (m : AdjacencyManager) : AdjacencyManager :=
  mkAdj (main_csr m) (csr_source_stamp m) (active_overlay m) (frozen_segments m) (shadow m) ps (current_bytes m) (max_bytes m) (next_arc m).

Section history.
  Context `{HO : HashOrder}.
  Implicit Types (m : AdjacencyManager) (w : aworld).

Inductive vstep : vworld -> vworld -> Prop :=
| v_insert m p kn dd cr re g src dst eid ty ver : 0 <= src -> 0 <= dst -> kn !! eid = None -> eid ∉ dd ->
    Z.of_nat (size (<[eid := (src, dst, ty)]> kn)) < 2 ^ 32 ->
    vstep (mkV (mkWorld m p kn dd) cr re g)
      (mkV (mkWorld (insert_edge m src dst eid ty ver) p (<[eid := (src, dst, ty)]> kn) dd) (<[eid := ver]> cr) re g)
| v_delete m p kn dd cr re g src dst eid ty ver : kn !! eid = Some (src, dst, ty) -> eid ∉ dd ->
    vstep (mkV (mkWorld m p kn dd) cr re g)
      (mkV (mkWorld (add_tombstone m eid src dst ty ver) p (<[eid := (src, dst, ty)]> kn) ({[eid]} ∪ dd)) cr (<[eid := ver]> re) g)
| v_compact w w' cr re g : cstep w w' -> vstep (mkV w cr re g) (mkV w' cr re g)
| v_gc m p kn dd cr re g v :
    vstep (mkV (mkWorld m p kn dd) cr re g) (mkV (mkWorld (gc_shadow m v) p kn dd) cr re (Z.max g (gc_floor m v)))
| v_pins m p kn dd cr re g ps :
    vstep (mkV (mkWorld m p kn dd) cr re g) (mkV (mkWorld (with_pins ps m) p kn dd) cr re g).

Definition vstart (max_bytes : Z) : vworld := mkV (astart max_bytes) ∅ ∅ 0.
Definition vreachable (s : vworld) : Prop := exists b, rtc vstep (vstart b) s.

(** ** The invariant *)

Definition in_shadow m (key : OverlayKey) (v e : Z) : Prop := exists x, x ∈ Shadow.get_entries (shadow m) v key.1 key.2 /\ s_eid x = e.
Definition listed w (key : OverlayKey) (v n e : Z) : Prop :=
  (exists ver, main_entry (adj w) key v n e ver) \/ exists seg, seg ∈ stack w /\ entry_in seg key v n e.

Record vinv (s : vworld) : Prop := {
  vi_dead e : e ∈ dead (vw s) <-> is_Some (removed s !! e);
  vi_born e : is_Some (known (vw s) !! e) <-> is_Some (created s !! e);
  vi_main key v n e ver : 0 <= v -> main_entry (adj (vw s)) key v n e ver -> created s !! e = Some ver;
  vi_seg seg key v n e ver : seg ∈ stack (vw s) -> seg_entry seg key v n e ver -> created s !! e = Some ver;
  vi_tomb seg e ts : seg ∈ stack (vw s) -> tombstones seg !! e = Some ts -> removed s !! e = Some (ts_version ts);
  vi_shadow (key : OverlayKey) v x : key.2 <> Both -> x ∈ Shadow.get_entries (shadow (adj (vw s))) v key.1 key.2 ->
    names (known (vw s)) key v (s_neighbor_vid x) (s_eid x) /\ s_created_version x = 0 /\ removed s !! s_eid x = Some (s_deleted_version x);
  vi_gone key v n e dv : names (known (vw s)) key v n e -> removed s !! e = Some dv ->
    listed (vw s) key v n e \/ in_shadow (adj (vw s)) key v e \/ dv <= collected s;
  vi_settled segs todo key seg v n e dv : phase (vw s) = Merging segs todo -> key ∉ todo -> seg ∈ segs.*2 -> entry_in seg key v n e ->
    removed s !! e = Some dv ->
    (exists ver, main_entry (adj (vw s)) key v n e ver) \/ entry_in (active_overlay (adj (vw s))) key v n e
    \/ in_shadow (adj (vw s)) key v e \/ dv <= collected s;
}.

Lemma main_entry_raws raws w key v n e ver : inv raws w -> 0 <= v -> main_entry (adj w) key v n e ver <-> (v, n, e, ver) ∈ raws key.
Proof.
  intros I Hv. unfold main_entry, main_row. destruct key as [ty d]. cbn [fst snd].
  destruct (holds_row _ _ v (iv_holds _ _ I (ty, d)) Hv) as (es & E & Hes). rewrite E, <- Hes. split; [by intros (? & [= <-] & ?)|by exists es].
Qed.
Lemma main_entry_named raws w key v n e ver : inv raws w -> 0 <= v -> main_entry (adj w) key v n e ver -> names (known w) key v n e.
Proof. intros I Hv H. apply (main_entry_raws raws) in H; [|done|done]. apply (iv_main _ _ I). by exists ver. Qed.
Lemma in_main_entry raws w key v n e : inv raws w -> in_main raws key v n e -> exists ver, main_entry (adj w) key v n e ver.
Proof.
  intros I H. pose proof (names_pos _ _ _ _ _ _ I (iv_main _ _ I _ _ _ _ H)) as [? _]. destruct H as [ver H]. exists ver. by apply (main_entry_raws raws).
Qed.
Lemma alive_listed raws w key v n e : inv raws w -> names (known w) key v n e -> e ∉ dead w -> listed w key v n e.
Proof.
  intros I Hn Hd. destruct (iv_live _ _ I _ _ _ _ Hn Hd) as [Hm|?]; [|by right]. left. by apply (in_main_entry raws).
Qed.

Lemma vinv_start b : vinv (vstart b).
Proof.
  split; cbn; try done.
  - intros e. split; [set_solver|by intros [? ?]].
  - intros e. rewrite !lookup_empty. split; by intros [? ?].
  - intros key v n e ver _ (es & E & H). injection E as <-. by apply elem_of_nil in H.
  - unfold stack. cbn. intros seg key v n e ver ->%list_elem_of_singleton H. exfalso. apply (entry_new key v n e). by exists ver.
  - unfold stack. cbn. intros seg e ts ->%list_elem_of_singleton H. exfalso. apply (tombed_new e). by exists ts.
  - intros key v x _ H. by apply elem_of_nil in H.
Qed.

(** ** Writes *)

Lemma seg_entry_insert m src dst eid ty ver key v n e ver' :
  seg_entry (active_overlay (insert_edge m src dst eid ty ver)) key v n e ver' ->
  seg_entry (active_overlay m) key v n e ver' \/ (e = eid /\ ver' = ver).
Proof.
  unfold seg_entry, insert_edge. cbn [with_active active_overlay]. rewrite !neighbors_insert.
  repeat case_decide; rewrite ?elem_of_app, ?list_elem_of_singleton; intros Hx; destruct_or? Hx; auto; injection Hx as _ -> ->; auto.
Qed.

Lemma listed_active m f p kn dd kn' dd' key v n e :
  (forall x, entry_in (active_overlay m) key v n x -> entry_in (f (active_overlay m)) key v n x) ->
  listed (mkWorld m p kn dd) key v n e -> listed (mkWorld (with_active f m) p kn' dd') key v n e.
Proof.
  intros Hf [H|(seg & Hin & He)]; [left; exact H|right].
  destruct (stack_active m f p kn dd kn' dd') as (below & E & E'). rewrite E in Hin. rewrite E'. apply elem_snoc in Hin as [?| ->].
  - exists seg. split; [apply elem_snoc; by left|done].
  - eexists. split; [apply elem_snoc; by right|]. by apply Hf.
Qed.

Lemma vinv_insert m p kn dd cr re g src dst eid ty ver raws : inv raws (mkWorld m p kn dd) -> vinv (mkV (mkWorld m p kn dd) cr re g) ->
  kn !! eid = None -> eid ∉ dd ->
  vinv (mkV (mkWorld (insert_edge m src dst eid ty ver) p (<[eid := (src, dst, ty)]> kn) dd) (<[eid := ver]> cr) re g).
Proof.
  intros I [V1 V2 V3 V4 V5 V6 V7 V8] Hk Hd. cbn [vw created removed collected adj known dead phase] in *.
  set (w' := mkWorld (insert_edge m src dst eid ty ver) p _ dd).
  destruct (stack_active m (fun a => Segment.insert_edge (Segment.insert_edge a src dst eid ty ver Outgoing) dst src eid ty ver Incoming)
    p kn dd (<[eid := (src, dst, ty)]> kn) dd) as (below & E & E'). change (stack w' = below ++ [active_overlay (adj w')]) in E'.
  assert (Hcr : cr !! eid = None) by (apply eq_None_not_Some; rewrite <- V2, Hk; by intros [? ?]).
  assert (Hre : re !! eid = None) by (apply eq_None_not_Some; by rewrite <- V1).
  assert (Hold : forall e ver', cr !! e = Some ver' -> <[eid := ver]> cr !! e = Some ver') by (intros e ver' ?; rewrite lookup_insert_ne; congruence).
  assert (Hact : forall key v n x, entry_in (active_overlay m) key v n x -> entry_in (active_overlay (insert_edge m src dst eid ty ver)) key v n x)
    by (intros; apply entry_insert; by left).
  split; cbn [vw created removed collected adj known dead phase w']; try done.
  - intros e. destruct (decide (eid = e)) as [->|]; [rewrite !lookup_insert_eq; split; by eexists|]. by rewrite !lookup_insert_ne.
  - intros key v n e ver' Hv H. apply Hold. by apply (V3 key v n).
  - intros seg key v n e ver' Hin H. rewrite E' in Hin. apply elem_snoc in Hin as [Hin| ->].
    + apply Hold, (V4 seg key v n); [rewrite E; by apply elem_snoc; left|done].
    + apply seg_entry_insert in H as [H|(-> & ->)]; [|by rewrite lookup_insert_eq].
      apply Hold, (V4 (active_overlay m) key v n); [rewrite E; by apply elem_snoc; right|done].
  - intros seg e ts Hin H. rewrite E' in Hin. apply elem_snoc in Hin as [Hin| ->].
    + apply (V5 seg); [rewrite E; by apply elem_snoc; left|done].
    + apply (V5 (active_overlay m)); [rewrite E; by apply elem_snoc; right|done].
  - intros key v x Hb H. destruct (V6 key v x Hb H) as (? & ? & ?). split_and!; [|done|done]. apply names_mono; [by left|done].
  - intros key v n e dv Hn Hr. apply names_inv in Hn as [Hn|(-> & _)]; [|congruence].
    destruct (V7 key v n e dv Hn Hr) as [Hl|?]; [left|by right]. eapply listed_active; [|exact Hl]. intros; by apply Hact.
  - intros segs todo key seg v n e dv Hp Hkey Hseg He Hr.
    destruct (V8 segs todo key seg v n e dv Hp Hkey Hseg He Hr) as [?|[?|?]]; [by left|right; left; by apply Hact|by right; right].
Qed.

Lemma vinv_delete m p kn dd cr re g src dst eid ty ver raws : inv raws (mkWorld m p kn dd) -> vinv (mkV (mkWorld m p kn dd) cr re g) ->
  kn !! eid = Some (src, dst, ty) -> eid ∉ dd ->
  vinv (mkV (mkWorld (add_tombstone m eid src dst ty ver) p (<[eid := (src, dst, ty)]> kn) ({[eid]} ∪ dd)) cr (<[eid := ver]> re) g).
Proof.
  intros I [V1 V2 V3 V4 V5 V6 V7 V8] Hk Hd. cbn [vw created removed collected adj known dead phase] in *.
  set (w' := mkWorld (add_tombstone m eid src dst ty ver) p _ _).
  destruct (stack_active m (fun a => Segment.add_tombstone a eid src dst ty ver) p kn dd (<[eid := (src, dst, ty)]> kn) ({[eid]} ∪ dd))
    as (below & E & E'). change (stack w' = below ++ [active_overlay (adj w')]) in E'.
  assert (Hre : re !! eid = None) by (apply eq_None_not_Some; by rewrite <- V1).
  assert (Hkn : <[eid := (src, dst, ty)]> kn = kn) by by apply insert_id.
  assert (Hl : forall key v n e, listed (mkWorld m p kn dd) key v n e -> listed w' key v n e) by (intros; eapply listed_active; [|done]; done).
  assert (Hother : forall e dv, <[eid := ver]> re !! e = Some dv -> (e = eid /\ dv = ver) \/ (e <> eid /\ re !! e = Some dv)).
  { intros e dv. rewrite lookup_insert_Some. naive_solver. }
  split; cbn [vw created removed collected adj known dead phase w']; rewrite ?Hkn; try done.
  - intros e. destruct (decide (eid = e)) as [->|]; [rewrite lookup_insert_eq; split; [by eexists|set_solver]|].
    rewrite lookup_insert_ne, <- V1 by done. set_solver.
  - intros seg key v n e ver' Hin H. rewrite E' in Hin. apply elem_snoc in Hin as [Hin| ->].
    + apply (V4 seg key v n); [rewrite E; by apply elem_snoc; left|done].
    + apply (V4 (active_overlay m) key v n); [rewrite E; by apply elem_snoc; right|done].
  - intros seg e ts Hin H. rewrite E' in Hin. assert (Hts : re !! e = Some (ts_version ts) \/ (e = eid /\ ts_version ts = ver)).
    { apply elem_snoc in Hin as [Hin| ->]; [left; apply (V5 seg); [rewrite E; by apply elem_snoc; left|done]|].
      cbn in H. destruct (decide (eid = e)) as [->|Hne].
      - rewrite lookup_insert_eq in H. injection H as <-. by right.
      - rewrite lookup_insert_ne in H by done. left. apply (V5 (active_overlay m)); [rewrite E; by apply elem_snoc; right|done]. }
    destruct Hts as [Hts|(-> & ->)]; [|by rewrite lookup_insert_eq]. rewrite lookup_insert_ne; congruence.
  - intros key v x Hb H. destruct (V6 key v x Hb H) as (? & ? & ?). split_and!; [done|done|]. rewrite lookup_insert_ne; congruence.
  - intros key v n e dv Hn [(-> & ->)|(? & Hr)]%Hother.
    + left. apply Hl. by apply (alive_listed raws).
    + destruct (V7 key v n e dv Hn Hr) as [?|?]; [left; by apply Hl|by right].
  - intros segs todo key seg v n e dv Hp Hkey Hseg He [(-> & ->)|(? & Hr)]%Hother; [|by apply (V8 segs todo key seg v n e dv)].
    pose proof (iv_phase _ _ I) as Hph. cbn [phase] in Hph. rewrite Hp in Hph. destruct Hph as (_ & _ & Hset).
    destruct (proj2 (Hset key Hkey) seg v n eid Hseg He Hd) as [Hm|?]; [left; by apply (in_main_entry raws (mkWorld m p kn dd))|by right; left].
Qed.

(** ** Compaction *)

(** A step that keeps rows, shadow and segments, up to empty segments. *)
Lemma vinv_same_layers w w' cr re g : vinv (mkV w cr re g) -> known w' = known w -> dead w' = dead w ->
  main_csr (adj w') = main_csr (adj w) -> shadow (adj w') = shadow (adj w) ->
  (forall seg, seg ∈ stack w' -> seg ∈ stack w \/ seg = Segment.new) -> (forall seg, seg ∈ stack w -> seg ∈ stack w') ->
  (forall segs todo key seg v n e, phase w' = Merging segs todo -> key ∉ todo -> seg ∈ segs.*2 -> ~ entry_in seg key v n e) ->
  vinv (mkV w' cr re g).
Proof.
  intros [V1 V2 V3 V4 V5 V6 V7 V8] Ek Ed Em Es Hst Hst' Hp. cbn [vw created removed collected] in *.
  assert (Hm : forall key v n e ver, main_entry (adj w') key v n e ver <-> main_entry (adj w) key v n e ver)
    by (intros; unfold main_entry, main_row; by rewrite Em).
  split; cbn [vw created removed collected]; rewrite ?Ek, ?Ed, ?Es; try done.
  - intros key v n e ver Hv H%Hm. by apply (V3 key v n).
  - intros seg key v n e ver [H| ->]%Hst He; [by apply (V4 seg key v n)|]. exfalso. apply (entry_new key v n e). by exists ver.
  - intros seg e ts [H| ->]%Hst Ht; [by apply (V5 seg)|]. exfalso. apply (tombed_new e). by exists ts.
  - intros key v n e dv Hn Hr. unfold in_shadow. rewrite Es. destruct (V7 key v n e dv Hn Hr) as [[[ver H]|(seg & Hs & He)]|?]; [| |by right].
    + left. left. exists ver. by apply Hm.
    + left. right. exists seg. auto.
  - intros segs todo key seg v n e dv Hph Hk Hs He. exfalso. by apply (Hp segs todo key seg v n e).
Qed.

Lemma vinv_take m kn dd cr re g m' f raws : inv raws (mkWorld m Idle kn dd) -> vinv (mkV (mkWorld m Idle kn dd) cr re g) ->
  compact_take m = (m', f) -> vinv (mkV (mkWorld m' (Taken f) kn dd) cr re g).
Proof.
  intros I V [= <- <-]. pose proof (iv_phase _ _ I : frozen_segments m = []) as Hf. apply (vinv_same_layers _ _ _ _ _ V); try done.
  - unfold stack. cbn. rewrite Hf. cbn. intros seg. set_solver.
  - unfold stack. cbn. rewrite Hf. cbn. intros seg. set_solver.
Qed.

Lemma vinv_push m kn dd cr re g f raws : inv raws (mkWorld m (Taken f) kn dd) -> vinv (mkV (mkWorld m (Taken f) kn dd) cr re g) ->
  let m' := compact_push m f in
  vinv (mkV (mkWorld m' (Merging (frozen_segments m') (hash_order (elements (all_keys m' (frozen_segments m'))))) kn dd) cr re g).
Proof.
  intros I V m'. pose proof (iv_phase _ _ I : frozen_segments m = []) as Hf. apply (vinv_same_layers _ _ _ _ _ V); try done.
  - unfold stack. cbn. rewrite Hf. cbn. intros seg. set_solver.
  - unfold stack. cbn. rewrite Hf. cbn. intros seg. set_solver.
  - cbn [phase]. intros segs todo key seg v n e [= <- <-] Hk (sg & -> & Hs)%list_elem_of_fmap [ver He]. apply Hk.
    rewrite hash_order_perm, elem_of_elements. unfold all_keys. apply elem_of_union. right. apply elem_of_union_list.
    eexists. split; [by apply list_elem_of_fmap_2|]. apply elem_of_dom. destruct key as [ty d]. unfold Segment.neighbors_of in He. cbn [fst snd] in He.
    destruct (inserts sg.2 !! (ty, d)); [by eexists|]. by apply elem_of_nil in He.
Qed.

Lemma vinv_drain m kn dd cr re g segs raws : inv raws (mkWorld m (Merging segs []) kn dd) -> vinv (mkV (mkWorld m (Merging segs []) kn dd) cr re g) ->
  vinv (mkV (mkWorld (compact_drain m segs) Idle kn dd) cr re g).
Proof.
  intros I [V1 V2 V3 V4 V5 V6 V7 V8]. destruct (iv_phase _ _ I) as (Hfr & _ & _). cbn [vw created removed collected adj known dead phase] in *.
  assert (Hst : stack (mkWorld m (Merging segs []) kn dd) = segs.*2 ++ [active_overlay m]) by (unfold stack; cbn; by rewrite Hfr).
  assert (Hst' : stack (mkWorld (compact_drain m segs) Idle kn dd) = [active_overlay m]).
  { unfold stack. cbn. rewrite Hfr. replace (filter _ segs) with (@nil (nat * FrozenCsrSegment)); [done|]. symmetry.
    apply filter_none, Forall_forall. intros s Hs Hn. by apply Hn, list_elem_of_fmap_2. }
  assert (Htop : active_overlay m ∈ stack (mkWorld m (Merging segs []) kn dd)) by (rewrite Hst; apply elem_snoc; by right).
  split; cbn [vw created removed collected adj known dead phase]; rewrite ?Hst'; try done.
  - intros seg key v n e ver ->%list_elem_of_singleton. by apply V4.
  - intros seg e ts ->%list_elem_of_singleton. by apply V5.
  - intros key v n e dv Hn Hr. destruct (V7 key v n e dv Hn Hr) as [[Hm|(seg & Hin & He)]|?]; [left; left; exact Hm| |by right].
    assert (Hact : entry_in (active_overlay m) key v n e -> listed (mkWorld (compact_drain m segs) Idle kn dd) key v n e).
    { intros Ha. right. eexists. rewrite Hst'. split; [by left|done]. }
    rewrite Hst in Hin. apply elem_snoc in Hin as [Hin| ->]; [|left; by apply Hact].
    destruct (V8 segs [] key seg v n e dv eq_refl (not_elem_of_nil _) Hin He Hr) as [?|[?|?]]; [left; by left|left; by apply Hact|by right].
Qed.

Lemma vinv_merge m kn dd cr re g segs key ks m' raws : inv raws (mkWorld m (Merging segs (key :: ks)) kn dd) ->
  vinv (mkV (mkWorld m (Merging segs (key :: ks)) kn dd) cr re g) -> merge_key m segs key = Some m' ->
  vinv (mkV (mkWorld m' (Merging segs ks) kn dd) cr re g).
Proof.
  intros I V Hm. set (w := mkWorld m _ kn dd) in *. destruct (iv_phase _ _ I) as (Hfr & _ & _). cbn [adj w] in Hfr.
  assert (Hs : forall seg, seg ∈ segs -> seg.2 ∈ stack w).
  { intros seg ?. unfold stack. cbn. rewrite Hfr. apply elem_of_app. left. by apply list_elem_of_fmap_2. }
  destruct (merge_key_ok m segs key (raws key)) as (m1 & csr & raw' & E & Emain & Hh & Efr & Eact & _ & Esh & Hsub & Hcov).
  { apply (iv_holds _ _ I). }
  { intros x Hx. apply (names_pos raws w key _ x.1.1.2 (r_eid x) I). by apply (candidate_named raws w segs). }
  { intros l Hnd Hc. pose proof (iv_size _ _ I) as Hz. assert (length l <= size (known w))%nat; [|lia]. apply length_known; [done|].
    intros x Hx. destruct (candidate_named raws w segs key x I Hs (Hc x Hx)) as (_ & s & t & Ex & _). by rewrite Ex. }
  rewrite Hm in E. injection E as <-. destruct (bury_all_buries key segs (shadow m)) as (l & (B1 & B2 & B3) & Hl).
  rewrite <- Esh in B1, B2, B3. set (w' := mkWorld m' (Merging segs ks) kn dd).
  assert (Hst : stack w' = stack w) by (unfold stack; cbn; by rewrite Efr, Eact).
  assert (Hnew : forall v n e ver, 0 <= v -> main_entry m' key v n e ver <-> (v, n, e, ver) ∈ raw').
  { intros v n e ver Hv. unfold main_entry, main_row. rewrite Emain, <- surjective_pairing, lookup_insert_eq.
    destruct (holds_row _ _ v Hh Hv) as (es & Ees & Hes). rewrite Ees, <- Hes. split; [by intros (? & [= <-] & ?)|by exists es]. }
  assert (Hother : forall (k : OverlayKey) v n e ver, k <> key -> main_entry m' k v n e ver <-> main_entry m k v n e ver).
  { intros k v n e ver Hk. unfold main_entry, main_row. by rewrite Emain, <- surjective_pairing, lookup_insert_ne. }
  assert (Hat : forall v n e ts, names kn key v n e -> (e, ts) ∈ l -> ts_edge_type ts = key.1 /\ (shadow_of ts e key.1 key.2).1 = v
     /\ s_neighbor_vid (shadow_of ts e key.1 key.2).2 = n).
  { intros v n e ts (_ & s & t & Hk & Ho) (seg & Hseg & Hts)%Hl. destruct (iv_tombs _ _ I seg.2 e ts (Hs seg Hseg) Hts) as [_ Hk'].
    cbn [known w] in Hk'. rewrite Hk in Hk'. injection Hk' as -> -> Ety. split; [done|].
    destruct (shadow_of_type key ts e) as (_ & _ & _ & _ & Hor). rewrite Ho in Hor. split; congruence. }
  assert (Hkeep : forall v n e ver, names kn key v n e -> candidate (raws key) segs key (v, n, e, ver) ->
    (exists ver, main_entry m' key v n e ver) \/ in_shadow m' key v e).
  { intros v n e ver Hn Hc. pose proof (bury_all_elem key segs (shadow m) e) as Hbe.
    destruct (decide (e ∈ (bury_all key segs (shadow m)).1)) as [Hb|Hb]; rewrite Hbe in Hb.
    - right. destruct Hb as (seg & ts & Hseg & Hts & Ety). assert (Hin : (e, ts) ∈ l) by (apply Hl; eauto).
      destruct (B3 e ts Hin Ety) as (x & Hx & Ex). exists x. split; [|done]. by rewrite (proj1 (proj2 (Hat v n e ts Hn Hin))) in Hx.
    - left. destruct (Hcov _ Hc Hb) as ([[[v' n'] e'] ver'] & Hy & Ey & _). cbn in Ey. subst e'. destruct (Hsub _ Hy) as [Hc' _].
      pose proof (candidate_named raws w segs key _ I Hs Hc') as Hn'. cbn in Hn'. destruct (names_unique _ _ _ _ _ _ _ Hn Hn') as [-> ->].
      exists ver'. apply Hnew; [|done]. by apply (names_pos raws w key v' n' e I). }
  assert (Hcs : forall seg v n e, seg ∈ segs.*2 -> entry_in seg key v n e -> exists ver, candidate (raws key) segs key (v, n, e, ver)).
  { intros seg v n e (sg & -> & Hsg)%list_elem_of_fmap [ver He]. exists ver. right. exists sg. split; [done|]. by apply segment_entries_elem. }
  destruct V as [V1 V2 V3 V4 V5 V6 V7 V8]. cbn [vw created removed collected adj known dead phase w] in *.
  split; cbn [vw created removed collected adj known dead phase w']; fold w'; rewrite ?Hst; try done.
  - intros k v n e ver Hv He. destruct (decide (k = key)) as [->|Hk]; [|apply Hother in He; [by apply (V3 k v n)|done]].
    apply Hnew in He; [|done]. destruct (Hsub _ He) as [[Hx|(seg & Hseg & Hx%segment_entries_elem)] _].
    + apply (V3 key v n); [done|]. by apply (main_entry_raws raws w).
    + apply (V4 seg.2 key v n); [by apply Hs|done].
  - intros k v x Hb Hx. destruct (B2 _ _ _ _ Hx) as [Hx'|(e & ts & Hin & Ety & Ex & Ek)]; [by apply (V6 k v x)|].
    assert (k = key) as -> by (rewrite <- Ek; by destruct k). apply Hl in Hin as (seg & Hseg & Hts).
    destruct (iv_tombs _ _ I seg.2 e ts (Hs seg Hseg) Hts) as [_ Hk]. cbn [known w] in Hk. rewrite Ety in Hk.
    destruct (shadow_of_type key ts e) as (_ & T2 & T3 & T4 & Hor). rewrite <- Ex in T2, T3, T4, Hor. cbn [fst snd] in T2, T3, T4, Hor.
    rewrite T2, T3, T4. split_and!; [|done|by apply (V5 seg.2); [apply Hs|]].
    split; [done|]. exists (ts_src_vid ts), (ts_dst_vid ts). by rewrite Hor.
  - intros k v n e dv Hn Hr. destruct (V7 k v n e dv Hn Hr) as [[[ver He]|(seg & Hin & He)]|[(x & Hx & Ex)|?]]; [| | |by right; right].
    + destruct (decide (k = key)) as [->|Hk]; [|left; left; exists ver; by apply Hother].
      assert (Hv : 0 <= v) by by apply (names_pos raws w key v n e I). destruct (Hkeep v n e ver Hn) as [?|?].
      * left. by apply (main_entry_raws raws w key v n e ver I Hv).
      * left. by left.
      * right. by left.
    + left. right. exists seg. by rewrite Hst.
    + right. left. exists x. split; [by apply B1|done].
  - intros segs0 todo k seg v n e dv [= <- <-] Hk Hseg He Hr. destruct (decide (k = key)) as [->|Hne].
    + destruct (Hcs seg v n e Hseg He) as [ver Hc]. assert (Hn : names kn key v n e) by exact (candidate_named raws w segs key _ I Hs Hc).
      destruct (Hkeep v n e ver Hn Hc); [by left|by right; right; left].
    + destruct (V8 segs (key :: ks) k seg v n e dv eq_refl) as [[ver Hx]|[?|[(x & Hx & Ex)|?]]]; [set_solver|done|done|done|..].
      * left. exists ver. by apply Hother.
      * right. left. by rewrite Eact.
      * right. right. left. exists x. split; [by apply B1|done].
      * by right; right; right.
Qed.

(** ** Collection *)

Lemma vinv_gc m p kn dd cr re g v0 raws : inv raws (mkWorld m p kn dd) -> vinv (mkV (mkWorld m p kn dd) cr re g) ->
  vinv (mkV (mkWorld (gc_shadow m v0) p kn dd) cr re (Z.max g (gc_floor m v0))).
Proof.
  intros I [V1 V2 V3 V4 V5 V6 V7 V8]. cbn [vw created removed collected adj known dead phase] in *. set (fl := gc_floor m v0).
  assert (Hsh : forall (key : OverlayKey) v n e dv, names kn key v n e -> re !! e = Some dv ->
    in_shadow m key v e \/ dv <= g -> in_shadow (gc_shadow m v0) key v e \/ dv <= Z.max g fl).
  { intros key v n e dv (Hb & _) Hr [(x & Hx & <-)|?]; [|right; lia]. destruct (V6 key v x Hb Hx) as (_ & _ & E). rewrite Hr in E. injection E as ->.
    destruct (Z.le_gt_cases (s_deleted_version x) fl); [right; lia|left]. exists x. split; [|done]. cbn. by apply shadow_gc_elem. }
  split; cbn [vw created removed collected adj known dead phase]; try done.
  - intros key v x Hb Hx. cbn in Hx. apply shadow_gc_elem in Hx as [Hx _]. by apply V6.
  - intros key v n e dv Hn Hr. destruct (V7 key v n e dv Hn Hr) as [?|Hx]; [by left|right]. by apply (Hsh key v n).
  - intros segs todo key seg v n e dv Hp Hk Hseg He Hr. assert (Hn : names kn key v n e).
    { apply (iv_segs _ _ I seg); [|done]. subst p. destruct (iv_phase _ _ I) as (Hf & _).
      unfold stack. rewrite Hf. apply elem_of_app. by left. }
    destruct (V8 segs todo key seg v n e dv Hp Hk Hseg He Hr) as [?|[?|Hx]]; [by left|by right; left|right; right]. by apply (Hsh key v n).
Qed.

Lemma vinv_pins m p kn dd cr re g ps : vinv (mkV (mkWorld m p kn dd) cr re g) -> vinv (mkV (mkWorld (with_pins ps m) p kn dd) cr re g).
Proof. by intros [V1 V2 V3 V4 V5 V6 V7 V8]. Qed.

Lemma vstep_inv s s' raws : vstep s s' -> inv raws (vw s) -> vinv s -> (exists raws', inv raws' (vw s')) /\ vinv s'.
Proof.
  intros Hs I V. destruct Hs as [m p kn dd cr re g src dst eid ty ver H1 H2 H3 H4 H5|m p kn dd cr re g src dst eid ty ver H1 H2|w w' cr re g H|m p kn dd cr re g v|m p kn dd cr re g ps];
    cbn [vw] in *.
  - split; [eexists; apply inv_insert; eauto|by eapply vinv_insert].
  - destruct (iv_pos _ _ I _ _ _ _ H1). split; [|by eapply vinv_delete]. eexists. apply inv_delete; eauto. rewrite insert_id by done. apply (iv_size _ _ I).
  - split; [by eapply cstep_inv|]. destruct H as [? ? ? ? ? ?|? ? ? ? ? ->|? ? ? ? ? ? ? ?|].
    + by eapply vinv_take.
    + by eapply vinv_push.
    + by eapply vinv_merge.
    + by eapply vinv_drain.
  - split; [eexists; by apply (adj_inv_frame raws m)|by eapply vinv_gc].
  - split; [eexists; by apply (adj_inv_frame raws m)|by apply vinv_pins].
Qed.

Lemma vreachable_inv s : vreachable s -> (exists raws, inv raws (vw s)) /\ vinv s.
Proof.
  intros [b H]. revert s H. apply (rtc_ind_r (R := vstep) (fun s => (exists raws, inv raws (vw s)) /\ vinv s) (vstart b)).
  - split; [eexists; apply inv_start|apply vinv_start].
  - intros s s' _ Hs [[raws I] V]. by eapply vstep_inv.
Qed.

(** ** Reads at a version *)

(** Deleted at or before [p]; created at or before [p] and not deleted by then. *)
Definition removed_by (s : vworld) (p e : Z) : Prop := exists dv, removed s !! e = Some dv /\ dv <= p.
Definition alive_at (s : vworld) (p e : Z) : Prop := (exists c, created s !! e = Some c /\ c <= p) /\ ~ removed_by s p e.

Lemma admits_at_most p ver : admits (at_most (Some p)) ver = (ver <=? p).
Proof. unfold admits. cbn. by rewrite andb_true_r. Qed.

Lemma shown_at_split vis key v n e segs : shown_at vis key v n e segs <->
  exists l1 seg l2 ver, segs = l1 ++ seg :: l2 /\ seg_entry seg key v n e ver /\ admits vis ver = true
    /\ Forall (fun s => ~ tombstone_visible s vis e = true) (seg :: l2).
Proof.
  split.
  - induction 1 as [seg segs ver He Ha Hf|seg segs _ (l1 & s & l2 & ver & -> & ?)]; [by exists [], seg, segs, ver|by exists (seg :: l1), s, l2, ver].
  - intros (l1 & seg & l2 & ver & -> & He & Ha & Hf). induction l1 as [|s l1 IH]; [by eapply shown_at_here|by apply shown_at_later].
Qed.

Section reader.
  Context (s : vworld) (raws : OverlayKey -> list RawEdge) (p : Z) (I : inv raws (vw s)) (V : vinv s) (Ht : taken (phase (vw s)) = []).
  Abbreviation vis := (at_most (Some p)).

Lemma stack_of_reader : stack (vw s) = (frozen_segments (adj (vw s))).*2 ++ [active_overlay (adj (vw s))].
Proof. unfold stack. by rewrite Ht. Qed.

(** A segment hides an edge from the reader only when it was deleted by then. *)
Lemma hidden_removed seg e : seg ∈ stack (vw s) -> tombstone_visible seg vis e = true -> removed_by s p e.
Proof.
  intros Hs. unfold tombstone_visible. destruct (tombstones seg !! e) as [ts|] eqn:E; [|done]. rewrite admits_at_most, Z.leb_le. intros Hle.
  exists (ts_version ts). split; [by apply (vi_tomb _ V seg)|done].
Qed.
Lemma removed_hidden seg e : seg ∈ stack (vw s) -> tombed seg e -> removed_by s p e -> tombstone_visible seg vis e = true.
Proof.
  intros Hs [ts E] (dv & Hr & Hle). unfold tombstone_visible. rewrite E, admits_at_most. apply Z.leb_le.
  pose proof (vi_tomb _ V seg e ts Hs E). congruence.
Qed.
Lemma removed_dead e : removed_by s p e -> e ∈ dead (vw s).
Proof. intros (dv & Hr & _). apply (vi_dead _ V). by eexists. Qed.

Lemma visible_sound key v n e : key.2 <> Both -> 0 <= v -> visible_at vis (adj (vw s)) key v n e ->
  names (known (vw s)) key v n e /\ ~ removed_by s p e /\ (alive_at s p e \/ e ∈ dead (vw s)).
Proof.
  intros Hb Hv. unfold visible_at. rewrite <- stack_of_reader.
  assert (Hlive : forall ver, created s !! e = Some ver -> admits vis ver = true -> ~ removed_by s p e -> alive_at s p e).
  { intros ver Hc Ha Hr. split; [|done]. exists ver. split; [done|]. by rewrite admits_at_most, Z.leb_le in Ha. }
  intros [[(ver & Hm & Ha) Hf]|[Hs|(x & Hx & <- & <- & _ & Hd)]].
  - pose proof (main_entry_named raws _ _ _ _ _ _ I Hv Hm) as Hn. pose proof (vi_main _ V _ _ _ _ _ Hv Hm) as Hc. rewrite Forall_forall in Hf.
    assert (Hr : ~ removed_by s p e).
    { intros Hr. destruct (iv_dead_main _ _ I key v n e) as (seg & Hs & Hts); [by apply removed_dead| |].
      - exists ver. by apply (main_entry_raws raws (vw s) key v n e ver I Hv).
      - by apply (Hf seg Hs), removed_hidden. }
    split_and!; [done|done|left; by apply (Hlive ver)].
  - apply shown_at_split in Hs as (l1 & seg & l2 & ver & E & He & Ha & Hf). rewrite Forall_forall in Hf.
    assert (Hin : seg ∈ stack (vw s)) by (rewrite E; set_solver). pose proof (vi_seg _ V _ _ _ _ _ _ Hin He) as Hc.
    assert (Hr : ~ removed_by s p e).
    { intros Hr. destruct (iv_dead_segs _ _ I key v n e l1 seg l2) as (s' & Hs' & Hts); [by apply removed_dead|done|by exists ver|].
      apply (Hf s' Hs'), removed_hidden; [rewrite E; set_solver|done|done]. }
    split_and!; [apply (iv_segs _ _ I seg); [done|by exists ver]|done|left; by apply (Hlive ver)].
  - destruct (vi_shadow _ V key v x Hb Hx) as (Hn & _ & Hr). rewrite admits_at_most, Z.leb_gt in Hd. split_and!; [done| |].
    + intros (dv & Hr' & ?). rewrite Hr in Hr'. injection Hr' as <-. lia.
    + right. apply (vi_dead _ V). by eexists.
Qed.

Lemma visible_complete key v n e : 0 <= p -> collected s <= p -> names (known (vw s)) key v n e -> alive_at s p e ->
  visible_at vis (adj (vw s)) key v n e.
Proof.
  intros Hp Hg Hn [(c & Hc & Hle) Hr]. unfold visible_at. rewrite <- stack_of_reader.
  assert (Hf : Forall (fun s => ~ tombstone_visible s vis e = true) (stack (vw s))).
  { apply Forall_forall. intros seg Hs Hh. by apply Hr, (hidden_removed seg). }
  pose proof (names_pos raws _ _ _ _ _ I Hn) as [Hv _]. assert (Ha : admits vis c = true) by (rewrite admits_at_most; by apply Z.leb_le).
  assert (Hl : listed (vw s) key v n e -> (exists ver, main_entry (adj (vw s)) key v n e ver /\ admits vis ver = true) \/ shown_at vis key v n e (stack (vw s))).
  { intros [[ver Hm]|(seg & Hs & ver & He)].
    - left. pose proof (vi_main _ V _ _ _ _ _ Hv Hm). assert (ver = c) as -> by congruence. by exists c.
    - right. pose proof (vi_seg _ V _ _ _ _ _ _ Hs He). assert (ver = c) as -> by congruence. apply shown_at_split.
      apply list_elem_of_split in Hs as (l1 & l2 & E). exists l1, seg, l2, c. rewrite E in Hf. apply Forall_app in Hf as [_ Hf]. done. }
  destruct (decide (e ∈ dead (vw s))) as [Hd|Hd].
  - pose proof (proj1 (vi_dead _ V e) Hd) as [dv Hdv]. destruct (vi_gone _ V key v n e dv Hn Hdv) as [H|[(x & Hx & <-)|H]].
    + destruct (Hl H); [by left|by right; left].
    + right. right. exists x. destruct (vi_shadow _ V key v x (proj1 Hn) Hx) as (Hn' & E0 & Ed).
      destruct (names_unique _ _ _ _ _ _ _ Hn Hn') as [_ ->]. rewrite !admits_at_most, E0. split_and!; [done|done|done|by apply Z.leb_le|].
      apply Z.leb_gt. destruct (Z.lt_ge_cases p (s_deleted_version x)); [done|]. exfalso. apply Hr. by exists (s_deleted_version x).
    + exfalso. apply Hr. exists dv. split; [done|lia].
  - destruct (Hl (alive_listed raws _ _ _ _ _ I Hn Hd)); [by left|by right; left].
Qed.

Lemma read_directions_version vid ty dirs r : 0 <= vid -> (forall d, d ∈ dirs -> d <> Both) ->
  (forall n e, (n, e) ∈ r -> ~ removed_by s p e) ->
  exists r', read_directions (read_direction_visible (adj (vw s)) vid ty vis) r dirs = Some r'
    /\ forall n e, (n, e) ∈ r' <-> (n, e) ∈ r \/ exists d, d ∈ dirs /\ visible_at vis (adj (vw s)) (ty, d) vid n e.
Proof.
  intros Hv. revert r. induction dirs as [|d dirs IH]; intros r Hb Hr; cbn [read_directions].
  { exists r. split; [done|]. intros n e. split; [auto|]. intros [?|(? & ?%elem_of_nil & _)]; done. }
  destruct (read_direction_visible_elem vis (adj (vw s)) vid ty d r) as (r1 & -> & Hr1); [by eapply main_row_total|]. cbn [mbind option_bind].
  rewrite <- stack_of_reader in Hr1.
  assert (Hr1' : forall n e, (n, e) ∈ r1 <-> (n, e) ∈ r \/ visible_at vis (adj (vw s)) (ty, d) vid n e).
  { intros n e. rewrite Hr1. split; [tauto|]. intros [Hin|?]; [left|by right]. split; [done|].
    apply Forall_forall. intros sg Hs Hh. by apply (Hr n e Hin), (hidden_removed sg). }
  destruct (IH r1) as (r' & E & Hr').
  { intros d' ?. apply Hb. by right. }
  { intros n e [?|Hvis]%Hr1'; [by apply (Hr n)|]. apply visible_sound in Hvis; [by destruct Hvis as (_ & ? & _)|apply Hb; by left|done]. }
  exists r'. split; [done|]. intros n e. rewrite Hr', Hr1'. split.
  - intros [[?|?]|(d' & ? & ?)]; [by left|right; exists d; split; [by left|done]|right; exists d'; split; [by right|done]].
  - intros [?|(d' & [->|?]%elem_of_cons & ?)]; [by left; left|by left; right|right; eauto].
Qed.

Lemma read_version vid ty direction : 0 <= vid ->
  exists l, get_neighbors_at_version (adj (vw s)) vid ty direction p = Some l /\ StronglySorted pair_lt l
    /\ forall n e, (n, e) ∈ l <-> exists d, d ∈ expand direction /\ visible_at vis (adj (vw s)) (ty, d) vid n e.
Proof.
  intros Hv. unfold get_neighbors_at_version, get_neighbors_visible.
  destruct (read_directions_version vid ty (expand direction) [] Hv) as (r & -> & Hr).
  { intros d Hd. destruct direction; cbn in Hd; set_solver. }
  { by intros n e ?%elem_of_nil. }
  destruct (canonical_spec r) as [Hs Hc]. eexists. split; [done|]. split; [done|]. intros n e. rewrite Hc, Hr.
  split; [by intros [?%elem_of_nil|?]|auto].
Qed.
End reader.

Lemma min_pinned_le (ps : PinState) (p : Z) : is_Some (counts ps !! p) -> exists f, min_pinned ps = Some f /\ f <= p.
Proof.
  intros [k Hk]. unfold min_pinned, min_key. set (ks := merge_sort Z.le _).
  assert (Hin : p ∈ ks) by (unfold ks; rewrite merge_sort_Permutation; apply list_elem_of_fmap; exists (p, k); split; [done|by apply elem_of_map_to_list]).
  assert (Hs : StronglySorted Z.le ks) by (apply Sorted_StronglySorted; [intros ???; lia|apply Sorted_merge_sort; intros a b; lia]).
  destruct Hs as [|f ks' _ Hf]; [by apply elem_of_nil in Hin|]. exists f. split; [done|].
  apply elem_of_cons in Hin as [->|Hin]; [done|]. rewrite Forall_forall in Hf. by apply Hf.
Qed.

(** C5: reads at a version.  In every state of a run that inserts each edge
    once and deletes it at most once, with compactions one locked section at a
    time and collections of the shadow and without warms, outside the gap in
    which a compaction has taken the active segment and not listed it, a reader
    at a version no collection has passed gets, sorted and each once, every edge
    of the vertex that was created at or before its version and not deleted by
    then, whichever layer holds it; it gets no edge deleted at or before its
    version, and one created after it only if that edge has been deleted since.
    While the reader's version is pinned, no collection passes it. *)
Theorem versioned_reads_complete (s : vworld) (vid ty : Z) (direction : Direction) (p : Z) :
  vreachable s -> taken (phase (vw s)) = [] -> 0 <= vid -> 0 <= p -> collected s <= p ->
  (exists l, get_neighbors_at_version (adj (vw s)) vid ty direction p = Some l /\ StronglySorted pair_lt l
    /\ (forall n e, incident (known (vw s)) ty direction vid n e -> alive_at s p e -> (n, e) ∈ l)
    /\ (forall n e, (n, e) ∈ l -> incident (known (vw s)) ty direction vid n e /\ ~ removed_by s p e
          /\ (alive_at s p e \/ e ∈ dead (vw s))))
  /\ (is_Some (counts (pinned_versions (adj (vw s))) !! p) -> forall v, gc_floor (adj (vw s)) v <= p).
Proof.
  intros [[raws I] V]%vreachable_inv Ht Hv Hp Hg. split.
  - destruct (read_version s raws p I V Ht vid ty direction Hv) as (l & El & Hs & Hl). exists l. split_and!; [done|done| |].
    + intros n e (d & Hd & Hn)%incident_names Ha. apply Hl. exists d. split; [done|]. by apply (visible_complete s raws).
    + intros n e (d & Hd & Hvis)%Hl. apply (visible_sound s raws p I V Ht) in Hvis as (Hn & ? & ?); [|destruct direction; cbn in Hd; set_solver|done].
      split_and!; [|done|done]. apply incident_names. by exists d.
  - intros Hpin v. unfold gc_floor. destruct (min_pinned_le _ _ Hpin) as (f & -> & ?). lia.
Qed.

Lemma vreachable_compact s m' kn dd : vreachable s -> vw s = mkWorld (adj (vw s)) Idle kn dd -> compact (adj (vw s)) = Some m' ->
  vreachable (mkV (mkWorld m' Idle kn dd) (created s) (removed s) (collected s)) /\ active_overlay m' = Segment.new.
Proof.
  intros Hr Hw Hc. pose proof (vreachable_inv s Hr) as [[raws I] _]. rewrite Hw in I.
  destruct (compact_run raws _ kn dd I) as (m1 & E & Hrun & Ha & _). rewrite Hc in E. injection E as <-. split; [|done].
  destruct Hr as [b Hb]. exists b. transitivity s; [exact Hb|]. destruct s as [w cr re g]. cbn [vw created removed collected] in *. rewrite Hw.
  clear -Hrun. induction Hrun as [w0|w1 w2 w3 Hs _ IH]; [apply rtc_refl|]. eapply rtc_l; [by apply v_compact|exact IH].
Qed.

(** Compaction shows a reader edges from its future.  An edge created and
    deleted after the reader's version, and not yet in the shadow, is not in
    the reader's neighbours before a compaction and is in them after it: the
    shadow entry the compaction writes has lost the version that created the
    edge. *)
Theorem compaction_shows_future_edges (s : vworld) (m' : AdjacencyManager) (vid ty n e : Z) (d : Direction) (p c dv : Z) :
  vreachable s -> phase (vw s) = Idle -> compact (adj (vw s)) = Some m' -> d <> Both -> 0 <= p -> collected s <= p ->
  names (known (vw s)) (ty, d) vid n e -> created s !! e = Some c -> removed s !! e = Some dv -> p < c -> p < dv ->
  (forall x, x ∈ Shadow.get_entries (shadow (adj (vw s))) vid ty d -> s_eid x <> e) ->
  (exists l, get_neighbors_at_version (adj (vw s)) vid ty d p = Some l /\ (n, e) ∉ l)
  /\ (exists l, get_neighbors_at_version m' vid ty d p = Some l /\ (n, e) ∈ l).
Proof.
  intros Hr Hph Hc Hd Hp Hg Hn Hcr Hre Hpc Hpd Hns. pose proof (vreachable_inv s Hr) as [[raws I] V].
  pose proof (names_pos raws _ _ _ _ _ I Hn) as [Hv _]. assert (Hex : expand d = [d]) by by destruct d. split.
  - assert (Ht : taken (phase (vw s)) = []) by by rewrite Hph. destruct (read_version s raws p I V Ht vid ty d Hv) as (l & El & _ & Hl).
    exists l. split; [done|]. intros (d' & Hin & Hvis)%Hl. rewrite Hex in Hin. apply list_elem_of_singleton in Hin as ->.
    destruct Hvis as [[(ver & Hm & Ha) _]|[Hs|(x & Hx & _ & Ex & _)]].
    + rewrite admits_at_most, Z.leb_le in Ha. pose proof (vi_main _ V _ _ _ _ _ Hv Hm) as Hcm. rewrite Hcr in Hcm. injection Hcm as <-. lia.
    + rewrite <- (stack_of_reader s Ht) in Hs. apply shown_at_split in Hs as (l1 & seg & l2 & ver & E & He & Ha & _).
      rewrite admits_at_most, Z.leb_le in Ha. assert (Hs : seg ∈ stack (vw s)) by (rewrite E; set_solver).
      pose proof (vi_seg _ V _ _ _ _ _ _ Hs He) as Hcm. rewrite Hcr in Hcm. injection Hcm as <-. lia.
    + by apply (Hns x).
  - assert (Hw : vw s = mkWorld (adj (vw s)) Idle (known (vw s)) (dead (vw s))) by (rewrite <- Hph; by destruct (vw s)).
    destruct (vreachable_compact s m' _ _ Hr Hw Hc) as [Hr' Ha]. set (s' := mkV _ _ _ _) in Hr'.
    pose proof (vreachable_inv s' Hr') as [[raws' I'] V']. destruct (read_version s' raws' p I' V' eq_refl vid ty d Hv) as (l & El & _ & Hl).
    exists l. split; [done|]. apply Hl. exists d. rewrite Hex. split; [by left|]. right. right.
    pose proof (iv_phase _ _ I' : frozen_segments m' = []) as Hf.
    assert (Hst : stack (vw s') = [Segment.new]) by (unfold stack; cbn; by rewrite Hf, Ha).
    destruct (vi_gone _ V' (ty, d) vid n e dv Hn Hre) as [[[ver Hm]|(seg & Hs & He)]|[(x & Hx & Ex)|Hgg]].
    + exfalso. destruct (iv_dead_main _ _ I' (ty, d) vid n e) as (seg & Hs & Hts).
      * apply (vi_dead _ V'). by exists dv.
      * exists ver. by apply (main_entry_raws raws' (vw s') _ _ _ _ _ I' Hv).
      * rewrite Hst in Hs. apply list_elem_of_singleton in Hs as ->. by apply (tombed_new e).
    + exfalso. rewrite Hst in Hs. apply list_elem_of_singleton in Hs as ->. by apply (entry_new (ty, d) vid n e).
    + exists x. destruct (vi_shadow _ V' (ty, d) vid x Hd Hx) as (Hn' & E0 & Er). rewrite Ex in Hn', Er.
      destruct (names_unique _ _ _ _ _ _ _ Hn Hn') as [_ En]. rewrite !admits_at_most, E0. cbn [removed s'] in Er. rewrite Hre in Er. injection Er as <-.
      split_and!; [done|done|done|by apply Z.leb_le|by apply Z.leb_gt].
    + cbn [collected s'] in Hgg. lia.
Qed.
End history.
