(* ===== verification/Btic.v ===== *)
(** * BTIC: temporal intervals and their packed form

    crates/uni-btic: half-open intervals of milliseconds with a granularity
    and a certainty per bound packed into a 64-bit word (btic.rs,
    granularity.rs, certainty.rs), the 24-byte canonical encoding (encode.rs),
    the interval predicates (predicates.rs) and the set operations
    (set_ops.rs).  An [expect] that fails is [None].  Display and the parser
    of literals, which go through chrono, are not modelled. *)

From stdpp Require Import pretty.
From S2P Require Import Prelude.

(** ** Granularity and certainty *)

Inductive Granularity :=
| Millisecond | Second | Minute | Hour | Day | Month | Quarter | Year | Decade | Century | Millennium.

Inductive Certainty := Definite | Approximate | Uncertain | Unknown.

Inductive BticError :=
| BoundOrdering (lo hi : Z)
| ReservedBits
| GranularityRange (code : Z)
| SentinelMetadata
| ParseError (message : string)
| InvalidLength (len : nat).

#[export] Instance Granularity_eq_dec : EqDecision Granularity.
Proof. solve_decision. Defined.
#[export] Instance Certainty_eq_dec : EqDecision Certainty.
Proof. solve_decision. Defined.

Module Granularity.
Definition from_code (code : Z) : result BticError Granularity :=
  match code with
  | 0 => Ok Millisecond | 1 => Ok Second | 2 => Ok Minute | 3 => Ok Hour | 4 => Ok Day
  | 5 => Ok Month | 6 => Ok Quarter | 7 => Ok Year | 8 => Ok Decade | 9 => Ok Century
  | 10 => Ok Millennium
  | _ => Err (GranularityRange code)
  end.

Definition code (g : Granularity) : Z :=
  match g with
  | Millisecond => 0 | Second => 1 | Minute => 2 | Hour => 3 | Day => 4 | Month => 5
  | Quarter => 6 | Year => 7 | Decade => 8 | Century => 9 | Millennium => 10
  end.

(** [std::cmp::min] with the derived order: the first argument on a tie. *)
Definition finer (self other : Granularity) : Granularity :=
  if code other <? code self then other else self.
End Granularity.

Module Certainty.
Definition from_code (code : Z) : result BticError Certainty :=
  match code with
  | 0 => Ok Definite | 1 => Ok Approximate | 2 => Ok Uncertain | 3 => Ok Unknown
  | _ => Err (ParseError ("certainty code " +:+ pretty code +:+ " out of range 0..=3"))
  end.

Definition code (c : Certainty) : Z :=
  match c with Definite => 0 | Approximate => 1 | Uncertain => 2 | Unknown => 3 end.

(** [std::cmp::max]: the second argument on a tie. *)
Definition least_certain (self other : Certainty) : Certainty :=
  if code other <? code self then self else other.
End Certainty.

(** ** Intervals *)

Definition NEG_INF : Z := I64_MIN.
Definition POS_INF : Z := I64_MAX.
Definition SIGN_FLIP : Z := 0x8000000000000000.

Record Btic := mkBtic { lo : Z; hi : Z; meta : Z }.

#[export] Instance Btic_eq_dec : EqDecision Btic.
Proof. solve_decision. Defined.

(** [((meta >> shift) & mask)], the fields of the meta word. *)
Definition field (meta shift mask : Z) : Z := Z.land (Z.shiftr meta shift) mask.
Definition lo_gran_code (m : Z) : Z := field m 60 0xF.
Definition hi_gran_code (m : Z) : Z := field m 56 0xF.
Definition lo_cert_code (m : Z) : Z := field m 54 0x3.
Definition hi_cert_code (m : Z) : Z := field m 52 0x3.

Definition validate (self : Btic) : result BticError unit :=
  let m := meta self in
  if hi self <=? lo self then Err (BoundOrdering (lo self) (hi self))
  else if 0xA <? lo_gran_code m then Err (GranularityRange (lo_gran_code m))
  else if 0xA <? hi_gran_code m then Err (GranularityRange (hi_gran_code m))
  else if negb (field m 48 0xF =? 0) || negb (field m 32 0xFFFF =? 0) || negb (Z.land m 0xFFFFFFFF =? 0)
  then Err ReservedBits
  else if (lo self =? NEG_INF) && (negb (lo_gran_code m =? 0) || negb (lo_cert_code m =? 0))
  then Err SentinelMetadata
  else if (hi self =? POS_INF) && (negb (hi_gran_code m =? 0) || negb (hi_cert_code m =? 0))
  then Err SentinelMetadata
  else Ok tt.

Definition new (l h m : Z) : result BticError Btic :=
  let btic := mkBtic l h m in
  let? _ := validate btic in Ok btic.

Definition build_meta (lo_gran hi_gran : Granularity) (lo_cert hi_cert : Certainty) : Z :=
  Z.lor (Z.lor (Z.lor (Z.shiftl (Granularity.code lo_gran) 60) (Z.shiftl (Granularity.code hi_gran) 56))
    (Z.shiftl (Certainty.code lo_cert) 54)) (Z.shiftl (Certainty.code hi_cert) 52).

(** Accessors: [None] is the panic of [expect]. *)
Definition lo_granularity (self : Btic) : option Granularity := ok (Granularity.from_code (lo_gran_code (meta self))).
Definition hi_granularity (self : Btic) : option Granularity := ok (Granularity.from_code (hi_gran_code (meta self))).
Definition lo_certainty (self : Btic) : option Certainty := ok (Certainty.from_code (lo_cert_code (meta self))).
Definition hi_certainty (self : Btic) : option Certainty := ok (Certainty.from_code (hi_cert_code (meta self))).

Definition is_unbounded (self : Btic) : bool := (lo self =? NEG_INF) || (hi self =? POS_INF).
Definition is_finite (self : Btic) : bool := negb (is_unbounded self).
Definition duration_ms (self : Btic) : option Z :=
  if (lo self =? NEG_INF) || (hi self =? POS_INF) then None else checked_sub_i64 (hi self) (lo self).
(** [self.lo + 1] in release mode. *)
Definition is_instant (self : Btic) : bool := hi self =? as_i64 (lo self + 1).

Definition cmp (self other : Btic) : comparison :=
  then_cmp (then_cmp (lo self ?= lo other) (hi self ?= hi other)) (meta self ?= meta other).

(** ** The packed form *)

Definition encode (btic : Btic) : list Z :=
  let lo_encoded := Z.lxor (as_u64 (lo btic)) SIGN_FLIP in
  let hi_encoded := Z.lxor (as_u64 (hi btic)) SIGN_FLIP in
  to_be_bytes 8 lo_encoded ++ to_be_bytes 8 hi_encoded ++ to_be_bytes 8 (meta btic).

Definition word (slice : list Z) : Z := from_be_bytes slice.

Definition decode (bytes : list Z) : result BticError Btic :=
  let lo_encoded := word (take 8 bytes) in
  let hi_encoded := word (take 8 (drop 8 bytes)) in
  let m := word (take 8 (drop 16 bytes)) in
  new (as_i64 (Z.lxor lo_encoded SIGN_FLIP)) (as_i64 (Z.lxor hi_encoded SIGN_FLIP)) m.

Definition decode_slice (bytes : list Z) : result BticError Btic :=
  if negb (Nat.eqb (length bytes) 24) then Err (InvalidLength (length bytes)) else decode bytes.

(** ** Predicates *)

Definition contains_point (interval : Btic) (point : Z) : bool := (lo interval <=? point) && (point <? hi interval).
Definition overlaps (a b : Btic) : bool := (lo a <? hi b) && (lo b <? hi a).
Definition contains (a b : Btic) : bool := (lo a <=? lo b) && (hi b <=? hi a).
Definition before (a b : Btic) : bool := hi a <=? lo b.
Definition after (a b : Btic) : bool := hi b <=? lo a.
Definition meets (a b : Btic) : bool := hi a =? lo b.
Definition adjacent (a b : Btic) : bool := (hi a =? lo b) || (hi b =? lo a).
Definition disjoint (a b : Btic) : bool := (hi a <=? lo b) || (hi b <=? lo a).
Definition btic_equals (a b : Btic) : bool := (lo a =? lo b) && (hi a =? hi b).
Definition starts (a b : Btic) : bool := (lo a =? lo b) && (hi a <? hi b).
Definition during (a b : Btic) : bool := (lo b <? lo a) && (hi a <? hi b).
Definition finishes (a b : Btic) : bool := (hi a =? hi b) && (lo b <? lo a).

(** ** Set operations *)

Inductive BoundSide := Lo | Hi.

Definition bound_meta (btic : Btic) (side : BoundSide) : option (Granularity * Certainty) :=
  match side with
  | Lo => g ← lo_granularity btic; c ← lo_certainty btic; Some (g, c)
  | Hi => g ← hi_granularity btic; c ← hi_certainty btic; Some (g, c)
  end.

Definition bound_val (btic : Btic) (side : BoundSide) : Z :=
  match side with Lo => lo btic | Hi => hi btic end.

Definition pick_bound_meta (a b : Btic) (side : BoundSide) (pick : comparison) : option (Granularity * Certainty) :=
  let va := bound_val a side in
  let vb := bound_val b side in
  '(ga, ca) ← bound_meta a side;
  '(gb, cb) ← bound_meta b side;
  Some (match va ?= vb with
        | Eq => (Granularity.finer ga gb, Certainty.least_certain ca cb)
        | ord => if decide (ord = pick) then (ga, ca) else (gb, cb)
        end).

Definition build_result_meta (l h : Z) (lo_gran hi_gran : Granularity) (lo_cert hi_cert : Certainty) : Z :=
  let '(lg, lc) := if l =? NEG_INF then (Millisecond, Definite) else (lo_gran, lo_cert) in
  let '(hg, hc) := if h =? POS_INF then (Millisecond, Definite) else (hi_gran, hi_cert) in
  build_meta lg hg lc hc.

(** The results of [intersection] and [gap] are options of their own. *)
Definition intersection (a b : Btic) : option (option Btic) :=
  let l := Z.max (lo a) (lo b) in
  let h := Z.min (hi a) (hi b) in
  if h <=? l then Some None
  else
    '(lo_gran, lo_cert) ← pick_bound_meta a b Lo Gt;
    '(hi_gran, hi_cert) ← pick_bound_meta a b Hi Lt;
    Some (ok (new l h (build_result_meta l h lo_gran hi_gran lo_cert hi_cert))).

Definition span (a b : Btic) : option Btic :=
  let l := Z.min (lo a) (lo b) in
  let h := Z.max (hi a) (hi b) in
  '(lo_gran, lo_cert) ← pick_bound_meta a b Lo Lt;
  '(hi_gran, hi_cert) ← pick_bound_meta a b Hi Gt;
  ok (new l h (build_result_meta l h lo_gran hi_gran lo_cert hi_cert)).

Definition gap (a b : Btic) : option (option Btic) :=
  let gap_lo := Z.min (hi a) (hi b) in
  let gap_hi := Z.max (lo a) (lo b) in
  if gap_hi <=? gap_lo then Some None
  else
    '(lo_gran, lo_cert) ← pick_bound_meta a b Hi Lt;
    '(hi_gran, hi_cert) ← pick_bound_meta a b Lo Gt;
    Some (ok (new gap_lo gap_hi (build_result_meta gap_lo gap_hi lo_gran hi_gran lo_cert hi_cert))).

(** ** The meta word *)

Lemma field_15 m s : 0 <= s -> field m s 15 = (m / 2 ^ s) mod 16.
Proof. intros. unfold field. change 15 with (Z.ones 4). by rewrite Z.land_ones, Z.shiftr_div_pow2 by lia. Qed.
Lemma field_3 m s : 0 <= s -> field m s 3 = (m / 2 ^ s) mod 4.
Proof. intros. unfold field. change 3 with (Z.ones 2). by rewrite Z.land_ones, Z.shiftr_div_pow2 by lia. Qed.
Lemma field_flags m : field m 32 0xFFFF = (m / 2 ^ 32) mod 2 ^ 16.
Proof. unfold field. change 0xFFFF with (Z.ones 16). by rewrite Z.land_ones, Z.shiftr_div_pow2 by lia. Qed.
Lemma land_reserved m : Z.land m 0xFFFFFFFF = m mod 2 ^ 32.
Proof. change 0xFFFFFFFF with (Z.ones 32). by rewrite Z.land_ones by lia. Qed.

Lemma build_meta_sum lg hg lc hc :
  build_meta lg hg lc hc = Granularity.code lg * 2 ^ 60 + Granularity.code hg * 2 ^ 56
                           + Certainty.code lc * 2 ^ 54 + Certainty.code hc * 2 ^ 52.
Proof. destruct lg, hg, lc, hc; reflexivity. Qed.

Lemma gran_code_bound g : 0 <= Granularity.code g <= 10.
Proof. destruct g; cbn; lia. Qed.
Lemma cert_code_bound c : 0 <= Certainty.code c <= 3.
Proof. destruct c; cbn; lia. Qed.
Lemma gran_from_to g : Granularity.from_code (Granularity.code g) = Ok g.
Proof. by destruct g. Qed.
Lemma cert_from_to c : Certainty.from_code (Certainty.code c) = Ok c.
Proof. by destruct c. Qed.

Lemma gran_of_code z : 0 <= z <= 10 -> exists g, z = Granularity.code g.
Proof.
  intros Hz. assert (H : Forall (fun z => exists g, z = Granularity.code g) [0;1;2;3;4;5;6;7;8;9;10]).
  { repeat constructor; match goal with |- exists g, ?z = _ =>
      let r := eval cbn in (ok (Granularity.from_code z)) in match r with Some ?g => by exists g end end. }
  rewrite Forall_forall in H. apply H. assert (z = 0 \/ z = 1 \/ z = 2 \/ z = 3 \/ z = 4 \/ z = 5 \/ z = 6 \/ z = 7 \/ z = 8 \/ z = 9 \/ z = 10) by lia.
  set_solver.
Qed.

Lemma cert_of_code z : 0 <= z <= 3 -> exists c, z = Certainty.code c.
Proof.
  intros Hz. assert (z = 0 \/ z = 1 \/ z = 2 \/ z = 3) as [-> | [-> | [-> | ->]]] by lia;
    [exists Definite|exists Approximate|exists Uncertain|exists Unknown]; done.
Qed.

(** Every word without version, flags and reserved bits is the four codes. *)
Lemma meta_fields m :
  is_u64 m -> lo_gran_code m <= 10 -> hi_gran_code m <= 10 -> field m 48 0xF = 0 -> field m 32 0xFFFF = 0 ->
  Z.land m 0xFFFFFFFF = 0 -> exists lg hg lc hc, m = build_meta lg hg lc hc.
Proof.
  unfold is_u64, lo_gran_code, hi_gran_code. rewrite field_flags, land_reserved, !field_15 by lia. intros Hm H1 H2 H3 H4 H5.
  assert (Hb : forall d, 0 <= (m / 2 ^ d) mod 16) by (intros; by apply Z.mod_pos_bound).
  destruct (gran_of_code ((m / 2 ^ 60) mod 16)) as [lg Hlg]; [by split|].
  destruct (gran_of_code ((m / 2 ^ 56) mod 16)) as [hg Hhg]; [by split|].
  destruct (cert_of_code ((m / 2 ^ 54) mod 4)) as [lc Hlc]; [pose proof (Z.mod_pos_bound (m / 2 ^ 54) 4); lia|].
  destruct (cert_of_code ((m / 2 ^ 52) mod 4)) as [hc Hhc]; [pose proof (Z.mod_pos_bound (m / 2 ^ 52) 4); lia|].
  exists lg, hg, lc, hc. rewrite build_meta_sum, <- Hlg, <- Hhg, <- Hlc, <- Hhc. clear - Hm H3 H4 H5.
  Z.to_euclidean_division_equations. lia.
Qed.

Lemma fields_of_build lg hg lc hc :
  let m := build_meta lg hg lc hc in
  is_u64 m /\ lo_gran_code m = Granularity.code lg /\ hi_gran_code m = Granularity.code hg
  /\ lo_cert_code m = Certainty.code lc /\ hi_cert_code m = Certainty.code hc
  /\ field m 48 0xF = 0 /\ field m 32 0xFFFF = 0 /\ Z.land m 0xFFFFFFFF = 0.
Proof.
  intros m. unfold m, lo_gran_code, hi_gran_code, lo_cert_code, hi_cert_code, is_u64. rewrite build_meta_sum.
  rewrite field_flags, land_reserved, !field_15, !field_3 by lia.
  pose proof (gran_code_bound lg). pose proof (gran_code_bound hg). pose proof (cert_code_bound lc). pose proof (cert_code_bound hc).
  generalize dependent (Granularity.code lg). generalize dependent (Granularity.code hg).
  generalize dependent (Certainty.code lc). generalize dependent (Certainty.code hc). intros.
  repeat split; Z.to_euclidean_division_equations; lia.
Qed.

(** ** Valid intervals *)

(** What the type of a constructed [Btic] promises. *)
Definition valid (b : Btic) : Prop :=
  is_i64 (lo b) /\ is_i64 (hi b) /\ is_u64 (meta b) /\ validate b = Ok tt.

(** The four fields of a word, as they come out of the accessors. *)
Record fields_are (b : Btic) (lg hg : Granularity) (lc hc : Certainty) : Prop := {
  fa_meta : meta b = build_meta lg hg lc hc;
  fa_lo : lo b = NEG_INF -> lg = Millisecond /\ lc = Definite;
  fa_hi : hi b = POS_INF -> hg = Millisecond /\ hc = Definite;
}.

Lemma code_0_gran g : Granularity.code g = 0 <-> g = Millisecond.
Proof. by destruct g. Qed.
Lemma code_0_cert c : Certainty.code c = 0 <-> c = Definite.
Proof. by destruct c. Qed.

Lemma validate_spec b : is_u64 (meta b) ->
  validate b = Ok tt <-> lo b < hi b /\ exists lg hg lc hc, fields_are b lg hg lc hc.
Proof.
  intros Hm. unfold validate. destruct (Z.leb_spec (hi b) (lo b)); [split; [done|lia]|].
  split.
  - intros Hv. split; [done|].
    destruct (Z.ltb_spec 10 (lo_gran_code (meta b))); [done|].
    destruct (Z.ltb_spec 10 (hi_gran_code (meta b))); [done|].
    destruct (Z.eqb_spec (field (meta b) 48 15) 0); [|done].
    destruct (Z.eqb_spec (field (meta b) 32 0xFFFF) 0); [|done].
    destruct (Z.eqb_spec (Z.land (meta b) 0xFFFFFFFF) 0); [|done]. cbn in Hv.
    destruct (meta_fields (meta b)) as (lg & hg & lc & hc & He); [done..|]. exists lg, hg, lc, hc.
    rewrite He in Hv. destruct (fields_of_build lg hg lc hc) as (_ & E1 & E2 & E3 & E4 & _).
    rewrite E1, E2, E3, E4 in Hv. split; [done| |].
    + intros Hl. apply Z.eqb_eq in Hl. rewrite Hl in Hv. cbn [andb] in Hv.
      destruct (Z.eqb_spec (Granularity.code lg) 0); [|done]. destruct (Z.eqb_spec (Certainty.code lc) 0); [|done].
      split; [by apply code_0_gran|by apply code_0_cert].
    + intros Hl. apply Z.eqb_eq in Hl. rewrite Hl in Hv. cbn [andb] in Hv.
      destruct (_ && _); [done|].
      destruct (Z.eqb_spec (Granularity.code hg) 0); [|done]. destruct (Z.eqb_spec (Certainty.code hc) 0); [|done].
      split; [by apply code_0_gran|by apply code_0_cert].
  - intros [_ (lg & hg & lc & hc & [He Hl Hh])]. rewrite He.
    destruct (fields_of_build lg hg lc hc) as (_ & -> & -> & -> & -> & -> & -> & ->). cbn [negb orb].
    pose proof (gran_code_bound lg). pose proof (gran_code_bound hg).
    rewrite (proj2 (Z.ltb_ge 10 _)), (proj2 (Z.ltb_ge 10 _)) by lia. cbn.
    destruct (Z.eqb_spec (lo b) NEG_INF) as [E|]; cbn; [destruct (Hl E) as [-> ->]; cbn|];
      (destruct (Z.eqb_spec (hi b) POS_INF) as [E'|]; cbn; [destruct (Hh E') as [-> ->]; cbn|]); done.
Qed.

Lemma valid_fields b : valid b ->
  lo b < hi b /\ exists lg hg lc hc, fields_are b lg hg lc hc
    /\ lo_granularity b = Some lg /\ hi_granularity b = Some hg /\ lo_certainty b = Some lc /\ hi_certainty b = Some hc.
Proof.
  intros (_ & _ & Hm & Hv). apply validate_spec in Hv as [Hlt (lg & hg & lc & hc & Hf)]; [|done].
  split; [done|]. exists lg, hg, lc, hc. split; [done|].
  unfold lo_granularity, hi_granularity, lo_certainty, hi_certainty. rewrite (fa_meta _ _ _ _ _ Hf).
  destruct (fields_of_build lg hg lc hc) as (_ & -> & -> & -> & -> & _).
  by rewrite !gran_from_to, !cert_from_to.
Qed.

Lemma new_ok l h m b : new l h m = Ok b <-> b = mkBtic l h m /\ validate b = Ok tt.
Proof.
  unfold new. rewrite rbind_Ok. split.
  - intros ([] & H & [= <-]). done.
  - intros [-> H]. by exists tt.
Qed.

Lemma new_result l h lg hg lc hc : is_i64 l -> is_i64 h -> l < h ->
  let b := mkBtic l h (build_result_meta l h lg hg lc hc) in
  new l h (build_result_meta l h lg hg lc hc) = Ok b /\ valid b.
Proof.
  intros Hl Hh Hlt b. assert (Hf : exists lg' hg' lc' hc', fields_are b lg' hg' lc' hc').
  { unfold b, build_result_meta. destruct (Z.eqb_spec l NEG_INF), (Z.eqb_spec h POS_INF); eexists _, _, _, _;
      (split; [reflexivity|cbn; intros; subst..]); done || (by exfalso). }
  assert (Hu : is_u64 (meta b)).
  { destruct Hf as (lg' & hg' & lc' & hc' & [-> _ _]). apply fields_of_build. }
  assert (Hv : validate b = Ok tt) by (apply validate_spec; done).
  split; [by apply new_ok|done].
Qed.

Lemma bound_meta_valid b side : valid b -> exists g c, bound_meta b side = Some (g, c).
Proof.
  intros (_ & lg & hg & lc & hc & _ & E1 & E2 & E3 & E4)%valid_fields. destruct side; cbn;
    [rewrite E1, E3|rewrite E2, E4]; cbn; eauto.
Qed.

Lemma pick_valid a b side pick : valid a -> valid b -> exists g c, pick_bound_meta a b side pick = Some (g, c).
Proof.
  intros (ga & ca & Ea)%(bound_meta_valid a side) (gb & cb & Eb)%(bound_meta_valid b side).
  unfold pick_bound_meta. rewrite Ea, Eb. cbn. destruct (_ ?= _); [eauto| |]; case_decide; eauto.
Qed.

(** ** Where the metadata of a result comes from *)

(** The metadata of bound [rs] of [r] is that of the bound [s] it was taken
    from; where both operands have that bound, the finer granularity and the
    lesser certainty. *)
Definition inherits (r : Btic) (rs : BoundSide) (a b : Btic) (s : BoundSide) : Prop :=
  if decide (bound_val a s = bound_val b s) then
    exists ga ca gb cb, bound_meta a s = Some (ga, ca) /\ bound_meta b s = Some (gb, cb)
      /\ bound_meta r rs = Some (Granularity.finer ga gb, Certainty.least_certain ca cb)
  else exists x, (x = a \/ x = b) /\ bound_val x s = bound_val r rs /\ bound_meta r rs = bound_meta x s.

Definition chosen (pick : comparison) : Z -> Z -> Z := match pick with Lt => Z.min | _ => Z.max end.

Lemma pick_inherits a b s pick g c r rs :
  pick = Lt \/ pick = Gt -> pick_bound_meta a b s pick = Some (g, c) ->
  bound_val r rs = chosen pick (bound_val a s) (bound_val b s) -> bound_meta r rs = Some (g, c) ->
  inherits r rs a b s.
Proof.
  intros Hp Hk Hv Hm. unfold pick_bound_meta in Hk. unfold inherits.
  destruct (bound_meta a s) as [[ga ca]|] eqn:Ea; [|done]. destruct (bound_meta b s) as [[gb cb]|] eqn:Eb; [|done].
  cbn in Hk. injection Hk as Hk. destruct (decide (bound_val a s = bound_val b s)) as [Hd|Hd].
  { rewrite Hd, Z.compare_refl in Hk. exists ga, ca, gb, cb. by rewrite Hm, Hk. }
  destruct (Z.compare_spec (bound_val a s) (bound_val b s)) as [?|Hlt|Hgt]; [done| |];
    case_decide as Hc; injection Hk as -> ->; rewrite Hm, Hv.
  - subst pick. exists a. split_and!; [by left|cbn; lia|done].
  - destruct Hp as [-> | ->]; [done|]. exists b. split_and!; [by right|cbn; lia|done].
  - subst pick. exists a. split_and!; [by left|cbn; lia|done].
  - destruct Hp as [-> | ->]; [|done]. exists b. split_and!; [by right|cbn; lia|done].
Qed.

Lemma sentinel_meta x : valid x ->
  (lo x = NEG_INF -> bound_meta x Lo = Some (Millisecond, Definite))
  /\ (hi x = POS_INF -> bound_meta x Hi = Some (Millisecond, Definite)).
Proof.
  intros (_ & lg & hg & lc & hc & [_ Hl Hh] & E1 & E2 & E3 & E4)%valid_fields. cbn. rewrite E1, E2, E3, E4.
  split; [intros [-> ->]%Hl|intros [-> ->]%Hh]; done.
Qed.

(** A picked sentinel bound has the metadata a sentinel must have. *)
Lemma pick_sentinel a b s pick g c : valid a -> valid b -> pick = Lt \/ pick = Gt ->
  pick_bound_meta a b s pick = Some (g, c) ->
  (s = Lo /\ chosen pick (lo a) (lo b) = NEG_INF) \/ (s = Hi /\ chosen pick (hi a) (hi b) = POS_INF) ->
  g = Millisecond /\ c = Definite.
Proof.
  intros Ha Hb Hp Hk Hs.
  assert (Hx : forall x, valid x -> bound_val x s = chosen pick (bound_val a s) (bound_val b s) ->
                 bound_meta x s = Some (Millisecond, Definite)).
  { intros x Hx E. destruct (sentinel_meta x Hx) as [H1 H2].
    destruct Hs as [[-> Hs] | [-> Hs]]; [apply H1|apply H2]; by rewrite <- Hs. }
  assert (Hd : forall x gx cx, valid x -> bound_val x s = chosen pick (bound_val a s) (bound_val b s) ->
             bound_meta x s = Some (gx, cx) -> (gx, cx) = (g, c) -> g = Millisecond /\ c = Definite).
  { intros x gx cx Hv E Em [= <- <-]. rewrite (Hx x Hv E) in Em. by injection Em as <- <-. }
  unfold pick_bound_meta in Hk.
  destruct (bound_meta a s) as [[ga ca]|] eqn:Ea; [|done]. destruct (bound_meta b s) as [[gb cb]|] eqn:Eb; [|done].
  cbn in Hk. injection Hk as Hk.
  destruct (Z.compare_spec (bound_val a s) (bound_val b s)) as [E|Hlt|Hgt].
  - assert (bound_val a s = chosen pick (bound_val a s) (bound_val b s)) by (destruct Hp as [-> | ->]; cbn; lia).
    specialize (Hx a Ha ltac:(done)) as Xa. assert (Xb : bound_meta b s = Some (Millisecond, Definite)).
    { apply Hx; [done|]. by rewrite <- H, E. }
    rewrite Ea in Xa. rewrite Eb in Xb. injection Xa as -> ->. injection Xb as -> ->. by injection Hk as <- <-.
  - destruct Hp as [-> | ->]; case_decide; try done.
    + by apply (Hd a ga ca); [|cbn; lia| |].
    + by apply (Hd b gb cb); [|cbn; lia| |].
  - destruct Hp as [-> | ->]; case_decide; try done.
    + by apply (Hd b gb cb); [|cbn; lia| |].
    + by apply (Hd a ga ca); [|cbn; lia| |].
Qed.

Lemma result_bounds l h lg hg lc hc :
  (l = NEG_INF -> lg = Millisecond /\ lc = Definite) -> (h = POS_INF -> hg = Millisecond /\ hc = Definite) ->
  let r := mkBtic l h (build_result_meta l h lg hg lc hc) in
  bound_meta r Lo = Some (lg, lc) /\ bound_meta r Hi = Some (hg, hc).
Proof.
  intros Hl Hh r. assert (E : meta r = build_meta lg hg lc hc).
  { unfold r, build_result_meta. cbn [meta].
    destruct (Z.eqb_spec l NEG_INF) as [E1|]; [destruct (Hl E1) as [-> ->]|];
      (destruct (Z.eqb_spec h POS_INF) as [E2|]; [destruct (Hh E2) as [-> ->]|]); done. }
  unfold bound_meta, lo_granularity, hi_granularity, lo_certainty, hi_certainty. rewrite E.
  destruct (fields_of_build lg hg lc hc) as (_ & -> & -> & -> & -> & _). by rewrite !gran_from_to, !cert_from_to.
Qed.

(** One set operation: the metadata of its two bounds is picked, so it
    constructs a valid interval between them. *)
Lemma built a b (l h : Z) (sl sh : BoundSide) (pl ph : comparison) :
  valid a -> valid b -> pl = Lt \/ pl = Gt -> ph = Lt \/ ph = Gt -> is_i64 l -> is_i64 h -> l < h ->
  l = chosen pl (bound_val a sl) (bound_val b sl) -> h = chosen ph (bound_val a sh) (bound_val b sh) ->
  (l = NEG_INF -> sl = Lo) -> (h = POS_INF -> sh = Hi) ->
  exists lg lc hg hc,
    pick_bound_meta a b sl pl = Some (lg, lc) /\ pick_bound_meta a b sh ph = Some (hg, hc)
    /\ let r := mkBtic l h (build_result_meta l h lg hg lc hc) in
       new l h (build_result_meta l h lg hg lc hc) = Ok r /\ valid r
       /\ inherits r Lo a b sl /\ inherits r Hi a b sh.
Proof.
  intros Ha Hb Hpl Hph Hl Hh Hlt El Eh Sl Sh.
  destruct (pick_valid a b sl pl Ha Hb) as (lg & lc & Pl). destruct (pick_valid a b sh ph Ha Hb) as (hg & hc & Ph).
  exists lg, lc, hg, hc. split; [done|]. split; [done|]. intros r.
  destruct (new_result l h lg hg lc hc Hl Hh Hlt) as [Hn Hv].
  destruct (result_bounds l h lg hg lc hc) as [Rl Rh].
  { intros E. apply (pick_sentinel a b sl pl lg lc Ha Hb Hpl Pl). left. pose proof (Sl E) as ->. split; [done|]. cbn in El. by rewrite <- El. }
  { intros E. apply (pick_sentinel a b sh ph hg hc Ha Hb Hph Ph). right. pose proof (Sh E) as ->. split; [done|]. cbn in Eh. by rewrite <- Eh. }
  split; [done|]. split; [done|].
  split; [by apply (pick_inherits a b sl pl lg lc)|by apply (pick_inherits a b sh ph hg hc)].
Qed.

Ltac interval_lia := unfold contains, contains_point, overlaps, NEG_INF, POS_INF in *;
  cbn [lo hi bound_val chosen] in *; int_lia.

Lemma valid_bounds b : valid b -> is_i64 (lo b) /\ is_i64 (hi b) /\ lo b < hi b.
Proof. intros Hb. destruct (valid_fields b Hb) as [? _]. by destruct Hb as (? & ? & _). Qed.

Lemma intersection_spec a b : valid a -> valid b ->
  exists i, intersection a b = Some i
    /\ (forall p, contains_point a p && contains_point b p
                  = match i with Some i => contains_point i p | None => false end)
    /\ (forall r, i = Some r -> valid r /\ inherits r Lo a b Lo /\ inherits r Hi a b Hi).
Proof.
  intros Ha Hb. pose proof (valid_bounds a Ha) as (? & ? & ?). pose proof (valid_bounds b Hb) as (? & ? & ?).
  unfold intersection. destruct (Z.leb_spec (Z.min (hi a) (hi b)) (Z.max (lo a) (lo b))).
  { exists None. split; [done|]. split; [|done]. intros p. interval_lia. }
  destruct (built a b (Z.max (lo a) (lo b)) (Z.min (hi a) (hi b)) Lo Hi Gt Lt)
    as (lg & lc & hg & hc & Hp1 & Hp2 & Hn & Hr); [done|done|by right|by left|int_lia|int_lia|lia|done|done|done|done|].
  rewrite Hp1, Hp2. cbn [mbind option_bind]. rewrite Hn. cbn [ok]. eexists. split; [reflexivity|]. split; [|by intros r [= <-]]. intros p. interval_lia.
Qed.

Lemma span_spec a b : valid a -> valid b ->
  exists s, span a b = Some s /\ valid s /\ lo s = Z.min (lo a) (lo b) /\ hi s = Z.max (hi a) (hi b)
    /\ inherits s Lo a b Lo /\ inherits s Hi a b Hi.
Proof.
  intros Ha Hb. pose proof (valid_bounds a Ha) as (? & ? & ?). pose proof (valid_bounds b Hb) as (? & ? & ?).
  unfold span.
  destruct (built a b (Z.min (lo a) (lo b)) (Z.max (hi a) (hi b)) Lo Hi Lt Gt)
    as (lg & lc & hg & hc & Hp1 & Hp2 & Hn & Hr & Hi1 & Hi2); [done|done|by left|by right|int_lia|int_lia|lia|done|done|done|done|].
  rewrite Hp1, Hp2. cbn [mbind option_bind]. rewrite Hn. cbn [ok]. eexists. split; [reflexivity|]. done.
Qed.

Lemma gap_spec a b s : valid a -> valid b -> span a b = Some s ->
  exists g, gap a b = Some g
    /\ (forall p, contains_point s p && negb (contains_point a p) && negb (contains_point b p)
                  = match g with Some g => contains_point g p | None => false end)
    /\ (forall r, g = Some r -> valid r /\ inherits r Lo a b Hi /\ inherits r Hi a b Lo).
Proof.
  intros Ha Hb Hs. pose proof (valid_bounds a Ha) as (? & ? & ?). pose proof (valid_bounds b Hb) as (? & ? & ?).
  destruct (span_spec a b Ha Hb) as (s' & Hs' & _ & Hl & Hh & _). simplify_eq.
  unfold gap. destruct (Z.leb_spec (Z.max (lo a) (lo b)) (Z.min (hi a) (hi b))).
  { exists None. split; [done|]. split; [|done]. intros p. interval_lia. }
  destruct (built a b (Z.min (hi a) (hi b)) (Z.max (lo a) (lo b)) Hi Lo Lt Gt)
    as (lg & lc & hg & hc & Hp1 & Hp2 & Hn & Hr); [done|done|by left|by right|int_lia|int_lia|lia|done|done|interval_lia|interval_lia|].
  rewrite Hp1, Hp2. cbn [mbind option_bind]. rewrite Hn. cbn [ok]. eexists. split; [reflexivity|]. split; [|by intros r [= <-]]. intros p. interval_lia.
Qed.

(** The set operations of valid intervals never fail and compute what
    their names say, point by point: the intersection holds the common points,
    the span is the smallest valid interval holding both, the gap holds the
    points of the span in neither.  Every result is a valid interval whose
    bounds carry the metadata of the bounds they came from. *)
Theorem btic_set_operations (a b : Btic) : valid a -> valid b ->
  (exists i, intersection a b = Some i
     /\ (forall p, contains_point a p && contains_point b p
                   = match i with Some i => contains_point i p | None => false end)
     /\ (forall r, i = Some r -> valid r /\ inherits r Lo a b Lo /\ inherits r Hi a b Hi))
  /\ (exists s, span a b = Some s /\ valid s /\ contains s a = true /\ contains s b = true
      /\ (forall c, contains c a = true -> contains c b = true -> contains c s = true)
      /\ inherits s Lo a b Lo /\ inherits s Hi a b Hi
      /\ exists g, gap a b = Some g
         /\ (forall p, contains_point s p && negb (contains_point a p) && negb (contains_point b p)
                       = match g with Some g => contains_point g p | None => false end)
         /\ (forall r, g = Some r -> valid r /\ inherits r Lo a b Hi /\ inherits r Hi a b Lo)).
Proof.
  intros Ha Hb. split; [by apply intersection_spec|].
  destruct (span_spec a b Ha Hb) as (s & Hs & Hv & Hl & Hh & Hi1 & Hi2). exists s.
  split_and!; [done..|interval_lia|interval_lia| |done|done|by apply gap_spec].
  intros c. interval_lia.
Qed.

(** ** The packed form keeps values and order *)

Lemma flip_small x : 0 <= x < 2 ^ 63 -> Z.lxor x SIGN_FLIP = x + 2 ^ 63.
Proof.
  intros Hx. change SIGN_FLIP with (2 ^ 63). symmetry. apply Z.add_nocarry_lxor. apply Z.bits_inj'. intros n Hn.
  rewrite Z.land_spec, Z.bits_0, Z.pow2_bits_eqb by lia. destruct (Z.eqb_spec 63 n) as [<-|]; [|by rewrite andb_false_r].
  rewrite andb_true_r. rewrite Z.testbit_odd, Z.shiftr_div_pow2, Z.div_small by lia. done.
Qed.

Lemma flip_i64 z : is_i64 z -> Z.lxor (as_u64 z) SIGN_FLIP = z + 2 ^ 63.
Proof.
  intros Hz. unfold as_u64. destruct (Z.le_gt_cases 0 z).
  - rewrite Z.mod_small by int_lia. apply flip_small. int_lia.
  - rewrite <- (Z.mod_unique z (2 ^ 64) (-1) (z + 2 ^ 64)) by (unfold is_i64 in *; lia).
    replace (z + 2 ^ 64) with (z + 2 ^ 63 + 2 ^ 63) by lia. rewrite <- (flip_small (z + 2 ^ 63)) by int_lia.
    by rewrite Z.lxor_assoc, Z.lxor_nilpotent, Z.lxor_0_r.
Qed.

Lemma unflip_i64 z : is_i64 z -> as_i64 (Z.lxor (Z.lxor (as_u64 z) SIGN_FLIP) SIGN_FLIP) = z.
Proof. intros Hz. by rewrite Z.lxor_assoc, Z.lxor_nilpotent, Z.lxor_0_r, as_i64_as_u64. Qed.

Lemma flip_is_u64 z : is_i64 z -> is_u64 (Z.lxor (as_u64 z) SIGN_FLIP).
Proof. intros Hz. rewrite flip_i64 by done. int_lia. Qed.

Lemma flip_unflip u : is_u64 u -> Z.lxor (as_u64 (as_i64 (Z.lxor u SIGN_FLIP))) SIGN_FLIP = u.
Proof.
  intros Hu. assert (Hx : is_u64 (Z.lxor u SIGN_FLIP)).
  { unfold is_u64 in *. split; [apply Z.lxor_nonneg; unfold SIGN_FLIP; lia|].
    destruct (Z.le_gt_cases (2 ^ 63) u).
    - replace u with (Z.lxor (u - 2 ^ 63) SIGN_FLIP) by (rewrite flip_small; lia).
      rewrite Z.lxor_assoc, Z.lxor_nilpotent, Z.lxor_0_r. lia.
    - rewrite flip_small; lia. }
  by rewrite as_u64_as_i64, Z.lxor_assoc, Z.lxor_nilpotent, Z.lxor_0_r.
Qed.

Lemma word_to_be z : is_u64 z -> word (to_be_bytes 8 z) = z.
Proof. intros [? ?]. unfold word. rewrite from_to_be_bytes. apply Z.mod_small. done. Qed.

Lemma word_is_u64 bs : Forall is_u8 bs -> length bs = 8%nat -> is_u64 (word bs).
Proof.
  intros Hb Hl. unfold word. rewrite <- (to_from_be_bytes bs Hb) at 1. rewrite from_to_be_bytes, Hl.
  unfold is_u64. by apply Z.mod_pos_bound.
Qed.

Lemma be_word bs : Forall is_u8 bs -> length bs = 8%nat -> to_be_bytes 8 (word bs) = bs.
Proof. intros Hb Hl. rewrite <- Hl. by apply to_from_be_bytes. Qed.

Lemma length_encode b : length (encode b) = 24%nat.
Proof. unfold encode. by rewrite !length_app, !length_to_be_bytes. Qed.

Lemma btic_encode_decode b : valid b -> decode_slice (encode b) = Ok b.
Proof.
  intros (Hl & Hh & Hm & Hv). unfold decode_slice. rewrite length_encode. cbn [Nat.eqb negb]. unfold decode, encode.
  assert (H3 : forall x y z : list Z, length x = 8%nat -> length y = 8%nat -> length z = 8%nat ->
             take 8 (x ++ y ++ z) = x /\ take 8 (drop 8 (x ++ y ++ z)) = y /\ take 8 (drop 16 (x ++ y ++ z)) = z).
  { intros x y z Hx Hy Hz. split_and!.
    - by apply take_app_length'.
    - rewrite drop_app_length' by done. by apply take_app_length'.
    - rewrite app_assoc, drop_app_length' by (rewrite length_app; lia). by apply firstn_all2; lia. }
  destruct (H3 (to_be_bytes 8 (Z.lxor (as_u64 (lo b)) SIGN_FLIP)) (to_be_bytes 8 (Z.lxor (as_u64 (hi b)) SIGN_FLIP))
              (to_be_bytes 8 (meta b))) as (-> & -> & ->); [apply length_to_be_bytes..|].
  rewrite !word_to_be by first [done|by apply flip_is_u64]. rewrite !unflip_i64 by done.
  apply new_ok. by destruct b.
Qed.

Lemma btic_decode_encode bytes b : Forall is_u8 bytes -> decode_slice bytes = Ok b -> encode b = bytes /\ valid b.
Proof.
  intros Hb. unfold decode_slice. destruct (Nat.eqb_spec (length bytes) 24) as [Hl|]; [|done]. cbn [negb].
  unfold decode. rewrite new_ok. intros [-> Hv].
  assert (Hs : forall n, (n + 8 <= 24)%nat -> Forall is_u8 (take 8 (drop n bytes)) /\ length (take 8 (drop n bytes)) = 8%nat).
  { intros n Hn. split; [by apply Forall_take, Forall_drop|]. rewrite length_take, length_drop. lia. }
  destruct (Hs 0%nat ltac:(lia)) as [F0 L0']. rewrite drop_0 in F0, L0'.
  destruct (Hs 8%nat ltac:(lia)) as [F1 L1]. destruct (Hs 16%nat ltac:(lia)) as [F2 L2]. split.
  - unfold encode. cbn [lo hi meta]. rewrite !flip_unflip by by apply word_is_u64. rewrite !be_word by done.
    rewrite <- (take_drop 8 bytes) at 4. f_equal. rewrite <- (take_drop 8 (drop 8 bytes)) at 2. f_equal.
    rewrite drop_drop. apply firstn_all2. rewrite length_drop. lia.
  - split_and!; cbn [lo hi meta]; auto with ints. by apply word_is_u64.
Qed.

Lemma then_cmp_assoc a b c : then_cmp (then_cmp a b) c = then_cmp a (then_cmp b c).
Proof. by destruct a. Qed.

Lemma encode_order a b : valid a -> valid b -> memcmp (encode a) (encode b) = cmp a b.
Proof.
  intros (La & Ha & Ma & _) (Lb & Hb & Mb & _). unfold encode, cmp.
  rewrite !memcmp_app by (by rewrite !length_to_be_bytes). rewrite then_cmp_assoc.
  rewrite !memcmp_to_be_bytes by first [done|by apply flip_is_u64].
  by rewrite !flip_i64, !(Z.add_comm _ (2 ^ 63)), !Z.add_compare_mono_l.
Qed.

(** C37: the packed form is canonical.  Encoding a valid interval gives 24
    bytes that decode to it; whatever decodes is valid and re-encodes to the
    same bytes; and comparing encodings as byte strings is comparing the
    intervals by lower bound, upper bound and meta word, so that granularity and
    certainty order intervals of the same bounds. *)
Theorem btic_encoding_canonical (a b : Btic) (bytes : list Z) :
  valid a -> Forall is_u8 bytes ->
  length (encode a) = 24%nat /\ Forall is_u8 (encode a) /\ decode_slice (encode a) = Ok a
  /\ (decode_slice bytes = Ok b -> encode b = bytes /\ valid b)
  /\ (valid b -> memcmp (encode a) (encode b) = cmp a b).
Proof.
  intros Ha Hb. split_and!; [apply length_encode| |by apply btic_encode_decode|by apply btic_decode_encode|by apply encode_order].
  unfold encode. rewrite !Forall_app. split_and!; apply to_be_bytes_u8.
Qed.

(** C38: construction is exactly the invariant.  [Btic::new] on 64-bit words
    accepts a value when its bounds are ordered and its meta word is one
    [build_meta] makes, with zeroed metadata on an infinite bound; the
    accessors of what it returns never panic and give back those four fields;
    and the duration of the result is its exact positive width, or absent when
    a bound is infinite or the width does not fit 64 bits. *)
Theorem btic_construction_exact (l h m : Z) :
  is_i64 l -> is_i64 h -> is_u64 m ->
  (is_ok (new l h m) = true <->
     l < h /\ exists lg hg lc hc, m = build_meta lg hg lc hc
       /\ (l = NEG_INF -> lg = Millisecond /\ lc = Definite) /\ (h = POS_INF -> hg = Millisecond /\ hc = Definite))
  /\ (forall b, new l h m = Ok b ->
       (exists lg hg lc hc, m = build_meta lg hg lc hc /\ lo_granularity b = Some lg /\ hi_granularity b = Some hg
          /\ lo_certainty b = Some lc /\ hi_certainty b = Some hc)
       /\ (forall d, duration_ms b = Some d <-> is_finite b = true /\ d = h - l /\ 0 < d <= I64_MAX)).
Proof.
  intros Hl Hh Hm. split.
  - pose proof (validate_spec (mkBtic l h m) Hm) as Hs. cbn [lo hi] in Hs. unfold new.
    destruct (validate (mkBtic l h m)) as [[]|e]; cbn [rbind is_ok].
    + split; [intros _|done]. destruct (proj1 Hs eq_refl) as [Hlt (lg & hg & lc & hc & [E1 E2 E3])].
      split; [done|]. by exists lg, hg, lc, hc.
    + split; [done|]. intros [Hlt (lg & hg & lc & hc & E1 & E2 & E3)].
      enough (Err e = Ok tt) by done. apply Hs. split; [done|]. by exists lg, hg, lc, hc.
  - intros b [-> Hv]%new_ok.
    assert (Hval : valid (mkBtic l h m)) by done. destruct (valid_fields _ Hval) as [Hlt (lg & hg & lc & hc & Hf & Ha)].
    split; [exists lg, hg, lc, hc; split; [exact (fa_meta _ _ _ _ _ Hf)|done]|].
    intros d. unfold duration_ms, is_finite, is_unbounded. cbn [lo hi] in *.
    destruct ((l =? NEG_INF) || (h =? POS_INF)); cbn [negb]; [split; [done|by intros [? _]]|].
    unfold checked_sub_i64. destruct ((I64_MIN <=? h - l) && (h - l <=? I64_MAX)) eqn:Hd; split.
    + intros [= <-]. split; [done|]. split; [done|]. int_lia.
    + by intros (_ & -> & _).
    + done.
    + intros (_ & -> & Hb). exfalso. int_lia.
Qed.

(** The predicates mean what they say about points.  For valid intervals,
    [overlaps] holds exactly when they share a point and [disjoint] is its
    negation, before or after; [contains] is inclusion of points and splits
    into equality, starts, during and finishes; [before] orders every pair of
    points; adjacent intervals are disjoint; equality is containment both
    ways. *)
Theorem btic_predicates_by_points (a b : Btic) : valid a -> valid b ->
  (overlaps a b = true <-> exists p, contains_point a p = true /\ contains_point b p = true)
  /\ disjoint a b = negb (overlaps a b) /\ disjoint a b = before a b || after a b
  /\ (contains a b = true <-> forall p, contains_point b p = true -> contains_point a p = true)
  /\ (before a b = true <-> forall p q, contains_point a p = true -> contains_point b q = true -> p < q)
  /\ (contains a b = btic_equals a b || starts b a || during b a || finishes b a)
  /\ adjacent a b = meets a b || meets b a
  /\ (adjacent a b = true -> disjoint a b = true)
  /\ (btic_equals a b = true <-> contains a b = true /\ contains b a = true).
Proof.
  intros (Ia & Ja & La)%valid_bounds (Ib & Jb & Lb)%valid_bounds.
  unfold overlaps, disjoint, before, after, contains, btic_equals, starts, during, finishes, adjacent, meets, contains_point.
  split_and!; try lia; split.
  - intros H. exists (Z.max (lo a) (lo b)). lia.
  - intros (p & H). lia.
  - intros H p. lia.
  - intros H. pose proof (H (lo b)). pose proof (H (hi b - 1)). lia.
  - intros H p q. lia.
  - intros H. pose proof (H (hi a - 1) (lo b)). lia.
Qed.

(** ** Examples *)

Module Examples.
(** The year 1985 to within a year, and an interval from 1985-06 on. *)
Definition y1985 : Btic := mkBtic 473385600000 504921600000 (build_meta Year Year Definite Definite).
Definition from1985 : Btic := mkBtic 486432000000 POS_INF (build_meta Month Millisecond Approximate Definite).

Lemma y1985_valid : valid y1985.
Proof. repeat split; vm_compute; congruence. Qed.
Lemma from1985_valid : valid from1985.
Proof. repeat split; vm_compute; congruence. Qed.

Lemma btic_set_operations_witness :
  exists r, intersection y1985 from1985 = Some (Some r) /\ valid r /\ lo_certainty r = Some Approximate.
Proof.
  destruct (btic_set_operations y1985 from1985 y1985_valid from1985_valid) as [(i & Hi & _ & Hv) _].
  destruct i as [r|]; [|vm_compute in Hi; discriminate Hi]. exists r. split; [exact Hi|].
  destruct (Hv r eq_refl) as [Hr _]. split; [exact Hr|]. vm_compute in Hi. injection Hi as <-. reflexivity.
Defined.

Lemma btic_encoding_canonical_witness :
  decode_slice (encode y1985) = Ok y1985 /\ memcmp (encode y1985) (encode from1985) = Lt.
Proof.
  destruct (btic_encoding_canonical y1985 from1985 [] y1985_valid ltac:(constructor)) as (_ & _ & H1 & _ & H2).
  split; [exact H1|]. rewrite (H2 from1985_valid). reflexivity.
Defined.

(** Two intervals of the same bounds, known to the year and to the month, and
    one whose bounds are approximate: metadata alone orders them, in [cmp] and
    in the encoded bytes. *)
Theorem metadata_orders_intervals :
  let month := mkBtic (lo y1985) (hi y1985) (build_meta Month Month Definite Definite) in
  let approximate := mkBtic (lo y1985) (hi y1985) (build_meta Year Year Approximate Approximate) in
  valid month /\ valid approximate /\ cmp month y1985 = Lt /\ cmp y1985 approximate = Lt
  /\ memcmp (encode month) (encode y1985) = Lt /\ memcmp (encode y1985) (encode approximate) = Lt.
Proof. cbv zeta. split; [repeat split; vm_compute; congruence|]. split; [repeat split; vm_compute; congruence|]. split_and!; vm_compute; reflexivity. Qed.

Lemma btic_construction_exact_witness :
  is_ok (new 473385600000 504921600000 (build_meta Year Year Definite Definite)) = true
  /\ duration_ms y1985 = Some 31536000000.
Proof.
  destruct (btic_construction_exact 473385600000 504921600000 (build_meta Year Year Definite Definite)) as [H1 H2].
  - split; vm_compute; congruence.
  - split; vm_compute; congruence.
  - split; vm_compute; congruence.
  - split; [apply H1; split; [lia|]; exists Year, Year, Definite, Definite; split; [reflexivity|]; split; discriminate|].
    apply (H2 y1985); [reflexivity|]. vm_compute. split; [reflexivity|]. split; [reflexivity|]. split; congruence.
Defined.

Lemma btic_predicates_by_points_witness :
  overlaps y1985 from1985 = true /\ disjoint y1985 from1985 = false.
Proof.
  destruct (btic_predicates_by_points y1985 from1985 y1985_valid from1985_valid) as (_ & -> & _).
  split; reflexivity.
Defined.
End Examples.
