(* ===== verification/Projection.v ===== *)
(** * Graph projections: dense ids and CSR arrays

    crates/uni-algo/src/algo/id_map.rs (the mapping between sparse vertex ids
    and dense slots) and projection.rs ([GraphProjection], [build_csr],
    [from_dense_edges]).  Slots, degrees and offsets are u32: their additions
    are [u32_add], [None] at 2^32, and a length becomes a slot with [slot_u32].
    A weight is an element of a type with [f64::total_cmp]; out-of-range indexing is [None].
    Property columns are the ones the CSR permutes; the storage-backed builder
    that collects the edges is not modelled. *)

From S2P Require Import Prelude.

(** [f64::total_cmp]: a total order on bit patterns. *)
Class TotalCmp (W : Type) := {
  total_cmp : W -> W -> comparison;
  total_cmp_eq x y : total_cmp x y = Eq <-> x = y;
  total_cmp_opp x y : total_cmp y x = CompOpp (total_cmp x y);
  total_cmp_trans x y z : total_cmp x y = Lt -> total_cmp y z = Lt -> total_cmp x z = Lt;
}.

(** [a + b] on u32; [None] is the overflow (a panic where overflow is checked). *)
Definition u32_add (a b : nat) : option nat := if Z.of_nat (a + b) <? 2 ^ 32 then Some (a + b)%nat else None.
(** [x as u32] *)
Definition slot_u32 (x : nat) : nat := Z.to_nat (Z.of_nat x mod 2 ^ 32).

Lemma u32_add_fits a b : Z.of_nat (a + b) < 2 ^ 32 -> u32_add a b = Some (a + b)%nat.
Proof. intros H. unfold u32_add. by rewrite (proj2 (Z.ltb_lt _ _) H). Qed.
Lemma slot_u32_fits x : Z.of_nat x < 2 ^ 32 -> slot_u32 x = x.
Proof. intros H. unfold slot_u32. rewrite Z.mod_small by lia. lia. Qed.

(** ** Ids *)

Record IdMap := mkIdMap { slot_to_vid : list Z; vid_to_slot : option (gmap Z nat) }.

Module IdMap.
Definition new : IdMap := mkIdMap [] (Some ∅).

(** [None] is the panic on a compacted map. *)
Definition insert (self : IdMap) (vid : Z) : option (IdMap * nat) :=
  match vid_to_slot self with
  | None => None
  | Some m =>
      match m !! vid with
      | Some slot => Some (self, slot)
      | None =>
          let slot := slot_u32 (length (slot_to_vid self)) in
          Some (mkIdMap (slot_to_vid self ++ [vid]) (Some (<[vid := slot]> m)), slot)
      end
  end.

(** [slice::binary_search]: halve until one candidate is left. *)
Fixpoint search_loop (l : list Z) (vid : Z) (fuel base size : nat) : nat :=
  match fuel with
  | O => base
  | S fuel =>
      if (size <=? 1)%nat then base
      else
        let half := Nat.div2 size in
        let mid := (base + half)%nat in
        search_loop l vid fuel (if default 0 (l !! mid) >? vid then base else mid) (size - half)
  end.
Definition binary_search (l : list Z) (vid : Z) : option nat :=
  let base := search_loop l vid (length l) 0 (length l) in
  match l !! base with Some x => if x =? vid then Some base else None | None => None end.

Definition to_slot (self : IdMap) (vid : Z) : option nat :=
  match vid_to_slot self with
  | Some m => m !! vid
  | None => slot_u32 <$> binary_search (slot_to_vid self) vid
  end.
Definition to_vid (self : IdMap) (slot : nat) : option Z := slot_to_vid self !! slot.
Definition len (self : IdMap) : nat := length (slot_to_vid self).
Definition is_empty (self : IdMap) : bool := Nat.eqb (len self) 0.
Definition contains (self : IdMap) (vid : Z) : bool := match to_slot self vid with Some _ => true | None => false end.
Definition compact (self : IdMap) : IdMap := mkIdMap (slot_to_vid self) None.

(** Inserting a list of ids, as the builders do. *)
Fixpoint insert_all (self : IdMap) (vids : list Z) : option IdMap :=
  match vids with
  | [] => Some self
  | v :: vids => '(self, _) ← insert self v; insert_all self vids
  end.

(** ** Slots and ids are inverse *)

Definition wf (m : IdMap) : Prop :=
  NoDup (slot_to_vid m) /\ Z.of_nat (length (slot_to_vid m)) <= 2 ^ 32
  /\ match vid_to_slot m with
     | Some h => forall v i, h !! v = Some i <-> slot_to_vid m !! i = Some v
     | None => StronglySorted Z.lt (slot_to_vid m)
     end.

Lemma insert_wf m vid m' i : wf m -> Z.of_nat (length (slot_to_vid m)) < 2 ^ 32 -> insert m vid = Some (m', i) ->
  wf m' /\ slot_to_vid m' !! i = Some vid
  /\ slot_to_vid m' = (if decide (vid ∈ slot_to_vid m) then slot_to_vid m else slot_to_vid m ++ [vid]).
Proof.
  intros (Hn & Hle & Hw) Hlt. unfold insert. rewrite (slot_u32_fits _ Hlt). destruct (vid_to_slot m) as [h|] eqn:Eh; [|done].
  destruct (h !! vid) as [s|] eqn:Es; intros [= <- <-].
  - apply Hw in Es as Hs. rewrite decide_True by by eapply list_elem_of_lookup_2.
    split; [split_and!; [done|done|by rewrite Eh]|done].
  - assert (Hnin : vid ∉ slot_to_vid m).
    { intros (s & Hs)%list_elem_of_lookup_1. apply Hw in Hs. congruence. }
    rewrite decide_False by done. unfold wf. cbn [slot_to_vid vid_to_slot]. split_and!; [| | |by rewrite list_lookup_middle|done].
    + apply NoDup_app. split_and!; [done| |apply NoDup_singleton]. by intros x Hx ->%list_elem_of_singleton.
    + rewrite length_app. cbn [length]. lia.
    + intros v i. rewrite lookup_insert, lookup_snoc_Some. case_decide as E; [subst v|].
      * split; [intros [= <-]; by right|]. intros [[_ H]|[-> _]]; [|done]. exfalso. apply Hnin. by eapply list_elem_of_lookup_2.
      * rewrite Hw. split; [intros H; left; split; [by eapply lookup_lt_Some|done]|]. intros [[_ H]|[_ H]]; congruence.
Qed.

Lemma search_loop_ok l vid i : StronglySorted Z.lt l -> l !! i = Some vid -> forall fuel base size,
  (size <= fuel)%nat -> (base <= i < base + size)%nat -> (base + size <= length l)%nat -> search_loop l vid fuel base size = i.
Proof.
  intros Hs Hi. assert (Hlt : forall j x, l !! j = Some x -> x > vid -> (i < j)%nat).
  { intros j x Hj Hx. destruct (lt_eq_lt_dec i j) as [[?| ->]|Hji]; [done|simplify_eq; lia|].
    pose proof (sorted_lookup _ _ _ _ _ _ Hs Hji Hj Hi). lia. }
  assert (Hge : forall j x, l !! j = Some x -> ~ x > vid -> (j <= i)%nat).
  { intros j x Hj Hx. destruct (le_lt_dec j i) as [?|Hij]; [done|].
    pose proof (sorted_lookup _ _ _ _ _ _ Hs Hij Hi Hj). lia. }
  induction fuel as [|fuel IH]; intros base size Hf Hb Hl; [lia|]. cbn [search_loop].
  destruct (Nat.leb_spec size 1); [lia|].
  assert (Hh : (1 <= Nat.div2 size < size)%nat /\ (2 * Nat.div2 size <= size)%nat) by (pose proof (Nat.div2_odd size); destruct (Nat.odd size); cbn in *; lia).
  destruct (lookup_lt_is_Some_2 l (base + Nat.div2 size)) as [x Hx]; [lia|]. rewrite Hx.
  change (default 0 (Some x)) with x. destruct (Z.gtb_spec x vid) as [Hg|Hg].
  - apply IH; [lia| |lia]. specialize (Hlt _ _ Hx ltac:(lia)). lia.
  - apply IH; [lia| |lia]. specialize (Hge _ _ Hx ltac:(lia)). lia.
Qed.

Lemma to_slot_spec m vid i : wf m -> to_slot m vid = Some i <-> to_vid m i = Some vid.
Proof.
  intros (Hn & Hle & Hw). unfold to_slot, to_vid. destruct (vid_to_slot m) as [h|]; [apply Hw|].
  assert (Hfit : forall j x, slot_to_vid m !! j = Some x -> slot_u32 j = j).
  { intros j x Hj%lookup_lt_Some. apply slot_u32_fits. lia. }
  unfold binary_search. split.
  - destruct (slot_to_vid m !! _) as [x|] eqn:Ex; [|done]. destruct (Z.eqb_spec x vid) as [->|]; [|done].
    cbn. intros [= <-]. by rewrite (Hfit _ _ Ex).
  - intros Hi. rewrite (search_loop_ok _ _ i); [|done|done|done| |done].
    + rewrite Hi, Z.eqb_refl. cbn. by rewrite (Hfit _ _ Hi).
    + split; [lia|]. by eapply lookup_lt_Some.
Qed.

Lemma insert_all_new vids : forall m, wf m -> is_Some (vid_to_slot m) -> NoDup vids -> Z.of_nat (length (slot_to_vid m) + length vids) <= 2 ^ 32 ->
  (forall v, v ∈ vids -> v ∉ slot_to_vid m) ->
  exists m', insert_all m vids = Some m' /\ wf m' /\ slot_to_vid m' = slot_to_vid m ++ vids.
Proof.
  induction vids as [|v vids IH]; intros m Hw [h Hh] Hn Hlen Hd; [exists m; by rewrite app_nil_r|].
  apply NoDup_cons in Hn as [Hv Hn]. cbn [insert_all].
  assert (Hi : exists m1 i, insert m v = Some (m1, i) /\ is_Some (vid_to_slot m1)).
  { unfold insert. rewrite Hh. destruct (h !! v) as [i|]; [exists m, i; rewrite Hh|eexists _, _]; split; eauto. }
  destruct Hi as (m1 & i & Hi & Hs). rewrite Hi. cbn [mbind option_bind].
  cbn [length] in Hlen. destruct (insert_wf m v m1 i Hw ltac:(lia) Hi) as (Hw1 & _ & E1). rewrite decide_False in E1 by (apply Hd; by left).
  destruct (IH m1 Hw1 Hs Hn) as (m' & -> & Hw' & E').
  - rewrite E1, length_app. cbn [length]. lia.
  - intros x Hx. rewrite E1. intros [Hin|Hin%list_elem_of_singleton]%elem_of_app; [|by subst x].
    by apply (Hd x); [right|].
  - exists m'. split; [done|]. split; [done|]. by rewrite E', E1, <- app_assoc.
Qed.

Lemma id_map_new_wf : wf new.
Proof. split_and!; [constructor|cbn; lia|]. intros v i. cbn. by rewrite lookup_empty. Qed.
End IdMap.

(** ** CSR arrays *)

Section csr.
  Context {W : Type} `{TC : TotalCmp W}.
  Implicit Types edges : list (nat * nat * W).

Definition e_src (e : nat * nat * W) : nat := e.1.1.
Definition e_dst (e : nat * nat * W) : nat := e.1.2.
Definition e_weight (e : nat * nat * W) : W := e.2.

(** [v[i] += 1] *)
Definition bump (v : list nat) (i : nat) : option (list nat) :=
  x ← v !! i; y ← u32_add x 1; Some (<[i := y]> v).

Fixpoint count_degrees (degrees : list nat) edges : option (list nat) :=
  match edges with
  | [] => Some degrees
  | e :: edges => degrees ← bump degrees (e_src e); count_degrees degrees edges
  end.

(** [offsets[i + 1] = offsets[i] + degrees[i]], from [offsets[0]]. *)
Fixpoint prefix_offsets (start : nat) (degrees : list nat) : option (list nat) :=
  match degrees with
  | [] => Some [start]
  | d :: degrees => next ← u32_add start d; offsets ← prefix_offsets next degrees; Some (start :: offsets)
  end.

(** [perm[csr_position] = original edge index] *)
Fixpoint bucket_fill (perm current : list nat) (edge_i : nat) edges : option (list nat) :=
  match edges with
  | [] => Some perm
  | e :: edges =>
      idx ← current !! e_src e;
      _ ← perm !! idx;
      next ← u32_add idx 1;
      bucket_fill (<[idx := edge_i]> perm) (<[e_src e := next]> current) (S edge_i) edges
  end.

Fixpoint cols_cmp (edge_prop_cols : list (list W)) (a b : nat) : comparison :=
  match edge_prop_cols with
  | [] => Eq
  | col :: cols =>
      match col !! a, col !! b with
      | Some x, Some y => match total_cmp x y with Eq => cols_cmp cols a b | ord => ord end
      | _, _ => Eq
      end
  end.

(** The comparison of two edge indices within a row. *)
Definition edge_cmp edges (edge_prop_cols : list (list W)) (a b : nat) : comparison :=
  match edges !! a, edges !! b with
  | Some x, Some y =>
      then_cmp (then_cmp (Nat.compare (e_dst x) (e_dst y)) (total_cmp (e_weight x) (e_weight y)))
        (cols_cmp edge_prop_cols a b)
  | _, _ => Eq
  end.
Definition edge_le edges (edge_prop_cols : list (list W)) (a b : nat) : Prop := edge_cmp edges edge_prop_cols a b <> Gt.
#[export] Instance edge_le_dec edges cols : RelDecision (edge_le edges cols).
Proof. intros a b. unfold edge_le. apply _. Defined.

(** [perm[start..end].sort_by(..)] for every row. *)
Fixpoint sort_rows edges (cols : list (list W)) (offsets perm : list nat) : list nat :=
  match offsets with
  | start :: (stop :: _) as offsets' =>
      let row := take (stop - start) (drop start perm) in
      sort_rows edges cols offsets' (take start perm ++ merge_sort (edge_le edges cols) row ++ drop stop perm)
  | _ => perm
  end.

Record CsrParts := mkCsr {
  offsets : list nat;
  neighbors : list nat;
  weights : option (list W);
  permuted_cols : list (list W);
}.

Definition build_csr (vertex_count : nat) edges (include_weights : bool) (edge_prop_cols : list (list W)) : option CsrParts :=
  if Nat.eqb vertex_count 0 then Some (mkCsr [O] [] None ((fun _ => []) <$> edge_prop_cols))
  else
    degrees ← count_degrees (replicate vertex_count O) edges;
    offs ← prefix_offsets 0 degrees;
    perm ← bucket_fill (replicate (length edges) O) offs 0 edges;
    let perm := sort_rows edges edge_prop_cols offs perm in
    nbrs ← mapM (fun i => e_dst <$> edges !! i) perm;
    ws ← mapM (fun i => e_weight <$> edges !! i) perm;
    cols ← mapM (fun col : list W => mapM (fun i => col !! i) perm) edge_prop_cols;
    Some (mkCsr offs nbrs (if include_weights then Some ws else None) cols).

(** [&arr[offsets[slot]..offsets[slot + 1]]] *)
Definition slice {A} (offs : list nat) (arr : list A) (slot : nat) : option (list A) :=
  start ← offs !! slot;
  stop ← offs !! S slot;
  if (start <=? stop)%nat && (stop <=? length arr)%nat then Some (take (stop - start) (drop start arr)) else None.

(** ** What the arrays hold *)

Definition out_edges edges (v : nat) : list nat :=
  filter (fun i => e_src <$> edges !! i = Some v) (seq 0 (length edges)).
Definition deg edges (v : nat) : nat := length (filter (fun e => e_src e = v) edges).
(** The sums of the degrees before each vertex. *)
Fixpoint prefix_sums (start : nat) (degrees : list nat) : list nat :=
  match degrees with
  | [] => [start]
  | d :: degrees => start :: prefix_sums (start + d) degrees
  end.

Lemma prefix_offsets_fit d : forall start, Z.of_nat (start + sum_list d) < 2 ^ 32 -> prefix_offsets start d = Some (prefix_sums start d).
Proof.
  induction d as [|x d IH]; intros start Hs; cbn [prefix_offsets prefix_sums]; [done|].
  change (sum_list (x :: d)) with (x + sum_list d)%nat in Hs. rewrite u32_add_fits by lia. cbn [mbind option_bind].
  rewrite IH by lia. done.
Qed.

Lemma count_degrees_ok edges : forall d, Forall (fun e => (e_src e < length d)%nat) edges ->
  Forall (fun x => Z.of_nat (x + length edges) < 2 ^ 32) d ->
  exists d', count_degrees d edges = Some d' /\ length d' = length d
    /\ forall v x, d !! v = Some x -> d' !! v = Some (x + deg edges v)%nat.
Proof.
  induction edges as [|e edges IH]; intros d Hf Hb; cbn [count_degrees].
  { exists d. split_and!; [done..|]. intros v x Hv. unfold deg. cbn. by rewrite Nat.add_0_r. }
  apply Forall_cons in Hf as [He Hf]. unfold bump. destruct (lookup_lt_is_Some_2 d (e_src e) He) as [x Hx].
  rewrite Hx. cbn [mbind option_bind]. assert (Hbx : Z.of_nat (x + length (e :: edges)) < 2 ^ 32) by (rewrite Forall_lookup in Hb; by eapply Hb).
  cbn [length] in Hbx. rewrite u32_add_fits by lia. rewrite (Nat.add_comm x 1). cbn [mbind option_bind Nat.add].
  destruct (IH (<[e_src e := S x]> d)) as (d' & E & Hl & Hd).
  { by rewrite length_insert. }
  { apply Forall_insert; [|lia]. eapply Forall_impl; [exact Hb|]. cbn. intros. lia. }
  exists d'. rewrite length_insert in Hl. split_and!; [done..|]. intros v y Hv. unfold deg.
  destruct (decide (e_src e = v)) as [<-|Hne].
  - rewrite filter_cons_True by done. rewrite Hv in Hx. injection Hx as ->.
    rewrite (Hd (e_src e) (S x)) by (by rewrite list_lookup_insert_eq). f_equal. cbn. unfold deg. lia.
  - rewrite filter_cons_False by done. apply Hd. by rewrite list_lookup_insert_ne.
Qed.

(** Offsets are the sums of the degrees before them. *)
Lemma prefix_sums_ok start d v : (v <= length d)%nat ->
  prefix_sums start d !! v = Some (start + sum_list (take v d))%nat.
Proof.
  revert start v. induction d as [|x d IH]; intros start v Hv; cbn [prefix_sums].
  - destruct v; [|cbn in Hv; lia]. cbn. f_equal. lia.
  - destruct v as [|v]; [cbn; f_equal; lia|]. cbn in Hv. cbn [lookup list_lookup take sum_list_with]. unfold id at 1.
    rewrite IH by lia. f_equal. lia.
Qed.

Lemma length_prefix_sums start d : length (prefix_sums start d) = S (length d).
Proof. revert start. induction d as [|x d IH]; intros start; cbn; [done|]. by rewrite IH. Qed.

(** The indices of the first [m] edges that leave [v], and where row [v] starts. *)
Definition row_upto edges (m v : nat) : list nat :=
  filter (fun i => e_src <$> edges !! i = Some v) (seq 0 m).
Definition row_start edges (v : nat) : nat := sum_list (deg edges <$> seq 0 v).

Lemma row_upto_S edges m v e : edges !! m = Some e ->
  row_upto edges (S m) v = row_upto edges m v ++ (if decide (e_src e = v) then [m] else []).
Proof.
  intros He. unfold row_upto. rewrite seq_S, filter_app. f_equal. cbn [Nat.add]. rewrite filter_cons, filter_nil, He. cbn.
  destruct (decide (e_src e = v)) as [->|Hne]; [by rewrite decide_True|]. rewrite decide_False; [done|]. by intros [= ?].
Qed.

Lemma length_row edges v m : (m <= length edges)%nat -> length (row_upto edges m v) = deg (take m edges) v.
Proof.
  induction m as [|m IH]; intros Hm; [done|]. destruct (lookup_lt_is_Some_2 edges m) as [e He]; [lia|].
  rewrite (row_upto_S edges m v e He), (take_S_r edges m e He), length_app, IH by lia.
  unfold deg. rewrite filter_app, length_app. f_equal. rewrite filter_cons. by case_decide.
Qed.

Lemma deg_take edges m v : (deg (take m edges) v <= deg edges v)%nat.
Proof. unfold deg. rewrite <- (take_drop m edges) at 2. rewrite filter_app, length_app. lia. Qed.

Lemma row_start_S edges v : row_start edges (S v) = (row_start edges v + deg edges v)%nat.
Proof. unfold row_start. rewrite seq_S, fmap_app. rewrite sum_list_with_app. cbn. unfold id. lia. Qed.

Lemma row_start_mono edges v w : (v <= w)%nat -> (row_start edges v <= row_start edges w)%nat.
Proof. induction 1; [done|]. rewrite row_start_S. lia. Qed.

Lemma sum_cons (x : nat) l : sum_list (x :: l) = (x + sum_list l)%nat.
Proof. done. Qed.

Lemma row_start_total edges n : Forall (fun e => (e_src e < n)%nat) edges -> row_start edges n = length edges.
Proof.
  intros Hf. unfold row_start. induction edges as [|e edges IH].
  { clear. induction (seq 0 n) as [|x l IH]; [done|]. exact IH. }
  apply Forall_cons in Hf as [He Hf]. cbn [length]. rewrite <- (IH Hf). clear -He.
  assert (G : forall l, NoDup l -> sum_list (deg (e :: edges) <$> l)
              = (sum_list (deg edges <$> l) + if decide (e_src e ∈ l) then 1 else 0)%nat).
  { induction 1 as [|x l Hx _ IH]; [done|]. cbn [fmap list_fmap]. rewrite !sum_cons, IH. unfold deg at 1. rewrite filter_cons.
    destruct (decide (e_src e = x)) as [->|Hne]; cbn.
    - rewrite decide_False by done. rewrite decide_True by (by left). unfold deg. lia.
    - destruct (decide (e_src e ∈ l)); [rewrite decide_True by (by right)|rewrite decide_False by (by intros [?|?]%elem_of_cons)]; unfold deg; lia. }
  rewrite (G (seq 0 n) (NoDup_seq 0 n)), decide_True by (apply elem_of_seq; lia). lia.
Qed.

(** Bucket filling writes each edge's index at the next place of its row. *)
Lemma bucket_fill_ok edges n : Forall (fun e => (e_src e < n)%nat) edges -> Z.of_nat (length edges) < 2 ^ 32 -> forall m perm current,
  (m <= length edges)%nat -> length perm = length edges -> Forall (fun i => (i < length edges)%nat) perm ->
  (forall v, (v < n)%nat -> current !! v = Some (row_start edges v + length (row_upto edges m v))%nat) ->
  (forall v k i, (v < n)%nat -> row_upto edges m v !! k = Some i -> perm !! (row_start edges v + k)%nat = Some i) ->
  exists perm', bucket_fill perm current m (drop m edges) = Some perm' /\ length perm' = length edges
    /\ Forall (fun i => (i < length edges)%nat) perm'
    /\ forall v k i, (v < n)%nat -> row_upto edges (length edges) v !! k = Some i ->
         perm' !! (row_start edges v + k)%nat = Some i.
Proof.
  intros Hf Hfit m. remember (length edges - m)%nat as d eqn:Hd. revert m Hd.
  induction d as [|d IH]; intros m Hd perm current Hm Hl Hv Hcur Hrow.
  { assert (m = length edges) as -> by lia. rewrite drop_ge by lia. by exists perm. }
  destruct (lookup_lt_is_Some_2 edges m) as [e He]; [lia|]. rewrite (drop_S edges e m He). cbn [bucket_fill].
  assert (Hn : (e_src e < n)%nat) by (rewrite Forall_lookup in Hf; by eapply Hf).
  set (idx := (row_start edges (e_src e) + length (row_upto edges m (e_src e)))%nat).
  assert (Hroom : forall v, (length (row_upto edges m v) + (if decide (e_src e = v) then 1 else 0) <= deg edges v)%nat).
  { intros v. pose proof (length_row edges v (S m) ltac:(lia)) as H. rewrite (row_upto_S edges m v e He), length_app in H.
    pose proof (deg_take edges (S m) v). case_decide; cbn in H; lia. }
  assert (Hidx : (idx < row_start edges (S (e_src e)))%nat).
  { rewrite row_start_S. pose proof (Hroom (e_src e)) as H. rewrite decide_True in H by done. unfold idx. lia. }
  assert (Hin : (idx < length perm)%nat).
  { rewrite Hl, <- (row_start_total edges n Hf). pose proof (row_start_mono edges (S (e_src e)) n Hn). lia. }
  rewrite (Hcur (e_src e) Hn). cbn [mbind option_bind]. fold idx. destruct (lookup_lt_is_Some_2 perm idx Hin) as [x ->].
  cbn [mbind option_bind]. rewrite u32_add_fits by lia. cbn [mbind option_bind]. rewrite (Nat.add_comm idx 1). apply (IH (S m)); [lia|lia|by rewrite length_insert|by apply Forall_insert; [|lia]| |].
  - intros v Hvn. rewrite (row_upto_S edges m v e He), length_app. destruct (decide (e_src e = v)) as [<-|Hne].
    + rewrite list_lookup_insert_eq by (eapply lookup_lt_Some, Hcur; done). f_equal. unfold idx. cbn. lia.
    + rewrite list_lookup_insert_ne, Hcur by done. f_equal. cbn. lia.
  - intros v k i Hvn Hk. rewrite (row_upto_S edges m v e He) in Hk.
    apply lookup_app_Some in Hk as [Hk|[Hge Hk]].
    + pose proof (lookup_lt_Some _ _ _ Hk) as Hlt. rewrite list_lookup_insert_ne; [by apply Hrow|].
      pose proof (Hroom v) as Hr. pose proof (row_start_S edges v) as Hs.
      destruct (lt_eq_lt_dec v (e_src e)) as [[Hlt'| ->]|Hgt].
      * pose proof (row_start_mono edges (S v) (e_src e) Hlt'). unfold idx. destruct (decide (e_src e = v)); lia.
      * unfold idx. lia.
      * pose proof (row_start_mono edges (S (e_src e)) v Hgt). lia.
    + destruct (decide (e_src e = v)) as [<-|]; [|done]. apply list_lookup_singleton_Some in Hk as [Hk <-].
      replace (row_start edges (e_src e) + k)%nat with idx by (unfold idx; lia). by apply list_lookup_insert_eq.
Qed.

Lemma lookup_concat {A} (rows : list (list A)) p x : concat rows !! p = Some x ->
  exists v row k, rows !! v = Some row /\ row !! k = Some x /\ p = (sum_list (length <$> take v rows) + k)%nat.
Proof.
  revert p. induction rows as [|row rows IH]; intros p Hp; [done|]. cbn [concat] in Hp.
  apply lookup_app_Some in Hp as [Hp|[Hge Hp]].
  - by exists O, row, p.
  - destruct (IH _ Hp) as (v & r & k & Hv & Hk & E). exists (S v), r, k. split_and!; [done..|].
    cbn [take fmap list_fmap]. rewrite sum_cons. lia.
Qed.

Lemma length_concat_sum {A} (rows : list (list A)) : length (concat rows) = sum_list (length <$> rows).
Proof. induction rows as [|row rows IH]; [done|]. cbn [concat fmap list_fmap]. by rewrite length_app, IH, sum_cons. Qed.

Lemma rows_lengths edges v : (length <$> (out_edges edges <$> seq 0 v)) = (deg edges <$> seq 0 v).
Proof.
  rewrite <- list_fmap_compose. apply list_fmap_ext. intros i w _. cbn.
  change (out_edges edges w) with (row_upto edges (length edges) w). rewrite length_row, take_ge by lia. done.
Qed.

Lemma fill_is_concat edges n perm : Forall (fun e => (e_src e < n)%nat) edges -> length perm = length edges ->
  (forall v k i, (v < n)%nat -> out_edges edges v !! k = Some i -> perm !! (row_start edges v + k)%nat = Some i) ->
  perm = concat (out_edges edges <$> seq 0 n).
Proof.
  intros Hf Hl Hrow. assert (Hlen : length (concat (out_edges edges <$> seq 0 n)) = length perm).
  { rewrite length_concat_sum, rows_lengths, Hl. by apply row_start_total. }
  symmetry. apply (list_eq_same_length _ _ (length perm)); [done|done|]. intros p x y Hp Hx Hy.
  destruct (lookup_concat _ _ _ Hx) as (v & row & k & Hv & Hk & ->). rewrite list_lookup_fmap in Hv.
  apply fmap_Some in Hv as (w & Hw & ->). apply lookup_seq in Hw as [-> Hw].
  cbn [Nat.add] in Hk, Hw. rewrite <- fmap_take, take_seq, Nat.min_l, rows_lengths in Hy by lia.
  change (sum_list (deg edges <$> seq 0 v)) with (row_start edges v) in Hy. rewrite (Hrow v k x Hw Hk) in Hy. by injection Hy.
Qed.

Lemma sort_rows_cons edges cols start stop t perm :
  sort_rows edges cols (start :: stop :: t) perm
  = sort_rows edges cols (stop :: t)
      (take start perm ++ merge_sort (edge_le edges cols) (take (stop - start) (drop start perm)) ++ drop stop perm).
Proof. done. Qed.

(** Sorting row by row sorts each of the concatenated rows. *)
Lemma sort_rows_concat edges cols (done_rows : list nat) (rows : list (list nat)) :
  sort_rows edges cols (prefix_sums (length done_rows) (length <$> rows)) (done_rows ++ concat rows)
  = done_rows ++ concat (merge_sort (edge_le edges cols) <$> rows).
Proof.
  revert done_rows. induction rows as [|row rows IH]; intros done_rows; [done|].
  cbn [fmap list_fmap prefix_sums concat].
  assert (Hp : exists t, prefix_sums (length done_rows + length row) (length <$> rows) = (length done_rows + length row)%nat :: t).
  { destruct (length <$> rows); eexists; reflexivity. }
  destruct Hp as [t Ht]. rewrite Ht, sort_rows_cons, <- Ht.
  rewrite take_app_length, drop_app_length.
  replace (length done_rows + length row - length done_rows)%nat with (length row) by lia.
  rewrite take_app_length, drop_app_add', drop_app_length by done.
  specialize (IH (done_rows ++ merge_sort (edge_le edges cols) row)). rewrite length_app in IH.
  rewrite (Permutation_length (merge_sort_Permutation (edge_le edges cols) row)) in IH.
  rewrite <- !app_assoc in IH. exact IH.
Qed.

Lemma lookup_slice {A} (rows : list (list A)) v row : rows !! v = Some row ->
  slice (prefix_sums 0 (length <$> rows)) (concat rows) v = Some row.
Proof.
  intros Hv. pose proof (lookup_lt_Some _ _ _ Hv) as Hlt. unfold slice.
  rewrite !prefix_sums_ok by (rewrite length_fmap; lia). cbn [mbind option_bind Nat.add].
  rewrite (take_S_r _ _ (length row)) by (by rewrite list_lookup_fmap, Hv).
  rewrite sum_list_with_app. change (sum_list [length row]) with (length row + 0)%nat. rewrite Nat.add_0_r.
  assert (Hc : concat rows = concat (take v rows) ++ row ++ concat (drop (S v) rows)).
  { rewrite <- (take_drop_middle rows v row Hv) at 1. by rewrite concat_app. }
  assert (Hs : sum_list (take v (length <$> rows)) = length (concat (take v rows))).
  { by rewrite length_concat_sum, fmap_take. }
  rewrite Hs, Hc. rewrite (proj2 (Nat.leb_le _ _)), (proj2 (Nat.leb_le _ _)) by (rewrite ?length_app; lia). cbn [andb].
  rewrite drop_app_length. replace (length (concat (take v rows)) + length row - length (concat (take v rows)))%nat with (length row) by lia.
  by rewrite take_app_length.
Qed.

Definition dst_at edges (i : nat) : nat := default O (e_dst <$> edges !! i).

(** The rows of the arrays: the edges that leave each vertex, in canonical order. *)
Definition sorted_rows edges cols (n : nat) : list (list nat) :=
  merge_sort (edge_le edges cols) <$> (out_edges edges <$> seq 0 n).

Lemma mapM_valid {A} (f : nat -> option A) (l : list nat) m :
  Forall (fun i => (i < m)%nat) l -> (forall i, (i < m)%nat -> is_Some (f i)) -> is_Some (mapM f l).
Proof. intros Hl Hf. apply mapM_is_Some_2. eapply Forall_impl; [done|]. intros i Hi. by apply Hf. Qed.

Lemma build_csr_rows n edges iw cols : (0 < n)%nat -> Z.of_nat (length edges) < 2 ^ 32 ->
  Forall (fun e => (e_src e < n)%nat) edges -> Forall (fun col : list W => length col = length edges) cols ->
  exists ws pcols,
    build_csr n edges iw cols = Some (mkCsr (prefix_sums 0 (deg edges <$> seq 0 n))
      (dst_at edges <$> concat (sorted_rows edges cols n)) (if iw then Some ws else None) pcols)
    /\ mapM (fun i => e_weight <$> edges !! i) (concat (sorted_rows edges cols n)) = Some ws.
Proof.
  intros Hn Hfit Hf Hcols. unfold build_csr. rewrite (proj2 (Nat.eqb_neq n 0)) by lia.
  destruct (count_degrees_ok edges (replicate n O)) as (d & -> & Hdl & Hd); [by rewrite length_replicate|by apply Forall_replicate|].
  assert (Ed : d = deg edges <$> seq 0 n).
  { apply (list_eq_same_length _ _ n); [by rewrite length_fmap, length_seq|by rewrite Hdl, length_replicate|].
    intros v x y Hv Hx Hy. rewrite (Hd v O) in Hx by (by rewrite lookup_replicate_2).
    rewrite list_lookup_fmap, lookup_seq_lt in Hy by done. cbn in *. congruence. }
  subst d. cbn [mbind option_bind]. rewrite prefix_offsets_fit by (pose proof (row_start_total edges n Hf) as Ht; unfold row_start in Ht; lia).
  cbn [mbind option_bind]. destruct (bucket_fill_ok edges n Hf Hfit 0 (replicate (length edges) O) (prefix_sums 0 (deg edges <$> seq 0 n)))
    as (perm & Hb & Hl & Hv & Hrow).
  - lia.
  - apply length_replicate.
  - destruct edges; [constructor|]. apply Forall_replicate. cbn. lia.
  - intros v Hvn. rewrite prefix_sums_ok by (rewrite length_fmap, length_seq; lia). change (length (row_upto edges 0 v)) with O.
    rewrite <- fmap_take, take_seq, Nat.min_l by lia. f_equal. unfold row_start. lia.
  - intros v k i _ Hk. done.
  - rewrite drop_0 in Hb. rewrite Hb. cbn [mbind option_bind].
    pose proof (fill_is_concat edges n perm Hf Hl Hrow) as ->.
    rewrite <- (rows_lengths edges n). pose proof (sort_rows_concat edges cols [] (out_edges edges <$> seq 0 n)) as Hs. cbn [app length] in Hs. rewrite Hs. clear Hs.
    fold (sorted_rows edges cols n).
    assert (Hvs : Forall (fun i => (i < length edges)%nat) (concat (sorted_rows edges cols n))).
    { unfold sorted_rows. rewrite Forall_concat in Hv. apply Forall_concat. rewrite Forall_fmap. eapply Forall_impl; [done|].
      intros row Hr. cbn. by rewrite merge_sort_Permutation. }
    assert (Hnb : mapM (fun i => e_dst <$> edges !! i) (concat (sorted_rows edges cols n))
                  = Some (dst_at edges <$> concat (sorted_rows edges cols n))).
    { apply mapM_Some, Forall2_fmap_r, Forall_Forall2_diag. eapply Forall_impl; [done|]. intros i Hi. cbn. unfold dst_at.
      destruct (lookup_lt_is_Some_2 edges i Hi) as [e ->]. done. }
    rewrite Hnb. cbn [mbind option_bind].
    destruct (mapM_valid (fun i => e_weight <$> edges !! i) _ _ Hvs) as [ws Hws].
    { intros i Hi. destruct (lookup_lt_is_Some_2 edges i Hi) as [e ->]. by eexists. }
    rewrite Hws. cbn [mbind option_bind].
    assert (Hpc : is_Some (mapM (fun col : list W => mapM (fun i => col !! i) (concat (sorted_rows edges cols n))) cols)).
    { apply mapM_is_Some_2. eapply Forall_impl; [done|]. intros col Hc. cbn.
      apply (mapM_valid _ _ (length edges) Hvs). intros i Hi. apply lookup_lt_is_Some_2. cbn in Hc. by rewrite Hc. }
    destruct Hpc as [pcols ->]. cbn [mbind option_bind]. by exists ws, pcols.
Qed.

(** ** The canonical order *)

Definition hop_cmp (a b : nat * W) : comparison := then_cmp (Nat.compare a.1 b.1) (total_cmp a.2 b.2).
Definition hop_le (a b : nat * W) : Prop := hop_cmp a b <> Gt.
#[export] Instance hop_le_dec : RelDecision hop_le.
Proof. intros a b. unfold hop_le. apply _. Defined.

Lemma total_cmp_refl (x : W) : total_cmp x x = Eq.
Proof. by apply total_cmp_eq. Qed.

Lemma hop_cmp_spec a b :
  (hop_cmp a b = Eq <-> a = b) /\ hop_cmp b a = CompOpp (hop_cmp a b).
Proof.
  unfold hop_cmp. destruct a as [d w], b as [d' w']. cbn [fst snd]. rewrite (Nat.compare_antisym d d'), (total_cmp_opp w w'). split.
  - destruct (Nat.compare_spec d d') as [->|?|?]; cbn.
    + rewrite total_cmp_eq. split; [by intros ->|by intros [= ->]].
    + split; [done|]. intros [= -> _]. lia.
    + split; [done|]. intros [= -> _]. lia.
  - by destruct (Nat.compare d d').
Qed.

Lemma hop_cmp_lt a b : hop_cmp a b = Lt <-> (a.1 < b.1)%nat \/ (a.1 = b.1 /\ total_cmp a.2 b.2 = Lt).
Proof.
  unfold hop_cmp. destruct (Nat.compare_spec a.1 b.1) as [E|?|?]; cbn.
  - split; [by right|]. intros [?|[_ ?]]; [lia|done].
  - split; [by left|done].
  - split; [done|]. intros [?|[? _]]; lia.
Qed.

Lemma hop_cmp_lt_trans a b c : hop_cmp a b = Lt -> hop_cmp b c = Lt -> hop_cmp a c = Lt.
Proof.
  rewrite !hop_cmp_lt. intros [?|[E1 H1]] [?|[E2 H2]]; [left; lia..|].
  right. split; [congruence|]. by eapply total_cmp_trans.
Qed.

#[export] Instance hop_le_trans : Transitive hop_le.
Proof.
  intros a b c H1 H2. unfold hop_le in *. destruct (hop_cmp a b) eqn:E1; [|clear H1|done].
  { apply hop_cmp_spec in E1 as ->. done. }
  destruct (hop_cmp b c) eqn:E2; [|clear H2|done].
  { apply hop_cmp_spec in E2 as ->. by rewrite E1. }
  by rewrite (hop_cmp_lt_trans a b c E1 E2).
Qed.
#[export] Instance hop_le_total : Total hop_le.
Proof. intros a b. unfold hop_le. rewrite (proj2 (hop_cmp_spec b a)). destruct (hop_cmp b a); cbn; [left|right|left]; done. Qed.
#[export] Instance hop_le_antisym : AntiSymm (=) hop_le.
Proof.
  intros a b H1 H2. unfold hop_le in *. rewrite (proj2 (hop_cmp_spec a b)) in H2. apply hop_cmp_spec.
  by destruct (hop_cmp a b).
Qed.

Definition pair_at edges (i : nat) : option (nat * W) := (fun e => (e_dst e, e_weight e)) <$> edges !! i.

Lemma row_pairs edges v m : (m <= length edges)%nat ->
  omap (pair_at edges) (row_upto edges m v) = (fun e => (e_dst e, e_weight e)) <$> filter (fun e => e_src e = v) (take m edges).
Proof.
  induction m as [|m IH]; intros Hm; [done|]. destruct (lookup_lt_is_Some_2 edges m) as [e He]; [lia|].
  rewrite (row_upto_S edges m v e He), (take_S_r edges m e He), omap_app, filter_app, fmap_app, IH by lia. f_equal.
  rewrite filter_cons, filter_nil. case_decide; [|done]. cbn. unfold pair_at. by rewrite He.
Qed.

Lemma edge_cmp_pairs edges a b x y : pair_at edges a = Some x -> pair_at edges b = Some y ->
  edge_cmp edges [] a b = hop_cmp x y.
Proof.
  unfold pair_at, edge_cmp, hop_cmp. intros (e & -> & ->)%fmap_Some (f & -> & ->)%fmap_Some. cbn.
  destruct (Nat.compare _ _); [|done..]. cbn. by destruct (total_cmp _ _).
Qed.

#[export] Instance edge_le_total edges : Total (edge_le edges []).
Proof.
  intros a b. unfold edge_le. destruct (pair_at edges a) as [x|] eqn:Ea, (pair_at edges b) as [y|] eqn:Eb.
  - rewrite (edge_cmp_pairs edges a b x y), (edge_cmp_pairs edges b a y x) by done. apply (hop_le_total x y).
  - left. unfold edge_cmp, pair_at in *. destruct (edges !! a), (edges !! b); done.
  - left. unfold edge_cmp, pair_at in *. destruct (edges !! a), (edges !! b); done.
  - left. unfold edge_cmp, pair_at in *. destruct (edges !! a), (edges !! b); done.
Qed.

Lemma sorted_pairs edges l : Forall (fun i => (i < length edges)%nat) l -> Sorted (edge_le edges []) l ->
  Sorted hop_le (omap (pair_at edges) l).
Proof.
  assert (Hat : forall i, (i < length edges)%nat -> exists p, pair_at edges i = Some p).
  { intros i Hi. unfold pair_at. destruct (lookup_lt_is_Some_2 edges i Hi) as [e ->]. by eexists. }
  induction l as [|i l IH]; intros Hf Hs; [constructor|]. apply Forall_cons in Hf as [Hi Hf].
  apply Sorted_inv in Hs as [Hs Hh]. destruct (Hat i Hi) as [p Hp]. cbn. rewrite Hp. constructor; [by apply IH|].
  destruct l as [|j l]; [constructor|]. apply Forall_cons in Hf as [Hj _]. destruct (Hat j Hj) as [q Hq].
  cbn. rewrite Hq. constructor. apply HdRel_inv in Hh. unfold edge_le in Hh. by rewrite (edge_cmp_pairs edges i j p q) in Hh.
Qed.

Lemma out_edges_valid edges v : Forall (fun i => (i < length edges)%nat) (out_edges edges v).
Proof. unfold out_edges. apply Forall_forall. intros i [_ Hi%elem_of_seq]%list_elem_of_filter. lia. Qed.

(** A row, as destinations and weights, is the sorted list of its edges. *)
Lemma sorted_row_pairs edges v :
  omap (pair_at edges) (merge_sort (edge_le edges []) (out_edges edges v))
  = merge_sort hop_le ((fun e => (e_dst e, e_weight e)) <$> filter (fun e => e_src e = v) edges).
Proof.
  apply (Sorted_unique hop_le).
  - apply sorted_pairs; [|apply (Sorted_merge_sort (edge_le edges []))]. rewrite merge_sort_Permutation. apply out_edges_valid.
  - apply (Sorted_merge_sort hop_le).
  - rewrite !merge_sort_Permutation. change (out_edges edges v) with (row_upto edges (length edges) v).
    rewrite row_pairs by done. by rewrite take_ge.
Qed.

(** ** Projections *)

Record GraphProjection := mkProjection {
  vertex_count : nat;
  out_offsets : list nat;
  out_nbrs : list nat;
  in_offsets : list nat;
  in_nbrs : list nat;
  out_weights : option (list W);
  id_map : IdMap;
}.

Definition edge_count (g : GraphProjection) : nat := length (out_nbrs g).
Definition out_neighbors (g : GraphProjection) (slot : nat) : option (list nat) := slice (out_offsets g) (out_nbrs g) slot.
Definition in_neighbors (g : GraphProjection) (slot : nat) : option (list nat) := slice (in_offsets g) (in_nbrs g) slot.
Definition out_degree (g : GraphProjection) (slot : nat) : option nat :=
  stop ← out_offsets g !! S slot; start ← out_offsets g !! slot; Some (stop - start)%nat.
Definition has_reverse (g : GraphProjection) : bool := negb (Nat.eqb (length (in_nbrs g)) 0).
Definition to_vid (g : GraphProjection) (slot : nat) : option Z := IdMap.to_vid (id_map g) slot.
Definition to_slot (g : GraphProjection) (vid : Z) : option nat := IdMap.to_slot (id_map g) vid.

Definition swap_ends (e : nat * nat * W) : nat * nat * W := (e_dst e, e_src e, e_weight e).

Definition from_dense_edges (n : nat) edges (weighted include_reverse : bool) : option GraphProjection :=
  ids ← IdMap.insert_all IdMap.new (Z.of_nat <$> seq 0 n);
  out ← build_csr n edges weighted [];
  '(in_offs, in_ns) ← (if include_reverse then
                         inn ← build_csr n (swap_ends <$> edges) false []; Some (offsets inn, neighbors inn)
                       else Some (replicate (S n) O, []));
  Some (mkProjection n (offsets out) (neighbors out) in_offs in_ns (weights out) ids).

Definition succs edges (v : nat) : list nat :=
  (merge_sort hop_le ((fun e => (e_dst e, e_weight e)) <$> filter (fun e => e_src e = v) edges)).*1.

Lemma dst_pairs edges l : Forall (fun i => (i < length edges)%nat) l -> dst_at edges <$> l = (omap (pair_at edges) l).*1.
Proof.
  induction 1 as [|i l Hi _ IH]; [done|]. cbn [fmap list_fmap]. rewrite IH. cbn. unfold dst_at, pair_at.
  destruct (lookup_lt_is_Some_2 edges i Hi) as [e ->]. done.
Qed.

Lemma weight_pairs edges l ws : mapM (fun i => e_weight <$> edges !! i) l = Some ws -> ws = (omap (pair_at edges) l).*2.
Proof.
  intros H%mapM_Some. induction H as [|i w l ws Hi _ IH]; [done|]. cbn. unfold pair_at at 1.
  apply fmap_Some in Hi as (e & -> & ->). cbn. by rewrite IH.
Qed.

Lemma omap_concat {A B} (f : A -> option B) (rows : list (list A)) : (omap f (concat rows) : list B) = concat ((fun r : list A => omap f r : list B) <$> rows).
Proof. induction rows as [|r rows IH]; [done|]. cbn [concat fmap list_fmap]. by rewrite omap_app, IH. Qed.

Lemma sorted_rows_valid edges n : Forall (fun i => (i < length edges)%nat) (concat (sorted_rows edges [] n)).
Proof.
  apply Forall_concat. unfold sorted_rows. rewrite !Forall_fmap. apply Forall_forall. intros v _. cbn.
  rewrite merge_sort_Permutation. apply out_edges_valid.
Qed.

Lemma pairs_of_rows edges n :
  omap (pair_at edges) (concat (sorted_rows edges [] n))
  = concat ((fun v => merge_sort hop_le ((fun e => (e_dst e, e_weight e)) <$> filter (fun e => e_src e = v) edges)) <$> seq 0 n).
Proof.
  rewrite omap_concat. f_equal. unfold sorted_rows. rewrite <- !list_fmap_compose. apply list_fmap_ext.
  intros i v _. cbn. apply sorted_row_pairs.
Qed.

(** The arrays as a function of the edges that leave each vertex. *)
Lemma build_csr_canonical n edges iw : (0 < n)%nat -> Z.of_nat (length edges) < 2 ^ 32 -> Forall (fun e => (e_src e < n)%nat) edges ->
  let rows := concat ((fun v => merge_sort hop_le ((fun e => (e_dst e, e_weight e)) <$> filter (fun e => e_src e = v) edges)) <$> seq 0 n) in
  build_csr n edges iw [] = Some (mkCsr (prefix_sums 0 (deg edges <$> seq 0 n)) rows.*1 (if iw then Some rows.*2 else None) []).
Proof.
  intros Hn Hfit Hf rows. destruct (build_csr_rows n edges iw [] Hn Hfit Hf ltac:(constructor)) as (ws & pcols & E & Hws).
  rewrite E. apply weight_pairs in Hws. rewrite dst_pairs, pairs_of_rows in * by apply sorted_rows_valid.
  rewrite Hws. assert (pcols = []) as ->; [|done].
  unfold build_csr in E. rewrite (proj2 (Nat.eqb_neq n 0)) in E by lia.
  repeat match type of E with (_ ≫= _) = _ => apply bind_Some in E as (? & ?Hc & E) end. injection E as _ _ _ ->.
  match goal with H : mapM _ [] = Some pcols |- _ => by injection H end.
Qed.

Lemma csr_row n edges v : (v < n)%nat -> Forall (fun e => (e_src e < n)%nat) edges ->
  slice (prefix_sums 0 (deg edges <$> seq 0 n))
    (concat ((fun v => merge_sort hop_le ((fun e => (e_dst e, e_weight e)) <$> filter (fun e => e_src e = v) edges)) <$> seq 0 n)).*1 v
  = Some (succs edges v).
Proof.
  intros Hv Hf. assert (Hr : (deg edges <$> seq 0 n) = length <$> (succs edges <$> seq 0 n)).
  { rewrite <- list_fmap_compose. apply list_fmap_ext. intros i w _. cbn. unfold succs, deg. rewrite length_fmap.
    rewrite (Permutation_length (merge_sort_Permutation hop_le _)). by rewrite length_fmap. }
  assert (Hc : forall l : list nat, (concat ((fun v => merge_sort hop_le ((fun e => (e_dst e, e_weight e)) <$> filter (fun e => e_src e = v) edges)) <$> l)).*1
               = concat (succs edges <$> l)).
  { induction l as [|w l IH]; [done|]. cbn [fmap list_fmap concat]. by rewrite fmap_app, IH. }
  rewrite Hr, Hc. apply lookup_slice. rewrite list_lookup_fmap, lookup_seq_lt by done. done.
Qed.

Lemma build_csr_perm n edges edges' iw : edges ≡ₚ edges' -> Z.of_nat (length edges) < 2 ^ 32 -> Forall (fun e => (e_src e < n)%nat) edges ->
  build_csr n edges iw [] = build_csr n edges' iw [].
Proof.
  intros Hp Hfit Hf. destruct n as [|n]; [done|]. assert (Hfit' : Z.of_nat (length edges') < 2 ^ 32) by by rewrite <- Hp. assert (Hf' : Forall (fun e => (e_src e < S n)%nat) edges') by by rewrite <- Hp.
  rewrite !build_csr_canonical by (done || lia).
  assert (E1 : (deg edges <$> seq 0 (S n)) = (deg edges' <$> seq 0 (S n))).
  { apply list_fmap_ext. intros i v _. unfold deg. by rewrite Hp. }
  assert (E2 : ((fun v => merge_sort hop_le ((fun e => (e_dst e, e_weight e)) <$> filter (fun e => e_src e = v) edges)) <$> seq 0 (S n))
               = ((fun v => merge_sort hop_le ((fun e => (e_dst e, e_weight e)) <$> filter (fun e => e_src e = v) edges')) <$> seq 0 (S n))).
  { apply list_fmap_ext. intros i v _. apply (Sorted_unique hop_le); [apply (Sorted_merge_sort hop_le)..|].
    rewrite !merge_sort_Permutation. by rewrite Hp. }
  by rewrite E1, E2.
Qed.

Lemma succs_spec edges v : Sorted le (succs edges v) /\ succs edges v ≡ₚ e_dst <$> filter (fun e => e_src e = v) edges.
Proof.
  unfold succs. split.
  - pose proof (Sorted_merge_sort hop_le ((fun e => (e_dst e, e_weight e)) <$> filter (fun e => e_src e = v) edges)) as H.
    induction H as [|p l _ IH Hd]; [constructor|]. cbn [fmap list_fmap]. constructor; [done|].
    destruct Hd as [|q l Hpq]; [constructor|]. cbn [fmap list_fmap]. constructor. unfold hop_le, hop_cmp in Hpq.
    destruct (Nat.compare_spec p.1 q.1); cbn in Hpq; [lia|lia|done].
  - rewrite merge_sort_Permutation, <- list_fmap_compose. done.
Qed.

Lemma build_csr_row n edges iw v : (v < n)%nat -> Z.of_nat (length edges) < 2 ^ 32 -> Forall (fun e => (e_src e < n)%nat) edges ->
  exists c, build_csr n edges iw [] = Some c /\ slice (offsets c) (neighbors c) v = Some (succs edges v).
Proof.
  intros Hv Hfit Hf. rewrite build_csr_canonical by (done || lia). eexists. split; [done|]. by apply csr_row.
Qed.

Lemma dense_rows n edges weighted include_reverse : Z.of_nat n <= 2 ^ 32 -> Z.of_nat (length edges) < 2 ^ 32 ->
  Forall (fun e => (e_src e < n)%nat /\ (e_dst e < n)%nat) edges ->
  exists g, from_dense_edges n edges weighted include_reverse = Some g /\ vertex_count g = n
    /\ forall v, (v < n)%nat ->
        out_neighbors g v = Some (succs edges v)
        /\ (include_reverse = true -> in_neighbors g v = Some (succs (swap_ends <$> edges) v))
        /\ to_vid g v = Some (Z.of_nat v) /\ (forall u, to_slot g (Z.of_nat v) = Some u <-> u = v).
Proof.
  intros Hnv Hfit Hf. assert (Ho : Forall (fun e => (e_src e < n)%nat) edges) by (eapply Forall_impl; [done|naive_solver]).
  assert (Hi : Forall (fun e => (e_src e < n)%nat) (swap_ends <$> edges)).
  { rewrite Forall_fmap. eapply Forall_impl; [exact Hf|]. by intros e [_ ?]. }
  destruct (IdMap.insert_all_new (Z.of_nat <$> seq 0 n) IdMap.new IdMap.id_map_new_wf) as (ids & Hids & Hw & Hs).
  { by eexists. } { apply NoDup_fmap; [apply _|apply NoDup_seq]. } { cbn. rewrite length_fmap, length_seq. lia. } { intros v _. apply not_elem_of_nil. }
  assert (Hbuild : forall es iw, Z.of_nat (length es) < 2 ^ 32 -> Forall (fun e => (e_src e < n)%nat) es -> exists c, build_csr n es iw [] = Some c
            /\ forall v, (v < n)%nat -> slice (offsets c) (neighbors c) v = Some (succs es v)).
  { intros es iw Hes He. destruct n as [|n]; [eexists; split; [reflexivity|lia]|].
    rewrite build_csr_canonical by (done || lia). eexists. split; [done|]. intros v Hv. by apply csr_row. }
  destruct (Hbuild edges weighted Hfit Ho) as (c & Ec & Hc). destruct (Hbuild (swap_ends <$> edges) false ltac:(by rewrite length_fmap) Hi) as (ci & Eci & Hci).
  assert (Hid : forall v, (v < n)%nat -> IdMap.to_vid ids v = Some (Z.of_nat v) /\ forall u, IdMap.to_slot ids (Z.of_nat v) = Some u <-> u = v).
  { intros v Hv. assert (Hl : forall u, IdMap.to_vid ids u = Some (Z.of_nat v) <-> u = v).
    { intros u. unfold IdMap.to_vid. rewrite Hs. cbn [slot_to_vid IdMap.new app]. rewrite list_lookup_fmap, fmap_Some.
      setoid_rewrite lookup_seq. split; [intros (? & [? ?] & ?); lia|intros ->; exists v; lia]. }
    split; [by apply Hl|]. intros u. by rewrite IdMap.to_slot_spec. }
  unfold from_dense_edges. rewrite Hids, Ec, Eci. cbn [mbind option_bind].
  destruct include_reverse; cbn [mbind option_bind]; eexists; (split; [reflexivity|]); (split; [reflexivity|]); intros v Hv;
    (split; [by apply Hc|]); (split; [|by apply Hid]); [intros _; by apply Hci|done].
Qed.
End csr.
Arguments GraphProjection : clear implicits.

(** C29: a projection holds the graph it was built from.  From a list of fewer
    than 2^32 edges between slots below [n], with [n] at most 2^32, no u32
    count or offset overflows and [from_dense_edges] builds arrays whose row for
    each vertex is the sorted list of the destinations of its edges (of the
    sources, in the reverse arrays), with slots and ids inverse to each other;
    and the arrays are the same for every order of the edges. *)
Theorem projection_exact {W} `{TC : TotalCmp W} (n : nat) (edges edges' : list (nat * nat * W)) (weighted include_reverse : bool) :
  Z.of_nat n <= 2 ^ 32 -> Z.of_nat (length edges) < 2 ^ 32 ->
  Forall (fun e => (e_src e < n)%nat /\ (e_dst e < n)%nat) edges -> edges ≡ₚ edges' ->
  exists g, from_dense_edges n edges weighted include_reverse = Some g
    /\ from_dense_edges n edges' weighted include_reverse = Some g /\ vertex_count g = n
    /\ forall v, (v < n)%nat ->
        (exists row, out_neighbors g v = Some row /\ Sorted le row
           /\ row ≡ₚ e_dst <$> filter (fun e => e_src e = v) edges)
        /\ (include_reverse = true -> exists row, in_neighbors g v = Some row /\ Sorted le row
             /\ row ≡ₚ e_src <$> filter (fun e => e_dst e = v) edges)
        /\ to_vid g v = Some (Z.of_nat v) /\ (forall u, to_slot g (Z.of_nat v) = Some u <-> u = v).
Proof.
  intros Hnv Hfit Hf Hp. destruct (dense_rows n edges weighted include_reverse Hnv Hfit Hf) as (g & E & Hn & Hrows). exists g.
  split; [done|]. split.
  { rewrite <- E. unfold from_dense_edges. symmetry.
    rewrite (build_csr_perm n edges edges'), (build_csr_perm n (swap_ends <$> edges) (swap_ends <$> edges')); [done|..].
    - by rewrite Hp.
    - by rewrite length_fmap.
    - rewrite Forall_fmap. eapply Forall_impl; [exact Hf|]. by intros e [_ ?].
    - done.
    - done.
    - eapply Forall_impl; [exact Hf|]. by intros e [? _]. }
  split; [done|]. intros v Hv. destruct (Hrows v Hv) as (H1 & H2 & H3). split; [|split; [|done]].
  - exists (succs edges v). split; [done|]. apply succs_spec.
  - intros Hr. exists (succs (swap_ends <$> edges) v). split; [by apply H2|].
    destruct (succs_spec (swap_ends <$> edges) v) as [S1 S2]. split; [done|]. rewrite S2. clear.
    induction edges as [|e es IH]; [done|]. cbn [fmap list_fmap]. rewrite !filter_cons.
    change (e_src (swap_ends e)) with (e_dst e). case_decide; [|done]. cbn [fmap list_fmap]. by rewrite IH.
Qed.

(** ** Examples *)

Module ProjectionExamples.
#[export] Instance Z_total_cmp : TotalCmp Z.
Proof.
  refine {| total_cmp := Z.compare |}.
  - intros. apply Z.compare_eq_iff.
  - intros. apply Z.compare_antisym.
  - intros x y z. rewrite !Z.compare_lt_iff. lia.
Defined.

(** A diamond 0 -> 1, 2 -> 3, and the same with an edge back. *)
Definition diamond : list (nat * nat * Z) := [(0%nat, 2%nat, 1); (1%nat, 3%nat, 1); (0%nat, 1%nat, 1); (2%nat, 3%nat, 1)].
Definition looped : list (nat * nat * Z) := (3%nat, 1%nat, 1) :: diamond.

Lemma projection_exact_witness :
  exists g, from_dense_edges 4 diamond false true = Some g /\ from_dense_edges 4 (rev diamond) false true = Some g
    /\ out_neighbors g 0 = Some [1; 2]%nat.
Proof.
  destruct (projection_exact 4 diamond (rev diamond) false true) as (g & H1 & H2 & _).
  - lia.
  - vm_compute. reflexivity.
  - repeat constructor; vm_compute; lia.
  - apply Permutation_rev.
  - exists g. split; [exact H1|]. split; [exact H2|]. vm_compute in H1. injection H1 as <-. reflexivity.
Defined.
End ProjectionExamples.
