(* ===== verification/TopoSort.v ===== *)
(** * Topological sort

    crates/uni-algo/src/algo/algorithms/topological_sort.rs: Kahn's algorithm
    over a projection.  [None] is a panic (an index out of range, a count
    below zero) or the end of the fuel; [topological_sort_correct] shows that
    neither happens on a well-formed projection. *)

From stdpp Require Import relations.
From S2P Require Import Prelude Projection.

Section topo.
  Context {W : Type} `{TC : TotalCmp W}.
  Implicit Types g : GraphProjection W.

Record TopologicalSortResult := mkTopo { sorted_nodes : list Z; has_cycle : bool }.

(** [in_degree[v] += 1]; a projection has fewer than 2^32 edges (its offsets
    are u32), so the u32 count cannot wrap. *)
Definition increment (in_degree : list nat) (v : nat) : option (list nat) :=
  x ← in_degree !! v; Some (<[v := S x]> in_degree).
Fixpoint bump_all (in_degree : list nat) (ns : list nat) : option (list nat) :=
  match ns with
  | [] => Some in_degree
  | v :: ns => d ← increment in_degree v; bump_all d ns
  end.

Fixpoint in_degrees g (in_degree : list nat) (vs : list nat) : option (list nat) :=
  match vs with
  | [] => Some in_degree
  | v :: vs => ns ← out_neighbors g v; d ← bump_all in_degree ns; in_degrees g d vs
  end.

(** [in_degree[v] -= 1], and enqueue at zero, for every neighbour. *)
Fixpoint relax (in_degree queue : list nat) (ns : list nat) : option (list nat * list nat) :=
  match ns with
  | [] => Some (in_degree, queue)
  | v :: ns =>
      x ← in_degree !! v;
      match x with
      | O => None
      | S x => relax (<[v := x]> in_degree) (if Nat.eqb x 0 then queue ++ [v] else queue) ns
      end
  end.

Fixpoint process g (fuel : nat) (in_degree queue sorted_indices : list nat) : option (list nat) :=
  match fuel with
  | O => None
  | S fuel =>
      match queue with
      | [] => Some sorted_indices
      | u :: queue =>
          let sorted_indices := sorted_indices ++ [u] in
          ns ← out_neighbors g u;
          '(in_degree, queue) ← relax in_degree queue ns;
          process g fuel in_degree queue sorted_indices
      end
  end.

Definition run g : option TopologicalSortResult :=
  let n := vertex_count g in
  if Nat.eqb n 0 then Some (mkTopo [] false)
  else
    in_degree ← in_degrees g (replicate n O) (seq 0 n);
    let queue := filter (fun v => in_degree !! v = Some O) (seq 0 n) in
    sorted_indices ← process g (S n) in_degree queue [];
    if negb (Nat.eqb (length sorted_indices) n) then Some (mkTopo [] true)
    else vids ← mapM (to_vid g) sorted_indices; Some (mkTopo vids false).

(** ** Graphs *)

(** A projection whose rows are in range and whose slots have ids. *)
Record well_formed g (succ : nat -> list nat) : Prop := {
  wf_rows v : (v < vertex_count g)%nat -> out_neighbors g v = Some (succ v);
  wf_range v w : (v < vertex_count g)%nat -> w ∈ succ v -> (w < vertex_count g)%nat;
  wf_ids v : (v < vertex_count g)%nat -> is_Some (to_vid g v);
}.

Definition edge (n : nat) (succ : nat -> list nat) (u v : nat) : Prop := (u < n)%nat /\ v ∈ succ u.

Definition times (v : nat) (l : list nat) : nat := length (filter (fun w => w = v) l).

(** Edges into [v] from vertices that are not yet sorted. *)
Definition pending (n : nat) (succ : nat -> list nat) (sorted : list nat) (v : nat) : nat :=
  sum_list ((fun u => if decide (u ∈ sorted) then O else times v (succ u)) <$> seq 0 n).

Lemma times_cons v w l : times v (w :: l) = ((if decide (w = v) then 1 else 0) + times v l)%nat.
Proof. unfold times. rewrite filter_cons. by case_decide. Qed.

Lemma times_0 v l : times v l = O <-> v ∉ l.
Proof.
  induction l as [|w l IH]; [split; [intros _; apply not_elem_of_nil|done]|].
  rewrite times_cons, not_elem_of_cons. case_decide as E; [subst; split; [lia|by intros [? _]]|].
  cbn. rewrite IH. naive_solver.
Qed.

Lemma sum_zero (f : nat -> nat) l : sum_list (f <$> l) = O <-> forall x, x ∈ l -> f x = O.
Proof.
  induction l as [|x l IH]; [split; [intros _ y ?%elem_of_nil; done|done]|]. cbn [fmap list_fmap]. rewrite sum_cons.
  split.
  - intros H y [-> | Hy]%elem_of_cons; [lia|]. apply IH; [lia|done].
  - intros H. rewrite (H x) by left. cbn. apply IH. intros y Hy. apply H. by right.
Qed.

Lemma pending_0 n succ sorted v : pending n succ sorted v = O <-> forall u, edge n succ u v -> u ∈ sorted.
Proof.
  unfold pending. rewrite sum_zero. split.
  - intros H u [Hu Hv]. specialize (H u). rewrite elem_of_seq in H. specialize (H ltac:(lia)).
    cbn in H. case_decide; [done|]. by apply times_0 in H.
  - intros H u Hu%elem_of_seq. case_decide as Hd; [done|]. apply times_0. intros Hv. apply Hd, H. split; [lia|done].
Qed.

Lemma pending_push n succ sorted u v : (u < n)%nat -> u ∉ sorted ->
  pending n succ sorted v = (pending n succ (sorted ++ [u]) v + times v (succ u))%nat.
Proof.
  intros Hu Hs. unfold pending.
  assert (G : forall l, NoDup l -> sum_list ((fun w => if decide (w ∈ sorted) then O else times v (succ w)) <$> l)
     = (sum_list ((fun w => if decide (w ∈ sorted ++ [u]) then O else times v (succ w)) <$> l)
        + if decide (u ∈ l) then times v (succ u) else O)%nat).
  { induction 1 as [|w l Hw _ IH]; [done|]. cbn [fmap list_fmap]. rewrite !sum_cons, IH.
    destruct (decide (w = u)) as [->|Hne].
    - rewrite (decide_False (P := u ∈ sorted)), (decide_True (P := u ∈ sorted ++ [u])), (decide_True (P := u ∈ u :: l)),
        (decide_False (P := u ∈ l)) by (done || set_solver). lia.
    - destruct (decide (w ∈ sorted)); [rewrite (decide_True (P := w ∈ sorted ++ [u])) by set_solver
        |rewrite (decide_False (P := w ∈ sorted ++ [u])) by set_solver];
        (destruct (decide (u ∈ l)); [rewrite (decide_True (P := u ∈ w :: l)) by set_solver
        |rewrite (decide_False (P := u ∈ w :: l)) by set_solver]); lia. }
  rewrite (G (seq 0 n) (NoDup_seq 0 n)), decide_True; [done|]. apply elem_of_seq. lia.
Qed.

(** ** In-degrees *)

Lemma bump_all_ok ns : forall d, (forall v, v ∈ ns -> (v < length d)%nat) ->
  exists d', bump_all d ns = Some d' /\ length d' = length d
    /\ forall v x, d !! v = Some x -> d' !! v = Some (x + times v ns)%nat.
Proof.
  induction ns as [|w ns IH]; intros d Hr; cbn [bump_all].
  { exists d. split_and!; [done..|]. intros v x Hv. change (times v []) with O. by rewrite Nat.add_0_r. }
  destruct (lookup_lt_is_Some_2 d w) as [y Hy]; [apply Hr; by left|]. unfold increment. rewrite Hy. cbn [mbind option_bind].
  destruct (IH (<[w := S y]> d)) as (d' & E & Hl & Hd).
  { intros v Hv. rewrite length_insert. apply Hr. by right. }
  exists d'. rewrite length_insert in Hl. split_and!; [done..|]. intros v x Hv. rewrite times_cons.
  destruct (decide (w = v)) as [->|Hne].
  - rewrite (Hd v (S y)) by (eapply list_lookup_insert_eq, lookup_lt_Some; done). f_equal. rewrite Hv in Hy. injection Hy as ->. lia.
  - rewrite (Hd v x) by (by rewrite list_lookup_insert_ne). done.
Qed.

Lemma in_degrees_ok g succ vs : well_formed g succ -> forall d, length d = vertex_count g ->
  (forall v, v ∈ vs -> (v < vertex_count g)%nat) ->
  exists d', in_degrees g d vs = Some d' /\ length d' = vertex_count g
    /\ forall v x, d !! v = Some x -> d' !! v = Some (x + sum_list ((fun u => times v (succ u)) <$> vs))%nat.
Proof.
  intros Hw. induction vs as [|u vs IH]; intros d Hl Hr; cbn [in_degrees].
  { exists d. split_and!; [done..|]. intros v x Hv. cbn. by rewrite Nat.add_0_r. }
  rewrite (wf_rows g succ Hw u) by (apply Hr; by left). cbn [mbind option_bind].
  destruct (bump_all_ok (succ u) d) as (d1 & -> & Hl1 & Hd1).
  { intros v Hv. rewrite Hl. eapply (wf_range g succ Hw u); [apply Hr; by left|done]. }
  cbn [mbind option_bind]. destruct (IH d1) as (d' & E & Hl' & Hd').
  { congruence. } { intros v Hv. apply Hr. by right. }
  exists d'. split_and!; [done..|]. intros v x Hv. rewrite (Hd' v _ (Hd1 v x Hv)). cbn [fmap list_fmap]. rewrite sum_cons. f_equal. lia.
Qed.

Lemma pending_nil n succ v : pending n succ [] v = sum_list ((fun u => times v (succ u)) <$> seq 0 n).
Proof. reflexivity. Qed.

(** ** The loop *)

(** Every vertex comes after the vertices with an edge to it. *)
Definition ordered (n : nat) (succ : nat -> list nat) (l : list nat) : Prop :=
  forall l1 v l2, l = l1 ++ v :: l2 -> forall u, edge n succ u v -> u ∈ l1.

Record kahn (n : nat) (succ : nat -> list nat) (rest : list nat) (d queue sorted : list nat) : Prop := {
  k_nodup : NoDup (sorted ++ queue);
  k_range v : v ∈ sorted ++ queue -> (v < n)%nat;
  k_degree v : (v < n)%nat -> d !! v = Some (pending n succ sorted v + times v rest)%nat;
  k_zero v : (v < n)%nat -> v ∈ sorted ++ queue <-> (pending n succ sorted v + times v rest = 0)%nat;
  k_ordered : ordered n succ sorted;
}.

Lemma relax_ok n succ sorted ns : forall d queue, (forall v, v ∈ ns -> (v < n)%nat) -> kahn n succ ns d queue sorted ->
  exists d' queue', relax d queue ns = Some (d', queue') /\ kahn n succ [] d' queue' sorted.
Proof.
  induction ns as [|v ns IH]; intros d queue Hr K; cbn [relax]; [by exists d, queue|].
  assert (Hv : (v < n)%nat) by (apply Hr; by left).
  rewrite (k_degree _ _ _ _ _ _ K v Hv), times_cons, decide_True by done. cbn [mbind option_bind].
  set (x := (pending n succ sorted v + times v ns)%nat). replace (pending n succ sorted v + (1 + times v ns))%nat with (S x) by lia.
  assert (Hn : v ∉ sorted ++ queue).
  { intros H. apply (k_zero _ _ _ _ _ _ K v Hv) in H. rewrite times_cons, decide_True in H by done. lia. }
  assert (Hlen : (v < length d)%nat) by (eapply lookup_lt_Some, (k_degree _ _ _ _ _ _ K); done).
  assert (Hdeg : forall w, (w < n)%nat -> <[v := x]> d !! w = Some (pending n succ sorted w + times w ns)%nat).
  { intros w Hw. destruct (decide (v = w)) as [<-|Hne]; [by rewrite list_lookup_insert_eq|].
    rewrite list_lookup_insert_ne, (k_degree _ _ _ _ _ _ K w Hw), times_cons, decide_False by done. done. }
  assert (Hz : forall w, (w < n)%nat -> w <> v -> w ∈ sorted ++ queue <-> (pending n succ sorted w + times w ns = 0)%nat).
  { intros w Hw Hne. rewrite (k_zero _ _ _ _ _ _ K w Hw), times_cons, decide_False by done. done. }
  apply IH; [intros w Hw; apply Hr; by right|]. destruct (Nat.eqb_spec x 0) as [Hx|Hx].
  - split.
    + rewrite app_assoc. apply NoDup_app. split; [apply (k_nodup _ _ _ _ _ _ K)|]. split; [|apply NoDup_singleton].
      by intros w Hw ->%list_elem_of_singleton.
    + intros w. rewrite app_assoc, elem_of_app, list_elem_of_singleton. intros [Hw| ->]; [by apply (k_range _ _ _ _ _ _ K)|done].
    + exact Hdeg.
    + intros w Hw. rewrite app_assoc, elem_of_app, list_elem_of_singleton. destruct (decide (w = v)) as [->|Hne].
      * split; [intros _; exact Hx|by right].
      * rewrite <- (Hz w Hw Hne). naive_solver.
    + apply (k_ordered _ _ _ _ _ _ K).
  - split; [apply (k_nodup _ _ _ _ _ _ K)|apply (k_range _ _ _ _ _ _ K)|exact Hdeg| |apply (k_ordered _ _ _ _ _ _ K)].
    intros w Hw. destruct (decide (w = v)) as [->|Hne]; [|by apply Hz]. split; [done|]. intros E. by exfalso.
Qed.

Lemma ordered_snoc n succ l u : ordered n succ l -> (forall w, edge n succ w u -> w ∈ l) -> ordered n succ (l ++ [u]).
Proof.
  intros Ho Hu l1 v l2 E w Hw. destruct l2 as [|x l2 _] using rev_ind.
  - apply app_inj_tail in E as [-> ->]. by apply Hu.
  - rewrite app_comm_cons, app_assoc in E. apply app_inj_tail in E as [-> _]. by eapply (Ho l1 v l2).
Qed.

Lemma kahn_next n succ u queue d sorted : kahn n succ [] d (u :: queue) sorted ->
  kahn n succ (succ u) d queue (sorted ++ [u]) /\ (u < n)%nat.
Proof.
  intros K. assert (Hu : (u < n)%nat) by (apply (k_range _ _ _ _ _ _ K); set_solver).
  pose proof (k_nodup _ _ _ _ _ _ K) as Nd.
  assert (Hs : u ∉ sorted) by (intros H; apply NoDup_app in Nd as (_ & Nd & _); apply (Nd u H); by left).
  assert (Hp : forall v, (pending n succ sorted v + times v [])%nat = (pending n succ (sorted ++ [u]) v + times v (succ u))%nat).
  { intros v. rewrite (pending_push n succ sorted u v Hu Hs). change (times v []) with O. lia. }
  split; [|done]. split.
  - by rewrite <- app_assoc.
  - intros v. rewrite <- app_assoc. apply (k_range _ _ _ _ _ _ K).
  - intros v Hv. rewrite (k_degree _ _ _ _ _ _ K v Hv). by rewrite Hp.
  - intros v Hv. rewrite <- app_assoc, <- Hp. by apply (k_zero _ _ _ _ _ _ K).
  - apply ordered_snoc; [apply (k_ordered _ _ _ _ _ _ K)|]. apply pending_0.
    pose proof (proj1 (k_zero _ _ _ _ _ _ K u Hu) ltac:(set_solver)) as H. lia.
Qed.

Lemma process_ok g succ fuel : well_formed g succ -> forall d queue sorted,
  kahn (vertex_count g) succ [] d queue sorted -> (vertex_count g < fuel + length sorted)%nat ->
  exists out, process g fuel d queue sorted = Some out /\ NoDup out /\ ordered (vertex_count g) succ out
    /\ (forall v, v ∈ out -> (v < vertex_count g)%nat)
    /\ (forall v, (v < vertex_count g)%nat -> v ∈ out <-> (forall u, edge (vertex_count g) succ u v -> u ∈ out)).
Proof.
  intros Hw. induction fuel as [|fuel IH]; intros d queue sorted K Hf.
  { exfalso. assert (H : (length (sorted ++ queue) <= vertex_count g)%nat).
    { rewrite <- (length_seq (vertex_count g) 0). apply submseteq_length, NoDup_submseteq; [apply (k_nodup _ _ _ _ _ _ K)|].
      intros v Hv. apply elem_of_seq. pose proof (k_range _ _ _ _ _ _ K v Hv). lia. }
    rewrite length_app in H. lia. }
  cbn [process]. destruct queue as [|u queue].
  - exists sorted. destruct K as [K1 K2 K3 K4 K5]. rewrite app_nil_r in *. split_and!; [done..|].
    intros v Hv. rewrite (K4 v Hv). change (times v []) with O. rewrite Nat.add_0_r. apply pending_0.
  - destruct (kahn_next _ _ _ _ _ _ K) as [K' Hu]. rewrite (wf_rows g succ Hw u Hu). cbn [mbind option_bind].
    destruct (relax_ok _ _ _ _ d queue (fun v => wf_range g succ Hw u v Hu) K') as (d' & queue' & -> & K'').
    cbn [mbind option_bind]. apply (IH d' queue' (sorted ++ [u]) K''). rewrite length_app. cbn. lia.
Qed.

(** ** Cycles *)

Lemma order_acyclic n succ out v : NoDup out -> ordered n succ out -> (forall v, (v < n)%nat -> v ∈ out) ->
  (forall u w, edge n succ u w -> (w < n)%nat) -> ~ tc (edge n succ) v v.
Proof.
  intros Nd Ho Hall Hrange.
  assert (Hbefore : forall u w, tc (edge n succ) u w -> forall l1 l2, out = l1 ++ w :: l2 -> u ∈ l1).
  { induction 1 as [u w He|u x w He _ IH]; intros l1 l2 E; [by eapply Ho|].
    specialize (IH l1 l2 E). apply list_elem_of_split in IH as (a & b & ->).
    apply elem_of_app. left. eapply (Ho a x (b ++ w :: l2)); [|done]. by rewrite E, <- app_assoc. }
  intros Hc. assert (Hv : v ∈ out).
  { apply Hall. inversion Hc as [? ? [? _]|? ? ? [? _]]; subst; done. }
  apply list_elem_of_split in Hv as (l1 & l2 & E). pose proof (Hbefore v v Hc l1 l2 E) as Hin.
  rewrite E in Nd. apply NoDup_app in Nd as (_ & Nd & _). apply (Nd v Hin). by left.
Qed.

Fixpoint chain (E : nat -> nat -> Prop) (l : list nat) : Prop :=
  match l with
  | a :: (b :: _) as l' => E a b /\ chain E l'
  | _ => True
  end.

Lemma chain_suffix E l1 l2 : chain E (l1 ++ l2) -> chain E l2.
Proof.
  induction l1 as [|a l1 IH]; [done|]. intros H. apply IH. cbn in H. by destruct (l1 ++ l2) as [|b l]; [|destruct H].
Qed.

Lemma chain_tc E x l y r : chain E (x :: l ++ y :: r) -> tc E x y.
Proof.
  revert x. induction l as [|z l IH]; intros x [He Hc]; [by constructor|]. eapply tc_l; [done|]. by apply IH.
Qed.

Lemma repeated (l : list nat) : ~ NoDup l -> exists l1 x l2 l3, l = l1 ++ x :: l2 ++ x :: l3.
Proof.
  induction l as [|a l IH]; intros Hn; [exfalso; apply Hn; constructor|].
  destruct (decide (a ∈ l)) as [(l2 & l3 & ->)%list_elem_of_split|Ha].
  - by exists [], a, l2, l3.
  - destruct IH as (l1 & x & l2 & l3 & ->); [intros Hl; apply Hn; by constructor|]. by exists (a :: l1), x, l2, l3.
Qed.

(** In a finite set where everything has a predecessor there is a cycle. *)
Lemma cycle_of_predecessors (E : nat -> nat -> Prop) (X : list nat) v :
  v ∈ X -> (forall w, w ∈ X -> exists u, u ∈ X /\ E u w) -> exists w, tc E w w.
Proof.
  intros Hv Hp. assert (Hl : forall k, exists a l, length (a :: l) = S k /\ (a :: l) ⊆ X /\ chain E (a :: l)).
  { induction k as [|k (a & l & Hlen & Hs & Hc)]; [exists v, []; split_and!; [done|set_solver|done]|].
    destruct (Hp a ltac:(apply Hs; by left)) as (u & Hu & He). exists u, (a :: l). split_and!; [cbn in *; lia|set_solver|done]. }
  destruct (Hl (length X)) as (a & l & Hlen & Hs & Hc).
  destruct (repeated (a :: l)) as (l1 & x & l2 & l3 & E').
  { intros Nd. pose proof (submseteq_length _ _ (NoDup_submseteq (a :: l) X Nd Hs)). lia. }
  exists x. rewrite E' in Hc. apply chain_suffix in Hc. by eapply chain_tc.
Qed.

Lemma unsorted_cycle n succ out : NoDup out -> (forall v, v ∈ out -> (v < n)%nat) ->
  (forall v, (v < n)%nat -> v ∈ out <-> (forall u, edge n succ u v -> u ∈ out)) ->
  length out <> n -> exists v, tc (edge n succ) v v.
Proof.
  intros Nd Hr Hz Hne. set (X := filter (fun v => v ∉ out) (seq 0 n)).
  assert (HX : forall v, v ∈ X <-> (v ∉ out) /\ (v < n)%nat).
  { intros v. unfold X. rewrite list_elem_of_filter, elem_of_seq. naive_solver lia. }
  destruct X as [|v X'] eqn:EX.
  - exfalso. apply Hne. rewrite <- (length_seq n 0). apply Permutation_length, NoDup_Permutation; [done|apply NoDup_seq|].
    intros v. rewrite elem_of_seq. split; [intros H; specialize (Hr v H); lia|]. intros [_ Hv].
    destruct (decide (v ∈ out)); [done|]. exfalso. eapply (not_elem_of_nil v). apply HX. split; [done|lia].
  - apply (cycle_of_predecessors _ (v :: X') v); [by left|]. intros w [Hw Hwn]%HX.
    destruct (decide (Exists (fun u => (u ∉ out) /\ w ∈ succ u) (seq 0 n))) as [(u & Hu & Huo & Hus)%Exists_exists|Hno].
    + rewrite elem_of_seq in Hu. exists u. split; [apply HX; split; [done|lia]|]. split; [lia|done].
    + exfalso. apply Hw, (Hz w Hwn). intros u [Hu Hs]. destruct (decide (u ∈ out)); [done|]. exfalso. apply Hno.
      apply Exists_exists. exists u. split; [apply elem_of_seq; lia|done].
Qed.
End topo.

(** C26: Kahn's algorithm is total and exact.  On a well-formed projection the
    run ends without a panic, reports a cycle exactly when the graph has one,
    and otherwise returns every vertex once, each after all vertices with an
    edge to it. *)
Theorem topological_sort_correct {W} `{TC : TotalCmp W} (g : GraphProjection W) (succ : nat -> list nat) :
  well_formed g succ ->
  exists r, run g = Some r
    /\ (has_cycle r = true <-> exists v, tc (edge (vertex_count g) succ) v v)
    /\ (has_cycle r = false -> exists order, mapM (to_vid g) order = Some (sorted_nodes r)
          /\ order ≡ₚ seq 0 (vertex_count g)
          /\ forall u v l1 l2, order = l1 ++ v :: l2 -> edge (vertex_count g) succ u v -> u ∈ l1).
Proof.
  intros Hw. unfold run. set (n := vertex_count g). destruct (Nat.eqb_spec n 0) as [Hn|Hn].
  { eexists. split; [done|]. cbn. split.
    - split; [done|]. intros (v & Hc). inversion Hc as [? ? [? _]|? ? ? [? _]]; subst; lia.
    - intros _. exists []. split_and!; [done|by rewrite Hn|]. by intros u v [] l2. }
  destruct (in_degrees_ok g succ (seq 0 n) Hw (replicate n O)) as (d & -> & Hl & Hd).
  { apply length_replicate. } { intros v Hv%elem_of_seq. unfold n in *. lia. }
  cbn [mbind option_bind].
  assert (Hdeg : forall v, (v < n)%nat -> d !! v = Some (pending n succ [] v)).
  { intros v Hv. rewrite (Hd v O) by (by rewrite lookup_replicate_2). by rewrite pending_nil. }
  destruct (process_ok g succ (S n) Hw d (filter (fun v => d !! v = Some O) (seq 0 n)) [])
    as (out & -> & Nd & Ho & Hr & Hz).
  { fold n. split; cbn [app].
    - apply NoDup_filter, NoDup_seq.
    - intros v [_ Hv%elem_of_seq]%list_elem_of_filter. lia.
    - intros v Hv. rewrite (Hdeg v Hv). change (times v []) with O. by rewrite Nat.add_0_r.
    - intros v Hv. rewrite list_elem_of_filter, elem_of_seq, (Hdeg v Hv). change (times v []) with O. rewrite Nat.add_0_r.
      split; [by intros [[= ->] _]|]. intros ->. split; [done|lia].
    - intros l1 v l2 E. by destruct l1. }
  { fold n. cbn. lia. }
  fold n in Ho, Hr, Hz. cbn [mbind option_bind].
  assert (Hrange : forall u w, edge n succ u w -> (w < n)%nat) by (intros u w [Hu Hs]; by eapply (wf_range g succ Hw u)).
  destruct (Nat.eqb_spec (length out) n) as [Hlen|Hlen]; cbn [negb].
  - assert (Hperm : out ≡ₚ seq 0 n).
    { apply submseteq_length_Permutation; [|by rewrite length_seq, Hlen]. apply NoDup_submseteq; [done|].
      intros v Hv. apply elem_of_seq. specialize (Hr v Hv). lia. }
    assert (Hids : is_Some (mapM (to_vid g) out)).
    { apply mapM_is_Some_2, Forall_forall. intros v Hv. apply (wf_ids g succ Hw). by apply Hr. }
    destruct Hids as [vids Hids]. rewrite Hids. cbn [mbind option_bind]. eexists. split; [done|]. cbn [has_cycle sorted_nodes]. split.
    + split; [done|]. intros (v & Hc). exfalso. eapply (order_acyclic n succ out v); try done.
      intros w Hw'. rewrite Hperm. apply elem_of_seq. lia.
    + intros _. exists out. split_and!; [done..|]. intros u v l1 l2 E He. by eapply Ho.
  - eexists. split; [done|]. cbn [has_cycle]. split; [|done]. split; [|done]. intros _. by eapply unsorted_cycle.
Qed.

(** ** Examples *)

(** A projection built from edges in range is well formed. *)
Lemma dense_well_formed {W} `{TC : TotalCmp W} (n : nat) (edges : list (nat * nat * W)) weighted rev :
  Z.of_nat n <= 2 ^ 32 -> Z.of_nat (length edges) < 2 ^ 32 ->
  Forall (fun e => (e_src e < n)%nat /\ (e_dst e < n)%nat) edges ->
  exists g, from_dense_edges n edges weighted rev = Some g /\ well_formed g (succs edges).
Proof.
  intros Hnv Hfit Hf. destruct (dense_rows n edges weighted rev Hnv Hfit Hf) as (g & E & Hn & Hrows). exists g. split; [done|]. split; rewrite Hn.
  - intros v Hv. by apply Hrows.
  - intros v w Hv Hw. rewrite (proj2 (succs_spec edges v)) in Hw. apply list_elem_of_fmap in Hw as (e & -> & He).
    apply list_elem_of_filter in He as [_ He]. rewrite Forall_forall in Hf. by apply Hf.
  - intros v Hv. destruct (Hrows v Hv) as (_ & _ & -> & _). by eexists.
Qed.

Module TopoExamples.
Import ProjectionExamples.

Example diamond_sorted : (g ← from_dense_edges 4 diamond false true; run g) = Some (mkTopo [0; 1; 2; 3] false).
Proof. reflexivity. Qed.

Lemma topological_sort_correct_witness :
  exists g r, from_dense_edges 4 looped false true = Some g /\ run g = Some r /\ has_cycle r = true
    /\ exists v, tc (edge 4 (succs looped)) v v.
Proof.
  destruct (dense_well_formed 4 looped false true) as (g & Hg & Hw); [lia|by vm_compute|repeat constructor; vm_compute; lia|].
  destruct (topological_sort_correct g (succs looped) Hw) as (r & Hr & Hc & _). exists g, r.
  assert (Hcyc : has_cycle r = true).
  { vm_compute in Hg. injection Hg as <-. vm_compute in Hr. injection Hr as <-. reflexivity. }
  assert (Hn : vertex_count g = 4%nat) by (vm_compute in Hg; injection Hg as <-; reflexivity).
  rewrite Hn in Hc. split; [exact Hg|]. split; [exact Hr|]. split; [exact Hcyc|]. apply Hc. exact Hcyc.
Defined.
End TopoExamples.
