(* ===== verification/Bipartite.v ===== *)
(** * Two-colouring

    crates/uni-algo/src/algo/algorithms/bipartite_check.rs: a breadth-first
    colouring from every uncoloured vertex, along the outgoing edges and, when
    the projection has them, the incoming ones.  Colours are 0 (none), 1 and 2.
    The queue loop runs on fuel one more than the number of vertices: each pop
    uses up a vertex that was coloured once.  [None] is a panic or the end of
    the fuel. *)

From stdpp Require Import relations.
From S2P Require Import Prelude Projection TopoSort.

Section bipartite.
  Context {W : Type} `{TC : TotalCmp W}.
  Implicit Types g : GraphProjection W.

Record BipartiteCheckResult := mkBipartite { is_bipartite : bool; partition : list (Z * Z) }.

(** [for &v in neighbors]: colour and queue the uncoloured, note a conflict. *)
Fixpoint visit (current_color next_color : Z) (colors : list Z) (queue : list nat) (ok : bool) (vs : list nat) :
    option (list Z * list nat * bool) :=
  match vs with
  | [] => Some (colors, queue, ok)
  | v :: vs =>
      c ← colors !! v;
      if c =? 0 then visit current_color next_color (<[v := next_color]> colors) (queue ++ [v]) ok vs
      else visit current_color next_color colors queue (if c =? current_color then false else ok) vs
  end.

Definition flip_color (c : Z) : Z := if c =? 1 then 2 else 1.

(** [while let Some(u) = queue.pop_front()] *)
Fixpoint bfs g (fuel : nat) (colors : list Z) (queue : list nat) (ok : bool) : option (list Z * bool) :=
  match fuel with
  | O => None
  | S fuel =>
      match queue with
      | [] => Some (colors, ok)
      | u :: queue =>
          current_color ← colors !! u;
          let next_color := flip_color current_color in
          outs ← out_neighbors g u;
          '(colors, queue, ok) ← visit current_color next_color colors queue ok outs;
          '(colors, queue, ok) ←
            (if has_reverse g then ins ← in_neighbors g u; visit current_color next_color colors queue ok ins
             else Some (colors, queue, ok));
          bfs g fuel colors queue ok
      end
  end.

(** [for start_node in 0..n] *)
Fixpoint color_all g (colors : list Z) (ok : bool) (starts : list nat) : option (list Z * bool) :=
  match starts with
  | [] => Some (colors, ok)
  | s :: starts =>
      c ← colors !! s;
      if c =? 0 then
        '(colors, ok) ← bfs g (S (vertex_count g)) (<[s := 1]> colors) [s] ok;
        color_all g colors ok starts
      else color_all g colors ok starts
  end.

Definition run g : option BipartiteCheckResult :=
  let n := vertex_count g in
  if Nat.eqb n 0 then Some (mkBipartite true [])
  else
    '(colors, ok) ← color_all g (replicate n 0) true (seq 0 n);
    if ok : bool then
      part ← mapM (fun ic : nat * Z => vid ← to_vid g ic.1; Some (vid, ic.2 - 1))
               (filter (fun ic : nat * Z => ic.2 <> 0) (zip (seq 0 n) colors));
      Some (mkBipartite true part)
    else Some (mkBipartite false []).

(** ** One vertex *)

Definition uncolored (colors : list Z) : nat := length (filter (fun c => c = 0) colors).

Lemma uncolored_insert colors v c : colors !! v = Some 0 -> c <> 0 ->
  uncolored colors = S (uncolored (<[v := c]> colors)).
Proof.
  intros Hv Hc. unfold uncolored. rewrite <- (take_drop_middle colors v 0 Hv) at 1.
  rewrite insert_take_drop by (by eapply lookup_lt_Some). rewrite !filter_app, !length_app.
  rewrite filter_cons_True, filter_cons_False by done. cbn. lia.
Qed.

Definition colored (colors : list Z) (v : nat) (c : Z) : Prop := colors !! v = Some c /\ c <> 0.

(** What a row of neighbours does to colours, queue and flag. *)
Record visited (cur next : Z) (colors : list Z) (ok : bool) (vs : list nat) (colors' : list Z) (new : list nat) (ok' : bool) : Prop := {
  vi_len : length colors' = length colors;
  vi_colors v c : colors !! v = Some c ->
    colors' !! v = Some (if decide (c = 0 /\ v ∈ vs) then next else c);
  vi_new v : v ∈ new <-> v ∈ vs /\ colors !! v = Some 0;
  vi_count : uncolored colors = (uncolored colors' + length new)%nat;
  vi_ok : ok' = true <-> ok = true /\ forall v, v ∈ vs -> colors !! v <> Some cur;
}.

Lemma visit_ok cur next vs : cur <> 0 -> next <> 0 -> next <> cur ->
  forall colors queue ok, (forall v, v ∈ vs -> (v < length colors)%nat) ->
  exists colors' new ok', visit cur next colors queue ok vs = Some (colors', queue ++ new, ok')
    /\ visited cur next colors ok vs colors' new ok'.
Proof.
  intros Hc Hx Hxc. induction vs as [|v vs IH]; intros colors queue ok Hr; cbn [visit].
  { exists colors, [], ok. rewrite app_nil_r. split; [done|]. split; [done| | |cbn; lia|].
    - intros w c Hw. rewrite decide_False; [done|]. by intros [_ ?%not_elem_of_nil].
    - set_solver.
    - set_solver. }
  destruct (lookup_lt_is_Some_2 colors v) as [c Hv]; [apply Hr; by left|]. rewrite Hv. cbn [mbind option_bind].
  destruct (Z.eqb_spec c 0) as [->|Hc0].
  - destruct (IH (<[v := next]> colors) (queue ++ [v]) ok) as (colors' & new & ok' & -> & [V1 V2 V3 V4 V5]).
    { intros w Hw. rewrite length_insert. apply Hr. by right. }
    exists colors', (v :: new), ok'. rewrite <- app_assoc. split; [done|]. rewrite length_insert in V1. split; [done| | | |].
    + intros w c Hw. destruct (decide (w = v)) as [->|Hne].
      * rewrite Hv in Hw. injection Hw as <-. rewrite (V2 v next) by (apply list_lookup_insert_eq; by eapply lookup_lt_Some).
        rewrite decide_False by tauto. rewrite decide_True; [done|]. split; [done|by left].
      * rewrite (V2 w c) by by rewrite list_lookup_insert_ne. f_equal. apply decide_ext. set_solver.
    + intros w. rewrite elem_of_cons, V3, elem_of_cons. destruct (decide (w = v)) as [->|Hne]; [set_solver|].
      rewrite list_lookup_insert_ne by done. set_solver.
    + rewrite (uncolored_insert colors v next Hv Hx), V4. cbn. lia.
    + rewrite V5. apply and_iff_compat_l. split; intros H w.
      * intros [-> | Hw]%elem_of_cons; [congruence|]. destruct (decide (w = v)) as [->|Hne]; [congruence|].
        specialize (H w Hw). by rewrite list_lookup_insert_ne in H.
      * intros Hw. destruct (decide (w = v)) as [->|Hne].
        -- rewrite list_lookup_insert_eq by (by eapply lookup_lt_Some). congruence.
        -- rewrite list_lookup_insert_ne by done. apply H. by right.
  - destruct (IH colors queue (if c =? cur then false else ok)) as (colors' & new & ok' & -> & [V1 V2 V3 V4 V5]).
    { intros w Hw. apply Hr. by right. }
    exists colors', new, ok'. split; [done|]. split; [done| | |done|].
    + intros w d Hw. rewrite (V2 w d Hw). f_equal. apply decide_ext. rewrite elem_of_cons.
      split; [tauto|]. intros [-> [-> | ?]]; [congruence|done].
    + intros w. rewrite V3, elem_of_cons. split; [tauto|]. intros [[-> | Hw] H]; [congruence|done].
    + rewrite V5. destruct (Z.eqb_spec c cur) as [->|Hne]; [set_solver|]. apply and_iff_compat_l.
      split; intros H w; [|intros Hw; apply H; by right]. intros [-> | Hw]%elem_of_cons; [congruence|by apply H].
Qed.

Lemma visit_app cur next vs ws : forall colors queue ok,
  visit cur next colors queue ok (vs ++ ws)
  = ('(colors, queue, ok) ← visit cur next colors queue ok vs; visit cur next colors queue ok ws).
Proof.
  induction vs as [|v vs IH]; intros colors queue ok; [done|]. cbn [app visit].
  destruct (colors !! v) as [c|]; [|done]. cbn [mbind option_bind]. destruct (c =? 0); apply IH.
Qed.

(** ** The queue *)

(** The incoming rows of a projection that has them mirror the outgoing ones. *)
Record mirrored g (succ pred : nat -> list nat) : Prop := {
  mi_rows v : has_reverse g = true -> (v < vertex_count g)%nat -> in_neighbors g v = Some (pred v);
  mi_mirror u v : (v < vertex_count g)%nat -> u ∈ pred v <-> edge (vertex_count g) succ u v;
}.

Definition adj g (succ pred : nat -> list nat) (u : nat) : list nat :=
  succ u ++ (if has_reverse g then pred u else []).

Definition proper (n : nat) (adj : nat -> list nat) (f : nat -> bool) : Prop :=
  forall u v, (u < n)%nat -> v ∈ adj u -> f u <> f v.
Definition agrees (f : nat -> bool) (colors : list Z) : Prop :=
  forall v c, colored colors v c -> c = if f v then 1 else 2.

Record painted (n : nat) (adj : nat -> list nat) (colors : list Z) (queue : list nat) (ok : bool) : Prop := {
  pa_len : length colors = n;
  pa_range v c : colors !! v = Some c -> c = 0 \/ c = 1 \/ c = 2;
  pa_queue v : v ∈ queue -> exists c, colored colors v c;
  pa_done u c v : colored colors u c -> u ∉ queue -> v ∈ adj u ->
    exists d, colored colors v d /\ (ok = true -> d <> c);
}.

Definition keeps_colors (colors colors' : list Z) : Prop := forall v c, colored colors v c -> colored colors' v c.

Lemma adj_range g succ pred u v : well_formed g succ -> mirrored g succ pred ->
  (u < vertex_count g)%nat -> v ∈ adj g succ pred u -> (v < vertex_count g)%nat.
Proof.
  intros Hw Hm Hu [Hv|Hv]%elem_of_app; [by eapply (wf_range g succ Hw u)|]. destruct (has_reverse g); [|by apply not_elem_of_nil in Hv].
  by apply (mi_mirror g succ pred Hm v u Hu) in Hv as [? _].
Qed.

Lemma flip_color_ok c : c = 1 \/ c = 2 -> flip_color c <> 0 /\ flip_color c <> c /\ (flip_color c = 1 \/ flip_color c = 2).
Proof. intros [-> | ->]; cbn; lia. Qed.

(** Popping [u] and walking its neighbours keeps the invariant. *)
Lemma visited_painted n adj colors queue ok u c colors' new ok' :
  painted n adj colors (u :: queue) ok -> colored colors u c ->
  visited c (flip_color c) colors ok (adj u) colors' new ok' -> (forall v, v ∈ adj u -> (v < n)%nat) ->
  painted n adj colors' (queue ++ new) ok' /\ keeps_colors colors colors'.
Proof.
  intros [P1 P2 P3 P4] [Hu Hc0] [V1 V2 V3 V4 V5] Hr.
  assert (Hc : c = 1 \/ c = 2) by (destruct (P2 u c Hu) as [?|?]; [done|lia]).
  destruct (flip_color_ok c Hc) as (F1 & F2 & F3).
  assert (Hk : keeps_colors colors colors').
  { intros v d [Hv Hd]. split; [|done]. rewrite (V2 v d Hv), decide_False by tauto. done. }
  assert (Hback : forall v d, colored colors' v d -> v ∉ new -> colored colors v d).
  { intros v d [Hv Hd] Hnew. destruct (lookup_lt_is_Some_2 colors v) as [e He]; [rewrite <- V1; by eapply lookup_lt_Some|].
    rewrite (V2 v e He) in Hv. case_decide as E; [|by simplify_eq]. destruct E as [-> E]. exfalso. apply Hnew, V3. done. }
  split; [|done]. split.
  - congruence.
  - intros v d Hv. destruct (lookup_lt_is_Some_2 colors v) as [e He]; [rewrite <- V1; by eapply lookup_lt_Some|].
    rewrite (V2 v e He) in Hv. case_decide; simplify_eq; [by right|by eapply P2].
  - intros v [Hv|Hv]%elem_of_app.
    + destruct (P3 v) as [d Hd]; [by right|]. exists d. by apply Hk.
    + apply V3 in Hv as [Hv H0]. exists (flip_color c). split; [|done]. by rewrite (V2 v 0 H0), decide_True.
  - intros w d v Hw [Hwq Hwn]%not_elem_of_app Hv. apply Hback in Hw; [|done]. destruct (decide (w = u)) as [->|Hne].
    + destruct Hw as [Hw Hd]. rewrite Hu in Hw. injection Hw as <-.
      destruct (lookup_lt_is_Some_2 colors v) as [e He]; [rewrite P1; by apply Hr|].
      destruct (decide (e = 0)) as [->|He0].
      * exists (flip_color c). split; [|done]. split; [by rewrite (V2 v 0 He), decide_True|done].
      * exists e. split; [by apply Hk|]. intros Ho. apply V5 in Ho as [_ Ho]. specialize (Ho v Hv). congruence.
    + destruct (P4 w d v Hw) as (e & He & Ho); [by rewrite not_elem_of_cons|done|]. exists e. split; [by apply Hk|].
      intros Hok. apply Ho. by apply V5 in Hok as [? _].
Qed.

(** A proper colouring that the colours follow is followed on, without conflict. *)
Lemma visited_agrees n adj colors ok u c colors' new ok' f :
  (u < n)%nat -> colored colors u c -> c = 1 \/ c = 2 ->
  visited c (flip_color c) colors ok (adj u) colors' new ok' -> proper n adj f -> agrees f colors ->
  agrees f colors' /\ ok' = ok.
Proof.
  intros Hn Hu Hc [V1 V2 V3 V4 V5] Hf Ha. pose proof (Ha u c Hu) as Ec. split.
  - intros v d [Hv Hd]. destruct (lookup_lt_is_Some_2 colors v) as [e He]; [rewrite <- V1; by eapply lookup_lt_Some|].
    rewrite (V2 v e He) in Hv. case_decide as E; [|by apply Ha; simplify_eq].
    destruct E as [-> E]. injection Hv as <-. specialize (Hf u v Hn E). unfold flip_color. destruct (f u), (f v); subst c; done.
  - apply eq_bool_prop_intro. rewrite !Is_true_true, V5. split; [by intros [? _]|]. intros Hok. split; [done|].
    intros v Hv Hcv. apply (Hf u v Hn Hv). specialize (Ha v c (conj Hcv (proj2 Hu))). destruct (f u), (f v); congruence.
Qed.

Lemma bfs_step g succ pred fuel colors u queue ok c : well_formed g succ -> mirrored g succ pred ->
  (u < vertex_count g)%nat -> colors !! u = Some c ->
  bfs g (S fuel) colors (u :: queue) ok
  = ('(colors, queue, ok) ← visit c (flip_color c) colors queue ok (adj g succ pred u); bfs g fuel colors queue ok).
Proof.
  intros Hw Hm Hu Hc. cbn [bfs]. rewrite Hc. cbn [mbind option_bind]. rewrite (wf_rows g succ Hw u Hu). cbn [mbind option_bind].
  unfold adj. rewrite visit_app. destruct (visit _ _ _ _ _ (succ u)) as [[[c1 q1] o1]|]; [|done]. cbn [mbind option_bind].
  destruct (has_reverse g) eqn:Er; [|done]. by rewrite (mi_rows g succ pred Hm u Er Hu).
Qed.

Lemma bfs_ok g succ pred : well_formed g succ -> mirrored g succ pred -> forall fuel colors queue ok,
  painted (vertex_count g) (adj g succ pred) colors queue ok -> (uncolored colors + length queue < fuel)%nat ->
  exists colors' ok', bfs g fuel colors queue ok = Some (colors', ok')
    /\ painted (vertex_count g) (adj g succ pred) colors' [] ok' /\ keeps_colors colors colors'
    /\ forall f, proper (vertex_count g) (adj g succ pred) f -> agrees f colors -> agrees f colors' /\ ok' = ok.
Proof.
  intros Hw Hm. induction fuel as [|fuel IH]; intros colors queue ok P Hf; [lia|].
  destruct queue as [|u queue]; [exists colors, ok; split_and!; [done|done|by intros v d|done]|].
  destruct (pa_queue _ _ _ _ _ P u ltac:(by left)) as [c Hc].
  assert (Hu : (u < vertex_count g)%nat) by (rewrite <- (pa_len _ _ _ _ _ P); by eapply lookup_lt_Some, Hc).
  assert (Hc12 : c = 1 \/ c = 2) by (destruct Hc as [H1 H2]; destruct (pa_range _ _ _ _ _ P u c H1); [done|lia]).
  destruct (flip_color_ok c Hc12) as (F1 & F2 & _).
  rewrite (bfs_step g succ pred fuel colors u queue ok c Hw Hm Hu (proj1 Hc)).
  assert (Hr : forall v, v ∈ adj g succ pred u -> (v < vertex_count g)%nat) by (intros v; by apply adj_range).
  destruct (visit_ok c (flip_color c) (adj g succ pred u) (proj2 Hc) F1 F2 colors queue ok) as (c1 & new & ok1 & -> & V).
  { intros v Hv. rewrite (pa_len _ _ _ _ _ P). by apply Hr. }
  cbn [mbind option_bind]. destruct (visited_painted _ _ _ _ _ _ _ _ _ _ P Hc V Hr) as [P1 K1].
  destruct (IH c1 (queue ++ new) ok1 P1) as (c2 & ok2 & -> & P2 & K2 & A2).
  { rewrite length_app. pose proof (vi_count _ _ _ _ _ _ _ _ V). cbn in Hf. lia. }
  exists c2, ok2. split; [done|]. split; [done|]. split; [intros v d Hd; by apply K2, K1|]. intros f Hp Ha.
  destruct (visited_agrees _ _ _ _ _ _ _ _ _ f Hu Hc Hc12 V Hp Ha) as [A1 ->]. by apply A2.
Qed.

(** ** All starts *)

Lemma painted_closed n adj colors ok u c v :
  painted n adj colors [] ok -> colored colors u c -> v ∈ adj u -> exists d, colored colors v d.
Proof. intros P Hu Hv. destruct (pa_done _ _ _ _ _ P u c v Hu) as (d & Hd & _); [apply not_elem_of_nil|done|by exists d]. Qed.

Lemma painted_start n adj colors ok s :
  painted n adj colors [] ok -> colors !! s = Some 0 -> painted n adj (<[s := 1]> colors) [s] ok /\ keeps_colors colors (<[s := 1]> colors).
Proof.
  intros P Hs. pose proof (lookup_lt_Some _ _ _ Hs) as Hlt.
  assert (Hk : keeps_colors colors (<[s := 1]> colors)).
  { intros v c [Hv Hc]. split; [|done]. rewrite list_lookup_insert_ne; [done|]. intros ->. congruence. }
  split; [|done]. split.
  - rewrite length_insert. apply P.
  - intros v c Hv. apply list_lookup_insert_Some in Hv as [(-> & -> & _)|[_ Hv]]; [lia|by eapply (pa_range _ _ _ _ _ P)].
  - intros v ->%list_elem_of_singleton. exists 1. split; [by apply list_lookup_insert_eq|done].
  - intros u c v [Hu Hc] Hq Hv. rewrite list_elem_of_singleton in Hq. rewrite list_lookup_insert_ne in Hu by congruence.
    destruct (pa_done _ _ _ _ _ P u c v (conj Hu Hc)) as (d & Hd & Ho); [apply not_elem_of_nil|done|]. exists d. split; [by apply Hk|done].
Qed.

(** Outside the finished vertices a proper colouring can be flipped to give the
    new start colour 1: no edge leaves the finished vertices. *)
Lemma agrees_start n adj colors ok s f :
  painted n adj colors [] ok -> colors !! s = Some 0 ->
  (forall u v, (u < n)%nat -> v ∈ adj u -> (v < n)%nat /\ u ∈ adj v) ->
  proper n adj f -> agrees f colors -> exists f', proper n adj f' /\ agrees f' (<[s := 1]> colors).
Proof.
  intros P Hs Hsym Hf Ha. set (fresh v := bool_decide (colors !! v = Some 0)).
  exists (fun v => if fresh v then eqb (f v) (f s) else f v). split.
  - intros u v Hu Hv. destruct (Hsym u v Hu Hv) as [Hvn Hvu]. specialize (Hf u v Hu Hv).
    assert (Hcol : forall w, (w < n)%nat -> fresh w = false -> exists c, colored colors w c).
    { intros w Hw Hfr. apply bool_decide_eq_false in Hfr.
      destruct (lookup_lt_is_Some_2 colors w) as [c Hc]; [by rewrite (pa_len _ _ _ _ _ P)|].
      exists c. split; [done|]. intros ->. done. }
    assert (Hfr : forall w c, colored colors w c -> fresh w = false).
    { intros w c [Hw Hc]. apply bool_decide_eq_false. congruence. }
    assert (E : fresh u = fresh v).
    { destruct (fresh u) eqn:Eu, (fresh v) eqn:Ev; try done.
      - destruct (Hcol v Hvn Ev) as [c Hc]. destruct (painted_closed _ _ _ _ _ _ _ P Hc Hvu) as [d Hd%Hfr]. congruence.
      - destruct (Hcol u Hu Eu) as [c Hc]. destruct (painted_closed _ _ _ _ _ _ _ P Hc Hv) as [d Hd%Hfr]. congruence. }
    rewrite E. destruct (fresh v); [|done]. by destruct (f u), (f v), (f s).
  - intros v c [Hv Hc]. apply list_lookup_insert_Some in Hv as [(<- & <- & _)|[Hne Hv]].
    + unfold fresh. rewrite bool_decide_eq_true_2 by done. by rewrite eqb_reflx.
    + unfold fresh. rewrite bool_decide_eq_false_2 by congruence. by apply Ha.
Qed.

Lemma uncolored_le colors : (uncolored colors <= length colors)%nat.
Proof. unfold uncolored. apply length_filter. Qed.

Lemma color_all_ok g succ pred starts : well_formed g succ -> mirrored g succ pred ->
  (forall s, s ∈ starts -> (s < vertex_count g)%nat) -> forall colors ok,
  painted (vertex_count g) (adj g succ pred) colors [] ok ->
  exists colors' ok', color_all g colors ok starts = Some (colors', ok')
    /\ painted (vertex_count g) (adj g succ pred) colors' [] ok' /\ keeps_colors colors colors'
    /\ (forall s, s ∈ starts -> exists c, colored colors' s c)
    /\ (has_reverse g = true -> forall f, proper (vertex_count g) (adj g succ pred) f -> agrees f colors -> ok' = ok).
Proof.
  intros Hw Hm. induction starts as [|s starts IH]; intros Hr colors ok P; cbn [color_all].
  { exists colors, ok. split_and!; [done|done|by intros v c|by intros s ?%not_elem_of_nil|done]. }
  destruct (lookup_lt_is_Some_2 colors s) as [c Hc]; [rewrite (pa_len _ _ _ _ _ P); apply Hr; by left|].
  rewrite Hc. cbn [mbind option_bind]. specialize (IH ltac:(intros x Hx; apply Hr; by right)).
  destruct (Z.eqb_spec c 0) as [->|Hc0].
  - destruct (painted_start _ _ _ _ _ P Hc) as [P1 K1].
    destruct (bfs_ok g succ pred Hw Hm (S (vertex_count g)) _ _ _ P1) as (c2 & ok2 & -> & P2 & K2 & A2).
    { pose proof (uncolored_insert colors s 1 Hc ltac:(lia)). pose proof (uncolored_le colors) as H2.
      rewrite (pa_len _ _ _ _ _ P) in H2. cbn [length]. lia. }
    cbn [mbind option_bind]. destruct (IH c2 ok2 P2) as (c3 & ok3 & -> & P3 & K3 & C3 & A3). exists c3, ok3. split_and!; [done|done| | |].
    + intros v d Hd. by apply K3, K2, K1.
    + intros x [-> | Hx]%elem_of_cons; [|by apply C3]. exists 1. apply K3, K2. split; [|done].
      apply list_lookup_insert_eq. by eapply lookup_lt_Some.
    + intros Hrev f Hf Ha. destruct (agrees_start _ _ _ _ _ f P Hc) as (f' & Hf' & Ha'); [|done|done|].
      { intros u v Hu Hv. pose proof (adj_range _ _ _ _ _ Hw Hm Hu Hv) as Hvn. split; [done|]. unfold adj in *.
        rewrite Hrev in *. rewrite elem_of_app in *. destruct Hv as [Hv|Hv].
        - right. by apply (mi_mirror g succ pred Hm u v Hvn).
        - left. by apply (mi_mirror g succ pred Hm v u Hu). }
      destruct (A2 f' Hf' Ha') as [A2' <-]. by apply (A3 Hrev f').
  - destruct (IH colors ok P) as (c3 & ok3 & -> & P3 & K3 & C3 & A3). exists c3, ok3. split_and!; [done..| |done].
    intros x [-> | Hx]%elem_of_cons; [|by apply C3]. exists c. by apply K3.
Qed.

Lemma painted_nothing n adj : painted n adj (replicate n 0) [] true.
Proof.
  split; [apply length_replicate|..].
  - intros v c [-> _]%lookup_replicate. by left.
  - by intros v ?%not_elem_of_nil.
  - by intros u c v [[-> _]%lookup_replicate ?].
Qed.

Lemma partition_ok g succ (colors : list Z) n : well_formed g succ -> (n <= vertex_count g)%nat -> length colors = n ->
  (forall v c, colors !! v = Some c -> c <> 0) ->
  exists vids, mapM (to_vid g) (seq 0 n) = Some vids
    /\ mapM (fun ic : nat * Z => vid ← to_vid g ic.1; Some (vid, ic.2 - 1)) (filter (fun ic : nat * Z => ic.2 <> 0) (zip (seq 0 n) colors))
       = Some (zip vids ((fun v => default 0 (colors !! v) - 1) <$> seq 0 n)).
Proof.
  intros Hw Hn Hl Hc. assert (Hids : is_Some (mapM (to_vid g) (seq 0 n))).
  { apply mapM_is_Some_2, Forall_forall. intros v Hv%elem_of_seq. apply (wf_ids g succ Hw). lia. }
  destruct Hids as [vids Hids]. exists vids. split; [done|].
  assert (E : filter (fun ic : nat * Z => ic.2 <> 0) (zip (seq 0 n) colors) = (fun v => (v, default 0 (colors !! v))) <$> seq 0 n).
  { rewrite filter_keep.
    - apply (list_eq_same_length _ _ n); [by rewrite length_fmap, length_seq|rewrite length_zip_with, length_seq; lia|].
      intros v x y Hv Hx Hy. rewrite list_lookup_fmap, lookup_seq_lt in Hy by done. injection Hy as <-.
      rewrite lookup_zip_with, lookup_seq_lt in Hx by done. cbn in Hx |- *. destruct (colors !! v); [|done]. by injection Hx.
    - intros [v c] Hv. apply list_elem_of_lookup in Hv as [i Hv]. rewrite lookup_zip_with in Hv.
      destruct (seq 0 n !! i); [|done]. cbn in Hv. destruct (colors !! i) eqn:Ei; [|done]. injection Hv as <- <-. by eapply Hc. }
  rewrite E. clear E. revert vids Hids. generalize (seq 0 n). intros l. induction l as [|v l IH]; intros vids Hids.
  - injection Hids as <-. done.
  - cbn [mapM fmap list_fmap fst] in *. destruct (to_vid g v) as [x|]; [|done]. cbn [mbind option_bind] in *.
    destruct (mapM (to_vid g) l) as [xs|]; [|done]. cbn in Hids. injection Hids as <-. rewrite (IH xs eq_refl). done.
Qed.
End bipartite.

(** The check is total and sound, and exact on projections with incoming
    rows.  On a well-formed projection the run ends without a panic; a graph
    reported bipartite comes with a side, 0 or 1, for every vertex, and every
    edge joins different sides; with the incoming rows present the report is
    "bipartite" exactly when some two-colouring of the edges exists. *)
Theorem bipartite_check_correct {W} `{TC : TotalCmp W} (g : GraphProjection W) (succ pred : nat -> list nat) :
  well_formed g succ -> mirrored g succ pred ->
  exists r, run g = Some r
    /\ (is_bipartite r = true -> exists (side : nat -> Z) vids,
          mapM (to_vid g) (seq 0 (vertex_count g)) = Some vids
          /\ partition r = zip vids (side <$> seq 0 (vertex_count g))
          /\ (forall v, (v < vertex_count g)%nat -> side v = 0 \/ side v = 1)
          /\ forall u v, edge (vertex_count g) succ u v -> side u <> side v)
    /\ (is_bipartite r = false -> partition r = [])
    /\ (has_reverse g = true ->
          is_bipartite r = true <-> exists f : nat -> bool, forall u v, edge (vertex_count g) succ u v -> f u <> f v).
Proof.
  intros Hw Hm. unfold run. set (n := vertex_count g). destruct (Nat.eqb_spec n 0) as [Hn|Hn].
  { exists (mkBipartite true []). rewrite Hn. split_and!; [done| |done|].
    - intros _. exists (fun _ => 0), []. split_and!; [done|done|lia|]. intros u v [? _]. lia.
    - intros _. split; [|done]. intros _. exists (fun _ => true). intros u v [? _]. lia. }
  destruct (color_all_ok g succ pred (seq 0 n) Hw Hm) with (colors := replicate n 0) (ok := true)
    as (colors & ok & -> & P & _ & C & A).
  { intros s Hs%elem_of_seq. unfold n in *. lia. } { apply painted_nothing. }
  fold n in P, A. cbn [mbind option_bind].
  assert (Hcol : forall v, (v < n)%nat -> exists c, colored colors v c) by (intros v Hv; apply C, elem_of_seq; lia).
  set (side v := default 0 (colors !! v) - 1).
  assert (Hside : ok = true -> forall u v, edge n succ u v -> side u <> side v).
  { intros Hok u v [Hu Hv]. destruct (Hcol u Hu) as [c Hc].
    destruct (pa_done _ _ _ _ _ P u c v Hc) as (d & Hd & Ho); [apply not_elem_of_nil|apply elem_of_app; by left|].
    unfold side. rewrite (proj1 Hc), (proj1 Hd). cbn. specialize (Ho Hok). lia. }
  assert (Hexact : has_reverse g = true -> ok = true <-> exists f : nat -> bool, forall u v, edge n succ u v -> f u <> f v).
  { intros Hrev. split.
    - intros Hok. exists (fun v => side v =? 0). intros u v He. pose proof (Hside Hok u v He) as Hne.
      assert (Hs : forall w, (w < n)%nat -> side w = 0 \/ side w = 1).
      { intros w Hlt. destruct (Hcol w Hlt) as [c [Hc Hc0]]. unfold side. rewrite Hc. destruct (pa_range _ _ _ _ _ P w c Hc); cbn; [done|lia]. }
      destruct He as [Hu Hv]. pose proof (wf_range g succ Hw u v Hu Hv) as Hvn.
      destruct (Hs u Hu) as [E1|E1], (Hs v Hvn) as [E2|E2]; rewrite E1, E2; first [done|congruence].
    - intros [f Hf]. apply (A Hrev f).
      + intros u v Hu [Hv|Hv]%elem_of_app; [by apply Hf|]. rewrite Hrev in Hv.
        apply (mi_mirror g succ pred Hm v u Hu) in Hv. apply not_eq_sym. by apply Hf.
      + by intros v c [[-> _]%lookup_replicate ?]. }
  destruct ok.
  - destruct (partition_ok g succ colors n Hw) as (vids & Hids & ->); [done|apply P| |].
    { intros v c Hv. destruct (Hcol v) as [d [Hd Hd0]]; [rewrite <- (pa_len _ _ _ _ _ P); by eapply lookup_lt_Some|]. congruence. }
    eexists. split; [done|]. cbn [is_bipartite partition]. split_and!; [|done|done]. intros _. exists side, vids.
    split_and!; [done|done| |by apply Hside]. intros v Hv. destruct (Hcol v Hv) as [c [Hc Hc0]]. unfold side. rewrite Hc.
    destruct (pa_range _ _ _ _ _ P v c Hc); cbn; [done|lia].
  - eexists. split; [done|]. cbn [is_bipartite partition]. by split_and!.
Qed.

(** ** Examples *)

(** A projection built with its incoming rows has them mirrored. *)
Lemma dense_mirrored {W} `{TC : TotalCmp W} (n : nat) (edges : list (nat * nat * W)) weighted :
  Z.of_nat n <= 2 ^ 32 -> Z.of_nat (length edges) < 2 ^ 32 ->
  Forall (fun e => (e_src e < n)%nat /\ (e_dst e < n)%nat) edges ->
  exists g, from_dense_edges n edges weighted true = Some g /\ well_formed g (succs edges)
    /\ mirrored g (succs edges) (succs (swap_ends <$> edges)).
Proof.
  intros Hnv Hfit Hf. destruct (dense_well_formed n edges weighted true Hnv Hfit Hf) as (g & E & Hw).
  destruct (dense_rows n edges weighted true Hnv Hfit Hf) as (g' & E' & Hn & Hrows). rewrite E in E'. injection E' as <-.
  exists g. split; [done|]. split; [done|]. split; rewrite Hn.
  - intros v _ Hv. by apply Hrows.
  - intros u v Hv. unfold edge. rewrite (proj2 (succs_spec (swap_ends <$> edges) v)), (proj2 (succs_spec edges u)).
    rewrite Forall_forall in Hf. rewrite !list_elem_of_fmap. split.
    + intros (e' & -> & [Hs He]%list_elem_of_filter). apply list_elem_of_fmap in He as (e & -> & He). split; [exact (proj1 (Hf e He))|].
      exists e. split; [done|]. by apply list_elem_of_filter.
    + intros [_ (e & -> & [Hs He]%list_elem_of_filter)]. exists (swap_ends e). split; [done|].
      apply list_elem_of_filter. split; [done|]. by apply list_elem_of_fmap_2.
Qed.

Module BipartiteExamples.
Import ProjectionExamples.

Definition triangle : list (nat * nat * Z) := [(0%nat, 1%nat, 1); (1%nat, 2%nat, 1); (2%nat, 0%nat, 1)].
Definition backward : list (nat * nat * Z) := [(1%nat, 0%nat, 1)].

Example diamond_partition :
  (g ← from_dense_edges 4 diamond false true; run g) = Some (mkBipartite true [(0, 0); (1, 1); (2, 1); (3, 0)]).
Proof. reflexivity. Qed.
Example triangle_rejected : (g ← from_dense_edges 3 triangle false true; run g) = Some (mkBipartite false []).
Proof. reflexivity. Qed.

Lemma bipartite_check_correct_witness :
  exists g r, from_dense_edges 4 diamond false true = Some g /\ run g = Some r /\ is_bipartite r = true
    /\ exists f : nat -> bool, forall u v, edge 4 (succs diamond) u v -> f u <> f v.
Proof.
  destruct (dense_mirrored 4 diamond false) as (g & Hg & Hw & Hm); [lia|by vm_compute|repeat constructor; vm_compute; lia|].
  destruct (bipartite_check_correct g (succs diamond) (succs (swap_ends <$> diamond)) Hw Hm) as (r & Hr & _ & _ & Hc). exists g, r.
  assert (Hb : is_bipartite r = true /\ has_reverse g = true /\ vertex_count g = 4%nat).
  { vm_compute in Hg. injection Hg as <-. vm_compute in Hr. injection Hr as <-. split; [|split]; reflexivity. }
  destruct Hb as (Hb & Hrev & Hn). rewrite Hn in Hc. split; [exact Hg|]. split; [exact Hr|]. split; [exact Hb|].
  apply (Hc Hrev). exact Hb.
Defined.

(** With the outgoing rows only, a single edge back to a vertex that an
    earlier start coloured is reported as a conflict: the graph is bipartite
    and the check says it is not. *)
Theorem forward_rows_misreport :
  (g ← from_dense_edges 2 backward false false; run g) = Some (mkBipartite false [])
  /\ (g ← from_dense_edges 2 backward false true; run g) = Some (mkBipartite true [(0, 0); (1, 1)])
  /\ exists f : nat -> bool, forall u v, edge 2 (succs backward) u v -> f u <> f v.
Proof.
  split; [reflexivity|]. split; [reflexivity|]. exists (fun v => Nat.eqb v 0). intros u v [Hu Hv].
  destruct u as [|[|u]]; [|vm_compute in Hv; by apply list_elem_of_singleton in Hv as ->|lia].
  vm_compute in Hv. by apply not_elem_of_nil in Hv.
Qed.
End BipartiteExamples.
