(* ===== verification/CycleDetection.v ===== *)
(** * Cycle detection

    crates/uni-algo/src/algo/algorithms/cycle_detection.rs: a depth-first
    search with states 0 (unvisited), 1 (on the stack) and 2 (finished) and
    parent pointers, from which the first cycle found is read back.  The depth
    of the recursion is bounded by the unvisited vertices and the read-back by
    the stack, so fuel one more than the number of vertices is enough for both.
    [None] is a panic or the end of the fuel. *)

From stdpp Require Import relations.
From S2P Require Import Prelude Projection TopoSort Bipartite.

Section cycles.
  Context {W : Type} `{TC : TotalCmp W}.
  Implicit Types g : GraphProjection W.

Record CycleDetectionResult := mkCycle { cd_has_cycle : bool; cycle_nodes : list Z }.

Definition Found : Type := list Z * list (option nat) * option (list nat).

(** [while curr != v { cycle.push(curr); curr = parent[curr].unwrap(); }] *)
Fixpoint read_back (fuel : nat) (parent : list (option nat)) (v curr : nat) (cycle : list nat) : option (list nat) :=
  match fuel with
  | O => None
  | S fuel =>
      if Nat.eqb curr v then Some cycle
      else p ← parent !! curr; q ← p; read_back fuel parent v q (cycle ++ [curr])
  end.

(** [for &v in graph.out_neighbors(u)], [rec] being the recursive call. *)
Fixpoint scan_out (n : nat) (rec : nat -> list Z -> list (option nat) -> option Found)
    (u : nat) (state : list Z) (parent : list (option nat)) (vs : list nat) : option Found :=
  match vs with
  | [] => Some (state, parent, None)
  | v :: vs =>
      s ← state !! v;
      if s =? 1 then
        cycle ← read_back (S n) parent v u [v];
        Some (state, parent, Some (reverse (cycle ++ [v])))
      else if s =? 0 then
        _ ← parent !! v;
        '(state, parent, r) ← rec v state (<[v := Some u]> parent);
        match r with
        | Some cycle => Some (state, parent, Some cycle)
        | None => scan_out n rec u state parent vs
        end
      else scan_out n rec u state parent vs
  end.

Fixpoint find_cycle g (fuel u : nat) (state : list Z) (parent : list (option nat)) : option Found :=
  match fuel with
  | O => None
  | S fuel =>
      _ ← state !! u;
      vs ← out_neighbors g u;
      '(state, parent, r) ← scan_out (vertex_count g) (find_cycle g fuel) u (<[u := 1]> state) parent vs;
      match r with
      | Some cycle => Some (state, parent, Some cycle)
      | None => Some (<[u := 2]> state, parent, None)
      end
  end.

Fixpoint find_first g (state : list Z) (parent : list (option nat)) (vs : list nat) : option (option (list nat)) :=
  match vs with
  | [] => Some None
  | v :: vs =>
      s ← state !! v;
      if s =? 0 then
        '(state, parent, r) ← find_cycle g (S (vertex_count g)) v state parent;
        match r with
        | Some cycle => Some (Some cycle)
        | None => find_first g state parent vs
        end
      else find_first g state parent vs
  end.

Definition run g : option CycleDetectionResult :=
  let n := vertex_count g in
  if Nat.eqb n 0 then Some (mkCycle false [])
  else
    r ← find_first g (replicate n 0) (replicate n None) (seq 0 n);
    match r with
    | Some cycle => vids ← mapM (to_vid g) cycle; Some (mkCycle true vids)
    | None => Some (mkCycle false [])
    end.

(** ** The stack *)

(** The parent pointers of the vertices on the stack, newest first. *)
Fixpoint linked (E : nat -> nat -> Prop) (parent : list (option nat)) (path : list nat) : Prop :=
  match path with
  | x :: (y :: _) as rest => parent !! x = Some (Some y) /\ E y x /\ linked E parent rest
  | _ => True
  end.

Lemma linked_tail E parent x path : linked E parent (x :: path) -> linked E parent path.
Proof. destruct path; [done|]. by intros (_ & _ & ?). Qed.

(** Reading back from the top of the stack to [v] gives the stack down to [v]. *)
Lemma read_back_ok E parent v rest pre : forall fuel x acc,
  linked E parent (x :: pre ++ v :: rest) -> v <> x -> v ∉ pre -> (length pre + 1 < fuel)%nat ->
  read_back fuel parent v x acc = Some (acc ++ x :: pre).
Proof.
  induction pre as [|y pre IH]; intros fuel x acc Hl Hx Hv Hf; destruct fuel as [|fuel]; try lia; cbn [read_back].
  - rewrite (proj2 (Nat.eqb_neq x v)) by done. destruct Hl as (-> & _). cbn [mbind option_bind].
    destruct fuel as [|fuel]; [cbn in Hf; lia|]. cbn [read_back]. by rewrite Nat.eqb_refl.
  - rewrite (proj2 (Nat.eqb_neq x v)) by done. destruct Hl as (-> & _ & Hl). cbn [mbind option_bind].
    apply not_elem_of_cons in Hv as [Hy Hv]. rewrite (IH fuel y (acc ++ [x]) Hl Hy Hv) by (cbn in Hf; lia).
    by rewrite <- app_assoc.
Qed.

Lemma chain_snoc E l x y : chain E (l ++ [x]) -> E x y -> chain E (l ++ [x; y]).
Proof.
  induction l as [|a l IH]; cbn; [done|]. intros Hc Hxy.
  destruct l as [|b l]; cbn in *; [naive_solver|]. destruct Hc as [? Hc]. split; [done|]. by apply IH.
Qed.

(** The stack read upwards is a walk. *)
Lemma linked_chain E parent path : linked E parent path -> chain E (reverse path).
Proof.
  induction path as [|x path IH]; [done|]. intros Hl. rewrite reverse_cons. destruct path as [|y path]; [done|].
  destruct Hl as (_ & He & Hl). specialize (IH Hl). rewrite reverse_cons in *. rewrite <- app_assoc. by apply chain_snoc.
Qed.

Lemma linked_insert E parent path v p : v ∉ path -> linked E parent path -> linked E (<[v := p]> parent) path.
Proof.
  induction path as [|x path IH]; intros Hv Hl; [done|]. destruct path as [|y path]; [done|].
  apply not_elem_of_cons in Hv as [Hx Hv]. destruct Hl as (H1 & H2 & H3).
  split; [by rewrite list_lookup_insert_ne|]. split; [done|]. by apply IH.
Qed.

(** ** The search *)

Record searching (n : nat) (succ : nat -> list nat) (state : list Z) (parent : list (option nat)) (path : list nat) : Prop := {
  se_len : length state = n;
  se_plen : length parent = n;
  se_range v s : state !! v = Some s -> s = 0 \/ s = 1 \/ s = 2;
  se_stack v : state !! v = Some 1 <-> v ∈ path;
  se_nodup : NoDup path;
  se_linked : linked (edge n succ) parent path;
  se_done v w : state !! v = Some 2 -> w ∈ succ v -> state !! w = Some 2;
  se_acyclic v : state !! v = Some 2 -> ~ tc (edge n succ) v v;
}.

Definition progress (state state' : list Z) : Prop :=
  (forall v, state !! v = Some 2 -> state' !! v = Some 2) /\ (uncolored state' <= uncolored state)%nat.

(** A closed walk over the vertices of the graph. *)
Definition closed_walk (n : nat) (succ : nat -> list nat) (cycle : list nat) : Prop :=
  exists v l, cycle = v :: l ++ [v] /\ chain (edge n succ) cycle.

Lemma progress_trans s1 s2 s3 : progress s1 s2 -> progress s2 s3 -> progress s1 s3.
Proof. intros [H1 H2] [H3 H4]. split; [auto|lia]. Qed.

Lemma done_reach n succ state parent path v w :
  searching n succ state parent path -> tc (edge n succ) v w -> state !! v = Some 2 -> state !! w = Some 2.
Proof.
  intros S. induction 1 as [x y [_ He]|x y z [_ He] _ IH]; intros Hx; [by eapply (se_done _ _ _ _ _ S)|].
  apply IH. by eapply (se_done _ _ _ _ _ S).
Qed.

Lemma push_ok n succ state parent path u : searching n succ state parent path -> state !! u = Some 0 ->
  match path with [] => True | p :: _ => parent !! u = Some (Some p) /\ edge n succ p u end ->
  searching n succ (<[u := 1]> state) parent (u :: path)
  /\ (forall v, state !! v = Some 2 -> <[u := 1]> state !! v = Some 2)
  /\ uncolored state = S (uncolored (<[u := 1]> state)).
Proof.
  intros S Hu Hp. pose proof (lookup_lt_Some _ _ _ Hu) as Hlt.
  assert (Hfin : forall v, state !! v = Some 2 -> <[u := 1]> state !! v = Some 2).
  { intros v Hv. rewrite list_lookup_insert_ne; [done|]. intros ->. congruence. }
  assert (Hback : forall v, <[u := 1]> state !! v = Some 2 -> state !! v = Some 2).
  { intros v [(_ & ? & _)|[_ Hv]]%list_lookup_insert_Some; [congruence|done]. }
  split; [|split; [done|by apply uncolored_insert]]. destruct S as [S1 S2 S3 S4 S5 S6 S7 S8]. split; try done.
  - by rewrite length_insert.
  - intros v s [(_ & <- & _)|[_ Hv]]%list_lookup_insert_Some; [lia|by eapply S3].
  - intros v. rewrite elem_of_cons, <- S4. destruct (decide (v = u)) as [->|Hne].
    + rewrite list_lookup_insert_eq by done. split; [by left|done].
    + rewrite list_lookup_insert_ne by done. split; [by right|]. by intros [?|?].
  - constructor; [|done]. rewrite <- S4. congruence.
  - destruct path as [|p path]; [done|]. destruct Hp. by split.
  - intros v w Hv Hw. by eapply Hfin, S7; [apply Hback|].
  - intros v Hv. by apply S8, Hback.
Qed.

Lemma pop_ok n succ state parent path u : searching n succ state parent (u :: path) ->
  (forall w, w ∈ succ u -> state !! w = Some 2) ->
  searching n succ (<[u := 2]> state) parent path /\ progress state (<[u := 2]> state) /\ <[u := 2]> state !! u = Some 2.
Proof.
  intros S Hs. assert (Hu : state !! u = Some 1) by (apply (se_stack _ _ _ _ _ S); by left).
  pose proof (lookup_lt_Some _ _ _ Hu) as Hlt.
  assert (Hfin : forall v, state !! v = Some 2 -> <[u := 2]> state !! v = Some 2).
  { intros v Hv. destruct (decide (v = u)) as [->|]; [by apply list_lookup_insert_eq|by rewrite list_lookup_insert_ne]. }
  assert (Hcyc : ~ tc (edge n succ) u u).
  { intros Hc. assert (Hw : exists w, state !! w = Some 2 /\ (w = u \/ tc (edge n succ) w u)).
    { inversion Hc as [? ? [_ He]|? w ? [_ He] Hr]; subst; [exists u|exists w]; auto. }
    destruct Hw as (w & Hw & [-> | Hr]); [congruence|]. pose proof (done_reach _ _ _ _ _ _ _ S Hr Hw). congruence. }
  split; [|split; [split; [done|]|by apply list_lookup_insert_eq]].
  - pose proof (se_nodup _ _ _ _ _ S) as Nd. apply NoDup_cons in Nd as [Hnu Nd].
    destruct S as [S1 S2 S3 S4 S5 S6 S7 S8]. split; try done.
    + by rewrite length_insert.
    + intros v s [(_ & <- & _)|[_ Hv]]%list_lookup_insert_Some; [lia|by eapply S3].
    + intros v. destruct (decide (v = u)) as [->|Hne]; [rewrite list_lookup_insert_eq by done; split; congruence|].
      rewrite list_lookup_insert_ne by done. rewrite S4, elem_of_cons. split; [by intros [?|?]|by right].
    + by eapply linked_tail.
    + intros v w [(<- & _ & _)|[_ Hv]]%list_lookup_insert_Some Hw; apply Hfin; [by apply Hs|by eapply S7].
    + intros v [(<- & _ & _)|[_ Hv]]%list_lookup_insert_Some; [done|by apply S8].
  - unfold uncolored. rewrite <- (take_drop_middle state u 1 Hu) at 2. rewrite insert_take_drop by done.
    rewrite !filter_app, !filter_cons_False, !length_app by done. lia.
Qed.

Lemma read_cycle n succ state parent path u v : searching n succ state parent (u :: path) ->
  (u < n)%nat -> v ∈ succ u -> state !! v = Some 1 ->
  exists cycle, read_back (S n) parent v u [v] = Some cycle /\ closed_walk n succ (reverse (cycle ++ [v])).
Proof.
  intros S Hu Hv Hs. assert (He : edge n succ u v) by done. apply (se_stack _ _ _ _ _ S) in Hs.
  destruct (decide (v = u)) as [->|Hne].
  { exists [u]. cbn [read_back]. rewrite Nat.eqb_refl. split; [done|]. by exists u, []. }
  apply elem_of_cons in Hs as [?|Hs]; [done|]. apply list_elem_of_split in Hs as (pre & rest & ->).
  pose proof (se_nodup _ _ _ _ _ S) as Nd. pose proof (se_linked _ _ _ _ _ S) as Hl.
  assert (Hpre : v ∉ pre).
  { apply NoDup_cons in Nd as [_ Nd]. apply NoDup_app in Nd as (_ & Hd & _). intros Hin. apply (Hd v Hin). by left. }
  exists ([v] ++ u :: pre). split.
  - apply (read_back_ok (edge n succ) parent v rest); [done|done|done|].
    assert (Hb : (length (u :: pre ++ v :: rest) <= length (seq 0 n))%nat).
    { apply submseteq_length, NoDup_submseteq; [done|]. intros x Hx. apply elem_of_seq.
      apply (se_stack _ _ _ _ _ S), lookup_lt_Some in Hx. rewrite (se_len _ _ _ _ _ S) in Hx. lia. }
    rewrite length_seq in Hb. cbn in Hb. rewrite length_app in Hb. cbn in Hb. lia.
  - exists v, (reverse (u :: pre)). rewrite reverse_app, reverse_app. split; [done|]. change (reverse [v]) with [v].
    apply linked_chain in Hl. rewrite app_comm_cons, reverse_app in Hl. rewrite (reverse_cons rest v), <- app_assoc in Hl. apply chain_suffix in Hl.
    rewrite !reverse_cons in *. rewrite <- !app_assoc in *. apply (chain_snoc _ (v :: reverse pre)); [exact Hl|done].
Qed.

(** What a call returns: a closed walk, or a finished part of the graph. *)
Definition outcome (n : nat) (succ : nat -> list nat) (state : list Z) (path : list nat) (finished : list nat) (out : Found) : Prop :=
  match out.2 with
  | Some cycle => closed_walk n succ cycle
  | None => searching n succ out.1.1 out.1.2 path /\ progress state out.1.1
            /\ forall v, v ∈ finished -> out.1.1 !! v = Some 2
  end.

Lemma parent_set n succ state parent path v p : searching n succ state parent path -> state !! v = Some 0 ->
  searching n succ state (<[v := p]> parent) path.
Proof.
  intros S Hv. assert (v ∉ path) by (rewrite <- (se_stack _ _ _ _ _ S); congruence).
  destruct S as [S1 S2 S3 S4 S5 S6 S7 S8]. split; try done; [by rewrite length_insert|by apply linked_insert].
Qed.

Lemma scan_out_ok n succ rec fuel u path : (u < n)%nat -> (forall w, w ∈ succ u -> (w < n)%nat) ->
  (forall v state parent, searching n succ state parent (u :: path) -> state !! v = Some 0 ->
     parent !! v = Some (Some u) -> edge n succ u v -> (uncolored state <= fuel)%nat ->
     exists out, rec v state parent = Some out /\ outcome n succ state (u :: path) [v] out) ->
  forall vs state parent, vs ⊆ succ u -> searching n succ state parent (u :: path) -> (uncolored state <= fuel)%nat ->
  exists out, scan_out n rec u state parent vs = Some out /\ outcome n succ state (u :: path) vs out.
Proof.
  intros Hu Hr Hrec. induction vs as [|v vs IH]; intros state parent Hsub S Hf; cbn [scan_out].
  { eexists. split; [done|]. split; [done|]. split; [by split|]. by intros v ?%not_elem_of_nil. }
  assert (Hv : v ∈ succ u) by (apply Hsub; by left). assert (Hvs : vs ⊆ succ u) by (intros x Hx; apply Hsub; by right).
  destruct (lookup_lt_is_Some_2 state v) as [s Hs]; [rewrite (se_len _ _ _ _ _ S); by apply Hr|].
  rewrite Hs. cbn [mbind option_bind]. destruct (Z.eqb_spec s 1) as [->|H1].
  { destruct (read_cycle n succ state parent path u v S Hu Hv Hs) as (cycle & -> & Hc). cbn [mbind option_bind].
    eexists. split; [done|]. exact Hc. }
  destruct (Z.eqb_spec s 0) as [->|H0].
  - destruct (lookup_lt_is_Some_2 parent v) as [q Hq]; [rewrite (se_plen _ _ _ _ _ S); by apply Hr|]. rewrite Hq. cbn [mbind option_bind].
    destruct (Hrec v state (<[v := Some u]> parent)) as ([[st par] r] & -> & Ho);
      [by apply parent_set|done|apply list_lookup_insert_eq; by eapply lookup_lt_Some|done|done|].
    cbn [mbind option_bind]. destruct r as [cycle|]; [eexists; split; [done|]; exact Ho|].
    destruct Ho as (S1 & P1 & F1). destruct (IH st par Hvs S1) as (out & -> & Ho); [pose proof (proj2 P1); cbn [fst] in *; lia|].
    exists out. split; [done|]. unfold outcome in *. destruct (out.2); [done|]. destruct Ho as (S2 & P2 & F2).
    split; [done|]. split; [by eapply progress_trans|]. intros x [-> | Hx]%elem_of_cons; [|by apply F2]. apply P2, F1. by left.
  - assert (s = 2) as -> by (destruct (se_range _ _ _ _ _ S v s Hs); lia).
    destruct (IH state parent Hvs S Hf) as (out & -> & Ho). exists out. split; [done|]. unfold outcome in *.
    destruct (out.2); [done|]. destruct Ho as (S2 & P2 & F2). split; [done|]. split; [done|].
    intros x [-> | Hx]%elem_of_cons; [by apply P2|by apply F2].
Qed.

Lemma find_cycle_ok g succ : well_formed g succ -> forall fuel u state parent path,
  searching (vertex_count g) succ state parent path -> state !! u = Some 0 ->
  match path with [] => True | p :: _ => parent !! u = Some (Some p) /\ edge (vertex_count g) succ p u end ->
  (uncolored state <= fuel)%nat ->
  exists out, find_cycle g fuel u state parent = Some out /\ outcome (vertex_count g) succ state path [u] out.
Proof.
  intros Hw. induction fuel as [|fuel IH]; intros u state parent path S Hu Hp Hf;
    destruct (push_ok _ _ _ _ _ _ S Hu Hp) as (S1 & K1 & C1); [lia|].
  assert (Hlt : (u < vertex_count g)%nat) by (rewrite <- (se_len _ _ _ _ _ S); by eapply lookup_lt_Some).
  cbn [find_cycle]. rewrite Hu. cbn [mbind option_bind]. rewrite (wf_rows g succ Hw u Hlt). cbn [mbind option_bind].
  destruct (scan_out_ok (vertex_count g) succ (find_cycle g fuel) fuel u path Hlt) with (vs := succ u) (state := <[u := 1]> state) (parent := parent)
    as ([[st par] r] & -> & Ho); [intros w; by apply (wf_range g succ Hw u)| |done|done|lia|].
  { intros v st par Sv Hv Hpv He Hfv. by apply IH. }
  cbn [mbind option_bind]. destruct r as [cycle|]; [eexists; split; [done|]; exact Ho|].
  destruct Ho as (S2 & P2 & F2). destruct (pop_ok _ _ _ _ _ _ S2 F2) as (S3 & P3 & F3).
  eexists. split; [done|]. split; [exact S3|]. split.
  - eapply progress_trans; [|exact P3]. eapply progress_trans; [|exact P2]. split; [exact K1|lia].
  - by intros v ->%list_elem_of_singleton.
Qed.

Lemma find_first_ok g succ vs : well_formed g succ -> (forall v, v ∈ vs -> (v < vertex_count g)%nat) -> forall state parent,
  searching (vertex_count g) succ state parent [] ->
  exists r, find_first g state parent vs = Some r
    /\ match r with
       | Some cycle => closed_walk (vertex_count g) succ cycle
       | None => forall v, v ∈ vs \/ state !! v = Some 2 -> ~ tc (edge (vertex_count g) succ) v v
       end.
Proof.
  intros Hw. induction vs as [|v vs IH]; intros Hr state parent S; cbn [find_first].
  { exists None. split; [done|]. intros v [?%not_elem_of_nil|Hv]; [done|]. by apply (se_acyclic _ _ _ _ _ S). }
  destruct (lookup_lt_is_Some_2 state v) as [s Hs]; [rewrite (se_len _ _ _ _ _ S); apply Hr; by left|].
  rewrite Hs. cbn [mbind option_bind]. specialize (IH ltac:(intros x Hx; apply Hr; by right)).
  destruct (Z.eqb_spec s 0) as [->|H0].
  - destruct (find_cycle_ok g succ Hw (Datatypes.S (vertex_count g)) v state parent [] S Hs I) as ([[st par] r] & -> & Ho).
    { pose proof (uncolored_le state) as H. rewrite (se_len _ _ _ _ _ S) in H. lia. }
    cbn [mbind option_bind]. destruct r as [cycle|]; [by exists (Some cycle)|]. destruct Ho as (S1 & P1 & F1).
    destruct (IH st par S1) as (r & -> & Hres). exists r. split; [done|]. destruct r; [done|].
    intros x [[-> | Hx]%elem_of_cons|Hx]; apply Hres; [right; apply F1; by left|by left|right; by apply P1].
  - destruct (IH state parent S) as (r & -> & Hres). exists r. split; [done|]. destruct r; [done|].
    intros x [[-> | Hx]%elem_of_cons|Hx]; apply Hres; [|by left|by right]. right.
    destruct (se_range _ _ _ _ _ S v s Hs) as [?|[->| ->]]; [done| |done].
    by apply (se_stack _ _ _ _ _ S), not_elem_of_nil in Hs.
Qed.

Lemma searching_nothing n succ : searching n succ (replicate n 0) (replicate n None) [].
Proof.
  split; try apply length_replicate; try done; try (by constructor).
  - intros v s [-> _]%lookup_replicate. by left.
  - intros v. rewrite lookup_replicate. split; [by intros [? _]|by intros ?%not_elem_of_nil].
  - by intros v w [? _]%lookup_replicate.
  - by intros v [? _]%lookup_replicate.
Qed.

Lemma closed_walk_range n succ cycle x : closed_walk n succ cycle -> x ∈ cycle -> (x < n)%nat.
Proof.
  intros (v & l & -> & Hc) Hx. assert (Hin : x ∈ v :: l) by set_solver. clear Hx.
  change (v :: l ++ [v]) with ((v :: l) ++ [v]) in Hc. revert Hc Hin. generalize v at 2. generalize (v :: l). clear v l.
  induction l as [|a l IH]; intros w Hc Hin; [by apply not_elem_of_nil in Hin|].
  apply elem_of_cons in Hin as [-> | Hin].
  - destruct l; cbn in Hc; by destruct Hc as [[? _] _].
  - apply (IH w); [|done]. by apply (chain_suffix _ [a]) in Hc.
Qed.
End cycles.

(** C27: cycle detection is total and exact.  On a well-formed projection the
    search ends without a panic, in particular without a missing parent
    pointer; it reports a cycle exactly when the graph has one; and the nodes
    it returns are a closed walk along edges, the first node repeated at the
    end. *)
Theorem cycle_detection_correct {W} `{TC : TotalCmp W} (g : GraphProjection W) (succ : nat -> list nat) :
  well_formed g succ ->
  exists r, run g = Some r
    /\ (cd_has_cycle r = true <-> exists v, tc (edge (vertex_count g) succ) v v)
    /\ (cd_has_cycle r = true -> exists v l, mapM (to_vid g) (v :: l ++ [v]) = Some (cycle_nodes r)
          /\ chain (edge (vertex_count g) succ) (v :: l ++ [v])).
Proof.
  intros Hw. unfold run. set (n := vertex_count g). destruct (Nat.eqb_spec n 0) as [Hn|Hn].
  { eexists. split; [done|]. cbn. split; [|done]. split; [done|]. intros (v & Hc).
    inversion Hc as [? ? [? _]|? ? ? [? _]]; subst; lia. }
  destruct (find_first_ok g succ (seq 0 n) Hw) with (state := replicate n 0) (parent := replicate n (@None nat)) as (r & -> & Hr).
  { intros v Hv%elem_of_seq. unfold n in *. lia. } { apply searching_nothing. }
  fold n in Hr. cbn [mbind option_bind]. destruct r as [cycle|].
  - assert (Hids : is_Some (mapM (to_vid g) cycle)).
    { apply mapM_is_Some_2, Forall_forall. intros v Hv. apply (wf_ids g succ Hw). by eapply closed_walk_range. }
    destruct Hids as [vids Hids]. rewrite Hids. cbn [mbind option_bind]. eexists. split; [done|]. cbn [cd_has_cycle cycle_nodes].
    destruct Hr as (v & l & -> & Hc). split.
    + split; [|done]. intros _. exists v. by eapply (chain_tc _ v l v []).
    + intros _. by exists v, l.
  - eexists. split; [done|]. cbn [cd_has_cycle]. split; [|done]. split; [done|]. intros (v & Hc). exfalso.
    apply (Hr v); [|done]. left. apply elem_of_seq. inversion Hc as [? ? [? _]|? ? ? [? _]]; subst; lia.
Qed.

(** ** Examples *)

Module CycleExamples.
Import ProjectionExamples.

Example diamond_acyclic : (g ← from_dense_edges 4 diamond false false; run g) = Some (mkCycle false []).
Proof. reflexivity. Qed.
Example looped_cycle : (g ← from_dense_edges 4 looped false false; run g) = Some (mkCycle true [1; 3; 1]).
Proof. reflexivity. Qed.

Lemma cycle_detection_correct_witness :
  exists g r, from_dense_edges 4 looped false false = Some g /\ run g = Some r /\ cd_has_cycle r = true
    /\ exists v, tc (edge 4 (succs looped)) v v.
Proof.
  destruct (dense_well_formed 4 looped false false) as (g & Hg & Hw); [lia|by vm_compute|repeat constructor; vm_compute; lia|].
  destruct (cycle_detection_correct g (succs looped) Hw) as (r & Hr & Hc & _). exists g, r.
  assert (Hb : cd_has_cycle r = true /\ vertex_count g = 4%nat).
  { vm_compute in Hg. injection Hg as <-. vm_compute in Hr. injection Hr as <-. split; reflexivity. }
  destruct Hb as (Hb & Hn). rewrite Hn in Hc. split; [exact Hg|]. split; [exact Hr|]. split; [exact Hb|]. apply Hc. exact Hb.
Defined.
End CycleExamples.
