(* ===== verification/Tarjan.v ===== *)
(** * Strongly connected components of the rule graph

    The iterative Tarjan of crates/uni-locy/src/compiler/stratify.rs.  Stacks
    are lists with the top first; a neighbour set is walked in an arbitrary
    order.  [None] is a panic (a missing key, a stack underflow) or the end of
    the fuel; [tarjan_components] shows that neither happens. *)

From stdpp Require Import relations.
From S2P Require Import Prelude.

Abbreviation Adj := (gmap string (gset string)).

(** The bookkeeping of the walk. *)
Record Tarjan := mkTarjan {
  index_counter : nat;
  scc_stack : list string;
  on_stack : gset string;
  index : gmap string nat;
  lowlink : gmap string nat;
  sccs : list (gset string);
}.
(** An in-flight [strongconnect(v)], with [cursor] neighbours processed. *)
Record Frame := mkFrame { f_v : string; neighbours : list string; cursor : nat }.

Definition with_lowlink (f : gmap string nat -> gmap string nat) (s : Tarjan) : Tarjan :=
  mkTarjan (index_counter s) (scc_stack s) (on_stack s) (index s) (f (lowlink s)) (sccs s).

(** Give a node its index and push it. *)
Definition visit (s : Tarjan) (v : string) : Tarjan :=
  mkTarjan (S (index_counter s)) (v :: scc_stack s) ({[v]} ∪ on_stack s)
    (<[v := index_counter s]> (index s)) (<[v := index_counter s]> (lowlink s)) (sccs s).

(** Pop the component of [v]. *)
Fixpoint pop_scc (v : string) (stack : list string) (on : gset string) (scc : gset string) : option (list string * gset string * gset string) :=
  match stack with
  | [] => None
  | w :: stack =>
      let on := on ∖ {[w]} in
      let scc := {[w]} ∪ scc in
      if decide (w = v) then Some (stack, on, scc) else pop_scc v stack on scc
  end.

(** [if low < lowlink[v] { lowlink.insert(v, low) }] *)
Definition lower (v : string) (low : nat) (s : Tarjan) : option Tarjan :=
  v_low ← lowlink s !! v;
  Some (if (low <? v_low)%nat then with_lowlink <[v := low]> s else s).

Section walk.
  Context `{HO : HashOrder} (adj : Adj).

Definition successors (v : string) : gset string := default ∅ (adj !! v).
Definition snapshot_neighbours (v : string) : list string := hash_order (elements (successors v)).
Definition new_frame (v : string) : Frame := mkFrame v (snapshot_neighbours v) 0.

(** All neighbours of [v] are processed. *)
Definition finalize (s : Tarjan) (v : string) (rest : list Frame) : option (Tarjan * list Frame) :=
  v_low ← lowlink s !! v;
  v_idx ← index s !! v;
  s ← (if Nat.eqb v_low v_idx then
         '(stack, on, scc) ← pop_scc v (scc_stack s) (on_stack s) ∅;
         Some (mkTarjan (index_counter s) stack on (index s) (lowlink s) (sccs s ++ [scc]))
       else Some s);
  match rest with
  | [] => Some (s, [])
  | parent :: _ => s ← lower (f_v parent) v_low s; Some (s, rest)
  end.

(** One round of the [while let Some(frame) = work.last_mut()] loop. *)
Definition tarjan_round (s : Tarjan) (frame : Frame) (rest : list Frame) : option (Tarjan * list Frame) :=
  match neighbours frame !! cursor frame with
  | Some w =>
      let work := mkFrame (f_v frame) (neighbours frame) (S (cursor frame)) :: rest in
      match index s !! w with
      | None => Some (visit s w, new_frame w :: work)
      | Some w_idx =>
          if decide (w ∈ on_stack s) then s ← lower (f_v frame) w_idx s; Some (s, work)
          else Some (s, work)
      end
  | None => finalize s (f_v frame) rest
  end.

Fixpoint tarjan_loop (fuel : nat) (s : Tarjan) (work : list Frame) : option Tarjan :=
  match fuel with
  | O => None
  | S fuel =>
      match work with
      | [] => Some s
      | frame :: rest => '(s, work) ← tarjan_round s frame rest; tarjan_loop fuel s work
      end
  end.

Fixpoint tarjan_roots (fuel : nat) (s : Tarjan) (nodes : list string) : option Tarjan :=
  match nodes with
  | [] => Some s
  | root :: nodes =>
      match index s !! root with
      | Some _ => tarjan_roots fuel s nodes
      | None => s ← tarjan_loop fuel (visit s root) [new_frame root]; tarjan_roots fuel s nodes
      end
  end.

(** A round per node and per edge, and the last test. *)
Definition weight (v : string) : nat := S (size (successors v)).
Definition tarjan_fuel : nat := S (sum_list (weight <$> elements (dom adj))).
Definition tarjan_start : Tarjan := mkTarjan O [] ∅ ∅ ∅ [].
Definition tarjan (nodes : list string) : option (list (gset string)) := sccs <$> tarjan_roots tarjan_fuel tarjan_start nodes.
End walk.

(** ** The invariant *)

Section tarjan.
  Context `{HO : HashOrder} (adj : Adj).
  Implicit Types (s : Tarjan) (u v w x y : string) (gray : list string) (P : string -> string -> Prop).

Definition edge v w : Prop := w ∈ successors adj v.
Abbreviation reach := (rtc edge).

Definition rank s v : nat := default O (index s !! v).

(** [gray]: the nodes with a frame, top first; [P]: the edges processed. *)
Record tinv s gray P : Prop := {
  ti_lowdom v : is_Some (lowlink s !! v) <-> is_Some (index s !! v);
  ti_lt v i : index s !! v = Some i -> (i < index_counter s)%nat;
  ti_inj v w i : index s !! v = Some i -> index s !! w = Some i -> v = w;
  ti_on : on_stack s = list_to_set (scc_stack s);
  ti_sorted : StronglySorted (fun a b => rank s b < rank s a)%nat (scc_stack s);
  ti_gray_sorted : StronglySorted (fun a b => rank s b < rank s a)%nat gray;
  ti_gray v : v ∈ gray -> v ∈ scc_stack s;
  ti_visited v : is_Some (index s !! v) <-> v ∈ scc_stack s \/ exists c, c ∈ sccs s /\ v ∈ c;
  ti_disj v c : c ∈ sccs s -> v ∈ c -> v ∉ scc_stack s;
  ti_fwd g y : g ∈ gray -> y ∈ scc_stack s -> (rank s g <= rank s y)%nat -> reach g y;
  ti_back y : y ∈ scc_stack s -> exists g, g ∈ gray /\ (rank s g <= rank s y)%nat /\ reach y g;
  ti_low_le v l : lowlink s !! v = Some l -> (l <= rank s v)%nat;
  ti_low_path g l : g ∈ gray -> lowlink s !! g = Some l -> exists u, u ∈ scc_stack s /\ rank s u = l /\ reach g u;
  ti_low g l y u : g ∈ gray -> lowlink s !! g = Some l -> y ∈ scc_stack s -> (rank s g <= rank s y)%nat -> P y u -> u ∈ scc_stack s ->
    (l <= rank s u)%nat \/ exists g', g' ∈ gray /\ (rank s g < rank s g' <= rank s y)%nat;
  ti_P y u : P y u -> edge y u /\ is_Some (index s !! y) /\ is_Some (index s !! u);
  ti_black y u : y ∈ scc_stack s -> y ∉ gray -> edge y u -> P y u;
  ti_closed i c y u : sccs s !! i = Some c -> y ∈ c -> edge y u -> exists j c', (j <= i)%nat /\ sccs s !! j = Some c' /\ u ∈ c';
  ti_scc c : c ∈ sccs s -> exists v, forall w, w ∈ c <-> reach v w /\ reach w v;
  ti_sdisj i j c c' v : sccs s !! i = Some c -> sccs s !! j = Some c' -> v ∈ c -> v ∈ c' -> i = j;
  ti_dom v : is_Some (index s !! v) -> v ∈ dom adj;
}.

Lemma stack_visited s gray P v : tinv s gray P -> v ∈ scc_stack s -> is_Some (index s !! v).
Proof. intros I Hv. apply (ti_visited _ _ _ I). by left. Qed.

Lemma rank_index s v i : index s !! v = Some i -> rank s v = i.
Proof. intros E. unfold rank. by rewrite E. Qed.

Lemma rank_inj s gray P v w : tinv s gray P -> v ∈ scc_stack s -> w ∈ scc_stack s -> rank s v = rank s w -> v = w.
Proof.
  intros I [i Hi]%(stack_visited s gray P v I) [j Hj]%(stack_visited s gray P w I). unfold rank. rewrite Hi, Hj. cbn. intros ->.
  by eapply (ti_inj _ _ _ I).
Qed.

(** More processed edges, all to closed nodes. *)
Lemma tinv_skip s v gray P w : tinv s (v :: gray) P -> edge v w -> is_Some (index s !! w) -> w ∉ scc_stack s ->
  tinv s (v :: gray) (fun y u => P y u \/ (y = v /\ u = w)).
Proof.
  intros I He Hw Hn. assert (Hv : is_Some (index s !! v)) by (apply (stack_visited _ _ _ _ I), (ti_gray _ _ _ I); by left).
  destruct I as [H1 H2 H3 H4 H5 H6 H7 H8 H9 H10 H11 H12 H13 H14 H15 H16 H17 H18 H19 H20]. split; try done.
  - intros g l y u Hg Hl Hy Hr [Hp|[-> ->]] Hu; [by eapply H14|done].
  - intros y u [?|[-> ->]]; [by apply H15|done].
  - intros y u Hy Hng Hu. left. by apply H16.
Qed.

(** A processed edge into the stack, once the low link of its source covers it. *)
Lemma tinv_add s v gray P w l : tinv s (v :: gray) P -> edge v w -> w ∈ scc_stack s -> lowlink s !! v = Some l -> (l <= rank s w)%nat ->
  tinv s (v :: gray) (fun y u => P y u \/ (y = v /\ u = w)).
Proof.
  intros I He Hw Hlv Hle. pose proof (stack_visited _ _ _ _ I Hw) as Hiw.
  assert (Hv : is_Some (index s !! v)) by (apply (stack_visited _ _ _ _ I), (ti_gray _ _ _ I); by left).
  destruct I as [H1 H2 H3 H4 H5 H6 H7 H8 H9 H10 H11 H12 H13 H14 H15 H16 H17 H18 H19 H20]. split; try done.
  - intros g l' y u Hg Hl Hy Hr [Hp|[-> ->]] Hu; [by eapply H14|]. apply elem_of_cons in Hg as [->|Hg]; [left; congruence|right].
    exists v. split; [by left|]. apply StronglySorted_inv in H6 as [_ H6]. rewrite Forall_forall in H6. split; [by apply H6|done].
  - intros y u [?|[-> ->]]; [by apply H15|done].
  - intros y u Hy Hng Hu. left. by apply H16.
Qed.

Lemma tinv_low s gray P v l l' : tinv s gray P -> v ∈ gray -> lowlink s !! v = Some l -> (l' <= l)%nat ->
  (exists u, u ∈ scc_stack s /\ rank s u = l' /\ reach v u) -> tinv (with_lowlink <[v := l']> s) gray P.
Proof.
  intros [H1 H2 H3 H4 H5 H6 H7 H8 H9 H10 H11 H12 H13 H14 H15 H16 H17 H18 H19 H20] Hv Hl Hle Hu.
  assert (Hlk : forall g k, <[v := l']> (lowlink s) !! g = Some k -> (g = v /\ k = l') \/ (g <> v /\ lowlink s !! g = Some k)).
  { intros g k. rewrite lookup_insert_Some. naive_solver. }
  split; try done; cbn [with_lowlink lowlink scc_stack index sccs].
  - intros w. rewrite <- H1. destruct (decide (v = w)) as [->|]; [rewrite lookup_insert_eq, Hl; split; by eexists|by rewrite lookup_insert_ne].
  - intros g k [(-> & ->)|(_ & Hk)]%Hlk; [pose proof (H12 v l Hl) as Hx; change (l' <= rank s v)%nat; lia|by apply H12].
  - intros g k Hg [(-> & ->)|(_ & Hk)]%Hlk; [done|by apply H13].
  - intros g k y u Hg [(-> & ->)|(_ & Hk)]%Hlk Hy Hr Hp Hin; [|by apply (H14 g k y u)].
    destruct (H14 v l y u Hg Hl Hy Hr Hp Hin) as [?|?]; [left; change (l' <= rank s u)%nat; lia|by right].
Qed.

Lemma lower_spec s v l : lowlink s !! v = Some l -> forall low, exists s' l', lower v low s = Some s' /\ lowlink s' !! v = Some l'
  /\ l' = Nat.min l low /\ s' = (if (low <? l)%nat then with_lowlink <[v := low]> s else s).
Proof.
  intros Hl low. unfold lower. rewrite Hl. cbn [mbind option_bind]. destruct (Nat.ltb_spec low l) as [H|H].
  - eexists _, low. split; [reflexivity|]. cbn. rewrite lookup_insert_eq. split_and!; [done|lia|done].
  - exists s, l. split_and!; [done|done|lia|done].
Qed.

Lemma tinv_lower s gray P v low : tinv s gray P -> v ∈ gray -> (exists u, u ∈ scc_stack s /\ rank s u = low /\ reach v u) ->
  exists s' l, lower v low s = Some s' /\ tinv s' gray P /\ lowlink s' !! v = Some l /\ (l <= low)%nat
    /\ index s' = index s /\ scc_stack s' = scc_stack s /\ sccs s' = sccs s
    /\ (forall w, w <> v -> lowlink s' !! w = lowlink s !! w).
Proof.
  intros I Hv Hu. assert (Hl : is_Some (lowlink s !! v)).
  { apply (ti_lowdom _ _ _ I), (stack_visited _ _ _ _ I), (ti_gray _ _ _ I), Hv. }
  destruct Hl as [l Hl]. destruct (lower_spec s v l Hl low) as (s' & l' & E & Hl' & Em & Es). exists s', l'. split; [done|].
  split; [|split; [done|split; [lia|]]].
  - rewrite Es. destruct (Nat.ltb_spec low l); [|done]. eapply tinv_low; [done|done|done|lia|done].
  - rewrite Es. destruct (low <? l)%nat; [|done]. split_and!; [done|done|done|]. intros w Hw. cbn. by rewrite lookup_insert_ne.
Qed.

Lemma tinv_back_edge s v gray P w i : tinv s (v :: gray) P -> edge v w -> index s !! w = Some i -> w ∈ scc_stack s ->
  exists s', lower v i s = Some s' /\ tinv s' (v :: gray) (fun y u => P y u \/ (y = v /\ u = w))
    /\ index s' = index s.
Proof.
  intros I He Hi Hw. destruct (tinv_lower s (v :: gray) P v i I) as (s' & l & E & I' & Hl & Hle & Ei & Est & _ & _).
  { by left. }
  { exists w. split_and!; [done|by apply rank_index|by apply rtc_once]. }
  exists s'. split_and!; [done| |done]. apply (tinv_add _ _ _ _ _ l); [done|done|by rewrite Est|done|].
  unfold rank. rewrite Ei, Hi. done.
Qed.

(** ** Visiting *)

Lemma sorted_ext {A} (R R' : A -> A -> Prop) l : StronglySorted R l -> (forall a b, a ∈ l -> b ∈ l -> R a b -> R' a b) -> StronglySorted R' l.
Proof.
  induction 1 as [|a l Hs IH Ha]; intros Hr; constructor; [apply IH; intros ? ? ? ?; apply Hr; by right|].
  rewrite Forall_forall in Ha |- *. intros b Hb. apply Hr; [by left|by right|by apply Ha].
Qed.

Lemma rank_visit s w y : y <> w -> rank (visit s w) y = rank s y.
Proof. intros H. unfold rank. cbn. by rewrite lookup_insert_ne. Qed.
Lemma rank_visit_new s w : rank (visit s w) w = index_counter s.
Proof. unfold rank. cbn. by rewrite lookup_insert_eq. Qed.

(** The new node is reached from the top gray node, if there is one. *)
Lemma tinv_visit s gray P w : tinv s gray P -> index s !! w = None -> w ∈ dom adj ->
  match gray with [] => scc_stack s = [] | v :: _ => edge v w end ->
  tinv (visit s w) (w :: gray) (fun y u => P y u \/ (head gray = Some y /\ u = w)).
Proof.
  intros I Hw Hdw Hpar. pose proof I as [H1 H2 H3 H4 H5 H6 H7 H8 H9 H10 H11 H12 H13 H14 H15 H16 H17 H18 H19 H20].
  assert (Hst : forall y, y ∈ scc_stack s -> y <> w) by (intros y [? E]%(stack_visited _ _ _ _ I) ->; congruence).
  assert (Hgr : forall y, y ∈ gray -> y <> w) by (intros y ?; by apply Hst, H7).
  assert (Hrk : forall y, y ∈ scc_stack s -> rank (visit s w) y = rank s y) by (intros; by apply rank_visit, Hst).
  assert (Hlt : forall y, y ∈ scc_stack s -> (rank s y < index_counter s)%nat).
  { intros y [i E]%(stack_visited _ _ _ _ I). rewrite (rank_index _ _ _ E). by eapply H2. }
  assert (Hcl : forall c y, c ∈ sccs s -> y ∈ c -> y <> w).
  { intros c y Hc Hy ->. destruct (proj2 (H8 w)) as [? ?]; [right; eauto|]. congruence. }
  assert (Hfwd : forall g, g ∈ gray -> reach g w).
  { destruct gray as [|v gray']; [by intros g ?%elem_of_nil|]. intros g Hg. eapply rtc_r; [|exact Hpar]. apply H10; [done|by apply H7; left|].
    apply elem_of_cons in Hg as [->|Hg]; [done|]. apply StronglySorted_inv in H6 as [_ H6]. rewrite Forall_forall in H6. specialize (H6 g Hg). lia. }
  split; cbn [visit index_counter scc_stack on_stack index lowlink sccs]; try done.
  - intros v. destruct (decide (w = v)) as [->|]; [rewrite !lookup_insert_eq; split; by eexists|by rewrite !lookup_insert_ne].
  - intros v i [[<- <-]|[_ Hi%H2]]%lookup_insert_Some; lia.
  - intros v v' i [[<- <-]|[Hn1 Hi]]%lookup_insert_Some [[<- Ei]|[Hn2 Hj]]%lookup_insert_Some; [done| | |by eapply H3].
    + apply H2 in Hj. lia.
    + subst i. apply H2 in Hi. lia.
  - by rewrite H4.
  - constructor; [|apply Forall_forall; intros y Hy; rewrite rank_visit_new, Hrk by done; by apply Hlt].
    eapply sorted_ext; [exact H5|]. intros a b Ha Hb. by rewrite !Hrk.
  - constructor; [|apply Forall_forall; intros y Hy; rewrite rank_visit_new, Hrk by (by apply H7); by apply Hlt, H7].
    eapply sorted_ext; [exact H6|]. intros a b Ha Hb. by rewrite !Hrk by by apply H7.
  - intros v [->|Hv]%elem_of_cons; [by left|right; by apply H7].
  - intros v. rewrite elem_of_cons. destruct (decide (w = v)) as [->|Hn]; [rewrite lookup_insert_eq; split; [auto|by eexists]|].
    rewrite lookup_insert_ne, H8 by done. split; [tauto|]. intros [[?|?]|?]; [congruence|by left|by right].
  - intros v c Hc Hv [->|Hx]%elem_of_cons; [by apply (Hcl c w Hc Hv)|by apply (H9 v c)].
  - intros g y Hg [->|Hy]%elem_of_cons Hr; apply elem_of_cons in Hg as [->|Hg].
    + done.
    + by apply Hfwd.
    + rewrite rank_visit_new, Hrk in Hr by done. specialize (Hlt y Hy). lia.
    + rewrite !Hrk in Hr by (done || by apply H7). by apply H10.
  - intros y [->|Hy]%elem_of_cons; [exists w; split_and!; [by left|done|done]|]. destruct (H11 y Hy) as (g & Hg & Hr & Hp).
    exists g. split_and!; [by right| |done]. by rewrite !Hrk by (done || by apply H7).
  - intros v l [[<- <-]|[Hn Hl]]%lookup_insert_Some; [by rewrite rank_visit_new|]. rewrite rank_visit by done. by apply H12.
  - intros g l Hg [[<- <-]|[Hn Hl]]%lookup_insert_Some; [exists w; split_and!; [by left|by rewrite rank_visit_new|done]|].
    apply elem_of_cons in Hg as [->|Hg]; [done|]. destruct (H13 g l Hg Hl) as (u & Hu & Hr & Hp). exists u. split_and!; [by right| |done]. by rewrite Hrk.
  - intros g l y u Hg Hl Hy Hr Hp Hu.
    assert (Hyw : y <> w).
    { intros ->. destruct Hp as [(_ & [? E] & _)%H15|[Hh _]]; [congruence|]. destruct gray as [|v gray']; [done|]. injection Hh as ->.
      by apply (Hgr w); [left|]. }
    apply elem_of_cons in Hy as [?|Hy]; [done|]. rewrite (Hrk y Hy) in Hr. apply elem_of_cons in Hg as [->|Hg].
    { rewrite rank_visit_new in Hr. specialize (Hlt y Hy). lia. }
    rewrite lookup_insert_ne in Hl by (intros ->; by apply (Hgr g)). rewrite Hrk in Hr by by apply H7.
    destruct Hp as [Hp|[_ ->]].
    + apply elem_of_cons in Hu as [->|Hu]; [destruct (H15 _ _ Hp) as (_ & _ & [? E]); congruence|]. rewrite Hrk by done.
      destruct (H14 g l y u Hg Hl Hy Hr Hp Hu) as [?|(g' & Hg' & ?)]; [by left|right]. exists g'. split; [by right|]. by rewrite !Hrk by (done || by apply H7).
    + left. rewrite rank_visit_new. pose proof (H12 g l Hl). pose proof (Hlt g (H7 g Hg)). lia.
  - assert (Hk : forall y, is_Some (index s !! y) -> is_Some (<[w := index_counter s]> (index s) !! y)).
    { intros y [i Hi]. rewrite lookup_insert_ne; [by eexists|]. intros ->. congruence. }
    intros y u [(? & Hy & Hu)%H15|[Hh ->]]; [auto|]. destruct gray as [|v gray']; [done|]. injection Hh as ->.
    split_and!; [done| |rewrite lookup_insert_eq; by eexists]. apply Hk, (stack_visited _ _ _ _ I), H7. by left.
  - intros y u [->|Hy]%elem_of_cons Hng He; [exfalso; apply Hng; by left|left]. apply H16; [done| |done]. intros ?. apply Hng. by right.
  - intros v. destruct (decide (w = v)) as [<-|Hn]; [done|]. rewrite lookup_insert_ne by done. apply H20.
Qed.

(** ** Finishing a node *)

Lemma gray_top s v gray P g : tinv s (v :: gray) P -> g ∈ v :: gray -> (rank s g <= rank s v)%nat.
Proof.
  intros I [->|Hg]%elem_of_cons; [done|]. pose proof (ti_gray_sorted _ _ _ I) as [_ H]%StronglySorted_inv. rewrite Forall_forall in H.
  specialize (H g Hg). lia.
Qed.

(** A node whose low link is below its index is not the last gray one. *)
Lemma low_has_parent s v P l : tinv s [v] P -> lowlink s !! v = Some l -> (l < rank s v)%nat -> False.
Proof.
  intros I Hl Hlt. destruct (ti_low_path _ _ _ I v l) as (u & Hu & Hr & _); [by left|done|].
  destruct (ti_back _ _ _ I u Hu) as (g & ->%list_elem_of_singleton & ? & _). lia.
Qed.

(** [v] leaves the gray nodes but stays on the stack. *)
Lemma tinv_finish s v p gray P lv lp : tinv s (v :: p :: gray) P -> (forall u, edge v u -> P v u) ->
  lowlink s !! v = Some lv -> (lv < rank s v)%nat -> lowlink s !! p = Some lp -> (lp <= lv)%nat -> tinv s (p :: gray) P.
Proof.
  intros I Hall Hlv Hlt Hlp Hle. pose proof (gray_top s v (p :: gray) P) as Htop.
  assert (Hsub : forall g, g ∈ p :: gray -> g ∈ v :: p :: gray) by (intros; by right).
  pose proof I as [H1 H2 H3 H4 H5 H6 H7 H8 H9 H10 H11 H12 H13 H14 H15 H16 H17 H18 H19 H20]. split; try done.
  - by apply StronglySorted_inv in H6 as [? _].
  - intros g Hg. by apply H7, Hsub.
  - intros g y Hg. by apply H10, Hsub.
  - intros y Hy. destruct (H11 y Hy) as (g & [->|Hg]%elem_of_cons & Hr & Hp); [|by exists g].
    destruct (H13 v lv) as (u & Hu & Hru & Hpu); [by left|done|]. destruct (H11 u Hu) as (g & [->|Hg]%elem_of_cons & Hr' & Hp'); [lia|].
    exists g. split_and!; [done|lia|]. by etrans; [|etrans].
  - intros g l Hg. by apply H13, Hsub.
  - intros g l y u Hg Hl Hy Hr Hp Hu. destruct (H14 g l y u (Hsub g Hg) Hl Hy Hr Hp Hu) as [?|(g' & [->|Hg']%elem_of_cons & Hr')]; [by left| |right; eauto].
    apply elem_of_cons in Hg as [->|Hg].
    + left. assert (l = lp) as -> by congruence. destruct (H14 v lv y u) as [?|(g' & Hg' & ?)]; [by left|done|done|lia|done|done|lia|].
      specialize (Htop g' I Hg'). lia.
    + right. exists p. split; [by left|]. pose proof (StronglySorted_inv H6) as [H6' Hv]. apply StronglySorted_inv in H6' as [_ Hpg].
      rewrite Forall_forall in Hv, Hpg. specialize (Hv p (list_elem_of_here _ _)). specialize (Hpg g Hg). lia.
  - intros y u Hy Hng He. destruct (decide (y = v)) as [->|Hn]; [by apply Hall|]. apply H16; [done| |done]. by intros [?|?]%elem_of_cons.
Qed.

Lemma pop_scc_spec v top bottom on scc : v ∉ top ->
  pop_scc v (top ++ v :: bottom) on scc = Some (bottom, on ∖ list_to_set (top ++ [v]), list_to_set (top ++ [v]) ∪ scc).
Proof.
  revert on scc. induction top as [|w top IH]; intros on scc Hv; cbn [pop_scc app].
  - rewrite decide_True by done. f_equal. f_equal; [f_equal|]; set_solver.
  - rewrite decide_False by set_solver. rewrite IH by set_solver. f_equal. f_equal; [f_equal|]; set_solver.
Qed.

Lemma closed_reach (X : string -> Prop) : (forall y u, X y -> edge y u -> X u) -> forall y u, reach y u -> X y -> X u.
Proof. intros Hc y u Hr. induction Hr as [|y z u He _ IH]; [done|]. intros Hy. by eapply IH, Hc. Qed.

(** The component of [v] is popped. *)
Lemma tinv_pop s v gray P : tinv s (v :: gray) P -> (forall u, edge v u -> P v u) -> lowlink s !! v = Some (rank s v) ->
  exists stack on scc, pop_scc v (scc_stack s) (on_stack s) ∅ = Some (stack, on, scc)
    /\ tinv (mkTarjan (index_counter s) stack on (index s) (lowlink s) (sccs s ++ [scc])) gray P.
Proof.
  intros I Hall Hlv. pose proof I as [H1 H2 H3 H4 H5 H6 H7 H8 H9 H10 H11 H12 H13 H14 H15 H16 H17 H18 H19 H20].
  assert (Hv : v ∈ scc_stack s) by (apply H7; by left). apply list_elem_of_split in Hv as (top & bottom & Est).
  assert (Hord : Forall (fun y => rank s v < rank s y)%nat top /\ Forall (fun y => rank s y < rank s v)%nat bottom).
  { rewrite Est in H5. clear -H5. induction top as [|a top IH]; cbn in H5; apply StronglySorted_inv in H5 as [Hs Ha].
    - by split; [constructor|].
    - destruct (IH Hs) as [? ?]. split; [|done]. constructor; [|done]. rewrite Forall_forall in Ha. apply Ha. set_solver. }
  destruct Hord as [Htop Hbot]. rewrite Forall_forall in Htop, Hbot.
  assert (Hvt : v ∉ top) by (intros ?%Htop; lia). rewrite Est, (pop_scc_spec v top bottom _ _ Hvt). eexists _, _, _. split; [reflexivity|].
  set (C := list_to_set (top ++ [v]) ∪ ∅ : gset string).
  assert (HC : forall y, y ∈ C <-> y ∈ scc_stack s /\ (rank s v <= rank s y)%nat).
  { intros y. unfold C. rewrite union_empty_r_L, elem_of_list_to_set, Est, !elem_of_app, list_elem_of_singleton, elem_of_cons. split.
    - intros [Hy| ->]; [split; [by left|specialize (Htop y Hy); lia]|split; [by right; left|done]].
    - intros [[?|[->|Hy]] Hr]; [by left|by right|]. specialize (Hbot y Hy). lia. }
  assert (Hb : forall y, y ∈ bottom <-> y ∈ scc_stack s /\ (rank s y < rank s v)%nat).
  { intros y. rewrite Est, elem_of_app, elem_of_cons. split.
    - intros Hy. split; [by right; right|by apply Hbot].
    - intros [[Hy|[->|?]] Hr]; [specialize (Htop y Hy); lia|lia|done]. }
  assert (Hgr : forall g, g ∈ gray -> g ∈ bottom).
  { intros g Hg. apply Hb. split; [apply H7; by right|]. apply StronglySorted_inv in H6 as [_ H6]. rewrite Forall_forall in H6. by apply H6. }
  assert (Hproc : forall y u, y ∈ C -> edge y u -> u ∈ C \/ exists c, c ∈ sccs s /\ u ∈ c).
  { intros y u [Hy Hr]%HC He. assert (Hp : P y u).
    { destruct (decide (y ∈ v :: gray)) as [[->|Hg]%elem_of_cons|Hg]; [by apply Hall| |by apply H16]. apply Hgr, Hb in Hg as [_ ?]. lia. }
    destruct (H15 y u Hp) as (_ & _ & [Hu|?]%H8); [left|by right]. apply HC. split; [done|].
    destruct (H14 v (rank s v) y u) as [?|(g' & Hg' & ?)]; [by left|done|done|done|done|done|done|]. pose proof (gray_top s v gray P g' I Hg'). lia. }
  assert (Hold : forall y u, (exists c, c ∈ sccs s /\ y ∈ c) -> edge y u -> exists c, c ∈ sccs s /\ u ∈ c).
  { intros y u (c & [i Hi]%list_elem_of_lookup & Hy) He. destruct (H17 i c y u Hi Hy He) as (j & c' & _ & Hj & ?). exists c'. split; [by eapply list_elem_of_lookup_2|done]. }
  assert (Hcl : forall y u, reach y u -> (y ∈ C \/ exists c, c ∈ sccs s /\ y ∈ c) -> u ∈ C \/ exists c, c ∈ sccs s /\ u ∈ c).
  { apply (closed_reach (fun y => y ∈ C \/ exists c, c ∈ sccs s /\ y ∈ c)). intros y u [Hy|Hy] He; [by apply (Hproc y)|right; by apply (Hold y)]. }
  assert (Hnot : forall y, y ∈ C -> ~ exists c, c ∈ sccs s /\ y ∈ c).
  { intros y [Hy _]%HC (c & Hc & Hyc). by apply (H9 y c). }
  assert (HvC : v ∈ C) by (apply HC; split; [rewrite Est; set_solver|done]).
  assert (Hback : forall y, y ∈ C -> reach y v).
  { intros y Hy. pose proof Hy as [Hys _]%HC. destruct (H11 y Hys) as (g & Hg & _ & Hp). destruct (Hcl y g Hp) as [Hgc|Hgc]; [by left| |].
    - apply elem_of_cons in Hg as [->|Hg]; [done|]. apply Hgr, Hb in Hg as [_ ?]. apply HC in Hgc as [_ ?]. lia.
    - exfalso. destruct Hgc as (c & Hc & Hgc). apply (H9 g c Hc Hgc). by apply H7. }
  assert (Hbs : forall y, y ∈ bottom -> y ∈ scc_stack s) by (intros y ?; by apply Hb).
  assert (Hcase : forall y, y ∈ scc_stack s <-> y ∈ C \/ y ∈ bottom).
  { intros y. rewrite HC, Hb. split; [|tauto]. intros Hy. destruct (Nat.le_gt_cases (rank s v) (rank s y)); auto. }
  assert (Hnb : forall y, y ∈ C -> y ∉ bottom) by (intros y [_ ?]%HC [_ ?]%Hb; lia).
  set (s' := mkTarjan _ _ _ _ _ _). assert (Hrk : forall y, rank s' y = rank s y) by done.
  split; cbn [index_counter scc_stack on_stack index lowlink sccs s']; try done.
  - apply set_eq. intros y. rewrite elem_of_difference, H4, !elem_of_list_to_set, Hcase. unfold C in Hnb |- *. rewrite union_empty_r_L in *.
    setoid_rewrite elem_of_list_to_set in Hnb. rewrite elem_of_list_to_set. specialize (Hnb y). tauto.
  - rewrite Est in H5. apply StronglySorted_app_1_r, StronglySorted_inv in H5 as [H5 _]. exact H5.
  - by apply StronglySorted_inv in H6 as [? _].
  - intros y. rewrite H8, Hcase. setoid_rewrite elem_of_app. setoid_rewrite list_elem_of_singleton. split.
    + intros [[?|?]|(c & ? & ?)]; [right; exists C; auto|by left|right; exists c; auto].
    + intros [?|(c & [?| ->] & ?)]; [auto|right; eauto|auto].
  - intros y c [Hc| ->%list_elem_of_singleton]%elem_of_app Hy Hyb; [by apply (H9 y c), Hbs|by apply (Hnb y)].
  - intros g y Hg Hy Hr. apply H10; [by right|by apply Hbs|done].
  - intros y Hy. destruct (H11 y (Hbs y Hy)) as (g & [->|Hg]%elem_of_cons & Hr & Hp); [apply Hb in Hy as [_ ?]; lia|by exists g].
  - intros g l Hg Hl. destruct (H13 g l) as (u & Hu & Hr & Hp); [by right|done|]. exists u. split_and!; [|done|done]. apply Hb. split; [done|].
    pose proof (H12 g l Hl). apply Hgr, Hb in Hg as [_ ?]. lia.
  - intros g l y u Hg Hl Hy Hr Hp Hu. destruct (H14 g l y u) as [?|(g' & [->|Hg']%elem_of_cons & Hr')]; [by right|done|by apply Hbs|done|done|by apply Hbs|by left| |right; by exists g'].
    apply Hb in Hy as [_ ?]. lia.
  - intros y u Hy Hng. apply H16; [by apply Hbs|]. intros [->|?]%elem_of_cons; [by apply (Hnb v)|done].
  - intros i c y u [Hi|[Hi Hc]]%lookup_app_Some Hy He.
    + destruct (H17 i c y u Hi Hy He) as (j & c' & ? & Hj & ?). exists j, c'. split_and!; [done|by apply lookup_app_l_Some|done].
    + apply list_lookup_singleton_Some in Hc as [Hi' <-]. destruct (Hproc y u Hy He) as [Hu|(c & [j Hj]%list_elem_of_lookup & Hu)].
      * exists i, C. split_and!; [done| |done]. rewrite lookup_app_r by done. by rewrite Hi'.
      * exists j, c. split_and!; [apply lookup_lt_Some in Hj; lia|by apply lookup_app_l_Some|done].
  - intros c [Hc| ->%list_elem_of_singleton]%elem_of_app; [by apply H18|]. exists v. intros w. split.
    + intros Hw. split; [|by apply Hback]. apply HC in Hw as [? ?]. apply H10; [by left|done|done].
    + intros [Hvw Hwv]. destruct (Hcl v w Hvw) as [?|Hw]; [by left|done|]. exfalso. apply (Hnot v HvC).
      by apply (closed_reach (fun y => exists c, c ∈ sccs s /\ y ∈ c) (fun y u Hy He => Hold y u Hy He) w v).
  - intros i j c c' y [Hi|[Hi Hc]]%lookup_app_Some [Hj|[Hj Hc']]%lookup_app_Some Hy Hy'.
    + by eapply H19.
    + apply list_lookup_singleton_Some in Hc' as [_ <-]. exfalso. apply (Hnot y Hy'). exists c. split; [by eapply list_elem_of_lookup_2|done].
    + apply list_lookup_singleton_Some in Hc as [_ <-]. exfalso. apply (Hnot y Hy). exists c'. split; [by eapply list_elem_of_lookup_2|done].
    + apply list_lookup_singleton_Some in Hc as [? _], Hc' as [? _]. lia.
Qed.

(** ** The loop *)

(** The frames walk the successors of their nodes. *)
Definition linked (work : list Frame) P : Prop := forall f, f ∈ work ->
  neighbours f = snapshot_neighbours adj (f_v f) /\ (forall u, u ∈ take (cursor f) (neighbours f) -> P (f_v f) u).

Definition owed s v : nat := match index s !! v with Some _ => O | None => weight adj v end.
Definition unvisited s : nat := sum_list (owed s <$> elements (dom adj)).
Definition work_left (work : list Frame) : nat := sum_list ((fun f => S (length (neighbours f) - cursor f)) <$> work).

Lemma elem_of_snapshot v u : u ∈ snapshot_neighbours adj v <-> edge v u.
Proof. unfold snapshot_neighbours, edge. by rewrite hash_order_perm, elem_of_elements. Qed.
Lemma length_snapshot v : length (snapshot_neighbours adj v) = size (successors adj v).
Proof. unfold snapshot_neighbours. rewrite (Permutation_length (hash_order_perm _)). done. Qed.

Lemma unvisited_visit s w : index s !! w = None -> w ∈ dom adj -> unvisited s = (unvisited (visit s w) + weight adj w)%nat.
Proof.
  intros Hw Hd. unfold unvisited. pose proof (NoDup_elements (dom adj)) as Hnd. apply elem_of_elements in Hd.
  assert (Hsame : forall l, w ∉ l -> sum_list (owed s <$> l) = sum_list (owed (visit s w) <$> l)).
  { intros l Hl. f_equal. apply list_fmap_ext. intros i x Hx%list_elem_of_lookup_2. unfold owed. cbn. rewrite lookup_insert_ne; [done|].
    by intros ->. }
  revert Hd Hnd. generalize (elements (dom adj)). intros l Hin Hnd. induction Hnd as [|a l Ha Hnd IH]; [by apply elem_of_nil in Hin|].
  cbn [fmap list_fmap sum_list]. apply elem_of_cons in Hin as [<-|Hin].
  - rewrite <- (Hsame l) by done. unfold owed at 1 3. cbn. rewrite Hw, lookup_insert_eq. lia.
  - rewrite IH by done. unfold owed at 1 3. cbn. rewrite lookup_insert_ne by (intros ->; done). lia.
Qed.

Lemma linked_mono work P (P' : string -> string -> Prop) : (forall y u, P y u -> P' y u) -> linked work P -> linked work P'.
Proof. intros HP Hl f Hf. destruct (Hl f Hf). split; [done|]. auto. Qed.
Lemma linked_new w work P : linked work P -> linked (new_frame adj w :: work) P.
Proof. intros Hl f [->|Hf]%elem_of_cons; [|by apply Hl]. split; [done|]. cbn. by intros u ?%elem_of_nil. Qed.
Lemma linked_advance f rest P w : linked (f :: rest) P -> neighbours f !! cursor f = Some w ->
  linked (mkFrame (f_v f) (neighbours f) (S (cursor f)) :: rest) (fun y u => P y u \/ (y = f_v f /\ u = w)).
Proof.
  intros Hl Hw g [->|Hg]%elem_of_cons.
  - destruct (Hl f) as [Hn Hp]; [by left|]. split; [done|]. cbn [f_v cursor neighbours]. intros u. rewrite (take_S_r _ _ _ Hw), elem_of_app, list_elem_of_singleton.
    intros [?| ->]; [left; by apply Hp|by right].
  - destruct (Hl g) as [Hn Hp]; [by right|]. split; [done|]. intros u Hu. left. by apply Hp.
Qed.

Context (Hclosed : forall v w, edge v w -> w ∈ dom adj).

Lemma tarjan_round_ok s f rest P : tinv s (f_v <$> f :: rest) P -> linked (f :: rest) P ->
  exists s' work', tarjan_round adj s f rest = Some (s', work')
    /\ (exists P', tinv s' (f_v <$> work') P' /\ linked work' P') /\ (forall v, is_Some (index s !! v) -> is_Some (index s' !! v))
    /\ (unvisited s' + work_left work' < unvisited s + work_left (f :: rest))%nat.
Proof.
  intros I Hl. cbn [fmap list_fmap] in I. unfold tarjan_round. destruct (Hl f (list_elem_of_here _ _)) as [Hn Hp0]. set (v := f_v f) in *.
  destruct (neighbours f !! cursor f) as [w|] eqn:Ew.
  - assert (He : edge v w). { apply elem_of_snapshot. rewrite <- Hn. by eapply list_elem_of_lookup_2. }
    pose proof (linked_advance f rest P w Hl Ew) as Hl'. fold v in Hl'. set (f' := mkFrame v (neighbours f) (S (cursor f))) in *.
    assert (Hm : (S (work_left (f' :: rest)) = work_left (f :: rest))%nat).
    { unfold work_left. cbn. apply lookup_lt_Some in Ew. lia. }
    destruct (index s !! w) as [w_idx|] eqn:Ei.
    + destruct (decide (w ∈ on_stack s)) as [Hon|Hon].
      * rewrite (ti_on _ _ _ I), elem_of_list_to_set in Hon. destruct (tinv_back_edge s v (f_v <$> rest) P w w_idx I He Ei Hon) as (s' & -> & I' & Eidx).
        cbn [mbind option_bind]. eexists _, _. split; [reflexivity|]. split_and!; [by eexists|by rewrite Eidx|]. unfold unvisited, owed. rewrite Eidx. lia.
      * eexists _, _. split; [reflexivity|]. split_and!; [|done|lia]. eexists. split; [|exact Hl']. apply tinv_skip; [done|done|by eexists|].
        by rewrite (ti_on _ _ _ I), elem_of_list_to_set in Hon.
    + eexists _, _. split; [reflexivity|]. split_and!.
      * eexists. split; [apply (tinv_visit s (v :: (f_v <$> rest)) P w I Ei (Hclosed _ _ He) He)|]. apply linked_new. eapply linked_mono; [|exact Hl'].
        intros y u [?|[-> ->]]; [by left|by right].
      * intros y [i Hi]. cbn. rewrite lookup_insert_ne; [by eexists|]. intros ->. congruence.
      * rewrite (unvisited_visit s w Ei (Hclosed _ _ He)). unfold weight. rewrite <- length_snapshot.
        assert (work_left (new_frame adj w :: f' :: rest) = S (length (snapshot_neighbours adj w)) + work_left (f' :: rest))%nat; [|lia].
        unfold work_left. cbn. lia.
  - assert (Hall : forall u, edge v u -> P v u).
    { intros u Hu. apply Hp0. apply lookup_ge_None in Ew. rewrite take_ge by done. rewrite Hn. by apply elem_of_snapshot. }
    assert (Hl' : linked rest P) by (intros g Hg; apply Hl; by right).
    assert (Hm : (work_left rest < work_left (f :: rest))%nat) by (unfold work_left; cbn; lia).
    assert (Hvs : v ∈ scc_stack s) by (apply (ti_gray _ _ _ I); by left). destruct (stack_visited _ _ _ _ I Hvs) as [i Hi].
    assert (Hlow : is_Some (lowlink s !! v)) by (apply (ti_lowdom _ _ _ I); by eexists). destruct Hlow as [l Hlow].
    unfold finalize. rewrite Hlow, Hi. cbn [mbind option_bind]. pose proof (ti_low_le _ _ _ I v l Hlow) as Hle. rewrite (rank_index _ _ _ Hi) in Hle.
    destruct (Nat.eqb_spec l i) as [->|Hne].
    + destruct (tinv_pop s v (f_v <$> rest) P I Hall) as (stack & on & scc & -> & I'); [by rewrite (rank_index _ _ _ Hi)|]. cbn [mbind option_bind].
      destruct rest as [|p rest]; [eexists _, _; split; [reflexivity|]; split_and!; [by eexists|done|unfold unvisited, owed in *; cbn [index]; lia]|].
      cbn [fmap list_fmap] in I'. assert (Hp : f_v p ∈ scc_stack s) by (apply (ti_gray _ _ _ I); right; by left).
      assert (Hlp : is_Some (lowlink s !! f_v p)) by (apply (ti_lowdom _ _ _ I), (stack_visited _ _ _ _ I Hp)). destruct Hlp as [lp Hlp].
      unfold lower. cbn [lowlink]. rewrite Hlp. cbn [mbind option_bind].
      pose proof (ti_gray_sorted _ _ _ I) as [_ Hs]%StronglySorted_inv. rewrite Forall_forall in Hs. specialize (Hs (f_v p) (list_elem_of_here _ _)).
      pose proof (ti_low_le _ _ _ I (f_v p) lp Hlp). rewrite (rank_index _ _ _ Hi) in Hs. destruct (Nat.ltb_spec i lp); [lia|].
      eexists _, _. split; [reflexivity|]. split_and!; [by eexists|done|unfold unvisited, owed in *; cbn [index]; lia].
    + destruct rest as [|p rest].
      { exfalso. eapply low_has_parent; [exact I|exact Hlow|]. rewrite (rank_index _ _ _ Hi). lia. }
      cbn [fmap list_fmap] in I. assert (Hp : f_v p ∈ scc_stack s) by (apply (ti_gray _ _ _ I); right; by left).
      assert (Hpl : exists u, u ∈ scc_stack s /\ rank s u = l /\ reach (f_v p) u).
      { destruct (ti_low_path _ _ _ I v l) as (u & Hu & Hr & Hpu); [by left|done|]. exists u. split_and!; [done|done|]. etrans; [|exact Hpu].
        apply (ti_fwd _ _ _ I); [right; by left|done|]. pose proof (ti_gray_sorted _ _ _ I) as [_ Hs]%StronglySorted_inv. rewrite Forall_forall in Hs.
        specialize (Hs (f_v p) (list_elem_of_here _ _)). lia. }
      cbn [mbind option_bind]. destruct (tinv_lower s _ P (f_v p) l I) as (s' & lp & -> & I' & Hlp & Hle' & Eidx & Est & _ & Hoth); [right; by left|done|].
      cbn [mbind option_bind]. eexists _, _. split; [reflexivity|]. split_and!; [|by rewrite Eidx|unfold unvisited, owed; rewrite Eidx; lia].
      exists P. split; [|done]. cbn [fmap list_fmap]. eapply (tinv_finish s' v (f_v p)); [exact I'|done| | |exact Hlp|exact Hle'].
      * rewrite Hoth; [exact Hlow|]. intros Evp. pose proof (ti_gray_sorted _ _ _ I) as [_ Hs]%StronglySorted_inv. rewrite Forall_forall in Hs.
        specialize (Hs (f_v p) (list_elem_of_here _ _)). rewrite <- Evp in Hs. lia.
      * unfold rank. rewrite Eidx, Hi. cbn. lia.
Qed.

Lemma tarjan_loop_ok fuel s work P : tinv s (f_v <$> work) P -> linked work P -> (unvisited s + work_left work < fuel)%nat ->
  exists s', tarjan_loop adj fuel s work = Some s' /\ (exists P', tinv s' [] P') /\ (forall v, is_Some (index s !! v) -> is_Some (index s' !! v)).
Proof.
  revert s work P. induction fuel as [|fuel IH]; intros s work P I Hl Hm; [lia|]. cbn [tarjan_loop]. destruct work as [|f rest].
  - exists s. split; [done|]. split; [by eexists|done].
  - destruct (tarjan_round_ok s f rest P I Hl) as (s1 & work1 & -> & (P1 & I1 & Hl1) & Hv1 & Hm1). cbn [mbind option_bind].
    destruct (IH s1 work1 P1 I1 Hl1) as (s' & -> & HP & Hv); [lia|]. exists s'. split; [done|]. split; [done|auto].
Qed.

Lemma empty_stack s P : tinv s [] P -> scc_stack s = [].
Proof.
  intros I. destruct (scc_stack s) as [|y l] eqn:E; [done|]. destruct (ti_back _ _ _ I y) as (g & ?%elem_of_nil & _); [|done]. rewrite E. by left.
Qed.

Lemma unvisited_le s : (unvisited s <= sum_list (weight adj <$> elements (dom adj)))%nat.
Proof.
  unfold unvisited. induction (elements (dom adj)) as [|a l IH]; [done|]. cbn [fmap list_fmap sum_list].
  assert (owed s a <= weight adj a)%nat by (unfold owed; destruct (index s !! a); lia). unfold id in *. lia.
Qed.

Lemma tarjan_roots_ok s nodes P : tinv s [] P -> (forall v, v ∈ nodes -> v ∈ dom adj) ->
  exists s', tarjan_roots adj (tarjan_fuel adj) s nodes = Some s' /\ (exists P', tinv s' [] P')
    /\ (forall v, v ∈ nodes \/ is_Some (index s !! v) -> is_Some (index s' !! v)).
Proof.
  revert s P. induction nodes as [|root nodes IH]; intros s P I Hd; cbn [tarjan_roots].
  { exists s. split; [done|]. split; [by eexists|]. intros v [?%elem_of_nil|?]; done. }
  assert (Hd' : forall v, v ∈ nodes -> v ∈ dom adj) by (intros; apply Hd; by right).
  destruct (index s !! root) as [i|] eqn:Ei.
  - destruct (IH s P I Hd') as (s' & -> & HP & Hv). exists s'. split; [done|]. split; [done|]. intros v [[->|?]%elem_of_cons|?]; apply Hv; [right; by eexists|by left|by right].
  - pose proof (tinv_visit s [] P root I Ei (Hd root (list_elem_of_here _ _)) (empty_stack s P I)) as I1.
    destruct (tarjan_loop_ok (tarjan_fuel adj) (visit s root) [new_frame adj root] _ I1) as (s1 & -> & (P1 & I2) & Hv1).
    { apply linked_new. by intros f ?%elem_of_nil. }
    { pose proof (unvisited_visit s root Ei (Hd root (list_elem_of_here _ _))) as Hu. pose proof (unvisited_le s). unfold tarjan_fuel, work_left, weight in *. cbn.
      rewrite length_snapshot. lia. }
    cbn [mbind option_bind]. destruct (IH s1 P1 I2 Hd') as (s' & -> & HP & Hv). exists s'. split; [done|]. split; [done|].
    intros v Hv'. apply Hv. destruct Hv' as [[->|?]%elem_of_cons|[i Hi]]; [right|by left|right]; apply Hv1; cbn.
    + rewrite lookup_insert_eq. by eexists.
    + rewrite lookup_insert_ne; [by eexists|]. intros ->. congruence.
Qed.

Lemma tinv_start : tinv tarjan_start [] (fun _ _ => False).
Proof.
  split; cbn; try (by intros * ?%elem_of_nil); try (by intros * ? ?%elem_of_nil); try done; try by constructor.
  - intros v. split; [by intros [? ?]|]. by intros [?%elem_of_nil|(? & ?%elem_of_nil & _)].
  - by intros v [? ?].
Qed.

(** What the walk returns: the components of the graph, each once, successors
    first. *)
Record components (nodes : list string) (cs : list (gset string)) : Prop := {
  co_cover v : v ∈ nodes -> exists i c, cs !! i = Some c /\ v ∈ c;
  co_dom i c v : cs !! i = Some c -> v ∈ c -> v ∈ dom adj;
  co_class i c v w : cs !! i = Some c -> v ∈ c -> w ∈ c <-> reach v w /\ reach w v;
  co_nonempty i c : cs !! i = Some c -> exists v, v ∈ c;
  co_succ i c v w : cs !! i = Some c -> v ∈ c -> edge v w -> exists j c', (j <= i)%nat /\ cs !! j = Some c' /\ w ∈ c';
  co_once i j c c' v : cs !! i = Some c -> cs !! j = Some c' -> v ∈ c -> v ∈ c' -> i = j;
}.

Lemma tarjan_components nodes : (forall v, v ∈ nodes -> v ∈ dom adj) -> exists cs, tarjan adj nodes = Some cs /\ components nodes cs.
Proof.
  intros Hd. destruct (tarjan_roots_ok tarjan_start nodes _ tinv_start Hd) as (s & E & (P & I) & Hv). unfold tarjan. rewrite E.
  exists (sccs s). split; [done|]. pose proof (empty_stack s P I) as Hst. split.
  - intros v Hin. destruct (proj1 (ti_visited _ _ _ I v)) as [Hx|(c & [i Hi]%list_elem_of_lookup & ?)]; [by apply Hv; left| |by exists i, c].
    rewrite Hst in Hx. by apply elem_of_nil in Hx.
  - intros i c v Hi Hvc. apply (ti_dom _ _ _ I), (ti_visited _ _ _ I). right. exists c. split; [by eapply list_elem_of_lookup_2|done].
  - intros i c v w Hi Hvc. destruct (ti_scc _ _ _ I c) as (r & Hr); [by eapply list_elem_of_lookup_2|]. destruct (proj1 (Hr v) Hvc) as [Ha Hb]. rewrite Hr. split.
    + intros [Hc Hd']. split; etrans; eauto.
    + intros [Hc Hd']. split; etrans; eauto.
  - intros i c Hi. destruct (ti_scc _ _ _ I c) as (r & Hr); [by eapply list_elem_of_lookup_2|]. exists r. by apply Hr.
  - apply (ti_closed _ _ _ I).
  - apply (ti_sdisj _ _ _ I).
Qed.
End tarjan.
