(* ===== verification/Stratify.v ===== *)
(** * Stratification of rules

    crates/uni-locy/src/compiler/stratify.rs: the order in which the rules of a
    program are evaluated.  Rules that depend on each other form a component;
    a negation inside a component is rejected; the components are ordered so
    that each comes after those it depends on.  [None] is a panic. *)

From stdpp Require Import relations.
From S2P Require Import Prelude Tarjan.

(** [LocyCompileError], the cases raised between the parser and the type checker. *)
Inductive LocyCompileError :=
| UndefinedRule (name : string)
| CyclicNegation (rules : list string)
| WardednessViolation (rule variable : string)
| ModuleNotFound (name : string)
| ImportNotFound (module rule : string).

Record DependencyGraph := mkGraph { positive_edges : Adj; negative_edges : Adj; all_rules : gset string }.

Record StratificationResult := mkStrata {
  r_sccs : list (gset string);
  scc_order : list nat;
  scc_map : gmap string nat;
  is_recursive : list bool;
  scc_depends_on : list (gset nat);
}.

Definition str_le (a b : string) : Prop := String.leb a b = true.
#[export] Instance str_le_dec : RelDecision str_le.
Proof. unfold str_le. intros a b. apply _. Defined.

Section stratify.
  Context `{HO : HashOrder}.
  Implicit Types (g : DependencyGraph) (e adj : Adj).

(** The edges of a map, in the order of its iteration. *)
Definition edge_list e : list (string * string) :=
  concat ((fun ft : string * gset string => pair ft.1 <$> hash_order (elements ft.2)) <$> hash_order (map_to_list e)).

Definition add_dep adj (ft : string * string) : Adj := <[ft.1 := {[ft.2]} ∪ default ∅ (adj !! ft.1)]> adj.
(** [adj.entry(rule).or_default()] *)
Definition add_rule adj (rule : string) : Adj := <[rule := default ∅ (adj !! rule)]> adj.
Definition combined g : Adj :=
  foldl add_dep (foldl add_dep (foldl add_rule ∅ (hash_order (elements (all_rules g)))) (edge_list (positive_edges g))) (edge_list (negative_edges g)).

Definition map_scc (m : gmap string nat) (ic : nat * gset string) : gmap string nat :=
  foldl (fun m rule => <[rule := ic.1]> m) m (hash_order (elements ic.2)).
Definition build_scc_map (sccs : list (gset string)) : gmap string nat := foldl map_scc ∅ (imap pair sccs).

(** The first negative edge inside a component, and the rules of the component. *)
Fixpoint check_negation (sccs : list (gset string)) (m : gmap string nat) (edges : list (string * string)) : option (result LocyCompileError unit) :=
  match edges with
  | [] => Some (Ok tt)
  | (from, to) :: edges =>
      from_scc ← m !! from;
      to_scc ← m !! to;
      if decide (from_scc = to_scc) then
        scc ← sccs !! from_scc;
        Some (Err (CyclicNegation (merge_sort str_le (hash_order (elements scc)))))
      else check_negation sccs m edges
  end.

Definition recursive g (scc : gset string) : option bool :=
  if (1 <? size scc)%nat then Some true
  else
    rule ← head (hash_order (elements scc));
    Some (match positive_edges g !! rule with Some deps => bool_decide (rule ∈ deps) | None => false end).

(** The condensation: for an entry [from -> tos], the components of [tos]. *)
Fixpoint depend (m : gmap string nat) (from_scc : nat) (deps : list (gset nat)) (tos : list string) : option (list (gset nat)) :=
  match tos with
  | [] => Some deps
  | to :: tos =>
      to_scc ← m !! to;
      if decide (from_scc = to_scc) then depend m from_scc deps tos
      else ds ← deps !! from_scc; depend m from_scc (<[from_scc := {[to_scc]} ∪ ds]> deps) tos
  end.
Fixpoint condense (m : gmap string nat) (deps : list (gset nat)) (entries : list (string * gset string)) : option (list (gset nat)) :=
  match entries with
  | [] => Some deps
  | (from, tos) :: entries =>
      from_scc ← m !! from;
      deps ← depend m from_scc deps (hash_order (elements tos));
      condense m deps entries
  end.

(** [reverse_deps[dep].push(i)] for the dependencies of component [i]. *)
Fixpoint push_dependents (i : nat) (rev : list (list nat)) (deps : list nat) : option (list (list nat)) :=
  match deps with
  | [] => Some rev
  | dep :: deps => l ← rev !! dep; push_dependents i (<[dep := l ++ [i]]> rev) deps
  end.
Fixpoint reverse_deps (rev : list (list nat)) (ideps : list (nat * gset nat)) : option (list (list nat)) :=
  match ideps with
  | [] => Some rev
  | (i, deps) :: ideps => rev ← push_dependents i rev (hash_order (elements deps)); reverse_deps rev ideps
  end.

Fixpoint settle (in_degree queue : list nat) (dependents : list nat) : option (list nat * list nat) :=
  match dependents with
  | [] => Some (in_degree, queue)
  | d :: dependents =>
      x ← in_degree !! d;
      match x with
      | O => None
      | S x => settle (<[d := x]> in_degree) (if Nat.eqb x 0 then queue ++ [d] else queue) dependents
      end
  end.

(** Kahn's loop. *)
Fixpoint kahn (fuel : nat) (rev : list (list nat)) (in_degree queue order : list nat) : option (list nat) :=
  match fuel with
  | O => None
  | S fuel =>
      match queue with
      | [] => Some order
      | node :: queue =>
          dependents ← rev !! node;
          '(in_degree, queue) ← settle in_degree queue dependents;
          kahn fuel rev in_degree queue (order ++ [node])
      end
  end.

Definition topological (scc_depends_on : list (gset nat)) : option (list nat) :=
  let n := length scc_depends_on in
  rev ← reverse_deps (replicate n []) (imap pair scc_depends_on);
  let in_degree := size <$> scc_depends_on in
  kahn (S n) rev in_degree (filter (fun i => in_degree !! i = Some O) (seq 0 n)) [].

Definition stratify g : option (result LocyCompileError StratificationResult) :=
  let adj := combined g in
  sccs ← tarjan adj (merge_sort str_le (hash_order (elements (all_rules g))));
  let scc_map := build_scc_map sccs in
  checked ← check_negation sccs scc_map (edge_list (negative_edges g));
  match checked with
  | Err e => Some (Err e)
  | Ok _ =>
      is_recursive ← mapM (recursive g) sccs;
      deps ← condense scc_map (replicate (length sccs) ∅) (hash_order (map_to_list (positive_edges g)) ++ hash_order (map_to_list (negative_edges g)));
      order ← topological deps;
      Some (Ok (mkStrata sccs order scc_map is_recursive deps))
  end.
End stratify.

(** ** The combined graph *)

Section proofs.
  Context `{HO : HashOrder}.
  Implicit Types (g : DependencyGraph) (e adj : Adj) (cs : list (gset string)) (m : gmap string nat).

Definition depends e (v w : string) : Prop := w ∈ successors e v.

Lemma edge_list_elem e v w : (v, w) ∈ edge_list e <-> depends e v w.
Proof.
  unfold edge_list, depends, successors. rewrite list_elem_of_In, in_concat. setoid_rewrite <- list_elem_of_In. split.
  - intros (l & ([f tos] & -> & Hin)%list_elem_of_fmap & Hl). rewrite hash_order_perm, elem_of_map_to_list in Hin. cbn [fst snd] in Hl.
    apply list_elem_of_fmap in Hl as (w' & [= -> ->] & Hw). rewrite hash_order_perm, elem_of_elements in Hw. by rewrite Hin.
  - destruct (e !! v) as [tos|] eqn:E; cbn; [|by intros ?%elem_of_empty]. intros Hw. eexists. split.
    + apply list_elem_of_fmap. exists (v, tos). split; [reflexivity|]. by rewrite hash_order_perm, elem_of_map_to_list.
    + cbn. apply list_elem_of_fmap. exists w. split; [done|]. by rewrite hash_order_perm, elem_of_elements.
Qed.

Lemma add_deps adj l v w : depends (foldl add_dep adj l) v w <-> depends adj v w \/ (v, w) ∈ l.
Proof.
  revert adj. induction l as [|[f t] l IH]; intros adj; cbn [foldl]; [split; [auto|by intros [?|?%elem_of_nil]]|].
  rewrite IH, elem_of_cons. unfold depends, successors, add_dep. cbn [fst snd]. destruct (decide (f = v)) as [->|Hn].
  - rewrite lookup_insert_eq. cbn. rewrite elem_of_union, elem_of_singleton. split; [intros [[->|?]|?]; auto|].
    intros [?|[[= ->]|?]]; auto.
  - rewrite lookup_insert_ne by done. split; [tauto|]. intros [?|[[= <- <-]|?]]; auto. done.
Qed.
Lemma add_deps_dom adj l v : v ∈ dom (foldl add_dep adj l) <-> v ∈ dom adj \/ exists w, (v, w) ∈ l.
Proof.
  revert adj. induction l as [|[f t] l IH]; intros adj; cbn [foldl]; [split; [auto|by intros [?|(? & ?%elem_of_nil)]]|].
  rewrite IH. setoid_rewrite elem_of_cons. unfold add_dep. rewrite dom_insert_L, elem_of_union, elem_of_singleton. cbn [fst]. split.
  - intros [[->|?]|(w & ?)]; [right; exists t; auto|auto|right; eauto].
  - intros [?|(w & [[= -> ->]|?])]; [auto|auto|right; eauto].
Qed.
Lemma add_rules adj l v w : depends (foldl add_rule adj l) v w <-> depends adj v w.
Proof.
  revert adj. induction l as [|r l IH]; intros adj; cbn [foldl]; [done|]. rewrite IH. unfold depends, successors, add_rule.
  destruct (decide (r = v)) as [->|Hn]; [by rewrite lookup_insert_eq|by rewrite lookup_insert_ne].
Qed.
Lemma add_rules_dom adj l v : v ∈ dom (foldl add_rule adj l) <-> v ∈ dom adj \/ v ∈ l.
Proof.
  revert adj. induction l as [|r l IH]; intros adj; cbn [foldl]; [split; [auto|by intros [?|?%elem_of_nil]]|].
  rewrite IH. unfold add_rule. rewrite dom_insert_L, elem_of_union, elem_of_singleton, elem_of_cons. tauto.
Qed.

(** What the dependency pass guarantees: edges join known rules. *)
Record graph_wf g : Prop := {
  gw_pos v tos : positive_edges g !! v = Some tos -> v ∈ all_rules g /\ tos ⊆ all_rules g;
  gw_neg v tos : negative_edges g !! v = Some tos -> v ∈ all_rules g /\ tos ⊆ all_rules g;
}.

Lemma depends_wf g v w : graph_wf g -> depends (positive_edges g) v w \/ depends (negative_edges g) v w -> v ∈ all_rules g /\ w ∈ all_rules g.
Proof.
  intros [Hp Hn]. unfold depends, successors. intros [H|H].
  - destruct (positive_edges g !! v) as [tos|] eqn:E; [|by apply elem_of_empty in H]. destruct (Hp v tos E). split; [done|set_solver].
  - destruct (negative_edges g !! v) as [tos|] eqn:E; [|by apply elem_of_empty in H]. destruct (Hn v tos E). split; [done|set_solver].
Qed.

Lemma combined_edge g v w : edge (combined g) v w <-> depends (positive_edges g) v w \/ depends (negative_edges g) v w.
Proof.
  change (edge (combined g) v w) with (depends (combined g) v w). unfold combined. rewrite !add_deps, add_rules, !edge_list_elem.
  split; [|tauto]. intros [[H|?]|?]; [|auto|auto]. unfold depends, successors in H. rewrite lookup_empty in H. by apply elem_of_empty in H.
Qed.
Lemma combined_dom g v : graph_wf g -> v ∈ dom (combined g) <-> v ∈ all_rules g.
Proof.
  intros Hw. unfold combined. rewrite !add_deps_dom, add_rules_dom, hash_order_perm, elem_of_elements. setoid_rewrite edge_list_elem. split.
  - intros [[[?|?]|(w & ?)]|(w & ?)]; [set_solver|done|by apply (depends_wf g v w); auto|by apply (depends_wf g v w); auto].
  - auto.
Qed.

(** ** The component of a rule *)

Lemma map_scc_lookup m ic v : map_scc m ic !! v = if decide (v ∈ ic.2) then Some ic.1 else m !! v.
Proof.
  unfold map_scc. assert (H : forall l m, foldl (fun m rule => <[rule := ic.1]> m) m l !! v = if decide (v ∈ l) then Some ic.1 else m !! v).
  { clear m. induction l as [|r l IH]; intros m; cbn [foldl]; [done|]. rewrite IH. destruct (decide (v = r)) as [->|Hn].
    - rewrite (decide_True (P := r ∈ r :: l)) by by left. case_decide; [done|]. by rewrite lookup_insert_eq.
    - rewrite lookup_insert_ne by done. destruct (decide (v ∈ l)); [by rewrite decide_True by by right|]. rewrite decide_False by set_solver. done. }
  rewrite H. destruct (decide (v ∈ ic.2)); [rewrite decide_True by (by rewrite hash_order_perm, elem_of_elements)|rewrite decide_False by (by rewrite hash_order_perm, elem_of_elements)]; done.
Qed.

Lemma build_scc_map_lookup cs v i : (forall i j c c', cs !! i = Some c -> cs !! j = Some c' -> v ∈ c -> v ∈ c' -> i = j) ->
  build_scc_map cs !! v = Some i <-> exists c, cs !! i = Some c /\ v ∈ c.
Proof.
  unfold build_scc_map. induction cs as [|c cs IH] using rev_ind; intros Hd; [cbn; rewrite lookup_empty; split; [done|by intros (? & ? & _)]|].
  rewrite imap_app, foldl_app. cbn. rewrite map_scc_lookup, Nat.add_0_r. cbn [fst snd].
  assert (Hd' : forall i j c c', cs !! i = Some c -> cs !! j = Some c' -> v ∈ c -> v ∈ c' -> i = j).
  { intros a b x y Ha Hb. apply Hd; by apply lookup_app_l_Some. }
  case_decide as Hv.
  - split.
    + intros [= <-]. exists c. split; [by rewrite list_lookup_middle|done].
    + intros (c' & Hi & Hv'). f_equal. apply (Hd _ _ c c'); [by rewrite list_lookup_middle|done|done|done].
  - rewrite IH by done. split; intros (c' & Hi & Hv'); exists c'; (split; [|done]).
    + by apply lookup_app_l_Some.
    + apply lookup_app_Some in Hi as [?|[_ Hi]]; [done|]. apply list_lookup_singleton_Some in Hi as [_ <-]. done.
Qed.

(** ** The negation check *)

Lemma check_negation_spec cs m edges : (forall v w, (v, w) ∈ edges -> is_Some (m !! v) /\ is_Some (m !! w)) ->
  (forall v i, m !! v = Some i -> exists c, cs !! i = Some c /\ v ∈ c) ->
  match check_negation cs m edges with
  | None => False
  | Some (Ok _) => forall v w i, (v, w) ∈ edges -> m !! v = Some i -> m !! w <> Some i
  | Some (Err err) => exists v w i c, (v, w) ∈ edges /\ m !! v = Some i /\ m !! w = Some i /\ cs !! i = Some c /\ v ∈ c
      /\ err = CyclicNegation (merge_sort str_le (hash_order (elements c)))
  end.
Proof.
  intros Ht Hm. induction edges as [|[v w] edges IH]; cbn [check_negation]; [by intros v w i ?%elem_of_nil|].
  destruct (Ht v w) as [[i Hi] [j Hj]]; [by left|]. rewrite Hi, Hj. cbn [mbind option_bind]. case_decide as E.
  - subst j. destruct (Hm v i Hi) as (c & Hc & Hv). rewrite Hc. cbn. exists v, w, i, c. split_and!; try done. by left.
  - assert (Ht' : forall v w, (v, w) ∈ edges -> is_Some (m !! v) /\ is_Some (m !! w)) by (intros; apply Ht; by right).
    specialize (IH Ht'). destruct (check_negation cs m edges) as [[[]|err]|]; [| |done].
    + intros v' w' k [[= -> ->]|Hin]%elem_of_cons Hk; [|by apply (IH v' w' k)]. congruence.
    + destruct IH as (v' & w' & k & c & Hin & ?). exists v', w', k, c. split; [by right|done].
Qed.

(** ** The condensation *)

Definition dep_at (deps : list (gset nat)) (i j : nat) : Prop := exists ds, deps !! i = Some ds /\ j ∈ ds.

Lemma dep_at_insert deps i ds k a b : deps !! i = Some ds -> dep_at (<[i := {[k]} ∪ ds]> deps) a b <-> dep_at deps a b \/ (a = i /\ b = k).
Proof.
  intros Hi. unfold dep_at. destruct (decide (i = a)) as [<-|Hn].
  - rewrite list_lookup_insert_eq by by eapply lookup_lt_Some. rewrite Hi. split.
    + intros (x & [= <-] & [?%elem_of_singleton|?]%elem_of_union); [by right|left; eauto].
    + intros [(x & [= <-] & ?)|[_ ->]]; eexists; (split; [done|]); set_solver.
  - rewrite list_lookup_insert_ne by done. split; [auto|]. intros [?|[-> _]]; done.
Qed.

Lemma depend_spec m i deps tos : (i < length deps)%nat -> (forall w, w ∈ tos -> is_Some (m !! w)) ->
  exists deps', depend m i deps tos = Some deps' /\ length deps' = length deps
    /\ forall a b, dep_at deps' a b <-> dep_at deps a b \/ (a = i /\ i <> b /\ exists w, w ∈ tos /\ m !! w = Some b).
Proof.
  revert deps. induction tos as [|w tos IH]; intros deps Hlen Ht; cbn [depend].
  { exists deps. split_and!; [done|done|]. intros a b. split; [auto|]. by intros [?|(_ & _ & ? & ?%elem_of_nil & _)]. }
  assert (Ht' : forall w, w ∈ tos -> is_Some (m !! w)) by (intros; apply Ht; by right).
  destruct (Ht w) as [k Hk]; [by left|]. rewrite Hk. cbn [mbind option_bind]. setoid_rewrite elem_of_cons. case_decide as E.
  - destruct (IH deps Hlen Ht') as (deps' & -> & Hl & Hd). exists deps'. split_and!; [done|done|]. intros a b. rewrite Hd. split.
    + intros [?|(-> & Hne & x & ? & ?)]; [by left|right; eauto 10].
    + intros [?|(-> & Hne & x & [->|?] & ?)]; [by left|congruence|right; eauto 10].
  - destruct (lookup_lt_is_Some_2 deps i Hlen) as [ds Hds]. rewrite Hds. cbn [mbind option_bind].
    destruct (IH (<[i := {[k]} ∪ ds]> deps)) as (deps' & -> & Hl & Hd); [by rewrite length_insert|done|]. rewrite length_insert in Hl.
    exists deps'. split_and!; [done|done|]. intros a b. rewrite Hd, (dep_at_insert deps i ds k a b Hds). split.
    + intros [[?|[-> ->]]|(-> & Hne & x & ? & ?)]; [by left|right; eauto 10|right; eauto 10].
    + intros [?|(-> & Hne & x & [->|?] & ?)]; [by left; left|left; right; split; [done|congruence]|right; eauto 10].
Qed.

Lemma condense_spec m deps entries : (forall v i, m !! v = Some i -> (i < length deps)%nat) ->
  (forall v tos, (v, tos) ∈ entries -> is_Some (m !! v) /\ forall w, w ∈ tos -> is_Some (m !! w)) ->
  exists deps', condense m deps entries = Some deps' /\ length deps' = length deps
    /\ forall a b, dep_at deps' a b <-> dep_at deps a b \/ (a <> b /\ exists v tos w, (v, tos) ∈ entries /\ w ∈ tos /\ m !! v = Some a /\ m !! w = Some b).
Proof.
  revert deps. induction entries as [|[v tos] entries IH]; intros deps Hm Ht; cbn [condense].
  { exists deps. split_and!; [done|done|]. intros a b. split; [auto|]. by intros [?|(_ & ? & ? & ? & ?%elem_of_nil & _)]. }
  destruct (Ht v tos) as [[i Hi] Hw]; [by left|]. rewrite Hi. cbn [mbind option_bind].
  destruct (depend_spec m i deps (hash_order (elements tos))) as (d1 & -> & Hl1 & Hd1); [by eapply Hm| |].
  { intros w. rewrite hash_order_perm, elem_of_elements. apply Hw. }
  cbn [mbind option_bind]. destruct (IH d1) as (d2 & -> & Hl2 & Hd2); [by rewrite Hl1|intros; apply Ht; by right|].
  exists d2. split_and!; [done|congruence|]. intros a b. rewrite Hd2, Hd1. setoid_rewrite hash_order_perm. setoid_rewrite elem_of_elements. split.
  - intros [[?|(-> & Hne & w & ? & ?)]|(Hne & v' & tos' & w & ? & ?)]; [by left|right|right].
    + split; [done|]. exists v, tos, w. split_and!; try done. by left.
    + split; [done|]. exists v', tos', w. split; [by right|done].
  - intros [?|(Hne & v' & tos' & w & [[= -> ->]|Hin]%elem_of_cons & Hw' & Hv' & Hb)]; [by left; left| |right; eauto 10].
    left. right. rewrite Hi in Hv'. injection Hv' as ->. eauto.
Qed.

(** ** The topological order *)

Lemma push_dependents_spec i rev deps : NoDup deps -> (forall j, j ∈ deps -> (j < length rev)%nat) ->
  exists rev', push_dependents i rev deps = Some rev' /\ length rev' = length rev
    /\ forall j l, rev !! j = Some l -> rev' !! j = Some (if decide (j ∈ deps) then l ++ [i] else l).
Proof.
  intros Hnd. revert rev. induction Hnd as [|d deps Hd Hnd IH]; intros rev Hb; cbn [push_dependents].
  { exists rev. split_and!; [done|done|]. intros j l. rewrite decide_False by apply not_elem_of_nil. done. }
  destruct (lookup_lt_is_Some_2 rev d) as [l0 Hl0]; [apply Hb; by left|]. rewrite Hl0. cbn [mbind option_bind].
  destruct (IH (<[d := l0 ++ [i]]> rev)) as (rev' & -> & Hl & Hr); [intros; rewrite length_insert; apply Hb; by right|].
  rewrite length_insert in Hl. exists rev'. split_and!; [done|done|]. intros j l Hj. destruct (decide (d = j)) as [->|Hn].
  - rewrite Hj in Hl0. injection Hl0 as <-. rewrite (Hr j (l ++ [i])) by (rewrite list_lookup_insert_eq; [done|by eapply lookup_lt_Some]).
    by rewrite decide_False, decide_True by (done || by left).
  - rewrite (Hr j l) by by rewrite list_lookup_insert_ne. destruct (decide (j ∈ deps)); [by rewrite decide_True by by right|]. rewrite decide_False by set_solver. done.
Qed.

(** The dependents of each component, each once. *)
Definition reversed (n : nat) (deps : list (gset nat)) (rev : list (list nat)) : Prop :=
  length rev = n /\ forall j l, rev !! j = Some l -> NoDup l /\ forall i, i ∈ l <-> dep_at deps i j.

Lemma reverse_deps_spec n deps : (forall i j, dep_at deps i j -> (j < n)%nat) ->
  exists rev, reverse_deps (replicate n []) (imap pair deps) = Some rev /\ reversed n deps rev.
Proof.
  assert (Hgen : forall rest past rev, reversed n past rev -> (forall i j, dep_at (past ++ rest) i j -> (j < n)%nat) ->
    exists rev', reverse_deps rev (imap (fun i => pair (length past + i)%nat) rest) = Some rev' /\ reversed n (past ++ rest) rev').
  { induction rest as [|d rest IH]; intros past rev [Hlen Hrev] Hb; cbn [imap reverse_deps].
    { exists rev. rewrite app_nil_r. split; [done|]. by split. }
    rewrite Nat.add_0_r. destruct (push_dependents_spec (length past) rev (hash_order (elements d))) as (rev1 & -> & Hl1 & Hr1).
    { rewrite hash_order_perm. apply NoDup_elements. }
    { intros j. rewrite hash_order_perm, elem_of_elements, Hlen. intros Hj. apply (Hb (length past)). exists d. by rewrite list_lookup_middle. }
    cbn [mbind option_bind]. destruct (IH (past ++ [d]) rev1) as (rev' & E & Hrev').
    - split; [congruence|]. intros j l1 Hj1. assert (Hj : exists l, rev !! j = Some l).
      { apply lookup_lt_is_Some_2. apply lookup_lt_Some in Hj1. lia. }
      destruct Hj as [l Hj]. rewrite (Hr1 j l Hj) in Hj1. injection Hj1 as <-. destruct (Hrev j l Hj) as [Hnd Hl].
      assert (Hnew : forall i, dep_at (past ++ [d]) i j <-> dep_at past i j \/ (i = length past /\ j ∈ d)).
      { intros i. unfold dep_at. split.
        - intros (ds & [?|[Hi Hds]]%lookup_app_Some & ?); [left; eauto|]. apply list_lookup_singleton_Some in Hds as [? <-]. right. split; [lia|done].
        - intros [(ds & ? & ?)|(-> & ?)]; [exists ds; split; [by apply lookup_app_l_Some|done]|exists d; by rewrite list_lookup_middle]. }
      setoid_rewrite Hnew. setoid_rewrite <- Hl. destruct (decide (j ∈ hash_order (elements d))) as [Hin|Hin]; rewrite hash_order_perm, elem_of_elements in Hin.
      + split; [|intros i; rewrite elem_of_app, list_elem_of_singleton; naive_solver]. apply NoDup_app. split_and!; [done| |apply NoDup_singleton].
        intros i (ds & Hds & _)%Hl ->%list_elem_of_singleton. apply lookup_lt_Some in Hds. lia.
      + split; [done|]. naive_solver.
    - intros i j. rewrite <- app_assoc. apply Hb.
    - exists rev'. rewrite <- app_assoc in Hrev'. split; [|done]. rewrite <- E. f_equal. apply imap_ext. intros k x _. unfold compose. rewrite length_app. cbn. f_equal. lia. }
  intros Hb. apply (Hgen deps [] (replicate n [])); [|done]. split; [apply length_replicate|]. intros j l [-> _]%lookup_replicate_1.
  split; [constructor|]. intros i. split; [by intros ?%elem_of_nil|by intros (? & ? & _)].
Qed.

Lemma settle_spec in_degree queue l : NoDup l -> (forall d, d ∈ l -> exists x, in_degree !! d = Some (S x)) ->
  exists in_degree', settle in_degree queue l = Some (in_degree', queue ++ filter (fun d => in_degree !! d = Some 1%nat) l)
    /\ length in_degree' = length in_degree
    /\ forall i, in_degree' !! i = (fun x => if decide (i ∈ l) then pred x else x) <$> in_degree !! i.
Proof.
  intros Hnd. revert in_degree queue. induction Hnd as [|d l Hd Hnd IH]; intros ind queue Hp; cbn [settle].
  { exists ind. rewrite app_nil_r. split_and!; [done|done|]. intros i. destruct (ind !! i); cbn; [|done]. rewrite decide_False by apply not_elem_of_nil. done. }
  destruct (Hp d) as [x Hx]; [by left|]. rewrite Hx. cbn [mbind option_bind].
  assert (Hoth : forall i, i ∈ l -> <[d := x]> ind !! i = ind !! i) by (intros i Hi; apply list_lookup_insert_ne; by intros ->).
  destruct (IH (<[d := x]> ind) (if Nat.eqb x 0 then queue ++ [d] else queue)) as (ind' & E & Hl & Hi).
  { intros i Hi. rewrite Hoth by done. apply Hp. by right. }
  exists ind'. split_and!.
  - rewrite E. f_equal. f_equal. rewrite filter_cons.
    assert (Hf : filter (fun d0 => <[d := x]> ind !! d0 = Some 1%nat) l = filter (fun d0 => ind !! d0 = Some 1%nat) l).
    { clear -Hoth. induction l as [|a l IHl]; [done|]. rewrite !filter_cons, Hoth by by left. rewrite IHl; [done|]. intros; apply Hoth; by right. }
    rewrite Hf, Hx. destruct (Nat.eqb_spec x 0) as [->|Hne]; [rewrite decide_True by done; by rewrite <- app_assoc|]. rewrite decide_False by congruence. done.
  - by rewrite Hl, length_insert.
  - intros i. rewrite Hi. destruct (decide (d = i)) as [->|Hn].
    + rewrite list_lookup_insert_eq by by eapply lookup_lt_Some. rewrite Hx. cbn. rewrite decide_False, decide_True by (done || by left). done.
    + rewrite list_lookup_insert_ne by done. destruct (ind !! i); [|done]. cbn. f_equal. destruct (decide (i ∈ l)); [by rewrite decide_True by by right|].
      rewrite decide_False by set_solver. done.
Qed.

Section kahn.
  Context (deps : list (gset nat)) (rev : list (list nat)) (Hrev : reversed (length deps) deps rev).
  Context (Hdown : forall i j, dep_at deps i j -> (j < i)%nat).
  Abbreviation n := (length deps).

(** The state of the loop: [order] is closed under dependencies, the counts are
    those outside it, and the queue holds what is ready. *)
Record kinv (in_degree queue order : list nat) : Prop := {
  ki_len : length in_degree = n;
  ki_deg i ds : deps !! i = Some ds -> in_degree !! i = Some (size (ds ∖ list_to_set order));
  ki_nodup : NoDup (order ++ queue);
  ki_ready i : i ∈ order ++ queue <-> in_degree !! i = Some O;
  ki_order l1 i l2 ds : order = l1 ++ i :: l2 -> deps !! i = Some ds -> ds ⊆ list_to_set l1;
}.

Lemma kinv_next in_degree node queue order : kinv in_degree (node :: queue) order ->
  exists dependents in_degree' queue', rev !! node = Some dependents /\ settle in_degree queue dependents = Some (in_degree', queue')
    /\ kinv in_degree' queue' (order ++ [node]).
Proof.
  intros [K1 K2 K3 K4 K5]. destruct Hrev as [Hlen Hr].
  assert (Hnode : in_degree !! node = Some O) by (apply K4; set_solver).
  destruct (lookup_lt_is_Some_2 rev node) as [l Hl]; [rewrite Hlen, <- K1; by eapply lookup_lt_Some|]. destruct (Hr node l Hl) as [Hnd Hin].
  assert (Hno : node ∉ order). { intros Hx. apply NoDup_app in K3 as (_ & K3 & _). by apply (K3 node Hx); left. }
  assert (Hshift : forall ds : gset nat, size (ds ∖ list_to_set (order ++ [node])) = if decide (node ∈ ds) then pred (size (ds ∖ list_to_set order)) else size (ds ∖ list_to_set order)).
  { intros ds. case_decide as Hd.
    - replace (ds ∖ list_to_set (order ++ [node])) with ((ds ∖ list_to_set order) ∖ {[node]}) by set_solver.
      rewrite size_difference by set_solver. rewrite size_singleton. lia.
    - f_equal. set_solver. }
  destruct (settle_spec in_degree queue l Hnd) as (ind' & Es & Hlen' & Hi).
  { intros d (ds & Hds & Hd)%Hin. rewrite (K2 d ds Hds). assert (Hpos : size (ds ∖ list_to_set order) <> O).
    { apply size_non_empty_iff. set_solver. }
    destruct (size _) as [|k]; [done|by exists k]. }
  eexists l, ind', _. split; [done|]. split; [exact Es|].
  assert (Hlk : forall i ds, deps !! i = Some ds -> ind' !! i = Some (size (ds ∖ list_to_set (order ++ [node])))).
  { intros i ds Hds. rewrite Hi, (K2 i ds Hds), Hshift. cbn. f_equal. assert (Hil : i ∈ l <-> node ∈ ds).
    { rewrite Hin. unfold dep_at. rewrite Hds. naive_solver. }
    repeat case_decide; try done; exfalso; tauto. }
  split.
  - congruence.
  - exact Hlk.
  - rewrite <- app_assoc. cbn [app]. apply NoDup_app in K3 as (N1 & N2 & N3). apply NoDup_cons in N3 as [N3 N4].
    assert (Hfresh : forall d, d ∈ filter (fun d => in_degree !! d = Some 1%nat) l -> (d ∉ order) /\ (d ∉ node :: queue)).
    { intros d [Hd _]%list_elem_of_filter. assert (d ∉ (order ++ node :: queue)) by (rewrite K4; congruence). set_solver. }
    change (node :: (queue ++ ?x)) with ((node :: queue) ++ x). apply NoDup_app. split; [done|]. split.
    + intros d Hd [Hq|[Hf _]%Hfresh]%elem_of_app; [by apply (N2 d)|done].
    + apply NoDup_app. split_and!; [by constructor| |by apply NoDup_filter]. intros d Hd Hf. by apply (proj2 (Hfresh d Hf)).
  - intros i. rewrite <- app_assoc. cbn [app]. rewrite Hi. destruct (in_degree !! i) as [x|] eqn:Ex.
    2:{ cbn. split; [|done]. rewrite elem_of_app, elem_of_cons, elem_of_app. intros Hx. exfalso.
        assert (in_degree !! i = Some O \/ in_degree !! i = Some 1%nat) as [?|?]; [|congruence|congruence].
        destruct Hx as [?|[->|[?|[? _]%list_elem_of_filter]]]; [left; apply K4; set_solver|by left|left; apply K4; set_solver|by right]. }
    cbn. rewrite elem_of_app, elem_of_cons, elem_of_app, list_elem_of_filter. assert (Hready := K4 i). rewrite Ex in Hready. setoid_rewrite Ex.
    rewrite elem_of_app, elem_of_cons in Hready. case_decide as Hil; split.
    + intros [?|[?|[?|[[= ->] _]]]]; [| | |done]; (destruct x; [done|]); exfalso; (assert (Some (S x) = Some O) by tauto; done).
    + intros [= Hp]. destruct x as [|[|x]]; [tauto| |done]. right. right. right. done.
    + intros [?|[?|[?|[_ ?]]]]; [tauto|tauto|tauto|done].
    + tauto.
  - intros l1 i l2 ds El Hds. destruct l2 as [|y l2 _] using rev_ind.
    + apply app_inj_tail in El as [<- <-]. rewrite (K2 node ds Hds) in Hnode. injection Hnode as Hz. apply size_empty_iff in Hz. set_solver.
    + change (i :: l2 ++ [y]) with ((i :: l2) ++ [y]) in El. rewrite app_assoc in El. apply app_inj_tail in El as [El _]. by eapply K5.
Qed.

Lemma kinv_order_size in_degree queue order : kinv in_degree queue order -> (length order <= n)%nat.
Proof.
  intros [K1 K2 K3 K4 K5]. rewrite <- (length_seq n 0). apply submseteq_length, NoDup_submseteq.
  - by apply NoDup_app in K3 as [? _].
  - intros i Hi. apply elem_of_seq. assert (Hz : in_degree !! i = Some O) by (apply K4; set_solver). apply lookup_lt_Some in Hz. lia.
Qed.

Lemma kahn_ok fuel in_degree queue order : kinv in_degree queue order -> (n - length order < fuel)%nat ->
  exists order' in_degree', kahn fuel rev in_degree queue order = Some order' /\ kinv in_degree' [] order'.
Proof.
  revert in_degree queue order. induction fuel as [|fuel IH]; intros ind queue order K Hf; [lia|]. cbn [kahn].
  destruct queue as [|node queue]; [by exists order, ind|].
  destruct (kinv_next _ _ _ _ K) as (dependents & ind' & queue' & -> & Es & K'). cbn [mbind option_bind]. rewrite Es. cbn [mbind option_bind].
  apply IH; [done|]. apply kinv_order_size in K'. rewrite length_app in *. cbn in *. lia.
Qed.

(** The order holds every component once, after those it depends on. *)
Definition topo_order (order : list nat) : Prop :=
  order ≡ₚ seq 0 n /\ forall i j, dep_at deps i j -> exists l1 l2, order = l1 ++ i :: l2 /\ j ∈ l1.

Lemma kinv_done in_degree order : kinv in_degree [] order -> topo_order order.
Proof.
  intros K. pose proof K as [K1 K2 K3 K4 K5]. rewrite app_nil_r in K3, K4.
  assert (Hall : forall i, (i < n)%nat -> i ∈ order).
  { induction i as [i IH] using lt_wf_ind. intros Hi. apply lookup_lt_is_Some_2 in Hi as [ds Hds]. apply K4. rewrite (K2 i ds Hds). f_equal.
    apply size_empty_iff. intros j. split; [|set_solver]. intros [Hj Hn]%elem_of_difference. assert (Hd : dep_at deps i j) by by exists ds.
    specialize (Hdown i j Hd). exfalso. apply Hn, elem_of_list_to_set, IH; [done|]. apply lookup_lt_Some in Hds. lia. }
  assert (Hmem : forall i, i ∈ order <-> (i < n)%nat).
  { intros i. split; [|apply Hall]. intros Hi%K4%lookup_lt_Some. lia. }
  split.
  - apply NoDup_Permutation; [done|apply NoDup_seq|]. intros i. rewrite Hmem, elem_of_seq. lia.
  - intros i j (ds & Hds & Hj). assert (Hi : i ∈ order) by (apply Hall; by eapply lookup_lt_Some).
    apply list_elem_of_split in Hi as (l1 & l2 & ->). exists l1, l2. split; [done|]. apply (K5 l1 i l2 ds) in Hds; [|done]. set_solver.
Qed.

Lemma kinv_start : kinv (size <$> deps) (filter (fun i => (size <$> deps) !! i = Some O) (seq 0 n)) [].
Proof.
  split.
  - apply length_fmap.
  - intros i ds Hds. rewrite list_lookup_fmap, Hds. cbn. do 2 f_equal. set_solver.
  - apply NoDup_filter, NoDup_seq.
  - intros i. cbn. rewrite list_elem_of_filter, elem_of_seq. split; [tauto|]. intros Hi. split; [done|]. apply lookup_lt_Some in Hi. rewrite length_fmap in Hi. lia.
  - intros l1 i l2 ds E. by destruct l1.
Qed.
End kahn.

Lemma topological_ok deps : (forall i j, dep_at deps i j -> (j < i)%nat) -> exists order, topological deps = Some order /\ topo_order deps order.
Proof.
  intros Hd. unfold topological. destruct (reverse_deps_spec (length deps) deps) as (rev & -> & Hrev).
  { intros i j Hij. specialize (Hd i j Hij). destruct Hij as (ds & Hds%lookup_lt_Some & _). lia. }
  cbn [mbind option_bind]. destruct (kahn_ok deps rev Hrev Hd (S (length deps)) _ _ [] (kinv_start deps rev Hrev Hd)) as (order & ind & -> & K); [cbn; lia|].
  exists order. split; [done|]. by eapply kinv_done.
Qed.

(** ** The result *)

Definition uses g (v w : string) : Prop := depends (positive_edges g) v w \/ depends (negative_edges g) v w.

(** What a result promises: the components are the classes of mutual
    dependency, [scc_map] finds the one of a rule, the order is a permutation of
    them in which dependencies come first, a component is recursive exactly if a
    rule of it depends on itself, and no negation lies on a cycle. *)
Record stratified g (r : StratificationResult) : Prop := {
  st_cover v : v ∈ all_rules g <-> is_Some (scc_map r !! v);
  st_map v i : scc_map r !! v = Some i <-> exists c, r_sccs r !! i = Some c /\ v ∈ c;
  st_class i c v w : r_sccs r !! i = Some c -> v ∈ c -> w ∈ c <-> rtc (uses g) v w /\ rtc (uses g) w v;
  st_nonempty i c : r_sccs r !! i = Some c -> exists v, v ∈ c;
  st_order : scc_order r ≡ₚ seq 0 (length (r_sccs r));
  st_before v w i j : uses g v w -> scc_map r !! v = Some i -> scc_map r !! w = Some j -> i <> j ->
    exists l1 l2, scc_order r = l1 ++ i :: l2 /\ j ∈ l1;
  st_depends i j : dep_at (scc_depends_on r) i j <-> i <> j /\ exists v w, uses g v w /\ scc_map r !! v = Some i /\ scc_map r !! w = Some j;
  st_lengths : length (scc_depends_on r) = length (r_sccs r) /\ length (is_recursive r) = length (r_sccs r);
  st_recursive v i : scc_map r !! v = Some i -> is_recursive r !! i = Some true <-> tc (uses g) v v;
  st_negation v w : depends (negative_edges g) v w -> ~ rtc (uses g) w v;
}.

(** What an error reports: the rules of a component with a negation inside. *)
Definition negation_cycle g (err : LocyCompileError) : Prop := exists v w rules, err = CyclicNegation rules
  /\ depends (negative_edges g) v w /\ rtc (uses g) w v
  /\ Sorted str_le rules /\ NoDup rules /\ forall u, u ∈ rules <-> rtc (uses g) v u /\ rtc (uses g) u v.

#[local] Instance str_le_total : Total str_le.
Proof. intros a b. apply String.leb_total. Qed.

Lemma reach_uses g v w : rtc (edge (combined g)) v w <-> rtc (uses g) v w.
Proof. split; apply rtc_subrel; intros x y; apply combined_edge. Qed.

(** The components and the map of them, for a well-formed graph. *)
Record scc_split g cs m : Prop := {
  ss_cover v : v ∈ all_rules g <-> is_Some (m !! v);
  ss_map v i : m !! v = Some i <-> exists c, cs !! i = Some c /\ v ∈ c;
  ss_class i c v w : cs !! i = Some c -> v ∈ c -> w ∈ c <-> rtc (uses g) v w /\ rtc (uses g) w v;
  ss_nonempty i c : cs !! i = Some c -> exists v, v ∈ c;
  ss_down v w i j : uses g v w -> m !! v = Some i -> m !! w = Some j -> (j <= i)%nat;
}.

Lemma tarjan_split g : graph_wf g -> exists cs, tarjan (combined g) (merge_sort str_le (hash_order (elements (all_rules g)))) = Some cs
  /\ scc_split g cs (build_scc_map cs).
Proof.
  intros Hw. destruct (tarjan_components (combined g)) with (nodes := merge_sort str_le (hash_order (elements (all_rules g)))) as (cs & -> & [C1 C0 C2 C3 C4 C5]).
  { intros v w [_ H]%combined_edge%depends_wf; [|done]. by apply combined_dom. }
  { intros v. rewrite merge_sort_Permutation, hash_order_perm, elem_of_elements. by apply combined_dom. }
  exists cs. split; [done|]. setoid_rewrite reach_uses in C2. setoid_rewrite combined_edge in C4.
  setoid_rewrite merge_sort_Permutation in C1. setoid_rewrite hash_order_perm in C1. setoid_rewrite elem_of_elements in C1.
  assert (Hmap : forall v i, build_scc_map cs !! v = Some i <-> exists c, cs !! i = Some c /\ v ∈ c).
  { intros v i. apply build_scc_map_lookup. intros. by eapply C5. }
  split; [|done|done|done|].
  - intros v. split.
    + intros (i & c & ?)%C1. exists i. apply Hmap. eauto.
    + intros [i (c & Hi & Hv)%Hmap]. eapply combined_dom, C0; eauto.
  - intros v w i j Hu (c & Hi & Hv)%Hmap (c' & Hj & Hv')%Hmap. destruct (C4 i c v w Hi Hv Hu) as (k & c2 & Hle & Hk & Hw2).
    by rewrite (C5 j k c' c2 w Hj Hk Hv' Hw2).
Qed.

Lemma tc_step {A} (R : A -> A -> Prop) x y : tc R x y -> exists z, R x z /\ rtc R z y.
Proof. destruct 1 as [a b H|a z b H Ht]; [by exists b|exists z; split; [done|by apply tc_rtc]]. Qed.

Lemma recursive_spec g cs m i c : scc_split g cs m -> (forall v, ~ depends (negative_edges g) v v) -> cs !! i = Some c ->
  exists b, recursive g c = Some b /\ forall v, v ∈ c -> b = true <-> tc (uses g) v v.
Proof.
  intros S Hneg Hi. unfold recursive. destruct (Nat.ltb_spec 1 (size c)) as [H1|H1].
  - exists true. split; [done|]. intros v Hv. split; [intros _|done]. destruct (set_choose_L (c ∖ {[v]})) as [w Hw].
    { intros E. apply (f_equal size) in E. rewrite size_difference, size_singleton, size_empty in E by set_solver. lia. }
    destruct (proj1 (ss_class _ _ _ S i c v w Hi Hv)) as [Ha Hb]; [set_solver|]. apply rtc_tc in Ha as [->|Ha]; [set_solver|]. by eapply tc_rtc_r.
  - destruct (ss_nonempty _ _ _ S i c Hi) as [v Hv]. assert (c = {[v]}) as ->.
    { apply set_eq. intros w. rewrite elem_of_singleton. split; [|by intros ->]. intros Hw. destruct (decide (w = v)) as [|Hn]; [done|].
      assert (Hs : {[v; w]} ⊆ c) by set_solver. apply subseteq_size in Hs. rewrite size_union, !size_singleton in Hs by set_solver. lia. }
    rewrite elements_singleton. assert (hash_order [v] = [v]) as -> by apply Permutation_singleton_r, hash_order_perm. cbn [head mbind option_bind].
    eexists. split; [done|]. intros v' ->%elem_of_singleton.
    transitivity (uses g v v).
    + unfold uses, depends, successors. destruct (positive_edges g !! v) as [deps|]; cbn.
      * rewrite bool_decide_eq_true. split; [by left|]. intros [?|?]; [done|by destruct (Hneg v)].
      * split; [done|]. intros [?%elem_of_empty|?]; [done|by destruct (Hneg v)].
    + split; [apply tc_once|]. intros (w & Hu & Hr)%tc_step. assert (Hw : w ∈ ({[v]} : gset string)).
      { apply (ss_class _ _ _ S i _ v w Hi Hv). split; [by apply rtc_once|done]. }
      apply elem_of_singleton in Hw as ->. done.
Qed.

Lemma recursive_all g cs m : scc_split g cs m -> (forall v, ~ depends (negative_edges g) v v) ->
  exists bs, mapM (recursive g) cs = Some bs /\ length bs = length cs
    /\ forall i c v, cs !! i = Some c -> v ∈ c -> bs !! i = Some true <-> tc (uses g) v v.
Proof.
  intros S Hneg. assert (Hall : Forall (fun c => is_Some (recursive g c)) cs).
  { apply Forall_lookup. intros i c Hi. destruct (recursive_spec g cs m i c S Hneg Hi) as (b & -> & _). by eexists. }
  apply mapM_is_Some in Hall as [bs Hbs]. exists bs. split; [done|]. apply mapM_Some in Hbs. split; [symmetry; by eapply Forall2_length|].
  intros i c v Hi Hv. destruct (Forall2_lookup_l _ _ _ _ _ Hbs Hi) as (b & -> & Eb). destruct (recursive_spec g cs m i c S Hneg Hi) as (b' & Eb' & H).
  rewrite <- (H v Hv). split; [intros [= ->]; congruence|intros ->; congruence].
Qed.

(** ** The whole function *)

Lemma entries_depend g v w : uses g v w <-> exists tos, (v, tos) ∈ hash_order (map_to_list (positive_edges g)) ++ hash_order (map_to_list (negative_edges g)) /\ w ∈ tos.
Proof.
  assert (H : forall e, depends e v w <-> exists tos, e !! v = Some tos /\ w ∈ tos).
  { intros e. unfold depends, successors. destruct (e !! v) as [tos|]; cbn; [naive_solver|]. split; [by intros ?%elem_of_empty|naive_solver]. }
  unfold uses. rewrite !H. setoid_rewrite elem_of_app. setoid_rewrite hash_order_perm. setoid_rewrite elem_of_map_to_list. naive_solver.
Qed.

Lemma scc_condense g cs m : graph_wf g -> scc_split g cs m ->
  exists deps, condense m (replicate (length cs) ∅) (hash_order (map_to_list (positive_edges g)) ++ hash_order (map_to_list (negative_edges g))) = Some deps
    /\ length deps = length cs
    /\ forall i j, dep_at deps i j <-> i <> j /\ exists v w, uses g v w /\ m !! v = Some i /\ m !! w = Some j.
Proof.
  intros Hw S. destruct (condense_spec m (replicate (length cs) ∅) (hash_order (map_to_list (positive_edges g)) ++ hash_order (map_to_list (negative_edges g)))) as (deps & -> & Hl & Hd).
  - intros v i (c & Hi%lookup_lt_Some & _)%(ss_map _ _ _ S). by rewrite length_replicate.
  - intros v tos. rewrite elem_of_app, !hash_order_perm, !elem_of_map_to_list. setoid_rewrite <- (ss_cover _ _ _ S).
    intros [E|E]; [apply (gw_pos _ Hw) in E as [? Ht]|apply (gw_neg _ Hw) in E as [? Ht]]; (split; [done|]; intros w ?; by apply Ht).
  - exists deps. split; [done|]. split; [by rewrite Hl, length_replicate|]. intros i j. rewrite Hd. setoid_rewrite entries_depend.
    assert (Hno : ~ dep_at (replicate (length cs) ∅) i j).
    { intros (ds & [-> _]%lookup_replicate_1 & ?%elem_of_empty). done. }
    naive_solver.
Qed.

Lemma scc_negation g cs m : graph_wf g -> scc_split g cs m -> match check_negation cs m (edge_list (negative_edges g)) with
  | None => False
  | Some (Ok _) => forall v w, depends (negative_edges g) v w -> ~ rtc (uses g) w v
  | Some (Err err) => negation_cycle g err
  end.
Proof.
  intros Hw S. pose proof (check_negation_spec cs m (edge_list (negative_edges g))) as H.
  specialize (H (fun v w Hd => let Hd := proj1 (edge_list_elem _ v w) Hd in conj (proj1 (ss_cover _ _ _ S v) (proj1 (depends_wf g v w Hw (or_intror Hd)))) (proj1 (ss_cover _ _ _ S w) (proj2 (depends_wf g v w Hw (or_intror Hd)))))).
  specialize (H (fun v i => proj1 (ss_map _ _ _ S v i))). destruct (check_negation _ _ _) as [[_|err]|]; [| |done].
  - intros v w Hd Hr. assert (Hv : v ∈ all_rules g) by (apply (depends_wf g v w Hw); by right). apply (ss_cover _ _ _ S) in Hv as [i Hi].
    apply (H v w i (proj2 (edge_list_elem _ v w) Hd) Hi), (ss_map _ _ _ S). apply (ss_map _ _ _ S) in Hi as (c & Hi & Hv). exists c. split; [done|].
    apply (ss_class _ _ _ S i c v w Hi Hv). split; [|done]. apply rtc_once. by right.
  - destruct H as (v & w & i & c & Hd%edge_list_elem & _ & Hmw & Hi & Hv & ->). apply (ss_map _ _ _ S) in Hmw as (c' & Hi' & Hw'). assert (c' = c) as -> by congruence.
    eexists v, w, _. split; [done|]. split; [done|]. split; [by apply (ss_class _ _ _ S i c v w Hi Hv)|]. split_and!.
    + apply Sorted_merge_sort, _.
    + rewrite merge_sort_Permutation, hash_order_perm. apply NoDup_elements.
    + intros u. rewrite merge_sort_Permutation, hash_order_perm, elem_of_elements. by apply (ss_class _ _ _ S i c v u).
Qed.

(** [stratify] neither panics nor loops on a graph whose edges join known
    rules; it reports an error exactly when a negation lies on a cycle. *)
Lemma stratify_spec g : graph_wf g ->
  match stratify g with None => False | Some (Ok r) => stratified g r | Some (Err err) => negation_cycle g err end.
Proof.
  intros Hw. unfold stratify. destruct (tarjan_split g Hw) as (cs & -> & S). cbn [mbind option_bind].
  pose proof (scc_negation g cs _ Hw S) as Hneg. destruct (check_negation _ _ _) as [[[]|err]|]; cbn [mbind option_bind]; [|done|done].
  destruct (recursive_all g cs _ S) as (bs & -> & Hlb & Hb); [intros v Hd; by apply (Hneg v v Hd)|]. cbn [mbind option_bind].
  destruct (scc_condense g cs _ Hw S) as (deps & -> & Hld & Hd). cbn [mbind option_bind].
  destruct (topological_ok deps) as (order & -> & [Hperm Hbefore]).
  { intros i j (Hne & v & w & Hu & Hi & Hj)%Hd. pose proof (ss_down _ _ _ S v w i j Hu Hi Hj). lia. }
  cbn [mbind option_bind]. destruct S as [S1 S2 S3 S4 S5]. split; cbn; try done.
  - by rewrite <- Hld.
  - intros v w i j Hu Hi Hj Hne. apply Hbefore, Hd. split; [done|by exists v, w].
  - intros v i (c & Hi & Hv)%S2. by apply (Hb i c v).
Qed.
End proofs.
