(* ===== verification/Locy.v ===== *)
(** * Rule programs: syntax, modules and names

    The parts of a Locy program the compiler's front passes read
    (crates/uni-cypher/src/locy_ast.rs, ast.rs), the module context
    (crates/uni-locy/src/compiler/modules.rs) and the matching of references
    against catalog keys (crates/uni-locy/src/names.rs). *)

From Stdlib Require Import Strings.String Strings.Ascii.
From S2P Require Import Prelude Tarjan Stratify.

(** ** Syntax

    Types keep the constructors and fields that the passes modelled here read;
    what they only carry along (priorities, BEST BY, parameters, labels,
    properties, ranges, the bodies of queries) is left out. *)

Inductive BinaryOp :=
| Add | Sub | Mul | Div | Mod | Pow | Eq | NotEq | Lt | LtEq | Gt | GtEq | And | Or | Xor
| Regex | Contains | StartsWith | EndsWith | ApproxEq.
Inductive UnaryOp := Not | Neg.
Inductive LocyBinaryOp := LAdd | LSub | LMul | LDiv | LMod | LPow | LAnd | LOr | LXor.

(** [Expr]; [EOther] stands for the constructors that the passes modelled here
    neither enter nor inspect (literals, subqueries, CASE, IN, indexing,
    quantifiers, comprehensions, projections, label checks). *)
Inductive Expr :=
| EVariable (name : string)
| EProperty (object : Expr) (prop : string)
| EList (items : list Expr)
| EMap (entries : list (string * Expr))
| EFunctionCall (name : string) (args : list Expr) (distinct : bool)
| EBinaryOp (left : Expr) (op : BinaryOp) (right : Expr)
| EUnaryOp (op : UnaryOp) (expr : Expr)
| EOther.

Inductive LocyExpr :=
| PrevRef (field : string)
| Cypher (e : Expr)
| LBinaryOp (left : LocyExpr) (op : LocyBinaryOp) (right : LocyExpr)
| LUnaryOp (op : UnaryOp) (expr : LocyExpr).

(** A dotted name, displayed as its parts joined with a dot. *)
Record QualifiedName := mkQualified { parts : list string }.
Definition display (q : QualifiedName) : string := String.concat "." (parts q).

(** Patterns, as far as they bind variables. *)
Inductive PathPattern := mkPath (variable : option string) (elements : list PatternElement)
with PatternElement :=
| PNode (variable : option string)
| PRelationship (variable : option string)
| PParenthesized (pattern : PathPattern).

Record IsReference := mkIs { subjects : list string; rule_name : QualifiedName; target : option string; negated : bool }.
Inductive RuleCondition :=
| IsRef (r : IsReference)
| Expression (e : Expr)
| Generator (name : string) (args : list Expr) (outputs : list string).

Record DeriveNodeSpec := mkDeriveNode { is_new : bool; dn_variable : string }.
Record DerivePattern := mkDerivePattern { dp_source : DeriveNodeSpec; dp_target : DeriveNodeSpec }.
Inductive DeriveClause := Patterns (l : list DerivePattern) | Merge (a b : string).
Record LocyYieldItem := mkYield { is_key : bool; is_prob : bool; y_expr : Expr; alias : option string }.
Inductive RuleOutput := Yield (items : list LocyYieldItem) | Derive (d : DeriveClause).

Record RuleDefinition := mkRule {
  rd_name : QualifiedName;
  match_pattern : list PathPattern;
  where_conditions : list RuleCondition;
  along : list (string * LocyExpr);
  fold : list (string * Expr);
  require : list Expr;
  having : list Expr;
  output : RuleOutput;
}.

Inductive LocyStatement := SRule (r : RuleDefinition) | SOther.
Record UseDecl := mkUse { u_name : QualifiedName; u_imports : option (list string) }.
Record LocyProgram := mkLocyProgram { module : option QualifiedName; uses_decls : list UseDecl; statements : list LocyStatement }.

(** ** Loops that stop at the first error *)

Definition try_fold {S A E : Type} (f : S -> A -> result E S) : S -> list A -> result E S :=
  fix go s l := match l with [] => Ok s | a :: l => rbind (f s a) (fun s => go s l) end.

Lemma try_fold_cons {S A E} (f : S -> A -> result E S) s a l : try_fold f s (a :: l) = rbind (f s a) (fun s => try_fold f s l).
Proof. reflexivity. Qed.
Lemma try_fold_app {S A E} (f : S -> A -> result E S) s l1 l2 :
  try_fold f s (l1 ++ l2) = rbind (try_fold f s l1) (fun s => try_fold f s l2).
Proof. revert s. induction l1 as [|a l1 IH]; intros s; cbn; [done|]. destruct (f s a); cbn; [apply IH|done]. Qed.

Lemma try_fold_concat {S A B E} (f : S -> A -> result E S) (g : B -> list A) s l :
  try_fold (fun s b => try_fold f s (g b)) s l = try_fold f s (concat (g <$> l)).
Proof.
  revert s. induction l as [|b l IH]; intros s; cbn; [done|]. rewrite try_fold_app. destruct (try_fold f s (g b)); cbn; [apply IH|done].
Qed.

Lemma try_fold_ext {S A E} (f g : S -> A -> result E S) s l : (forall s a, a ∈ l -> f s a = g s a) -> try_fold f s l = try_fold g s l.
Proof.
  revert s. induction l as [|a l IH]; intros s H; cbn; [done|]. rewrite H by by left. destruct (g s a); cbn; [|done]. apply IH. intros; apply H; by right.
Qed.

(** ** Modules *)

Record ModuleContext := mkContext { module_name : option string; imports : gmap string string }.

Definition dot : ascii := "."%char.
Fixpoint contains_dot (s : string) : bool :=
  match s with EmptyString => false | String c s => Ascii.eqb c dot || contains_dot s end.
Definition qualify (m name : string) : string := (m ++ "." ++ name)%string.

Definition import_glob (module_name : string) (imp : gmap string string) (rules : list string) : gmap string string :=
  foldl (fun imp rule => <[rule := qualify module_name rule]> imp) imp rules.
Definition import_one (module_name : string) (rules : list string) (imp : gmap string string) (name : string) : result LocyCompileError (gmap string string) :=
  if decide (name ∈ rules) then Ok (<[name := qualify module_name name]> imp) else Err (ImportNotFound module_name name).

Definition resolve_use (available : gmap string (list string)) (ctx : ModuleContext) (u : UseDecl) : result LocyCompileError ModuleContext :=
  let m := display (u_name u) in
  match available !! m with
  | None => Err (ModuleNotFound m)
  | Some rules =>
      let with_imports := mkContext (module_name ctx) in
      match u_imports u with
      | None => Ok (with_imports (import_glob m (imports ctx) rules))
      | Some selected => rbind (try_fold (import_one m rules) (imports ctx) selected) (fun imp => Ok (with_imports imp))
      end
  end.

Definition resolve_modules (program : LocyProgram) (available : gmap string (list string)) : result LocyCompileError ModuleContext :=
  try_fold (resolve_use available) (mkContext (display <$> module program) ∅) (uses_decls program).

Definition resolve_rule_name (ctx : ModuleContext) (name : string) : string :=
  match imports ctx !! name with
  | Some qualified => qualified
  | None =>
      match module_name ctx with
      | Some m => if contains_dot name then name else qualify m name
      | None => name
      end
  end.

(** ** Names *)

(** [str::rsplit_once('.')] *)
Fixpoint rsplit_once (s : string) : option (string * string) :=
  match s with
  | EmptyString => None
  | String c s =>
      match rsplit_once s with
      | Some (a, b) => Some (String c a, b)
      | None => if Ascii.eqb c dot then Some (EmptyString, s) else None
      end
  end.

Definition name_matches (key reference : string) : bool :=
  String.eqb key reference
  || (negb (contains_dot reference) && match rsplit_once key with Some (_, bare) => String.eqb bare reference | None => false end).

Fixpoint resolve_unique_from (matched : option string) (keys : list string) (reference : string) : option string :=
  match keys with
  | [] => matched
  | key :: keys =>
      if String.eqb key reference then Some key
      else if negb (name_matches key reference) then resolve_unique_from matched keys reference
      else match matched with Some _ => None | None => resolve_unique_from (Some key) keys reference end
  end.
Definition resolve_unique (keys : list string) (reference : string) : option string := resolve_unique_from None keys reference.

(** ** Grouping *)

Definition push_rule (name : string) (groups : gmap string (list RuleDefinition)) (def : RuleDefinition) : gmap string (list RuleDefinition) :=
  <[name := default [] (groups !! name) ++ [def]]> groups.
Definition group_rules_with_context (program : LocyProgram) (ctx : ModuleContext) : gmap string (list RuleDefinition) :=
  foldl (fun groups stmt => match stmt with SRule def => push_rule (resolve_rule_name ctx (display (rd_name def))) groups def | SOther => groups end)
    ∅ (statements program).

(** ** Names, proved *)

Lemma rsplit_once_none s : rsplit_once s = None <-> contains_dot s = false.
Proof.
  induction s as [|c s IH]; [done|]. cbn. destruct (rsplit_once s) as [[a b]|]; [|destruct (Ascii.eqb c dot); cbn; [done|exact IH]].
  split; [done|]. intros [_ H]%orb_false_iff. by apply IH in H.
Qed.

Lemma rsplit_once_qualify m name : contains_dot name = false -> rsplit_once (qualify m name) = Some (m, name).
Proof.
  intros Hn. apply rsplit_once_none in Hn. unfold qualify. induction m as [|c m IH].
  - change ("" +:+ "." +:+ name) with (String dot name). cbn. by rewrite Hn.
  - change (String c m +:+ "." +:+ name) with (String c (m +:+ "." +:+ name)). cbn. by rewrite IH.
Qed.

Lemma name_matches_qualify m name : contains_dot name = false -> name_matches (qualify m name) name = true.
Proof. intros Hn. unfold name_matches. rewrite Hn, rsplit_once_qualify, String.eqb_refl by done. by rewrite orb_true_r. Qed.

Lemma name_matches_refl name : name_matches name name = true.
Proof. unfold name_matches. by rewrite String.eqb_refl. Qed.

(** The imports map a short name to a qualified one ending in it. *)
Definition imports_ok (imp : gmap string string) : Prop :=
  forall name q, imp !! name = Some q -> contains_dot name = false /\ exists m, q = qualify m name.

Lemma import_glob_ok m imp rules : imports_ok imp -> Forall (fun r => contains_dot r = false) rules -> imports_ok (import_glob m imp rules).
Proof.
  intros Hi Hr. unfold import_glob. revert imp Hi. induction Hr as [|r rules Hr _ IH]; intros imp Hi; cbn; [done|]. apply IH.
  intros name q [[<- <-]|[_ ?]]%lookup_insert_Some; [eauto|by apply Hi].
Qed.

Lemma import_selected_ok m rules imp selected imp' : Forall (fun r => contains_dot r = false) rules -> imports_ok imp ->
  try_fold (import_one m rules) imp selected = Ok imp' -> imports_ok imp'.
Proof.
  intros Hr. rewrite Forall_forall in Hr. revert imp. induction selected as [|name selected IH]; intros imp Hi; cbn [try_fold]; [by intros [= <-]|].
  unfold import_one at 1. case_decide; cbn; [|done]. apply IH. intros n q [[<- <-]|[_ ?]]%lookup_insert_Some; [eauto|by apply Hi].
Qed.

Lemma resolve_modules_ok program available ctx : (forall m rules, available !! m = Some rules -> Forall (fun r => contains_dot r = false) rules) ->
  resolve_modules program available = Ok ctx -> imports_ok (imports ctx).
Proof.
  intros Ha. unfold resolve_modules. assert (H : forall l c, imports_ok (imports c) -> try_fold (resolve_use available) c l = Ok ctx -> imports_ok (imports ctx)).
  { induction l as [|u l IH]; intros c Hc; cbn [try_fold]; [by intros [= <-]|]. unfold resolve_use at 1.
    destruct (available !! _) as [rules|] eqn:E; [|done]. apply Ha in E. destruct (u_imports u) as [selected|].
    - destruct (try_fold _ _ selected) as [imp|] eqn:Ef; cbn; [|done]. apply IH. cbn. by eapply import_selected_ok.
    - cbn. apply IH. by apply import_glob_ok. }
  apply H. by intros name q [= ?].
Qed.

(** Matching a reference admits what the compiler resolved it to. *)
Lemma resolve_matches ctx name : imports_ok (imports ctx) -> name_matches (resolve_rule_name ctx name) name = true.
Proof.
  intros Hi. unfold resolve_rule_name. destruct (imports ctx !! name) as [q|] eqn:E.
  { destruct (Hi name q E) as [Hd [m ->]]. by apply name_matches_qualify. }
  destruct (module_name ctx) as [m|]; [|apply name_matches_refl].
  destruct (contains_dot name) eqn:Ed; [apply name_matches_refl|by apply name_matches_qualify].
Qed.

Lemma resolve_unique_from_spec matched keys reference : reference ∉ keys ->
  resolve_unique_from matched keys reference =
  match filter (fun k => name_matches k reference = true) keys with
  | [] => matched
  | k :: rest => match matched, rest with None, [] => Some k | _, _ => None end
  end.
Proof.
  revert matched. induction keys as [|key keys IH]; intros matched Hn; cbn [resolve_unique_from]; [done|].
  apply not_elem_of_cons in Hn as [Hne Hn]. destruct (String.eqb_spec key reference); [congruence|]. rewrite filter_cons.
  destruct (name_matches key reference) eqn:E; cbn.
  - rewrite decide_True by done. destruct matched; [done|]. rewrite IH by done. destruct (filter _ keys) as [|k2 [|k3 rest]]; done.
  - rewrite decide_False by done. by apply IH.
Qed.

(** Without an exact key, the answer is the one matching key, if there is one,
    whatever the order of the keys. *)
Lemma resolve_unique_spec keys reference k : NoDup keys -> reference ∉ keys ->
  resolve_unique keys reference = Some k <-> (k ∈ keys /\ name_matches k reference = true) /\ forall k', k' ∈ keys -> name_matches k' reference = true -> k' = k.
Proof.
  intros Hnd Hn. unfold resolve_unique. rewrite resolve_unique_from_spec by done.
  assert (Hf : forall x, x ∈ filter (fun k => name_matches k reference = true) keys <-> x ∈ keys /\ name_matches x reference = true).
  { intros x. rewrite list_elem_of_filter. tauto. }
  assert (Hfd : NoDup (filter (fun k => name_matches k reference = true) keys)) by by apply NoDup_filter.
  rewrite <- Hf. assert (Hgoal : (forall k', k' ∈ keys -> name_matches k' reference = true -> k' = k) <-> forall k', k' ∈ filter (fun k => name_matches k reference = true) keys -> k' = k).
  { split; [intros H k' [? ?]%Hf; auto|intros H k' ? ?; apply H, Hf; auto]. }
  rewrite Hgoal. destruct (filter _ keys) as [|x [|y rest]].
  - split; [done|]. by intros [?%elem_of_nil _].
  - split; [intros [= ->]; split; [by left|by intros k' ->%list_elem_of_singleton]|]. intros [->%list_elem_of_singleton _]. done.
  - split; [done|]. intros [_ Hu]. apply NoDup_cons in Hfd as [Hx _]. exfalso. apply Hx.
    rewrite (Hu x) by by left. rewrite <- (Hu y) by by right; left. by left.
Qed.
