(* ===== verification/LocyDeps.v ===== *)
(** * Rule dependencies and wardedness

    crates/uni-locy/src/compiler/dependency.rs: the graph of references
    between rules, with the references a model's path context adds; and
    crates/uni-locy/src/compiler/warded.rs. *)

From S2P Require Import Prelude Tarjan Stratify Locy.

(** What a model declares, as far as the graph needs it. *)
Record PathContextFeature := mkPathContext { subject_var : string; column : string; source_rule : string }.
Record CompiledModel := mkModel { cm_name : string; path_context : option PathContextFeature }.

Section deps.
  Context `{HO : HashOrder}.
  Abbreviation groups_t := (gmap string (list RuleDefinition)).
  Implicit Types (edges : Adj) (all : gset string) (ctx : ModuleContext) (models : gmap string CompiledModel) (e : Expr) (def : RuleDefinition).

(** ** The graph *)

(** A reference to [target] from [rule], if the target is known. *)
Definition link all (rule : string) edges (target : string) : result LocyCompileError Adj :=
  if decide (target ∈ all) then Ok (add_dep edges (rule, target)) else Err (UndefinedRule target).

Definition visit_condition all ctx (rule : string) (s : Adj * Adj) (cond : RuleCondition) : result LocyCompileError (Adj * Adj) :=
  match cond with
  | IsRef is_ref =>
      let target := resolve_rule_name ctx (display (rule_name is_ref)) in
      if decide (target ∈ all) then
        if negated is_ref then Ok (s.1, add_dep s.2 (rule, target)) else Ok (add_dep s.1 (rule, target), s.2)
      else Err (UndefinedRule target)
  | _ => Ok s
  end.

(** [PathContextWalker::walk_expr] *)
Definition walk_call all ctx models (rule : string) edges (name : string) : result LocyCompileError Adj :=
  match m ← models !! name; path_context m with
  | Some pc => link all rule edges (resolve_rule_name ctx (source_rule pc))
  | None => Ok edges
  end.
Fixpoint walk_expr all ctx models (rule : string) edges e {struct e} : result LocyCompileError Adj :=
  match e with
  | EFunctionCall name args _ => rbind (walk_call all ctx models rule edges name) (fun edges => try_fold (walk_expr all ctx models rule) edges args)
  | EBinaryOp l _ r => rbind (walk_expr all ctx models rule edges l) (fun edges => walk_expr all ctx models rule edges r)
  | EUnaryOp _ e => walk_expr all ctx models rule edges e
  | EList items => try_fold (walk_expr all ctx models rule) edges items
  | EMap entries => try_fold (fun edges kv => walk_expr all ctx models rule edges kv.2) edges entries
  | _ => Ok edges
  end.
Definition walk_locy_expr all ctx models (rule : string) edges (le : LocyExpr) : result LocyCompileError Adj :=
  match le with Cypher e => walk_expr all ctx models rule edges e | _ => Ok edges end.

Definition collect_deps all ctx models (rule : string) edges def : result LocyCompileError Adj :=
  if decide (models = ∅) then Ok edges
  else
    rbind (match output def with Yield items => try_fold (fun edges item => walk_expr all ctx models rule edges (y_expr item)) edges items | Derive _ => Ok edges end) (fun edges =>
    rbind (try_fold (fun edges al => walk_locy_expr all ctx models rule edges al.2) edges (along def)) (fun edges =>
    rbind (try_fold (fun edges f => walk_expr all ctx models rule edges f.2) edges (fold def)) (fun edges =>
    try_fold (walk_expr all ctx models rule) edges (having def)))).

Definition build_dependency_graph_with_models (groups : groups_t) ctx (external_rules : list string) models : result LocyCompileError DependencyGraph :=
  let all := dom groups ∪ list_to_set external_rules in
  rbind (try_fold (fun s g => try_fold (fun s def => try_fold (visit_condition all ctx g.1) s (where_conditions def)) s g.2) (∅, ∅) (hash_order (map_to_list groups))) (fun s =>
  rbind (try_fold (fun edges g => try_fold (collect_deps all ctx models g.1) edges g.2) s.1 (hash_order (map_to_list groups))) (fun pos =>
  Ok (mkGraph pos s.2 all))).

(** ** Wardedness *)

Fixpoint collect_path_vars (vars : gset string) (p : PathPattern) {struct p} : gset string :=
  match p with
  | mkPath v elems =>
      foldl collect_elem_vars (match v with Some v => {[v]} ∪ vars | None => vars end) elems
  end
with collect_elem_vars (vars : gset string) (el : PatternElement) {struct el} : gset string :=
  match el with
  | PNode v | PRelationship v => match v with Some v => {[v]} ∪ vars | None => vars end
  | PParenthesized p => collect_path_vars vars p
  end.
Definition extract_pattern_variables (paths : list PathPattern) : gset string := foldl collect_path_vars ∅ paths.

Definition check_pattern_warded (rule : string) (match_vars : gset string) (pat : DerivePattern) : result LocyCompileError unit :=
  let (source, target) := (dp_source pat, dp_target pat) in
  if is_new source && bool_decide (dn_variable target ∉ match_vars) then Err (WardednessViolation rule (dn_variable target))
  else if is_new target && bool_decide (dn_variable source ∉ match_vars) then Err (WardednessViolation rule (dn_variable source))
  else Ok tt.
Definition check_derive_warded (rule : string) (match_vars : gset string) (d : DeriveClause) : result LocyCompileError unit :=
  match d with
  | Patterns pats => try_fold (fun _ => check_pattern_warded rule match_vars) tt pats
  | Merge _ _ => Ok tt
  end.
Definition check_definition_warded (rule : string) def : result LocyCompileError unit :=
  match output def with
  | Derive d => check_derive_warded rule (extract_pattern_variables (match_pattern def)) d
  | Yield _ => Ok tt
  end.
Definition check_wardedness (groups : groups_t) : result LocyCompileError unit :=
  try_fold (fun _ g => try_fold (fun _ => check_definition_warded g.1) tt g.2) tt (hash_order (map_to_list groups)).
End deps.

(** ** The walk, as a list of calls *)

Lemma Expr_nested_ind (P : Expr -> Prop) : (forall n, P (EVariable n)) -> (forall e p, P e -> P (EProperty e p)) ->
  (forall l, Forall P l -> P (EList l)) -> (forall l, Forall (fun kv => P kv.2) l -> P (EMap l)) ->
  (forall n l d, Forall P l -> P (EFunctionCall n l d)) -> (forall a op b, P a -> P b -> P (EBinaryOp a op b)) ->
  (forall op e, P e -> P (EUnaryOp op e)) -> P EOther -> forall e, P e.
Proof.
  intros H1 H2 H3 H4 H5 H6 H7 H8. fix IH 1. intros [n|e p|l|l|n l d|a op b|op e|].
  - apply H1.
  - apply H2, IH.
  - apply H3. induction l as [|e l IHl]; constructor; [apply IH|exact IHl].
  - apply H4. induction l as [|[k e] l IHl]; constructor; [apply IH|exact IHl].
  - apply H5. induction l as [|e l IHl]; constructor; [apply IH|exact IHl].
  - apply H6; apply IH.
  - apply H7, IH.
  - apply H8.
Qed.

(** The function names of an expression, in the order of the walk. *)
Fixpoint calls (e : Expr) : list string :=
  match e with
  | EFunctionCall name args _ => name :: concat (map calls args)
  | EBinaryOp l _ r => calls l ++ calls r
  | EUnaryOp _ e => calls e
  | EList items => concat (map calls items)
  | EMap entries => concat (map (fun kv => calls kv.2) entries)
  | _ => []
  end.
Definition locy_calls (le : LocyExpr) : list string := match le with Cypher e => calls e | _ => [] end.
Definition def_calls (def : RuleDefinition) : list string :=
  match output def with Yield items => concat (map (fun item => calls (y_expr item)) items) | Derive _ => [] end
  ++ concat (map (fun al => locy_calls al.2) (along def)) ++ concat (map (fun f => calls f.2) (fold def)) ++ concat (map calls (having def)).

Section graph.
  Context `{HO : HashOrder} (groups : gmap string (list RuleDefinition)) (ctx : ModuleContext) (models : gmap string CompiledModel).
  Implicit Types (edges : Adj) (all : gset string) (e : Expr) (def : RuleDefinition) (v w rule : string).

Lemma try_fold_walks {B} all rule edges (f : Adj -> B -> result LocyCompileError Adj) (g : B -> list string) l :
  (forall edges b, b ∈ l -> f edges b = try_fold (walk_call all ctx models rule) edges (g b)) ->
  try_fold f edges l = try_fold (walk_call all ctx models rule) edges (concat (map g l)).
Proof.
  intros H. change (map g l) with (g <$> l). rewrite <- try_fold_concat. apply try_fold_ext. intros s b Hb. by apply H.
Qed.

Lemma walk_expr_calls all rule edges e : walk_expr all ctx models rule edges e = try_fold (walk_call all ctx models rule) edges (calls e).
Proof.
  revert edges. induction e using Expr_nested_ind; intros edges; cbn [walk_expr calls]; try done.
  - apply try_fold_walks. intros s b Hb. rewrite Forall_forall in H. by apply H.
  - apply try_fold_walks. intros s b Hb. rewrite Forall_forall in H. by apply H.
  - change (try_fold (walk_call all ctx models rule) edges (n :: ?r)) with (rbind (walk_call all ctx models rule edges n) (fun s => try_fold (walk_call all ctx models rule) s r)).
    destruct (walk_call all ctx models rule edges n); cbn; [|done]. apply try_fold_walks. intros s b Hb. rewrite Forall_forall in H. by apply H.
  - rewrite try_fold_app, IHe1. destruct (try_fold _ _ (calls e1)); cbn; [apply IHe2|done].
Qed.

Lemma walk_locy_calls all rule edges le : walk_locy_expr all ctx models rule edges le = try_fold (walk_call all ctx models rule) edges (locy_calls le).
Proof. destruct le; cbn; try done. apply walk_expr_calls. Qed.

Lemma walk_no_models all rule edges names : models = ∅ -> try_fold (walk_call all ctx models rule) edges names = Ok edges.
Proof. intros Hm. induction names as [|n names IH]; [done|]. cbn. unfold walk_call at 1. assert (models !! n = None) as -> by by rewrite Hm. exact IH. Qed.

Lemma collect_deps_calls all rule edges def : collect_deps all ctx models rule edges def = try_fold (walk_call all ctx models rule) edges (def_calls def).
Proof.
  unfold collect_deps. case_decide as Hm; [by rewrite walk_no_models|]. unfold def_calls. rewrite !try_fold_app.
  assert (Ey : (match output def with Yield items => try_fold (fun edges item => walk_expr all ctx models rule edges (y_expr item)) edges items | Derive _ => Ok edges end)
    = try_fold (walk_call all ctx models rule) edges (match output def with Yield items => concat (map (fun item => calls (y_expr item)) items) | Derive _ => [] end)).
  { destruct (output def); [|done]. apply try_fold_walks. intros. apply walk_expr_calls. }
  rewrite Ey. destruct (try_fold _ edges _) as [s|]; cbn; [|done].
  rewrite (try_fold_walks all rule s _ (fun al => locy_calls al.2)) by (intros; apply walk_locy_calls). rewrite try_fold_app.
  destruct (try_fold _ s _) as [s2|]; cbn; [|done].
  rewrite (try_fold_walks all rule s2 _ (fun f => calls f.2)) by (intros; apply walk_expr_calls). rewrite try_fold_app.
  destruct (try_fold _ s2 _) as [s3|]; cbn; [|done]. apply (try_fold_walks all rule s3 _ calls). intros. apply walk_expr_calls.
Qed.

(** ** The references of a program *)

Definition refers (neg : bool) def w : Prop := exists r, IsRef r ∈ where_conditions def /\ negated r = neg /\ w = resolve_rule_name ctx (display (rule_name r)).
Definition invokes def w : Prop := exists name m pc, name ∈ def_calls def /\ models !! name = Some m /\ path_context m = Some pc /\ w = resolve_rule_name ctx (source_rule pc).
Definition defines v def : Prop := exists defs, groups !! v = Some defs /\ def ∈ defs.

Definition condition_ref v (cond : RuleCondition) : option (bool * (string * string)) :=
  match cond with IsRef r => Some (negated r, (v, resolve_rule_name ctx (display (rule_name r)))) | _ => None end.
Definition model_ref v (name : string) : option (string * string) :=
  m ← models !! name; pc ← path_context m; Some (v, resolve_rule_name ctx (source_rule pc)).
Definition is_refs : list (bool * (string * string)) :=
  concat ((fun g => concat ((fun def => omap (condition_ref g.1) (where_conditions def)) <$> g.2)) <$> hash_order (map_to_list groups)).
Definition model_refs : list (string * string) :=
  concat ((fun g => concat ((fun def => omap (model_ref g.1) (def_calls def)) <$> g.2)) <$> hash_order (map_to_list groups)).

Lemma groups_concat {B} (f : string -> RuleDefinition -> list B) (b : B) :
  b ∈ concat ((fun g => concat (f g.1 <$> g.2)) <$> hash_order (map_to_list groups)) <-> exists v def, defines v def /\ b ∈ f v def.
Proof.
  rewrite list_elem_of_In, in_concat. setoid_rewrite <- list_elem_of_In. unfold defines. split.
  - intros (l & ([v defs] & -> & Hin)%list_elem_of_fmap & Hb). rewrite hash_order_perm, elem_of_map_to_list in Hin.
    apply list_elem_of_In, in_concat in Hb as (l & Hl%list_elem_of_In & Hb%list_elem_of_In).
    apply list_elem_of_fmap in Hl as (def & -> & Hdef). cbn in *. exists v, def. split; [by exists defs|done].
  - intros (v & def & (defs & Hv & Hdef) & Hb). exists (concat (f v <$> defs)). split.
    + apply list_elem_of_fmap. exists (v, defs). split; [done|]. by rewrite hash_order_perm, elem_of_map_to_list.
    + rewrite list_elem_of_In, in_concat. exists (f v def). rewrite <- !list_elem_of_In. split; [|done]. apply list_elem_of_fmap. by exists def.
Qed.

Lemma is_refs_elem neg v w : (neg, (v, w)) ∈ is_refs <-> exists def, defines v def /\ refers neg def w.
Proof.
  unfold is_refs. rewrite (groups_concat (fun v def => omap (condition_ref v) (where_conditions def))). unfold refers. split.
  - intros (v' & def & Hd & Hb). apply list_elem_of_omap in Hb as (c & Hc & E). destruct c as [r| |]; [|done|done]. cbn in E. injection E as <- <- <-.
    exists def. split; [done|]. by exists r.
  - intros (def & Hd & r & Hr & <- & ->). exists v, def. split; [done|]. apply list_elem_of_omap. by exists (IsRef r).
Qed.

Lemma model_refs_elem v w : (v, w) ∈ model_refs <-> exists def, defines v def /\ invokes def w.
Proof.
  unfold model_refs. rewrite (groups_concat (fun v def => omap (model_ref v) (def_calls def))). unfold invokes. split.
  - intros (v' & def & Hd & Hb). apply list_elem_of_omap in Hb as (c & Hc & E). unfold model_ref in E.
    destruct (models !! c) as [m|] eqn:Em; [|done]. cbn in E. destruct (path_context m) as [pc|] eqn:Ep; [|done]. cbn in E. injection E as <- <-.
    exists def. split; [done|]. by exists c, m, pc.
  - intros (def & Hd & name & m & pc & Hn & Hm & Hp & ->). exists v, def. split; [done|]. apply list_elem_of_omap. exists name. split; [done|].
    unfold model_ref. rewrite Hm. cbn. rewrite Hp. done.
Qed.

(** ** The two loops *)

Definition link_edge all edges (vw : string * string) : result LocyCompileError Adj := link all vw.1 edges vw.2.
Definition link_ref all (s : Adj * Adj) (r : bool * (string * string)) : result LocyCompileError (Adj * Adj) :=
  if decide (r.2.2 ∈ all) then if r.1 then Ok (s.1, add_dep s.2 r.2) else Ok (add_dep s.1 r.2, s.2) else Err (UndefinedRule r.2.2).

Lemma try_fold_omap {S A B E} (f : S -> A -> result E S) (g : S -> B -> result E S) (h : A -> option B) s l :
  (forall s a, f s a = match h a with Some b => g s b | None => Ok s end) -> try_fold f s l = try_fold g s (omap h l).
Proof.
  intros H. revert s. induction l as [|a l IH]; intros s; cbn; [done|]. rewrite H. destruct (h a) as [b|]; cbn; [|apply IH].
  destruct (g s b); cbn; [apply IH|done].
Qed.

Lemma conditions_loop all s : try_fold (fun s g => try_fold (fun s def => try_fold (visit_condition all ctx g.1) s (where_conditions def)) s g.2) s (hash_order (map_to_list groups))
  = try_fold (link_ref all) s is_refs.
Proof.
  unfold is_refs. rewrite <- try_fold_concat. apply try_fold_ext. intros s1 g _. rewrite <- try_fold_concat. apply try_fold_ext. intros s2 def _.
  apply try_fold_omap. by intros s3 [r| |].
Qed.
Lemma models_loop all edges : try_fold (fun edges g => try_fold (collect_deps all ctx models g.1) edges g.2) edges (hash_order (map_to_list groups))
  = try_fold (link_edge all) edges model_refs.
Proof.
  unfold model_refs. rewrite <- try_fold_concat. apply try_fold_ext. intros s1 g _. rewrite <- try_fold_concat. apply try_fold_ext. intros s2 def _.
  rewrite collect_deps_calls. apply try_fold_omap. intros s3 name. unfold walk_call, model_ref. destruct (models !! name) as [m|]; cbn; [|done].
  destruct (path_context m); done.
Qed.

Lemma link_edge_fold all edges l : match try_fold (link_edge all) edges l with
  | Ok r => Forall (fun vw => vw.2 ∈ all) l /\ r = foldl add_dep edges l
  | Err err => exists v w, (v, w) ∈ l /\ (w ∉ all) /\ err = UndefinedRule w
  end.
Proof.
  revert edges. induction l as [|[v w] l IH]; intros edges; cbn; [by split; [constructor|]|]. unfold link_edge at 1, link. cbn. case_decide as Hw; cbn.
  - specialize (IH (add_dep edges (v, w))). destruct (try_fold _ _ l) as [r|err].
    + destruct IH as [? ->]. split; [by constructor|done].
    + destruct IH as (v' & w' & ? & ?). exists v', w'. split; [by right|done].
  - exists v, w. split; [by left|done].
Qed.
Lemma link_ref_fold all s l : match try_fold (link_ref all) s l with
  | Ok r => Forall (fun b => b.2.2 ∈ all) l /\ r = (foldl add_dep s.1 (snd <$> filter (fun b => b.1 = false) l), foldl add_dep s.2 (snd <$> filter (fun b => b.1 = true) l))
  | Err err => exists b v w, (b, (v, w)) ∈ l /\ (w ∉ all) /\ err = UndefinedRule w
  end.
Proof.
  revert s. induction l as [|[b [v w]] l IH]; intros s; [split; [constructor|by destruct s]|]. rewrite try_fold_cons. unfold link_ref at 1. cbn [fst snd]. case_decide as Hw; cbn [rbind].
  - set (s' := if b then (s.1, add_dep s.2 (v, w)) else (add_dep s.1 (v, w), s.2)). rewrite !filter_cons.
    replace (if b then Ok (s.1, add_dep s.2 (v, w)) else Ok (add_dep s.1 (v, w), s.2)) with (Ok s' : result LocyCompileError (Adj * Adj)) by by destruct b.
    cbn [rbind]. specialize (IH s'). destruct (try_fold _ _ l) as [r|err].
    + destruct IH as [? ->]. split; [by constructor|]. by destruct b.
    + destruct IH as (b' & v' & w' & ? & ?). exists b', v', w'. split; [by right|done].
  - exists b, v, w. split; [by left|done].
Qed.

(** ** The graph is the references of the program *)

Record graph_of (external_rules : list string) (g : DependencyGraph) : Prop := {
  go_rules : all_rules g = dom groups ∪ list_to_set external_rules;
  go_pos v w : depends (positive_edges g) v w <-> exists def, defines v def /\ (refers false def w \/ invokes def w);
  go_neg v w : depends (negative_edges g) v w <-> exists def, defines v def /\ refers true def w;
  go_wf : graph_wf g;
}.

Lemma depends_empty v w : ~ depends ∅ v w.
Proof. unfold depends, successors. rewrite lookup_empty. apply not_elem_of_empty. Qed.

Lemma edges_wf l v tos all : foldl add_dep ∅ l !! v = Some tos -> (forall v w, (v, w) ∈ l -> v ∈ all /\ w ∈ all) -> v ∈ all /\ tos ⊆ all.
Proof.
  intros Hv Hl. assert (Hdom : v ∈ dom (foldl add_dep ∅ l)) by (apply elem_of_dom; by eexists).
  apply add_deps_dom in Hdom as [Hdom|(w & Hin)]; [set_solver|]. split; [by apply (Hl v w)|]. intros u Hu.
  assert (Hd : depends (foldl add_dep ∅ l) v u) by (unfold depends, successors; by rewrite Hv). apply add_deps in Hd as [?%depends_empty|Hd]; [done|].
  by apply (Hl v u).
Qed.

Lemma refs_pick (b : bool) v w : (v, w) ∈ snd <$> filter (fun r => r.1 = b) is_refs <-> exists def, defines v def /\ refers b def w.
Proof.
  rewrite <- is_refs_elem, list_elem_of_fmap. setoid_rewrite list_elem_of_filter. split.
  - intros ([b' [v' w']] & [= -> ->] & <- & ?). done.
  - intros H. by exists (b, (v, w)).
Qed.

Lemma dependency_graph_spec external_rules : match build_dependency_graph_with_models groups ctx external_rules models with
  | Ok g => graph_of external_rules g
  | Err err => exists v def w, defines v def /\ ((exists b, refers b def w) \/ invokes def w)
      /\ (w ∉ dom groups) /\ (w ∉ external_rules) /\ err = UndefinedRule w
  end.
Proof.
  unfold build_dependency_graph_with_models. rewrite conditions_loop. set (all := dom groups ∪ list_to_set external_rules).
  assert (Hall : forall w, w ∉ all -> (w ∉ dom groups) /\ (w ∉ external_rules)) by (intros w Hw; unfold all in Hw; set_solver).
  pose proof (link_ref_fold all (∅, ∅) is_refs) as H1. destruct (try_fold (link_ref all) _ _) as [s|err]; cbn [rbind].
  2:{ destruct H1 as (b & v & w & Hin & Hw & ->). apply is_refs_elem in Hin as (def & ? & ?). exists v, def, w. specialize (Hall w Hw). split_and!; naive_solver. }
  destruct H1 as [Hr ->]. cbn [fst snd]. rewrite models_loop. pose proof (link_edge_fold all (foldl add_dep ∅ (snd <$> filter (fun b => b.1 = false) is_refs)) model_refs) as H2.
  destruct (try_fold (link_edge all) _ _) as [pos|err]; cbn [rbind].
  2:{ destruct H2 as (v & w & Hin & Hw & ->). apply model_refs_elem in Hin as (def & ? & ?). exists v, def, w. specialize (Hall w Hw). split_and!; naive_solver. }
  destruct H2 as [Hm ->]. rewrite <- foldl_app. rewrite Forall_forall in Hr. rewrite Forall_forall in Hm.
  assert (Hdef : forall v def, defines v def -> v ∈ all).
  { intros v def (defs & Hv & _). unfold all. apply elem_of_union_l, elem_of_dom. by eexists. }
  assert (Hin : forall b v w, (v, w) ∈ snd <$> filter (fun r => r.1 = b) is_refs -> v ∈ all /\ w ∈ all).
  { intros b v w Hx. pose proof Hx as (def & Hd & _)%refs_pick. split; [by eapply Hdef|].
    apply list_elem_of_fmap in Hx as ([b' [v' w']] & [= -> ->] & [_ Hx]%list_elem_of_filter). apply (Hr _ Hx). }
  assert (Hin2 : forall v w, (v, w) ∈ model_refs -> v ∈ all /\ w ∈ all).
  { intros v w Hx. pose proof Hx as (def & Hd & _)%model_refs_elem. split; [by eapply Hdef|]. apply (Hm _ Hx). }
  split; cbn [all_rules positive_edges negative_edges]; [done| | |].
  - intros v w. rewrite add_deps, elem_of_app, refs_pick, model_refs_elem. pose proof (depends_empty v w). naive_solver.
  - intros v w. rewrite add_deps, refs_pick. pose proof (depends_empty v w). naive_solver.
  - split; cbn [all_rules positive_edges negative_edges]; intros v tos Hv; eapply edges_wf; try exact Hv.
    + intros v' w' [?|?]%elem_of_app; [by eapply Hin|by apply Hin2].
    + intros v' w' ?. by eapply Hin.
Qed.

(** ** Wardedness *)

(** Each new node of a derived pattern has a partner bound by the match. *)
Definition pattern_warded (vars : gset string) (pat : DerivePattern) : Prop :=
  (is_new (dp_source pat) = true -> dn_variable (dp_target pat) ∈ vars) /\ (is_new (dp_target pat) = true -> dn_variable (dp_source pat) ∈ vars).
Definition def_warded def : Prop :=
  forall pats pat, output def = Derive (Patterns pats) -> pat ∈ pats -> pattern_warded (extract_pattern_variables (match_pattern def)) pat.

Lemma try_check {A E} (f : A -> result E unit) l : match try_fold (fun _ => f) tt l with
  | Ok _ => forall a, a ∈ l -> f a = Ok tt
  | Err err => exists a, a ∈ l /\ f a = Err err
  end.
Proof.
  induction l as [|a l IH]; [by intros a ?%elem_of_nil|]. rewrite try_fold_cons. destruct (f a) as [[]|err] eqn:E'; cbn [rbind]; [|exists a; split; [by left|done]].
  destruct (try_fold _ tt l) as [[]|err]; [intros b [->|?]%elem_of_cons; [done|by apply IH]|]. destruct IH as (b & ? & ?). exists b. split; [by right|done].
Qed.

Lemma check_pattern_spec rule vars pat : match check_pattern_warded rule vars pat with
  | Ok _ => pattern_warded vars pat
  | Err err => ~ pattern_warded vars pat /\ exists v, (v ∉ vars) /\ err = WardednessViolation rule v
  end.
Proof.
  unfold check_pattern_warded, pattern_warded. destruct (is_new (dp_source pat)), (is_new (dp_target pat)); cbn [andb]; repeat case_bool_decide; try naive_solver.
Qed.

Lemma check_definition_spec rule def : match check_definition_warded rule def with
  | Ok _ => def_warded def
  | Err err => ~ def_warded def /\ exists v, (v ∉ extract_pattern_variables (match_pattern def)) /\ err = WardednessViolation rule v
  end.
Proof.
  unfold check_definition_warded, def_warded. destruct (output def) as [items|[pats|a b]]; [done| |done]. cbn [check_derive_warded].
  pose proof (try_check (check_pattern_warded rule (extract_pattern_variables (match_pattern def))) pats) as H.
  destruct (try_fold _ tt pats) as [[]|err].
  - intros ? pat [= <-] Hp. pose proof (check_pattern_spec rule (extract_pattern_variables (match_pattern def)) pat) as Hs. by rewrite (H pat Hp) in Hs.
  - destruct H as (pat & Hp & E). pose proof (check_pattern_spec rule (extract_pattern_variables (match_pattern def)) pat) as Hs. rewrite E in Hs.
    destruct Hs as [Hs ?]. split; [|done]. intros Hw. by apply Hs, (Hw pats).
Qed.

Lemma check_wardedness_spec : match check_wardedness groups with
  | Ok _ => forall v def, defines v def -> def_warded def
  | Err err => exists v def x, defines v def /\ ~ def_warded def /\ err = WardednessViolation v x
  end.
Proof.
  unfold check_wardedness. pose proof (try_check (fun g => try_fold (fun _ => check_definition_warded g.1) tt g.2) (hash_order (map_to_list groups))) as H.
  destruct (try_fold _ tt _) as [[]|err].
  - intros v def (defs & Hv & Hd). specialize (H (v, defs)). rewrite hash_order_perm, elem_of_map_to_list in H. specialize (H Hv). cbn [fst snd] in H.
    pose proof (try_check (check_definition_warded v) defs) as H2. rewrite H in H2. pose proof (check_definition_spec v def) as H3. by rewrite (H2 def Hd) in H3.
  - destruct H as ([v defs] & Hin & E). rewrite hash_order_perm, elem_of_map_to_list in Hin. cbn [fst snd] in E.
    pose proof (try_check (check_definition_warded v) defs) as H2. rewrite E in H2. destruct H2 as (def & Hd & E2). pose proof (check_definition_spec v def) as H3.
    rewrite E2 in H3. destruct H3 as [Hn (x & _ & ->)]. exists v, def, x. split; [by exists defs|done].
Qed.

End graph.

(** ** The variables of a pattern, parenthesized parts included *)

Inductive path_binds (x : string) : PathPattern -> Prop :=
| pb_self elems : path_binds x (mkPath (Some x) elems)
| pb_elem v elems el : el ∈ elems -> elem_binds x el -> path_binds x (mkPath v elems)
with elem_binds (x : string) : PatternElement -> Prop :=
| eb_node : elem_binds x (PNode (Some x))
| eb_relationship : elem_binds x (PRelationship (Some x))
| eb_parenthesized p : path_binds x p -> elem_binds x (PParenthesized p).

Lemma elem_of_add_var (vars : gset string) (v : option string) x : x ∈ (match v with Some v => {[v]} ∪ vars | None => vars end) <-> x ∈ vars \/ v = Some x.
Proof. destruct v as [v|]; [rewrite elem_of_union, elem_of_singleton|]; naive_solver. Qed.

Lemma collect_foldl {A} (f : gset string -> A -> gset string) (B : A -> Prop) x l vars :
  (forall a vars, a ∈ l -> x ∈ f vars a <-> x ∈ vars \/ B a) -> x ∈ foldl f vars l <-> x ∈ vars \/ exists a, a ∈ l /\ B a.
Proof.
  revert vars. induction l as [|a l IH]; intros vars H; cbn; [split; [auto|by intros [?|(? & ?%elem_of_nil & _)]]|].
  rewrite IH by (intros; apply H; by right). rewrite H by by left. setoid_rewrite elem_of_cons. naive_solver.
Qed.

Lemma collect_path_vars_spec x : forall p vars, x ∈ collect_path_vars vars p <-> x ∈ vars \/ path_binds x p.
Proof.
  fix IH 1. intros [v elems] vars. cbn [collect_path_vars].
  rewrite (collect_foldl collect_elem_vars (elem_binds x)).
  - rewrite elem_of_add_var. split.
    + intros [[?| ->]|(el & ? & ?)]; [auto|right; constructor|right; by econstructor].
    + intros [?|H]; [auto|]. inversion H; subst; [auto|right; eauto].
  - assert (Hall : Forall (fun el => forall vars, x ∈ collect_elem_vars vars el <-> x ∈ vars \/ elem_binds x el) elems).
    { induction elems as [|el elems IHl]; constructor; [|exact IHl]. intros vs. destruct el as [w|w|p]; cbn [collect_elem_vars].
      - rewrite elem_of_add_var. split; [intros [?| ->]; [auto|right; constructor]|intros [?|H]; [auto|inversion H; auto]].
      - rewrite elem_of_add_var. split; [intros [?| ->]; [auto|right; constructor]|intros [?|H]; [auto|inversion H; auto]].
      - rewrite IH. split; [intros [?|?]; [auto|right; by constructor]|intros [?|H]; [auto|inversion H; auto]]. }
    rewrite Forall_forall in Hall. intros el vs Hel. by apply Hall.
Qed.

Lemma extract_pattern_variables_spec x paths : x ∈ extract_pattern_variables paths <-> exists p, p ∈ paths /\ path_binds x p.
Proof.
  unfold extract_pattern_variables. rewrite (collect_foldl collect_path_vars (path_binds x)) by (intros; apply collect_path_vars_spec). set_solver.
Qed.
