(* ===== verification/LocyStrata.v ===== *)
(** * Strata

    The passes of [compile_with_context] in crates/uni-locy/src/compiler/mod.rs
    before and after the type checker (names, grouping, graph, stratification,
    wardedness; then the assembly of the strata) and the strata of a session's registered
    rules that a program needs (crates/uni-locy/src/prune.rs).  [None] is a
    panic or the end of the fuel. *)

From stdpp Require Import relations.
From S2P Require Import Prelude Tarjan Stratify Locy LocyDeps.

(** A compiled rule: its name and the conditions of its clauses. *)
Record CompiledRule := mkCompiled { cr_name : string; clauses : list (list RuleCondition) }.
Record Stratum := mkStratum { s_id : nat; s_rules : list CompiledRule; s_recursive : bool; s_depends_on : list nat }.

(** A compiled program and its commands, as far as they name rules. *)
Inductive CompiledCommand :=
| CGoalQuery (rule : QualifiedName)
| CAbduce (rule : QualifiedName)
| CExplainRule (rule : QualifiedName)
| CDeriveCommand (rule : QualifiedName)
| CValidate (rule : string)
| CAssume (body_commands : list CompiledCommand) (body_program : CompiledProgram)
| CCalibrate
| CCypher
with CompiledProgram :=
| mkProgram (strata : list Stratum) (model_catalog : gmap string CompiledModel) (commands : list CompiledCommand).
Definition p_strata (p : CompiledProgram) : list Stratum := let '(mkProgram strata _ _) := p in strata.

Section strata.
  Context `{HO : HashOrder}.
  Implicit Types (strat : StratificationResult) (rules : gmap string CompiledRule).

(** The body of the loop over [scc_order]: [Some None] is [continue]. *)
Definition stratum_of strat rules (scc_idx : nat) : option (option Stratum) :=
  scc ← r_sccs strat !! scc_idx;
  match omap (fun name => rules !! name) (merge_sort str_le (hash_order (elements scc))) with
  | [] => Some None
  | scc_rules =>
      deps ← scc_depends_on strat !! scc_idx;
      rec ← is_recursive strat !! scc_idx;
      Some (Some (mkStratum scc_idx scc_rules rec (hash_order (elements deps))))
  end.
Fixpoint assemble_from strat rules (order : list nat) : option (list Stratum) :=
  match order with
  | [] => Some []
  | scc_idx :: order =>
      s ← stratum_of strat rules scc_idx;
      strata ← assemble_from strat rules order;
      Some (match s with Some s => s :: strata | None => strata end)
  end.
Definition assemble strat rules : option (list Stratum) := assemble_from strat rules (scc_order strat).

(** [compile_with_context] from the module resolution to the wardedness check:
    the context, the groups and, when there are rules, their stratification.
    The type checker runs next and its rules are handed to [assemble]. *)
Definition analyse (program : LocyProgram) (available : gmap string (list string)) (external_rules : list string)
    (models : gmap string CompiledModel)
    : option (result LocyCompileError (ModuleContext * gmap string (list RuleDefinition) * option StratificationResult)) :=
  match resolve_modules program available with
  | Err err => Some (Err err)
  | Ok ctx =>
      let groups := group_rules_with_context program ctx in
      if decide (groups = ∅) then Some (Ok (ctx, groups, None))
      else
        match build_dependency_graph_with_models groups ctx external_rules models with
        | Err err => Some (Err err)
        | Ok g =>
            strat ← stratify g;
            match strat with
            | Err err => Some (Err err)
            | Ok strat =>
                match check_wardedness groups with
                | Err err => Some (Err err)
                | Ok _ => Some (Ok (ctx, groups, Some strat))
                end
            end
        end
  end.

(** ** Pruning *)

(** [collect_from_rule], into an empty set. *)
Definition condition_name (cond : RuleCondition) : option string :=
  match cond with IsRef r => Some (display (rule_name r)) | _ => None end.
Definition collect_from_rule (rule : CompiledRule) (out : gset string) : gset string :=
  foldl (fun out clause => foldl (fun out cond => match condition_name cond with Some n => {[n]} ∪ out | None => out end) out clause) out (clauses rule).

(** The references of a program: of its commands, its rules, and its models. *)
Definition collect_from_models (models : gmap string CompiledModel) (out : gset string) : gset string :=
  foldl (fun out m => match path_context m.2 with Some pc => {[source_rule pc]} ∪ out | None => out end) out (hash_order (map_to_list models)).
Fixpoint collect_from_command (out : gset string) (c : CompiledCommand) {struct c} : gset string :=
  match c with
  | CGoalQuery q | CAbduce q | CExplainRule q | CDeriveCommand q => {[display q]} ∪ out
  | CValidate n => {[n]} ∪ out
  | CAssume body_commands body_program => foldl collect_from_command out body_commands ∪ collect_referenced_rule_names body_program
  | CCalibrate | CCypher => out
  end
with collect_referenced_rule_names (p : CompiledProgram) {struct p} : gset string :=
  match p with
  | mkProgram strata models commands =>
      let out := foldl collect_from_command ∅ commands in
      let out := foldl (fun out st => foldl (fun out rule => collect_from_rule rule out) out (s_rules st)) out strata in
      collect_from_models models out
  end.

Definition index_rule (index : nat) (by_name : gmap string (list nat)) (rule : CompiledRule) : gmap string (list nat) :=
  <[cr_name rule := default [] (by_name !! cr_name rule) ++ [index]]> by_name.
Definition index_pool (pool : list Stratum) : gmap string (list nat) :=
  foldl (fun by_name it => foldl (index_rule it.1) by_name (s_rules it.2)) ∅ (imap pair pool).

(** The sets the search keeps, and its queue. *)
Record Prune := mkPrune { retained : gset nat; seen : gset string; p_queue : list string }.

Definition see (s : Prune) (name : string) : Prune :=
  if decide (name ∈ seen s) then s else mkPrune (retained s) ({[name]} ∪ seen s) (p_queue s ++ [name]).
Definition expand_rule (s : Prune) (rule : CompiledRule) : Prune := foldl see s (hash_order (elements (collect_from_rule rule ∅))).
Definition retain (pool : list Stratum) (s : Prune) (index : nat) : option Prune :=
  if decide (index ∈ retained s) then Some s
  else
    stratum ← pool !! index;
    Some (foldl expand_rule (mkPrune ({[index]} ∪ retained s) (seen s) (p_queue s)) (s_rules stratum)).
Fixpoint retain_all (pool : list Stratum) (s : Prune) (indices : list nat) : option Prune :=
  match indices with [] => Some s | i :: indices => s ← retain pool s i; retain_all pool s indices end.
Fixpoint match_keys (pool : list Stratum) (reference : string) (s : Prune) (entries : list (string * list nat)) : option Prune :=
  match entries with
  | [] => Some s
  | (key, indices) :: entries =>
      if name_matches key reference then s ← retain_all pool s indices; match_keys pool reference s entries
      else match_keys pool reference s entries
  end.
Fixpoint prune_loop (fuel : nat) (pool : list Stratum) (by_name : gmap string (list nat)) (s : Prune) : option Prune :=
  match fuel with
  | O => None
  | S fuel =>
      match p_queue s with
      | [] => Some s
      | reference :: queue =>
          s ← match_keys pool reference (mkPrune (retained s) (seen s) queue) (hash_order (map_to_list by_name));
          prune_loop fuel pool by_name s
      end
  end.

(** Each name enters the queue once. *)
Definition pool_names (pool : list Stratum) : gset string := ⋃ ((fun r => collect_from_rule r ∅) <$> concat (s_rules <$> pool)).
Definition prune_fuel (seeds : gset string) (pool : list Stratum) : nat := S (size (seeds ∪ pool_names pool)).
Definition reachable_pool_strata (seeds : gset string) (pool : list Stratum) : option (list nat) :=
  s ← prune_loop (prune_fuel seeds pool) pool (index_pool pool) (mkPrune ∅ seeds (hash_order (elements seeds)));
  Some (merge_sort le (hash_order (elements (retained s)))).

(** ** Registered strata *)

(** The strata of [merge_registered_rules]: the retained ones renumbered, then
    the program's own above them. *)
Fixpoint renumber (remap : gmap nat nat) (new_id : nat) (strata : list Stratum) : list Stratum :=
  match strata with
  | [] => []
  | s :: strata =>
      let remap := <[s_id s := new_id]> remap in
      mkStratum new_id (s_rules s) (s_recursive s) (omap (fun d => remap !! d) (s_depends_on s)) :: renumber remap (S new_id) strata
  end.
Definition rebase (base_id : nat) (s : Stratum) : Stratum :=
  mkStratum (s_id s + base_id) (s_rules s) (s_recursive s) ((fun d => d + base_id)%nat <$> s_depends_on s).
Definition merge_strata (registry : list Stratum) (seeds : gset string) (own : list Stratum) : option (list Stratum) :=
  keep ← reachable_pool_strata seeds registry;
  kept ← mapM (fun index => registry !! index) keep;
  let merged := renumber ∅ 0 kept in
  Some (merged ++ (rebase (length merged) <$> own)).

(** The strata of one more source, as [rebuild_registry_from_sources] appends them. *)
Definition register_strata (registry : list Stratum) (compiled : list Stratum) : list Stratum :=
  registry ++ (rebase (length registry) <$> compiled).
End strata.

(** ** The order of the strata *)

Section assemble.
  Context `{HO : HashOrder} (g : DependencyGraph) (strat : StratificationResult) (HS : stratified g strat).
  Context (rules : gmap string CompiledRule) (Hname : forall n r, rules !! n = Some r -> cr_name r = n).
  Implicit Types (strata : list Stratum) (s : Stratum).

(** The rule [n] is evaluated in stratum [s]. *)
Definition rule_in (n : string) s : Prop := exists r, r ∈ s_rules s /\ cr_name r = n.

(** What a stratum holds: the compiled rules of its component. *)
Definition stratum_ok s : Prop := s_rules s <> [] /\ is_recursive strat !! s_id s = Some (s_recursive s)
  /\ (forall r, r ∈ s_rules s -> rules !! cr_name r = Some r)
  /\ forall n, rule_in n s <-> is_Some (rules !! n) /\ scc_map strat !! n = Some (s_id s).

Lemma stratum_of_spec i : (i < length (r_sccs strat))%nat ->
  exists o, stratum_of strat rules i = Some o /\
    match o with
    | Some s => s_id s = i /\ stratum_ok s
    | None => forall n, scc_map strat !! n = Some i -> rules !! n = None
    end.
Proof.
  intros Hi. destruct (st_lengths _ _ HS) as [Hd Hr]. pose proof Hi as Hd'. rewrite <- Hd in Hd'. pose proof Hi as Hr'. rewrite <- Hr in Hr'.
  apply lookup_lt_is_Some_2 in Hi as [c Hc]. apply lookup_lt_is_Some_2 in Hd' as [ds Hds]. apply lookup_lt_is_Some_2 in Hr' as [b Hb].
  unfold stratum_of. rewrite Hc. cbn [mbind option_bind].
  assert (Hin : forall r, r ∈ omap (fun name => rules !! name) (merge_sort str_le (hash_order (elements c))) <-> rules !! cr_name r = Some r /\ cr_name r ∈ c).
  { intros r. rewrite list_elem_of_omap. setoid_rewrite merge_sort_Permutation. setoid_rewrite hash_order_perm. setoid_rewrite elem_of_elements. split.
    - intros (n & Hn & E). by rewrite (Hname n r E).
    - intros [? ?]. by exists (cr_name r). }
  assert (Hscc : forall n, scc_map strat !! n = Some i <-> n ∈ c).
  { intros n. rewrite (st_map _ _ HS). split; [intros (c' & ? & ?); congruence|eauto]. }
  destruct (omap _ _) as [|r0 rest] eqn:E.
  - exists None. split; [done|]. intros n Hn%Hscc. destruct (rules !! n) as [r|] eqn:Er; [|done]. exfalso. apply (not_elem_of_nil r), Hin.
    by rewrite (Hname n r Er).
  - rewrite Hds. cbn [mbind option_bind]. rewrite Hb. cbn [mbind option_bind]. eexists. split; [done|]. cbn. split; [done|]. split; [done|]. split; [done|]. cbn. split.
    + intros r Hx. by apply Hin in Hx as [? _].
    + intros n. rewrite Hscc. unfold rule_in. cbn. split.
      * intros (r & [Hr1 Hr2]%Hin & <-). split; [by eexists|done].
      * intros [[r Er] Hn]. exists r. rewrite Hin, (Hname n r Er). done.
Qed.

Definition kept (i : nat) : option Stratum := match stratum_of strat rules i with Some o => o | None => None end.

Lemma assemble_kept : assemble strat rules = Some (omap kept (scc_order strat)).
Proof.
  unfold assemble. assert (Hall : Forall (fun i => (i < length (r_sccs strat))%nat) (scc_order strat)).
  { rewrite Forall_forall. intros i. rewrite (st_order _ _ HS), elem_of_seq. lia. }
  induction Hall as [|i order Hi _ IH]; [done|]. cbn [assemble_from]. destruct (stratum_of_spec i Hi) as (o & Eo & _). rewrite Eo, IH.
  assert (kept i = o) as Ek by (unfold kept; by rewrite Eo). cbn. rewrite Ek. by destruct o.
Qed.

Lemma kept_id i s : (i < length (r_sccs strat))%nat -> kept i = Some s -> s_id s = i /\ stratum_ok s.
Proof. intros Hi. unfold kept. destruct (stratum_of_spec i Hi) as (o & -> & Ho). intros ->. exact Ho. Qed.

Lemma order_lt i : i ∈ scc_order strat -> (i < length (r_sccs strat))%nat.
Proof. rewrite (st_order _ _ HS), elem_of_seq. lia. Qed.

(** Positions follow the order of the components. *)
Lemma kept_position l1 i l2 s p : scc_order strat = l1 ++ i :: l2 -> omap kept (scc_order strat) !! p = Some s -> s_id s = i -> p = length (omap kept l1).
Proof.
  intros E Hp Hi. assert (Hnd : NoDup (scc_order strat)) by (rewrite (st_order _ _ HS); apply NoDup_seq).
  assert (Hids : forall l : list nat, (forall j, j ∈ l -> j ∈ scc_order strat) -> forall t, t ∈ omap kept l -> s_id t ∈ l).
  { intros l Hl t (j & Hj & Ht)%list_elem_of_omap. destruct (kept_id j t (order_lt j (Hl j Hj)) Ht) as [-> _]. done. }
  rewrite E in Hp, Hnd. rewrite omap_app in Hp. cbn [omap list_omap] in Hp. apply NoDup_app in Hnd as (_ & Hn1 & [Hn2 _]%NoDup_cons).
  apply lookup_app_Some in Hp as [Hp|[Hge Hp]].
  { exfalso. apply list_elem_of_lookup_2 in Hp. apply Hids in Hp; [|rewrite E; set_solver]. rewrite Hi in Hp. apply (Hn1 i Hp). by left. }
  destruct (kept i) as [s0|] eqn:E0; [|exfalso].
  - destruct (p - length (omap kept l1))%nat as [|k] eqn:Ek; [lia|]. exfalso. cbn in Hp. apply list_elem_of_lookup_2 in Hp.
    apply Hids in Hp; [|rewrite E; set_solver]. by rewrite Hi in Hp.
  - apply list_elem_of_lookup_2 in Hp. apply Hids in Hp; [|rewrite E; set_solver]. by rewrite Hi in Hp.
Qed.

Lemma strata_lookup p s : omap kept (scc_order strat) !! p = Some s -> s_id s ∈ scc_order strat /\ kept (s_id s) = Some s /\ stratum_ok s.
Proof.
  intros Hp%list_elem_of_lookup_2. apply list_elem_of_omap in Hp as (i & Hi & E). destruct (kept_id i s (order_lt i Hi) E) as [<- Hok]. done.
Qed.

Lemma same_position p q s t : omap kept (scc_order strat) !! p = Some s -> omap kept (scc_order strat) !! q = Some t -> s_id s = s_id t -> p = q.
Proof.
  intros Hp Hq E. destruct (strata_lookup p s Hp) as ((l1 & l2 & El)%list_elem_of_split & _).
  rewrite (kept_position l1 _ l2 s p El Hp) by done. symmetry. by eapply kept_position.
Qed.

Lemma before_position v w p q s t : uses g v w -> omap kept (scc_order strat) !! p = Some s -> rule_in v s ->
  omap kept (scc_order strat) !! q = Some t -> rule_in w t -> s_id s <> s_id t -> (q < p)%nat.
Proof.
  intros Hu Hp Hv Hq Hw Hne. destruct (strata_lookup p s Hp) as (_ & _ & (_ & _ & _ & Hs)), (strata_lookup q t Hq) as (_ & Ht & (_ & _ & _ & Ht')).
  apply Hs in Hv as [_ Hv]. apply Ht' in Hw as [_ Hw]. destruct (st_before _ _ HS v w _ _ Hu Hv Hw Hne) as (l1 & l2 & El & Hin).
  apply list_elem_of_split in Hin as (a & b & ->). rewrite (kept_position _ _ _ s p El Hp) by done.
  rewrite <- app_assoc in El. rewrite (kept_position a (s_id t) (b ++ s_id s :: l2) t q El Hq) by done.
  rewrite omap_app, length_app. cbn [omap list_omap]. rewrite Ht. cbn. lia.
Qed.
End assemble.

Section compile.
  Context `{HO : HashOrder} (groups : gmap string (list RuleDefinition)) (ctx : ModuleContext) (models : gmap string CompiledModel).

(** A definition of [v] refers to [w], by a condition or through a model. *)
Definition prog_uses (v w : string) : Prop := exists def, defines groups v def /\ ((exists b, refers ctx b def w) \/ invokes ctx models def w).

(** What evaluating the strata in their order relies on. *)
Record strata_ordered (rules : gmap string CompiledRule) (strata : list Stratum) : Prop := {
  so_rules p s r : strata !! p = Some s -> r ∈ s_rules s -> rules !! cr_name r = Some r;
  so_once n r : rules !! n = Some r -> exists p s, strata !! p = Some s /\ r ∈ s_rules s /\ forall q t, strata !! q = Some t -> rule_in n t -> q = p;
  so_before v w p q s t : prog_uses v w -> strata !! p = Some s -> rule_in v s -> strata !! q = Some t -> rule_in w t -> (q <= p)%nat;
  so_negation v def w p q s t : defines groups v def -> refers ctx true def w -> strata !! p = Some s -> rule_in v s -> strata !! q = Some t -> rule_in w t -> (q < p)%nat;
  so_together v w p s : strata !! p = Some s -> rule_in v s -> is_Some (rules !! w) -> rule_in w s <-> rtc prog_uses v w /\ rtc prog_uses w v;
  so_recursive v p s : strata !! p = Some s -> rule_in v s -> s_recursive s = true <-> tc prog_uses v v;
}.

Lemma graph_uses external_rules g v w : graph_of groups ctx models external_rules g -> uses g v w <-> prog_uses v w.
Proof.
  intros G. unfold uses, prog_uses. rewrite (go_pos _ _ _ _ _ G), (go_neg _ _ _ _ _ G). split.
  - intros [(def & ? & [?|?])|(def & ? & ?)]; exists def; naive_solver.
  - intros (def & ? & [([] & ?)|?]); naive_solver.
Qed.

Lemma rtc_iff {A} (R R' : A -> A -> Prop) : (forall x y, R x y <-> R' x y) -> forall x y, rtc R x y <-> rtc R' x y.
Proof. intros H x y. split; apply rtc_subrel; intros a b; apply H. Qed.
Lemma tc_iff {A} (R R' : A -> A -> Prop) : (forall x y, R x y <-> R' x y) -> forall x y, tc R x y <-> tc R' x y.
Proof.
  intros H. assert (Hsub : forall R R' : A -> A -> Prop, (forall x y, R x y -> R' x y) -> forall x y, tc R x y -> tc R' x y).
  { intros Q Q' HQ x y. induction 1 as [x y Hxy|x y z Hxy _ IH]; [by apply tc_once, HQ|]. eapply tc_l; [by apply HQ|done]. }
  intros x y. split; apply Hsub; intros a b; apply H.
Qed.

Lemma assemble_ordered external_rules g strat rules : graph_of groups ctx models external_rules g -> stratified g strat ->
  dom rules ⊆ all_rules g -> (forall n r, rules !! n = Some r -> cr_name r = n) ->
  exists strata, assemble strat rules = Some strata /\ strata_ordered rules strata.
Proof.
  intros G HS Hdom Hname. rewrite (assemble_kept g strat HS rules Hname). eexists. split; [done|].
  pose proof (fun v w => graph_uses external_rules g v w G) as Hu.
  pose proof (strata_lookup g strat HS rules Hname) as Hlk. pose proof (same_position g strat HS rules Hname) as Hsame.
  pose proof (before_position g strat HS rules Hname) as Hbef.
  assert (Hscc : forall n p s, omap (kept strat rules) (scc_order strat) !! p = Some s -> rule_in n s -> scc_map strat !! n = Some (s_id s)).
  { intros n p s Hp Hn. destruct (Hlk p s Hp) as (_ & _ & (_ & _ & _ & Hs)). by apply Hs in Hn as [_ ?]. }
  assert (Hlt : forall v w p q s t, prog_uses v w -> omap (kept strat rules) (scc_order strat) !! p = Some s -> rule_in v s ->
    omap (kept strat rules) (scc_order strat) !! q = Some t -> rule_in w t -> p = q \/ (q < p)%nat).
  { intros v w p q s t Hvw Hp Hv Hq Hw. destruct (decide (s_id s = s_id t)) as [E|E]; [left; by eapply Hsame|right]. by apply (Hbef v w p q s t); [apply Hu|..]. }
  split.
  - intros p s r Hp Hr. destruct (Hlk p s Hp) as (_ & _ & (_ & _ & H & _)). by apply H.
  - intros n r Hn. assert (Hin : n ∈ all_rules g) by (apply Hdom, elem_of_dom; by eexists). apply (st_cover _ _ HS) in Hin as [i Hi].
    assert (Hio : i ∈ scc_order strat).
    { rewrite (st_order _ _ HS), elem_of_seq. apply (st_map _ _ HS) in Hi as (c & Hc%lookup_lt_Some & _). lia. }
    destruct (stratum_of_spec g strat HS rules Hname i (order_lt g strat HS i Hio)) as (o & Eo & Ho). destruct o as [s|]; [|rewrite (Ho n Hi) in Hn; done].
    destruct Ho as [Hid (_ & _ & Hrs & Hok)]. assert (Hs : s ∈ omap (kept strat rules) (scc_order strat)).
    { apply list_elem_of_omap. exists i. split; [done|]. unfold kept. by rewrite Eo. }
    apply list_elem_of_lookup in Hs as [p Hp]. exists p, s. split; [done|]. split.
    + destruct (proj2 (Hok n)) as (r' & Hr' & En); [split; [by eexists|by rewrite Hid]|]. apply Hrs in Hr' as E'. congruence.
    + intros q t Hq Ht. eapply Hsame; [exact Hq|exact Hp|]. pose proof (Hscc n q t Hq Ht). congruence.
  - intros v w p q s t Hvw Hp Hv Hq Hw. destruct (Hlt v w p q s t Hvw Hp Hv Hq Hw); lia.
  - intros v def w p q s t Hd Hr Hp Hv Hq Hw. assert (Hvw : prog_uses v w) by (exists def; eauto).
    destruct (Hlt v w p q s t Hvw Hp Hv Hq Hw) as [->|?]; [exfalso|done]. assert (s = t) as -> by congruence.
    assert (Hdn : depends (negative_edges g) v w) by (apply (go_neg _ _ _ _ _ G); eauto). apply (st_negation _ _ HS v w Hdn).
    pose proof (Hscc v q t Hp Hv) as Ev. pose proof (Hscc w q t Hp Hw) as Ew. apply (st_map _ _ HS) in Ev as (c & Hc & Hvc), Ew as (c' & Hc' & Hwc).
    assert (c' = c) as -> by congruence. by apply (st_class _ _ HS _ c v w Hc Hvc) in Hwc as [_ ?].
  - intros v w p s Hp Hv Hw. rewrite <- !(rtc_iff _ _ Hu). destruct (Hlk p s Hp) as (_ & _ & (_ & _ & _ & Hs)). rewrite Hs.
    pose proof (Hscc v p s Hp Hv) as Ev. apply (st_map _ _ HS) in Ev as (c & Hc & Hvc). rewrite <- (st_class _ _ HS _ c v w Hc Hvc), (st_map _ _ HS). split.
    + intros (_ & c' & ? & ?). congruence.
    + eauto.
  - intros v p s Hp Hv. rewrite <- (tc_iff _ _ Hu), <- (st_recursive _ _ HS v (s_id s)) by by eapply Hscc.
    destruct (Hlk p s Hp) as (_ & _ & (_ & Hrec & _)). rewrite Hrec. split; [by intros ->|by intros [= ->]].
Qed.

(** What the passes before the type checker guarantee of a program. *)
Record program_ok (external_rules : list string) : Prop := {
  po_known v w : prog_uses v w -> w ∈ dom groups \/ w ∈ external_rules;
  po_negation v def w : defines groups v def -> refers ctx true def w -> ~ rtc prog_uses w v;
  po_warded v def : defines groups v def -> def_warded def;
}.

(** The errors of these passes, and what each says of the program. *)
Inductive program_error (external_rules : list string) : LocyCompileError -> Prop :=
| pe_undefined v w : prog_uses v w -> w ∉ dom groups -> w ∉ external_rules -> program_error external_rules (UndefinedRule w)
| pe_negation v def w cycle : defines groups v def -> refers ctx true def w -> rtc prog_uses w v ->
    (forall u, u ∈ cycle <-> rtc prog_uses v u /\ rtc prog_uses u v) -> program_error external_rules (CyclicNegation cycle)
| pe_warded v def x : defines groups v def -> ~ def_warded def -> program_error external_rules (WardednessViolation v x).

Lemma program_ok_no_error external_rules err : program_ok external_rules -> program_error external_rules err -> False.
Proof.
  intros [K1 K2 K3] [v w Hu H1 H2|v def w cycle Hd Hr Hc _|v def x Hd Hw].
  - destruct (K1 v w Hu); contradiction.
  - by apply (K2 v def w).
  - by apply Hw, (K3 v).
Qed.

Lemma graph_known external_rules g v w : graph_of groups ctx models external_rules g -> prog_uses v w -> w ∈ dom groups \/ w ∈ external_rules.
Proof.
  intros G Hu. rewrite <- (graph_uses external_rules g v w G) in Hu. apply (depends_wf g v w (go_wf _ _ _ _ _ G)) in Hu as [_ Hw].
  rewrite (go_rules _ _ _ _ _ G) in Hw. set_solver.
Qed.

(** The passes up to the type checker, on a program with rules. *)
Lemma front_spec external_rules : match build_dependency_graph_with_models groups ctx external_rules models with
  | Err err => program_error external_rules err
  | Ok g => graph_of groups ctx models external_rules g /\
      match stratify g with
      | None => False
      | Some (Err err) => program_error external_rules err
      | Some (Ok strat) => stratified g strat /\
          match check_wardedness groups with Err err => program_error external_rules err | Ok _ => program_ok external_rules end
      end
  end.
Proof.
  pose proof (dependency_graph_spec groups ctx models external_rules) as HG.
  destruct (build_dependency_graph_with_models _ _ _ _) as [g|err].
  2:{ destruct HG as (v & def & w & Hd & Hr & H1 & H2 & ->). apply (pe_undefined _ v); [by exists def|done|done]. }
  split; [done|]. pose proof (fun v w => graph_uses external_rules g v w HG) as Hu. pose proof (stratify_spec g (go_wf _ _ _ _ _ HG)) as HS.
  destruct (stratify g) as [[strat|err]|]; [|destruct HS as (v & w & cycle & -> & Hn & Hr & _ & _ & Hc)|done].
  - split; [done|]. pose proof (check_wardedness_spec groups) as HW. destruct (check_wardedness groups) as [[]|err].
    + split; [by intros; eapply graph_known| |done]. intros v def w Hd Hr. rewrite <- (rtc_iff _ _ Hu). apply (st_negation _ _ HS).
      apply (go_neg _ _ _ _ _ HG). eauto.
    + destruct HW as (v & def & x & ? & ? & ->). by econstructor.
  - apply (go_neg _ _ _ _ _ HG) in Hn as (def & Hd & Hr'). setoid_rewrite (rtc_iff _ _ Hu) in Hc. apply (rtc_iff _ _ Hu) in Hr. by apply (pe_negation _ v def w).
Qed.
End compile.


(** ** The registered strata a program needs

    The search of the pool finds exactly the strata reachable through the
    references of retained rules. *)

(** A clause of the rule refers to the name, as written. *)
Definition refers_to (r : CompiledRule) (n : string) : Prop :=
  exists clause is_ref, clause ∈ clauses r /\ IsRef is_ref ∈ clause /\ n = display (rule_name is_ref).

Lemma collect_from_rule_spec r out n : n ∈ collect_from_rule r out <-> n ∈ out \/ refers_to r n.
Proof.
  unfold collect_from_rule. rewrite (collect_foldl _ (fun clause => exists is_ref, IsRef is_ref ∈ clause /\ n = display (rule_name is_ref))).
  - unfold refers_to. naive_solver.
  - intros clause vars _. rewrite (collect_foldl _ (fun cond => condition_name cond = Some n)).
    + apply or_iff_compat_l. split.
      * intros ([is_ref| |] & Hin & E); cbn in E; [|done|done]. injection E as <-. by exists is_ref.
      * intros (is_ref & Hin & ->). by exists (IsRef is_ref).
    + intros cond vs _. apply elem_of_add_var.
Qed.

Section prune.
  Context `{HO : HashOrder} (seeds : gset string) (pool : list Stratum).
  Implicit Types (s : Prune) (i : nat) (n : string).

(** Rule [r] is registered in stratum [i] of the pool. *)
Definition pooled i (r : CompiledRule) : Prop := exists st, pool !! i = Some st /\ r ∈ s_rules st.

(** The strata a reference can reach, and the names they refer to. *)
Inductive needed : nat -> Prop :=
| need n i r : wanted n -> pooled i r -> name_matches (cr_name r) n = true -> needed i
with wanted : string -> Prop :=
| want_seed n : n ∈ seeds -> wanted n
| want_ref i r n : needed i -> pooled i r -> refers_to r n -> wanted n.

(** ** The index *)

Lemma index_rules k m rs key i : i ∈ default [] (foldl (index_rule k) m rs !! key) <-> i ∈ default [] (m !! key) \/ (i = k /\ exists r, r ∈ rs /\ cr_name r = key).
Proof.
  revert m. induction rs as [|r rs IH]; intros m; cbn [foldl]; [split; [auto|by intros [?|(_ & ? & ?%elem_of_nil & _)]]|].
  rewrite IH. setoid_rewrite elem_of_cons. unfold index_rule. destruct (decide (cr_name r = key)) as [<-|Hn].
  - rewrite lookup_insert_eq. cbn. rewrite elem_of_app, list_elem_of_singleton. split.
    + intros [[?| ->]|(-> & r' & ? & ?)]; [auto|right; eauto|right; eauto].
    + intros [?|(-> & r' & [->|?] & ?)]; [auto|auto|right; eauto].
  - rewrite lookup_insert_ne by done. split; [intros [?|(-> & r' & ? & ?)]; [auto|right; eauto]|]. intros [?|(-> & r' & [->|?] & ?)]; [auto|done|right; eauto].
Qed.

Lemma index_pool_spec key i : i ∈ default [] (index_pool pool !! key) <-> exists r, pooled i r /\ cr_name r = key.
Proof.
  unfold index_pool, pooled. induction pool as [|st l IH] using rev_ind; [cbn; split; [by intros ?%elem_of_nil|by intros (? & (? & ? & _) & _)]|].
  rewrite imap_app, foldl_app. cbn [imap foldl fst snd]. rewrite index_rules, IH, Nat.add_0_r. split.
  - intros [(r & (st' & Hi & ?) & ?)|(-> & r & ? & ?)].
    + exists r. split; [|done]. exists st'. split; [by apply lookup_app_l_Some|done].
    + exists r. split; [|done]. exists st. split; [by rewrite list_lookup_middle|done].
  - intros (r & (st' & [Hi|[Hge Hi]]%lookup_app_Some & ?) & ?); [left; naive_solver|]. apply list_lookup_singleton_Some in Hi as [? <-].
    right. split; [lia|eauto].
Qed.

(** ** Growing the search *)

Record pstep s s' : Prop := {
  ps_ret : retained s ⊆ retained s';
  ps_new : exists new, p_queue s' = p_queue s ++ new /\ NoDup new /\ (forall n, n ∈ new -> n ∉ seen s) /\ seen s' = seen s ∪ list_to_set new;
}.
Lemma pstep_refl s : pstep s s.
Proof. split; [done|]. exists []. split_and!; [by rewrite app_nil_r|constructor|by intros n ?%elem_of_nil|set_solver]. Qed.
Lemma pstep_trans s1 s2 s3 : pstep s1 s2 -> pstep s2 s3 -> pstep s1 s3.
Proof.
  intros [R1 (n1 & Q1 & N1 & D1 & S1)] [R2 (n2 & Q2 & N2 & D2 & S2)]. split; [set_solver|]. exists (n1 ++ n2). split_and!.
  - by rewrite Q2, Q1, app_assoc.
  - apply NoDup_app. split_and!; [done| |done]. intros n Hn1 Hn2. apply (D2 n Hn2). rewrite S1. set_solver.
  - intros n [?|Hn]%elem_of_app; [by apply D1|]. specialize (D2 n Hn). set_solver.
  - rewrite S2, S1, list_to_set_app_L. set_solver.
Qed.

Lemma sees_spec l s : retained (foldl see s l) = retained s /\ seen (foldl see s l) = seen s ∪ list_to_set l /\ pstep s (foldl see s l).
Proof.
  revert s. induction l as [|n l IH]; intros s; cbn [foldl]; [split_and!; [done|set_solver|apply pstep_refl]|].
  destruct (IH (see s n)) as (Hr & Hs & Hp). assert (Hstep : pstep s (see s n) /\ seen (see s n) = {[n]} ∪ seen s /\ retained (see s n) = retained s).
  { unfold see. case_decide; [split_and!; [apply pstep_refl|set_solver|done]|]. split_and!; [|done|done]. split; [done|].
    exists [n]. cbn. split_and!; [done|apply NoDup_singleton|set_solver|set_solver]. }
  destruct Hstep as (H1 & H2 & H3). split_and!; [congruence|rewrite Hs, H2; set_solver|by eapply pstep_trans].
Qed.

Lemma expand_rules rs s : foldl expand_rule s rs = foldl see s (concat ((fun r => hash_order (elements (collect_from_rule r ∅))) <$> rs)).
Proof. revert s. induction rs as [|r rs IH]; intros s; cbn; [done|]. rewrite IH, foldl_app. done. Qed.

Lemma elem_of_names rs n : n ∈ concat ((fun r => hash_order (elements (collect_from_rule r ∅))) <$> rs) <-> exists r, r ∈ rs /\ refers_to r n.
Proof.
  rewrite list_elem_of_In, in_concat. setoid_rewrite <- list_elem_of_In. split.
  - intros (l & (r & -> & Hr)%list_elem_of_fmap & Hn). rewrite hash_order_perm, elem_of_elements, collect_from_rule_spec in Hn. exists r. set_solver.
  - intros (r & Hr & Hn). eexists. split; [apply list_elem_of_fmap; by exists r|]. rewrite hash_order_perm, elem_of_elements, collect_from_rule_spec. by right.
Qed.

(** What is retained is needed, and its references have been seen. *)
Record pinv s : Prop := {
  pi_ret i : i ∈ retained s -> needed i;
  pi_seen n : n ∈ seen s -> wanted n;
  pi_refs i r n : i ∈ retained s -> pooled i r -> refers_to r n -> n ∈ seen s;
}.

Lemma retain_spec s i : pinv s -> needed i -> exists s', retain pool s i = Some s' /\ pinv s' /\ pstep s s' /\ i ∈ retained s'.
Proof.
  intros I Hn. unfold retain. case_decide as Hi; [exists s; split_and!; [done|done|apply pstep_refl|done]|].
  assert (Hst : exists st, pool !! i = Some st) by (destruct Hn as [? ? ? _ (st & ? & _) _]; eauto). destruct Hst as [st Hst]. rewrite Hst. cbn [mbind option_bind].
  eexists. split; [done|]. rewrite expand_rules. set (names := concat _). set (s1 := mkPrune _ _ _). destruct (sees_spec names s1) as (Hr & Hs & Hp).
  cbn [retained seen s1] in Hr, Hs. split_and!.
  - destruct I as [I1 I2 I3]. split.
    + intros j. rewrite Hr. intros [->%elem_of_singleton|?]%elem_of_union; auto.
    + intros n. rewrite Hs. intros [?|Hx]%elem_of_union; [auto|]. apply elem_of_list_to_set, elem_of_names in Hx as (r & Hx & Hrn).
      apply (want_ref i r); [done|by exists st|done].
    + intros j r n. rewrite Hr, Hs. intros [->%elem_of_singleton|Hj]%elem_of_union (st' & Hst' & Hin) Hrn; apply elem_of_union; [right|left].
      * assert (st' = st) as -> by congruence. apply elem_of_list_to_set, elem_of_names. eauto.
      * apply (I3 j r n Hj); [by exists st'|done].
  - eapply pstep_trans; [|exact Hp]. split; [set_solver|]. exists []. cbn. split_and!; [by rewrite app_nil_r|constructor|by intros n ?%elem_of_nil|set_solver].
  - rewrite Hr. set_solver.
Qed.

Lemma retain_all_spec s l : pinv s -> (forall i, i ∈ l -> needed i) ->
  exists s', retain_all pool s l = Some s' /\ pinv s' /\ pstep s s' /\ forall i, i ∈ l -> i ∈ retained s'.
Proof.
  revert s. induction l as [|i l IH]; intros s I Hl; cbn [retain_all]; [exists s; split_and!; [done|done|apply pstep_refl|by intros i ?%elem_of_nil]|].
  destruct (retain_spec s i I) as (s1 & -> & I1 & P1 & Hi); [apply Hl; by left|]. cbn [mbind option_bind].
  destruct (IH s1 I1) as (s2 & -> & I2 & P2 & H2); [intros; apply Hl; by right|]. exists s2. split_and!; [done|done|by eapply pstep_trans|].
  intros j [->|Hj]%elem_of_cons; [by apply (ps_ret _ _ P2)|by apply H2].
Qed.

Lemma match_keys_spec reference s entries : pinv s -> wanted reference ->
  (forall key l i, (key, l) ∈ entries -> i ∈ l -> exists r, pooled i r /\ cr_name r = key) ->
  exists s', match_keys pool reference s entries = Some s' /\ pinv s' /\ pstep s s'
    /\ forall key l i, (key, l) ∈ entries -> i ∈ l -> name_matches key reference = true -> i ∈ retained s'.
Proof.
  revert s. induction entries as [|[key l] entries IH]; intros s I Hw He; cbn [match_keys]; [exists s; split_and!; [done|done|apply pstep_refl|by intros ? ? ? ?%elem_of_nil]|].
  assert (He' : forall key l i, (key, l) ∈ entries -> i ∈ l -> exists r, pooled i r /\ cr_name r = key) by (intros; eapply He; [by right|done]).
  destruct (name_matches key reference) eqn:Em.
  - destruct (retain_all_spec s l I) as (s1 & -> & I1 & P1 & H1).
    { intros i Hi. destruct (He key l i) as (r & Hr & E); [by left|done|]. subst key. by apply (need reference i r). }
    cbn [mbind option_bind]. destruct (IH s1 I1 Hw He') as (s2 & -> & I2 & P2 & H2). exists s2. split_and!; [done|done|by eapply pstep_trans|].
    intros k l' i [[= -> ->]|Hin]%elem_of_cons Hi Hk; [by apply (ps_ret _ _ P2), H1|by eapply H2].
  - destruct (IH s I Hw He') as (s2 & -> & I2 & P2 & H2). exists s2. split_and!; [done|done|done|].
    intros k l' i [[= -> ->]|Hin]%elem_of_cons Hi Hk; [congruence|by eapply H2].
Qed.

(** ** The loop *)

Definition closed_name s n : Prop := forall i r, pooled i r -> name_matches (cr_name r) n = true -> i ∈ retained s.
Definition universe : gset string := seeds ∪ pool_names pool.

Lemma wanted_universe n : wanted n -> n ∈ universe.
Proof.
  unfold universe. intros [m ?|i r m _ (st & Hst & Hr) Hm]; [set_solver|]. apply elem_of_union_r. unfold pool_names.
  apply elem_of_union_list. exists (collect_from_rule r ∅). split; [|apply collect_from_rule_spec; by right]. apply list_elem_of_fmap. exists r. split; [done|].
  apply list_elem_of_In, in_concat. exists (s_rules st). rewrite <- !list_elem_of_In. split; [|done]. apply list_elem_of_fmap. exists st. split; [done|].
  by eapply list_elem_of_lookup_2.
Qed.

Record linv s : Prop := {
  li_inv : pinv s;
  li_seeds : seeds ⊆ seen s;
  li_queue n : n ∈ p_queue s -> n ∈ seen s;
  li_done n : n ∈ seen s -> n ∉ p_queue s -> closed_name s n;
}.

Lemma linv_next s n queue : linv s -> p_queue s = n :: queue ->
  exists s', match_keys pool n (mkPrune (retained s) (seen s) queue) (hash_order (map_to_list (index_pool pool))) = Some s' /\ linv s'
    /\ (size (universe ∖ seen s') + length (p_queue s') < size (universe ∖ seen s) + length (p_queue s))%nat.
Proof.
  intros [[I1 I2 I3] Hsd Hq Hd] Eq. assert (Hn : n ∈ seen s) by (apply Hq; rewrite Eq; by left).
  destruct (match_keys_spec n (mkPrune (retained s) (seen s) queue) (hash_order (map_to_list (index_pool pool)))) as (s' & -> & I' & [Hr (new & Eq' & Hnd & Hfresh & Es)] & Hm).
  { by split. }
  { by apply I2. }
  { intros key l i Hin Hi. rewrite hash_order_perm, elem_of_map_to_list in Hin. apply index_pool_spec. by rewrite Hin. }
  cbn [retained seen p_queue] in *. exists s'. split; [done|].
  assert (Hcl : closed_name s' n).
  { intros i r Hp Hk. assert (Hi : i ∈ default [] (index_pool pool !! cr_name r)) by (apply index_pool_spec; by exists r).
    destruct (index_pool pool !! cr_name r) as [l|] eqn:El; [|by apply elem_of_nil in Hi]. apply (Hm (cr_name r) l i); [|done|done].
    by rewrite hash_order_perm, elem_of_map_to_list. }
  split.
  - split; [done|rewrite Es; etrans; [exact Hsd|apply union_subseteq_l]| |].
    + intros m. rewrite Eq', Es, elem_of_app, elem_of_union, elem_of_list_to_set. intros [Hx|?]; [left; apply Hq; rewrite Eq; by right|by right].
    + intros m. rewrite Eq', Es, elem_of_app, elem_of_union, elem_of_list_to_set. intros Hs Hnq.
      destruct (decide (m = n)) as [->|Hne]; [done|]. intros i r Hp Hk. apply Hr, (Hd m) with r; [tauto| |done|done].
      rewrite Eq. intros [?|?]%elem_of_cons; tauto.
  - rewrite Eq, Eq', Es, length_app. cbn.
    assert (Hsz : (size (universe ∖ (seen s ∪ list_to_set new)) + length new <= size (universe ∖ seen s))%nat); [|lia].
    rewrite <- (size_list_to_set (C := gset string) new Hnd). rewrite <- size_union by (clear; set_solver). apply subseteq_size. intros m [?|Hm']%elem_of_union; [clear -H; set_solver|].
    rewrite elem_of_list_to_set in Hm'. apply elem_of_difference. split; [|by apply Hfresh]. apply wanted_universe, (pi_seen _ I').
    rewrite Es. apply elem_of_union_r. by rewrite elem_of_list_to_set.
Qed.

Lemma prune_loop_ok fuel s : linv s -> (size (universe ∖ seen s) + length (p_queue s) < fuel)%nat ->
  exists s', prune_loop fuel pool (index_pool pool) s = Some s' /\ linv s' /\ p_queue s' = [].
Proof.
  revert s. induction fuel as [|fuel IH]; intros s I Hf; [lia|]. cbn [prune_loop]. destruct (p_queue s) as [|n queue] eqn:Eq; [by exists s|].
  destruct (linv_next s n queue I Eq) as (s' & -> & I' & Hlt). cbn [mbind option_bind]. apply IH; [done|]. rewrite Eq in Hlt. cbn in *. lia.
Qed.

Scheme needed_mind := Induction for needed Sort Prop with wanted_mind := Induction for wanted Sort Prop.

Lemma needed_retained s : linv s -> p_queue s = [] -> forall i, needed i -> i ∈ retained s.
Proof.
  intros [[I1 I2 I3] Hsd Hq Hd] Eq. apply (needed_mind (fun i _ => i ∈ retained s) (fun n _ => n ∈ seen s)).
  - intros n i r _ Hn Hp Hm. apply (Hd n Hn) with r; [rewrite Eq; apply not_elem_of_nil|done|done].
  - intros n Hn. by apply Hsd.
  - intros i r n _ Hi Hp Hr. by apply (I3 i r).
Qed.

(** The search ends, and returns exactly the needed strata, in the order of the
    pool. *)
Lemma reachable_pool_strata_exact : exists keep, reachable_pool_strata seeds pool = Some keep
  /\ StronglySorted lt keep /\ forall i, i ∈ keep <-> needed i.
Proof.
  unfold reachable_pool_strata. destruct (prune_loop_ok (prune_fuel seeds pool) (mkPrune ∅ seeds (hash_order (elements seeds)))) as (s & -> & I & Eq).
  - split; cbn; [|done|intros n; by rewrite hash_order_perm, elem_of_elements|intros n Hn Hq; exfalso; apply Hq; by rewrite hash_order_perm, elem_of_elements].
    split; cbn; [by intros i ?%elem_of_empty|by constructor|by intros ? ? ? ?%elem_of_empty].
  - cbn. rewrite (Permutation_length (hash_order_perm _)). change (length (elements seeds)) with (size seeds). unfold prune_fuel. fold universe.
    assert (Hle : (size (universe ∖ seeds) + size seeds <= size universe)%nat); [|lia].
    rewrite <- size_union by set_solver. apply subseteq_size. unfold universe. set_solver.
  - cbn [mbind option_bind]. eexists. split; [done|]. assert (Hmem : forall i, i ∈ merge_sort le (hash_order (elements (retained s))) <-> needed i).
    { intros i. rewrite merge_sort_Permutation, hash_order_perm, elem_of_elements. split; [apply (li_inv _ I)|by apply needed_retained]. }
    split; [|done]. assert (Hs : StronglySorted le (merge_sort le (hash_order (elements (retained s))))) by (apply StronglySorted_merge_sort; apply _).
    assert (Hnd : NoDup (merge_sort le (hash_order (elements (retained s))))) by (rewrite merge_sort_Permutation, hash_order_perm; apply NoDup_elements).
    revert Hs Hnd. generalize (merge_sort le (hash_order (elements (retained s)))). intros l Hs. induction Hs as [|a l Hs IH Ha]; intros Hnd; constructor.
    + apply IH. by apply NoDup_cons in Hnd as [_ ?].
    + rewrite Forall_forall in Ha |- *. intros b Hb. specialize (Ha b Hb). apply NoDup_cons in Hnd as [Hx _]. assert (a <> b) by (intros ->; done). lia.
Qed.
End prune.

(** ** The merged program *)

Lemma renumber_rules remap k l : s_rules <$> renumber remap k l = s_rules <$> l.
Proof. revert remap k. induction l as [|s l IH]; intros remap k; cbn; [done|]. by rewrite IH. Qed.
Lemma renumber_ids remap k l : s_id <$> renumber remap k l = seq k (length l).
Proof. revert remap k. induction l as [|s l IH]; intros remap k; cbn; [done|]. by rewrite IH. Qed.

Section merge.
  Context `{HO : HashOrder} (registry : list Stratum) (seeds : gset string) (own : list Stratum).

(** The rules of the merged strata: those of the retained ones, in the order of
    the registry, then the program's. *)
Definition merged_rules (keep : list nat) : list (list CompiledRule) := omap (fun i => s_rules <$> registry !! i) keep ++ (s_rules <$> own).

Lemma merge_strata_rules keep : reachable_pool_strata seeds registry = Some keep -> (forall i, i ∈ keep <-> needed seeds registry i) ->
  exists strata, merge_strata registry seeds own = Some strata /\ s_rules <$> strata = merged_rules keep.
Proof.
  intros E Hk. unfold merge_strata, merged_rules. rewrite E. cbn [mbind option_bind].
  assert (Hall : Forall (fun i => is_Some (registry !! i)) keep).
  { apply Forall_forall. intros i [? ? ? _ (st & ? & _) _]%Hk. by eexists. }
  pose proof Hall as [strata Hm]%mapM_is_Some. rewrite Hm. cbn [mbind option_bind]. eexists. split; [done|].
  rewrite fmap_app, renumber_rules. f_equal.
  - apply mapM_Some in Hm. clear -Hm. induction Hm as [|i st keep strata Hi _ IH]; [done|]. cbn. rewrite Hi, IH. done.
  - rewrite <- list_fmap_compose. by apply list_fmap_ext.
Qed.

Lemma merged_wanted keep rs r n : (forall i, i ∈ keep <-> needed seeds registry i) -> (forall st r n, st ∈ own -> r ∈ s_rules st -> refers_to r n -> n ∈ seeds) ->
  rs ∈ merged_rules keep -> r ∈ rs -> refers_to r n -> wanted seeds registry n.
Proof.
  intros Hk Hseed [Hl|Hl]%elem_of_app Hr Hn.
  - apply list_elem_of_omap in Hl as (j & Hj & E). destruct (registry !! j) as [sj|] eqn:Ej; [|done]. cbn in E. injection E as <-.
    apply (want_ref _ _ j r); [by apply Hk|by exists sj|done].
  - apply list_elem_of_fmap in Hl as (so & -> & Hso). by apply want_seed, (Hseed so r n Hso).
Qed.

(** The result holds exactly the needed strata, and is closed under references
    to registered rules if the seeds cover those of the program's own rules. *)
Lemma merge_strata_exact : (forall st r n, st ∈ own -> r ∈ s_rules st -> refers_to r n -> n ∈ seeds) ->
  exists keep strata, merge_strata registry seeds own = Some strata
    /\ StronglySorted lt keep /\ (forall i, i ∈ keep <-> needed seeds registry i) /\ s_rules <$> strata = merged_rules keep
    /\ forall st r n i r', st ∈ strata -> r ∈ s_rules st -> refers_to r n -> pooled registry i r' -> name_matches (cr_name r') n = true ->
      exists q st', strata !! q = Some st' /\ r' ∈ s_rules st' /\ (q < length strata - length own)%nat.
Proof.
  intros Hseed. destruct (reachable_pool_strata_exact seeds registry) as (keep & Ek & Hs & Hk).
  destruct (merge_strata_rules keep Ek Hk) as (strata & Em & Hr). exists keep, strata. split_and!; [done|done|done|done|].
  intros st r n i r' Hst Hin Hrn Hp Hm.
  assert (Hw : wanted seeds registry n).
  { apply (merged_wanted keep (s_rules st) r n); [done|done| |done|done]. rewrite <- Hr. by apply list_elem_of_fmap_2. }
  assert (Hi : i ∈ keep) by (apply Hk; by apply (need _ _ n i r')). destruct Hp as (si & Hsi & Hr').
  assert (Hx : s_rules si ∈ omap (fun i => s_rules <$> registry !! i) keep).
  { apply list_elem_of_omap. exists i. split; [done|]. by rewrite Hsi. }
  apply list_elem_of_lookup in Hx as [q Hq]. assert (Hq' : (s_rules <$> strata) !! q = Some (s_rules si)) by (rewrite Hr; by apply lookup_app_l_Some).
  rewrite list_lookup_fmap in Hq'. destruct (strata !! q) as [st'|] eqn:Eq; [|done]. injection Hq' as Hq'. exists q, st'. split; [done|]. split; [by rewrite Hq'|].
  apply (f_equal length) in Hr. unfold merged_rules in Hr. rewrite length_app, !length_fmap in Hr. apply lookup_lt_Some in Hq. lia.
Qed.
End merge.

(** ** The seeds *)

Lemma collect_from_models_mono `{HO : HashOrder} models out n : n ∈ out -> n ∈ collect_from_models models out.
Proof.
  intros H. unfold collect_from_models. rewrite (collect_foldl _ (fun m : string * CompiledModel => source_rule <$> path_context m.2 = Some n)); [by left|].
  intros [k m] vars _. cbn. destruct (path_context m) as [pc|]; cbn; [rewrite elem_of_union, elem_of_singleton|]; naive_solver.
Qed.

Lemma seeds_cover_own `{HO : HashOrder} program st r n : st ∈ p_strata program -> r ∈ s_rules st -> refers_to r n -> n ∈ collect_referenced_rule_names program.
Proof.
  destruct program as [strata models commands]. cbn. intros Hst Hr Hn. apply collect_from_models_mono.
  apply (collect_foldl _ (fun st => exists r, r ∈ s_rules st /\ refers_to r n)).
  - intros st' vars _. apply (collect_foldl _ (fun r => refers_to r n)). intros r' vs _. apply collect_from_rule_spec.
  - right. eauto.
Qed.

(** Merging a session's rules into a program keeps exactly the registered
    strata reachable from the names the program mentions, in their order and
    before the program's own strata; and every registered rule that a reference
    in the merged program can name is in it, before the program's own strata. *)
Theorem merge_registered_exact `{HO : HashOrder} (registry : list Stratum) (program : CompiledProgram) :
  let seeds := collect_referenced_rule_names program in
  let own := p_strata program in
  exists keep strata, merge_strata registry seeds own = Some strata
    /\ StronglySorted lt keep /\ (forall i, i ∈ keep <-> needed seeds registry i) /\ s_rules <$> strata = merged_rules registry own keep
    /\ forall st r n i r', st ∈ strata -> r ∈ s_rules st -> refers_to r n -> pooled registry i r' -> name_matches (cr_name r') n = true ->
      exists q st', strata !! q = Some st' /\ r' ∈ s_rules st' /\ (q < length strata - length own)%nat.
Proof. cbn zeta. apply merge_strata_exact. intros st r n. apply seeds_cover_own. Qed.
