(* ===== verification/Arith.v ===== *)
(** * Arithmetic of weights

    The Locy weights of crates/uni-locy/src/dependency_dnf.rs and
    top_k_proofs.rs are computed in [f64].  [Arith] names the operations the
    code uses, so that one definition of an algorithm runs in binary64 (the
    instance [f64_arith], the Standard Library's executable specification of
    IEEE 754) and in exact rationals (the instance [exact_arith], for the
    statements about probabilities). *)

From Stdlib Require Import SpecFloat QArith.QArith_base QArith.Qcanon.
From S2P Require Import Prelude.
#[local] Open Scope Z_scope.

Class Arith (F : Type) := {
  zero : F;
  one : F;
  add : F -> F -> F;
  sub : F -> F -> F;
  mul : F -> F -> F;
  opp : F -> F;
  partial_cmp : F -> F -> option comparison;
}.

(** [x < y]; false with a NaN. *)
Definition lt {F} `{Arith F} (x y : F) : bool := match partial_cmp x y with Some Lt => true | _ => false end.
(** [x.clamp(0.0, 1.0)]; a NaN stays. *)
Definition clamp {F} `{Arith F} (x : F) : F :=
  let x := if lt x zero then zero else x in
  if lt one x then one else x.

#[export] Instance exact_arith : Arith Qc := {
  zero := 0%Qc; one := 1%Qc; add := Qcplus; sub := Qcminus; mul := Qcmult; opp := Qcopp;
  partial_cmp x y := Some (x ?= y)%Qc;
}.

Abbreviation f64 := spec_float.
#[export] Instance f64_arith : Arith f64 := {
  zero := S754_zero false;
  one := S754_finite false (2 ^ 52)%positive (-52);
  add := SFadd 53 1024; sub := SFsub 53 1024; mul := SFmul 53 1024; opp := SFopp;
  partial_cmp := SFcompare;
}.

Lemma exact_lt (x y : Qc) : lt x y = true <-> (x < y)%Qc.
Proof. unfold lt. cbn [partial_cmp exact_arith]. rewrite Qclt_alt. by destruct (x ?= y)%Qc. Qed.
Lemma exact_clamp_id (q : Qc) : (0 <= q)%Qc -> (q <= 1)%Qc -> clamp q = q.
Proof.
  intros H0 H1. unfold clamp. change (@zero Qc _) with 0%Qc. change (@one Qc _) with 1%Qc.
  destruct (lt q 0%Qc) eqn:E; [by apply exact_lt, Qclt_not_le in E|].
  destruct (lt 1%Qc q) eqn:E1; [by apply exact_lt, Qclt_not_le in E1|done].
Qed.

(** ** The order of the numbers *)

Definition is_nan (x : f64) : bool := match x with S754_nan => true | _ => false end.
Definition is_finite (x : f64) : bool := match x with S754_zero _ | S754_finite _ _ _ => true | _ => false end.

(** The place of a number: its sign and size class, exponent and significand. *)
Definition rank (x : f64) : Z * Z * Z :=
  match x with
  | S754_infinity true => (-2, 0, 0)
  | S754_finite true m e => (-1, - e, Zneg m)
  | S754_zero _ | S754_nan => (0, 0, 0)
  | S754_finite false m e => (1, e, Zpos m)
  | S754_infinity false => (2, 0, 0)
  end.
Definition rank_cmp (a b : Z * Z * Z) : comparison :=
  then_cmp (then_cmp (a.1.1 ?= b.1.1) (a.1.2 ?= b.1.2)) (a.2 ?= b.2).

Lemma partial_cmp_rank (x y : f64) : partial_cmp x y = if is_nan x || is_nan y then None else Some (rank_cmp (rank x) (rank y)).
Proof.
  destruct x as [s|s| |s m e], y as [s'|s'| |s' m' e']; try destruct s; try destruct s'; try reflexivity; cbn.
  - unfold rank_cmp. cbn. rewrite Z.compare_opp, (Z.compare_antisym e e').
    by destruct (e ?= e').
  - unfold rank_cmp. cbn. by destruct (e ?= e').
Qed.

(** [x <= y] *)
Definition le (x y : f64) : Prop := exists c, partial_cmp x y = Some c /\ c <> Gt.

Lemma rank_cmp_opp a b : rank_cmp b a = CompOpp (rank_cmp a b).
Proof.
  destruct a as [[a1 a2] a3], b as [[b1 b2] b3]. unfold rank_cmp. cbn.
  rewrite (Z.compare_antisym a1), (Z.compare_antisym a2), (Z.compare_antisym a3).
  destruct (a1 ?= b1), (a2 ?= b2), (a3 ?= b3); reflexivity.
Qed.
Lemma rank_cmp_le a b : rank_cmp a b <> Gt <-> (a.1.1 < b.1.1 \/ a.1.1 = b.1.1 /\ (a.1.2 < b.1.2 \/ a.1.2 = b.1.2 /\ a.2 <= b.2)).
Proof.
  destruct a as [[a1 a2] a3], b as [[b1 b2] b3]. unfold rank_cmp. cbn.
  destruct (Z.compare_spec a1 b1), (Z.compare_spec a2 b2), (Z.compare_spec a3 b3); cbn; split; intros; try done; lia.
Qed.

Lemma le_rank x y : le x y <-> is_nan x = false /\ is_nan y = false /\ rank_cmp (rank x) (rank y) <> Gt.
Proof.
  unfold le. rewrite partial_cmp_rank. destruct (is_nan x), (is_nan y); cbn; split.
  all: try (by intros (? & ? & ?)). all: try (by intros (? & ? & ?)). by intros (c & [= <-] & ?). intros (_ & _ & ?). eauto.
Qed.
Lemma le_refl x : is_nan x = false -> le x x.
Proof. intros H. apply le_rank. split_and!; [done|done|]. apply rank_cmp_le. lia. Qed.
Lemma le_trans x y z : le x y -> le y z -> le x z.
Proof. rewrite !le_rank, !rank_cmp_le. intros (? & ? & ?) (? & ? & ?). split_and!; [done|done|lia]. Qed.
(** Two numbers are ordered one way or the other. *)
Lemma lt_le_cases x y : is_nan x = false -> is_nan y = false -> (lt x y = true /\ le x y) \/ (lt x y = false /\ le y x).
Proof.
  intros Hx Hy. unfold lt. rewrite !le_rank, (rank_cmp_opp (rank x)), partial_cmp_rank, Hx, Hy. cbn.
  destruct (rank_cmp (rank x) (rank y)); cbn; [right|left|right]; done.
Qed.

(** ** Products of finite numbers *)

Lemma shr_1_nonneg r : 0 <= shr_m r -> 0 <= shr_m (shr_1 r).
Proof. destruct r as [[|[p|p|]|p] r s]; cbn; lia. Qed.
Lemma iter_shr_nonneg p : forall r, 0 <= shr_m r -> 0 <= shr_m (SpecFloat.iter_pos shr_1 p r).
Proof. induction p as [p IH|p IH|]; intros r Hr; cbn; [apply IH, IH, shr_1_nonneg|apply IH, IH|apply shr_1_nonneg]; done. Qed.
Lemma shr_fexp_nonneg m e l : 0 <= m -> 0 <= shr_m (shr_fexp 53 1024 m e l).1.
Proof.
  intros Hm. unfold shr_fexp, shr. assert (H : 0 <= shr_m (shr_record_of_loc m l)) by by destruct l as [|[]].
  destruct (_ - e); [done|by apply iter_shr_nonneg|done].
Qed.

(** The product of finite numbers may overflow but is a number. *)
Lemma mul_finite (x y : f64) : is_finite x = true -> is_finite y = true -> is_nan (mul x y) = false.
Proof.
  destruct x as [|s| |s m e], y as [|s'| |s' m' e']; try done. intros _ _. cbn [mul f64_arith SFmul]. unfold binary_round_aux.
  pose proof (shr_fexp_nonneg (Zpos (m * m')) (e + e') loc_Exact ltac:(lia)) as H1. destruct (shr_fexp _ _ (Zpos (m * m')) _ _) as [r1 e1]. cbn in H1.
  assert (H2 : 0 <= round_nearest_even (shr_m r1) (loc_of_shr_record r1)).
  { unfold round_nearest_even. destruct (loc_of_shr_record r1) as [|[]]; [lia| |lia|lia]. destruct (Z.even _); lia. }
  pose proof (shr_fexp_nonneg _ e1 loc_Exact H2) as H3. destruct (shr_fexp _ _ (round_nearest_even _ _) _ _) as [r2 e2]. cbn in H3.
  destruct (shr_m r2); [done|by destruct (_ <=? _)|lia].
Qed.
