(* ===== verification/RvSet.v ===== *)
(** * Sets of random variables

    [BaseRvSet] of crates/uni-locy/src/dependency_dnf.rs: a 64-bit window of
    identifiers, or a sorted vector.  An identifier is a 32-bit word.  [None] is
    the panic of an addition that overflows, as in a build with overflow checks;
    identifiers whose window of 64 stays below 2^32 ([is_id]) never meet it. *)

From S2P Require Import Prelude.
#[local] Open Scope Z_scope.

Inductive BaseRvSet := Inline (bits base : Z) | Sparse (v : list Z).

Definition window : list Z := seqZ 0 64.

Definition empty : BaseRvSet := Inline 0 0.
Definition single (rv : Z) : BaseRvSet := Inline 1 rv.

(** [u64::count_ones] *)
Fixpoint popcount (p : positive) : nat :=
  match p with xH => 1%nat | xO p => popcount p | xI p => S (popcount p) end.
Definition count_ones (z : Z) : nat := match z with Zpos p => popcount p | _ => O end.

Definition is_empty (s : BaseRvSet) : bool :=
  match s with Inline bits _ => bits =? 0 | Sparse v => bool_decide (v = []) end.
Definition len (s : BaseRvSet) : nat :=
  match s with Inline bits _ => count_ones bits | Sparse v => length v end.

(** [rv.wrapping_sub(base)]; the binary search is on a sorted vector. *)
Definition contains (s : BaseRvSet) (rv : Z) : bool :=
  match s with
  | Inline bits base => let offset := as_u32 (rv - base) in (offset <? 64) && Z.testbit bits offset
  | Sparse v => bool_decide (rv ∈ v)
  end.

(** [then_some] takes its argument by value, so [base + i] is evaluated for every
    [i] that is reached; a consumer that stops early ([any], [all]) is taken to
    reach them all. *)
Definition iter (s : BaseRvSet) : option (list Z) :=
  match s with
  | Inline bits base =>
      if bool_decide (Forall (fun i => base + i < 2 ^ 32) window)
      then Some (omap (fun i => if Z.testbit bits i then Some (base + i) else None) window)
      else None
  | Sparse v => Some v
  end.

(** [Vec::dedup]: equal neighbours are merged. *)
Fixpoint dedup (l : list Z) : list Z :=
  match l with
  | [] => []
  | x :: l' => match l' with y :: _ => if x =? y then dedup l' else x :: dedup l' | [] => [x] end
  end.
(** [partition_point(|x| x < rv)] on a sorted vector. *)
Fixpoint partition_point (rv : Z) (v : list Z) : nat :=
  match v with [] => O | x :: v => if x <? rv then S (partition_point rv v) else O end.

Definition insert (s : BaseRvSet) (rv : Z) : option BaseRvSet :=
  if contains s rv then Some s
  else
    match s with
    | Inline bits base =>
        if bits =? 0 then Some (Inline 1 rv)
        else if (base <=? rv) && (rv - base <? 64) then Some (Inline (Z.lor bits (Z.shiftl 1 (rv - base))) base)
        else all ← iter s; Some (Sparse (dedup (merge_sort Z.le (all ++ [rv]))))
    | Sparse v => let pos := partition_point rv v in Some (Sparse (take pos v ++ rv :: drop pos v))
    end.
Fixpoint insert_each (out : BaseRvSet) (l : list Z) : option BaseRvSet :=
  match l with [] => Some out | rv :: l => out ← insert out rv; insert_each out l end.
Definition union (a b : BaseRvSet) : option BaseRvSet := l ← iter b; insert_each a l.

Definition intersect_any (a b : BaseRvSet) : option bool :=
  match a, b with
  | Inline ba ea, Inline bb eb => if ea =? eb then Some (negb (Z.land ba bb =? 0)) else existsb (contains b) <$> iter a
  | _, _ => existsb (contains b) <$> iter a
  end.
Definition is_subset_of (a b : BaseRvSet) : option bool := forallb (contains b) <$> iter a.

(** ** The set it stands for *)

(** An identifier that a window of 64 may start at. *)
Definition is_id (rv : Z) : Prop := 0 <= rv < 2 ^ 32 - 63.
Definition members (s : BaseRvSet) : list Z :=
  match s with
  | Inline bits base => omap (fun i => if Z.testbit bits i then Some (base + i) else None) window
  | Sparse v => v
  end.
Definition rvs (s : BaseRvSet) : gset Z := list_to_set (members s).

(** The elements are identifiers, windows start at one, a vector is strictly
    sorted. *)
Definition wf (s : BaseRvSet) : Prop :=
  match s with
  | Inline bits base => 0 <= bits < 2 ^ 64 /\ is_id base /\ forall i, Z.testbit bits i = true -> is_id (base + i)
  | Sparse v => StronglySorted Z.lt v /\ Forall is_id v
  end.

Lemma iter_members s : wf s -> iter s = Some (members s).
Proof.
  destruct s as [bits base|v]; [|done]. intros (_ & Hb & _). cbn. rewrite bool_decide_eq_true_2; [done|].
  apply Forall_forall. intros i Hi%elem_of_seqZ. unfold is_id in Hb. lia.
Qed.

Lemma testbit_window bits i : 0 <= bits < 2 ^ 64 -> Z.testbit bits i = true -> 0 <= i < 64.
Proof.
  intros Hb Hi. destruct (Z.lt_ge_cases i 0) as [Hn|Hn]; [by rewrite Z.testbit_neg_r in Hi|]. split; [done|].
  destruct (Z.lt_ge_cases i 64) as [|Hge]; [done|]. exfalso. rewrite <- (Z.mod_small bits (2 ^ 64)) in Hi by done. by rewrite Z.mod_pow2_bits_high in Hi by lia.
Qed.

Lemma elem_of_members s x : wf s -> x ∈ members s <-> is_id x /\ contains s x = true.
Proof.
  destruct s as [bits base|v]; cbn.
  - intros (Hb & Hbase & Hw). rewrite list_elem_of_omap. unfold as_u32. split.
    + intros (i & Hi & E). destruct (Z.testbit bits i) eqn:Et; [|done]. injection E as <-. pose proof (testbit_window bits i Hb Et). specialize (Hw i Et).
      split; [done|]. replace (base + i - base) with i by lia. rewrite Z.mod_small by lia. rewrite Et, andb_true_r. lia.
    + intros [Hx [Hlt Ht]%andb_true_iff]. exists ((x - base) mod 2 ^ 32). apply Z.ltb_lt in Hlt. pose proof (Z.mod_pos_bound (x - base) (2 ^ 32) ltac:(lia)).
      split; [apply elem_of_seqZ; lia|]. rewrite Ht. f_equal. specialize (Hw _ Ht). unfold is_id in *.
      assert (Hx' : (base + (x - base) mod 2 ^ 32) mod 2 ^ 32 = x). { rewrite Zplus_mod_idemp_r. replace (base + (x - base)) with x by lia. apply Z.mod_small. lia. }
      rewrite Z.mod_small in Hx' by lia. exact Hx'.
  - intros [_ Hr]. rewrite Forall_forall in Hr. rewrite bool_decide_eq_true. split; [|tauto]. intros Hx. split; [by apply Hr|done].
Qed.

Lemma NoDup_members s : wf s -> NoDup (members s).
Proof.
  destruct s as [bits base|v]; cbn.
  - intros (Hb & Hbase & Hw). unfold window. pose proof (NoDup_seqZ 0 64) as Hnd. revert Hnd. generalize (seqZ 0 64). intros l Hnd.
    induction Hnd as [|i l Hi Hnd IH]; cbn; [constructor|]. destruct (Z.testbit bits i) eqn:Ei; [|done]. constructor; [|done].
    rewrite list_elem_of_omap. intros (j & Hj & E). destruct (Z.testbit bits j) eqn:Ej; [|done]. injection E as E.
    assert (i = j) as -> by lia. done.
  - intros [Hs _]. induction Hs as [|x v Hs IH Hx]; constructor; [|done]. rewrite Forall_forall in Hx. intros Hin. specialize (Hx x Hin). lia.
Qed.

Lemma elem_of_rvs s x : wf s -> x ∈ rvs s <-> is_id x /\ contains s x = true.
Proof. intros Hs. unfold rvs. by rewrite elem_of_list_to_set, elem_of_members. Qed.

(** ** Words and the bits set in them *)

(** The positions set in [z], among the lowest [n]. *)
Definition picked (n : nat) (z : Z) : list nat := filter (fun i => Z.testbit z (Z.of_nat i) = true) (seq 0 n).

Lemma picked_double n z : picked (S n) (2 * z) = S <$> picked n z.
Proof.
  unfold picked. cbn [seq]. rewrite filter_cons, decide_False by (by rewrite Z.testbit_even_0). rewrite <- fmap_S_seq.
  induction (seq 0 n) as [|i l IH]; [done|]. cbn [fmap list_fmap]. rewrite !filter_cons.
  rewrite Nat2Z.inj_succ, Z.testbit_even_succ by lia. case_decide; cbn; by rewrite IH.
Qed.
Lemma picked_double_1 n z : picked (S n) (2 * z + 1) = O :: (S <$> picked n z).
Proof.
  unfold picked. cbn [seq]. rewrite filter_cons, decide_True by (by rewrite Z.testbit_odd_0). f_equal. rewrite <- fmap_S_seq.
  induction (seq 0 n) as [|i l IH]; [done|]. cbn [fmap list_fmap]. rewrite !filter_cons.
  rewrite Nat2Z.inj_succ, Z.testbit_odd_succ by lia. case_decide; cbn; by rewrite IH.
Qed.
Lemma picked_0 n : picked n 0 = [].
Proof. unfold picked. induction (seq 0 n) as [|i l IH]; [done|]. rewrite filter_cons, decide_False by by rewrite Z.bits_0. done. Qed.

Lemma halve z n : 0 <= z < 2 ^ Z.of_nat (S n) -> exists q, 0 <= q < 2 ^ Z.of_nat n /\ (z = 2 * q \/ z = 2 * q + 1).
Proof.
  intros Hz. rewrite Nat2Z.inj_succ, Z.pow_succ_r in Hz by lia. exists (z / 2). pose proof (Z.div_mod z 2 ltac:(lia)). pose proof (Z.mod_pos_bound z 2 ltac:(lia)).
  split; [lia|]. assert (z mod 2 = 0 \/ z mod 2 = 1) as [?|?] by lia; [left|right]; lia.
Qed.

Lemma count_ones_double z : 0 <= z -> count_ones (2 * z) = count_ones z /\ count_ones (2 * z + 1) = S (count_ones z).
Proof. intros Hz. destruct z as [|p|p]; [done|done|lia]. Qed.

Lemma count_ones_picked n z : 0 <= z < 2 ^ Z.of_nat n -> count_ones z = length (picked n z).
Proof.
  revert z. induction n as [|n IH]; intros z Hz; [by replace z with 0 by (cbn in Hz; lia)|].
  destruct (halve z n Hz) as (q & Hq & [->| ->]); destruct (count_ones_double q) as [E1 E2]; [lia| |lia|].
  - by rewrite E1, picked_double, length_fmap, IH.
  - rewrite E2, picked_double_1. cbn. by rewrite length_fmap, IH.
Qed.

Lemma bits_bound z n : 0 <= n -> 0 <= z -> (forall i, n <= i -> Z.testbit z i = false) -> z < 2 ^ n.
Proof.
  intros Hn Hz H. assert (E : z = z mod 2 ^ n).
  { apply Z.bits_inj'. intros i Hi. destruct (Z.lt_ge_cases i n); [by rewrite Z.mod_pow2_bits_low|]. rewrite Z.mod_pow2_bits_high by lia. by apply H. }
  rewrite E. apply Z.mod_pos_bound. by apply Z.pow_pos_nonneg.
Qed.

(** ** Insertion *)

Lemma as_u32_sub x base : is_id x -> is_id base -> as_u32 (x - base) = if base <=? x then x - base else x - base + 2 ^ 32.
Proof.
  unfold is_id, as_u32. intros Hx Hb. destruct (Z.leb_spec base x); [apply Z.mod_small; lia|].
  symmetry. apply Z.mod_unique with (-1); lia.
Qed.

Lemma contains_single rv x : is_id rv -> is_id x -> contains (Inline 1 rv) x = true <-> x = rv.
Proof.
  intros Hr Hx. cbn. rewrite as_u32_sub by done. change 1 with (2 ^ 0). rewrite Z.pow2_bits_eqb by lia. unfold is_id in *.
  destruct (Z.leb_spec rv x); rewrite andb_true_iff, Z.ltb_lt, Z.eqb_eq; lia.
Qed.

Lemma contains_or bits base rv x : is_id base -> is_id rv -> is_id x -> base <= rv -> rv - base < 64 ->
  contains (Inline (Z.lor bits (Z.shiftl 1 (rv - base))) base) x = true <-> x = rv \/ contains (Inline bits base) x = true.
Proof.
  intros Hb Hr Hx Hle Hlt. cbn. rewrite Z.lor_spec, Z.shiftl_1_l, Z.pow2_bits_eqb, as_u32_sub by (done || lia). unfold is_id in *.
  rewrite !andb_true_iff, orb_true_iff, Z.ltb_lt, Z.eqb_eq. destruct (Z.leb_spec base x); split.
  - intros [? [?|?]]; [auto|left; lia].
  - intros [->|[? ?]]; [split; [lia|by right]|tauto].
  - intros [? [?|?]]; [auto|left; lia].
  - intros [->|[? ?]]; [lia|tauto].
Qed.

Lemma sorted_strict l : StronglySorted Z.le l -> NoDup l -> StronglySorted Z.lt l.
Proof.
  induction 1 as [|x l Hs IH Hx]; intros Hnd; constructor; apply NoDup_cons in Hnd as [Hn Hnd]; [by apply IH|].
  rewrite Forall_forall in Hx |- *. intros y Hy. specialize (Hx y Hy). assert (x <> y) by (intros ->; done). lia.
Qed.
Lemma dedup_strict l : StronglySorted Z.lt l -> dedup l = l.
Proof.
  induction 1 as [|x l Hs IH Hx]; [done|]. cbn. destruct l as [|y l]; [done|]. rewrite Forall_forall in Hx. specialize (Hx y (list_elem_of_here _ _)).
  destruct (Z.eqb_spec x y); [lia|]. by rewrite IH.
Qed.

Lemma insert_sorted rv v : StronglySorted Z.lt v -> rv ∉ v -> StronglySorted Z.lt (take (partition_point rv v) v ++ rv :: drop (partition_point rv v) v).
Proof.
  induction 1 as [|x v Hs IH Hx]; intros Hn; cbn; [repeat constructor|]. apply not_elem_of_cons in Hn as [Hne Hn]. destruct (Z.ltb_spec x rv).
  - cbn. constructor; [by apply IH|]. rewrite Forall_forall in Hx |- *. intros y Hy.
    rewrite elem_of_app, elem_of_cons in Hy. destruct Hy as [Hy|[->|Hy]]; [|lia|]; apply Hx; [by eapply subseteq_take|by eapply subseteq_drop].
  - cbn. constructor; [by constructor|]. rewrite Forall_forall in Hx |- *. intros y [->|Hy]%elem_of_cons; [lia|]. specialize (Hx y Hy). lia.
Qed.

Lemma rv_insert_spec s rv : wf s -> is_id rv ->
  exists s', insert s rv = Some s' /\ wf s' /\ forall x, is_id x -> contains s' x = true <-> x = rv \/ contains s x = true.
Proof.
  intros Hs Hr. unfold insert. destruct (contains s rv) eqn:Ec; [exists s; split; [done|split; [done|]]; intros x Hx; split; [auto|intros [->|?]; done]|].
  assert (Hit : rv ∉ members s) by (rewrite elem_of_members by done; intros [_ ?]; congruence).
  destruct s as [bits base|v].
  - pose proof Hs as (Hb & Hbase & Hw). destruct (Z.eqb_spec bits 0) as [->|Hne].
    { eexists. split; [done|]. split; [|intros x Hx; rewrite contains_single by done; cbn; rewrite Z.bits_0, andb_false_r; naive_solver].
      split; [lia|]. split; [done|]. intros i. change 1 with (2 ^ 0). rewrite Z.pow2_bits_eqb, Z.eqb_eq by lia. intros <-. by rewrite Z.add_0_r. }
    destruct ((base <=? rv) && (rv - base <? 64)) eqn:Ew.
    + apply andb_true_iff in Ew as [Hle%Z.leb_le Hlt%Z.ltb_lt]. eexists. split; [done|]. split; [|intros x Hx; by apply contains_or].
      assert (Hsh : forall i, Z.testbit (Z.lor bits (Z.shiftl 1 (rv - base))) i = true -> Z.testbit bits i = true \/ i = rv - base).
      { intros i. rewrite Z.lor_spec, Z.shiftl_1_l, Z.pow2_bits_eqb, orb_true_iff, Z.eqb_eq by lia. intros [?|?]; auto. }
      split; [split|split; [done|]].
      * apply Z.lor_nonneg. split; [lia|]. rewrite Z.shiftl_1_l. apply Z.pow_nonneg. lia.
      * apply bits_bound; [lia| |].
        { apply Z.lor_nonneg. split; [lia|]. rewrite Z.shiftl_1_l. apply Z.pow_nonneg. lia. }
        intros i Hi. destruct (Z.testbit _ i) eqn:E; [|done]. apply Hsh in E as [E|E]; [apply (testbit_window bits i Hb) in E|]; lia.
      * intros i [E|E]%Hsh; [by apply Hw|]. subst i. by replace (base + (rv - base)) with rv by lia.
    + rewrite (iter_members _ Hs). cbn [mbind option_bind]. eexists. split; [done|]. assert (Hnd : NoDup (merge_sort Z.le (members (Inline bits base) ++ [rv]))).
      { rewrite merge_sort_Permutation. apply NoDup_app. split_and!; [by apply NoDup_members| |apply NoDup_singleton]. intros x Hx ->%list_elem_of_singleton. done. }
      assert (Hst : StronglySorted Z.lt (merge_sort Z.le (members (Inline bits base) ++ [rv]))) by (apply sorted_strict; [apply StronglySorted_merge_sort; apply _|done]).
      rewrite dedup_strict by done. assert (Hin : forall x, x ∈ merge_sort Z.le (members (Inline bits base) ++ [rv]) <-> x ∈ members (Inline bits base) \/ x = rv).
      { intros x. by rewrite merge_sort_Permutation, elem_of_app, list_elem_of_singleton. }
      split; [split; [done|]|].
      * apply Forall_forall. intros x [Hx| ->]%Hin; [by apply (elem_of_members _ x Hs) in Hx as [? _]|done].
      * intros x Hx. change (contains (Sparse ?l) x) with (bool_decide (x ∈ l)). rewrite bool_decide_eq_true, Hin, (elem_of_members _ x Hs). tauto.
  - destruct Hs as [Hst Hr']. cbn in Ec. apply bool_decide_eq_false in Ec. eexists. split; [done|]. split; [split; [by apply insert_sorted|]|].
    + rewrite Forall_forall in Hr' |- *. intros x [Hx|[->|Hx]%elem_of_cons]%elem_of_app; [| done|]; apply Hr'; [by eapply subseteq_take|by eapply subseteq_drop].
    + intros x Hx. cbn. rewrite !bool_decide_eq_true, elem_of_app, elem_of_cons. assert (Hv : x ∈ v <-> x ∈ take (partition_point rv v) v \/ x ∈ drop (partition_point rv v) v) by by rewrite <- elem_of_app, take_drop.
      rewrite Hv. tauto.
Qed.

(** ** The operations on sets *)

Lemma wf_empty : wf empty.
Proof. cbn. split; [lia|]. unfold is_id at 1. split; [lia|]. intros i. by rewrite Z.bits_0. Qed.
Lemma rvs_empty : rvs empty = ∅.
Proof. apply set_eq. intros x. rewrite elem_of_rvs by apply wf_empty. cbn. rewrite Z.bits_0, andb_false_r. set_solver. Qed.
Lemma single_spec rv : is_id rv -> wf (single rv) /\ rvs (single rv) = {[rv]}.
Proof.
  intros Hr. assert (Hw : wf (single rv)).
  { split; [lia|]. split; [done|]. intros i. change 1 with (2 ^ 0). rewrite Z.pow2_bits_eqb, Z.eqb_eq by lia. intros <-. by rewrite Z.add_0_r. }
  split; [done|]. apply set_eq. intros x. rewrite elem_of_rvs, elem_of_singleton by done. split; [intros [? ?]; by apply contains_single|].
  intros ->. split; [done|]. by apply contains_single.
Qed.
Lemma insert_rvs s rv : wf s -> is_id rv -> exists s', insert s rv = Some s' /\ wf s' /\ rvs s' = {[rv]} ∪ rvs s.
Proof.
  intros Hs Hr. destruct (rv_insert_spec s rv Hs Hr) as (s' & E & Hw & H). exists s'. split; [done|]. split; [done|]. apply set_eq. intros x.
  rewrite elem_of_union, elem_of_singleton, !elem_of_rvs by done. split; [intros [Hx Hc]; apply H in Hc; tauto|].
  intros [->|[Hx Hc]]; (split; [done|]; apply H; auto).
Qed.

Lemma insert_each_spec l : Forall is_id l -> forall a, wf a -> exists u, insert_each a l = Some u /\ wf u /\ rvs u = rvs a ∪ list_to_set l.
Proof.
  induction 1 as [|x l Hx _ IH]; intros a Ha; cbn [insert_each list_to_set]; [exists a; split_and!; [done|done|set_solver]|].
  destruct (insert_rvs a x Ha Hx) as (a' & -> & Hw & E). cbn [mbind option_bind]. destruct (IH a' Hw) as (u & -> & Hu & Eu).
  exists u. split_and!; [done|done|]. rewrite Eu, E. cbn. set_solver.
Qed.

Lemma union_spec a b : wf a -> wf b -> exists u, union a b = Some u /\ wf u /\ rvs u = rvs a ∪ rvs b.
Proof.
  intros Ha Hb. unfold union. rewrite (iter_members b Hb). cbn [mbind option_bind]. apply insert_each_spec; [|done].
  apply Forall_forall. intros x [? _]%(elem_of_members b x Hb). done.
Qed.

Lemma is_empty_spec s : wf s -> is_empty s = true <-> rvs s = ∅.
Proof.
  intros Hs. destruct s as [bits base|v]; cbn [is_empty].
  - rewrite Z.eqb_eq. split; [intros ->; unfold rvs; cbn; set_solver|]. intros E. destruct Hs as (Hb & Hbase & Hw). apply Z.bits_inj'. intros i Hi. rewrite Z.bits_0.
    destruct (Z.testbit bits i) eqn:Ei; [|done]. pose proof (testbit_window bits i Hb Ei). specialize (Hw i Ei).
    assert (Hin : base + i ∈ rvs (Inline bits base)).
    { unfold rvs. apply elem_of_list_to_set, list_elem_of_omap. exists i. rewrite Ei. split; [apply elem_of_seqZ; lia|done]. }
    rewrite E in Hin. by apply elem_of_empty in Hin.
  - rewrite bool_decide_eq_true. unfold rvs. cbn. split; [by intros ->|]. intros E. apply elem_of_nil_inv. intros x Hx. assert (Hx' : x ∈ (list_to_set v : gset Z)) by by apply elem_of_list_to_set. rewrite E in Hx'. by apply elem_of_empty in Hx'.
Qed.

Lemma len_spec s : wf s -> len s = size (rvs s).
Proof.
  intros Hs. unfold rvs. rewrite size_list_to_set by by apply NoDup_members. destruct s as [bits base|v]; [|done]. destruct Hs as (Hb & _ & _). cbn [len].
  rewrite (count_ones_picked 64) by done. unfold picked. cbn [members]. unfold window, seqZ. change (Z.to_nat 64) with 64%nat.
  induction (seq 0 64) as [|i l IH]; [done|]. rewrite filter_cons. cbn [fmap list_fmap omap list_omap]. rewrite Z.add_0_r.
  destruct (Z.testbit bits (Z.of_nat i)) eqn:Ei; [rewrite decide_True by done; cbn [length]; by rewrite IH|].
  rewrite decide_False by done. done.
Qed.

Lemma is_subset_of_spec a b : wf a -> wf b -> exists r, is_subset_of a b = Some r /\ (r = true <-> rvs a ⊆ rvs b).
Proof.
  intros Ha Hb. unfold is_subset_of. rewrite (iter_members a Ha). eexists. split; [reflexivity|]. rewrite forallb_forall. setoid_rewrite <- list_elem_of_In. split.
  - intros H x Hx. unfold rvs in Hx. apply elem_of_list_to_set in Hx. pose proof Hx as [? _]%(elem_of_members a x Ha). apply elem_of_rvs; auto.
  - intros H x Hx. assert (Hx' : x ∈ rvs a) by by apply elem_of_list_to_set. apply H, elem_of_rvs in Hx' as [_ ?]; done.
Qed.

Lemma intersect_any_spec a b : wf a -> wf b -> exists r, intersect_any a b = Some r /\ (r = true <-> exists x, x ∈ rvs a /\ x ∈ rvs b).
Proof.
  intros Ha Hb. assert (Hgen : existsb (contains b) (members a) = true <-> exists x, x ∈ rvs a /\ x ∈ rvs b).
  { rewrite existsb_exists. setoid_rewrite <- list_elem_of_In. split.
    - intros (x & Hx & Hc). exists x. split; [by apply elem_of_list_to_set|]. pose proof Hx as [? _]%(elem_of_members a x Ha). by apply elem_of_rvs.
    - intros (x & Hx & Hc). exists x. unfold rvs in Hx. apply elem_of_list_to_set in Hx. split; [done|]. by apply elem_of_rvs in Hc as [_ ?]. }
  assert (Hlist : exists r, (existsb (contains b) <$> iter a) = Some r /\ (r = true <-> exists x, x ∈ rvs a /\ x ∈ rvs b)).
  { rewrite (iter_members a Ha). eexists. split; [reflexivity|exact Hgen]. }
  destruct a as [ba ea|va], b as [bb eb|vb]; try exact Hlist. cbn [intersect_any]. destruct (Z.eqb_spec ea eb) as [->|_]; [|exact Hlist].
  eexists. split; [reflexivity|]. clear Hgen Hlist.
  rewrite negb_true_iff, Z.eqb_neq. pose proof Ha as (Hba & He & Hwa). pose proof Hb as (Hbb & _ & Hwb). split.
  - intros Hne. assert (Hpos : 0 <= Z.land ba bb) by (apply Z.land_nonneg; lia). pose proof (Z.bit_log2 (Z.land ba bb) ltac:(lia)) as Hbit.
    rewrite Z.land_spec in Hbit. apply andb_true_iff in Hbit as [H1 H2]. pose proof (testbit_window _ _ Hba H1) as Hi. set (i := Z.log2 _) in *.
    exists (eb + i). split; (unfold rvs; apply elem_of_list_to_set, list_elem_of_omap; exists i; rewrite ?H1, ?H2; split; [apply elem_of_seqZ; lia|done]).
  - intros (x & [Hx H1]%elem_of_rvs & [_ H2]%elem_of_rvs) E; [|done..]. cbn in H1, H2. apply andb_true_iff in H1 as [_ H1], H2 as [_ H2].
    assert (Z.testbit (Z.land ba bb) (as_u32 (x - eb)) = true) by (by rewrite Z.land_spec, H1, H2). rewrite E, Z.bits_0 in *. done.
Qed.

(** ** Sets built by the operations *)

(** The representation [s] was built by operations that would build [X]. *)
Inductive built : BaseRvSet -> gset Z -> Prop :=
| built_empty : built empty ∅
| built_single rv : is_id rv -> built (single rv) {[rv]}
| built_insert s X rv s' : built s X -> is_id rv -> insert s rv = Some s' -> built s' ({[rv]} ∪ X)
| built_union a b X Y u : built a X -> built b Y -> union a b = Some u -> built u (X ∪ Y).

Lemma built_wf s X : built s X -> wf s /\ rvs s = X.
Proof.
  induction 1 as [|rv Hr|s X rv s' _ [Hw <-] Hr E|a b X Y u _ [Ha <-] _ [Hb <-] E].
  - split; [apply wf_empty|apply rvs_empty].
  - by apply single_spec.
  - destruct (insert_rvs s rv Hw Hr) as (? & E' & ? & ?). rewrite E in E'. by injection E' as <-.
  - destruct (union_spec a b Ha Hb) as (? & E' & ? & ?). rewrite E in E'. by injection E' as <-.
Qed.

(** On identifiers below 2^32 - 63 no operation overflows, and a representation
    answers as the set it was built as: insertion and union, membership, size,
    emptiness, its elements each once, overlap and inclusion. *)
Theorem rv_sets_refine_sets a b X Y : built a X -> built b Y ->
  (forall rv, is_id rv -> (contains a rv = true <-> rv ∈ X) /\ exists s, insert a rv = Some s /\ built s ({[rv]} ∪ X))
  /\ (exists u, union a b = Some u /\ built u (X ∪ Y)) /\ len a = size X /\ (is_empty a = true <-> X = ∅)
  /\ (exists l, iter a = Some l /\ NoDup l /\ forall rv, rv ∈ l <-> rv ∈ X)
  /\ (exists r, intersect_any a b = Some r /\ (r = true <-> exists rv, rv ∈ X /\ rv ∈ Y))
  /\ (exists r, is_subset_of a b = Some r /\ (r = true <-> X ⊆ Y)).
Proof.
  intros Ba Bb. destruct (built_wf a X Ba) as [Ha <-], (built_wf b Y Bb) as [Hb <-]. split_and!.
  - intros rv Hr. split; [rewrite elem_of_rvs by done; tauto|]. destruct (insert_rvs a rv Ha Hr) as (s & E & _). exists s. split; [done|]. by eapply built_insert.
  - destruct (union_spec a b Ha Hb) as (u & E & _). exists u. split; [done|]. by eapply built_union.
  - by apply len_spec.
  - by apply is_empty_spec.
  - exists (members a). split; [by apply iter_members|]. split; [by apply NoDup_members|]. intros rv. unfold rvs. by rewrite elem_of_list_to_set.
  - by apply intersect_any_spec.
  - by apply is_subset_of_spec.
Qed.

(** Witness: a set that spilled to a vector. *)
Lemma rv_sets_witness : built (Sparse [3; 5]) {[3; 5]} /\ contains (Sparse [3; 5]) 3 = true /\ len (Sparse [3; 5]) = 2%nat.
Proof.
  assert (Ha : built (Sparse [3; 5]) ({[3]} ∪ {[5]})) by (apply (built_insert (single 5)); [apply built_single|..]; [unfold is_id; lia|unfold is_id; lia|reflexivity]).
  destruct (rv_sets_refine_sets _ _ _ _ Ha Ha) as (Hc & _ & Hl & _). split; [exact Ha|]. split; [apply (Hc 3); [unfold is_id; lia|set_solver]|]. rewrite Hl. reflexivity.
Defined.

(** The representation depends on the order of the insertions, so equal sets
    compare unequal. *)
Theorem representation_not_canonical :
  insert (single 5) 3 = Some (Sparse [3; 5]) /\ insert (single 3) 5 = Some (Inline 5 3) /\ rvs (Sparse [3; 5]) = rvs (Inline 5 3)
  /\ union (single 5) (single 3) <> union (single 3) (single 5).
Proof. split; [reflexivity|]. split; [reflexivity|]. split; [vm_compute; reflexivity|]. vm_compute. discriminate. Qed.

(** With overflow checks, listing a set whose window passes the last identifier
    panics. *)
Theorem last_window_panics rv : 2 ^ 32 - 64 < rv -> iter (single rv) = None.
Proof.
  intros Hlt. unfold single, iter. rewrite bool_decide_eq_false_2; [done|]. rewrite Forall_forall. intros H. specialize (H 63). cbn beta in H.
  assert (63 ∈ window) as Hw by (apply elem_of_seqZ; lia). specialize (H Hw). lia.
Qed.
