(* ===== verification/Dnf.v ===== *)
(** * Weights of dependency formulas

    [DependencyDnf] of crates/uni-locy/src/dependency_dnf.rs: a disjunction of
    sets of random variables and its weight by inclusion-exclusion, over any
    arithmetic ([Arith]): [f64_arith] is what the code runs, [exact_arith] what
    the probability is stated in.  [None] is a panic (overflow and debug
    assertions on) or the end of the fuel. *)

From Stdlib Require Import SpecFloat QArith.QArith_base QArith.Qcanon.
From S2P Require Import Prelude Arith RvSet.
#[local] Open Scope Z_scope.

Record DependencyDnf := mkDnf { clauses : list BaseRvSet }.

Definition dnf_new : DependencyDnf := mkDnf [].
Definition single_clause (clause : BaseRvSet) : DependencyDnf := mkDnf [clause].
Definition or_with (self other : DependencyDnf) : DependencyDnf := mkDnf (clauses self ++ clauses other).
Definition and_with (self other : DependencyDnf) : option DependencyDnf :=
  rows ← mapM (fun a => mapM (fun b => union a b) (clauses other)) (clauses self);
  Some (mkDnf (concat rows)).

Section weights.
  Context {F : Type} `{A : Arith F} (base_weights : gmap Z F).

(** A variable without a marginal fails the [debug_assert]. *)
Fixpoint product (p : F) (rvs : list Z) : option F :=
  match rvs with
  | [] => Some p
  | rv :: rvs => w ← base_weights !! rv; product (mul p w) rvs
  end.
Definition clause_weight (clause : BaseRvSet) : option F :=
  if is_empty clause then Some one else l ← iter clause; product one l.

(** [u32::trailing_zeros] *)
Fixpoint ctz (p : positive) : nat := match p with xO p => S (ctz p) | _ => O end.
Definition trailing_zeros (z : Z) : nat := match z with Zpos p => ctz p | _ => 32%nat end.

(** The union of the clauses selected by the bits of a mask. *)
Fixpoint select (fuel : nat) (cs : list BaseRvSet) (bits : Z) (acc : BaseRvSet) : option BaseRvSet :=
  if bits =? 0 then Some acc
  else
    match fuel with
    | O => None
    | S fuel => c ← cs !! trailing_zeros bits; u ← union acc c; select fuel cs (Z.land bits (bits - 1)) u
    end.

Fixpoint sum_masks (cs : list BaseRvSet) (masks : list Z) (acc : F) : option F :=
  match masks with
  | [] => Some acc
  | mask :: masks =>
      u ← select 32 cs mask empty;
      p ← clause_weight u;
      let sign := if Nat.odd (count_ones mask) then one else opp one in
      sum_masks cs masks (add acc (mul sign p))
  end.

(** The product of the complements of the clauses. *)
Fixpoint complements (complement : F) (cs : list BaseRvSet) : option F :=
  match cs with
  | [] => Some complement
  | c :: cs => p ← clause_weight c; complements (mul complement (sub one p)) cs
  end.
Definition noisy_or (cs : list BaseRvSet) : option F := complement ← complements one cs; Some (sub one complement).

Definition weight (d : DependencyDnf) : option F :=
  match clauses d with
  | [] => Some zero
  | cs =>
      let n := length cs in
      if (24 <? n)%nat then noisy_or cs
      else acc ← sum_masks cs (seqZ 1 (2 ^ Z.of_nat n - 1)) zero; Some (clamp acc)
  end.
End weights.

(** ** Masks *)

Lemma picked_lowest n z : 0 < z < 2 ^ Z.of_nat n -> picked n z = trailing_zeros z :: picked n (Z.land z (z - 1)).
Proof.
  revert z. induction n as [|n IH]; intros z Hz; [cbn in Hz; lia|]. destruct (halve z n) as (q & Hq & [->| ->]); [lia| |].
  - replace (Z.land (2 * q) (2 * q - 1)) with (2 * Z.land q (q - 1)).
    2:{ apply Z.bits_inj'. intros i Hi. rewrite Z.land_spec. replace (2 * q - 1) with (2 * (q - 1) + 1) by lia.
        destruct (Z.eq_dec i 0) as [->|Hn]; [by rewrite !Z.testbit_even_0|]. replace i with (Z.succ (i - 1)) by lia.
        rewrite !Z.testbit_even_succ, Z.testbit_odd_succ, Z.land_spec by lia. done. }
    rewrite !picked_double, IH by lia. cbn [fmap list_fmap]. f_equal. destruct q; [lia|done|lia].
  - replace (Z.land (2 * q + 1) (2 * q + 1 - 1)) with (2 * q).
    2:{ apply Z.bits_inj'. intros i Hi. rewrite Z.land_spec. replace (2 * q + 1 - 1) with (2 * q) by lia.
        destruct (Z.eq_dec i 0) as [->|Hn]; [by rewrite !Z.testbit_even_0, andb_false_r|]. replace i with (Z.succ (i - 1)) by lia.
        rewrite !Z.testbit_even_succ, Z.testbit_odd_succ by lia. by rewrite andb_diag. }
    rewrite picked_double, picked_double_1. f_equal. destruct q; [done|done|lia].
Qed.

Lemma picked_low n z : 0 <= z < 2 ^ Z.of_nat n -> picked (S n) z = picked n z.
Proof.
  intros Hz. unfold picked. rewrite seq_S, filter_app, filter_cons, decide_False; [by rewrite filter_nil, app_nil_r|].
  rewrite <- (Z.mod_small z (2 ^ Z.of_nat n)) by done. rewrite Z.mod_pow2_bits_high by lia. done.
Qed.
Lemma picked_high n z : 0 <= z < 2 ^ Z.of_nat n -> picked (S n) (2 ^ Z.of_nat n + z) = picked n z ++ [n].
Proof.
  intros Hz. assert (Hor : 2 ^ Z.of_nat n + z = Z.lor (2 ^ Z.of_nat n) z).
  { rewrite <- Z.lxor_lor, Z.add_nocarry_lxor; [done| |].
    all: apply Z.bits_inj'; intros i Hi; rewrite Z.land_spec, Z.bits_0, Z.pow2_bits_eqb by lia; destruct (Z.eqb_spec (Z.of_nat n) i) as [<-|]; [|done].
    all: rewrite <- (Z.mod_small z (2 ^ Z.of_nat n)) by done; by rewrite Z.mod_pow2_bits_high by lia. }
  rewrite Hor. unfold picked. rewrite seq_S, filter_app. f_equal.
  - assert (Hall : Forall (fun i => (i < n)%nat) (seq 0 n)) by (apply Forall_forall; intros i ?%elem_of_seq; lia).
    induction Hall as [|i l Hi _ IH]; [done|]. rewrite !filter_cons, IH. rewrite Z.lor_spec, Z.pow2_bits_eqb by lia.
    destruct (Z.eqb_spec (Z.of_nat n) (Z.of_nat i)); [lia|]. done.
  - rewrite filter_cons, decide_True; [done|]. by rewrite Z.lor_spec, Z.pow2_bits_eqb, Z.eqb_refl by lia.
Qed.

(** ** The union of the selected clauses *)

Definition clause_at (cs : list BaseRvSet) (i : nat) : gset Z := default ∅ (rvs <$> cs !! i).
Definition picked_rvs (cs : list BaseRvSet) (l : list nat) : gset Z := ⋃ (clause_at cs <$> l).

Lemma select_spec cs fuel bits acc : Forall wf cs -> wf acc -> 0 <= bits < 2 ^ Z.of_nat (length cs) -> (length (picked (length cs) bits) <= fuel)%nat ->
  exists u, select fuel cs bits acc = Some u /\ wf u /\ rvs u = rvs acc ∪ picked_rvs cs (picked (length cs) bits).
Proof.
  intros Hcs. revert bits acc. induction fuel as [|fuel IH]; intros bits acc Ha Hb Hl; cbn [select].
  - destruct (Z.eqb_spec bits 0) as [->|Hn]; [exists acc; rewrite picked_0; split_and!; [done|done|by cbn; rewrite (right_id_L ∅ (∪))]|].
    rewrite picked_lowest in Hl by lia. cbn in Hl. lia.
  - destruct (Z.eqb_spec bits 0) as [->|Hn]; [exists acc; rewrite picked_0; split_and!; [done|done|by cbn; rewrite (right_id_L ∅ (∪))]|].
    pose proof (picked_lowest (length cs) bits ltac:(lia)) as Ep. rewrite Ep in *. cbn in Hl.
    assert (Hin : trailing_zeros bits ∈ picked (length cs) bits) by (rewrite Ep; by left).
    unfold picked in Hin. apply list_elem_of_filter in Hin as [_ Hin%elem_of_seq].
    destruct (lookup_lt_is_Some_2 cs (trailing_zeros bits)) as [c Hc]; [lia|]. rewrite Hc. cbn [mbind option_bind].
    assert (Hwc : wf c) by (rewrite Forall_forall in Hcs; by eapply Hcs, list_elem_of_lookup_2). destruct (union_spec acc c Ha Hwc) as (uc & -> & Hwu & Eu). cbn [mbind option_bind].
    assert (Hle : 0 <= Z.land bits (bits - 1) < 2 ^ Z.of_nat (length cs)).
    { split; [apply Z.land_nonneg; lia|]. apply bits_bound; [lia|apply Z.land_nonneg; lia|]. intros i Hi.
      rewrite Z.land_spec, <- (Z.mod_small bits (2 ^ Z.of_nat (length cs))) by done. by rewrite Z.mod_pow2_bits_high by lia. }
    destruct (IH (Z.land bits (bits - 1)) uc) as (u & Es & Hw & Hr); [done|lia|lia|]. exists u. split_and!; [done|done|].
    rewrite Hr, Eu. unfold picked_rvs. cbn. unfold clause_at at 2. rewrite Hc. cbn. by rewrite (assoc_L (∪)).
Qed.

(** ** Probabilities *)

Section probability.
  Context (w : Z -> Qc).
  #[local] Open Scope Qc_scope.
  Implicit Types (X T : gset Z) (U : list Z) (f g : gset Z -> Qc).

(** The mean of [f] over the sets of true variables: each variable of [U] is
    true with its probability, independently; those of [T] are true. *)
Fixpoint expect U f T : Qc :=
  match U with [] => f T | rv :: U => w rv * expect U f ({[rv]} ∪ T) + (1 - w rv) * expect U f T end.
Definition ind (P : Prop) `{Decision P} : Qc := if decide P then 1 else 0.
(** The probability that all of [X] are true. *)
Definition weight_of X : Qc := foldr (fun rv p => w rv * p) 1 (elements X).

Lemma product_perm l1 l2 : l1 ≡ₚ l2 -> foldr (fun rv p => w rv * p) 1 l1 = foldr (fun rv p => w rv * p) 1 l2.
Proof. induction 1; cbn; [done|by f_equal|ring|congruence]. Qed.
Lemma weight_of_insert rv X : rv ∉ X -> weight_of ({[rv]} ∪ X) = w rv * weight_of X.
Proof. intros H. unfold weight_of. by rewrite (product_perm _ _ (elements_union_singleton X rv H)). Qed.
Lemma weight_of_empty : weight_of ∅ = 1.
Proof. unfold weight_of. by rewrite elements_empty. Qed.

Lemma expect_ext U f g T : (forall T, f T = g T) -> expect U f T = expect U g T.
Proof. intros H. revert T. induction U as [|rv U IH]; intros T; cbn; [apply H|]. by rewrite !IH. Qed.
Lemma expect_plus U f g T : expect U (fun T => f T + g T) T = expect U f T + expect U g T.
Proof. revert T. induction U as [|rv U IH]; intros T; cbn; [done|]. rewrite !IH. ring. Qed.
Lemma expect_scale U a f T : expect U (fun T => a * f T) T = a * expect U f T.
Proof. revert T. induction U as [|rv U IH]; intros T; cbn; [done|]. rewrite !IH. ring. Qed.
Lemma expect_const U a T : expect U (fun _ => a) T = a.
Proof. revert T. induction U as [|rv U IH]; intros T; cbn; [done|]. rewrite !IH. ring. Qed.

Lemma expect_unreachable U X T rv : rv ∈ X -> rv ∉ T -> rv ∉ U -> expect U (fun T => ind (X ⊆ T)) T = 0.
Proof.
  intros HX. revert T. induction U as [|x U IH]; intros T HT HU; cbn; [unfold ind; rewrite decide_False; [done|set_solver]|].
  apply not_elem_of_cons in HU as [Hne HU]. rewrite !IH; [ring|done|done| |done]. rewrite elem_of_union, elem_of_singleton. tauto.
Qed.

Lemma expect_subset U X T : NoDup U -> (forall x, x ∈ U -> x ∉ T) -> (forall x, x ∈ X -> x ∈ T \/ x ∈ U) -> expect U (fun T => ind (X ⊆ T)) T = weight_of (X ∖ T).
Proof.
  intros Hnd. revert T. induction Hnd as [|rv U Hrv Hnd IH]; intros T HT HX; cbn.
  - unfold ind. assert (HXT : X ⊆ T) by (intros x Hx; destruct (HX x Hx) as [?|?%elem_of_nil]; done). rewrite decide_True by done.
    replace (X ∖ T) with (∅ : gset Z) by set_solver. by rewrite weight_of_empty.
  - assert (HrT : rv ∉ T) by (apply HT; by left). assert (HT1 : forall x, x ∈ U -> x ∉ ({[rv]} ∪ T)).
    { intros x Hx [->%elem_of_singleton|?]%elem_of_union; [done|]. by apply (HT x); [right|]. }
    rewrite (IH ({[rv]} ∪ T) HT1); [|intros x Hx; destruct (HX x Hx) as [?|[->|?]%elem_of_cons]; set_solver].
    destruct (decide (rv ∈ X)) as [Hin|Hin].
    + rewrite (expect_unreachable U X T rv) by done. replace (X ∖ T) with ({[rv]} ∪ X ∖ ({[rv]} ∪ T)).
      * rewrite weight_of_insert by set_solver. ring.
      * apply set_eq. intros x. rewrite elem_of_union, !elem_of_difference, elem_of_union, elem_of_singleton. destruct (decide (x = rv)) as [->|]; tauto.
    + rewrite (IH T); [|intros x Hx; apply HT; by right|intros x Hx; destruct (HX x Hx) as [?|[->|?]%elem_of_cons]; [by left|done|by right]].
      replace (X ∖ ({[rv]} ∪ T)) with (X ∖ T) by (apply set_eq; intros x; rewrite !elem_of_difference, elem_of_union, elem_of_singleton; naive_solver). ring.
Qed.

Lemma expect_range U f T : (forall rv, 0 <= w rv /\ w rv <= 1) -> (forall T, 0 <= f T /\ f T <= 1) -> 0 <= expect U f T /\ expect U f T <= 1.
Proof.
  intros Hw Hf. revert T. induction U as [|rv U IH]; intros T; cbn; [apply Hf|]. destruct (Hw rv) as [W0 W1], (IH ({[rv]} ∪ T)) as [A0 A1], (IH T) as [B0 B1].
  assert (W2 : 0 <= 1 - w rv) by (by apply Qcle_minus_iff in W1). split.
  - replace 0 with (0 * w rv + 0 * (1 - w rv)) by ring. rewrite (Qcmult_comm (w rv)), (Qcmult_comm (1 - w rv)). apply Qcplus_le_compat; by apply Qcmult_le_compat_r.
  - replace 1 with (1 * w rv + 1 * (1 - w rv)) at 2 by ring. rewrite (Qcmult_comm (w rv)), (Qcmult_comm (1 - w rv)). apply Qcplus_le_compat; by apply Qcmult_le_compat_r.
Qed.

(** ** Inclusion and exclusion *)

Definition qsum (h : Z -> Qc) (l : list Z) : Qc := foldr (fun m s => h m + s) 0 l.
Lemma qsum_app h l1 l2 : qsum h (l1 ++ l2) = qsum h l1 + qsum h l2.
Proof. unfold qsum. induction l1 as [|m l1 IH]; cbn; [ring|]. rewrite IH. ring. Qed.
Lemma qsum_ext h h' l : (forall m, m ∈ l -> h m = h' m) -> qsum h l = qsum h' l.
Proof. unfold qsum. intros H. induction l as [|m l IH]; cbn; [done|]. rewrite H by by left. rewrite IH; [done|]. intros; apply H; by right. Qed.
Lemma expect_qsum U (h : Z -> gset Z -> Qc) l T : expect U (fun T => qsum (fun m => h m T) l) T = qsum (fun m => expect U (h m) T) l.
Proof. unfold qsum. induction l as [|m l IH]; cbn; [apply expect_const|]. by rewrite expect_plus, IH. Qed.

(** The terms of the product of [1 - a i]. *)
Definition term (a : nat -> Qc) (l : list nat) : Qc := foldr (fun i p => - a i * p) 1 l.
Lemma term_app a l1 l2 : term a (l1 ++ l2) = term a l1 * term a l2.
Proof. unfold term. induction l1 as [|i l1 IH]; cbn; [ring|]. rewrite IH. ring. Qed.

Lemma expand_product a n : qsum (fun m => term a (picked n m)) (seqZ 0 (2 ^ Z.of_nat n)) = foldr (fun i p => (1 - a i) * p) 1 (seq 0 n).
Proof.
  induction n as [|n IH]; [reflexivity|]. assert (H2 : (0 < 2 ^ Z.of_nat n)%Z) by (apply Z.pow_pos_nonneg; lia).
  replace (2 ^ Z.of_nat (S n))%Z with (2 ^ Z.of_nat n + 2 ^ Z.of_nat n)%Z by (rewrite Nat2Z.inj_succ, Z.pow_succ_r by lia; lia).
  rewrite seqZ_app, qsum_app, Z.add_0_l by lia. rewrite <- (Z.add_0_r (2 ^ Z.of_nat n)) at 2. rewrite <- fmap_add_seqZ.
  assert (E1 : qsum (fun m => term a (picked (S n) m)) (seqZ 0 (2 ^ Z.of_nat n)) = qsum (fun m => term a (picked n m)) (seqZ 0 (2 ^ Z.of_nat n))).
  { apply qsum_ext. intros m Hm%elem_of_seqZ. by rewrite picked_low by lia. }
  assert (E2 : qsum (fun m => term a (picked (S n) m)) (Z.add (2 ^ Z.of_nat n) <$> seqZ 0 (2 ^ Z.of_nat n)) = - a n * qsum (fun m => term a (picked n m)) (seqZ 0 (2 ^ Z.of_nat n))).
  { assert (Hall : Forall (fun m => (0 <= m < 2 ^ Z.of_nat n)%Z) (seqZ 0 (2 ^ Z.of_nat n))) by (apply Forall_forall; intros m ?%elem_of_seqZ; lia).
    clear IH E1. unfold qsum. induction Hall as [|m l Hm _ IHl]; cbn [fmap list_fmap foldr]; [ring|]. rewrite picked_high, term_app by done. rewrite IHl. unfold term at 2. cbn [foldr]. ring. }
  rewrite E1, E2, IH, seq_S, foldr_app. cbn. generalize (a n). intros q. clear. induction (seq 0 n) as [|i l IHl]; cbn; [ring|].
  transitivity ((1 - a i) * (foldr (fun i p => (1 - a i) * p) 1 l + - q * foldr (fun i p => (1 - a i) * p) 1 l)); [ring|]. rewrite IHl. ring.
Qed.
End probability.

(** ** The weight is the probability *)

Section exact.
  Context (base_weights : gmap Z Qc).
  #[local] Open Scope Qc_scope.
(** The probability of a variable. *)
Definition marginal (rv : Z) : Qc := default 1 (base_weights !! rv).
  Abbreviation w := marginal.
  Implicit Types (cs : list BaseRvSet) (T : gset Z).

(** Some clause has all its variables true. *)
Definition holds cs T : Prop := Exists (fun c => rvs c ⊆ T) cs.
#[local] Instance holds_dec cs T : Decision (holds cs T).
Proof. unfold holds. apply _. Defined.

(** The probability of the formula, with independent variables. *)
Definition probability (d : DependencyDnf) : Qc :=
  expect w (elements (⋃ (rvs <$> clauses d))) (fun T => ind (holds (clauses d) T)) ∅.

(** Every variable has a probability. *)
Definition weighted (X : gset Z) : Prop := forall rv, rv ∈ X -> exists q, base_weights !! rv = Some q /\ 0 <= q /\ q <= 1.

Lemma product_spec l : forall p, Forall (fun rv => is_Some (base_weights !! rv)) l ->
  product base_weights p l = Some (p * foldr (fun rv q => w rv * q) 1 l).
Proof.
  induction l as [|x l IH]; intros p Hl; cbn [product foldr]; [f_equal; ring|]. apply Forall_cons in Hl as [[q Hq] Hl].
  rewrite Hq. cbn [mbind option_bind]. rewrite IH by done. f_equal. unfold marginal at 2. rewrite Hq. cbn. ring.
Qed.

Lemma clause_weight_spec c : wf c -> weighted (rvs c) -> clause_weight base_weights c = Some (weight_of w (rvs c)).
Proof.
  intros Hc Hw. unfold clause_weight. destruct (is_empty c) eqn:E; [apply is_empty_spec in E as ->; [by rewrite weight_of_empty|done]|].
  rewrite (iter_members c Hc). cbn [mbind option_bind]. rewrite product_spec.
  - unfold weight_of. rewrite (product_perm w (elements (rvs c)) (members c)) by (apply elements_list_to_set; by apply NoDup_members).
    f_equal. cbn. ring.
  - apply Forall_forall. intros rv Hrv. destruct (Hw rv) as (q & -> & _); [by apply elem_of_list_to_set|by eexists].
Qed.

Definition sign (l : list nat) : Qc := if Nat.odd (length l) then 1 else - (1).
Lemma sign_term a l : sign l * foldr (fun i p => a i * p) 1 l = - term a l.
Proof.
  unfold sign, term. induction l as [|i l IH]; [cbn; ring|]. cbn [length foldr]. rewrite Nat.odd_succ, <- Nat.negb_odd.
  destruct (Nat.odd (length l)); cbn in *.
  - transitivity (- a i * (1 * foldr (fun i p => a i * p) 1 l)); [ring|]. rewrite IH. ring.
  - transitivity (- a i * (- (1) * foldr (fun i p => a i * p) 1 l)); [ring|]. rewrite IH. ring.
Qed.

Lemma picked_weighted cs l : weighted (⋃ (rvs <$> cs)) -> weighted (picked_rvs cs l).
Proof.
  intros Hw rv Hrv. apply Hw. unfold picked_rvs in Hrv. apply elem_of_union_list in Hrv as (X & HX & Hrv).
  apply list_elem_of_fmap in HX as (i & -> & _). unfold clause_at in Hrv. destruct (cs !! i) as [c|] eqn:Ec; [|by apply elem_of_empty in Hrv].
  apply elem_of_union_list. exists (rvs c). split; [|done]. apply list_elem_of_fmap_2. by eapply list_elem_of_lookup_2.
Qed.

Lemma sum_masks_spec cs masks acc : Forall wf cs -> weighted (⋃ (rvs <$> cs)) -> (length cs <= 32)%nat -> Forall (fun m => 0 <= m < 2 ^ Z.of_nat (length cs))%Z masks ->
  sum_masks base_weights cs masks acc =
  Some (acc + qsum (fun m => sign (picked (length cs) m) * weight_of w (picked_rvs cs (picked (length cs) m))) masks).
Proof.
  intros Hcs Hwt Hn Hm. revert acc. induction Hm as [|m masks Hm _ IH]; intros acc; cbn [sum_masks]; [by cbn; rewrite Qcplus_0_r|].
  destruct (select_spec cs 32 m empty Hcs wf_empty Hm) as (u & -> & Hw & Hr).
  { unfold picked. etrans; [apply length_filter|]. by rewrite length_seq. }
  rewrite rvs_empty, (left_id_L ∅ (∪)) in Hr. cbn [mbind option_bind].
  rewrite clause_weight_spec; [|done|rewrite Hr; by apply picked_weighted]. cbn [mbind option_bind]. rewrite IH, Hr. f_equal.
  unfold qsum. cbn [foldr]. rewrite (count_ones_picked (length cs)) by done. unfold sign. cbn [add mul opp one exact_arith]. ring.
Qed.

Lemma ind_picked cs l T : ind (picked_rvs cs l ⊆ T) = foldr (fun i p => ind (clause_at cs i ⊆ T) * p) 1 l.
Proof.
  unfold picked_rvs. induction l as [|i l IH]; cbn; [unfold ind; by rewrite decide_True by set_solver|]. rewrite <- IH.
  assert (Hu : clause_at cs i ∪ ⋃ (clause_at cs <$> l) ⊆ T <-> clause_at cs i ⊆ T /\ ⋃ (clause_at cs <$> l) ⊆ T) by apply union_subseteq.
  unfold ind. repeat case_decide; try ring; tauto.
Qed.

Lemma clause_at_app cs c i : (i < length cs)%nat -> clause_at (cs ++ [c]) i = clause_at cs i.
Proof. intros Hi. unfold clause_at. by rewrite lookup_app_l. Qed.

Lemma ind_none cs T : foldr (fun i p => (1 - ind (clause_at cs i ⊆ T)) * p) 1 (seq 0 (length cs)) = 1 - ind (holds cs T).
Proof.
  induction cs as [|c cs IH] using rev_ind; [unfold holds, ind; cbn; rewrite decide_False by (by intros ?%Exists_nil); ring|].
  rewrite length_app, Nat.add_comm, seq_S, foldr_app. cbn [foldr length plus].
  assert (E : forall q, foldr (fun i p => (1 - ind (clause_at (cs ++ [c]) i ⊆ T)) * p) q (seq 0 (length cs)) = foldr (fun i p => (1 - ind (clause_at cs i ⊆ T)) * p) 1 (seq 0 (length cs)) * q).
  { intros q. assert (Hall : Forall (fun i => (i < length cs)%nat) (seq 0 (length cs))) by (apply Forall_forall; intros i ?%elem_of_seq; lia).
    clear IH. induction Hall as [|i l Hi _ IHl]; cbn [foldr]; [ring|]. rewrite IHl, clause_at_app by done. ring. }
  rewrite E, IH. unfold clause_at. rewrite list_lookup_middle by done. cbn. unfold ind.
  assert (Hh : holds (cs ++ [c]) T <-> holds cs T \/ rvs c ⊆ T).
  { unfold holds. rewrite Exists_app, Exists_cons, Exists_nil. tauto. }
  repeat case_decide; try ring; tauto.
Qed.

Lemma inclusion_exclusion cs T :
  qsum (fun m => sign (picked (length cs) m) * ind (picked_rvs cs (picked (length cs) m) ⊆ T)) (seqZ 1 (2 ^ Z.of_nat (length cs) - 1)) = ind (holds cs T).
Proof.
  set (a := fun i => ind (clause_at cs i ⊆ T)). pose proof (expand_product a (length cs)) as H. unfold a in H at 2. rewrite ind_none in H.
  assert (H2 : (0 < 2 ^ Z.of_nat (length cs))%Z) by (apply Z.pow_pos_nonneg; lia). rewrite seqZ_cons in H by lia. change (Z.succ 0) with 1%Z in H. change (Z.pred ?x) with (x - 1)%Z in H.
  cbn [qsum foldr] in H. rewrite picked_0 in H. fold (qsum (fun m => term a (picked (length cs) m)) (seqZ 1 (2 ^ Z.of_nat (length cs) - 1))) in H. cbn [term foldr] in H.
  assert (E : forall l, qsum (fun m => sign (picked (length cs) m) * ind (picked_rvs cs (picked (length cs) m) ⊆ T)) l = - qsum (fun m => term a (picked (length cs) m)) l).
  { unfold qsum. induction l as [|m l IH]; cbn [foldr]; [ring|]. rewrite IH, ind_picked. fold a. rewrite (sign_term a). ring. }
  rewrite E. transitivity (1 - (1 + qsum (fun m => term a (picked (length cs) m)) (seqZ 1 (2 ^ Z.of_nat (length cs) - 1)))); [ring|]. rewrite H. ring.
Qed.

Lemma sum_is_probability cs : Forall wf cs ->
  qsum (fun m => sign (picked (length cs) m) * weight_of w (picked_rvs cs (picked (length cs) m))) (seqZ 1 (2 ^ Z.of_nat (length cs) - 1))
  = probability (mkDnf cs).
Proof.
  intros Hcs. unfold probability. cbn [clauses]. set (U := elements (⋃ (rvs <$> cs))).
  rewrite <- (expect_ext w U _ (fun T => ind (holds cs T)) ∅ (inclusion_exclusion cs)).
  rewrite expect_qsum. apply qsum_ext. intros m _. rewrite expect_scale. f_equal.
  rewrite (expect_subset w U _ ∅); [by rewrite difference_empty_L|apply NoDup_elements|intros x _; apply not_elem_of_empty|].
  intros x Hx. right. unfold U. apply elem_of_elements, elem_of_union_list. unfold picked_rvs in Hx. apply elem_of_union_list in Hx as (X & HX & Hx).
  apply list_elem_of_fmap in HX as (i & -> & _). unfold clause_at in Hx. destruct (cs !! i) as [c|] eqn:Ec; [|by apply elem_of_empty in Hx].
  exists (rvs c). split; [|done]. apply list_elem_of_fmap. exists c. split; [done|]. by eapply list_elem_of_lookup_2.
Qed.

Lemma ind_range P `{Decision P} : 0 <= ind P /\ ind P <= 1.
Proof. unfold ind. case_decide; split; discriminate. Qed.

Lemma expect_range_on U f T : (forall rv, rv ∈ U -> 0 <= w rv /\ w rv <= 1) -> (forall T, 0 <= f T /\ f T <= 1) -> 0 <= expect w U f T /\ expect w U f T <= 1.
Proof.
  intros Hw Hf. set (w' := fun rv => if decide (rv ∈ U) then w rv else 0).
  assert (E : forall V T, (forall rv, rv ∈ V -> rv ∈ U) -> expect w V f T = expect w' V f T).
  { induction V as [|rv V IH]; intros T' HV; cbn; [done|]. rewrite !IH by (intros; apply HV; by right). unfold w'. by rewrite decide_True by (apply HV; by left). }
  rewrite E by done. apply expect_range; [|done]. intros rv. unfold w'. destruct (decide (rv ∈ U)) as [H|_]; [by apply Hw|split; discriminate].
Qed.
Lemma probability_range d : weighted (⋃ (rvs <$> clauses d)) -> 0 <= probability d /\ probability d <= 1.
Proof.
  intros Hw. unfold probability. apply expect_range_on; [|intros T; apply ind_range].
  intros rv Hrv%elem_of_elements. destruct (Hw rv Hrv) as (q & Hq & ?). unfold marginal. by rewrite Hq.
Qed.

Lemma holds_or a b T : holds (clauses (or_with a b)) T <-> holds (clauses a) T \/ holds (clauses b) T.
Proof. unfold holds. apply Exists_app. Qed.

Lemma mapM_union a cs : wf a -> Forall wf cs -> exists us, mapM (fun b => union a b) cs = Some us
  /\ Forall2 (fun u c => wf u /\ rvs u = rvs a ∪ rvs c) us cs.
Proof.
  intros Ha. induction 1 as [|c cs Hc _ (us & E & Hus)]; [by exists []|]. destruct (union_spec a c Ha Hc) as (u & Eu & Hu).
  exists (u :: us). cbn. rewrite Eu. cbn. rewrite E. split; [done|]. by constructor.
Qed.

(** The clauses of a conjunction are the pairwise unions. *)
Lemma and_with_spec a b : Forall wf (clauses a) -> Forall wf (clauses b) -> exists d, and_with a b = Some d /\ Forall wf (clauses d)
  /\ forall T, holds (clauses d) T <-> holds (clauses a) T /\ holds (clauses b) T.
Proof.
  intros Ha Hb. assert (H : exists rows, mapM (fun a => mapM (fun b => union a b) (clauses b)) (clauses a) = Some rows
    /\ Forall wf (concat rows) /\ forall T, holds (concat rows) T <-> holds (clauses a) T /\ holds (clauses b) T).
  { induction Ha as [|x xs Hx _ (rows & E & Hwf & HT)].
    - exists []. split_and!; [done|constructor|]. intros T. unfold holds. cbn. rewrite !Exists_nil. tauto.
    - destruct (mapM_union x (clauses b) Hx Hb) as (us & Eu & Hus). exists (us :: rows). cbn. rewrite Eu. cbn. rewrite E. split; [done|]. split.
      + apply Forall_app. split; [|done]. clear -Hus. by induction Hus as [|u c us cs [? _]]; constructor.
      + intros T. specialize (HT T). assert (Hu : holds us T <-> rvs x ⊆ T /\ holds (clauses b) T).
        { clear -Hus. unfold holds. induction Hus as [|u c us cs [_ Eu] _ IH]; [rewrite !Exists_nil; tauto|].
          rewrite !Exists_cons, IH, Eu, union_subseteq. tauto. }
        unfold holds in *. rewrite Exists_app, Exists_cons, Hu, HT. tauto. }
  destruct H as (rows & E & ? & ?). exists (mkDnf (concat rows)). unfold and_with. by rewrite E.
Qed.
End exact.

(** C30: In exact arithmetic the weight of a formula of at most 24 clauses, each
    variable of which has a marginal between zero and one, is the probability
    that some clause has all its variables true, each variable being true with
    its marginal, independently of the others; no listing of identifiers below
    2^32 - 63 overflows and no debug assertion fails.  The code computes the
    same loop in binary64 ([f64_arith]), whose rounding errors this does not
    bound.  The connectives compute disjunction and conjunction. *)
Theorem dnf_weight_is_probability (base_weights : gmap Z Qc) d : Forall wf (clauses d) -> (length (clauses d) <= 24)%nat ->
  weighted base_weights (⋃ (rvs <$> clauses d)) ->
  weight (A := exact_arith) base_weights d = Some (probability base_weights d)
  /\ forall d', Forall wf (clauses d') ->
    (forall T, holds (clauses (or_with d d')) T <-> holds (clauses d) T \/ holds (clauses d') T)
    /\ exists c, and_with d d' = Some c /\ forall T, holds (clauses c) T <-> holds (clauses d) T /\ holds (clauses d') T.
Proof.
  intros Hcs Hn Hw. split.
  2:{ intros d' Hd'. split; [intros T; apply holds_or|]. destruct (and_with_spec d d' Hcs Hd') as (c & E & _ & H). eauto. }
  destruct (probability_range base_weights d Hw) as [H0 H1]. destruct d as [cs]. unfold weight. cbn [clauses] in *. destruct cs as [|c cs].
  { reflexivity. }
  set (l := c :: cs) in *. destruct (Nat.ltb_spec 24 (length l)); [lia|].
  rewrite sum_masks_spec; [|done|done|lia|].
  2:{ apply Forall_forall. intros m Hm'%elem_of_seqZ. lia. }
  cbn [mbind option_bind]. change (@zero Qc exact_arith) with 0%Qc. rewrite Qcplus_0_l, sum_is_probability by done. f_equal. exact (exact_clamp_id _ H0 H1).
Qed.

(** Witness: [{1,2}] or [{1,3}] with probabilities 1/2, 2/5 and 3/5. *)
Definition shared_weights : gmap Z Qc := {[1 := Q2Qc (Qmake 1 2); 2 := Q2Qc (Qmake 2 5); 3 := Q2Qc (Qmake 3 5)]}.
Definition shared_dnf : DependencyDnf := mkDnf [Inline 3 1; Inline 5 1].
Lemma dnf_weight_witness : weight shared_weights shared_dnf = Some (Q2Qc (Qmake 19 50)) /\ weight shared_weights shared_dnf = Some (probability shared_weights shared_dnf).
Proof.
  split; [vm_compute; f_equal; apply Qc_is_canon; reflexivity|]. apply (dnf_weight_is_probability shared_weights shared_dnf).
  - assert (Hi : forall rv s, is_id rv -> insert (single 1) rv = Some s -> wf s).
    { intros rv s Hr E. destruct (rv_insert_spec (single 1) rv) as (s' & E' & Hw & _); [apply single_spec; unfold is_id; lia|done|]. rewrite E in E'. by injection E' as <-. }
    constructor; [apply (Hi 2)|constructor; [apply (Hi 3)|constructor]]; try reflexivity; unfold is_id; lia.
  - cbn. lia.
  - intros rv Hrv. assert (Hall : Forall (fun rv => rv = 1 \/ rv = 2 \/ rv = 3) (elements (⋃ (rvs <$> clauses shared_dnf)))).
    { vm_compute. repeat (constructor; [lia|]). constructor. }
    rewrite Forall_forall in Hall. apply elem_of_elements, Hall in Hrv as [->|[->| ->]]; eexists; (split; [reflexivity|split; discriminate]).
Defined.

(** In binary64 the sum may leave the unit interval, and the clamp brings it back:
    the three one-variable clauses with weights 0.4, 0.999 and 1.0. *)
Definition rounded_weights : gmap Z f64 :=
  {[1 := S754_finite false 7205759403792794 (-54); 2 := S754_finite false 8998192055486251 (-53); 3 := one]}.
Definition three_clauses : list BaseRvSet := [single 1; single 2; single 3].
Theorem clamp_corrects_rounding :
  (exists acc, sum_masks rounded_weights three_clauses (seqZ 1 7) zero = Some acc /\ lt one acc = true)
  /\ weight rounded_weights (mkDnf three_clauses) = Some one.
Proof. split; [eexists; split; vm_compute; reflexivity|]. vm_compute. reflexivity. Qed.
