(* ===== verification/TopK.v ===== *)
(** * Top-k proof tags

    crates/uni-locy/src/top_k_proofs.rs: tags of at most [k] weighted proofs,
    their sum and product, and the pruning of the lighter proofs.  Weights are
    binary64 numbers ([f64_arith]); [None] is a panic (overflow checks on), or a
    sort whose comparison is no order because a weight is NaN. *)

From Stdlib Require Import SpecFloat.
From S2P Require Import Prelude Arith RvSet Dnf.

(** One retained proof ([Proof] of the source). *)
Record Deriv := mkDeriv { d_weight : f64; base_rvs : BaseRvSet; neural_calls : list Z }.
Definition tautology : Deriv := mkDeriv one empty [].
Definition dependency_key (p : Deriv) : option (list Z * list Z) :=
  l ← iter (base_rvs p); Some (merge_sort Z.le l, merge_sort Z.le (neural_calls p)).

Record TopKTag := mkTag { proofs : list Deriv }.
Definition tag_zero : TopKTag := mkTag [].
Definition tag_one : TopKTag := mkTag [tautology].
Definition tag_is_empty (t : TopKTag) : bool := bool_decide (length (proofs t) = O).
Definition to_dnf (t : TopKTag) : DependencyDnf := mkDnf (base_rvs <$> proofs t).

Inductive PruneNotice := NotPruned | Pruned | CrossedDependency.

(** One round of the deduplication: the heavier proof of a key wins. *)
Abbreviation Seen := (gmap (list Z * list Z) nat).
Definition absorb (s : list Deriv * Seen) (p : Deriv) : option (list Deriv * Seen) :=
  let '(keep, seen) := s in
  key ← dependency_key p;
  match seen !! key with
  | Some idx =>
      old ← keep !! idx;
      Some (if lt (d_weight old) (d_weight p) then <[idx := p]> keep else keep, seen)
  | None => Some (keep ++ [p], <[key := length keep]> seen)
  end.
Fixpoint absorb_all (s : list Deriv * Seen) (l : list Deriv) : option (list Deriv * Seen) :=
  match l with [] => Some s | p :: l => s ← absorb s p; absorb_all s l end.

(** The stable sort by descending weight.  With a NaN among two or more weights
    [partial_cmp(..).unwrap_or(Equal)] is no order: [sort_by] may panic or
    leave any order. *)
Fixpoint insert_desc (p : Deriv) (l : list Deriv) : list Deriv :=
  match l with
  | [] => [p]
  | q :: l => if lt (d_weight p) (d_weight q) then q :: insert_desc p l else p :: q :: l
  end.
Definition sort_desc (l : list Deriv) : option (list Deriv) :=
  if (length l <=? 1)%nat || forallb (fun p => negb (is_nan (d_weight p))) l then Some (foldr insert_desc [] l) else None.

(** [retained.iter().any(|r| intersect_any(r, d))], and the loop over the dropped
    proofs that stops at the first overlap. *)
Fixpoint any_overlap (d : Deriv) (retained : list Deriv) : option bool :=
  match retained with
  | [] => Some false
  | r :: retained => b ← intersect_any (base_rvs r) (base_rvs d); if (b : bool) then Some true else any_overlap d retained
  end.
Fixpoint any_crossed (retained dropped : list Deriv) : option bool :=
  match dropped with
  | [] => Some false
  | d :: dropped => b ← any_overlap d retained; if (b : bool) then Some true else any_crossed retained dropped
  end.

Definition merge_top_k_with (base additional : list Deriv) (k : nat) : option (list Deriv * PruneNotice) :=
  '(keep, _) ← absorb_all ([], ∅) (base ++ additional);
  keep ← sort_desc keep;
  if (length keep <=? k)%nat then Some (keep, NotPruned)
  else
    let retained := take k keep in
    let dropped := drop k keep in
    crossed ← any_crossed retained dropped;
    Some (retained, if (crossed : bool) then CrossedDependency else Pruned).

(** [nc.retain(|c| seen.insert(c.0))]: the first of equal calls stays. *)
Fixpoint retain_new (seen : gset Z) (l : list Z) : list Z :=
  match l with
  | [] => []
  | c :: l => if decide (c ∈ seen) then retain_new seen l else c :: retain_new ({[c]} ∪ seen) l
  end.
Definition join_proofs (pa pb : Deriv) : option Deriv :=
  u ← union (base_rvs pa) (base_rvs pb);
  Some (mkDeriv (mul (d_weight pa) (d_weight pb)) u (retain_new ∅ (neural_calls pa ++ neural_calls pb))).

Section semiring.
  Context (k : nat).

Definition plus (a b : TopKTag) : option TopKTag := '(ps, _) ← merge_top_k_with (proofs a) (proofs b) k; Some (mkTag ps).
Definition times (a b : TopKTag) : option TopKTag :=
  if tag_is_empty a || tag_is_empty b then Some tag_zero
  else
    cartesian ← mapM (fun pa => mapM (fun pb => join_proofs pa pb) (proofs b)) (proofs a);
    '(ps, _) ← merge_top_k_with [] (concat cartesian) k;
    Some (mkTag ps).
Definition tag_weight (a : TopKTag) : f64 :=
  clamp (sub one (foldl (fun complement p => mul complement (sub one (d_weight p))) one (proofs a))).
Definition negate (a : TopKTag) : TopKTag := mkTag [mkDeriv (clamp (sub one (tag_weight a))) empty []].
End semiring.

(** ** Keys *)

(** A proof with a set of identifiers and a weight that is a number. *)
Definition sound (p : Deriv) : Prop := wf (base_rvs p) /\ is_nan (d_weight p) = false.
Definition key_of (p : Deriv) : list Z * list Z := (merge_sort Z.le (members (base_rvs p)), merge_sort Z.le (neural_calls p)).
Lemma dependency_key_of p : wf (base_rvs p) -> dependency_key p = Some (key_of p).
Proof. intros Hp. unfold dependency_key. by rewrite (iter_members _ Hp). Qed.

(** ** Deduplication *)

Definition heavier (p q : Deriv) : Prop := key_of p = key_of q /\ le (d_weight q) (d_weight p).

(** [keep] holds the heaviest proof of each key of [past], once. *)
Record dinv (past keep : list Deriv) (seen : Seen) : Prop := {
  di_seen key idx : seen !! key = Some idx <-> exists p, keep !! idx = Some p /\ key_of p = key;
  di_past p : p ∈ keep -> p ∈ past;
  di_best q : q ∈ past -> exists p, p ∈ keep /\ heavier p q;
}.

Lemma heavier_refl p : sound p -> heavier p p.
Proof. intros [_ Hp]. split; [done|by apply le_refl]. Qed.
Lemma heavier_trans p q r : heavier p q -> heavier q r -> heavier p r.
Proof. intros [E1 H1] [E2 H2]. split; [congruence|by eapply le_trans]. Qed.

Lemma absorb_spec past keep seen p : (forall q, q ∈ past ++ [p] -> sound q) -> dinv past keep seen -> exists keep' seen', absorb (keep, seen) p = Some (keep', seen') /\ dinv (past ++ [p]) keep' seen'.
Proof.
  intros Hs [D1 D2 D3]. assert (Hp : sound p) by (apply Hs, elem_of_app; right; by left). unfold absorb. rewrite (dependency_key_of p) by apply Hp. cbn [mbind option_bind]. destruct (seen !! key_of p) as [idx|] eqn:Es.
  - pose proof Es as (old & Ho & Ek)%D1. rewrite Ho. cbn [mbind option_bind]. eexists _, _. split; [done|]. assert (Hold : is_nan (d_weight old) = false) by (apply Hs, elem_of_app; left; eapply D2, list_elem_of_lookup_2, Ho).
    destruct (lt_le_cases (d_weight old) (d_weight p) Hold (proj2 Hp)) as [[-> Hlt]|[-> Hle]].
    + assert (Hil : (idx < length keep)%nat) by by eapply lookup_lt_Some. split.
      * intros key i. rewrite D1. destruct (decide (idx = i)) as [<-|Hn].
        -- rewrite list_lookup_insert_eq by done. rewrite Ho. split; intros (q & [= <-] & <-); eauto.
        -- by rewrite list_lookup_insert_ne.
      * intros q [i Hi]%list_elem_of_lookup. apply elem_of_app. destruct (decide (idx = i)) as [<-|Hn].
        -- rewrite list_lookup_insert_eq in Hi by done. injection Hi as <-. right. by left.
        -- rewrite list_lookup_insert_ne in Hi by done. left. apply D2. by eapply list_elem_of_lookup_2.
      * assert (Hpi : p ∈ <[idx := p]> keep) by (apply list_elem_of_lookup; exists idx; by apply list_lookup_insert_eq).
        intros q [Hq| ->%list_elem_of_singleton]%elem_of_app; [|exists p; split; [done|by apply heavier_refl]].
        destruct (D3 q Hq) as (r & Hr & Hrq). apply list_elem_of_lookup in Hr as [i Hi]. destruct (decide (idx = i)) as [<-|Hn].
        -- assert (r = old) as -> by congruence. exists p. split; [done|]. eapply heavier_trans; [|exact Hrq]. by split.
        -- exists r. split; [|done]. apply list_elem_of_lookup. exists i. by rewrite list_lookup_insert_ne.
    + split; [done|intros q ?; apply elem_of_app; left; by apply D2|]. intros q [Hq| ->%list_elem_of_singleton]%elem_of_app; [by apply D3|].
      exists old. split; [by eapply list_elem_of_lookup_2|]. by split.
  - eexists _, _. split; [done|]. split.
    + intros key i. rewrite lookup_insert_Some, D1. split.
      * intros [[<- <-]|[Hn (q & Hq & <-)]]; [exists p; by rewrite list_lookup_middle|exists q; split; [by apply lookup_app_l_Some|done]].
      * intros (q & [Hq|[Hge Hq]]%lookup_app_Some & <-).
        -- right. split; [|eauto]. intros E. assert (seen !! key_of q = Some i) by (apply D1; eauto). congruence.
        -- apply list_lookup_singleton_Some in Hq as [? <-]. left. split; [done|lia].
    + intros q [?| ->%list_elem_of_singleton]%elem_of_app; apply elem_of_app; [left; by apply D2|right; by left].
    + intros q [Hq| ->%list_elem_of_singleton]%elem_of_app.
      * destruct (D3 q Hq) as (r & ? & ?). exists r. split; [apply elem_of_app; by left|done].
      * exists p. split; [apply elem_of_app; right; by left|by apply heavier_refl].
Qed.

Lemma absorb_all_spec past keep seen l : (forall q, q ∈ past ++ l -> sound q) -> dinv past keep seen -> exists keep' seen', absorb_all (keep, seen) l = Some (keep', seen') /\ dinv (past ++ l) keep' seen'.
Proof.
  revert past keep seen. induction l as [|p l IH]; intros past keep seen Hs D; cbn [absorb_all]; [exists keep, seen; by rewrite app_nil_r|].
  destruct (absorb_spec past keep seen p) as (keep1 & seen1 & -> & D1); [intros q Hq; apply Hs; set_solver|done|]. cbn [mbind option_bind].
  destruct (IH (past ++ [p]) keep1 seen1) as (keep2 & seen2 & -> & D2); [by rewrite <- app_assoc|done|]. exists keep2, seen2. split; [done|]. by rewrite <- app_assoc in D2.
Qed.

Lemma dinv_keys past keep seen : dinv past keep seen -> NoDup (key_of <$> keep).
Proof.
  intros [D1 _ _]. apply NoDup_alt. intros i j key Hi Hj. rewrite list_lookup_fmap in Hi, Hj.
  destruct (keep !! i) as [p|] eqn:Ei; [|done]. destruct (keep !! j) as [q|] eqn:Ej; [|done]. injection Hi as Hi. injection Hj as Hj.
  assert (seen !! key = Some i) by (apply D1; eauto). assert (seen !! key = Some j) by (apply D1; eauto). congruence.
Qed.

(** ** Sorting *)

Definition desc (p q : Deriv) : Prop := le (d_weight q) (d_weight p).
Lemma insert_desc_perm p l : insert_desc p l ≡ₚ p :: l.
Proof. induction l as [|q l IH]; cbn; [done|]. destruct (lt _ _); [|done]. rewrite IH. constructor. Qed.
Lemma foldr_insert_perm l : foldr insert_desc [] l ≡ₚ l.
Proof. induction l as [|p l IH]; cbn; [done|]. rewrite insert_desc_perm. by constructor. Qed.
Lemma insert_desc_sorted p l : sound p -> (forall q, q ∈ l -> sound q) -> StronglySorted desc l -> StronglySorted desc (insert_desc p l).
Proof.
  intros Hp Hl Hs. induction Hs as [|q l Hs IH Hq]; cbn; [repeat constructor|]. assert (Hsq : sound q) by (apply Hl; by left).
  destruct (lt_le_cases (d_weight p) (d_weight q) (proj2 Hp) (proj2 Hsq)) as [[-> Hle]|[-> Hle]].
  - constructor; [apply IH; intros; apply Hl; by right|]. rewrite insert_desc_perm. by constructor.
  - constructor; [by constructor|]. constructor; [done|]. eapply Forall_impl; [exact Hq|]. intros r Hr. unfold desc in *. by eapply le_trans.
Qed.
Lemma sort_desc_spec l : (forall p, p ∈ l -> sound p) -> exists full, sort_desc l = Some full /\ full ≡ₚ l /\ StronglySorted desc full.
Proof.
  intros Hl. unfold sort_desc. assert (E : forallb (fun p => negb (is_nan (d_weight p))) l = true).
  { apply forallb_forall. intros p Hp%list_elem_of_In. by rewrite (proj2 (Hl p Hp)). }
  rewrite E, orb_true_r. eexists. split; [done|]. split; [apply foldr_insert_perm|]. clear E.
  induction l as [|p l IH]; cbn; [constructor|]. apply insert_desc_sorted; [apply Hl; by left| |apply IH; intros; apply Hl; by right].
  intros q. rewrite foldr_insert_perm. intros Hq. apply Hl. by right.
Qed.

Lemma desc_split l1 l2 p q : StronglySorted desc (l1 ++ l2) -> p ∈ l1 -> q ∈ l2 -> le (d_weight q) (d_weight p).
Proof.
  induction l1 as [|a l1 IH]; intros Hs Hp Hq; [by apply elem_of_nil in Hp|]. cbn in Hs. apply StronglySorted_inv in Hs as [Hs Ha].
  apply elem_of_cons in Hp as [->|Hp]; [|by apply IH]. rewrite Forall_forall in Ha. apply Ha, elem_of_app. by right.
Qed.

(** Proofs of a key have the same variables and the same calls. *)
Lemma key_of_spec p q : wf (base_rvs p) -> wf (base_rvs q) ->
  key_of p = key_of q <-> rvs (base_rvs p) = rvs (base_rvs q) /\ neural_calls p ≡ₚ neural_calls q.
Proof.
  intros Hp Hq. assert (Hms : forall l1 l2 : list Z, merge_sort Z.le l1 = merge_sort Z.le l2 <-> l1 ≡ₚ l2).
  { intros l1 l2. split; [intros E; rewrite <- (merge_sort_Permutation Z.le l1), E; apply merge_sort_Permutation|]. intros Hperm.
    apply (StronglySorted_unique Z.le); [apply StronglySorted_merge_sort; apply _..|]. by rewrite !merge_sort_Permutation. }
  unfold key_of. rewrite pair_equal_spec, !Hms. apply and_iff_compat_r. unfold rvs. split.
  - intros Hperm. apply set_eq. intros x. by rewrite !elem_of_list_to_set, Hperm.
  - intros E. apply NoDup_Permutation; [by apply NoDup_members..|]. intros x.
    rewrite <- (elem_of_list_to_set (C := gset Z) x (members (base_rvs p))), E. apply elem_of_list_to_set.
Qed.

Lemma key_rvs p q : wf (base_rvs p) -> wf (base_rvs q) -> key_of p = key_of q -> rvs (base_rvs p) = rvs (base_rvs q).
Proof. intros Hp Hq E. by apply key_of_spec in E as [? _]. Qed.

(** The heaviest proofs of all keys, by descending weight. *)
Record deduped (all full : list Deriv) : Prop := {
  dd_sorted : StronglySorted desc full;
  dd_keys : NoDup (key_of <$> full);
  dd_in p : p ∈ full -> p ∈ all;
  dd_best q : q ∈ all -> exists p, p ∈ full /\ heavier p q;
}.

Lemma absorb_deduped all : (forall p, p ∈ all -> sound p) ->
  exists keep seen full, absorb_all ([], ∅) all = Some (keep, seen) /\ sort_desc keep = Some full /\ deduped all full.
Proof.
  intros Hs. destruct (absorb_all_spec [] [] ∅ all) as (keep & seen & E & D).
  { done. }
  { split; [|by intros p ?|by intros q ?%elem_of_nil]. intros key idx. rewrite lookup_empty. split; [done|by intros (? & ? & _)]. }
  destruct (sort_desc_spec keep) as (full & Ef & Hp & Hsorted); [intros p Hp; by apply Hs, (di_past _ _ _ D)|].
  exists keep, seen, full. split; [done|]. split; [done|]. split.
  - done.
  - rewrite Hp. by eapply dinv_keys.
  - intros p. rewrite Hp. apply (di_past _ _ _ D).
  - intros q Hq. destruct (di_best _ _ _ D q Hq) as (p & ? & ?). exists p. by rewrite Hp.
Qed.

Lemma deduped_unique all full p q : deduped all full -> p ∈ full -> q ∈ full -> key_of p = key_of q -> p = q.
Proof.
  intros [_ Hk _ _] [i Hi]%list_elem_of_lookup [j Hj]%list_elem_of_lookup E. rewrite NoDup_alt in Hk. assert (i = j) as ->; [|congruence].
  apply (Hk i j (key_of p)); rewrite list_lookup_fmap; [by rewrite Hi|by rewrite Hj, E].
Qed.

Lemma deduped_heaviest all full p q : deduped all full -> p ∈ full -> q ∈ all -> key_of q = key_of p -> le (d_weight q) (d_weight p).
Proof.
  intros D Hp Hq E. destruct (dd_best _ _ D q Hq) as (r & Hr & [E' Hle]). assert (r = p) as ->; [|done]. eapply deduped_unique; [exact D|done|done|congruence].
Qed.

Lemma keys_split l1 l2 p q : NoDup (key_of <$> (l1 ++ l2)) -> p ∈ l1 -> q ∈ l2 -> key_of p <> key_of q.
Proof.
  rewrite fmap_app, NoDup_app. intros (_ & H & _) Hp Hq E. apply (H (key_of p)); [by apply list_elem_of_fmap_2|]. rewrite E. by apply list_elem_of_fmap_2.
Qed.

Lemma any_overlap_spec d l : wf (base_rvs d) -> (forall p, p ∈ l -> wf (base_rvs p)) ->
  exists b, any_overlap d l = Some b /\ (b = true <-> exists p rv, p ∈ l /\ rv ∈ rvs (base_rvs d) /\ rv ∈ rvs (base_rvs p)).
Proof.
  intros Hd. induction l as [|r l IH]; intros Hl; cbn [any_overlap]; [exists false; split; [done|]; split; [done|by intros (? & ? & ?%elem_of_nil & _)]|].
  destruct (intersect_any_spec (base_rvs r) (base_rvs d)) as (b & -> & Hb); [apply Hl; by left|done|]. cbn [mbind option_bind].
  destruct IH as (b' & E & Hb'); [intros; apply Hl; by right|]. destruct b.
  - exists true. split; [done|]. split; [|done]. intros _. destruct (proj1 Hb eq_refl) as (rv & ? & ?). exists r, rv. split_and!; [by left|done|done].
  - exists b'. split; [done|]. rewrite Hb'. split; [intros (q & rv & ? & ? & ?); exists q, rv; split_and!; [by right|done|done]|].
    intros (q & rv & [->|Hq]%elem_of_cons & H1 & H2); [|by exists q, rv]. assert (false = true) by (apply Hb; eauto). done.
Qed.
Lemma crossed_spec l1 l2 : (forall p, p ∈ l1 ++ l2 -> wf (base_rvs p)) ->
  exists b, any_crossed l1 l2 = Some b
  /\ (b = true <-> exists d p rv, d ∈ l2 /\ p ∈ l1 /\ rv ∈ rvs (base_rvs d) /\ rv ∈ rvs (base_rvs p)).
Proof.
  intros Hw. induction l2 as [|d l2 IH]; cbn [any_crossed]; [exists false; split; [done|]; split; [done|by intros (? & ? & ? & ?%elem_of_nil & _)]|].
  destruct (any_overlap_spec d l1) as (b & -> & Hb); [apply Hw; set_solver|intros; apply Hw; set_solver|]. cbn [mbind option_bind].
  destruct IH as (b' & E & Hb'); [intros; apply Hw; set_solver|]. destruct b.
  - exists true. split; [done|]. split; [|done]. intros _. destruct (proj1 Hb eq_refl) as (p & rv & ?). exists d, p, rv. split; [by left|done].
  - exists b'. split; [done|]. rewrite Hb'. split; [intros (q & p & rv & ? & ?); exists q, p, rv; split; [by right|done]|].
    intros (q & p & rv & [->|Hq]%elem_of_cons & H); [|by exists q, p, rv]. assert (false = true) by (apply Hb; eauto). done.
Qed.

(** Merging proofs whose weights are numbers keeps at most [k] of them, by descending weight, with
    distinct dependencies, each the heaviest of its dependencies; a proof that is
    not represented is no heavier than any that is kept, and only when [k] are;
    the notice says whether some were dropped, and whether a dropped one shares a
    variable with a kept one. *)
Theorem merge_top_k_exact base additional k : Forall sound (base ++ additional) ->
  exists kept notice, merge_top_k_with base additional k = Some (kept, notice)
  /\ (length kept <= k)%nat /\ StronglySorted desc kept /\ NoDup (key_of <$> kept)
  /\ (forall p, p ∈ kept -> p ∈ base ++ additional /\ forall q, q ∈ base ++ additional -> key_of q = key_of p -> le (d_weight q) (d_weight p))
  /\ (forall q, q ∈ base ++ additional -> (exists p, p ∈ kept /\ heavier p q) \/ (length kept = k /\ notice <> NotPruned /\ forall p, p ∈ kept -> le (d_weight q) (d_weight p)))
  /\ (notice = NotPruned <-> forall q, q ∈ base ++ additional -> exists p, p ∈ kept /\ heavier p q)
  /\ (notice = CrossedDependency <-> exists q p rv, q ∈ base ++ additional /\ (forall r, r ∈ kept -> key_of r <> key_of q)
        /\ p ∈ kept /\ rv ∈ rvs (base_rvs q) /\ rv ∈ rvs (base_rvs p)).
Proof.
  intros Hwf. set (all := base ++ additional) in *. unfold merge_top_k_with. fold all. rewrite Forall_forall in Hwf.
  destruct (absorb_deduped all Hwf) as (keep & seen & full & -> & Ef & D). cbn [mbind option_bind]. rewrite Ef. cbn [mbind option_bind]. pose proof D as [F1 F2 F3 F4].
  pose proof (deduped_heaviest all full) as Hbest. destruct (Nat.leb_spec (length full) k) as [Hle|Hgt].
  - eexists _, _. split; [done|]. split_and!; [done|done|done|intros p Hp; split; [by apply F3|intros q; by apply Hbest]|auto|done|].
    split; [done|]. intros (q & p & rv & Hq & Hn & _). exfalso. destruct (F4 q Hq) as (r & Hr & [E _]). by apply (Hn r Hr).
  - rewrite <- (take_drop k full) in F1, F2. set (kept := take k full) in *. set (dropped := drop k full) in *.
    assert (Hlen : length kept = k) by (unfold kept; rewrite length_take; lia).
    assert (Hmem : forall p, p ∈ full <-> p ∈ kept \/ p ∈ dropped) by (intros p; unfold kept, dropped; by rewrite <- elem_of_app, take_drop).
    assert (Hdrop : exists d, d ∈ dropped).
    { destruct dropped as [|d l] eqn:E; [|exists d; by left]. apply (f_equal length) in E. unfold dropped in E. rewrite length_drop in E. cbn in E. lia. }
    assert (Hrep : forall q, q ∈ all -> (forall r, r ∈ kept -> key_of r <> key_of q) <-> exists d, d ∈ dropped /\ heavier d q).
    { intros q Hq. split.
      - intros Hn. destruct (F4 q Hq) as (d & [Hd|Hd]%Hmem & [E H]); [by destruct (Hn d Hd)|]. by exists d.
      - intros (d & Hd & [E _]) r Hr Er. apply (keys_split _ _ r d F2 Hr Hd). congruence. }
    assert (Hnot : (forall q, q ∈ all -> exists p, p ∈ kept /\ heavier p q) -> False).
    { intros H. destruct Hdrop as [d Hd]. destruct (H d) as (p & Hp & [E _]); [apply F3, Hmem; by right|]. by apply (keys_split _ _ p d F2 Hp Hd). }
    destruct (crossed_spec kept dropped) as (b & Eb & Hc); [intros p Hp; apply Hwf, F3, Hmem; by apply elem_of_app|].
    rewrite Eb. cbn [mbind option_bind]. eexists _, _. split; [done|]. split_and!.
    + lia.
    + by apply StronglySorted_app_1_l in F1.
    + rewrite fmap_app in F2. by apply NoDup_app in F2 as [? _].
    + intros p Hp. assert (Hf : p ∈ full) by (apply Hmem; by left). split; [by apply F3|]. intros q. by apply Hbest.
    + intros q Hq. destruct (F4 q Hq) as (p & [Hp|Hp]%Hmem & Hpq); [left; by exists p|right]. split; [done|]. split; [by destruct b|].
      intros r Hr. destruct Hpq as [_ Hpq]. eapply le_trans; [exact Hpq|]. by eapply desc_split.
    + split; [by destruct b|]. intros H. by destruct (Hnot H).
    + transitivity (b = true); [by destruct b|]. rewrite Hc. split.
      * intros (d & p & rv & Hd & Hp & ? & ?). assert (Hda : d ∈ all) by (apply F3, Hmem; by right). exists d, p, rv. split_and!; try done.
        apply (Hrep d Hda). exists d. split; [done|by apply heavier_refl, Hwf].
      * intros (q & p & rv & Hq & Hn & Hp & Hrq & Hrp). apply (Hrep q Hq) in Hn as (d & Hd & [E _]). exists d, p, rv. split_and!; try done.
        rewrite (key_rvs d q); [done| | |done]; apply Hwf; [apply F3, Hmem; by right|done].
Qed.

(** ** Sums and products *)

(** Identifiers below 2^32 - 63 and finite weights. *)
Definition tag_wf (t : TopKTag) : Prop := Forall (fun p => wf (base_rvs p) /\ is_finite (d_weight p) = true) (proofs t).
Lemma finite_number x : is_finite x = true -> is_nan x = false.
Proof. by destruct x. Qed.
(** The formula of a list of proofs holds of the true variables. *)
Definition proves (l : list Deriv) (T : gset Z) : Prop := exists p, p ∈ l /\ rvs (base_rvs p) ⊆ T.

Lemma tag_holds t T : holds (clauses (to_dnf t)) T <-> proves (proofs t) T.
Proof. unfold holds, proves. cbn. rewrite Exists_fmap, Exists_exists. done. Qed.

Lemma merge_take base additional k : (forall p, p ∈ base ++ additional -> sound p) -> exists full notice, deduped (base ++ additional) full /\ merge_top_k_with base additional k = Some (take k full, notice).
Proof.
  intros Hs. unfold merge_top_k_with. destruct (absorb_deduped (base ++ additional) Hs) as (keep & seen & full & -> & Ef & D). cbn [mbind option_bind]. rewrite Ef. cbn [mbind option_bind].
  destruct (Nat.leb_spec (length full) k); [eexists _, _; split; [exact D|by rewrite take_ge by lia]|].
  destruct (crossed_spec (take k full) (drop k full)) as (b & -> & _); [rewrite take_drop; intros p Hp; by apply Hs, (dd_in _ _ D)|].
  eexists _, _. split; [exact D|done].
Qed.

Lemma merge_proves base additional k : Forall sound (base ++ additional) ->
  exists kept notice, merge_top_k_with base additional k = Some (kept, notice) /\ (forall p, p ∈ kept -> p ∈ base ++ additional)
  /\ (forall T, proves kept T -> proves (base ++ additional) T)
  /\ ((length base + length additional <= k)%nat -> forall T, proves (base ++ additional) T -> proves kept T).
Proof.
  intros Hwf. rewrite Forall_forall in Hwf. destruct (merge_take base additional k Hwf) as (full & notice & D & E). exists (take k full), notice. split; [done|].
  assert (Hsub : forall p, p ∈ take k full -> p ∈ base ++ additional) by (intros p Hp; apply (dd_in _ _ D); by eapply subseteq_take). split_and!.
  - done.
  - intros T (p & Hp & HT). exists p. split; [by apply Hsub|done].
  - intros Hk T (q & Hq & HT). destruct (dd_best _ _ D q Hq) as (p & Hp & [Ek _]). exists p. split.
    + rewrite take_ge; [done|]. etrans; [apply submseteq_length, (NoDup_submseteq full (base ++ additional)); [eapply NoDup_fmap_1, D|apply D]|]. by rewrite length_app.
    + rewrite (key_rvs p q); [done| | |done]; apply Hwf; [by apply (dd_in _ _ D)|done].
Qed.

(** The pairwise joins, row by row. *)
Lemma join_spec x y : wf (base_rvs x) /\ is_finite (d_weight x) = true -> wf (base_rvs y) /\ is_finite (d_weight y) = true ->
  exists j, join_proofs x y = Some j /\ sound j /\ rvs (base_rvs j) = rvs (base_rvs x) ∪ rvs (base_rvs y).
Proof.
  intros [Hx Fx] [Hy Fy]. unfold join_proofs. destruct (union_spec _ _ Hx Hy) as (u & -> & Hu & E). cbn [mbind option_bind].
  eexists. split; [done|]. split; [split; [done|by apply mul_finite]|done].
Qed.
Lemma join_row x l : wf (base_rvs x) /\ is_finite (d_weight x) = true -> Forall (fun p => wf (base_rvs p) /\ is_finite (d_weight p) = true) l ->
  exists js, mapM (fun pb => join_proofs x pb) l = Some js /\ length js = length l /\ Forall sound js
    /\ forall T, proves js T <-> rvs (base_rvs x) ⊆ T /\ proves l T.
Proof.
  intros Hx. induction 1 as [|y l Hy _ (js & E & Hl & Hs & HT)]; [exists []; split_and!; [done|done|constructor|]; intros T; unfold proves; set_solver|].
  destruct (join_spec x y Hx Hy) as (j & Ej & Hj & Er). exists (j :: js). cbn. rewrite Ej. cbn. rewrite E. split_and!; [done|cbn; lia|by constructor|].
  intros T. specialize (HT T). unfold proves in *. setoid_rewrite elem_of_cons. split.
  - intros (p & [->|Hp] & H); [rewrite Er, union_subseteq in H; naive_solver|]. destruct (proj1 HT) as [? (q & ? & ?)]; [by exists p|]. split; [done|]. exists q. auto.
  - intros [Hsub (q & [->|Hq] & H)]; [exists j; rewrite Er, union_subseteq; auto|]. destruct (proj2 HT) as (p & ? & ?); [split; [done|by exists q]|]. exists p. auto.
Qed.
Lemma join_all a l : Forall (fun p => wf (base_rvs p) /\ is_finite (d_weight p) = true) a -> Forall (fun p => wf (base_rvs p) /\ is_finite (d_weight p) = true) l ->
  exists rows, mapM (fun pa => mapM (fun pb => join_proofs pa pb) l) a = Some rows /\ length (concat rows) = (length a * length l)%nat
    /\ Forall sound (concat rows) /\ forall T, proves (concat rows) T <-> proves a T /\ proves l T.
Proof.
  intros Ha Hl. induction Ha as [|x a Hx _ (rows & E & Hn & Hs & HT)]; [exists []; split_and!; [done|done|constructor|]; intros T; unfold proves; set_solver|].
  destruct (join_row x l Hx Hl) as (js & Ej & Hjn & Hjs & HjT). exists (js :: rows). cbn. rewrite Ej. cbn. rewrite E. split_and!; [done|rewrite length_app; lia|by apply Forall_app|].
  intros T. specialize (HT T). specialize (HjT T). unfold proves in *. setoid_rewrite elem_of_app. setoid_rewrite elem_of_cons. split.
  - intros (p & [Hp|Hp] & H).
    + destruct (proj1 HjT) as [? ?]; [by exists p|]. split; [exists x; auto|done].
    + destruct (proj1 HT) as [(q & ? & ?) ?]; [by exists p|]. split; [exists q; auto|done].
  - intros [(q & [->|Hq] & H) Hb].
    + destruct (proj2 HjT) as (p & ? & ?); [done|]. exists p. auto.
    + destruct (proj2 HT) as (p & ? & ?); [split; [by exists q|done]|]. exists p. auto.
Qed.

(** C31: The formula of a sum of tags implies that one of them holds and that of
    a product that both do, and conversely when [k] has room for all proofs: tag
    arithmetic is exact until it prunes and an under-approximation after.  For
    tags whose weights are finite binary64 numbers and whose identifiers are
    below 2^32 - 63 no addition overflows and the sort sees no NaN, so both
    operations return; a product's weights may round or overflow to infinity
    but are numbers. *)
Theorem tag_arithmetic_sound k a b : tag_wf a -> tag_wf b ->
  exists s t, plus k a b = Some s /\ times k a b = Some t /\ tag_wf s /\ Forall sound (proofs t)
  /\ (forall T, holds (clauses (to_dnf s)) T -> holds (clauses (to_dnf a)) T \/ holds (clauses (to_dnf b)) T)
  /\ (forall T, holds (clauses (to_dnf t)) T -> holds (clauses (to_dnf a)) T /\ holds (clauses (to_dnf b)) T)
  /\ ((length (proofs a) + length (proofs b) <= k)%nat -> forall T, holds (clauses (to_dnf a)) T \/ holds (clauses (to_dnf b)) T -> holds (clauses (to_dnf s)) T)
  /\ ((length (proofs a) * length (proofs b) <= k)%nat -> forall T, holds (clauses (to_dnf a)) T /\ holds (clauses (to_dnf b)) T -> holds (clauses (to_dnf t)) T).
Proof.
  intros Ha Hb. unfold tag_wf in Ha, Hb. assert (Hab := proj2 (Forall_app _ (proofs a) (proofs b)) (conj Ha Hb)).
  assert (Happ : forall T, proves (proofs a ++ proofs b) T <-> proves (proofs a) T \/ proves (proofs b) T) by (intros T; unfold proves; set_solver).
  unfold plus. destruct (merge_proves (proofs a) (proofs b) k) as (s & ns & -> & Hws & Hs1 & Hs2).
  { eapply Forall_impl; [exact Hab|]. intros p [? ?]. split; [done|by apply finite_number]. }
  cbn [mbind option_bind].
  assert (Ht : exists t, times k a b = Some t /\ Forall sound (proofs t) /\ (forall T, proves (proofs t) T -> proves (proofs a) T /\ proves (proofs b) T)
    /\ ((length (proofs a) * length (proofs b) <= k)%nat -> forall T, proves (proofs a) T /\ proves (proofs b) T -> proves (proofs t) T)).
  { unfold times, tag_is_empty. destruct (bool_decide (length (proofs a) = O) || bool_decide (length (proofs b) = O)) eqn:E.
    - exists tag_zero. split; [done|]. split; [constructor|]. split; [intros T (p & ?%elem_of_nil & _); done|]. intros _ T [(x & Hx & _) (y & Hy & _)].
      apply orb_true_iff in E as [E|E]; apply bool_decide_eq_true, nil_length_inv in E; rewrite E in *; [by apply elem_of_nil in Hx|by apply elem_of_nil in Hy].
    - destruct (join_all (proofs a) (proofs b) Ha Hb) as (rows & -> & Hn & Hs & HT). cbn [mbind option_bind].
      destruct (merge_proves [] (concat rows) k Hs) as (t & nt & -> & Hwt & Ht1 & Ht2). cbn [mbind option_bind app length plus] in *.
      exists (mkTag t). split; [done|]. cbn [proofs]. rewrite Forall_forall in Hs. split; [apply Forall_forall; auto|]. split.
      + intros T H. by apply HT, Ht1.
      + intros Hk T H. apply Ht2; [lia|by apply HT]. }
  destruct Ht as (t & -> & Hwt & Ht1 & Ht2). exists (mkTag s), t. rewrite Forall_forall in Hab. split_and!; try done; [apply Forall_forall; auto|..]; setoid_rewrite tag_holds; cbn [proofs].
  - intros T HT. by apply Happ, Hs1.
  - done.
  - intros Hk T HT. by apply Hs2, Happ.
  - done.
Qed.

(** Witness: with room for two proofs, the sum of three drops the lightest, and a
    product of two tags keeps two proofs. *)
Definition proof_of (w : f64) (rv : Z) : Deriv := mkDeriv w (single rv) [].
Definition half : f64 := S754_finite false 4503599627370496 (-53).
Definition third : f64 := S754_finite false 6004799503160661 (-54).
Definition tag_ab : TopKTag := mkTag [proof_of half 1; proof_of third 2].
Definition tag_c : TopKTag := mkTag [proof_of one 3].
Lemma tag_arithmetic_witness : tag_wf tag_ab /\ tag_wf tag_c /\ exists s t, plus 2 tag_ab tag_c = Some s /\ times 2 tag_ab tag_c = Some t
  /\ length (proofs s) = 2%nat /\ length (proofs t) = 2%nat
  /\ forall T, holds (clauses (to_dnf tag_ab)) T /\ holds (clauses (to_dnf tag_c)) T -> holds (clauses (to_dnf t)) T.
Proof.
  assert (Hid : is_id 1 /\ is_id 2 /\ is_id 3) by (unfold is_id; lia). destruct Hid as (I1 & I2 & I3).
  assert (Ha : tag_wf tag_ab) by (constructor; [|constructor; [|constructor]]; (split; [by apply single_spec|reflexivity])).
  assert (Hc : tag_wf tag_c) by (constructor; [|constructor]; (split; [by apply single_spec|reflexivity])). split; [exact Ha|]. split; [exact Hc|].
  destruct (tag_arithmetic_sound 2 tag_ab tag_c Ha Hc) as (s & t & Es & Et & _ & _ & _ & _ & _ & H). exists s, t. split; [exact Es|]. split; [exact Et|].
  assert (Hs : (length ∘ proofs) <$> plus 2 tag_ab tag_c = Some 2%nat) by (vm_compute; reflexivity).
  assert (Ht : (length ∘ proofs) <$> times 2 tag_ab tag_c = Some 2%nat) by (vm_compute; reflexivity).
  rewrite Es in Hs. rewrite Et in Ht. injection Hs as Hs. injection Ht as Ht. split; [exact Hs|]. split; [exact Ht|]. apply H. cbn. lia.
Defined.
