(* ===== verification/Wcc.v ===== *)
(** * Weakly connected components

    crates/uni-algo/src/algo/algorithms/wcc.rs: union-find with path halving
    and union by rank over the edges of a projection, then contiguous
    component ids.  Ranks are u8 and wrap; they steer the linking but nothing
    depends on them for correctness.  [find] runs on fuel [n]; the path to a
    root has at most [n] nodes, so it is enough.  [None] is a panic. *)

From stdpp Require Import relations.
From S2P Require Import Prelude Projection TopoSort.

Section wcc.
  Context {W : Type} `{TC : TotalCmp W}.
  Implicit Types g : GraphProjection W.

Record WccResult := mkWcc { components : list (Z * Z); component_count : nat }.

(** [while parent[x] != x { parent[x] = parent[parent[x]]; x = parent[x]; }] *)
Fixpoint find (fuel : nat) (parent : list nat) (x : nat) : option (list nat * nat) :=
  match fuel with
  | O => None
  | S fuel =>
      y ← parent !! x;
      if Nat.eqb y x then Some (parent, x)
      else z ← parent !! y; find fuel (<[x := z]> parent) z
  end.

Definition union (n : nat) (parent : list nat) (rank : list Z) (x y : nat) : option (list nat * list Z) :=
  '(parent, px) ← find n parent x;
  '(parent, py) ← find n parent y;
  if Nat.eqb px py then Some (parent, rank)
  else
    rx ← rank !! px; ry ← rank !! py;
    match rx ?= ry with
    | Lt => Some (<[px := py]> parent, rank)
    | Gt => Some (<[py := px]> parent, rank)
    | Eq => Some (<[py := px]> parent, <[px := (rx + 1) mod 256]> rank)
    end.

Fixpoint union_all (n : nat) (parent : list nat) (rank : list Z) (v : nat) (ns : list nat) : option (list nat * list Z) :=
  match ns with
  | [] => Some (parent, rank)
  | u :: ns => '(parent, rank) ← union n parent rank v u; union_all n parent rank v ns
  end.

Fixpoint union_edges g (parent : list nat) (rank : list Z) (vs : list nat) : option (list nat * list Z) :=
  match vs with
  | [] => Some (parent, rank)
  | v :: vs =>
      ns ← out_neighbors g v;
      '(parent, rank) ← union_all (vertex_count g) parent rank v ns;
      union_edges g parent rank vs
  end.

(** [comp_map.entry(root).or_insert_with(..)] *)
Definition component_id (comp_map : gmap nat Z) (next_id : Z) (root : nat) : gmap nat Z * Z * Z :=
  match comp_map !! root with
  | Some cid => (comp_map, next_id, cid)
  | None => (<[root := next_id]> comp_map, next_id + 1, next_id)
  end.

Fixpoint assign g (parent : list nat) (comp_map : gmap nat Z) (next_id : Z) (results : list (Z * Z)) (slots : list nat) :
    option (gmap nat Z * list (Z * Z)) :=
  match slots with
  | [] => Some (comp_map, results)
  | slot :: slots =>
      '(parent, root) ← find (vertex_count g) parent slot;
      let '(comp_map, next_id, cid) := component_id comp_map next_id root in
      vid ← to_vid g slot;
      assign g parent comp_map next_id (results ++ [(vid, cid)]) slots
  end.

(** [sizes.entry(cid).or_insert(0) += 1] for every result, then [retain]. *)
Definition filter_small (min_component_size : option nat) (results : list (Z * Z)) : list (Z * Z) :=
  match min_component_size with
  | None => results
  | Some min_size =>
      let sizes := foldl (fun (s : gmap Z nat) r => <[r.2 := S (default O (s !! r.2))]> s) ∅ results in
      filter (fun r => (min_size <= default O (sizes !! r.2))%nat) results
  end.

Definition run g (min_component_size : option nat) : option WccResult :=
  let n := vertex_count g in
  if Nat.eqb n 0 then Some (mkWcc [] 0)
  else
    '(parent, _) ← union_edges g (seq 0 n) (replicate n 0) (seq 0 n);
    '(comp_map, results) ← assign g parent ∅ 0 [] (seq 0 n);
    Some (mkWcc (filter_small min_component_size results) (size comp_map)).

(** ** Forests *)

(** [x] is [k] steps below the root [r]. *)
Inductive up (p : list nat) : nat -> nat -> nat -> Prop :=
| up_root x : p !! x = Some x -> up p x x 0
| up_step x y r k : p !! x = Some y -> y <> x -> up p y r k -> up p x r (S k).

Lemma up_det p x r k : up p x r k -> forall r' k', up p x r' k' -> r = r' /\ k = k'.
Proof.
  induction 1 as [x Hx|x y r k Hx Hne _ IH]; intros r' k' H'; inversion H' as [? Hx'|? y' ? ? Hx' Hne' H'']; subst; rewrite Hx in Hx'; try (injection Hx' as ->); try done.
  destruct (IH _ _ H'') as [-> ->]. done.
Qed.

Lemma up_root_of p x r k : up p x r k -> p !! r = Some r.
Proof. by induction 1. Qed.

(** The nodes on a path are distinct, so a path is shorter than the array. *)
Lemma up_short p x r k : up p x r k -> (k < length p)%nat.
Proof.
  intros H. assert (Hl : exists l, length l = S k /\ NoDup l /\ (forall z, z ∈ l -> (z < length p)%nat /\ exists r' j, (j <= k)%nat /\ up p z r' j)).
  { induction H as [x Hx|x y r k Hx Hne Hy (l & Hlen & Nd & Hl)].
    - exists [x]. split_and!; [done|apply NoDup_singleton|]. intros z ->%list_elem_of_singleton.
      split; [by eapply lookup_lt_Some|]. exists x, O. split; [done|by constructor].
    - exists (x :: l). split_and!; [cbn; lia|apply NoDup_cons; split; [|done]|].
      + intros Hin. destruct (Hl x Hin) as (_ & r' & j & Hj & Hu).
        destruct (up_det p x r (S k) ltac:(by eapply up_step) _ _ Hu) as [_ E]. lia.
      + intros z [-> | Hz]%elem_of_cons.
        * split; [by eapply lookup_lt_Some|]. exists r, (S k). split; [done|by eapply up_step].
        * destruct (Hl z Hz) as (Hlt & r' & j & Hj & Hu). split; [done|]. exists r', j. split; [lia|done]. }
  destruct Hl as (l & Hlen & Nd & Hl).
  assert (Hs : (length l <= length (seq 0 (length p)))%nat).
  { apply submseteq_length, NoDup_submseteq; [done|]. intros z Hz. apply elem_of_seq. destruct (Hl z Hz). lia. }
  rewrite length_seq in Hs. lia.
Qed.

(** Path halving shortens paths and keeps roots. *)
Lemma halve_up p x y z w r k : p !! x = Some y -> y <> x -> p !! y = Some z ->
  up p w r k -> exists k', (k' <= k)%nat /\ up (<[x := z]> p) w r k'.
Proof.
  intros Hx Hne Hy. assert (Hlen : (x < length p)%nat) by by eapply lookup_lt_Some.
  revert w r. induction k as [k IH] using lt_wf_ind. intros w r Hw. destruct (decide (w = x)) as [->|Hwx].
  - inversion Hw as [? Hx'|? y' ? j Hx' _ Hyr]; subst; [congruence|]. rewrite Hx in Hx'. injection Hx' as <-.
    inversion Hyr as [? Hy'|? z' ? j' Hy' Hzy Hzr]; subst.
    + rewrite Hy in Hy'. injection Hy' as ->. exists 1%nat. split; [lia|].
      eapply up_step; [by apply list_lookup_insert_eq|done|]. constructor. by rewrite list_lookup_insert_ne.
    + rewrite Hy in Hy'. injection Hy' as <-. destruct (IH j' ltac:(lia) z r Hzr) as (k' & Hk' & Hu).
      exists (S k'). split; [lia|]. eapply up_step; [by apply list_lookup_insert_eq| |done].
      intros ->. pose proof (up_det _ _ _ _ Hw _ _ Hzr) as [_ E]. lia.
  - inversion Hw as [? Hw'|? y' ? j Hw' Hyw Hyr]; subst.
    + exists O. split; [done|]. constructor. by rewrite list_lookup_insert_ne.
    + destruct (IH j ltac:(lia) y' r Hyr) as (k' & Hk' & Hu). exists (S k'). split; [lia|].
      eapply up_step; [by rewrite list_lookup_insert_ne|done|done].
Qed.

Definition keeps_roots (p p' : list nat) : Prop :=
  length p' = length p /\ forall w r k, up p w r k -> exists k', (k' <= k)%nat /\ up p' w r k'.

Lemma find_ok fuel : forall p x r k, up p x r k -> (k < fuel)%nat ->
  exists p', find fuel p x = Some (p', r) /\ keeps_roots p p'.
Proof.
  induction fuel as [|fuel IH]; intros p x r k Hu Hk; [lia|]. cbn [find].
  inversion Hu as [? Hx|? y ? j Hx Hne Hy]; subst; rewrite Hx; cbn [mbind option_bind].
  - rewrite Nat.eqb_refl. exists p. split; [done|]. split; [done|]. intros w r0 k0 H. by exists k0.
  - rewrite (proj2 (Nat.eqb_neq y x)) by done.
    assert (Hz : exists z i, p !! y = Some z /\ up p z r i /\ (i <= j)%nat).
    { inversion Hy as [? Hy'|? z ? i Hy' _ Hz]; subst; [exists r, O; split_and!; [done|by constructor|done]|].
      exists z, i. split_and!; [done|done|lia]. }
    destruct Hz as (z & i & Hyz & Hzr & Hi). rewrite Hyz. cbn [mbind option_bind].
    destruct (halve_up p x y z z r i Hx Hne Hyz Hzr) as (i' & Hi' & Hu').
    destruct (IH (<[x := z]> p) z r i' Hu' ltac:(lia)) as (p' & -> & Hl & Hp'). exists p'. split; [done|].
    rewrite length_insert in Hl. split; [done|]. intros w r' k' Hw.
    destruct (halve_up p x y z w r' k' Hx Hne Hyz Hw) as (k1 & Hk1 & Hw1).
    destruct (Hp' w r' k1 Hw1) as (k2 & Hk2 & Hw2). exists k2. split; [lia|done].
Qed.

(** ** Union *)

Definition root (p : list nat) (w r : nat) : Prop := exists k, up p w r k.
Definition forest (p : list nat) : Prop := forall w, (w < length p)%nat -> exists r, root p w r.
Definition same (p : list nat) (u v : nat) : Prop := exists r, root p u r /\ root p v r.

Lemma root_det p w r r' : root p w r -> root p w r' -> r = r'.
Proof. intros [k H] [k' H']. by destruct (up_det _ _ _ _ H _ _ H'). Qed.

Lemma root_range p w r : root p w r -> (w < length p)%nat /\ (r < length p)%nat.
Proof.
  intros [k H]. split; [|by eapply lookup_lt_Some, up_root_of]. inversion H; subst; by eapply lookup_lt_Some.
Qed.

Lemma keeps_forest p p' : forest p -> keeps_roots p p' -> forest p' /\ forall w r, root p' w r <-> root p w r.
Proof.
  intros Hf [Hl Hk]. assert (H1 : forall w r, root p w r -> root p' w r).
  { intros w r [k H]. destruct (Hk w r k H) as (k' & _ & H'). by exists k'. }
  assert (Hf' : forest p') by (intros w Hw; rewrite Hl in Hw; destruct (Hf w Hw) as [r Hr]; exists r; by apply H1).
  split; [done|]. intros w r. split; [|apply H1]. intros Hr. destruct (root_range _ _ _ Hr) as [Hw _]. rewrite Hl in Hw.
  destruct (Hf w Hw) as [r' Hr']. by rewrite (root_det p' w r r' Hr (H1 w r' Hr')).
Qed.

Lemma find_root p x : forest p -> (x < length p)%nat ->
  exists p' r, find (length p) p x = Some (p', r) /\ root p x r /\ length p' = length p /\ forest p'
    /\ forall w r, root p' w r <-> root p w r.
Proof.
  intros Hf Hx. destruct (Hf x Hx) as [r [k Hk]]. destruct (find_ok (length p) p x r k Hk (up_short _ _ _ _ Hk)) as (p' & E & Hkeep).
  exists p', r. destruct (keeps_forest p p' Hf Hkeep). split_and!; [done|by exists k|apply Hkeep|done|done].
Qed.

Lemma link_up p a b w r k : p !! a = Some a -> p !! b = Some b -> a <> b -> up p w r k ->
  exists k', up (<[a := b]> p) w (if decide (r = a) then b else r) k'.
Proof.
  intros Ha Hb Hab. assert (Hlen : (a < length p)%nat) by by eapply lookup_lt_Some.
  assert (Hb' : up (<[a := b]> p) b b 0) by (constructor; by rewrite list_lookup_insert_ne).
  induction 1 as [w Hw|w y r k Hw Hne _ [k' IH]].
  - destruct (decide (w = a)) as [->|Hwa].
    + exists 1%nat. eapply up_step; [by apply list_lookup_insert_eq|done|done].
    + exists O. constructor. by rewrite list_lookup_insert_ne.
  - exists (S k'). eapply up_step; [|done|done]. rewrite list_lookup_insert_ne; [done|]. intros ->. congruence.
Qed.

Lemma link_root p a b : forest p -> root p a a -> root p b b -> a <> b ->
  forest (<[a := b]> p) /\ forall w r, root (<[a := b]> p) w r <-> exists r0, root p w r0 /\ r = if decide (r0 = a) then b else r0.
Proof.
  intros Hf [ka Ha%up_root_of] [kb Hb%up_root_of] Hab.
  assert (H1 : forall w r, root p w r -> root (<[a := b]> p) w (if decide (r = a) then b else r)).
  { intros w r [k Hk]. destruct (link_up p a b w r k Ha Hb Hab Hk) as [k' H]. by exists k'. }
  assert (Hf' : forest (<[a := b]> p)).
  { intros w Hw. rewrite length_insert in Hw. destruct (Hf w Hw) as [r Hr]. eexists. by apply H1. }
  split; [done|]. intros w r. split.
  - intros Hr. destruct (root_range _ _ _ Hr) as [Hw _]. rewrite length_insert in Hw. destruct (Hf w Hw) as [r0 Hr0].
    exists r0. split; [done|]. eapply root_det; [done|by apply H1].
  - intros (r0 & Hr0 & ->). by apply H1.
Qed.

Lemma link_same p a b x y u v : forest p -> root p x a -> root p y b -> a <> b -> root p a a -> root p b b ->
  same (<[a := b]> p) u v <-> same p u v \/ (same p u x /\ same p y v) \/ (same p u y /\ same p x v).
Proof.
  intros Hf Hx Hy Hab Ha Hb. destruct (link_root p a b Hf Ha Hb Hab) as [_ Hr]. unfold same. split.
  - intros (r & (ru & Hu & E1)%Hr & (rv & Hv & E2)%Hr). destruct (decide (ru = a)) as [->|Hua], (decide (rv = a)) as [->|Hva].
    + left. by exists a.
    + right. left. split; [by exists a|]. exists b. assert (rv = b) as -> by congruence. done.
    + right. right. assert (ru = b) as -> by congruence. split; [by exists b|by exists a].
    + left. assert (ru = rv) as -> by congruence. by exists rv.
  - intros [(r & Hu & Hv)|[[(r1 & Hu & Hx') (r2 & Hy' & Hv)]|[(r1 & Hu & Hy') (r2 & Hx' & Hv)]]].
    + eexists. split; apply Hr; by exists r.
    + pose proof (root_det _ _ _ _ Hx Hx') as <-. pose proof (root_det _ _ _ _ Hy Hy') as <-.
      exists b. split; apply Hr; [exists a|exists b]; (split; [done|]); [by rewrite decide_True|by rewrite decide_False by congruence].
    + pose proof (root_det _ _ _ _ Hx Hx') as <-. pose proof (root_det _ _ _ _ Hy Hy') as <-.
      exists b. split; apply Hr; [exists b|exists a]; (split; [done|]); [by rewrite decide_False by congruence|by rewrite decide_True].
Qed.

Lemma root_self p w r : root p w r -> root p r r.
Proof. intros [k H%up_root_of]. exists O. by constructor. Qed.

Lemma union_ok p rank x y : forest p -> length rank = length p -> (x < length p)%nat -> (y < length p)%nat ->
  exists p' rank', union (length p) p rank x y = Some (p', rank') /\ length p' = length p /\ length rank' = length p
    /\ forest p' /\ forall u v, same p' u v <-> same p u v \/ (same p u x /\ same p y v) \/ (same p u y /\ same p x v).
Proof.
  intros Hf Hlr Hx Hy. unfold union.
  destruct (find_root p x Hf Hx) as (p1 & a & -> & Ha & Hl1 & Hf1 & Hr1). cbn [mbind option_bind].
  rewrite <- Hl1 in Hy. destruct (find_root p1 y Hf1 Hy) as (p2 & b & Hfind & Hb & Hl2 & Hf2 & Hr2).
  rewrite <- Hl1, Hfind. cbn [mbind option_bind].
  assert (Hr : forall w r, root p2 w r <-> root p w r) by (intros; by rewrite Hr2, Hr1).
  assert (Hsame : forall u v, same p2 u v <-> same p u v) by (intros; unfold same; by setoid_rewrite Hr).
  apply Hr1 in Hb. destruct (Nat.eqb_spec a b) as [->|Hab].
  { exists p2, rank. split_and!; [done|done|congruence|done|]. intros u v. rewrite Hsame. split; [by left|].
    intros [H|[[(r1 & H1 & H2) (r2 & H3 & H4)]|[(r1 & H1 & H2) (r2 & H3 & H4)]]]; [done| |];
      exists b; [pose proof (root_det _ _ _ _ H2 Ha) as ->; pose proof (root_det _ _ _ _ H3 Hb) as ->
                |pose proof (root_det _ _ _ _ H2 Hb) as ->; pose proof (root_det _ _ _ _ H3 Ha) as ->]; done. }
  destruct (root_range _ _ _ Ha) as [_ Han]. destruct (root_range _ _ _ Hb) as [_ Hbn].
  destruct (lookup_lt_is_Some_2 rank a) as [rx ->]; [lia|]. destruct (lookup_lt_is_Some_2 rank b) as [ry ->]; [lia|].
  cbn [mbind option_bind].
  assert (Ha2 : root p2 a a) by (apply Hr; by eapply root_self). assert (Hb2 : root p2 b b) by (apply Hr; by eapply root_self).
  assert (L1 : forest (<[a := b]> p2) /\ forall u v, same (<[a := b]> p2) u v <-> same p u v \/ (same p u x /\ same p y v) \/ (same p u y /\ same p x v)).
  { split; [by apply link_root|]. intros u v. rewrite (link_same p2 a b x y) by (done || by apply Hr). by rewrite !Hsame. }
  assert (L2 : forest (<[b := a]> p2) /\ forall u v, same (<[b := a]> p2) u v <-> same p u v \/ (same p u x /\ same p y v) \/ (same p u y /\ same p x v)).
  { split; [by apply link_root|]. intros u v. rewrite (link_same p2 b a y x) by (done || by apply Hr). rewrite !Hsame. naive_solver. }
  destruct L1 as [L1a L1b], L2 as [L2a L2b].
  destruct (rx ?= ry); eexists _, _; (split; [reflexivity|]); rewrite ?length_insert; split_and!; try done; congruence.
Qed.

(** ** Classes are components *)

Definition conn (es : list (nat * nat)) : nat -> nat -> Prop := rtsc (fun a b => (a, b) ∈ es).

#[export] Instance conn_equivalence es : Equivalence (conn es).
Proof. unfold conn. apply _. Qed.

Lemma conn_mono es es' u v : es ⊆ es' -> conn es u v -> conn es' u v.
Proof. intros Hs. apply rtc_subrel. intros a b [H|H]; [left|right]; by apply Hs. Qed.

Lemma conn_snoc es x y u v :
  conn (es ++ [(x, y)]) u v <-> conn es u v \/ (conn es u x /\ conn es y v) \/ (conn es u y /\ conn es x v).
Proof.
  assert (Hxy : conn (es ++ [(x, y)]) x y).
  { apply rtc_once. left. apply elem_of_app. right. by left. }
  assert (Hm : forall a b, conn es a b -> conn (es ++ [(x, y)]) a b) by (intros a b; apply conn_mono; set_solver).
  split.
  - induction 1 as [u|u w v Hs _ IH]; [left; apply rtc_refl|].
    assert (Hc : conn es u w \/ (u = x /\ w = y) \/ (u = y /\ w = x)).
    { destruct Hs as [[H|[= -> ->]%list_elem_of_singleton]%elem_of_app|[H|[= -> ->]%list_elem_of_singleton]%elem_of_app];
        [left; apply rtc_once; by left|by right; left|left; apply rtc_once; by right|by right; right]. }
    assert (T : forall a b c, conn es a b -> conn es b c -> conn es a c) by (intros a b c ??; by etransitivity).
    assert (R : forall a, conn es a a) by (intros a; reflexivity).
    assert (S : forall a b, conn es a b -> conn es b a) by (intros a b H; by symmetry).
    destruct Hc as [Hc|[[-> ->]|[-> ->]]]; destruct IH as [H|[[H1 H2]|[H1 H2]]]; eauto 7.
  - intros [H|[[H1 H2]|[H1 H2]]]; [by apply Hm| |].
    + etransitivity; [by apply Hm|]. etransitivity; [exact Hxy|by apply Hm].
    + etransitivity; [by apply Hm|]. etransitivity; [symmetry; exact Hxy|by apply Hm].
Qed.

Record classes (n : nat) (p : list nat) (rank : list Z) (es : list (nat * nat)) : Prop := {
  c_len : length p = n;
  c_rank : length rank = n;
  c_forest : forest p;
  c_same u v : (u < n)%nat -> (v < n)%nat -> same p u v <-> conn es u v;
}.

Lemma union_all_ok n v ns : (v < n)%nat -> (forall u, u ∈ ns -> (u < n)%nat) -> forall p rank es, classes n p rank es ->
  exists p' rank', union_all n p rank v ns = Some (p', rank') /\ classes n p' rank' (es ++ ((fun u => (v, u)) <$> ns)).
Proof.
  intros Hv. induction ns as [|u ns IH]; intros Hr p rank es [Hl Hlr Hf Hs]; cbn [union_all].
  { exists p, rank. rewrite app_nil_r. done. }
  assert (Hu : (u < n)%nat) by (apply Hr; by left).
  destruct (union_ok p rank v u) as (p1 & rank1 & E & L1 & L2 & Hf1 & Hs1); [done|congruence|by rewrite Hl..|].
  rewrite Hl in E. rewrite E. cbn [mbind option_bind].
  destruct (IH (fun w Hw => Hr w (proj2 (elem_of_cons _ _ _) (or_intror Hw))) p1 rank1 (es ++ [(v, u)])) as (p' & rank' & E' & C).
  { split; [congruence|congruence|done|]. intros a b Ha Hb. rewrite Hs1, conn_snoc.
    by rewrite !Hs by (done || lia). }
  exists p', rank'. split; [done|]. by rewrite <- app_assoc in C.
Qed.

Definition edges_of (succ : nat -> list nat) (vs : list nat) : list (nat * nat) :=
  vs ≫= (fun v => (fun u => (v, u)) <$> succ v).

Lemma union_edges_ok g succ vs : well_formed g succ -> (forall v, v ∈ vs -> (v < vertex_count g)%nat) ->
  forall p rank es, classes (vertex_count g) p rank es ->
  exists p' rank', union_edges g p rank vs = Some (p', rank') /\ classes (vertex_count g) p' rank' (es ++ edges_of succ vs).
Proof.
  intros Hw. induction vs as [|v vs IH]; intros Hr p rank es C; cbn [union_edges].
  { exists p, rank. unfold edges_of. cbn. by rewrite app_nil_r. }
  assert (Hv : (v < vertex_count g)%nat) by (apply Hr; by left).
  rewrite (wf_rows g succ Hw v Hv). cbn [mbind option_bind].
  destruct (union_all_ok (vertex_count g) v (succ v) Hv (fun u => wf_range g succ Hw v u Hv) p rank es C) as (p1 & rank1 & -> & C1).
  cbn [mbind option_bind].
  destruct (IH (fun w Hin => Hr w (proj2 (elem_of_cons _ _ _) (or_intror Hin))) p1 rank1 _ C1) as (p' & rank' & E & C').
  exists p', rank'. split; [done|]. unfold edges_of in *. cbn [mbind list_bind]. by rewrite app_assoc.
Qed.

Lemma edges_of_all n succ u v : conn (edges_of succ (seq 0 n)) u v <-> rtsc (edge n succ) u v.
Proof.
  assert (He : forall a b, (a, b) ∈ edges_of succ (seq 0 n) <-> edge n succ a b).
  { intros a b. unfold edges_of, edge. rewrite list_elem_of_bind. split.
    - intros (w & (x & [= -> ->] & Hx)%list_elem_of_fmap & Hw%elem_of_seq). split; [lia|done].
    - intros [Ha Hb]. exists a. split; [apply list_elem_of_fmap; by exists b|apply elem_of_seq; lia]. }
  split; apply rtc_subrel; intros a b [H|H]; [left|right|left|right]; by apply He.
Qed.

Lemma seq_classes n : classes n (seq 0 n) (replicate n 0) [].
Proof.
  assert (Hu : forall w, (w < n)%nat -> up (seq 0 n) w w 0) by (intros w Hw; constructor; apply lookup_seq; lia).
  split; [apply length_seq|apply length_replicate| |].
  - intros w Hw. rewrite length_seq in Hw. exists w, O. by apply Hu.
  - intros u v Hun Hvn. split.
    + intros (r & [k1 H1] & [k2 H2]). destruct (up_det _ _ _ _ H1 _ _ (Hu u Hun)) as [-> _].
      destruct (up_det _ _ _ _ H2 _ _ (Hu v Hvn)) as [-> _]. apply rtc_refl.
    + intros H. inversion H as [|a b c [E|E] _]; subst; [|by apply elem_of_nil in E..].
      exists v. split; exists O; by apply Hu.
Qed.

(** ** Component ids *)

(** Ids are given to roots one to one, without gaps. *)
Record numbering (cm : gmap nat Z) (next_id : Z) : Prop := {
  n_range r c : cm !! r = Some c -> 0 <= c < next_id;
  n_inj r r' c : cm !! r = Some c -> cm !! r' = Some c -> r = r';
  n_onto c : 0 <= c < next_id -> exists r, cm !! r = Some c;
  n_size : next_id = Z.of_nat (size cm);
}.

Lemma component_id_ok cm next_id r cm' next_id' cid : numbering cm next_id ->
  component_id cm next_id r = (cm', next_id', cid) ->
  numbering cm' next_id' /\ cm ⊆ cm' /\ cm' !! r = Some cid /\ (forall r', is_Some (cm' !! r') -> is_Some (cm !! r') \/ r' = r).
Proof.
  intros [Hr Hi Ho Hs]. unfold component_id. destruct (cm !! r) as [c|] eqn:E; intros [= <- <- <-].
  - split_and!; [done|done|done|by left].
  - assert (Hn : 0 <= next_id) by lia. split_and!.
    + split.
      * intros q c. rewrite lookup_insert. case_decide; [intros [= <-]; lia|]. intros Hq%Hr. lia.
      * intros q q' c. rewrite !lookup_insert. repeat case_decide; subst; try done.
        -- intros [= <-] Hq%Hr. lia.
        -- intros Hq%Hr [= <-]. lia.
        -- apply Hi.
      * intros c Hc. destruct (decide (c = next_id)) as [->|]; [exists r; by rewrite lookup_insert_eq|].
        destruct (Ho c ltac:(lia)) as [q Hq]. exists q. rewrite lookup_insert_ne; [done|congruence].
      * rewrite map_size_insert_None by done. lia.
    + by apply insert_subseteq.
    + apply lookup_insert_eq.
    + intros q. rewrite lookup_insert. case_decide; [by right|by left].
Qed.

Lemma assign_ok g p0 slots : forest p0 -> length p0 = vertex_count g ->
  (forall s, s ∈ slots -> (s < vertex_count g)%nat /\ is_Some (to_vid g s)) ->
  forall p cm next_id res, length p = vertex_count g -> forest p -> (forall w r, root p w r <-> root p0 w r) -> numbering cm next_id ->
  exists cm' next_id' news, assign g p cm next_id res slots = Some (cm', res ++ news) /\ numbering cm' next_id' /\ cm ⊆ cm'
    /\ Forall2 (fun s vc => to_vid g s = Some vc.1 /\ exists r, root p0 s r /\ cm' !! r = Some vc.2) slots news
    /\ (forall r, is_Some (cm' !! r) -> is_Some (cm !! r) \/ exists s, s ∈ slots /\ root p0 s r).
Proof.
  intros Hf0 Hl0. induction slots as [|s slots IH]; intros Hsl p cm next_id res Hl Hf Hr Hn; cbn [assign].
  { exists cm, next_id, []. rewrite app_nil_r. split_and!; [done|done|done|constructor|by left]. }
  destruct (Hsl s ltac:(by left)) as [Hs [vid Hvid]]. rewrite <- Hl in Hs.
  destruct (find_root p s Hf Hs) as (p1 & r & Hfind & Hrt & Hl1 & Hf1 & Hr1). rewrite <- Hl, Hfind. cbn [mbind option_bind].
  destruct (component_id cm next_id r) as [[cm1 id1] cid] eqn:Ec.
  destruct (component_id_ok _ _ _ _ _ _ Hn Ec) as (Hn1 & Hsub & Hcid & Hdom). rewrite Hvid. cbn [mbind option_bind].
  destruct (IH (fun q Hq => Hsl q (proj2 (elem_of_cons _ _ _) (or_intror Hq))) p1 cm1 id1 (res ++ [(vid, cid)]))
    as (cm' & id' & news & E & Hn' & Hsub' & H2 & Hdom'); [congruence|done|by intros; rewrite Hr1, Hr|done|].
  exists cm', id', ((vid, cid) :: news). rewrite E. split_and!.
  - by rewrite <- app_assoc.
  - done.
  - by etransitivity.
  - constructor; [|done]. split; [done|]. exists r. split; [by apply Hr|]. by eapply lookup_weaken.
  - intros q [H|(s' & Hs' & Hq)]%Hdom'.
    + apply Hdom in H as [H| ->]; [by left|]. right. exists s. split; [by left|by apply Hr].
    + right. exists s'. split; [by right|done].
Qed.

(** The results, read as a labelling of the slots. *)
Lemma labelled g p slots news (cm : gmap nat Z) :
  Forall2 (fun s vc => to_vid g s = Some vc.1 /\ exists r, root p s r /\ cm !! r = Some vc.2) slots news ->
  mapM (to_vid g) slots = Some news.*1 /\ forall i s, slots !! i = Some s ->
    exists vid c r, news !! i = Some (vid, c) /\ root p s r /\ cm !! r = Some c.
Proof.
  intros H2. split.
  - apply mapM_Some, Forall2_fmap_r. eapply Forall2_impl; [done|]. by intros s vc [? _].
  - intros i s Hi. destruct (Forall2_lookup_l _ _ _ _ _ H2 Hi) as ([vid c] & Hn & _ & r & Hr & Hc). by exists vid, c, r.
Qed.

Lemma zip_fst_snd {A B} (l : list (A * B)) : zip l.*1 l.*2 = l.
Proof. induction l as [|[a b] l IH]; [done|]. cbn. by rewrite IH. Qed.

Lemma sizes_count (results : list (Z * Z)) : forall (s : gmap Z nat) c,
  default O (foldl (fun (s : gmap Z nat) r => <[r.2 := S (default O (s !! r.2))]> s) s results !! c)
  = (default O (s !! c) + length (filter (fun r => r.2 = c) results))%nat.
Proof.
  induction results as [|r results IH]; intros s c; cbn [foldl]; [cbn; lia|]. rewrite IH, filter_cons.
  rewrite lookup_insert. destruct (decide (r.2 = c)) as [->|]; [cbn; lia|done].
Qed.
End wcc.

Lemma count_fmap {A} (f : A -> Z) (c : Z) (l : list A) :
  length (filter (fun x => x = c) (f <$> l)) = length (filter (fun a => f a = c) l).
Proof.
  induction l as [|a l IH]; [done|]. cbn [fmap list_fmap]. rewrite !filter_cons. case_decide; cbn; by rewrite IH.
Qed.

Lemma filter_small_spec min_size (results : list (Z * Z)) (count : Z -> nat) :
  (forall c, length (filter (fun r : Z * Z => r.2 = c) results) = count c) ->
  filter_small min_size results = filter (fun r => (default O min_size <= count r.2)%nat) results.
Proof.
  intros Hc. unfold filter_small. destruct min_size as [k|].
  - apply list_filter_iff. intros r. rewrite sizes_count, lookup_empty, Hc. done.
  - clear Hc. induction results as [|r results IH]; [done|]. rewrite filter_cons_True by (cbn; lia). by rewrite <- IH.
Qed.

(** C28: the components are the connected ones.  On a well-formed projection
    the run ends without a panic and gives each vertex a component id so that
    two vertices share an id exactly when they are connected, ignoring
    direction; the ids are 0 up to the number of components; and a minimum
    size keeps exactly the vertices of components at least that large. *)
Theorem wcc_correct {W} `{TC : TotalCmp W} (g : GraphProjection W) (succ : nat -> list nat) (min_size : option nat) :
  well_formed g succ ->
  exists r (cid : nat -> Z) vids, run g min_size = Some r
    /\ (forall u v, (u < vertex_count g)%nat -> (v < vertex_count g)%nat ->
          cid u = cid v <-> rtsc (edge (vertex_count g) succ) u v)
    /\ (forall u, (u < vertex_count g)%nat -> 0 <= cid u < Z.of_nat (component_count r))
    /\ (forall c, 0 <= c < Z.of_nat (component_count r) -> exists u, (u < vertex_count g)%nat /\ cid u = c)
    /\ mapM (to_vid g) (seq 0 (vertex_count g)) = Some vids
    /\ components r = filter (fun vc => (default O min_size <= length (filter (fun u => cid u = vc.2) (seq 0 (vertex_count g))))%nat)
                        (zip vids (cid <$> seq 0 (vertex_count g))).
Proof.
  intros Hw. set (n := vertex_count g). unfold run. fold n. destruct (Nat.eqb_spec n 0) as [Hn|Hn].
  { exists (mkWcc [] 0), (fun _ => 0), []. rewrite Hn. split_and!; try done; cbn; lia. }
  destruct (union_edges_ok g succ (seq 0 n) Hw) with (p := seq 0 n) (rank := replicate n 0) (es := @nil (nat * nat))
    as (p & rank & -> & C).
  { intros v Hv%elem_of_seq. fold n. lia. } { apply seq_classes. }
  cbn [mbind option_bind]. fold n in C. destruct C as [Hl _ Hf Hs].
  destruct (assign_ok g p (seq 0 n) Hf Hl) with (p := p) (cm := ∅ : gmap nat Z) (next_id := 0) (res := @nil (Z * Z))
    as (cm & next_id & news & -> & Hnum & _ & H2 & Hdom); [|done|done|done| |].
  { intros s Hs'%elem_of_seq. fold n. split; [lia|]. apply (wf_ids g succ Hw). fold n. lia. }
  { split; [by intros ? ?; rewrite lookup_empty|by intros ? ? ?; rewrite lookup_empty|lia|done]. }
  cbn [mbind option_bind app].
  destruct (labelled g p (seq 0 n) news cm H2) as [Hids Hlab].
  set (cid := fun u => default 0 (snd <$> news !! u)).
  assert (Hcid : forall u, (u < n)%nat -> exists r, root p u r /\ cm !! r = Some (cid u)).
  { intros u Hu. destruct (Hlab u u) as (vid & c & r & Hn' & Hr & Hc); [apply lookup_seq; lia|]. exists r. unfold cid. by rewrite Hn'. }
  assert (Hlen : length news = n) by (apply Forall2_length in H2; by rewrite length_seq in H2).
  assert (Hsnd : news.*2 = cid <$> seq 0 n).
  { apply (list_eq_same_length _ _ n); [by rewrite length_fmap, length_seq|by rewrite length_fmap|]. intros u x y Hu.
    rewrite !list_lookup_fmap, lookup_seq_lt by done. intros Hx [= <-]. unfold cid. cbn [Nat.add]. by rewrite Hx. }
  exists (mkWcc (filter_small min_size news) (size cm)), cid, news.*1.
  cbn [components component_count]. rewrite <- (n_size cm next_id Hnum). split_and!; [done| | | |done|].
  - intros u v Hu Hv. rewrite <- edges_of_all, <- (Hs u v Hu Hv). destruct (Hcid u Hu) as (ru & Hru & Ecu), (Hcid v Hv) as (rv & Hrv & Ecv). split.
    + intros E. rewrite E in Ecu. pose proof (n_inj cm next_id Hnum _ _ _ Ecu Ecv) as ->. by exists rv.
    + intros (r & H1 & H3). rewrite (root_det _ _ _ _ Hru H1) in Ecu. rewrite (root_det _ _ _ _ Hrv H3) in Ecv. congruence.
  - intros u Hu. destruct (Hcid u Hu) as (r & _ & Hc). by apply (n_range cm next_id Hnum r).
  - intros c Hc. destruct (n_onto cm next_id Hnum c Hc) as [r Hr].
    destruct (Hdom r ltac:(by eexists)) as [[x Hx]|(s & Hs'%elem_of_seq & Hrs)]; [by rewrite lookup_empty in Hx|].
    exists s. split; [lia|]. destruct (Hcid s ltac:(lia)) as (r' & Hr' & Hc'). rewrite (root_det _ _ _ _ Hr' Hrs) in Hc'. congruence.
  - rewrite <- Hsnd, zip_fst_snd. rewrite (filter_small_spec min_size news (fun c : Z => length (filter (fun u : nat => cid u = c) (seq 0 n)))); [done|].
    intros c. transitivity (length (filter (fun x : Z => x = c) news.*2)); [symmetry; apply (count_fmap snd c news)|].
    rewrite Hsnd. apply (count_fmap cid c (seq 0 n)).
Qed.

(** ** Examples *)

Module WccExamples.
Import ProjectionExamples.

(** Two components, {0, 1} and {2}. *)
Definition two_parts : list (nat * nat * Z) := [(1%nat, 0%nat, 1)].

Example two_parts_run :
  (g ← from_dense_edges 3 two_parts false false; run g (Some 2%nat)) = Some (mkWcc [(0, 0); (1, 0)] 2).
Proof. reflexivity. Qed.

Lemma wcc_correct_witness :
  exists g r (cid : nat -> Z), from_dense_edges 3 two_parts false false = Some g /\ run g None = Some r /\ component_count r = 2%nat
    /\ (cid 0%nat = cid 1%nat <-> rtsc (edge 3 (succs two_parts)) 0%nat 1%nat).
Proof.
  destruct (dense_well_formed 3 two_parts false false) as (g & Hg & Hw); [lia|by vm_compute|repeat constructor; vm_compute; lia|].
  destruct (wcc_correct g (succs two_parts) None Hw) as (r & cid & vids & Hr & Hc & _). exists g, r, cid.
  assert (Hn : vertex_count g = 3%nat) by (vm_compute in Hg; injection Hg as <-; reflexivity).
  split; [exact Hg|]. split; [exact Hr|]. split.
  - vm_compute in Hg. injection Hg as <-. vm_compute in Hr. injection Hr as <-. reflexivity.
  - rewrite Hn in Hc. apply Hc; lia.
Defined.
End WccExamples.
