(* ===== verification/Sparse.v ===== *)
(** * Sparse vectors

    crates/uni-sparse-vector/src: sparse.rs (the type and its validating
    constructors), encode.rs (the binary form), ops.rs (dot product, norm,
    pruning).  An f32 is its 32-bit pattern; arithmetic goes through the
    specification floats of the standard library with 24 bits of precision and
    maximal exponent 128, a NaN result being the quiet NaN.  [sparse_dot] runs
    on fuel, the sum of the lengths: every step consumes a term.  [None] is a
    panic.  Lengths stay below 2^61, so that the sizes in bytes fit a usize. *)

From Stdlib Require Import SpecFloat.
From S2P Require Import Prelude Csr.

(** ** f32 *)

Module F32.
Definition exponent (b : Z) : Z := Z.land (Z.shiftr b 23) 255.
Definition mantissa (b : Z) : Z := Z.land b (2 ^ 23 - 1).
Definition is_finite (b : Z) : bool := negb (exponent b =? 255).
Definition is_nan (b : Z) : bool := (exponent b =? 255) && negb (mantissa b =? 0).
Definition abs (b : Z) : Z := Z.land b (2 ^ 31 - 1).
(** [x.abs().partial_cmp(&y.abs())]: the patterns of floats without a sign compare as the floats. *)
Definition partial_cmp_abs (x y : Z) : option comparison :=
  if is_nan x || is_nan y then None else Some (abs x ?= abs y).

Definition of_bits (b : Z) : spec_float :=
  let s := Z.testbit b 31 in
  let e := exponent b in
  match mantissa b with
  | Z0 => if e =? 0 then S754_zero s else if e =? 255 then S754_infinity s else S754_finite s (2 ^ 23) (e - 150)
  | Zpos m =>
      if e =? 0 then S754_finite s m (-149)
      else if e =? 255 then S754_nan
      else S754_finite s (m + 2 ^ 23) (e - 150)
  | Zneg _ => S754_nan
  end.
Definition to_bits (f : spec_float) : Z :=
  let sign (s : bool) := if s then 2 ^ 31 else 0 in
  match f with
  | S754_zero s => sign s
  | S754_infinity s => sign s + 255 * 2 ^ 23
  | S754_nan => 511 * 2 ^ 22
  | S754_finite s m e =>
      if Zpos m <? 2 ^ 23 then sign s + Zpos m else sign s + (e + 150) * 2 ^ 23 + (Zpos m - 2 ^ 23)
  end.
Definition add (x y : Z) : Z := to_bits (SFadd 24 128 (of_bits x) (of_bits y)).
Definition mul (x y : Z) : Z := to_bits (SFmul 24 128 (of_bits x) (of_bits y)).
Definition sqrt (x : Z) : Z := to_bits (SFsqrt 24 128 (of_bits x)).
(** [Iterator::sum] on floats starts at -0.0. *)
Definition sum (l : list Z) : Z := foldl add (2 ^ 31) l.

Lemma mul_comm x y : mul x y = mul y x.
Proof.
  unfold mul. f_equal. destruct (of_bits x) as [s|s| |s m e], (of_bits y) as [s'|s'| |s' m' e']; cbn; try done;
    rewrite (xorb_comm s s'); try done. by rewrite Pos.mul_comm, Z.add_comm.
Qed.
Lemma finite_not_nan x : is_finite x = true -> is_nan x = false.
Proof. unfold is_finite, is_nan. by destruct (exponent x =? 255). Qed.

Example add_ok : add 1065353216 1056964608 = 1069547520. (* 1.0 + 0.5 = 1.5 *)
Proof. reflexivity. Qed.
Example mul_ok : mul 1077936128 3204448256 = 3217031168. (* 3.0 * -0.5 = -1.5 *)
Proof. reflexivity. Qed.
Example overflow_inf : add 2139095039 2139095039 = 255 * 2 ^ 23.
Proof. reflexivity. Qed.
Example tiny_halved : mul 1 1056964608 = 0.
Proof. reflexivity. Qed.
End F32.

(** ** The type *)

Record SparseVector := mkSparse { indices : list Z; values : list Z }.

Inductive SparseError :=
| LengthMismatch (indices values : nat)
| UnsortedIndices (position : nat) (prev curr : Z)
| NonFiniteWeight (position : nat) (value : Z)
| Truncated (need got : Z)
| TrailingBytes (trailing : Z).

#[export] Instance sparse_eq_dec : EqDecision SparseVector.
Proof. solve_decision. Defined.

(** [indices.windows(2).enumerate()] *)
Fixpoint first_unsorted (prev_pos : nat) (indices : list Z) : option SparseError :=
  match indices with
  | prev :: (curr :: _) as rest =>
      if curr <=? prev then Some (UnsortedIndices (prev_pos + 1) prev curr) else first_unsorted (S prev_pos) rest
  | _ => None
  end.
Fixpoint first_non_finite (position : nat) (values : list Z) : option SparseError :=
  match values with
  | [] => None
  | v :: vs => if F32.is_finite v then first_non_finite (S position) vs else Some (NonFiniteWeight position v)
  end.

Definition new (indices values : list Z) : result SparseError SparseVector :=
  if negb (Nat.eqb (length indices) (length values)) then Err (LengthMismatch (length indices) (length values))
  else
    match first_unsorted 0 indices with
    | Some e => Err e
    | None =>
        match first_non_finite 0 values with
        | Some e => Err e
        | None => Ok (mkSparse indices values)
        end
    end.

(** [*values.last_mut() += weight] when the term is the last one, else push. *)
Fixpoint gather (indices values : list Z) (pairs : list (Z * Z)) : option (list Z * list Z) :=
  match pairs with
  | [] => Some (indices, values)
  | (term, weight) :: pairs =>
      if decide (last indices = Some term) then
        w ← last values;
        gather indices (removelast values ++ [F32.add w weight]) pairs
      else gather (indices ++ [term]) (values ++ [weight]) pairs
  end.

Definition from_pairs (pairs : list (Z * Z)) : option (result SparseError SparseVector) :=
  '(ids, vs) ← gather [] [] (sort_by_src pairs); Some (new ids vs).

Definition sv_len (v : SparseVector) : nat := length (indices v).
Definition sv_is_empty (v : SparseVector) : bool := match indices v with [] => true | _ => false end.
Definition sv_iter (v : SparseVector) : list (Z * Z) := zip (indices v) (values v).

(** ** The binary form *)

Definition encode (sv : SparseVector) : list Z :=
  to_le_bytes 4 (Z.of_nat (sv_len sv) mod 2 ^ 32)
  ++ mjoin (to_le_bytes 4 <$> indices sv) ++ mjoin (to_le_bytes 4 <$> values sv).

(** [as_chunks::<4>().0], each read little-endian. *)
Fixpoint words (bytes : list Z) : list Z :=
  match bytes with
  | a :: b :: c :: d :: rest => from_le_bytes [a; b; c; d] :: words rest
  | _ => []
  end.

Definition decode_slice (bytes : list Z) : result SparseError SparseVector :=
  let len := Z.of_nat (length bytes) in
  if len <? 4 then Err (Truncated 4 len)
  else
    let count := from_le_bytes (take 4 bytes) in
    let need := 4 + count * 8 in
    if len <? need then Err (Truncated need len)
    else if len >? need then Err (TrailingBytes (len - need))
    else
      let body := drop 4 bytes in
      new (words (take (Z.to_nat count * 4) body)) (words (drop (Z.to_nat count * 4) body)).

(** ** Kernels *)

Fixpoint dot_loop (fuel : nat) (a b : SparseVector) (i j : nat) (acc : Z) : option Z :=
  match indices a !! i, indices b !! j with
  | Some x, Some y =>
      match fuel with
      | O => None
      | S fuel =>
          match x ?= y with
          | Lt => dot_loop fuel a b (S i) j acc
          | Gt => dot_loop fuel a b i (S j) acc
          | Eq =>
              v ← values a !! i;
              w ← values b !! j;
              dot_loop fuel a b (S i) (S j) (F32.add acc (F32.mul v w))
          end
      end
  | _, _ => Some acc
  end.
Definition sparse_dot (a b : SparseVector) : option Z := dot_loop (sv_len a + sv_len b) a b 0 0 0.

Definition l2_norm (v : SparseVector) : Z := F32.sqrt (F32.sum ((fun w => F32.mul w w) <$> values v)).

(** The comparison of two positions: larger weight first, then lower term id. *)
Definition rank_cmp (v : SparseVector) (x y : nat) : comparison :=
  match values v !! x, values v !! y, indices v !! x, indices v !! y with
  | Some vx, Some vy, Some ix, Some iy => then_cmp (default Eq (F32.partial_cmp_abs vy vx)) (ix ?= iy)
  | _, _, _, _ => Eq
  end.
Definition rank_le (v : SparseVector) (x y : nat) : Prop := rank_cmp v x y <> Gt.
#[export] Instance rank_le_dec v : RelDecision (rank_le v).
Proof. intros x y. unfold rank_le. apply _. Defined.

Definition prune_top_k (v : SparseVector) (k : nat) : option SparseVector :=
  if (sv_len v <=? k)%nat then Some v
  else if Nat.eqb k 0 then ok (new [] [])
  else
    let order := merge_sort (rank_le v) (seq 0 (sv_len v)) in
    let order := merge_sort le (take k order) in
    ids ← mapM (fun p => indices v !! p) order;
    vs ← mapM (fun p => values v !! p) order;
    ok (new ids vs).

(** ** Validity *)

Record valid (v : SparseVector) : Prop := {
  va_len : length (indices v) = length (values v);
  va_sorted : StronglySorted Z.lt (indices v);
  va_finite : Forall (fun w => F32.is_finite w = true) (values v);
}.

Lemma first_unsorted_spec k ids : first_unsorted k ids = None <-> StronglySorted Z.lt ids.
Proof.
  assert (Hs : first_unsorted k ids = None <-> Sorted Z.lt ids).
  { revert k. induction ids as [|x ids IH]; intros k; [split; [constructor|done]|]. cbn [first_unsorted]. destruct ids as [|y ids].
    - split; [repeat constructor|done].
    - destruct (Z.leb_spec y x); [split; [done|]|rewrite IH]; [|split; [intros Hy; constructor; [done|by constructor]|by inversion 1]].
      inversion 1 as [|? ? _ Hh]; subst. inversion Hh; subst. lia. }
  rewrite Hs. split; [apply Sorted_StronglySorted; intros ???; lia|apply StronglySorted_Sorted].
Qed.

Lemma first_non_finite_spec k vs : first_non_finite k vs = None <-> Forall (fun w => F32.is_finite w = true) vs.
Proof.
  revert k. induction vs as [|v vs IH]; intros k; [done|]. cbn. rewrite Forall_cons.
  destruct (F32.is_finite v); [rewrite IH|]; naive_solver.
Qed.

(** The constructor accepts exactly the valid arrays, unchanged. *)
Lemma new_spec ids vs v : new ids vs = Ok v <-> v = mkSparse ids vs /\ valid v.
Proof.
  unfold new. destruct (Nat.eqb_spec (length ids) (length vs)) as [Hl|Hl]; cbn [negb].
  - destruct (first_unsorted 0 ids) eqn:Es; [|destruct (first_non_finite 0 vs) eqn:Ef].
    + split; [done|]. intros [-> [_ Hv _]]. apply (first_unsorted_spec 0) in Hv. cbn in Hv. congruence.
    + split; [done|]. intros [-> [_ _ Hv]]. apply (first_non_finite_spec 0) in Hv. cbn in Hv. congruence.
    + apply first_unsorted_spec in Es. apply first_non_finite_spec in Ef. split; [intros [= <-]; by repeat split|by intros [-> _]].
  - split; [done|]. intros [-> [Hv _ _]]. done.
Qed.

(** ** Encoding *)


Lemma words_app w bytes : words (to_le_bytes 4 w ++ bytes) = w mod 2 ^ 32 :: words bytes.
Proof. change (2 ^ 32) with (256 ^ Z.of_nat 4). rewrite <- from_to_le_bytes. reflexivity. Qed.

Lemma words_join l : Forall is_u32 l -> words (mjoin (to_le_bytes 4 <$> l)) = l.
Proof.
  induction 1 as [|w l Hw _ IH]; [done|]. rewrite fmap_cons.
  change (mjoin (to_le_bytes 4 w :: (to_le_bytes 4 <$> l))) with (to_le_bytes 4 w ++ mjoin (to_le_bytes 4 <$> l)).
  rewrite words_app, IH. by rewrite Z.mod_small.
Qed.

Lemma length_join l : length (mjoin (to_le_bytes 4 <$> l)) = (length l * 4)%nat.
Proof.
  induction l as [|w l IH]; [done|]. rewrite fmap_cons. change (mjoin (?x :: ?y)) with (x ++ mjoin y).
  rewrite length_app, length_to_le_bytes, IH. cbn. lia.
Qed.

Lemma join_words n : forall bytes, Forall is_u8 bytes -> length bytes = (n * 4)%nat ->
  mjoin (to_le_bytes 4 <$> words bytes) = bytes /\ length (words bytes) = n /\ Forall is_u32 (words bytes).
Proof.
  induction n as [|n IH]; intros bytes Hb Hl.
  { apply nil_length_inv in Hl as ->. by repeat split. }
  destruct bytes as [|a [|b [|c [|d rest]]]]; cbn in Hl; try lia. cbn [words].
  assert (Hw : Forall is_u8 [a; b; c; d] /\ Forall is_u8 rest) by (apply Forall_app; exact Hb). destruct Hw as [Hw Hr].
  destruct (IH rest Hr) as (E & El & Ef); [lia|]. split_and!.
  - rewrite fmap_cons. change (mjoin (?x :: ?y)) with (x ++ mjoin y). rewrite E.
    change 4%nat with (length [a; b; c; d]). by rewrite to_from_le_bytes.
  - cbn [length]. by rewrite El.
  - constructor; [|done]. exact (from_le_bytes_bound [a; b; c; d] Hw).
Qed.

(** ** The dot product *)

Lemma strict_NoDup (l : list Z) : StronglySorted Z.lt l -> NoDup l.
Proof. induction 1 as [|x l _ IH Hf]; constructor; [|done]. intros Hx. rewrite Forall_forall in Hf. specialize (Hf x Hx). lia. Qed.
Lemma strongly_drop {A} (R : A -> A -> Prop) l i : StronglySorted R l -> StronglySorted R (drop i l).
Proof. intros Hs. revert i. induction Hs; intros [|i]; cbn; try done; by constructor. Qed.

(** The weight of a term, and the terms two vectors share in ascending order. *)
Definition weight (v : SparseVector) (t : Z) : Z := default 0 ((list_to_map (sv_iter v) : gmap Z Z) !! t).
Definition shared (a b : SparseVector) : list Z := filter (fun t => t ∈ indices b) (indices a).
Definition dot_reference (a b : SparseVector) : Z :=
  foldl (fun acc t => F32.add acc (F32.mul (weight a t) (weight b t))) 0 (shared a b).

Lemma weight_at v i x : valid v -> indices v !! i = Some x -> values v !! i = Some (weight v x).
Proof.
  intros [Hl Hs _] Hi. destruct (lookup_lt_is_Some_2 (values v) i) as [w Hw]; [rewrite <- Hl; by eapply lookup_lt_Some|].
  rewrite Hw. f_equal. unfold weight, sv_iter. erewrite (elem_of_list_to_map_1 _ x w); [done| |].
  - rewrite fst_zip by lia. by apply strict_NoDup.
  - apply (list_elem_of_lookup_2 _ i). rewrite lookup_zip_with, Hi. cbn. by rewrite Hw.
Qed.

Lemma filter_shift (l : list Z) y (r : list Z) : Forall (fun t => t <> y) l ->
  filter (fun t => t ∈ y :: r) l = filter (fun t => t ∈ r) l.
Proof.
  induction 1 as [|t l Ht _ IH]; [done|]. rewrite !filter_cons, IH. by rewrite (decide_ext (t ∈ y :: r) (t ∈ r)) by set_solver.
Qed.

Lemma filter_no_member (l : list Z) : filter (fun t => t ∈ @nil Z) l = [].
Proof. induction l as [|x l IH]; [done|]. rewrite filter_cons_False; [done|]. apply not_elem_of_nil. Qed.

Lemma dot_loop_ok a b : valid a -> valid b -> forall fuel i j acc,
  (length (drop i (indices a)) + length (drop j (indices b)) <= fuel)%nat ->
  dot_loop fuel a b i j acc
  = Some (foldl (fun acc t => F32.add acc (F32.mul (weight a t) (weight b t))) acc
            (filter (fun t => t ∈ drop j (indices b)) (drop i (indices a)))).
Proof.
  intros Ha Hb. induction fuel as [|fuel IH]; intros i j acc Hf; cbn [dot_loop];
    (destruct (indices a !! i) as [x|] eqn:Ei; [|by rewrite (drop_ge (indices a) i) by by apply lookup_ge_None]);
    (destruct (indices b !! j) as [y|] eqn:Ej;
      [|rewrite (drop_ge (indices b) j) by (by apply lookup_ge_None); by rewrite filter_no_member]);
    pose proof (drop_S _ _ _ Ei) as Da; pose proof (drop_S _ _ _ Ej) as Db;
    rewrite Da, Db in *; cbn [length] in Hf; [lia|].
  pose proof (strongly_drop _ _ i (va_sorted a Ha)) as Sa. pose proof (strongly_drop _ _ j (va_sorted b Hb)) as Sb.
  rewrite Da in Sa. rewrite Db in Sb. apply StronglySorted_inv in Sa as [Sa Ga]. apply StronglySorted_inv in Sb as [Sb Gb].
  destruct (Z.compare_spec x y) as [->|Hlt|Hgt].
  - rewrite (weight_at a i y Ha Ei), (weight_at b j y Hb Ej). cbn [mbind option_bind]. rewrite IH by lia.
    rewrite filter_cons_True by by left. cbn [foldl]. rewrite filter_shift; [done|].
    eapply Forall_impl; [exact Ga|]. cbn. lia.
  - rewrite IH by (rewrite Db; cbn; lia). rewrite filter_cons_False, Db; [done|].
    rewrite elem_of_cons. intros [?|Hx]; [lia|]. rewrite Forall_forall in Gb. specialize (Gb x Hx). lia.
  - rewrite IH by (rewrite Da; cbn; lia). rewrite Da, filter_shift; [done|]. constructor; [lia|].
    eapply Forall_impl; [exact Ga|]. cbn. lia.
Qed.

Lemma shared_sym a b : valid a -> valid b -> shared a b = shared b a.
Proof.
  intros Ha Hb. assert (Hs : forall v w, valid v -> StronglySorted Z.lt (shared v w)).
  { intros v w Hv. unfold shared. induction (va_sorted v Hv) as [|x l _ IH Hf]; [constructor|]. rewrite filter_cons.
    case_decide; [|done]. constructor; [done|]. rewrite Forall_forall in *. intros y [_ Hy]%list_elem_of_filter. by apply Hf. }
  apply (StronglySorted_unique_strong Z.lt); [lia|by apply Hs|by apply Hs|]. apply NoDup_Permutation.
  - by apply strict_NoDup, Hs.
  - by apply strict_NoDup, Hs.
  - intros t. unfold shared. rewrite !list_elem_of_filter. tauto.
Qed.

Lemma decode_parts bytes : 4 <= Z.of_nat (length bytes) ->
  Z.of_nat (length bytes) = 4 + from_le_bytes (take 4 bytes) * 8 ->
  decode_slice bytes =
    let n := Z.to_nat (from_le_bytes (take 4 bytes)) in
    new (words (take (n * 4) (drop 4 bytes))) (words (drop (n * 4) (drop 4 bytes))).
Proof.
  intros H4 Hl. unfold decode_slice. destruct (Z.ltb_spec (Z.of_nat (length bytes)) 4); [lia|].
  destruct (Z.ltb_spec (Z.of_nat (length bytes)) (4 + from_le_bytes (take 4 bytes) * 8)); [lia|].
  destruct (Z.gtb_spec (Z.of_nat (length bytes)) (4 + from_le_bytes (take 4 bytes) * 8)); [lia|done].
Qed.

(** The bodies that [decode_slice] reads are the ones [encode] writes. *)
Lemma sparse_decode_encode sv : valid sv -> Forall is_u32 (indices sv) -> Forall is_u32 (values sv) ->
  Z.of_nat (sv_len sv) < 2 ^ 32 -> decode_slice (encode sv) = Ok sv.
Proof.
  intros Hv Hi Hw Hn. pose proof (va_len sv Hv) as Hl. unfold sv_len in Hn.
  assert (Hc : from_le_bytes (take 4 (encode sv)) = Z.of_nat (length (indices sv))).
  { unfold encode. rewrite take_app_length' by by rewrite length_to_le_bytes. rewrite from_to_le_bytes.
    change (256 ^ Z.of_nat 4) with (2 ^ 32). unfold sv_len. rewrite Z.mod_mod, Z.mod_small by lia. done. }
  assert (Hd : drop 4 (encode sv) = mjoin (to_le_bytes 4 <$> indices sv) ++ mjoin (to_le_bytes 4 <$> values sv)).
  { unfold encode. by rewrite drop_app_length' by by rewrite length_to_le_bytes. }
  assert (Hlen : Z.of_nat (length (encode sv)) = 4 + Z.of_nat (length (indices sv)) * 8).
  { unfold encode. rewrite !length_app, length_to_le_bytes, !length_join. lia. }
  rewrite decode_parts by lia. rewrite Hc, Hd. cbv zeta. rewrite Nat2Z.id.
  rewrite take_app_length', drop_app_length' by by rewrite length_join. rewrite !words_join by done.
  apply new_spec. by destruct sv.
Qed.

Lemma sparse_encode_decode bytes sv : Forall is_u8 bytes -> decode_slice bytes = Ok sv ->
  bytes = encode sv /\ valid sv /\ Forall is_u32 (indices sv) /\ Forall is_u32 (values sv) /\ Z.of_nat (sv_len sv) < 2 ^ 32.
Proof.
  intros Hb Hd. assert (H4 : 4 <= Z.of_nat (length bytes) /\ Z.of_nat (length bytes) = 4 + from_le_bytes (take 4 bytes) * 8).
  { unfold decode_slice in Hd. destruct (Z.ltb_spec (Z.of_nat (length bytes)) 4); [done|].
    destruct (Z.ltb_spec (Z.of_nat (length bytes)) (4 + from_le_bytes (take 4 bytes) * 8)); [done|].
    destruct (Z.gtb_spec (Z.of_nat (length bytes)) (4 + from_le_bytes (take 4 bytes) * 8)); [done|lia]. }
  destruct H4 as [H4 Hl]. rewrite decode_parts in Hd by lia. cbv zeta in Hd. set (c := from_le_bytes (take 4 bytes)) in *.
  assert (Ht : length (take 4 bytes) = 4%nat) by (rewrite length_take; lia).
  assert (Hc : 0 <= c < 2 ^ 32). { unfold c. pose proof (from_le_bytes_bound (take 4 bytes) (Forall_take _ _ _ Hb)) as H. by rewrite Ht in H. }
  assert (Hbody : Forall is_u8 (drop 4 bytes)) by by apply Forall_drop.
  destruct (join_words (Z.to_nat c) (take (Z.to_nat c * 4) (drop 4 bytes))) as (E1 & L1 & U1);
    [by apply Forall_take|rewrite length_take, length_drop; lia|].
  destruct (join_words (Z.to_nat c) (drop (Z.to_nat c * 4) (drop 4 bytes))) as (E2 & L2 & U2);
    [by apply Forall_drop|rewrite !length_drop; lia|].
  apply new_spec in Hd as [-> Hv]. unfold sv_len, encode. cbn [indices values]. unfold sv_len. cbn [indices].
  rewrite L1, E1, E2, take_drop. split_and!; [|done..|lia].
  rewrite Z2Nat.id, Z.mod_small by lia. unfold c. rewrite <- Ht at 1. rewrite to_from_le_bytes by by apply Forall_take.
  by rewrite take_drop.
Qed.

(** ** Summing duplicates *)

(** The weights given for a term in input order, and their sum. *)
Definition weights_of (t : Z) (pairs : list (Z * Z)) : list Z := (filter (fun p => p.1 = t) pairs).*2.
Definition total (ws : list Z) : Z := match ws with [] => 0 | w :: ws => foldl F32.add w ws end.

Lemma total_snoc ws w : ws <> [] -> total (ws ++ [w]) = F32.add (total ws) w.
Proof. destruct ws as [|x ws]; [done|]. intros _. cbn. by rewrite foldl_app. Qed.

Lemma weights_of_snoc t pairs p : weights_of t (pairs ++ [p]) = weights_of t pairs ++ (if decide (p.1 = t) then [p.2] else []).
Proof. unfold weights_of. rewrite filter_app, fmap_app. f_equal. rewrite filter_cons. by case_decide. Qed.

Lemma weights_of_nonempty t pairs : t ∈ pairs.*1 -> weights_of t pairs <> [].
Proof.
  intros (p & -> & Hp)%list_elem_of_fmap E. apply fmap_nil_inv in E. apply (filter_nil_not_elem_of _ _ p) in E; done.
Qed.

Record gathered (past : list (Z * Z)) (ids vs : list Z) : Prop := {
  ga_sorted : StronglySorted Z.lt ids;
  ga_terms t : t ∈ ids <-> t ∈ past.*1;
  ga_values : vs = (fun t => total (weights_of t past)) <$> ids;
}.

Lemma strongly_snoc ids t : StronglySorted Z.lt ids -> Forall (fun x => x < t) ids -> StronglySorted Z.lt (ids ++ [t]).
Proof.
  induction 1 as [|x l _ IH Hx]; intros Hf; [repeat constructor|]. apply Forall_cons in Hf as [Hxt Hf].
  cbn. constructor; [by apply IH|]. apply Forall_app. split; [done|]. by repeat constructor.
Qed.

Lemma sorted_last ids t : StronglySorted Z.lt ids -> t ∈ ids -> Forall (fun x => x <= t) ids -> last ids = Some t.
Proof.
  induction 1 as [|x l Hs IH Hx]; [by intros ?%not_elem_of_nil|]. intros Hin Hf. apply Forall_cons in Hf as [Hxt Hf].
  destruct l as [|y l]; [by apply list_elem_of_singleton in Hin as ->|]. apply IH; [|done].
  apply elem_of_cons in Hin as [-> |Hin]; [|done]. apply Forall_cons in Hx as [? _]. apply Forall_cons in Hf as [? _]. lia.
Qed.

Lemma gathered_step past ids vs t w : gathered past ids vs -> Forall (fun x => x <= t) ids ->
  exists ids' vs', gathered (past ++ [(t, w)]) ids' vs' /\ Forall (fun x => x <= t) ids'
    /\ forall pairs, gather ids vs ((t, w) :: pairs) = gather ids' vs' pairs.
Proof.
  intros [G1 G2 ->] Hle. cbn [gather]. destruct (decide (last ids = Some t)) as [Hlast|Hlast].
  - apply last_Some in Hlast as [l ->]. exists (l ++ [t]), ((fun x => total (weights_of x (past ++ [(t, w)]))) <$> l ++ [t]).
    split_and!; [split; [done| |done]|done|].
    { intros x. rewrite G2, fmap_app, elem_of_app. cbn. rewrite list_elem_of_singleton. split; [tauto|].
      intros [?| ->]; [done|]. apply G2. set_solver. }
    intros pairs. rewrite !fmap_app. cbn [fmap list_fmap]. rewrite last_snoc. cbn [mbind option_bind].
    rewrite removelast_last. f_equal. f_equal.
    + apply list_fmap_ext. intros i x Hx. rewrite weights_of_snoc, decide_False; [by rewrite app_nil_r|]. cbn. intros ->.
      apply strict_NoDup, NoDup_app in G1 as (_ & Hd & _). apply (Hd x); [by eapply list_elem_of_lookup_2|by left].
    + rewrite weights_of_snoc, decide_True by done. rewrite total_snoc; [done|]. apply weights_of_nonempty, G2. set_solver.
  - assert (Hlt : Forall (fun x => x < t) ids).
    { apply Forall_forall. intros x Hx. pose proof Hle as Hle'. rewrite Forall_forall in Hle'. specialize (Hle' x Hx).
      destruct (decide (x = t)) as [->|]; [|lia]. exfalso. by apply Hlast, sorted_last. }
    exists (ids ++ [t]), ((fun x => total (weights_of x (past ++ [(t, w)]))) <$> ids ++ [t]).
    assert (Hn : t ∉ past.*1) by (intros Ht%G2; rewrite Forall_forall in Hlt; specialize (Hlt t Ht); lia).
    assert (E : weights_of t past = []).
    { unfold weights_of. destruct (filter _ past) as [|p l] eqn:Ef; [done|]. exfalso. apply Hn.
      assert (Hp : p ∈ filter (fun p => p.1 = t) past) by (rewrite Ef; by left). apply list_elem_of_filter in Hp as [<- Hp].
      by apply list_elem_of_fmap_2. }
    split_and!; [split; [by apply strongly_snoc| |done]|apply Forall_app; split; [done|by repeat constructor]|].
    { intros x. rewrite fmap_app, !elem_of_app, G2. done. }
    intros pairs. rewrite fmap_app. f_equal. f_equal.
    + apply list_fmap_ext. intros i x Hx. rewrite weights_of_snoc, decide_False; [by rewrite app_nil_r|]. cbn. intros ->.
      apply Hn, G2. by eapply list_elem_of_lookup_2.
    + cbn [fmap list_fmap]. by rewrite weights_of_snoc, E, decide_True.
Qed.

Lemma gather_ok rest : forall past ids vs, gathered past ids vs -> StronglySorted by_src rest ->
  Forall (fun p => Forall (fun x => x <= p.1) ids) rest ->
  exists ids' vs', gather ids vs rest = Some (ids', vs') /\ gathered (past ++ rest) ids' vs'.
Proof.
  induction rest as [|[t w] rest IH]; intros past ids vs G Hs Hf.
  { exists ids, vs. by rewrite app_nil_r. }
  apply StronglySorted_inv in Hs as [Hs Ht]. apply Forall_cons in Hf as [Hle _].
  destruct (gathered_step past ids vs t w G Hle) as (ids1 & vs1 & G1 & Hle1 & ->).
  destruct (IH _ _ _ G1 Hs) as (ids' & vs' & -> & G').
  - eapply Forall_impl; [exact Ht|]. intros p Hp. eapply Forall_impl; [exact Hle1|]. unfold by_src in Hp. cbn in *. lia.
  - exists ids', vs'. split; [done|]. by rewrite <- app_assoc in G'.
Qed.

(** Sorting and gathering sums the weights of each term in input order. *)
Lemma from_pairs_spec pairs : exists ids, StronglySorted Z.lt ids /\ (forall t, t ∈ ids <-> t ∈ pairs.*1)
  /\ from_pairs pairs = Some (new ids ((fun t => total (weights_of t pairs)) <$> ids)).
Proof.
  destruct (gather_ok (sort_by_src pairs) [] [] []) as (ids & vs & E & [G1 G2 G3]).
  - split; [constructor|done|done].
  - apply Sorted_StronglySorted; [intros ???; unfold by_src; lia|apply sort_by_src_sorted].
  - by apply Forall_forall.
  - exists ids. split; [done|]. cbn in G2, G3. split.
    + intros t. by rewrite G2, sort_by_src_perm.
    + unfold from_pairs. rewrite E. cbn. do 2 f_equal. rewrite G3. apply list_fmap_ext. intros i t _.
      unfold weights_of. by rewrite sort_by_src_stable.
Qed.

(** ** Pruning *)

(** Position [x] ranks before [y]: a larger absolute weight, or the same and a
    lower term id. *)
Definition ranks (le_ids : Z -> Z -> Prop) (v : SparseVector) (x y : nat) : Prop :=
  let ax := F32.abs (default 0 (values v !! x)) in
  let ay := F32.abs (default 0 (values v !! y)) in
  ay < ax \/ (ay = ax /\ le_ids (default 0 (indices v !! x)) (default 0 (indices v !! y))).

Lemma rank_le_spec v x y : valid v -> (x < sv_len v)%nat -> (y < sv_len v)%nat -> rank_le v x y <-> ranks Z.le v x y.
Proof.
  intros [Hl _ Hf] Hx Hy. unfold sv_len in *. unfold rank_le, rank_cmp, ranks.
  destruct (lookup_lt_is_Some_2 (indices v) x Hx) as [ix Eix], (lookup_lt_is_Some_2 (indices v) y Hy) as [iy Eiy].
  rewrite Hl in Hx, Hy. destruct (lookup_lt_is_Some_2 (values v) x Hx) as [vx Evx], (lookup_lt_is_Some_2 (values v) y Hy) as [vy Evy].
  rewrite Eix, Eiy, Evx, Evy. cbn [default]. unfold default, id.
  rewrite Forall_forall in Hf. unfold F32.partial_cmp_abs.
  rewrite !F32.finite_not_nan by (by eapply Hf, list_elem_of_lookup_2). cbn [orb].
  destruct (Z.compare_spec (F32.abs vy) (F32.abs vx)); cbn [then_cmp]; [|naive_solver|split; [done|lia]].
  destruct (Z.compare_spec ix iy); split; intros; try done; try lia.
Qed.

#[export] Instance rank_le_total v : Total (rank_le v).
Proof.
  intros x y. unfold rank_le, rank_cmp.
  destruct (values v !! x) as [vx|], (values v !! y) as [vy|], (indices v !! x) as [ix|], (indices v !! y) as [iy|]; try by left.
  unfold F32.partial_cmp_abs. rewrite (orb_comm (F32.is_nan vx)).
  destruct (F32.is_nan vy || F32.is_nan vx); cbn [default then_cmp]; unfold default, id; cbn [then_cmp].
  - destruct (Z.compare_spec ix iy), (Z.compare_spec iy ix); first [by left|by right|lia].
  - rewrite (Z.compare_antisym (F32.abs vy) (F32.abs vx)). destruct (F32.abs vy ?= F32.abs vx); cbn; [|by left|by right].
    destruct (Z.compare_spec ix iy), (Z.compare_spec iy ix); first [by left|by right|lia].
Qed.

Lemma sorted_on {A} (P : A -> Prop) (R R' : A -> A -> Prop) l :
  (forall x y, P x -> P y -> R x y -> R' x y) -> Forall P l -> Sorted R l -> Sorted R' l.
Proof.
  intros HR Hf. induction 1 as [|x l _ IH Hh]; [constructor|]. apply Forall_cons in Hf as [Hx Hf]. constructor; [by apply IH|].
  destruct Hh as [|y l Hy]; constructor. apply HR; [done| |done]. by apply Forall_cons in Hf as [? _].
Qed.

(** The positions by rank: a permutation in which earlier ones rank first. *)
Lemma order_ok v : valid v -> let order := merge_sort (rank_le v) (seq 0 (sv_len v)) in
  order ≡ₚ seq 0 (sv_len v) /\ StronglySorted (ranks Z.le v) order.
Proof.
  intros Hv. cbv zeta. set (order := merge_sort _ _). assert (Hp : order ≡ₚ seq 0 (sv_len v)) by apply merge_sort_Permutation.
  split; [done|]. apply Sorted_StronglySorted; [intros x y z; unfold ranks; cbv zeta; lia|].
  apply (sorted_on (fun x => (x < sv_len v)%nat) (rank_le v)); [intros x y Hx Hy; by apply rank_le_spec| |apply Sorted_merge_sort; apply _].
  apply Forall_forall. intros x. rewrite Hp, elem_of_seq. lia.
Qed.

Lemma strongly_app_le {A} (R : A -> A -> Prop) l1 l2 x y : StronglySorted R (l1 ++ l2) -> x ∈ l1 -> y ∈ l2 -> R x y.
Proof.
  induction l1 as [|a l1 IH]; [by intros _ ?%not_elem_of_nil|]. intros [Hs Hf]%StronglySorted_inv [-> | Hx]%elem_of_cons Hy; [|by apply IH].
  rewrite Forall_forall in Hf. apply Hf, elem_of_app. by right.
Qed.

Lemma nat_sorted_strict (l : list nat) : StronglySorted le l -> NoDup l -> StronglySorted lt l.
Proof.
  induction 1 as [|x l _ IH Hf]; intros Nd; constructor; apply NoDup_cons in Nd as [Hx Nd]; [by apply IH|].
  rewrite Forall_forall in *. intros y Hy. specialize (Hf y Hy). assert (x <> y) by (by intros ->). lia.
Qed.

(** Picking ascending positions of a valid vector gives a valid vector. *)
Lemma pick_positions_valid v kept : valid v -> StronglySorted lt kept -> Forall (fun p => (p < sv_len v)%nat) kept ->
  exists r, mapM (fun p => indices v !! p) kept = Some (indices r) /\ mapM (fun p => values v !! p) kept = Some (values r) /\ valid r.
Proof.
  intros Hv Hk Hr. pose proof (va_len v Hv) as Hl. unfold sv_len in Hr. induction Hk as [|p kept Hs IH Hp].
  { exists (mkSparse [] []). split; [done|]. split; [done|]. split; cbn; by constructor. }
  apply Forall_cons in Hr as [Hpr Hr]. destruct (IH Hr) as ([ids vs] & Hi & Hw & [V1 V2 V3]).
  destruct (lookup_lt_is_Some_2 (indices v) p Hpr) as [x Hx]. rewrite Hl in Hpr. destruct (lookup_lt_is_Some_2 (values v) p Hpr) as [w Hw'].
  cbn [mapM indices values] in *. rewrite Hi, Hw, Hx, Hw'. cbn [mbind option_bind]. exists (mkSparse (x :: ids) (w :: vs)).
  split; [done|]. split; [done|]. split; cbn [indices values].
  - cbn. congruence.
  - constructor; [done|]. apply Forall_forall. intros y (i & Hy)%list_elem_of_lookup_1.
    apply mapM_Some_1 in Hi. destruct (Forall2_lookup_r _ _ _ _ _ Hi Hy) as (q & Hq & Eq).
    rewrite Forall_forall in Hp. specialize (Hp q (list_elem_of_lookup_2 _ _ _ Hq)).
    exact (sorted_lookup _ _ _ _ _ _ (va_sorted v Hv) Hp Hx Eq).
  - constructor; [|done]. pose proof (va_finite v Hv) as Hf. rewrite Forall_forall in Hf. by eapply Hf, list_elem_of_lookup_2.
Qed.

Lemma index_inj v p q : valid v -> (p < sv_len v)%nat -> (q < sv_len v)%nat ->
  default 0 (indices v !! p) = default 0 (indices v !! q) -> p = q.
Proof.
  intros Hv Hp Hq. destruct (lookup_lt_is_Some_2 (indices v) p Hp) as [x Hx], (lookup_lt_is_Some_2 (indices v) q Hq) as [y Hy].
  rewrite Hx, Hy. cbn. intros ->. by eapply NoDup_lookup; [apply strict_NoDup, Hv| |].
Qed.

Lemma pick_all v : valid v -> mapM (fun p => indices v !! p) (seq 0 (sv_len v)) = Some (indices v)
  /\ mapM (fun p => values v !! p) (seq 0 (sv_len v)) = Some (values v).
Proof.
  intros Hv. pose proof (va_len v Hv) as Hl.
  assert (Hall : forall l : list Z, mapM (fun p => l !! p) (seq 0 (length l)) = Some l).
  { intros l. apply mapM_Some_2, Forall2_same_length_lookup. split; [apply length_seq|].
    intros i p x Hp Hx. by apply lookup_seq in Hp as [-> _]. }
  unfold sv_len. split; [apply Hall|]. rewrite Hl. apply Hall.
Qed.

(** ** Properties *)

(** C39: the binary form is exact.  Decoding succeeds exactly on the encodings
    of valid vectors of u32 term ids and f32 patterns with fewer than 2^32
    terms, and returns the vector that was encoded; any other byte string,
    truncated, too long, unsorted or with a non-finite weight, is an error. *)
Theorem sparse_codec_exact (bytes : list Z) (sv : SparseVector) :
  Forall is_u8 bytes ->
  decode_slice bytes = Ok sv
  <-> bytes = encode sv /\ valid sv /\ Forall is_u32 (indices sv) /\ Forall is_u32 (values sv) /\ Z.of_nat (sv_len sv) < 2 ^ 32.
Proof. intros Hb. split; [by apply sparse_encode_decode|]. intros (-> & Hv & Hi & Hw & Hn). by apply sparse_decode_encode. Qed.

(** The merge-join is the sum over the shared terms.  On valid vectors the
    loop ends without a panic and adds, in ascending order of the shared terms
    and with f32 rounding at every step, the products of their weights; the
    result does not depend on the order of the arguments. *)
Theorem sparse_dot_exact (a b : SparseVector) :
  valid a -> valid b -> sparse_dot a b = Some (dot_reference a b) /\ sparse_dot a b = sparse_dot b a.
Proof.
  intros Ha Hb. assert (H : forall a b, valid a -> valid b -> sparse_dot a b = Some (dot_reference a b)).
  { intros x y Hx Hy. unfold sparse_dot. rewrite (dot_loop_ok x y Hx Hy) by (rewrite !drop_0; done). by rewrite !drop_0. }
  split; [by apply H|]. rewrite !H by done. unfold dot_reference. rewrite (shared_sym a b) by done. f_equal.
  generalize 0. induction (shared b a) as [|t l IH]; intros acc; [done|]. cbn [foldl]. by rewrite IH, (F32.mul_comm (weight a t)).
Qed.

(** Building from pairs never panics and sums duplicates.  The ids are the
    distinct terms in ascending order, each with the f32 sum of its weights in
    input order; the result is an error exactly when one of the sums is not
    finite, and otherwise a valid vector. *)
Theorem from_pairs_exact (pairs : list (Z * Z)) :
  exists ids ws r, from_pairs pairs = Some r
    /\ StronglySorted Z.lt ids /\ (forall t, t ∈ ids <-> t ∈ pairs.*1)
    /\ ws = (fun t => total (weights_of t pairs)) <$> ids
    /\ (forall v, r = Ok v <-> v = mkSparse ids ws /\ Forall (fun w => F32.is_finite w = true) ws)
    /\ (forall v, r = Ok v -> valid v).
Proof.
  destruct (from_pairs_spec pairs) as (ids & Hs & Ht & E). eexists ids, _, _. split; [exact E|]. split_and!; try done.
  - intros v. rewrite new_spec. split; [intros [-> [_ _ Hf]]; done|]. intros [-> Hf]. split; [done|]. split; cbn; [by rewrite length_fmap|done|done].
  - intros v Hv. by apply new_spec in Hv as [_ ?].
Qed.

(** Pruning keeps the heaviest terms.  On a valid vector it never panics;
    the result is valid and holds the terms at [min k len] ascending positions
    of the input, and every position kept ranks before every one dropped: a
    larger absolute weight, or the same and a lower term id. *)
Theorem prune_keeps_heaviest (v : SparseVector) (k : nat) :
  valid v -> exists r kept, prune_top_k v k = Some r /\ valid r
    /\ StronglySorted lt kept /\ length kept = Nat.min k (sv_len v)
    /\ mapM (fun p => indices v !! p) kept = Some (indices r) /\ mapM (fun p => values v !! p) kept = Some (values r)
    /\ forall p q, p ∈ kept -> (q < sv_len v)%nat -> q ∉ kept -> ranks Z.lt v p q.
Proof.
  intros Hv. unfold prune_top_k. destruct (Nat.leb_spec (sv_len v) k) as [Hk|Hk].
  { destruct (pick_all v Hv) as [Hi Hw]. exists v, (seq 0 (sv_len v)). split_and!; try done; [|rewrite length_seq; lia|].
    - clear. generalize 0%nat. induction (sv_len v) as [|n IH]; intros i; constructor; [apply IH|].
      apply Forall_forall. intros x Hx%elem_of_seq. lia.
    - intros p q _ Hq []. apply elem_of_seq. lia. }
  destruct (Nat.eqb_spec k 0) as [->|Hk0].
  { exists (mkSparse [] []), []. split_and!; try done; [split; by constructor|constructor|by intros p q ?%not_elem_of_nil]. }
  destruct (order_ok v Hv) as [Hp Hs]. set (order := merge_sort (rank_le v) (seq 0 (sv_len v))) in *.
  set (kept := merge_sort le (take k order)). assert (Hkp : kept ≡ₚ take k order) by apply merge_sort_Permutation.
  assert (Nd : NoDup order) by (rewrite Hp; apply NoDup_seq).
  assert (Hks : StronglySorted lt kept).
  { apply nat_sorted_strict; [apply StronglySorted_merge_sort; apply _|]. rewrite Hkp. by eapply sublist_NoDup, sublist_take. }
  assert (Hr : Forall (fun p => (p < sv_len v)%nat) kept).
  { apply Forall_forall. intros p. rewrite Hkp. intros (i & Hin%list_elem_of_lookup_2 & _)%elem_of_take. rewrite Hp, elem_of_seq in Hin. lia. }
  destruct (pick_positions_valid v kept Hv Hks Hr) as (r & Hi & Hw & Hvr). rewrite Hi, Hw. cbn [mbind option_bind].
  exists r, kept. split_and!; try done.
  - destruct (new (indices r) (values r)) as [r'|e] eqn:En.
    + apply new_spec in En as [-> _]. by destruct r.
    + exfalso. assert (E : new (indices r) (values r) = Ok r) by (apply new_spec; by destruct r). congruence.
  - rewrite (Permutation_length Hkp), length_take, (Permutation_length Hp), length_seq. done.
  - intros p q Hpk Hq Hqk. rewrite Hkp in Hpk, Hqk. assert (Hqo : q ∈ order) by (rewrite Hp, elem_of_seq; lia).
    rewrite <- (take_drop k order) in Hs, Hqo. apply elem_of_app in Hqo as [?|Hqo]; [done|].
    destruct (strongly_app_le _ _ _ _ _ Hs Hpk Hqo) as [?|[Ha Hi']]; [by left|]. right. split; [done|].
    apply Z.le_neq. split; [done|]. intros E. assert (p = q) as ->; [|done]. apply (index_inj v p q Hv); [|done|done].
    rewrite Forall_forall in Hr. apply Hr. by rewrite Hkp.
Qed.

(** ** Examples *)

Module SparseExamples.
(** 1.0, 0.5, -2.0 *)
Definition one : Z := 1065353216.
Definition half : Z := 1056964608.
Definition minus_two : Z := 3221225472.
Definition v1 : SparseVector := mkSparse [1; 5; 9] [one; minus_two; half].
Definition v2 : SparseVector := mkSparse [5; 9; 13] [half; one; one].

Lemma v1_valid : valid v1.
Proof. split; [reflexivity|repeat constructor; lia|repeat constructor]. Qed.
Lemma v2_valid : valid v2.
Proof. split; [reflexivity|repeat constructor; lia|repeat constructor]. Qed.

Example dot_v1_v2 : sparse_dot v1 v2 = Some 3204448256. (* -1.0 + 0.5 = -0.5 *)
Proof. reflexivity. Qed.
Example prune_v1 : prune_top_k v1 2 = Some (mkSparse [1; 5] [one; minus_two]).
Proof. reflexivity. Qed.
Example norm_empty : l2_norm (mkSparse [] []) = 2 ^ 31.
Proof. reflexivity. Qed.
Example trailing_byte : decode_slice (encode v1 ++ [0]) = Err (TrailingBytes 1).
Proof. reflexivity. Qed.
Example from_pairs_sums : from_pairs [(9, one); (1, one); (9, half)] = Some (Ok (mkSparse [1; 9] [one; 1069547520])).
Proof. reflexivity. Qed.

Lemma sparse_codec_exact_witness : Forall is_u8 (encode v1) /\ (decode_slice (encode v1) = Ok v1 <->
  encode v1 = encode v1 /\ valid v1 /\ Forall is_u32 (indices v1) /\ Forall is_u32 (values v1) /\ Z.of_nat (sv_len v1) < 2 ^ 32).
Proof.
  assert (H : Forall is_u8 (encode v1)) by (repeat constructor; unfold is_u8; vm_compute; done).
  split; [exact H|]. apply (sparse_codec_exact (encode v1) v1). exact H.
Defined.

Lemma sparse_dot_exact_witness : valid v1 /\ valid v2 /\ sparse_dot v1 v2 = Some (dot_reference v1 v2).
Proof. split; [exact v1_valid|]. split; [exact v2_valid|]. apply (sparse_dot_exact v1 v2); [exact v1_valid|exact v2_valid]. Defined.

Lemma prune_keeps_heaviest_witness : valid v1 /\ exists r (kept : list nat), prune_top_k v1 2 = Some r /\ valid r /\ length kept = 2%nat.
Proof.
  split; [exact v1_valid|]. destruct (prune_keeps_heaviest v1 2 v1_valid) as (r & kept & H1 & H2 & _ & H3 & _).
  exists r, kept. split; [exact H1|]. split; [exact H2|]. exact H3.
Defined.
End SparseExamples.
