(* ===== verification/Float64.v ===== *)
(** * 64-bit floats

    An f64 is its bit pattern, a 64-bit word.  The real number a finite pattern
    stands for is kept as an integer number of units of 2^-1074, the smallest
    positive float, so that comparisons with integers are exact; the infinities
    get the value the next exponent would have, above every finite one.
    Modelled are the operations that the value code uses: classification,
    comparison, rounding of an integer to nearest, ties to even
    ([i as f64]), [floor], [fract] and the exact casts back. *)

From S2P Require Import Prelude.

Module F64.

Definition UNIT : Z := 2 ^ 1074.
Definition SIGN : Z := 2 ^ 63.
Definition INF : Z := 2047 * 2 ^ 52.

Definition is_negative (b : Z) : bool := SIGN <=? b.
(** The pattern without its sign. *)
Definition abs (b : Z) : Z := if is_negative b then b - SIGN else b.
Definition is_nan (b : Z) : bool := INF <? abs b.
Definition is_infinite (b : Z) : bool := abs b =? INF.

Definition magnitude (a : Z) : Z :=
  let e := a / 2 ^ 52 in
  let m := a mod 2 ^ 52 in
  if e =? 0 then m else (2 ^ 52 + m) * 2 ^ (e - 1).
(** In units; meaningless for a NaN. *)
Definition value (b : Z) : Z := if is_negative b then - magnitude (abs b) else magnitude (abs b).

(** [x.partial_cmp(&y)] *)
Definition partial_cmp (x y : Z) : option comparison :=
  if is_nan x || is_nan y then None else Some (value x ?= value y).

(** Rounding of a positive integer to 53 bits: the multiple of the last place
    that is nearest, the even one on a tie. *)
Definition round_quotient (n : Z) : Z :=
  let s := Z.log2 n - 52 in
  let q := n / 2 ^ s in
  let r := n mod 2 ^ s in
  match r ?= 2 ^ (s - 1) with
  | Lt => q
  | Eq => if Z.even q then q else q + 1
  | Gt => q + 1
  end.
Definition round_pos (n : Z) : Z :=
  if Z.log2 n <=? 52 then n else round_quotient n * 2 ^ (Z.log2 n - 52).
Definition round (i : Z) : Z :=
  if i =? 0 then 0 else if 0 <? i then round_pos i else - round_pos (- i).

(** The pattern of a positive integer of at most 53 significant bits after
    rounding: the significand with its leading bit added to the exponent. *)
Definition bits_pos (n : Z) : Z :=
  let l := Z.log2 n in
  if l <=? 52 then (l + 1023) * 2 ^ 52 + (n * 2 ^ (52 - l) - 2 ^ 52)
  else (l + 1023) * 2 ^ 52 + (round_quotient n - 2 ^ 52).
(** [i as f64] *)
Definition of_int (i : Z) : Z :=
  if i =? 0 then 0 else if 0 <? i then bits_pos i else SIGN + bits_pos (- i).

(** [f.floor()] and the integer a finite float truncates to when it is
    integral, as integers. *)
Definition floor (b : Z) : Z := value b / UNIT.
(** [f.fract() == 0.0]; the fraction of an infinity or NaN is a NaN. *)
Definition is_integral (b : Z) : bool :=
  negb (is_nan b) && negb (is_infinite b) && (value b mod UNIT =? 0).
(** [f.abs() < n] for an integer [n]. *)
Definition abs_lt (b n : Z) : bool := negb (is_nan b) && (magnitude (abs b) <? n * UNIT).

(** [f as f64] for an f32 pattern; a NaN is made quiet. *)
Definition of_f32 (b : Z) : Z :=
  let sign := if 2 ^ 31 <=? b then SIGN else 0 in
  let a := b mod 2 ^ 31 in
  let e := a / 2 ^ 23 in
  let m := a mod 2 ^ 23 in
  sign +
  (if e =? 255 then INF + (if m =? 0 then 0 else Z.lor (m * 2 ^ 29) (2 ^ 51))
   else if negb (e =? 0) then (e + 896) * 2 ^ 52 + m * 2 ^ 29
   else if m =? 0 then 0
   else (Z.log2 m + 874) * 2 ^ 52 + (m * 2 ^ (52 - Z.log2 m) - 2 ^ 52)).

(** 1.5, the smallest positive f32 (2^-149) and an infinity. *)
Example of_f32_examples : of_f32 1069547520 = 1023 * 2 ^ 52 + 2 ^ 51 /\ magnitude (of_f32 1) = 2 ^ (1074 - 149)
  /\ of_f32 (255 * 2 ^ 23 + 2 ^ 31) = SIGN + INF.
Proof. split_and!; reflexivity. Qed.
Example of_int_1 : of_int 1 = 1023 * 2 ^ 52.
Proof. reflexivity. Qed.
Example of_int_m2 : of_int (-2) = SIGN + 1024 * 2 ^ 52.
Proof. reflexivity. Qed.
(** 2^53 + 1 rounds to 2^53, 2^53 + 3 to 2^53 + 4, 2^63 - 1 to 2^63. *)
Example round_examples : round (2 ^ 53 + 1) = 2 ^ 53 /\ round (2 ^ 53 + 3) = 2 ^ 53 + 4 /\ round (2 ^ 63 - 1) = 2 ^ 63.
Proof. split_and!; reflexivity. Qed.
Example of_int_max : of_int (2 ^ 63 - 1) = 1086 * 2 ^ 52.
Proof. reflexivity. Qed.

(** ** Magnitudes *)

Lemma split52 a : 0 <= a < SIGN -> a = a / 2 ^ 52 * 2 ^ 52 + a mod 2 ^ 52 /\ 0 <= a mod 2 ^ 52 < 2 ^ 52 /\ 0 <= a / 2 ^ 52 < 2 ^ 11.
Proof.
  intros [H0 H1]. pose proof (Z.div_mod a (2 ^ 52) ltac:(lia)). pose proof (Z.mod_pos_bound a (2 ^ 52) ltac:(lia)).
  split; [lia|]. split; [done|]. split; [by apply Z.div_pos|]. apply Z.div_lt_upper_bound; [lia|]. unfold SIGN in H1. lia.
Qed.

Lemma magnitude_nonneg a : 0 <= a -> 0 <= magnitude a.
Proof.
  intros H. unfold magnitude. pose proof (Z.mod_pos_bound a (2 ^ 52) ltac:(lia)).
  case_match; [lia|]. apply Z.mul_nonneg_nonneg; [lia|]. apply Z.pow_nonneg. lia.
Qed.

(** Between the bounds of its exponent. *)
Lemma magnitude_bounds a : 0 <= a < SIGN -> 0 < a / 2 ^ 52 ->
  2 ^ (a / 2 ^ 52 + 51) <= magnitude a < 2 ^ (a / 2 ^ 52 + 52).
Proof.
  intros Ha He. destruct (split52 a Ha) as (_ & Hm & _). unfold magnitude.
  destruct (Z.eqb_spec (a / 2 ^ 52) 0); [lia|]. set (e := a / 2 ^ 52) in *. set (m := a mod 2 ^ 52) in *.
  replace (e + 51) with (52 + (e - 1)) by lia. replace (e + 52) with (53 + (e - 1)) by lia.
  rewrite !Z.pow_add_r by lia. assert (0 < 2 ^ (e - 1)) by (apply Z.pow_pos_nonneg; lia).
  change (2 ^ 53) with (2 * 2 ^ 52). nia.
Qed.
Lemma magnitude_sub a : 0 <= a < 2 ^ 52 -> magnitude a = a.
Proof. intros H. unfold magnitude. rewrite Z.div_small, Z.mod_small by done. done. Qed.

Lemma magnitude_mono a b : 0 <= a < b -> b < SIGN -> magnitude a < magnitude b.
Proof.
  intros Hab Hb. destruct (split52 a) as (Ea & Hm & He); [lia|]. destruct (split52 b) as (Eb & Hm' & He'); [lia|].
  destruct (Z.compare_spec (a / 2 ^ 52) (b / 2 ^ 52)) as [E|L|G]; [| |lia].
  - unfold magnitude. rewrite E. case_match; [lia|]. apply Z.mul_lt_mono_pos_r; [apply Z.pow_pos_nonneg; lia|lia].
  - pose proof (magnitude_bounds b ltac:(lia) ltac:(lia)) as [H1 _].
    destruct (Z.eq_dec (a / 2 ^ 52) 0) as [E0|E0].
    + assert (magnitude a < 2 ^ 52) by (rewrite magnitude_sub; lia).
      assert (2 ^ 52 <= 2 ^ (b / 2 ^ 52 + 51)) by (apply Z.pow_le_mono_r; lia). lia.
    + pose proof (magnitude_bounds a ltac:(lia) ltac:(lia)) as [_ H2].
      assert (2 ^ (a / 2 ^ 52 + 52) <= 2 ^ (b / 2 ^ 52 + 51)) by (apply Z.pow_le_mono_r; lia). lia.
Qed.
Lemma magnitude_compare a b : 0 <= a < SIGN -> 0 <= b < SIGN -> (magnitude a ?= magnitude b) = (a ?= b).
Proof.
  intros Ha Hb. destruct (Z.compare_spec a b) as [->|L|G].
  - apply Z.compare_refl.
  - apply Z.compare_lt_iff, magnitude_mono; lia.
  - apply Z.compare_gt_iff, magnitude_mono; lia.
Qed.
Lemma abs_range b : is_u64 b -> 0 <= abs b < SIGN.
Proof. unfold is_u64, abs, is_negative, SIGN. case_match; [rewrite Z.leb_le in *|rewrite Z.leb_gt in *]; lia. Qed.

(** ** Rounding an integer *)

Lemma large_multiple a k : 0 <= a < SIGN -> 0 <= k -> 2 ^ (k + 52) <= magnitude a -> (2 ^ k | magnitude a).
Proof.
  intros Ha Hk H. destruct (split52 a Ha) as (_ & Hm & He).
  assert (He0 : 0 < a / 2 ^ 52).
  { destruct (Z.eq_dec (a / 2 ^ 52) 0) as [E|]; [|lia]. exfalso. unfold magnitude in H. rewrite E in H. cbn [Z.eqb] in H.
    assert (2 ^ 52 <= 2 ^ (k + 52)) by (apply Z.pow_le_mono_r; lia). lia. }
  pose proof (magnitude_bounds a Ha He0) as [_ Hu]. assert (Hlt : k + 52 < a / 2 ^ 52 + 52) by (apply (Z.pow_lt_mono_r_iff 2); lia).
  unfold magnitude. destruct (Z.eqb_spec (a / 2 ^ 52) 0); [lia|]. replace (a / 2 ^ 52 - 1) with ((a / 2 ^ 52 - 1 - k) + k) by lia.
  rewrite Z.pow_add_r, Z.mul_assoc by lia. apply Z.divide_factor_r.
Qed.

Lemma between_multiples q k t : 0 < t -> q * t < k * t -> k * t < (q + 1) * t -> False.
Proof. intros Ht H1%Z.mul_lt_mono_pos_r H2%Z.mul_lt_mono_pos_r; lia. Qed.

(** Quotient and remainder of the last place. *)
Lemma quotient_facts n : 0 < n -> 52 < Z.log2 n ->
  let s := Z.log2 n - 52 in
  0 < 2 ^ s /\ n = n / 2 ^ s * 2 ^ s + n mod 2 ^ s /\ 0 <= n mod 2 ^ s < 2 ^ s /\ 2 ^ 52 <= n / 2 ^ s < 2 ^ 53
  /\ 2 ^ s = 2 * 2 ^ (s - 1).
Proof.
  intros Hn Hl s. assert (Hs : 0 < 2 ^ s) by (apply Z.pow_pos_nonneg; lia). destruct (Z.log2_spec n Hn) as [H1 H2].
  pose proof (Z.div_mod n (2 ^ s) ltac:(lia)). pose proof (Z.mod_pos_bound n (2 ^ s) Hs). split; [done|]. split; [lia|]. split; [done|]. split.
  - split; [apply Z.div_le_lower_bound; [lia|]|apply Z.div_lt_upper_bound; [lia|]]; rewrite <- Z.pow_add_r by lia;
      [replace (s + 52) with (Z.log2 n) by lia|replace (s + 53) with (Z.succ (Z.log2 n)) by lia]; done.
  - rewrite <- Z.pow_succ_r by lia. f_equal. lia.
Qed.
Lemma round_quotient_cases n : round_quotient n = n / 2 ^ (Z.log2 n - 52)
  \/ (round_quotient n = n / 2 ^ (Z.log2 n - 52) + 1 /\ 2 ^ (Z.log2 n - 52 - 1) <= n mod 2 ^ (Z.log2 n - 52)).
Proof.
  unfold round_quotient. destruct (Z.compare_spec (n mod 2 ^ (Z.log2 n - 52)) (2 ^ (Z.log2 n - 52 - 1))) as [E|L|G].
  - destruct (Z.even _); [by left|right]. split; [done|lia].
  - by left.
  - right. split; [done|lia].
Qed.

(** No float lies strictly between an integer and its rounding. *)
Lemma round_pos_below a n : 0 < n -> 0 <= a < SIGN -> magnitude a <= n * UNIT -> magnitude a <= round_pos n * UNIT.
Proof.
  intros Hn Ha H. unfold round_pos. destruct (Z.leb_spec (Z.log2 n) 52) as [|Hl]; [done|].
  destruct (quotient_facts n Hn Hl) as (Hs & En & Hr & Hq & _). set (s := Z.log2 n - 52) in *. assert (HU : 0 < UNIT) by done.
  destruct (round_quotient_cases n) as [->|[-> _]]; fold s; [|nia].
  destruct (Z.le_gt_cases (magnitude a) (n / 2 ^ s * 2 ^ s * UNIT)) as [|Hgt]; [done|exfalso].
  assert (HsU : 2 ^ (s + 1074) = 2 ^ s * UNIT) by (rewrite Z.pow_add_r by lia; done).
  destruct (large_multiple a (s + 1074)) as [k Ek]; [done|lia|rewrite Z.pow_add_r, HsU by lia; nia|].
  rewrite HsU in Ek. apply (between_multiples (n / 2 ^ s) k (2 ^ s * UNIT)); nia.
Qed.
Lemma round_pos_above a n : 0 < n -> 0 <= a < SIGN -> n * UNIT <= magnitude a -> round_pos n * UNIT <= magnitude a.
Proof.
  intros Hn Ha H. unfold round_pos. destruct (Z.leb_spec (Z.log2 n) 52) as [|Hl]; [done|].
  destruct (quotient_facts n Hn Hl) as (Hs & En & Hr & Hq & Hh). set (s := Z.log2 n - 52) in *. assert (HU : 0 < UNIT) by done.
  destruct (round_quotient_cases n) as [->|[-> Hge]]; [fold s; nia|]. fold s in Hge |- *.
  destruct (Z.le_gt_cases ((n / 2 ^ s + 1) * 2 ^ s * UNIT) (magnitude a)) as [|Hgt]; [done|exfalso].
  assert (HsU : 2 ^ (s + 1074) = 2 ^ s * UNIT) by (rewrite Z.pow_add_r by lia; done).
  destruct (large_multiple a (s + 1074)) as [k Ek]; [done|lia|rewrite Z.pow_add_r, HsU by lia; nia|].
  rewrite HsU in Ek. assert (0 < 2 ^ (s - 1)) by lia. apply (between_multiples (n / 2 ^ s) k (2 ^ s * UNIT)); nia.
Qed.

Lemma round_pos_bounds n : 0 < n -> 2 ^ Z.log2 n <= round_pos n <= 2 ^ (Z.log2 n + 1).
Proof.
  intros Hn. destruct (Z.log2_spec n Hn) as [H1 H2]. unfold round_pos. destruct (Z.leb_spec (Z.log2 n) 52) as [|Hl]; [unfold Z.succ in H2; lia|].
  destruct (quotient_facts n Hn Hl) as (Hs & En & Hr & Hq & _). set (s := Z.log2 n - 52) in *.
  assert (E1 : 2 ^ Z.log2 n = 2 ^ 52 * 2 ^ s) by (rewrite <- Z.pow_add_r by lia; f_equal; lia).
  assert (E2 : 2 ^ (Z.log2 n + 1) = 2 ^ 53 * 2 ^ s) by (rewrite <- Z.pow_add_r by lia; f_equal; lia).
  rewrite E1, E2. destruct (round_quotient_cases n) as [->|[-> _]]; fold s; nia.
Qed.
Lemma round_pos_mono n m : 0 < n <= m -> round_pos n <= round_pos m.
Proof.
  intros H. assert (Hl : Z.log2 n <= Z.log2 m) by (apply Z.log2_le_mono; lia). destruct (Z.eq_dec (Z.log2 n) (Z.log2 m)) as [E|Hne].
  - unfold round_pos. rewrite E. destruct (Z.leb_spec (Z.log2 m) 52) as [|Hm]; [lia|].
    destruct (quotient_facts n ltac:(lia) ltac:(lia)) as (Hs & En & Hr & Hq & _). destruct (quotient_facts m ltac:(lia) Hm) as (_ & Em & Hr' & Hq' & _).
    rewrite E in *. set (s := Z.log2 m - 52) in *. apply Z.mul_le_mono_nonneg_r; [lia|].
    unfold round_quotient. rewrite E. fold s. destruct (Z.eq_dec (n / 2 ^ s) (m / 2 ^ s)) as [Eq|Hneq].
    + rewrite Eq in *. assert (n mod 2 ^ s <= m mod 2 ^ s) by lia.
      destruct (Z.compare_spec (n mod 2 ^ s) (2 ^ (s - 1))), (Z.compare_spec (m mod 2 ^ s) (2 ^ (s - 1))); try case_match; lia.
    + assert (n / 2 ^ s < m / 2 ^ s) by nia. destruct (_ ?= _), (_ ?= _); repeat case_match; lia.
  - pose proof (round_pos_bounds n ltac:(lia)). pose proof (round_pos_bounds m ltac:(lia)).
    assert (2 ^ (Z.log2 n + 1) <= 2 ^ Z.log2 m) by (apply Z.pow_le_mono_r; lia). lia.
Qed.

Lemma magnitude_pattern e m : 0 < e -> 0 <= m < 2 ^ 52 -> magnitude (e * 2 ^ 52 + m) = (2 ^ 52 + m) * 2 ^ (e - 1).
Proof.
  intros He Hm. unfold magnitude. rewrite Z.div_add_l, Z.div_small, Z.add_0_r by lia.
  rewrite Z.add_comm, Z.mod_add, Z.mod_small by lia. destruct (Z.eqb_spec e 0); [lia|done].
Qed.
Lemma round_quotient_range n : 0 < n -> 52 < Z.log2 n -> 2 ^ 52 <= round_quotient n <= 2 ^ 53.
Proof.
  intros Hn Hl. destruct (quotient_facts n Hn Hl) as (_ & _ & _ & Hq & _). destruct (round_quotient_cases n) as [->|[-> _]]; lia.
Qed.
Lemma magnitude_bits_pos n : 0 < n <= 2 ^ 63 -> 0 < bits_pos n < INF /\ magnitude (bits_pos n) = round_pos n * UNIT.
Proof.
  intros [Hn Hu]. pose proof (Z.log2_nonneg n) as H0. assert (Hl : Z.log2 n <= 63) by (rewrite <- (Z.log2_pow2 63) by lia; by apply Z.log2_le_mono).
  destruct (Z.log2_spec n Hn) as [H1 H2]. unfold bits_pos, round_pos, INF. set (l := Z.log2 n) in *.
  destruct (Z.leb_spec l 52) as [Hs|Hs].
  - assert (E : 2 ^ 52 = 2 ^ l * 2 ^ (52 - l)) by (rewrite <- Z.pow_add_r by lia; f_equal; lia).
    assert (E' : 2 ^ 53 = 2 ^ Z.succ l * 2 ^ (52 - l)) by (rewrite <- Z.pow_add_r by lia; f_equal; lia).
    assert (Hp : 0 < 2 ^ (52 - l)) by (apply Z.pow_pos_nonneg; lia). assert (Hm : 0 <= n * 2 ^ (52 - l) - 2 ^ 52 < 2 ^ 52) by nia.
    split; [lia|]. rewrite magnitude_pattern by lia. replace (2 ^ 52 + (n * 2 ^ (52 - l) - 2 ^ 52)) with (n * 2 ^ (52 - l)) by lia.
    rewrite <- Z.mul_assoc, <- Z.pow_add_r by lia. unfold UNIT. do 2 f_equal. lia.
  - pose proof (round_quotient_range n Hn Hs) as Hq. assert (EU : 2 ^ (l + 1023 - 1) = 2 ^ (l - 52) * UNIT).
    { unfold UNIT. rewrite <- Z.pow_add_r by lia. f_equal. lia. }
    destruct (Z.eq_dec (round_quotient n) (2 ^ 53)) as [->|Hne].
    + split; [lia|]. replace ((l + 1023) * 2 ^ 52 + (2 ^ 53 - 2 ^ 52)) with ((l + 1024) * 2 ^ 52 + 0) by lia.
      rewrite magnitude_pattern by lia. replace (l + 1024 - 1) with (Z.succ (l + 1023 - 1)) by lia.
      rewrite Z.pow_succ_r, EU by lia. change (2 ^ 53) with (2 * 2 ^ 52). ring.
    + split; [lia|]. rewrite magnitude_pattern by lia. rewrite EU.
      replace (2 ^ 52 + (round_quotient n - 2 ^ 52)) with (round_quotient n) by lia. ring.
Qed.

(** [i as f64] is the rounded integer, is no NaN, and is never the negative zero. *)
Lemma of_int_spec i : is_i64 i ->
  is_u64 (of_int i) /\ of_int i <> SIGN /\ is_nan (of_int i) = false /\ value (of_int i) = round i * UNIT.
Proof.
  intros Hi. unfold is_i64, is_u64 in *. unfold of_int, round. destruct (Z.eqb_spec i 0) as [->|Hne]; [done|].
  assert (HS : INF < SIGN) by done. destruct (Z.ltb_spec 0 i) as [Hp|Hp].
  - destruct (magnitude_bits_pos i ltac:(lia)) as [Hb Hm]. unfold is_nan, value, abs, is_negative.
    destruct (Z.leb_spec SIGN (bits_pos i)); [lia|]. split; [unfold SIGN in *; lia|]. split; [lia|]. split; [apply Z.ltb_ge; lia|done].
  - destruct (magnitude_bits_pos (- i) ltac:(lia)) as [Hb Hm]. unfold is_nan, value, abs, is_negative.
    destruct (Z.leb_spec SIGN (SIGN + bits_pos (- i))); [|lia]. replace (SIGN + bits_pos (- i) - SIGN) with (bits_pos (- i)) by lia.
    split; [unfold SIGN in *; lia|]. split; [lia|]. split; [apply Z.ltb_ge; lia|]. rewrite Hm. ring.
Qed.

Lemma value_signs b : is_u64 b -> (is_negative b = true /\ value b = - magnitude (abs b)) \/ (is_negative b = false /\ value b = magnitude (abs b)).
Proof. intros Hb. unfold value. destruct (is_negative b); [by left|by right]. Qed.
Lemma round_below i b : is_u64 b -> value b <= i * UNIT -> value b <= round i * UNIT.
Proof.
  intros Hb H. pose proof (abs_range b Hb) as Ha. pose proof (magnitude_nonneg (abs b) ltac:(lia)) as Hm. assert (HU : 0 < UNIT) by done.
  unfold round. destruct (Z.eqb_spec i 0) as [->|Hne]; [done|]. destruct (value_signs b Hb) as [[_ E]|[_ E]]; rewrite E in *;
    destruct (Z.ltb_spec 0 i) as [Hp|Hp].
  - pose proof (round_pos_bounds i Hp). assert (0 < 2 ^ Z.log2 i) by (apply Z.pow_pos_nonneg; [lia|apply Z.log2_nonneg]). nia.
  - pose proof (round_pos_above (abs b) (- i) ltac:(lia) Ha ltac:(lia)). lia.
  - by apply round_pos_below.
  - nia.
Qed.
Lemma round_above i b : is_u64 b -> i * UNIT <= value b -> round i * UNIT <= value b.
Proof.
  intros Hb H. pose proof (abs_range b Hb) as Ha. pose proof (magnitude_nonneg (abs b) ltac:(lia)) as Hm. assert (HU : 0 < UNIT) by done.
  unfold round. destruct (Z.eqb_spec i 0) as [->|Hne]; [done|]. destruct (value_signs b Hb) as [[_ E]|[_ E]]; rewrite E in *;
    destruct (Z.ltb_spec 0 i) as [Hp|Hp].
  - nia.
  - pose proof (round_pos_below (abs b) (- i) ltac:(lia) Ha ltac:(lia)). lia.
  - by apply round_pos_above.
  - pose proof (round_pos_bounds (- i) ltac:(lia)). assert (0 < 2 ^ Z.log2 (- i)) by (apply Z.pow_pos_nonneg; [lia|apply Z.log2_nonneg]). nia.
Qed.
Lemma round_mono i j : i <= j -> round i <= round j.
Proof.
  intros H. unfold round. destruct (Z.eqb_spec i 0) as [->|Hi], (Z.eqb_spec j 0) as [->|Hj]; [lia|..].
  - destruct (Z.ltb_spec 0 j); [|lia]. pose proof (round_pos_bounds j ltac:(lia)). pose proof (Z.pow_nonneg 2 (Z.log2 j)). lia.
  - destruct (Z.ltb_spec 0 i); [lia|]. pose proof (round_pos_bounds (- i) ltac:(lia)). pose proof (Z.pow_nonneg 2 (Z.log2 (- i))). lia.
  - destruct (Z.ltb_spec 0 i), (Z.ltb_spec 0 j); [apply round_pos_mono; lia|lia| |].
    + pose proof (round_pos_bounds j ltac:(lia)). pose proof (Z.pow_nonneg 2 (Z.log2 j)).
      pose proof (round_pos_bounds (- i) ltac:(lia)). pose proof (Z.pow_nonneg 2 (Z.log2 (- i))). lia.
    + pose proof (round_pos_mono (- j) (- i) ltac:(lia)). lia.
Qed.
Lemma round_delta i : is_i64 i -> - 2 ^ 11 < i - round i < 2 ^ 11.
Proof.
  assert (H : forall n, 0 < n <= 2 ^ 63 -> - 2 ^ 11 < n - round_pos n < 2 ^ 11).
  { intros n Hn. unfold round_pos. destruct (Z.leb_spec (Z.log2 n) 52) as [|Hl]; [lia|].
    assert (Hu : Z.log2 n <= 63) by (rewrite <- (Z.log2_pow2 63) by lia; apply Z.log2_le_mono; lia).
    destruct (quotient_facts n ltac:(lia) Hl) as (Hs & En & Hr & _ & Hh). set (s := Z.log2 n - 52) in *.
    assert (2 ^ s <= 2 ^ 11) by (apply Z.pow_le_mono_r; lia). assert (0 < 2 ^ (s - 1)) by lia.
    destruct (round_quotient_cases n) as [->|[-> Hge]]; [fold s; nia|]. fold s in Hge |- *. nia. }
  intros Hi. unfold is_i64 in Hi. unfold round. destruct (Z.eqb_spec i 0); [lia|]. destruct (Z.ltb_spec 0 i).
  - apply H. lia.
  - pose proof (H (- i) ltac:(lia)). lia.
Qed.

(** Comparing the rounding first and then what was rounded off is exact. *)
Lemma int_float_compare i b : is_u64 b ->
  (i * UNIT ?= value b) = then_cmp (round i * UNIT ?= value b) (i - round i ?= 0).
Proof.
  intros Hb. pose proof (round_below i b Hb). pose proof (round_above i b Hb). assert (HU : 0 < UNIT) by done.
  destruct (Z.compare_spec (round i * UNIT) (value b)) as [E|L|G]; cbn [then_cmp].
  - rewrite <- E. destruct (Z.compare_spec (i - round i) 0); [apply Z.compare_eq_iff|apply Z.compare_lt_iff|apply Z.compare_gt_iff]; nia.
  - apply Z.compare_lt_iff. nia.
  - apply Z.compare_gt_iff. nia.
Qed.
Lemma int_int_compare i j : (i ?= j) = then_cmp (round i * UNIT ?= round j * UNIT) (i - round i ?= j - round j).
Proof.
  assert (HU : 0 < UNIT) by done. destruct (Z.compare_spec (round i * UNIT) (round j * UNIT)) as [E|L|G]; cbn [then_cmp].
  - apply Z.mul_cancel_r in E; [|lia]. rewrite E. destruct (Z.compare_spec i j); symmetry;
      [apply Z.compare_eq_iff|apply Z.compare_lt_iff|apply Z.compare_gt_iff]; lia.
  - apply Z.compare_lt_iff. apply Z.mul_lt_mono_pos_r in L; [|done]. destruct (Z.lt_ge_cases i j) as [|Hge]; [done|].
    pose proof (round_mono j i Hge). lia.
  - apply Z.compare_gt_iff. apply Z.mul_lt_mono_pos_r in G; [|done]. destruct (Z.lt_ge_cases j i) as [|Hge]; [done|].
    pose proof (round_mono i j Hge). lia.
Qed.

(** ** Order-preserving patterns *)

(** Flip all bits of a negative pattern, the sign of another. *)
Definition order_bits (b : Z) : Z := if Z.shiftr b 63 =? 1 then U64_MAX - b else Z.lxor b SIGN.

Lemma order_bits_spec b : is_u64 b -> order_bits b = if is_negative b then U64_MAX - b else b + SIGN.
Proof.
  intros Hb. unfold is_u64 in Hb. unfold order_bits, is_negative, SIGN. rewrite Z.shiftr_div_pow2 by lia.
  destruct (Z.leb_spec (2 ^ 63) b) as [H|H].
  - replace (b / 2 ^ 63) with 1; [done|]. apply Z.div_unique with (r := b - 2 ^ 63); lia.
  - rewrite Z.div_small by lia. cbn [Z.eqb]. symmetry. apply Z.add_nocarry_lxor. apply Z.bits_inj'. intros k Hk.
    rewrite Z.land_spec, Z.bits_0. destruct (Z.eq_dec k 63) as [->|Hne].
    + assert (E : Z.testbit b 63 = false) by (apply Z.testbit_false; [lia|by rewrite Z.div_small by lia]). by rewrite E.
    + rewrite Z.pow2_bits_false by lia. apply andb_false_r.
Qed.
Lemma order_bits_u64 b : is_u64 b -> is_u64 (order_bits b).
Proof.
  intros Hb. rewrite order_bits_spec by done. unfold is_u64, is_negative, U64_MAX, SIGN in *.
  destruct (Z.leb_spec (2 ^ 63) b); lia.
Qed.
(** [x.total_cmp(&y)] *)
Definition total_cmp (x y : Z) : comparison := order_bits x ?= order_bits y.
Lemma order_bits_inj x y : is_u64 x -> is_u64 y -> order_bits x = order_bits y -> x = y.
Proof.
  intros Hx Hy. rewrite !order_bits_spec by done. unfold is_u64, is_negative, U64_MAX, SIGN in *.
  destruct (Z.leb_spec (2 ^ 63) x), (Z.leb_spec (2 ^ 63) y); lia.
Qed.
Lemma total_cmp_eq x y : is_u64 x -> is_u64 y -> total_cmp x y = Eq <-> x = y.
Proof. intros Hx Hy. unfold total_cmp. rewrite Z.compare_eq_iff. split; [by apply order_bits_inj|by intros ->]. Qed.

(** Except that the negative zero comes before the positive one. *)
Lemma order_bits_compare x y : is_u64 x -> is_u64 y -> x <> SIGN -> y <> SIGN ->
  (order_bits x ?= order_bits y) = (value x ?= value y).
Proof.
  intros Hx Hy Nx Ny. rewrite !order_bits_spec by done. pose proof (abs_range x Hx) as Ax. pose proof (abs_range y Hy) as Ay.
  pose proof (magnitude_nonneg (abs x) ltac:(lia)). pose proof (magnitude_nonneg (abs y) ltac:(lia)).
  assert (Hpos : forall a, 0 < a < SIGN -> 0 < magnitude a) by (intros a Ha; apply (magnitude_mono 0 a); lia).
  unfold value, abs in *. unfold is_u64, is_negative, U64_MAX, SIGN in *.
  destruct (Z.leb_spec (2 ^ 63) x) as [Lx|Lx], (Z.leb_spec (2 ^ 63) y) as [Ly|Ly].
  - rewrite Z.compare_opp, magnitude_compare by (unfold SIGN; lia). destruct (Z.compare_spec (y - 2 ^ 63) (x - 2 ^ 63));
      [apply Z.compare_eq_iff|apply Z.compare_lt_iff|apply Z.compare_gt_iff]; lia.
  - pose proof (Hpos (x - 2 ^ 63) ltac:(lia)). transitivity Lt; [apply Z.compare_lt_iff; lia|symmetry; apply Z.compare_lt_iff; lia].
  - pose proof (Hpos (y - 2 ^ 63) ltac:(lia)). transitivity Gt; [apply Z.compare_gt_iff; lia|symmetry; apply Z.compare_gt_iff; lia].
  - rewrite magnitude_compare by (unfold SIGN; lia). destruct (Z.compare_spec x y);
      [apply Z.compare_eq_iff|apply Z.compare_lt_iff|apply Z.compare_gt_iff]; lia.
Qed.
End F64.
