(* ===== verification/Entries.v ===== *)
(** * Entries of a hash map with byte-string keys

    A [HashMap<String, V>] as the list of its entries in some order, with
    distinct keys: lookup, equality up to order, and the sort by key that
    makes everything computed from a map independent of the order. *)

From S2P Require Import Prelude.

Abbreviation Str := (list Z).

Section entries.
  Context {A : Type}.
  Implicit Types (m l r : list (Str * A)) (k : Str).

(** [map.get(key)] *)
Definition get k m : option A := snd <$> head (filter (fun e => e.1 = k) m).

(** [pairs.sort_by_key(|(k, _)| *k)]; the sort of the library is stable, so any
    stable sort is the same function. *)
Fixpoint insert_by_key (e : Str * A) m : list (Str * A) :=
  match m with
  | [] => [e]
  | x :: m => match memcmp e.1 x.1 with Gt => x :: insert_by_key e m | _ => e :: x :: m end
  end.
Definition sort_by_key m : list (Str * A) := foldr insert_by_key [] m.

Definition key_lt (a b : Str * A) : Prop := memcmp a.1 b.1 = Lt.
Definition distinct m : Prop := NoDup m.*1.

Lemma get_nil k : get k [] = None.
Proof. done. Qed.
Lemma get_cons k e m : get k (e :: m) = if decide (e.1 = k) then Some e.2 else get k m.
Proof. unfold get. rewrite filter_cons. by case_decide. Qed.
Lemma get_elem k x m : get k m = Some x -> (k, x) ∈ m.
Proof.
  induction m as [|[j y] m IH]; [done|]. rewrite get_cons. cbn. case_decide; [intros [= ->]; subst; by left|]. intros ?. right. by apply IH.
Qed.
Lemma elem_get k x m : distinct m -> (k, x) ∈ m -> get k m = Some x.
Proof.
  induction m as [|[j y] m IH]; [by intros _ ?%not_elem_of_nil|]. unfold distinct. rewrite fmap_cons, NoDup_cons. intros [Hj Hd] Hin.
  rewrite get_cons. cbn. apply elem_of_cons in Hin as [[= -> ->]|Hin]; [by rewrite decide_True|].
  rewrite decide_False; [by apply IH|]. intros ->. apply Hj, list_elem_of_fmap. by exists (k, x).
Qed.
Lemma get_None k m : get k m = None <-> k ∉ m.*1.
Proof.
  induction m as [|[j y] m IH]; [split; [intros _; apply not_elem_of_nil|done]|]. rewrite get_cons, fmap_cons, not_elem_of_cons. cbn.
  case_decide; subst; [split; [done|by intros []]|]. rewrite IH. split; [intros ?; split; [congruence|done]|by intros []].
Qed.
Lemma get_perm k l r : distinct l -> l ≡ₚ r -> get k l = get k r.
Proof.
  intros Hd Hp. assert (Hr : distinct r) by (unfold distinct; by rewrite <- Hp).
  destruct (get k l) as [x|] eqn:E.
  - symmetry. apply elem_get; [done|]. rewrite <- Hp. by apply get_elem.
  - symmetry. apply get_None. rewrite <- Hp. by apply get_None.
Qed.

(** ** Sorting *)

Lemma insert_by_key_perm e m : insert_by_key e m ≡ₚ e :: m.
Proof. induction m as [|x m IH]; cbn; [done|]. destruct (memcmp e.1 x.1); [done|done|]. rewrite IH. by rewrite Permutation_swap. Qed.
Lemma sort_by_key_perm m : sort_by_key m ≡ₚ m.
Proof. induction m as [|e m IH]; cbn; [done|]. rewrite insert_by_key_perm. by rewrite IH. Qed.
Lemma sort_by_key_distinct m : distinct m -> distinct (sort_by_key m).
Proof. unfold distinct. intros H. by rewrite sort_by_key_perm. Qed.
Lemma insert_by_key_sorted e m : StronglySorted key_lt m -> e.1 ∉ m.*1 -> StronglySorted key_lt (insert_by_key e m).
Proof.
  induction m as [|x m IH]; intros Hs Hn; cbn; [by constructor|]. apply StronglySorted_cons in Hs as [Hx Hs].
  rewrite fmap_cons, not_elem_of_cons in Hn. destruct Hn as [Hne Hn]. destruct (memcmp e.1 x.1) eqn:E.
  - by apply memcmp_eq in E.
  - apply StronglySorted_cons. split; [|by apply StronglySorted_cons]. apply Forall_cons. split; [done|].
    eapply Forall_impl; [exact Hx|]. intros y Hy. by eapply memcmp_lt_trans.
  - apply StronglySorted_cons. split; [|by apply IH]. rewrite insert_by_key_perm. apply Forall_cons. split; [|done].
    unfold key_lt. rewrite memcmp_opp, E. done.
Qed.
Lemma sort_by_key_sorted m : distinct m -> StronglySorted key_lt (sort_by_key m).
Proof.
  unfold distinct. induction m as [|e m IH]; cbn; [constructor|]. rewrite NoDup_cons. intros [Hn Hd].
  apply insert_by_key_sorted; [by apply IH|]. by rewrite sort_by_key_perm.
Qed.
Lemma get_sorted k m : distinct m -> get k (sort_by_key m) = get k m.
Proof. intros Hd. symmetry. apply get_perm; [done|]. by rewrite sort_by_key_perm. Qed.
End entries.
Arguments distinct {A} m.

(** Sorting looks at the keys only. *)
Lemma insert_by_key_fmap {A B} (f : Str * A -> Str * B) e m : (forall x, (f x).1 = x.1) ->
  insert_by_key (f e) (f <$> m) = f <$> insert_by_key e m.
Proof. intros H. induction m as [|x m IH]; [done|]. cbn. rewrite !H. destruct (memcmp e.1 x.1); [done|done|]. cbn. f_equal. apply IH. Qed.
Lemma sort_by_key_fmap {A B} (f : Str * A -> Str * B) m : (forall x, (f x).1 = x.1) -> sort_by_key (f <$> m) = f <$> sort_by_key m.
Proof. intros H. induction m as [|e m IH]; [done|]. unfold sort_by_key in *. rewrite fmap_cons. cbn [foldr]. rewrite IH. by apply insert_by_key_fmap. Qed.
Lemma fmap_snd_keys {A B} (g : A -> B) (m : list (Str * A)) : ((fun e => (e.1, g e.2)) <$> m).*1 = m.*1.
Proof. rewrite <- list_fmap_compose. by apply list_fmap_ext. Qed.

(** ** Entries related key by key *)

Section related.
  Context {A B : Type} (R : A -> B -> Prop).

Definition same_entries (l : list (Str * A)) (r : list (Str * B)) : Prop :=
  forall k, match get k l, get k r with Some x, Some y => R x y | None, None => True | _, _ => False end.

(** Sorted by key, related entries meet. *)
Lemma sorted_entries l r : StronglySorted key_lt l -> StronglySorted key_lt r -> same_entries l r ->
  Forall2 (fun a b => a.1 = b.1 /\ R a.2 b.2) l r.
Proof.
  assert (Hlt : forall C (k : Str) (m : list (Str * C)), Forall (fun e => memcmp k e.1 = Lt) m -> get k m = None).
  { intros C k m H. apply get_None. intros (e & -> & He)%list_elem_of_fmap. rewrite Forall_forall in H. specialize (H e He).
    by rewrite (proj2 (memcmp_eq e.1 e.1) eq_refl) in H. }
  revert r. induction l as [|[k x] l IH]; intros [|[j y] r] Sl Sr H.
  - constructor.
  - specialize (H j). rewrite get_nil, get_cons in H. cbn in H. by rewrite decide_True in H.
  - specialize (H k). rewrite get_nil, get_cons in H. cbn in H. by rewrite decide_True in H.
  - apply StronglySorted_cons in Sl as [Hk Sl]. apply StronglySorted_cons in Sr as [Hj Sr].
    assert (E : k = j).
    { destruct (memcmp k j) eqn:E; [by apply memcmp_eq| |].
      - specialize (H k). rewrite !get_cons in H. cbn in H. rewrite decide_True in H by done.
        rewrite decide_False in H by (intros ->; by rewrite (proj2 (memcmp_eq k k) eq_refl) in E).
        rewrite (Hlt _ k r) in H; [done|]. eapply Forall_impl; [exact Hj|]. intros e He. by eapply memcmp_lt_trans.
      - assert (E' : memcmp j k = Lt) by (by rewrite memcmp_opp, E). specialize (H j). rewrite !get_cons in H. cbn in H.
        rewrite (decide_True (P := j = j)) in H by done. rewrite decide_False in H by (intros ->; by rewrite (proj2 (memcmp_eq j j) eq_refl) in E').
        rewrite (Hlt _ j l) in H; [done|]. eapply Forall_impl; [exact Hk|]. intros e He. by eapply memcmp_lt_trans. }
    subst j. constructor.
    + specialize (H k). rewrite !get_cons in H. cbn in H. rewrite !decide_True in H by done. done.
    + apply IH; [done|done|]. intros i. specialize (H i). rewrite !get_cons in H. cbn in H. case_decide; [|done]. subst i.
      rewrite !Hlt; [done|exact Hj|exact Hk].
Qed.
Lemma sort_same_entries l r : distinct l -> distinct r -> same_entries l r ->
  Forall2 (fun a b => a.1 = b.1 /\ R a.2 b.2) (sort_by_key l) (sort_by_key r).
Proof.
  intros Hl Hr H. apply sorted_entries; [by apply sort_by_key_sorted..|]. intros k. rewrite !get_sorted by done. apply H.
Qed.
End related.

(** ** Equality of maps *)

Section map_eq.
  Context {A B : Type} (f : A -> B -> bool).

(** [self.len() == other.len() && self.iter().all(|(k, v)| other.get(k) == Some(v))] *)
Definition map_eq (l : list (Str * A)) (r : list (Str * B)) : bool :=
  Nat.eqb (length l) (length r) && forallb (fun e => match get e.1 r with Some y => f e.2 y | None => false end) l.

Lemma map_eq_spec l r : distinct l -> distinct r -> map_eq l r = true <-> same_entries (fun x y => f x y = true) l r.
Proof.
  intros Dl Dr. unfold map_eq. rewrite andb_true_iff, Nat.eqb_eq, forallb_forall. split.
  - intros [Hlen Hall].
    assert (Hsub : forall k x, get k l = Some x -> exists y, get k r = Some y /\ f x y = true).
    { intros k x Hx%get_elem. specialize (Hall (k, x)). cbn in Hall. rewrite <- list_elem_of_In in Hall. specialize (Hall Hx).
      destruct (get k r) as [y|]; [by exists y|done]. }
    assert (Hk : forall k, k ∈ r.*1 -> k ∈ l.*1).
    { assert (Hs : l.*1 ⊆+ r.*1).
      { apply NoDup_submseteq; [done|]. intros k Hk. destruct (get k l) as [x|] eqn:E; [|by apply get_None in E].
        destruct (Hsub k x E) as (y & Hy & _). apply get_elem in Hy. apply list_elem_of_fmap. by exists (k, y). }
      apply submseteq_length_Permutation in Hs; [|rewrite !length_fmap; lia]. intros k. by rewrite Hs. }
    intros k. destruct (get k l) as [x|] eqn:E.
    + destruct (Hsub k x E) as (y & -> & ?). done.
    + apply get_None in E. destruct (get k r) as [y|] eqn:E'; [|done]. apply E, Hk, list_elem_of_fmap. exists (k, y). split; [done|]. by apply get_elem.
  - intros H. split.
    + assert (P : l.*1 ≡ₚ r.*1).
      { apply NoDup_Permutation; [done|done|]. intros k. specialize (H k). pose proof (get_None k l) as Nl. pose proof (get_None k r) as Nr.
        destruct (get k l), (get k r); try done; [|tauto]. split; intros _; apply dec_stable; intros Hn; [by apply Nr in Hn|by apply Nl in Hn]. }
      apply Permutation_length in P. by rewrite !length_fmap in P.
    + intros [k x] Hx%list_elem_of_In. cbn. apply elem_get in Hx; [|done]. specialize (H k). rewrite Hx in H. by destruct (get k r).
Qed.
End map_eq.

Section all2.
  Context {A B : Type} (f : A -> B -> bool).
(** [==] on vectors. *)
Fixpoint all2 (l : list A) (r : list B) : bool :=
  match l, r with
  | [], [] => true
  | x :: l, y :: r => f x y && all2 l r
  | _, _ => false
  end.
Lemma all2_spec l r : all2 l r = true <-> Forall2 (fun x y => f x y = true) l r.
Proof.
  revert r. induction l as [|x l IH]; intros [|y r]; cbn; try (split; [done|inversion 1]); [by split|].
  rewrite andb_true_iff, IH, Forall2_cons. done.
Qed.
End all2.
