(* ===== verification/CypherValue.v ===== *)
(** * Cypher values

    uni-common/src/value.rs: [Value] with its entities and temporals, entity
    identity, the equality and hash of collections, numeric comparison; the
    reserved names of core/schema.rs.  A string is its UTF-8 bytes, a
    [HashMap] a list of entries with distinct keys whose order no definition
    uses, an f64 or f32 its bit pattern.  A hash is the sequence of words fed
    to the hasher. *)

From stdpp Require Import strings.
From S2P Require Import Prelude Float64 Entries.

Definition str (s : string) : Str := (fun a => Z.of_N (Ascii.N_of_ascii a)) <$> String.list_ascii_of_string s.

Inductive TemporalType := TDate | TLocalTime | TTime | TLocalDateTime | TDateTime | TDuration | TBtic.
#[export] Instance temporal_type_eq_dec : EqDecision TemporalType.
Proof. solve_decision. Defined.

Inductive TemporalValue :=
| Date (days_since_epoch : Z)
| LocalTime (nanos_since_midnight : Z)
| Time (nanos_since_midnight offset_seconds : Z)
| LocalDateTime (nanos_since_epoch : Z)
| DateTime (nanos_since_epoch offset_seconds : Z) (timezone_name : option Str)
| Duration (months days nanos : Z)
| BticValue (lo hi meta : Z).
#[export] Instance temporal_value_eq_dec : EqDecision TemporalValue.
Proof. solve_decision. Defined.

Definition temporal_type (t : TemporalValue) : TemporalType :=
  match t with
  | Date _ => TDate | LocalTime _ => TLocalTime | Time _ _ => TTime | LocalDateTime _ => TLocalDateTime
  | DateTime _ _ _ => TDateTime | Duration _ _ _ => TDuration | BticValue _ _ _ => TBtic
  end.

Record NodeOf (V : Type) := mkNode {
  vid : Z;
  labels : list Str;
  n_properties : list (Str * V);
}.
Arguments mkNode {V} _ _ _.
Arguments vid {V} _.
Arguments labels {V} _.
Arguments n_properties {V} _.
Record EdgeOf (V : Type) := mkEdge {
  eid : Z;
  edge_type : Str;
  src : Z;
  dst : Z;
  e_properties : list (Str * V);
}.
Arguments mkEdge {V} _ _ _ _ _.
Arguments eid {V} _.
Arguments edge_type {V} _.
Arguments src {V} _.
Arguments dst {V} _.
Arguments e_properties {V} _.

Inductive Value :=
| VNull
| VBool (b : bool)
| VInt (i : Z)
| VFloat (f : Z)
| VString (s : Str)
| VBytes (b : list Z)
| VList (l : list Value)
| VMap (m : list (Str * Value))
| VNode (n : NodeOf Value)
| VEdge (e : EdgeOf Value)
| VPath (nodes : list (NodeOf Value)) (edges : list (EdgeOf Value))
| VVector (v : list Z)
| VSparseVector (indices values : list Z)
| VBinaryVector (b : list Z)
| VTemporal (t : TemporalValue).
Abbreviation Node := (NodeOf Value).
Abbreviation Edge := (EdgeOf Value).
Abbreviation Map := (list (Str * Value)).

(** Induction with hypotheses for every value inside. *)
Section value_ind.
  Context (P : Value -> Prop).
Let inside (m : Map) : Prop := Forall (fun e => P e.2) m.
  Hypothesis (Hnull : P VNull) (Hbool : forall b, P (VBool b)) (Hint : forall i, P (VInt i)) (Hfloat : forall f, P (VFloat f))
    (Hstring : forall s, P (VString s)) (Hbytes : forall b, P (VBytes b)) (Hlist : forall l, Forall P l -> P (VList l))
    (Hmap : forall m, inside m -> P (VMap m)) (Hnode : forall n, inside (n_properties n) -> P (VNode n))
    (Hedge : forall e, inside (e_properties e) -> P (VEdge e))
    (Hpath : forall ns es, Forall (fun n => inside (n_properties n)) ns -> Forall (fun e => inside (e_properties e)) es -> P (VPath ns es))
    (Hvector : forall v, P (VVector v)) (Hsparse : forall i w, P (VSparseVector i w)) (Hbinary : forall b, P (VBinaryVector b))
    (Htemporal : forall t, P (VTemporal t)).

Fixpoint value_ind' (v : Value) : P v :=
  let entries := fix entries (m : Map) : inside m :=
    match m with
    | [] => List.Forall_nil _
    | e :: m => List.Forall_cons _ _ _ (match e return P e.2 with (k, x) => value_ind' x end) (entries m)
    end in
  match v with
  | VNull => Hnull | VBool b => Hbool b | VInt i => Hint i | VFloat f => Hfloat f | VString s => Hstring s | VBytes b => Hbytes b
  | VList l => Hlist l ((fix items (l : list Value) : Forall P l :=
      match l with [] => List.Forall_nil _ | x :: l => List.Forall_cons _ _ _ (value_ind' x) (items l) end) l)
  | VMap m => Hmap m (entries m)
  | VNode n => Hnode n (match n return inside (n_properties n) with mkNode _ _ m => entries m end)
  | VEdge e => Hedge e (match e return inside (e_properties e) with mkEdge _ _ _ _ m => entries m end)
  | VPath ns es => Hpath ns es
      ((fix nodes (ns : list Node) : Forall (fun n => inside (n_properties n)) ns :=
        match ns with
        | [] => List.Forall_nil _
        | n :: ns => List.Forall_cons (fun n => inside (n_properties n)) n ns (match n return inside (n_properties n) with mkNode _ _ m => entries m end) (nodes ns)
        end) ns)
      ((fix edges (es : list Edge) : Forall (fun e => inside (e_properties e)) es :=
        match es with
        | [] => List.Forall_nil _
        | e :: es => List.Forall_cons (fun e => inside (e_properties e)) e es (match e return inside (e_properties e) with mkEdge _ _ _ _ m => entries m end) (edges es)
        end) es)
  | VVector v => Hvector v | VSparseVector i w => Hsparse i w | VBinaryVector b => Hbinary b | VTemporal t => Htemporal t
  end.
End value_ind.

(** ** Maps and names *)

Definition contains_key {A} (k : string) (m : list (Str * A)) : bool := bool_decide (is_Some (get (str k) m)).
Definition get_with_fallback {A} (m : list (Str * A)) (keys : list string) : option A :=
  head (omap (fun k => get (str k) m) keys).

Definition starts_with (prefix s : Str) : bool := bool_decide (take (length prefix) s = prefix).
Definition ends_with (suffix s : Str) : bool := bool_decide (drop (length s - length suffix) s = suffix).

Definition RESERVED_PROPERTY_NAMES : list string :=
  ["overflow_json"; "_vid"; "_uid"; "_eid"; "_deleted"; "_version"; "_labels"; "_created_at"; "_updated_at"; "_type"; "_type_name";
   "_src"; "_dst"; "_src_vid"; "_dst_vid"; "_all_props"; "_label"; "_score"; "_fwd"; "_rowid"; "_rowaddr"; "_rowoffset";
   "_row_created_at_version"; "_row_last_updated_at_version"; "__set_struct__"; "__with_passthrough__"]%string.
Definition RESERVED_PROPERTY_PREFIXES : list string := ["_gen_"; "__fde_"; "__alias_of__"]%string.
Definition is_reserved_property_name (name : Str) : bool :=
  bool_decide (name ∈ str <$> RESERVED_PROPERTY_NAMES) || existsb (fun p => starts_with (str p) name) RESERVED_PROPERTY_PREFIXES.

(** ** Accessors *)

Definition is_null (v : Value) : bool := match v with VNull => true | _ => false end.
Definition as_bool (v : Value) : option bool := match v with VBool b => Some b | _ => None end.
Definition as_i64 (v : Value) : option Z := match v with VInt i => Some i | _ => None end.
Definition value_as_u64 (v : Value) : option Z := match v with VInt i => if 0 <=? i then Some i else None | _ => None end.
Definition as_f64 (v : Value) : option Z := match v with VFloat f => Some f | VInt i => Some (F64.of_int i) | _ => None end.
Definition as_str (v : Value) : option Str := match v with VString s => Some s | _ => None end.
Definition as_id_bits (v : Value) : option Z := match v with VInt i => if i =? -1 then None else Some (as_u64 i) | _ => None end.
Definition from_id_bits (bits : Z) : Value := VInt (Prelude.as_i64 bits).

Definition type_name (v : Value) : string :=
  match v with
  | VNull => "null" | VBool _ => "bool" | VInt _ => "int" | VFloat _ => "float" | VString _ => "string" | VBytes _ => "bytes"
  | VList _ => "list" | VMap _ => "map" | VNode _ => "node" | VEdge _ => "edge" | VPath _ _ => "path" | VVector _ => "vector"
  | VSparseVector _ _ => "sparse_vector" | VBinaryVector _ => "binary_vector" | VTemporal (BticValue _ _ _) => "btic" | VTemporal _ => "temporal"
  end.

(** ** Entities *)

Inductive EntityRef := Vertex (vid : Z) | EdgeRef (eid : Z).
#[export] Instance entity_ref_eq_dec : EqDecision EntityRef.
Proof. solve_decision. Defined.

(** [parse::<u64>().ok()]: digits with an optional plus. *)
Definition digit (c : Z) : option Z := if (48 <=? c) && (c <=? 57) then Some (c - 48) else None.
Fixpoint parse_digits (acc : Z) (s : Str) : option Z :=
  match s with
  | [] => Some acc
  | c :: s => d ← digit c; if acc * 10 + d <=? U64_MAX then parse_digits (acc * 10 + d) s else None
  end.
Definition parse_u64 (s : Str) : option Z :=
  match s with
  | [] => None
  | c :: rest => if c =? 43 then match rest with [] => None | _ => parse_digits 0 rest end else parse_digits 0 s
  end.

Definition strip_prefix (p s : Str) : option Str := if starts_with p s then Some (drop (length p) s) else None.
Definition strip_suffix (p s : Str) : option Str := if ends_with p s then Some (take (length s - length p) s) else None.

Definition id_from (v : Value) : option Z :=
  match v with
  | VInt _ => as_id_bits v
  | VString s =>
      let stripped := match strip_prefix (str "Vid(") s with Some t => Some t | None => strip_prefix (str "Eid(") s end in
      parse_u64 (default s (t ← stripped; strip_suffix (str ")") t))
  | _ => value_as_u64 v
  end.

Definition looks_like_edge {A} (m : list (Str * A)) : bool :=
  let has_endpoint := existsb (fun k => contains_key k m) ["_src"; "_dst"; "src"; "dst"; "_src_vid"; "_dst_vid"]%string in
  contains_key "_type" m
  || ((contains_key "_eid" m || contains_key "eid" m) && has_endpoint)
  || ((contains_key "_src" m || contains_key "src" m) && (contains_key "_dst" m || contains_key "dst" m))
  || (contains_key "_src_vid" m && contains_key "_dst_vid" m)
  || contains_key "_type_name" m
  || contains_key "edge_type" m.
Definition entity_ref_from_map (m : Map) : option EntityRef :=
  if looks_like_edge m then EdgeRef <$> (v ← get_with_fallback m ["_eid"; "_id"; "eid"]%string; id_from v)
  else if contains_key "_labels" m then Vertex <$> (v ← get_with_fallback m ["_vid"; "_id"; "vid"]%string; id_from v)
  else None.
Definition entity_ref (v : Value) : option EntityRef :=
  match v with
  | VNode n => Some (Vertex (vid n))
  | VEdge e => Some (EdgeRef (eid e))
  | VMap m => entity_ref_from_map m
  | _ => None
  end.

Inductive EdgeTypeRef := TypeName (n : Str) | TypeId (id : Z).
Definition edge_type_ref (v : Value) : option EdgeTypeRef :=
  match v with
  | VEdge e => Some (TypeName (edge_type e))
  | VMap m =>
      match head (omap (fun k => match get (str k) m with Some (VString s) => Some (TypeName s) | _ => None end)
                   ["_type_name"; "edge_type"; "_type"]%string) with
      | Some named => Some named
      | None =>
          v ← get_with_fallback m ["_type"; "_type_id"]%string;
          n ← value_as_u64 v;
          if n <=? U32_MAX then Some (TypeId n) else None
      end
  | _ => None
  end.

(** ** Numbers *)

Definition cmp_i64_f64 (i f : Z) : comparison :=
  if F64.is_infinite f then (if F64.is_negative f then Gt else Lt)
  else
    let ff := F64.floor f in
    if 2 ^ 63 <=? ff then Lt
    else if ff <? - 2 ^ 63 then Gt
    else
      match i ?= ff with
      | Eq => if ff * F64.UNIT <? F64.value f then Lt else Eq
      | c => c
      end.
Definition f64_to_exact_i64 (f : Z) : option Z :=
  if F64.is_integral f && (- 2 ^ 63 <=? F64.floor f) && (F64.floor f <? 2 ^ 63) then Some (F64.floor f) else None.
Definition cypher_numeric_cmp (left right : Value) : option (option comparison) :=
  match left, right with
  | VInt l, VInt r => Some (Some (l ?= r))
  | VFloat l, VFloat r => Some (F64.partial_cmp l r)
  | VInt i, VFloat f => Some (if F64.is_nan f then None else Some (cmp_i64_f64 i f))
  | VFloat f, VInt i => Some (if F64.is_nan f then None else Some (CompOpp (cmp_i64_f64 i f)))
  | _, _ => None
  end.
