(* ===== verification/ValueEq.v ===== *)
(** * Equality and hashing of values

    The [PartialEq] and [Hash] implementations of [Value] (uni-common/src/value.rs),
    which back [HashSet<Value>] and [HashMap<Value, _>]: entities compare by
    identity in either encoding, floats with the zeros identified and NaN equal
    to itself.  The theorem is the contract that the collections rely on. *)

From stdpp Require Import strings.
From S2P Require Import Prelude Float64 Entries CypherValue Sparse.

(** ** Equality *)

Definition is_zero64 (f : Z) : bool := F64.abs f =? 0.
Definition float_eq_normalized (a b : Z) : bool :=
  bool_decide (F64.total_cmp a b = Eq) || (is_zero64 a && is_zero64 b) || (F64.is_nan a && F64.is_nan b).
Definition is_zero32 (f : Z) : bool := F32.abs f =? 0.
(** [f32::total_cmp] orders by sign and pattern; it is [Equal] on equal patterns. *)
Definition float_eq_normalized_f32 (a b : Z) : bool :=
  bool_decide (a = b) || (is_zero32 a && is_zero32 b) || (F32.is_nan a && F32.is_nan b).
Definition slice_eq_normalized_f32 (a b : list Z) : bool := all2 float_eq_normalized_f32 a b.

(** The derived equalities of [Node] and [Edge]. *)
Definition node_eq (f : Value -> Value -> bool) (a b : Node) : bool :=
  bool_decide (vid a = vid b) && bool_decide (labels a = labels b) && map_eq f (n_properties a) (n_properties b).
Definition edge_eq (f : Value -> Value -> bool) (a b : Edge) : bool :=
  bool_decide (eid a = eid b) && bool_decide (edge_type a = edge_type b) && bool_decide (src a = src b) && bool_decide (dst a = dst b)
  && map_eq f (e_properties a) (e_properties b).

Fixpoint value_eq (a b : Value) : bool :=
  match entity_ref a, entity_ref b with
  | Some x, Some y => bool_decide (x = y)
  | Some _, None | None, Some _ => false
  | None, None =>
      match a, b with
      | VFloat x, VFloat y => float_eq_normalized x y
      | VNull, VNull => true
      | VBool x, VBool y => eqb x y
      | VInt x, VInt y => x =? y
      | VString x, VString y => bool_decide (x = y)
      | VBytes x, VBytes y => bool_decide (x = y)
      | VList l, VList r => all2 value_eq l r
      | VMap l, VMap r => map_eq value_eq l r
      | VNode x, VNode y => node_eq value_eq x y
      | VEdge x, VEdge y => edge_eq value_eq x y
      | VPath ns es, VPath ns' es' => all2 (node_eq value_eq) ns ns' && all2 (edge_eq value_eq) es es'
      | VVector x, VVector y => slice_eq_normalized_f32 x y
      | VSparseVector i1 v1, VSparseVector i2 v2 => bool_decide (i1 = i2) && slice_eq_normalized_f32 v1 v2
      | VBinaryVector x, VBinaryVector y => bool_decide (x = y)
      | VTemporal x, VTemporal y => bool_decide (x = y)
      | _, _ => false
      end
  end.

(** ** Hashing *)

(** The calls on the hasher. *)
Inductive Write :=
| WriteU8 (z : Z) | WriteU32 (z : Z) | WriteU64 (z : Z) | WriteI32 (z : Z) | WriteI64 (z : Z) | WriteUsize (n : nat)
| WriteIsize (discriminant : Z) | WriteBytes (b : list Z).

Definition hash_f64_normalized (f : Z) : list Write :=
  [WriteU64 (if is_zero64 f then 0 else if F64.is_nan f then 2047 * 2 ^ 52 + 2 ^ 51 else f)].
Definition hash_f32_normalized (f : Z) : list Write :=
  [WriteU32 (if is_zero32 f then 0 else if F32.is_nan f then 255 * 2 ^ 23 + 2 ^ 22 else f)].
Definition hash_str (s : Str) : list Write := [WriteBytes s; WriteU8 255].
Definition hash_vec {A} (f : A -> list Write) (l : list A) : list Write := WriteUsize (length l) :: mjoin (f <$> l).
(** Integers of a slice are written at once. *)
Definition hash_u32s (l : list Z) : list Write := [WriteUsize (length l); WriteBytes (mjoin (to_le_bytes 4 <$> l))].
Definition hash_bytes (b : list Z) : list Write := [WriteUsize (length b); WriteBytes b].

Definition temporal_discriminant (t : TemporalValue) : Z :=
  match t with
  | Date _ => 0 | LocalTime _ => 1 | Time _ _ => 2 | LocalDateTime _ => 3 | DateTime _ _ _ => 4 | Duration _ _ _ => 5 | BticValue _ _ _ => 6
  end.
Definition hash_temporal (t : TemporalValue) : list Write :=
  WriteIsize (temporal_discriminant t) ::
  match t with
  | Date d => [WriteI32 d]
  | LocalTime n => [WriteI64 n]
  | Time n o => [WriteI64 n; WriteI32 o]
  | LocalDateTime n => [WriteI64 n]
  | DateTime n o tz => [WriteI64 n; WriteI32 o] ++ match tz with None => [WriteIsize 0] | Some s => WriteIsize 1 :: hash_str s end
  | Duration m d n => [WriteI64 m; WriteI64 d; WriteI64 n]
  | BticValue lo hi meta => [WriteI64 lo; WriteI64 hi; WriteU64 meta]
  end.
Definition hash_entity (e : EntityRef) : list Write :=
  match e with Vertex v => [WriteIsize 0; WriteU64 v] | EdgeRef e => [WriteIsize 1; WriteU64 e] end.

(** [hash_map] on entries whose values are already hashed. *)
Definition hash_map (m : list (Str * list Write)) : list Write :=
  let pairs := sort_by_key m in
  WriteUsize (length pairs) :: mjoin ((fun e => hash_str e.1 ++ e.2) <$> pairs).
Definition hashed (f : Value -> list Write) (m : Map) : list (Str * list Write) := (fun e => (e.1, f e.2)) <$> m.

Definition str_le (a b : Str) : Prop := memcmp a b <> Gt.
#[export] Instance str_le_dec : RelDecision str_le.
Proof. intros a b. unfold str_le. apply _. Defined.
(** [labels.sort()] *)
Definition sort_labels (l : list Str) : list Str := merge_sort str_le l.

Definition hash_node (f : Value -> list Write) (n : Node) : list Write :=
  WriteU64 (vid n) :: hash_vec hash_str (sort_labels (labels n)) ++ hash_map (hashed f (n_properties n)).
Definition hash_edge (f : Value -> list Write) (e : Edge) : list Write :=
  WriteU64 (eid e) :: hash_str (edge_type e) ++ [WriteU64 (src e); WriteU64 (dst e)] ++ hash_map (hashed f (e_properties e)).

Definition discriminant (v : Value) : Z :=
  match v with
  | VNull => 0 | VBool _ => 1 | VInt _ => 2 | VFloat _ => 3 | VString _ => 4 | VBytes _ => 5 | VList _ => 6 | VMap _ => 7 | VNode _ => 8
  | VEdge _ => 9 | VPath _ _ => 10 | VVector _ => 11 | VSparseVector _ _ => 12 | VBinaryVector _ => 13 | VTemporal _ => 14
  end.
Fixpoint hash (v : Value) : list Write :=
  match entity_ref v with
  | Some e => hash_entity e
  | None =>
      WriteIsize (discriminant v) ::
      match v with
      | VNull => []
      | VBool b => [WriteU8 (if b then 1 else 0)]
      | VInt i => [WriteI64 i]
      | VFloat f => hash_f64_normalized f
      | VString s => hash_str s
      | VBytes b => hash_bytes b
      | VList l => hash_vec hash l
      | VMap m => hash_map (hashed hash m)
      | VNode n => hash_node hash n
      | VEdge e => hash_edge hash e
      | VPath ns es => hash_vec (hash_node hash) ns ++ hash_vec (hash_edge hash) es
      | VVector v => hash_vec hash_f32_normalized v
      | VSparseVector i w => hash_u32s i ++ hash_vec hash_f32_normalized w
      | VBinaryVector b => hash_bytes b
      | VTemporal t => hash_temporal t
      end
  end.

(** ** Well-formed values: distinct keys, integers and patterns of 64 bits. *)

Definition wf_entries (f : Value -> bool) (m : Map) : bool := bool_decide (distinct m) && forallb (fun e => f e.2) m.
Fixpoint wf (v : Value) : bool :=
  match v with
  | VInt i => (- 2 ^ 63 <=? i) && (i <? 2 ^ 63)
  | VFloat f => (0 <=? f) && (f <? 2 ^ 64)
  | VList l => forallb wf l
  | VMap m => wf_entries wf m
  | VNode n => wf_entries wf (n_properties n)
  | VEdge e => wf_entries wf (e_properties e)
  | VPath ns es => forallb (fun n => wf_entries wf (n_properties n)) ns && forallb (fun e => wf_entries wf (e_properties e)) es
  | _ => true
  end.

(** ** The contract, piece by piece *)

(** Around [x], [f] behaves as an equivalence that [h] respects. *)
Record agrees {A H} (f : A -> A -> bool) (h : A -> H) (Q : A -> Prop) (x : A) : Prop := {
  ag_refl : f x x = true;
  ag_sym y : Q y -> f x y = true -> f y x = true;
  ag_trans y z : Q y -> Q z -> f x y = true -> f y z = true -> f x z = true;
  ag_hash y : Q y -> f x y = true -> h x = h y;
}.

(** An equality that is equality of what is hashed. *)
Lemma agrees_key {A H} (f : A -> A -> bool) (h : A -> H) (Q : A -> Prop) x :
  (forall y z, Q y -> Q z -> f y z = true <-> h y = h z) -> Q x -> agrees f h Q x.
Proof.
  intros E Hx. split.
  - by apply E.
  - intros y Hy Hf%E; [|done..]. by apply E.
  - intros y z Hy Hz H1%E H2%E; [|done..]. apply E; [done..|]. congruence.
  - intros y Hy Hf%E; done.
Qed.
Lemma agrees_post {A H K} (f : A -> A -> bool) (h : A -> H) (g : H -> K) Q x : agrees f h Q x -> agrees f (fun y => g (h y)) Q x.
Proof. intros [E1 E2 E3 E4]. split; [done|done|done|]. intros y Hy Hf. f_equal. by apply E4. Qed.
Lemma agrees_weaken {A H} (f : A -> A -> bool) (h : A -> H) (Q Q' : A -> Prop) x :
  (forall y, Q' y -> Q y) -> agrees f h Q x -> agrees f h Q' x.
Proof. intros HQ [E1 E2 E3 E4]. split; [done|intros; apply E2; auto|intros y z; intros; apply (E3 y z); auto|intros; apply E4; auto]. Qed.

Lemma agrees_list {A H} (f : A -> A -> bool) (h : A -> H) Q l :
  Forall (agrees f h Q) l -> agrees (all2 f) (fmap h) (Forall Q) l.
Proof.
  intros Hl. split.
  - apply all2_spec. induction Hl as [|x l Hx _ IH]; constructor; [apply Hx|done].
  - intros r Hr. rewrite !all2_spec. revert r Hr. induction Hl as [|x l Hx _ IH]; intros r Hr H1.
    { inversion H1; subst. constructor. }
    inversion H1; subst. apply Forall_cons in Hr as [? ?]. constructor; [by apply Hx|by apply IH].
  - intros r t Hr Ht. rewrite !all2_spec. revert r t Hr Ht. induction Hl as [|x l Hx _ IH]; intros r t Hr Ht H1 H2.
    { inversion H1; subst. inversion H2; subst. constructor. }
    inversion H1; subst. inversion H2; subst. apply Forall_cons in Hr as [? ?]. apply Forall_cons in Ht as [? ?].
    constructor; [eapply (ag_trans _ _ _ _ Hx)|eapply IH]; [| |eassumption|eassumption| | |eassumption|eassumption]; eassumption.
  - intros r Hr. rewrite all2_spec. revert r Hr. induction Hl as [|x l Hx _ IH]; intros r Hr; inversion 1; subst; [done|].
    apply Forall_cons in Hr as [? ?]. cbn. f_equal; [by apply Hx|by apply IH].
Qed.

Definition entries_ok (Q : Value -> Prop) (m : Map) : Prop := distinct m /\ Forall (fun e => Q e.2) m.
Lemma entries_get Q m k x : entries_ok Q m -> get k m = Some x -> Q x.
Proof. intros [_ H] Hx%get_elem. rewrite Forall_forall in H. apply (H _ Hx). Qed.
Lemma agrees_entries (f : Value -> Value -> bool) (h : Value -> list Write) Q (m : Map) : distinct m ->
  Forall (fun e => agrees f h Q e.2) m -> agrees (map_eq f) (fun m => sort_by_key (hashed h m)) (entries_ok Q) m.
Proof.
  intros Hd Hm. assert (Hget : forall k x, get k m = Some x -> agrees f h Q x).
  { intros k x Hx%get_elem. rewrite Forall_forall in Hm. apply (Hm _ Hx). }
  split.
  - apply map_eq_spec; [done..|]. intros k. destruct (get k m) as [x|] eqn:E; [|done]. exact (ag_refl _ _ _ _ (Hget k x E)).
  - intros r [Hr Hq]. rewrite !map_eq_spec by done. intros H k. specialize (H k).
    destruct (get k m) as [x|] eqn:E, (get k r) as [y|] eqn:E'; try done. apply (ag_sym _ _ _ _ (Hget k x E)); [|done]. by eapply entries_get.
  - intros r t [Hr Hq] [Ht Hq']. rewrite !map_eq_spec by done. intros H1 H2 k. specialize (H1 k). specialize (H2 k).
    destruct (get k m) as [x|] eqn:E, (get k r) as [y|] eqn:E', (get k t) as [z|] eqn:E''; try done.
    apply (ag_trans _ _ _ _ (Hget k x E) y z); [by apply (entries_get Q r k)|by apply (entries_get Q t k)|done|done].
  - intros r Hr. rewrite map_eq_spec by (done || apply Hr). intros H. unfold hashed. rewrite !sort_by_key_fmap by done.
    assert (F : Forall2 (fun a b => a.1 = b.1 /\ h a.2 = h b.2) (sort_by_key m) (sort_by_key r)).
    { apply (sort_same_entries (fun x y => h x = h y)); [done|apply Hr|]. intros k. specialize (H k).
      destruct (get k m) as [x|] eqn:E, (get k r) as [y|] eqn:E'; try done. apply (ag_hash _ _ _ _ (Hget k x E)); [|done]. by eapply entries_get. }
    induction F as [|[j x] [k y] l1 l2 [E1 E2] _ IH]; [done|]. cbn in *. by rewrite E1, E2, IH.
Qed.

Lemma agrees_node f h Q n : distinct (n_properties n) -> Forall (fun e => agrees f h Q e.2) (n_properties n) ->
  agrees (node_eq f) (hash_node h) (fun m => entries_ok Q (n_properties m)) n.
Proof.
  intros Hd Hm. destruct (agrees_entries f h Q _ Hd Hm) as [E1 E2 E3 E4]. unfold node_eq. split.
  - by rewrite !bool_decide_true, E1.
  - intros y Hy. rewrite !andb_true_iff, !bool_decide_eq_true. intros [[-> ->] ?]. split; [done|]. by apply E2.
  - intros y z Hy Hz. rewrite !andb_true_iff, !bool_decide_eq_true. intros [[-> ->] ?] [[-> ->] ?]. split; [done|]. by apply (E3 (n_properties y)).
  - intros y Hy. rewrite !andb_true_iff, !bool_decide_eq_true. intros [[Hv Hl] ?]. unfold hash_node, hash_map. cbv zeta. by rewrite Hv, Hl, (E4 (n_properties y)).
Qed.
Lemma agrees_edge f h Q e : distinct (e_properties e) -> Forall (fun e => agrees f h Q e.2) (e_properties e) ->
  agrees (edge_eq f) (hash_edge h) (fun m => entries_ok Q (e_properties m)) e.
Proof.
  intros Hd Hm. destruct (agrees_entries f h Q _ Hd Hm) as [E1 E2 E3 E4]. unfold edge_eq. split.
  - by rewrite !bool_decide_true, E1.
  - intros y Hy. rewrite !andb_true_iff, !bool_decide_eq_true. intros [[[[-> ->] ->] ->] ?]. split; [done|]. by apply E2.
  - intros y z Hy Hz. rewrite !andb_true_iff, !bool_decide_eq_true. intros [[[[-> ->] ->] ->] ?] [[[[-> ->] ->] ->] ?]. split; [done|].
    by apply (E3 (e_properties y)).
  - intros y Hy. rewrite !andb_true_iff, !bool_decide_eq_true. intros [[[[Ha Hb] Hc] Hd'] ?]. unfold hash_edge, hash_map. cbv zeta.
    by rewrite Ha, Hb, Hc, Hd', (E4 (e_properties y)).
Qed.

Lemma agrees_eq {A H} (f : A -> A -> bool) (g : A -> H) (Q : A -> Prop) x : (forall y z, f y z = true <-> y = z) -> agrees f g Q x.
Proof. intros E. split; [by apply E|intros y _ ->%E; by apply E|intros y z _ _ ->%E; done|by intros y _ ->%E]. Qed.
Lemma agrees_pair {A B H K} (f1 : A -> A -> bool) (f2 : B -> B -> bool) (h1 : A -> H) (h2 : B -> K) Q1 Q2 a b :
  agrees f1 h1 Q1 a -> agrees f2 h2 Q2 b ->
  agrees (fun p q => f1 p.1 q.1 && f2 p.2 q.2) (fun p => (h1 p.1, h2 p.2)) (fun p => Q1 p.1 /\ Q2 p.2) (a, b).
Proof.
  intros [E1 E2 E3 E4] [F1 F2 F3 F4]. split; cbn.
  - by rewrite E1, F1.
  - intros y [? ?]. rewrite !andb_true_iff. intros [? ?]. auto.
  - intros y z [? ?] [? ?]. rewrite !andb_true_iff. intros [? ?] [? ?]. eauto.
  - intros y [? ?]. rewrite !andb_true_iff. intros [? ?]. f_equal; auto.
Qed.

(** Floats are equal when what is hashed of them is. *)
Lemma float_eq_key y z : is_u64 y -> is_u64 z -> float_eq_normalized y z = true <-> hash_f64_normalized y = hash_f64_normalized z.
Proof.
  intros Hy Hz. unfold float_eq_normalized, hash_f64_normalized, is_zero64. rewrite !orb_true_iff, !andb_true_iff, bool_decide_eq_true, F64.total_cmp_eq by done.
  destruct (Z.eqb_spec (F64.abs y) 0) as [Ey|Ey], (Z.eqb_spec (F64.abs z) 0) as [Ez|Ez].
  - split; [done|]. intros _. left. by right.
  - assert (Ny : F64.is_nan y = false) by (unfold F64.is_nan; by rewrite Ey). rewrite Ny. split; [intros [[->|[_ [=]]]|[[=] _]]; done|].
    destruct (F64.is_nan z); intros [= E]. by rewrite <- E in Ez.
  - assert (Nz : F64.is_nan z = false) by (unfold F64.is_nan; by rewrite Ez). rewrite Nz. split; [intros [[->|[[=] _]]|[_ [=]]]; done|].
    destruct (F64.is_nan y); intros [= E]. by rewrite E in Ey.
  - destruct (F64.is_nan y) eqn:Ny, (F64.is_nan z) eqn:Nz.
    + split; [done|]. intros _. by right.
    + split; [intros [[->|[[=] _]]|[_ [=]]]; congruence|]. intros [= E]. by rewrite <- E in Nz.
    + split; [intros [[->|[[=] _]]|[[=] _]]; congruence|]. intros [= E]. by rewrite E in Ny.
    + split; [intros [[->|[[=] _]]|[[=] _]]; done|]. intros [= ->]. by left; left.
Qed.
Lemma zero32_no_nan y : F32.abs y = 0 -> F32.is_nan y = false.
Proof.
  unfold F32.abs, F32.is_nan, F32.exponent. intros H. assert (E : Z.land (Z.shiftr y 23) 255 = 0).
  { apply Z.bits_inj'. intros k Hk. rewrite Z.land_spec, Z.shiftr_spec, Z.bits_0 by done.
    assert (Hb : Z.testbit (Z.land y (2 ^ 31 - 1)) (k + 23) = false) by (by rewrite H, Z.bits_0).
    rewrite Z.land_spec in Hb. change (2 ^ 31 - 1) with (Z.ones 31) in Hb. change 255 with (Z.ones 8).
    rewrite Z.testbit_ones in Hb |- * by lia. destruct (Z.ltb_spec k 8); [|by rewrite !andb_false_r].
    destruct (Z.ltb_spec (k + 23) 31); [|lia]. destruct (Z.leb_spec 0 (k + 23)); [|lia]. rewrite andb_true_r in Hb. by rewrite Hb. }
  by rewrite E.
Qed.
Lemma float_eq_key32 y z : float_eq_normalized_f32 y z = true <-> hash_f32_normalized y = hash_f32_normalized z.
Proof.
  unfold float_eq_normalized_f32, hash_f32_normalized, is_zero32. rewrite !orb_true_iff, !andb_true_iff, bool_decide_eq_true.
  destruct (Z.eqb_spec (F32.abs y) 0) as [Ey|Ey], (Z.eqb_spec (F32.abs z) 0) as [Ez|Ez].
  - split; [done|]. intros _. left. by right.
  - rewrite (zero32_no_nan y Ey). split; [intros [[->|[_ [=]]]|[[=] _]]; done|].
    destruct (F32.is_nan z); intros [= E]. by rewrite <- E in Ez.
  - rewrite (zero32_no_nan z Ez). split; [intros [[->|[[=] _]]|[_ [=]]]; done|].
    destruct (F32.is_nan y); intros [= E]. by rewrite E in Ey.
  - destruct (F32.is_nan y) eqn:Ny, (F32.is_nan z) eqn:Nz.
    + split; [done|]. intros _. by right.
    + split; [intros [[->|[[=] _]]|[_ [=]]]; congruence|]. intros [= E]. by rewrite <- E in Nz.
    + split; [intros [[->|[[=] _]]|[[=] _]]; congruence|]. intros [= E]. by rewrite E in Ny.
    + split; [intros [[->|[[=] _]]|[[=] _]]; done|]. intros [= ->]. by left; left.
Qed.
Lemma agrees_f32s v : agrees slice_eq_normalized_f32 (fmap hash_f32_normalized) (Forall (fun _ => True)) v.
Proof. apply agrees_list, Forall_forall. intros x _. apply agrees_key; [intros; apply float_eq_key32|done]. Qed.

(** A variant compares with itself only. *)
Lemma agrees_variant {A} (C : A -> Value) (proj : Value -> option A) f (h : A -> list Write) (Q : A -> Prop) x :
  (forall y v, proj v = Some y <-> v = C y) ->
  (forall y b, entity_ref (C y) = None -> value_eq (C y) b = match entity_ref b, proj b with None, Some z => f y z | _, _ => false end) ->
  (forall y, entity_ref (C y) = None -> hash (C y) = h y) -> (forall y, wf (C y) = true -> Q y) ->
  entity_ref (C x) = None -> agrees f h Q x -> agrees value_eq hash (fun v => wf v = true) (C x).
Proof.
  intros Hp He Hh HQ Hx [E1 E2 E3 E4]. assert (Hpp : forall y, proj (C y) = Some y) by (intros y; by apply Hp).
  assert (Hcase : forall b, value_eq (C x) b = true -> exists y, b = C y /\ entity_ref (C y) = None /\ f x y = true).
  { intros b. rewrite He by done. destruct (entity_ref b) eqn:Eb; [done|]. destruct (proj b) as [y|] eqn:Ep; [|done].
    apply Hp in Ep as ->. by exists y. }
  split.
  - rewrite He, Hx, Hpp by done. done.
  - intros b Hb (y & -> & Hy & Hf)%Hcase. rewrite He, Hx, Hpp by done. apply E2; [by apply HQ|done].
  - intros b c Hb Hc (y & -> & Hy & Hf)%Hcase. rewrite !He by done. destruct (entity_ref c) eqn:Ec; [done|].
    destruct (proj c) as [z|] eqn:Ep; [|done]. apply Hp in Ep as ->. apply (E3 y z); [by apply HQ|by apply HQ|done].
  - intros b Hb (y & -> & Hy & Hf)%Hcase. rewrite !Hh by done. apply E4; [by apply HQ|done].
Qed.
Lemma agrees_entity v e : entity_ref v = Some e -> agrees value_eq hash (fun v => wf v = true) v.
Proof.
  intros Ev. assert (He : forall a b x, entity_ref a = Some x -> value_eq a b = match entity_ref b with Some y => bool_decide (x = y) | None => false end).
  { intros a b x Ha. destruct a; cbn [value_eq]; rewrite Ha; by destruct (entity_ref b). }
  assert (Hh : forall a x, entity_ref a = Some x -> hash a = hash_entity x) by (intros a x Ha; destruct a; cbn [hash]; by rewrite Ha).
  assert (Hcase : forall b, value_eq v b = true -> entity_ref b = Some e).
  { intros b. rewrite (He v b e Ev). destruct (entity_ref b) as [y|]; [|done]. by intros ->%bool_decide_eq_true. }
  split.
  - rewrite (He v v e Ev), Ev. by apply bool_decide_eq_true.
  - intros b _ Hb%Hcase. rewrite (He b v e Hb), Ev. by apply bool_decide_eq_true.
  - intros b c _ _ Hb%Hcase. rewrite (He b c e Hb), (He v c e Ev). done.
  - intros b _ Hb%Hcase. by rewrite (Hh v e Ev), (Hh b e Hb).
Qed.

Lemma wf_entries_ok m : wf_entries wf m = true <-> entries_ok (fun v => wf v = true) m.
Proof. unfold wf_entries, entries_ok. rewrite andb_true_iff, bool_decide_eq_true, forallb_forall, Forall_forall. by setoid_rewrite list_elem_of_In. Qed.
Lemma forallb_Forall {A} (f : A -> bool) l : forallb f l = true <-> Forall (fun x => f x = true) l.
Proof. rewrite forallb_forall, Forall_forall. by setoid_rewrite list_elem_of_In. Qed.
(** Inside entries that are well formed. *)
Lemma agrees_inside m : Forall (fun e => wf e.2 = true -> agrees value_eq hash (fun v => wf v = true) e.2) m -> wf_entries wf m = true ->
  distinct m /\ Forall (fun e => agrees value_eq hash (fun v => wf v = true) e.2) m.
Proof.
  intros H [Hd Hw]%wf_entries_ok. split; [done|]. rewrite Forall_forall in *. intros e He. apply H; [done|]. by apply Hw.
Qed.

(** One case per variant: its projection, and what is compared and hashed. *)
Ltac variant C P F H Q X :=
  apply (agrees_variant C P F H Q X);
  [ by intros ? []; split; cbn; intros; simplify_eq
  | intros ? [] _; cbn; by try destruct (entity_ref_from_map _)
  | done | .. | done | ].

Lemma value_agrees v : wf v = true -> agrees value_eq hash (fun v => wf v = true) v.
Proof.
  induction v as [|b|i|f|s|b|l IH|m IH|n IH|e IH|ns es IHn IHe|v|i w|b|t] using value_ind'; intros Hw.
  - apply (agrees_variant (fun _ : unit => VNull) (fun v => match v with VNull => Some tt | _ => None end) (fun _ _ => true)
      (fun _ => [WriteIsize 0]) (fun _ => True) tt); [by intros [] []|intros ? [] _; cbn; by try destruct (entity_ref_from_map _)|done..|].
    by apply agrees_eq; intros [] [].
  - variant VBool (fun v => match v with VBool b => Some b | _ => None end) eqb (fun b : bool => [WriteIsize 1; WriteU8 (if b then 1 else 0)])
      (fun _ : bool => True) b; [done|]. by apply agrees_eq; intros [] [].
  - variant VInt (fun v => match v with VInt i => Some i | _ => None end) Z.eqb (fun i : Z => [WriteIsize 2; WriteI64 i]) (fun _ : Z => True) i;
      [done|]. apply agrees_eq. intros y z. apply Z.eqb_eq.
  - variant VFloat (fun v => match v with VFloat f => Some f | _ => None end) float_eq_normalized
      (fun f => WriteIsize 3 :: hash_f64_normalized f) is_u64 f; [cbn; unfold is_u64; lia|].
    apply (agrees_post _ hash_f64_normalized), agrees_key; [apply float_eq_key|]. cbn in Hw. unfold is_u64. lia.
  - variant VString (fun v => match v with VString s => Some s | _ => None end) (fun x y : Str => bool_decide (x = y))
      (fun s => WriteIsize 4 :: hash_str s) (fun _ : Str => True) s; [done|]. apply agrees_eq. intros. apply bool_decide_eq_true.
  - variant VBytes (fun v => match v with VBytes s => Some s | _ => None end) (fun x y : list Z => bool_decide (x = y))
      (fun s => WriteIsize 5 :: hash_bytes s) (fun _ : list Z => True) b; [done|]. apply agrees_eq. intros. apply bool_decide_eq_true.
  - apply (agrees_variant VList (fun v => match v with VList l => Some l | _ => None end) (all2 value_eq)
      (fun l => (fun hs => WriteIsize 6 :: WriteUsize (length hs) :: mjoin hs) (hash <$> l)) (Forall (fun v => wf v = true)));
      [by intros ? []; split; cbn; intros; simplify_eq|intros ? [] _; cbn; by try destruct (entity_ref_from_map _)| | |done|].
    + intros y _. cbn. unfold hash_vec. by rewrite length_fmap.
    + intros y. cbn. apply forallb_Forall.
    + apply (agrees_post (all2 value_eq) (fmap hash) (fun hs => WriteIsize 6 :: WriteUsize (length hs) :: mjoin hs)), agrees_list.
      cbn in Hw. apply forallb_Forall in Hw. rewrite Forall_forall in *. auto.
  - destruct (entity_ref (VMap m)) as [e|] eqn:Em; [by eapply agrees_entity|]. destruct (agrees_inside m IH Hw) as [Hd Hm].
    apply (agrees_variant VMap (fun v => match v with VMap l => Some l | _ => None end) (map_eq value_eq)
      (fun m => (fun s => WriteIsize 7 :: WriteUsize (length s) :: mjoin ((fun e => hash_str e.1 ++ e.2) <$> s)) (sort_by_key (hashed hash m)))
      (entries_ok (fun v => wf v = true)));
      [by intros ? []; split; cbn; intros; simplify_eq| |intros y Hy; cbn in *; by rewrite Hy|intros y; cbn; apply wf_entries_ok|done|].
    + intros y b Hy. cbn in *. rewrite Hy. by destruct b; cbn; try destruct (entity_ref_from_map _).
    + apply (agrees_post (map_eq value_eq) (fun m => sort_by_key (hashed hash m))
        (fun s => WriteIsize 7 :: WriteUsize (length s) :: mjoin ((fun e => hash_str e.1 ++ e.2) <$> s))). by apply agrees_entries.
  - by eapply agrees_entity.
  - by eapply agrees_entity.
  - apply (agrees_variant (fun p => VPath p.1 p.2) (fun v => match v with VPath ns es => Some (ns, es) | _ => None end)
      (fun p q => all2 (node_eq value_eq) p.1 q.1 && all2 (edge_eq value_eq) p.2 q.2)
      (fun p => (fun hs => WriteIsize 10 :: (WriteUsize (length hs.1) :: mjoin hs.1) ++ (WriteUsize (length hs.2) :: mjoin hs.2))
         (hash_node hash <$> p.1, hash_edge hash <$> p.2))
      (fun p => Forall (fun n => entries_ok (fun v => wf v = true) (n_properties n)) p.1
         /\ Forall (fun e => entries_ok (fun v => wf v = true) (e_properties e)) p.2) (ns, es));
      [by intros [] []; split; cbn; intros; simplify_eq|by intros [] [] _; cbn; try destruct (entity_ref_from_map _)| | |done|].
    + intros [ns' es'] _. cbn. unfold hash_vec. by rewrite !length_fmap.
    + intros [ns' es']. cbn. rewrite andb_true_iff, !forallb_Forall. by setoid_rewrite wf_entries_ok.
    + cbn in Hw. apply andb_true_iff in Hw as [Wn We]. apply forallb_Forall in Wn, We.
      apply (agrees_post _ (fun p => (hash_node hash <$> p.1, hash_edge hash <$> p.2))
        (fun hs => WriteIsize 10 :: (WriteUsize (length hs.1) :: mjoin hs.1) ++ (WriteUsize (length hs.2) :: mjoin hs.2))).
      apply agrees_pair; apply agrees_list; rewrite Forall_forall in *.
      * intros n Hn. destruct (agrees_inside _ (IHn n Hn) (Wn n Hn)). by apply agrees_node.
      * intros e He. destruct (agrees_inside _ (IHe e He) (We e He)). by apply agrees_edge.
  - apply (agrees_variant VVector (fun v => match v with VVector l => Some l | _ => None end) slice_eq_normalized_f32
      (fun l => (fun hs => WriteIsize 11 :: WriteUsize (length hs) :: mjoin hs) (hash_f32_normalized <$> l)) (Forall (fun _ => True)));
      [by intros ? []; split; cbn; intros; simplify_eq|intros ? [] _; cbn; by try destruct (entity_ref_from_map _)| | |done|].
    + intros y _. cbn. unfold hash_vec. by rewrite length_fmap.
    + intros y _. by apply Forall_true.
    + apply (agrees_post slice_eq_normalized_f32 (fmap hash_f32_normalized) (fun hs => WriteIsize 11 :: WriteUsize (length hs) :: mjoin hs)), agrees_f32s.
  - apply (agrees_variant (fun p => VSparseVector p.1 p.2) (fun v => match v with VSparseVector i w => Some (i, w) | _ => None end)
      (fun p q : list Z * list Z => bool_decide (p.1 = q.1) && slice_eq_normalized_f32 p.2 q.2)
      (fun p => (fun hs => WriteIsize 12 :: hash_u32s hs.1 ++ WriteUsize (length hs.2) :: mjoin hs.2) (p.1, hash_f32_normalized <$> p.2))
      (fun p => True /\ Forall (fun _ => True) p.2) (i, w));
      [by intros [] []; split; cbn; intros; simplify_eq|by intros [] [] _; cbn; try destruct (entity_ref_from_map _)| | |done|].
    + intros [i' w'] _. cbn. unfold hash_vec. by rewrite length_fmap.
    + intros y _. split; [done|by apply Forall_true].
    + apply (agrees_post _ (fun p : list Z * list Z => (p.1, hash_f32_normalized <$> p.2)) (fun hs => WriteIsize 12 :: hash_u32s hs.1 ++ WriteUsize (length hs.2) :: mjoin hs.2)).
      pose proof (agrees_eq (fun x y : list Z => bool_decide (x = y)) (fun x => x) (fun _ => True) i) as Hi.
      exact (agrees_pair _ _ _ _ _ _ i w (Hi ltac:(intros; apply bool_decide_eq_true)) (agrees_f32s w)).
  - variant VBinaryVector (fun v => match v with VBinaryVector s => Some s | _ => None end) (fun x y : list Z => bool_decide (x = y))
      (fun s => WriteIsize 13 :: hash_bytes s) (fun _ : list Z => True) b; [done|]. apply agrees_eq. intros. apply bool_decide_eq_true.
  - variant VTemporal (fun v => match v with VTemporal s => Some s | _ => None end) (fun x y : TemporalValue => bool_decide (x = y))
      (fun s => WriteIsize 14 :: hash_temporal s) (fun _ : TemporalValue => True) t; [done|]. apply agrees_eq. intros. apply bool_decide_eq_true.
Qed.

(** C22: equality and hash of values keep the contract of hash collections.  On
    values with distinct keys in every map, equality is reflexive, symmetric
    and transitive, through lists, maps, paths and both encodings of an
    entity, and equal values feed the same words to the hasher. *)
Theorem value_hash_eq_contract (a b c : Value) : wf a = true -> wf b = true -> wf c = true ->
  value_eq a a = true /\ value_eq a b = value_eq b a
  /\ (value_eq a b = true -> value_eq b c = true -> value_eq a c = true) /\ (value_eq a b = true -> hash a = hash b).
Proof.
  intros Ha Hb Hc. destruct (value_agrees a Ha) as [E1 E2 E3 E4]. pose proof (ag_sym _ _ _ _ (value_agrees b Hb) a Ha) as Hs.
  split_and!; [done| |by apply E3|by apply E4]. specialize (E2 b Hb).
  destruct (value_eq a b); [by rewrite E2|]. destruct (value_eq b a); [by apply Hs|done].
Qed.

Module ValueEqExamples.
Local Open Scope string_scope.
(** A vertex as a node and as the map of a row, a map with the zeros exchanged. *)
Definition node7 : Value := VNode (mkNode 7 [str "A"] [(str "x", VInt 1)]).
Definition map7 : Value := VMap [(str "_labels", VList [VString (str "A")]); (str "_vid", VInt 7)].
Definition nested (z : Z) (v : Value) : Value := VMap [(str "k", VFloat z); (str "v", VList [v])].
Definition swapped (z : Z) (v : Value) : Value := VMap [(str "v", VList [v]); (str "k", VFloat z)].

Lemma value_hash_eq_contract_witness :
  value_eq (nested 0 node7) (swapped F64.SIGN map7) = true /\ hash (nested 0 node7) = hash (swapped F64.SIGN map7)
  /\ value_eq node7 (VNode (mkNode 8 [str "A"] [(str "x", VInt 1)])) = false.
Proof.
  split; [vm_compute; reflexivity|]. split; [|vm_compute; reflexivity].
  apply (value_hash_eq_contract (nested 0 node7) (swapped F64.SIGN map7) VNull); vm_compute; reflexivity.
Defined.
End ValueEqExamples.
