(* ===== verification/JoinKey.v ===== *)
(** * Cypher equality and hash-join keys

    [cypher_eq] and [eval_in_op] (uni-query-functions/src/expr_eval.rs):
    three-valued equality with numbers compared exactly across integers and
    floats.  [encode_cypher_join_key] (df_udfs/join_key.rs): the bucket key of
    a hash join, which must not separate values that are equal. *)

From stdpp Require Import strings pretty.
From S2P Require Import Prelude Float64 Entries CypherValue ValueEq.

(** ** Equality *)

Section items.
  Context (f : Value -> Value -> option bool).
(** [for (lv, rv) in l.iter().zip(r.iter())] *)
Fixpoint eq_items (has_null : bool) (l r : list Value) : option bool :=
  match l, r with
  | x :: l, y :: r =>
      match f x y with
      | Some false => Some false
      | None => eq_items true l r
      | Some true => eq_items has_null l r
      end
  | _, _ => if has_null then None else Some true
  end.
(** [for (k, lv) in l] *)
Fixpoint eq_entries (has_null : bool) (l : Map) (r : Map) : option bool :=
  match l with
  | [] => if has_null then None else Some true
  | (k, x) :: l =>
      match get k r with
      | Some y =>
          match f x y with
          | Some false => Some false
          | None => eq_entries true l r
          | Some true => eq_entries has_null l r
          end
      | None => Some false
      end
  end.
End items.

Fixpoint cypher_eq (left right : Value) : option bool :=
  if is_null left || is_null right then None
  else
    match cypher_numeric_cmp left right with
    | Some ord => Some (bool_decide (ord = Some Eq))
    | None =>
        match entity_ref left, entity_ref right with
        | Some l, Some r => Some (bool_decide (l = r))
        | Some _, None | None, Some _ => Some false
        | None, None =>
            match left, right with
            | VList l, VList r => if negb (Nat.eqb (length l) (length r)) then Some false else eq_items cypher_eq false l r
            | VMap l, VMap r => if negb (Nat.eqb (length l) (length r)) then Some false else eq_entries cypher_eq false l r
            | _, _ => Some (value_eq left right)
            end
        end
    end.

(** [x IN list] *)
Fixpoint in_items (left : Value) (has_null : bool) (items : list Value) : option bool * bool :=
  match items with
  | [] => (None, has_null)
  | x :: items =>
      match cypher_eq left x with
      | Some true => (Some true, has_null)
      | None => in_items left true items
      | Some false => in_items left has_null items
      end
  end.
(** [id.to_string()] *)
Definition id_to_string (id : Z) : Str := str (pretty (Z.to_N id)).
Definition matches_id (id : Z) (id_str : Str) (item : Value) : bool :=
  match item with
  | VString s => bool_decide (s = id_str)
  | VInt n => (0 <=? n) && (n =? id)
  | _ => false
  end.
Definition eval_in_op (left right : Value) : result unit Value :=
  match right with
  | VList arr =>
      match in_items left false arr with
      | (Some b, _) => Ok (VBool b)
      | (None, has_null) =>
          let by_id :=
            match entity_ref left with
            | Some (Vertex v) => existsb (matches_id v (id_to_string v)) arr
            | Some (EdgeRef e) => existsb (matches_id e (id_to_string e)) arr
            | None => false
            end in
          Ok (if by_id then VBool true else if has_null then VNull else VBool false)
      end
  | _ => Err tt
  end.

(** ** Keys *)

Definition EXACT_INT_LIMIT : Z := 2 ^ 53.
Definition be_i64 (i : Z) : list Z := to_be_bytes 8 (as_u64 i).
Definition be_i128 (i : Z) : list Z := to_be_bytes 16 (i mod 2 ^ 128).

Definition push_int (i : Z) : list Z :=
  let f := F64.of_int i in
  if F64.abs_lt f EXACT_INT_LIMIT then 2 :: be_i64 i else 3 :: to_be_bytes 8 f.
Definition push_float (f : Z) : list Z :=
  if F64.is_nan f then 3 :: to_be_bytes 8 (2047 * 2 ^ 52 + 2 ^ 51)
  else if F64.is_integral f && F64.abs_lt f EXACT_INT_LIMIT then 2 :: be_i64 (F64.floor f)
  else 3 :: to_be_bytes 8 f.
Definition push_len (n : nat) : list Z := to_be_bytes 8 (Z.of_nat n mod 2 ^ 64).
Definition push_temporal (t : TemporalValue) : list Z :=
  let instant nanos := 9 :: be_i128 nanos in
  match t with
  | Date d => instant (d * (86400 * 1000000000))
  | LocalTime n => instant n
  | Time n o => instant (n - o * 1000000000)
  | LocalDateTime n | DateTime n _ _ => instant n
  | Duration m d n => 10 :: be_i64 m ++ be_i64 d ++ be_i64 n
  | BticValue lo hi meta => 11 :: be_i64 lo ++ be_i64 hi ++ to_be_bytes 8 meta
  end.

(** The entries, their values encoded, in the order of the keys. *)
Definition push_entries (m : list (Str * list Z)) : list Z :=
  mjoin ((fun e => push_len (length e.1) ++ e.1 ++ e.2) <$> sort_by_key m).

Fixpoint encode_to_buf (v : Value) : list Z :=
  match entity_ref v with
  | Some (Vertex n) => 5 :: to_be_bytes 8 n
  | Some (EdgeRef e) => 6 :: to_be_bytes 8 e
  | None =>
      match v with
      | VNull => [0]
      | VBool b => [1; if b then 1 else 0]
      | VInt i => push_int i
      | VFloat f => push_float f
      | VString s => 4 :: push_len (length s) ++ s
      | VBytes b => 12 :: push_len (length b) ++ b
      | VList l => 7 :: push_len (length l) ++ mjoin (encode_to_buf <$> l)
      | VMap m => 8 :: push_len (length m) ++ push_entries ((fun e => (e.1, encode_to_buf e.2)) <$> m)
      | VTemporal t => push_temporal t
      | _ => 13 :: str (type_name v)
      end
  end.
Definition encode_cypher_join_key (v : Value) : option (list Z) := if is_null v then None else Some (encode_to_buf v).

(** ** Numbers *)

Lemma value_infinite f : F64.is_infinite f = true -> F64.value f = (if F64.is_negative f then - 2 ^ 2098 else 2 ^ 2098).
Proof. unfold F64.is_infinite, F64.value. intros ->%Z.eqb_eq. by destruct (F64.is_negative f). Qed.
Lemma cmp_i64_f64_exact i f : is_i64 i -> is_u64 f -> F64.is_nan f = false -> cmp_i64_f64 i f = (i * F64.UNIT ?= F64.value f).
Proof.
  intros Hi Hf Hn. unfold is_i64 in Hi. assert (HU : 0 < F64.UNIT) by done. unfold cmp_i64_f64.
  destruct (F64.is_infinite f) eqn:Einf.
  { rewrite (value_infinite f Einf). assert (2 ^ 63 * F64.UNIT < 2 ^ 2098) by done. destruct (F64.is_negative f); symmetry;
      [apply Z.compare_gt_iff|apply Z.compare_lt_iff]; nia. }
  unfold F64.floor. pose proof (Z.div_mod (F64.value f) F64.UNIT ltac:(lia)) as Ed. pose proof (Z.mod_pos_bound (F64.value f) F64.UNIT HU) as Hm.
  set (q := F64.value f / F64.UNIT) in *. set (r := F64.value f mod F64.UNIT) in *.
  destruct (Z.leb_spec (2 ^ 63) q); [symmetry; apply Z.compare_lt_iff; nia|].
  destruct (Z.ltb_spec q (- 2 ^ 63)); [symmetry; apply Z.compare_gt_iff; nia|].
  destruct (Z.compare_spec i q) as [->|L|G].
  - destruct (Z.ltb_spec (q * F64.UNIT) (F64.value f)); symmetry; [apply Z.compare_lt_iff|apply Z.compare_eq_iff]; nia.
  - symmetry. apply Z.compare_lt_iff. nia.
  - symmetry. apply Z.compare_gt_iff. nia.
Qed.

(** Equal values have one pattern, apart from the zeros. *)
Lemma value_inj x y : is_u64 x -> is_u64 y -> F64.value x = F64.value y -> x = y \/ F64.value x = 0.
Proof.
  intros Hx Hy E. assert (H0 : F64.value F64.SIGN = 0) by done.
  destruct (Z.eq_dec x F64.SIGN) as [->|Nx]; [by right|]. destruct (Z.eq_dec y F64.SIGN) as [->|Ny]; [right; congruence|].
  left. apply F64.order_bits_inj; [done|done|]. apply Z.compare_eq_iff. rewrite F64.order_bits_compare by done. by apply Z.compare_eq_iff.
Qed.
Lemma value_abs b : is_u64 b -> Z.abs (F64.value b) = F64.magnitude (F64.abs b).
Proof.
  intros Hb. pose proof (F64.magnitude_nonneg (F64.abs b) ltac:(by apply F64.abs_range)).
  destruct (F64.value_signs b Hb) as [[_ ->]|[_ ->]]; lia.
Qed.

(** A float that is an integer is keyed by that integer, or by the pattern the
    integer rounds to. *)
Lemma push_float_int i f : is_i64 i -> is_u64 f -> F64.is_nan f = false -> F64.value f = i * F64.UNIT -> push_float f = push_int i.
Proof.
  intros Hi Hf Hn Ev. assert (HU : 0 < F64.UNIT) by done. unfold is_i64 in Hi.
  destruct (F64.of_int_spec i Hi) as (Ho & _ & No & Vo).
  assert (Er : F64.round i = i).
  { pose proof (F64.round_below i f Hf ltac:(lia)). pose proof (F64.round_above i f Hf ltac:(lia)). nia. }
  rewrite Er in Vo. unfold push_float, push_int, F64.abs_lt. rewrite Hn, No. cbn [negb andb].
  rewrite <- !value_abs, Ev, Vo by done. assert (Hinf : F64.is_infinite f = false).
  { destruct (F64.is_infinite f) eqn:E; [|done]. exfalso. rewrite (value_infinite f E) in Ev.
    assert (2 ^ 63 * F64.UNIT < 2 ^ 2098) by done. destruct (F64.is_negative f); nia. }
  assert (Hint : F64.is_integral f = true).
  { unfold F64.is_integral. rewrite Hn, Hinf, Ev, Z.mod_mul by lia. done. }
  rewrite Hint. cbn [andb]. unfold F64.floor. rewrite Ev, Z.div_mul by lia.
  destruct (Z.ltb_spec (Z.abs (i * F64.UNIT)) (EXACT_INT_LIMIT * F64.UNIT)) as [|Hge]; [done|].
  do 2 f_equal. destruct (value_inj f (F64.of_int i) Hf Ho) as [->|E0]; [congruence|done|]. unfold EXACT_INT_LIMIT in Hge. nia.
Qed.
Lemma push_float_eq x y : is_u64 x -> is_u64 y -> F64.partial_cmp x y = Some Eq -> push_float x = push_float y.
Proof.
  intros Hx Hy. unfold F64.partial_cmp. destruct (F64.is_nan x) eqn:Nx; [done|]. destruct (F64.is_nan y) eqn:Ny; [done|]. cbn.
  intros [= E%Z.compare_eq_iff]. destruct (value_inj x y Hx Hy E) as [->|E0]; [done|].
  rewrite (push_float_int 0 x), (push_float_int 0 y); [done|by split|done|done|lia|by split|done|done|lia].
Qed.

(** ** Equal values share a key *)

Lemma eq_items_true f n l r : length l = length r -> eq_items f n l r = Some true -> Forall2 (fun x y => f x y = Some true) l r.
Proof.
  revert n r. induction l as [|x l IH]; intros n [|y r] Hl; try done; cbn.
  destruct (f x y) as [[|]|] eqn:E; [|done|]; intros H.
  - constructor; [done|]. by eapply IH; [injection Hl|].
  - exfalso. clear -H. revert r H. induction l as [|z l IH]; intros [|w r]; cbn; try done. destruct (f z w) as [[|]|]; [apply IH|done|apply IH].
Qed.
Lemma eq_entries_null f l r : eq_entries f true l r <> Some true.
Proof. induction l as [|[k x] l IH]; cbn; [done|]. destruct (get k r) as [y|]; [|done]. destruct (f x y) as [[|]|]; done. Qed.
Lemma eq_entries_true f l r : eq_entries f false l r = Some true ->
  forall k x, (k, x) ∈ l -> exists y, get k r = Some y /\ f x y = Some true.
Proof.
  induction l as [|[j z] l IH]; cbn; [by intros _ k x ?%not_elem_of_nil|]. destruct (get j r) as [y|] eqn:E; [|done].
  destruct (f z y) as [[|]|] eqn:Ef; [|done|by intros ?%eq_entries_null]. intros H k x [[= -> ->]|Hin]%elem_of_cons; [by exists y|]. by apply IH.
Qed.

Lemma encode_entity v e : entity_ref v = Some e -> encode_to_buf v = match e with Vertex n => 5 :: to_be_bytes 8 n | EdgeRef n => 6 :: to_be_bytes 8 n end.
Proof. intros E. destruct v; cbn [encode_to_buf]; by rewrite E. Qed.
Lemma numeric_no_entity a b o : cypher_numeric_cmp a b = Some o -> entity_ref a = None /\ entity_ref b = None.
Proof. by destruct a, b. Qed.
(** Where neither side is null or an entity and they are not both numbers. *)
Lemma cypher_eq_cases a b : cypher_eq a b = Some true ->
  (exists o, cypher_numeric_cmp a b = Some o /\ o = Some Eq)
  \/ (exists e, entity_ref a = Some e /\ entity_ref b = Some e)
  \/ (entity_ref a = None /\ entity_ref b = None /\
      match a, b with
      | VList l, VList r => length l = length r /\ eq_items cypher_eq false l r = Some true
      | VMap l, VMap r => length l = length r /\ eq_entries cypher_eq false l r = Some true
      | _, _ => value_eq a b = true
      end).
Proof.
  intros H. assert (E : (if is_null a || is_null b then None else
    match cypher_numeric_cmp a b with
    | Some ord => Some (bool_decide (ord = Some Eq))
    | None =>
        match entity_ref a, entity_ref b with
        | Some l, Some r => Some (bool_decide (l = r))
        | Some _, None | None, Some _ => Some false
        | None, None =>
            match a, b with
            | VList l, VList r => if negb (Nat.eqb (length l) (length r)) then Some false else eq_items cypher_eq false l r
            | VMap l, VMap r => if negb (Nat.eqb (length l) (length r)) then Some false else eq_entries cypher_eq false l r
            | _, _ => Some (value_eq a b)
            end
        end
    end) = Some true) by (rewrite <- H; by destruct a). clear H.
  destruct (is_null a || is_null b); [done|]. destruct (cypher_numeric_cmp a b) as [o|].
  { injection E as E%bool_decide_eq_true. left. by exists o. }
  right. destruct (entity_ref a) as [x|], (entity_ref b) as [y|]; try done.
  { injection E as ->%bool_decide_eq_true. left. by exists y. }
  right. split; [done|]. split; [done|].
  assert (Hi : forall x y : bool, Some x = Some y -> x = y) by congruence.
  destruct a, b; try exact (Hi _ _ E); match type of E with context [Nat.eqb ?n ?m] => destruct (Nat.eqb_spec n m) end; done.
Qed.

Lemma entries_share l r : distinct l -> distinct r -> length l = length r -> eq_entries cypher_eq false l r = Some true ->
  (forall k x y, get k l = Some x -> get k r = Some y -> cypher_eq x y = Some true -> encode_to_buf x = encode_to_buf y) ->
  push_entries ((fun e => (e.1, encode_to_buf e.2)) <$> l) = push_entries ((fun e => (e.1, encode_to_buf e.2)) <$> r).
Proof.
  intros Dl Dr Hlen He Hk. unfold push_entries. rewrite !sort_by_key_fmap by done.
  pose proof (eq_entries_true _ _ _ He) as Hex.
  assert (M : map_eq (fun x y => bool_decide (cypher_eq x y = Some true)) l r = true).
  { unfold map_eq. rewrite andb_true_iff, Nat.eqb_eq, forallb_forall. split; [done|]. intros [k x] Hin%list_elem_of_In.
    destruct (Hex k x Hin) as (y & Hy & E). cbn. rewrite Hy. by apply bool_decide_eq_true. }
  apply map_eq_spec in M; [|done..].
  assert (F : Forall2 (fun a b => a.1 = b.1 /\ encode_to_buf a.2 = encode_to_buf b.2) (sort_by_key l) (sort_by_key r)).
  { apply (sort_same_entries (fun x y => encode_to_buf x = encode_to_buf y)); [done..|]. intros k. specialize (M k).
    destruct (get k l) as [x|] eqn:E1, (get k r) as [y|] eqn:E2; try done. eapply Hk; [done|done|]. by apply bool_decide_eq_true in M. }
  f_equal. induction F as [|[j x] [k y] l1 l2 [E1 E2] _ IH]; [done|]. cbn in *. by rewrite E1, E2, IH.
Qed.

Lemma numbers_share a b : wf a = true -> wf b = true -> cypher_numeric_cmp a b = Some (Some Eq) -> encode_to_buf a = encode_to_buf b.
Proof.
  intros Ha Hb. destruct a as [| |i|f| | | | | | | | | | |], b as [| |j|g| | | | | | | | | | |]; try done; cbn in *; intros [= H].
  - by apply Z.compare_eq_iff in H as ->.
  - destruct (F64.is_nan g) eqn:Ng; [done|]. injection H as H. rewrite cmp_i64_f64_exact in H by (done || (unfold is_i64, is_u64; lia)).
    apply Z.compare_eq_iff in H. symmetry. apply push_float_int; [unfold is_i64; lia|unfold is_u64; lia|done|done].
  - destruct (F64.is_nan f) eqn:Nf; [done|]. injection H as H. rewrite cmp_i64_f64_exact in H by (done || (unfold is_i64, is_u64; lia)).
    apply push_float_int; [unfold is_i64; lia|unfold is_u64; lia|done|]. destruct (Z.compare_spec (j * F64.UNIT) (F64.value f)); done.
  - apply push_float_eq; [unfold is_u64; lia|unfold is_u64; lia|done].
Qed.

Lemma equal_share a : wf a = true -> forall b, wf b = true -> cypher_eq a b = Some true -> encode_to_buf a = encode_to_buf b.
Proof.
  induction a as [|x|i|f|s|x|l IH|m IH|n IH|e IH|ns es IHn IHe|v|i w|x|t] using value_ind'; intros Ha b Hb Heq;
    pose proof Heq as Hc; apply cypher_eq_cases in Hc as [(o & Ho & ->)|[(en & E1 & E2)|(E1 & E2 & Hc)]];
    try (by apply numbers_share); try (by rewrite (encode_entity _ _ E1), (encode_entity _ _ E2)); try done.
  all: destruct b as [|x'|i'|f'|s'|x'|l'|m'|n'|e'|ns' es'|v'|i' w'|x'|t'];
    try (cbn [value_eq] in Hc; rewrite ?E1, ?E2 in Hc; done); cbn [value_eq] in Hc; rewrite ?E1, ?E2 in Hc.
  - by apply eqb_prop in Hc as ->.
  - by apply Z.eqb_eq in Hc as ->.
  - apply numbers_share; [done|done|]. cbn in Heq. injection Heq as H%bool_decide_eq_true. cbn. by rewrite H.
  - by apply bool_decide_eq_true in Hc as ->.
  - by apply bool_decide_eq_true in Hc as ->.
  - destruct Hc as [Hlen He]. apply eq_items_true in He; [|done]. cbn [encode_to_buf entity_ref]. rewrite Hlen. do 2 f_equal.
    cbn in Ha, Hb. apply forallb_Forall in Ha, Hb. f_equal. clear -IH Ha Hb He.
    induction He as [|y z l r Hyz _ IHl]; [done|]. apply Forall_cons in IH as [IHy IH], Ha as [Hy Ha], Hb as [Hz Hb].
    cbn. f_equal; [by apply IHy|by apply IHl].
  - destruct Hc as [Hlen He]. cbn [encode_to_buf]. rewrite E1, E2, Hlen. do 2 f_equal.
    cbn in Ha, Hb. apply wf_entries_ok in Ha as [Da Wa], Hb as [Db Wb]. apply entries_share; [done..|]. intros k y z Hy Hz.
    apply get_elem in Hy, Hz. rewrite Forall_forall in IH, Wa, Wb. apply (IH _ Hy (Wa _ Hy)). apply (Wb _ Hz).
  - by apply bool_decide_eq_true in Hc as ->.
Qed.

(** C21: a hash join keyed by the bucket key loses no row.  Values that are
    equal in Cypher, an integer and the float of the same value, the two
    encodings of an entity, lists and maps of such, have equal keys, and only
    null has none. *)
Theorem equal_values_share_join_key (a b : Value) : wf a = true -> wf b = true -> cypher_eq a b = Some true ->
  encode_cypher_join_key a = encode_cypher_join_key b /\ is_Some (encode_cypher_join_key a).
Proof.
  intros Ha Hb H. unfold encode_cypher_join_key. rewrite (equal_share a Ha b Hb H).
  assert (N : is_null a = false /\ is_null b = false) by (destruct a, b; done). destruct N as [-> ->]. by split.
Qed.

Module JoinKeyExamples.
Local Open Scope string_scope.
Definition big : Z := 2 ^ 53.
Lemma equal_values_share_join_key_witness :
  let a := VMap [(str "x", VList [VInt big; VFloat F64.SIGN]); (str "n", ValueEqExamples.node7)] in
  let b := VMap [(str "n", ValueEqExamples.map7); (str "x", VList [VFloat (F64.of_int big); VInt 0])] in
  cypher_eq a b = Some true /\ encode_cypher_join_key a = encode_cypher_join_key b
  /\ cypher_eq (VInt (big + 1)) (VFloat (F64.of_int big)) = Some false.
Proof.
  split; [vm_compute; reflexivity|]. split; [|vm_compute; reflexivity].
  apply equal_values_share_join_key; vm_compute; reflexivity.
Defined.
(** Integers that round to one float share its bucket and are told apart by the re-check. *)
Example rounded_share_bucket :
  encode_cypher_join_key (VInt (big + 1)) = encode_cypher_join_key (VFloat (F64.of_int big))
  /\ encode_cypher_join_key (VInt 1) <> encode_cypher_join_key (VFloat (F64.of_int 2)).
Proof. by split; vm_compute. Qed.
End JoinKeyExamples.
