(* ===== verification/TemporalText.v ===== *)
(** * Temporal values in strings and maps

    The recognition of temporals that ORDER BY performs on strings and maps:
    [classify_temporal] with its helpers (uni-query-functions/src/datetime.rs),
    [temporal_from_value] and [temporal_from_map_wrapper] (expr_eval.rs).  A
    slice of a string that does not end on a character boundary panics, which
    is [None], and so does an addition that overflows; [value_to_string] prints
    dates and times (uni-common/src/value.rs).  What is not modelled of the
    datetime functions, chrono and serde_json is the class [TemporalText]. *)

From stdpp Require Import strings pretty.
From S2P Require Import Prelude Float64 Entries CypherValue.

Definition is_ascii (b : Z) : Prop := 0 <= b < 128.
#[export] Instance is_ascii_dec b : Decision (is_ascii b).
Proof. unfold is_ascii. apply _. Defined.

Class TemporalText := {
  (** [temporal_from_json_wrapper_str]: serde_json, then the fields. *)
  json_wrapper : Str -> option TemporalValue;
  (** [eval_datetime_function] on a string argument, when it gives a temporal. *)
  eval_datetime : TemporalType -> Str -> option TemporalValue;
  (** chrono's text of a day in the format %Y-%m-%d, by its distance from the
      epoch and saturated to chrono's range: digits, a sign and hyphens. *)
  format_date : Z -> Str;
  format_date_ascii d : Forall is_ascii (format_date d);
  (** [to_string] of a value that is no date or time. *)
  other_to_string : Value -> Str;
  (** [temporal_string_cmp] *)
  temporal_string_cmp : Str -> Str -> TemporalType -> option comparison;
  (** chrono's parsers: seconds and nanoseconds since the epoch, in UTC, and days. *)
  parse_naive_datetime : Str -> option (Z * Z);
  parse_zoned_fraction : Str -> option (Z * Z);
  parse_zoned : Str -> option (Z * Z);
  parse_naive_date : Str -> option Z;
}.

(** ** Slices of strings *)

Definition is_char_boundary (s : Str) (i : nat) : bool :=
  Nat.eqb i 0 || Nat.eqb i (length s) || match s !! i with Some b => negb ((128 <=? b) && (b <? 192)) | None => false end.
(** [&s[a..b]] *)
Definition slice (s : Str) (a b : nat) : option Str :=
  if Nat.leb a b && is_char_boundary s a && is_char_boundary s b then Some (take (b - a) (drop a s)) else None.
Definition is_ascii_digit (b : Z) : bool := (48 <=? b) && (b <=? 57).
Definition digits (s : Str) : bool := forallb is_ascii_digit s.
Definition byte_is (s : Str) (i : nat) (b : Z) : bool := bool_decide (s !! i = Some b).

(** [a && b] where [b] may panic. *)
Definition and_then (a : bool) (b : option bool) : option bool := if a then b else Some false.
(** [s[a..b].bytes().all(|b| b.is_ascii_digit())] *)
Definition digits_at (s : Str) (a b : nat) : option bool := digits <$> slice s a b.

(** [s.find('[')], and what precedes it. *)
Fixpoint before_bracket (s : Str) : Str :=
  match s with [] => [] | c :: s => if c =? 91 then [] else c :: before_bracket s end.

(** ** Classification *)

(** [for c in body.chars()] *)
Fixpoint duration_shape (saw_designator number_pending : bool) (body : Str) : bool :=
  match body with
  | [] => saw_designator && negb number_pending
  | c :: body =>
      if is_ascii_digit c || bool_decide (c ∈ [46; 45; 43]) then duration_shape saw_designator true body
      else if bool_decide (c ∈ [84; 116]) then duration_shape saw_designator false body
      else if bool_decide (c ∈ str "YyWwDdHhSsMm") then number_pending && duration_shape true false body
      else false
  end.
Definition is_iso_duration_shaped (s : Str) : bool :=
  let body := drop 1 s in
  match body with
  | [] => false
  | c :: _ => (Nat.leb 10 (length body) && is_ascii_digit c && byte_is body 4 45) || duration_shape false false body
  end.

Definition zone_offset (after : Str) : option bool :=
  if negb (Nat.leb 4 (length after)) then Some false
  else
    d2 ← digits_at after 0 2;
    if (d2 : bool) && byte_is after 2 58 then Some true else digits_at after 0 4.
(** [for (i, b) in s.bytes().enumerate().rev()] *)
Fixpoint zone_from (s : Str) (n : nat) : option bool :=
  match n with
  | O => Some false
  | S i =>
      if byte_is s i 43 || byte_is s i 45 then
        z ← zone_offset (drop (S i) s);
        if z : bool then Some true else zone_from s i
      else zone_from s i
  end.
Definition has_timezone_suffix (s : Str) : option bool :=
  if bool_decide (last s = Some 90) || bool_decide (last s = Some 122) then Some true else zone_from s (length s).

Definition classify_temporal (s : Str) : option (option TemporalType) :=
  let base := before_bracket s in
  if bool_decide (head base = Some 80) || bool_decide (head base = Some 112) then
    Some (if is_iso_duration_shaped base then Some TDuration else None)
  else
    has_date ← and_then (Nat.leb 10 (length base) && byte_is base 4 45 && byte_is base 7 45)
      (d ← digits_at base 0 4; and_then d (d ← digits_at base 5 7; and_then d (digits_at base 8 10)));
    let has_t := (has_date : bool) && Nat.ltb 10 (length base) && byte_is base 10 84 in
    if has_date && has_t then
      z ← has_timezone_suffix (drop 11 base);
      Some (Some (if z : bool then TDateTime else TLocalDateTime))
    else if has_date then Some (Some TDate)
    else
      has_time ← and_then (Nat.leb 5 (length base) && byte_is base 2 58)
        (d ← digits_at base 0 2; and_then d (digits_at base 3 5));
      if has_time : bool then
        z ← has_timezone_suffix base;
        Some (Some (if z : bool then TTime else TLocalTime))
      else Some None.

(** ** Temporals *)

Definition as_i32 (v : Value) : option Z :=
  n ← as_i64 v; if (- 2 ^ 31 <=? n) && (n <? 2 ^ 31) then Some n else None.
Definition inner_map (name : string) (m : Map) : option Map :=
  match get (str name) m with Some (VMap inner) => Some inner | _ => None end.
Definition field {A} (name : string) (f : Value -> option A) (m : Map) : option A := v ← get (str name) m; f v.
Definition temporal_from_map_wrapper (m : Map) : option TemporalValue :=
  if negb (Nat.eqb (length m) 1) then None
  else
    match inner_map "Date" m with
    | Some i => Date <$> field "days_since_epoch" as_i32 i
    | None =>
    match inner_map "LocalTime" m with
    | Some i => LocalTime <$> field "nanos_since_midnight" as_i64 i
    | None =>
    match inner_map "Time" m with
    | Some i => n ← field "nanos_since_midnight" as_i64 i; o ← field "offset_seconds" as_i32 i; Some (Time n o)
    | None =>
    match inner_map "LocalDateTime" m with
    | Some i => LocalDateTime <$> field "nanos_since_epoch" as_i64 i
    | None =>
    match inner_map "DateTime" m with
    | Some i =>
        n ← field "nanos_since_epoch" as_i64 i; o ← field "offset_seconds" as_i32 i;
        Some (DateTime n o (field "timezone_name" as_str i))
    | None =>
    match inner_map "Duration" m with
    | Some i => mo ← field "months" as_i64 i; d ← field "days" as_i64 i; n ← field "nanos" as_i64 i; Some (Duration mo d n)
    | None => None
    end end end end end end.

(** ** The text of dates and times *)

(** [format!("{:0w$}", n)] *)
Definition padded (w : nat) (n : Z) : Str := let d := str (pretty (Z.to_N n)) in replicate (w - length d) 48 ++ d.
(** [trim_end_matches('0')] *)
Fixpoint trim_zeros (s : Str) : Str :=
  match s with
  | [] => []
  | c :: s => match trim_zeros s with [] => if c =? 48 then [] else [c] | t => c :: t end
  end.
Definition format_fractional (nanos : Z) : Str := if nanos =? 0 then [] else str "." ++ trim_zeros (padded 9 nanos).
Definition format_time_component (hour minute second nanos : Z) : Str :=
  if (second =? 0) && (nanos =? 0) then padded 2 hour ++ str ":" ++ padded 2 minute
  else padded 2 hour ++ str ":" ++ padded 2 minute ++ str ":" ++ padded 2 second ++ format_fractional nanos.
(** A [NaiveTime]: hour, minute, second and nanosecond. *)
Definition nanos_to_time (nanos : Z) : option (Z * Z * Z * Z) :=
  let total_secs := Z.quot nanos 1000000000 in
  let h := as_u32 (Z.quot total_secs 3600) in
  let m := as_u32 (Z.quot (Z.rem total_secs 3600) 60) in
  let s := as_u32 (Z.rem total_secs 60) in
  let ns := as_u32 (Z.rem nanos 1000000000) in
  if (h <? 24) && (m <? 60) && (s <? 60) && (ns <? 2000000000) then Some (h, m, s, ns) else None.
Definition nanos_to_time_or_midnight (nanos : Z) : Z * Z * Z * Z := default (0, 0, 0, 0) (nanos_to_time nanos).
Definition format_naive_time (t : Z * Z * Z * Z) : Str := let '(h, m, s, ns) := t in format_time_component h m s ns.
Definition format_offset_numeric (offset_seconds : Z) : Str :=
  let sign := if 0 <=? offset_seconds then str "+" else str "-" in
  let abs := Z.abs offset_seconds in
  let hm := sign ++ padded 2 (abs / 3600) ++ str ":" ++ padded 2 (abs mod 3600 / 60) in
  if negb (abs mod 60 =? 0) then hm ++ str ":" ++ padded 2 (abs mod 60) else hm.
Definition format_offset (offset_seconds : Z) : Str := if offset_seconds =? 0 then str "Z" else format_offset_numeric offset_seconds.

Section temporal_from.
  Context `{TemporalText}.

(** [DateTime::from_timestamp_nanos(..).naive_utc()]: the date, T and the time. *)
Definition format_timestamp (nanos : Z) : Str :=
  let secs := nanos / 1000000000 in
  let sod := secs mod 86400 in
  format_date (secs / 86400) ++ str "T" ++ format_time_component (sod / 3600) (sod mod 3600 / 60) (sod mod 60) (nanos mod 1000000000).
(** [None] is the overflow of the local time of a [DateTime]. *)
Definition value_to_string (v : Value) : option Str :=
  match v with
  | VString s => Some s
  | VTemporal (Date d) => Some (format_date d)
  | VTemporal (LocalTime n) => Some (format_naive_time (nanos_to_time_or_midnight n))
  | VTemporal (Time n o) => Some (format_naive_time (nanos_to_time_or_midnight n) ++ format_offset o)
  | VTemporal (LocalDateTime n) => Some (format_timestamp n)
  | VTemporal (DateTime n o name) =>
      let local_nanos := n + o * 1000000000 in
      if bool_decide (is_i64 local_nanos)
      then Some (format_timestamp local_nanos ++ format_offset o ++ match name with Some z => str "[" ++ z ++ str "]" | None => [] end)
      else None
  | v => Some (other_to_string v)
  end.

Definition temporal_from_human_readable_str (s : Str) : option (option TemporalValue) :=
  c ← classify_temporal s;
  Some (match c with Some TBtic | None => None | Some t => eval_datetime t s end).
Definition temporal_from_str (s : Str) : option (option TemporalValue) :=
  match json_wrapper s with
  | Some t => Some (Some t)
  | None => temporal_from_human_readable_str s
  end.
Definition temporal_from_value (v : Value) : option (option TemporalValue) :=
  match v with
  | VTemporal t => Some (Some t)
  | VMap m => Some (temporal_from_map_wrapper m)
  | VString s => temporal_from_str s
  | _ => Some None
  end.
End temporal_from.

(** ** Text of ASCII characters is classified *)

Lemma slice_ascii s a b : Forall is_ascii s -> (a <= b <= length s)%nat -> is_Some (slice s a b).
Proof.
  intros Hs Hb. assert (Hc : forall i, (i <= length s)%nat -> is_char_boundary s i = true).
  { intros i Hi. unfold is_char_boundary. destruct (Nat.eqb_spec i (length s)); [by rewrite orb_true_r|].
    destruct (lookup_lt_is_Some_2 s i) as [x Hx]; [lia|]. rewrite Hx. rewrite Forall_lookup in Hs. specialize (Hs i x Hx). unfold is_ascii in Hs.
    destruct (Z.leb_spec 128 x); [lia|]. by rewrite orb_true_r. }
  unfold slice. rewrite !Hc, (proj2 (Nat.leb_le a b)) by lia. by eexists.
Qed.
Lemma digits_at_ascii s a b : Forall is_ascii s -> (a <= b <= length s)%nat -> is_Some (digits_at s a b).
Proof. intros Hs Hb. unfold digits_at. destruct (slice_ascii s a b Hs Hb) as [x ->]. by eexists. Qed.
Lemma and_then_some a b : (a = true -> is_Some b) -> is_Some (and_then a b).
Proof. destruct a; cbn; [auto|by eexists]. Qed.
Lemma zone_offset_ascii s : Forall is_ascii s -> is_Some (zone_offset s).
Proof.
  intros Hs. unfold zone_offset. destruct (Nat.leb_spec 4 (length s)); cbn [negb]; [|by eexists].
  destruct (digits_at_ascii s 0 2 Hs) as [d ->]; [lia|]. cbn. destruct (d && _); [by eexists|]. apply digits_at_ascii; [done|lia].
Qed.
Lemma zone_from_ascii s n : Forall is_ascii s -> is_Some (zone_from s n).
Proof.
  intros Hs. induction n as [|n IH]; cbn [zone_from]; [by eexists|]. destruct (_ || _); [|done].
  destruct (zone_offset_ascii (drop (S n) s)) as [[] ->]; [by apply Forall_drop|by eexists|done].
Qed.
Lemma has_timezone_ascii s : Forall is_ascii s -> is_Some (has_timezone_suffix s).
Proof. intros Hs. unfold has_timezone_suffix. destruct (_ || _); [by eexists|by apply zone_from_ascii]. Qed.

Lemma classify_ascii s : Forall is_ascii (before_bracket s) -> is_Some (classify_temporal s).
Proof.
  intros Hs. unfold classify_temporal. set (base := before_bracket s) in *. destruct (_ || _); [by eexists|].
  assert (Hd : is_Some (and_then (Nat.leb 10 (length base) && byte_is base 4 45 && byte_is base 7 45)
      (d ← digits_at base 0 4; and_then d (d ← digits_at base 5 7; and_then d (digits_at base 8 10))))).
  { apply and_then_some. intros [[Hl%Nat.leb_le _]%andb_true_iff _]%andb_true_iff. destruct (digits_at_ascii base 0 4 Hs) as [d ->]; [lia|]. cbn.
    apply and_then_some. intros _. destruct (digits_at_ascii base 5 7 Hs) as [d' ->]; [lia|]. cbn. apply and_then_some. intros _. apply digits_at_ascii; [done|lia]. }
  destruct Hd as [hd ->]. cbn [mbind option_bind]. destruct (hd && _).
  { destruct (has_timezone_ascii (drop 11 base)) as [z ->]; [by apply Forall_drop|by eexists]. }
  destruct hd; [by eexists|]. assert (Ht : is_Some (and_then (Nat.leb 5 (length base) && byte_is base 2 58) (d ← digits_at base 0 2; and_then d (digits_at base 3 5)))).
  { apply and_then_some. intros [Hl%Nat.leb_le _]%andb_true_iff. destruct (digits_at_ascii base 0 2 Hs) as [d ->]; [lia|]. cbn.
    apply and_then_some. intros _. apply digits_at_ascii; [done|lia]. }
  destruct Ht as [ht ->]. cbn [mbind option_bind]. destruct ht; [|by eexists]. destruct (has_timezone_ascii base Hs) as [z ->]. by eexists.
Qed.

(** ** Dates and times are printed in ASCII *)

Lemma before_bracket_ascii p q : Forall is_ascii p -> (q = [] \/ head q = Some 91) -> Forall is_ascii (before_bracket (p ++ q)).
Proof.
  intros Hp Hq. induction Hp as [|c p Hc _ IH]; cbn [app before_bracket].
  - destruct Hq as [->|Hq]; [constructor|]. destruct q as [|x q]; [done|]. injection Hq as ->. constructor.
  - destruct (c =? 91); [constructor|by constructor].
Qed.
Lemma pretty_go_ascii x : forall s, Forall is_ascii (str s) -> Forall is_ascii (str (pretty_N_go x s)).
Proof.
  induction (N.lt_wf_0 x) as [x _ IH]. intros s Hs. destruct (decide (0 < x)%N) as [Hx|Hx].
  - rewrite pretty_N_go_step by done. apply IH; [apply N.div_lt; lia|]. constructor; [|done].
    unfold pretty_N_char. repeat case_match; cbn; unfold is_ascii; lia.
  - assert (x = 0)%N as -> by lia. by rewrite pretty_N_go_0.
Qed.
Lemma padded_ascii w n : Forall is_ascii (padded w n).
Proof.
  unfold padded. apply Forall_app. split; [apply Forall_replicate; unfold is_ascii; lia|].
  unfold pretty, pretty_N. case_decide; [repeat constructor; lia|]. apply pretty_go_ascii. constructor.
Qed.
Lemma trim_zeros_ascii s : Forall is_ascii s -> Forall is_ascii (trim_zeros s).
Proof.
  induction 1 as [|c s Hc _ IH]; cbn; [constructor|]. destruct (trim_zeros s); [|by constructor]. destruct (c =? 48); [constructor|by constructor].
Qed.
Ltac ascii_text :=
  repeat match goal with
  | |- Forall _ (_ ++ _) => apply Forall_app; split
  | |- Forall _ (padded _ _) => apply padded_ascii
  | |- Forall _ (trim_zeros _) => apply trim_zeros_ascii
  | |- Forall _ (format_date _) => apply format_date_ascii
  | |- Forall _ (str _) => by (apply (bool_decide_unpack _); vm_compute)
  | |- Forall _ [] => constructor
  end.
Lemma time_component_ascii h m s ns : Forall is_ascii (format_time_component h m s ns).
Proof. unfold format_time_component, format_fractional. repeat case_match; ascii_text. Qed.
Lemma naive_time_ascii t : Forall is_ascii (format_naive_time t).
Proof. destruct t as [[[h m] s] ns]. apply time_component_ascii. Qed.
Lemma offset_ascii o : Forall is_ascii (format_offset o).
Proof. unfold format_offset, format_offset_numeric. repeat case_match; ascii_text. Qed.

(** The text of a date or time whose local time is in range is classified. *)
Lemma shown_temporal `{TemporalText} t :
  match t with Duration _ _ _ | BticValue _ _ _ => False | DateTime n o _ => is_i64 (n + o * 1000000000) | _ => True end ->
  exists s, value_to_string (VTemporal t) = Some s /\ is_Some (classify_temporal s).
Proof.
  assert (Hts : forall n, Forall is_ascii (format_timestamp n)).
  { intros n. unfold format_timestamp. ascii_text. apply time_component_ascii. }
  assert (Hno : forall p, Forall is_ascii p -> is_Some (classify_temporal p)).
  { intros p Hp. apply classify_ascii. rewrite <- (app_nil_r p). apply before_bracket_ascii; [done|by left]. }
  destruct t as [d|n|n o|n|n o name| |]; intros Hr; try done; cbn [value_to_string]; try (rewrite bool_decide_eq_true_2 by done); eexists; (split; [done|]).
  - apply Hno, format_date_ascii.
  - apply Hno, naive_time_ascii.
  - apply Hno, Forall_app. split; [apply naive_time_ascii|apply offset_ascii].
  - apply Hno, Hts.
  - rewrite app_assoc. apply classify_ascii, before_bracket_ascii; [apply Forall_app; split; [apply Hts|apply offset_ascii]|].
    destruct name; [by right|by left].
Qed.

Example classify_examples :
  classify_temporal (str "2024-01-15") = Some (Some TDate) /\ classify_temporal (str "2024-01-15T10:00:00+05:00") = Some (Some TDateTime)
  /\ classify_temporal (str "2024-01-15T10:00") = Some (Some TLocalDateTime) /\ classify_temporal (str "12:35:15Z") = Some (Some TTime)
  /\ classify_temporal (str "12:35") = Some (Some TLocalTime) /\ classify_temporal (str "P1Y2M") = Some (Some TDuration)
  /\ classify_temporal (str "paris") = Some None /\ classify_temporal (str "hello") = Some None.
Proof. split_and!; vm_compute; reflexivity. Qed.

(** A string that begins like a time and continues with a character of two
    bytes is cut inside it: "12:3" followed by U+00E9. *)
Theorem classify_temporal_panics : classify_temporal (str "12:3" ++ [195; 169]) = None.
Proof. vm_compute. reflexivity. Qed.

(** A datetime near the end of the range of 64-bit nanoseconds, east of
    Greenwich, overflows when it is printed. *)
Theorem datetime_text_overflows `{TemporalText} name : value_to_string (VTemporal (DateTime (2 ^ 63 - 1) 3600 name)) = None.
Proof. reflexivity. Qed.
