(* ===== verification/SortKey.v ===== *)
(** * ORDER BY: comparator and sort keys

    The two implementations of the order of Cypher values:
    [Executor::compare_values] (uni-query/src/query/executor/core.rs), a
    comparator with [cypher_partial_cmp] (uni-query-functions/src/expr_eval.rs)
    behind it for temporal strings, and [encode_cypher_sort_key]
    (uni-query-functions/src/df_udfs/sort_key.rs), a byte string per value
    compared with memcmp.  [None] is a panic.

    A loop over two maps sorts both by key; the recursive calls on the values
    of the first map are made when it is traversed, before the sort, as
    functions of the other value. *)

From stdpp Require Import strings pretty.
From S2P Require Import Prelude Float64 Entries CypherValue ValueEq JoinKey TemporalText Btic.

(** ** Sequences *)

Section seq.
  Context {A B : Type} (f : A -> B -> option comparison).
(** [zip().map().find(is_ne).unwrap_or(len.cmp(len))] *)
Fixpoint cmp_seq (l : list A) (r : list B) : option comparison :=
  match l, r with
  | [], [] => Some Eq
  | [], _ :: _ => Some Lt
  | _ :: _, [] => Some Gt
  | x :: l, y :: r => c ← f x y; match c with Eq => cmp_seq l r | _ => Some c end
  end.
End seq.

(** [cmp] on vectors of strings. *)
Fixpoint labels_cmp (l r : list Str) : comparison :=
  match l, r with
  | [], [] => Eq
  | [], _ :: _ => Lt
  | _ :: _, [] => Gt
  | x :: l, y :: r => then_cmp (memcmp x y) (labels_cmp l r)
  end.

(** [a.then_with(|| b)] *)
Definition then_with (c : comparison) (k : option comparison) : option comparison := match c with Eq => k | _ => Some c end.

Section order.
  Context `{TT : TemporalText}.

(** ** Partial comparison *)

Definition btic_cmp (l_lo l_hi l_meta r_lo r_hi r_meta : Z) : option comparison :=
  match Btic.new l_lo l_hi l_meta, Btic.new r_lo r_hi r_meta with
  | Ok l, Ok r => Some (Btic.cmp l r)
  | _, _ => None
  end.
Definition time_utc (nanos offset : Z) : Z := nanos - offset * 1000000000.
Definition temporal_partial_cmp (left right : TemporalValue) : option comparison :=
  match left, right with
  | Date l, Date r => Some (l ?= r)
  | LocalTime l, LocalTime r => Some (l ?= r)
  | Time lm lo, Time rm ro => Some (time_utc lm lo ?= time_utc rm ro)
  | LocalDateTime l, LocalDateTime r => Some (l ?= r)
  | DateTime l _ _, DateTime r _ _ => Some (l ?= r)
  | BticValue l1 l2 l3, BticValue r1 r2 r3 => btic_cmp l1 l2 l3 r1 r2 r3
  | _, _ => None
  end.

(** Both strings of one temporal type. *)
Definition same_class (l r : Str) : option (option TemporalType) :=
  lt ← classify_temporal l; rt ← classify_temporal r;
  Some (match lt, rt with Some a, Some b => if decide (a = b) then Some a else None | _, _ => None end).

Section partial_seq.
  Context (f : Value -> Value -> option (option comparison)).
Fixpoint partial_seq (l r : list Value) : option (option comparison) :=
  match l, r with
  | x :: l, y :: r => c ← f x y; match c with Some Eq => partial_seq l r | _ => Some c end
  | _, _ => Some (Some (Nat.compare (length l) (length r)))
  end.
End partial_seq.

(** The inner option is [None] for incomparable values. *)
Fixpoint cypher_partial_cmp (left right : Value) : option (option comparison) :=
  if is_null left || is_null right then Some None
  else
    left_temporal ← temporal_from_value left;
    right_temporal ← temporal_from_value right;
    match left_temporal, right_temporal, left, right with
    | Some l, Some r, _, _ => Some (temporal_partial_cmp l r)
    | Some _, None, _, VString rs =>
        ls ← value_to_string left;
        c ← same_class ls rs;
        Some (t ← c; temporal_string_cmp ls rs t)
    | None, Some _, VString ls, _ =>
        rs ← value_to_string right;
        c ← same_class ls rs;
        Some (t ← c; temporal_string_cmp ls rs t)
    | _, _, _, _ =>
        match cypher_numeric_cmp left right with
        | Some ord => Some ord
        | None =>
            match left, right with
            | VString l, VString r =>
                c ← same_class l r;
                match (t ← c; temporal_string_cmp l r t) with
                | Some o => Some (Some o)
                | None => Some (Some (memcmp l r))
                end
            | VBool l, VBool r => Some (Some (Z.b2z l ?= Z.b2z r))
            | VList l, VList r => partial_seq cypher_partial_cmp l r
            | _, _ => Some None
            end
        end
    end.

(** [eval_comparison]: the inner option is [None] for null. *)
Definition is_nan_value (v : Value) : bool := match as_f64 v with Some f => F64.is_nan f | None => false end.
Definition eval_comparison (left right : Value) (check : comparison -> bool) : option (option bool) :=
  if is_null left || is_null right then Some None
  else if is_nan_value left || is_nan_value right then
    if is_nan_value left && is_nan_value right then Some (Some false)
    else Some (if decide (is_Some (as_f64 (if is_nan_value left then right else left))) then Some false else None)
  else o ← cypher_partial_cmp left right; Some (option_map check o).
Definition try_eval_ordering (a b : Value) : option (option comparison) :=
  lt ← eval_comparison a b (fun o => match o with Lt => true | _ => false end);
  if decide (lt = Some true) then Some (Some Lt)
  else
    gt ← eval_comparison a b (fun o => match o with Gt => true | _ => false end);
    if decide (gt = Some true) then Some (Some Gt)
    else Some (if decide (cypher_eq a b = Some true) then Some Eq else None).

(** ** The comparator *)

Definition map_order_rank (m : Map) : Z :=
  if decide (is_Some (temporal_from_map_wrapper m)) then 7
  else if contains_key "nodes" m && (contains_key "relationships" m || contains_key "edges" m) then 4
  else if contains_key "_eid" m || contains_key "_src" m || contains_key "_dst" m || contains_key "_type" m || contains_key "_type_name" m then 2
  else if contains_key "_vid" m || contains_key "_labels" m || contains_key "_label" m then 1
  else 0.
Definition order_by_type_rank (v : Value) : Z :=
  match v with
  | VMap m => map_order_rank m
  | VNode _ => 1
  | VEdge _ => 2
  | VList _ => 3
  | VPath _ _ => 4
  | VString _ => 5
  | VBool _ => 6
  | VTemporal _ => 7
  | VInt _ => 8
  | VFloat f => if F64.is_nan f then 9 else 8
  | VNull => 10
  | _ => 11
  end.

Definition temporal_variant_rank (t : TemporalValue) : Z := temporal_discriminant t.
Definition duration_cmp (lm ld ln rm rd rn : Z) : comparison := then_cmp (lm ?= rm) (then_cmp (ld ?= rd) (ln ?= rn)).
Definition compare_temporal (left right : TemporalValue) : comparison :=
  match left, right with
  | Date l, Date r => l ?= r
  | LocalTime l, LocalTime r => l ?= r
  | Time lm lo, Time rm ro => time_utc lm lo ?= time_utc rm ro
  | LocalDateTime l, LocalDateTime r => l ?= r
  | DateTime l _ _, DateTime r _ _ => l ?= r
  | Duration lm ld ln, Duration rm rd rn => duration_cmp lm ld ln rm rd rn
  | _, _ => temporal_variant_rank left ?= temporal_variant_rank right
  end.

(** The entries of a map, each value waiting for the other to be compared with. *)
Abbreviation Pending := (list (Str * (Value -> option comparison))).
Definition pending (f : Value -> Value -> option comparison) (m : Map) : Pending := (fun e => (e.1, f e.2)) <$> m.
Definition compare_maps (left : Pending) (right : Map) : option comparison :=
  cmp_seq (fun l r => then_with (memcmp l.1 r.1) (l.2 r.2)) (sort_by_key left) (sort_by_key right).
Definition compare_nodes (f : Value -> Value -> option comparison) (left right : Node) : option comparison :=
  then_with (labels_cmp (sort_labels (labels left)) (sort_labels (labels right)))
    (then_with (vid left ?= vid right) (compare_maps (pending f (n_properties left)) (n_properties right))).
Definition compare_edges (f : Value -> Value -> option comparison) (left right : Edge) : option comparison :=
  then_with (memcmp (edge_type left) (edge_type right))
    (then_with (src left ?= src right) (then_with (dst left ?= dst right)
      (then_with (eid left ?= eid right) (compare_maps (pending f (e_properties left)) (e_properties right))))).

Definition compare_floats (l r : Z) : comparison :=
  if F64.is_nan l && F64.is_nan r then Eq
  else if F64.is_nan l then Gt
  else if F64.is_nan r then Lt
  else default Eq (F64.partial_cmp l r).
(** [f32::total_cmp] *)
Definition compare_f32 (l r : Z) : comparison :=
  let key b := if 2 ^ 31 <=? b then U32_MAX - b else b + 2 ^ 31 in
  key l ?= key r.

(** [if let .. && let Some(ord) = try_eval_ordering(a, b)]: continue when there is no order. *)
Definition or_else (r : option (option comparison)) (k : option comparison) : option comparison :=
  o ← r; match o with Some c => Some c | None => k end.

Fixpoint compare_values (a b : Value) : option comparison :=
  temporal_a ← temporal_from_value a;
  temporal_b ← temporal_from_value b;
  match temporal_a, temporal_b with
  | Some ta, Some tb => Some (compare_temporal ta tb)
  | _, _ =>
      or_else (match a, b with VString _, VTemporal _ | VTemporal _, VString _ => try_eval_ordering a b | _, _ => Some None end)
      (or_else (match a, temporal_b with VString _, Some tb => try_eval_ordering a (VTemporal tb) | _, _ => Some None end)
      (or_else (match temporal_a, b with Some ta, VString _ => try_eval_ordering (VTemporal ta) b | _, _ => Some None end)
      (let ra := order_by_type_rank a in
       let rb := order_by_type_rank b in
       if negb (ra =? rb) then Some (ra ?= rb)
       else
         match a, b with
         | VMap l, VMap r => compare_maps (pending compare_values l) r
         | VNode l, VNode r => compare_nodes compare_values l r
         | VEdge l, VEdge r => compare_edges compare_values l r
         | VList l, VList r => cmp_seq compare_values l r
         | VPath ns es, VPath ns' es' =>
             c ← cmp_seq (compare_nodes compare_values) ns ns';
             then_with c (cmp_seq (compare_edges compare_values) es es')
         | VString l, VString r => or_else (try_eval_ordering a b) (Some (memcmp l r))
         | VBool l, VBool r => Some (Z.b2z l ?= Z.b2z r)
         | VTemporal l, VTemporal r => Some (compare_temporal l r)
         | VInt l, VInt r => Some (l ?= r)
         | VFloat l, VFloat r => Some (compare_floats l r)
         | VInt l, VFloat r => Some (if F64.is_nan r then Lt else cmp_i64_f64 l r)
         | VFloat l, VInt r => Some (if F64.is_nan l then Gt else CompOpp (cmp_i64_f64 r l))
         | VBytes l, VBytes r => Some (memcmp l r)
         | VVector l, VVector r => cmp_seq (fun x y => Some (compare_f32 x y)) l r
         | _, _ => Some Eq
         end)))
  end.

(** ** Sort keys *)

Definition encode_order_preserving_f64 (f : Z) : list Z := to_be_bytes 8 (F64.order_bits f).
Definition encode_order_preserving_i64 (i : Z) : list Z := to_be_bytes 8 (Z.lxor (as_u64 i) (2 ^ 63)).
Definition encode_order_preserving_i32 (i : Z) : list Z := to_be_bytes 4 (Z.lxor (i mod 2 ^ 32) (2 ^ 31)).
Definition encode_order_preserving_i128 (i : Z) : list Z := to_be_bytes 16 (Z.lxor (i mod 2 ^ 128) (2 ^ 127)).
Definition encode_numeric_payload (primary int_delta : Z) : list Z :=
  encode_order_preserving_f64 primary ++ encode_order_preserving_i64 int_delta.

Fixpoint byte_stuff (data : list Z) : list Z :=
  match data with [] => [] | b :: data => b :: (if b =? 0 then [255] else []) ++ byte_stuff data end.
Definition byte_stuff_terminate (data : list Z) : list Z := byte_stuff data ++ [0; 0].

(** Payloads of elements and entries that are already encoded. *)
Definition list_payload (keys : list (list Z)) : list Z := mjoin ((fun k => 1 :: byte_stuff_terminate k) <$> keys) ++ [0].
Definition map_payload (m : list (Str * list Z)) : list Z :=
  mjoin ((fun e => 1 :: byte_stuff_terminate e.1 ++ byte_stuff_terminate e.2) <$> m) ++ [0].
Definition encode_list_payload (keys : list (option (list Z))) : option (list Z) := list_payload <$> mapM id keys.
Definition entry_key (e : Str * option (list Z)) : option (Str * list Z) := k ← e.2; Some (e.1, k).
Definition encode_map_payload (m : list (Str * option (list Z))) : option (list Z) := map_payload <$> mapM entry_key (sort_by_key m).

(** [labels.join("\x01")] *)
Fixpoint join_labels (l : list Str) : Str :=
  match l with [] => [] | [x] => x | x :: l => x ++ 1 :: join_labels l end.
Definition labels_key (l : list Str) : list Z := byte_stuff_terminate (join_labels (sort_labels l)).

Definition encode_node_payload (f : Value -> option (list Z)) (n : Node) : option (list Z) :=
  props ← encode_map_payload ((fun e => (e.1, f e.2)) <$> n_properties n);
  Some (labels_key (labels n) ++ to_be_bytes 8 (vid n) ++ props).
Definition encode_edge_payload (f : Value -> option (list Z)) (e : Edge) : option (list Z) :=
  props ← encode_map_payload ((fun e => (e.1, f e.2)) <$> e_properties e);
  Some (byte_stuff_terminate (edge_type e) ++ to_be_bytes 8 (src e) ++ to_be_bytes 8 (dst e) ++ to_be_bytes 8 (eid e) ++ props).
Definition encode_path_payload (f : Value -> option (list Z)) (ns : list Node) (es : list Edge) : option (list Z) :=
  nodes ← encode_list_payload ((fun n => cons 1 <$> encode_node_payload f n) <$> ns);
  edges ← encode_list_payload ((fun e => cons 2 <$> encode_edge_payload f e) <$> es);
  Some (nodes ++ edges).

Definition MONTH_NANOS : Z := 2629746 * 1000000000.
Definition DAY_NANOS : Z := 86400 * 1000000000.
Definition encode_temporal_payload (t : TemporalValue) : list Z :=
  match t with
  | Date d => 0 :: encode_order_preserving_i32 d
  | LocalTime n => 1 :: encode_order_preserving_i64 n
  | Time n o => 2 :: encode_order_preserving_i128 (time_utc n o)
  | LocalDateTime n => 3 :: encode_order_preserving_i128 n
  | DateTime n _ _ => 4 :: encode_order_preserving_i128 n
  | Duration mo d n =>
      5 :: encode_order_preserving_i128 (mo * MONTH_NANOS + d * DAY_NANOS + n)
        ++ encode_order_preserving_i64 mo ++ encode_order_preserving_i64 d ++ encode_order_preserving_i64 n
  | BticValue lo hi meta =>
      6 :: match Btic.new lo hi meta with
           | Ok b => Btic.encode b
           | Err _ => encode_order_preserving_i64 lo ++ encode_order_preserving_i64 hi
           end
  end.

(** Dates outside the range of 64-bit nanoseconds, parsed from the string. *)
Definition wide_nanos (t : Z * Z) : Z := t.1 * 1000000000 + t.2.
Definition encode_wide_temporal_sort_key (s : Str) (t : TemporalType) : option (list Z) :=
  match t with
  | TLocalDateTime => ndt ← parse_naive_datetime s; Some (3 :: encode_order_preserving_i128 (wide_nanos ndt))
  | TDateTime =>
      let base := before_bracket s in
      match parse_zoned_fraction base with
      | Some dt => Some (4 :: encode_order_preserving_i128 (wide_nanos dt))
      | None => dt ← parse_zoned base; Some (4 :: encode_order_preserving_i128 (wide_nanos dt))
      end
  | TDate => d ← parse_naive_date s; Some (0 :: encode_order_preserving_i32 d)
  | _ => None
  end.

Definition sort_key_map_as_temporal (m : Map) : option TemporalValue := temporal_from_map_wrapper m.
Definition sort_key_string_as_temporal (s : Str) : option (option TemporalValue) := temporal_from_value (VString s).
Definition sort_key_map_rank (m : Map) : Z :=
  let has k := contains_key k m in
  if decide (is_Some (sort_key_map_as_temporal m)) then 7
  else if has "nodes"%string && (has "relationships"%string || has "edges"%string) then 4
  else if existsb has ["_eid"; "_src"; "_dst"; "_type"; "_type_name"]%string then 2
  else if existsb has ["_vid"; "_labels"; "_label"]%string then 1
  else 0.
Definition sort_key_type_rank (v : Value) : Z :=
  match v with
  | VMap m => sort_key_map_rank m
  | VNode _ => 1
  | VEdge _ => 2
  | VList _ => 3
  | VPath _ _ => 4
  | VString _ => 5
  | VBool _ => 6
  | VTemporal _ => 7
  | VInt _ => 8
  | VFloat f => if F64.is_nan f then 9 else 8
  | VNull => 10
  | VBytes _ | VVector _ => 11
  | _ => 11
  end.

(** Maps that stand for entities: an entry carries the key of its value and,
    when that is a list, the payload of the list. *)
Abbreviation Encoded := (list (Str * (Value * option (list Z) * option (list Z)))).
Definition strings_of (l : list Value) : list Str := omap as_str l.
Definition user_entries (m : Encoded) : list (Str * option (list Z)) :=
  (fun e => (e.1, e.2.1.2)) <$> filter (fun e => is_reserved_property_name e.1 = false) m.
Definition encode_map_as_node_payload (m : Map) (enc : Encoded) : option (list Z) :=
  let labels :=
    match get (str "_labels") m, get (str "_label") m with
    | Some (VList l), _ => strings_of l
    | _, Some (VString l) => [l]
    | _, _ => []
    end in
  let v := match entity_ref_from_map m with Some (Vertex v) => v | _ => 0 end in
  props ← encode_map_payload (user_entries enc);
  Some (labels_key labels ++ to_be_bytes 8 v ++ props).
Definition encode_map_as_edge_payload (m : Map) (enc : Encoded) : option (list Z) :=
  let edge_type :=
    match edge_type_ref (VMap m) with
    | Some (TypeName n) => n
    | Some (TypeId id) => 1 :: str (pretty (Z.to_N id))
    | None => []
    end in
  let endpoint k := as_u64 (default 0 (v ← get (str k) m; as_i64 v)) in
  let e := match entity_ref_from_map m with Some (EdgeRef e) => e | _ => 0 end in
  props ← encode_map_payload (user_entries enc);
  Some (byte_stuff_terminate edge_type ++ to_be_bytes 8 (endpoint "_src"%string) ++ to_be_bytes 8 (endpoint "_dst"%string)
        ++ to_be_bytes 8 e ++ props).
Definition encode_map_as_path_payload (m : Encoded) : option (list Z) :=
  let part (e : option (Value * option (list Z) * option (list Z))) :=
    match e with Some (VList _, _, payload) => payload | _ => Some [0] end in
  nodes ← part (get (str "nodes") m);
  edges ← part (match get (str "relationships") m with Some r => Some r | None => get (str "edges") m end);
  Some (nodes ++ edges).

Fixpoint encode_sort_key (v : Value) : option (list Z) :=
  let ranked := cons (sort_key_type_rank v) in
  match v with
  | VMap m =>
      match sort_key_map_as_temporal m with
      | Some t => Some (7 :: encode_temporal_payload t)
      | None =>
          let enc := (fun e => (e.1, (e.2, encode_sort_key e.2,
                       match e.2 with VList l => encode_list_payload (encode_sort_key <$> l) | _ => None end))) <$> m in
          let rank := sort_key_map_rank m in
          if rank =? 1 then cons 1 <$> encode_map_as_node_payload m enc
          else if rank =? 2 then cons 2 <$> encode_map_as_edge_payload m enc
          else if rank =? 4 then cons 4 <$> encode_map_as_path_payload enc
          else if negb (rank =? 0) then Some [rank]
          else ranked <$> encode_map_payload ((fun e => (e.1, encode_sort_key e.2)) <$> m)
      end
  | VString s =>
      t ← sort_key_string_as_temporal s;
      match t with
      | Some t => Some (7 :: encode_temporal_payload t)
      | None =>
          c ← classify_temporal s;
          Some (match (ty ← c; encode_wide_temporal_sort_key s ty) with
                | Some payload => 7 :: payload
                | None => ranked (byte_stuff_terminate s)
                end)
      end
  | VNull => Some (ranked [])
  | VFloat f => Some (ranked (if F64.is_nan f then [] else encode_numeric_payload f 0))
  | VBool b => Some (ranked [if b then 1 else 0])
  | VInt i =>
      let primary := F64.of_int i in
      Some (ranked (encode_numeric_payload primary (i - F64.value primary / F64.UNIT)))
  | VTemporal t => Some (ranked (encode_temporal_payload t))
  | VList l => ranked <$> encode_list_payload (encode_sort_key <$> l)
  | VNode n => ranked <$> encode_node_payload encode_sort_key n
  | VEdge e => ranked <$> encode_edge_payload encode_sort_key e
  | VPath ns es => ranked <$> encode_path_payload encode_sort_key ns es
  | VBytes b => Some (ranked (byte_stuff_terminate b))
  | VVector v => Some (ranked (mjoin ((fun f => encode_order_preserving_f64 (F64.of_f32 f)) <$> v)))
  | _ => Some (ranked [])
  end.
Definition encode_cypher_sort_key : Value -> option (list Z) := encode_sort_key.
End order.

(** The ranks of the two implementations. *)
Lemma same_map_rank m : sort_key_map_rank m = map_order_rank m.
Proof. unfold sort_key_map_rank, map_order_rank, sort_key_map_as_temporal. cbn [existsb]. by rewrite !orb_false_r, !orb_assoc. Qed.
Lemma same_type_rank v : sort_key_type_rank v = order_by_type_rank v.
Proof. destruct v; try done. apply same_map_rank. Qed.
