(* ===== verification/SortKeyOrder.v ===== *)
(** * Sort keys order values as the comparator does

    On plain values (below) comparing the sort keys of two values byte by byte
    gives the answer of [compare_values] (Module SortKey).  A piece of a key
    decides or leaves the decision to what follows it: pieces compose by
    concatenation. *)

From stdpp Require Import strings.
From S2P Require Import Prelude Float64 Entries CypherValue ValueEq JoinKey TemporalText Btic SortKey.

(** ** Pieces of keys *)

Definition ordered (p q : list Z) (c : comparison) : Prop := forall x y, memcmp (p ++ x) (q ++ y) = then_cmp c (memcmp x y).

Lemma ordered_app p q c p' q' c' : ordered p q c -> ordered p' q' c' -> ordered (p ++ p') (q ++ q') (then_cmp c c').
Proof. intros H H' x y. rewrite <- !app_assoc, H, H'. by destruct c. Qed.
Lemma ordered_whole p q c : ordered p q c -> memcmp p q = c.
Proof. intros H. specialize (H [] []). rewrite !app_nil_r in H. rewrite H. by destruct c. Qed.
Lemma ordered_nil : ordered [] [] Eq.
Proof. done. Qed.
Lemma ordered_byte a b : ordered [a] [b] (a ?= b).
Proof. by intros x y. Qed.
Lemma ordered_cons a p q c : ordered p q c -> ordered (a :: p) (a :: q) c.
Proof. intros H. pose proof (ordered_app _ _ _ _ _ _ (ordered_byte a a) H) as E. by rewrite Z.compare_refl in E. Qed.
Lemma ordered_fixed p q : length p = length q -> ordered p q (memcmp p q).
Proof. intros H x y. by apply memcmp_app. Qed.
Lemma ordered_be n i j : 0 <= i < 256 ^ Z.of_nat n -> 0 <= j < 256 ^ Z.of_nat n -> ordered (to_be_bytes n i) (to_be_bytes n j) (i ?= j).
Proof. intros Hi Hj. rewrite <- (memcmp_to_be_bytes n i j) by done. apply ordered_fixed. by rewrite !length_to_be_bytes. Qed.

(** A signed integer with its sign bit flipped. *)
Lemma flip_signed w i : 0 < w -> - 2 ^ (w - 1) <= i < 2 ^ (w - 1) -> Z.lxor (i mod 2 ^ w) (2 ^ (w - 1)) = i + 2 ^ (w - 1).
Proof.
  intros Hw Hi. assert (E : 2 ^ w = 2 * 2 ^ (w - 1)) by (rewrite <- Z.pow_succ_r by lia; f_equal; lia).
  assert (Hflip : forall j, 0 <= j < 2 ^ (w - 1) -> Z.lxor j (2 ^ (w - 1)) = j + 2 ^ (w - 1)).
  { intros j Hj. symmetry. apply Z.add_nocarry_lxor. apply Z.bits_inj'. intros k Hk. rewrite Z.land_spec, Z.bits_0.
    destruct (Z.eq_dec k (w - 1)) as [->|Hne]; [|rewrite Z.pow2_bits_false by lia; apply andb_false_r].
    assert (Et : Z.testbit j (w - 1) = false) by (apply Z.testbit_false; [lia|by rewrite Z.div_small]). by rewrite Et. }
  destruct (Z.lt_ge_cases i 0) as [Hneg|Hpos].
  - assert (Em : i mod 2 ^ w = (i + 2 ^ (w - 1)) + 2 ^ (w - 1)) by (symmetry; apply Z.mod_unique with (q := -1); lia).
    rewrite Em, <- Hflip, Z.lxor_assoc, Z.lxor_nilpotent, Z.lxor_0_r by lia. done.
  - rewrite Z.mod_small by lia. apply Hflip. lia.
Qed.
Lemma compare_shift i j k : (i + k ?= j + k) = (i ?= j).
Proof. rewrite !(Z.add_comm _ k). apply Z.add_compare_mono_l. Qed.
Lemma ordered_i64 i j : is_i64 i -> is_i64 j -> ordered (encode_order_preserving_i64 i) (encode_order_preserving_i64 j) (i ?= j).
Proof.
  intros Hi Hj. unfold encode_order_preserving_i64, as_u64. rewrite !(flip_signed 64) by (done || lia).
  rewrite <- (compare_shift i j (2 ^ (64 - 1))). unfold is_i64 in *. apply ordered_be; change (256 ^ Z.of_nat 8) with (2 ^ 64); lia.
Qed.
Lemma ordered_i32 i j : - 2 ^ 31 <= i < 2 ^ 31 -> - 2 ^ 31 <= j < 2 ^ 31 ->
  ordered (encode_order_preserving_i32 i) (encode_order_preserving_i32 j) (i ?= j).
Proof.
  intros Hi Hj. unfold encode_order_preserving_i32. rewrite !(flip_signed 32) by lia.
  rewrite <- (compare_shift i j (2 ^ (32 - 1))). apply ordered_be; change (256 ^ Z.of_nat 4) with (2 ^ 32); lia.
Qed.
Lemma ordered_i128 i j : - 2 ^ 127 <= i < 2 ^ 127 -> - 2 ^ 127 <= j < 2 ^ 127 ->
  ordered (encode_order_preserving_i128 i) (encode_order_preserving_i128 j) (i ?= j).
Proof.
  intros Hi Hj. unfold encode_order_preserving_i128. rewrite !(flip_signed 128) by lia.
  rewrite <- (compare_shift i j (2 ^ (128 - 1))). apply ordered_be; change (256 ^ Z.of_nat 16) with (2 ^ 128); lia.
Qed.
Lemma ordered_u64 i j : is_u64 i -> is_u64 j -> ordered (to_be_bytes 8 i) (to_be_bytes 8 j) (i ?= j).
Proof. intros Hi Hj. by apply ordered_be. Qed.

(** Stuffed and terminated byte strings, of any length. *)
Lemma ordered_stuffed u v : Forall is_u8 u -> Forall is_u8 v -> ordered (byte_stuff_terminate u) (byte_stuff_terminate v) (memcmp u v).
Proof.
  intros Hu. revert v. induction Hu as [|a u Ha _ IH]; intros v Hv x y; destruct Hv as [|b v Hb Hv]; unfold byte_stuff_terminate; cbn [byte_stuff].
  - done.
  - unfold is_u8 in Hb. destruct (Z.eqb_spec b 0) as [->|Hne]; [done|]. cbn [app memcmp then_cmp]. assert (E : (0 ?= b) = Lt) by (apply Z.compare_lt_iff; lia). by rewrite E.
  - unfold is_u8 in Ha. destruct (Z.eqb_spec a 0) as [->|Hne]; [done|]. cbn [app memcmp then_cmp]. assert (E : (a ?= 0) = Gt) by (apply Z.compare_gt_iff; lia). by rewrite E.
  - specialize (IH v Hv x y). unfold byte_stuff_terminate in IH. unfold is_u8 in *. cbn [memcmp app].
    destruct (Z.compare_spec a b) as [->|L|G]; cbn [then_cmp].
    + destruct (Z.eqb_spec b 0); [cbn [app memcmp]; rewrite Z.compare_refl; cbn [then_cmp]|cbn [app]]; exact IH.
    + done.
    + done.
Qed.

(** The lists of the keys, and the entries of a map. *)
Lemma ordered_list ks ks' : Forall (Forall is_u8) ks -> Forall (Forall is_u8) ks' -> ordered (list_payload ks) (list_payload ks') (labels_cmp ks ks').
Proof.
  unfold list_payload. intros H. revert ks'. induction H as [|k ks Hk _ IH]; intros ks' H'; destruct H' as [|k' ks' Hk' H']; try by intros x y.
  cbn [fmap list_fmap mjoin list_join labels_cmp]. rewrite <- !app_comm_cons, <- !app_assoc. apply ordered_cons, ordered_app; [by apply ordered_stuffed|by apply IH].
Qed.
Fixpoint entries_cmp (l r : list (Str * list Z)) : comparison :=
  match l, r with
  | [], [] => Eq
  | [], _ :: _ => Lt
  | _ :: _, [] => Gt
  | x :: l, y :: r => then_cmp (then_cmp (memcmp x.1 y.1) (memcmp x.2 y.2)) (entries_cmp l r)
  end.
Lemma ordered_map m m' : Forall (fun e => Forall is_u8 e.1 /\ Forall is_u8 e.2) m -> Forall (fun e => Forall is_u8 e.1 /\ Forall is_u8 e.2) m' ->
  ordered (map_payload m) (map_payload m') (entries_cmp m m').
Proof.
  unfold map_payload. intros H. revert m'. induction H as [|e m [H1 H2] _ IH]; intros m' H'; destruct H' as [|e' m' [H1' H2'] H']; try by intros x y.
  cbn [fmap list_fmap mjoin list_join entries_cmp]. rewrite <- !app_comm_cons, <- !app_assoc. apply ordered_cons. rewrite then_cmp_assoc.
  apply ordered_app; [by apply ordered_stuffed|]. apply ordered_app; [by apply ordered_stuffed|by apply IH].
Qed.

(** Joined labels compare as the vectors do when no label is empty or has a byte below the separator's successor. *)
Definition label_ok (l : Str) : bool := negb (Nat.eqb (length l) 0) && forallb (fun b => (2 <=? b) && (b <? 256)) l.
Lemma join_cons x l : join_labels (x :: l) = x ++ match l with [] => [] | _ => 1 :: join_labels l end.
Proof. destruct l; [by rewrite app_nil_r|done]. Qed.
Lemma prefix_labels x y s t : Forall (fun b => 2 <= b < 256) x -> Forall (fun b => 2 <= b < 256) y ->
  (forall b s', s = b :: s' -> b = 1) -> (forall b t', t = b :: t' -> b = 1) ->
  memcmp (x ++ s) (y ++ t) = then_cmp (memcmp x y) (memcmp s t).
Proof.
  intros Hx. revert y. induction Hx as [|a x Ha _ IH]; intros y Hy Hs Ht; destruct Hy as [|b y Hb Hy]; cbn [app memcmp then_cmp].
  - done.
  - destruct s as [|c s]; [done|]. rewrite (Hs c s eq_refl). assert (E : (1 ?= b) = Lt) by (apply Z.compare_lt_iff; lia). cbn [app memcmp]. by rewrite E.
  - destruct t as [|c t]; [done|]. rewrite (Ht c t eq_refl). assert (E : (a ?= 1) = Gt) by (apply Z.compare_gt_iff; lia). cbn [app memcmp]. by rewrite E.
  - rewrite IH by done. by destruct (a ?= b).
Qed.
Lemma label_bytes l : label_ok l = true -> Forall (fun b => 2 <= b < 256) l /\ l <> [].
Proof.
  unfold label_ok. rewrite andb_true_iff, forallb_forall, negb_true_iff, Nat.eqb_neq, Forall_forall. intros [Hl H].
  split; [|by intros ->]. intros b Hb%list_elem_of_In%H. lia.
Qed.
Lemma join_bytes l : Forall (fun x => label_ok x = true) l -> Forall is_u8 (join_labels l).
Proof.
  induction 1 as [|x l Hx _ IH]; [constructor|]. rewrite join_cons. apply Forall_app. split.
  - destruct (label_bytes x Hx) as [H _]. eapply Forall_impl; [exact H|]. unfold is_u8. cbn. lia.
  - destruct l; [constructor|]. by constructor.
Qed.
Lemma join_labels_order l r : Forall (fun x => label_ok x = true) l -> Forall (fun x => label_ok x = true) r ->
  memcmp (join_labels l) (join_labels r) = labels_cmp l r.
Proof.
  intros H. revert r. induction H as [|x l Hx Hl IH]; intros r Hr; destruct Hr as [|y r Hy Hr].
  - done.
  - destruct (label_bytes y Hy) as [_ Hne]. rewrite join_cons. by destruct y.
  - destruct (label_bytes x Hx) as [_ Hne]. rewrite join_cons. by destruct x.
  - rewrite !join_cons. destruct (label_bytes x Hx) as [Bx _], (label_bytes y Hy) as [By _].
    rewrite prefix_labels; [|done|done|by destruct l; intros b s' [= ->]|by destruct r; intros b s' [= ->]].
    cbn [labels_cmp]. f_equal. destruct l as [|x' l], r as [|y' r]; try done. cbn [memcmp]. rewrite Z.compare_refl. cbn [then_cmp]. by apply IH.
Qed.

Lemma ordered_labels l r : Forall (fun x => label_ok x = true) l -> Forall (fun x => label_ok x = true) r ->
  ordered (labels_key l) (labels_key r) (labels_cmp (sort_labels l) (sort_labels r)).
Proof.
  assert (S : forall l, Forall (fun x => label_ok x = true) l -> Forall (fun x => label_ok x = true) (sort_labels l)).
  { intros l' H. unfold sort_labels. by rewrite merge_sort_Permutation. }
  intros Hl%S Hr%S. rewrite <- join_labels_order by done. apply ordered_stuffed; by apply join_bytes.
Qed.

(** ** Bytes *)

Lemma byte_stuff_bytes u : Forall is_u8 u -> Forall is_u8 (byte_stuff_terminate u).
Proof.
  intros H. unfold byte_stuff_terminate. apply Forall_app. split; [|by repeat constructor].
  induction H as [|b u Hb _ IH]; cbn; [constructor|]. constructor; [done|]. destruct (b =? 0); cbn; [by constructor|done].
Qed.
Lemma list_payload_bytes ks : Forall (Forall is_u8) ks -> Forall is_u8 (list_payload ks).
Proof.
  intros H. unfold list_payload. apply Forall_app. split; [|by repeat constructor]. induction H as [|k ks Hk _ IH]; cbn; [constructor|].
  constructor; [done|]. apply Forall_app. split; [by apply byte_stuff_bytes|done].
Qed.
Lemma map_payload_bytes m : Forall (fun e => Forall is_u8 e.1 /\ Forall is_u8 e.2) m -> Forall is_u8 (map_payload m).
Proof.
  intros H. unfold map_payload. apply Forall_app. split; [|by repeat constructor]. induction H as [|e m [H1 H2] _ IH]; cbn; [constructor|].
  constructor; [done|]. rewrite !Forall_app. by split_and!; [apply byte_stuff_bytes..|].
Qed.

Section plain.
  Context `{TT : TemporalText}.

(** ** Plain values

    Machine integers and bytes in range; no negative zero; no string that
    reads as a temporal and no map that stands for an entity or temporal;
    labels of printable characters; no durations, intervals or vectors. *)

Definition bytes (s : list Z) : bool := forallb (fun b => bool_decide (is_u8 b)) s.
Definition plain_text (s : Str) : bool :=
  bytes s && bool_decide (classify_temporal s = Some None) && bool_decide (json_wrapper s = None).
Definition plain_temporal (t : TemporalValue) : bool :=
  match t with
  | Date d => bool_decide (- 2 ^ 31 <= d /\ d < 2 ^ 31)
  | LocalTime n | LocalDateTime n => bool_decide (is_i64 n)
  | DateTime n o _ => bool_decide (is_i64 n) && bool_decide (is_i64 (n + o * 1000000000))
  | Time n o => bool_decide (is_i64 n) && bool_decide (- 2 ^ 31 <= o /\ o < 2 ^ 31)
  | _ => false
  end.
Definition plain_entries (f : Value -> bool) (m : Map) : bool := forallb (fun e => bytes e.1 && f e.2) m.
Definition plain_node (f : Value -> bool) (n : Node) : bool :=
  bool_decide (is_u64 (vid n)) && forallb label_ok (labels n) && plain_entries f (n_properties n).
Definition plain_edge (f : Value -> bool) (e : Edge) : bool :=
  bytes (edge_type e) && bool_decide (is_u64 (src e)) && bool_decide (is_u64 (dst e)) && bool_decide (is_u64 (eid e))
  && plain_entries f (e_properties e).
Fixpoint plain (v : Value) : bool :=
  match v with
  | VNull | VBool _ => true
  | VInt i => bool_decide (is_i64 i)
  | VFloat f => bool_decide (is_u64 f) && negb (f =? F64.SIGN)
  | VString s => plain_text s
  | VBytes b => bytes b
  | VList l => forallb plain l
  | VMap m => (map_order_rank m =? 0) && plain_entries plain m
  | VNode n => plain_node plain n
  | VEdge e => plain_edge plain e
  | VPath ns es => forallb (plain_node plain) ns && forallb (plain_edge plain) es
  | VTemporal t => plain_temporal t
  | _ => false
  end.

Lemma bytes_u8 s : bytes s = true -> Forall is_u8 s.
Proof. unfold bytes. rewrite forallb_forall, Forall_forall. intros H b Hb%list_elem_of_In%H. by apply bool_decide_eq_true in Hb. Qed.
Lemma plain_text_spec s : plain_text s = true -> Forall is_u8 s /\ classify_temporal s = Some None /\ json_wrapper s = None.
Proof. unfold plain_text. rewrite !andb_true_iff, !bool_decide_eq_true. intros [[H1%bytes_u8 H2] H3]. done. Qed.
Lemma plain_entries_spec f m : plain_entries f m = true <-> Forall (fun e => bytes e.1 = true /\ f e.2 = true) m.
Proof.
  unfold plain_entries. rewrite forallb_forall, Forall_forall.
  split; intros H e He; [apply list_elem_of_In, H, andb_true_iff in He|apply andb_true_iff, H, list_elem_of_In]; done.
Qed.
Lemma plain_node_entries f n : plain_node f n = true -> plain_entries f (n_properties n) = true.
Proof. unfold plain_node. by intros [_ H]%andb_true_iff. Qed.
Lemma plain_edge_entries f e : plain_edge f e = true -> plain_entries f (e_properties e) = true.
Proof. unfold plain_edge. by intros [_ H]%andb_true_iff. Qed.
Lemma plain_map_wrapper m : (map_order_rank m =? 0) = true -> temporal_from_map_wrapper m = None.
Proof. unfold map_order_rank. case_decide as E; [done|]. intros _. by apply eq_None_not_Some. Qed.

(** ** The key of a plain value *)

Definition key (v : Value) : list Z := default [] (encode_cypher_sort_key v).
Definition keyed (v : Value) : Prop := encode_cypher_sort_key v = Some (key v) /\ Forall is_u8 (key v).
Definition keys_of (m : Map) : list (Str * list Z) := (fun e => (e.1, key e.2)) <$> sort_by_key m.
Definition node_key (n : Node) : list Z := labels_key (labels n) ++ to_be_bytes 8 (vid n) ++ map_payload (keys_of (n_properties n)).
Definition edge_key (e : Edge) : list Z :=
  byte_stuff_terminate (edge_type e) ++ to_be_bytes 8 (src e) ++ to_be_bytes 8 (dst e) ++ to_be_bytes 8 (eid e) ++ map_payload (keys_of (e_properties e)).

Lemma keyed_intro v k : encode_cypher_sort_key v = Some k -> Forall is_u8 k -> keyed v.
Proof. intros E H. unfold keyed, key. by rewrite E. Qed.
Lemma encode_list_some {A} (f : A -> option (list Z)) (g : A -> list Z) l : Forall (fun x => f x = Some (g x)) l ->
  encode_list_payload (f <$> l) = Some (list_payload (g <$> l)).
Proof.
  intros H. unfold encode_list_payload. assert (E : mapM id (f <$> l) = Some (g <$> l)); [|by rewrite E].
  induction H as [|x l Hx _ IH]; [done|]. cbn. unfold id in *. rewrite Hx. cbn. cbn in IH. by rewrite IH.
Qed.
Lemma Forall_sorted {A} (P : Str * A -> Prop) m : Forall P m -> Forall P (sort_by_key m).
Proof. by rewrite sort_by_key_perm. Qed.
Lemma encode_map_some m : Forall (fun e => keyed e.2) m ->
  encode_map_payload ((fun e => (e.1, encode_sort_key e.2)) <$> m) = Some (map_payload (keys_of m)).
Proof.
  intros H%Forall_sorted. unfold encode_map_payload, keys_of. rewrite sort_by_key_fmap by done.
  assert (E : mapM entry_key ((fun e => (e.1, encode_sort_key e.2)) <$> sort_by_key m) = Some ((fun e => (e.1, key e.2)) <$> sort_by_key m)); [|by rewrite E].
  induction H as [|x l [Hx _] _ IH]; [done|]. cbn. unfold encode_cypher_sort_key in Hx. rewrite Hx. cbn. by rewrite IH.
Qed.
Lemma keys_bytes m : Forall (fun e => bytes e.1 = true /\ keyed e.2) m -> Forall (fun e => Forall is_u8 e.1 /\ Forall is_u8 e.2) (keys_of m).
Proof. intros H%Forall_sorted. unfold keys_of. apply Forall_fmap. eapply Forall_impl; [exact H|]. intros e [H1%bytes_u8 [_ H2]]. done. Qed.

(** Values inside are plain and have keys. *)
Definition entries_keyed (m : Map) : Prop := Forall (fun e => bytes e.1 = true /\ keyed e.2) m.
Lemma entries_keyed_intro m : plain_entries plain m = true -> Forall (fun e => plain e.2 = true -> keyed e.2) m -> entries_keyed m.
Proof. rewrite plain_entries_spec. intros H1 H2. eapply Forall_impl; [apply Forall_and; split; [exact H1|exact H2]|]. intros e [[? ?] Hk]. split; [done|by apply Hk]. Qed.
Lemma node_keyed n : plain_node plain n = true -> entries_keyed (n_properties n) ->
  encode_node_payload encode_sort_key n = Some (node_key n) /\ Forall is_u8 (node_key n).
Proof.
  unfold plain_node. rewrite !andb_true_iff, bool_decide_eq_true. intros [[Hv Hl] _] Hk. split.
  - unfold encode_node_payload. rewrite encode_map_some; [done|]. eapply Forall_impl; [exact Hk|]. by intros e [_ ?].
  - unfold node_key, labels_key. rewrite !Forall_app. split_and!; [|apply to_be_bytes_u8|by apply map_payload_bytes, keys_bytes].
    apply byte_stuff_bytes, join_bytes. unfold sort_labels. rewrite merge_sort_Permutation. by apply forallb_Forall in Hl.
Qed.
Lemma edge_keyed e : plain_edge plain e = true -> entries_keyed (e_properties e) ->
  encode_edge_payload encode_sort_key e = Some (edge_key e) /\ Forall is_u8 (edge_key e).
Proof.
  unfold plain_edge. rewrite !andb_true_iff. intros [[[[Ht%bytes_u8 _] _] _] _] Hk. split.
  - unfold encode_edge_payload. rewrite encode_map_some; [done|]. eapply Forall_impl; [exact Hk|]. by intros x [_ ?].
  - unfold edge_key. rewrite !Forall_app. split_and!; [by apply byte_stuff_bytes|apply to_be_bytes_u8..|by apply map_payload_bytes, keys_bytes].
Qed.
Lemma temporal_bytes t : plain_temporal t = true -> Forall is_u8 (encode_temporal_payload t).
Proof. destruct t; try done; intros _; cbn [encode_temporal_payload]; (constructor; [done|apply to_be_bytes_u8]). Qed.

(** What follows the rank. *)
Definition payload (v : Value) : list Z :=
  match v with
  | VBool b => [if b then 1 else 0]
  | VInt i => encode_numeric_payload (F64.of_int i) (i - F64.round i)
  | VFloat f => if F64.is_nan f then [] else encode_numeric_payload f 0
  | VString s | VBytes s => byte_stuff_terminate s
  | VList l => list_payload (key <$> l)
  | VMap m => map_payload (keys_of m)
  | VNode n => node_key n
  | VEdge e => edge_key e
  | VPath ns es => list_payload ((fun n => 1 :: node_key n) <$> ns) ++ list_payload ((fun e => 2 :: edge_key e) <$> es)
  | VTemporal t => encode_temporal_payload t
  | _ => []
  end.
Lemma int_delta i : is_i64 i -> i - F64.value (F64.of_int i) / F64.UNIT = i - F64.round i.
Proof. intros Hi. destruct (F64.of_int_spec i Hi) as (_ & _ & _ & ->). by rewrite Z.div_mul. Qed.
Lemma numeric_bytes p d : Forall is_u8 (encode_numeric_payload p d).
Proof. apply Forall_app. split; apply to_be_bytes_u8. Qed.
Lemma path_keyed {A} (f : A -> option (list Z)) (g : A -> list Z) (p : A -> bool) (kd : A -> Prop) h l :
  (forall x, p x = true -> kd x -> f x = Some (g x) /\ Forall is_u8 (g x)) -> is_u8 h -> forallb p l = true -> Forall kd l ->
  encode_list_payload ((fun x => cons h <$> f x) <$> l) = Some (list_payload ((fun x => h :: g x) <$> l))
  /\ Forall (Forall is_u8) ((fun x => h :: g x) <$> l).
Proof.
  intros Hf Hh Hp%forallb_Forall Hk. assert (H : Forall (fun x => f x = Some (g x) /\ Forall is_u8 (g x)) l).
  { eapply Forall_impl; [apply Forall_and; split; [exact Hp|exact Hk]|]. intros x []. by apply Hf. }
  split; [|apply Forall_fmap; eapply Forall_impl; [exact H|]; intros x [_ ?]; by constructor].
  apply (encode_list_some (fun x => cons h <$> f x)). eapply Forall_impl; [exact H|]. by intros x [-> _].
Qed.
Lemma plain_key v : plain v = true -> encode_cypher_sort_key v = Some (order_by_type_rank v :: payload v) /\ Forall is_u8 (payload v).
Proof.
  assert (K : forall v, is_u8 (order_by_type_rank v) -> encode_cypher_sort_key v = Some (order_by_type_rank v :: payload v) /\ Forall is_u8 (payload v) -> keyed v).
  { intros w Hr [E H]. apply (keyed_intro _ _ E). by constructor. }
  assert (R : forall v, is_u8 (order_by_type_rank v)).
  { intros []; cbn; unfold map_order_rank; repeat case_match; done. }
  assert (M : forall m, plain_entries plain m = true ->
    Forall (fun e => plain e.2 = true -> encode_cypher_sort_key e.2 = Some (order_by_type_rank e.2 :: payload e.2) /\ Forall is_u8 (payload e.2)) m -> entries_keyed m).
  { intros m Hm IH. apply entries_keyed_intro; [done|]. eapply Forall_impl; [exact IH|]. intros e He Hp. by apply K, He. }
  induction v using value_ind'; cbn [plain]; intros Hp; try done; try (split; [done|by repeat constructor]).
  - destruct b; by split; [|repeat constructor].
  - apply bool_decide_eq_true in Hp. split; [|apply numeric_bytes]. unfold encode_cypher_sort_key. cbn [encode_sort_key payload]. by rewrite int_delta.
  - cbn [payload]. split; [done|]. destruct (F64.is_nan f); [constructor|apply numeric_bytes].
  - apply plain_text_spec in Hp as (Hb & Hc & Hj). split; [|by apply byte_stuff_bytes].
    unfold encode_cypher_sort_key. cbn [encode_sort_key]. unfold sort_key_string_as_temporal, temporal_from_value, temporal_from_str, temporal_from_human_readable_str. by rewrite Hj, Hc.
  - split; [done|]. by apply byte_stuff_bytes, bytes_u8.
  - assert (Hk : Forall keyed l).
    { apply forallb_Forall in Hp. eapply Forall_impl; [apply Forall_and; split; [exact Hp|exact H]|]. intros w [? Hw]. by apply K, Hw. }
    unfold encode_cypher_sort_key. cbn [encode_sort_key payload]. rewrite (encode_list_some encode_sort_key key).
    + split; [done|]. apply list_payload_bytes, Forall_fmap. eapply Forall_impl; [exact Hk|]. by intros w [].
    + eapply Forall_impl; [exact Hk|]. by intros w [].
  - apply andb_true_iff in Hp as [Hr He]. pose proof (M m He H) as Hk. unfold encode_cypher_sort_key. cbn [encode_sort_key payload].
    unfold sort_key_map_as_temporal. rewrite plain_map_wrapper, same_type_rank, same_map_rank by done. apply Z.eqb_eq in Hr as Hr'. rewrite Hr'. cbn [Z.eqb negb].
    rewrite encode_map_some by (eapply Forall_impl; [exact Hk|]; by intros e []). split; [done|]. by apply map_payload_bytes, keys_bytes.
  - destruct (node_keyed n Hp) as [E B].
    { by apply M; [apply plain_node_entries|]. }
    unfold encode_cypher_sort_key. cbn [encode_sort_key payload]. by rewrite E.
  - destruct (edge_keyed e Hp) as [E B].
    { by apply M; [apply plain_edge_entries|]. }
    unfold encode_cypher_sort_key. cbn [encode_sort_key payload]. by rewrite E.
  - apply andb_true_iff in Hp as [Hn He].
    destruct (path_keyed (encode_node_payload encode_sort_key) node_key (plain_node plain) (fun n => entries_keyed (n_properties n)) 1 ns) as [En Bn]; [apply node_keyed|done|done|..].
    { apply forallb_Forall in Hn. eapply Forall_impl; [apply Forall_and; split; [exact Hn|exact H]|]. intros n []. by apply M; [apply plain_node_entries|]. }
    destruct (path_keyed (encode_edge_payload encode_sort_key) edge_key (plain_edge plain) (fun e => entries_keyed (e_properties e)) 2 es) as [Ee Be]; [apply edge_keyed|done|done|..].
    { apply forallb_Forall in He. eapply Forall_impl; [apply Forall_and; split; [exact He|exact H0]|]. intros e []. by apply M; [apply plain_edge_entries|]. }
    unfold encode_cypher_sort_key. cbn [encode_sort_key payload]. unfold encode_path_payload. rewrite En, Ee. split; [done|].
    apply Forall_app. by split; apply list_payload_bytes.
  - cbn [payload]. split; [done|]. by apply temporal_bytes.
Qed.

Lemma plain_keyed v : plain v = true -> keyed v.
Proof.
  intros H. destruct (plain_key v H) as [E B]. apply (keyed_intro _ _ E). constructor; [|done].
  destruct v; cbn; unfold map_order_rank; repeat case_match; done.
Qed.
Lemma key_eq v : plain v = true -> key v = order_by_type_rank v :: payload v.
Proof. intros H. unfold key. by rewrite (proj1 (plain_key v H)). Qed.

(** ** The comparator on plain values *)

(** Two values of one rank. *)
Definition same_rank (a b : Value) : option comparison :=
  match a, b with
  | VMap l, VMap r => compare_maps (pending compare_values l) r
  | VNode l, VNode r => compare_nodes compare_values l r
  | VEdge l, VEdge r => compare_edges compare_values l r
  | VList l, VList r => cmp_seq compare_values l r
  | VPath ns es, VPath ns' es' => c ← cmp_seq (compare_nodes compare_values) ns ns'; then_with c (cmp_seq (compare_edges compare_values) es es')
  | VString l, VString r | VBytes l, VBytes r => Some (memcmp l r)
  | VBool l, VBool r => Some (Z.b2z l ?= Z.b2z r)
  | VTemporal l, VTemporal r => Some (compare_temporal l r)
  | VInt l, VInt r => Some (l ?= r)
  | VFloat l, VFloat r => Some (compare_floats l r)
  | VInt l, VFloat r => Some (if F64.is_nan r then Lt else cmp_i64_f64 l r)
  | VFloat l, VInt r => Some (if F64.is_nan l then Gt else CompOpp (cmp_i64_f64 r l))
  | _, _ => Some Eq
  end.

Lemma plain_temporal_from v : plain v = true -> temporal_from_value v = Some (match v with VTemporal t => Some t | _ => None end).
Proof.
  destruct v; try done; cbn [plain temporal_from_value].
  - intros (_ & Hc & Hj)%plain_text_spec. unfold temporal_from_str, temporal_from_human_readable_str. by rewrite Hj, Hc.
  - intros [Hr _]%andb_true_iff. by rewrite plain_map_wrapper.
Qed.
Lemma string_ordering l r : plain_text l = true -> plain_text r = true -> try_eval_ordering (VString l) (VString r) = Some (Some (memcmp l r)).
Proof.
  intros Hl Hr. assert (E : cypher_partial_cmp (VString l) (VString r) = Some (Some (memcmp l r))).
  { cbn [cypher_partial_cmp is_null orb]. rewrite (plain_temporal_from (VString l)), (plain_temporal_from (VString r)) by done.
    apply plain_text_spec in Hl as (_ & Hl & _), Hr as (_ & Hr & _). cbn. unfold same_class. by rewrite Hl, Hr. }
  unfold try_eval_ordering, eval_comparison. cbn [is_null is_nan_value as_f64 orb]. rewrite E. destruct (memcmp l r) eqn:Em; cbn; [|done|done].
  apply memcmp_eq in Em as ->. assert (C : cypher_eq (VString r) (VString r) = Some true) by (cbn; by rewrite bool_decide_true).
  repeat case_decide; done.
Qed.
Lemma mixed_ordering t s : plain_temporal t = true -> plain_text s = true ->
  try_eval_ordering (VTemporal t) (VString s) = Some None /\ try_eval_ordering (VString s) (VTemporal t) = Some None.
Proof.
  intros Ht Hs. destruct (shown_temporal t) as (ts & Et & c & Hc).
  { destruct t; cbn in Ht; try done. by apply andb_true_iff in Ht as [_ Ht%bool_decide_eq_true]. }
  pose proof (plain_text_spec s Hs) as (_ & Hn & _).
  assert (E : cypher_partial_cmp (VTemporal t) (VString s) = Some None /\ cypher_partial_cmp (VString s) (VTemporal t) = Some None).
  { cbn [cypher_partial_cmp is_null orb]. rewrite (plain_temporal_from (VString s)), !Et by done. cbn. unfold same_class. rewrite Hc, Hn. cbn. by destruct c. }
  unfold try_eval_ordering, eval_comparison. cbn [is_null is_nan_value as_f64 orb]. destruct E as [-> ->]. done.
Qed.
Lemma compare_plain a b : plain a = true -> plain b = true ->
  compare_values a b = let ra := order_by_type_rank a in let rb := order_by_type_rank b in
                       if negb (ra =? rb) then Some (ra ?= rb) else same_rank a b.
Proof.
  intros Ha Hb.
  pose proof (plain_temporal_from a Ha) as Ta. pose proof (plain_temporal_from b Hb) as Tb.
  destruct a, b; try discriminate; try done; cbn [compare_values]; rewrite ?Ta, ?Tb; try done; cbn [option_bind mbind or_else];
    try (rewrite string_ordering by done; done); 
    (destruct (mixed_ordering t s) as [E1 E2]; [done|done|]); rewrite ?E1, ?E2; done.
Qed.

(** ** Agreement *)

Definition agree (a : Value) : Prop := forall b, plain b = true -> compare_values a b = Some (memcmp (key a) (key b)).

Lemma cmp_seq_keys {A B} (f : A -> B -> option comparison) (g : A -> list Z) (h : B -> list Z) (p : B -> bool) l r :
  Forall (fun x => forall y, p y = true -> f x y = Some (memcmp (g x) (h y))) l -> forallb p r = true ->
  cmp_seq f l r = Some (labels_cmp (g <$> l) (h <$> r)).
Proof.
  intros H. revert r. induction H as [|x l Hx _ IH]; intros [|y r]; cbn; try done. intros [Hy Hr]%andb_true_iff. rewrite Hx by done.
  cbn. rewrite IH by done. by destruct (memcmp (g x) (h y)).
Qed.
Lemma compare_maps_keys m m' : Forall (fun e => agree e.2) m -> plain_entries plain m' = true ->
  compare_maps (pending compare_values m) m' = Some (entries_cmp (keys_of m) (keys_of m')).
Proof.
  rewrite plain_entries_spec. intros H%Forall_sorted H'%Forall_sorted. unfold compare_maps, pending, keys_of. rewrite sort_by_key_fmap by done.
  revert H'. generalize (sort_by_key m'). intros r. revert r. induction H as [|x l Hx _ IH]; intros [|y r]; cbn; try done.
  intros [[_ Hy] Hr]%Forall_cons. rewrite Hx by done. specialize (IH r Hr). cbn in IH. rewrite IH.
  destruct (memcmp x.1 y.1); cbn; [|done|done]. by destruct (memcmp (key x.2) (key y.2)).
Qed.
Lemma ordered_entries m m' : plain_entries plain m = true -> plain_entries plain m' = true ->
  ordered (map_payload (keys_of m)) (map_payload (keys_of m')) (entries_cmp (keys_of m) (keys_of m')).
Proof.
  assert (K : forall m, plain_entries plain m = true -> entries_keyed m).
  { intros l Hl. apply entries_keyed_intro; [done|]. apply Forall_true. intros e. apply plain_keyed. }
  intros H%K H'%K. by apply ordered_map; apply keys_bytes.
Qed.
Lemma then_with_some c d : then_with c (Some d) = Some (then_cmp c d).
Proof. by destruct c. Qed.
Lemma nodes_agree n n' : plain_node plain n = true -> plain_node plain n' = true -> Forall (fun e => agree e.2) (n_properties n) ->
  compare_nodes compare_values n n' = Some (memcmp (node_key n) (node_key n')).
Proof.
  intros Hn Hn' IH. unfold compare_nodes. rewrite compare_maps_keys by (done || by apply plain_node_entries). rewrite !then_with_some. f_equal. symmetry.
  pose proof (plain_node_entries _ _ Hn). pose proof (plain_node_entries _ _ Hn'). unfold plain_node in *.
  rewrite !andb_true_iff, bool_decide_eq_true in *. destruct Hn as [[Hv Hl%forallb_Forall] _], Hn' as [[Hv' Hl'%forallb_Forall] _].
  apply ordered_whole. unfold node_key. apply ordered_app; [by apply ordered_labels|]. apply ordered_app; [by apply ordered_u64|by apply ordered_entries].
Qed.
Lemma edges_agree e e' : plain_edge plain e = true -> plain_edge plain e' = true -> Forall (fun e => agree e.2) (e_properties e) ->
  compare_edges compare_values e e' = Some (memcmp (edge_key e) (edge_key e')).
Proof.
  intros He He' IH. unfold compare_edges. rewrite compare_maps_keys by (done || by apply plain_edge_entries). rewrite !then_with_some. f_equal. symmetry.
  pose proof (plain_edge_entries _ _ He). pose proof (plain_edge_entries _ _ He'). unfold plain_edge in *.
  rewrite !andb_true_iff, !bool_decide_eq_true in *. destruct He as [[[[Ht%bytes_u8 Hs] Hd] Hi] _], He' as [[[[Ht'%bytes_u8 Hs'] Hd'] Hi'] _].
  apply ordered_whole. unfold edge_key. repeat (apply ordered_app; [by first [apply ordered_stuffed|apply ordered_u64]|]). by apply ordered_entries.
Qed.
Lemma temporals_agree t t' : plain_temporal t = true -> plain_temporal t' = true ->
  compare_temporal t t' = memcmp (encode_temporal_payload t) (encode_temporal_payload t').
Proof.
  assert (O : forall tag p q c, ordered p q c -> memcmp (tag :: p) (tag :: q) = c) by (intros; by apply ordered_whole, ordered_cons).
  unfold plain_temporal. destruct t, t'; try done; rewrite ?andb_true_iff, ?bool_decide_eq_true; intros H H'; cbn [compare_temporal encode_temporal_payload];
    try reflexivity; symmetry; apply O.
  - by apply ordered_i32.
  - by apply ordered_i64.
  - unfold is_i64 in *. apply ordered_i128; unfold time_utc; lia.
  - unfold is_i64 in *. apply ordered_i128; lia.
  - unfold is_i64 in *. apply ordered_i128; lia.
Qed.

(** Numbers: the float nearest to the value, then what it leaves out. *)
Lemma numeric_order p d q e : is_u64 p -> is_u64 q -> p <> F64.SIGN -> q <> F64.SIGN -> is_i64 d -> is_i64 e ->
  memcmp (encode_numeric_payload p d) (encode_numeric_payload q e) = then_cmp (F64.value p ?= F64.value q) (d ?= e).
Proof.
  intros Hp Hq Np Nq Hd He. apply ordered_whole, ordered_app; [|by apply ordered_i64]. rewrite <- F64.order_bits_compare by done.
  by apply ordered_u64; apply F64.order_bits_u64.
Qed.
Lemma delta_i64 i : is_i64 i -> is_i64 (i - F64.round i).
Proof. intros Hi. pose proof (F64.round_delta i Hi). unfold is_i64 in *. lia. Qed.
Lemma ints_agree i j : is_i64 i -> is_i64 j -> (i ?= j) = memcmp (payload (VInt i)) (payload (VInt j)).
Proof.
  intros Hi Hj. destruct (F64.of_int_spec i Hi) as (Ui & Ni & _ & Vi), (F64.of_int_spec j Hj) as (Uj & Nj & _ & Vj).
  cbn [payload]. rewrite numeric_order by (done || by apply delta_i64). rewrite Vi, Vj. apply F64.int_int_compare.
Qed.
Lemma int_float_agree i f : is_i64 i -> is_u64 f -> f <> F64.SIGN -> F64.is_nan f = false ->
  cmp_i64_f64 i f = memcmp (payload (VInt i)) (payload (VFloat f)).
Proof.
  intros Hi Hf Nf En. destruct (F64.of_int_spec i Hi) as (Ui & Ni & _ & Vi). cbn [payload]. rewrite En, numeric_order by (done || by apply delta_i64).
  rewrite Vi, cmp_i64_f64_exact by done. by apply F64.int_float_compare.
Qed.
Lemma floats_agree f g : is_u64 f -> is_u64 g -> f <> F64.SIGN -> g <> F64.SIGN -> F64.is_nan f = F64.is_nan g ->
  compare_floats f g = memcmp (payload (VFloat f)) (payload (VFloat g)).
Proof.
  intros Hf Hg Nf Ng E. cbn [payload]. unfold compare_floats, F64.partial_cmp. rewrite E. destruct (F64.is_nan g); [done|].
  rewrite numeric_order by done. cbn. by destruct (F64.value f ?= F64.value g).
Qed.

(** Two plain values of one rank. *)
Lemma agree_payload a b : plain a = true -> plain b = true ->
  (order_by_type_rank a = order_by_type_rank b -> same_rank a b = Some (memcmp (payload a) (payload b))) ->
  compare_values a b = Some (memcmp (key a) (key b)).
Proof.
  intros Ha Hb H. rewrite compare_plain, !key_eq by done. cbn. destruct (Z.eqb_spec (order_by_type_rank a) (order_by_type_rank b)) as [E|Hne]; cbn.
  - rewrite H by done. by rewrite E, Z.compare_refl.
  - destruct (Z.compare_spec (order_by_type_rank a) (order_by_type_rank b)); done.
Qed.
Lemma numbers_agree a b : plain a = true -> plain b = true -> order_by_type_rank a = order_by_type_rank b -> is_Some (as_f64 a) -> is_Some (as_f64 b) ->
  same_rank a b = Some (memcmp (payload a) (payload b)).
Proof.
  intros Ha Hb Hr Na Nb. destruct a; try (by destruct Na); destruct b; try (by destruct Nb); cbn [plain] in *; rewrite ?andb_true_iff, ?negb_true_iff, ?Z.eqb_neq, ?bool_decide_eq_true in *;
    cbn [same_rank]; cbn [order_by_type_rank] in Hr; f_equal.
  - by apply ints_agree.
  - destruct Hb. destruct (F64.is_nan f) eqn:En; [done|]. by apply int_float_agree.
  - destruct Ha. destruct (F64.is_nan f) eqn:En; [done|]. by rewrite memcmp_opp, int_float_agree.
  - destruct Ha, Hb. apply floats_agree; try done. by destruct (F64.is_nan f), (F64.is_nan f0).
Qed.

Lemma paths_agree ns es ns' es' : plain (VPath ns es) = true -> plain (VPath ns' es') = true ->
  Forall (fun n => Forall (fun e => agree e.2) (n_properties n)) ns -> Forall (fun e => Forall (fun e => agree e.2) (e_properties e)) es ->
  same_rank (VPath ns es) (VPath ns' es') = Some (memcmp (payload (VPath ns es)) (payload (VPath ns' es'))).
Proof.
  assert (N : forall ns, forallb (plain_node plain) ns = true -> Forall (Forall is_u8) ((fun n => 1 :: node_key n) <$> ns)).
  { intros l H%forallb_Forall. apply Forall_fmap. eapply Forall_impl; [exact H|]. intros n Hn. constructor; [done|]. apply node_keyed; [done|].
    apply entries_keyed_intro; [by apply plain_node_entries|]. apply Forall_true. intros e. apply plain_keyed. }
  assert (E : forall es, forallb (plain_edge plain) es = true -> Forall (Forall is_u8) ((fun e => 2 :: edge_key e) <$> es)).
  { intros l H%forallb_Forall. apply Forall_fmap. eapply Forall_impl; [exact H|]. intros e He. constructor; [done|]. apply edge_keyed; [done|].
    apply entries_keyed_intro; [by apply plain_edge_entries|]. apply Forall_true. intros x. apply plain_keyed. }
  cbn [plain]. rewrite !andb_true_iff. intros [Hn He] [Hn' He'] In Ie. cbn [same_rank payload].
  rewrite (cmp_seq_keys (compare_nodes compare_values) (fun n => 1 :: node_key n) (fun n => 1 :: node_key n) (plain_node plain) ns ns');
    [|apply forallb_Forall in Hn; eapply Forall_impl; [apply Forall_and; split; [exact Hn|exact In]|]; intros n [] n' Hp; by rewrite nodes_agree|done].
  rewrite (cmp_seq_keys (compare_edges compare_values) (fun e => 2 :: edge_key e) (fun e => 2 :: edge_key e) (plain_edge plain) es es');
    [|apply forallb_Forall in He; eapply Forall_impl; [apply Forall_and; split; [exact He|exact Ie]|]; intros e [] e' Hp; by rewrite edges_agree|done].
  cbn. rewrite then_with_some. f_equal. symmetry. apply ordered_whole, ordered_app; apply ordered_list; auto.
Qed.

Lemma inside_agree m : Forall (fun e => plain e.2 = true -> agree e.2) m -> plain_entries plain m = true -> Forall (fun e => agree e.2) m.
Proof. rewrite plain_entries_spec. intros H H'. eapply Forall_impl; [apply Forall_and; split; [exact H|exact H']|]. intros e [He [_ ?]]. by apply He. Qed.
Lemma lists_agree l r : Forall (fun x => plain x = true -> agree x) l -> plain (VList l) = true -> plain (VList r) = true ->
  same_rank (VList l) (VList r) = Some (memcmp (payload (VList l)) (payload (VList r))).
Proof.
  assert (K : forall l, forallb plain l = true -> Forall (Forall is_u8) (key <$> l)).
  { intros l' H%forallb_Forall. apply Forall_fmap. eapply Forall_impl; [exact H|]. intros x Hx. by apply plain_keyed. }
  cbn [plain]. intros IH Hl Hr. cbn [same_rank payload]. rewrite (cmp_seq_keys compare_values key key plain l r); [|clear Hr|done].
  - f_equal. symmetry. apply ordered_whole, ordered_list; by apply K.
  - apply forallb_Forall in Hl. eapply Forall_impl; [apply Forall_and; split; [exact IH|exact Hl]|]. intros x [Hx ?]. by apply Hx.
Qed.
Lemma map_rank m : plain (VMap m) = true -> order_by_type_rank (VMap m) = 0.
Proof. cbn [plain]. by intros [H%Z.eqb_eq _]%andb_true_iff. Qed.
(** Values of the rank of the first are of its kind. *)
Ltac other_ranks :=
  repeat match goal with H : plain (VMap _) = true |- _ => rewrite (map_rank _ H) in *; clear H end;
  cbn [order_by_type_rank] in *; repeat case_match; discriminate.

Lemma plain_agree a : plain a = true -> agree a.
Proof.
  induction a using value_ind'; intros Ha c Hc; apply agree_payload; try done; intros Hr;
    destruct c; try discriminate Hc; try (exfalso; clear -Ha Hc Hr; other_ranks); try (by apply numbers_agree).
  - done.
  - by destruct b, b0.
  - cbn [same_rank payload]. f_equal. symmetry. apply plain_text_spec in Ha as [Ha _], Hc as [Hc _]. by apply ordered_whole, ordered_stuffed.
  - cbn [same_rank payload]. f_equal. symmetry. by apply ordered_whole, ordered_stuffed; apply bytes_u8.
  - by apply lists_agree.
  - apply andb_true_iff in Ha as [_ Ha], Hc as [_ Hc]. cbn [same_rank payload]. rewrite compare_maps_keys; [|by apply (inside_agree m)|done].
    f_equal. symmetry. by apply ordered_whole, ordered_entries.
  - apply nodes_agree; [done..|]. by apply inside_agree; [|apply plain_node_entries].
  - apply edges_agree; [done..|]. by apply inside_agree; [|apply plain_edge_entries].
  - pose proof Ha as [Hn%forallb_Forall He%forallb_Forall]%andb_true_iff. apply paths_agree; [done..| |].
    + eapply Forall_impl; [apply Forall_and; split; [exact Hn|exact H]|]. intros n []. by apply inside_agree; [|apply plain_node_entries].
    + eapply Forall_impl; [apply Forall_and; split; [exact He|exact H0]|]. intros e []. by apply inside_agree; [|apply plain_edge_entries].
  - cbn [same_rank payload]. f_equal. by apply temporals_agree.
Qed.

(** C20: on plain values (machine integers, floats but the negative zero, text
    that does not read as a temporal, bytes, dates and times whose local time
    fits in 64 bits, maps that stand for no entity or temporal, nodes with
    labels of printable characters, edges, and lists and paths of such) the
    comparator answers without a panic and every value has a sort key; comparing the keys byte by byte is comparing
    the values: the batch sort and the comparator give one order. *)
Theorem sort_keys_order_as_comparator (a b : Value) : plain a = true -> plain b = true ->
  exists ka kb, encode_cypher_sort_key a = Some ka /\ encode_cypher_sort_key b = Some kb /\ compare_values a b = Some (memcmp ka kb).
Proof.
  intros Ha Hb. exists (key a), (key b). pose proof (plain_keyed a Ha) as [-> _]. pose proof (plain_keyed b Hb) as [-> _].
  split_and!; [done..|]. by apply plain_agree.
Qed.

(** The comparator is a total preorder on plain values, as a sort requires. *)
Theorem comparator_total_order a b c : plain a = true -> plain b = true -> plain c = true ->
  (exists o, compare_values a b = Some o /\ compare_values b a = Some (CompOpp o))
  /\ (compare_values a b = Some Lt -> compare_values b c = Some Lt -> compare_values a c = Some Lt)
  /\ (compare_values a b = Some Eq -> compare_values a c = compare_values b c).
Proof.
  intros Ha Hb Hc. rewrite !(plain_agree a), !(plain_agree b) by done. split_and!.
  - exists (memcmp (key a) (key b)). by rewrite (memcmp_opp (key a) (key b)).
  - intros [= H1] [= H2]. f_equal. by apply (memcmp_lt_trans _ (key b)).
  - intros [= ->%memcmp_eq]. done.
Qed.
End plain.

Module SortKeyExamples.
Local Open Scope string_scope.
(** No string reads as a temporal by itself; every day is printed as one date. *)
Lemma one_date : Forall is_ascii (str "2024-01-15").
Proof. by apply (bool_decide_unpack _); vm_compute. Qed.
#[export] Instance text : TemporalText := {
  format_date_ascii _ := one_date;
  json_wrapper _ := None;
  eval_datetime _ _ := None;
  format_date _ := str "2024-01-15";
  other_to_string _ := [];
  temporal_string_cmp _ _ _ := None;
  parse_naive_datetime _ := None;
  parse_zoned_fraction _ := None;
  parse_zoned _ := None;
  parse_naive_date _ := None;
}.
Definition knows (e : Z) (since : Value) : Edge := mkEdge e (str "KNOWS") 1 2 [(str "since", since)].
Definition route (since : Value) : Value :=
  VPath [mkNode 1 [str "Person"; str "Admin"] []; mkNode 2 [str "Person"] [(str "name", VString (str "ada"))]] [knows 5 since].
Definition row (x since : Value) : Value := VMap [(str "route", route since); (str "n", VList [VTemporal (Time 3600000000000 3600); x])].

(** 2^53 + 1 comes after the float it rounds to, inside maps, lists and paths. *)
Lemma sort_keys_order_as_comparator_witness :
  let a := row (VInt (2 ^ 53 + 1)) (VTemporal (Date 0)) in
  let b := row (VFloat (F64.of_int (2 ^ 53))) (VTemporal (Date 0)) in
  compare_values a b = Some Gt
  /\ exists ka kb, encode_cypher_sort_key a = Some ka /\ encode_cypher_sort_key b = Some kb /\ compare_values a b = Some (memcmp ka kb).
Proof.
  split; [vm_compute; reflexivity|]. apply sort_keys_order_as_comparator; vm_compute; reflexivity.
Defined.

Definition hours (n : Z) : Value := VTemporal (Duration 0 0 (n * 3600 * 1000000000)).
Definition days (n : Z) : Value := VTemporal (Duration 0 n 0).
Definition key_order (a b : Value) : option comparison := ka ← encode_cypher_sort_key a; kb ← encode_cypher_sort_key b; Some (memcmp ka kb).

(** Outside the plain values the two orders part: 48 hours come before one day
    in the comparator and after it by key, the zeros and the years of two
    intervals are told apart by key only, an entity kept in a map is compared
    as a map and keyed as a node. *)
Theorem order_by_implementations_disagree :
  (compare_values (hours 48) (days 1) = Some Lt /\ key_order (hours 48) (days 1) = Some Gt)
  /\ (compare_values (VFloat F64.SIGN) (VInt 0) = Some Eq /\ key_order (VFloat F64.SIGN) (VInt 0) = Some Lt)
  /\ (let node l v := VMap [(str "_labels", VList [VString (str l)]); (str "_vid", VInt v); (str "Age", VInt (- v))] in
      compare_values (node "A" 1) (node "A" 2) = Some Gt /\ key_order (node "A" 1) (node "A" 2) = Some Lt)
  /\ (let interval lo := VTemporal (BticValue lo (lo + 1) 0) in
      compare_values (interval 0) (interval 1) = Some Eq /\ key_order (interval 0) (interval 1) <> Some Eq).
Proof. cbv zeta. split_and!; vm_compute; done. Qed.
End SortKeyExamples.
