(* ===== verification/TrailReach.v ===== *)
(** * Endpoints of trails

    uni-query/src/query/df_graph/trail_reach.rs: which vertices a trail (no
    relationship twice) of length [min..=max] reaches, decided from shortest
    distances.  [neighbors] is a function of the vertex; the memo table of the
    code only avoids asking twice.  Loops run on fuel: a round per vertex that
    can be reached suffices ([trail_endpoints_exact]).  The outer option is
    [None] when fuel runs out or a key is missing, the inner one when distances
    do not decide. *)

From S2P Require Import Prelude.

Record TrailEndpoints := mkTrailEndpoints {
  endpoints : list (Z * Z);
  beyond_max : nat;
}.

Section trail_reach.
  Context `{HO : HashOrder} (neighbors : Z -> list (Z * Z)) (accept : Z -> bool).

(** ** Distances *)

(** [for (w, _) in neighbors_of(v)] *)
Fixpoint visit_hops (d : nat) (ws : list (Z * Z)) (dist : gmap Z nat) (queue : list Z) : gmap Z nat * list Z :=
  match ws with
  | [] => (dist, queue)
  | (w, _) :: ws =>
      match dist !! w with
      | None => visit_hops d ws (<[w := S d]> dist) (queue ++ [w])
      | Some _ => visit_hops d ws dist queue
      end
  end.
Fixpoint distances (fuel : nat) (dist : gmap Z nat) (queue : list Z) : option (gmap Z nat) :=
  match queue with
  | [] => Some dist
  | v :: queue =>
      match fuel with
      | O => None
      | S fuel =>
          d ← dist !! v;
          let '(dist, queue) := visit_hops d (neighbors v) dist queue in
          distances fuel dist queue
      end
  end.

(** [for (&v, &d) in &dist]; [d as u32] wraps. *)
Definition length_u32 (d : nat) : Z := Z.of_nat d mod 2 ^ 32.
Fixpoint sort_out (source : Z) (min max : nat) (entries : list (Z * nat)) (out : TrailEndpoints) : option TrailEndpoints :=
  match entries with
  | [] => Some out
  | (v, d) :: entries =>
      if bool_decide (v = source) || negb (accept v) then sort_out source min max entries out
      else if Nat.ltb max d then sort_out source min max entries (mkTrailEndpoints (endpoints out) (S (beyond_max out)))
      else if Nat.leb min d then sort_out source min max entries (mkTrailEndpoints (endpoints out ++ [(v, length_u32 d)]) (beyond_max out))
      else None
  end.

(** ** Closed trails *)

(** One row of the frontier: [None] when the source is found. *)
Fixpoint scan_row (source e : Z) (ys : list (Z * Z)) (seen : gset Z) (next : list Z) : option (gset Z * list Z) :=
  match ys with
  | [] => Some (seen, next)
  | (y, f) :: ys =>
      if decide (f = e) then scan_row source e ys seen next
      else if decide (y = source) then None
      else if decide (y ∈ seen) then scan_row source e ys seen next
      else scan_row source e ys ({[y]} ∪ seen) (next ++ [y])
  end.
Fixpoint scan_frontier (source e : Z) (frontier : list Z) (seen : gset Z) (next : list Z) : option (gset Z * list Z) :=
  match frontier with
  | [] => Some (seen, next)
  | x :: frontier =>
      '(seen, next) ← scan_row source e (neighbors x) seen next;
      scan_frontier source e frontier seen next
  end.
(** ['search: while !frontier.is_empty() && depth + 1 < limit]; no limit is [usize::MAX]. *)
Fixpoint search (fuel : nat) (source e : Z) (limit : option nat) (frontier : list Z) (seen : gset Z) (depth : nat) : option (option nat) :=
  match frontier with
  | [] => Some None
  | _ =>
      if match limit with Some l => Nat.ltb (S depth) l | None => true end then
        match fuel with
        | O => None
        | S fuel =>
            match scan_frontier source e frontier seen [] with
            | None => Some (Some (S (S depth)))
            | Some (seen, next) => search fuel source e limit next seen (S depth)
            end
        end
      else Some None
  end.
(** [for &(u, e) in &first_hops] *)
Fixpoint shortest_closed (fuel : nat) (source : Z) (hops : list (Z * Z)) (best : option nat) : option (option nat) :=
  match hops with
  | [] => Some best
  | (u, e) :: hops =>
      if decide (u = source) then Some (Some 1%nat)
      else if decide (best = Some 2%nat) then Some best
      else
        r ← search fuel source e (option_map pred best) [u] {[u]} 0;
        shortest_closed fuel source hops (match r with Some c => Some c | None => best end)
  end.

Definition trail_endpoints (fuel : nat) (source : Z) (min max : nat) : option (option TrailEndpoints) :=
  dist ← distances fuel {[source := 0%nat]} [source];
  match sort_out source min max (hash_order (map_to_list dist)) (mkTrailEndpoints [] 0) with
  | None => Some None
  | Some out =>
      if Nat.leb 1 min && accept source then
        best ← shortest_closed fuel source (neighbors source) None;
        Some (match best with
              | Some c =>
                  if Nat.ltb max c then Some (mkTrailEndpoints (endpoints out) (S (beyond_max out)))
                  else if Nat.leb min c then Some (mkTrailEndpoints (endpoints out ++ [(source, length_u32 c)]) (beyond_max out))
                  else None
              | None => Some out
              end)
      else Some (Some out)
  end.

(** ** Counting relationships *)

Fixpoint collect_hops (ws : list (Z * Z)) (seen edges : gset Z) (queue : list Z) : gset Z * gset Z * list Z :=
  match ws with
  | [] => (seen, edges, queue)
  | (w, e) :: ws =>
      if decide (w ∈ seen) then collect_hops ws seen ({[e]} ∪ edges) queue
      else collect_hops ws ({[w]} ∪ seen) ({[e]} ∪ edges) (queue ++ [w])
  end.
Fixpoint collect (fuel : nat) (seen edges : gset Z) (queue : list Z) : option (gset Z) :=
  match queue with
  | [] => Some edges
  | v :: queue =>
      match fuel with
      | O => None
      | S fuel =>
          let '(seen, edges, queue) := collect_hops (neighbors v) seen edges queue in
          collect fuel seen edges queue
      end
  end.
Definition reachable_relationships (fuel : nat) (source : Z) : option nat := size <$> collect fuel {[source]} ∅ [source].
End trail_reach.

(** ** Walks and trails *)

Section walks.
  Context (N : Z -> list (Z * Z)).

Inductive walk : Z -> list (Z * Z) -> Z -> Prop :=
| walk_nil v : walk v [] v
| walk_cons v w e p x : (w, e) ∈ N v -> walk w p x -> walk v ((w, e) :: p) x.

(** A relationship joins the same two vertices wherever it is listed. *)
Definition joins : Prop := forall v w e v' w', (w, e) ∈ N v -> (w', e) ∈ N v' -> v' = v \/ (v' = w /\ w' = v).
Definition trail (v : Z) (p : list (Z * Z)) (x : Z) : Prop := walk v p x /\ NoDup p.*2.
Definition shortest (v : Z) (p : list (Z * Z)) (x : Z) : Prop := walk v p x /\ forall q, walk v q x -> (length p <= length q)%nat.

Lemma walk_snoc v p x w e : walk v p x -> (w, e) ∈ N x -> walk v (p ++ [(w, e)]) w.
Proof. induction 1; intros; cbn; econstructor; eauto using walk_nil. Qed.
Lemma walk_app_inv v p q x : walk v (p ++ q) x -> exists y, walk v p y /\ walk y q x.
Proof.
  revert v. induction p as [|[w e] p IH]; intros v H; cbn in *; [exists v; split; [constructor|done]|].
  inversion H; subst. edestruct IH as (y & H1 & H2); [done|]. exists y. split; [by econstructor|done].
Qed.
Lemma walk_snoc_inv v p w e x : walk v (p ++ [(w, e)]) x -> x = w /\ exists y, walk v p y /\ (w, e) ∈ N y.
Proof. intros (y & Hp & Hq)%walk_app_inv. inversion Hq as [|? ? ? ? ? Hin Hn]; subst. inversion Hn; subst. split; [done|]. by exists y. Qed.

(** A shortest walk repeats no relationship: between two uses of one it could be cut. *)
Lemma shortest_is_trail v p x : joins -> shortest v p x -> trail v p x.
Proof.
  intros J [W M]. split; [done|]. revert v W M. induction p as [|[w e] p IH]; intros v W M; cbn; [constructor|].
  inversion W as [|? ? ? ? ? Hin Wp]; subst. constructor.
  - intros [[w' f] [-> Hf]]%list_elem_of_fmap. apply list_elem_of_split in Hf as (p2 & p3 & ->). cbn in *.
    apply walk_app_inv in Wp as (y & _ & W3). inversion W3 as [|? ? ? ? ? Hin' W4]; subst.
    destruct (J _ _ _ _ _ Hin Hin') as [->|[-> ->]].
    + specialize (M _ W3). rewrite length_app in M. cbn in M. lia.
    + specialize (M _ W4). rewrite length_app in M. cbn in M. lia.
  - apply (IH w); [done|]. intros q Hq. specialize (M ((w, e) :: q) ltac:(by econstructor)). cbn in M. lia.
Qed.
End walks.

Definition avoid (N : Z -> list (Z * Z)) (e : Z) (v : Z) : list (Z * Z) := filter (fun h => h.2 <> e) (N v).
Lemma avoid_spec N e v w f : (w, f) ∈ avoid N e v <-> (w, f) ∈ N v /\ f <> e.
Proof. unfold avoid. rewrite list_elem_of_filter. cbn. tauto. Qed.
Lemma avoid_joins N e : joins N -> joins (avoid N e).
Proof. intros J v w f v' w' [H _]%avoid_spec [H' _]%avoid_spec. by eapply J. Qed.
Lemma avoid_walk N e v p x : walk (avoid N e) v p x <-> walk N v p x /\ e ∉ p.*2.
Proof.
  split.
  - induction 1 as [|v w f p x Hin _ [IH1 IH2]]; [split; [constructor|apply not_elem_of_nil]|]. apply avoid_spec in Hin as [Hin Hne].
    split; [by econstructor|]. cbn. rewrite not_elem_of_cons. by split.
  - intros [W H]. induction W as [|v w f p x Hin _ IH]; [constructor|]. cbn in H. apply not_elem_of_cons in H as [Hne H].
    econstructor; [apply avoid_spec; by split|by apply IH].
Qed.

(** ** Breadth-first distances *)

Section distances.
  Context (N : Z -> list (Z * Z)) (V : gset Z) (source : Z).
  Hypothesis (closed : forall v w e, v ∈ V -> (w, e) ∈ N v -> w ∈ V) (Hsource : source ∈ V).

Lemma walk_inside v p x : walk N v p x -> v ∈ V -> x ∈ V.
Proof. induction 1; eauto. Qed.

(** What a row adds: the vertices it lists that had no distance. *)
Lemma visit_hops_spec d ws dist queue dist' queue' : visit_hops d ws dist queue = (dist', queue') ->
  dist ⊆ dist' /\ Forall (fun h => is_Some (dist' !! h.1)) ws
  /\ exists new, queue' = queue ++ new /\ size dist' = (size dist + length new)%nat
     /\ Forall (fun x => dist !! x = None /\ dist' !! x = Some (S d) /\ x ∈ ws.*1) new
     /\ forall x k, dist' !! x = Some k -> dist !! x = Some k \/ x ∈ new.
Proof.
  revert dist queue. induction ws as [|[w e] ws IH]; intros dist queue; cbn.
  { intros [= <- <-]. split_and!; [done|constructor|]. exists []. rewrite app_nil_r, Nat.add_0_r. split_and!; [done|done|constructor|auto]. }
  destruct (dist !! w) as [dw|] eqn:E; intros H; apply IH in H as (Hsub & Hall & new & -> & Hs & Hnew & Hinv).
  - split_and!; [done|constructor; [exists dw; by eapply lookup_weaken|done]|]. exists new. split_and!; [done|done| |done].
    eapply Forall_impl; [exact Hnew|]. intros x (?&?&?). split_and!; [done..|by right].
  - assert (Hw : dist' !! w = Some (S d)) by (eapply lookup_weaken; [|exact Hsub]; by rewrite lookup_insert_eq).
    assert (Hsub' : dist ⊆ dist') by (etransitivity; [by apply insert_subseteq|exact Hsub]).
    split_and!; [done|by constructor|]. exists (w :: new). rewrite <- app_assoc. split_and!; [done| | |].
    + rewrite Hs, map_size_insert_None by done. cbn. lia.
    + constructor; [split_and!; [done|done|by left]|]. eapply Forall_impl; [exact Hnew|]. intros x (Hx & ? & ?). cbn.
      apply lookup_insert_None in Hx as [Hx _]. split_and!; [done|done|by right].
    + intros x k Hx. destruct (Hinv x k Hx) as [Hi|Hi]; [|right; by right]. apply lookup_insert_Some in Hi as [[<- _]|[_ Hi]]; [right; by left|by left].
Qed.

Definition ascending (dist : gmap Z nat) (x y : Z) : Prop := forall dx dy, dist !! x = Some dx -> dist !! y = Some dy -> (dx <= dy)%nat.
Lemma sorted_queue dist dist' queue new d : StronglySorted (ascending dist) queue -> Forall (fun v => is_Some (dist !! v)) queue -> dist ⊆ dist' ->
  (forall x, x ∈ new -> dist' !! x = Some (S d)) -> (forall x k, dist' !! x = Some k -> (k <= S d)%nat) -> StronglySorted (ascending dist') (queue ++ new).
Proof.
  intros Ho Hq Hsub Hnew Hb. apply StronglySorted_app. split_and!.
  - intros y z Hy Hz dy dz Ey Ez. rewrite Hnew in Ez by done. simplify_eq. by eapply Hb.
  - clear Hnew Hb. induction Ho as [|y q _ IH Hy]; [constructor|]. apply Forall_cons in Hq as [[dy' Ey'] Hq]. constructor; [by apply IH|].
    apply Forall_forall. intros z Hz dy dz Ey Ez. rewrite Forall_forall in Hy, Hq. destruct (Hq z Hz) as [dz' Ez'].
    pose proof (lookup_weaken _ _ _ _ Ez' Hsub). pose proof (lookup_weaken _ _ _ _ Ey' Hsub). simplify_eq. by eapply (Hy z Hz).
  - clear -Hnew. induction new as [|y q IH]; [constructor|]. constructor; [apply IH; intros x Hx; apply Hnew; by right|].
    apply Forall_forall. intros z Hz dy dz Ey Ez. rewrite Hnew in Ey by (by left). rewrite Hnew in Ez by (by right). by simplify_eq.
Qed.
Record bfs_inv (dist : gmap Z nat) (queue : list Z) : Prop := {
  bfs_source : dist !! source = Some 0%nat;
  bfs_sound : forall v d, dist !! v = Some d -> exists p, walk N source p v /\ length p = d;
  bfs_queue : Forall (fun v => is_Some (dist !! v)) queue;
  bfs_done : forall v d w e, dist !! v = Some d -> v ∉ queue -> (w, e) ∈ N v -> exists k, dist !! w = Some k /\ (k <= S d)%nat;
  bfs_sorted : StronglySorted (ascending dist) queue;
  bfs_span : forall v q d x k, queue = v :: q -> dist !! v = Some d -> dist !! x = Some k -> (k <= S d)%nat;
}.

Lemma distances_step v queue d dist dist' queue' : bfs_inv dist (v :: queue) -> dist !! v = Some d ->
  visit_hops d (N v) dist queue = (dist', queue') -> bfs_inv dist' queue'.
Proof.
  intros [Hs Hw Hq Hd Ho Hp] Ev H. apply visit_hops_spec in H as (Hsub & Hall & new & -> & _ & Hnew & Hinv).
  assert (Hnew' : forall x, x ∈ new -> dist !! x = None /\ dist' !! x = Some (S d) /\ x ∈ (N v).*1) by by apply Forall_forall.
  assert (Hbound : forall x k, dist' !! x = Some k -> (k <= S d)%nat).
  { intros x k Hx. destruct (Hinv x k Hx) as [Hi|Hi]; [by eapply (Hp v)|]. apply Hnew' in Hi as (_ & Hi & _). simplify_eq. lia. }
  apply StronglySorted_cons in Ho as [Hv Ho]. apply Forall_cons in Hq as [_ Hq].
  assert (Hge : forall y k, y ∈ queue -> dist' !! y = Some k -> (d <= k)%nat).
  { intros y k Hy Ek. destruct (Hinv y k Ek) as [Hi|Hi].
    - rewrite Forall_forall in Hv. by eapply (Hv y Hy).
    - destruct (Hnew' y Hi) as (Hi' & _ & _). rewrite Forall_forall in Hq. destruct (Hq y Hy) as [? ?]. congruence. }
  split.
  - by eapply lookup_weaken.
  - intros x k Hx. destruct (Hinv x k Hx) as [Hi|Hi]; [by apply Hw|]. apply Hnew' in Hi as (_ & Hi & Hin). simplify_eq.
    apply list_elem_of_fmap in Hin as [[w e] [-> Hin]]. destruct (Hw v d Ev) as (p & Wp & Lp). exists (p ++ [(w, e)]).
    split; [by eapply walk_snoc|]. rewrite length_app. cbn. lia.
  - apply Forall_app. split; eapply Forall_impl; [exact Hq| |exact Hnew|]; cbn.
    + intros x [k Hx]. exists k. by eapply lookup_weaken.
    + intros x (_ & Hx & _). by eexists.
  - intros x k w e Hx Hnq Hin. apply not_elem_of_app in Hnq as [Hnq Hnn]. destruct (decide (x = v)) as [->|Hxv].
    + assert (k = d) as ->. { apply (lookup_weaken _ _ _ _ Ev) in Hsub. congruence. }
      rewrite Forall_forall in Hall. destruct (Hall _ Hin) as [kw Hkw]. exists kw. split; [done|by eapply Hbound].
    + destruct (Hinv x k Hx) as [Hi|Hi]; [|done]. destruct (Hd x k w e Hi) as (kw & Hkw & Hle); [by rewrite not_elem_of_cons|done|].
      exists kw. split; [by eapply lookup_weaken|done].
  - apply (sorted_queue dist dist' queue new d); try done. intros x Hx. apply (Hnew' x Hx).
  - intros y q dy x k E Ey Hx. apply Hbound in Hx. destruct queue as [|y' q']; cbn in E.
    + subst new. destruct (Hnew' y ltac:(by left)) as (_ & Hy & _). simplify_eq. lia.
    + injection E as -> _. specialize (Hge y dy ltac:(by left) Ey). lia.
Qed.

Lemma bfs_inside dist queue : bfs_inv dist queue -> dom dist ⊆ V.
Proof.
  intros H x Hx%elem_of_dom. destruct Hx as [d Hx]. destruct (bfs_sound _ _ H x d Hx) as (p & W & _). by eapply walk_inside.
Qed.
Lemma distances_run fuel : forall dist queue, bfs_inv dist queue -> (size V - size dist + length queue <= fuel)%nat ->
  exists dist', distances N fuel dist queue = Some dist' /\ bfs_inv dist' [].
Proof.
  induction fuel as [|fuel IH]; intros dist [|v queue] Hinv Hf; cbn [distances]; try (by exists dist); [cbn in Hf; lia|].
  pose proof (Forall_cons_1 _ _ _ (bfs_queue _ _ Hinv)) as [[d Ev] _]. rewrite Ev. cbn.
  destruct (visit_hops d (N v) dist queue) as [dist' queue'] eqn:E. pose proof (distances_step _ _ _ _ _ _ Hinv Ev E) as Hinv'.
  apply visit_hops_spec in E as (_ & _ & new & -> & Hs & _). apply IH; [done|].
  pose proof (subseteq_size _ _ (bfs_inside _ _ Hinv')) as Hle. rewrite size_dom in Hle. cbn in Hf. rewrite length_app. lia.
Qed.

(** The table holds every vertex that can be reached, with the length of a shortest walk. *)
Lemma distances_spec fuel : (size V <= fuel)%nat -> exists dist, distances N fuel {[source := 0%nat]} [source] = Some dist
  /\ (forall v d, dist !! v = Some d -> exists p, shortest N source p v /\ length p = d)
  /\ (forall p v, walk N source p v -> exists d, dist !! v = Some d /\ (d <= length p)%nat).
Proof.
  intros Hf. destruct (distances_run fuel {[source := 0%nat]} [source]) as (dist & E & H).
  - split.
    + apply lookup_singleton_eq.
    + intros v d [<- <-]%lookup_singleton_Some. exists []. split; [constructor|done].
    + constructor; [|constructor]. rewrite lookup_singleton_eq. by eexists.
    + intros v d w e [<- _]%lookup_singleton_Some Hn. exfalso. apply Hn. by left.
    + repeat constructor.
    + intros v q d x k _ _ [<- <-]%lookup_singleton_Some. lia.
  - rewrite map_size_singleton. cbn. assert (size V <> 0)%nat by (rewrite size_non_empty_iff; set_solver). lia.
  - exists dist. split; [done|].
    assert (Hb : forall p v, walk N source p v -> exists d, dist !! v = Some d /\ (d <= length p)%nat).
    { intros p. induction p as [|[w e] p IH] using rev_ind; intros v W.
      - inversion W; subst. exists 0%nat. split; [apply H|done].
      - apply walk_snoc_inv in W as (-> & y & Wy & Hin). destruct (IH y Wy) as (d & Hd & Hl).
        destruct (bfs_done _ _ H y d w e Hd (not_elem_of_nil _) Hin) as (k & Hk & Hkd). exists k. split; [done|]. rewrite length_app. cbn. lia. }
    split; [|done]. intros v d Hd. destruct (bfs_sound _ _ H v d Hd) as (p & W & L). exists p. split; [split; [done|]|done].
    intros q Wq. destruct (Hb q v Wq) as (k & Hk & Hle). simplify_eq. lia.
Qed.
End distances.

(** ** Closed trails *)

Section closed_trails.
  Context (N : Z -> list (Z * Z)) (V : gset Z) (source : Z).
  Hypothesis (closed : forall v w e, v ∈ V -> (w, e) ∈ N v -> w ∈ V).

(** What a scan adds: the unseen targets, or it meets the source. *)
Definition scanned (e : Z) (hops : list (Z * Z)) (seen : gset Z) (next : list Z) (r : option (gset Z * list Z)) : Prop :=
  match r with
  | None => exists f, (source, f) ∈ hops /\ f <> e
  | Some (seen', next') =>
      (forall y f, (y, f) ∈ hops -> f <> e -> y <> source /\ y ∈ seen')
      /\ exists new, next' = next ++ new /\ seen' = list_to_set new ∪ seen /\ size seen' = (size seen + length new)%nat
         /\ forall y, y ∈ new -> y <> source /\ exists f, (y, f) ∈ hops /\ f <> e
  end.
Lemma scanned_nil e seen next : scanned e [] seen next (Some (seen, next)).
Proof.
  split; [by intros y f ?%not_elem_of_nil|]. exists []. rewrite app_nil_r, Nat.add_0_r. split_and!; [done|set_solver|done|by intros y ?%not_elem_of_nil].
Qed.
Lemma scanned_app e hops hops' seen next seen1 next1 r : scanned e hops seen next (Some (seen1, next1)) -> scanned e hops' seen1 next1 r ->
  scanned e (hops ++ hops') seen next r.
Proof.
  intros (A & new & -> & -> & Hs & B). destruct r as [[seen' next']|]; cbn.
  - intros (A' & new' & -> & -> & Hs' & B'). split.
    + intros y f [H|H]%elem_of_app Hf; [|by apply (A' y f)]. destruct (A y f H Hf). split; [done|set_solver].
    + exists (new ++ new'). rewrite <- app_assoc. split_and!; [done|set_solver|rewrite length_app; lia|].
      intros y [H|H]%elem_of_app; [destruct (B y H) as (? & f & ? & ?)|destruct (B' y H) as (? & f & ? & ?)]; (split; [done|]); exists f; set_solver.
  - intros (f & H & Hf). exists f. set_solver.
Qed.
Lemma scan_row_spec e ys seen next : scanned e ys seen next (scan_row source e ys seen next).
Proof.
  revert seen next. induction ys as [|[y f] ys IH]; intros seen next; cbn [scan_row]; [apply scanned_nil|].
  change ((y, f) :: ys) with ([(y, f)] ++ ys). destruct (decide (f = e)) as [->|Hf]; [|destruct (decide (y = source)) as [->|Hy]; [|destruct (decide (y ∈ seen))]].
  - eapply scanned_app; [|apply IH]. split; [by intros y' f' [= -> ->]%list_elem_of_singleton ?|].
    exists []. rewrite app_nil_r, Nat.add_0_r. split_and!; [done|set_solver|done|by intros y' ?%not_elem_of_nil].
  - exists f. split; [by left|done].
  - eapply scanned_app; [|apply IH]. split; [by intros y' f' [= -> ->]%list_elem_of_singleton ?|].
    exists []. rewrite app_nil_r, Nat.add_0_r. split_and!; [done|set_solver|done|by intros y' ?%not_elem_of_nil].
  - eapply scanned_app; [|apply IH]. split; [intros y' f' [= -> ->]%list_elem_of_singleton ?; split; [done|set_solver]|].
    exists [y]. split_and!; [done|set_solver|rewrite size_union, size_singleton by set_solver; cbn; lia|].
    intros y' ->%list_elem_of_singleton. split; [done|]. exists f. split; [by left|done].
Qed.
Lemma scan_frontier_spec e frontier seen next : scanned e (mjoin (N <$> frontier)) seen next (scan_frontier N source e frontier seen next).
Proof.
  revert seen next. induction frontier as [|x frontier IH]; intros seen next; cbn [scan_frontier fmap list_fmap mjoin list_join]; [apply scanned_nil|].
  pose proof (scan_row_spec e (N x) seen next) as H. destruct (scan_row source e (N x) seen next) as [[seen1 next1]|]; cbn.
  - eapply scanned_app; [exact H|apply IH].
  - destruct H as (f & H & Hf). exists f. set_solver.
Qed.
Lemma elem_of_rows y f frontier : (y, f) ∈ mjoin (N <$> frontier) <-> exists x, x ∈ frontier /\ (y, f) ∈ N x.
Proof.
  rewrite list_elem_of_join. split.
  - intros (l & H & [x [-> Hx]]%list_elem_of_fmap). by exists x.
  - intros (x & Hx & H). exists (N x). split; [done|]. apply list_elem_of_fmap. by exists x.
Qed.

Record layers (e u : Z) (frontier : list Z) (seen : gset Z) (depth : nat) : Prop := {
  ly_walk : forall x, x ∈ frontier -> exists p, walk (avoid N e) u p x /\ length p = depth;
  ly_within : forall p x, walk (avoid N e) u p x -> (length p <= depth)%nat -> x ∈ seen;
  ly_closed : forall x y f, x ∈ seen -> x ∉ frontier -> (y, f) ∈ avoid N e x -> y ∈ seen;
  ly_source : source ∉ seen;
  ly_frontier : forall x, x ∈ frontier -> x ∈ seen;
  ly_inside : seen ⊆ V;
}.
Lemma layers_beyond e u frontier seen depth p : layers e u frontier seen depth -> walk (avoid N e) u p source -> (depth < length p)%nat.
Proof.
  intros L W. destruct (Nat.le_gt_cases (length p) depth) as [Hle|]; [|done]. exfalso. apply (ly_source _ _ _ _ _ L). by eapply ly_within.
Qed.
Lemma layers_step e u frontier seen depth seen' next : layers e u frontier seen depth ->
  scan_frontier N source e frontier seen [] = Some (seen', next) -> layers e u next seen' (S depth) /\ size seen' = (size seen + length next)%nat.
Proof.
  intros L E. pose proof (scan_frontier_spec e frontier seen []) as H. rewrite E in H. destruct H as (A & new & -> & -> & Hs & B). cbn.
  assert (Hrow : forall x y f, x ∈ frontier -> (y, f) ∈ avoid N e x -> y ∈ (list_to_set new : gset Z) ∪ seen).
  { intros x y f Hx [Hin Hf]%avoid_spec. apply (A y f); [|done]. apply elem_of_rows. by exists x. }
  assert (Hall : forall x y f, x ∈ seen -> (y, f) ∈ avoid N e x -> y ∈ (list_to_set new : gset Z) ∪ seen).
  { intros x y f Hx Hin. destruct (decide (x ∈ frontier)); [by eapply Hrow|]. apply elem_of_union_r. by eapply ly_closed. }
  split; [|done]. split.
  - intros x Hx. destruct (B x Hx) as (_ & f & Hin & Hf). apply elem_of_rows in Hin as (z & Hz & Hin).
    destruct (ly_walk _ _ _ _ _ L z Hz) as (p & W & <-). exists (p ++ [(x, f)]). split; [|rewrite length_app; cbn; lia].
    eapply walk_snoc; [exact W|]. by apply avoid_spec.
  - intros p. destruct p as [|[w f] p _] using rev_ind; intros x W Hl.
    + inversion W; subst. apply elem_of_union_r. by apply (ly_within _ _ _ _ _ L [] x); [|cbn; lia].
    + apply walk_snoc_inv in W as (-> & z & W & Hin). rewrite length_app in Hl. cbn in Hl. eapply Hall; [|exact Hin].
      apply (ly_within _ _ _ _ _ L p z); [done|lia].
  - intros x y f Hx Hn Hin. apply elem_of_union in Hx as [Hx|Hx]; [by rewrite elem_of_list_to_set in Hx|]. by eapply Hall.
  - intros [Hx|Hx]%elem_of_union; [|by apply (ly_source _ _ _ _ _ L)]. apply elem_of_list_to_set in Hx. by apply B in Hx as [].
  - intros x Hx. apply elem_of_union_l. by apply elem_of_list_to_set.
  - apply union_subseteq. split; [|apply L]. intros x Hx%elem_of_list_to_set. destruct (B x Hx) as (_ & f & Hin & _).
    apply elem_of_rows in Hin as (z & Hz & Hin). eapply closed; [|exact Hin]. by apply (ly_inside _ _ _ _ _ L), (ly_frontier _ _ _ _ _ L).
Qed.

(** Nothing left to explore: the source cannot be reached. *)
Lemma layers_end e u seen depth p : layers e u [] seen depth -> ~ walk (avoid N e) u p source.
Proof.
  intros L W. apply (ly_source _ _ _ _ _ L). assert (H : forall q y, walk (avoid N e) u q y -> y ∈ seen); [|by eapply H].
  intros q. induction q as [|[w f] q IH] using rev_ind; intros y Wq.
  - apply (ly_within _ _ _ _ _ L [] y Wq). cbn. lia.
  - apply walk_snoc_inv in Wq as (-> & z & Wz & Hz). eapply (ly_closed _ _ _ _ _ L z w f); [by apply IH|apply not_elem_of_nil|done].
Qed.
(** The result of a search for the way back from [u] without [e]. *)
Definition way_back (e u : Z) (limit r : option nat) : Prop :=
  match r with
  | Some c => (exists p, shortest (avoid N e) u p source /\ c = S (length p)) /\ (forall l, limit = Some l -> (c <= l)%nat)
  | None => forall p, walk (avoid N e) u p source -> exists l, limit = Some l /\ (l <= length p)%nat
  end.
Lemma search_spec e u limit fuel : forall frontier seen depth, layers e u frontier seen depth -> (size V - size seen < fuel)%nat ->
  exists r, search N fuel source e limit frontier seen depth = Some r /\ way_back e u limit r.
Proof.
  induction fuel as [|fuel IH]; intros frontier seen depth L Hf; [lia|]. cbn [search]. destruct frontier as [|x0 frontier]; [|set (fr := x0 :: frontier) in *].
  { exists None. split; [done|]. intros p W. by destruct (layers_end _ _ _ _ _ L W). }
  destruct (match limit with Some l => Nat.ltb (S depth) l | None => true end) eqn:El.
  - destruct (scan_frontier N source e fr seen []) as [[seen' next]|] eqn:Es.
    + destruct (layers_step _ _ _ _ _ _ _ L Es) as [L' Hs]. destruct next as [|y next]; [|apply IH; [done|]].
      * destruct fuel; (exists None; split; [done|]); intros p W; by destruct (layers_end _ _ _ _ _ L' W).
      * pose proof (subseteq_size _ _ (ly_inside _ _ _ _ _ L')). cbn in Hs. lia.
    + exists (Some (S (S depth))). split; [done|]. pose proof (scan_frontier_spec e fr seen []) as H. rewrite Es in H. destruct H as (f & Hin & Hf').
      apply elem_of_rows in Hin as (z & Hz & Hin). destruct (ly_walk _ _ _ _ _ L z Hz) as (p & W & Lp). split.
      * exists (p ++ [(source, f)]). split; [split|rewrite length_app; cbn; lia].
        -- eapply walk_snoc; [exact W|]. by apply avoid_spec.
        -- intros q Wq. pose proof (layers_beyond _ _ _ _ _ _ L Wq). rewrite length_app. cbn. lia.
      * intros l ->. apply Nat.ltb_lt in El. lia.
  - exists None. split; [done|]. intros p W. pose proof (layers_beyond _ _ _ _ _ _ L W). destruct limit as [l|]; [|done].
    apply Nat.ltb_ge in El. exists l. split; [done|lia].
Qed.
Lemma layers_start e u : u ∈ V -> u <> source -> layers e u [u] {[u]} 0.
Proof.
  intros Hu Hne. split.
  - intros x ->%list_elem_of_singleton. exists []. split; [constructor|done].
  - intros [|] x W Hl; [|cbn in Hl; lia]. inversion W; subst. set_solver.
  - intros x y f ->%elem_of_singleton Hn. exfalso. apply Hn. by left.
  - set_solver.
  - intros x ->%list_elem_of_singleton. set_solver.
  - set_solver.
Qed.

(** A length found by the loop is that of a closed walk along some first hop
    and a shortest way back; no way back is shorter, except that the loop may
    stop at two before it meets a self-loop. *)
Lemma shortest_closed_spec fuel hops best : (size V <= fuel)%nat -> (forall b, best = Some b -> (2 <= b)%nat) -> Forall (fun h => h.1 ∈ V) hops ->
  exists r, shortest_closed N fuel source hops best = Some r
  /\ (forall c, r = Some c -> best = Some c \/ exists u e p, (u, e) ∈ hops /\ shortest (avoid N e) u p source /\ c = S (length p))
  /\ (forall b, best = Some b -> exists c, r = Some c /\ (c <= b)%nat)
  /\ (forall u e p, (u, e) ∈ hops -> walk (avoid N e) u p source -> exists c, r = Some c /\ (c <= Nat.max 2 (S (length p)))%nat).
Proof.
  intros Hf. revert best. induction hops as [|[u e] hops IH]; intros best Hb Hin; cbn [shortest_closed].
  { exists best. split_and!; [done|auto|eauto|by intros u e p ?%not_elem_of_nil]. }
  apply Forall_cons in Hin as [Hu Hin]. cbn in Hu. case_decide as Eu; [subst u|case_decide as E2].
  - exists (Some 1%nat). split_and!; [done| |intros b Eb; exists 1%nat; split; [done|specialize (Hb b Eb); lia]|intros u e' p _ _; exists 1%nat; split; [done|lia]].
    intros c [= <-]. right. exists source, e, []. split; [by left|]. split; [split; [constructor|intros; cbn; lia]|done].
  - exists best. rewrite E2. split_and!; [done|auto|intros b [= <-]; eauto|intros u' e' p _ _; exists 2%nat; split; [done|lia]].
  - destruct (search_spec e u (option_map pred best) fuel [u] {[u]} 0) as (r & -> & Hr).
    { by apply layers_start. }
    { rewrite size_singleton. assert (size V <> 0)%nat by (rewrite size_non_empty_iff; set_solver). lia. }
    cbn [mbind option_bind]. set (best' := match r with Some c => Some c | None => best end).
    assert (Hmono : forall b, best = Some b -> exists b', best' = Some b' /\ (b' <= b)%nat).
    { intros b Eb. subst best'. destruct r as [c|]; [|by eauto]. exists c. split; [done|]. destruct Hr as [_ Hr]. rewrite Eb in Hr. specialize (Hr _ eq_refl). lia. }
    destruct (IH best') as (r' & -> & S1 & S2 & S3); [|done|].
    { subst best'. destruct r as [c|]; [|done]. destruct Hr as [(p & [W _] & ->) _]. intros b [= <-]. destruct p; [inversion W; subst; done|cbn; lia]. }
    exists r'. split_and!; [done| | |].
    + intros c Ec. destruct (S1 c Ec) as [Ebest|(u' & e' & p & Hh & Hp)]; [|right; exists u', e', p; split; [by right|done]].
      subst best'. destruct r as [c'|]; [|by left]. simplify_eq. destruct Hr as [(p & Hp & ->) _]. right. exists u, e, p. split; [by left|done].
    + intros b Eb. destruct (Hmono b Eb) as (b' & Eb' & Hle). destruct (S2 b' Eb') as (c & Ec & Hc). exists c. split; [done|lia].
    + intros u' e' p [[= -> ->]|Hh]%elem_of_cons W; [|by eapply S3]. assert (exists b', best' = Some b' /\ (b' <= S (length p))%nat) as (b' & Eb' & Hle).
      { subst best'. destruct r as [c|]; [destruct Hr as [(q & [_ M] & ->) _]; specialize (M p W); eexists; split; [done|lia]|].
        destruct (Hr p W) as (l & El & Hl). destruct best as [b|]; [|done]. cbn in El. simplify_eq. exists b. split; [done|lia]. }
      destruct (S2 b' Eb') as (c & Ec & Hc). exists c. split; [done|lia].
Qed.
End closed_trails.

(** ** The endpoints *)

Lemma entries_snoc (v x k : Z) l : (exists k', (v, k') ∈ l ++ [(x, k)]) <-> (exists k', (v, k') ∈ l) \/ v = x.
Proof.
  split.
  - intros (k' & [H|[= -> _]%list_elem_of_singleton]%elem_of_app); [left; by exists k'|by right].
  - intros [(k' & H)| ->]; [exists k'|exists k]; apply elem_of_app; [by left|right; by apply list_elem_of_singleton].
Qed.
Lemma sort_out_spec accept source min max es : forall out,
  match sort_out accept source min max es out with
  | Some out' =>
      (forall v d, (v, d) ∈ es -> v <> source -> accept v = true -> (d <= max)%nat -> (min <= d)%nat)
      /\ forall v, (exists k, (v, k) ∈ endpoints out') <->
          (exists k, (v, k) ∈ endpoints out) \/ (v <> source /\ accept v = true /\ exists d, (v, d) ∈ es /\ (min <= d <= max)%nat)
  | None => exists v d, (v, d) ∈ es /\ v <> source /\ accept v = true /\ (d < min)%nat
  end.
Proof.
  induction es as [|[v d] es IH]; intros out; cbn [sort_out].
  { split; [by intros v d ?%not_elem_of_nil|]. intros v. split; [by left|]. intros [H|(_ & _ & d & H%not_elem_of_nil & _)]; done. }
  destruct (bool_decide (v = source) || negb (accept v)) eqn:Eskip.
  - specialize (IH out). destruct (sort_out accept source min max es out) as [out'|].
    + destruct IH as [I1 I2]. apply orb_true_iff in Eskip. rewrite bool_decide_eq_true, negb_true_iff in Eskip. split.
      * intros v' d' [[= -> ->]|H]%elem_of_cons; [intuition congruence|by apply I1].
      * intros v'. rewrite I2. split; (intros [H|(Hne & Ha & d' & Hin & Hr)]; [by left|right; split; [done|split; [done|]]; exists d'; split; [|done]]).
        -- by right.
        -- apply elem_of_cons in Hin as [[= -> ->]|Hin]; [intuition congruence|done].
    + destruct IH as (v' & d' & H & ?). exists v', d'. split; [by right|done].
  - apply orb_false_iff in Eskip as [Hne%bool_decide_eq_false Ha%negb_false_iff].
    destruct (Nat.ltb_spec max d) as [Hmax|Hmax]; [|destruct (Nat.leb_spec min d) as [Hmin|Hmin]].
    + specialize (IH (mkTrailEndpoints (endpoints out) (S (beyond_max out)))). destruct (sort_out accept source min max es _) as [out'|].
      * destruct IH as [I1 I2]. split; [intros v' d' [[= -> ->]|H]%elem_of_cons; [lia|by apply I1]|].
        intros v'. rewrite I2. split; (intros [H|(Hne' & Ha' & d' & Hin & Hr)]; [by left|right; split; [done|split; [done|]]; exists d'; split; [|done]]).
        -- by right.
        -- apply elem_of_cons in Hin as [[= -> ->]|Hin]; [lia|done].
      * destruct IH as (v' & d' & H & ?). exists v', d'. split; [by right|done].
    + specialize (IH (mkTrailEndpoints (endpoints out ++ [(v, length_u32 d)]) (beyond_max out))). destruct (sort_out accept source min max es _) as [out'|].
      * destruct IH as [I1 I2]. split; [intros v' d' [[= -> ->]|H]%elem_of_cons; [done|by apply I1]|].
        intros v'. rewrite I2. cbn. rewrite entries_snoc. split.
        -- intros [[H| ->]|(Hne' & Ha' & d' & Hin & Hr)]; [by left|right..]; split_and!; try done; [exists d|exists d']; (split; [|done]); [by left|by right].
        -- intros [H|(Hne' & Ha' & d' & [[= -> ->]|Hin]%elem_of_cons & Hr)]; [left; by left|left; by right|right]. split_and!; try done. by exists d'.
      * destruct IH as (v' & d' & H & ?). exists v', d'. split; [by right|done].
    + exists v, d. split; [by left|done].
Qed.

Section exact.
  Context `{HO : HashOrder} (N : Z -> list (Z * Z)) (accept : Z -> bool) (V : gset Z) (source : Z).
  Hypothesis (J : joins N) (closed : forall v w e, v ∈ V -> (w, e) ∈ N v -> w ∈ V) (Hsource : source ∈ V).

(** A first hop and a shortest way back without it are a closed trail. *)
Lemma closed_trail u e p : (u, e) ∈ N source -> shortest (avoid N e) u p source -> trail N source ((u, e) :: p) source.
Proof.
  intros Hin Hp. pose proof (shortest_is_trail _ _ _ _ (avoid_joins N e J) Hp) as [W Hd]. apply avoid_walk in W as [W He].
  split; [by econstructor|]. by constructor.
Qed.
Lemma trail_splits p : trail N source p source -> p <> [] -> exists u e q, p = (u, e) :: q /\ (u, e) ∈ N source /\ walk (avoid N e) u q source.
Proof.
  intros [W Hd] Hp. inversion W as [|? u e q ? Hin Wq]; subst; [done|]. exists u, e, q. split; [done|]. split; [done|].
  apply avoid_walk. split; [done|]. by inversion Hd.
Qed.
Definition decided_trail (min max : nat) (v : Z) : Prop :=
  exists p, trail N source p v /\ p <> [] /\ (min <= length p <= max)%nat.

Lemma other_endpoints min max dist out v : (forall v d, dist !! v = Some d -> exists p, shortest N source p v /\ length p = d) ->
  (forall p v, walk N source p v -> exists d, dist !! v = Some d /\ (d <= length p)%nat) ->
  sort_out accept source min max (hash_order (map_to_list dist)) (mkTrailEndpoints [] 0) = Some out ->
  (exists k, (v, k) ∈ endpoints out) <-> v <> source /\ accept v = true /\ decided_trail min max v.
Proof.
  intros Hd Hb E. pose proof (sort_out_spec accept source min max (hash_order (map_to_list dist)) (mkTrailEndpoints [] 0)) as H. rewrite E in H.
  destruct H as [I1 I2]. rewrite I2. cbn.
  assert (He : forall v d, (v, d) ∈ hash_order (map_to_list dist) <-> dist !! v = Some d) by (intros; by rewrite hash_order_perm, elem_of_map_to_list).
  split.
  - intros [(k & H%not_elem_of_nil)|(Hne & Ha & d & Hin & Hr)]; [done|]. split; [done|]. split; [done|]. apply He, Hd in Hin as (p & Hp & <-).
    exists p. split; [by apply shortest_is_trail|]. split; [|done]. intros ->. destruct Hp as [W _]. by inversion W.
  - intros (Hne & Ha & p & [W _] & _ & Hr). right. split; [done|]. split; [done|].
    destruct (Hb p v W) as (d & Ed & Hle).
    exists d. split; [by apply He|]. split; [|lia]. eapply I1; [by apply He|done|done|lia].
Qed.

(** The source as its own endpoint. *)
Lemma source_endpoint min max out r : (1 <= min)%nat -> accept source = true -> (2 <= max)%nat \/ (forall e, (source, e) ∉ N source) ->
  (forall v, (exists k, (v, k) ∈ endpoints out) <-> v <> source /\ accept v = true /\ decided_trail min max v) ->
  (forall c, r = Some c -> exists u e p, (u, e) ∈ N source /\ shortest (avoid N e) u p source /\ c = S (length p)) ->
  (forall u e p, (u, e) ∈ N source -> walk (avoid N e) u p source -> exists c, r = Some c /\ (c <= Nat.max 2 (S (length p)))%nat) ->
  exists r', Some (match r with
                   | Some c =>
                       if Nat.ltb max c then Some (mkTrailEndpoints (endpoints out) (S (beyond_max out)))
                       else if Nat.leb min c then Some (mkTrailEndpoints (endpoints out ++ [(source, length_u32 c)]) (beyond_max out))
                       else None
                   | None => Some out
                   end) = Some r' /\
  match r' with
  | Some out => forall v, (exists k, (v, k) ∈ endpoints out) <-> accept v = true /\ (v = source -> (1 <= min)%nat) /\ decided_trail min max v
  | None => exists v p, accept v = true /\ trail N source p v /\ p <> [] /\ (length p < min)%nat
  end.
Proof.
  intros Hmin Ha Hloop Ho S1 S3. eexists. split; [done|].
  assert (Hc : decided_trail min max source -> exists c, r = Some c /\ (c <= max)%nat).
  { intros (p & T & Hp & Hr). destruct (trail_splits p T Hp) as (u & e & q & -> & Hin & W). destruct (S3 u e q Hin W) as (c & Ec & Hle). exists c. split; [done|].
    cbn in Hr. destruct q as [|h q]; [|cbn in Hle, Hr; lia]. inversion W; subst. destruct Hloop as [H2|H0]; [cbn in Hle; lia|by destruct (H0 e)]. }
  assert (Hs : forall c, r = Some c -> exists p, trail N source p source /\ p <> [] /\ length p = c).
  { intros c Ec. destruct (S1 c Ec) as (u & e & p & Hin & Hp & ->). exists ((u, e) :: p). split; [by apply closed_trail|]. done. }
  assert (Hiff : forall out', (forall v, (exists k, (v, k) ∈ endpoints out') <-> (exists k, (v, k) ∈ endpoints out) \/ (v = source /\ decided_trail min max source)) ->
    forall v, (exists k, (v, k) ∈ endpoints out') <-> accept v = true /\ (v = source -> (1 <= min)%nat) /\ decided_trail min max v).
  { intros out' H v. rewrite H, Ho. destruct (decide (v = source)) as [->|Hne].
    - split; [intros [(? & _)|[_ ?]]; done|]. intros (_ & _ & ?). by right.
    - split; [intros [(_ & ? & ?)|[? _]]; done|]. intros (? & _ & ?). by left. }
  destruct r as [c|]; [|apply Hiff; intros v; split; [by left|intros [?|[_ H]]; [done|destruct (Hc H) as (? & ? & _); done]]].
  destruct (Hs c eq_refl) as (p & T & Hp & Lp). destruct (Nat.ltb_spec max c) as [Hlt|Hle]; [|destruct (Nat.leb_spec min c) as [Hge|Hlt]].
  - apply Hiff. intros v. cbn. split; [by left|]. intros [?|[_ H]]; [done|]. destruct (Hc H) as (c' & [= <-] & ?). lia.
  - apply Hiff. intros v. cbn. assert (D : decided_trail min max source) by (exists p; split_and!; [done|done|lia|lia]).
    rewrite entries_snoc. split; (intros [H|H]; [by left|right]); [by subst|by destruct H].
  - exists source, p. split_and!; [done|done|done|lia].
Qed.

Lemma trail_endpoints_decided (fuel min max : nat) : (size V <= fuel)%nat -> (2 <= max)%nat \/ (forall e, (source, e) ∉ N source) ->
  exists r, trail_endpoints N accept fuel source min max = Some r /\
  match r with
  | Some out => forall v, (exists k, (v, k) ∈ endpoints out) <-> accept v = true /\ (v = source -> (1 <= min)%nat) /\ decided_trail min max v
  | None => exists v p, accept v = true /\ trail N source p v /\ p <> [] /\ (length p < min)%nat
  end.
Proof.
  intros Hf Hloop. unfold trail_endpoints. destruct (distances_spec N V source closed Hsource fuel Hf) as (dist & -> & Hd & Hb). cbn [mbind option_bind].
  destruct (sort_out accept source min max _ _) as [out|] eqn:E.
  2: { exists None. split; [done|]. pose proof (sort_out_spec accept source min max (hash_order (map_to_list dist)) (mkTrailEndpoints [] 0)) as H. rewrite E in H.
       destruct H as (v & d & Hin & Hne & Ha & Hlt). rewrite hash_order_perm, elem_of_map_to_list in Hin. destruct (Hd v d Hin) as (p & Hp & <-).
       exists v, p. split; [done|]. split; [by apply shortest_is_trail|]. split; [|done]. intros ->. destruct Hp as [W _]. by inversion W. }
  pose proof (fun v => other_endpoints min max dist out v Hd Hb E) as Ho.
  destruct (Nat.leb_spec 1 min) as [Hmin|Hmin]; cbn [andb].
  2: { eexists. split; [done|]. intros v. rewrite Ho. split; intros (? & Hs & ?); split_and!; try done. intros ->. specialize (Hs eq_refl). lia. }
  destruct (accept source) eqn:Ea.
  2: { eexists. split; [done|]. intros v. rewrite Ho. split; intros (? & ? & ?); split_and!; try done. intros ->. congruence. }
  destruct (shortest_closed_spec N V source closed fuel (N source) None Hf) as (r & -> & S1 & _ & S3); [done|apply Forall_forall; intros [w e] Hin; by eapply closed|].
  cbn [mbind option_bind]. apply (source_endpoint min max out r); try done.
  intros c Ec. destruct (S1 c Ec) as [|(u & e & p & H)]; [done|by exists u, e, p].
Qed.

(** C19: where shortest distances decide, the endpoints are exactly the accepted
    vertices that some trail of a length in the range joins to the source, for
    a range that allows two hops or a source without self-loops, and with the
    source itself left to the caller when the range starts at zero; the answer
    is withheld only when an accepted vertex has a trail shorter than the
    range.  As many rounds as there are vertices suffice. *)
Theorem trail_endpoints_exact (fuel min max : nat) : (size V <= fuel)%nat -> (2 <= max)%nat \/ (forall e, (source, e) ∉ N source) ->
  exists r, trail_endpoints N accept fuel source min max = Some r /\
  match r with
  | Some out => forall v, (exists k, (v, k) ∈ endpoints out) <-> accept v = true /\ (v = source -> (1 <= min)%nat) /\ decided_trail min max v
  | None => exists v p, accept v = true /\ trail N source p v /\ p <> [] /\ (length p < min)%nat
  end.
Proof. apply trail_endpoints_decided. Qed.
End exact.

(** ** The bound on trails *)

Section bound.
  Context (N : Z -> list (Z * Z)) (V : gset Z) (source : Z).
  Hypothesis (closed : forall v w e, v ∈ V -> (w, e) ∈ N v -> w ∈ V) (Hsource : source ∈ V).

Lemma collect_hops_spec ws seen edges queue seen' edges' queue' : collect_hops ws seen edges queue = (seen', edges', queue') ->
  edges' = list_to_set ws.*2 ∪ edges
  /\ exists new, queue' = queue ++ new /\ seen' = list_to_set new ∪ seen /\ size seen' = (size seen + length new)%nat
     /\ (forall w, w ∈ ws.*1 -> w ∈ seen') /\ (forall w, w ∈ new -> w ∈ ws.*1).
Proof.
  revert seen edges queue. induction ws as [|[w e] ws IH]; intros seen edges queue; cbn.
  { intros [= <- <- <-]. split; [set_solver|]. exists []. rewrite app_nil_r, Nat.add_0_r. split_and!; [done|set_solver|done|by intros ? ?%not_elem_of_nil..]. }
  case_decide as Hw; intros H; apply IH in H as (-> & new & -> & -> & Hs & H1 & H2); (split; [clear; set_solver|]).
  - exists new. split_and!; [done|done|done| |intros x Hx; right; by apply H2].
    intros x [->|Hx]%elem_of_cons; [by apply elem_of_union_r|by apply H1].
  - assert (Eq : list_to_set (w :: new) ∪ seen = list_to_set new ∪ ({[w]} ∪ seen)) by (clear; set_solver).
    assert (Sz : size ({[w]} ∪ seen) = S (size seen)) by (rewrite size_union by (clear -Hw; set_solver); by rewrite size_singleton).
    exists (w :: new). rewrite <- app_assoc, Eq.
    split_and!; [done|done|cbn; lia| |intros x [->|Hx]%elem_of_cons; [by left|right; by apply H2]].
    intros x [->|Hx]%elem_of_cons; [clear; set_solver|by apply H1].
Qed.
Lemma collect_run fuel : forall seen edges queue,
  source ∈ seen -> seen ⊆ V -> (forall x, x ∈ queue -> x ∈ seen) ->
  (forall x w e, x ∈ seen -> x ∉ queue -> (w, e) ∈ N x -> w ∈ seen /\ e ∈ edges) -> (size V - size seen + length queue <= fuel)%nat ->
  exists edges', collect N fuel seen edges queue = Some edges' /\ exists seen' : gset Z, source ∈ seen' /\ forall x w e, x ∈ seen' -> (w, e) ∈ N x -> w ∈ seen' /\ e ∈ edges'.
Proof.
  induction fuel as [|fuel IH]; intros seen edges [|v queue] Hs Hv Hq Hd Hf; cbn [collect]; try (cbn in Hf; lia).
  1, 2: exists edges; (split; [done|]); exists seen; (split; [done|]); intros x w e Hx; apply Hd; [done|apply not_elem_of_nil].
  destruct (collect_hops (N v) seen edges queue) as [[seen' edges'] queue'] eqn:E. apply collect_hops_spec in E as (-> & new & -> & -> & Hsz & H1 & H2).
  assert (Hin : forall w, w ∈ new -> w ∈ V).
  { intros w Hw. apply H2, list_elem_of_fmap in Hw as [[w' e] [-> Hw]]. eapply closed; [|exact Hw]. apply Hv, Hq. by left. }
  assert (Hsub : list_to_set new ∪ seen ⊆ V) by set_solver. pose proof (subseteq_size _ _ Hsub) as Hle. apply IH; [set_solver|done|set_solver| |].
  - intros x w e Hx Hn Hxe. apply not_elem_of_app in Hn as [Hn Hnn]. destruct (decide (x = v)) as [->|Hxv].
    + split; [apply H1|apply elem_of_union_l, elem_of_list_to_set]; apply list_elem_of_fmap; by exists (w, e).
    + destruct (Hd x w e) as [? ?]; [set_solver|by rewrite not_elem_of_cons|done|]. set_solver.
  - cbn in Hf. rewrite length_app. lia.
Qed.

(** No trail from the source is longer than the count. *)
Theorem reachable_relationships_bound fuel : (size V <= fuel)%nat ->
  exists n, reachable_relationships N fuel source = Some n /\ forall p v, trail N source p v -> (length p <= n)%nat.
Proof.
  intros Hf. unfold reachable_relationships. destruct (collect_run fuel {[source]} ∅ [source]) as (edges & -> & seen & Hs & Hc).
  - set_solver.
  - set_solver.
  - set_solver.
  - intros x w e ->%elem_of_singleton Hn. exfalso. apply Hn. by left.
  - rewrite size_singleton. cbn. assert (size V <> 0)%nat by (rewrite size_non_empty_iff; set_solver). lia.
  - exists (size edges). split; [done|]. intros p v [W Hd].
    assert (Hsub : (list_to_set p.*2 : gset Z) ⊆ edges).
    { clear Hd. revert W Hs. generalize source. intros s W. induction W as [|x w e p y Hin _ IH]; intros Hs; [set_solver|].
      destruct (Hc _ _ _ Hs Hin) as [Hw He]. specialize (IH Hw). set_solver. }
    apply subseteq_size in Hsub. rewrite size_list_to_set, length_fmap in Hsub by done. done.
Qed.
End bound.

Module TrailExamples.
#[local] Existing Instance canonical_order.
(** 0 and 1 joined both ways, 2 behind 0, a self-loop on 0, listed last. *)
Definition hops (v : Z) : list (Z * Z) := if v =? 0 then [(1, 10); (2, 12); (0, 13)] else if v =? 1 then [(0, 11)] else [].
Definition everyone (v : Z) : bool := true.
Lemma hops_facts : joins hops /\ (forall v w e, v ∈ ({[0; 1; 2]} : gset Z) -> (w, e) ∈ hops v -> w ∈ ({[0; 1; 2]} : gset Z)).
Proof.
  assert (E : forall v w e, (w, e) ∈ hops v -> (v, w, e) ∈ [(0, 1, 10); (0, 2, 12); (0, 0, 13); (1, 0, 11)]).
  { intros v w e. unfold hops. destruct (Z.eqb_spec v 0) as [->|]; [|destruct (Z.eqb_spec v 1) as [->|]]; [| |by intros ?%not_elem_of_nil];
      repeat (rewrite elem_of_cons; intros [[= -> ->]|H]; [set_solver|revert H]); by intros ?%not_elem_of_nil. }
  split.
  - intros v w e v' w' H1%E H2%E. set_solver by lia.
  - intros v w e _ H%E. set_solver.
Qed.
Lemma trail_endpoints_exact_witness :
  exists r, trail_endpoints hops everyone 3 0 1 5 = Some r /\
  match r with
  | Some out => forall v, (exists k, (v, k) ∈ endpoints out) <-> everyone v = true /\ (v = 0 -> (1 <= 1)%nat) /\ decided_trail hops 0 1 5 v
  | None => exists v p, everyone v = true /\ trail hops 0 p v /\ p <> [] /\ (length p < 1)%nat
  end.
Proof.
  apply (trail_endpoints_exact hops everyone {[0; 1; 2]} 0); [apply hops_facts|apply hops_facts|set_solver|vm_compute; lia|left; lia].
Defined.

(** The loop stops at the closed trail of length two it found first and never
    meets the self-loop: 0 is not among the endpoints at distance one, although
    a trail of one hop leads to it. *)
Theorem self_loop_missed :
  trail_endpoints hops everyone 3 0 1 1 = Some (Some (mkTrailEndpoints [(2, 1); (1, 1)] 1)) /\ decided_trail hops 0 1 1 0.
Proof.
  split; [vm_compute; reflexivity|]. exists [(0, 13)]. split_and!; [|done|done|done]. split; [|by repeat constructor; apply not_elem_of_nil].
  econstructor; [|constructor]. vm_compute. set_solver.
Qed.
End TrailExamples.
