(* ===== verification/PathNfa.v ===== *)
(** * Automata of path patterns

    uni-query/src/query/df_graph/nfa.rs: variable-length relationships
    [-[:T*min..max]->] and quantified path patterns compiled to chains of
    states, and the expansion of a vertex along the transitions of a state
    (traverse.rs, [GraphVariableLengthTraverseExecData::expand_neighbors]).  State
    ids are u16: casts wrap.  [None] is a panic.  The adjacency, the labels of a
    vertex and the property filters are parameters. *)

From S2P Require Import Prelude Adjacency Entries CypherValue TrailReach.

Definition as_u16 (n : nat) : Z := Z.of_nat n mod 2 ^ 16.
Definition DEFAULT_MAX_HOPS : nat := 128.

Inductive VertexConstraint := Label (l : Str).
Record QppStep := mkQppStep {
  step_types : list Z;
  step_direction : Direction;
  target_constraint : option VertexConstraint;
}.
Inductive QppGroupKind := GroupNode | GroupEdge.
Record QppGroupBinding := mkQppGroupBinding { g_name : Str; g_kind : QppGroupKind; g_offset : nat }.

Definition named (n : option Str) (kind : QppGroupKind) (offset : nat) : list QppGroupBinding :=
  match n with Some (c :: s) => [mkQppGroupBinding (c :: s) kind offset] | _ => [] end.
Definition qpp_group_bindings (inner_source : option Str) (steps : list (option Str * option Str)) : list QppGroupBinding :=
  named inner_source GroupNode 0 ++ mjoin (imap (fun i s => named s.1 GroupEdge i ++ named s.2 GroupNode (S i)) steps).

Record NfaTransition := mkNfaTransition {
  t_from : Z;
  t_to : Z;
  t_types : list Z;
  t_direction : Direction;
  edge_filter_slot : nat;
  source_constraint : option VertexConstraint;
}.
Record PathNfa := mkPathNfa {
  transitions : list NfaTransition;
  accepting_states : gset Z;
  start_state : Z;
  num_states : Z;
  transitions_by_state : list (nat * nat);
  state_constraints : list (option VertexConstraint);
  state_vertex_filter_slot : list (option nat);
}.

(** ** Construction *)

Definition empty_nfa : PathNfa := mkPathNfa [] ∅ 0 1 [(0, 0)%nat] [None] [None].
(** State [i < hops] has the transition at index [i], the last one none. *)
Definition chain_index (num_states : Z) (hops : nat) : list (nat * nat) :=
  (fun i => if Nat.ltb i hops then (i, S i) else (hops, hops)) <$> seq 0 (Z.to_nat num_states).

Definition from_vlp (edge_type_ids : list Z) (direction : Direction) (min_hops max_hops : nat) : PathNfa :=
  if Nat.ltb max_hops min_hops then empty_nfa
  else
    let num_states := as_u16 (S max_hops) in
    mkPathNfa ((fun i => mkNfaTransition (as_u16 i) (as_u16 (S i)) edge_type_ids direction 0 None) <$> seq 0 max_hops)
      (list_to_set (as_u16 <$> seq min_hops (S max_hops - min_hops))) 0 num_states (chain_index num_states max_hops)
      (replicate (Z.to_nat num_states) None) (replicate (Z.to_nat num_states) None).

(** [v[i] = x] *)
Definition set_at {A} (l : list A) (i : nat) (x : A) : option (list A) := if Nat.ltb i (length l) then Some (<[i := x]> l) else None.
Section qpp.
  Context (steps : list QppStep).
(** [for hop in 0..total_hops] *)
Fixpoint qpp_hops (hops : list nat) (ts : list NfaTransition) (cs : list (option VertexConstraint)) (fs : list (option nat))
  : option (list NfaTransition * list (option VertexConstraint) * list (option nat)) :=
  match hops with
  | [] => Some (ts, cs, fs)
  | hop :: hops =>
      let slot := (hop mod length steps)%nat in
      step ← steps !! slot;
      let to := as_u16 (S hop) in
      cs ← match target_constraint step with Some c => set_at cs (Z.to_nat to) (Some c) | None => Some cs end;
      fs ← set_at fs (Z.to_nat to) (Some slot);
      qpp_hops hops (ts ++ [mkNfaTransition (as_u16 hop) to (step_types step) (step_direction step) slot None]) cs fs
  end.
Definition from_qpp (min_iterations max_iterations : nat) : option PathNfa :=
  match steps with
  | [] => None
  | _ =>
      if Nat.ltb max_iterations min_iterations then Some empty_nfa
      else
        let k := length steps in
        let total_hops := (k * max_iterations)%nat in
        let num_states := as_u16 (S total_hops) in
        '(ts, cs, fs) ← qpp_hops (seq 0 total_hops) [] (replicate (Z.to_nat num_states) None) (replicate (Z.to_nat num_states) None);
        Some (mkPathNfa ts (list_to_set ((fun i => as_u16 (i * k)) <$> seq min_iterations (S max_iterations - min_iterations)))
                0 num_states (chain_index num_states total_hops) cs fs)
  end.
End qpp.

(** The hops fill the tables of the states they lead to. *)
Lemma set_at_spec {A} (l : list A) i x : (i < length l)%nat -> set_at l i x = Some (<[i := x]> l).
Proof. intros H. unfold set_at. by rewrite (proj2 (Nat.ltb_lt _ _)). Qed.
Lemma qpp_hops_spec steps m : forall a ts cs fs, steps <> [] -> length fs = length cs -> (a + m < length cs)%nat -> Z.of_nat (length cs) <= 2 ^ 16 ->
  exists ts' cs' fs', qpp_hops steps (seq a m) ts cs fs = Some (ts ++ ts', cs', fs') /\ length ts' = m /\ length cs' = length cs /\ length fs' = length cs
  /\ (forall j, (j <= a)%nat -> cs' !! j = cs !! j /\ fs' !! j = fs !! j)
  /\ forall i t, ts' !! i = Some t -> exists step, steps !! ((a + i) mod length steps)%nat = Some step
      /\ t = mkNfaTransition (Z.of_nat (a + i)) (Z.of_nat (S (a + i))) (step_types step) (step_direction step) ((a + i) mod length steps) None
      /\ cs' !! S (a + i) = match target_constraint step with Some c => Some (Some c) | None => cs !! S (a + i) end
      /\ fs' !! S (a + i) = Some (Some ((a + i) mod length steps)%nat).
Proof.
  induction m as [|m IH]; intros a ts cs fs Hs Hl Hb Hz; cbn [seq qpp_hops].
  { exists [], cs, fs. rewrite app_nil_r. by split_and!. }
  destruct (lookup_lt_is_Some_2 steps (a mod length steps)) as [step Es]; [apply Nat.mod_upper_bound; by destruct steps|]. rewrite Es. cbn [mbind option_bind].
  assert (Ea : as_u16 a = Z.of_nat a /\ as_u16 (S a) = Z.of_nat (S a)) by (unfold as_u16; split; apply Z.mod_small; lia). destruct Ea as [-> ->]. rewrite Nat2Z.id.
  set (cs1 := match target_constraint step with Some c => <[S a := Some c]> cs | None => cs end).
  assert (E1 : match target_constraint step with Some c => set_at cs (S a) (Some c) | None => Some cs end = Some cs1).
  { subst cs1. destruct (target_constraint step); [rewrite set_at_spec by lia; done|done]. }
  assert (L1 : length cs1 = length cs) by (subst cs1; destruct (target_constraint step); [apply length_insert|done]).
  rewrite E1. cbn [mbind option_bind]. rewrite set_at_spec by lia. cbn [mbind option_bind].
  edestruct (IH (S a)) as (ts' & cs' & fs' & -> & Ht & Hc & Hf & Hlow & Hall); [done|by rewrite length_insert, L1|rewrite L1; lia|by rewrite L1|].
  rewrite <- app_assoc. eexists (_ :: ts'), cs', fs'. split; [done|]. split; [cbn; lia|]. split; [congruence|]. split; [congruence|]. split.
  - intros j Hj. destruct (Hlow j ltac:(lia)) as [-> ->]. rewrite list_lookup_insert_ne by lia. split; [|done].
    subst cs1. destruct (target_constraint step); [by rewrite list_lookup_insert_ne by lia|done].
  - intros [|i] t Hi; cbn in Hi.
    + injection Hi as <-. rewrite Nat.add_0_r. exists step. split; [done|]. split; [done|]. destruct (Hlow (S a) (le_n _)) as [-> ->].
      rewrite list_lookup_insert_eq by lia. split; [|done]. subst cs1. destruct (target_constraint step); [by rewrite list_lookup_insert_eq by lia|done].
    + destruct (Hall i t Hi) as (step' & Es' & -> & Ec & Ef). replace (a + S i)%nat with (S a + i)%nat by lia. exists step'. split_and!; [done|done| |done].
      rewrite Ec. destruct (target_constraint step'); [done|]. subst cs1. destruct (target_constraint step); [by rewrite list_lookup_insert_ne by lia|done].
Qed.

Definition with_iteration_source_constraint (hops_per_iter : nat) (constraint : VertexConstraint) (nfa : PathNfa) : PathNfa :=
  let mark t :=
    if Nat.ltb 0 hops_per_iter && (Z.to_nat (t_from t) mod hops_per_iter =? 0)%nat
    then mkNfaTransition (t_from t) (t_to t) (t_types t) (t_direction t) (edge_filter_slot t) (Some constraint) else t in
  mkPathNfa (mark <$> transitions nfa) (accepting_states nfa) (start_state nfa) (num_states nfa) (transitions_by_state nfa)
    (state_constraints nfa) (state_vertex_filter_slot nfa).

(** ** Queries *)

Definition transitions_from (nfa : PathNfa) (state : Z) : option (list NfaTransition) :=
  match transitions_by_state nfa !! Z.to_nat state with
  | Some (a, b) => if Nat.leb a b && Nat.leb b (length (transitions nfa)) then Some (take (b - a) (drop a (transitions nfa))) else None
  | None => Some []
  end.
Definition is_accepting (nfa : PathNfa) (state : Z) : bool := bool_decide (state ∈ accepting_states nfa).
Definition state_constraint (nfa : PathNfa) (state : Z) : option VertexConstraint := mjoin (state_constraints nfa !! Z.to_nat state).
Definition vertex_filter_slot (nfa : PathNfa) (state : Z) : option nat := mjoin (state_vertex_filter_slot nfa !! Z.to_nat state).

Definition same_step (nfa : PathNfa) (t : NfaTransition) : bool :=
  match transitions nfa with
  | f :: _ => bool_decide (t_types t = t_types f) && bool_decide (t_direction t = t_direction f)
  | [] => false
  end.
Definition plain_transition (nfa : PathNfa) (i : nat) (t : NfaTransition) : bool :=
  (Z.to_nat (t_from t) =? i)%nat && (Z.to_nat (t_to t) =? S i)%nat && negb (bool_decide (is_Some (source_constraint t)))
  && (edge_filter_slot t =? 0)%nat && same_step nfa t.
Definition unset {A} (o : option A) : bool := match o with None => true | Some _ => false end.
(** [iter().min()] *)
Definition minimum (s : gset Z) : option Z := foldr (fun x acc => Some (match acc with Some y => Z.min x y | None => x end)) None (elements s).
Lemma minimum_spec s x : x ∈ s -> (forall y, y ∈ s -> x <= y) -> minimum s = Some x.
Proof.
  intros Hx Hm. unfold minimum.
  assert (H : forall l, (forall y, y ∈ l -> x <= y) -> match foldr (fun x acc => Some (match acc with Some y => Z.min x y | None => x end)) None l with
    | Some m => x <= m /\ (x ∈ l -> m = x) | None => l = [] end).
  { induction l as [|z l IH]; intros Hl; cbn; [done|]. specialize (IH ltac:(intros; apply Hl; by right)). specialize (Hl z ltac:(by left)).
    destruct (foldr _ None l) as [m|]; [|subst; split; [done|]; by intros ->%list_elem_of_singleton]. destruct IH as [H1 H2].
    split; [lia|]. intros [->|Hin]%elem_of_cons; [lia|]. rewrite (H2 Hin). lia. }
  specialize (H (elements s) ltac:(intros y Hy; apply Hm; by apply elem_of_elements)). destruct (foldr _ None _) as [m|].
  - f_equal. apply H. by apply elem_of_elements.
  - apply elem_of_elements in Hx. rewrite H in Hx. by apply not_elem_of_nil in Hx.
Qed.
Definition simple_chain_range (nfa : PathNfa) : option (nat * nat) :=
  let plain :=
    (start_state nfa =? 0) && (length (transitions nfa) + 1 =? Z.to_nat (num_states nfa))%nat
    && forallb id (imap (plain_transition nfa) (transitions nfa))
    && forallb unset (state_constraints nfa) && forallb unset (state_vertex_filter_slot nfa) in
  if negb plain then None
  else
    let max := length (transitions nfa) in
    lo ← minimum (accepting_states nfa);
    let min := Z.to_nat lo in
    if (size (accepting_states nfa) =? max - min + 1)%nat
       && forallb (fun s => Nat.leb min (Z.to_nat s) && Nat.leb (Z.to_nat s) max) (elements (accepting_states nfa))
    then Some (min, max) else None.

(** ** Expansion *)

Section expand.
  Context (get_neighbors : Z -> Z -> Direction -> list (Z * Z)) (resolve_vertex_labels : Z -> option (list Str)).
  Context (direction : Direction) (eid_filters vertex_filters : list (Z -> bool)) (used_eids : gset Z).

Definition check_state_constraint (v : Z) (c : VertexConstraint) : bool :=
  match c with
  | Label l => match resolve_vertex_labels v with Some ls => bool_decide (l ∈ ls) | None => true end
  end.
Definition holds_at (v : Z) (c : option VertexConstraint) : bool := match c with Some c => check_state_constraint v c | None => true end.
Definition passes (filters : list (Z -> bool)) (slot : nat) (x : Z) : bool := match filters !! slot with Some f => f x | None => false end.

Section row.
  Context (nfa : PathNfa) (t : NfaTransition).
(** The body of the loop over the neighbours of one transition. *)
Definition admits (w e : Z) : bool :=
  passes eid_filters (edge_filter_slot t) e && negb (bool_decide (e ∈ used_eids)) && holds_at w (state_constraint nfa (t_to t))
  && match vertex_filter_slot nfa (t_to t) with Some slot => passes vertex_filters slot w | None => true end.
Fixpoint expand_row (rows : list (Z * Z)) (seen : gset Z) : list (Z * Z * Z) :=
  match rows with
  | [] => []
  | (w, e) :: rows =>
      if bool_decide (direction = Both) && bool_decide (e ∈ seen) then expand_row rows seen
      else (if admits w e then [(w, e, t_to t)] else []) ++ expand_row rows ({[e]} ∪ seen)
  end.
Definition expand_transition (v : Z) : list (Z * Z * Z) :=
  if holds_at v (source_constraint t) then expand_row (mjoin ((fun ty => get_neighbors v ty (t_direction t)) <$> t_types t)) ∅ else [].
End row.
Definition expand_neighbors (nfa : PathNfa) (v state : Z) : option (list (Z * Z * Z)) :=
  ts ← transitions_from nfa state; Some (mjoin ((fun t => expand_transition nfa t v) <$> ts)).

(** The hop of a plain trail, from the start state whatever the hop. *)
Definition plain_hop (nfa : PathNfa) (v : Z) : list (Z * Z) :=
  match expand_neighbors nfa v (start_state nfa) with Some l => (fun r => r.1) <$> l | None => [] end.
(** [bfs_endpoints_only] where shortest distances decide. *)
Definition plain_endpoints `{HashOrder} (check_target_label vid_filter : Z -> bool) (nfa : PathNfa) (fuel : nat) (source : Z)
  : option (option (list (Z * Z))) :=
  match simple_chain_range nfa with
  | None => Some None
  | Some (min, max) =>
      found ← trail_endpoints (plain_hop nfa) (fun v => check_target_label v && vid_filter v) fuel source min max;
      Some (match found with
            | None => None
            | Some found => Some ((if (min =? 0)%nat && check_target_label source then [(source, 0)] else []) ++ endpoints found)
            end)
  end.

(** ** What an expansion lists *)

(** A relationship is listed with one neighbour at a vertex. *)
Hypothesis listed_once : forall v ty ty' d w w' e, (w, e) ∈ get_neighbors v ty d -> (w', e) ∈ get_neighbors v ty' d -> w = w'.

Definition hop_ok (nfa : PathNfa) (t : NfaTransition) (v w e : Z) : Prop :=
  holds_at v (source_constraint t) = true /\ (exists ty, ty ∈ t_types t /\ (w, e) ∈ get_neighbors v ty (t_direction t)) /\ admits nfa t w e = true.
Lemma expand_row_spec nfa t rows w e s : (forall w w' e, (w, e) ∈ rows -> (w', e) ∈ rows -> w = w') -> forall seen,
  (w, e, s) ∈ expand_row nfa t rows seen <-> s = t_to t /\ (w, e) ∈ rows /\ admits nfa t w e = true /\ (direction = Both -> e ∉ seen).
Proof.
  induction rows as [|[w0 e0] rows IH]; intros Hu seen; cbn [expand_row].
  { split; [by intros ?%not_elem_of_nil|]. by intros (_ & ?%not_elem_of_nil & _). }
  assert (Hu' : forall w w' e, (w, e) ∈ rows -> (w', e) ∈ rows -> w = w') by (intros ? ? f ? ?; apply (Hu _ _ f); by right).
  destruct (bool_decide (direction = Both) && bool_decide (e0 ∈ seen)) eqn:Eb.
  - apply andb_true_iff in Eb as [Hd%bool_decide_eq_true Hs%bool_decide_eq_true]. rewrite (IH Hu'), elem_of_cons. split.
    + intros (? & ? & ? & ?). split_and!; auto.
    + intros (? & [[= -> ->]|?] & ? & Hn); [by destruct (Hn Hd)|]. by split_and!.
  - assert (Hhead : direction = Both -> e0 ∉ seen) by (intros ->; cbn in Eb; by apply bool_decide_eq_false in Eb).
    rewrite elem_of_app, (IH Hu'), elem_of_cons. split.
    + intros [H|(? & ? & ? & Hn)]; [destruct (admits nfa t w0 e0) eqn:Ea; [apply list_elem_of_singleton in H as [= -> -> ->]|by apply not_elem_of_nil in H]|].
      * split_and!; auto.
      * split_and!; auto. intros Hd. specialize (Hn Hd). set_solver.
    + intros (-> & Hin & Ha & Hn). destruct (decide ((w, e) = (w0, e0))) as [[= -> ->]|Hne]; [left; rewrite Ha; by left|right].
      destruct Hin as [|Hin]; [done|]. split_and!; [done|done|done|]. intros Hd [->%elem_of_singleton|?]%elem_of_union; [|by apply (Hn Hd)].
      apply Hne. f_equal. apply (Hu _ _ e0); [by right|by left].
Qed.
Lemma expand_transition_spec nfa t v w e s : (w, e, s) ∈ expand_transition nfa t v <-> s = t_to t /\ hop_ok nfa t v w e.
Proof.
  assert (R : forall w e, (w, e) ∈ mjoin ((fun ty => get_neighbors v ty (t_direction t)) <$> t_types t) <-> exists ty, ty ∈ t_types t /\ (w, e) ∈ get_neighbors v ty (t_direction t)).
  { intros w' e'. rewrite list_elem_of_join. split.
    - intros (l & H & [ty [-> Hty]]%list_elem_of_fmap). by exists ty.
    - intros (ty & Hty & H). eexists. split; [exact H|]. apply list_elem_of_fmap. by exists ty. }
  unfold expand_transition, hop_ok. destruct (holds_at v (source_constraint t)).
  - rewrite expand_row_spec, R; [|intros w1 w2 e' (ty1 & _ & H1)%R (ty2 & _ & H2)%R; by eapply listed_once]. split; [by intros (? & ? & ? & _)|].
    intros (? & _ & ? & ?). split_and!; [done..|]. intros _. apply not_elem_of_empty.
  - split; [by intros ?%not_elem_of_nil|]. by intros (_ & ? & _).
Qed.

(** ** Runs *)

Inductive runs (nfa : PathNfa) : Z -> Z -> list (Z * Z) -> Z -> Z -> Prop :=
| runs_nil v s : runs nfa v s [] v s
| runs_cons v s l w e s1 p x s2 : expand_neighbors nfa v s = Some l -> (w, e, s1) ∈ l -> runs nfa w s1 p x s2 -> runs nfa v s ((w, e) :: p) x s2.
Definition accepts (nfa : PathNfa) (v : Z) (p : list (Z * Z)) (x : Z) : Prop :=
  exists s, runs nfa v (start_state nfa) p x s /\ is_accepting nfa s = true.

(** A chain: state [i] has one transition, to [i + 1]. *)
Record chain (nfa : PathNfa) : Prop := {
  chain_start : start_state nfa = 0;
  chain_table : transitions_by_state nfa = chain_index (Z.of_nat (S (length (transitions nfa)))) (length (transitions nfa));
  chain_to : forall i t, transitions nfa !! i = Some t -> t_to t = Z.of_nat (S i);
}.
Fixpoint follows (nfa : PathNfa) (ts : list NfaTransition) (v : Z) (p : list (Z * Z)) (x : Z) {struct p} : Prop :=
  match p with
  | [] => v = x
  | (w, e) :: p => match ts with [] => False | t :: ts => hop_ok nfa t v w e /\ follows nfa ts w p x end
  end.
Lemma chain_from nfa i : chain nfa -> (i <= length (transitions nfa))%nat ->
  transitions_from nfa (Z.of_nat i) = Some (match transitions nfa !! i with Some t => [t] | None => [] end).
Proof.
  intros [_ Ht _] Hi. unfold transitions_from. rewrite Ht, Nat2Z.id. unfold chain_index. rewrite list_lookup_fmap, Nat2Z.id, lookup_seq_lt by lia. cbn [fmap option_fmap option_map Nat.add].
  destruct (Nat.ltb_spec i (length (transitions nfa))) as [Hlt|Hge].
  - destruct (lookup_lt_is_Some_2 _ _ Hlt) as [t E]. rewrite E, (proj2 (Nat.leb_le i (S i))), (proj2 (Nat.leb_le (S i) _)) by lia. cbn [andb].
    replace (S i - i)%nat with 1%nat by lia. by rewrite (drop_S _ t i E).
  - rewrite (lookup_ge_None_2 _ _ Hge), !Nat.leb_refl. cbn. by rewrite Nat.sub_diag.
Qed.
Lemma chain_runs nfa p : chain nfa -> forall i v x s, (i <= length (transitions nfa))%nat ->
  runs nfa v (Z.of_nat i) p x s <-> s = Z.of_nat (i + length p) /\ follows nfa (drop i (transitions nfa)) v p x.
Proof.
  intros C. induction p as [|[w e] p IH]; intros i v x s Hi; cbn [length follows].
  { rewrite Nat.add_0_r. split; [intros H; inversion H; subst; by split|]. intros [-> ->]. constructor. }
  assert (Ex : expand_neighbors nfa v (Z.of_nat i) = Some (match transitions nfa !! i with Some t => expand_transition nfa t v | None => [] end)).
  { unfold expand_neighbors. rewrite chain_from by done. destruct (transitions nfa !! i); cbn; [by rewrite app_nil_r|done]. }
  destruct (transitions nfa !! i) as [t|] eqn:E.
  - pose proof (lookup_lt_Some _ _ _ E) as Hlt. pose proof (chain_to _ C i t E) as Ht. rewrite (drop_S _ t i E). split.
    + intros H. inversion H as [|? ? l ? ? s1 ? ? ? El Hin Hr]; subst. rewrite Ex in El. injection El as <-. apply expand_transition_spec in Hin as [-> Hok].
      rewrite Ht in Hr. apply IH in Hr as [-> Hf]; [|lia]. split; [f_equal; lia|done].
    + intros (-> & Hok & Hf). apply (runs_cons nfa v _ _ w e (t_to t) p x _ Ex); [by apply expand_transition_spec|]. rewrite Ht. apply IH; [lia|]. split; [f_equal; lia|done].
  - rewrite drop_ge by by apply lookup_ge_None_1. split; [|by intros [_ []]]. intros H. inversion H as [|? ? l ? ? s1 ? ? ? El Hin Hr]; subst.
    rewrite Ex in El. injection El as <-. by apply not_elem_of_nil in Hin.
Qed.
Lemma chain_accepts nfa v p x : chain nfa ->
  accepts nfa v p x <-> is_accepting nfa (Z.of_nat (length p)) = true /\ follows nfa (transitions nfa) v p x.
Proof.
  intros C. unfold accepts. rewrite (chain_start _ C). pose proof (fun s => chain_runs nfa p C 0 v x s (Nat.le_0_l _)) as H. rewrite drop_0 in H. cbn [Z.of_nat Nat.add] in H.
  split; [intros (s & [-> Hf]%H & Ha); done|]. intros [Ha Hf]. exists (Z.of_nat (length p)). split; [by apply H|done].
Qed.
Lemma follows_length nfa ts v p x : follows nfa ts v p x -> (length p <= length ts)%nat.
Proof. revert ts v. induction p as [|[w e] p IH]; intros [|t ts] v; cbn; try lia. intros [_ H%IH]. lia. Qed.

(** ** Quantified patterns *)

(** The hop of a step in its slot; the inner source constrains slot 0. *)
Definition hop_matches (inner : option VertexConstraint) (h : nat * QppStep) (v w e : Z) : Prop :=
  (h.1 = 0%nat -> holds_at v inner = true)
  /\ (exists ty, ty ∈ step_types h.2 /\ (w, e) ∈ get_neighbors v ty (step_direction h.2))
  /\ passes eid_filters h.1 e = true /\ ~ (e ∈ used_eids) /\ holds_at w (target_constraint h.2) = true /\ passes vertex_filters h.1 w = true.
Fixpoint matches (inner : option VertexConstraint) (pat : list (nat * QppStep)) (v : Z) (p : list (Z * Z)) (x : Z) {struct p} : Prop :=
  match p, pat with
  | [], [] => v = x
  | (w, e) :: p, h :: pat => (hop_matches inner h v w e) /\ (matches inner pat w p x)
  | _, _ => False
  end.
(** [n] iterations of the steps. *)
Definition iterations (steps : list QppStep) (n : nat) : list (nat * QppStep) := mjoin (replicate n (imap pair steps)).

Lemma length_iterations steps n : length (iterations steps n) = (length steps * n)%nat.
Proof.
  unfold iterations. induction n as [|n IH]; [cbn; lia|].
  change (mjoin (replicate (S n) (imap pair steps))) with (imap pair steps ++ mjoin (replicate n (imap pair steps))). rewrite length_app, length_imap, IH. lia.
Qed.
Lemma lookup_iterations steps n i step : (i < length steps * n)%nat -> steps !! (i mod length steps)%nat = Some step ->
  iterations steps n !! i = Some ((i mod length steps)%nat, step).
Proof.
  unfold iterations. revert i. induction n as [|n IH]; intros i Hi Es; [lia|].
  change (mjoin (replicate (S n) (imap pair steps))) with (imap pair steps ++ mjoin (replicate n (imap pair steps))).
  destruct (Nat.lt_ge_cases i (length steps)) as [Hlt|Hge].
  - rewrite Nat.mod_small in Es |- * by done. rewrite lookup_app_l by by rewrite length_imap. rewrite list_lookup_imap, Es. done.
  - rewrite lookup_app_r, length_imap by by rewrite length_imap. assert (E : (i mod length steps = (i - length steps) mod length steps)%nat).
    { replace i with ((i - length steps) + 1 * length steps)%nat at 1 by lia. apply Nat.Div0.mod_add. }
    rewrite E in Es |- *. apply IH; [lia|done].
Qed.
(** A chain and a pattern that agree hop by hop. *)
Lemma follows_matches nfa inner ts pat p : forall v x,
  (forall i t, ts !! i = Some t -> (i < length pat)%nat -> exists h, pat !! i = Some h /\ forall v w e, hop_ok nfa t v w e <-> hop_matches inner h v w e) ->
  (length pat <= length ts)%nat -> length p = length pat -> follows nfa ts v p x <-> matches inner pat v p x.
Proof.
  revert ts pat. induction p as [|[w e] p IH]; intros ts [|h pat] v x H Hl Hp; cbn in Hp; try lia; [done|].
  destruct ts as [|t ts]; [cbn in Hl; lia|]. cbn [follows matches]. destruct (H 0%nat t eq_refl ltac:(cbn; lia)) as (h' & [= <-] & ->).
  rewrite (IH ts pat); [done| |cbn in Hl; lia|lia]. intros i t' Ht Hi. apply (H (S i) t' Ht). cbn. lia.
Qed.
Lemma matches_length inner pat v p x : matches inner pat v p x -> length p = length pat.
Proof. revert pat v. induction p as [|[w e] p IH]; intros [|h pat] v; cbn; try done. intros [_ H%IH]. lia. Qed.

Lemma from_qpp_chain steps min max : steps <> [] -> (Z.of_nat (length steps * max) + 1 < 2 ^ 16) -> (min <= max)%nat ->
  exists nfa, from_qpp steps min max = Some nfa /\ chain nfa /\ length (transitions nfa) = (length steps * max)%nat
  /\ accepting_states nfa = list_to_set ((fun i => as_u16 (i * length steps)) <$> seq min (S max - min))
  /\ forall i t, transitions nfa !! i = Some t -> exists step, steps !! (i mod length steps)%nat = Some step
      /\ t = mkNfaTransition (Z.of_nat i) (Z.of_nat (S i)) (step_types step) (step_direction step) (i mod length steps) None
      /\ state_constraint nfa (Z.of_nat (S i)) = target_constraint step /\ vertex_filter_slot nfa (Z.of_nat (S i)) = Some (i mod length steps)%nat.
Proof.
  intros Hs Hb Hle. unfold from_qpp. destruct steps as [|s0 steps']; [done|]. set (steps := s0 :: steps') in *.
  rewrite (proj2 (Nat.ltb_ge _ _)) by done. set (total := (length steps * max)%nat) in *. assert (En : as_u16 (S total) = Z.of_nat (S total)) by (unfold as_u16; apply Z.mod_small; lia).
  rewrite En, Nat2Z.id. destruct (qpp_hops_spec steps total 0 [] (replicate (S total) None) (replicate (S total) None)) as (ts & cs & fs & -> & Hl & Hlc & Hlf & _ & Ht).
  { done. } { by rewrite !length_replicate. } { rewrite length_replicate. lia. } { rewrite length_replicate. lia. }
  cbn [mbind option_bind]. eexists. split; [done|]. cbn. split_and!; [|done|done|].
  - split; cbn; [done|by rewrite Hl|]. intros i t E. destruct (Ht i t E) as (step & _ & -> & _). done.
  - intros i t E. destruct (Ht i t E) as (step & Es & -> & Ec & Ef). exists step. split; [done|]. split; [done|].
    unfold state_constraint, vertex_filter_slot. cbn [state_constraints state_vertex_filter_slot]. rewrite !Nat2Z.id. cbn [Nat.add] in Ec, Ef. rewrite Ec, Ef. split; [|done].
    pose proof (lookup_lt_Some _ _ _ E). rewrite lookup_replicate_2 by lia. by destruct (target_constraint step).
Qed.

(** The automaton of a pattern, its inner source label included when there is one. *)
Definition constrain (inner : option VertexConstraint) (k : nat) (nfa : PathNfa) : PathNfa :=
  match inner with Some c => with_iteration_source_constraint k c nfa | None => nfa end.
Lemma constrain_spec inner k nfa : (0 < k)%nat -> chain nfa -> (forall t, t ∈ transitions nfa -> source_constraint t = None) ->
  chain (constrain inner k nfa) /\ accepting_states (constrain inner k nfa) = accepting_states nfa
  /\ length (transitions (constrain inner k nfa)) = length (transitions nfa)
  /\ (forall s, state_constraint (constrain inner k nfa) s = state_constraint nfa s /\ vertex_filter_slot (constrain inner k nfa) s = vertex_filter_slot nfa s)
  /\ forall i t', transitions (constrain inner k nfa) !! i = Some t' -> exists t, transitions nfa !! i = Some t
      /\ t' = mkNfaTransition (t_from t) (t_to t) (t_types t) (t_direction t) (edge_filter_slot t) (if (Z.to_nat (t_from t) mod k =? 0)%nat then inner else None).
Proof.
  intros Hk C Hn. destruct inner as [c|]; cbn [constrain].
  - assert (L : length (transitions (with_iteration_source_constraint k c nfa)) = length (transitions nfa)) by (cbn; apply length_fmap).
    assert (T : forall i t', transitions (with_iteration_source_constraint k c nfa) !! i = Some t' -> exists t, transitions nfa !! i = Some t
      /\ t' = mkNfaTransition (t_from t) (t_to t) (t_types t) (t_direction t) (edge_filter_slot t) (if (Z.to_nat (t_from t) mod k =? 0)%nat then Some c else None)).
    { intros i t'. cbn [with_iteration_source_constraint transitions]. rewrite list_lookup_fmap, fmap_Some. intros (t & E & ->). exists t. split; [done|].
      rewrite (proj2 (Nat.ltb_lt 0 k) Hk). cbn [andb]. destruct (_ =? 0)%nat; [done|]. rewrite <- (Hn t) by (by apply list_elem_of_lookup_2 in E). by destruct t. }
    split_and!; [|done|done|done|exact T]. destruct C as [C1 C2 C3]. split; [done|by rewrite L|]. intros i t' (t & E & ->)%T. cbn [t_to]. by apply (C3 i).
  - split_and!; [done..|]. intros i t E. exists t. split; [done|]. rewrite <- (Hn t) by (by apply list_elem_of_lookup_2 in E).
    destruct (_ =? 0)%nat; by destruct t; cbn in *.
Qed.

(** C17: the automaton of a quantified path pattern accepts a path exactly when
    it is some number of iterations of the steps between the bounds: each hop
    of the type and direction of its step, through the filters of its slot, to
    a vertex the step admits, every iteration starting at a vertex the inner
    source admits.  Building it does not panic while the states fit u16. *)
Theorem qpp_automaton_exact (steps : list QppStep) (min max : nat) : steps <> [] -> Z.of_nat (length steps * max) + 1 < 2 ^ 16 ->
  exists nfa, from_qpp steps min max = Some nfa /\
  forall inner v p x, accepts (constrain inner (length steps) nfa) v p x <->
    exists n, (min <= n <= max)%nat /\ matches inner (iterations steps n) v p x.
Proof.
  intros Hs Hb. destruct (Nat.le_gt_cases min max) as [Hle|Hgt].
  2: { exists empty_nfa. split; [unfold from_qpp; destruct steps; [done|]; by rewrite (proj2 (Nat.ltb_lt _ _))|]. intros inner v p x. split; [|intros (n & ? & _); lia].
       intros (s & _ & Ha). exfalso. apply bool_decide_eq_true in Ha. destruct inner; cbn in Ha; by apply not_elem_of_empty in Ha. }
  destruct (from_qpp_chain steps min max Hs Hb Hle) as (nfa & E & C & L & Ea & T). exists nfa. split; [done|]. intros inner v p x.
  assert (Hk : (0 < length steps)%nat) by (destruct steps; [done|cbn; lia]).
  destruct (constrain_spec inner (length steps) nfa Hk C) as (C' & Ea' & L' & Es & T').
  { intros t [i Et]%list_elem_of_lookup_1. destruct (T i t Et) as (step & _ & -> & _). done. }
  rewrite chain_accepts by done. unfold is_accepting. rewrite bool_decide_eq_true, Ea', Ea, elem_of_list_to_set, list_elem_of_fmap.
  assert (Hiff : forall n, (n <= max)%nat -> length p = (length steps * n)%nat ->
    follows (constrain inner (length steps) nfa) (transitions (constrain inner (length steps) nfa)) v p x <-> matches inner (iterations steps n) v p x).
  { intros n Hn Hp. apply follows_matches; rewrite ?length_iterations; [|rewrite L', L; nia|done]. intros i t' Et Hi. destruct (T' i t' Et) as (t & Et0 & ->).
    destruct (T i t Et0) as (step & Estep & -> & Ec & Ef). exists ((i mod length steps)%nat, step). split; [by apply lookup_iterations|].
    intros v' w e. unfold hop_ok, hop_matches, admits. cbn [t_from t_to t_types t_direction edge_filter_slot source_constraint fst snd].
    destruct (Es (Z.of_nat (S i))) as [-> ->]. rewrite Ec, Ef, !andb_true_iff, negb_true_iff, bool_decide_eq_false, Nat2Z.id.
    destruct (Nat.eqb_spec (i mod length steps) 0) as [E0|E0]; cbn [holds_at]; tauto. }
  split.
  - intros [(n & En & [Hn1 Hn2]%elem_of_seq) Hf]. unfold as_u16 in En. rewrite Z.mod_small in En by nia. apply Nat2Z.inj in En.
    exists n. split; [lia|]. apply Hiff; [lia|lia|done].
  - intros (n & Hn & Hm). pose proof (matches_length _ _ _ _ _ Hm) as Hp. rewrite length_iterations in Hp. split; [|by apply (Hiff n); [lia|..]].
    exists n. split; [|apply elem_of_seq; lia]. unfold as_u16. rewrite Z.mod_small by nia. f_equal. lia.
Qed.

(** ** Plain trails *)

Section plain_trails.
  Context `{HO : HashOrder} (types : list Z) (dir : Direction) (min max : nat).
  Hypothesis (Hle : (min <= max)%nat) (Hb : Z.of_nat max + 1 < 2 ^ 16).
Let nfa := from_vlp types dir min max.

Lemma vlp_transitions : length (transitions nfa) = max
  /\ forall i t, transitions nfa !! i = Some t -> t = mkNfaTransition (Z.of_nat i) (Z.of_nat (S i)) types dir 0 None.
Proof.
  unfold nfa, from_vlp. rewrite (proj2 (Nat.ltb_ge _ _)) by done. cbn [transitions]. split; [by rewrite length_fmap, length_seq|].
  intros i t. rewrite list_lookup_fmap, fmap_Some. intros (j & [-> Hj]%lookup_seq & ->). unfold as_u16. rewrite !Z.mod_small by lia. done.
Qed.
Lemma vlp_states : as_u16 (S max) = Z.of_nat (S max).
Proof. unfold as_u16. apply Z.mod_small. lia. Qed.
Lemma vlp_chain : chain nfa.
Proof.
  destruct vlp_transitions as [L T]. split; [unfold nfa, from_vlp; by case_match| |by intros i t ->%T].
  rewrite L. unfold nfa, from_vlp. rewrite (proj2 (Nat.ltb_ge _ _)) by done. cbn [transitions_by_state]. by rewrite vlp_states.
Qed.
Lemma unset_lookup {A} (n i : nat) : mjoin (replicate n (None : option A) !! i) = None.
Proof. destruct (replicate n None !! i) as [o|] eqn:E; [|done]. by apply lookup_replicate_1 in E as [-> _]. Qed.
Lemma vlp_free s : state_constraint nfa s = None /\ vertex_filter_slot nfa s = None.
Proof.
  unfold nfa, from_vlp. rewrite (proj2 (Nat.ltb_ge _ _)) by done. unfold state_constraint, vertex_filter_slot. cbn [state_constraints state_vertex_filter_slot].
  by rewrite !unset_lookup.
Qed.
Lemma vlp_accepting s : is_accepting nfa (Z.of_nat s) = true <-> (min <= s <= max)%nat.
Proof.
  unfold is_accepting, nfa, from_vlp. rewrite (proj2 (Nat.ltb_ge _ _)) by done. rewrite bool_decide_eq_true. cbn [accepting_states].
  rewrite elem_of_list_to_set, list_elem_of_fmap. split.
  - intros (n & En & [H1 H2]%elem_of_seq). unfold as_u16 in En. rewrite Z.mod_small in En by lia. lia.
  - intros H. exists s. split; [unfold as_u16; by rewrite Z.mod_small by lia|]. apply elem_of_seq. lia.
Qed.

(** Every hop is the one from the start state. *)
Lemma vlp_hop i t v w e : transitions nfa !! i = Some t -> hop_ok nfa t v w e <-> (w, e) ∈ plain_hop nfa v.
Proof.
  destruct vlp_transitions as [L T]. intros E. pose proof (lookup_lt_Some _ _ _ E) as Hi.
  destruct (lookup_lt_is_Some_2 (transitions nfa) 0 ltac:(lia)) as [t0 E0]. rewrite (T i t E).
  unfold plain_hop, expand_neighbors. rewrite (chain_start _ vlp_chain). change 0 with (Z.of_nat 0). rewrite (chain_from nfa 0 vlp_chain), E0 by lia.
  cbn [mbind option_bind fmap list_fmap]. rewrite (T 0%nat t0 E0). transitivity (hop_ok nfa (mkNfaTransition (Z.of_nat 0) (Z.of_nat 1) types dir 0 None) v w e).
  { unfold hop_ok, admits. cbn [source_constraint t_types t_direction edge_filter_slot t_to]. destruct (vlp_free (Z.of_nat (S i))) as [-> ->], (vlp_free (Z.of_nat 1)) as [-> ->]. done. }
  change (mjoin [?x]) with (x ++ []). rewrite app_nil_r. split.
  - intros H. apply list_elem_of_fmap. exists (w, e, Z.of_nat 1). split; [done|]. by apply expand_transition_spec.
  - intros [[[w' e'] s] [[= -> ->] H]]%list_elem_of_fmap. by apply expand_transition_spec in H as [_ ?].
Qed.
Lemma vlp_follows ts p : forall v x, (forall t, t ∈ ts -> t ∈ transitions nfa) -> follows nfa ts v p x <-> (length p <= length ts)%nat /\ walk (plain_hop nfa) v p x.
Proof.
  revert ts. induction p as [|[w e] p IH]; intros ts v x Hts; cbn [follows length].
  { split; [intros ->; split; [lia|constructor]|]. intros [_ H]. by inversion H. }
  destruct ts as [|t ts]; [split; [done|intros [? _]; cbn in *; lia]|]. destruct (list_elem_of_lookup_1 _ _ (Hts t ltac:(by left))) as [i E].
  rewrite (vlp_hop i t v w e E), IH by (intros t' Ht'; apply Hts; by right). cbn [length]. split.
  - intros (Hin & Hl & W). split; [lia|by econstructor].
  - intros (Hl & W). inversion W; subst. split_and!; [done|lia|done].
Qed.
Lemma vlp_accepts v p x : accepts nfa v p x <-> (min <= length p <= max)%nat /\ walk (plain_hop nfa) v p x.
Proof.
  rewrite chain_accepts by apply vlp_chain. rewrite vlp_accepting, vlp_follows, (proj1 vlp_transitions) by done. intuition lia.
Qed.

Lemma vlp_range : simple_chain_range nfa = Some (min, max).
Proof.
  destruct vlp_transitions as [L T]. unfold simple_chain_range.
  assert (Ha : forall s, s ∈ accepting_states nfa <-> exists i, s = Z.of_nat i /\ (min <= i <= max)%nat).
  { intros s. unfold nfa, from_vlp. rewrite (proj2 (Nat.ltb_ge _ _)) by done. cbn [accepting_states]. rewrite elem_of_list_to_set, list_elem_of_fmap. split.
    - intros (i & -> & [H1 H2]%elem_of_seq). exists i. unfold as_u16. rewrite Z.mod_small by lia. split; [done|lia].
    - intros (i & -> & H). exists i. unfold as_u16. rewrite Z.mod_small by lia. split; [done|]. apply elem_of_seq. lia. }
  assert (Hs : size (accepting_states nfa) = (max - min + 1)%nat).
  { unfold nfa, from_vlp. rewrite (proj2 (Nat.ltb_ge _ _)) by done. cbn [accepting_states]. rewrite size_list_to_set; [rewrite length_fmap, length_seq; lia|].
    apply NoDup_fmap_2_strong; [|apply NoDup_seq]. intros i j [_ Hi]%elem_of_seq [_ Hj]%elem_of_seq. unfold as_u16. rewrite !Z.mod_small by lia. lia. }
  assert (Hplain : (start_state nfa =? 0) && (length (transitions nfa) + 1 =? Z.to_nat (num_states nfa))%nat
    && forallb id (imap (plain_transition nfa) (transitions nfa)) && forallb unset (state_constraints nfa) && forallb unset (state_vertex_filter_slot nfa) = true).
  { rewrite (chain_start _ vlp_chain), L. rewrite !andb_true_iff. split_and!; [done| | | |].
    - unfold nfa, from_vlp. rewrite (proj2 (Nat.ltb_ge _ _)) by done. cbn [num_states]. rewrite vlp_states, Nat2Z.id. apply Nat.eqb_eq. lia.
    - apply forallb_forall. intros b [i E]%list_elem_of_In%list_elem_of_lookup_1. rewrite list_lookup_imap, fmap_Some in E. destruct E as (t & Et & ->).
      rewrite (T i t Et). destruct (lookup_lt_is_Some_2 (transitions nfa) 0) as [t0 E0]; [apply lookup_lt_Some in Et; lia|].
      unfold id, plain_transition, same_step. cbn [t_from t_to source_constraint edge_filter_slot t_types t_direction]. rewrite !Nat2Z.id, !Nat.eqb_refl.
      destruct (transitions nfa) as [|t1 ts]; [done|]. rewrite (T 0%nat t1 eq_refl). cbn. by rewrite !bool_decide_true.
    - unfold nfa, from_vlp. rewrite (proj2 (Nat.ltb_ge _ _)) by done. apply forallb_forall. by intros o [-> _]%list_elem_of_In%elem_of_replicate.
    - unfold nfa, from_vlp. rewrite (proj2 (Nat.ltb_ge _ _)) by done. apply forallb_forall. by intros o [-> _]%list_elem_of_In%elem_of_replicate. }
  rewrite Hplain. cbn [negb]. rewrite (minimum_spec _ (Z.of_nat min)); [|apply Ha; exists min; split; [done|lia]|intros y (i & -> & ?)%Ha; lia].
  cbn [mbind option_bind]. rewrite L, Hs, Nat2Z.id, Nat.eqb_refl. cbn [andb]. rewrite (proj2 (forallb_forall _ _)); [done|].
  intros s Hin%list_elem_of_In%elem_of_elements. apply Ha in Hin as (i & -> & Hi). rewrite Nat2Z.id. apply andb_true_iff. split; apply Nat.leb_le; lia.
Qed.
End plain_trails.

(** C18: the fast path of a reachability query over [-[:T*min..max]->] is exact:
    where shortest distances decide, it reports the vertices of the required
    label that the automaton of the pattern accepts a trail to, each within the
    filter, and the source itself for the empty path of a range from zero. *)
Theorem plain_endpoints_exact `{HO : HashOrder} (types : list Z) (dir : Direction) (min max fuel : nat) (label_ok vid_filter : Z -> bool) (V : gset Z) (source : Z) :
  (min <= max)%nat -> Z.of_nat max + 1 < 2 ^ 16 ->
  (forall v w e ty v' w' ty', (w, e) ∈ get_neighbors v ty dir -> (w', e) ∈ get_neighbors v' ty' dir -> v' = v \/ (v' = w /\ w' = v)) ->
  (forall v w e ty, v ∈ V -> (w, e) ∈ get_neighbors v ty dir -> w ∈ V) -> source ∈ V -> (size V <= fuel)%nat ->
  (2 <= max)%nat \/ (forall ty e, (source, e) ∉ get_neighbors source ty dir) ->
  exists r, plain_endpoints label_ok vid_filter (from_vlp types dir min max) fuel source = Some r /\
  forall out, r = Some out -> forall v, (exists k, (v, k) ∈ out) <->
    (v = source /\ min = 0%nat /\ label_ok source = true)
    \/ (label_ok v = true /\ vid_filter v = true /\ (v = source -> (1 <= min)%nat)
        /\ exists p, accepts (from_vlp types dir min max) source p v /\ NoDup p.*2 /\ p <> []).
Proof.
  intros Hle Hb J Hc Hs Hf Hloop. unfold plain_endpoints. rewrite vlp_range by done. set (nfa := from_vlp types dir min max).
  assert (Hop : forall v w e, (w, e) ∈ plain_hop nfa v -> exists ty, (w, e) ∈ get_neighbors v ty dir).
  { intros v w e H. destruct (vlp_transitions types dir min max Hle Hb) as [L T]. destruct (transitions nfa !! 0%nat) as [t|] eqn:E.
    - apply (vlp_hop types dir min max Hle Hb 0%nat t v w e E) in H as (_ & (ty & _ & H) & _). rewrite (T 0%nat t E) in H. by exists ty.
    - exfalso. pose proof (vlp_chain types dir min max Hle Hb) as C. fold nfa in C. unfold plain_hop, expand_neighbors in H. rewrite (chain_start _ C) in H.
      change 0 with (Z.of_nat 0) in H. rewrite (chain_from nfa 0 C), E in H by lia. by apply not_elem_of_nil in H. }
  destruct (trail_endpoints_decided (plain_hop nfa) (fun v => label_ok v && vid_filter v) V source) with (fuel := fuel) (min := min) (max := max) as (r & -> & H); try done.
  { intros v w e v' w' (ty & H1)%Hop (ty' & H2)%Hop. by eapply J. }
  { intros v w e Hv (ty & H1)%Hop. by eapply Hc. }
  { destruct Hloop as [?|H0]; [by left|right]. intros e (ty & H1)%Hop. by apply (H0 ty e). }
  cbn [mbind option_bind]. destruct r as [found|]; [|by eexists]. eexists. split; [done|]. intros out [= <-] v.
  assert (E : (exists k, (v, k) ∈ (if (min =? 0)%nat && label_ok source then [(source, 0)] else []) ++ endpoints found)
    <-> (v = source /\ min = 0%nat /\ label_ok source = true) \/ exists k, (v, k) ∈ endpoints found).
  { destruct (Nat.eqb_spec min 0) as [Em|Em], (label_ok source) eqn:El; cbn [andb app].
    2-4: split; [by right|intros [(_ & ? & ?)|?]; done].
    split; [intros (k & [[= -> ->]|H']%elem_of_cons); [by left|right; by exists k]|intros [[-> _]|(k & H')]; [exists 0; by left|exists k; by right]]. }
  rewrite E, H, andb_true_iff. unfold decided_trail, trail.
  pose proof (fun v p x => vlp_accepts types dir min max Hle Hb v p x) as Hacc. fold nfa in Hacc. setoid_rewrite Hacc. split; (intros [?|H']; [by left|right]).
  - destruct H' as ([? ?] & ? & p & [? ?] & ? & ?). split_and!; [done..|]. by exists p.
  - destruct H' as (? & ? & ? & p & [? ?] & ? & ?). split_and!; [done..|]. by exists p.
Qed.
End expand.

Module NfaExamples.
#[local] Existing Instance canonical_order.
(** A path of four hops with types 1 and 2 in turn, vertices 0 and 2 labelled A, 1 and 3 labelled P. *)
Definition rows : list (Z * Z * Z * Z) := [(0, 1, 1, 10); (1, 2, 2, 11); (2, 1, 3, 12); (3, 2, 4, 13)].
Definition out_edges (v ty : Z) (d : Direction) : list (Z * Z) :=
  omap (fun r => match r with (s, t, w, e) => if (s =? v) && (t =? ty) then Some (w, e) else None end) rows.
Definition A : Str := str "A".
Definition P : Str := str "P".
Definition labels_of (v : Z) : option (list Str) := Some (if Z.even v then [A] else [P]).
Definition anything : list (Z -> bool) := [fun _ => true; fun _ => true].
Definition two_steps : list QppStep := [mkQppStep [1] Outgoing (Some (Label P)); mkQppStep [2] Outgoing None].

Lemma out_edges_rows v ty d w e : (w, e) ∈ out_edges v ty d -> (v, ty, w, e) ∈ rows.
Proof.
  unfold out_edges. rewrite list_elem_of_omap. intros ([[[s t] w'] e'] & Hin & H).
  destruct ((s =? v) && (t =? ty)) eqn:E; [|done]. injection H as <- <-. apply andb_true_iff in E as [->%Z.eqb_eq ->%Z.eqb_eq]. done.
Qed.
Lemma out_edges_once v ty ty' d w w' e : (w, e) ∈ out_edges v ty d -> (w', e) ∈ out_edges v ty' d -> w = w'.
Proof. intros H%out_edges_rows H'%out_edges_rows. unfold rows in *. set_solver by lia. Qed.

Lemma qpp_automaton_exact_witness :
  exists nfa, from_qpp two_steps 1 2 = Some nfa /\
  accepts out_edges labels_of Outgoing anything anything ∅ (constrain (Some (Label A)) 2 nfa) 0 [(1, 10); (2, 11); (3, 12); (4, 13)] 4.
Proof.
  destruct (qpp_automaton_exact out_edges labels_of Outgoing anything anything ∅ out_edges_once two_steps 1 2) as (nfa & E & H); [done|reflexivity|].
  exists nfa. split; [exact E|]. apply (H (Some (Label A))). exists 2%nat. split; [lia|].
  assert (Hh : forall h v w e ty, (h.1 = 0%nat -> holds_at labels_of v (Some (Label A)) = true) -> ty ∈ step_types h.2 -> (w, e) ∈ out_edges v ty (step_direction h.2) ->
    passes anything h.1 e = true -> holds_at labels_of w (target_constraint h.2) = true -> passes anything h.1 w = true ->
    hop_matches out_edges labels_of anything anything ∅ (Some (Label A)) h v w e).
  { intros h v w e ty H1 H2 H3 H4 H5 H6. split; [exact H1|]. split; [exists ty; split; assumption|]. split; [exact H4|]. split; [apply not_elem_of_empty|]. split; assumption. }
  split; [apply (Hh _ 0 1 10 1); try (intros _); try reflexivity; by left|]. split; [apply (Hh _ 1 2 11 2); try (intros ?; discriminate); try reflexivity; by left|].
  split; [apply (Hh _ 2 3 12 1); try (intros _); try reflexivity; by left|]. split; [apply (Hh _ 3 4 13 2); try (intros ?; discriminate); try reflexivity; by left|].
  reflexivity.
Defined.
Lemma plain_endpoints_exact_witness :
  exists r, plain_endpoints out_edges labels_of Outgoing anything anything ∅ (fun _ => true) (fun v => negb (v =? 1)) (from_vlp [1; 2] Outgoing 2 3) 5 0 = Some r /\
  forall out, r = Some out -> forall v, (exists k, (v, k) ∈ out) <->
    (v = 0 /\ 2%nat = 0%nat /\ true = true)
    \/ (true = true /\ negb (v =? 1) = true /\ (v = 0 -> (1 <= 2)%nat)
        /\ exists p, accepts out_edges labels_of Outgoing anything anything ∅ (from_vlp [1; 2] Outgoing 2 3) 0 p v /\ NoDup p.*2 /\ p <> []).
Proof.
  apply (plain_endpoints_exact out_edges labels_of Outgoing anything anything ∅ out_edges_once [1; 2] Outgoing 2 3 5 (fun _ => true) (fun v => negb (v =? 1)) {[0; 1; 2; 3; 4]} 0).
  - lia.
  - reflexivity.
  - intros v w e ty v' w' ty' H%out_edges_rows H'%out_edges_rows. unfold rows in *. set_solver by lia.
  - intros v w e ty _ H%out_edges_rows. unfold rows in *. set_solver by lia.
  - set_solver.
  - vm_compute. lia.
  - left. lia.
Defined.
(** The vertices two and three hops away. *)
Example plain_endpoints_run :
  plain_endpoints out_edges labels_of Outgoing anything anything ∅ (fun _ => true) (fun v => negb (v =? 1)) (from_vlp [1; 2] Outgoing 2 3) 5 0
  = Some (Some [(3, 3); (2, 2)]).
Proof. vm_compute. reflexivity. Qed.

(** State ids wrap at 2^16: [*1..65536] is the automaton of one state's
    expansion, which accepts the empty path and no path of two hops; a
    quantified pattern of that length panics. *)
Theorem long_ranges_wrap :
  (let nfa := from_vlp [1] Outgoing 1 (Z.to_nat (2 ^ 16)) in
   is_accepting nfa (start_state nfa) = true /\ num_states nfa = 1 /\ transitions_from nfa 1 = Some [])
  /\ from_qpp [mkQppStep [1] Outgoing None] 1 (Z.to_nat (2 ^ 16 - 1)) = None.
Proof.
  assert (N1 : as_u16 (S (Z.to_nat (2 ^ 16))) = 1) by (unfold as_u16; rewrite Nat2Z.inj_succ, Z2Nat.id; [reflexivity|lia]).
  assert (L1 : Nat.ltb (Z.to_nat (2 ^ 16)) 1 = false) by (apply Nat.ltb_ge; lia). cbv zeta. split_and!.
  - unfold is_accepting, from_vlp. rewrite L1. apply bool_decide_eq_true. cbn [accepting_states start_state]. apply elem_of_list_to_set, list_elem_of_fmap.
    exists (Z.to_nat (2 ^ 16)). split; [unfold as_u16; by rewrite Z2Nat.id|]. apply elem_of_seq. lia.
  - unfold from_vlp. by rewrite L1, <- N1.
  - unfold from_vlp. rewrite L1, N1. reflexivity.
  - unfold from_qpp. replace (Nat.ltb (Z.to_nat (2 ^ 16 - 1)) 1) with false by (symmetry; apply Nat.ltb_ge; lia). cbn [length]. rewrite Nat.mul_1_l.
    assert (N0 : as_u16 (S (Z.to_nat (2 ^ 16 - 1))) = 0) by (unfold as_u16; rewrite Nat2Z.inj_succ, Z2Nat.id; [reflexivity|lia]). rewrite N0.
    assert (exists m, Z.to_nat (2 ^ 16 - 1) = S m) as [m ->] by (exists (Z.to_nat (2 ^ 16 - 2)); lia). reflexivity.
Qed.
(** A quantified pattern always sets a property slot, so it never counts as a plain chain. *)
Theorem qpp_never_plain :
  (nfa ← from_qpp [mkQppStep [1] Outgoing None] 1 3; Some (simple_chain_range nfa)) = Some None
  /\ simple_chain_range (from_vlp [1] Outgoing 1 3) = Some (1, 3)%nat.
Proof. split; vm_compute; reflexivity. Qed.
End NfaExamples.
