(* ===== verification/FilterEval.v ===== *)
(** * Native evaluation of row predicates

    crates/uni-store/src/backend/eval.rs: the evaluator that answers a
    [FilterExpr] on one row without a SQL engine, in three-valued logic, for
    backends that speak no SQL and for the rows a search merges in from memory
    ([filter_batch] of crates/uni-store/src/backend/traits.rs).  A refusal is an error value, never
    a truth value.  Strings are byte strings (UTF-8), floats are bit patterns. *)

From S2P Require Import Prelude Float64 BulkGate.

Module Filter.

(** Why an expression could not be evaluated; the messages are not kept. *)
Inductive EvalError :=
| UnknownColumn (name : string)
| Unsupported.

#[warnings="-register-all"]
Inductive Cell :=
| CNull
| CBool (b : bool)
| CInt (v : Z)
| CUInt (v : Z)
| CFloat (bits : Z)
| CStr (s : string)
| CList (items : list Cell).

(** [RowAccessor]: the value of a column. *)
Abbreviation Row := (string -> result EvalError Cell).

(** ** Rows of an Arrow batch *)

(** A non-null value of a physical column, by its data type. *)
#[warnings="-register-all"]
Inductive Datum :=
| DBoolean (b : bool)
| DInt8 (v : Z) | DInt16 (v : Z) | DInt32 (v : Z) | DInt64 (v : Z)
| DUInt8 (v : Z) | DUInt16 (v : Z) | DUInt32 (v : Z) | DUInt64 (v : Z)
| DFloat32 (bits : Z) | DFloat64 (bits : Z)
| DUtf8 (s : string) | DLargeUtf8 (s : string)
| DList (items : list (option Datum)) | DLargeList (items : list (option Datum))
| DOther.

Section collect.
  Context (cell_at : option Datum -> result EvalError Cell).

(** An element that is itself a list is refused. *)
Fixpoint collect_list (inner : list (option Datum)) : result EvalError (list Cell) :=
  match inner with
  | [] => Ok []
  | d :: inner =>
      let? c := cell_at d in
      let? c := match c with CList _ => Err Unsupported | c => Ok c end in
      let? cs := collect_list inner in
      Ok (c :: cs)
  end.
End collect.

Fixpoint datum_cell (d : Datum) : result EvalError Cell :=
  let cell_at := fun o => match o with None => Ok CNull | Some d => datum_cell d end in
  match d with
  | DBoolean b => Ok (CBool b)
  | DInt8 v | DInt16 v | DInt32 v | DInt64 v => Ok (CInt v)
  | DUInt8 v | DUInt16 v | DUInt32 v | DUInt64 v => Ok (CUInt v)
  | DFloat32 b => Ok (CFloat (F64.of_f32 b))
  | DFloat64 b => Ok (CFloat b)
  | DUtf8 s | DLargeUtf8 s => Ok (CStr s)
  | DList items | DLargeList items => let? cs := collect_list cell_at items in Ok (CList cs)
  | DOther => Err Unsupported
  end.
Definition cell_at (o : option Datum) : result EvalError Cell :=
  match o with None => Ok CNull | Some d => datum_cell d end.

(** A row of a batch, its fields in schema order; a name is the first field
    that has it. *)
Definition ArrowRow := list (string * option Datum).
Fixpoint column (r : ArrowRow) (name : string) : result EvalError Cell :=
  match r with
  | [] => Err (UnknownColumn name)
  | (n, d) :: r => if String.eqb n name then cell_at d else column r name
  end.

(** ** Numbers *)

Inductive Num := NumI (v : Z) | NumU (v : Z) | NumF (bits : Z).

Definition cell_num (c : Cell) : option Num :=
  match c with CInt v => Some (NumI v) | CUInt v => Some (NumU v) | CFloat b => Some (NumF b) | _ => None end.
Definition scalar_num (s : Scalar) : option Num :=
  match s with SInt v => Some (NumI v) | SUInt v => Some (NumU v) | SFloat b => Some (NumF b) | _ => None end.

Definition f64_lt (x y : Z) : bool := match F64.partial_cmp x y with Some Lt => true | _ => false end.
Definition f64_ge (x y : Z) : bool := match F64.partial_cmp x y with Some Gt | Some Eq => true | _ => false end.
(** [floor as i64] and [floor as u64] saturate. *)
Definition clamp (lo hi z : Z) : Z := Z.max lo (Z.min hi z).

Definition TWO_POW_63 : Z := 1086 * 2 ^ 52.
Definition TWO_POW_64 : Z := 1087 * 2 ^ 52.
Definition f64_neg (b : Z) : Z := Z.lxor b F64.SIGN.

(** The integer part first; a fraction that is left breaks the tie. *)
Definition cmp_floor (i floor f : Z) : comparison :=
  match i ?= floor with
  | Eq => if F64.floor f * F64.UNIT <? F64.value f then Lt else Eq
  | o => o
  end.
Definition cmp_i64_f64 (i f : Z) : option comparison :=
  if F64.is_nan f then None
  else if f64_ge f TWO_POW_63 then Some Lt
  else if f64_lt f (f64_neg TWO_POW_63) then Some Gt
  else Some (cmp_floor i (clamp I64_MIN I64_MAX (F64.floor f)) f).
Definition cmp_u64_f64 (u f : Z) : option comparison :=
  if F64.is_nan f then None
  else if f64_lt f 0 then Some Gt
  else if f64_ge f TWO_POW_64 then Some Lt
  else Some (cmp_floor u (clamp 0 U64_MAX (F64.floor f)) f).

Definition cmp_num (a b : Num) : option comparison :=
  match a, b with
  | NumI x, NumI y => Some (x ?= y)
  | NumU x, NumU y => Some (x ?= y)
  | NumI x, NumU y => Some (if x <? 0 then Lt else as_u64 x ?= y)
  | NumU x, NumI y => Some (if y <? 0 then Gt else x ?= as_u64 y)
  | NumF x, NumF y => F64.partial_cmp x y
  | NumI x, NumF y => cmp_i64_f64 x y
  | NumF x, NumI y => CompOpp <$> cmp_i64_f64 y x
  | NumU x, NumF y => cmp_u64_f64 x y
  | NumF x, NumU y => CompOpp <$> cmp_u64_f64 y x
  end.

(** ** Comparison *)

Definition bool_cmp (a b : bool) : comparison :=
  match a, b with false, true => Lt | true, false => Gt | _, _ => Eq end.

Definition order (cell : Cell) (value : Scalar) : result EvalError (option comparison) :=
  match cell, value with
  | CBool a, SBool b => Ok (Some (bool_cmp a b))
  | CStr a, SStr b => Ok (Some (String.compare a b))
  | _, _ =>
      match cell_num cell, scalar_num value with
      | Some a, Some b => Ok (cmp_num a b)
      | _, _ => Err Unsupported
      end
  end.

Definition op_holds (op : CmpOp) (o : comparison) : bool :=
  match op with
  | OpEq => bool_decide (o = Eq)
  | OpNotEq => bool_decide (o <> Eq)
  | OpLt => bool_decide (o = Lt)
  | OpLtEq => bool_decide (o <> Gt)
  | OpGt => bool_decide (o = Gt)
  | OpGtEq => bool_decide (o <> Lt)
  end.

Definition compare (cell : Cell) (op : CmpOp) (value : Scalar) : result EvalError (option bool) :=
  match cell, value with
  | CNull, _ | _, SNull => Ok None
  | _, _ => let? o := order cell value in Ok (op_holds op <$> o)
  end.

(** The loop of [And], [Or], [In] and [list_contains]: the absorbing value ends
    it, an unknown is remembered. *)
Section kleene.
  Context {A : Type} (f : A -> result EvalError (option bool)) (absorbing : bool).

Fixpoint kleene (unknown : bool) (l : list A) : result EvalError (option bool) :=
  match l with
  | [] => Ok (if unknown then None else Some (negb absorbing))
  | p :: l =>
      let? v := f p in
      match v with
      | Some b => if Bool.eqb b absorbing then Ok (Some absorbing) else kleene unknown l
      | None => kleene true l
      end
  end.
End kleene.

Definition list_contains (cell : Cell) (value : Scalar) : result EvalError (option bool) :=
  match cell with
  | CList items =>
      match value with
      | SNull => Ok None
      | _ => kleene (fun item => compare item OpEq value) true false items
      end
  | CNull => Ok None
  | _ => Err Unsupported
  end.

(** [s.contains(pattern)], [starts_with] and [ends_with]. *)
Fixpoint contains (s pattern : string) : bool :=
  String.prefix pattern s || match s with EmptyString => false | String _ s => contains s pattern end.
Definition starts_with (s pattern : string) : bool := String.prefix pattern s.
Fixpoint ends_with (s pattern : string) : bool :=
  String.eqb s pattern || match s with EmptyString => false | String _ s => ends_with s pattern end.
Definition string_match (kind : StringMatchKind) (s pattern : string) : bool :=
  match kind with
  | Contains => contains s pattern
  | StartsWith => starts_with s pattern
  | EndsWith => ends_with s pattern
  end.

Definition is_null (c : Cell) : bool := match c with CNull => true | _ => false end.

(** ** Evaluation *)

Section eval.
  Context (row : Row).

Fixpoint eval (e : FilterExpr) : result EvalError (option bool) :=
  match e with
  | Literal b => Ok (Some b)
  | And parts => kleene eval false false parts
  | Or parts => kleene eval true false parts
  | Not inner => let? v := eval inner in Ok (negb <$> v)
  | Compare column op value => let? cell := row column in compare cell op value
  | In column values =>
      let? cell := row column in kleene (fun v => compare cell OpEq v) true false values
  | ArrayContains column value => let? cell := row column in list_contains cell value
  | StringMatch column kind pattern =>
      let? cell := row column in
      match cell with
      | CNull => Ok None
      | CStr s => Ok (Some (string_match kind s pattern))
      | _ => Err Unsupported
      end
  | IsNull column => let? cell := row column in Ok (Some (is_null cell))
  | IsNotNull column => let? cell := row column in Ok (Some (negb (is_null cell)))
  | Raw _ => Err Unsupported
  end.
End eval.

(** A row is kept only on [Ok(Some(true))]. *)
Definition keeps (row : Row) (e : FilterExpr) : Prop := eval row e = Ok (Some true).

(** [filter_batch]: which rows of a batch pass; the first refusal is the answer. *)
Fixpoint filter_batch (batch : list ArrowRow) (filter : FilterExpr) : result EvalError (list bool) :=
  match batch with
  | [] => Ok []
  | r :: batch =>
      let? v := eval (column r) filter in
      let? vs := filter_batch batch filter in
      Ok (bool_decide (v = Some true) :: vs)
  end.

(** ** Three-valued loops *)

Definition negated (r : result EvalError (option bool)) : result EvalError (option bool) :=
  let? v := r in Ok (negb <$> v).

Section loops.
  Context {A : Type} (f : A -> result EvalError (option bool)).

(** What ends the loop early. *)
Lemma kleene_absorbed ab u l : kleene f ab u l = Ok (Some ab) <->
  exists l1 x l2, l = l1 ++ x :: l2 /\ f x = Ok (Some ab)
    /\ Forall (fun y => exists v, f y = Ok v /\ v <> Some ab) l1.
Proof.
  split.
  - revert u. induction l as [|x l IH]; intros u; cbn.
    + destruct u, ab; done.
    + intros (v & Hx & H)%rbind_Ok. destruct v as [b|].
      * destruct (Bool.eqb_spec b ab) as [->|Hne]; [by exists [], x, l|].
        destruct (IH _ H) as (l1 & y & l2 & -> & Hy & Hl). exists (x :: l1), y, l2. split_and!; [done|done|].
        constructor; [|done]. exists (Some b). split; [done|congruence].
      * destruct (IH _ H) as (l1 & y & l2 & -> & Hy & Hl). exists (x :: l1), y, l2. split_and!; [done|done|].
        constructor; [|done]. by exists None.
  - intros (l1 & x & l2 & -> & Hx & Hl). revert u. induction Hl as [|y l1 (v & Hy & Hv) Hl IH]; intros u; cbn.
    + rewrite Hx. cbn. by rewrite Bool.eqb_reflx.
    + rewrite Hy. cbn. destruct v as [b|]; [|apply IH]. destruct (Bool.eqb_spec b ab) as [->|_]; [done|apply IH].
Qed.
Lemma kleene_neutral ab u l : kleene f ab u l = Ok (Some (negb ab)) <->
  u = false /\ Forall (fun y => f y = Ok (Some (negb ab))) l.
Proof.
  split.
  - revert u. induction l as [|x l IH]; intros u; cbn.
    + destruct u; [done|]. by intros _.
    + intros (v & Hx & H)%rbind_Ok. destruct v as [b|].
      * destruct (Bool.eqb_spec b ab) as [->|Hne]; [injection H as H; by destruct ab|]. destruct (IH _ H) as [-> Hl]. split; [done|].
        constructor; [|done]. rewrite Hx. by destruct b, ab.
      * by destruct (IH _ H).
  - intros [-> Hl]. induction Hl as [|x l Hx _ IH]; cbn; [done|]. rewrite Hx. cbn. by destruct ab.
Qed.
Lemma kleene_unknown ab u l : kleene f ab u l = Ok None <->
  Forall (fun y => exists v, f y = Ok v /\ v <> Some ab) l /\ (u = true \/ Exists (fun y => f y = Ok None) l).
Proof.
  split.
  - revert u. induction l as [|x l IH]; intros u; cbn.
    + destruct u; [|done]. intros _. split; [constructor|by left].
    + intros (v & Hx & H)%rbind_Ok. destruct v as [b|].
      * destruct (Bool.eqb_spec b ab) as [->|Hne]; [done|]. destruct (IH _ H) as [Hl Hu]. split.
        { constructor; [|done]. exists (Some b). split; [done|congruence]. }
        destruct Hu as [->|He]; [by left|right; by apply Exists_cons_tl].
      * destruct (IH _ H) as [Hl _]. split; [constructor; [by exists None|done]|]. right. by apply Exists_cons_hd.
  - intros [Hl Hu]. revert u Hu. induction Hl as [|x l (v & Hx & Hv) Hl IH]; intros u Hu; cbn.
    + destruct Hu as [->|He]; [done|by apply Exists_nil in He].
    + rewrite Hx. cbn. destruct v as [b|].
      * destruct (Bool.eqb_spec b ab) as [->|Hne]; [done|]. apply IH. destruct Hu as [->|He]; [by left|right].
        apply Exists_cons in He as [He|He]; [congruence|done].
      * apply IH. by left.
Qed.

(** Negating every operand exchanges conjunction and disjunction. *)
Lemma kleene_negated ab u l : kleene (fun x => negated (f x)) (negb ab) u l = negated (kleene f ab u l).
Proof.
  revert u. induction l as [|x l IH]; intros u; cbn.
  - destruct u; [done|]. by destruct ab.
  - destruct (f x) as [[b|]|e]; cbn; [|apply IH|done]. destruct b, ab; cbn; try done; apply IH.
Qed.
End loops.

Lemma kleene_ext {A} (f g : A -> result EvalError (option bool)) ab u l :
  (forall x, x ∈ l -> f x = g x) -> kleene f ab u l = kleene g ab u l.
Proof.
  revert u. induction l as [|x l IH]; intros u H; cbn; [done|]. rewrite <- (H x) by left.
  destruct (f x) as [[b|]|e]; cbn; [destruct (Bool.eqb b ab); [done|]| |done]; apply IH; intros y Hy; apply H; by right.
Qed.
Lemma kleene_map {A B} (g : B -> A) (f : A -> result EvalError (option bool)) ab u l :
  kleene f ab u (g <$> l) = kleene (fun x => f (g x)) ab u l.
Proof.
  revert u. induction l as [|x l IH]; intros u; cbn; [done|].
  destruct (f (g x)) as [[b|]|e]; cbn; [destruct (Bool.eqb b ab); [done|]| |done]; apply IH.
Qed.

(** ** Exact comparison of numbers *)

Definition num_wf (n : Num) : Prop :=
  match n with NumI v => is_i64 v | NumU v => is_u64 v | NumF b => is_u64 b end.
Definition num_nan (n : Num) : bool := match n with NumF b => F64.is_nan b | _ => false end.
(** The number, in units of the smallest positive float. *)
Definition num_value (n : Num) : Z :=
  match n with NumI v | NumU v => v * F64.UNIT | NumF b => F64.value b end.

Lemma unit_pos : 0 < F64.UNIT.
Proof. done. Qed.
Lemma compare_scaled x y : (x * F64.UNIT ?= y * F64.UNIT) = (x ?= y).
Proof. symmetry. apply Zmult_compare_compat_r, Z.lt_gt, unit_pos. Qed.

(** Without overflow of the cast, the integer part and the rest decide. *)
Lemma cmp_floor_exact i f : cmp_floor i (F64.floor f) f = (i * F64.UNIT ?= F64.value f).
Proof.
  unfold cmp_floor, F64.floor. pose proof unit_pos as HU. set (q := F64.value f / F64.UNIT).
  pose proof (Z.div_mod (F64.value f) F64.UNIT ltac:(lia)) as E. pose proof (Z.mod_pos_bound (F64.value f) F64.UNIT HU) as B.
  fold q in E. destruct (Z.compare_spec i q) as [->|L|G].
  - destruct (Z.ltb_spec (q * F64.UNIT) (F64.value f)) as [|Hge]; symmetry;
      [by apply Z.compare_lt_iff|apply Z.compare_eq_iff; lia].
  - symmetry. apply Z.compare_lt_iff. nia.
  - symmetry. apply Z.compare_gt_iff. nia.
Qed.
Lemma clamp_in_range lo hi z : lo <= z <= hi -> clamp lo hi z = z.
Proof. unfold clamp. lia. Qed.
Lemma floor_bounds f lo hi : lo * F64.UNIT <= F64.value f < hi * F64.UNIT -> lo <= F64.floor f <= hi - 1.
Proof.
  pose proof unit_pos. intros [H1 H2]. unfold F64.floor. split; [apply Z.div_le_lower_bound; lia|].
  assert (F64.value f / F64.UNIT < hi) by (apply Z.div_lt_upper_bound; lia). lia.
Qed.

Lemma f64_ge_spec x y : F64.is_nan x = false -> F64.is_nan y = false -> f64_ge x y = (F64.value y <=? F64.value x).
Proof.
  intros Hx Hy. unfold f64_ge, F64.partial_cmp. rewrite Hx, Hy. cbn.
  destruct (Z.compare_spec (F64.value x) (F64.value y)), (Z.leb_spec (F64.value y) (F64.value x)); done || lia.
Qed.
Lemma f64_lt_spec x y : F64.is_nan x = false -> F64.is_nan y = false -> f64_lt x y = (F64.value x <? F64.value y).
Proof.
  intros Hx Hy. unfold f64_lt, F64.partial_cmp. rewrite Hx, Hy. cbn.
  destruct (Z.compare_spec (F64.value x) (F64.value y)), (Z.ltb_spec (F64.value x) (F64.value y)); done || lia.
Qed.
Lemma powers_of_two :
  F64.value TWO_POW_63 = 2 ^ 63 * F64.UNIT /\ F64.value (f64_neg TWO_POW_63) = - 2 ^ 63 * F64.UNIT
  /\ F64.value TWO_POW_64 = 2 ^ 64 * F64.UNIT /\ F64.value 0 = 0.
Proof. split_and!; vm_compute; reflexivity. Qed.

Lemma signed_float_exact i f : is_i64 i -> F64.is_nan f = false -> cmp_i64_f64 i f = Some (i * F64.UNIT ?= F64.value f).
Proof.
  intros Hi Hf. destruct powers_of_two as (P1 & P2 & _). pose proof unit_pos. unfold cmp_i64_f64.
  rewrite Hf, f64_ge_spec, f64_lt_spec, P1, P2 by done. unfold is_i64 in Hi.
  destruct (Z.leb_spec (2 ^ 63 * F64.UNIT) (F64.value f)) as [H1|H1].
  { f_equal. symmetry. apply Z.compare_lt_iff. nia. }
  destruct (Z.ltb_spec (F64.value f) (- 2 ^ 63 * F64.UNIT)) as [H2|H2].
  { f_equal. symmetry. apply Z.compare_gt_iff. nia. }
  rewrite clamp_in_range; [by rewrite cmp_floor_exact|]. apply (floor_bounds f (- 2 ^ 63) (2 ^ 63)). lia.
Qed.
Lemma unsigned_float_exact u f : is_u64 u -> F64.is_nan f = false -> cmp_u64_f64 u f = Some (u * F64.UNIT ?= F64.value f).
Proof.
  intros Hi Hf. destruct powers_of_two as (_ & _ & P1 & P2). pose proof unit_pos. unfold cmp_u64_f64.
  rewrite Hf, f64_ge_spec, f64_lt_spec, P1, P2 by done. unfold is_u64 in Hi.
  destruct (Z.ltb_spec (F64.value f) 0) as [H2|H2].
  { f_equal. symmetry. apply Z.compare_gt_iff. nia. }
  destruct (Z.leb_spec (2 ^ 64 * F64.UNIT) (F64.value f)) as [H1|H1].
  { f_equal. symmetry. apply Z.compare_lt_iff. nia. }
  rewrite clamp_in_range; [by rewrite cmp_floor_exact|]. apply (floor_bounds f 0 (2 ^ 64)). lia.
Qed.

Lemma cmp_num_exact a b : num_wf a -> num_wf b ->
  cmp_num a b = if num_nan a || num_nan b then None else Some (num_value a ?= num_value b).
Proof.
  intros Ha Hb. pose proof unit_pos.
  destruct a as [x|x|x], b as [y|y|y]; cbn [num_wf num_nan num_value orb cmp_num] in *; rewrite ?compare_scaled; try done.
  - unfold is_i64, is_u64 in *. destruct (Z.ltb_spec x 0).
    + f_equal. symmetry. apply Z.compare_lt_iff. lia.
    + unfold as_u64. by rewrite Z.mod_small by lia.
  - destruct (F64.is_nan y) eqn:Hn; [unfold cmp_i64_f64; by rewrite Hn|by apply signed_float_exact].
  - unfold is_i64, is_u64 in *. destruct (Z.ltb_spec y 0).
    + f_equal. symmetry. apply Z.compare_gt_iff. lia.
    + unfold as_u64. by rewrite Z.mod_small by lia.
  - destruct (F64.is_nan y) eqn:Hn; [unfold cmp_u64_f64; by rewrite Hn|by apply unsigned_float_exact].
  - destruct (F64.is_nan x) eqn:Hn; [unfold cmp_i64_f64; by rewrite Hn|].
    rewrite signed_float_exact by done. cbn. by rewrite <- Z.compare_antisym.
  - destruct (F64.is_nan x) eqn:Hn; [unfold cmp_u64_f64; by rewrite Hn|].
    rewrite unsigned_float_exact by done. cbn. by rewrite <- Z.compare_antisym.
Qed.

(** The operators on the numbers themselves. *)
Definition num_test (op : CmpOp) (x y : Z) : bool :=
  match op with
  | OpEq => x =? y
  | OpNotEq => negb (x =? y)
  | OpLt => x <? y
  | OpLtEq => x <=? y
  | OpGt => y <? x
  | OpGtEq => y <=? x
  end.
Lemma op_holds_test op x y : op_holds op (x ?= y) = num_test op x y.
Proof.
  destruct op; cbn [num_test].
  - destruct (Z.compare_spec x y), (Z.eqb_spec x y); done || lia.
  - destruct (Z.compare_spec x y), (Z.eqb_spec x y); done || lia.
  - destruct (Z.compare_spec x y), (Z.ltb_spec x y); done || lia.
  - destruct (Z.compare_spec x y), (Z.leb_spec x y); done || lia.
  - destruct (Z.compare_spec x y), (Z.ltb_spec y x); done || lia.
  - destruct (Z.compare_spec x y), (Z.leb_spec y x); done || lia.
Qed.

(** C32: A numeric column tested against a numeric literal is decided by the two
    numbers themselves, for every operator and every mix of signed, unsigned
    and floating-point operands: no operand is rounded, not even an integer
    above 2^53 against a float or an id above the signed range.  Only a NaN
    makes the answer unknown, and nothing is refused. *)
Theorem numbers_compared_exactly c op v a b :
  cell_num c = Some a -> scalar_num v = Some b -> num_wf a -> num_wf b ->
  compare c op v = Ok (if num_nan a || num_nan b then None else Some (num_test op (num_value a) (num_value b))).
Proof.
  intros Hc Hv Ha Hb. assert (E : compare c op v = Ok (op_holds op <$> cmp_num a b)).
  { destruct c, v; cbn in Hc, Hv; try discriminate; injection Hc as <-; injection Hv as <-; done. }
  rewrite E, cmp_num_exact by done. destruct (num_nan a || num_nan b); [done|]. cbn. by rewrite op_holds_test.
Qed.

(** 2^53 + 1 is above the float 2^53 that it would round to, and the largest id
    is above every signed number. *)
Lemma numbers_compared_exactly_witness :
  compare (CInt (2 ^ 53 + 1)) OpGt (SFloat (F64.of_int (2 ^ 53))) = Ok (Some true)
  /\ compare (CUInt U64_MAX) OpEq (SInt (-1)) = Ok (Some false).
Proof.
  split.
  - rewrite (numbers_compared_exactly _ OpGt _ (NumI (2 ^ 53 + 1)) (NumF (F64.of_int (2 ^ 53)))); [done..|by vm_compute|by vm_compute].
  - rewrite (numbers_compared_exactly _ OpEq _ (NumU U64_MAX) (NumI (-1))); [done..|by vm_compute|by vm_compute].
Defined.

(** ** Laws of the logic *)

(** Negation moves through conjunctions and disjunctions, refusals included. *)
Lemma eval_not_and row parts : eval row (Not (And parts)) = eval row (Or (Not <$> parts)).
Proof. cbn. rewrite kleene_map. symmetry. apply (kleene_negated (eval row) false). Qed.
Lemma eval_not_or row parts : eval row (Not (Or parts)) = eval row (And (Not <$> parts)).
Proof. cbn. rewrite kleene_map. symmetry. apply (kleene_negated (eval row) true). Qed.
(** [x IN (a, b)] is [x = a OR x = b]. *)
Lemma eval_in_or row column values : values <> [] ->
  eval row (In column values) = eval row (Or (Compare column OpEq <$> values)).
Proof.
  intros Hv. cbn. rewrite kleene_map. destruct (row column) as [cell|e] eqn:E; cbn; [apply kleene_ext; intros x _; by rewrite E|].
  destruct values as [|v values]; [by destruct Hv|]. cbn. by rewrite E.
Qed.

(** [all] is conjunction. *)
Lemma eval_all_true row parts :
  keeps row (all parts) <-> Forall (keeps row) parts.
Proof.
  assert (H : Forall (keeps row) parts <-> Forall (keeps row) (List.filter (fun p => negb (is_true p)) parts)).
  { induction parts as [|p parts IH]; [done|]. cbn [List.filter]. rewrite Forall_cons, IH. destruct (is_true p) eqn:Hp; cbn.
    - destruct p as [[]| | | | | | | | | |]; try discriminate. unfold keeps at 1. cbn. naive_solver.
    - by rewrite Forall_cons. }
  rewrite H. unfold all. destruct (List.filter _ parts) as [|p [|q l]].
  - split; [constructor|done].
  - by rewrite Forall_singleton.
  - unfold keeps at 1. cbn [eval]. change (Some true) with (Some (negb false)). rewrite kleene_neutral. cbn [negb]. naive_solver.
Qed.

(** ** The visibility predicate on stored rows *)

Lemma compare_uint op v w : compare (CUInt v) op (SUInt w) = Ok (Some (num_test op v w)).
Proof. cbn. by rewrite op_holds_test. Qed.

Lemma ok_true {E} b : Ok (E := E) (Some b) = Ok (Some true) <-> b = true.
Proof. split; [by intros [=]|by intros ->]. Qed.

(** The test for hidden versions. *)
Lemma eval_hidden row v hs : row VERSION = Ok (CUInt v) ->
  eval row (negate (one_of VERSION (SUInt <$> hs))) = Ok (Some (negb (bool_decide (v ∈ hs)))).
Proof.
  intros Hv. unfold negate, one_of. cbn [eval]. rewrite Hv. cbn [rbind]. rewrite kleene_map.
  assert (E : kleene (fun x => compare (CUInt v) OpEq (SUInt x)) true false hs = Ok (Some (bool_decide (v ∈ hs)))).
  { induction hs as [|h hs IH]; [done|]. cbn [kleene]. rewrite compare_uint. cbn [rbind num_test].
    destruct (Z.eqb_spec v h) as [->|Hne]; cbn [Bool.eqb].
    - f_equal. f_equal. symmetry. apply bool_decide_eq_true. left.
    - rewrite IH. do 2 f_equal. apply bool_decide_ext. rewrite elem_of_cons. naive_solver. }
  rewrite E. done.
Qed.
Lemma eval_at_most row v h : row VERSION = Ok (CUInt v) -> eval row (version_at_most h) = Ok (Some (v <=? h)).
Proof. intros Hv. unfold version_at_most. cbn [eval]. rewrite Hv. cbn [rbind]. by rewrite compare_uint. Qed.

Lemma eval_filter_of row v (r : RowVisibility) : row VERSION = Ok (CUInt v) ->
  match filter_of r with Some f => eval row f = Ok (Some (admits r v)) | None => admits r v = true end.
Proof.
  intros Hv. unfold filter_of, admits. destruct (hidden r) as [|x hs]; [destruct (hwm r) as [h|]; cbn; [|done]|].
  - pose proof (eval_at_most row v h Hv) as H. unfold version_at_most in H. cbn in H. rewrite H. by rewrite andb_true_r.
  - pose proof (eval_hidden row v (x :: hs) Hv) as Hh. remember (negate _) as n eqn:En. destruct (hwm r) as [h|]; [|done].
    assert (E : all [version_at_most h; n] = And [version_at_most h; n]) by (by rewrite En).
    cbn [fmap option_fmap option_map]. rewrite E. cbn [eval kleene]. rewrite (eval_at_most row v h Hv), Hh. cbn [rbind].
    by destruct (v <=? h), (bool_decide (v ∈ x :: hs)).
Qed.

(** C33: On a stored row with its version, the predicate that a read adds for
    visibility keeps exactly the rows that the scan's own filter keeps and the
    visibility admits: at or below the high-water mark and not hidden by a bulk
    load that is still publishing. *)
Theorem visibility_answered_natively row v (r : RowVisibility) (filter : FilterExpr) :
  row VERSION = Ok (CUInt v) ->
  keeps row (bound r filter) <-> keeps row filter /\ admits r v = true.
Proof.
  intros Hv. pose proof (eval_filter_of row v r Hv) as H. unfold bound. destruct (filter_of r) as [f|].
  - rewrite eval_all_true, Forall_cons, Forall_singleton. unfold keeps. rewrite H. by rewrite ok_true.
  - rewrite H. naive_solver.
Qed.

(** Version 7 under a mark of 9: hidden while its load is publishing. *)
Definition stored_row : ArrowRow := [("_vid"%string, Some (DUInt64 3)); (VERSION, Some (DUInt64 7))].
Lemma visibility_answered_natively_witness :
  keeps (column stored_row) (bound (mkVis (Some 9) [8]) (Literal true))
  /\ ~ keeps (column stored_row) (bound (mkVis (Some 9) [7]) (Literal true)).
Proof.
  split.
  - apply (visibility_answered_natively _ 7); [reflexivity|split; reflexivity].
  - intros H. apply (visibility_answered_natively _ 7) in H; [|reflexivity]. destruct H as [_ H]. vm_compute in H. discriminate.
Defined.
End Filter.
