(* ===== verification/FilterSql.v ===== *)
(** * Row predicates as SQL text

    crates/uni-store/src/backend/types.rs: the rendering of a [FilterExpr] for
    a backend that takes predicate text, with the rewrites it makes on the way
    (same-column [IN] lists of a conjunction, [i64::MIN], NULL in a list), and
    the weakening that a scan pushes down when a part has no rendering.  The
    decimal text of a float is an argument of the rendering. *)

From stdpp Require Import pretty.
From S2P Require Import Prelude Float64 BulkGate FilterEval.

Module FilterSql.
Import Filter.

(** [PartialEq for Scalar] compares representations, floats by their bits. *)
#[export] Instance scalar_eq_dec : EqDecision Scalar.
Proof. solve_decision. Defined.

Definition is_null_scalar (v : Scalar) : bool := match v with SNull => true | _ => false end.

Definition as_sql (op : CmpOp) : string :=
  match op with
  | OpEq => "=" | OpNotEq => "!=" | OpLt => "<" | OpLtEq => "<=" | OpGt => ">" | OpGtEq => ">="
  end.

(** The messages are not kept; [OutOfFuel] is the model's own. *)
Inductive ToSqlError := NotInDialect | OutOfFuel.

(** ** The rewrite of same-column lists *)

Definition foldable (e : FilterExpr) : bool :=
  match e with
  | In _ values => negb (Nat.eqb (length values) 0) && negb (existsb is_null_scalar values)
  | _ => false
  end.
(** A foldable list on this column. *)
Definition folds_on (column : string) (e : FilterExpr) : bool :=
  match e with In c _ => String.eqb c column && foldable e | _ => false end.
(** [counts.get(column)] *)
Definition count (parts : list FilterExpr) (column : string) : nat :=
  length (List.filter (folds_on column) parts).

Definition in_values (e : FilterExpr) : list Scalar := match e with In _ values => values | _ => [] end.
Definition intersect (prev values : list Scalar) : list Scalar :=
  List.filter (fun v => bool_decide (v ∈ values)) prev.
(** Every foldable list on the column, in order. *)
Definition intersect_all (parts : list FilterExpr) (column : string) : list Scalar :=
  match List.filter (folds_on column) parts with
  | [] => []
  | q :: qs => foldl (fun acc q => intersect acc (in_values q)) (in_values q) qs
  end.

Section fold.
  Context (parts : list FilterExpr).

Definition merged (column : string) : FilterExpr :=
  match intersect_all parts column with
  | [] => And [IsNull column; In column [SNull]]
  | values => In column values
  end.
Fixpoint fold_loop (emitted : list string) (ps : list FilterExpr) : list FilterExpr :=
  match ps with
  | [] => []
  | p :: ps =>
      match p with
      | In column _ =>
          if negb (foldable p) || Nat.ltb (count parts column) 2 then p :: fold_loop emitted ps
          else if bool_decide (column ∈ emitted) then fold_loop emitted ps
          else merged column :: fold_loop (column :: emitted) ps
      | _ => p :: fold_loop emitted ps
      end
  end.
End fold.

(** [!counts.values().any(|n| *n > 1)] *)
Definition repeats (parts : list FilterExpr) : bool :=
  existsb (fun p => match p with In column _ => foldable p && Nat.ltb 1 (count parts column) | _ => false end) parts.
Definition fold_same_column_ins (parts : list FilterExpr) : list FilterExpr :=
  if repeats parts then fold_loop parts [] parts else parts.

(** ** Constructors *)

Definition is_false (p : FilterExpr) : bool := match p with Literal false => true | _ => false end.
Definition any_of (parts : list FilterExpr) : FilterExpr :=
  match List.filter (fun p => negb (is_false p)) parts with
  | [] => Literal false
  | [p] => p
  | kept => Or kept
  end.

Fixpoint is_trivially_true (e : FilterExpr) : bool :=
  match e with
  | Literal b => b
  | And parts => forallb is_trivially_true parts
  | Or parts => existsb is_trivially_true parts
  | _ => false
  end.

(** ** Text *)

Definition BACKTICK : Ascii.ascii := Ascii.ascii_of_nat 96.
Definition QUOTE : Ascii.ascii := Ascii.ascii_of_nat 39.
Definition backtick : string := String BACKTICK EmptyString.
Definition quote : string := String QUOTE EmptyString.
Definition PERCENT : Ascii.ascii := Ascii.ascii_of_nat 37.
Definition UNDERSCORE : Ascii.ascii := Ascii.ascii_of_nat 95.

Fixpoint has_char (c : Ascii.ascii) (s : string) : bool :=
  match s with EmptyString => false | String d s => Ascii.eqb d c || has_char c s end.
(** [s.replace('\'', "''")] *)
Fixpoint escape (s : string) : string :=
  match s with
  | EmptyString => EmptyString
  | String c s => if Ascii.eqb c QUOTE then String c (String c (escape s)) else String c (escape s)
  end.

Definition paren (s : string) : string :=
  if String.eqb s "true" || String.eqb s "false" then s else "(" +:+ s +:+ ")".
Definition quote_ident (name : string) : result ToSqlError string :=
  if has_char BACKTICK name then Err NotInDialect else Ok (backtick +:+ name +:+ backtick).
Definition SQL_UNKNOWN : string := "CAST(NULL AS BOOLEAN)".

Definition respell_i64_min_compare (column : string) (op : CmpOp) : FilterExpr :=
  let next := SInt (I64_MIN + 1) in
  let unknown := In column [SNull] in
  match op with
  | OpEq | OpLtEq => Compare column OpLt next
  | OpNotEq | OpGt => Compare column OpGtEq next
  | OpGtEq => Or [IsNotNull column; unknown]
  | OpLt => And [IsNull column; unknown]
  end.

(** [iter().map(f).collect::<Result<Vec<_>, _>>()] *)
Fixpoint collect {A B E} (f : A -> result E B) (l : list A) : result E (list B) :=
  match l with
  | [] => Ok []
  | a :: l => let? b := f a in let? bs := collect f l in Ok (b :: bs)
  end.

Section text.
  Context (f64_to_string : Z -> string).

Definition scalar_to_sql (v : Scalar) : string :=
  match v with
  | SNull => "NULL"
  | SBool b => if b then "true" else "false"
  | SInt i => pretty i
  | SUInt u => pretty u
  | SFloat f => f64_to_string f
  | SStr s => quote +:+ escape s +:+ quote
  end.

Definition in_sql (column : string) (values : list Scalar) : result ToSqlError string :=
  match values with
  | [] => Ok "false"%string
  | _ =>
      let nulls := List.filter is_null_scalar values in
      let non_nulls := List.filter (fun v => negb (is_null_scalar v)) values in
      match nulls, non_nulls with
      | [], [only] => let? c := quote_ident column in Ok (c +:+ " = " +:+ scalar_to_sql only)
      | [], _ =>
          let? c := quote_ident column in
          Ok (c +:+ " IN (" +:+ String.concat ", " (scalar_to_sql <$> non_nulls) +:+ ")")
      | _, [] => Ok SQL_UNKNOWN
      | _, _ =>
          let? c := quote_ident column in
          Ok ("(" +:+ c +:+ " IN (" +:+ String.concat ", " (scalar_to_sql <$> non_nulls) +:+ ") OR " +:+ SQL_UNKNOWN +:+ ")")
      end
  end.

(** [to_sql], to a depth of [n] calls. *)
Fixpoint to_sql_n (n : nat) (e : FilterExpr) : result ToSqlError string :=
  match n with
  | O => Err OutOfFuel
  | S n =>
      let item := fun p => let? s := to_sql_n n p in Ok (paren s) in
      match e with
      | Literal true => Ok "true"%string
      | Literal false => Ok "false"%string
      | And [] => Ok "true"%string
      | And parts =>
          let? rendered := collect item (fold_same_column_ins parts) in Ok (String.concat " AND " rendered)
      | Or [] => Ok "false"%string
      | Or parts => let? rendered := collect item parts in Ok (String.concat " OR " rendered)
      | Not inner => let? s := to_sql_n n inner in Ok ("NOT " +:+ paren s)
      | Compare column op value =>
          if bool_decide (value = SInt I64_MIN) then to_sql_n n (respell_i64_min_compare column op)
          else let? c := quote_ident column in Ok (c +:+ " " +:+ as_sql op +:+ " " +:+ scalar_to_sql value)
      | In column values =>
          if bool_decide (SInt I64_MIN ∈ values) then
            let rest := List.filter (fun v => negb (bool_decide (v = SInt I64_MIN))) values in
            let min := Compare column OpEq (SInt I64_MIN) in
            match rest with
            | [] => to_sql_n n min
            | _ => to_sql_n n (Or [one_of column rest; min])
            end
          else in_sql column values
      | ArrayContains column value =>
          let? c := quote_ident column in Ok ("array_contains(" +:+ c +:+ ", " +:+ scalar_to_sql value +:+ ")")
      | StringMatch column kind pattern =>
          if has_char PERCENT pattern || has_char UNDERSCORE pattern then Err NotInDialect
          else
            let escaped := escape pattern in
            let? c := quote_ident column in
            Ok (match kind with
                | Contains => c +:+ " LIKE " +:+ quote +:+ "%" +:+ escaped +:+ "%" +:+ quote
                | StartsWith => c +:+ " LIKE " +:+ quote +:+ escaped +:+ "%" +:+ quote
                | EndsWith => c +:+ " LIKE " +:+ quote +:+ "%" +:+ escaped +:+ quote
                end)
      | IsNull column => let? c := quote_ident column in Ok (c +:+ " IS NULL")
      | IsNotNull column => let? c := quote_ident column in Ok (c +:+ " IS NOT NULL")
      | Raw s => Ok s
      end
  end.

(** The depth of an expression; a leaf is respelled in at most five calls. *)
Fixpoint calls (e : FilterExpr) : nat :=
  match e with
  | And parts | Or parts => S (Nat.max 6 (list_max (calls <$> parts)))
  | Not inner => S (calls inner)
  | Compare _ _ _ => 4
  | In _ _ => 6
  | _ => 1
  end.
Definition to_sql (e : FilterExpr) : result ToSqlError string := to_sql_n (calls e) e.

(** ** The weakening that is pushed down *)

Fixpoint sql_pushable (e : FilterExpr) : FilterExpr :=
  if is_ok (to_sql e) then e
  else match e with
       | And parts => all (sql_pushable <$> parts)
       | _ => Literal true
       end.
End text.

(** ** Members of a rewritten conjunction *)

Lemma folds_on_In column p : folds_on column p = true -> exists values, p = In column values /\ foldable p = true.
Proof.
  destruct p; try discriminate. cbn [folds_on]. intros [->%String.eqb_eq H]%andb_true_iff. by eexists.
Qed.
Lemma folds_on_self column values : foldable (In column values) = true -> folds_on column (In column values) = true.
Proof. intros H. cbn [folds_on]. by rewrite String.eqb_refl, H. Qed.
Lemma foldable_In values column : foldable (In column values) = true <-> values <> [] /\ SNull ∉ values.
Proof.
  cbn [foldable]. rewrite andb_true_iff, !negb_true_iff, Nat.eqb_neq. split.
  - intros [H1 H2]. split; [by intros ->|]. intros H. apply not_true_iff_false in H2. apply H2, existsb_exists.
    exists SNull. split; [by apply list_elem_of_In|done].
  - intros [H1 H2]. split; [by destruct values|]. apply not_true_iff_false. intros (v & Hv & Hn)%existsb_exists.
    apply H2. destruct v; try discriminate. by apply list_elem_of_In.
Qed.

Lemma folds_count parts column p : p ∈ parts -> folds_on column p = true -> count parts column <> O.
Proof.
  intros Hp Hf. unfold count. intros E%length_zero_iff_nil. apply (not_elem_of_nil p). rewrite <- E.
  apply list_elem_of_In, filter_In. split; [by apply list_elem_of_In|done].
Qed.

Section members.
  Context (parts : list FilterExpr).

Lemma fold_loop_from emitted ps q : q ∈ fold_loop parts emitted ps ->
  q ∈ ps \/ exists column p, p ∈ ps /\ folds_on column p = true /\ q = merged parts column.
Proof.
  revert emitted. induction ps as [|p ps IH]; intros emitted; [by intros ?%elem_of_nil|].
  assert (Hstep : forall em, q ∈ fold_loop parts em ps -> q ∈ p :: ps \/ exists column p', p' ∈ p :: ps /\ folds_on column p' = true /\ q = merged parts column).
  { intros em [H|(c & p' & H & Hf & E)]%IH; [left; by right|right]. exists c, p'. split; [by right|done]. }
  assert (Hkeep : q ∈ p :: fold_loop parts emitted ps -> q ∈ p :: ps \/ exists column p', p' ∈ p :: ps /\ folds_on column p' = true /\ q = merged parts column).
  { intros [->|H]%elem_of_cons; [left; left|by eapply Hstep]. }
  destruct p as [| | | | |col vs| | | | |]; try exact Hkeep. cbn [fold_loop]. destruct (foldable _) eqn:Hf; cbn [negb orb]; [|exact Hkeep].
  destruct (Nat.ltb _ 2); [exact Hkeep|]. case_bool_decide; [apply Hstep|]. intros [->|H']%elem_of_cons; [|by eapply Hstep].
  right. exists col, (In col vs). split; [left|]. split; [by apply folds_on_self|done].
Qed.
Lemma fold_loop_into emitted ps p : p ∈ ps ->
  p ∈ fold_loop parts emitted ps
  \/ exists column, folds_on column p = true /\ (column ∈ emitted \/ merged parts column ∈ fold_loop parts emitted ps).
Proof.
  revert emitted. induction ps as [|q ps IH]; intros emitted; [by intros ?%elem_of_nil|].
  assert (Hkeep : p ∈ q :: ps -> p ∈ q :: fold_loop parts emitted ps
    \/ exists column, folds_on column p = true /\ (column ∈ emitted \/ merged parts column ∈ q :: fold_loop parts emitted ps)).
  { intros [->|H]%elem_of_cons; [left; left|]. destruct (IH emitted H) as [|(c & Hc & [|])]; [left; by right|right; exists c..].
    - by eauto.
    - split; [done|right; by right]. }
  destruct q as [| | | | |col vs| | | | |]; try exact Hkeep. cbn [fold_loop]. destruct (foldable _) eqn:Hf; cbn [negb orb]; [|exact Hkeep].
  destruct (Nat.ltb _ 2); [exact Hkeep|]. case_bool_decide as Hem.
  - intros [->|H]%elem_of_cons; [|by apply IH]. right. exists col. split; [by apply folds_on_self|by left].
  - intros [->|H]%elem_of_cons.
    + right. exists col. split; [by apply folds_on_self|right; left].
    + destruct (IH (col :: emitted) H) as [|(c & Hc & [Hem'|])]; [left; by right| |].
      * apply elem_of_cons in Hem' as [->|]; right; eexists; (split; [done|]); [right; left|by left].
      * right. exists c. split; [done|right; by right].
Qed.
End members.

Lemma fold_from parts q : q ∈ fold_same_column_ins parts ->
  q ∈ parts \/ exists column p, p ∈ parts /\ folds_on column p = true /\ q = merged parts column.
Proof. unfold fold_same_column_ins. destruct (repeats parts); [apply fold_loop_from|by left]. Qed.
Lemma fold_into parts p : p ∈ parts ->
  p ∈ fold_same_column_ins parts
  \/ exists column, folds_on column p = true /\ merged parts column ∈ fold_same_column_ins parts.
Proof.
  intros H. unfold fold_same_column_ins. destruct (repeats parts); [|by left].
  destruct (fold_loop_into parts [] parts p H) as [|(c & Hc & [?%elem_of_nil|])]; [by left|done|right; eauto].
Qed.

(** ** The rewrite preserves the truth value *)

(** A literal of the column's own type; for a float, one that is neither a NaN
    nor the negative zero, against a number. *)
Definition matches_type (cell : Cell) (v : Scalar) : Prop :=
  match cell, v with
  | CNull, _ => True
  | CBool _, SBool _ | CInt _, SInt _ | CUInt _, SUInt _ | CStr _, SStr _ => True
  | CFloat x, SFloat b =>
      is_u64 x /\ is_u64 b /\ F64.is_nan x = false /\ F64.is_nan b = false /\ b <> F64.SIGN
  | _, _ => False
  end.
(** The only such literal that equals the cell. *)
Definition literal_of (cell : Cell) : Scalar :=
  match cell with
  | CBool b => SBool b
  | CInt v => SInt v
  | CUInt v => SUInt v
  | CFloat x => SFloat (if bool_decide (x = F64.SIGN) then 0 else x)
  | CStr s => SStr s
  | _ => SNull
  end.

Lemma float_eq_literal x b : matches_type (CFloat x) (SFloat b) ->
  F64.partial_cmp x b = Some Eq <-> SFloat b = literal_of (CFloat x).
Proof.
  intros (Hx & Hb & Nx & Nb & Sb). cbn [literal_of]. unfold F64.partial_cmp. rewrite Nx, Nb. cbn [orb].
  assert (H : forall y, is_u64 y -> y <> F64.SIGN -> (F64.value y ?= F64.value b) = Eq <-> b = y).
  { intros y Hy Sy. rewrite <- F64.order_bits_compare by done. rewrite Z.compare_eq_iff.
    split; [intros E; symmetry; by apply F64.order_bits_inj|by intros ->]. }
  case_bool_decide as Hs.
  - subst x. change (F64.value F64.SIGN) with (F64.value 0). specialize (H 0 ltac:(done) ltac:(done)). naive_solver.
  - specialize (H x Hx Hs). split; intros [= E]; f_equal; by apply H.
Qed.
Lemma compare_literal cell v : is_null cell = false -> v <> SNull -> matches_type cell v ->
  Filter.compare cell OpEq v = Ok (Some (bool_decide (v = literal_of cell))).
Proof.
  intros Hn Hv Ht. destruct cell as [|a|a|a|x|a|], v as [|b|b|b|b|b]; try done; cbn.
  - by destruct a, b.
  - do 2 f_equal. apply bool_decide_ext. rewrite Z.compare_eq_iff. naive_solver.
  - do 2 f_equal. apply bool_decide_ext. rewrite Z.compare_eq_iff. naive_solver.
  - pose proof (float_eq_literal x b Ht) as H. destruct (F64.partial_cmp x b) as [o|] eqn:Ho.
    + cbn. do 2 f_equal. apply bool_decide_ext. cbn [literal_of] in H. rewrite <- H. split; [by intros ->|by intros [=]].
    + destruct Ht as (_ & _ & Nx & Nb & _). unfold F64.partial_cmp in Ho. by rewrite Nx, Nb in Ho.
  - do 2 f_equal. apply bool_decide_ext. split; [intros E; f_equal; symmetry; by apply String.compare_eq_iff|].
    intros [= ->]. destruct (String.compare a a) eqn:E; [done|..]; pose proof (String.compare_antisym a a) as A; by rewrite E in A.
Qed.

(** A list of such literals on a row. *)
Lemma eval_in_literals (row : Row) column values cell :
  row column = Ok cell -> is_null cell = false -> SNull ∉ values -> Forall (matches_type cell) values ->
  eval row (In column values) = Ok (Some (bool_decide (literal_of cell ∈ values))).
Proof.
  intros Hr Hn Hs Ht. cbn [eval]. rewrite Hr. cbn [rbind]. induction Ht as [|v values Hv Ht IH]; [done|].
  cbn [kleene]. rewrite compare_literal; [|done| |done]; [|by intros ->; apply Hs; left]. cbn [rbind].
  destruct (decide (v = literal_of cell)) as [E|E].
  - rewrite !bool_decide_eq_true_2; [done| |done]. rewrite <- E. left.
  - rewrite (bool_decide_eq_false_2 _ E). cbn [Bool.eqb]. rewrite IH by (intros H; apply Hs; by right).
    do 2 f_equal. apply bool_decide_ext. rewrite elem_of_cons. naive_solver.
Qed.
Lemma eval_in_null (row : Row) column values :
  row column = Ok CNull -> values <> [] -> eval row (In column values) = Ok None.
Proof.
  intros Hr Hv. cbn [eval]. rewrite Hr. cbn [rbind]. apply kleene_unknown. split.
  - apply Forall_forall. intros v _. by exists None.
  - right. destruct values as [|v values]; [by destruct Hv|]. by apply Exists_cons_hd.
Qed.

Lemma elem_of_intersect v prev values : v ∈ intersect prev values <-> v ∈ prev /\ v ∈ values.
Proof. unfold intersect. rewrite list_elem_of_In, filter_In, bool_decide_eq_true, <- list_elem_of_In. done. Qed.
Lemma elem_of_intersect_all parts column v : count parts column <> O ->
  v ∈ intersect_all parts column <-> forall q, q ∈ parts -> folds_on column q = true -> v ∈ in_values q.
Proof.
  unfold count, intersect_all. intros Hc.
  assert (E : forall q, q ∈ List.filter (folds_on column) parts <-> q ∈ parts /\ folds_on column q = true).
  { intros q. by rewrite list_elem_of_In, filter_In, <- list_elem_of_In. }
  transitivity (forall q, q ∈ List.filter (folds_on column) parts -> v ∈ in_values q).
  2:{ split; intros H q; [intros Hq Hf; apply H, E; done|intros [Hq Hf]%E; by apply H]. }
  clear E. destruct (List.filter (folds_on column) parts) as [|q qs]; [done|]. clear Hc.
  assert (H : forall l, v ∈ foldl (fun acc q => intersect acc (in_values q)) l qs <-> v ∈ l /\ forall q, q ∈ qs -> v ∈ in_values q).
  { induction qs as [|q' qs IH]; intros l; cbn [foldl].
    - split; [intros Hl; split; [done|by intros ? ?%elem_of_nil]|by intros []].
    - rewrite IH, elem_of_intersect. setoid_rewrite elem_of_cons. naive_solver. }
  rewrite H. setoid_rewrite elem_of_cons. naive_solver.
Qed.

(** The lists of a conjunction that may be merged carry literals of their
    column's type. *)
Definition typed_lists (row : Row) (parts : list FilterExpr) : Prop :=
  forall column values, In column values ∈ parts -> foldable (In column values) = true ->
  exists cell, row column = Ok cell /\ Forall (matches_type cell) values.

Section folded.
  Context (row : Row) (parts : list FilterExpr) (Ht : typed_lists row parts).

Lemma typed_on column q : q ∈ parts -> folds_on column q = true ->
  exists values cell, q = In column values /\ values <> [] /\ (SNull ∉ values)
    /\ row column = Ok cell /\ Forall (matches_type cell) values.
Proof.
  intros Hq Hf. destruct (folds_on_In column q Hf) as (values & -> & Hv). destruct (Ht column values Hq Hv) as (cell & Hr & Hm).
  apply foldable_In in Hv as [Hne Hs]. by exists values, cell.
Qed.

(** The merged list is the conjunction of the lists it replaces. *)
Lemma eval_merged column p : p ∈ parts -> folds_on column p = true ->
  (row column = Ok CNull /\ eval row (merged parts column) = Ok None
    /\ forall q, q ∈ parts -> folds_on column q = true -> eval row q = Ok None)
  \/ exists b, eval row (merged parts column) = Ok (Some b)
     /\ (b = true <-> forall q, q ∈ parts -> folds_on column q = true -> eval row q = Ok (Some true))
     /\ forall q, q ∈ parts -> folds_on column q = true -> exists b', eval row q = Ok (Some b').
Proof.
  intros Hp Hf. destruct (typed_on column p Hp Hf) as (values & cell & -> & Hne & Hs & Hr & Hm).
  pose proof (folds_count parts column _ Hp Hf) as Hc.
  assert (Hsub : forall v, v ∈ intersect_all parts column -> v ∈ values).
  { intros v Hv. by apply (proj1 (elem_of_intersect_all parts column v Hc) Hv (In column values)). }
  destruct (is_null cell) eqn:Hn.
  - left. destruct cell; try discriminate. split; [done|]. split.
    + unfold merged. destruct (intersect_all parts column) as [|v vs]; [|by apply eval_in_null].
      cbn [eval kleene]. rewrite Hr. done.
    + intros q Hq Hfq. destruct (typed_on column q Hq Hfq) as (vs & c & -> & Hvs & _). by apply eval_in_null.
  - right. set (w := literal_of cell). exists (bool_decide (w ∈ intersect_all parts column)).
    assert (Hq : forall q, q ∈ parts -> folds_on column q = true -> eval row q = Ok (Some (bool_decide (w ∈ in_values q)))).
    { intros q Hq Hfq. destruct (typed_on column q Hq Hfq) as (vs & c & -> & _ & Hs' & Hr' & Hm').
      rewrite Hr in Hr'. injection Hr' as <-. by apply eval_in_literals. }
    split_and!.
    + unfold merged. destruct (intersect_all parts column) as [|v vs] eqn:Ei.
      { cbn [eval kleene]. rewrite Hr. cbn [rbind]. by rewrite Hn. }
      apply eval_in_literals; [done|done|..]; [intros H; by apply Hs, Hsub|].
      apply Forall_forall. intros x Hx. by apply (proj1 (Forall_forall _ values) Hm), Hsub.
    + rewrite bool_decide_eq_true, elem_of_intersect_all by done. split; intros H q Hq1 Hq2; specialize (H q Hq1 Hq2).
      * rewrite Hq by done. do 2 f_equal. by apply bool_decide_eq_true.
      * rewrite Hq in H by done. injection H as H. by apply bool_decide_eq_true in H.
    + intros q Hq1 Hq2. eexists. by apply Hq.
Qed.

(** A false operand is met, itself or in the list it was merged into. *)
Lemma fold_loop_false l1 p l2 emitted u : (forall q, q ∈ l1 ++ p :: l2 -> q ∈ parts) ->
  Forall (fun y => exists v, eval row y = Ok v /\ v <> Some false) l1 -> eval row p = Ok (Some false) ->
  (forall column, column ∈ emitted -> eval row (merged parts column) <> Ok (Some false)) ->
  kleene (eval row) false u (fold_loop parts emitted (l1 ++ p :: l2)) = Ok (Some false).
Proof.
  intros Hin Hl Hp. revert Hin emitted u.
  assert (Hm : forall col vs, In col vs ∈ parts -> foldable (In col vs) = true ->
    exists v, eval row (merged parts col) = Ok v /\ (eval row (In col vs) = Ok (Some false) -> v = Some false)).
  { intros col vs Hin Hf. destruct (eval_merged col (In col vs) Hin (folds_on_self _ _ Hf)) as [(_ & E & H)|(b & E & Hb & _)].
    - exists None. split; [done|]. by rewrite (H _ Hin (folds_on_self _ _ Hf)).
    - exists (Some b). split; [done|]. intros Hfalse. destruct b; [|done].
      rewrite (proj1 Hb eq_refl _ Hin (folds_on_self _ _ Hf)) in Hfalse. done. }
  induction Hl as [|q l1 (v & Hq & Hv) Hl IH]; intros Hin emitted u Hem; cbn [app].
  - assert (Hkeep : kleene (eval row) false u (p :: fold_loop parts emitted l2) = Ok (Some false)) by (cbn [kleene]; by rewrite Hp).
    destruct p as [| | | | |col vs| | | | |]; try exact Hkeep. cbn [fold_loop]. destruct (foldable _) eqn:Hf; cbn [negb orb]; [|exact Hkeep].
    destruct (Nat.ltb _ 2); [exact Hkeep|]. destruct (Hm col vs (Hin _ ltac:(by left)) Hf) as (v & E & Hv). rewrite (Hv Hp) in E.
    case_bool_decide as Hc; [by destruct (Hem col Hc)|]. cbn [kleene]. by rewrite E.
  - assert (Hin' : forall q, q ∈ l1 ++ p :: l2 -> q ∈ parts) by (intros q' Hq'; apply Hin; by right).
    assert (Hkeep : kleene (eval row) false u (q :: fold_loop parts emitted (l1 ++ p :: l2)) = Ok (Some false)).
    { cbn [kleene]. rewrite Hq. cbn [rbind]. destruct v as [[]|]; [by apply IH|done|by apply IH]. }
    destruct q as [| | | | |col vs| | | | |]; try exact Hkeep. cbn [fold_loop]. destruct (foldable _) eqn:Hf; cbn [negb orb]; [|exact Hkeep].
    destruct (Nat.ltb _ 2); [exact Hkeep|]. case_bool_decide as Hc; [by apply IH|].
    destruct (Hm col vs (Hin _ ltac:(by left)) Hf) as (w & E & _). cbn [kleene]. rewrite E. cbn [rbind].
    assert (Hem' : w <> Some false -> forall column, column ∈ col :: emitted -> eval row (merged parts column) <> Ok (Some false)).
    { intros Hw c [->|Hc']%elem_of_cons; [rewrite E; by intros [=]|by apply Hem]. }
    destruct w as [[]|]; [by apply IH, Hem'|done|by apply IH, Hem'].
Qed.

Lemma fold_preserves_false : eval row (And parts) = Ok (Some false) ->
  eval row (And (fold_same_column_ins parts)) = Ok (Some false).
Proof.
  cbn [eval]. intros H. unfold fold_same_column_ins. destruct (repeats parts); [|done].
  apply kleene_absorbed in H as (l1 & x & l2 & E & Hx & Hl). rewrite E at 2.
  apply fold_loop_false; [by intros q; rewrite <- E|done|done|by intros ? ?%elem_of_nil].
Qed.

(** Operands that are not false stay so. *)
Lemma fold_preserves_nonfalse : Forall (fun y => exists v, eval row y = Ok v /\ v <> Some false) parts ->
  Forall (fun y => exists v, eval row y = Ok v /\ v <> Some false) (fold_same_column_ins parts).
Proof.
  rewrite !Forall_forall. intros H q [Hq|(c & p & Hp & Hf & ->)]%fold_from; [by apply H|].
  destruct (eval_merged c p Hp Hf) as [(_ & E & _)|(b & E & Hb & Hall)]; rewrite E; [by exists None|]. exists (Some b). split; [done|].
  destruct b; [done|]. enough (false = true) by done. apply Hb. intros q Hq Hfq. destruct (Hall q Hq Hfq) as (b' & E').
  destruct (H q Hq) as (v & Ev & Hv). rewrite E' in Ev. injection Ev as <-. by destruct b'.
Qed.
End folded.

(** Replacing the lists that a conjunction holds on one column by a single
    list of their common literals preserves the three-valued answer, unknown on
    a NULL column included, whenever the literals have the type of their column
    and the original conjunction has an answer. *)
Lemma folded_lists_agree (row : Row) parts v : typed_lists row parts ->
  eval row (And parts) = Ok v -> eval row (And (fold_same_column_ins parts)) = Ok v.
Proof.
  intros Ht H. destruct v as [[]|]; [|by apply fold_preserves_false|]; cbn [eval] in *.
  - change (Some true) with (Some (negb false)) in *. apply kleene_neutral in H as [_ H]. apply kleene_neutral. split; [done|].
    rewrite Forall_forall in *. intros q [Hq|(c & p & Hp & Hf & ->)]%fold_from; [by apply H|].
    destruct (eval_merged row parts Ht c p Hp Hf) as [(_ & _ & E)|(b & E & Hb & _)].
    + specialize (E p Hp Hf). by rewrite H in E.
    + rewrite E. do 2 f_equal. apply Hb. intros q Hq _. by apply H.
  - apply kleene_unknown in H as [Hl [|He]]; [done|]. apply kleene_unknown. split; [by apply fold_preserves_nonfalse|right].
    apply Exists_exists in He as (p & Hp & E). apply Exists_exists.
    destruct (fold_into parts p Hp) as [Hq|(c & Hf & Hq)]; [by eexists|]. exists (merged parts c). split; [done|].
    destruct (eval_merged row parts Ht c p Hp Hf) as [(_ & Em & _)|(b & _ & _ & Hall)]; [done|].
    destruct (Hall p Hp Hf) as (b' & E'). by rewrite E in E'.
Qed.

Definition score_row (score : Cell) : Row :=
  fun name => if String.eqb name "score" then Ok score else Err (UnknownColumn name).
Example folded_lists_example :
  eval (score_row (CInt 2)) (And (fold_same_column_ins [In "score" [SInt 1; SInt 2]; Literal true; In "score" [SInt 2; SInt 3]])) = Ok (Some true)
  /\ eval (score_row CNull) (And (fold_same_column_ins [In "score" [SInt 1]; In "score" [SInt 3]])) = Ok None.
Proof.
  assert (H : forall c l, (c = CInt 2 \/ c = CNull) -> Forall (fun e => match e with In n vs => n = "score"%string /\ Forall (matches_type (CInt 2)) vs | _ => True end) l ->
    typed_lists (score_row c) l).
  { intros c l Hc Hl n vs Hin _. rewrite Forall_forall in Hl. destruct (Hl _ Hin) as [-> Hv]. exists c. split; [done|].
    destruct Hc as [-> | ->]; [done|]. apply Forall_forall. done. }
  split; (apply folded_lists_agree; [apply H; [naive_solver|repeat constructor]|reflexivity]).
Qed.

(** The literals' types matter: two zeros of different sign, an integer beside
    a float, and a NaN in the column each change the answer, because literals
    are intersected by representation and compared by value. *)
Theorem folding_ignores_equal_numbers :
  let zeros := [In "score" [SFloat 0]; In "score" [SFloat F64.SIGN]] in
  let ones := [In "score" [SInt 1]; In "score" [SFloat (F64.of_int 1)]] in
  let apart := [In "score" [SFloat 0]; In "score" [SFloat (F64.of_int 1)]] in
  let nan := score_row (CFloat (F64.INF + 1)) in
  keeps (score_row (CFloat 0)) (And zeros) /\ eval (score_row (CFloat 0)) (And (fold_same_column_ins zeros)) = Ok (Some false)
  /\ keeps (score_row (CInt 1)) (And ones) /\ eval (score_row (CInt 1)) (And (fold_same_column_ins ones)) = Ok (Some false)
  /\ ~ keeps nan (Not (And apart)) /\ keeps nan (Not (And (fold_same_column_ins apart))).
Proof. split_and!; try (vm_compute; reflexivity). intros H. vm_compute in H. discriminate. Qed.

(** ** What has a rendering *)

Section nested.
  Context (P : FilterExpr -> Prop).
  Context (HL : forall b, P (Literal b)) (HA : forall l, Forall P l -> P (And l)) (HO : forall l, Forall P l -> P (Or l))
    (HN : forall e, P e -> P (Not e)) (HC : forall c op v, P (Compare c op v)) (HI : forall c vs, P (In c vs))
    (HR : forall c v, P (ArrayContains c v)) (HS : forall c k s, P (StringMatch c k s)) (H0 : forall c, P (IsNull c))
    (H1 : forall c, P (IsNotNull c)) (HW : forall s, P (Raw s)).

Fixpoint filter_rect (e : FilterExpr) : P e :=
  let go := fix go (l : list FilterExpr) : Forall P l :=
    match l with [] => Forall_nil_2 P | p :: l => Forall_cons_2 P p l (filter_rect p) (go l) end in
  match e with
  | Literal b => HL b
  | And l => HA l (go l)
  | Or l => HO l (go l)
  | Not e => HN e (filter_rect e)
  | Compare c op v => HC c op v
  | In c vs => HI c vs
  | ArrayContains c v => HR c v
  | StringMatch c k s => HS c k s
  | IsNull c => H0 c
  | IsNotNull c => H1 c
  | Raw s => HW s
  end.
End nested.

(** A column whose name the dialect can spell. *)
Definition spellable (column : string) : bool := negb (has_char BACKTICK column).
(** The expressions that the dialect can express: every column that is named in
    the text is spellable, no pattern has a wildcard. *)
Fixpoint renders (e : FilterExpr) : bool :=
  match e with
  | Literal _ | Raw _ => true
  | And parts | Or parts => forallb renders parts
  | Not inner => renders inner
  | In column values => spellable column || forallb is_null_scalar values
  | StringMatch column _ pattern =>
      negb (has_char PERCENT pattern || has_char UNDERSCORE pattern) && spellable column
  | Compare column _ _ | ArrayContains column _ | IsNull column | IsNotNull column => spellable column
  end.

Lemma renders_folded parts column : folds_on column parts = true -> renders parts = spellable column.
Proof.
  intros (values & -> & [Hne Hs]%foldable_In)%folds_on_In. cbn [renders].
  destruct values as [|v values]; [by destruct Hne|]. assert (is_null_scalar v = false) as E by (destruct v; [by destruct Hs; left|done..]).
  cbn [forallb]. rewrite E. cbn [andb]. by rewrite orb_false_r.
Qed.
Lemma intersect_all_no_null parts column : count parts column <> O -> SNull ∉ intersect_all parts column.
Proof.
  intros Hc Hs. assert (H := proj1 (elem_of_intersect_all parts column SNull Hc) Hs). unfold count in Hc.
  destruct (List.filter (folds_on column) parts) as [|q qs] eqn:E; [done|].
  assert (Hq : q ∈ parts /\ folds_on column q = true).
  { rewrite list_elem_of_In, <- filter_In, <- list_elem_of_In, E. left. }
  destruct Hq as [Hq Hf]. specialize (H q Hq Hf). apply folds_on_In in Hf as (values & -> & [_ Hn]%foldable_In). done.
Qed.
Lemma renders_merged parts column : count parts column <> O -> renders (merged parts column) = spellable column.
Proof.
  intros Hc. pose proof (intersect_all_no_null parts column Hc) as Hn. unfold merged.
  destruct (intersect_all parts column) as [|v vs].
  - cbn. rewrite orb_true_r. apply andb_true_r.
  - apply (renders_folded (In column (v :: vs))), folds_on_self, foldable_In. done.
Qed.
Lemma renders_fold parts : forallb renders (fold_same_column_ins parts) = forallb renders parts.
Proof.
  apply eq_iff_eq_true. rewrite !forallb_forall. setoid_rewrite <- list_elem_of_In. split.
  - intros H p Hp. destruct (fold_into parts p Hp) as [|(c & Hf & Hm)]; [by apply H|].
    rewrite (renders_folded p c Hf), <- (renders_merged parts c); [by apply H|by eapply folds_count].
  - intros H q [|(c & p & Hp & Hf & ->)]%fold_from; [by apply H|].
    rewrite renders_merged by (by eapply folds_count). rewrite <- (renders_folded p c Hf). by apply H.
Qed.

Section rendering.
  Context (fmt : Z -> string).

(** The rendering returns, with the text or with a refusal as predicted. *)
Definition outcome {A} (r : result ToSqlError A) (b : bool) : Prop :=
  match r with Ok _ => b = true | Err NotInDialect => b = false | Err OutOfFuel => False end.

Lemma outcome_bind {A B} (r : result ToSqlError A) (k : A -> B) b : outcome r b -> outcome (let? a := r in Ok (k a)) b.
Proof. by destruct r as [|[]]. Qed.
Lemma outcome_quote {B} column (k : string -> B) : outcome (let? c := quote_ident column in Ok (k c)) (spellable column).
Proof. apply outcome_bind. unfold quote_ident, spellable. by destruct (has_char BACKTICK column). Qed.
Lemma outcome_collect {A} (f : FilterExpr -> result ToSqlError A) l :
  (forall p, p ∈ l -> outcome (f p) (renders p)) -> outcome (collect f l) (forallb renders l).
Proof.
  induction l as [|p l IH]; intros H; cbn [collect forallb]; [done|]. pose proof (H p ltac:(left)) as Hp.
  specialize (IH ltac:(intros q Hq; apply H; by right)).
  destruct (f p) as [a|[]]; cbn [rbind] in *; [|cbn in *; by rewrite Hp|done]. rewrite Hp. cbn [andb].
  by destruct (collect f l) as [|[]].
Qed.

Lemma outcome_in column values : outcome (in_sql fmt column values) (spellable column || forallb is_null_scalar values).
Proof.
  assert (H : forall l, List.filter is_null_scalar l = [] -> forallb is_null_scalar l = bool_decide (l = [])).
  { intros [|v l]; [done|]. cbn. by destruct (is_null_scalar v). }
  assert (H' : forallb is_null_scalar values = bool_decide (List.filter (fun v => negb (is_null_scalar v)) values = [])).
  { clear H. induction values as [|v l IH]; [done|]. cbn. by destruct (is_null_scalar v). }
  unfold in_sql. destruct values as [|v values]; [cbn; apply orb_true_r|].
  rewrite H'. destruct (List.filter is_null_scalar (v :: values)) as [|n nulls] eqn:En.
  - rewrite <- H', (H _ En). rewrite bool_decide_eq_false_2, orb_false_r by done.
    destruct (List.filter (fun v0 => negb (is_null_scalar v0)) (v :: values)) as [|o [|o' os]]; apply outcome_quote.
  - destruct (List.filter (fun v0 => negb (is_null_scalar v0)) (v :: values)) as [|o os].
    + rewrite bool_decide_eq_true_2 by done. cbn. apply orb_true_r.
    + rewrite bool_decide_eq_false_2, orb_false_r by done. apply outcome_quote.
Qed.

Abbreviation sql := (to_sql_n fmt).

Lemma outcome_unknown n column : outcome (sql (S n) (In column [SNull])) true.
Proof. done. Qed.
Lemma outcome_null_test n column : outcome (sql (S n) (IsNull column)) (spellable column)
  /\ outcome (sql (S n) (IsNotNull column)) (spellable column).
Proof. split; apply outcome_quote. Qed.
(** A comparison with a null test is respelled at one more level. *)
Lemma outcome_null_pair n column :
  outcome (sql (S (S n)) (Or [IsNotNull column; In column [SNull]])) (spellable column)
  /\ outcome (sql (S (S n)) (And [IsNull column; In column [SNull]])) (spellable column).
Proof.
  pose proof (fun b => orb_true_r b) as Hb.
  split; cbn [to_sql_n]; change (fold_same_column_ins [IsNull column; In column [SNull]]) with [IsNull column; In column [SNull]];
    apply outcome_bind; cbn [collect]; unfold quote_ident, spellable; by destruct (has_char BACKTICK column).
Qed.
Lemma outcome_compare n column op value : outcome (sql (S (S (S n))) (Compare column op value)) (spellable column).
Proof.
  cbn [to_sql_n]. case_bool_decide; [|apply outcome_quote].
  destruct op; cbn [respell_i64_min_compare]; try apply outcome_quote; apply outcome_null_pair.
Qed.
Lemma outcome_in_list n column values :
  outcome (sql (S (S (S (S (S n))))) (In column values)) (renders (In column values)).
Proof.
  cbn [renders]. change (sql (S (S (S (S (S n))))) (In column values)) with
    (if bool_decide (SInt I64_MIN ∈ values) then
       let rest := List.filter (fun v => negb (bool_decide (v = SInt I64_MIN))) values in
       match rest with
       | [] => sql (S (S (S (S n)))) (Compare column OpEq (SInt I64_MIN))
       | _ => sql (S (S (S (S n)))) (Or [one_of column rest; Compare column OpEq (SInt I64_MIN)])
       end
     else in_sql fmt column values).
  case_bool_decide as Hm; [|apply outcome_in].
  assert (E : forallb is_null_scalar values = false).
  { apply not_true_iff_false. rewrite forallb_forall. intros H. specialize (H (SInt I64_MIN)). rewrite <- list_elem_of_In in H. by specialize (H Hm). }
  rewrite E, orb_false_r. cbv zeta. destruct (List.filter _ values) as [|v rest] eqn:Er; [apply outcome_compare|].
  change (sql (S (S (S (S n)))) (Or [one_of column (v :: rest); Compare column OpEq (SInt I64_MIN)])) with
    (let? rendered := collect (fun p => let? s := sql (S (S (S n))) p in Ok (paren s)) [one_of column (v :: rest); Compare column OpEq (SInt I64_MIN)] in
     Ok (String.concat " OR " rendered)).
  assert (Hrest : SInt I64_MIN ∉ v :: rest).
  { rewrite <- Er, list_elem_of_In, filter_In. intros [_ H]. by rewrite bool_decide_eq_true_2 in H. }
  apply outcome_bind. unfold one_of. cbn [collect].
  assert (Hr : outcome (sql (S (S (S n))) (In column (v :: rest))) (spellable column || forallb is_null_scalar (v :: rest))).
  { cbn [to_sql_n]. rewrite bool_decide_eq_false_2 by done. apply outcome_in. }
  pose proof (outcome_compare n column OpEq (SInt I64_MIN)) as Hc. revert Hr Hc.
  generalize (sql (S (S (S n))) (In column (v :: rest))) (sql (S (S (S n))) (Compare column OpEq (SInt I64_MIN))).
  intros [a|[]] [b|[]]; cbn [rbind outcome]; destruct (spellable column); cbn [orb]; done.
Qed.

Lemma calls_part (p : FilterExpr) parts n : p ∈ parts -> (S (Nat.max 6 (list_max (calls <$> parts))) <= S n)%nat -> (calls p <= n)%nat.
Proof.
  intros Hp Hn. enough (calls p <= list_max (calls <$> parts))%nat by lia.
  apply (proj1 (Forall_forall _ _) (proj1 (list_max_le _ _) (le_n _))), list_elem_of_fmap_2, Hp.
Qed.

Lemma to_sql_outcome e : forall n, (calls e <= n)%nat -> outcome (sql n e) (renders e).
Proof.
  induction e as [b|l IH|l IH|e IH|c op v|c vs|c v|c k t|c|c|t] using filter_rect; intros n Hn; (destruct n as [|n]; [cbn in Hn; lia|]).
  - by destruct b.
  - assert (Hp : forall p, p ∈ fold_same_column_ins l -> outcome (let? s := sql n p in Ok (paren s)) (renders p)).
    { intros p [Hp|(c & q & Hq & Hf & ->)]%fold_from; apply outcome_bind.
      - by apply (proj1 (Forall_forall _ _) IH), (calls_part p l).
      - pose proof (folds_count l c q Hq Hf) as Hc. rewrite (renders_merged l c Hc). cbn [calls] in Hn.
        destruct n as [|[|[|[|[|n]]]]]; try lia. pose proof (renders_merged l c Hc) as Hm. unfold merged in *.
        destruct (intersect_all l c) as [|v vs]; [apply outcome_null_pair|]. rewrite <- Hm. apply outcome_in_list. }
    pose proof (outcome_collect _ _ Hp) as H. rewrite renders_fold in H. destruct l as [|p l]; [done|]. cbn [to_sql_n renders]. by apply outcome_bind.
  - assert (Hp : forall p, p ∈ l -> outcome (let? s := sql n p in Ok (paren s)) (renders p)).
    { intros p Hp. apply outcome_bind. by apply (proj1 (Forall_forall _ _) IH), (calls_part p l). }
    pose proof (outcome_collect _ _ Hp) as H. destruct l as [|p l]; [done|]. cbn [to_sql_n renders]. by apply outcome_bind.
  - cbn [to_sql_n renders]. apply outcome_bind, IH. cbn [calls] in Hn. lia.
  - cbn [calls] in Hn. destruct n as [|[|n]]; [lia..|]. apply outcome_compare.
  - cbn [calls] in Hn. destruct n as [|[|[|[|n]]]]; [lia..|]. apply outcome_in_list.
  - apply outcome_quote.
  - cbn [to_sql_n renders]. destruct (has_char PERCENT t || has_char UNDERSCORE t); [done|]. apply outcome_quote.
  - apply outcome_quote.
  - apply outcome_quote.
  - done.
Qed.
End rendering.

(** ** What is pushed down *)

Lemma to_sql_ok fmt e : is_ok (to_sql fmt e) = renders e.
Proof. pose proof (to_sql_outcome fmt e (calls e) (le_n _)) as H. unfold to_sql. destruct (to_sql_n fmt (calls e) e) as [|[]]; by cbn in *. Qed.

Lemma renders_all parts : forallb renders (all parts :: []) = forallb renders parts.
Proof.
  assert (H : forallb renders (List.filter (fun p => negb (is_true p)) parts) = forallb renders parts).
  { induction parts as [|p parts IH]; [done|]. cbn [List.filter forallb]. destruct (is_true p) eqn:Hp; cbn [negb forallb]; [|by rewrite IH].
    destruct p; try discriminate. exact IH. }
  rewrite <- H. cbn [forallb]. rewrite andb_true_r. unfold all. destruct (List.filter _ parts) as [|p [|q l]]; [done| |done].
  cbn. by rewrite andb_true_r.
Qed.
Lemma pushable_unfold fmt e : sql_pushable fmt e =
  if renders e then e else match e with And parts => all (sql_pushable fmt <$> parts) | _ => Literal true end.
Proof. rewrite <- (to_sql_ok fmt e). by destruct e. Qed.

(** C16: What a scan pushes down always has a rendering and never loses a row:
    whenever the native evaluator keeps a row for the original predicate it
    keeps it for the pushed one, and a predicate that has a rendering is pushed
    unchanged. *)
Theorem pushed_down_is_weaker fmt e :
  is_ok (to_sql fmt (sql_pushable fmt e)) = true
  /\ (forall row, keeps row e -> keeps row (sql_pushable fmt e))
  /\ (is_ok (to_sql fmt e) = true -> sql_pushable fmt e = e).
Proof.
  rewrite !to_sql_ok. split_and!.
  - induction e as [| l IH | | | | | | | | |] using filter_rect; rewrite pushable_unfold;
      match goal with |- context [if ?b then _ else _] => destruct b eqn:E end; try done.
    pose proof (renders_all (sql_pushable fmt <$> l)) as H. cbn [forallb] in H. rewrite andb_true_r in H. rewrite H.
    apply forallb_forall. intros q (p & -> & Hp)%list_elem_of_In%list_elem_of_fmap. by apply (proj1 (Forall_forall _ _) IH).
  - intros row. induction e as [| l IH | | | | | | | | |] using filter_rect; rewrite pushable_unfold;
      match goal with |- context [if ?b then _ else _] => destruct b end; try done.
    intros H. apply eval_all_true, Forall_fmap. unfold keeps in H. cbn [eval] in H.
    change (Some true) with (Some (negb false)) in H. apply kleene_neutral in H as [_ H].
    rewrite Forall_forall in *. intros p Hp. by apply IH, H.
  - intros H. by rewrite pushable_unfold, H.
Qed.

(** Dropping one branch of a disjunction would lose the row that only it keeps. *)
Example pushable_example :
  let e := And [Compare "a" OpEq (SInt 1); Or [StringMatch "s" Contains "50%"; Compare "a" OpEq (SInt 2)]] in
  sql_pushable (fun _ => EmptyString) e = Compare "a" OpEq (SInt 1).
Proof. reflexivity. Qed.
End FilterSql.
