(* ===== verification/SqlText.v ===== *)
(** * The SQL text of predicates

    What the text that [to_sql] of crates/uni-store/src/backend/types.rs produces
    means to an engine that follows SQL: the grammar of the part of SQL it uses
    ([or_text], with the usual precedence of NOT, AND and OR, backtick
    identifiers, doubled quotes, integer literals of at most 64 bits whose minus
    sign is an operator) and its three-valued meaning on a row ([means], defined
    for booleans, integers and strings only).  The engine that reads the text is
    not part of the repository: it is a parameter that [speaks_sql], and the
    theorem compares its answer with the native evaluator of backend/eval.rs. *)

From stdpp Require Import pretty.
From S2P Require Import Prelude Float64 BulkGate FilterEval FilterSql.

Module SqlText.
Import Filter FilterSql.

(** ** Conditions *)

Inductive cond :=
| KConst (v : option bool)
| KAnd (a b : cond)
| KOr (a b : cond)
| KNot (a : cond)
| KCompare (column : string) (op : CmpOp) (value : Scalar)
| KIn (column : string) (values : list Scalar)
| KContains (column : string) (value : Scalar)
| KLike (column : string) (pattern : string)
| KIsNull (column : string)
| KIsNotNull (column : string).

(** ** Grammar *)

Definition digit (c : Ascii.ascii) (d : Z) : Prop := 0 <= d <= 9 /\ Z.of_nat (Ascii.nat_of_ascii c) = 48 + d.
Inductive digits : string -> Z -> Prop :=
| digits_one c d : digit c d -> digits (String c EmptyString) d
| digits_more s n c d : digits s n -> digit c d -> digits (s +:+ String c EmptyString) (n * 10 + d).

(** Inside a string a quote is doubled. *)
Inductive doubled : string -> string -> Prop :=
| doubled_nil : doubled EmptyString EmptyString
| doubled_char c s t : c <> QUOTE -> doubled s t -> doubled (String c s) (String c t)
| doubled_quote s t : doubled s t -> doubled (String QUOTE (String QUOTE s)) (String QUOTE t).
Inductive string_text : string -> string -> Prop :=
| string_quoted s t : doubled s t -> string_text (quote +:+ s +:+ quote) t.
Inductive ident_text : string -> string -> Prop :=
| ident_quoted name : has_char BACKTICK name = false -> ident_text (backtick +:+ name +:+ backtick) name.

(** An integer literal is signed when it fits, otherwise unsigned; a minus sign
    negates a literal that fits. *)
Inductive literal_text : string -> Scalar -> Prop :=
| lit_null : literal_text "NULL" SNull
| lit_true : literal_text "true" (SBool true)
| lit_false : literal_text "false" (SBool false)
| lit_signed s n : digits s n -> n <= I64_MAX -> literal_text s (SInt n)
| lit_unsigned s n : digits s n -> I64_MAX < n <= U64_MAX -> literal_text s (SUInt n)
| lit_negative s n : digits s n -> n <= I64_MAX -> literal_text ("-" +:+ s) (SInt (- n))
| lit_string s t : string_text s t -> literal_text s (SStr t).
Inductive literals_text : string -> list Scalar -> Prop :=
| lits_one s v : literal_text s v -> literals_text s [v]
| lits_more s v s' vs : literal_text s v -> literals_text s' vs -> literals_text (s +:+ ", " +:+ s') (v :: vs).

Definition op_text (op : CmpOp) : string :=
  match op with OpEq => "=" | OpNotEq => "!=" | OpLt => "<" | OpLtEq => "<=" | OpGt => ">" | OpGtEq => ">=" end.

Inductive primary_text : string -> cond -> Prop :=
| pt_true : primary_text "true" (KConst (Some true))
| pt_false : primary_text "false" (KConst (Some false))
| pt_unknown : primary_text "CAST(NULL AS BOOLEAN)" (KConst None)
| pt_paren s c : or_text s c -> primary_text ("(" +:+ s +:+ ")") c
| pt_compare i column op l v : ident_text i column -> literal_text l v ->
    primary_text (i +:+ " " +:+ op_text op +:+ " " +:+ l) (KCompare column op v)
| pt_in i column l vs : ident_text i column -> literals_text l vs -> primary_text (i +:+ " IN (" +:+ l +:+ ")") (KIn column vs)
| pt_contains i column l v : ident_text i column -> literal_text l v ->
    primary_text ("array_contains(" +:+ i +:+ ", " +:+ l +:+ ")") (KContains column v)
| pt_like i column p pattern : ident_text i column -> string_text p pattern -> primary_text (i +:+ " LIKE " +:+ p) (KLike column pattern)
| pt_null i column : ident_text i column -> primary_text (i +:+ " IS NULL") (KIsNull column)
| pt_not_null i column : ident_text i column -> primary_text (i +:+ " IS NOT NULL") (KIsNotNull column)
with not_text : string -> cond -> Prop :=
| nt_primary s c : primary_text s c -> not_text s c
| nt_not s c : not_text s c -> not_text ("NOT " +:+ s) (KNot c)
with and_text : string -> cond -> Prop :=
| at_not s c : not_text s c -> and_text s c
| at_and s c s' c' : not_text s c -> and_text s' c' -> and_text (s +:+ " AND " +:+ s') (KAnd c c')
with or_text : string -> cond -> Prop :=
| ot_and s c : and_text s c -> or_text s c
| ot_or s c s' c' : and_text s c -> or_text s' c' -> or_text (s +:+ " OR " +:+ s') (KOr c c').

(** ** Meaning *)

(** [LIKE] without an escape character: a percent sign stands for any text, an
    underscore for one character. *)
Fixpoint like (pattern s : string) {struct pattern} : bool :=
  match pattern with
  | EmptyString => String.eqb s EmptyString
  | String p pattern =>
      if Ascii.eqb p PERCENT then
        (fix any (s : string) : bool :=
           like pattern s || match s with EmptyString => false | String _ s => any s end) s
      else match s with
           | EmptyString => false
           | String c s => (Ascii.eqb p UNDERSCORE || Ascii.eqb p c) && like pattern s
           end
  end.

Definition holds (op : CmpOp) (o : comparison) : bool :=
  match op, o with
  | OpEq, Eq | OpNotEq, (Lt | Gt) | OpLt, Lt | OpLtEq, (Lt | Eq) | OpGt, Gt | OpGtEq, (Gt | Eq) => true
  | _, _ => false
  end.
(** NULL compares as unknown, booleans with false first, integers by value and
    strings by their bytes; other combinations have no meaning here. *)
Definition sql_compare (cell : Cell) (op : CmpOp) (v : Scalar) : result EvalError (option bool) :=
  match cell, v with
  | CNull, _ | _, SNull => Ok None
  | CBool a, SBool b => Ok (Some (holds op (Z.b2z a ?= Z.b2z b)))
  | (CInt a | CUInt a), (SInt b | SUInt b) => Ok (Some (holds op (a ?= b)))
  | CStr a, SStr b => Ok (Some (holds op (String.compare a b)))
  | _, _ => Err Unsupported
  end.

(** Conjunction ([absorbing] is false) and disjunction of three values. *)
Definition junction (absorbing : bool) (x y : option bool) : option bool :=
  if bool_decide (x = Some absorbing \/ y = Some absorbing) then Some absorbing
  else if bool_decide (x = None \/ y = None) then None else Some (negb absorbing).
(** Operands without a meaning leave the whole without one. *)
Definition both (absorbing : bool) (a b : result EvalError (option bool)) : result EvalError (option bool) :=
  let? x := a in let? y := b in Ok (junction absorbing x y).
Definition equals_one (cell : Cell) (vs : list Scalar) : result EvalError (option bool) :=
  foldr (fun v r => both true (sql_compare cell OpEq v) r) (Ok (Some false)) vs.
(** A list without NULLs, and a literal that is not NULL. *)
Definition sql_contains (cell : Cell) (v : Scalar) : result EvalError (option bool) :=
  match cell, v with
  | _, SNull => Err Unsupported
  | CNull, _ => Ok None
  | CList items, _ =>
      if existsb (fun c => match c with CNull => true | _ => false end) items then Err Unsupported
      else foldr (fun c r => both true (sql_compare c OpEq v) r) (Ok (Some false)) items
  | _, _ => Err Unsupported
  end.

Section meaning.
  Context (row : Row).

Fixpoint means (c : cond) : result EvalError (option bool) :=
  match c with
  | KConst v => Ok v
  | KAnd a b => both false (means a) (means b)
  | KOr a b => both true (means a) (means b)
  | KNot a => let? v := means a in Ok (negb <$> v)
  | KCompare column op value => let? cell := row column in sql_compare cell op value
  | KIn column values => let? cell := row column in equals_one cell values
  | KContains column value => let? cell := row column in sql_contains cell value
  | KLike column pattern =>
      let? cell := row column in
      match cell with CNull => Ok None | CStr s => Ok (Some (like pattern s)) | _ => Err Unsupported end
  | KIsNull column => let? cell := row column in Ok (Some (match cell with CNull => true | _ => false end))
  | KIsNotNull column => let? cell := row column in Ok (Some (match cell with CNull => false | _ => true end))
  end.
End meaning.

(** What is relied on of the engine: where a text of the grammar has a meaning
    on a row, that is the engine's answer. *)
Definition speaks_sql (engine : string -> Row -> result EvalError (option bool)) : Prop :=
  forall s c row v, or_text s c -> means row c = Ok v -> engine s row = Ok v.

(** ** Strings *)

Lemma sapp_cons c (a b : string) : String c a +:+ b = String c (a +:+ b).
Proof. done. Qed.
Lemma sapp_assoc (a b c : string) : (a +:+ b) +:+ c = a +:+ (b +:+ c).
Proof. induction a as [|x a IH]; [done|]. rewrite !sapp_cons. by f_equal. Qed.
Lemma sapp_nil (a : string) : a +:+ EmptyString = a.
Proof. induction a as [|x a IH]; [done|]. rewrite !sapp_cons. by f_equal. Qed.


Lemma has_char_app c a b : has_char c (a +:+ b) = has_char c a || has_char c b.
Proof. induction a as [|x a IH]; [done|]. rewrite sapp_cons. cbn [has_char]. by rewrite IH, orb_assoc. Qed.
Lemma primary_or s c : primary_text s c -> or_text s c.
Proof. intros H. by apply ot_and, at_not, nt_primary. Qed.

(** ** The pieces of a rendering *)

Lemma digit_char x : (x < 10)%N -> digit (pretty_N_char x) (Z.of_N x).
Proof.
  intros H. split; [lia|]. assert (x = 0 \/ x = 1 \/ x = 2 \/ x = 3 \/ x = 4 \/ x = 5 \/ x = 6 \/ x = 7 \/ x = 8 \/ x = 9)%N as Hx by lia.
  by repeat destruct Hx as [-> | Hx]; [..|subst].
Qed.
Lemma pretty_digits x : (0 < x)%N -> exists t, digits t (Z.of_N x) /\ forall s, pretty_N_go x s = t +:+ s.
Proof.
  induction (N.lt_wf_0 x) as [x _ IH]. intros Hx. pose proof (digit_char (x `mod` 10) ltac:(by apply N.mod_lt)) as Hd.
  pose proof (N.div_mod x 10 ltac:(done)) as E. destruct (decide (x `div` 10 = 0)%N) as [E0|E0].
  - exists (String (pretty_N_char (x `mod` 10)) EmptyString). split; [|intros s; by rewrite pretty_N_go_step, E0, pretty_N_go_0].
    replace (Z.of_N x) with (Z.of_N (x `mod` 10)) by (rewrite E0 in E; lia). by constructor.
  - destruct (IH (x `div` 10)%N) as (t & Ht & Es); [by apply N.div_lt|by apply N.neq_0_lt_0|].
    exists (t +:+ String (pretty_N_char (x `mod` 10)) EmptyString). split.
    + replace (Z.of_N x) with (Z.of_N (x `div` 10) * 10 + Z.of_N (x `mod` 10)) by lia. by constructor.
    + intros s. rewrite pretty_N_go_step, Es, sapp_assoc by done. done.
Qed.
Lemma pretty_positive (p : positive) : digits (pretty p) (Z.pos p).
Proof.
  change (pretty p) with (pretty_N_go (N.pos p) EmptyString). destruct (pretty_digits (N.pos p)) as (t & Ht & Es); [lia|]. by rewrite Es, sapp_nil.
Qed.

(** Literals with a text: no float, and not the integer that has none. *)
Definition plain_scalar (v : Scalar) : Prop :=
  match v with
  | SNull | SBool _ | SStr _ => True
  | SInt i => is_i64 i /\ i <> I64_MIN
  | SUInt u => is_u64 u
  | SFloat _ => False
  end.
(** A small unsigned literal is read as a signed one. *)
Definition reread (v : Scalar) : Scalar :=
  match v with SUInt u => if u <=? I64_MAX then SInt u else SUInt u | _ => v end.


Lemma escape_doubled s : doubled (escape s) s.
Proof.
  induction s as [|c s IH]; [constructor|]. cbn [escape]. destruct (Ascii.eqb_spec c QUOTE) as [->|Hne]; by constructor.
Qed.
Lemma ident_of column c : quote_ident column = Ok c -> ident_text c column.
Proof. unfold quote_ident. destruct (has_char BACKTICK column) eqn:E; [done|]. intros [= <-]. by constructor. Qed.

Section literals.
  Context (fmt : Z -> string).

Lemma scalar_text v : plain_scalar v -> literal_text (scalar_to_sql fmt v) (reread v).
Proof.
  destruct v as [|b|i|u|f|s]; cbn [plain_scalar scalar_to_sql reread]; intros H.
  - constructor.
  - destruct b; constructor.
  - destruct H as [[H1 H2] Hm]. destruct i as [|p|p].
    + apply lit_signed; [|done]. apply (digits_one (Ascii.ascii_of_nat 48) 0). by split; [lia|].
    + apply lit_signed; [apply pretty_positive|]. unfold I64_MAX. lia.
    + change (Zneg p) with (- Z.pos p). apply (lit_negative (pretty p)); [apply pretty_positive|]. unfold I64_MIN, I64_MAX in *. lia.
  - assert (Hd : digits (pretty u) u).
    { unfold is_u64 in H. destruct u as [|p|p]; [|apply pretty_positive|lia]. apply (digits_one (Ascii.ascii_of_nat 48) 0). by split; [lia|]. }
    destruct (Z.leb_spec u I64_MAX); [by apply lit_signed|]. apply lit_unsigned; [done|]. int_lia.
  - done.
  - constructor. constructor. apply escape_doubled.
Qed.
Lemma scalars_text vs : vs <> [] -> Forall plain_scalar vs -> literals_text (String.concat ", " (scalar_to_sql fmt <$> vs)) (reread <$> vs).
Proof.
  intros Hne Hp. induction Hp as [|v vs Hv Hp IH]; [done|]. destruct vs as [|v' vs]; [apply lits_one; by apply scalar_text|].
  change (literals_text (scalar_to_sql fmt v +:+ ", " +:+ String.concat ", " (scalar_to_sql fmt <$> v' :: vs)) (reread v :: (reread <$> v' :: vs))).
  apply lits_more; [by apply scalar_text|by apply IH].
Qed.
End literals.

(** ** Patterns *)

Definition no_wildcard (p : string) : Prop := has_char PERCENT p = false /\ has_char UNDERSCORE p = false.

Lemma like_percent q s : like (String PERCENT q) s = like q s || match s with EmptyString => false | String _ s => like (String PERCENT q) s end.
Proof. by destruct s. Qed.
Lemma like_char p q s : no_wildcard (String p q) ->
  no_wildcard q /\ forall r, like (String p r) s = match s with EmptyString => false | String c s => Ascii.eqb p c && like r s end.
Proof.
  intros [[H1 H2]%orb_false_iff [H3 H4]%orb_false_iff]. split; [done|]. intros r. cbn [like]. rewrite H1. destruct s; [done|]. by rewrite H3.
Qed.
Lemma like_exact p s : no_wildcard p -> like p s = String.eqb s p.
Proof.
  revert s. induction p as [|x p IH]; intros s H; [done|]. destruct (like_char x p s H) as [Hp E]. rewrite E.
  destruct s as [|c s]; [done|]. cbn [String.eqb]. rewrite (IH s Hp), (Ascii.eqb_sym x c). by destruct (Ascii.eqb c x).
Qed.
Lemma like_any s : like (String PERCENT EmptyString) s = true.
Proof. induction s as [|c s IH]; [done|]. rewrite like_percent, IH. apply orb_true_r. Qed.
Lemma like_prefix p s : no_wildcard p -> like (p +:+ String PERCENT EmptyString) s = String.prefix p s.
Proof.
  revert s. induction p as [|x p IH]; intros s H; [destruct s; apply like_any|]. rewrite sapp_cons. destruct (like_char x p s H) as [Hp E].
  rewrite E. destruct s as [|c s]; [done|]. rewrite (IH s Hp). cbn [String.prefix].
  destruct (Ascii.ascii_dec x c) as [->|Hne]; [by rewrite Ascii.eqb_refl|]. by apply Ascii.eqb_neq in Hne as ->.
Qed.
Lemma like_kinds kind p s : no_wildcard p ->
  like (match kind with
        | Contains => String PERCENT (p +:+ String PERCENT EmptyString)
        | StartsWith => p +:+ String PERCENT EmptyString
        | EndsWith => String PERCENT p
        end) s = string_match kind s p.
Proof.
  intros H. destruct kind; cbn [string_match].
  - induction s as [|c s IH]; rewrite like_percent, like_prefix by done; [done|]. by rewrite IH.
  - by apply like_prefix.
  - induction s as [|c s IH]; rewrite like_percent, like_exact by done; [done|]. by rewrite IH.
Qed.

Lemma escape_app a b : escape (a +:+ b) = escape a +:+ escape b.
Proof.
  induction a as [|c a IH]; [done|]. rewrite sapp_cons. cbn [escape]. rewrite IH. by destruct (Ascii.eqb c QUOTE).
Qed.
(** ** Three-valued loops *)

Definition either (absorbing : bool) (a b : result EvalError (option bool)) : result EvalError (option bool) :=
  let? x := a in
  if bool_decide (x = Some absorbing) then Ok (Some absorbing)
  else let? y := b in
       Ok (if bool_decide (y = Some absorbing) then Some absorbing
           else if bool_decide (x = None \/ y = None) then None else Some (negb absorbing)).

Lemma kleene_true {A} (f : A -> result EvalError (option bool)) ab l :
  kleene f ab true l = let? v := kleene f ab false l in Ok (if bool_decide (v = Some ab) then Some ab else None).
Proof.
  assert (H : forall u, kleene f ab true l = let? v := kleene f ab u l in Ok (if bool_decide (v = Some ab) then Some ab else None)).
  { induction l as [|x l IH]; intros u; cbn.
    - destruct u; [done|]. by destruct ab.
    - destruct (f x) as [[b|]|e]; cbn; [|apply IH|done]. destruct (Bool.eqb_spec b ab) as [->|]; [|apply IH].
      cbn. by rewrite bool_decide_eq_true_2. }
  apply H.
Qed.
Lemma either_neutral ab r : either ab r (Ok (Some (negb ab))) = r.
Proof. destruct r as [[[]|]|e], ab; done. Qed.
Lemma kleene_cons {A} (f : A -> result EvalError (option bool)) ab x l :
  kleene f ab false (x :: l) = either ab (f x) (kleene f ab false l).
Proof.
  cbn [kleene]. rewrite kleene_true. destruct (f x) as [[b|]|e]; cbn; [|by destruct (kleene f ab false l) as [[b|]|e]; cbn; try case_bool_decide|done].
  destruct (Bool.eqb_spec b ab) as [->|Hne]; [by rewrite bool_decide_eq_true_2|].
  rewrite bool_decide_eq_false_2 by congruence. destruct (kleene f ab false l) as [[b'|]|e] eqn:E; cbn; [|done|done].
  destruct b, b', ab; done.
Qed.
Lemma kleene_one {A} (f : A -> result EvalError (option bool)) ab x : kleene f ab false [x] = f x.
Proof. rewrite kleene_cons. apply either_neutral. Qed.
Lemma either_assoc ab a b c : either ab (either ab a b) c = either ab a (either ab b c).
Proof. destruct a as [[[]|]|e], b as [[[]|]|e'], c as [[[]|]|e''], ab; done. Qed.
Lemma either_neutral_l ab r : either ab (Ok (Some (negb ab))) r = r.
Proof. destruct r as [[[]|]|e], ab; done. Qed.
Lemma kleene_app {A} (f : A -> result EvalError (option bool)) ab l1 l2 :
  kleene f ab false (l1 ++ l2) = either ab (kleene f ab false l1) (kleene f ab false l2).
Proof.
  induction l1 as [|x l1 IH]; cbn [app]; [cbn [kleene]; by rewrite either_neutral_l|]. by rewrite !kleene_cons, IH, either_assoc.
Qed.

Lemma either_both ab a b x y : a = Ok x -> b = Ok y -> either ab a b = Ok (junction ab x y).
Proof. intros -> ->. by destruct x as [[]|], y as [[]|], ab. Qed.

(** Without refusals only the members matter. *)
Lemma kleene_members {A} (f : A -> result EvalError (option bool)) ab l l' :
  (forall x, x ∈ l -> is_ok (f x) = true) -> (forall x, x ∈ l <-> x ∈ l') -> kleene f ab false l = kleene f ab false l'.
Proof.
  intros Hok Hm. assert (Hs : forall m, (forall x, x ∈ m -> is_ok (f x) = true) -> exists v, kleene f ab false m = Ok v).
  { induction m as [|x m IH]; intros H; [by eexists|]. rewrite kleene_cons. pose proof (H x ltac:(left)) as Hx.
    destruct (f x) as [y|]; [|done]. destruct IH as [v ->]; [intros z Hz; apply H; by right|]. unfold either. cbn. by destruct (bool_decide _); eexists. }
  destruct (Hs l Hok) as [v E]. destruct (Hs l') as [v' E']; [intros x Hx; by apply Hok, Hm|].
  assert (Hw : forall x, x ∈ l -> exists w, f x = Ok w) by (intros x Hx; specialize (Hok x Hx); destruct (f x); [by eexists|done]).
  assert (Hab : forall m w, kleene f ab false m = Ok w -> w = Some ab <-> exists x, x ∈ m /\ f x = Ok (Some ab)).
  { intros m w H. split.
    - intros ->. apply kleene_absorbed in H as (l1 & x & l2 & -> & Hx & _). exists x. split; [apply elem_of_app; right; left|done].
    - intros (x & Hx & Hf). destruct w as [b|].
      + destruct (Bool.eqb_spec b ab) as [->|Hne]; [done|]. replace b with (negb ab) in H by (by destruct b, ab).
        apply kleene_neutral in H as [_ H]. rewrite Forall_forall in H. rewrite (H x Hx) in Hf. by destruct ab.
      + apply kleene_unknown in H as [H _]. rewrite Forall_forall in H. destruct (H x Hx) as (w & Ew & Hw'). congruence. }
  assert (Hnu : forall m w, kleene f ab false m = Ok w -> w = Some (negb ab) <-> forall x, x ∈ m -> f x = Ok (Some (negb ab))).
  { intros m w H. split.
    - intros ->. apply kleene_neutral in H as [_ H]. by rewrite Forall_forall in H.
    - intros Hx. assert (H' : kleene f ab false m = Ok (Some (negb ab))) by (apply kleene_neutral; split; [done|by apply Forall_forall]). congruence. }
  rewrite E, E'. f_equal. pose proof (Hab l v E) as A1. pose proof (Hab l' v' E') as A2. pose proof (Hnu l v E) as N1. pose proof (Hnu l' v' E') as N2.
  setoid_rewrite <- Hm in A2. setoid_rewrite <- Hm in N2. rewrite <- A1 in A2. rewrite <- N1 in N2.
  destruct v as [b|], v' as [b'|]; [| | |done]; destruct ab; try destruct b; try destruct b'; cbn in *; naive_solver.
Qed.

(** ** Predicates whose text can be compared *)

Definition each {A} (P : A -> Prop) (l : list A) : Prop := foldr (fun p acc => P p /\ acc) True l.
Lemma each_Forall {A} (P : A -> Prop) l : each P l <-> Forall P l.
Proof. induction l as [|x l IH]; cbn; [by split|]. by rewrite Forall_cons, <- IH. Qed.

Definition BACKSLASH : Ascii.ascii := Ascii.ascii_of_nat 92.
Definition plain_literal (v : Scalar) : Prop := plain_scalar v \/ v = SInt I64_MIN.
(** No raw text, no float literal, integers of their width, no backslash in a
    pattern, and neither NULL nor the smallest integer sought in a list. *)
Fixpoint plain (e : FilterExpr) : Prop :=
  match e with
  | And parts | Or parts => each plain parts
  | Not inner => plain inner
  | Compare _ _ value => plain_literal value
  | In _ values => Forall plain_literal values
  | ArrayContains _ value => plain_scalar value /\ value <> SNull
  | StringMatch _ _ pattern => has_char BACKSLASH pattern = false
  | Raw _ => False
  | _ => True
  end.

(** A literal of the kind of the cell: two booleans, integers or strings. *)
Definition same_kind (cell : Cell) (v : Scalar) : Prop :=
  match cell, v with
  | CNull, _ | _, SNull => True
  | CBool _, SBool _ | (CInt _ | CUInt _), (SInt _ | SUInt _) | CStr _, SStr _ => True
  | _, _ => False
  end.

Definition numbers_wf (c : Cell) : Prop :=
  match c with CInt v => is_i64 v | CUInt v | CFloat v => is_u64 v | _ => True end.
(** Integers and floats of a row have their width, in lists too. *)
Definition cell_wf (c : Cell) : Prop := numbers_wf c /\ match c with CList items => Forall numbers_wf items | _ => True end.
Definition row_wf (row : Row) : Prop := forall column cell, row column = Ok cell -> cell_wf cell.


(** The columns of a predicate exist, with the type of its literals: no floats;
    lists of literals hold NULLs and literals of their column's own type; lists
    of values hold no NULL. *)
Section typed.
  Context (row : Row).

Fixpoint typed (e : FilterExpr) : Prop :=
  match e with
  | And parts | Or parts => each typed parts
  | Not inner => typed inner
  | Compare column _ value => exists cell, row column = Ok cell /\ same_kind cell value
  | In column values => exists cell, row column = Ok cell /\ Forall (fun v => v = SNull \/ matches_type cell v) values
  | ArrayContains column value =>
      row column = Ok CNull \/ exists items, row column = Ok (CList items) /\ Forall (fun c => c <> CNull /\ same_kind c value) items
  | StringMatch column _ _ => row column = Ok CNull \/ exists s, row column = Ok (CStr s)
  | IsNull column | IsNotNull column => exists cell, row column = Ok cell
  | _ => True
  end.
End typed.

(** The rewrite of a conjunction keeps both. *)
Lemma merged_plain parts column p : p ∈ parts -> folds_on column p = true -> Forall plain parts -> plain (merged parts column).
Proof.
  intros Hp Hf H. pose proof (folds_count parts column p Hp Hf) as Hc. unfold merged.
  destruct (intersect_all parts column) as [|v vs] eqn:E.
  - cbn. split; [done|]. split; [|done]. apply Forall_singleton. by left.
  - cbn [plain]. apply Forall_forall. intros x Hx. rewrite <- E in Hx.
    pose proof (proj1 (elem_of_intersect_all parts column x Hc) Hx p Hp Hf) as Hin. rewrite Forall_forall in H. specialize (H p Hp).
    apply folds_on_In in Hf as (values & -> & _). cbn in *. rewrite Forall_forall in H. by apply H.
Qed.
Lemma merged_typed row parts column p : p ∈ parts -> folds_on column p = true -> Forall (typed row) parts -> typed row (merged parts column).
Proof.
  intros Hp Hf H. pose proof (folds_count parts column p Hp Hf) as Hc. rewrite Forall_forall in H. specialize (H p Hp).
  assert (Hin : forall x, x ∈ intersect_all parts column -> x ∈ in_values p) by (intros x Hx; by apply (proj1 (elem_of_intersect_all parts column x Hc) Hx p)).
  apply folds_on_In in Hf as (values & -> & _). cbn in H, Hin. destruct H as (cell & Hr & Hv). rewrite Forall_forall in Hv. unfold merged.
  destruct (intersect_all parts column) as [|v vs]; cbn [typed each foldr].
  - split; [by exists cell|]. split; [|done]. exists cell. split; [done|]. apply Forall_singleton. by left.
  - exists cell. split; [done|]. apply Forall_forall. intros x Hx. by apply Hv, Hin.
Qed.
Lemma fold_keeps_all (P : FilterExpr -> Prop) parts :
  Forall P parts -> (forall column p, p ∈ parts -> folds_on column p = true -> P (merged parts column)) ->
  Forall P (fold_same_column_ins parts).
Proof. rewrite !Forall_forall. intros H Hm q [|(c & p & Hp & Hf & ->)]%fold_from; [by apply H|by eapply Hm]. Qed.
Lemma typed_typed_lists row parts : Forall (typed row) parts -> typed_lists row parts.
Proof.
  intros H column values Hin [_ Hn]%foldable_In. rewrite Forall_forall in H. destruct (H _ Hin) as (cell & Hr & Hv). exists cell. split; [done|].
  rewrite Forall_forall in *. intros v Hx. destruct (Hv v Hx) as [->|]; done.
Qed.
Lemma fold_nonempty parts : parts <> [] -> fold_same_column_ins parts <> [].
Proof.
  intros H E. destruct parts as [|p parts]; [done|]. destruct (fold_into (p :: parts) p ltac:(left)) as [Hin|(c & _ & Hin)]; rewrite E in Hin; by apply elem_of_nil in Hin.
Qed.

(** ** Agreement at the leaves *)

Lemma holds_op op o : holds op o = op_holds op o.
Proof. by destruct op, o. Qed.

(** Comparing with a literal as it is read back. *)
Lemma compare_agrees cell op v : numbers_wf cell -> plain_scalar v -> same_kind cell v ->
  exists w, Filter.compare cell op v = Ok w /\ sql_compare cell op (reread v) = Ok w.
Proof.
  intros Hc Hv Hk. assert (Hn : forall a x y, num_wf a -> num_value a = x * F64.UNIT -> num_nan a = false ->
      (forall b, num_wf b -> num_value b = y * F64.UNIT -> num_nan b = false -> cmp_num a b = Some (x ?= y))).
  { intros a x y Ha Ea Na b Hb Eb Nb. rewrite cmp_num_exact, Na, Nb by done. cbn. by rewrite Ea, Eb, compare_scaled. }
  destruct cell as [|a|a|a|a|a|a], v as [|b|b|b|b|b]; try done; cbn [numbers_wf plain_scalar] in *; try (by eexists).
  - cbn. eexists. split; [done|]. rewrite holds_op. by destruct a, b.
  - eexists. split; [reflexivity|]. cbn. by rewrite holds_op.
  - eexists. split; [reflexivity|]. cbn [reread]. cbn [order cell_num scalar_num].
    rewrite (Hn (NumI a) a b ltac:(done) ltac:(done) ltac:(done) (NumU b)) by done. cbn. destruct (b <=? I64_MAX); cbn; by rewrite holds_op.
  - eexists. split; [reflexivity|]. cbn [reread order cell_num scalar_num].
    rewrite (Hn (NumU a) a b ltac:(done) ltac:(done) ltac:(done) (NumI b)) by (done || apply Hv). cbn. by rewrite holds_op.
  - eexists. split; [reflexivity|]. cbn [reread]. cbn. destruct (b <=? I64_MAX); cbn; by rewrite holds_op.
  - eexists. split; [reflexivity|]. cbn. by rewrite holds_op.
Qed.
Lemma matches_same_kind cell v : plain_scalar v -> v = SNull \/ matches_type cell v -> same_kind cell v.
Proof. intros Hp [->|H]; [by destruct cell|]. by destruct cell, v. Qed.

Lemma kleene_ok {A} (f : A -> result EvalError (option bool)) ab l : forall u, (forall x, x ∈ l -> exists v, f x = Ok v) -> exists v, kleene f ab u l = Ok v.
Proof.
  induction l as [|x l IH]; intros u H; cbn [kleene]; [by eexists|]. destruct (H x ltac:(left)) as [v ->]. cbn [rbind].
  assert (Hl : forall y, y ∈ l -> exists v, f y = Ok v) by (intros y Hy; apply H; by right).
  destruct v as [b|]; [destruct (Bool.eqb b ab); [by eexists|]|]; by apply IH.
Qed.

(** A comparison with the smallest integer, respelled. *)
Lemma respell_agrees row column op v : row_wf row -> typed row (Compare column op (SInt I64_MIN)) ->
  eval row (Compare column op (SInt I64_MIN)) = Ok v -> eval row (respell_i64_min_compare column op) = Ok v.
Proof.
  intros Hw Ht. cbn [eval typed] in *. destruct Ht as (cell & Hr & Hk). rewrite Hr. cbn [rbind].
  destruct (Hw column cell Hr) as [Hc _]. destruct cell as [|b|x|x|x|s|l]; try done.
  - intros [= <-]. destruct op; cbn [respell_i64_min_compare eval kleene]; by rewrite Hr.
  - cbn [numbers_wf] in Hc. unfold Filter.compare, order. cbn [cell_num scalar_num cmp_num rbind fmap option_fmap option_map]. rewrite op_holds_test.
    intros [= <-]. unfold is_i64 in Hc. destruct op; cbn [respell_i64_min_compare eval kleene]; rewrite Hr; cbn [rbind];
      unfold Filter.compare, order; cbn [cell_num scalar_num cmp_num rbind fmap option_fmap option_map is_null negb]; rewrite ?op_holds_test; cbn [num_test];
      do 2 f_equal; unfold I64_MIN; try lia.
  - cbn [numbers_wf] in Hc. intros [= <-].
    destruct op; cbn [respell_i64_min_compare eval kleene]; rewrite Hr; done.
Qed.

(** ** The text of a rendering *)

Definition SPACE : Ascii.ascii := Ascii.ascii_of_nat 32.
(** A text that is a primary or will be put in parentheses. *)
Definition shown (s : string) (c : cond) : Prop := primary_text s c \/ (or_text s c /\ has_char SPACE s = true).

Lemma shown_or s c : shown s c -> or_text s c.
Proof. intros [H|[H _]]; [by apply primary_or|done]. Qed.
Lemma shown_paren s c : shown s c -> primary_text (paren s) c.
Proof.
  intros H. unfold paren. destruct (String.eqb_spec s "true") as [->|_]; [by destruct H as [|[]]|].
  destruct (String.eqb_spec s "false") as [->|_]; [by destruct H as [|[]]|]. by apply pt_paren, shown_or.
Qed.

(** Operands joined by AND or by OR. *)
Fixpoint joined (op : cond -> cond -> cond) (c : cond) (cs : list cond) : cond :=
  match cs with [] => c | d :: cs => op c (joined op d cs) end.
Lemma concat_cons sep s t l : String.concat sep (s :: t :: l) = s +:+ sep +:+ String.concat sep (t :: l).
Proof. done. Qed.
Lemma join_and s l c cs : primary_text s c -> Forall2 primary_text l cs -> and_text (String.concat " AND " (s :: l)) (joined KAnd c cs).
Proof.
  intros H Hl. revert s c H. induction Hl as [|s' c' l cs H' Hl IH]; intros s c H; [by apply at_not, nt_primary|].
  rewrite concat_cons. apply at_and; [by apply nt_primary|by apply IH].
Qed.
Lemma join_or s l c cs : primary_text s c -> Forall2 primary_text l cs -> or_text (String.concat " OR " (s :: l)) (joined KOr c cs).
Proof.
  intros H Hl. revert s c H. induction Hl as [|s' c' l cs H' Hl IH]; intros s c H; [by apply primary_or|].
  rewrite concat_cons. apply ot_or; [by apply at_not, nt_primary|by apply IH].
Qed.
Lemma join_shown sep op s l c cs : has_char SPACE sep = true -> primary_text s c -> Forall2 primary_text l cs ->
  or_text (String.concat sep (s :: l)) (joined op c cs) -> shown (String.concat sep (s :: l)) (joined op c cs).
Proof.
  intros Hs H Hl Ho. destruct Hl as [|s' c' l cs H' Hl]; [by left|]. right. split; [done|].
  rewrite concat_cons, !has_char_app, Hs. by rewrite orb_true_r.
Qed.

Section agreement.
  Context (fmt : Z -> string) (row : Row) (Hw : row_wf row).

(** The literals of a list on a row are all compared. *)
Lemma typed_compares cell values : Forall (fun v => v = SNull \/ matches_type cell v) values ->
  forall v, v ∈ values -> is_ok (Filter.compare cell OpEq v) = true.
Proof.
  rewrite Forall_forall. intros H v Hv. destruct (is_null cell) eqn:Hn; [by destruct cell|].
  destruct (decide (v = SNull)) as [->|Hs]; [by destruct cell|]. destruct (H v Hv) as [|Hm]; [done|]. by rewrite compare_literal.
Qed.

(** A typed predicate has an answer. *)
Lemma typed_evaluates e : plain e -> typed row e -> exists v, eval row e = Ok v.
Proof.
  assert (Heach : forall l, Forall (fun e => plain e -> typed row e -> exists v, eval row e = Ok v) l -> each plain l -> each (typed row) l ->
    forall x, x ∈ l -> exists v, eval row x = Ok v).
  { intros l IH Hp Ht x Hx. rewrite each_Forall in Hp, Ht. rewrite Forall_forall in *. by apply IH; [|apply Hp|apply Ht]. }
  induction e as [b|l IH|l IH|e IH|c op v|c vs|c v|c k p|c|c|t] using filter_rect; cbn [plain typed]; intros Hp Ht; cbn [eval].
  - by eexists.
  - apply kleene_ok. by apply Heach.
  - apply kleene_ok. by apply Heach.
  - destruct (IH Hp Ht) as [v ->]. by eexists.
  - destruct Ht as (cell & Hr & Hk). rewrite Hr. cbn [rbind]. destruct Hp as [Hp| ->].
    + destruct (compare_agrees cell op v) as (w & -> & _); [by apply (Hw c)|done|done|by eexists].
    + destruct cell; try done; by eexists.
  - destruct Ht as (cell & Hr & Hk). rewrite Hr. cbn [rbind]. apply kleene_ok. intros v Hv. pose proof (typed_compares cell vs Hk v Hv) as Ho.
    destruct (Filter.compare cell OpEq v); [by eexists|done].
  - destruct Ht as [Hr|(items & Hr & Hi)]; rewrite Hr; cbn [rbind list_contains]; [by eexists|]. destruct Hp as [Hp Hn].
    destruct (Hw c _ Hr) as [_ Hwi]. assert (Hok : exists w, kleene (fun item => Filter.compare item OpEq v) true false items = Ok w).
    { apply kleene_ok. intros x Hx. rewrite Forall_forall in Hi, Hwi. destruct (compare_agrees x OpEq v (Hwi x Hx) Hp (proj2 (Hi x Hx))) as (w & -> & _). by eexists. }
    by destruct v.
  - destruct Ht as [Hr|(s & Hr)]; rewrite Hr; by eexists.
  - destruct Ht as (cell & ->). by eexists.
  - destruct Ht as (cell & ->). by eexists.
  - done.
Qed.

(** The text is that of a condition that gives every answer of the predicate. *)
Definition read_as (s : string) (e : FilterExpr) : Prop := exists c, shown s c /\ forall v, eval row e = Ok v -> means row c = Ok v.

Lemma read_as_weaken s e e' : (forall v, eval row e = Ok v -> eval row e' = Ok v) -> read_as s e' -> read_as s e.
Proof. intros H (c & Hr & Hm). exists c. split; [done|]. intros v Hv. by apply Hm, H. Qed.

(** Operands of a list. *)
Lemma collect_read n l rs :
  collect (fun p => let? s := to_sql_n fmt n p in Ok (paren s)) l = Ok rs ->
  (forall p s, p ∈ l -> to_sql_n fmt n p = Ok s -> read_as s p) ->
  exists cs, Forall2 primary_text rs cs /\ Forall2 (fun p c => forall v, eval row p = Ok v -> means row c = Ok v) l cs.
Proof.
  revert rs. induction l as [|p l IH]; intros rs H Hp; cbn [collect] in H.
  - injection H as <-. exists []. by split.
  - apply rbind_Ok in H as (r & Hr & H). apply rbind_Ok in H as (rs' & Hrs & [= <-]). apply rbind_Ok in Hr as (s & Hs & [= <-]).
    destruct (IH rs' Hrs) as (cs & H1 & H2); [intros q t Hq; apply Hp; by right|].
    destruct (Hp p s ltac:(left) Hs) as (c & Hc & Hm). exists (c :: cs). split; constructor; [by apply shown_paren|done..].
Qed.
Lemma means_joined ab (op : cond -> cond -> cond) : (forall a b, means row (op a b) = both ab (means row a) (means row b)) ->
  forall l c cs, Forall2 (fun p c => forall v, eval row p = Ok v -> means row c = Ok v) l (c :: cs) -> (forall p, p ∈ l -> exists v, eval row p = Ok v) ->
  forall v, kleene (eval row) ab false l = Ok v -> means row (joined op c cs) = Ok v.
Proof.
  intros Hop l c cs. revert l c. induction cs as [|d cs IH]; intros l c (p & l' & Hp & Hl & ->)%Forall2_cons_inv_r He v.
  - apply Forall2_nil_inv_r in Hl as ->. rewrite kleene_one. apply Hp.
  - rewrite kleene_cons. cbn [joined]. rewrite Hop. destruct (He p ltac:(left)) as [x Ex].
    destruct (kleene_ok (eval row) ab l' false) as [y Ey]; [intros q Hq; apply He; by right|]. rewrite (either_both ab _ _ x y Ex Ey). intros [= <-].
    rewrite (Hp x Ex), (IH l' d Hl ltac:(intros q Hq; apply He; by right) y Ey). done.
Qed.

Lemma eval_in_members column cell values values' : row column = Ok cell ->
  Forall (fun v => v = SNull \/ matches_type cell v) values -> (forall v, v ∈ values <-> v ∈ values') ->
  eval row (In column values) = eval row (In column values').
Proof. intros Hr Ht Hm. cbn [eval]. rewrite Hr. cbn [rbind]. apply kleene_members; [by apply typed_compares|done]. Qed.
(** A list on a row, as it is read back. *)
Lemma eval_in_sql column cell values : row column = Ok cell -> Forall plain_scalar values ->
  Forall (fun v => v = SNull \/ matches_type cell v) values -> equals_one cell (reread <$> values) = eval row (In column values).
Proof.
  intros Hr Hp Ht. cbn [eval]. rewrite Hr. cbn [rbind]. assert (Hn : numbers_wf cell) by (by apply (Hw column)). unfold equals_one.
  pose proof (typed_compares cell values Ht) as Hok. clear Hr. induction Hp as [|v values Hv Hp IH]; [done|]. apply Forall_cons in Ht as [Hv' Ht].
  cbn [fmap list_fmap foldr]. rewrite IH; [|done|intros x Hx; apply Hok; by right]. rewrite kleene_cons.
  destruct (compare_agrees cell OpEq v Hn Hv (matches_same_kind cell v Hv Hv')) as (w & E1 & E2). rewrite E2.
  destruct (kleene_ok (fun x => Filter.compare cell OpEq x) true values false) as [y Ey].
  { intros x Hx. specialize (Hok x ltac:(by right)). destruct (Filter.compare cell OpEq x); [by eexists|done]. }
  rewrite Ey, E1, (either_both true _ _ w y) by done. done.
Qed.

Lemma plain_not_min values : SInt I64_MIN ∉ values -> Forall plain_literal values -> Forall plain_scalar values.
Proof. rewrite !Forall_forall. intros Hn H v Hv. destruct (H v Hv) as [|Hm]; [done|by subst v]. Qed.
Lemma elem_of_filter_list {A} (f : A -> bool) (l : list A) x : x ∈ List.filter f l <-> x ∈ l /\ f x = true.
Proof. by rewrite list_elem_of_In, filter_In, <- list_elem_of_In. Qed.

Lemma in_sql_read column values s : in_sql fmt column values = Ok s -> Forall plain_scalar values -> typed row (In column values) ->
  read_as s (In column values).
Proof.
  intros Hs Hp (cell & Hr & Ht). unfold in_sql in Hs. destruct values as [|v0 values0].
  { injection Hs as <-. exists (KConst (Some false)). split; [left; constructor|intros v; cbn; rewrite Hr; done]. }
  set (values := v0 :: values0) in *.
  assert (Hnn : forall v, v ∈ List.filter (fun v => negb (is_null_scalar v)) values <-> v ∈ values /\ v <> SNull).
  { intros v. rewrite elem_of_filter_list. destruct v; naive_solver. }
  assert (Hnull : forall v, v ∈ List.filter is_null_scalar values <-> v ∈ values /\ v = SNull).
  { intros v. rewrite elem_of_filter_list. destruct v; naive_solver. }
  rewrite Forall_forall in Hp, Ht. set (nn := List.filter (fun v => negb (is_null_scalar v)) values) in *.
  assert (Hpn : Forall plain_scalar nn) by (apply Forall_forall; intros v [Hv _]%Hnn; by apply Hp).
  assert (Htn : Forall (fun v => v = SNull \/ matches_type cell v) nn) by (apply Forall_forall; intros v [Hv _]%Hnn; by apply Ht).
  assert (Ht' : Forall (fun v => v = SNull \/ matches_type cell v) values) by by apply Forall_forall.
  pose proof (eval_in_sql column cell nn Hr Hpn Htn) as Esql.
  destruct (List.filter is_null_scalar values) as [|z zs].
  - assert (Hv : forall v, v ∈ values <-> v ∈ nn).
    { intros v. rewrite Hnn. split; [|by intros []]. intros H. split; [done|]. intros ->. apply (not_elem_of_nil SNull), Hnull. done. }
    pose proof (eval_in_members column cell values nn Hr Ht' Hv) as E.
    assert (Hne : nn <> []) by (intros E'; apply (not_elem_of_nil v0); rewrite <- E'; apply Hv; left).
    destruct nn as [|only [|o2 os]]; [done| |]; apply rbind_Ok in Hs as (c & Hc & [= <-]).
    + exists (KCompare column OpEq (reread only)). split.
      * left. apply (pt_compare c column OpEq); [by apply ident_of|]. apply scalar_text. by apply Forall_singleton.
      * intros v. rewrite E, <- Esql. cbn [means]. rewrite Hr. cbn. destruct (sql_compare cell OpEq (reread only)) as [[[]|]|]; done.
    + exists (KIn column (reread <$> only :: o2 :: os)). split; [left; by apply (pt_in c column _ _ (ident_of column c Hc) (scalars_text fmt (only :: o2 :: os) Hne Hpn))|].
      intros v. rewrite E, <- Esql. cbn [means]. by rewrite Hr.
  - assert (Hz : SNull ∈ values) by (assert (z ∈ values /\ z = SNull) as [? ->] by (apply Hnull; left); done).
    assert (E : eval row (In column values) = either true (eval row (In column nn)) (Ok None)).
    { rewrite (eval_in_members column cell values (nn ++ [SNull]) Hr Ht').
      - cbn [eval]. rewrite Hr. cbn [rbind]. rewrite kleene_app, kleene_one. by destruct cell.
      - intros v. rewrite elem_of_app, Hnn, list_elem_of_singleton. destruct (decide (v = SNull)) as [->|]; naive_solver. }
    destruct nn as [|o os].
    + injection Hs as <-. exists (KConst None). split; [left; constructor|]. intros v. rewrite E. cbn [eval]. rewrite Hr. done.
    + apply rbind_Ok in Hs as (c & Hc & [= <-]). exists (KOr (KIn column (reread <$> o :: os)) (KConst None)). split.
      * left. assert (Ho : or_text ((c +:+ " IN (" +:+ String.concat ", " (scalar_to_sql fmt <$> o :: os) +:+ ")") +:+ " OR " +:+ SQL_UNKNOWN) (KOr (KIn column (reread <$> o :: os)) (KConst None))).
        { apply ot_or; [|apply primary_or; constructor]. apply at_not, nt_primary, pt_in; [by apply ident_of|by apply (scalars_text fmt (o :: os))]. }
        apply pt_paren in Ho. rewrite !sapp_assoc in Ho. exact Ho.
      * intros v. rewrite E. cbn [means]. rewrite Hr. cbn [rbind]. rewrite Esql. destruct (eval row (In column (o :: os))) as [[[]|]|]; done.
Qed.

Lemma like_read column kind pattern s : no_wildcard pattern -> typed row (StringMatch column kind pattern) ->
  (let? c := quote_ident column in
   Ok (match kind with
       | Contains => c +:+ " LIKE " +:+ quote +:+ "%" +:+ escape pattern +:+ "%" +:+ quote
       | StartsWith => c +:+ " LIKE " +:+ quote +:+ escape pattern +:+ "%" +:+ quote
       | EndsWith => c +:+ " LIKE " +:+ quote +:+ "%" +:+ escape pattern +:+ quote
       end)) = Ok s -> read_as s (StringMatch column kind pattern).
Proof.
  intros Hp Ht (c & Hc & Hs)%rbind_Ok. injection Hs as <-.
  set (p := match kind with
            | Contains => String PERCENT (pattern +:+ String PERCENT EmptyString)
            | StartsWith => pattern +:+ String PERCENT EmptyString
            | EndsWith => String PERCENT pattern
            end).
  exists (KLike column p). split.
  - left. assert (H : primary_text (c +:+ " LIKE " +:+ quote +:+ escape p +:+ quote) (KLike column p)).
    { apply pt_like; [by apply ident_of|]. constructor. apply escape_doubled. }
    unfold p in *. destruct kind.
    + change (String PERCENT (pattern +:+ String PERCENT EmptyString)) with ("%" +:+ pattern +:+ "%") in H at 1.
      rewrite !escape_app, !sapp_assoc in H. exact H.
    + change (String PERCENT EmptyString) with "%"%string in H at 1. rewrite escape_app, sapp_assoc in H. exact H.
    + change (String PERCENT pattern) with ("%" +:+ pattern) in H at 1. rewrite escape_app, sapp_assoc in H. exact H.
  - intros v. cbn [means eval]. destruct Ht as [->|(t & ->)]; [done|]. cbn [rbind]. unfold p. by rewrite like_kinds.
Qed.

(** The smallest integer leaves its list. *)
Lemma in_min_agrees column values rest : SInt I64_MIN ∈ values -> typed row (In column values) ->
  rest = List.filter (fun v => negb (bool_decide (v = SInt I64_MIN))) values ->
  typed row (In column rest) /\ typed row (Compare column OpEq (SInt I64_MIN))
  /\ eval row (In column values) = eval row (Or [In column rest; Compare column OpEq (SInt I64_MIN)]).
Proof.
  intros Hm (cell & Hr & Ht) ->. assert (Hrest : forall v, v ∈ List.filter (fun v => negb (bool_decide (v = SInt I64_MIN))) values <-> v ∈ values /\ v <> SInt I64_MIN).
  { intros v. by rewrite elem_of_filter_list, negb_true_iff, bool_decide_eq_false. }
  assert (Htm : SInt I64_MIN = SNull \/ matches_type cell (SInt I64_MIN)) by (rewrite Forall_forall in Ht; by apply Ht). split_and!.
  - exists cell. split; [done|]. rewrite Forall_forall in *. intros v [Hv _]%Hrest. by apply Ht.
  - exists cell. split; [done|]. destruct Htm as [|Htm]; [done|]. by destruct cell.
  - rewrite (eval_in_members column cell values (List.filter (fun v => negb (bool_decide (v = SInt I64_MIN))) values ++ [SInt I64_MIN]) Hr Ht).
    + cbn [eval]. rewrite Hr. cbn [rbind]. rewrite kleene_app, kleene_one. rewrite kleene_cons, kleene_one. cbn [eval]. by rewrite Hr.
    + intros v. rewrite elem_of_app, Hrest, list_elem_of_singleton. destruct (decide (v = SInt I64_MIN)) as [->|]; naive_solver.
Qed.

Lemma read_constant (b : bool) : read_as (if b then "true" else "false") (Literal b).
Proof. exists (KConst (Some b)). split; [|done]. left. destruct b; constructor. Qed.

(** One level of the rendering, its operands being read as they should. *)
Section level.
  Context (n : nat)
    (IH : forall e s, to_sql_n fmt n e = Ok s -> plain e -> typed row e -> read_as s e).

Lemma read_items l rs : collect (fun p => let? s := to_sql_n fmt n p in Ok (paren s)) l = Ok rs -> Forall plain l -> Forall (typed row) l ->
  exists cs, Forall2 primary_text rs cs /\ Forall2 (fun p c => forall v, eval row p = Ok v -> means row c = Ok v) l cs
    /\ forall p, p ∈ l -> exists v, eval row p = Ok v.
Proof.
  intros Hl H1 H2. rewrite Forall_forall in H1, H2. destruct (collect_read n l rs Hl) as (cs & C1 & C2).
  - intros p t Hin Hsp. by apply IH; [|apply H1|apply H2].
  - exists cs. split_and!; [done|done|]. intros p Hp. apply typed_evaluates; [by apply H1|by apply H2].
Qed.
Lemma read_and l s : to_sql_n fmt (S n) (And l) = Ok s -> plain (And l) -> typed row (And l) -> read_as s (And l).
Proof.
  intros Hs Hp Ht. cbn [plain typed] in Hp, Ht.
  rewrite each_Forall in Hp, Ht. destruct l as [|p l]; [injection Hs as <-; apply (read_as_weaken _ _ (Literal true)), (read_constant true); done|].
  cbn [to_sql_n] in Hs. apply rbind_Ok in Hs as (rs & Hrs & [= <-]).
  destruct (read_items _ _ Hrs) as (cs & H1 & H2 & H3); [apply fold_keeps_all; [done|intros; by eapply merged_plain]|apply fold_keeps_all; [done|intros; by eapply merged_typed]|].
  pose proof (fold_nonempty (p :: l) ltac:(done)) as Hne. destruct H1 as [|r c rs cs H1 H1']; [by apply Forall2_nil_inv_r in H2|].
  exists (joined KAnd c cs). split; [by apply join_shown, ot_and, join_and|].
  intros v Hv. apply (means_joined false KAnd ltac:(done) _ _ _ H2 H3). by apply (folded_lists_agree row), Hv; apply typed_typed_lists.
Qed.
Lemma read_or l s : to_sql_n fmt (S n) (Or l) = Ok s -> plain (Or l) -> typed row (Or l) -> read_as s (Or l).
Proof.
  intros Hs Hp Ht. cbn [plain typed] in Hp, Ht.
  rewrite each_Forall in Hp, Ht. destruct l as [|p l]; [injection Hs as <-; apply (read_as_weaken _ _ (Literal false)), (read_constant false); done|].
  cbn [to_sql_n] in Hs. apply rbind_Ok in Hs as (rs & Hrs & [= <-]). destruct (read_items _ _ Hrs Hp Ht) as (cs & H1 & H2 & H3).
  destruct H1 as [|r c rs cs H1 H1']; [by apply Forall2_nil_inv_r in H2|].
  exists (joined KOr c cs). split; [by apply join_shown, join_or|]. intros v Hv. by apply (means_joined true KOr ltac:(done) _ _ _ H2 H3).
Qed.
Lemma read_not e s : to_sql_n fmt (S n) (Not e) = Ok s -> plain (Not e) -> typed row (Not e) -> read_as s (Not e).
Proof.
  intros Hs Hp Ht. cbn [plain typed] in Hp, Ht.
  cbn [to_sql_n] in Hs. apply rbind_Ok in Hs as (t & Ht' & [= <-]). destruct (IH _ _ Ht' Hp Ht) as (c & Hc & Hm).
  exists (KNot c). split; [right; split; [by apply ot_and, at_not, nt_not, nt_primary, shown_paren|done]|].
  intros v (w & Ew & [= <-])%rbind_Ok. cbn [means]. by rewrite (Hm w Ew).
Qed.
Lemma read_compare c op v s : to_sql_n fmt (S n) (Compare c op v) = Ok s -> plain (Compare c op v) -> typed row (Compare c op v) -> read_as s (Compare c op v).
Proof.
  intros Hs Hp Ht. cbn [to_sql_n] in Hs. case_bool_decide as Hv.
  + subst v. apply (read_as_weaken _ _ (respell_i64_min_compare c op)); [intros v; by apply respell_agrees|]. apply (IH _ _ Hs).
    * destruct op; cbn; rewrite ?Forall_singleton; unfold plain_literal; cbn; split_and?; try done; left; done.
    * destruct Ht as (cell & Hr & Hk). assert (Hn : same_kind cell (SInt (I64_MIN + 1))) by by destruct cell.
      assert (Hl : exists cell, row c = Ok cell /\ Forall (fun v => v = SNull \/ matches_type cell v) [SNull]).
      { exists cell. split; [done|]. apply Forall_singleton. by left. }
      destruct op; cbn [respell_i64_min_compare typed each foldr]; first [by exists cell|split; [by exists cell|by split]].
  + apply rbind_Ok in Hs as (q & Hq & [= <-]). destruct Hp as [Hp|]; [|done]. destruct Ht as (cell & Hr & Hk). exists (KCompare c op (reread v)). split.
    * left. change (as_sql op) with (op_text op). apply pt_compare; [by apply ident_of|by apply scalar_text].
    * intros w. cbn [means eval]. rewrite Hr. cbn [rbind]. destruct (compare_agrees cell op v) as (w' & -> & ->); [by apply (Hw c)|done|done|done].
Qed.
Lemma read_in c vs s : to_sql_n fmt (S n) (In c vs) = Ok s -> plain (In c vs) -> typed row (In c vs) -> read_as s (In c vs).
Proof.
  intros Hs Hp Ht. cbn [plain] in Hp.
  change (to_sql_n fmt (S n) (In c vs)) with
    (if bool_decide (SInt I64_MIN ∈ vs) then
       let rest := List.filter (fun v => negb (bool_decide (v = SInt I64_MIN))) vs in
       match rest with
       | [] => to_sql_n fmt n (Compare c OpEq (SInt I64_MIN))
       | _ => to_sql_n fmt n (Or [one_of c rest; Compare c OpEq (SInt I64_MIN)])
       end
     else in_sql fmt c vs) in Hs.
  case_bool_decide as Hm; [|by apply (in_sql_read c vs s Hs); [apply plain_not_min|]].
  cbv zeta in Hs. destruct (in_min_agrees c vs _ Hm Ht eq_refl) as (Ht1 & Ht2 & E).
  assert (Hp1 : Forall plain_literal (List.filter (fun v => negb (bool_decide (v = SInt I64_MIN))) vs)).
  { rewrite Forall_forall in *. intros v [Hv _]%elem_of_filter_list. by apply Hp. }
  destruct (List.filter _ vs) as [|r rest].
  + apply (read_as_weaken _ _ (Compare c OpEq (SInt I64_MIN))); [|apply (IH _ _ Hs); [by right|exact Ht2]].
    intros v. rewrite E. cbn [eval]. rewrite kleene_cons, kleene_one. destruct Ht1 as (cell & Hr & _). cbn [eval]. rewrite Hr. cbn [rbind].
    change (kleene (fun v => Filter.compare cell OpEq v) true false []) with (@Ok EvalError _ (Some (negb true))). by rewrite either_neutral_l.
  + apply (read_as_weaken _ _ (Or [In c (r :: rest); Compare c OpEq (SInt I64_MIN)])); [intros v; by rewrite E|].
    apply (IH _ _ Hs); cbn [plain typed each foldr]; [split; [done|split; [by right|done]]|split; [done|split; [exact Ht2|done]]].
Qed.
Lemma read_contains c v s : to_sql_n fmt (S n) (ArrayContains c v) = Ok s -> plain (ArrayContains c v) -> typed row (ArrayContains c v) -> read_as s (ArrayContains c v).
Proof.
  intros Hs [Hp Hn] Ht. cbn [typed] in Ht. cbn [to_sql_n] in Hs. apply rbind_Ok in Hs as (q & Hq & [= <-]). exists (KContains c (reread v)).
  split; [left; apply pt_contains; [by apply ident_of|by apply scalar_text]|]. intros w. cbn [means eval].
  assert (Hr : reread v <> SNull) by (destruct v; cbn; [done..| |done|done]; by destruct (_ <=? _)).
  destruct Ht as [E|(items & E & Hi)]; rewrite E; cbn [rbind list_contains sql_contains].
  - intros [= <-]. by destruct (reread v).
  - destruct (Hw c _ E) as [_ Hwi]. assert (Hx : existsb (fun c => match c with CNull => true | _ => false end) items = false).
    { apply not_true_iff_false. intros (x & Hx%list_elem_of_In & Ex)%existsb_exists. rewrite Forall_forall in Hi. destruct (Hi x Hx) as [Hne _]. by destruct x. }
    assert (Ek : kleene (fun item => Filter.compare item OpEq v) true false items = foldr (fun c r => both true (sql_compare c OpEq (reread v)) r) (Ok (Some false)) items).
    { clear E Hx. induction items as [|x items IHi]; [done|]. apply Forall_cons in Hi as [[Hx Hk] Hi], Hwi as [Hwx Hwi]. cbn [foldr]. rewrite kleene_cons, <- IHi by done.
      destruct (compare_agrees x OpEq v Hwx Hp Hk) as (a & E1 & E2).
      destruct (kleene_ok (fun item => Filter.compare item OpEq v) true items false) as [b Eb].
      { intros y Hy. rewrite Forall_forall in Hi, Hwi. destruct (compare_agrees y OpEq v (Hwi y Hy) Hp (proj2 (Hi y Hy))) as (z & -> & _). by eexists. }
      rewrite E1, E2, Eb, (either_both true _ _ a b) by done. done. }
    rewrite Hx, <- Ek. destruct v; try done; by destruct (reread _).
Qed.
End level.

Lemma to_sql_reads n : forall e s, to_sql_n fmt n e = Ok s -> plain e -> typed row e -> read_as s e.
Proof.
  induction n as [|n IH]; intros e s Hs Hp Ht; [done|].
  destruct e as [b|l|l|e|c op v|c vs|c v|c k t|c|c|t];
    [|by apply (read_and n IH)|by apply (read_or n IH)|by apply (read_not n IH)|by apply (read_compare n IH)|by apply (read_in n IH)|by apply (read_contains n)|..].
  - pose proof (read_constant b) as H. cbn [to_sql_n] in Hs. destruct b; injection Hs as <-; exact H.
  - cbn [to_sql_n] in Hs. destruct (has_char PERCENT t || has_char UNDERSCORE t) eqn:Hwild; [done|]. apply orb_false_iff in Hwild. by apply (like_read c k t s Hwild).
  - cbn [to_sql_n] in Hs. apply rbind_Ok in Hs as (q & Hq & [= <-]). destruct Ht as (cell & Hr). exists (KIsNull c).
    split; [left; apply pt_null; by apply ident_of|]. intros v. cbn [eval means]. rewrite Hr. by destruct cell.
  - cbn [to_sql_n] in Hs. apply rbind_Ok in Hs as (q & Hq & [= <-]). destruct Ht as (cell & Hr). exists (KIsNotNull c).
    split; [left; apply pt_not_null; by apply ident_of|]. intros v. cbn [eval means]. rewrite Hr. by destruct cell.
  - done.
Qed.
End agreement.

End SqlText.
