(* ===== verification/FilterRead.v ===== *)
(** * An engine that reads SQL text

    An executable reader of the grammar of [SqlText] (tokens, then the grammar
    level by level) that evaluates what it reads: an engine of the kind the
    theorem on the text of predicates is about, and the program that its
    instances run. *)

From stdpp Require Import pretty.
From S2P Require Import Prelude Float64 BulkGate FilterEval FilterSql SqlText.

Module FilterRead.
Import Filter FilterSql SqlText.

(** ** Tokens *)

Inductive tok :=
| TLParen | TRParen | TComma
| TAnd | TOr | TNot | TIn | TIs | TNull | TLike | TCast | TAs | TBoolean | TTrue | TFalse | TArrayContains
| TNum (minus : bool) (n : Z) | TStr (s : string) | TIdent (s : string) | TOp (op : CmpOp).

Definition keyword (w : string) : option tok :=
  if String.eqb w "AND" then Some TAnd else if String.eqb w "OR" then Some TOr
  else if String.eqb w "NOT" then Some TNot else if String.eqb w "IN" then Some TIn
  else if String.eqb w "IS" then Some TIs else if String.eqb w "NULL" then Some TNull
  else if String.eqb w "LIKE" then Some TLike else if String.eqb w "CAST" then Some TCast
  else if String.eqb w "AS" then Some TAs else if String.eqb w "BOOLEAN" then Some TBoolean
  else if String.eqb w "true" then Some TTrue else if String.eqb w "false" then Some TFalse
  else if String.eqb w "array_contains" then Some TArrayContains else None.

(** Between tokens, or inside one; [LStrQ] has just seen a quote in a string. *)
Inductive lstate :=
| LGap | LWord (w : string) | LMinus | LNum (minus : bool) (n : Z)
| LStr (s : string) | LStrQ (s : string) | LIdent (s : string) | LBang | LLt | LGt.

Definition code (c : Ascii.ascii) : Z := Z.of_nat (Ascii.nat_of_ascii c).
Definition digit_of (c : Ascii.ascii) : option Z :=
  if (48 <=? code c) && (code c <=? 57) then Some (code c - 48) else None.
Definition is_letter (c : Ascii.ascii) : bool :=
  ((65 <=? code c) && (code c <=? 90)) || ((97 <=? code c) && (code c <=? 122)) || (code c =? 95).
Definition snoc (s : string) (c : Ascii.ascii) : string := s +:+ String c EmptyString.

Definition start (c : Ascii.ascii) : option (list tok * lstate) :=
  match digit_of c with
  | Some d => Some ([], LNum false d)
  | None =>
      if is_letter c then Some ([], LWord (String c EmptyString))
      else if code c =? 32 then Some ([], LGap)
      else if code c =? 40 then Some ([TLParen], LGap)
      else if code c =? 41 then Some ([TRParen], LGap)
      else if code c =? 44 then Some ([TComma], LGap)
      else if code c =? 45 then Some ([], LMinus)
      else if code c =? 39 then Some ([], LStr EmptyString)
      else if code c =? 96 then Some ([], LIdent EmptyString)
      else if code c =? 61 then Some ([TOp OpEq], LGap)
      else if code c =? 33 then Some ([], LBang)
      else if code c =? 60 then Some ([], LLt)
      else if code c =? 62 then Some ([], LGt)
      else None
  end.

(** The token that a state stands for when the text or the token ends. *)
Definition finish (st : lstate) : option (list tok) :=
  match st with
  | LGap => Some []
  | LWord w => t ← keyword w; Some [t]
  | LNum m n => Some [TNum m n]
  | LStrQ s => Some [TStr s]
  | LLt => Some [TOp OpLt]
  | LGt => Some [TOp OpGt]
  | LMinus | LStr _ | LIdent _ | LBang => None
  end.
(** End the token, then read the character between tokens. *)
Definition next (st : lstate) (c : Ascii.ascii) : option (list tok * lstate) :=
  ts ← finish st; '(us, st) ← start c; Some (ts ++ us, st).

Definition step (st : lstate) (c : Ascii.ascii) : option (list tok * lstate) :=
  match st with
  | LGap => start c
  | LWord w => if is_letter c then Some ([], LWord (snoc w c)) else next st c
  | LMinus => d ← digit_of c; Some ([], LNum true d)
  | LNum m n => match digit_of c with Some d => Some ([], LNum m (n * 10 + d)) | None => next st c end
  | LStr s => if Ascii.eqb c QUOTE then Some ([], LStrQ s) else Some ([], LStr (snoc s c))
  | LStrQ s => if Ascii.eqb c QUOTE then Some ([], LStr (snoc s c)) else next st c
  | LIdent s => if Ascii.eqb c BACKTICK then Some ([TIdent s], LGap) else Some ([], LIdent (snoc s c))
  | LBang => if code c =? 61 then Some ([TOp OpNotEq], LGap) else None
  | LLt => if code c =? 61 then Some ([TOp OpLtEq], LGap) else next st c
  | LGt => if code c =? 61 then Some ([TOp OpGtEq], LGap) else next st c
  end.
Fixpoint run (st : lstate) (s : string) : option (list tok * lstate) :=
  match s with
  | EmptyString => Some ([], st)
  | String c s => '(ts, st) ← step st c; '(us, st) ← run st s; Some (ts ++ us, st)
  end.
Definition lex (s : string) : option (list tok) := '(ts, st) ← run LGap s; us ← finish st; Some (ts ++ us).

(** ** Conditions *)

(** An integer literal is signed when it fits, otherwise unsigned; a minus sign
    negates a literal that fits. *)
Definition read_literal (ts : list tok) : option (Scalar * list tok) :=
  match ts with
  | TNum false n :: ts => if n <=? I64_MAX then Some (SInt n, ts) else if n <=? U64_MAX then Some (SUInt n, ts) else None
  | TNum true n :: ts => if n <=? I64_MAX then Some (SInt (- n), ts) else None
  | TStr s :: ts => Some (SStr s, ts)
  | TTrue :: ts => Some (SBool true, ts)
  | TFalse :: ts => Some (SBool false, ts)
  | TNull :: ts => Some (SNull, ts)
  | _ => None
  end.
(** A list of literals up to its closing parenthesis. *)
Fixpoint read_literals (n : nat) (ts : list tok) : option (list Scalar * list tok) :=
  match n with
  | O => None
  | S n =>
      '(v, ts) ← read_literal ts;
      match ts with
      | TRParen :: ts => Some ([v], ts)
      | TComma :: ts => '(vs, ts) ← read_literals n ts; Some (v :: vs, ts)
      | _ => None
      end
  end.

Fixpoint p_or (n : nat) (ts : list tok) : option (cond * list tok) :=
  match n with
  | O => None
  | S n =>
      '(a, ts) ← p_and n ts;
      match ts with
      | TOr :: ts => '(b, ts) ← p_or n ts; Some (KOr a b, ts)
      | _ => Some (a, ts)
      end
  end
with p_and (n : nat) (ts : list tok) : option (cond * list tok) :=
  match n with
  | O => None
  | S n =>
      '(a, ts) ← p_not n ts;
      match ts with
      | TAnd :: ts => '(b, ts) ← p_and n ts; Some (KAnd a b, ts)
      | _ => Some (a, ts)
      end
  end
with p_not (n : nat) (ts : list tok) : option (cond * list tok) :=
  match n with
  | O => None
  | S n =>
      match ts with
      | TNot :: ts => '(a, ts) ← p_not n ts; Some (KNot a, ts)
      | _ => p_primary n ts
      end
  end
with p_primary (n : nat) (ts : list tok) : option (cond * list tok) :=
  match n with
  | O => None
  | S n =>
      match ts with
      | TLParen :: ts =>
          '(a, ts) ← p_or n ts;
          match ts with TRParen :: ts => Some (a, ts) | _ => None end
      | TTrue :: ts => Some (KConst (Some true), ts)
      | TFalse :: ts => Some (KConst (Some false), ts)
      | TCast :: TLParen :: TNull :: TAs :: TBoolean :: TRParen :: ts => Some (KConst None, ts)
      | TArrayContains :: TLParen :: TIdent c :: TComma :: ts =>
          '(v, ts) ← read_literal ts;
          match ts with TRParen :: ts => Some (KContains c v, ts) | _ => None end
      | TIdent c :: TOp op :: ts => '(v, ts) ← read_literal ts; Some (KCompare c op v, ts)
      | TIdent c :: TIn :: TLParen :: ts => '(vs, ts) ← read_literals n ts; Some (KIn c vs, ts)
      | TIdent c :: TLike :: TStr p :: ts => Some (KLike c p, ts)
      | TIdent c :: TIs :: TNull :: ts => Some (KIsNull c, ts)
      | TIdent c :: TIs :: TNot :: TNull :: ts => Some (KIsNotNull c, ts)
      | _ => None
      end
  end.

(** Every level costs at most four calls a token. *)
Definition read_sql (s : string) : option cond :=
  ts ← lex s;
  match p_or (4 * length ts + 4) ts with Some (c, []) => Some c | _ => None end.

(** Read, then evaluate. *)
Definition reader (s : string) (row : Row) : result EvalError (option bool) :=
  match read_sql s with Some c => means row c | None => Err Unsupported end.

Example read_example :
  read_sql "NOT ((`a` = -1) AND (`b` IN (1, 18446744073709551615) OR CAST(NULL AS BOOLEAN)))"
  = Some (KNot (KAnd (KCompare "a" OpEq (SInt (-1))) (KOr (KIn "b" [SInt 1; SUInt U64_MAX]) (KConst None)))).
Proof. vm_compute. reflexivity. Qed.
(** The literal that the rendering avoids. *)
Example i64_min_unreadable : read_sql "`a` = -9223372036854775808" = None.
Proof. vm_compute. reflexivity. Qed.

(** ** Reading a text piece by piece *)

Lemma run_app st s1 s2 :
  run st (s1 +:+ s2) = ('(ts, st) ← run st s1; '(us, st) ← run st s2; Some (ts ++ us, st)).
Proof.
  revert st. induction s1 as [|c s1 IH]; intros st; [change (EmptyString +:+ s2) with s2|rewrite sapp_cons]; cbn.
  - by destruct (run st s2) as [[]|].
  - destruct (step st c) as [[ts st']|]; cbn; [|done]. rewrite IH. destruct (run st' s1) as [[us st1]|]; cbn; [|done].
    destruct (run st1 s2) as [[vs st2]|]; cbn; [|done]. by rewrite app_assoc.
Qed.

(** The characters that end a token. *)
Definition is_break (c : Ascii.ascii) : bool := (code c =? 32) || (code c =? 40) || (code c =? 41) || (code c =? 44).
Definition starts_break (s : string) : bool := match s with EmptyString => false | String c _ => is_break c end.

(** A state that ends at the end of the text or at such a character. *)
Definition closes (st : lstate) (ts : list tok) : Prop :=
  finish st = Some ts /\ forall c, is_break c = true -> step st c = next st c.
(** A text that is these tokens, whatever ends it. *)
Definition spells (s : string) (ts : list tok) : Prop :=
  exists us st vs, run LGap s = Some (us, st) /\ closes st vs /\ ts = us ++ vs.
(** A text after which another token can start. *)
Definition gap (s : string) (ts : list tok) : Prop := run LGap s = Some (ts, LGap).

Lemma break_chars c : is_break c = true -> digit_of c = None /\ is_letter c = false /\ Ascii.eqb c QUOTE = false /\ (code c =? 61) = false.
Proof. destruct c as [[] [] [] [] [] [] [] []]; vm_compute; intros [=]; done. Qed.
Lemma closes_gap : closes LGap [].
Proof. split; [done|]. intros c _. cbn. unfold next. cbn. by destruct (start c) as [[]|]. Qed.
Lemma closes_word w t : keyword w = Some t -> closes (LWord w) [t].
Proof.
  intros H. split; [cbn; by rewrite H|]. intros c (_ & E & _)%break_chars. cbn [step]. by rewrite E.
Qed.
Lemma closes_num m n : closes (LNum m n) [TNum m n].
Proof. split; [done|]. intros c (E & _)%break_chars. cbn [step]. by rewrite E. Qed.
Lemma closes_str s : closes (LStrQ s) [TStr s].
Proof. split; [done|]. intros c (_ & _ & E & _)%break_chars. cbn [step]. by rewrite E. Qed.

Lemma spells_lex s ts : spells s ts -> lex s = Some ts.
Proof. intros (us & st & vs & E & [Hf _] & ->). unfold lex. rewrite E. cbn. by rewrite Hf. Qed.
Lemma gap_spells s ts : gap s ts -> spells s ts.
Proof. intros H. exists ts, LGap, []. split; [done|]. split; [apply closes_gap|]. by rewrite app_nil_r. Qed.
Lemma gap_gap s1 t1 s2 t2 : gap s1 t1 -> gap s2 t2 -> gap (s1 +:+ s2) (t1 ++ t2).
Proof. unfold gap. intros H1 H2. rewrite run_app, H1. cbn. by rewrite H2. Qed.
Lemma gap_then s1 t1 s2 t2 : gap s1 t1 -> spells s2 t2 -> spells (s1 +:+ s2) (t1 ++ t2).
Proof.
  intros H1 (us & st & vs & E & Hc & ->). exists (t1 ++ us), st, vs. rewrite run_app. unfold gap in H1. rewrite H1. cbn. rewrite E.
  cbn. by rewrite app_assoc.
Qed.

(** A token ends where a break follows. *)
Lemma spells_run s1 t1 s2 ts st : spells s1 t1 -> starts_break s2 = true -> run LGap s2 = Some (ts, st) ->
  run LGap (s1 +:+ s2) = Some (t1 ++ ts, st).
Proof.
  intros (us & st1 & vs & E & [Hf Hs] & ->) Hb H2. rewrite run_app, E. cbn. destruct s2 as [|c s2]; [done|]. cbn in Hb, H2 |- *.
  rewrite (Hs c Hb). unfold next. rewrite Hf. cbn. destruct (start c) as [[ws st']|]; cbn in *; [|done].
  destruct (run st' s2) as [[xs st2]|]; cbn in *; [|done]. injection H2 as <- <-. by rewrite !app_assoc.
Qed.
Lemma spells_gap s1 t1 s2 t2 : spells s1 t1 -> starts_break s2 = true -> gap s2 t2 -> gap (s1 +:+ s2) (t1 ++ t2).
Proof. intros. unfold gap. by apply spells_run. Qed.
Lemma spells_then s1 t1 s2 t2 : spells s1 t1 -> starts_break s2 = true -> spells s2 t2 -> spells (s1 +:+ s2) (t1 ++ t2).
Proof.
  intros H1 Hb (us & st & vs & E & Hc & ->). exists (t1 ++ us), st, vs. rewrite (spells_run s1 t1 s2 us st) by done. by rewrite app_assoc.
Qed.

(** ** The pieces *)

Lemma snoc_app acc c s : snoc acc c +:+ s = acc +:+ String c s.
Proof. unfold snoc. by rewrite sapp_assoc, sapp_cons. Qed.
Lemma run_doubled s t : doubled s t -> forall acc, run (LStr acc) s = Some ([], LStr (acc +:+ t)).
Proof.
  induction 1 as [|c s t Hc _ IH|s t _ IH]; intros acc; [by rewrite sapp_nil| |].
  - apply Ascii.eqb_neq in Hc. cbn. rewrite Hc. cbn. rewrite IH. cbn. by rewrite snoc_app.
  - cbn [run step]. change (Ascii.eqb QUOTE QUOTE) with true. cbn. change (Ascii.eqb QUOTE QUOTE) with true. cbn. rewrite IH. cbn. by rewrite snoc_app.
Qed.
Lemma spells_string s t : string_text s t -> spells s [TStr t].
Proof.
  intros [b t' H]. exists [], (LStrQ t'), [TStr t']. split; [|split; [apply closes_str|done]]. unfold quote at 1. rewrite sapp_cons. cbn [run].
  change (step LGap QUOTE) with (Some (@nil tok, LStr EmptyString)). change (EmptyString +:+ ?s) with s. cbn [mbind option_bind]. rewrite run_app, (run_doubled b t' H). done.
Qed.
Lemma run_ident acc s : has_char BACKTICK s = false -> run (LIdent acc) s = Some ([], LIdent (acc +:+ s)).
Proof.
  revert acc. induction s as [|c s IH]; intros acc H; [by rewrite sapp_nil|]. cbn [has_char] in H. apply orb_false_iff in H as [E H].
  cbn. rewrite E. cbn. rewrite IH by done. cbn. by rewrite snoc_app.
Qed.
Lemma gap_ident i column : ident_text i column -> gap i [TIdent column].
Proof.
  intros [name H]. unfold gap, backtick at 1. rewrite sapp_cons. cbn [run].
  change (step LGap BACKTICK) with (Some (@nil tok, LIdent EmptyString)). change (EmptyString +:+ ?s) with s. cbn [mbind option_bind].
  rewrite run_app, run_ident by done. done.
Qed.

Lemma digit_read c d : digit c d -> digit_of c = Some d.
Proof.
  intros [H E]. unfold digit_of, code. rewrite E. destruct (Z.leb_spec 48 (48 + d)), (Z.leb_spec (48 + d) 57); try lia. cbn. f_equal. lia.
Qed.
Lemma run_digits s n : digits s n -> run LGap s = Some ([], LNum false n) /\ run LMinus s = Some ([], LNum true n).
Proof.
  induction 1 as [c d H%digit_read|s n c d _ [IH1 IH2] H%digit_read].
  - cbn. unfold start. by rewrite H.
  - rewrite !run_app, IH1, IH2. cbn. by rewrite H.
Qed.
Lemma spells_keyword w t : run LGap w = Some ([], LWord w) -> keyword w = Some t -> spells w [t].
Proof. intros H Hk. exists [], (LWord w), [t]. split; [done|]. split; [by apply closes_word|done]. Qed.


Lemma spells_literal s v : literal_text s v -> exists t, spells s [t] /\ forall ts, read_literal (t :: ts) = Some (v, ts).
Proof.
  intros [| | |s' n H Hn|s' n H [Hn Hu]|s' n H Hn|s' t H].
  - exists TNull. split; [by apply spells_keyword|done].
  - exists TTrue. split; [by apply spells_keyword|done].
  - exists TFalse. split; [by apply spells_keyword|done].
  - exists (TNum false n). split; [|intros ts; cbn; by rewrite (proj2 (Z.leb_le _ _) Hn)].
    exists [], (LNum false n), [TNum false n]. split; [by apply run_digits|]. split; [apply closes_num|done].
  - exists (TNum false n). split; [|intros ts; cbn; by rewrite (proj2 (Z.leb_gt _ _) Hn), (proj2 (Z.leb_le _ _) Hu)].
    exists [], (LNum false n), [TNum false n]. split; [by apply run_digits|]. split; [apply closes_num|done].
  - exists (TNum true n). split; [|intros ts; cbn; by rewrite (proj2 (Z.leb_le _ _) Hn)].
    exists [], (LNum true n), [TNum true n]. split; [|split; [apply closes_num|done]].
    change (run LGap (String (Ascii.ascii_of_nat 45) s') = Some ([], LNum true n)). cbn [run]. change (step LGap (Ascii.ascii_of_nat 45)) with (Some (@nil tok, LMinus)). cbn [mbind option_bind].
    by rewrite (proj2 (run_digits s' n H)).
  - exists (TStr t). split; [by apply spells_string|done].
Qed.
Lemma spells_literals s vs : literals_text s vs ->
  exists ts, gap (s +:+ ")") ts /\ (length vs <= length ts)%nat
    /\ forall n rest, (length vs <= n)%nat -> read_literals n (ts ++ rest) = Some (vs, rest).
Proof.
  induction 1 as [s v (t & Ht & Hr)%spells_literal|s v s' vs (t & Ht & Hr)%spells_literal _ (ts & Hg & Hl & Hts)].
  - exists ([t] ++ [TRParen]). split; [by apply spells_gap|]. split; [cbn; lia|]. intros [|n] rest Hn; [cbn in Hn; lia|].
    cbn [app read_literals]. by rewrite Hr.
  - exists ([t] ++ [TComma] ++ ts). split.
    + rewrite !sapp_assoc. apply spells_gap; [done|done|]. by apply gap_gap.
    + split; [cbn in *; lia|]. intros [|n] rest Hn; [cbn in Hn; lia|]. cbn [app read_literals]. rewrite Hr. cbn.
      rewrite Hts by (cbn in *; lia). done.
Qed.

(** ** The grammar, level by level *)

Definition primary (ts : list tok) (c : cond) : Prop :=
  forall n rest, (4 * length ts + 1 <= n)%nat -> p_primary n (ts ++ rest) = Some (c, rest).
Definition negation (ts : list tok) (c : cond) : Prop :=
  forall n rest, (4 * length ts + 2 <= n)%nat -> p_not n (ts ++ rest) = Some (c, rest).
Definition stops (rest : list tok) : Prop := match rest with [] | TRParen :: _ => True | _ => False end.
Definition conjunction (ts : list tok) (c : cond) : Prop :=
  forall n rest, (match rest with TAnd :: _ => False | _ => True end) -> (4 * length ts + 3 <= n)%nat -> p_and n (ts ++ rest) = Some (c, rest).
Definition whole (ts : list tok) (c : cond) : Prop :=
  forall n rest, stops rest -> (4 * length ts + 4 <= n)%nat -> p_or n (ts ++ rest) = Some (c, rest).

Lemma primary_negation ts c : primary ts c -> negation ts c.
Proof.
  intros H [|n] rest Hn; [lia|]. pose proof (H (S (4 * length ts)) [] ltac:(lia)) as H0.
  destruct ts as [|t ts]; [done|]. cbn [app p_not]. specialize (H n rest). cbn [app] in H.
  destruct t; try (apply H; cbn in *; lia). done.
Qed.
Lemma negation_conjunction ts c : negation ts c -> conjunction ts c.
Proof.
  intros H [|n] rest Hr Hn; [lia|]. cbn [p_and]. rewrite H by lia. cbn. by destruct rest as [|[] rest].
Qed.
Lemma conjunction_whole ts c : conjunction ts c -> whole ts c.
Proof.
  intros H [|n] rest Hr Hn; [lia|]. cbn [p_or]. rewrite H; [|by destruct rest as [|[] rest]|lia]. cbn. by destruct rest as [|[] rest].
Qed.
Lemma primary_whole ts c : primary ts c -> whole ts c.
Proof. intros H. by apply conjunction_whole, negation_conjunction, primary_negation. Qed.

Definition reads (level : list tok -> cond -> Prop) (s : string) (c : cond) : Prop := exists ts, spells s ts /\ level ts c.

Lemma reads_read_sql s c : reads whole s c -> read_sql s = Some c.
Proof.
  intros (ts & Hs & Hw). unfold read_sql. rewrite (spells_lex s ts Hs). cbn.
  specialize (Hw (4 * length ts + 4)%nat [] I (le_n _)). rewrite app_nil_r in Hw. cbn in Hw. by rewrite Hw.
Qed.
Lemma reads_paren s c : reads whole s c -> reads primary ("(" +:+ s +:+ ")") c.
Proof.
  intros (ts & Hs & Hw). exists ([TLParen] ++ ts ++ [TRParen]). split.
  - apply gap_then; [done|]. by apply gap_spells, spells_gap.
  - intros [|n] rest Hn; [lia|]. cbn [app]. rewrite length_app in Hn. cbn [length] in Hn. rewrite length_app in Hn. cbn [length] in Hn.
    cbn [p_primary]. rewrite <- app_assoc. rewrite Hw by (done || lia). done.
Qed.
Lemma join_step s t ts l sep us : spells s ts -> starts_break sep = true -> gap sep us -> spells l t -> spells (s +:+ sep +:+ l) (ts ++ us ++ t).
Proof.
  intros Hs Hb Hg Hl. apply spells_then; [done| |by apply gap_then]. destruct sep; [done|]. by rewrite sapp_cons.
Qed.
Lemma reads_and s c s' c' : reads negation s c -> reads conjunction s' c' -> reads conjunction (s +:+ " AND " +:+ s') (KAnd c c').
Proof.
  intros (ts & Hs & Hp) (us & Hu & Hc). exists (ts ++ [TAnd] ++ us). split; [by apply (join_step s us ts _ " AND " [TAnd])|].
  intros [|n] rest Hr Hn; [lia|]. rewrite !length_app in Hn. cbn [length] in Hn. cbn [p_and]. rewrite <- app_assoc.
  rewrite Hp by lia. cbn. by rewrite Hc by (done || lia).
Qed.
Lemma reads_or s c s' c' : reads conjunction s c -> reads whole s' c' -> reads whole (s +:+ " OR " +:+ s') (KOr c c').
Proof.
  intros (ts & Hs & Hp) (us & Hu & Hc). exists (ts ++ [TOr] ++ us). split; [by apply (join_step s us ts _ " OR " [TOr])|].
  intros [|n] rest Hr Hn; [lia|]. rewrite !length_app in Hn. cbn [length] in Hn. cbn [p_or]. rewrite <- app_assoc.
  rewrite Hp by (done || lia). cbn. by rewrite Hc by (done || lia).
Qed.
Lemma reads_not s c : reads negation s c -> reads negation ("NOT " +:+ s) (KNot c).
Proof.
  intros (ts & Hs & Hp). exists ([TNot] ++ ts). split; [by apply gap_then|].
  intros [|n] rest Hn; [lia|]. cbn [app length] in *. cbn [p_not]. rewrite Hp by lia. done.
Qed.

(** ** Leaves *)

Section leaves.
  Context (i column : string) (Hi : ident_text i column).

Lemma reads_compare op l v : literal_text l v -> reads primary (i +:+ " " +:+ op_text op +:+ " " +:+ l) (KCompare column op v).
Proof.
  intros (t & Ht & Hr)%spells_literal. exists ([TIdent column] ++ [TOp op] ++ [t]). split.
  - apply gap_then; [by apply gap_ident|]. rewrite <- !sapp_assoc. apply gap_then; [by destruct op|done].
  - intros [|n] rest Hn; [lia|]. cbn [app p_primary]. by rewrite Hr.
Qed.
Lemma reads_in l vs : literals_text l vs -> reads primary (i +:+ " IN (" +:+ l +:+ ")") (KIn column vs).
Proof.
  intros (ts & Ht & Hl & Hr)%spells_literals. exists ([TIdent column] ++ [TIn; TLParen] ++ ts). split.
  - apply gap_spells, gap_gap; [by apply gap_ident|]. by apply gap_gap.
  - intros [|n] rest Hn; [lia|]. cbn [app length] in *. cbn [p_primary]. rewrite Hr by lia. done.
Qed.
Lemma reads_array_contains l v : literal_text l v -> reads primary ("array_contains(" +:+ i +:+ ", " +:+ l +:+ ")") (KContains column v).
Proof.
  intros (t & Ht & Hr)%spells_literal.
  exists ([TArrayContains; TLParen] ++ [TIdent column] ++ [TComma] ++ [t] ++ [TRParen]). split.
  - apply gap_spells, gap_gap; [done|]. apply gap_gap; [by apply gap_ident|]. apply gap_gap; [done|]. by apply spells_gap.
  - intros [|n] rest Hn; [lia|]. cbn [app p_primary]. by rewrite Hr.
Qed.
Lemma reads_like p pattern : string_text p pattern -> reads primary (i +:+ " LIKE " +:+ p) (KLike column pattern).
Proof.
  intros Hp. exists ([TIdent column] ++ [TLike] ++ [TStr pattern]). split; [|intros [|n] rest Hn; [lia|done]].
  apply gap_then; [by apply gap_ident|]. apply gap_then; [done|by apply spells_string].
Qed.
Lemma reads_null : reads primary (i +:+ " IS NULL") (KIsNull column).
Proof.
  exists ([TIdent column] ++ [TIs; TNull]). split; [|intros [|n] rest Hn; [lia|done]]. apply gap_then; [by apply gap_ident|].
  exists [TIs], (LWord "NULL"), [TNull]. split; [done|]. split; [by apply closes_word|done].
Qed.
Lemma reads_not_null : reads primary (i +:+ " IS NOT NULL") (KIsNotNull column).
Proof.
  exists ([TIdent column] ++ [TIs; TNot; TNull]). split; [|intros [|n] rest Hn; [lia|done]]. apply gap_then; [by apply gap_ident|].
  exists [TIs; TNot], (LWord "NULL"), [TNull]. split; [done|]. split; [by apply closes_word|done].
Qed.
End leaves.
Lemma reads_constant (b : bool) : reads primary (if b then "true" else "false") (KConst (Some b)).
Proof.
  exists [if b then TTrue else TFalse]. destruct b; (split; [by apply spells_keyword|]); intros [|k] rest Hk; done || (cbn in Hk; lia).
Qed.
Lemma reads_unknown : reads primary "CAST(NULL AS BOOLEAN)" (KConst None).
Proof. exists [TCast; TLParen; TNull; TAs; TBoolean; TRParen]. split; [by apply gap_spells|]. intros [|n] rest Hn; [lia|done]. Qed.

Scheme primary_text_mut := Minimality for primary_text Sort Prop
  with not_text_mut := Minimality for not_text Sort Prop
  with and_text_mut := Minimality for and_text Sort Prop
  with or_text_mut := Minimality for or_text Sort Prop.
Combined Scheme text_mut from primary_text_mut, not_text_mut, and_text_mut, or_text_mut.

Lemma text_reads :
  (forall s c, primary_text s c -> reads primary s c) /\ (forall s c, not_text s c -> reads negation s c)
  /\ (forall s c, and_text s c -> reads conjunction s c) /\ (forall s c, or_text s c -> reads whole s c).
Proof.
  apply text_mut.
  - exact (reads_constant true).
  - exact (reads_constant false).
  - exact reads_unknown.
  - intros s c _ H. exact (reads_paren s c H).
  - intros i column op l v Hi Hl. exact (reads_compare i column Hi op l v Hl).
  - intros i column l vs Hi Hl. exact (reads_in i column Hi l vs Hl).
  - intros i column l v Hi Hl. exact (reads_array_contains i column Hi l v Hl).
  - intros i column p pattern Hi Hp. exact (reads_like i column Hi p pattern Hp).
  - intros i column Hi. exact (reads_null i column Hi).
  - intros i column Hi. exact (reads_not_null i column Hi).
  - intros s c _ (ts & Hs & Hp). exists ts. split; [done|by apply primary_negation].
  - intros s c _ H. exact (reads_not s c H).
  - intros s c _ (ts & Hs & Hp). exists ts. split; [done|by apply negation_conjunction].
  - intros s c s' c' _ H _ H'. exact (reads_and s c s' c' H H').
  - intros s c _ (ts & Hs & Hp). exists ts. split; [done|by apply conjunction_whole].
  - intros s c s' c' _ H _ H'. exact (reads_or s c s' c' H H').
Qed.

(** The reader follows SQL. *)
Theorem reader_speaks_sql : speaks_sql reader.
Proof.
  intros s c row v Ho Hv. unfold reader. destruct text_reads as (_ & _ & _ & H). by rewrite (reads_read_sql s c (H s c Ho)).
Qed.

(** A name with a space, a string with a quote, two lists on one column and the
    smallest integer. *)
Definition person : ArrowRow :=
  [("my name"%string, Some (DUtf8 "O'Hara")); ("age"%string, Some (DInt64 41)); ("score"%string, None)].
Definition person_filter : FilterExpr :=
  And [StringMatch "my name" StartsWith "O'"; In "age" [SInt 40; SInt 41]; In "age" [SInt 41; SInt 7];
       Not (Compare "age" OpEq (SInt I64_MIN)); Or [In "score" [SNull; SInt 3]; IsNotNull "my name"]].

(** On a float column below the smallest integer the respelled comparison
    answers the opposite. *)
Theorem respelling_widens_floats :
  let row := score_row (CFloat (f64_neg TWO_POW_64)) in
  eval row (Compare "score" OpEq (SInt I64_MIN)) = Ok (Some false)
  /\ eval row (respell_i64_min_compare "score" OpEq) = Ok (Some true)
  /\ eval row (Compare "score" OpGtEq (SInt I64_MIN)) = Ok (Some false)
  /\ eval row (respell_i64_min_compare "score" OpGtEq) = Ok (Some true).
Proof. split_and!; vm_compute; reflexivity. Qed.

(** The smallest integer is respelled in comparisons and lists only: the test
    for a list element still prints the literal that cannot be read. *)
Theorem array_test_prints_i64_min fmt :
  to_sql fmt (ArrayContains "xs" (SInt I64_MIN)) = Ok "array_contains(`xs`, -9223372036854775808)"%string
  /\ read_sql "array_contains(`xs`, -9223372036854775808)" = None
  /\ eval (fun _ => Ok (CList [CInt I64_MIN])) (ArrayContains "xs" (SInt I64_MIN)) = Ok (Some true).
Proof. split_and!; vm_compute; reflexivity. Qed.
End FilterRead.
