(* ===== verification/CrashIO.v ===== *)
(** * Programs with fallible I/O and crashes

    The monad in which the operations on an object store are written: a state
    (what is durable together with what is in memory) and a script of the
    outcomes that the I/O operations to come will have.  A write can succeed,
    fail without effect, or fail after taking effect (a timeout after the
    store applied it); when the script ends the process dies, just before its
    next I/O operation.  A triple gives the states a program can return in and
    the states it can die in. *)

From S2P Require Import Prelude.

Inductive Outcome := Done | Refused | Lost.
#[export] Instance outcome_eq_dec : EqDecision Outcome.
Proof. solve_decision. Defined.

Inductive Run (S A : Type) : Type :=
| Crashed (s : S)
| Ret (s : S) (script : list Outcome) (a : A).
Arguments Crashed {S A} s.
Arguments Ret {S A} s script a.

Definition IO (S A : Type) : Type := S -> list Outcome -> Run S A.

Section ops.
  Context {S : Type}.

Definition io_ret {A} (a : A) : IO S A := fun s script => Ret s script a.
Definition io_bind {A B} (m : IO S A) (k : A -> IO S B) : IO S B := fun s script =>
  match m s script with
  | Crashed s => Crashed s
  | Ret s script a => k a s script
  end.
Definition io_get {A} (f : S -> A) : IO S A := fun s script => Ret s script (f s).
Definition io_modify (f : S -> S) : IO S unit := fun s script => Ret (f s) script tt.

(** A write or delete; the answer is whether it reported success. *)
Definition io_write (f : S -> S) : IO S bool := fun s script =>
  match script with
  | [] => Crashed s
  | Done :: script => Ret (f s) script true
  | Refused :: script => Ret s script false
  | Lost :: script => Ret (f s) script false
  end.
(** A read; [None] is a failed one. *)
Definition io_read {A} (f : S -> A) : IO S (option A) := fun s script =>
  match script with
  | [] => Crashed s
  | Done :: script => Ret s script (Some (f s))
  | _ :: script => Ret s script None
  end.

(** [r?] on a [Result]. *)
Definition io_try {E A B} (m : IO S (result E A)) (k : A -> IO S (result E B)) : IO S (result E B) :=
  io_bind m (fun r => match r with Ok a => k a | Err e => io_ret (Err e) end).

Fixpoint io_each {A} (f : A -> IO S unit) (l : list A) : IO S unit :=
  match l with
  | [] => io_ret tt
  | x :: l => io_bind (f x) (fun _ => io_each f l)
  end.
(** A loop whose body may return early with an error. *)
Fixpoint io_each_try {E A} (f : A -> IO S (result E unit)) (l : list A) : IO S (result E unit) :=
  match l with
  | [] => io_ret (Ok tt)
  | x :: l => io_try (f x) (fun _ => io_each_try f l)
  end.
End ops.

Notation "'let!' x ':=' m 'in' k" := (io_bind m (fun x => k))
  (at level 10, x pattern, m at level 100, k at level 200) : uni_scope.
Notation "'try!' x ':=' m 'in' k" := (io_try m (fun x => k))
  (at level 10, x pattern, m at level 100, k at level 200) : uni_scope.

(** ** Weakest preconditions *)

Section wp.
  Context {S : Type} (adm : Outcome -> Prop) (C : S -> Prop).

(** Under a script of admitted outcomes a return is in [Q] and a crash leaves
    a state in [C]. *)
Definition wp {A} (m : IO S A) (s : S) (Q : A -> S -> Prop) : Prop :=
  forall script, Forall adm script ->
  match m s script with
  | Crashed s' => C s'
  | Ret s' script' a => Forall adm script' /\ Q a s'
  end.

Lemma wp_ret {A} (a : A) s (Q : A -> S -> Prop) : Q a s -> wp (io_ret a) s Q.
Proof. by intros H script Hf. Qed.
Lemma wp_get {A} (f : S -> A) s (Q : A -> S -> Prop) : Q (f s) s -> wp (io_get f) s Q.
Proof. by intros H script Hf. Qed.
Lemma wp_modify (f : S -> S) s (Q : unit -> S -> Prop) : Q tt (f s) -> wp (io_modify f) s Q.
Proof. by intros H script Hf. Qed.

Lemma wp_bind {A B} (m : IO S A) (k : A -> IO S B) s Q :
  wp m s (fun a s' => wp (k a) s' Q) -> wp (io_bind m k) s Q.
Proof.
  intros Hm script Hf. unfold io_bind. specialize (Hm script Hf).
  destruct (m s script) as [s'|s' script' a]; [done|]. destruct Hm as [Hf' Hk]. by apply Hk.
Qed.
Lemma wp_try {E A B} (m : IO S (result E A)) (k : A -> IO S (result E B)) s Q :
  wp m s (fun r s' => match r with Ok a => wp (k a) s' Q | Err e => Q (Err e) s' end) -> wp (io_try m k) s Q.
Proof.
  intros Hm. apply wp_bind. intros script Hf. specialize (Hm script Hf). destruct (m s script) as [|s' script' [a|e]]; [done..|].
  destruct Hm. split; [done|]. by apply wp_ret.
Qed.

Lemma wp_mono {A} (m : IO S A) s (Q Q' : A -> S -> Prop) : (forall a s', Q a s' -> Q' a s') -> wp m s Q -> wp m s Q'.
Proof. intros H Hm script Hf. specialize (Hm script Hf). destruct (m s script); [done|]. destruct Hm. auto. Qed.

Lemma wp_write (f : S -> S) s (Q : bool -> S -> Prop) :
  C s -> (adm Done -> Q true (f s)) -> (adm Refused -> Q false s) -> (adm Lost -> Q false (f s)) -> wp (io_write f) s Q.
Proof.
  intros Hc H1 H2 H3 script Hf. destruct script as [|o script]; [done|].
  apply Forall_cons in Hf as [Ho Hf]. destruct o; cbn; auto.
Qed.
Lemma wp_read {A} (f : S -> A) s (Q : option A -> S -> Prop) :
  C s -> Q (Some (f s)) s -> (adm Refused \/ adm Lost -> Q None s) -> wp (io_read f) s Q.
Proof.
  intros Hc H1 H2 script Hf. destruct script as [|o script]; [done|].
  apply Forall_cons in Hf as [Ho Hf]. destruct o; cbn; auto.
Qed.

(** A loop invariant indexed by what is left to do. *)
Lemma wp_each {A} (I : list A -> S -> Prop) (f : A -> IO S unit) l :
  (forall x r s, I (x :: r) s -> wp (f x) s (fun _ => I r)) -> forall s, I l s -> wp (io_each f l) s (fun _ => I []).
Proof.
  intros H. induction l as [|x l IH]; intros s Hs; [by apply wp_ret|]. cbn [io_each]. apply wp_bind.
  eapply wp_mono; [|by apply H]. intros u s' Hs'. by apply IH.
Qed.
Lemma wp_each_try {E A} (I : list A -> S -> Prop) (Q : result E unit -> S -> Prop) (f : A -> IO S (result E unit)) l :
  (forall x r s, I (x :: r) s -> wp (f x) s (fun res s' => match res with Ok _ => I r s' | Err e => Q (Err e) s' end)) ->
  (forall s, I [] s -> Q (Ok tt) s) -> forall s, I l s -> wp (io_each_try f l) s Q.
Proof.
  intros H Hq. induction l as [|x l IH]; intros s Hs; [apply wp_ret; by apply Hq|]. cbn [io_each_try]. apply wp_try.
  eapply wp_mono; [|by apply H]. intros [u|e] s' Hs'; [by apply IH|done].
Qed.
End wp.

(** Crashes as the only faults. *)
Definition clean (o : Outcome) : Prop := o = Done.

Section clean.
  Context {S : Type} (C : S -> Prop).

Lemma wp_write_clean (f : S -> S) s (Q : bool -> S -> Prop) : C s -> Q true (f s) -> wp clean C (io_write f) s Q.
Proof. intros Hc H. by apply wp_write. Qed.
Lemma wp_read_clean {A} (f : S -> A) s (Q : option A -> S -> Prop) : C s -> Q (Some (f s)) s -> wp clean C (io_read f) s Q.
Proof. intros Hc H. apply wp_read; [done|done|]. by intros [?|?]. Qed.

End clean.

(** ** Termination *)

(** From every state, without faults and with a long enough script, a program
    returns. *)
Definition total {S A} (m : IO S A) : Prop :=
  forall s, exists n s' a, forall k, m s (replicate (n + k) Done) = Ret s' (replicate k Done) a.

Section total.
  Context {S : Type}.

Lemma total_ret {A} (a : A) : total (@io_ret S A a).
Proof. intros s. by exists O, s, a. Qed.
Lemma total_get {A} (f : S -> A) : total (io_get f).
Proof. intros s. by exists O, s, (f s). Qed.
Lemma total_modify (f : S -> S) : total (io_modify f).
Proof. intros s. by exists O, (f s), tt. Qed.
Lemma total_write (f : S -> S) : total (io_write f).
Proof. intros s. by exists 1%nat, (f s), true. Qed.
Lemma total_read {A} (f : S -> A) : total (io_read f).
Proof. intros s. by exists 1%nat, s, (Some (f s)). Qed.
Lemma total_bind {A B} (m : IO S A) (k : A -> IO S B) : total m -> (forall a, total (k a)) -> total (io_bind m k).
Proof.
  intros Hm Hk s. destruct (Hm s) as (n1 & s1 & a & E1). destruct (Hk a s1) as (n2 & s2 & b & E2).
  exists (n1 + n2)%nat, s2, b. intros j. unfold io_bind. by rewrite <- Nat.add_assoc, E1, E2.
Qed.
Lemma total_try {E A B} (m : IO S (result E A)) (k : A -> IO S (result E B)) :
  total m -> (forall a, total (k a)) -> total (io_try m k).
Proof. intros Hm Hk. apply total_bind; [done|]. intros [a|e]; [apply Hk|apply total_ret]. Qed.
Lemma total_each {A} (f : A -> IO S unit) l : (forall x, total (f x)) -> total (io_each f l).
Proof. intros H. induction l as [|x l IH]; [apply total_ret|]. apply total_bind; [apply H|by intros _]. Qed.
Lemma total_each_try {E A} (f : A -> IO S (result E unit)) l : (forall x, total (f x)) -> total (io_each_try f l).
Proof. intros H. induction l as [|x l IH]; [apply total_ret|]. apply total_try; [apply H|by intros _]. Qed.
End total.

Create HintDb io_total.
#[export] Hint Resolve total_ret total_get total_modify total_write total_read total_bind total_try total_each total_each_try : io_total.

(** One step of a straight-line program. *)
Ltac wp_step :=
  first
    [ apply wp_bind | apply wp_try | apply wp_ret | apply wp_get | apply wp_modify
    | apply wp_write_clean | apply wp_read_clean ]; cbn beta iota.
