(* ===== verification/Forks.v ===== *)
(** * Forks

    The catalog of forks and the two-phase operations on it:
    crates/uni-common/src/core/fork.rs (the records),
    uni-store/src/fork/registry.rs ([ForkRegistryHandle]), fork/id_alloc.rs,
    fork/mod.rs, fork/recovery.rs, the creation in uni/src/api/fork.rs and the
    dropping in uni/src/api/fork_admin.rs.

    Durable are the registry file, the schema overlays, the tombstones, the
    branches of the tables and the files of each fork (id allocator, log);
    the registry is also cached in memory, with the number of live holders
    per fork.  A branch name "fork_{id}_{dataset}" is the pair of its id (a
    ULID of fixed width) and dataset.  The lock of a name is held across each
    operation on it and the operations here run one at a time; the fork point
    captured before a creation is its argument. *)

From stdpp Require Import strings.
From S2P Require Import Prelude CrashIO.

Inductive ForkStatus := Pending | Active | Tombstoned.
#[export] Instance fork_status_eq_dec : EqDecision ForkStatus.
Proof. solve_decision. Defined.

Abbreviation Branch := (Z * string)%type.

Record ForkInfo := mkFork {
  fk_id : Z;
  fk_name : string;
  fk_parent : option Z;
  fk_parent_snapshot : string;
  fk_created_at : Z;
  fk_ttl_expires_at : option Z;
  fk_schema_version : Z;
  fk_datasets : gmap string Branch;
  fk_version_hwm : Z;
  fk_status : ForkStatus;
}.
#[export] Instance fork_info_eq_dec : EqDecision ForkInfo.
Proof. solve_decision. Defined.

Definition new_pending (id : Z) (name parent_snapshot_id : string) (now schema_version : Z) : ForkInfo :=
  mkFork id name None parent_snapshot_id now None schema_version ∅ 0 Pending.
Definition with_status (st : ForkStatus) (i : ForkInfo) : ForkInfo :=
  mkFork (fk_id i) (fk_name i) (fk_parent i) (fk_parent_snapshot i) (fk_created_at i) (fk_ttl_expires_at i)
    (fk_schema_version i) (fk_datasets i) (fk_version_hwm i) st.
Definition with_datasets (ds : gmap string Branch) (i : ForkInfo) : ForkInfo :=
  mkFork (fk_id i) (fk_name i) (fk_parent i) (fk_parent_snapshot i) (fk_created_at i) (fk_ttl_expires_at i)
    (fk_schema_version i) ds (fk_version_hwm i) (fk_status i).

Abbreviation ForkRegistryFile := (gmap string ForkInfo).

(** Iteration over a [BTreeMap<String, _>]: by name. *)
Definition name_le {A} (a b : string * A) : Prop := String.leb a.1 b.1 = true.
#[export] Instance name_le_dec {A} : RelDecision (@name_le A).
Proof. intros a b. unfold name_le. apply _. Defined.
Definition by_name {A} (m : gmap string A) : list (string * A) := merge_sort name_le (map_to_list m).

(** The store: where a fork keeps a file, and what the file of the allocator holds. *)
Inductive Area := CatalogForks | WalForks.
#[export] Instance area_eq_dec : EqDecision Area.
Proof. solve_decision. Defined.
#[export] Instance area_countable : Countable Area.
Proof.
  refine (inj_countable' (fun a => match a with CatalogForks => true | WalForks => false end)
    (fun b : bool => if b then CatalogForks else WalForks) _). by intros [].
Defined.
Inductive FileBody := CounterManifest (next_vid_batch next_eid_batch : Z) | OtherBody.

Section forks.
  Context {D : Type} (delta_empty : D).

Record Disk := mkDisk {
  d_registry : option ForkRegistryFile;
  d_overlays : gmap Z D;
  d_tombstones : gmap Z ForkInfo;
  d_branches : gset (string * Branch);
  d_files : gmap (Area * Z * string) FileBody;
}.

Record Sys := mkSys {
  disk : Disk;
  cache : ForkRegistryFile;
  holders : gmap Z nat;
  max_forks : option nat;
  inflight : gmap Z nat;
}.

Definition set_disk (f : Disk -> Disk) (s : Sys) : Sys := mkSys (f (disk s)) (cache s) (holders s) (max_forks s) (inflight s).
Definition set_cache (f : ForkRegistryFile -> ForkRegistryFile) (s : Sys) : Sys :=
  mkSys (disk s) (f (cache s)) (holders s) (max_forks s) (inflight s).
Definition set_holders (f : gmap Z nat -> gmap Z nat) (s : Sys) : Sys :=
  mkSys (disk s) (cache s) (f (holders s)) (max_forks s) (inflight s).
Definition set_inflight (f : gmap Z nat -> gmap Z nat) (s : Sys) : Sys :=
  mkSys (disk s) (cache s) (holders s) (max_forks s) (f (inflight s)).

Definition on_registry (r : ForkRegistryFile) (d : Disk) : Disk :=
  mkDisk (Some r) (d_overlays d) (d_tombstones d) (d_branches d) (d_files d).
Definition on_overlays (f : gmap Z D -> gmap Z D) (d : Disk) : Disk :=
  mkDisk (d_registry d) (f (d_overlays d)) (d_tombstones d) (d_branches d) (d_files d).
Definition on_tombstones (f : gmap Z ForkInfo -> gmap Z ForkInfo) (d : Disk) : Disk :=
  mkDisk (d_registry d) (d_overlays d) (f (d_tombstones d)) (d_branches d) (d_files d).
Definition on_branches (f : gset (string * Branch) -> gset (string * Branch)) (d : Disk) : Disk :=
  mkDisk (d_registry d) (d_overlays d) (d_tombstones d) (f (d_branches d)) (d_files d).
Definition on_files (f : gmap (Area * Z * string) FileBody -> gmap (Area * Z * string) FileBody) (d : Disk) : Disk :=
  mkDisk (d_registry d) (d_overlays d) (d_tombstones d) (d_branches d) (f (d_files d)).

Inductive ForkError :=
| ForkNotFound (name : string)
| ForkNotFoundId (id : Z)
| ForkAlreadyExists (name : string)
| ForkBudgetExceeded (current max : nat)
| ForkInUse (name : string) (holder_count : nat)
| ForkHasChildren (name : string) (children : list string)
| ForkInflightTx (name : string)
| ForkSubtreeInUse (blockers : list string)
| PendingFlushTimeout (name : string)
| ForkCorruptRegistry
| ForkLifecycle (name stage : string)
| ForkInternal.

Definition M (A : Type) : Type := IO Sys A.
Definition R (A : Type) : Type := IO Sys (result ForkError A).

(** ** The registry *)

Definition load (max : option nat) : R unit :=
  let! r := io_read (fun s => d_registry (disk s)) in
  match r with
  | Some file => let! _ := io_modify (fun s => mkSys (disk s) (default ∅ file) ∅ max ∅) in io_ret (Ok tt)
  | None => io_ret (Err (ForkLifecycle "<registry>" "load"))
  end.

Definition list_active : M (list ForkInfo) :=
  io_get (fun s => filter (fun f => fk_status f = Active) (by_name (cache s)).*2).
Definition expired (now : Z) (f : ForkInfo) : Prop :=
  fk_status f = Active /\ match fk_ttl_expires_at f with Some t => t <= now | None => False end.
#[export] Instance expired_dec now f : Decision (expired now f).
Proof. unfold expired. destruct (fk_ttl_expires_at f); apply _. Defined.
Definition list_expired (now : Z) : M (list ForkInfo) := io_get (fun s => filter (expired now) (by_name (cache s)).*2).
Definition list_children (parent_id : Z) : M (list ForkInfo) :=
  io_get (fun s => filter (fun f => fk_parent f = Some parent_id) (by_name (cache s)).*2).
Definition find_id (id : Z) (c : ForkRegistryFile) : option ForkInfo :=
  head (filter (fun f => fk_id f = id) (by_name c).*2).
Definition get_by_id (id : Z) : R ForkInfo :=
  io_get (fun s => match find_id id (cache s) with Some f => Ok f | None => Err (ForkNotFoundId id) end).
Definition get (name : string) : R ForkInfo :=
  io_get (fun s => match cache s !! name with Some f => Ok f | None => Err (ForkNotFound name) end).

(** [register_holder], the drop of its guard, [holder_count]. *)
Definition register_holder (id : Z) : M unit :=
  io_modify (set_holders (fun h => <[id := S (default O (h !! id))]> h)).
Definition release_holder (id : Z) : M unit :=
  io_modify (set_holders (fun h => <[id := pred (default O (h !! id))]> h)).
Definition holder_count (id : Z) : M nat := io_get (fun s => default O (holders s !! id)).

(** Every put writes the cache as it is at that point. *)
Definition put_registry (name stage : string) : R unit :=
  let! done := io_write (fun s => set_disk (on_registry (cache s)) s) in
  io_ret (if done : bool then Ok tt else Err (ForkLifecycle name stage)).
Definition put_schema_overlay (id : Z) (delta : D) (name : string) : R unit :=
  let! done := io_write (set_disk (on_overlays (<[id := delta]>))) in
  io_ret (if done : bool then Ok tt else Err (ForkLifecycle name "schema_overlay")).
Definition put_tombstone (info : ForkInfo) : R unit :=
  let! done := io_write (set_disk (on_tombstones (<[fk_id info := info]>))) in
  io_ret (if done : bool then Ok tt else Err (ForkLifecycle (fk_name info) "tombstone")).
(** Failures of these two are ignored. *)
Definition delete_tombstone (id : Z) : M unit :=
  let! _ := io_write (set_disk (on_tombstones (delete id))) in io_ret tt.
Definition delete_schema_overlay (id : Z) : M unit :=
  let! _ := io_write (set_disk (on_overlays (delete id))) in io_ret tt.

Definition register_dataset_branch (id : Z) (dataset : string) (branch : Branch) : R unit :=
  let! found := io_get (fun s => find_id id (cache s)) in
  match found with
  | None => io_ret (Err (ForkNotFoundId id))
  | Some entry =>
      match fk_datasets entry !! dataset with
      | Some existing => io_ret (if decide (existing = branch) then Ok tt else Err ForkCorruptRegistry)
      | None =>
          let! _ := io_modify (set_cache (<[fk_name entry := with_datasets (<[dataset := branch]> (fk_datasets entry)) entry]>)) in
          put_registry (fk_name entry) "registry_dynamic_branch"
      end
  end.

Definition update_schema_overlay (id : Z) (delta : D) : R unit :=
  let! name := io_get (fun s => match find_id id (cache s) with Some f => fk_name f | None => "<fork>"%string end) in
  put_schema_overlay id delta name.
Definition load_schema_overlay (id : Z) : R D :=
  let! r := io_read (fun s => default delta_empty (d_overlays (disk s) !! id)) in
  io_ret (match r with Some d => Ok d | None => Err (ForkLifecycle "<schema-overlay>" "schema_overlay") end).

Definition begin_create (info : ForkInfo) : R unit :=
  let! s := io_get (fun s => s) in
  if decide (is_Some (cache s !! fk_name info)) then io_ret (Err (ForkAlreadyExists (fk_name info)))
  else if (match max_forks s with Some cap => Nat.leb cap (size (cache s)) | None => false end) then
    io_ret (Err (ForkBudgetExceeded (size (cache s)) (default O (max_forks s))))
  else
    let! _ := io_modify (set_cache (<[fk_name info := info]>)) in
    put_registry (fk_name info) "registry_pending".

Definition finish_create (name : string) (datasets : gmap string Branch) : R ForkInfo :=
  try! entry := get name in
  let! _ := io_modify (set_cache (<[name := with_status Active (with_datasets datasets entry)]>)) in
  try! _ := put_registry name "registry_active" in
  try! _ := put_schema_overlay (fk_id entry) delta_empty name in
  get name.

Definition rollback_create (name : string) : R unit :=
  let! removed := io_get (fun s => fk_id <$> cache s !! name) in
  let! _ := io_modify (set_cache (delete name)) in
  try! _ := put_registry name "registry_pending" in
  match removed with
  | Some id =>
      let! _ := delete_schema_overlay id in
      let! _ := io_modify (set_holders (delete id)) in
      io_ret (Ok tt)
  | None => io_ret (Ok tt)
  end.

Definition begin_drop (name : string) : R ForkInfo :=
  try! info := get name in
  let! count := holder_count (fk_id info) in
  if (0 <? count)%nat then io_ret (Err (ForkInUse (fk_name info) count))
  else
    try! _ := put_tombstone info in
    let! present := io_get (fun s => cache s !! name) in
    match present with
    | Some entry =>
        let! _ := io_modify (set_cache (<[name := with_status Tombstoned entry]>)) in
        try! _ := put_registry name "tombstone" in
        io_ret (Ok info)
    | None => io_ret (Ok info)
    end.

Definition finish_drop (info : ForkInfo) : R unit :=
  let! _ := io_modify (set_cache (delete (fk_name info))) in
  try! _ := put_registry (fk_name info) "registry_clear" in
  let! _ := delete_tombstone (fk_id info) in
  let! _ := delete_schema_overlay (fk_id info) in
  let! _ := io_modify (set_holders (delete (fk_id info))) in
  io_ret (Ok tt).

(** The tombstones are listed, then read one by one. *)
Fixpoint read_tombstones (ids : list Z) : R (list ForkInfo) :=
  match ids with
  | [] => io_ret (Ok [])
  | id :: ids =>
      let! r := io_read (fun s => d_tombstones (disk s) !! id) in
      match r with
      | Some (Some info) => try! rest := read_tombstones ids in io_ret (Ok (info :: rest))
      | _ => io_ret (Err (ForkLifecycle "<tombstones>" "recovery"))
      end
  end.
Definition list_tombstones : R (list ForkInfo) :=
  let! r := io_read (fun s => (map_to_list (d_tombstones (disk s))).*1) in
  match r with
  | Some ids => read_tombstones ids
  | None => io_ret (Err (ForkLifecycle "<tombstones>" "recovery"))
  end.

(** ** Files and branches of a fork *)

Definition delete_fork_artifacts (id : Z) : M unit :=
  io_each (fun area =>
    let! files := io_read (fun s => filter (fun k => k.1 = (area, id)) (map_to_list (d_files (disk s))).*1) in
    match files with
    | Some files => io_each (fun k => let! _ := io_write (set_disk (on_files (delete k))) in io_ret tt) files
    | None => io_ret tt
    end) [CatalogForks; WalForks].

Definition bootstrap_fork_from_primary_hwm (id vid_hwm eid_hwm : Z) : R unit :=
  let key := (CatalogForks, id, "id_allocator.json"%string) in
  let! r := io_read (fun s => d_files (disk s) !! key) in
  match r with
  | Some (Some _) => io_ret (Ok tt)
  | _ =>
      let! done := io_write (set_disk (on_files (<[key := CounterManifest vid_hwm eid_hwm]>))) in
      io_ret (if done : bool then Ok tt else Err ForkInternal)
  end.

Definition delete_branch (dataset : string) (branch : Branch) : M bool :=
  io_write (set_disk (on_branches (fun b => b ∖ {[(dataset, branch)]}))).
Definition create_branch (dataset : string) (branch : Branch) : M bool :=
  io_write (set_disk (on_branches (fun b => {[(dataset, branch)]} ∪ b))).
End forks.
