(* ===== verification/ForkLifecycle.v ===== *)
(** * Creating, opening, dropping and recovering forks

    The creation of uni/src/api/fork.rs ([create_fork_2pc] from its second
    step, [build_datasets_for_fork], the dispatch of [ForkBuilder::build]),
    the dropping of uni/src/api/fork_admin.rs ([drop_fork],
    [drop_fork_cascade]), the recovery of uni-store/src/fork/recovery.rs and
    the branch a fork creates on its first write to a table
    (uni-store/src/backend/branched.rs).  [candidates] are the dataset names
    of the schema, [branching] whether the backend has branches. *)

From stdpp Require Import strings pretty.
From S2P Require Import Prelude CrashIO Forks.

Record ForkPoint := mkPoint {
  fp_version_hwm : Z;
  fp_vid_hwm : Z;
  fp_eid_hwm : Z;
  fp_captured : gset string;
  fp_parent_branch_versions : gset string;
}.

(** What a session that asks for a fork brings: the fresh id, the parent's
    branches when it is a fork itself, and whether a restore ran meanwhile. *)
Record CreateArgs := mkArgs {
  ca_id : Z;
  ca_snapshot : string;
  ca_schema_version : Z;
  ca_now : Z;
  ca_ttl : option Z;
  ca_parent : option (Z * gmap string Branch);
  ca_point : ForkPoint;
  ca_restored : bool;
}.

Section lifecycle.
  Context {D : Type} (delta_empty : D) (candidates : list string) (branching : bool).
  #[local] Abbreviation M := (@M D).
  #[local] Abbreviation R := (@R D).

(** ** Creation *)

(** [for dataset_name in candidate_names]: the branches made and attempted. *)
Fixpoint build_loop (a : CreateArgs) (cands : list string) (branches : gmap string Branch) (attempted : list (string * Branch)) :
    M (result ForkError (gmap string Branch) * list (string * Branch)) :=
  match cands with
  | [] => io_ret (Ok branches, attempted)
  | ds :: cands =>
      if decide (ds ∈ fp_captured (ca_point a)) then
        let branch := (ca_id a, ds) in
        let attempted := attempted ++ [(ds, branch)] in
        match ca_parent a with
        | Some (_, scope) =>
            match scope !! ds with
            | Some _ =>
                let! version :=
                  (if decide (ds ∈ fp_parent_branch_versions (ca_point a)) then io_ret (Some tt) else io_read (fun _ => tt)) in
                match version with
                | None => io_ret (Err (ForkLifecycle "<fork>" "current_version_on_branch"), attempted)
                | Some _ =>
                    let! made := create_branch ds branch in
                    if made : bool then build_loop a cands (<[ds := branch]> branches) attempted
                    else io_ret (Err (ForkLifecycle "<fork>" "create_branch_from"), attempted)
                end
            | None => build_loop a cands branches attempted
            end
        | None =>
            let! made := create_branch ds branch in
            if made : bool then build_loop a cands (<[ds := branch]> branches) attempted
            else io_ret (Err (ForkLifecycle "<fork>" "create_branch"), attempted)
        end
      else build_loop a cands branches attempted
  end.

Definition build_datasets_for_fork (a : CreateArgs) : R (gmap string Branch) :=
  if negb branching then io_ret (Err (ForkLifecycle "<fork>" "branching"))
  else
    let! built := build_loop a candidates ∅ [] in
    match built with
    | (Ok branches, _) => io_ret (Ok branches)
    | (Err e, attempted) =>
        let! _ := io_each (fun db => let! _ := delete_branch db.1 db.2 in io_ret tt) attempted in
        io_ret (Err e)
    end.

Definition pending_info (a : CreateArgs) (name : string) : ForkInfo :=
  mkFork (ca_id a) name (fst <$> ca_parent a) (ca_snapshot a) (ca_now a) ((fun t => ca_now a + t) <$> ca_ttl a)
    (ca_schema_version a) ∅ (fp_version_hwm (ca_point a)) Pending.

(** From the Pending entry on.  Failed rollbacks are only logged. *)
Definition create_fork_2pc (a : CreateArgs) (name : string) : R ForkInfo :=
  try! _ := begin_create (pending_info a name) in
  if ca_restored a then
    let! _ := rollback_create name in io_ret (Err (ForkLifecycle name "restore_race"))
  else
    let! boot := bootstrap_fork_from_primary_hwm (ca_id a) (fp_vid_hwm (ca_point a)) (fp_eid_hwm (ca_point a)) in
    match boot with
    | Err e => let! _ := rollback_create name in io_ret (Err e)
    | Ok _ =>
        let! built := build_datasets_for_fork a in
        match built with
        | Err e => let! _ := rollback_create name in io_ret (Err e)
        | Ok datasets => finish_create delta_empty name datasets
        end
    end.

(** [ForkBuilder::build] up to the scope, whose guard registers a holder. *)
Definition open_or_create (a : CreateArgs) (name : string) (must_create : bool) : R ForkInfo :=
  let! found := get name in
  try! info :=
    (match found with
     | Ok existing =>
         if must_create then io_ret (Err (ForkAlreadyExists name))
         else
           match fk_status existing with
           | Active => io_ret (Ok existing)
           | Pending => io_ret (Err (ForkLifecycle name "pending_open"))
           | Tombstoned => io_ret (Err (ForkLifecycle name "tombstoned_open"))
           end
     | Err _ => create_fork_2pc a name
     end) in
  try! _ := load_schema_overlay delta_empty (fk_id info) in
  let! _ := register_holder (fk_id info) in
  io_ret (Ok info).

(** The branch of a table the fork writes for the first time, then its
    registration.  [scope] is what [ForkScope::branch_for] finds, [exists] what
    [table_exists] answers; the contents of branches are not part of the state,
    so replacing a tip and writing batches are calls that can only fail. *)
Definition backend_call : R unit :=
  let! ok := io_write (fun s => s) in io_ret (if ok : bool then Ok tt else Err ForkInternal).
Definition backend_read {A} (a : A) : R A :=
  let! r := io_read (fun _ => a) in io_ret (match r with Some x => Ok x | None => Err ForkInternal end).
Definition backend_branch (table : string) (branch : Branch) : R unit :=
  let! made := create_branch table branch in io_ret (if made : bool then Ok tt else Err ForkInternal).
Definition ensure_branch_for_new (id : Z) (scope : gmap string Branch) (table : string) (exists_ has_batches : bool) : R Branch :=
  match scope !! table with
  | Some b => io_ret (Ok b)
  | None =>
      if negb branching then io_ret (Err ForkInternal)
      else
        let branch := (id, table) in
        try! present := backend_read exists_ in
        try! _ :=
          (if present : bool then
             try! _ := backend_read tt in
             try! _ := backend_branch table branch in
             backend_call
           else backend_branch table branch) in
        try! _ := (if has_batches then backend_call else io_ret (Ok tt)) in
        try! _ := register_dataset_branch id table branch in
        io_ret (Ok branch)
  end.

(** ** Dropping *)

(** Delete every branch; the answer is whether all deletes succeeded. *)
Fixpoint delete_branches (l : list (string * Branch)) : M bool :=
  match l with
  | [] => io_ret true
  | (ds, b) :: l =>
      let! ok := delete_branch ds b in
      let! rest := delete_branches l in
      io_ret (ok && rest)
  end.

Definition drop_fork (name : string) : R unit :=
  try! preview := get name in
  let! children := list_children (fk_id preview) in
  match children with
  | _ :: _ => io_ret (Err (ForkHasChildren name (fk_name <$> children)))
  | [] =>
      let! inner := io_get (fun s => inflight s !! fk_id preview) in
      try! _ :=
        (match inner with
         | Some n =>
             if (0 <? n)%nat then io_ret (Err (ForkInflightTx name))
             else
               let! drained := io_read (fun _ => tt) in
               io_ret (match drained with Some _ => Ok tt | None => Err (PendingFlushTimeout name) end)
         | None => io_ret (Ok tt)
         end) in
      try! info := begin_drop name in
      let! _ := io_modify (set_inflight (delete (fk_id info))) in
      if negb branching then io_ret (Err (ForkLifecycle (fk_name info) "drop"))
      else
        let! clean := delete_branches (by_name (fk_datasets info)) in
        if clean : bool then
          let! _ := delete_fork_artifacts (fk_id info) in
          finish_drop info
        else io_ret (Err (ForkLifecycle name "delete_branch"))
  end.

(** [while let Some(node) = stack.pop()]: the subtree, roots first.  The fuel
    is the number of forks, [None] its end. *)
Fixpoint walk_subtree (fuel : nat) (stack order : list ForkInfo) : M (option (list ForkInfo)) :=
  match stack with
  | [] => io_ret (Some order)
  | node :: stack =>
      match fuel with
      | O => io_ret None
      | S fuel =>
          let! kids := list_children (fk_id node) in
          walk_subtree fuel (reverse kids ++ stack) (order ++ [node])
      end
  end.
Definition blocker (node : ForkInfo) : M (option string) :=
  io_get (fun s =>
    match inflight s !! fk_id node with
    | Some (S _) => Some (fk_name node +:+ ": in-flight tx")
    | _ =>
        let count := default O (holders s !! fk_id node) in
        if (0 <? count)%nat then Some (fk_name node +:+ ": " +:+ pretty count +:+ " live session(s)") else None
    end)%string.
Fixpoint blockers_of (nodes : list ForkInfo) : M (list string) :=
  match nodes with
  | [] => io_ret []
  | n :: nodes => let! b := blocker n in let! rest := blockers_of nodes in io_ret (option_list b ++ rest)
  end.
Definition drop_fork_cascade (name : string) : M (option (result ForkError unit)) :=
  let! root := get name in
  match root with
  | Err e => io_ret (Some (Err e))
  | Ok root =>
      let! fuel := io_get (fun s => size (cache s)) in
      let! order := walk_subtree fuel [root] [] in
      match order with
      | None => io_ret None
      | Some order =>
          let! blocked := blockers_of (reverse order) in
          match blocked with
          | _ :: _ => io_ret (Some (Err (ForkSubtreeInUse blocked)))
          | [] => let! r := io_each_try (fun n => drop_fork (fk_name n)) (reverse order) in io_ret (Some r)
          end
      end
  end.

(** ** Recovery *)

Definition delete_all_branches (info : ForkInfo) : M unit :=
  if negb branching then io_ret tt
  else io_each (fun db => let! _ := delete_branch db.1 db.2 in io_ret tt) (by_name (fk_datasets info)).
Definition rollback_branches (info : ForkInfo) : M unit :=
  let! _ := (if decide (fk_datasets info = ∅) then io_ret tt else delete_all_branches info) in
  if negb branching then io_ret tt
  else io_each (fun ds => let! _ := delete_branch ds (fk_id info, ds) in io_ret tt) candidates.

Definition with_status_in (st : ForkStatus) : M (list ForkInfo) :=
  io_get (fun s => filter (fun f => fk_status f = st) (by_name (cache s)).*2).

Definition roll_back (info : ForkInfo) : R unit :=
  let! _ := rollback_branches info in rollback_create (fk_name info).
Definition complete_drop (info : ForkInfo) : R unit :=
  let! _ := delete_all_branches info in
  let! _ := delete_fork_artifacts (fk_id info) in
  finish_drop info.
Definition recover_forks : R nat :=
  let! pending := with_status_in Pending in
  try! _ := io_each_try roll_back pending in
  let! tombstoned := with_status_in Tombstoned in
  try! _ := io_each_try complete_drop tombstoned in
  try! orphans := list_tombstones in
  try! _ := io_each_try complete_drop orphans in
  io_ret (Ok (length pending + length tombstoned + length orphans)%nat).

(** What opening the database does: load, then recover. *)
Definition open_db (max : option nat) : R nat :=
  try! _ := load max in recover_forks.
End lifecycle.
