(* ===== verification/ForkRuns.v ===== *)
(** * Runs of the fork catalog with crashes

    The consistency of what is on disk at every point where the process can
    die, in runs that create, open and drop forks and reopen the database
    (Module ForkLifecycle), with crashes between any two I/O operations, also
    inside recovery.  I/O operations themselves succeed here; the example file
    shows what failed ones do. *)

From stdpp Require Import strings.
From S2P Require Import Prelude CrashIO Forks ForkLifecycle.

(** ** Consistency of the catalog *)

Section catalog.
  Context (candidates : list string).
  Implicit Types (r : ForkRegistryFile) (t : gmap Z ForkInfo) (b : gset (string * Branch)).

(** Who a branch belongs to: a registered fork that recorded it or is being
    created, or a fork being dropped. *)
Definition owned r t (ds : string) (id : Z) : Prop :=
  (exists n i, r !! n = Some i /\ fk_id i = id
     /\ (is_Some (fk_datasets i !! ds) \/ (fk_status i = Pending /\ ds ∈ candidates)))
  \/ (exists i, t !! id = Some i /\ is_Some (fk_datasets i !! ds)).

(** Parents form no cycle. *)
Definition forest r : Prop :=
  exists rank : Z -> nat, forall n i p, r !! n = Some i -> fk_parent i = Some p -> (rank p < rank (fk_id i))%nat.

Lemma forest_insert r n i : forest r -> (forall m j, r !! m = Some j -> fk_id j <> fk_id i /\ fk_parent j <> Some (fk_id i)) ->
  fk_parent i <> Some (fk_id i) -> forest (<[n := i]> r).
Proof.
  intros (rank & H) Hf Hp. exists (fun k => if decide (k = fk_id i) then S (default O (rank <$> fk_parent i)) else rank k).
  intros m j p [[<- <-]|[_ Hm]]%lookup_insert_Some E.
  - rewrite E in *. rewrite decide_False, decide_True by congruence. cbn. lia.
  - destruct (Hf m j Hm). rewrite !decide_False by congruence. by eapply H.
Qed.
Lemma forest_update r n i j : forest r -> r !! n = Some i -> fk_id j = fk_id i -> fk_parent j = fk_parent i -> forest (<[n := j]> r).
Proof.
  intros (rank & H) Hn E1 E2. exists rank. intros m k p [[<- <-]|[_ Hm]]%lookup_insert_Some E; [|by eapply H].
  rewrite E1. eapply H; [done|congruence].
Qed.
Lemma forest_delete r n : forest r -> forest (delete n r).
Proof. intros (rank & H). exists rank. intros m k p [_ Hm]%lookup_delete_Some. by eapply H. Qed.

Record consistent r t b : Prop := {
  co_name n i : r !! n = Some i -> fk_name i = n;
  co_ids n m i j : r !! n = Some i -> r !! m = Some j -> fk_id i = fk_id j -> n = m;
  co_datasets n i ds x : r !! n = Some i -> fk_datasets i !! ds = Some x -> x = (fk_id i, ds);
  co_tomb k i : t !! k = Some i -> fk_id i = k
    /\ (forall ds x, fk_datasets i !! ds = Some x -> x = (k, ds))
    /\ (forall j, r !! fk_name i = Some j -> fk_id j = k /\ fk_datasets j = fk_datasets i)
    /\ (forall n j, r !! n = Some j -> fk_id j = k -> n = fk_name i);
  co_branch ds x : (ds, x) ∈ b -> x.2 = ds /\ owned r t ds x.1;
  co_active n i ds x : r !! n = Some i -> fk_status i = Active -> t !! fk_id i = None ->
    fk_datasets i !! ds = Some x -> (ds, x) ∈ b;
  co_pending n i : r !! n = Some i -> fk_status i = Pending -> fk_datasets i = ∅ /\ t !! fk_id i = None;
  co_forest : forest r;
}.

Definition no_branches b (id : Z) : Prop := forall ds x, (ds, x) ∈ b -> x.1 <> id.
Definition no_live r t (id : Z) : Prop :=
  forall n i, r !! n = Some i -> fk_id i = id -> fk_status i = Active -> is_Some (t !! id).
Definition fresh r t b (id : Z) : Prop :=
  (forall n i, r !! n = Some i -> fk_id i <> id /\ fk_parent i <> Some id) /\ t !! id = None /\ no_branches b id.

Lemma consistent_empty : consistent ∅ ∅ ∅.
Proof. split; intros *; rewrite ?lookup_empty; try done. exists (fun _ => O). intros n i p. by rewrite lookup_empty. Qed.

(** Registering a fork under creation. *)
Lemma consistent_pending r t b n i : consistent r t b -> r !! n = None -> fk_name i = n -> fresh r t b (fk_id i) ->
  fk_parent i <> Some (fk_id i) -> fk_status i = Pending -> fk_datasets i = ∅ -> (forall k j, t !! k = Some j -> fk_name j <> n) ->
  consistent (<[n := i]> r) t b.
Proof.
  intros [C1 C2 C3 C4 C5 C6 C7 C8] Hn Hname (Hf1 & Hf2 & Hf3) Hpar Hp Hd Ht. split.
  - intros m j [[<- <-]|[_ ?]]%lookup_insert_Some; [done|by eapply C1].
  - intros m1 m2 j1 j2 [[<- <-]|[? H1]]%lookup_insert_Some [[<- <-]|[? H2]]%lookup_insert_Some E; [done|..].
    + exfalso. by destruct (Hf1 _ _ H2).
    + exfalso. by destruct (Hf1 _ _ H1).
    + by eapply C2.
  - intros m j ds x [[<- <-]|[_ Hm]]%lookup_insert_Some; [by rewrite Hd|by eapply C3].
  - intros k j Hk. destruct (C4 k j Hk) as (E1 & E2 & E3 & E4). split_and!; [done|done| |].
    + intros j' [[E _]|[_ Hm]]%lookup_insert_Some; [|by apply E3]. exfalso. by eapply Ht.
    + intros m j' [[<- <-]|[_ Hm]]%lookup_insert_Some E; [|by eapply E4]. congruence.
  - intros ds x Hx. destruct (C5 ds x Hx) as [E Ho]. split; [done|]. destruct Ho as [(m & j & Hm & Hj & Ho)|Ho]; [left|by right].
    exists m, j. split; [|done]. rewrite lookup_insert_ne; [done|]. intros <-. congruence.
  - intros m j ds x [[<- <-]|[_ Hm]]%lookup_insert_Some; [by rewrite Hp|by eapply C6].
  - intros m j [[<- <-]|[_ Hm]]%lookup_insert_Some; [done|by eapply C7].
  - by apply forest_insert.
Qed.

(** A branch of a fork under creation. *)
Lemma consistent_branch r t b n i ds : consistent r t b -> r !! n = Some i -> fk_status i = Pending -> ds ∈ candidates ->
  consistent r t ({[(ds, (fk_id i, ds))]} ∪ b).
Proof.
  intros [C1 C2 C3 C4 C5 C6 C7 C8] Hn Hp Hds. split; try done.
  - intros ds' x [[= -> ->]%elem_of_singleton|Hx]%elem_of_union; [|by apply C5]. split; [done|]. left. exists n, i. auto.
  - intros m j ds' x Hm Ha Ht Hx. apply elem_of_union. right. by eapply C6.
Qed.

(** Completing a creation: every branch made is recorded, and no other. *)
Lemma consistent_activate r t b n i m : consistent r t b -> r !! n = Some i -> fk_status i = Pending ->
  (forall ds x, m !! ds = Some x -> x = (fk_id i, ds) /\ (ds, x) ∈ b) ->
  (forall ds x, (ds, x) ∈ b -> x.1 = fk_id i -> is_Some (m !! ds)) ->
  consistent (<[n := with_status Active (with_datasets m i)]> r) t b.
Proof.
  intros [C1 C2 C3 C4 C5 C6 C7 C8] Hn Hp Hm Hb. destruct (C7 n i Hn Hp) as [_ Ht]. split.
  - intros k j [[<- <-]|[_ ?]]%lookup_insert_Some; [cbn; by eapply C1|by eapply C1].
  - intros m1 m2 j1 j2 [[<- <-]|[? H1]]%lookup_insert_Some [[<- <-]|[? H2]]%lookup_insert_Some E; [done|..]; cbn in E;
      by eapply C2.
  - intros k j ds x [[<- <-]|[_ Hk]]%lookup_insert_Some; [intros Hx; cbn in *; by apply Hm|by eapply C3].
  - intros k j Hk. destruct (C4 k j Hk) as (E1 & E2 & E3 & E4). split_and!; [done|done| |].
    + intros j' [[E <-]|[_ Hj]]%lookup_insert_Some; [|by apply E3]. exfalso. rewrite <- E in E3. destruct (E3 i Hn) as [E5 _]. congruence.
    + intros k' j' [[<- <-]|[_ Hj]]%lookup_insert_Some E; [cbn in E; by eapply E4|by eapply E4].
  - intros ds x Hx. destruct (C5 ds x Hx) as [E Ho]. split; [done|]. destruct (decide (x.1 = fk_id i)) as [Ei|Ei].
    + left. eexists n, _. split; [by apply lookup_insert_eq|]. split; [done|]. left. cbn. by eapply Hb.
    + destruct Ho as [(k & j & Hk & Hj & Ho)|Ho]; [left|by right]. exists k, j. split; [|done].
      rewrite lookup_insert_ne; [done|]. intros <-. congruence.
  - intros k j ds x [[<- <-]|[_ Hk]]%lookup_insert_Some; [intros _ _ Hx; cbn in *; by apply Hm|by eapply C6].
  - intros k j [[<- <-]|[_ Hk]]%lookup_insert_Some; [done|by eapply C7].
  - by eapply forest_update.
Qed.

(** Writing the tombstone of an active fork, then flipping its status. *)
Lemma consistent_tombstone r t b n i : consistent r t b -> r !! n = Some i -> fk_status i <> Pending ->
  consistent r (<[fk_id i := i]> t) b.
Proof.
  intros [C1 C2 C3 C4 C5 C6 C7 C8] Hn Hp. split; try done.
  - intros k j [[<- <-]|[_ Hk]]%lookup_insert_Some; [|by apply C4]. split_and!; [done|intros; by eapply C3| |].
    + intros j Hj. rewrite (C1 n i Hn) in Hj. simplify_eq. done.
    + intros m j Hm E. rewrite (C1 n i Hn). by eapply C2.
  - intros ds x Hx. destruct (C5 ds x Hx) as [E [Ho|(j & Hj & Ho)]]; split; try done; [by left|]. right.
    destruct (decide (x.1 = fk_id i)) as [Ei|Ei]; [|exists j; by rewrite lookup_insert_ne].
    exists i. split; [rewrite Ei; by apply lookup_insert_eq|]. destruct (C4 _ _ Hj) as (_ & _ & E3 & E4).
    rewrite <- (E4 n i Hn) in E3 by done. destruct (E3 i Hn) as [_ ->]. done.
  - intros m j ds x Hm Ha Ht. apply lookup_insert_None in Ht as [Ht _]. by eapply C6.
  - intros m j Hm Hj. destruct (C7 m j Hm Hj) as [? ?]. split; [done|]. rewrite lookup_insert_ne; [done|].
    intros E. assert (n = m) as <- by (by eapply C2). congruence.
Qed.

Lemma consistent_flip r t b n i : consistent r t b -> r !! n = Some i -> fk_status i <> Pending ->
  consistent (<[n := with_status Tombstoned i]> r) t b.
Proof.
  intros [C1 C2 C3 C4 C5 C6 C7 C8] Hn Hp. split.
  - intros k j [[<- <-]|[_ ?]]%lookup_insert_Some; cbn; by eapply C1.
  - intros m1 m2 j1 j2 [[<- <-]|[? H1]]%lookup_insert_Some [[<- <-]|[? H2]]%lookup_insert_Some E; [done|..]; cbn in E; by eapply C2.
  - intros k j ds x [[<- <-]|[_ Hk]]%lookup_insert_Some; cbn; by eapply C3.
  - intros k j Hk. destruct (C4 k j Hk) as (E1 & E2 & E3 & E4). split_and!; [done|done| |].
    + intros j' [[E <-]|[_ Hj]]%lookup_insert_Some; [cbn; apply E3; by rewrite <- E|by apply E3].
    + intros k' j' [[<- <-]|[_ Hj]]%lookup_insert_Some E; [cbn in E; by eapply E4|by eapply E4].
  - intros ds x Hx. destruct (C5 ds x Hx) as [E [(k & j & Hk & Hj & Ho)|Ho]]; split; try done; [|by right]. left.
    destruct (decide (k = n)) as [->|Hne]; [|exists k, j; by rewrite lookup_insert_ne].
    simplify_eq. eexists n, _. split; [by apply lookup_insert_eq|]. split; [done|]. left. cbn. destruct Ho as [?|[? _]]; done.
  - intros k j ds x [[<- <-]|[_ Hk]]%lookup_insert_Some; [done|by eapply C6].
  - intros k j [[<- <-]|[_ Hk]]%lookup_insert_Some; [done|by eapply C7].
  - by eapply forest_update.
Qed.

(** Deleting branches of a fork that is not live, its entry, its tombstone. *)
Lemma consistent_unbranch r t b (id : Z) (l : gset (string * Branch)) : consistent r t b -> no_live r t id ->
  (forall ds x, (ds, x) ∈ l -> x.1 = id) -> consistent r t (b ∖ l).
Proof.
  intros [C1 C2 C3 C4 C5 C6 C7 C8] Hl Hids. split; try done.
  - intros ds x [Hx _]%elem_of_difference. by apply C5.
  - intros m j ds x Hm Ha Ht Hx. apply elem_of_difference. split; [by eapply C6|]. intros Hin. apply Hids in Hin.
    rewrite (C3 _ _ _ _ Hm Hx) in Hin. cbn in Hin. destruct (Hl m j Hm Hin Ha) as [y Hy]. rewrite Hin in Ht. congruence.
Qed.

Lemma consistent_unregister r t b n (id : Z) : consistent r t b -> no_branches b id ->
  (forall i, r !! n = Some i -> fk_id i = id) -> consistent (delete n r) t b.
Proof.
  intros [C1 C2 C3 C4 C5 C6 C7 C8] Hb Hn. split.
  - intros k j [_ ?]%lookup_delete_Some. by eapply C1.
  - intros k1 k2 j1 j2 [_ ?]%lookup_delete_Some [_ ?]%lookup_delete_Some. by eapply C2.
  - intros k j ds x [_ ?]%lookup_delete_Some. by eapply C3.
  - intros k j Hk. destruct (C4 k j Hk) as (E1 & E2 & E3 & E4). split_and!; [done|done| |].
    + intros j' [_ ?]%lookup_delete_Some. by apply E3.
    + intros k' j' [_ ?]%lookup_delete_Some. by eapply E4.
  - intros ds x Hx. destruct (C5 ds x Hx) as [E [(k & j & Hk & Hj & Ho)|Ho]]; split; try done; [|by right]. left.
    exists k, j. split; [|done]. rewrite lookup_delete_ne; [done|]. intros <-. apply (Hb ds x Hx). rewrite <- Hj. by apply Hn.
  - intros k j ds x [_ ?]%lookup_delete_Some. by eapply C6.
  - intros k j [_ ?]%lookup_delete_Some. by eapply C7.
  - by apply forest_delete.
Qed.

Lemma consistent_untomb r t b (id : Z) : consistent r t b -> no_branches b id ->
  (forall n i, r !! n = Some i -> fk_id i <> id) -> consistent r (delete id t) b.
Proof.
  intros [C1 C2 C3 C4 C5 C6 C7 C8] Hb Hn. split; try done.
  - intros k j [_ ?]%lookup_delete_Some. by apply C4.
  - intros ds x Hx. destruct (C5 ds x Hx) as [E [Ho|(j & Hj & Ho)]]; split; try done; [by left|]. right.
    exists j. split; [|done]. rewrite lookup_delete_ne; [done|]. apply not_eq_sym. by eapply Hb.
  - intros m j ds x Hm Ha Ht. rewrite lookup_delete_ne in Ht by (apply not_eq_sym; by eapply Hn). by eapply C6.
  - intros m j Hm Hj. destruct (C7 m j Hm Hj) as [? E]. split; [done|]. rewrite lookup_delete_ne by (apply not_eq_sym; by eapply Hn). done.
Qed.
End catalog.

(** ** What each operation does, crash or return *)

Section programs.
  Context {D : Type} (delta_empty : D) (candidates : list string).
  Implicit Types s : @Sys D.

Definition reg s : ForkRegistryFile := default ∅ (d_registry (disk s)).
Definition tombs s : gmap Z ForkInfo := d_tombstones (disk s).
Definition branches s : gset (string * Branch) := d_branches (disk s).
Definition durable_ok s : Prop := consistent candidates (reg s) (tombs s) (branches s).

(** Equal but for files and overlays, which consistency does not concern. *)
Definition same s s' : Prop :=
  cache s' = cache s /\ d_registry (disk s') = d_registry (disk s) /\ tombs s' = tombs s /\ branches s' = branches s
  /\ holders s' = holders s /\ inflight s' = inflight s.
Lemma same_ok s s' : same s s' -> durable_ok s -> durable_ok s'.
Proof. intros (_ & E1 & E2 & E3 & _). unfold durable_ok, reg. by rewrite E1, E2, E3. Qed.
Lemma same_trans s1 s2 s3 : same s1 s2 -> same s2 s3 -> same s1 s3.
Proof. intros (E1 & E2 & E3 & E4 & E5 & E6) (F1 & F2 & F3 & F4 & F5 & F6). unfold same. by rewrite F1, F2, F3, F4, F5, F6. Qed.

Abbreviation wps := (wp clean durable_ok).

Lemma artifacts_wp id s (Q : unit -> Sys -> Prop) : durable_ok s -> (forall s', same s s' -> Q tt s') ->
  wps (delete_fork_artifacts id) s Q.
Proof.
  intros Hs HQ. eapply wp_mono; [|apply (wp_each _ _ (fun _ s' => same s s')); [|done]].
  { intros [] s' Hs'. by apply HQ. }
  intros area _ s1 H1. wp_step. apply wp_read_clean; [by eapply same_ok|].
  eapply wp_mono; [|apply (wp_each _ _ (fun _ s' => same s s')); [|done]]; [done|].
  intros k _ s2 H2. wp_step. apply wp_write_clean; [by eapply same_ok|]. apply wp_ret. by eapply same_trans.
Qed.

(** Deleting the branches of a list, one at a time. *)
Definition without (l : list (string * Branch)) s : Sys := set_disk (on_branches (fun b => b ∖ list_to_set l)) s.

Lemma branches_without l s : branches (without l s) = branches s ∖ list_to_set l.
Proof. done. Qed.
Lemma without_step l x s : set_disk (on_branches (fun b => b ∖ {[x]})) (without l s) = without (l ++ [x]) s.
Proof.
  assert (E : branches s ∖ list_to_set l ∖ {[x]} = branches s ∖ list_to_set (l ++ [x])) by set_solver.
  unfold branches in E. unfold without, set_disk, on_branches. cbn. by rewrite E.
Qed.
Lemma without_nil s : without [] s = s.
Proof.
  destruct s as [[rg ov tb br fl] c h m f]. unfold without, set_disk, on_branches. cbn.
  assert (E : br ∖ list_to_set [] = br) by set_solver. cbn in E. by rewrite E.
Qed.

Lemma unbranch_wp {A} (g : A -> string * Branch) (id : Z) (l : list A) s (Q : unit -> Sys -> Prop) :
  durable_ok s -> no_live (reg s) (tombs s) id -> (forall y, y ∈ l -> (g y).2.1 = id) -> Q tt (without (g <$> l) s) ->
  wps (io_each (fun y => let! _ := delete_branch (g y).1 (g y).2 in io_ret tt) l) s Q.
Proof.
  intros Hs Hl Hids HQ.
  eapply wp_mono; [|apply (wp_each _ _ (fun rest s' => exists p, l = p ++ rest /\ s' = without (g <$> p) s))].
  - intros [] s' (p & Ep & ->). rewrite app_nil_r in Ep. by subst p.
  - intros y rest s' (p & Ep & ->). wp_step. apply wp_write_clean.
    { apply consistent_unbranch with (id := id); [done|done|].
      intros ds x (z & Ez & Hz)%elem_of_list_to_set%list_elem_of_fmap. change x with ((ds, x).2). rewrite Ez. apply Hids. set_solver. }
    apply wp_ret. exists (p ++ [y]). split; [by rewrite <- app_assoc|]. rewrite fmap_app. cbn [fmap list_fmap].
    rewrite <- without_step. by destruct (g y).
  - exists []. split; [done|]. cbn. by rewrite without_nil.
Qed.

Lemma elem_by_name {A} (m : gmap string A) k x : (k, x) ∈ by_name m <-> m !! k = Some x.
Proof. unfold by_name. rewrite merge_sort_Permutation. apply elem_of_map_to_list. Qed.

Lemma delete_branches_wp (id : Z) l s (Q : bool -> Sys -> Prop) : durable_ok s -> no_live (reg s) (tombs s) id ->
  (forall ds x, (ds, x) ∈ l -> x.1 = id) -> Q true (without l s) -> wps (delete_branches l) s Q.
Proof.
  intros Hs Hl Hids HQ. rewrite <- (without_nil s). change l with ([] ++ l) in HQ, Hids. revert HQ Hids. generalize (@nil (string * Branch)).
  revert Q. induction l as [|[ds x] l IH]; intros Q p HQ Hids; cbn [delete_branches].
  { apply wp_ret. by rewrite app_nil_r in HQ. }
  wp_step. apply wp_write_clean.
  { apply consistent_unbranch with (id := id); [done|done|]. intros ds' x' Hin%elem_of_list_to_set. apply (Hids ds'). set_solver. }
  wp_step. rewrite without_step. apply IH; [|by rewrite <- app_assoc]. apply wp_ret. by rewrite <- app_assoc.
Qed.

(** Everything of a fork that is not live can be removed. *)
Record removable s (info : ForkInfo) : Prop := {
  rm_live : no_live (reg s) (tombs s) (fk_id info);
  rm_entry i : reg s !! fk_name info = Some i -> fk_id i = fk_id info;
  rm_only n i : reg s !! n = Some i -> fk_id i = fk_id info -> n = fk_name info;
  rm_ids ds x : fk_datasets info !! ds = Some x -> x.1 = fk_id info;
  rm_branches ds x : (ds, x) ∈ branches s -> x.1 = fk_id info -> fk_datasets info !! ds = Some x;
}.

Lemma finish_drop_wp info s (Q : result ForkError unit -> Sys -> Prop) :
  durable_ok s -> cache s = reg s -> no_branches (branches s) (fk_id info) ->
  (forall i, reg s !! fk_name info = Some i -> fk_id i = fk_id info) ->
  (forall n i, reg s !! n = Some i -> fk_id i = fk_id info -> n = fk_name info) ->
  (forall s', cache s' = delete (fk_name info) (cache s) -> reg s' = cache s' ->
     tombs s' = delete (fk_id info) (tombs s) -> branches s' = branches s ->
     holders s' = delete (fk_id info) (holders s) -> inflight s' = inflight s -> durable_ok s' -> Q (Ok tt) s') ->
  wps (finish_drop info) s Q.
Proof.
  intros Hs Ec Hb He Ho HQ. unfold finish_drop, put_registry, delete_tombstone, delete_schema_overlay.
  assert (C1 : consistent candidates (delete (fk_name info) (cache s)) (tombs s) (branches s)).
  { rewrite Ec. by eapply consistent_unregister. }
  assert (C2 : consistent candidates (delete (fk_name info) (cache s)) (delete (fk_id info) (tombs s)) (branches s)).
  { apply consistent_untomb; [done|done|]. rewrite Ec. intros n i [Hne Hi]%lookup_delete_Some E. by apply Hne, eq_sym, (Ho n i). }
  do 2 wp_step. do 2 wp_step. wp_step; [exact Hs|]. apply wp_ret.
  do 2 wp_step. wp_step; [exact C1|]. apply wp_ret. do 2 wp_step. wp_step; [exact C2|]. apply wp_ret. do 3 wp_step. by apply HQ.
Qed.

Lemma complete_drop_wp info s (Q : result ForkError unit -> Sys -> Prop) :
  durable_ok s -> cache s = reg s -> removable s info ->
  (forall s', cache s' = delete (fk_name info) (cache s) -> reg s' = cache s' ->
     tombs s' = delete (fk_id info) (tombs s) -> branches s' ⊆ branches s -> durable_ok s' -> Q (Ok tt) s') ->
  wps (complete_drop true info) s Q.
Proof.
  intros Hs Ec [R1 R2 R3 R4 R5] HQ. unfold complete_drop, delete_all_branches. cbn [negb]. wp_step.
  set (l := by_name (fk_datasets info)). assert (Hl : forall ds x, (ds, x) ∈ l -> x.1 = fk_id info).
  { intros ds x Hx%elem_by_name. by eapply R4. }
  apply (unbranch_wp (fun y => y) (fk_id info)); [done|done|intros [ds x]; apply Hl|]. rewrite list_fmap_id. wp_step.
  assert (Hs1 : durable_ok (without l s)).
  { apply consistent_unbranch with (id := fk_id info); [done|done|]. intros ds x Hin%elem_of_list_to_set. by eapply Hl. }
  apply artifacts_wp; [done|]. intros s2 Sm. pose proof Sm as (E1 & E2 & E3 & E4 & _).
  assert (Er : reg s2 = reg s) by (unfold reg; by rewrite E2). apply finish_drop_wp.
  - by eapply same_ok.
  - by rewrite E1, Er.
  - rewrite E4. rewrite branches_without. intros ds x [Hx Hnot]%elem_of_difference Eid. apply Hnot, elem_of_list_to_set, elem_by_name. by apply R5.
  - by rewrite Er.
  - by rewrite Er.
  - intros s3 F1 F2 F3 F4 _ _ F5. rewrite E1 in F1. rewrite E3 in F3. rewrite E4 in F4. apply HQ; [exact F1|exact F2|exact F3| |].
    + rewrite F4. rewrite branches_without. set_solver.
    + exact F5.
Qed.

(** What a fork's tombstone, or its entry once flipped, says is all there is of it. *)
Lemma removable_tomb info s : durable_ok s -> tombs s !! fk_id info = Some info -> removable s info.
Proof.
  intros [C1 C2 C3 C4 C5 C6 C7 C8] Ht. destruct (C4 _ _ Ht) as (_ & E2 & E3 & E4). split.
  - intros n i Hn Ei _. by eexists.
  - intros i Hi. by apply E3.
  - intros n i Hn Ei. by eapply E4.
  - intros ds x Hx. by rewrite (E2 ds x Hx).
  - intros ds x Hx Ex. destruct (C5 ds x Hx) as [Eds Ho].
    assert (Hsome : is_Some (fk_datasets info !! ds)).
    { rewrite Ex in Ho. destruct Ho as [(n & i & Hn & Ei & Ho)|(j & Hj & Ho)]; [|by simplify_eq].
      rewrite (E4 n i Hn Ei) in Hn. destruct (E3 i Hn) as [_ <-]. destruct Ho as [?|[Hp _]]; [done|].
      destruct (C7 _ _ Hn Hp) as [_ ?]. congruence. }
    destruct Hsome as [y Hy]. rewrite Hy. f_equal. rewrite (E2 ds y Hy). destruct x. cbn in *. congruence.
Qed.

Lemma removable_entry info s : durable_ok s -> reg s !! fk_name info = Some info -> fk_status info = Tombstoned -> removable s info.
Proof.
  intros [C1 C2 C3 C4 C5 C6 C7 C8] Hn Hst.
  assert (Hu : forall n i, reg s !! n = Some i -> fk_id i = fk_id info -> n = fk_name info /\ i = info).
  { intros n i Hi E. assert (n = fk_name info) as -> by (by eapply C2). split; [done|]. congruence. }
  split.
  - intros n i Hi Ei Ha. destruct (Hu n i Hi Ei) as [_ ->]. congruence.
  - intros i Hi. congruence.
  - intros n i Hi Ei. by apply (Hu n i).
  - intros ds x Hx. by rewrite (C3 _ _ _ _ Hn Hx).
  - intros ds x Hx Ex. destruct (C5 ds x Hx) as [Eds Ho].
    assert (Hsome : is_Some (fk_datasets info !! ds)).
    { rewrite Ex in Ho. destruct Ho as [(n & i & Hi & Ei & Ho)|(j & Hj & Ho)].
      - destruct (Hu n i Hi Ei) as [_ ->]. destruct Ho as [?|[Hp _]]; [done|congruence].
      - destruct (C4 _ _ Hj) as (_ & _ & E3 & E4). rewrite (E4 _ _ Hn eq_refl) in Hn. by destruct (E3 _ Hn) as [_ ->]. }
    destruct Hsome as [y Hy]. rewrite Hy. f_equal. rewrite (C3 _ _ _ _ Hn Hy). destruct x. cbn in *. congruence.
Qed.

(** Undoing a creation whose branches, if any, are gone. *)
Lemma rollback_create_wp name i s (Q : result ForkError unit -> Sys -> Prop) :
  durable_ok s -> cache s = reg s -> reg s !! name = Some i -> no_branches (branches s) (fk_id i) ->
  (forall s', cache s' = delete name (cache s) -> reg s' = cache s' -> tombs s' = tombs s -> branches s' = branches s ->
     durable_ok s' -> Q (Ok tt) s') ->
  wps (rollback_create name) s Q.
Proof.
  intros Hs Ec Hi Hb HQ. unfold rollback_create, put_registry, delete_schema_overlay.
  assert (C1 : consistent candidates (delete name (cache s)) (tombs s) (branches s)).
  { rewrite Ec. apply consistent_unregister with (id := fk_id i); [done|done|]. intros j Hj. congruence. }
  do 2 wp_step. do 2 wp_step. do 2 wp_step. wp_step; [exact Hs|]. apply wp_ret. rewrite Ec, Hi. cbn [fmap option_fmap option_map].
  do 2 wp_step. wp_step; [exact C1|]. apply wp_ret. do 3 wp_step. rewrite Ec in HQ. apply HQ; try done; cbn; by rewrite Ec.
Qed.

Lemma roll_back_wp info s (Q : result ForkError unit -> Sys -> Prop) :
  durable_ok s -> cache s = reg s -> reg s !! fk_name info = Some info -> fk_status info = Pending ->
  (forall s', cache s' = delete (fk_name info) (cache s) -> reg s' = cache s' -> tombs s' = tombs s ->
     branches s' ⊆ branches s -> durable_ok s' -> Q (Ok tt) s') ->
  wps (roll_back candidates true info) s Q.
Proof.
  intros Hs Ec Hi Hp HQ. destruct (co_pending _ _ _ _ Hs _ _ Hi Hp) as [Hd Ht].
  assert (Hu : forall n i, reg s !! n = Some i -> fk_id i = fk_id info -> i = info).
  { intros n i Hn E. assert (n = fk_name info) as -> by (by eapply (co_ids _ _ _ _ Hs)). congruence. }
  assert (Hl : no_live (reg s) (tombs s) (fk_id info)).
  { intros n i Hn E Ha. rewrite (Hu n i Hn E) in Ha. congruence. }
  unfold roll_back, rollback_branches. wp_step. wp_step. rewrite decide_True by done. apply wp_ret. cbn [negb].
  apply (unbranch_wp (fun ds => (ds, (fk_id info, ds))) (fk_id info)); [done|done|done|].
  set (l := (fun ds => (ds, (fk_id info, ds))) <$> candidates). apply (rollback_create_wp _ info).
  - apply consistent_unbranch with (id := fk_id info); [done|done|].
    intros ds x (z & [= _ ->] & _)%elem_of_list_to_set%list_elem_of_fmap. done.
  - done.
  - done.
  - rewrite branches_without. intros ds x [Hx Hnot]%elem_of_difference E. apply Hnot, elem_of_list_to_set, list_elem_of_fmap.
    destruct (co_branch _ _ _ _ Hs _ _ Hx) as [Eds Ho]. exists ds. split; [destruct x; cbn in *; congruence|].
    rewrite E in Ho. destruct Ho as [(n & i & Hn & Ei & Ho)|(j & Hj & _)]; [|congruence]. rewrite (Hu n i Hn Ei) in Ho.
    rewrite Hd, lookup_empty in Ho. destruct Ho as [[? ?]|[_ ?]]; done.
  - intros s' E1 E2 E3 E4 E5. apply HQ; [done|done|done| |done]. rewrite E4.
    rewrite branches_without. set_solver.
Qed.

(** ** Recovery *)

(** A fork that recovery keeps: active, and no drop of it has begun. *)
Definition live s (n : string) (i : ForkInfo) : Prop :=
  reg s !! n = Some i /\ fk_status i = Active /\ tombs s !! fk_id i = None.
Definition steady s0 s : Prop := durable_ok s /\ cache s = reg s /\ (forall n i, live s n i <-> live s0 n i).

Lemma steady_unregister s0 s s' name : steady s0 s -> cache s' = delete name (cache s) -> reg s' = cache s' ->
  tombs s' = tombs s -> durable_ok s' -> (forall i, reg s !! name = Some i -> fk_status i <> Active) -> steady s0 s'.
Proof.
  intros (Hs & Ec & Hk) E1 E2 E3 Hs' Hn. split; [done|]. split; [done|]. intros n i. rewrite <- Hk. unfold live.
  rewrite E2, E1, Ec, E3, lookup_delete_Some. split; [tauto|]. intros (Hi & Ha & Ht). split_and!; try done. intros <-. by eapply Hn.
Qed.
Lemma steady_drop s0 s s' info : steady s0 s -> removable s info -> cache s' = delete (fk_name info) (cache s) -> reg s' = cache s' ->
  tombs s' = delete (fk_id info) (tombs s) -> durable_ok s' -> steady s0 s'.
Proof.
  intros (Hs & Ec & Hk) [R1 R2 R3 R4 R5] E1 E2 E3 Hs'. split; [done|]. split; [done|]. intros n i. rewrite <- Hk. unfold live.
  rewrite E2, E1, Ec, E3, lookup_delete_Some. split.
  - intros ((Hne & Hi) & Ha & Ht). split_and!; try done. rewrite lookup_delete_ne in Ht; [done|]. intros E. by apply Hne, eq_sym, (R3 n i).
  - intros (Hi & Ha & Ht). split_and!; try done.
    + intros <-. pose proof (R2 i Hi) as E. destruct (R1 _ _ Hi E Ha) as [y Hy]. congruence.
    + apply lookup_delete_None. by right.
Qed.

(** The entries of a status, and the loop over them that removes each. *)
Definition of_status (st : ForkStatus) s : list ForkInfo := filter (fun f => fk_status f = st) (by_name (cache s)).*2.
Record removing (gone : list ForkStatus) (st : ForkStatus) s0 (rest : list ForkInfo) s : Prop := {
  re_steady : steady s0 s;
  re_gone n i : reg s !! n = Some i -> fk_status i ∉ gone;
  re_all n i : reg s !! n = Some i -> fk_status i = st -> i ∈ rest;
  re_rest i : i ∈ rest -> reg s !! fk_name i = Some i /\ fk_status i = st;
  re_nodup : NoDup rest;
}.

Lemma removing_start gone st s0 s : steady s0 s -> (forall n i, reg s !! n = Some i -> fk_status i ∉ gone) ->
  removing gone st s0 (of_status st s) s.
Proof.
  intros Hst Hg. pose proof Hst as (Hs & Ec & _). assert (Hin : forall i, i ∈ (by_name (cache s)).*2 <-> exists n, reg s !! n = Some i).
  { intros i. rewrite list_elem_of_fmap, Ec. split.
    - intros ([n j] & -> & Hj%elem_by_name). by exists n.
    - intros (n & Hn). exists (n, i). split; [done|]. by apply elem_by_name. }
  split; [done|done|..].
  - intros n i Hn Hi. apply list_elem_of_filter. split; [done|]. apply Hin. by exists n.
  - intros i [Hi (n & Hn)%Hin]%list_elem_of_filter. by rewrite (co_name _ _ _ _ Hs n i Hn).
  - apply NoDup_filter. rewrite Ec. apply (NoDup_fmap_2_strong snd).
    + intros [n1 i1] [n2 i2] H1%elem_by_name H2%elem_by_name E. cbn in E. subst i2.
      by rewrite <- (co_name _ _ _ _ Hs _ _ H1), <- (co_name _ _ _ _ Hs _ _ H2).
    + unfold by_name. rewrite merge_sort_Permutation. apply NoDup_map_to_list.
Qed.

Lemma removing_next gone st s0 info rest s s' : removing gone st s0 (info :: rest) s -> steady s0 s' ->
  reg s' = delete (fk_name info) (reg s) -> removing gone st s0 rest s'.
Proof.
  intros [R1 R2 R3 R4 R5] Hst E. apply NoDup_cons in R5 as [Hni Hnd]. split; [done|..]; [|..|done]; rewrite E.
  - intros n i [_ Hi]%lookup_delete_Some. by eapply R2.
  - intros n i [Hne Hi]%lookup_delete_Some Hi'. pose proof (R3 n i Hi Hi') as [->|?]%elem_of_cons; [|done]. exfalso. apply Hne.
    destruct R1 as (Hs & _). by apply (co_name _ _ _ _ Hs).
  - intros i Hi. destruct (R4 i ltac:(by right)) as [Hr Hi']. split; [|done]. apply lookup_delete_Some. split; [|done].
    intros Ei. destruct (R4 info ltac:(by left)) as [Hr' _]. rewrite Ei in Hr'. simplify_eq. done.
Qed.

Lemma removing_end gone st s0 s : removing gone st s0 [] s -> forall n i, reg s !! n = Some i -> fk_status i ∉ st :: gone.
Proof. intros [_ R2 R3 _ _] n i Hn [E|?]%elem_of_cons; [by apply (not_elem_of_nil i), (R3 n)|by eapply R2]. Qed.

(** The tombstones left once the registry holds active forks only. *)
Record sweeping s0 (rest : list ForkInfo) s : Prop := {
  sw_steady : steady s0 s;
  sw_active n i : reg s !! n = Some i -> fk_status i = Active;
  sw_all k i : tombs s !! k = Some i -> i ∈ rest;
  sw_rest i : i ∈ rest -> tombs s !! fk_id i = Some i;
  sw_nodup : NoDup rest;
}.

Lemma read_tombstones_wp s (ids : list Z) (Q : result ForkError (list ForkInfo) -> Sys -> Prop) : durable_ok s ->
  (forall k, k ∈ ids -> is_Some (tombs s !! k)) ->
  (forall l, Forall2 (fun k i => tombs s !! k = Some i) ids l -> Q (Ok l) s) -> wps (read_tombstones ids) s Q.
Proof.
  intros Hs. revert Q. induction ids as [|k ids IH]; intros Q Hk HQ; cbn [read_tombstones]; [apply wp_ret, HQ; constructor|].
  wp_step. apply wp_read_clean; [done|]. destruct (Hk k ltac:(by left)) as [i Hi]. unfold tombs in Hi. rewrite Hi. wp_step.
  apply IH; [intros k' Hk'; apply Hk; by right|]. intros l Hl. apply wp_ret, HQ. by constructor.
Qed.

Lemma list_tombstones_wp s0 s (Q : result ForkError (list ForkInfo) -> Sys -> Prop) : steady s0 s ->
  (forall n i, reg s !! n = Some i -> fk_status i = Active) -> (forall l, sweeping s0 l s -> Q (Ok l) s) ->
  wps list_tombstones s Q.
Proof.
  intros Hst Ha HQ. pose proof Hst as (Hs & _). unfold list_tombstones. wp_step. apply wp_read_clean; [done|].
  apply read_tombstones_wp; [done| |].
  { intros k ([k' i] & -> & Hi%elem_of_map_to_list)%list_elem_of_fmap. by eexists. }
  intros l Hl. apply HQ. assert (El : l = (map_to_list (tombs s)).*2).
  { unfold tombs in *. revert Hl. assert (Hsub : forall k i, (k, i) ∈ map_to_list (d_tombstones (disk s)) -> d_tombstones (disk s) !! k = Some i)
      by (intros k i; apply elem_of_map_to_list).
    revert Hsub. generalize (map_to_list (d_tombstones (disk s))). intros m. revert l. induction m as [|[k i] m IH]; intros l Hsub Hl.
    - by apply Forall2_nil_inv_l in Hl.
    - apply Forall2_cons_inv_l in Hl as (j & l' & Hj & Hl & ->). cbn in Hj. pose proof (Hsub k i ltac:(by left)) as Hs2. rewrite Hs2 in Hj. injection Hj as <-. cbn. f_equal.
      apply IH; [|done]. intros k' i' Hin. apply Hsub. by right. }
  subst l. assert (Hin : forall i, i ∈ (map_to_list (tombs s)).*2 <-> exists k, tombs s !! k = Some i).
  { intros i. rewrite list_elem_of_fmap. split.
    - intros ([k j] & -> & Hj%elem_of_map_to_list). by exists k.
    - intros (k & Hk). exists (k, i). split; [done|]. by apply elem_of_map_to_list. }
  split; [done|done|..].
  - intros k i Hk. apply Hin. by exists k.
  - intros i (k & Hk)%Hin. by destruct (co_tomb _ _ _ _ Hs k i Hk) as (-> & _).
  - apply (NoDup_fmap_2_strong snd); [|apply NoDup_map_to_list].
    intros [k1 i1] [k2 i2] H1%elem_of_map_to_list H2%elem_of_map_to_list E. cbn in E. subst i2. f_equal.
    destruct (co_tomb _ _ _ _ Hs _ _ H1) as (<- & _). by destruct (co_tomb _ _ _ _ Hs _ _ H2) as (<- & _).
Qed.

(** At rest: the registry on disk and in memory agree, every fork is active,
    and no drop is under way. *)
Definition settled s : Prop :=
  durable_ok s /\ cache s = reg s /\ tombs s = ∅ /\ forall n i, reg s !! n = Some i -> fk_status i = Active.

Lemma recover_forks_wp s : durable_ok s -> cache s = reg s ->
  wps (recover_forks candidates true) s (fun r s' => (exists k, r = Ok k) /\ settled s' /\ forall n i, live s' n i <-> live s n i).
Proof.
  intros Hs Ec. assert (Hst : steady s s) by done. unfold recover_forks. wp_step. wp_step. wp_step.
  eapply (wp_each_try _ _ (removing [] Pending s)); [| |by apply removing_start; [|intros; apply not_elem_of_nil]].
  { intros info rest s1 R. pose proof R as [(Hs1 & Ec1 & Hk1) _ _ R4 _]. destruct (R4 info ltac:(by left)) as [Hi Hp].
    apply roll_back_wp; [done|done|done|done|]. intros s2 E1 E2 E3 _ E5. eapply removing_next; [done| |by rewrite E2, E1, Ec1].
    eapply (steady_unregister s s1 s2); try done. intros i Hi'. congruence. }
  intros s1 R1. pose proof (removing_end _ _ _ _ R1) as G1. do 2 wp_step. wp_step.
  eapply (wp_each_try _ _ (removing [Pending] Tombstoned s)); [| |by apply removing_start; [apply R1|]].
  { intros info rest s2 R. pose proof R as [(Hs2 & Ec2 & Hk2) _ _ R4 _]. destruct (R4 info ltac:(by left)) as [Hi Hp].
    assert (Rm : removable s2 info) by by apply removable_entry.
    apply complete_drop_wp; [done|done|done|]. intros s3 E1 E2 E3 _ E5. eapply removing_next; [done| |by rewrite E2, E1, Ec2].
    by eapply (steady_drop s s2 s3). }
  intros s2 R2. pose proof (removing_end _ _ _ _ R2) as G2. wp_step.
  assert (Ha2 : forall n i, reg s2 !! n = Some i -> fk_status i = Active).
  { intros n i Hn. specialize (G2 n i Hn). destruct (fk_status i); set_solver. }
  apply (list_tombstones_wp s); [apply R2|done|]. intros l Sw. wp_step.
  eapply (wp_each_try _ _ (sweeping s)); [| |exact Sw].
  { intros info rest s3 [(Hs3 & Ec3 & Hk3) A3 W1 W2 W3]. assert (Rm : removable s3 info).
    { apply removable_tomb; [done|]. apply W2. by left. }
    apply complete_drop_wp; [done|done|done|]. intros s4 E1 E2 E3 _ E5. apply NoDup_cons in W3 as [Hni Hnd].
    split; [by eapply (steady_drop s s3 s4)|..]; [| | |done].
    - rewrite E2, E1, Ec3. intros n i [_ Hi]%lookup_delete_Some. by eapply A3.
    - rewrite E3. intros k i [Hne Hi]%lookup_delete_Some. pose proof (W1 k i Hi) as [->|?]%elem_of_cons; [|done].
      exfalso. apply Hne. by destruct (co_tomb _ _ _ _ Hs3 k _ Hi) as (-> & _).
    - rewrite E3. intros i Hi. apply lookup_delete_Some. split; [|apply W2; by right]. intros E.
      pose proof (W2 info ltac:(by left)) as H1. pose proof (W2 i ltac:(by right)) as H2. rewrite E in H1. simplify_eq. done. }
  intros s3 [(Hs3 & Ec3 & Hk3) A3 W1 _ _]. apply wp_ret. split; [by eexists|]. split; [|done]. split_and!; [done|done| |done].
  apply map_eq. intros k. rewrite lookup_empty. destruct (tombs s3 !! k) as [i|] eqn:E; [|done]. by apply W1, not_elem_of_nil in E.
Qed.
End programs.
