(* ===== verification/ForkSafety.v ===== *)
(** * Forks survive crashes

    Creation, opening and dropping (Module ForkLifecycle) keep the catalog
    consistent at every point where the process can die, and leave it settled
    when they return; runs as a step relation over live and dead processes;
    what recovery keeps. *)

From stdpp Require Import strings.
From S2P Require Import Prelude CrashIO Forks ForkLifecycle ForkRuns.

Section safety.
  Context {D : Type} (delta_empty : D) (candidates : list string).
  Implicit Types s : @Sys D.

Abbreviation wps := (wp clean (durable_ok candidates)).
Abbreviation settled := (settled candidates).

(** ** Creation *)

(** The branches of the fork under creation are the ones recorded so far. *)
Definition recorded (id : Z) (m : gmap string Branch) (b : gset (string * Branch)) : Prop :=
  (forall ds x, m !! ds = Some x -> x = (id, ds) /\ (ds, x) ∈ b) /\ (forall ds x, (ds, x) ∈ b -> x.1 = id -> is_Some (m !! ds)).

Lemma recorded_insert id m b ds : recorded id m b -> recorded id (<[ds := (id, ds)]> m) ({[(ds, (id, ds))]} ∪ b).
Proof.
  intros [H1 H2]. split.
  - intros ds' x [[<- <-]|[_ Hx]]%lookup_insert_Some; [set_solver|]. destruct (H1 ds' x Hx). set_solver.
  - intros ds' x [[= -> ->]%elem_of_singleton|Hx]%elem_of_union E; [by rewrite lookup_insert_eq; eexists|].
    destruct (decide (ds' = ds)) as [->|]; [by rewrite lookup_insert_eq; eexists|]. rewrite lookup_insert_ne by done. by eapply H2.
Qed.

(** What the loop may change. *)
Definition grown s s' : Prop := cache s' = cache s /\ d_registry (disk s') = d_registry (disk s) /\ tombs s' = tombs s.

Lemma build_loop_wp a name i cands : (forall ds, ds ∈ cands -> ds ∈ candidates) -> fk_id i = ca_id a -> fk_status i = Pending ->
  forall s m att (Q : _ -> Sys -> Prop), durable_ok candidates s -> reg s !! name = Some i -> recorded (ca_id a) m (branches s) ->
  (forall s' m' att', grown s s' -> durable_ok candidates s' -> recorded (ca_id a) m' (branches s') -> Q (Ok m', att') s') ->
  wps (build_loop a cands m att) s Q.
Proof.
  intros Hc Hi Hp. induction cands as [|ds cands IH]; intros s m att Q Hs Hn Hr HQ; cbn [build_loop]; [by apply wp_ret, HQ|].
  specialize (IH ltac:(intros x Hx; apply Hc; by right)). destruct (decide (ds ∈ fp_captured (ca_point a))); [|by apply IH].
  assert (Hstep : forall stage att', wps
      (let! made := create_branch ds (ca_id a, ds) in
       if made : bool then build_loop a cands (<[ds := (ca_id a, ds)]> m) att' else io_ret (Err (ForkLifecycle "<fork>" stage), att')) s Q).
  { intros stage att'. wp_step. apply wp_write_clean; [done|].
    assert (Hs' : durable_ok candidates (set_disk (on_branches (fun b => {[(ds, (ca_id a, ds))]} ∪ b)) s)).
    { rewrite <- Hi. eapply consistent_branch; [exact Hs|exact Hn|done|]. apply Hc. by left. }
    apply IH; [exact Hs'|exact Hn|by apply recorded_insert|]. intros s' m' att'' G H1 H2. by apply HQ. }
  destruct (ca_parent a) as [[pid scope]|]; [|apply Hstep]. destruct (scope !! ds) as [pb|]; [|by apply IH].
  wp_step. case_decide; [apply wp_ret, Hstep|]. apply wp_read_clean; [done|]. apply Hstep.
Qed.

Lemma settled_removed s s' name : settled s -> cache s' = delete name (cache s) -> reg s' = cache s' -> tombs s' = tombs s ->
  durable_ok candidates s' -> settled s'.
Proof.
  intros (Hs & Ec & Et & Ha) E1 E2 E3 Hs'. split_and!; [done|done|by rewrite E3|].
  rewrite E2, E1, Ec. intros n i [_ Hi]%lookup_delete_Some. by eapply Ha.
Qed.

(** Undoing a creation that made no branch gives back the registry it began with. *)
Lemma undo_create_wp s s1 name i e (Q : result ForkError ForkInfo -> Sys -> Prop) : settled s -> cache s !! name = None ->
  durable_ok candidates s1 -> cache s1 = <[name := i]> (cache s) -> reg s1 = cache s1 -> tombs s1 = tombs s ->
  no_branches (branches s1) (fk_id i) -> (forall s', settled s' -> Q (Err e) s') ->
  wps (let! _ := rollback_create name in io_ret (Err e)) s1 Q.
Proof.
  intros St Hn Hs1 Ec Er Et Hb HQ. wp_step. apply (rollback_create_wp candidates name i); [done|done| |done|].
  { rewrite Er, Ec. by apply lookup_insert_eq. }
  intros s2 E1 E2 E3 _ E5. apply wp_ret, HQ. apply (settled_removed s s2 name); [done| |done|by rewrite E3|done].
  rewrite E1, Ec, delete_insert_eq, delete_id; done.
Qed.

Lemma finish_create_wp s s1 name i m (Q : result ForkError ForkInfo -> Sys -> Prop) : settled s ->
  durable_ok candidates s1 -> cache s1 = <[name := i]> (cache s) -> reg s1 = cache s1 -> tombs s1 = tombs s ->
  fk_status i = Pending -> recorded (fk_id i) m (branches s1) -> (forall r s', settled s' -> Q (Ok r) s') ->
  wps (finish_create delta_empty name m) s1 Q.
Proof.
  intros (Hs & Ec0 & Et0 & Ha) Hs1 Ec Er Et Hp [H1 H2] HQ. unfold finish_create, get, put_registry, put_schema_overlay.
  assert (Hi : cache s1 !! name = Some i) by (rewrite Ec; by apply lookup_insert_eq). set (i' := with_status Active (with_datasets m i)).
  assert (C1 : consistent candidates (<[name := i']> (cache s1)) (tombs s1) (branches s1)).
  { rewrite <- Er. apply consistent_activate; [exact Hs1|by rewrite Er|done|done|done]. }
  wp_step. wp_step. rewrite Hi. wp_step. wp_step. wp_step. wp_step. wp_step; [exact Hs1|]. apply wp_ret.
  do 2 wp_step. wp_step; [exact C1|]. apply wp_ret. apply wp_get. cbn. rewrite lookup_insert_eq. apply HQ.
  split_and!; [exact C1|done|by rewrite <- Et0, <- Et|]. cbn. rewrite Ec.
  intros n j [[<- <-]|[Hne [[<- _]|[_ Hj]]%lookup_insert_Some]]%lookup_insert_Some; [done|done|]. rewrite Ec0 in Hj. by eapply Ha.
Qed.

Lemma create_fork_2pc_wp a name s (Q : result ForkError ForkInfo -> Sys -> Prop) :
  settled s -> fresh (reg s) (tombs s) (branches s) (ca_id a) -> fst <$> ca_parent a <> Some (ca_id a) -> (forall r s', settled s' -> Q r s') ->
  wps (create_fork_2pc delta_empty candidates true a name) s Q.
Proof.
  intros St Hf Hpar HQ. pose proof St as (Hs & Ec & Et & Ha). unfold create_fork_2pc, begin_create. wp_step. wp_step. wp_step.
  change (fk_name (pending_info a name)) with name.
  destruct (decide (is_Some (cache s !! name))) as [|Hn]; [repeat apply wp_ret; by apply HQ|]. apply eq_None_not_Some in Hn.
  destruct (match max_forks s with Some cap => Nat.leb cap (size (cache s)) | None => false end); [repeat apply wp_ret; by apply HQ|].
  set (i := pending_info a name). set (s1 := set_disk (on_registry (<[name := i]> (cache s))) (set_cache (<[name := i]>) s)).
  assert (Hs1 : durable_ok candidates s1).
  { change (consistent candidates (<[name := i]> (cache s)) (tombs s) (branches s)). rewrite Ec.
    apply consistent_pending; try done; [by rewrite Ec in Hn|]. intros k j. by rewrite Et. }
  assert (Hb1 : no_branches (branches s1) (ca_id a)) by apply Hf.
  wp_step. wp_step. unfold put_registry. wp_step. wp_step; [exact Hs|]. apply wp_ret. change (wps _ _ Q) with (wps
    (if ca_restored a then let! _ := rollback_create name in io_ret (Err (ForkLifecycle name "restore_race"))
     else let! boot := bootstrap_fork_from_primary_hwm (ca_id a) (fp_vid_hwm (ca_point a)) (fp_eid_hwm (ca_point a)) in
       match boot with
       | Err e => let! _ := rollback_create name in io_ret (Err e)
       | Ok _ => let! built := build_datasets_for_fork candidates true a in
           match built with
           | Err e => let! _ := rollback_create name in io_ret (Err e)
           | Ok datasets => finish_create delta_empty name datasets
           end
       end) s1 Q).
  destruct (ca_restored a); [apply (undo_create_wp s s1 name i); auto|]. wp_step.
  assert (Hboot : forall s2, same s1 s2 -> wps (let! built := build_datasets_for_fork candidates true a in
           match built with
           | Err e => let! _ := rollback_create name in io_ret (Err e)
           | Ok datasets => finish_create delta_empty name datasets
           end) s2 Q).
  { intros s2 Sm. pose proof Sm as (E1 & E2 & E3 & E4 & E5 & E6). assert (Er2 : reg s2 = reg s1) by (unfold reg; by rewrite E2).
    unfold build_datasets_for_fork. cbn [negb]. wp_step. wp_step.
    apply (build_loop_wp a name i); [done|done|done|by eapply same_ok|rewrite Er2; by apply lookup_insert_eq| |].
    - split; [done|]. rewrite E4. intros ds x Hx E. exfalso. by apply (Hb1 ds x Hx).
    - intros s3 m att (G1 & G2 & G3) Hs3 Hr3. apply wp_ret. apply (finish_create_wp s s3 name i); auto.
      + by rewrite G1, E1.
      + unfold reg. rewrite G2, E2, G1, E1. done.
      + by rewrite G3, E3. }
  unfold bootstrap_fork_from_primary_hwm. wp_step. apply wp_read_clean; [exact Hs1|].
  destruct (d_files (disk s1) !! _) as [fb|]; [apply wp_ret; by apply Hboot|]. wp_step. apply wp_write_clean; [exact Hs1|]. apply wp_ret.
  by apply Hboot.
Qed.

(** Opening adds a read of the overlay and a holder. *)
Lemma open_or_create_wp a name must_create s : settled s -> fresh (reg s) (tombs s) (branches s) (ca_id a) ->
  fst <$> ca_parent a <> Some (ca_id a) -> wps (open_or_create delta_empty candidates true a name must_create) s (fun _ s' => settled s').
Proof.
  intros St Hf Hpar. unfold open_or_create, get, load_schema_overlay, register_holder.
  assert (Hrest : forall info s', settled s' -> wps
    (try! _ := (let! r := io_read (fun s => default delta_empty (d_overlays (disk s) !! fk_id info)) in
        io_ret (match r with Some d => Ok d | None => Err (ForkLifecycle "<schema-overlay>" "schema_overlay") end)) in
     let! _ := io_modify (set_holders (fun h => <[fk_id info := S (default O (h !! fk_id info))]> h)) in
     io_ret (Ok info)) s' (fun _ s'' => settled s'')).
  { intros info s' St'. do 2 wp_step. wp_step; [apply St'|]. apply wp_ret. do 2 wp_step. by wp_step. }
  wp_step. wp_step. wp_step. destruct (cache s !! name) as [existing|].
  - destruct must_create; [by apply wp_ret|]. destruct (fk_status existing); apply wp_ret; [done|by apply Hrest|done].
  - apply create_fork_2pc_wp; [done|done|done|]. intros [info|e] s' St'; [by apply Hrest|done].
Qed.

(** ** Dropping *)

(** A dropped fork is no longer registered and nothing else has changed. *)
Definition gone s name (info : ForkInfo) s' : Prop :=
  settled s' /\ cache s' = delete name (cache s)
  /\ holders s' = delete (fk_id info) (holders s) /\ inflight s' = delete (fk_id info) (inflight s).
Definition children s (id : Z) : list ForkInfo := filter (fun f => fk_parent f = Some id) (by_name (cache s)).*2.
(** A session or a transaction is using the fork. *)
Definition busy s (id : Z) : Prop := (0 < default O (inflight s !! id) \/ 0 < default O (holders s !! id))%nat.

(** From the tombstone on, the fork is dropped to the end. *)
Lemma drop_rest_wp s s1 name info (Q : result ForkError unit -> Sys -> Prop) : settled s -> fk_name info = name ->
  durable_ok candidates s1 -> cache s1 = <[name := with_status Tombstoned info]> (cache s) -> reg s1 = cache s1 ->
  tombs s1 = <[fk_id info := info]> ∅ -> holders s1 = holders s -> inflight s1 = delete (fk_id info) (inflight s) ->
  (forall s', gone s name info s' -> Q (Ok tt) s') ->
  wps (let! clean := delete_branches (by_name (fk_datasets info)) in
       if clean : bool then let! _ := delete_fork_artifacts (fk_id info) in finish_drop info
       else io_ret (Err (ForkLifecycle name "delete_branch"))) s1 Q.
Proof.
  intros (Hs & Ec0 & Et0 & Ha) Hname Hs1 Ec Er Et Eh Ei HQ.
  assert (Rm : removable s1 info) by (eapply removable_tomb; [exact Hs1|rewrite Et; by apply lookup_insert_eq]).
  destruct Rm as [R1 R2 R3 R4 R5]. set (l := by_name (fk_datasets info)).
  assert (Hl : forall ds x, (ds, x) ∈ l -> x.1 = fk_id info) by (intros ds x Hx%elem_by_name; by eapply R4).
  wp_step. apply (delete_branches_wp candidates (fk_id info)); [done|done|done|]. wp_step.
  apply artifacts_wp. { apply consistent_unbranch with (id := fk_id info); [done|done|]. intros ds x Hin%elem_of_list_to_set. by eapply Hl. }
  intros s2 Sm. pose proof Sm as (E1 & E2 & E3 & E4 & E5 & E6). assert (Er2 : reg s2 = reg s1) by (unfold reg; by rewrite E2).
  apply finish_drop_wp.
  - eapply same_ok; [exact Sm|]. apply consistent_unbranch with (id := fk_id info); [done|done|]. intros ds x Hin%elem_of_list_to_set. by eapply Hl.
  - rewrite E1, Er2. done.
  - rewrite E4, branches_without. intros ds x [Hx Hnot]%elem_of_difference Eid. apply Hnot, elem_of_list_to_set, elem_by_name. by apply R5.
  - by rewrite Er2.
  - by rewrite Er2.
  - intros s3 F1 F2 F3 _ Fh Fi F5. rewrite E1 in F1. change (cache (without l s1)) with (cache s1) in F1. rewrite Ec, Hname, delete_insert_eq in F1.
    apply HQ. split_and!; [split_and!; [done|done| |]|done| |].
    + rewrite F3, E3. change (tombs (without l s1)) with (tombs s1). rewrite Et, delete_insert_eq. apply delete_empty.
    + rewrite F2, F1. intros n j [_ Hj]%lookup_delete_Some. rewrite Ec0 in Hj. by eapply Ha.
    + rewrite Fh, E5. change (holders (without l s1)) with (holders s1). by rewrite Eh.
    + rewrite Fi, E6. done.
Qed.

(** A drop either refuses and changes nothing or removes the fork. *)
Lemma drop_fork_wp name s (Q : result ForkError unit -> Sys -> Prop) : settled s ->
  (forall e, (forall info, cache s !! name = Some info -> children s (fk_id info) <> [] \/ busy s (fk_id info)) -> Q (Err e) s) ->
  (forall info s', cache s !! name = Some info -> gone s name info s' -> Q (Ok tt) s') -> wps (drop_fork true name) s Q.
Proof.
  intros St HE HQ. pose proof St as (Hs & Ec & Et & Ha).
  unfold drop_fork, get, list_children. wp_step. wp_step. destruct (cache s !! name) as [info|] eqn:En; [|repeat apply wp_ret; by apply HE].
  assert (Hbusy : busy s (fk_id info) -> forall e, Q (Err e) s) by (intros Hb e; apply HE; intros ? [= <-]; by right).
  assert (Er : reg s !! name = Some info) by (by rewrite <- Ec). pose proof (co_name _ _ _ _ Hs _ _ Er) as Hname. pose proof (Ha _ _ Er) as Hact.
  wp_step. wp_step. fold (children s (fk_id info)). destruct (children s (fk_id info)) as [|child kids] eqn:Ek.
  2: { repeat apply wp_ret. apply HE. intros ? [= <-]. left. by rewrite Ek. }
  wp_step. wp_step. wp_step.
  assert (Hmain : wps
    (try! info := begin_drop name in
     let! _ := io_modify (set_inflight (delete (fk_id info))) in
     if negb true then io_ret (Err (ForkLifecycle (fk_name info) "drop"))
     else
       let! clean := delete_branches (by_name (fk_datasets info)) in
       if clean : bool then let! _ := delete_fork_artifacts (fk_id info) in finish_drop info
       else io_ret (Err (ForkLifecycle name "delete_branch"))) s Q).
  { unfold begin_drop, get, holder_count, put_tombstone, put_registry. wp_step. wp_step. wp_step. rewrite En. wp_step. wp_step.
    destruct (Nat.ltb_spec 0 (default O (holders s !! fk_id info))); [repeat apply wp_ret; apply Hbusy; by right|].
    assert (C1 : consistent candidates (reg s) (<[fk_id info := info]> (tombs s)) (branches s)) by (eapply consistent_tombstone; [done|done|congruence]).
    wp_step. wp_step. wp_step; [exact Hs|]. apply wp_ret. wp_step. wp_step. cbn. rewrite En.
    wp_step. wp_step. wp_step. wp_step. wp_step; [exact C1|]. do 2 apply wp_ret.
    wp_step. wp_step. cbn [negb]. apply (drop_rest_wp s); try done; [|cbn; by rewrite <- Et|by intros s' Hg; apply (HQ info)].
    change (consistent candidates (<[name := with_status Tombstoned info]> (cache s)) (<[fk_id info := info]> (tombs s)) (branches s)).
    rewrite Ec. eapply consistent_flip; [done|done|congruence]. }
  destruct (inflight s !! fk_id info) as [n|] eqn:Ei; [|apply wp_ret; exact Hmain].
  destruct (Nat.ltb_spec 0 n); [repeat apply wp_ret; apply Hbusy; left; by rewrite Ei|]. wp_step. apply wp_read_clean; [exact Hs|]. apply wp_ret. exact Hmain.
Qed.

Lemma walk_subtree_wp fuel s : settled s -> forall stack order, wps (walk_subtree fuel stack order) s (fun _ s' => s' = s).
Proof.
  intros St. induction fuel as [|fuel IH]; intros [|node stack] order; cbn [walk_subtree]; try by apply wp_ret.
  wp_step. apply wp_get. apply IH.
Qed.
Lemma blockers_of_wp nodes s : wps (blockers_of nodes) s (fun _ s' => s' = s).
Proof.
  induction nodes as [|n nodes IH]; cbn [blockers_of]; [by apply wp_ret|]. wp_step. apply wp_get. wp_step.
  eapply wp_mono; [|exact IH]. intros l s' ->. by apply wp_ret.
Qed.
Lemma drop_fork_cascade_wp name s : settled s -> wps (drop_fork_cascade true name) s (fun _ s' => settled s').
Proof.
  intros St. unfold drop_fork_cascade. wp_step. unfold get. apply wp_get. destruct (cache s !! name) as [root|]; [|by apply wp_ret].
  wp_step. apply wp_get. wp_step. eapply wp_mono; [|by apply walk_subtree_wp]. intros [order|] s' ->; [|by apply wp_ret].
  wp_step. eapply wp_mono; [|apply blockers_of_wp]. intros [|b bs] s' ->; [|by apply wp_ret].
  wp_step. eapply (wp_each_try _ _ (fun _ => settled)); [| |exact St].
  - intros n r s' St'. apply drop_fork_wp; [done|intros; by apply wp_ret|]. by intros info s'' _ [? _].
  - intros s' St'. by apply wp_ret.
Qed.

(** ** Opening the database *)

(** The memory of a process that starts is empty. *)
Definition start (d : @Disk D) : Sys := mkSys d ∅ ∅ None ∅.

Lemma open_db_wp d max : durable_ok candidates (start d) ->
  wps (open_db candidates true max) (start d)
    (fun r s' => (exists k, r = Ok k) /\ settled s' /\ forall n i, live s' n i <-> live (start d) n i).
Proof.
  intros Hs. unfold open_db, load. wp_step. wp_step. apply wp_read_clean; [exact Hs|]. do 2 wp_step. apply wp_ret.
  eapply wp_mono; [|by apply recover_forks_wp]. intros r s' (Hr & St & Hk). split; [done|]. split; [done|]. exact Hk.
Qed.

Lemma delete_all_branches_total info : total (@delete_all_branches D true info).
Proof. apply total_each. intros y. apply total_bind; [apply total_write|intros; apply total_ret]. Qed.
Lemma artifacts_total id : total (@delete_fork_artifacts D id).
Proof.
  apply total_each. intros area. apply total_bind; [apply total_read|]. intros [files|]; [|apply total_ret].
  apply total_each. intros k. apply total_bind; [apply total_write|intros; apply total_ret].
Qed.
Lemma put_registry_total n st : total (@put_registry D n st).
Proof. apply total_bind; [apply total_write|intros; apply total_ret]. Qed.
Lemma rollback_create_total n : total (@rollback_create D n).
Proof.
  unfold rollback_create, delete_schema_overlay. apply total_bind; [apply total_get|]. intros removed.
  apply total_bind; [apply total_modify|]. intros _. apply total_try; [apply put_registry_total|]. intros _.
  destruct removed; auto 6 with io_total.
Qed.
Lemma complete_drop_total info : total (@complete_drop D true info).
Proof.
  unfold complete_drop, finish_drop, delete_tombstone, delete_schema_overlay. apply total_bind; [apply delete_all_branches_total|]. intros _.
  apply total_bind; [apply artifacts_total|]. intros _. apply total_bind; [apply total_modify|]. intros _.
  apply total_try; [apply put_registry_total|]. intros _. auto 8 with io_total.
Qed.
Lemma roll_back_total info : total (@roll_back D candidates true info).
Proof.
  unfold roll_back, rollback_branches. apply total_bind; [|intros _; apply rollback_create_total].
  apply total_bind; [case_decide; [apply total_ret|apply delete_all_branches_total]|]. intros _. cbn [negb].
  apply total_each. intros y. apply total_bind; [apply total_write|intros; apply total_ret].
Qed.
Lemma read_tombstones_total ids : total (@read_tombstones D ids).
Proof.
  induction ids as [|k ids IH]; [apply total_ret|]. cbn [read_tombstones]. apply total_bind; [apply total_read|].
  intros [[info|]|]; [|apply total_ret..]. apply total_try; [apply IH|]. intros. apply total_ret.
Qed.
Lemma open_db_total max : total (@open_db D candidates true max).
Proof.
  unfold open_db, load, recover_forks, list_tombstones. apply total_try.
  { apply total_bind; [apply total_read|]. intros [file|]; [|apply total_ret]. apply total_bind; [apply total_modify|]. intros. apply total_ret. }
  intros _. apply total_bind; [apply total_get|]. intros pend. apply total_try; [apply total_each_try, roll_back_total|]. intros _.
  apply total_bind; [apply total_get|]. intros tb. apply total_try; [apply total_each_try, complete_drop_total|]. intros _.
  apply total_try. { apply total_bind; [apply total_read|]. intros [ids|]; [apply read_tombstones_total|apply total_ret]. }
  intros orphans. apply total_try; [apply total_each_try, complete_drop_total|]. intros. apply total_ret.
Qed.

(** ** Runs *)

Inductive World := Alive (s : @Sys D) | Dead (d : @Disk D).

Definition after {A} (r : Run (@Sys D) A) : World :=
  match r with Crashed s => Dead (disk s) | Ret s _ _ => Alive s end.

(** A process that creates, opens and drops forks, whose sessions and
    transactions come and go, that can die between any two I/O operations and
    is started again. *)
Inductive wstep : World -> World -> Prop :=
| ws_open a name must_create s script : fresh (reg s) (tombs s) (branches s) (ca_id a) ->
    fst <$> ca_parent a <> Some (ca_id a) -> Forall clean script ->
    wstep (Alive s) (after (open_or_create delta_empty candidates true a name must_create s script))
| ws_drop name s script : Forall clean script -> wstep (Alive s) (after (drop_fork true name s script))
| ws_cascade name s script : Forall clean script -> wstep (Alive s) (after (drop_fork_cascade true name s script))
| ws_sessions s h f : wstep (Alive s) (Alive (set_inflight (fun _ => f) (set_holders (fun _ => h) s)))
| ws_kill s : wstep (Alive s) (Dead (disk s))
| ws_reopen d max script : Forall clean script -> wstep (Dead d) (after (open_db candidates true max (start d) script)).

Definition empty_disk : @Disk D := mkDisk None ∅ ∅ ∅ ∅.

Definition world_ok (w : World) : Prop :=
  match w with Alive s => settled s | Dead d => durable_ok candidates (start d) end.

Lemma wp_after {A} (m : IO (@Sys D) A) s script (Q : A -> Sys -> Prop) : wps m s Q -> Forall clean script ->
  (forall a s', Q a s' -> settled s') -> world_ok (after (m s script)).
Proof. intros H Hf HQ. specialize (H script Hf). destruct (m s script) as [s'|s' sc a]; [exact H|]. cbn. by eapply HQ, H. Qed.

Lemma catalog_step_ok w w' : wstep w w' -> world_ok w -> world_ok w'.
Proof.
  intros [a name mc s script Hf Hpar Hsc|name s script Hsc|name s script Hsc|s h f|s|d max script Hsc] Hw.
  - eapply wp_after; [by apply open_or_create_wp|done|done].
  - eapply (wp_after _ _ _ (fun _ s' => settled s')); [|done|done]. apply drop_fork_wp; [done|done|]. by intros info s' _ [? _].
  - eapply wp_after; [by apply drop_fork_cascade_wp|done|done].
  - exact Hw.
  - apply Hw.
  - eapply wp_after; [by apply open_db_wp|done|]. by intros r s' (_ & ? & _).
Qed.

Lemma reachable_ok w : rtc wstep (Dead empty_disk) w -> world_ok w.
Proof.
  assert (H0 : world_ok (Dead empty_disk)) by apply consistent_empty. intros H.
  induction H as [|x y z Hs _ IH]; [done|]. by apply IH, (catalog_step_ok x).
Qed.
End safety.

(** What a settled catalog looks like from outside: memory and disk agree,
    every registered fork is active and has all its branches, every branch is
    recorded by a registered fork, and no tombstone is left. *)
Definition at_rest {D} (s : @Sys D) : Prop :=
  cache s = reg s /\ tombs s = ∅
  /\ (forall n i, reg s !! n = Some i -> fk_name i = n /\ fk_status i = Active
        /\ forall ds x, fk_datasets i !! ds = Some x -> (ds, x) ∈ branches s)
  /\ (forall ds x, (ds, x) ∈ branches s -> exists n i, reg s !! n = Some i /\ fk_datasets i !! ds = Some x).

Lemma settled_at_rest {D} candidates (s : @Sys D) : settled candidates s -> at_rest s.
Proof.
  intros ([C1 C2 C3 C4 C5 C6 C7 C8] & Ec & Et & Ha). split; [done|]. split; [done|]. split.
  - intros n i Hn. split; [by apply C1|]. split; [by eapply Ha|]. intros ds x Hx. eapply C6; [done|by eapply Ha| |done].
    by rewrite Et, lookup_empty.
  - intros ds [id ds'] Hx. destruct (C5 _ _ Hx) as [E [(n & i & Hn & Ei & [[y Hy]|[Hp _]])|(i & Hi & _)]]; cbn in *.
    + exists n, i. split; [done|]. rewrite Hy, (C3 _ _ _ _ Hn Hy). congruence.
    + specialize (Ha _ _ Hn). congruence.
    + by rewrite Et, lookup_empty in Hi.
Qed.

Lemma open_db_returns {D} candidates (d : @Disk D) max : durable_ok candidates (start d) ->
  exists n s k, (forall j, open_db candidates true max (start d) (replicate (n + j) Done) = Ret s (replicate j Done) (Ok k))
    /\ settled candidates s /\ forall m i, live s m i <-> live (start d) m i.
Proof.
  intros Hd. destruct (open_db_total candidates max (start d)) as (n & s & r & E).
  pose proof (open_db_wp candidates d max Hd (replicate (n + 0) Done)) as H.
  rewrite (E O) in H. destruct H as [_ ((k & ->) & St & Hk)]; [by apply Forall_replicate|]. by exists n, s, k.
Qed.

(** C10: the fork catalog survives crashes.  In every run that creates, opens
    and drops forks, nested ones and subtrees too, with the process dying
    between any two I/O operations of them or of recovery: a live process has
    a catalog at rest; and a dead one can be opened again, recovery returns,
    the catalog is at rest, and the forks in it are exactly those that were
    active on disk with no drop begun.  Half-created and half-dropped forks
    are gone with their branches. *)
Theorem fork_catalog_crash_safe {D} (delta_empty : D) (candidates : list string) (w : @World D) :
  rtc (wstep delta_empty candidates) (Dead empty_disk) w ->
  match w with
  | Alive s => at_rest s
  | Dead d => forall max, exists n s k,
      (forall j, open_db candidates true max (start d) (replicate (n + j) Done) = Ret s (replicate j Done) (Ok k))
      /\ at_rest s /\ forall m i, reg s !! m = Some i <-> live (start d) m i
  end.
Proof.
  intros Hw. apply reachable_ok in Hw. destruct w as [s|d]; [by eapply settled_at_rest|]. intros max.
  destruct (open_db_returns candidates d max Hw) as (n & s & k & E & St & Hk). exists n, s, k. split; [done|].
  split; [by eapply settled_at_rest|]. intros m i. rewrite <- Hk. unfold live. destruct St as (_ & _ & Et & Ha). rewrite Et, lookup_empty.
  split; [|tauto]. intros Hm. split_and!; [done|by eapply Ha|done].
Qed.
