(* ===== verification/ForkCascade.v ===== *)
(** * Dropping a fork with its descendants

    [drop_fork_cascade] (uni/src/api/fork_admin.rs) walks the children of a
    fork with a stack, refuses when any of them is in use, and drops them
    leaves first.  In every state of a run the parents form no cycle (Module
    ForkRuns), so the walk visits each descendant once, every fork before its
    children, and no drop of the loop can be refused. *)

From stdpp Require Import strings.
From S2P Require Import Prelude CrashIO Forks ForkLifecycle ForkRuns ForkSafety.

Section cascade.
  Context {D : Type} (delta_empty : D) (candidates : list string).
  Implicit Types (s : @Sys D) (i root node : ForkInfo).
  #[local] Abbreviation settled := (settled candidates).
  #[local] Abbreviation wps := (wp clean (durable_ok candidates)).

Definition registered s i : Prop := cache s !! fk_name i = Some i.
Definition child s (p i : ForkInfo) : Prop := registered s i /\ fk_parent i = Some (fk_id p).
(** A fork and its descendants. *)
Abbreviation subtree s root := (rtc (child s) root).

Lemma settled_cache s n i : settled s -> cache s !! n = Some i -> fk_name i = n.
Proof. intros (Hs & Ec & _). rewrite Ec. by apply (co_name _ _ _ _ Hs). Qed.
Lemma settled_ids s i j : settled s -> registered s i -> registered s j -> fk_id i = fk_id j -> i = j.
Proof.
  intros (Hs & Ec & _) Hi Hj E. unfold registered in *. rewrite Ec in Hi, Hj.
  rewrite (co_ids _ _ _ _ Hs _ _ _ _ Hi Hj E) in Hi. congruence.
Qed.
Lemma elem_forks s i : settled s -> i ∈ (by_name (cache s)).*2 <-> registered s i.
Proof.
  intros St. rewrite list_elem_of_fmap. split.
  - intros ([n j] & -> & Hj%elem_by_name). unfold registered. cbn. by rewrite (settled_cache s n j St Hj).
  - intros Hi. exists (fk_name i, i). split; [done|]. by apply elem_by_name.
Qed.
Lemma forks_nodup s : settled s -> NoDup (by_name (cache s)).*2.
Proof.
  intros St. assert (E : (fun i => (fk_name i, i)) <$> (by_name (cache s)).*2 = by_name (cache s)).
  { rewrite <- list_fmap_compose. rewrite <- (list_fmap_id (by_name (cache s))) at 2. apply list_fmap_ext.
    intros k [n i] Hk%list_elem_of_lookup_2%elem_by_name. cbn. by rewrite (settled_cache s n i St Hk). }
  eapply (NoDup_fmap_1 (fun i => (fk_name i, i))). rewrite E. unfold by_name. rewrite merge_sort_Permutation. apply NoDup_map_to_list.
Qed.
Lemma elem_fork_children s p i : settled s -> i ∈ children s (fk_id p) <-> child s p i.
Proof. intros St. unfold children. rewrite list_elem_of_filter, elem_forks by done. unfold child. tauto. Qed.
Lemma children_nodup s id : settled s -> NoDup (children s id).
Proof. intros St. by apply NoDup_filter, forks_nodup. Qed.
Lemma length_forks s : length (by_name (cache s)).*2 = size (cache s).
Proof. rewrite length_fmap. unfold by_name. by rewrite merge_sort_Permutation, length_map_to_list. Qed.

(** No fork is a proper descendant of itself. *)
Lemma subtree_rank s root node : settled s -> registered s root -> subtree s root node -> fk_parent root <> Some (fk_id node).
Proof.
  intros (Hs & Ec & _) Hroot Hr Ep.
  destruct (co_forest _ _ _ _ Hs) as (rank & H). unfold registered in *. rewrite Ec in *.
  assert (Hle : (rank (fk_id root) <= rank (fk_id node))%nat).
  { clear Ep Hroot. induction Hr as [|x y z [Hy Hp] _ IH]; [lia|]. unfold registered in Hy. rewrite Ec in Hy. specialize (H _ _ _ Hy Hp). lia. }
  specialize (H _ _ _ Hroot Ep). lia.
Qed.

(** What the stack and the forks visited so far satisfy. *)
Record walking s root (order stack : list ForkInfo) : Prop := {
  wk_nodup : NoDup (order ++ stack);
  wk_known i : i ∈ order ++ stack -> registered s i /\ subtree s root i;
  wk_root : root ∈ order ++ stack;
  wk_parent i : i ∈ order ++ stack -> i = root \/ exists p, p ∈ order /\ fk_parent i = Some (fk_id p);
  wk_below l1 x l2 i : order = l1 ++ x :: l2 -> child s x i -> i ∈ l2 ++ stack;
}.

Lemma walking_start s root : registered s root -> walking s root [] [root].
Proof.
  intros Hr. split.
  - apply NoDup_singleton.
  - by intros i ->%list_elem_of_singleton.
  - by left.
  - intros i ->%list_elem_of_singleton. by left.
  - by intros [] x l2 i [=].
Qed.
Lemma walking_step s root order node stack : settled s -> registered s root -> walking s root order (node :: stack) ->
  walking s root (order ++ [node]) (reverse (children s (fk_id node)) ++ stack).
Proof.
  intros St Hroot [W1 W2 W3 W4 W5]. set (kids := children s (fk_id node)).
  destruct (W2 node ltac:(set_solver)) as [Hnode Hsub].
  assert (Hperm : (order ++ [node]) ++ reverse kids ++ stack ≡ₚ kids ++ order ++ node :: stack).
  { rewrite reverse_Permutation. solve_Permutation. }
  assert (Hkid : forall i, i ∈ kids <-> child s node i) by (intros i; by apply elem_fork_children).
  split.
  - rewrite Hperm. apply NoDup_app. split_and!; [by apply children_nodup| |done].
    intros i Hi%Hkid Hin. destruct Hi as [Hi Hp]. destruct (W4 i Hin) as [->|(p & Hp' & E)].
    + by destruct (subtree_rank s root node St Hroot Hsub).
    + assert (node = p) as <- by (apply (settled_ids s); [done|done|apply W2; set_solver|congruence]).
      apply NoDup_app in W1 as (_ & W1 & _). apply (W1 node Hp'). by left.
  - intros i. rewrite Hperm, elem_of_app. intros [Hi%Hkid|Hi]; [|by apply W2]. split; [apply Hi|]. by eapply rtc_r.
  - rewrite Hperm. apply elem_of_app. by right.
  - intros i. rewrite Hperm, elem_of_app. intros [Hi%Hkid|Hi].
    + right. exists node. split; [set_solver|apply Hi].
    + destruct (W4 i Hi) as [?|(p & ? & ?)]; [by left|right]. exists p. set_solver.
  - intros l1 x l2 i E Hi. destruct (decide (l2 = [])) as [->|Hne].
    + apply app_inj_tail in E as [_ <-]. apply elem_of_app. right. apply elem_of_app. left. by apply elem_of_reverse, Hkid.
    + destruct (exists_last Hne) as (l2' & y & ->). rewrite app_comm_cons, app_assoc in E. apply app_inj_tail in E as [-> <-].
      specialize (W5 l1 x l2' i eq_refl Hi). set_solver.
Qed.

(** The forks of a subtree, every fork before its children. *)
Record lists_subtree s root (order : list ForkInfo) : Prop := {
  ls_nodup : NoDup order;
  ls_exact i : i ∈ order <-> subtree s root i;
  ls_known i : i ∈ order -> registered s i;
  ls_below l1 x l2 i : order = l1 ++ x :: l2 -> child s x i -> i ∈ l2;
}.
Lemma walking_end s root order : walking s root order [] -> lists_subtree s root order.
Proof.
  intros [W1 W2 W3 W4 W5]. rewrite app_nil_r in *. split; [done| |intros; by apply W2|].
  - intros i. split; [apply W2|]. revert i. apply rtc_ind_r; [done|]. intros x y _ Hy IH.
    apply list_elem_of_split in IH as (l1 & l2 & E). specialize (W5 _ _ _ _ E Hy). rewrite E. set_solver.
  - intros l1 x l2 i E Hi. specialize (W5 _ _ _ _ E Hi). by rewrite app_nil_r in W5.
Qed.

Lemma walk_subtree_exact s root : settled s -> registered s root -> forall fuel order stack,
  walking s root order stack -> (size (cache s) <= fuel + length order)%nat ->
  wps (walk_subtree fuel stack order) s (fun r s' => s' = s /\ exists l, r = Some l /\ lists_subtree s root l).
Proof.
  intros St Hroot. induction fuel as [|fuel IH]; intros order [|node stack] W Hf; cbn [walk_subtree];
    try (apply wp_ret; split; [done|]; exists order; split; [done|by apply walking_end]).
  { exfalso. assert (Hl : (length (order ++ node :: stack) <= length (by_name (cache s)).*2)%nat).
    { apply submseteq_length, NoDup_submseteq; [apply W|]. intros i Hi. apply elem_forks; [done|]. by apply (wk_known _ _ _ _ W). }
    rewrite length_forks, length_app in Hl. cbn in Hl. lia. }
  wp_step. apply wp_get. apply IH; [by apply walking_step|]. rewrite length_app. cbn. lia.
Qed.

#[local] Instance busy_dec s id : Decision (busy s id).
Proof. unfold busy. apply _. Defined.

Lemma blocker_busy s node : wps (blocker node) s (fun b s' => s' = s /\ (b = None <-> ~ busy s (fk_id node))).
Proof.
  apply wp_get. split; [done|]. unfold busy. generalize (default O (holders s !! fk_id node)). intros h.
  destruct (inflight s !! fk_id node) as [[|n]|], h as [|h]; cbn; split; (done || (intros _; lia) || (intros H; exfalso; apply H; lia)).
Qed.
Lemma blockers_exact nodes s : wps (blockers_of nodes) s (fun l s' => s' = s /\ (l = [] <-> Forall (fun n => ~ busy s (fk_id n)) nodes)).
Proof.
  induction nodes as [|n nodes IH]; cbn [blockers_of]; [by apply wp_ret|]. wp_step. eapply wp_mono; [|apply blocker_busy].
  intros b s' [-> Hb]. wp_step. eapply wp_mono; [|exact IH]. intros l s' [-> Hl]. apply wp_ret. split; [done|].
  rewrite Forall_cons, <- Hb, <- Hl. destruct b, l; cbn; split; by try intros [? ?].
Qed.

(** Leaves first, no drop is refused. *)
Record dropping s (order rest : list ForkInfo) s' : Prop := {
  dr_settled : settled s';
  dr_done : exists dropped, reverse order = dropped ++ rest
    /\ forall n i, cache s' !! n = Some i <-> cache s !! n = Some i /\ i ∉ dropped;
  dr_idle i : i ∈ rest -> ~ busy s' (fk_id i);
}.
Lemma busy_delete s s' info id : holders s' = delete (fk_id info) (holders s) -> inflight s' = delete (fk_id info) (inflight s) ->
  busy s' id -> busy s id.
Proof.
  intros Eh Ei. unfold busy. rewrite Eh, Ei. destruct (decide (id = fk_id info)) as [->|Hne].
  - rewrite !lookup_delete_eq. cbn. lia.
  - by rewrite !lookup_delete_ne.
Qed.
Lemma dropping_next s root order x rest s' : settled s -> lists_subtree s root order -> dropping s order (x :: rest) s' ->
  wps (drop_fork true (fk_name x)) s' (fun r s'' => r = Ok tt /\ dropping s order rest s'').
Proof.
  intros St [L1 L2 L3 L4] [St' (dropped & E & Hc) Hb]. assert (Eo : order = reverse rest ++ x :: reverse dropped).
  { rewrite <- (reverse_involutive order), E, reverse_app, reverse_cons, <- app_assoc. done. }
  assert (Hx : registered s x) by (apply L3; rewrite Eo; set_solver).
  assert (Hx' : cache s' !! fk_name x = Some x).
  { apply Hc. split; [done|]. rewrite Eo in L1. apply NoDup_app in L1 as (_ & _ & L1). apply NoDup_cons in L1 as [L1 _].
    by rewrite elem_of_reverse in L1. }
  apply drop_fork_wp; [done| |].
  - intros e He. exfalso. destruct (He x Hx') as [Hk|?]; [|by destruct (Hb x ltac:(by left))]. apply Hk.
    apply elem_of_nil_inv. intros i [Hi Hp]%elem_fork_children; [|done]. apply Hc in Hi as [Hi Hnot]. apply Hnot, elem_of_reverse.
    by eapply (L4 _ x).
  - intros info s'' Hi (St'' & Ec & Eh & Ei). rewrite Hx' in Hi. injection Hi as <-. split; [done|]. split; [done| |].
    + exists (dropped ++ [x]). split; [by rewrite <- app_assoc|]. intros n i. rewrite Ec, lookup_delete_Some, Hc, elem_of_app, list_elem_of_singleton.
      split.
      * intros [Hne [Hi Hd]]. split; [done|]. intros [?| ->]; [done|]. by apply Hne, (settled_cache s).
      * intros [Hi Hd]. split_and!; [|done|tauto]. intros <-. apply Hd. right. unfold registered in Hx. congruence.
    + intros i Hi Hbusy. apply (Hb i); [by right|]. by eapply busy_delete.
Qed.

Lemma drop_fork_cascade_exact name root s : settled s -> cache s !! name = Some root ->
  wps (drop_fork_cascade true name) s (fun r s' =>
    exists res, r = Some res /\ settled s' /\
    match res with
    | Ok _ => (forall i, subtree s root i -> ~ busy s (fk_id i))
        /\ forall n i, cache s' !! n = Some i <-> cache s !! n = Some i /\ ~ subtree s root i
    | Err e => s' = s /\ exists i, subtree s root i /\ busy s (fk_id i)
    end).
Proof.
  intros St En. assert (Hroot : registered s root) by (unfold registered; by rewrite (settled_cache s name root St En)).
  unfold drop_fork_cascade, get. wp_step. apply wp_get. rewrite En. wp_step. apply wp_get. wp_step.
  eapply wp_mono; [|apply (walk_subtree_exact s root St Hroot); [by apply walking_start|lia]].
  intros r s' (-> & order & -> & L). wp_step. eapply wp_mono; [|apply blockers_exact]. intros l s' [-> Hl].
  destruct l as [|b l].
  - wp_step. assert (Hidle : forall i, subtree s root i -> ~ busy s (fk_id i)).
    { intros i Hi%(ls_exact _ _ _ L). assert (F := proj1 Hl eq_refl). rewrite Forall_forall in F. apply F. by apply elem_of_reverse. }
    eapply (wp_each_try _ _ (dropping s order)).
    + intros x rest s' Hd. eapply wp_mono; [|exact (dropping_next s root order x rest s' St L Hd)]. by intros res s'' [-> ?].
    + intros s' [St' (dropped & E & Hc) _]. apply wp_ret. eexists. split; [done|]. split; [done|]. split; [done|].
      intros n i. rewrite app_nil_r in E. by rewrite Hc, <- E, elem_of_reverse, (ls_exact _ _ _ L).
    + split; [done| |].
      * exists []. split; [done|]. intros n i. split; [intros ?; split; [done|apply not_elem_of_nil]|tauto].
      * intros i Hi%elem_of_reverse%(ls_exact _ _ _ L). by apply Hidle.
  - apply wp_ret. eexists. split; [done|]. split; [done|]. split; [done|].
    assert (F : ~ Forall (fun n => ~ busy s (fk_id n)) (reverse order)) by (intros F%Hl; done).
    apply not_Forall_Exists in F; [|apply _]. apply Exists_exists in F as (i & Hi & Hb). exists i. split.
    + by apply (ls_exact _ _ _ L), elem_of_reverse.
    + by apply dec_stable.
Qed.

(** Every drop and the cascade return. *)
Lemma delete_branches_total l : total (@delete_branches D l).
Proof.
  induction l as [|[ds b] l IH]; cbn [delete_branches]; [apply total_ret|]. apply total_bind; [apply total_write|]. intros ok.
  apply total_bind; [exact IH|]. intros. apply total_ret.
Qed.
Lemma begin_drop_total name : total (@begin_drop D name).
Proof.
  unfold begin_drop. apply total_try; [apply total_get|]. intros info. apply total_bind; [apply total_get|]. intros count.
  destruct (0 <? count)%nat; [apply total_ret|]. apply total_try; [unfold put_tombstone; auto with io_total|]. intros _.
  apply total_bind; [apply total_get|]. intros [entry|]; [|apply total_ret]. apply total_bind; [apply total_modify|]. intros _.
  apply total_try; [apply put_registry_total|]. intros. apply total_ret.
Qed.
Lemma finish_drop_total info : total (@finish_drop D info).
Proof.
  unfold finish_drop, delete_tombstone, delete_schema_overlay. apply total_bind; [apply total_modify|]. intros _.
  apply total_try; [apply put_registry_total|]. intros _. auto 8 with io_total.
Qed.
Lemma drop_fork_total name : total (@drop_fork D true name).
Proof.
  unfold drop_fork. apply total_try; [apply total_get|]. intros preview. apply total_bind; [apply total_get|].
  intros [|c cs]; [|apply total_ret]. apply total_bind; [apply total_get|]. intros inner. apply total_try.
  { destruct inner as [n|]; [|apply total_ret]. destruct (0 <? n)%nat; auto with io_total. }
  intros _. apply total_try; [apply begin_drop_total|]. intros info. apply total_bind; [apply total_modify|]. intros _. cbn [negb].
  apply total_bind; [apply delete_branches_total|]. intros [|]; [|apply total_ret].
  apply total_bind; [apply artifacts_total|]. intros _. apply finish_drop_total.
Qed.
Lemma walk_subtree_total fuel : forall stack order, total (@walk_subtree D fuel stack order).
Proof.
  induction fuel as [|fuel IH]; intros [|node stack] order; cbn [walk_subtree]; try apply total_ret.
  apply total_bind; [apply total_get|]. intros. apply IH.
Qed.
Lemma blockers_total nodes : total (@blockers_of D nodes).
Proof.
  induction nodes as [|n nodes IH]; cbn [blockers_of]; [apply total_ret|]. apply total_bind; [apply total_get|]. intros b.
  apply total_bind; [exact IH|]. intros. apply total_ret.
Qed.
Lemma drop_fork_cascade_total name : total (@drop_fork_cascade D true name).
Proof.
  unfold drop_fork_cascade. apply total_bind; [apply total_get|]. intros [root|e]; [|apply total_ret].
  apply total_bind; [apply total_get|]. intros fuel. apply total_bind; [apply walk_subtree_total|]. intros [order|]; [|apply total_ret].
  apply total_bind; [apply blockers_total|]. intros [|b l]; [|apply total_ret].
  apply total_bind; [apply total_each_try; intros; apply drop_fork_total|]. intros. apply total_ret.
Qed.
End cascade.

(** C11: a cascading drop removes exactly the subtree, or nothing.  Take any
    state that creating, opening and dropping forks, sessions and transactions
    coming and going, the process dying between two I/O operations and
    restarting lead to, where no I/O operation reports a failure and no branch
    is made on the first write to a table
    ([ForkExamples.unrecorded_branch_survives] shows what such a branch
    changes).  For a registered fork, when the operations of the drop succeed:
    the drop returns, the walk over the children included; if a session or
    transaction uses the fork or a descendant it refuses and leaves everything
    as it was; otherwise the forks that remain are exactly those that do not
    descend from it, and the catalog is at rest. *)
Theorem cascade_drops_subtree {D} (delta_empty : D) (candidates : list string) (s : @Sys D) name root :
  rtc (wstep delta_empty candidates) (Dead empty_disk) (Alive s) -> cache s !! name = Some root ->
  exists n s' res,
    (forall k, drop_fork_cascade true name s (replicate (n + k) Done) = Ret s' (replicate k Done) (Some res))
    /\ at_rest s'
    /\ ((exists i, rtc (child s) root i /\ busy s (fk_id i)) -> s' = s /\ is_ok res = false)
    /\ ((forall i, rtc (child s) root i -> ~ busy s (fk_id i)) ->
          res = Ok tt /\ forall m i, cache s' !! m = Some i <-> cache s !! m = Some i /\ ~ rtc (child s) root i).
Proof.
  intros Hw En. apply reachable_ok in Hw as St. destruct (drop_fork_cascade_total name s) as (n & s' & r & E).
  pose proof (drop_fork_cascade_exact candidates name root s St En (replicate (n + 0) Done)) as H.
  rewrite (E O) in H. destruct H as [_ (res & -> & St' & Hres)]; [by apply Forall_replicate|].
  exists n, s', res. split; [done|]. split; [by eapply settled_at_rest|]. destruct res as [[]|e].
  - destruct Hres as [Hidle Hc]. split; [|done]. intros (i & Hi & Hb). by destruct (Hidle i Hi).
  - destruct Hres as [-> (i & Hi & Hb)]. split; [done|]. intros Hidle. by destruct (Hidle i Hi).
Qed.
