(* ===== verification/Examples.v ===== *)
(** * Concrete runs

    A small value domain (scalars and one CRDT variant) and concrete buffers
    on the real topology, at which the theorems about the L0 buffer and the
    conflict check are applied. *)

From S2P Require Import Prelude Graph L0State L0 L0Replay L0Recovery L0Merge L0Keys Occ Carveout.

(** ** A value domain *)

Inductive value := VNull | VInt (n : Z) | VStr (s : string) | VMax (n : Z).

#[export] Instance value_dec : EqDecision value.
Proof. solve_decision. Defined.

(** A max register is the one CRDT; it is stored as a tagged map. *)
#[export] Instance values : Values value Z := {
  is_null v := match v with VNull => true | _ => false end;
  is_map v := match v with VMax _ => true | _ => false end;
  as_str v := match v with VStr s => Some s | _ => None end;
  crdt_from_value v := match v with VMax n => Some n | _ => None end;
  crdt_to_value n := Some (VMax n);
  crdt_merge a b := Some (Z.max a b);
  json_bytes v :=
    match v with
    | VNull => as_bytes "null"
    | VInt n => if n <? 0 then [45; 48 + (- n) mod 10] else [48 + n mod 10]
    | VStr s => [34] ++ as_bytes s ++ [34]
    | VMax n => as_bytes "{}"
    end;
}.

#[export] Instance laws : CrdtLaws value Z (fun _ => "max").
Proof.
  split; cbn.
  - by intros [] c.
  - by intros c v [= <-].
  - intros c. by eexists.
  - intros a b _. by eexists.
  - intros a b _. by rewrite Z.max_comm.
  - intros a b c _ _. cbn. by rewrite Z.max_assoc.
Qed.

#[export] Instance order : HashOrder := canonical_order.

(** ** Buffers *)

Definition main : L0Buffer wf_graph value :=
  let s := L0.new 0 None in
  let s := insert_vertex_with_labels s 1 {["a" := VInt 1]} ["Person"] 100 in
  let s := insert_vertex_with_labels s 2 {["a" := VInt 2]} ["Person"] 100 in
  let s := insert_vertex_with_labels s 3 {["hits" := VMax 4]} [] 100 in
  let s := (insert_edge s 1 2 7 10 ∅ (Some "KNOWS") 100).1 in
  (insert_edge s 2 3 7 11 ∅ (Some "KNOWS") 100).1.

(** Rewrites vertex 1, deletes vertex 2, links 1 to 3. *)
Definition tx : L0Buffer wf_graph value :=
  let s := L0.new 0 None in
  let s := update_vertex_with_labels s 1 {["a" := VInt 5]} [] 200 in
  let s := (delete_vertex s 2).1 in
  (insert_edge s 1 3 7 12 ∅ (Some "KNOWS") 200).1.

Lemma tx_merges : (merge main tx 300).2 = Ok [mkTomb 11 2 3 7; mkTomb 10 1 2 7].
Proof. vm_compute. reflexivity. Qed.

Lemma merge_applies_transaction_witness :
  exists s' c, merge main tx 300 = (s', Ok c)
    /\ vertex_properties s' !! 1 = Some (merge_crdt_properties {["a" := VInt 1]} {["a" := VInt 5]})
    /\ v_edges (t_view (graph s')) !! 12 = Some (mkEdge 12 1 3 7).
Proof.
  exists (merge main tx 300).1, [mkTomb 11 2 3 7; mkTomb 10 1 2 7].
  assert (Hm : merge main tx 300 = ((merge main tx 300).1, Ok [mkTomb 11 2 3 7; mkTomb 10 1 2 7])).
  { rewrite <- tx_merges. apply surjective_pairing. }
  split; [exact Hm|].
  destruct (merge_applies_transaction main tx 300 _ _ Hm) as (Hp & _ & He & _). split.
  - rewrite Hp. vm_compute. reflexivity.
  - apply He. left. split; [vm_compute; reflexivity|]. split; [reflexivity|]. vm_compute. reflexivity.
Defined.

Lemma constraint_keys_unambiguous_witness :
  serialize_constraint_key "Person" [("name", VStr "ann"); ("age", VInt 3)]
  = serialize_constraint_key "Person" [("age", VInt 3); ("name", VStr "ann")]
  /\ serialize_constraint_key "Person" [("age", VInt 3)] <> serialize_constraint_key "Person" [("age", VInt 4)].
Proof.
  assert (H1 : clean "Person" [("name", VStr "ann"); ("age", VInt 3)])
    by (apply (bool_decide_unpack _); vm_compute; exact I).
  assert (H2 : clean "Person" [("age", VInt 3); ("name", VStr "ann")])
    by (apply (bool_decide_unpack _); vm_compute; exact I).
  split.
  - apply (constraint_keys_unambiguous _ _ _ _ H1 H2). split; [done|]. by vm_compute.
  - by vm_compute.
Defined.

Lemma fresh_keys_inv : keys_inv (G := wf_graph) (V := value) (L0.new 0 None).
Proof. split; unfold held; cbn; intros *; rewrite lookup_empty; [done|by intros ?%not_elem_of_nil]. Qed.

(** A vertex whose key moves from one value to another. *)
Definition keyed : L0Buffer wf_graph value :=
  insert_constraint_key (L0.new 0 None) (serialize_constraint_key "Person" [("age", VInt 3)]) 1.

Lemma constraint_index_exact_witness :
  let s := insert_constraint_key keyed (serialize_constraint_key "Person" [("age", VInt 4)]) 1 in
  constraint_index s !! serialize_constraint_key "Person" [("age", VInt 4)] = Some 1
  /\ has_constraint_key (apply_vertex_deletion keyed 1).1 (serialize_constraint_key "Person" [("age", VInt 3)]) 9 = false.
Proof.
  assert (Hk : keys_inv keyed) by (apply insert_key_inv, fresh_keys_inv).
  destruct (constraint_index_exact keyed (serialize_constraint_key "Person" [("age", VInt 4)]) 1 Hk)
    as ((_ & H1 & _) & (_ & H2 & _) & _).
  split; [exact H1|]. apply H2. by vm_compute.
Defined.

(** ** Two counters incremented concurrently *)

Definition incr (n : Z) : L0Buffer wf_graph value :=
  update_vertex_with_labels (L0.new 0 None) 3 {["hits" := VMax n]} [] 200.

Definition main_with (p : Properties value) : L0Buffer wf_graph value :=
  update_vertex_with_labels (L0.new 0 None) 3 p [] 100.

Lemma carveout_merges_commute_witness :
  merge_crdt_properties (merge_crdt_properties {["hits" := VMax 4]} {["hits" := VMax 9]}) {["hits" := VMax 7]}
  = merge_crdt_properties (merge_crdt_properties {["hits" := VMax 4]} {["hits" := VMax 7]}) {["hits" := VMax 9]}.
Proof.
  apply (carveout_merges_commute (fun _ => "max") (incr 9) (incr 7) (main_with {["hits" := VMax 4]})
    (main_with {["hits" := VMax 9]}) 3).
  - by vm_compute.
  - by vm_compute.
  - apply (bool_decide_unpack (3 ∉ vertices (from_l0 (incr 9)))). vm_compute. exact I.
  - apply (bool_decide_unpack (3 ∉ vertices (from_l0 (incr 7)))). vm_compute. exact I.
  - by vm_compute.
  - by vm_compute.
  - by vm_compute.
  - by vm_compute.
Defined.

(** ** A run of the commit registry *)

Definition touch (v : Z) : WriteSet := mkWS {[v]} ∅ ∅ ∅ ∅ ∅.
(** Two commits, to vertices 1 and 2, in a registry of capacity 4. *)
Definition two_commits : sys :=
  mkSys (mkRegistry [(1, touch 1); (2, touch 2)] 4) 2
    [(1, Commit (touch 1)); (2, Commit (touch 2))].

Definition one_commit : sys :=
  mkSys (mkRegistry [(1, touch 1)] 4) 1 [(1, Commit (touch 1))].

Lemma two_commits_reachable : reachable 4 0 two_commits.
Proof.
  assert (H1 : reachable 4 0 one_commit).
  { eapply reach_step; [apply (reach_init 4 0 (mkRegistry [] 4)); [reflexivity|split; lia]|].
    apply (step_commit (mkSys (mkRegistry [] 4) 0 []) (touch 1) (mkRegistry [(1, touch 1)] 4) 1);
      [cbn; lia|reflexivity]. }
  eapply reach_step; [exact H1|].
  apply (step_commit one_commit (touch 2) (mkRegistry [(1, touch 1); (2, touch 2)] 4) 2);
    [cbn; lia|reflexivity].
Qed.

Lemma occ_check_exact_witness :
  check (reg two_commits) 0 (touch 2) None = Some (WriteWrite 2)
  /\ exists m w, Some 2 = Some m /\ (m, Commit w) ∈ hist two_commits /\ 0 < m /\ ~ no_conflict (touch 2) None w
    /\ forall m' e', (m', e') ∈ hist two_commits -> 0 < m' < m -> exists w', e' = Commit w' /\ no_conflict (touch 2) None w'.
Proof.
  assert (Hc : check (reg two_commits) 0 (touch 2) None = Some (WriteWrite 2)) by (by vm_compute).
  split; [exact Hc|].
  pose proof (occ_check_exact 4 0 two_commits 0 (touch 2) None two_commits_reachable (or_introl eq_refl)) as H.
  rewrite Hc in H. exact H.
Defined.

