(* ===== verification/CommitExamples.v ===== *)
(** * Concrete commits

    Three transactions committed in sequence, on the value domain of [Examples],
    the last one writing a vertex the second deleted, and the store rebuilt from
    their log. *)

From S2P Require Import Prelude Graph L0State L0 L0Replay L0Recovery L0Merge L0Data Commit CommitTimes Examples.

Definition names (t : Z) : option string := if t =? 7 then Some "KNOWS" else None.

(** Creates three vertices and two edges. *)
Definition ops1 : list (tx_op value) :=
  [TWrite (LInsertVertex 1 {["a" := VInt 1]} ["Person"] 100);
   TWrite (LInsertVertex 2 {["a" := VInt 2]} ["Person"] 101);
   TWrite (LInsertVertex 3 {["hits" := VMax 4]} [] 102);
   TWrite (LInsertEdge 1 2 7 10 ∅ (Some "KNOWS") 103);
   TWrite (LInsertEdge 2 3 7 11 {["w" := VInt 1]} (Some "KNOWS") 104)].

(** Rewrites vertex 3, deletes vertex 2 with its edges, relabels vertex 1. *)
Definition ops2 : list (tx_op value) :=
  [TWrite (LUpdateVertex 3 {["hits" := VMax 9]} [] 200);
   TWrite (LDeleteVertex 2);
   TRelabel 1 ["Person"] ["Person"; "Admin"];
   TWrite (LInsertEdge 1 3 7 12 ∅ (Some "KNOWS") 201)].

Definition st1 : Commit.store wf_graph value := (commit names (mkStore (L0.new 0 None) []) [] (tx_buffer 0 ops1) 300).1.
Definition st2 : Commit.store wf_graph value := (commit names st1 [] (tx_buffer 0 ops2) 400).1.

(** Writes the deleted vertex 2 again. *)
Definition ops3 : list (tx_op value) := [TWrite (LInsertVertex 2 {["a" := VInt 5]} [] 300)].
Definition st3 : Commit.store wf_graph value := (commit names st2 [] (tx_buffer 0 ops3) 500).1.

Lemma st3_committed : committed order names 0 {[2]} st3.
Proof.
  assert (Hx : {[2]} = ∅ ∪ revived (Commit.main (mkStore (L0.new 0 None) [])) (tx_buffer (G := wf_graph) 0 ops1)
      ∪ revived (Commit.main st1) (tx_buffer 0 ops2) ∪ revived (Commit.main st2) (tx_buffer 0 ops3) :> gset Z)
    by (vm_compute; reflexivity).
  rewrite Hx. apply committed_step, committed_step, committed_step, committed_open.
Qed.

Lemma commits_recover_witness :
  length (log st3) = 10%nat
  /\ exists r : L0Buffer view value, replay_mutations (L0.new 50 None) (log st3) = (r, Ok tt)
       /\ vertex_properties r = {[1 := {["a" := VInt 1]}; 2 := {["a" := VInt 5]}; 3 := {["hits" := VMax 9]}]}
       /\ dom (tombstones r) = {[10; 11]} /\ vertex_label_overwrites r = {[1]}
       /\ vertex_labels r !! 1 = Some ["Person"; "Admin"].
Proof.
  split; [vm_compute; reflexivity|].
  destruct (commits_recover (G2 := view) order order names 0 50 {[2]} st3 st3_committed) as (r & Hr & Hs).
  exists r. split; [exact Hr|].
  assert (H1 := same_rows _ _ _ Hs). assert (H2 := same_tombs _ _ _ Hs). assert (H3 := same_over _ _ _ Hs).
  assert (H4 := same_labels _ _ _ Hs 1). cbn [data_of d_rows d_tombs d_over d_labels d_dead] in *.
  rewrite <- H1, <- H2, <- H3.
  split; [vm_compute; reflexivity|]. split; [vm_compute; reflexivity|]. split; [vm_compute; reflexivity|].
  rewrite <- H4; [vm_compute; reflexivity| |by apply not_elem_of_singleton].
  assert (Hd : bool_decide (1 ∉ vertex_tombstones (Commit.main st3)) = true) by (vm_compute; reflexivity).
  apply (bool_decide_eq_true_1 _ Hd).
Defined.

(** Relabels vertex 1 and deletes it. *)
Definition ops2' : list (tx_op value) := [TRelabel 1 ["Person"] ["Admin"]; TWrite (LDeleteVertex 1)].
Definition ops3' : list (tx_op value) := [TWrite (LInsertVertex 1 {["a" := VInt 5]} [] 300)].
Definition st3' : Commit.store wf_graph value :=
  (commit names (commit names st1 [] (tx_buffer 0 ops2') 400).1 [] (tx_buffer 0 ops3') 500).1.

(** A vertex relabelled and deleted by one transaction and written by another
    that did not see the deletion has other labels after recovery than in the
    main buffer: the log's deletion carries the new labels, which the merge of
    the deletion leaves out. *)
Example revived_labels_differ :
  vertex_labels (Commit.main st3') !! 1 = Some ["Person"]
  /\ vertex_labels (replay_mutations (L0.new (G := wf_graph) 0 None) (log st3')).1 !! 1 = Some ["Person"; "Admin"].
Proof. split; vm_compute; reflexivity. Qed.

Definition tx1 : L0Buffer wf_graph value := tx_buffer 0 ops1.

Lemma commit_redates_vertices_witness :
  exists s' c, merge (L0.new 0 None) tx1 300 = (s', Ok c)
    /\ vertex_created_at s' !! 1 = Some 300 /\ vertex_updated_at s' !! 1 = Some 100
    /\ vertex_created_at (foldl replay_mutation (L0.new (G := wf_graph) 0 None) (commit_records names tx1)) !! 1 = Some 100.
Proof.
  assert (Hr : (merge (L0.new 0 None) tx1 300).2 = Ok []) by (vm_compute; reflexivity).
  exists (merge (L0.new 0 None) tx1 300).1, [].
  assert (Hm : merge (L0.new 0 None) tx1 300 = ((merge (L0.new 0 None) tx1 300).1, Ok []))
    by (rewrite <- Hr; apply surjective_pairing).
  split; [exact Hm|].
  apply (commit_redates_vertices names (L0.new 0 None) tx1 300 1 100 100 _ [] Hm).
  - assert (Hd : bool_decide (is_Some (vertex_properties tx1 !! 1)) = true) by (vm_compute; reflexivity).
    apply (bool_decide_eq_true_1 _ Hd).
  - assert (Hd : bool_decide (1 ∉ vertex_tombstones tx1) = true) by (vm_compute; reflexivity).
    apply (bool_decide_eq_true_1 _ Hd).
  - reflexivity.
  - vm_compute. reflexivity.
  - vm_compute. reflexivity.
Defined.
