(* ===== verification/WalExamples.v ===== *)
(** * Concrete runs of the write-ahead log

    Mutations are integers, a segment's "JSON" is one number that encodes it,
    and every payload has the same 64-digit digest: enough for the laws the
    log relies on. *)

From S2P Require Import Prelude Wal WalRun WalFaults.

Abbreviation raw_segment := (Z * list Z * list string * Z * list (nat * nat))%type.

Definition to_raw (s : WalSegment Z) : raw_segment :=
  (lsn s, mutations s, writer_features s, announced_through s, (fun sp => (start sp, len sp)) <$> commits s).
Definition of_raw (r : raw_segment) : WalSegment Z :=
  let '(l, ms, fts, a, sps) := r in mkSegment l ms fts a ((fun p => mkSpan p.1 p.2) <$> sps).

Lemma of_to_raw s : of_raw (to_raw s) = s.
Proof.
  destruct s as [l ms fts a sps]. unfold to_raw, of_raw. cbn. f_equal.
  induction sps as [|[x y] sps IH]; [done|]. cbn. by rewrite IH.
Qed.

#[export] Instance number_codec : Codec Z := {|
  to_json s := Some [Z.pos (encode (to_raw s))];
  from_json j := match j with [Z.pos p] => of_raw <$> decode p | _ => None end;
  hash_hex _ := replicate 64 48;
|}.

#[export] Instance number_codec_laws : CodecLaws Z.
Proof.
  split; [|done..]. intros s j [= <-]. cbn [from_json number_codec]. by rewrite countable.decode_encode; cbn [fmap option_fmap option_map]; rewrite of_to_raw.
Qed.

#[export] Instance listing : HashOrder := canonical_order.

Definition seg1 : WalSegment Z := mkSegment 1 [10; 20] ["endpoint_enforcement"] 0 [mkSpan 0 2].
Definition json1 : list Z := [Z.pos (encode (to_raw seg1))].

Lemma json1_ok : to_json seg1 = Some json1.
Proof. reflexivity. Qed.

Lemma segment_envelope_integrity_witness :
  decode_segment (encode_segment_envelope json1) = Ok seg1
  /\ decode_segment (M := Z) (take 20 (encode_segment_envelope json1)) = Err TruncatedHeader.
Proof.
  destruct (segment_envelope_integrity seg1 json1 [] json1_ok) as (H1 & _ & _ & H4).
  split; [exact H1|]. apply H4. lia.
Defined.

(** A commit is flushed and acknowledged, a second one is taken by a flush that
    is still in flight, and a third is appended. *)
Definition feats : list string := ["endpoint_enforcement"].
Definition uuid1 : list Z := [97].
Definition s1 : sys Z := mkSys (append_commit new [10; 20]) 0 ∅ None 0 [] [] [] [10; 20] [[10; 20]].
Definition f1 : flight Z := mkFlight [10; 20] [mkSpan 0 2] 0 1.
Definition s2 : sys Z := mkSys (mkState [] [] 0 2 0) 0 ∅ (Some f1) 0 [] [] [] [10; 20] [[10; 20]].
Definition file1 : item := flight_item f1 uuid1 json1.
Definition s3 : sys Z :=
  mkSys (mkState [] [] 0 2 1) 0 (dir [file1]) None 0 [seg1] [seg1] [(f1, true)] [10; 20] [[10; 20]].
Definition s4 : sys Z :=
  mkSys (append_commit (w s3) [30]) 0 (fs s3) None 0 [seg1] [seg1] [(f1, true)] [10; 20; 30] [[10; 20]; [30]].
Definition f2 : flight Z := mkFlight [30] [mkSpan 0 1] 0 2.
Definition s5 : sys Z :=
  mkSys (mkState [] [] 0 3 1) 0 (fs s3) (Some f2) 0 [seg1] [seg1] [(f1, true)] [10; 20; 30] [[10; 20]; [30]].
Definition s6 : sys Z :=
  mkSys (append (w s5) 40) 0 (fs s3) (Some f2) 0 [seg1] [seg1] [(f1, true)] [10; 20; 30; 40] [[10; 20]; [30]].

Lemma run6_reachable : reachable true feats s6.
Proof.
  apply (reach_step _ _ s5); [|exact (step_append true feats s5 40)].
  apply (reach_step _ _ s4); [|by apply (step_take true feats s4 false)].
  apply (reach_step _ _ s3); [|by apply (step_append_commit true feats s3 [30])].
  apply (reach_step _ _ s2); [|by apply (step_finish true feats s2 f1 uuid1 PutOk SyncOk (dir [file1]) (mkState [] [] 0 2 1) (Ok 1))].
  apply (reach_step _ _ s1); [|by apply (step_take true feats s1 false)].
  apply (reach_step _ _ initial); [constructor|by apply (step_append_commit true feats initial [10; 20])].
Qed.

Lemma wal_recovers_acknowledged_witness :
  exists w' m segs n, begin_wal_replay (crashed feats s6 true uuid1) 0 = Ok (w', m, segs, n) /\ seg1 ∈ segs.
Proof.
  destruct (wal_recovers_acknowledged true feats s6 true uuid1 run6_reachable) as (w' & m & segs & n & Hr & Ha & _).
  exists w', m, segs, n. split; [exact Hr|]. apply Ha; [by left|done].
Defined.

Lemma wal_keeps_order_witness : concat (f_batch <$> flights s6) ++ buffer (w s6) = [10; 20; 30; 40].
Proof. destruct (wal_keeps_order true feats s6 run6_reachable) as [H _]. exact H. Defined.

(** File 1 is intact, file 2 was cut within its header. *)
Definition file2 : item := mkItem 2 [98] (take 20 (encode_segment_envelope json1)).

Lemma files_wf : wf_dir ([file1] ++ [file2]).
Proof.
  split; [|repeat constructor; done].
  intros i [->| [->|Hi%not_elem_of_nil]%elem_of_cons]%elem_of_cons; [unfold is_u64; cbn; lia..|done].
Qed.

Lemma file1_holds : Forall2 holds [file1] [seg1].
Proof. constructor; [|constructor]. split; [done|]. split; [apply (decode_encode seg1); reflexivity|done]. Qed.

Lemma torn_tail_blocks_recovery_witness :
  exists w' m n,
    begin_wal_replay (dir ([file1] ++ [file2])) 0 = Ok (w', m, [seg1], n)
    /\ exists fs' w'',
         flush true feats m [99] PutOk SyncOk (dir ([file1] ++ [file2])) (append_commit w' [30]) = (fs', w'', Ok 3)
         /\ begin_wal_replay (M := Z) fs' 0 = Err (CorruptSegment (i_path file2) TruncatedHeader).
Proof.
  destruct (torn_tail_blocks_recovery true feats [file1] [seg1] file2 TruncatedHeader 0 [30] [99]
    files_wf file1_holds ltac:(vm_compute; reflexivity) ltac:(cbn; lia) ltac:(cbn; lia) ltac:(done))
    as (w' & m & n & Hr & Hf).
  exists w', m, n. split; [exact Hr|]. exact (Hf _ eq_refl).
Defined.

Definition open1 : WalState Z := mkState [] [] 0 2 1.

Lemma failed_commit_is_recovered_witness :
  exists w1 fs' w2 w3 m' seg n,
    flush true feats 0 [98] (PutErr false) SyncOk (dir [file1]) (append_commit open1 [30]) = (dir [file1], w1, Err IoError)
    /\ flush true feats 0 [99] PutOk SyncOk (dir [file1]) (append_commit w1 [40]) = (fs', w2, Ok 3)
    /\ begin_wal_replay fs' 0 = Ok (w3, m', [seg1; seg], n)
    /\ slice (mutations seg) <$> commits seg = [[30]; [40]].
Proof.
  eapply (failed_commit_is_recovered true feats [file1] [seg1] open1 [30] [40] 0 [98] [99] SyncOk 0);
    try reflexivity; try done; try apply file1_holds; try (cbn; lia).
  - split; [|repeat constructor; done]. intros i [->|Hi%not_elem_of_nil]%elem_of_cons; [unfold is_u64; cbn; lia|done].
  - intros i [->|Hi%not_elem_of_nil]%elem_of_cons; [cbn; lia|done].
Defined.
