(* ===== verification/ManagerExamples.v ===== *)
(** * Concrete runs of the buffer manager

    The transactions of [CommitExamples] under a manager with snapshots and
    flushes. *)

From S2P Require Import Prelude Graph L0State L0 L0Replay L0Merge L0Data Carveout Commit Visibility Manager Snapshot Checkpoint Examples CommitExamples.

Abbreviation buf := (L0Buffer wf_graph value).

Definition main1 : buf := Commit.main st1.
Definition tx2 : buf := tx_buffer 0 ops2.

(** Property [a] of vertex 1 survives the commit of the second transaction. *)
Lemma commit_publishes_transaction_view_witness :
  exists main' tx' c, merge_take (seed_crdt_state_from_chain [] tx2 main1) tx2 400 = (main', tx', Ok c)
    /\ (lookup_vertex_prop 1 "a" (mkCtx main' None [])).2 = Some (VInt 1).
Proof.
  destruct (merge_take (seed_crdt_state_from_chain [] tx2 main1) tx2 400) as [[main' tx'] r] eqn:Hm.
  assert (Hr : is_ok (merge_take (seed_crdt_state_from_chain [] tx2 main1) tx2 400).2 = true) by (vm_compute; reflexivity).
  rewrite Hm in Hr. destruct r as [c|e]; [|discriminate Hr]. exists main', tx', c. split; [reflexivity|].
  destruct (commit_publishes_transaction_view main1 tx2 [] 400 0 main' tx' c 1 "a" Hm) as [Hl _].
  rewrite Hl.
  - vm_compute. reflexivity.
  - assert (Hd : bool_decide (1 ∉ vertex_tombstones tx2) = true) by (vm_compute; reflexivity).
    apply (bool_decide_eq_true_1 _ Hd).
  - intros v Hv. vm_compute in Hv. discriminate Hv.
Defined.

(** A snapshot pinned before the first commit, which another one is pinned in
    the middle of; the flush then writes an embedding into the old buffer. *)
Definition derived : gset string := {["embedding"]}.
Definition tx1' : L0Buffer wf_graph value := tx_buffer 0 ops1.
Definition w0 : world wf_graph value := mkWorld (Manager.new 0 None) [] [] 0.
Definition v1 : SnapshotView := pin_snapshot (mgr w0).
Definition w1 : world wf_graph value := mkWorld (mgr w0) [(v1, query_context (mgr w0) v1)] [] 0.
Definition w1log : world wf_graph value := mkWorld (commit_log names (mgr w1) tx1').1 (live w1) [] 0.
Definition w1check : world wf_graph value := mkWorld (freeze_if_pinned (mgr w1log) (pins w1log)) (live w1) [] 1.
Definition v2 : SnapshotView := pin_snapshot (mgr w1check).
Definition w1late : world wf_graph value := mkWorld (mgr w1check) (live w1) [v2] 1.
Definition w2 : world wf_graph value := mkWorld (commit_merge (mgr w1late) tx1' 300).1 (live w1) [v2] 0.
Definition w3 : world wf_graph value := mkWorld (flush_l0_rotate (mgr w2) 1).1 (live w1) [v2] 0.
Definition w4 : world wf_graph value :=
  mkWorld (write_at (current (mgr w2)) (write_back 1 {["embedding" := VInt 8]}) (mgr w3)) (live w1) [v2] 0.

Lemma w2_reachable : wreachable derived 0 None w2.
Proof.
  apply (wreach_step derived 0 None w1late); [|apply wstep_merge].
  apply (wreach_step derived 0 None w1check); [|apply wstep_pin_late].
  apply (wreach_step derived 0 None w1log); [|apply wstep_check].
  apply (wreach_step derived 0 None w1); [|apply (wstep_log derived w1 names tx1')].
  apply (wreach_step derived 0 None w0); [constructor|apply wstep_pin].
Qed.

Lemma flushed_reachable : wreachable derived 0 None w4.
Proof.
  apply (wreach_step derived 0 None w3).
  - assert (Hs : rtc (wstep derived) w2 w3) by (apply flush_l0_rotate_steps; vm_compute; lia).
    pose proof w2_reachable as Hr. revert Hr. generalize w3, Hs. clear. intros w' Hs.
    induction Hs as [|x y z Hxy _ IH]; [done|]. intros Hx. apply IH. by eapply wreach_step.
  - apply (wstep_write_back derived w3). unfold derived. rewrite dom_singleton_L. done.
Qed.


(** Pinned between the check and the merge, it does. *)
Lemma late_pin_sees_commit_witness :
  exists m' c, commit_merge (mgr w0) (tx_buffer 0 ops1) 300 = (m', Ok c)
    /\ (lookup_vertex_prop 1 "a" (query_context (mgr w0) v1)).2 = None
    /\ (lookup_vertex_prop 1 "a" (query_context m' v1)).2 = Some (VInt 1).
Proof.
  destruct (commit_merge (mgr w0) (tx_buffer 0 ops1) 300) as [m' r] eqn:Hm.
  assert (Hr : is_ok (commit_merge (mgr w0) (tx_buffer 0 ops1) 300).2 = true) by (vm_compute; reflexivity).
  rewrite Hm in Hr. destruct r as [c|e]; [|discriminate Hr]. exists m', c. split; [reflexivity|].
  split; [vm_compute; reflexivity|].
  apply (late_pin_sees_commit (mgr w0) [] (tx_buffer 0 ops1) 300 m' c 1 "a" (VInt 1)).
  - eexists. reflexivity.
  - exact Hm.
  - assert (Hd : bool_decide (1 ∉ vertex_tombstones (tx_buffer (G := wf_graph) 0 ops1)) = true) by (vm_compute; reflexivity).
    apply (bool_decide_eq_true_1 _ Hd).
  - vm_compute. reflexivity.
  - reflexivity.
Defined.

(** Pinned while the buffer holding that commit is rotated out, it misses it. *)
Lemma pin_in_rotation_gap_witness :
  (lookup_vertex_prop 1 "a" (query_context (mgr w2) (pin_snapshot (mgr w2)))).2 = Some (VInt 1)
  /\ (let m1 := (rotate (mgr w2) 0 None).1 in lookup_vertex_prop 1 "a" (query_context m1 (pin_snapshot m1))).2 = None.
Proof.
  destruct (pin_in_rotation_gap derived 0 None w2 0 None 1 "a" (VInt 1) w2_reachable) as (_ & H1 & H2 & _).
  - vm_compute. reflexivity.
  - intros l Hl. vm_compute in Hl. inversion Hl.
  - exact (conj H1 H2).
Defined.

(** A commit is rotated out, streamed and published. *)
Definition d0 : db wf_graph value := mkDb (Manager.new 0 None) ∅ ∅ ∅ 0 [] 0 0.
Definition d1 : db wf_graph value :=
  mkDb (write_at 0 id (d_mgr d0)) (<[0%nat := {[1]} ∪ held_by d0 0]> ∅) ∅ ({[1]} ∪ ∅) 1 [] 0 0.
Definition d2 : db wf_graph value :=
  mkDb (flush_l0_rotate (d_mgr d1) 1).1 (held d1) ∅ (committed_lsns d1) 1 [mkFlushing 0 1 Rotated] 0 0.
Definition d3 : db wf_graph value :=
  mkDb (d_mgr d2) (held d1) ∅ (committed_lsns d1) 1 [mkFlushing 0 1 (Streamed (safe_lsn (d_mgr d2) 0 1))] 0 0.
Definition d4 : db wf_graph value :=
  mkDb (d_mgr d2) (held d1) (held_by d3 0 ∪ ∅) (committed_lsns d1) 1 [mkFlushing 0 1 Published]
    (safe_lsn (d_mgr d2) 0 1) 0.

Lemma d4_reachable : dreachable d4.
Proof.
  apply (dreach_step d3); [|by apply (dstep_publish d3 [] [] 0 1 (safe_lsn (d_mgr d2) 0 1))].
  apply (dreach_step d2); [|by apply (dstep_stream d2 [] [] 0 1)].
  apply (dreach_step d1); [|by apply (dstep_rotate d1 (flush_l0_rotate (d_mgr d1) 1).1 0)].
  apply (dreach_step d0); [constructor|by apply (dstep_commit d0 1 false id)].
Qed.

Lemma checkpoint_never_passes_unflushed_witness : wal_high_water_mark d4 = 1 /\ 1 ∈ in_l1 d4.
Proof.
  assert (Hm : wal_high_water_mark d4 = 1) by (vm_compute; reflexivity). split; [exact Hm|].
  apply (checkpoint_never_passes_unflushed d4 1 d4_reachable).
  - cbn. apply elem_of_union. left. by apply elem_of_singleton.
  - left. rewrite Hm. lia.
Defined.
