(* ===== verification/AdjacencyExamples.v ===== *)
(** * Concrete runs of the layered adjacency

    Three edges of one type, one of them a self-loop and one deleted, before and
    after a compaction, and pins around a merge. *)

From S2P Require Import Prelude Csr BulkGate Pins Adjacency AdjacencyLayers AdjacencyRuns AdjacencyReads AdjacencyVersions AdjacencyHistory.

#[local] Existing Instance canonical_order.

(** Edge 10 from 1 to 2, edge 11 from 1 to itself, edge 12 from 3 to 1, and the
    deletion of edge 10. *)
Definition m3 : AdjacencyManager := insert_edge (insert_edge (insert_edge (new 1000) 1 2 10 5 3) 1 1 11 5 4) 3 1 12 5 5.
Definition kn3 : gmap Z (Z * Z * Z) := <[12 := (3, 1, 5)]> (<[11 := (1, 1, 5)]> (<[10 := (1, 2, 5)]> ∅)).
Definition w3 : aworld := mkWorld m3 Idle kn3 ∅.
Definition w4 : aworld := mkWorld (add_tombstone m3 10 1 2 5 6) Idle (<[10 := (1, 2, 5)]> kn3) ({[10]} ∪ ∅).

Lemma w3_reachable : areachable w3.
Proof.
  exists 1000. eapply rtc_l; [apply a_insert with (src := 1) (dst := 2) (eid := 10) (ty := 5) (ver := 3); try lia; [set_solver|by left|by vm_compute]|].
  eapply rtc_l; [apply a_insert with (src := 1) (dst := 1) (eid := 11) (ty := 5) (ver := 4); try lia; [set_solver|by left|by vm_compute]|].
  eapply rtc_l; [apply a_insert with (src := 3) (dst := 1) (eid := 12) (ty := 5) (ver := 5); try lia; [set_solver|by left|by vm_compute]|].
  apply rtc_refl.
Qed.

Lemma w4_reachable : areachable w4.
Proof.
  destruct w3_reachable as [b H]. exists b. eapply rtc_r; [exact H|].
  apply a_delete with (src := 1) (dst := 2) (eid := 10) (ty := 5) (ver := 6); try lia; [by right|by vm_compute].
Qed.

(** A warm of the outgoing rows from tables that hold edges 10 and 11: edge 12
    and the deletion of edge 10 are still in the active segment. *)
Definition tables5 : EdgeTables := mkTables (fun _ => []) (fun d => match d with Outgoing => [mkL1 1 2 10 0 3; mkL1 1 1 11 0 4] | _ => [] end).
Definition m5 : AdjacencyManager :=
  match warm_once (adj w4) BulkGate.new tables5 (Some 1) 5 Outgoing (at_most None) 0 with Some (m, _) => m | None => adj w4 end.
Definition w5 : aworld := mkWorld m5 Idle (known w4) (dead w4).

Lemma tables5_stored : stored w4 5 Outgoing [(1, 2, 10, 3); (1, 1, 11, 4)] ∅.
Proof.
  split.
  - intros x Hx. rewrite !elem_of_cons, elem_of_nil in Hx. destruct Hx as [-> |[-> |[]]]; [exists 1, 2|exists 1, 1]; by vm_compute.
  - set_solver.
  - intros x Hx Hd. right. rewrite !elem_of_cons, elem_of_nil in Hx. destruct Hx as [-> |[-> |[]]]; [by exists (mkTomb 10 1 2 5 6)|].
    cbn in Hd. set_solver.
  - intros e s t He Hd. assert (Hk : e = 10 \/ e = 11 \/ e = 12).
    { cbn [known w4] in He. unfold kn3 in He. rewrite !lookup_insert in He. repeat case_decide; subst; auto. by rewrite lookup_empty in He. }
    destruct Hk as [-> |[-> | ->]]; vm_compute in He; injection He as <- <-.
    + left. exists (1, 2, 10, 3). split; [left|done].
    + left. exists (1, 1, 11, 4). split; [right; left|done].
    + right. exists 5. vm_compute. left.
Qed.
Lemma w5_reachable : areachable w5.
Proof.
  destruct w4_reachable as [b H]. exists b. eapply rtc_r; [exact H|].
  eapply a_warm with (gate := BulkGate.new) (tables := tables5) (stamp := Some 1) (ty := 5) (d := Outgoing) (vis := at_most None) (epoch := 0);
    [done|vm_compute; reflexivity|exact tables5_stored|vm_compute; reflexivity].
Qed.

Lemma adjacency_reads_exact_witness :
  get_neighbors (adj w5) 1 5 Both = Some [(1, 11); (3, 12)]
  /\ (exists l, get_neighbors (adj w5) 1 5 Both = Some l /\ forall n e, (n, e) ∈ l <-> (e ∉ dead w5) /\ incident (known w5) 5 Both 1 n e)
  /\ exists m', compact (adj w5) = Some m' /\ get_neighbors m' 1 5 Both = Some [(1, 11); (3, 12)].
Proof.
  assert (Hr : get_neighbors (adj w5) 1 5 Both = Some [(1, 11); (3, 12)]) by (vm_compute; reflexivity).
  split; [exact Hr|]. destruct (adjacency_reads_exact w5 1 5 Both w5_reachable eq_refl) as [(l & El & _ & _ & Hl) Hc]; [lia|].
  split; [by exists l|]. destruct (Hc eq_refl) as (m' & E & _ & Eg). exists m'. split; [done|]. by rewrite Eg.
Defined.

(** Why a warm needs the tables to hold what compaction has moved: a warm
    installs the rows it reads in place of the packed ones, so an edge that a
    compaction moved there before a flush stored it is gone. *)
Example warm_drops_compacted_edges :
  (m ← compact (adj w3);
   '(m', _) ← warm_once m BulkGate.new (mkTables (fun _ => []) (fun _ => [])) (Some 1) 5 Outgoing (at_most None) 0;
   Some (get_neighbors m 1 5 Outgoing, get_neighbors m' 1 5 Outgoing))
  = Some (Some [(1, 11); (2, 10)], Some []).
Proof. vm_compute. reflexivity. Qed.

Lemma compaction_never_due_witness : flush_triggers_compaction (adj w4) = false /\ should_compact (adj w4) 1 = false.
Proof. destruct (compaction_never_due w4 w4_reachable) as (H1 & _ & H2). split; [exact H1|]. by apply H2; [|lia]. Defined.

Lemma torn_read_misses_edges_witness : exists m', compact (adj w3) = Some m'
  /\ (exists l, get_neighbors (adj w3) 1 5 Outgoing = Some l /\ (2, 10) ∈ l)
  /\ (exists l, get_neighbors (at_times (adj w3) m' m') 1 5 Outgoing = Some l /\ (2, 10) ∉ l).
Proof.
  destruct (compact (adj w3)) as [m'|] eqn:E; [|vm_compute in E; discriminate E].
  exists m'. split; [reflexivity|].
  destruct (torn_read_misses_edges w3 m' 1 5 2 10 Outgoing w3_reachable eq_refl E) as (H1 & _ & H3); [lia|done|set_solver| | |by split].
  - exists 1, 2, Outgoing. split; [reflexivity|]. split; [by left|reflexivity].
  - intros (es & ver & He & Hin). vm_compute in He. injection He as <-. by apply elem_of_nil in Hin.
Defined.

(** A session pinned at 7, a transaction at 9, then a merge. *)
Definition p1 : pworld := mkPWorld (pin_transaction (pin_checked (raise_horizon default_pins 4) 7).1.1 9 8).1
  [(mkGuard 9 (Some 8), false); (mkGuard 7 (Some 7), true)] [].

Lemma p1_reachable : preachable p1.
Proof.
  exists 4. eapply rtc_l; [by apply step_pin_checked with (v := 7)|].
  eapply rtc_l; [apply step_pin_transaction with (v := 9) (e := 8); [lia|reflexivity]|]. apply rtc_refl.
Qed.

Lemma pins_protect_history_witness : horizon (pins p1) <= 7 /\ (begin_merge (pins p1) true).1.2 = Some 7.
Proof.
  destruct (pins_protect_history p1 true p1_reachable) as [H1 _]. split.
  - apply (H1 (mkGuard 7 (Some 7))). right. by left.
  - vm_compute. reflexivity.
Defined.

(** Edge 10 lives from 3 to 6, edge 11 is created at 8 and deleted at 9, all
    before the first compaction. *)
Definition kn2 : gmap Z (Z * Z * Z) := <[11 := (1, 3, 5)]> (<[10 := (1, 2, 5)]> ∅).
Definition m_v : AdjacencyManager :=
  add_tombstone (add_tombstone (insert_edge (insert_edge (new 1000) 1 2 10 5 3) 1 3 11 5 8) 10 1 2 5 6) 11 1 3 5 9.
Definition v4 : vworld := mkV (mkWorld m_v Idle (<[11 := (1, 3, 5)]> (<[10 := (1, 2, 5)]> kn2)) ({[11]} ∪ ({[10]} ∪ ∅)))
  (<[11 := 8]> (<[10 := 3]> ∅)) (<[11 := 9]> (<[10 := 6]> ∅)) 0.

Lemma v4_reachable : vreachable v4.
Proof.
  exists 1000. eapply rtc_l; [apply v_insert with (src := 1) (dst := 2) (eid := 10) (ty := 5) (ver := 3); try lia; [done|set_solver|by vm_compute]|].
  eapply rtc_l; [apply v_insert with (src := 1) (dst := 3) (eid := 11) (ty := 5) (ver := 8); try lia; [done|set_solver|by vm_compute]|].
  eapply rtc_l; [apply v_delete with (src := 1) (dst := 2) (eid := 10) (ty := 5) (ver := 6); [done|set_solver]|].
  eapply rtc_l; [apply v_delete with (src := 1) (dst := 3) (eid := 11) (ty := 5) (ver := 9); [done|set_solver]|].
  apply rtc_refl.
Qed.

(** The reader at 5 gets edge 10, before the compaction. *)
Lemma versioned_reads_complete_witness : exists l, get_neighbors_at_version (adj (vw v4)) 1 5 Outgoing 5 = Some l /\ (2, 10) ∈ l.
Proof.
  destruct (versioned_reads_complete v4 1 5 Outgoing 5 v4_reachable eq_refl) as [(l & El & _ & Hl & _) _]; [lia|lia|vm_compute; discriminate|].
  exists l. split; [exact El|]. apply Hl.
  - exists 1, 2, Outgoing. split; [reflexivity|]. split; [by left|reflexivity].
  - split; [by exists 3|]. intros (dv & Hdv & Hle). vm_compute in Hdv. injection Hdv as <-. lia.
Defined.

Lemma compaction_shows_future_edges_witness : exists m', compact (adj (vw v4)) = Some m'
  /\ (exists l, get_neighbors_at_version (adj (vw v4)) 1 5 Outgoing 5 = Some l /\ (3, 11) ∉ l)
  /\ (exists l, get_neighbors_at_version m' 1 5 Outgoing 5 = Some l /\ (3, 11) ∈ l).
Proof.
  destruct (compact (adj (vw v4))) as [m'|] eqn:E; [|vm_compute in E; discriminate E]. exists m'. split; [reflexivity|].
  apply (compaction_shows_future_edges v4 m' 1 5 3 11 Outgoing 5 8 9 v4_reachable eq_refl E); try done; try lia.
  - split; [done|]. exists 1, 3. by split.
  - intros x Hx. vm_compute in Hx. by apply elem_of_nil in Hx.
Defined.

(** An edge written again at a newer version: before a compaction a reader
    between the two versions has it, after the compaction it does not, since
    only the newest entry of an edge is kept. *)
Lemma compaction_drops_older_version :
  let m := insert_edge (insert_edge (new 1000) 1 2 10 5 3) 1 2 10 5 8 in
  get_neighbors_at_version m 1 5 Outgoing 5 = Some [(2, 10)]
  /\ (m' ← compact m; get_neighbors_at_version m' 1 5 Outgoing 5) = Some [].
Proof. vm_compute. split; reflexivity. Qed.
