(* ===== verification/LocyExamples.v ===== *)
(** * Rule programs, run

    Instances of the rule compiler's theorems, and the corners in which it does
    not do what its comments say. *)

From Stdlib Require Import Strings.String.
From S2P Require Import Prelude Tarjan Stratify Locy LocyDeps LocyStrata.
#[local] Open Scope string_scope.
#[local] Existing Instance canonical_order.

(** ** Programs *)

Definition is_ref (neg : bool) (name : string) : RuleCondition := IsRef (mkIs ["x"] (mkQualified [name]) None neg).
(** [CREATE RULE name AS MATCH (x) WHERE x IS ... YIELD x] *)
Definition rule_def (name : string) (conds : list RuleCondition) : LocyStatement :=
  SRule (mkRule (mkQualified [name]) [mkPath None [PNode (Some "x")]] conds [] [] [] [] (Yield [mkYield true false (EVariable "x") None])).
Definition program_of (l : list LocyStatement) : LocyProgram := mkLocyProgram None [] l.

(** The table with a rule for every group. *)
Definition keep_rules (groups : gmap string (list RuleDefinition)) : gmap string CompiledRule :=
  map_imap (fun n defs => Some (mkCompiled n (where_conditions <$> defs))) groups.
Lemma keep_rules_table groups : dom (keep_rules groups) = dom groups /\ forall n r, keep_rules groups !! n = Some r -> cr_name r = n.
Proof.
  unfold keep_rules. split.
  - apply set_eq. intros n. rewrite !elem_of_dom, map_lookup_imap. destruct (groups !! n); cbn; split; by intros [? ?].
  - intros n r. rewrite map_lookup_imap. destruct (groups !! n) as [defs|]; cbn; [|done]. by intros [= <-].
Qed.
(** The passes with that table in the middle. *)
Definition strata_with (program : LocyProgram) (external : list string) : option (result LocyCompileError (list Stratum)) :=
  r ← analyse program ∅ external ∅;
  match r with
  | Err err => Some (Err err)
  | Ok (_, _, None) => Some (Ok [])
  | Ok (_, groups, Some strat) => strata ← assemble strat (keep_rules groups); Some (Ok strata)
  end.

(** [a] and [b] refer to each other, [c] to [a] and not to [d]. *)
Definition even_odd : LocyProgram :=
  program_of [rule_def "a" [is_ref false "b"]; rule_def "b" [is_ref false "a"]; rule_def "c" [is_ref false "a"; is_ref true "d"]; rule_def "d" []].
Definition names_of (strata : list Stratum) : list (nat * list string * bool * list nat) :=
  (fun s => (s_id s, cr_name <$> s_rules s, s_recursive s, s_depends_on s)) <$> strata.

Example even_odd_strata : (fun r => match r with Ok l => Some (names_of l) | Err _ => None end) <$> strata_with even_odd []
  = Some (Some [(0, ["a"; "b"], true, []); (1, ["d"], false, []); (2, ["c"], false, [1; 0])])%nat.
Proof. vm_compute. reflexivity. Qed.

Definition strata_of (o : option (result LocyCompileError (list Stratum))) : list Stratum := match o with Some (Ok l) => l | _ => [] end.


(** A negation on a cycle is refused, with the rules of the cycle. *)
Example cyclic_negation : strata_with (program_of [rule_def "p" [is_ref true "q"]; rule_def "q" [is_ref false "p"]]) []
  = Some (Err (CyclicNegation ["p"; "q"])).
Proof. vm_compute. reflexivity. Qed.

(** ** Names *)

(** An exact key does not always win: with two qualified keys before it the
    scan gives up, and the answer depends on the order of the keys. *)
Theorem exact_key_refused : resolve_unique ["adult"; "m1.adult"; "m2.adult"] "adult" = Some "adult"
  /\ resolve_unique ["m1.adult"; "m2.adult"; "adult"] "adult" = None.
Proof. split; reflexivity. Qed.

(** ** Models along a path *)

Definition scorer : gmap string CompiledModel := {["score" := mkModel "score" (Some (mkPathContext "x" "risk" "base"))]}.
Definition score_call : Expr := EFunctionCall "score" [EVariable "x"] false.

(** A model called inside an ALONG expression adds its dependency only when the
    whole expression is the call: under an operator it is not seen, and the rule
    is not ordered after the one the model reads. *)
Theorem along_operator_hides_model ctx (rule : string) edges : edges !! rule = None -> resolve_rule_name ctx "base" = "base" ->
  walk_locy_expr {["base"; rule]} ctx scorer rule edges (Cypher score_call) = Ok (<[rule := {["base"]}]> edges)
  /\ walk_locy_expr {["base"; rule]} ctx scorer rule edges (LBinaryOp (PrevRef "risk") LMul (Cypher score_call)) = Ok edges.
Proof.
  intros He Hr. split; [|done]. cbn -[resolve_rule_name]. unfold walk_call. assert (scorer !! "score" = Some (mkModel "score" (Some (mkPathContext "x" "risk" "base")))) as -> by done.
  cbn -[resolve_rule_name]. unfold link. rewrite Hr. rewrite decide_True by set_solver. cbn. unfold add_dep. cbn. rewrite He. cbn. by rewrite (right_id_L ∅ (∪)).
Qed.
Lemma along_operator_witness :
  walk_locy_expr {["base"; "r"]} (mkContext None ∅) scorer "r" ∅ (Cypher score_call) = Ok (<["r" := {["base"]}]> ∅)
  /\ walk_locy_expr {["base"; "r"]} (mkContext None ∅) scorer "r" ∅ (LBinaryOp (PrevRef "risk") LMul (Cypher score_call)) = Ok ∅.
Proof. apply (along_operator_hides_model (mkContext None ∅) "r" ∅); reflexivity. Defined.

(** ** Registered strata *)

(** Register three sources in turn: [a]; [b], which refers to [a]; and [A]. *)
Definition register (registry : list Stratum) (external : list string) (l : list LocyStatement) : list Stratum :=
  register_strata registry (strata_of (strata_with (program_of l) external)).
Definition registry3 : list Stratum :=
  register (register (register [] [] [rule_def "a" []]) ["a"] [rule_def "b" [is_ref false "a"]]) ["a"; "b"] [rule_def "A" []].

(** The ids of the registered strata are neither dense nor distinct, and the
    dependency of [b] on [a] is recorded under an id no stratum has; merging the
    two strata into a program drops it. *)
Theorem registered_ids_not_dense : names_of registry3 = [(0, ["a"], false, []); (2, ["b"], false, [1]); (2, ["A"], false, [])]%nat
  /\ names_of <$> merge_strata registry3 {["b"]} [] = Some [(0, ["a"], false, []); (1, ["b"], false, [])]%nat.
Proof. split; vm_compute; reflexivity. Qed.

(** Merging a program that queries [b] brings [a] with it, and not [A]. *)
Example merge_for_query : names_of <$> merge_strata registry3 (collect_referenced_rule_names (mkProgram [] ∅ [CGoalQuery (mkQualified ["b"])])) []
  = Some [(0, ["a"], false, []); (1, ["b"], false, [])]%nat.
Proof. vm_compute. reflexivity. Qed.
