(* ===== verification/ForkExamples.v ===== *)
(** * Forks: concrete runs

    A run at which the safety theorem applies, and what failed I/O operations
    and crashes outside its runs leave behind. *)

From stdpp Require Import strings.
From S2P Require Import Prelude CrashIO Forks ForkLifecycle ForkRuns ForkSafety ForkCascade.

Module ForkExamples.
Local Open Scope string_scope.

Definition tables : list string := ["vertices"; "edges"].
Definition point : ForkPoint := mkPoint 7 100 200 {["vertices"]} ∅.
Definition args (id : Z) : CreateArgs := mkArgs id "snap" 1 0 None None point false.
Definition S0 : @Sys unit := start empty_disk.

(** Running an operation, and the result of one that returns. *)
Definition all (n : nat) : list Outcome := replicate n Done.
Definition boot (w : @World unit) (script : list Outcome) : World :=
  match w with
  | Alive s => after (open_db tables true None (start (disk s)) script)
  | Dead d => after (open_db tables true None (start d) script)
  end.
Definition fork (id : Z) (name : string) (w : @World unit) (script : list Outcome) : World :=
  match w with
  | Alive s => after (open_or_create tt tables true (args id) name false s script)
  | Dead d => Dead d
  end.
Definition unfork (name : string) (w : @World unit) (script : list Outcome) : World :=
  match w with
  | Alive s => after (drop_fork true name (set_holders (fun _ => ∅) s) script)
  | Dead d => Dead d
  end.
Definition disk_of (w : @World unit) : @Disk unit := match w with Alive s => disk s | Dead d => d end.
Definition names (w : @World unit) : list string := (by_name (reg (start (disk_of w)))).*1.
Definition memory (w : @World unit) : list (string * ForkStatus) :=
  match w with Alive s => (fun p => (p.1, fk_status p.2)) <$> by_name (cache s) | Dead _ => [] end.
Definition branch_list (w : @World unit) : list (string * Branch) := elements (d_branches (disk_of w)).

Definition w0 : World := boot (Dead empty_disk) (all 2).
Definition w1 : World := fork 1 "x" w0 (all 20).

Example w1_forks : memory w1 = [("x", Active)] /\ branch_list w1 = [("vertices", (1, "vertices"))].
Proof. split; vm_compute; reflexivity. Qed.
Example w1_dropped : let w := unfork "x" w1 (all 20) in names w = [] /\ branch_list w = [] /\ d_files (disk_of w) = ∅.
Proof. split_and!; vm_compute; reflexivity. Qed.

(** Freshness of an id, evaluated. *)
Definition fresh_in (s : @Sys unit) (id : Z) : bool :=
  bool_decide (map_Forall (fun _ i => fk_id i <> id /\ fk_parent i <> Some id) (reg s))
  && bool_decide (tombs s !! id = None) && bool_decide (set_Forall (fun p : string * Branch => p.2.1 <> id) (branches s)).
Lemma fresh_in_ok s id : fresh_in s id = true -> fresh (reg s) (tombs s) (branches s) id.
Proof.
  unfold fresh_in. rewrite !andb_true_iff, !bool_decide_eq_true. intros [[H1 H2] H3]. split_and!; [exact H1|exact H2|].
  intros ds x Hx. by apply (H3 (ds, x)).
Qed.
(** One creation of a run. *)
Lemma fork_step a name w script : (match w with Alive s => fresh_in s (ca_id a) | Dead _ => false end) = true ->
  fst <$> ca_parent a <> Some (ca_id a) -> Forall clean script ->
  rtc (wstep tt tables) (Dead empty_disk) w ->
  rtc (wstep tt tables) (Dead empty_disk)
    (match w with Alive s => after (open_or_create tt tables true a name false s script) | Dead d => Dead d end).
Proof. destruct w as [s|d]; [|done]. intros Hf%fresh_in_ok Hp Hs Hw. eapply rtc_r; [exact Hw|]. by apply ws_open. Qed.
Lemma first_open_reachable : rtc (wstep tt tables) (Dead empty_disk) w0.
Proof. eapply rtc_r; [apply rtc_refl|]. apply (ws_reopen tt tables empty_disk None (all 2)). by apply Forall_replicate. Qed.

(** A crash after the branch is made, before the fork is active. *)
Definition half : World := fork 1 "x" w0 (all 4).
Lemma half_reachable : rtc (wstep tt tables) (Dead empty_disk) half.
Proof. apply (fork_step (args 1) "x" w0 (all 4)); [reflexivity|done|by apply Forall_replicate|exact first_open_reachable]. Qed.

Lemma fork_catalog_crash_safe_witness :
  rtc (wstep tt tables) (Dead empty_disk) half /\ exists d, half = Dead d /\ elements (d_branches d) = [("vertices", (1, "vertices"))]
  /\ exists n s k, (forall j, open_db tables true None (start d) (replicate (n + j) Done) = Ret s (replicate j Done) (Ok k)) /\ at_rest s.
Proof.
  split; [exact half_reachable|]. exists (disk_of half). split; [reflexivity|]. split; [reflexivity|].
  pose proof (fork_catalog_crash_safe tt tables half half_reachable None) as (n & s & k & E & Hr & _).
  exists n, s, k. split; [exact E|]. exact Hr.
Defined.

(** A fork of a fork, one beside it, and no session open. *)
Definition nested (id parent : Z) : CreateArgs :=
  mkArgs id "snap" 1 0 None (Some (parent, {["vertices" := (parent, "vertices")]})) point false.
Definition w2 : World :=
  match w1 with Alive s => after (open_or_create tt tables true (nested 2 1) "y" false s (all 20)) | Dead d => Dead d end.
Definition w3 : World := fork 3 "z" w2 (all 20).
Definition idle (w : @World unit) : @Sys unit :=
  match w with Alive s => set_inflight (fun _ => ∅) (set_holders (fun _ => ∅) s) | Dead d => start d end.
Lemma idle_reachable w : rtc (wstep tt tables) (Dead empty_disk) w -> (match w with Alive _ => True | Dead _ => False end) ->
  rtc (wstep tt tables) (Dead empty_disk) (Alive (idle w)).
Proof. destruct w as [s|d]; [|done]. intros H _. eapply rtc_r; [exact H|]. apply ws_sessions. Qed.
Lemma three_forks_reachable : rtc (wstep tt tables) (Dead empty_disk) w3.
Proof.
  apply (fork_step (args 3) "z" w2 (all 20)); [vm_compute; reflexivity|done|by apply Forall_replicate|].
  apply (fork_step (nested 2 1) "y" w1 (all 20)); [vm_compute; reflexivity|done|by apply Forall_replicate|].
  apply (fork_step (args 1) "x" w0 (all 20)); [vm_compute; reflexivity|done|by apply Forall_replicate|]. exact first_open_reachable.
Qed.

Lemma cascade_drops_subtree_witness :
  memory w3 = [("x", Active); ("y", Active); ("z", Active)]
  /\ (exists root, cache (idle w3) !! "x" = Some root /\ exists n s' res,
       (forall k, drop_fork_cascade true "x" (idle w3) (replicate (n + k) Done) = Ret s' (replicate k Done) (Some res)) /\ at_rest s')
  /\ memory (after (drop_fork_cascade true "x" (idle w3) (all 40))) = [("z", Active)].
Proof.
  split; [vm_compute; reflexivity|]. split; [|vm_compute; reflexivity].
  assert (H : exists root, cache (idle w3) !! "x" = Some root) by (vm_compute; eexists; reflexivity). destruct H as [root Hr].
  exists root. split; [exact Hr|].
  destruct (cascade_drops_subtree tt tables (idle w3) "x" root) as (n & s' & res & E & Ha & _);
    [apply idle_reachable; [exact three_forks_reachable|vm_compute; exact I]|exact Hr|].
  exists n, s', res. split; [exact E|exact Ha].
Defined.

(** ** Failed operations *)

(** The drop of a fork ignores that its tombstone could not be deleted.  A
    fork created under the same name is then active, and recovery at the next
    open removes its entry, by name, for the tombstone of the old one: the
    fork is gone and its branch is left on disk. *)
Theorem stale_tombstone_drops_fork :
  let dropped := unfork "x" w1 (all 7 ++ [Refused; Done]) in
  let again := fork 2 "x" dropped (all 20) in
  let reopened := boot again (all 20) in
  memory dropped = [] /\ memory again = [("x", Active)]
  /\ names reopened = [] /\ memory reopened = [] /\ branch_list reopened = [("vertices", (2, "vertices"))].
Proof. split_and!; vm_compute; reflexivity. Qed.

(** A creation whose last registry write fails reports the error but leaves
    the fork active in memory and pending on disk: it opens, and the next
    recovery rolls it back. *)
Theorem failed_activation_opens :
  let failed := fork 1 "x" w0 (all 4 ++ [Refused]) in
  let opened := fork 9 "x" failed (all 20) in
  memory failed = [("x", Active)] /\ opened = after (open_or_create tt tables true (args 9) "x" false
    (match failed with Alive s => s | Dead _ => S0 end) (all 20))
  /\ memory opened = [("x", Active)] /\ branch_list opened = [("vertices", (1, "vertices"))]
  /\ names (boot opened (all 20)) = [] /\ branch_list (boot opened (all 20)) = [].
Proof. split_and!; vm_compute; reflexivity. Qed.

(** A first registry write that fails leaves the name taken in memory. *)
Theorem failed_registration_blocks_name :
  let failed := fork 1 "x" w0 [Refused] in
  names failed = [] /\ memory failed = [("x", Pending)] /\ memory (fork 2 "x" failed (all 20)) = [("x", Pending)].
Proof. split_and!; vm_compute; reflexivity. Qed.

(** Recovery completes a drop although a branch delete failed, and with the
    tombstone goes the last record of the branch. *)
Theorem recovery_forgets_branch :
  let half_dropped := unfork "x" w1 (all 2) in
  let reopened := boot half_dropped ([Done; Refused] ++ all 20) in
  d_tombstones (disk_of half_dropped) <> ∅ /\ names reopened = [] /\ d_tombstones (disk_of reopened) = ∅
  /\ branch_list reopened = [("vertices", (1, "vertices"))]
  /\ branch_list (boot reopened (all 20)) = [("vertices", (1, "vertices"))].
Proof. split_and!; vm_compute; done. Qed.

(** A crash between the last two deletes of a drop leaves the schema overlay:
    the tombstone that would bring recovery back to it is already gone. *)
Theorem dropped_overlay_survives :
  let cut := unfork "x" w1 (all 8) in
  d_tombstones (disk_of cut) = ∅ /\ names cut = [] /\ d_overlays (disk_of cut) !! 1 = Some tt
  /\ d_overlays (disk_of (boot cut (all 20))) !! 1 = Some tt.
Proof. split_and!; vm_compute; reflexivity. Qed.

(** A branch that a fork makes on its first write to a table is recorded only
    afterwards: a crash in between, then dropping the fork, leaves it. *)
Theorem unrecorded_branch_survives :
  let made := match w1 with Alive s => after (ensure_branch_for_new true 1 {["vertices" := (1, "vertices")]} "edges" true true s (all 4)) | Dead d => Dead d end in
  let dropped := unfork "x" (boot made (all 20)) (all 20) in
  names dropped = [] /\ branch_list dropped = [("edges", (1, "edges"))].
Proof. split_and!; vm_compute; reflexivity. Qed.
End ForkExamples.
